(* ===== verification/_CoqProject ===== *)
-Q . S2P
Prelude.v
External.v
IndexVec.v
UseDefMap.v
UseDefFacts.v
FlowWalk.v
UseDefTheorems.v
Syntax.v
SemanticData.v
Effects.v
Annotations.v
Timeline.v
ScopeTree.v
SemanticIndex.v
BuilderState.v
BuilderOps.v
ScopeUnit.v
Scan.v
BuilderInv.v
ScanInv.v
ScanFlow.v
Walk.v
WalkInv.v
WalkFacts.v
Reference.v
ScanTheorems.v
WalkTheorems.v
QueryFacts.v
IndexTheorems.v
CallTheorems.v
Text.v
Identifiers.v
ConsoleFilter.v
ConsoleTheorems.v
Paths.v
OakInputs.v
OakQueries.v
OakScan.v
Scheduler.v
ScanPackages.v
OakDemo.v
Placement.v
PlacementApply.v
PlacementOps.v
PlacementEvict.v
PlacementTheorems.v
SchedulerTheorems.v
PackageTheorems.v
Lines.v
LineEnding.v
TextEdit.v
TextEditTheorems.v
Proto.v
Literate.v
LiterateTheorems.v
Document.v
DocumentTheorems.v
LoadContext.v
Metadata.v
Dap.v
DapServer.v
Rewriter.v
DapFacts.v
DapTheorems.v
Wire.v
IOPub.v
KernelShell.v
KernelTheorems.v
Namespace.v
Layers.v
Imports.v
FileImports.v
FileResolve.v
Ide.v
ResolveFacts.v
Revision.v
LookupFacts.v
ResolveDemo.v
ResolveTheorems.v
IdeTheorems.v
