(* ===== verification/Prelude.v ===== *)
(** * A verification library for ark.nvim

    ark.nvim is an R kernel with a language server. This library models nine
    parts of it and proves what makes them correct: the semantic analysis of
    one R file, the database of files and packages that feeds it, the scanner
    that keeps the database in step with the disk and the editor, the
    resolution of names across files, the queries of the editor (references,
    rename, definitions), the documents of the language server
    with their edits, the debug adapter, the messages and threads of the kernel,
    and the filter of the console's output.

    ** How the parts interact

    The scanner ([crates/oak_scan]) finds packages and scripts below the open
    folders, registers them in the database ([crates/oak_db]), and applies file
    and editor events to it. The semantic index ([crates/oak_semantic]) is
    built from the syntax tree of one registered file; while it is built, its
    resolver of imports asks the database what other files and packages bring
    in, which asks for their indexes. Language features resolve names through
    the indexes of all files. The debug adapter ([crates/ark/src/dap]) keeps the
    breakpoints the editor sets; the console injects calls for them into the
    code it runs, and those calls report back to the adapter. The threads of the
    kernel ([crates/amalthea]) read signed messages of the frontend, answer
    them, and send output and the messages of comms. The console filter
    ([crates/ark/src/console]) holds R's debug messages back until the next
    prompt.

    ** Conventions

    A Rust panic is [None] in a pure function, and [Panicked] in the state
    monad [M] ([Prelude]), whose other outcomes are [Done] and [OutOfFuel];
    [wp] is its weakest precondition. A [Vec] indexed by an id type is a list
    with the panics of its accessors ([IndexVec]); hash maps and sets are
    [gmap] and [gset]. Ids are [nat]s; where a width matters (arena indices,
    source ranks) it is written out. Bytes are [ascii] and a [&str] is a list
    of bytes ([Text]). Salsa inputs are entries of tables of a store ([Db]), as
    a query of salsa returns what its function returns.

    ** The semantic index

    - [IndexVec]: [oak_index_vec/src/lib.rs].
    - [UseDefMap], [FlowWalk]: [use_def_map.rs] and the control flow of
      [builder/walk.rs] ([walk_branch], [walk_loop_body]); [UseDefFacts],
      [FlowWalk] prove, [UseDefTheorems] states that the walk covers every
      execution path, exactly at the exit, and what snapshots see.
    - [Syntax], [SemanticData], [ScopeTree], [Timeline], [SemanticIndex]: the
      tree as the indexer reads it, and the data and queries of
      [semantic_index.rs].
    - [Effects], [Annotations]: [effects.rs], [effects/value_eval.rs] and
      [resolver.rs].
    - [BuilderState], [BuilderOps], [Scan], [Walk]: [builder.rs],
      [builder/effects.rs], [builder/scan.rs] and [builder/walk.rs], function
      by function; [build_index] is [Walk.build_index].
    - [ScopeUnit], [BuilderInv], [ScanInv], [WalkInv]: the invariant of the
      builder, and that both passes keep it. [ScanFlow], [WalkFacts],
      [QueryFacts] hold the lemmas of the theorems; [WalkFacts] also shows that
      fuel is monotone and that the index left is well formed.
    - [ScanTheorems], [WalkTheorems], [IndexTheorems], [CallTheorems]: a build
      ends without panics, the scan knows exactly what every execution binds,
      definitions reach uses through the right scopes, and the queries answer
      what their documentation says. [CallTheorems] has the specification of
      argument matching and, at its end, where the index does not do what its
      comments say.

    ** The database and the scanner

    - [Paths]: [aether_path/src/file_path.rs], [oak_core/src/file.rs] and
      [oak_db/src/package_layout.rs]; identities are canonical. Also comparison
      of texts and paths, and [dedup] of sorted lists.
    - [OakInputs], [OakQueries]: the inputs of [oak_db] and the lookups of
      [db.rs] and [file.rs].
    - [OakScan]: the updates of [oak_scan]: [inputs.rs], [stale.rs],
      [lookup.rs], [watch.rs] and [library.rs].
    - [Scheduler], [ScanPackages]: [scheduler.rs] and [packages.rs].
    - [SchedulerTheorems]: over every
      interleaving of folder changes, events and completions, a scan is never
      lost or doubled, the scheduler comes to rest, and no discovery event is
      dropped.
    - [Placement], [PlacementApply], [PlacementOps], [PlacementEvict]: what
      no update touches, and the placement invariant asked for by the comments
      of [File], [Package] and [Root], update by update.
      [PlacementTheorems] states it for every sequence of updates, and what a
      scan and the editor register; it also has the workspaces where it breaks
      (packages inside packages, folders inside folders).
    - [PackageTheorems]: load order and duplicate names are functions of the
      disk. [OakDemo] has the concrete workspaces of the witnesses.

    ** Name resolution across files

    - [LoadContext]: identities of files as URLs, and reads of the database;
      [load_context.rs] with its loaders ([Testthat], [Shiny]) and
      [directory.rs]: what the loader of a file makes visible to it.
      [Metadata]: the parsers of [oak_package_metadata] ([dcf.rs],
      [description.rs], [index.rs]) and the queries of [package.rs] over them;
      a [DESCRIPTION] is read back as it is written, and reading one never
      panics.
      [Namespace]: [oak_package_metadata/src/namespace.rs] and the queries of
      [package.rs] that read it.
    - [Layers], [Imports], [FileImports], [FileResolve]: [file_imports.rs] with
      [file_exports.rs] and [file_source_site.rs], the resolver of
      [imports.rs], and [file_resolve.rs] with [definition.rs] and
      [package_resolve.rs]. The queries that may take part in a cycle are the
      class [Queries], which these definitions read.
    - [Revision]: the bodies and cycle handlers of those queries, with
      [build_index] run on the resolver of the database, and what salsa
      promises of their answers ([revision]): answers come in an order, and
      each is its body over the answers before it, or its handler.
    - [ResolveFacts], [Revision], [LookupFacts]: source sites by path and the
      depth-first chase of exports, what the answers of a revision promise, and
      lookups through lists of places ([seen]).
    - [ResolveTheorems]: the two views of a load, and [sourced_by]; the chase of exports is exact and ends, lookups give
      exactly what their places give and never panic, the answers of a revision
      do not depend on their order, and the cache of effects does not show.
      [ResolveDemo]: a workspace and its revision, for witnesses.

    ** The queries of the editor

    - [Identifiers]: [RName] of [oak_core/src/identifier.rs] and the readers of
      names of [syntax_ext.rs]; what a rename writes is read back.
    - [Ide]: [workspace.rs], [identifier.rs], [definition.rs] and
      [all_used_files] of [oak_db], and [oak_ide]: [find_references.rs],
      [rename.rs] and [goto_definition.rs]. The tokens and nodes of a tree, with
      the results of their accessors, are the class [SyntaxTree].
    - [IdeTheorems]: what a lookup finds are definitions of some index
      ([minted]); the files a search reads and the references it finds are
      exactly those of a declarative description ([searched_in],
      [reference_at]); a rename edits every reference or says why it edits
      nothing. Files are in a [settled] database, nodes and ranges are inside
      their texts ([tree_lawful], [ranges_lawful]).
      [rename_leaves_other_arm] shows a rename that changes a program.

    ** Documents and text edits

    - [Text], [Lines]: characters, widths and white space of UTF-8 texts; lines
      and positions, with the interface of [biome_line_index].
    - [LineEnding]: [line_ending.rs]; [TextEdit]: [text_edit.rs] and
      [diff.rs]; [Proto]: [proto/from_proto.rs] and [proto/to_proto.rs], as
      modules of those names.
    - [Literate], [Document]: the two halves of [document.rs], the R view of a
      literate document and the document itself.
    - [TextEditTheorems] has the relation [spliced] (simultaneous replacement)
      that edits implement, [Proto] the relation [applies] (sequential
      changes).
    - [TextEditTheorems], [Proto], [LiterateTheorems],
      [DocumentTheorems]: edits replace everything at once, changes have their
      sequential meaning, conversions round-trip, the view has the shape of the
      document, and the parts of a document stay in sync. The last theorem of
      [DocumentTheorems] shows changes that [on_did_change] misplaces.

    ** The debug adapter

    - [Dap]: the state of [dap_state.rs]. [Dap.Dap] is the struct [Dap], a
      channel is the list of the messages sent on it, [BreakpointMap] has the
      paths and their aliases; one definition per method, with the same name
      ([bpm_...] for those of the map).
    - [DapServer]: the handlers of [dap_server.rs] behind [dispatch],
      [debugInfo] of [dap_jupyter_handler.rs], and [handle_breakpoint], which is
      [ps_handle_breakpoint] of [console_debug.rs]. [evaluate] is in two parts,
      before and after R runs; [during] is what the R code that runs does to
      the state.
    - [Rewriter]: [AnnotationRewriter] of [console_annotate.rs], with
      [ps_annotate_source] and the annotation of console input. The walk over
      the tree is the sequence of its [Visit]s; [annotate_places] shows that
      the walk, which updates all breakpoints list by list, places each by its
      line alone ([place]).
    - [DapFacts]: lemmas, and [run_ops], any sequence of requests, annotations,
      verifications, document changes, hits and sessions. [DapTheorems]:
      breakpoints stay well formed through any such sequence, what
      [setBreakpoints] answers, keeps and hides, references of variables are
      not reused, requests for the stack stay in bounds, and hit conditions
      count exactly. [second_request_forgets] shows a verified breakpoint lost.

    ** The messages and threads of the kernel

    - [Wire]: [wire_message.rs], [jupyter_message.rs], [header.rs],
      [originator.rs], [subscription_message.rs] and [session.rs]. A message is
      a kind with its content; the kinds that no modelled code looks into have
      a content that is a parameter. What is sent is read back; what is
      accepted, and when reading panics, is stated exactly.
    - [IOPub]: [socket/iopub.rs], one definition per method; what the thread
      sends is the log [sent].
    - [KernelShell]: [socket/shell.rs] with the comms of [socket/comm.rs] and
      [comm/], whose log is [effects]; [socket/control.rs]; [socket/stdin.rs],
      where [stdin_step] is one arrival or one choice of [select!].
    - [KernelTheorems]: IOPub against a thread without a buffer ([spec_run]);
      each request of the Shell is answered between its two statuses; the two
      threads together: output has the request it came with as parent
      ([keeps_request]); StdIn serves one request at a time. Three theorems show
      where the code does not do what its comments say.

    ** The console filter

    [ConsoleFilter] is [console_filter.rs]; [ConsoleTheorems] shows that a
    session of the filter conserves output, when it releases what it holds,
    and which call text it extracts.

    ** Fuel

    The two passes of the builder recurse on fuel, one unit per level of the
    syntax tree or deferred body; [build_index_total] needs more than the
    number of nodes of the program ([lsize esize program]), and
    [build_fuel_irrelevant] shows that any such fuel gives the same result. The
    loop of [feed] gets [feed_fuel], twice the length of the chunk and one: each
    turn consumes bytes or leaves the filtering state. The loops of [normalize]
    and [normalize_inline_r_line] recurse on the bytes that are left, by
    [Equations]. The chase of exports has [export_fuel], more than the keys
    that the files of the database export, each of which it visits once
    ([chase_spec]); [package_resolve] has more than the number of packages, so
    that only a cycle of re-exports exhausts it, which salsa answers with no
    candidates. Nothing else has fuel.

    ** Parameters

    Code outside the repository is a class with the documented laws as fields:
    text ranges ([text-size]), URLs, adaptors of [itertools] ([External]); the
    line index ([Lines]), the substring search of [memchr] ([LineEnding]), the
    diff of [dissimilar] ([TextEdit]) and the tree-sitter parser ([Document]);
    the handlers behind trait objects, with the alignment of their results and
    the holes they may report, and the resolver of imports ([Effects]); whether
    debug assertions are on ([BuildProfile]); the order of hash maps
    ([HashOrder]); URLs of paths ([UrlOps]), the reader of files ([DbReads]) and
    the R parser ([RParser]); the answers of salsa ([Queries], with the law
    [revision]); the hash of contents ([Blake3]) and R objects ([RObjects]);
    JSON, [hmac] and what [serde] derives ([Json], [Hmac], [HeaderJson],
    [ContentJson]), the contents of other kinds ([Contents]), new identifiers
    and times ([Stamps]), and the handlers of the language ([ShellHandler],
    [ControlHandler], [StdinReplies]); the tables of Unicode ([CharClass]) and
    the tokens and nodes of syntax trees ([SyntaxTree]).
    The debug adapter reads files through the record [Fs], and what R answers
    to conditions and log messages is [HitEval]. The file system of the scanner, with the directory walk
    of the [ignore] crate and the parser of [DESCRIPTION], is the record
    [Disk]; the clock of the console filter is a function. [Reference],
    [External], [OakDemo], [DapTheorems], [Wire], [Identifiers] and [IdeTheorems]
    have instances, on which the witnesses compute.

    ** Not modelled

    Sockets and threads of the kernel, its setup and heartbeat ([amalthea]), and
    the transports of the debug adapter, the R interface ([harp], [libr]) and what works
    through it (console loop, data explorer, variables): foreign state. The
    text of the code that the rewriter injects, and [dumpCell]. The handlers of the language server over
    tree-sitter trees. The scanner takes a
    parsed [DESCRIPTION] from [Disk], not from [Metadata]. Windows path prefixes. The recording of
    recoveries from cycles, and logging. [enclosing_bindings_chain] reads the whole
    chain of a use, where the code stops at the first scope that surely binds
    the name, so that its theorems on panics say more. *)

From stdpp Require Export base tactics list gmap strings option sorting.
From Stdlib Require Export NArith ZArith Lia.


(** ** Panics

    A Rust panic (an index out of range, an [assert!], an [unwrap] of
    [None]) is the value [None] of the option monad; [x ← m; k] is the
    sequencing that stops at the first panic. *)

Declare Scope ark_scope.
Delimit Scope ark_scope with ark.

(** [soft_assert!] of [crates/stdext/src/result.rs] in a build with debug
    assertions: it panics when the condition is false. In a release build it
    only logs, so a proof that it never fires covers both. *)
Definition soft_assert (c : bool) : option unit := if c then Some () else None.

(** Destructs the successful run of a sequence of fallible steps held by a
    hypothesis. *)
Ltac inv_run :=
  repeat match goal with
  | H : (_ ≫= _) = Some _ |- _ => apply bind_Some in H as (? & ? & ?)
  | H : Some _ = Some _ |- _ => injection H as H
  | H : None = Some _ |- _ => discriminate H
  | H : Some _ = None |- _ => discriminate H
  | H : (let '(_, _) := ?p in _) = Some _ |- _ => destruct p as [? ?]
  | H : _ ∧ _ |- _ => destruct H
  end; simplify_eq/=.

Create HintDb ark.

(** A value with the equation that defines it, for termination proofs. *)
Definition with_eq {A} (a : A) : { b | a = b } := exist _ a eq_refl.

(** ** Lists *)

Section list_lemmas.
Context {A : Type}.
Implicit Types l : list A.

(** [slice::partition_point]: the number of leading elements satisfying the
    predicate. On a slice partitioned by the predicate this is the answer the
    standard library's binary search gives. *)
Fixpoint partition_point (p : A → bool) (l : list A) : nat :=
  match l with
  | [] => 0
  | x :: l => if p x then S (partition_point p l) else 0
  end.

(** [Vec::insert]: shifts the tail right; panics past the end. *)
Definition vec_insert (pos : nat) (x : A) (l : list A) : option (list A) :=
  if decide (pos ≤ length l) then Some (take pos l ++ x :: drop pos l) else None.

Lemma partition_point_le p l : partition_point p l ≤ length l.
Proof. induction l as [|x l IH]; simpl; [lia|]. destruct (p x); simpl; lia. Qed.

Lemma lookup_insert_cases l i j x y :
  <[i := x]> l !! j = Some y → (i = j ∧ y = x) ∨ (l !! j = Some y ∧ (i ≠ j ∨ l !! i = None)).
Proof.
  destruct (decide (i = j)) as [->|Hne].
  - destruct (decide (j < length l)) as [Hlt|Hge].
    + rewrite list_lookup_insert_eq by done. intros ?; simplify_eq. by left.
    + rewrite list_insert_ge by lia. intros H. exfalso.
      apply lookup_lt_Some in H. lia.
  - rewrite list_lookup_insert_ne by done. auto.
Qed.

Lemma StronglySorted_app_iff (R : A → A → Prop) l1 l2 :
  StronglySorted R (l1 ++ l2) ↔
  StronglySorted R l1 ∧ StronglySorted R l2 ∧ (∀ x y, x ∈ l1 → y ∈ l2 → R x y).
Proof.
  induction l1 as [|a l1 IH]; simpl.
  - split; [intros H; repeat split; [constructor|done|] | tauto].
    intros x y Hx. by apply not_elem_of_nil in Hx.
  - split.
    + intros H. inversion H as [|? ? Hs Hf]; subst.
      apply IH in Hs as (H1 & H2 & H3). rewrite Forall_app in Hf. destruct Hf as [Hf1 Hf2].
      split; [by constructor|]. split; [done|].
      intros x y [->|Hx]%elem_of_cons Hy; [|by eauto].
      rewrite Forall_forall in Hf2. auto.
    + intros (H1 & H2 & H3). inversion H1 as [|? ? Hs Hf]; subst.
      constructor.
      * apply IH. split; [done|]. split; [done|]. intros; apply H3; [by constructor|done].
      * apply Forall_app. split; [done|]. apply Forall_forall. intros y Hy.
        apply H3; [by left|done].
Qed.

Lemma find_app {B} (p : B → bool) (l1 l2 : list B) :
  List.find p (l1 ++ l2) =
  match List.find p l1 with Some x => Some x | None => List.find p l2 end.
Proof. induction l1 as [|x l1 IH]; simpl; [done|]. by destruct (p x). Qed.

(** [List.find] over a list with its indices returns the first match. *)
Lemma find_imap (p : A → bool) l :
  match List.find (λ '(_, a), p a) (imap pair l) with
  | Some (i, a) => l !! i = Some a ∧ p a = true ∧ ∀ j b, j < i → l !! j = Some b → p b = false
  | None => ∀ j b, l !! j = Some b → p b = false
  end.
Proof.
  induction l as [|a l IH] using rev_ind; simpl; [done|].
  rewrite imap_app, find_app. destruct (List.find _ (imap pair l)) as [[i b]|].
  - destruct IH as (Hi & Hp & Hmin). split; [by apply lookup_app_l_Some|]. split; [done|].
    intros j c Hj Hc. apply (Hmin j c Hj). apply lookup_lt_Some in Hi.
    by rewrite lookup_app_l in Hc by lia.
  - simpl. rewrite Nat.add_0_r. destruct (p a) eqn:Hp.
    + split; [by rewrite lookup_app_r, Nat.sub_diag|]. split; [done|].
      intros j b Hj Hb. apply (IH j b). by rewrite lookup_app_l in Hb.
    + intros j b [Hb|[_ [_ <-]%list_lookup_singleton_Some]]%lookup_app_Some; eauto.
Qed.
End list_lemmas.

#[export] Hint Resolve partition_point_le : ark.

(** [iter().position(p)]. *)
Definition position {A} (P : A → Prop) `{∀ x, Decision (P x)} (l : list A) : option nat :=
  fst <$> list_find P l.

Lemma position_bound {A} (P : A → Prop) `{∀ x, Decision (P x)} l i :
  position P l = Some i → i < length l.
Proof.
  unfold position. intros ([j x] & (Hl & _)%list_find_Some & ->)%fmap_Some.
  by eapply lookup_lt_Some.
Qed.

(** ** Sorting by a key

    The stable sorts of the standard library ([sort_by_key],
    [sort_by_cached_key], [sort]), as insertion from the right. *)

Section sort.
Context {A K : Type} (le : K → K → bool) (key : A → K).

Fixpoint insert_by_key (x : A) (l : list A) : list A :=
  match l with
  | [] => [x]
  | y :: l => if le (key x) (key y) then x :: y :: l else y :: insert_by_key x l
  end.

Definition sort_by_key (l : list A) : list A := foldr insert_by_key [] l.

Definition key_lte (x y : A) : Prop := le (key x) (key y) = true.

Lemma insert_by_key_perm x l : insert_by_key x l ≡ₚ x :: l.
Proof. induction l as [|y l IH]; simpl; [done|]. destruct (le _ _); [done|]. rewrite IH. constructor. Qed.

Lemma sort_by_key_perm l : sort_by_key l ≡ₚ l.
Proof. induction l as [|x l IH]; simpl; [done|]. by rewrite insert_by_key_perm, IH. Qed.

Context (le_total : ∀ k1 k2, le k1 k2 = true ∨ le k2 k1 = true).
Context (le_trans : ∀ k1 k2 k3, le k1 k2 = true → le k2 k3 = true → le k1 k3 = true).

Lemma insert_by_key_sorted x l :
  StronglySorted key_lte l → StronglySorted key_lte (insert_by_key x l).
Proof.
  induction 1 as [|y l Hs IH Hy]; simpl; [by repeat constructor|].
  destruct (le (key x) (key y)) eqn:E.
  - constructor; [by constructor|]. constructor; [done|].
    eapply Forall_impl; [exact Hy|]. intros z Hz. by eapply le_trans.
  - constructor; [done|]. rewrite insert_by_key_perm. constructor; [|done].
    destruct (le_total (key x) (key y)); [congruence|done].
Qed.

Lemma insert_by_key_stable `{!EqDecision K} k x l :
  filter (λ y, key y = k) (insert_by_key x l) = filter (λ y, key y = k) (x :: l).
Proof.
  induction l as [|y l IH]; simpl; [done|]. destruct (le (key x) (key y)) eqn:E; [done|].
  rewrite filter_cons, IH, !filter_cons. repeat case_decide; try done. subst k.
  assert (le (key x) (key y) = true); [|congruence].
  match goal with He : key y = key x |- _ => rewrite He | He : key x = key y |- _ => rewrite He end.
  destruct (le_total (key x) (key x)), (le_total (key y) (key y)); done.
Qed.

(** The sort is a permutation, sorted, and keeps the order of equal keys. *)
Lemma sort_by_key_spec `{!EqDecision K} l :
  sort_by_key l ≡ₚ l ∧ StronglySorted key_lte (sort_by_key l) ∧
  ∀ k, filter (λ y, key y = k) (sort_by_key l) = filter (λ y, key y = k) l.
Proof.
  split; [apply sort_by_key_perm|].
  induction l as [|x l (IHs & IHf)]; simpl; [by repeat constructor|].
  split; [by apply insert_by_key_sorted|].
  intros k. rewrite insert_by_key_stable, !filter_cons, IHf. done.
Qed.

(** A list in strictly decreasing order is reversed. *)
Lemma sort_by_key_reverse l :
  StronglySorted (λ x y, le (key x) (key y) = false) l → sort_by_key l = reverse l.
Proof.
  assert (Hlast : ∀ x k, Forall (λ y, le (key x) (key y) = false) k → insert_by_key x k = k ++ [x]).
  { induction 1 as [|y k Hy _ IH]; simpl; [done|]. by rewrite Hy, IH. }
  induction 1 as [|x l _ IH Hx]; [done|]. simpl. rewrite IH, reverse_cons.
  by apply Hlast, Forall_reverse.
Qed.

(** Only one list is sorted and has the elements of each key in a given order. *)
Lemma sorted_unique `{!EqDecision K} (le_anti : ∀ k1 k2, le k1 k2 = true → le k2 k1 = true → k1 = k2) x y :
  StronglySorted key_lte x → StronglySorted key_lte y →
  (∀ k, filter (λ a, key a = k) x = filter (λ a, key a = k) y) → x = y.
Proof.
  intros Hx. revert y. induction Hx as [|a x Hx IH Ha]; intros y Hy Hf.
  - destruct y as [|b y]; [done|]. specialize (Hf (key b)). by rewrite filter_cons_True in Hf.
  - destruct y as [|b y]; [specialize (Hf (key a)); by rewrite filter_cons_True in Hf|].
    inversion Hy as [|? ? Hy' Hb]; subst. rewrite Forall_forall in Ha, Hb.
    assert (Hrefl : ∀ k, le k k = true) by (intros k; by destruct (le_total k k)).
    assert (Hab : key a = key b).
    { apply le_anti.
      - assert (b ∈ filter (λ c, key c = key b) (a :: x)) as [_ Hin]%list_elem_of_filter.
        { rewrite Hf. apply list_elem_of_filter. split; [done|left]. }
        apply elem_of_cons in Hin as [->|Hin]; [done|by apply Ha].
      - assert (a ∈ filter (λ c, key c = key a) (b :: y)) as [_ Hin]%list_elem_of_filter.
        { rewrite <-Hf. apply list_elem_of_filter. split; [done|left]. }
        apply elem_of_cons in Hin as [->|Hin]; [done|by apply Hb]. }
    pose proof (Hf (key a)) as Hfa. rewrite !filter_cons_True in Hfa by done. injection Hfa as -> _.
    f_equal. apply IH; [done|]. intros k. specialize (Hf k). rewrite !filter_cons in Hf.
    case_decide; [by injection Hf|done].
Qed.

Lemma sort_by_key_app `{!EqDecision K} (le_anti : ∀ k1 k2, le k1 k2 = true → le k2 k1 = true → k1 = k2) l m :
  sort_by_key (sort_by_key l ++ m) = sort_by_key (l ++ m).
Proof.
  destruct (sort_by_key_spec (sort_by_key l ++ m)) as (_ & Hs1 & Hf1).
  destruct (sort_by_key_spec (l ++ m)) as (_ & Hs2 & Hf2).
  apply (sorted_unique le_anti); [done..|]. intros k.
  rewrite Hf1, Hf2, !filter_app. f_equal. apply sort_by_key_spec.
Qed.
End sort.

Lemma StronglySorted_impl {A} (R Q : A → A → Prop) l :
  (∀ a b, R a b → Q a b) → StronglySorted R l → StronglySorted Q l.
Proof. intros HRQ. induction 1 as [|a l _ IH Ha]; constructor; [done|]. eapply Forall_impl; eauto. Qed.

(** A list whose elements are pairwise related, in any order. *)
Lemma StronglySorted_perm {A} (R : A → A → Prop) `{!Symmetric R} l k :
  l ≡ₚ k → StronglySorted R l → StronglySorted R k.
Proof.
  induction 1 as [|x l k Hp IH|x y l|l k m _ IH1 _ IH2]; intros Hs; auto.
  - inversion Hs as [|? ? Hs' Hf]; subst. constructor; [by auto|]. by rewrite <-Hp.
  - inversion Hs as [|? ? Hs' Hf]; subst. inversion Hs' as [|? ? Hs'' Hf']; subst.
    inversion Hf; subst. repeat constructor; auto.
Qed.

Lemma filter_sublist {A} (p : A → bool) l : sublist (List.filter p l) l.
Proof. induction l as [|a l IH]; simpl; [done|]. destruct (p a); by constructor. Qed.

(** Elements of aligned lists are paired. *)
Lemma Forall2_elem_l {A B} (P : A → B → Prop) l k a :
  Forall2 P l k → a ∈ l → ∃ b, b ∈ k ∧ P a b.
Proof.
  intros HF [i Hi]%list_elem_of_lookup_1. destruct (Forall2_lookup_l _ _ _ _ _ HF Hi) as (b & Hb & ?).
  exists b. split; [by eapply list_elem_of_lookup_2|done].
Qed.

Lemma Forall2_elem_r {A B} (P : A → B → Prop) l k b :
  Forall2 P l k → b ∈ k → ∃ a, a ∈ l ∧ P a b.
Proof.
  intros HF [i Hi]%list_elem_of_lookup_1. destruct (Forall2_lookup_r _ _ _ _ _ HF Hi) as (a & Ha & ?).
  exists a. split; [by eapply list_elem_of_lookup_2|done].
Qed.

(** A fallible map whose calls succeed. *)
Lemma mapM_total {A B} (f : A → option B) (P : A → B → Prop) l :
  (∀ a, a ∈ l → ∃ b, f a = Some b ∧ P a b) → ∃ k, mapM f l = Some k ∧ Forall2 P l k.
Proof.
  intros Hf. cut (∃ k, Forall2 (λ a b, f a = Some b) l k ∧ Forall2 P l k).
  { intros (k & Hk & HP). exists k. split; [by apply mapM_Some|done]. }
  induction l as [|a l IH]; [by exists []|].
  destruct (Hf a) as (b & ? & ?); [by left|]. destruct IH as (k & ? & ?); [intros; apply Hf; by right|].
  exists (b :: k). by split; constructor.
Qed.

(** Sequencing a fallible update over a list of arguments. *)
Fixpoint foldM {A S : Type} (f : A → S → option S) (l : list A) (s : S) : option S :=
  match l with
  | [] => Some s
  | a :: l => s' ← f a s; foldM f l s'
  end.

Section foldM_lemmas.
Context {A S : Type} (f : A → S → option S).

Lemma foldM_app l1 l2 s : foldM f (l1 ++ l2) s = foldM f l1 s ≫= foldM f l2.
Proof.
  revert s. induction l1 as [|a l1 IH]; intros s; simpl; [done|].
  destruct (f a s); simpl; auto.
Qed.

(** An invariant kept by each step is kept by the whole run. *)
Lemma foldM_inv (P : S → Prop) l s s' :
  (∀ a s s', a ∈ l → P s → f a s = Some s' → P s') →
  P s → foldM f l s = Some s' → P s'.
Proof.
  revert s. induction l as [|a l IH]; intros s Hstep HP Hrun; simpl in Hrun.
  - by simplify_eq.
  - inv_run. eapply IH; [|by eapply Hstep; [left|..]|done].
    intros; eapply Hstep; [by right|..]; done.
Qed.

(** A run of steps that never panic under the invariant does not panic. *)
Lemma foldM_total (P : S → Prop) l s :
  (∀ a s, a ∈ l → P s → ∃ s', f a s = Some s' ∧ P s') →
  P s → ∃ s', foldM f l s = Some s' ∧ P s'.
Proof.
  revert s. induction l as [|a l IH]; intros s Hstep HP; simpl; [eauto|].
  destruct (Hstep a s) as (s' & -> & HP'); [by left|done|]. simpl.
  apply IH; [|done]. intros; apply Hstep; [by right|done].
Qed.
End foldM_lemmas.

(** ** Stateful code that can panic *)

(** What a computation on a state [St] ends in. A panic keeps the state it
    happened in, so that theorems can say which panics are possible. Fuel bounds
    the depth of a recursion that is not structural. *)
Inductive outcome (St A : Type) :=
| Done (a : A) (s : St)
| Panicked (s : St)
| OutOfFuel.
Arguments Done {St A} _ _.
Arguments Panicked {St A} _.
Arguments OutOfFuel {St A}.

Definition M (St A : Type) : Type := St → outcome St A.

#[export] Instance M_ret St : MRet (M St) := λ A a s, Done a s.

#[export] Instance M_bind St : MBind (M St) := λ A B f m s,
  match m s with
  | Done a s => f a s
  | Panicked s => Panicked s
  | OutOfFuel => OutOfFuel
  end.

#[export] Instance M_fmap St : FMap (M St) := λ A B f m s,
  match m s with
  | Done a s => Done (f a) s
  | Panicked s => Panicked s
  | OutOfFuel => OutOfFuel
  end.

Section M.
Context {St : Type}.

Definition gets {A} (f : St → A) : M St A := λ s, Done (f s) s.
Definition modify (f : St → St) : M St () := λ s, Done () (f s).
Definition panic {A} : M St A := λ s, Panicked s.
Definition out_of_fuel {A} : M St A := λ s, OutOfFuel.

(** An expression that may panic, read off the state; and one that updates
    it. *)
Definition try_get {A} (f : St → option A) : M St A := λ s,
  match f s with Some a => Done a s | None => Panicked s end.
Definition try_update {A} (f : St → option (A * St)) : M St A := λ s,
  match f s with Some (a, s) => Done a s | None => Panicked s end.

(** [if cond { body }]. *)
Definition when (c : bool) (m : M St ()) : M St () := if c then m else mret ().

(** [for x in l { body }]. *)
Fixpoint for_each {A} (l : list A) (body : A → M St ()) : M St () :=
  match l with
  | [] => mret ()
  | x :: l => body x;; for_each l body
  end.

(** [for (i, x) in l.enumerate()]. *)
Fixpoint for_each_i {A} (i : nat) (l : list A) (body : nat → A → M St ()) : M St () :=
  match l with
  | [] => mret ()
  | x :: l => body i x;; for_each_i (S i) l body
  end.

(** [if let Some(x) = o { body }]. *)
Definition if_some {A} (o : option A) (body : A → M St ()) : M St () :=
  match o with Some x => body x | None => mret () end.

(** A sequence that ends ran both parts. *)
Lemma bind_Done {A C} (m : M St A) (k : A → M St C) s c s' :
  (m ≫= k) s = Done c s' → ∃ a s1, m s = Done a s1 ∧ k a s1 = Done c s'.
Proof. unfold mbind, M_bind. destruct (m s) as [a s1|s1|]; [eauto|done..]. Qed.

(** [wp m full Q s]: run from [s], [m] ends, and either in a state that
    satisfies [Q] or in a panic whose state satisfies [full]. *)
Definition wp {A} (m : M St A) (full : St → Prop) (Q : A → St → Prop) (s : St) : Prop :=
  match m s with
  | Done a s => Q a s
  | Panicked s => full s
  | OutOfFuel => False
  end.

Context (full : St → Prop).
Implicit Types s : St.

Lemma wp_ret {A} (a : A) (Q : A → St → Prop) s : Q a s → wp (mret a) full Q s.
Proof. done. Qed.

Lemma wp_bind {A B} (m : M St A) (f : A → M St B) (Q : B → St → Prop) s :
  wp m full (λ a, wp (f a) full Q) s → wp (m ≫= f) full Q s.
Proof. unfold wp, mbind, M_bind. by destruct (m s). Qed.

(** A prefix of a block as one computation. *)
Lemma wp_assoc {A B C} (m : M St A) (f : A → M St B) (g : B → M St C) (Q : C → St → Prop) s :
  wp ((m ≫= f) ≫= g) full Q s → wp (m ≫= λ a, f a ≫= g) full Q s.
Proof. unfold wp, mbind, M_bind. by destruct (m s). Qed.

Lemma wp_cut {A B C} (m : M St A) (f : A → M St C) (k : A → M St B)
    (Q : A → St → Prop) (R : B → St → Prop) s :
  wp (m ≫= λ a, f a ≫= λ _, mret a) full Q s → (∀ a s', Q a s' → wp (k a) full R s') →
  wp (m ≫= λ a, f a ≫= λ _, k a) full R s.
Proof.
  unfold wp, mbind, M_bind, mret, M_ret. destruct (m s) as [a s1| |]; [|done..].
  destruct (f a s1); [|done..]. intros HQ Hk. by apply Hk.
Qed.

Lemma wp_mono {A} (m : M St A) (Q R : A → St → Prop) s :
  wp m full Q s → (∀ a s, Q a s → R a s) → wp m full R s.
Proof. unfold wp. destruct (m s); naive_solver. Qed.

Lemma wp_fmap {A B} (f : A → B) (m : M St A) (Q : B → St → Prop) s :
  wp m full (λ a, Q (f a)) s → wp (f <$> m) full Q s.
Proof. unfold wp, fmap, M_fmap. by destruct (m s). Qed.

Lemma wp_gets {A} (f : St → A) (Q : A → St → Prop) s : Q (f s) s → wp (gets f) full Q s.
Proof. done. Qed.

Lemma wp_modify (f : St → St) (Q : () → St → Prop) s : Q () (f s) → wp (modify f) full Q s.
Proof. done. Qed.

Lemma wp_try_get {A} (f : St → option A) (Q : A → St → Prop) s :
  (∀ a, f s = Some a → Q a s) → (f s = None → full s) → wp (try_get f) full Q s.
Proof. unfold wp, try_get. destruct (f s); auto. Qed.

Lemma wp_try_update {A} (f : St → option (A * St)) (Q : A → St → Prop) s :
  (∀ a s', f s = Some (a, s') → Q a s') → (f s = None → full s) → wp (try_update f) full Q s.
Proof. unfold wp, try_update. destruct (f s) as [[]|]; auto. Qed.

Lemma wp_when (c : bool) (m : M St ()) (Q : () → St → Prop) s :
  (c = true → wp m full Q s) → (c = false → Q () s) → wp (when c m) full Q s.
Proof. destruct c; simpl; [auto|]. intros _ HQ. by apply wp_ret, HQ. Qed.

Lemma wp_if_some {A} (o : option A) (body : A → M St ()) (Q : () → St → Prop) s :
  (∀ x, o = Some x → wp (body x) full Q s) → (o = None → Q () s) →
  wp (if_some o body) full Q s.
Proof. destruct o; simpl; [auto|]. intros _ HQ. by apply wp_ret, HQ. Qed.

(** An invariant of the body is an invariant of the loop. *)
Lemma wp_for_each {A} (l : list A) (body : A → M St ()) (I : St → Prop) s :
  (∀ x s, x ∈ l → I s → wp (body x) full (λ _, I) s) → I s →
  wp (for_each l body) full (λ _, I) s.
Proof.
  revert s. induction l as [|x l IH]; intros s Hbody HI; simpl; [done|].
  apply wp_bind. eapply wp_mono; [apply Hbody; [by left|done]|]. intros [] s' HI'.
  apply IH; [|done]. intros; apply Hbody; [by right|done].
Qed.

Lemma wp_for_each_i {A} (l : list A) (body : nat → A → M St ()) (I : St → Prop) i s :
  (∀ j x s, l !! j = Some x → I s → wp (body (i + j) x) full (λ _, I) s) → I s →
  wp (for_each_i i l body) full (λ _, I) s.
Proof.
  revert i s. induction l as [|x l IH]; intros i s Hbody HI; simpl; [done|].
  apply wp_bind. eapply wp_mono.
  { specialize (Hbody 0 x s eq_refl HI). by rewrite Nat.add_0_r in Hbody. }
  intros [] s' HI'. apply IH; [|done]. intros j y s1 Hj HI1.
  replace (S i + j) with (i + S j) by lia. by apply Hbody.
Qed.
End M.

(** ** Invariants and frames *)

(** From a state satisfying [I], [m] ends in one that satisfies [I] and is
    related by [R] to the first, unless it panics in a [full] state. *)
Section keeps.
Context {St : Type} (full I : St → Prop).

Definition keeps (R : relation St) {A} (m : M St A) : Prop :=
  ∀ s, I s → wp m full (λ _ s', I s' ∧ R s s') s.

Lemma keeps_mono (R R' : relation St) {A} (m : M St A) :
  (∀ s s', R s s' → R' s s') → keeps R m → keeps R' m.
Proof. intros HR Hm s Hs. eapply wp_mono; [by apply Hm|]. naive_solver. Qed.

Context (R : relation St) `{!PreOrder R}.

Lemma keeps_ret {A} (a : A) : keeps R (mret a).
Proof. intros s Hs. by apply wp_ret. Qed.

Lemma keeps_bind {A B} (m : M St A) (f : A → M St B) :
  keeps R m → (∀ a, keeps R (f a)) → keeps R (m ≫= f).
Proof.
  intros Hm Hf s Hs. apply wp_bind. eapply wp_mono; [by apply Hm|].
  intros a s1 [H1 R1]. eapply wp_mono; [by apply Hf|].
  intros b s2 [H2 R2]. split; [done|by etrans].
Qed.

Lemma keeps_gets {A} (g : St → A) : keeps R (gets g).
Proof. intros s Hs. by apply wp_gets. Qed.

Lemma keeps_try_get {A} (g : St → option A) :
  (∀ s, I s → is_Some (g s)) → keeps R (try_get g).
Proof.
  intros Hg s Hs. apply wp_try_get; [done|]. intros Hn. destruct (Hg s Hs). congruence.
Qed.

Lemma keeps_modify (f : St → St) :
  (∀ s, I s → I (f s) ∧ R s (f s)) → keeps R (modify f).
Proof. intros Hf s Hs. apply wp_modify. by apply Hf. Qed.

Lemma keeps_when (c : bool) (m : M St ()) : keeps R m → keeps R (when c m).
Proof. intros Hm s Hs. apply wp_when; [intros _; by apply Hm|done]. Qed.

Lemma keeps_if_some {A} (o : option A) (f : A → M St ()) :
  (∀ x, o = Some x → keeps R (f x)) → keeps R (if_some o f).
Proof. intros Hf s Hs. apply wp_if_some; [intros x Hx; by apply Hf|done]. Qed.

Lemma keeps_for_each {A} (l : list A) (f : A → M St ()) :
  (∀ x, x ∈ l → keeps R (f x)) → keeps R (for_each l f).
Proof.
  induction l as [|x l IH]; intros Hf; simpl; [by apply keeps_ret|].
  apply keeps_bind; [apply Hf; by left|]. intros _. apply IH. intros; apply Hf; by right.
Qed.

Lemma keeps_for_each_i {A} (l : list A) (f : nat → A → M St ()) i :
  (∀ j x, l !! j = Some x → keeps R (f (i + j) x)) → keeps R (for_each_i i l f).
Proof.
  revert i. induction l as [|x l IH]; intros i Hf; simpl; [by apply keeps_ret|].
  apply keeps_bind; [rewrite <-(Nat.add_0_r i); by apply (Hf 0)|]. intros _. apply IH.
  intros j y Hj. replace (S i + j) with (i + S j) by lia. by apply Hf.
Qed.
End keeps.

(** One structural step of a [keeps] proof. *)
Ltac keeps_step :=
  lazymatch goal with
  | |- keeps _ _ _ (mret _) => refine (keeps_ret _ _ _ _)
  | |- keeps _ _ _ (gets _) => refine (keeps_gets _ _ _ _)
  | |- keeps _ _ _ (when _ _) => refine (keeps_when _ _ _ _ _ _)
  | |- keeps _ _ _ (if_some _ _) => refine (keeps_if_some _ _ _ _ _ _); intros ? ?
  | |- keeps _ _ _ (for_each _ _) => refine (keeps_for_each _ _ _ _ _ _); intros ? ?
  | |- keeps _ _ _ (_ ≫= _) => refine (keeps_bind _ _ _ _ _ _ _); [|intros ?]
  end.
