(* ===== verification/External.v ===== *)
(** * Interfaces of third-party code

    The crates below are not part of the repository. Each is a class: the
    operations the source calls, and as laws the behaviour their documentation
    states. Definitions that use them take the class as an argument. Each class
    has a reference instance, used by the witnesses to evaluate. *)

From S2P Require Import Prelude.

(** ** itertools *)

Inductive EitherOrBoth (A : Type) : Type :=
| ELeft (a : A)
| ERight (b : A)
| EBoth (a b : A).
Arguments ELeft {A} a.
Arguments ERight {A} b.
Arguments EBoth {A} a b.

(** [Itertools::merge_join_by]: walks two iterators, comparing their heads. *)
Class MergeJoinBy := {
  merge_join_by {A : Type} : (A → A → comparison) → list A → list A → list (EitherOrBoth A);
  merge_join_by_nil_l {A : Type} cmp (l : list A) :
    merge_join_by cmp [] l = ERight <$> l;
  merge_join_by_nil_r {A : Type} cmp (l : list A) :
    merge_join_by cmp l [] = ELeft <$> l;
  merge_join_by_cons {A : Type} cmp (a b : A) la lb :
    merge_join_by cmp (a :: la) (b :: lb) =
    match cmp a b with
    | Lt => ELeft a :: merge_join_by cmp la (b :: lb)
    | Gt => ERight b :: merge_join_by cmp (a :: la) lb
    | Eq => EBoth a b :: merge_join_by cmp la lb
    end;
}.

Fixpoint merge_join_ref {A : Type} (cmp : A → A → comparison) (la : list A)
    : list A → list (EitherOrBoth A) :=
  fix go lb :=
    match la, lb with
    | [], _ => ERight <$> lb
    | _, [] => ELeft <$> la
    | a :: la', b :: lb' =>
        match cmp a b with
        | Lt => ELeft a :: merge_join_ref cmp la' lb
        | Gt => ERight b :: go lb'
        | Eq => EBoth a b :: merge_join_ref cmp la' lb'
        end
    end.

#[export, refine] Instance merge_join_reference : MergeJoinBy :=
  {| merge_join_by := @merge_join_ref |}.
Proof.
  - intros A cmp l. by destruct l.
  - intros A cmp l. by destruct l.
  - done.
Defined.

(** Adaptors of iterators, run to the end. [coalesce] merges an element with
    the next as long as the closure, which may panic, answers [inl];
    [merge_by] takes the left element when the closure holds; [dedup_by] drops
    elements equal to the one before. *)
Class Itertools := {
  coalesce {A : Type} : (A → A → option (A + A * A)) → list A → option (list A);
  coalesce_nil {A : Type} (f : A → A → option (A + A * A)) : coalesce f [] = Some [];
  coalesce_one {A : Type} (f : A → A → option (A + A * A)) a : coalesce f [a] = Some [a];
  coalesce_cons {A : Type} (f : A → A → option (A + A * A)) a b l :
    coalesce f (a :: b :: l) =
    match f a b with
    | None => None
    | Some (inl c) => coalesce f (c :: l)
    | Some (inr (a', b')) => cons a' <$> coalesce f (b' :: l)
    end;
  merge_by {A : Type} : (A → A → bool) → list A → list A → list A;
  merge_by_nil_l {A : Type} f (l : list A) : merge_by f [] l = l;
  merge_by_nil_r {A : Type} f (l : list A) : merge_by f l [] = l;
  merge_by_cons {A : Type} f (a b : A) la lb :
    merge_by f (a :: la) (b :: lb) =
    if f a b then a :: merge_by f la (b :: lb) else b :: merge_by f (a :: la) lb;
  dedup_by {A : Type} : (A → A → bool) → list A → list A;
  dedup_by_nil {A : Type} (f : A → A → bool) : dedup_by f [] = [];
  dedup_by_one {A : Type} f (a : A) : dedup_by f [a] = [a];
  dedup_by_cons {A : Type} f (a b : A) l :
    dedup_by f (a :: b :: l) = if f a b then dedup_by f (a :: l) else a :: dedup_by f (b :: l);
}.

Fixpoint coalesce_from {A : Type} (f : A → A → option (A + A * A)) (a : A) (l : list A)
    : option (list A) :=
  match l with
  | [] => Some [a]
  | b :: l =>
      match f a b with
      | None => None
      | Some (inl c) => coalesce_from f c l
      | Some (inr (a', b')) => cons a' <$> coalesce_from f b' l
      end
  end.

Fixpoint merge_by_ref {A : Type} (f : A → A → bool) (la : list A) : list A → list A :=
  fix go lb :=
    match la, lb with
    | [], _ => lb
    | _, [] => la
    | a :: la', b :: lb' => if f a b then a :: merge_by_ref f la' lb else b :: go lb'
    end.

Fixpoint dedup_from {A : Type} (f : A → A → bool) (a : A) (l : list A) : list A :=
  match l with
  | [] => [a]
  | b :: l => if f a b then dedup_from f a l else a :: dedup_from f b l
  end.

#[refine] Instance itertools_reference : Itertools := {|
  coalesce A f l := match l with [] => Some [] | a :: l => coalesce_from f a l end;
  merge_by := @merge_by_ref;
  dedup_by A f l := match l with [] => [] | a :: l => dedup_from f a l end;
|}.
Proof.
  all: try done.
  - intros A f l. by destruct l.
  - intros A f l. by destruct l.
Defined.

(** ** [text-size]: offsets and ranges of a text

    A [TextSize] is a 32-bit offset, a [TextRange] a half-open range of them. *)
Class TextRanges := {
  TextRange : Type;
  TextRange_eq_dec :: EqDecision TextRange;
  TextRange_countable :: Countable TextRange;
  range_start : TextRange → N;
  range_end : TextRange → N;
  range_contains : TextRange → N → bool;
  range_empty : N → TextRange;
  range_start_end r : (range_start r ≤ range_end r)%N;
  range_contains_iff r o : range_contains r o = true ↔ (range_start r ≤ o < range_end r)%N;
  range_empty_start o : range_start (range_empty o) = o;
  range_empty_end o : range_end (range_empty o) = o;
}.

(** The instance witnesses use: a start and a length. *)
Definition text_ranges_reference : TextRanges.
Proof.
  refine {|
    TextRange := N * N;
    range_start := fst;
    range_end := λ r, (r.1 + r.2)%N;
    range_contains := λ r o, bool_decide (r.1 ≤ o)%N && bool_decide (o < r.1 + r.2)%N;
    range_empty := λ o, (o, 0%N);
  |}; simpl; intros; [lia| |done|lia].
  rewrite andb_true_iff, !bool_decide_eq_true. lia.
Defined.

(** The constructor, which panics on a reversed range, and the rest of what is
    used of ranges. *)
Class TextRangeOps `{TextRanges} := {
  range_new : N → N → option TextRange;
  range_at : N → N → option TextRange;
  range_len : TextRange → N;
  range_is_empty : TextRange → bool;
  range_contains_inclusive : TextRange → N → bool;
  range_new_spec s e :
    match range_new s e with
    | Some r => (s ≤ e)%N ∧ range_start r = s ∧ range_end r = e
    | None => (e < s)%N
    end;
  range_at_new o n : (o + n < 2 ^ 32)%N → range_at o n = range_new o (o + n);
  range_len_spec r : range_len r = (range_end r - range_start r)%N;
  range_is_empty_iff r : range_is_empty r = true ↔ range_start r = range_end r;
  range_contains_inclusive_iff r o :
    range_contains_inclusive r o = true ↔ (range_start r ≤ o ≤ range_end r)%N;
}.

Definition text_range_ops_reference : TextRangeOps (H := text_ranges_reference).
Proof.
  refine (@Build_TextRangeOps text_ranges_reference
    (λ s e, if bool_decide (s ≤ e)%N then Some (s, e - s)%N else None)
    (λ o n, Some (o, n))
    (λ r, r.2)
    (λ r, bool_decide (r.2 = 0%N))
    (λ r o, bool_decide (r.1 ≤ o ≤ r.1 + r.2)%N) _ _ _ _ _); simpl; intros.
  - case_bool_decide; simpl; lia.
  - rewrite bool_decide_true by lia. do 2 f_equal. lia.
  - lia.
  - rewrite bool_decide_eq_true. lia.
  - by rewrite bool_decide_eq_true.
Defined.

(** ** [url]: the addresses of files, compared only *)
Class Urls := {
  Url : Type;
  Url_eq_dec :: EqDecision Url;
}.

Definition urls_reference : Urls := {| Url := list Ascii.ascii |}.

(** ** Build profile

    Whether [cfg!(debug_assertions)] holds: assertions of debug builds are
    checked, and integer overflow panics instead of wrapping. *)
Class BuildProfile := debug_assertions : bool.
