(* ===== verification/IndexVec.v ===== *)
(** * Typed index vectors: [crates/oak_index_vec/src/lib.rs]

    An [IndexVec<I, V>] is its [raw] vector; an index is the [usize] it wraps.
    [define_index!] stores an index in a [u32] and refuses values above
    [MAX = u32::MAX - 1]. *)

From S2P Require Import Prelude.

Module IndexVec.

(** [$name::MAX] of [define_index!]. *)
Definition MAX : N := 4294967294.

(** [Idx::new]: [assert!(value <= Self::MAX)]. *)
Definition Idx_new (value : nat) : option nat :=
  if decide (N.of_nat value ≤ MAX)%N then Some value else None.

Section index_vec.
Context {V : Type}.
Implicit Types (raw : list V) (v : V) (id : nat).

Definition next_id raw : option nat := Idx_new (length raw).

Definition push raw v : option (list V * nat) :=
  id ← next_id raw; Some (raw ++ [v], id).

Definition get raw id : option V := raw !! id.

Definition len raw : nat := length raw.

Definition is_empty raw : bool := match raw with [] => true | _ => false end.

(** Each element with its index, [Idx::new] applied to each. *)
Definition iter raw : list (nat * V) := imap pair raw.

(** [Index::index] and [IndexMut::index_mut] panic out of range. *)
Definition index raw id : option V := raw !! id.

Definition index_mut raw id (f : V → option V) : option (list V) :=
  v ← raw !! id; v' ← f v; Some (<[id := v']> raw).

(** The first element whose range contains the offset; [in_range] is
    [value.range().contains(offset)]. *)
Definition contains (in_range : V → bool) raw : option (nat * V) :=
  List.find (λ '(_, v), in_range v) (iter raw).

Lemma Idx_new_Some value id :
  Idx_new value = Some id ↔ id = value ∧ (N.of_nat value ≤ MAX)%N.
Proof. unfold Idx_new. case_decide; naive_solver. Qed.

Lemma push_Some raw v raw' id :
  push raw v = Some (raw', id) ↔
  raw' = raw ++ [v] ∧ id = length raw ∧ (N.of_nat (length raw) ≤ MAX)%N.
Proof.
  unfold push, next_id. rewrite bind_Some. setoid_rewrite Idx_new_Some. naive_solver.
Qed.

Lemma push_total raw v :
  (N.of_nat (length raw) ≤ MAX)%N → push raw v = Some (raw ++ [v], length raw).
Proof. intros. by apply push_Some. Qed.

Lemma index_mut_Some raw id f raw' :
  index_mut raw id f = Some raw' ↔
  ∃ v v', raw !! id = Some v ∧ f v = Some v' ∧ raw' = <[id := v']> raw.
Proof. unfold index_mut. rewrite bind_Some. setoid_rewrite bind_Some. naive_solver. Qed.

Lemma index_mut_length raw id f raw' :
  index_mut raw id f = Some raw' → length raw' = length raw.
Proof. intros (? & ? & ? & ? & ->)%index_mut_Some. apply length_insert. Qed.

Lemma iter_elem_of raw i v : (i, v) ∈ iter raw ↔ raw !! i = Some v.
Proof.
  unfold iter. rewrite list_elem_of_lookup. setoid_rewrite list_lookup_imap. split.
  - intros (j & Hj). destruct (raw !! j) eqn:E; naive_solver.
  - intros H. exists i. by rewrite H.
Qed.
End index_vec.

End IndexVec.

#[export] Hint Resolve IndexVec.push_total : ark.
