(* ===== verification/UseDefMap.v ===== *)
(** * Use-def maps: [crates/oak_semantic/src/use_def_map.rs]

    Which definitions of a symbol can reach a use of it. Symbol, definition,
    use and enclosing-snapshot identifiers are indices of arenas; [FxHashMap]s
    are finite maps; a [SmallVec] is a list. *)

From S2P Require Import Prelude External IndexVec.

(** The uses arena: [Use] of [semantic_index.rs]; only its symbol matters
    here, so its range is a parameter. *)
Record Use {Range : Type} := mkUse { use_symbol : nat; use_range : Range }.
Arguments Use : clear implicits.
Arguments mkUse {Range} _ _.

(** ** [Bindings] *)

Record Bindings := mkBindings {
  definitions : list nat;
  may_be_unbound : bool;
}.

#[export] Instance Bindings_eq_dec : EqDecision Bindings.
Proof. solve_decision. Defined.

Module Bindings.

Definition unbound : Bindings := mkBindings [] true.

Definition contains_definition (b : Bindings) (id : nat) : bool :=
  bool_decide (id ∈ definitions b).

Definition definition_count (b : Bindings) : nat := length (definitions b).

Definition record_definition (def_id : nat) (b : Bindings) : Bindings :=
  mkBindings [def_id] false.

Definition add_definition (def_id : nat) (b : Bindings) : option Bindings :=
  let pos := partition_point (λ id, bool_decide (id < def_id)) (definitions b) in
  (* [pos >= len || definitions[pos] != def_id] *)
  let fresh := bool_decide (length (definitions b) ≤ pos) ||
               negb (bool_decide (definitions b !! pos = Some def_id)) in
  if fresh then
    defs ← vec_insert pos def_id (definitions b);
    Some (mkBindings defs (may_be_unbound b))
  else Some b.

Section merge.
Context `{MergeJoinBy}.

Definition either_id (e : EitherOrBoth nat) : nat :=
  match e with ELeft id | ERight id | EBoth id _ => id end.

Definition sorted_union (a b : list nat) : list nat :=
  either_id <$> merge_join_by Nat.compare a b.

Definition merge (other self : Bindings) : Bindings :=
  mkBindings (sorted_union (definitions self) (definitions other))
             (may_be_unbound self || may_be_unbound other).
End merge.

(** ** The sortedness invariant *)

(** "Definitions are stored sorted by ID so that merge is a linear
    merge-join": strictly, hence without duplicates. *)
Definition wf (b : Bindings) : Prop := StronglySorted lt (definitions b).

Lemma wf_unbound : wf unbound.
Proof. constructor. Qed.

Lemma wf_record_definition d b : wf (record_definition d b).
Proof. repeat constructor. Qed.

(** On a sorted list the partition point splits it around [d]. *)
Lemma partition_point_split d l :
  StronglySorted lt l →
  let p := partition_point (λ id, bool_decide (id < d)) l in
  (∀ x, x ∈ take p l → x < d) ∧ (∀ x, x ∈ drop p l → d ≤ x).
Proof.
  intros Hs; simpl. induction Hs as [|a l Hs IH Ha]; simpl.
  { split; intros x Hx; by apply not_elem_of_nil in Hx. }
  destruct IH as [IH1 IH2].
  case_bool_decide as Had; simpl.
  - split; [|done]. intros x [->|Hx]%elem_of_cons; auto.
  - split; [intros x Hx; by apply not_elem_of_nil in Hx|].
    rewrite Forall_forall in Ha. intros x [->|Hx]%elem_of_cons; [lia|].
    specialize (Ha x Hx). lia.
Qed.

(** A member of a sorted list sits at its own partition point. *)
Lemma partition_point_lookup d l :
  StronglySorted lt l →
  l !! partition_point (λ id, bool_decide (id < d)) l = Some d ↔ d ∈ l.
Proof.
  intros Hs. split; [apply list_elem_of_lookup_2|].
  induction Hs as [|a l Hs IH Ha]; [by intros ?%not_elem_of_nil|]; simpl.
  rewrite Forall_forall in Ha. intros [->|Hd]%elem_of_cons.
  - rewrite bool_decide_eq_false_2 by lia. done.
  - rewrite bool_decide_eq_true_2 by (by apply Ha). auto.
Qed.

Lemma sorted_insert_at d l :
  StronglySorted lt l → d ∉ l →
  let p := partition_point (λ id, bool_decide (id < d)) l in
  StronglySorted lt (take p l ++ d :: drop p l).
Proof.
  intros Hs Hd p. destruct (partition_point_split d l Hs) as [Hlt Hge]. fold p in Hlt, Hge.
  assert (Hgt : ∀ x, x ∈ drop p l → d < x).
  { intros x Hx. specialize (Hge x Hx). destruct (decide (x = d)) as [->|]; [|lia].
    destruct Hd. rewrite <-(take_drop p l). set_solver. }
  rewrite <-(take_drop p l) in Hs. apply StronglySorted_app_iff in Hs as (H1 & H2 & _).
  apply StronglySorted_app_iff. split; [done|]. split.
  - constructor; [done|]. by apply Forall_forall.
  - intros x y Hx [->|Hy]%elem_of_cons; [auto|].
    specialize (Hlt x Hx). specialize (Hgt y Hy). lia.
Qed.

(** [add_definition] never panics, keeps the invariant, adds exactly one
    element and leaves the flag alone. *)
Lemma add_definition_spec d b :
  wf b →
  ∃ b', add_definition d b = Some b' ∧ wf b' ∧
        may_be_unbound b' = may_be_unbound b ∧
        (∀ x, x ∈ definitions b' ↔ x = d ∨ x ∈ definitions b).
Proof.
  intros Hwf. unfold add_definition.
  pose proof (partition_point_lookup d _ Hwf) as Hin.
  pose proof (sorted_insert_at d _ Hwf) as Hins. simpl in Hins.
  pose proof (partition_point_le (λ id, bool_decide (id < d)) (definitions b)) as Hp.
  set (p := partition_point _ _) in *.
  destruct (_ || _) eqn:Hfresh.
  - unfold vec_insert. rewrite decide_True by done. simpl.
    eexists; split; [done|]. split; [|split; [done|]]; simpl.
    + apply Hins. rewrite <-Hin. apply orb_true_iff in Hfresh as [Hl|Hn].
      * apply bool_decide_eq_true in Hl. by rewrite lookup_ge_None_2.
      * by apply negb_true_iff, bool_decide_eq_false in Hn.
    + intros x. rewrite <-(take_drop p (definitions b)) at 3. set_solver.
  - apply orb_false_iff in Hfresh as [_ Hd].
    apply negb_false_iff, bool_decide_eq_true, Hin in Hd. set_solver.
Qed.

Section merge_lemmas.
Context `{MergeJoinBy}.

Lemma sorted_union_elem_of a b x : x ∈ sorted_union a b ↔ x ∈ a ∨ x ∈ b.
Proof.
  unfold sorted_union. revert b. induction a as [|u a IHa]; intros b.
  - rewrite merge_join_by_nil_l, <-list_fmap_compose.
    replace (either_id ∘ ERight) with (id : nat → nat) by done.
    rewrite list_fmap_id. set_solver.
  - induction b as [|v b IHb].
    + rewrite merge_join_by_nil_r, <-list_fmap_compose.
      replace (either_id ∘ ELeft) with (id : nat → nat) by done.
      rewrite list_fmap_id. set_solver.
    + rewrite merge_join_by_cons.
      destruct (Nat.compare_spec u v); csimpl; rewrite elem_of_cons, ?IHa, ?IHb;
        set_solver.
Qed.

Lemma sorted_union_sorted a b :
  StronglySorted lt a → StronglySorted lt b → StronglySorted lt (sorted_union a b).
Proof.
  revert b. induction a as [|u a IHa]; intros b Ha Hb.
  - unfold sorted_union. rewrite merge_join_by_nil_l, <-list_fmap_compose.
    replace (either_id ∘ ERight) with (id : nat → nat) by done. by rewrite list_fmap_id.
  - inversion Ha as [|? ? Ha' Hua]; subst. rewrite Forall_forall in Hua.
    induction b as [|v b IHb].
    + unfold sorted_union. rewrite merge_join_by_nil_r, <-list_fmap_compose.
      replace (either_id ∘ ELeft) with (id : nat → nat) by done. by rewrite list_fmap_id.
    + inversion Hb as [|? ? Hb' Hvb]; subst. rewrite Forall_forall in Hvb.
      assert (Hshape : sorted_union (u :: a) (v :: b) =
        match u ?= v with
        | Lt => u :: sorted_union a (v :: b)
        | Gt => v :: sorted_union (u :: a) b
        | Eq => u :: sorted_union a b
        end).
      { unfold sorted_union. rewrite merge_join_by_cons. by destruct (u ?= v). }
      rewrite Hshape.
      destruct (Nat.compare_spec u v) as [->|Huv|Hvu]; constructor; auto;
        apply Forall_forall; intros x [Hx|Hx]%sorted_union_elem_of; auto.
      * apply elem_of_cons in Hx as [->|Hx]; [done|]. specialize (Hvb x Hx). lia.
      * apply elem_of_cons in Hx as [->|Hx]; [done|]. specialize (Hua x Hx). lia.
Qed.

Lemma wf_merge other self : wf self → wf other → wf (merge other self).
Proof. apply sorted_union_sorted. Qed.

Lemma merge_elem_of other self x :
  x ∈ definitions (merge other self) ↔ x ∈ definitions self ∨ x ∈ definitions other.
Proof. apply sorted_union_elem_of. Qed.
End merge_lemmas.

End Bindings.

#[export] Hint Resolve Bindings.wf_unbound Bindings.wf_record_definition Bindings.wf_merge : ark.

(** ** [UseDefMapBuilder] *)

Record UseDefMapBuilder := mkBuilder {
  symbol_states : list Bindings;
  bindings_by_use : list Bindings;
  lazy_defs : gmap nat (list nat);
  enclosing_snapshots : list Bindings;
  lazy_watchers : gmap nat (list nat);
}.

(** The immutable result of a walk. *)
Record UseDefMap := mkUseDefMap {
  udm_bindings_by_use : list Bindings;
  udm_enclosing_snapshots : list Bindings;
}.

(** [FlowSnapshot]: a copy of the symbol states. *)
Record FlowSnapshot := mkFlowSnapshot { snap_symbol_states : list Bindings }.

Module UseDefMap.

Definition bindings_at_use (use_id : nat) (m : UseDefMap) : option Bindings :=
  IndexVec.index (udm_bindings_by_use m) use_id.

Definition enclosing_snapshot (id : nat) (m : UseDefMap) : option Bindings :=
  IndexVec.index (udm_enclosing_snapshots m) id.

End UseDefMap.

Module Builder.

Definition new : UseDefMapBuilder := mkBuilder [] [] ∅ [] ∅.

Definition set_symbol_states (l : list Bindings) (b : UseDefMapBuilder) : UseDefMapBuilder :=
  mkBuilder l (bindings_by_use b) (lazy_defs b) (enclosing_snapshots b) (lazy_watchers b).

Definition set_bindings_by_use (l : list Bindings) (b : UseDefMapBuilder) : UseDefMapBuilder :=
  mkBuilder (symbol_states b) l (lazy_defs b) (enclosing_snapshots b) (lazy_watchers b).

Definition set_enclosing_snapshots (l : list Bindings) (b : UseDefMapBuilder)
    : UseDefMapBuilder :=
  mkBuilder (symbol_states b) (bindings_by_use b) (lazy_defs b) l (lazy_watchers b).

(** [n] turns of a loop that pushes an unbound entry. *)
Fixpoint push_unbound (n : nat) (states : list Bindings) : option (list Bindings) :=
  match n with
  | 0 => Some states
  | S n =>
      '(states, _) ← IndexVec.push states Bindings.unbound;
      push_unbound n states
  end.

(** [while symbol_states.len() <= symbol_id { push }] runs
    [symbol_id + 1 - len] times. *)
Definition ensure_symbol (symbol_id : nat) (b : UseDefMapBuilder) : option UseDefMapBuilder :=
  states ← push_unbound (S symbol_id - length (symbol_states b)) (symbol_states b);
  Some (set_symbol_states states b).

Definition notify_watchers (snapshots : list Bindings) (watchers : gmap nat (list nat))
    (symbol_id def_id : nat) : option (list Bindings) :=
  match watchers !! symbol_id with
  | Some ids =>
      foldM (λ snapshot_id snapshots,
        IndexVec.index_mut snapshots snapshot_id (Bindings.add_definition def_id)) ids snapshots
  | None => Some snapshots
  end.

Definition record_definition (symbol_id def_id : nat) (b : UseDefMapBuilder)
    : option UseDefMapBuilder :=
  states ← IndexVec.index_mut (symbol_states b) symbol_id
             (λ bs, Some (Bindings.record_definition def_id bs));
  snaps ← notify_watchers (enclosing_snapshots b) (lazy_watchers b) symbol_id def_id;
  Some (set_enclosing_snapshots snaps (set_symbol_states states b)).

(** The definitions of a symbol that the loop body introduced. *)
Definition new_loop_defs (pre_loop : FlowSnapshot) (b : UseDefMapBuilder) (symbol_id : nat)
    : option (list nat) :=
  pre_defs ← (if decide (symbol_id < length (snap_symbol_states pre_loop)) then
                bs ← IndexVec.index (snap_symbol_states pre_loop) symbol_id;
                Some (definitions bs)
              else Some []);
  post ← IndexVec.index (symbol_states b) symbol_id;
  Some (filter (λ d, d ∉ pre_defs) (definitions post)).

(** Adds [new_defs] to the use [use_id] when it is a use of [symbol_id]. *)
Definition patch_use {Range} (uses : list (Use Range)) (symbol_id : nat) (new_defs : list nat)
    (use_id : nat) (by_use : list Bindings) : option (list Bindings) :=
  u ← IndexVec.index uses use_id;
  if decide (use_symbol u = symbol_id) then
    foldM (λ def_id by_use,
      IndexVec.index_mut by_use use_id (Bindings.add_definition def_id)) new_defs by_use
  else Some by_use.

Definition finish_loop_defs {Range} (pre_loop : FlowSnapshot) (first_use : nat)
    (uses : list (Use Range)) (b : UseDefMapBuilder) : option UseDefMapBuilder :=
  foldM (λ symbol_id b,
    new_defs ← new_loop_defs pre_loop b symbol_id;
    match new_defs with
    | [] => Some b
    | _ =>
        by_use ← foldM (patch_use uses symbol_id new_defs)
                   (seq first_use (length (bindings_by_use b) - first_use))
                   (bindings_by_use b);
        Some (set_bindings_by_use by_use b)
    end)
    (seq 0 (length (symbol_states b))) b.

Definition record_super_definition (symbol_id def_id : nat) (b : UseDefMapBuilder)
    : option UseDefMapBuilder :=
  states ← IndexVec.index_mut (symbol_states b) symbol_id (Bindings.add_definition def_id);
  snaps ← notify_watchers (enclosing_snapshots b) (lazy_watchers b) symbol_id def_id;
  Some (set_enclosing_snapshots snaps (set_symbol_states states b)).

(** [map.entry(k).or_default().push(v)]. *)
Definition entry_push (k v : nat) (m : gmap nat (list nat)) : gmap nat (list nat) :=
  <[k := default [] (m !! k) ++ [v]]> m.

Definition record_lazy_definition (symbol_id def_id : nat) (b : UseDefMapBuilder)
    : option UseDefMapBuilder :=
  snaps ← notify_watchers (enclosing_snapshots b) (lazy_watchers b) symbol_id def_id;
  Some (mkBuilder (symbol_states b) (bindings_by_use b)
          (entry_push symbol_id def_id (lazy_defs b)) snaps (lazy_watchers b)).

Definition record_use (symbol_id use_id : nat) (b : UseDefMapBuilder)
    : option UseDefMapBuilder :=
  bindings ← IndexVec.index (symbol_states b) symbol_id;
  '(by_use, pushed_id) ← IndexVec.push (bindings_by_use b) bindings;
  _ ← soft_assert (bool_decide (use_id = pushed_id));
  Some (set_bindings_by_use by_use b).

Definition snapshot (b : UseDefMapBuilder) : FlowSnapshot :=
  mkFlowSnapshot (symbol_states b).

(** [while symbol_states.len() < num_symbols { push }] after the states were
    replaced. *)
Definition restore (snap : FlowSnapshot) (b : UseDefMapBuilder) : option UseDefMapBuilder :=
  let num_symbols := length (symbol_states b) in
  states ← push_unbound (num_symbols - length (snap_symbol_states snap))
             (snap_symbol_states snap);
  Some (set_symbol_states states b).

Section merge.
Context `{MergeJoinBy}.

(** The loop over [self.symbol_states] with the snapshot's iterator running
    alongside; an exhausted iterator stands for an unbound symbol. *)
Fixpoint merge_states (states snap : list Bindings) : list Bindings :=
  match states, snap with
  | [], _ => []
  | s :: states, o :: snap => Bindings.merge o s :: merge_states states snap
  | s :: states, [] => Bindings.merge Bindings.unbound s :: merge_states states []
  end.

Definition merge (snap : FlowSnapshot) (b : UseDefMapBuilder) : UseDefMapBuilder :=
  set_symbol_states (merge_states (symbol_states b) (snap_symbol_states snap)) b.
End merge.

Definition is_may_be_unbound (symbol_id : nat) (b : UseDefMapBuilder) : option bool :=
  may_be_unbound <$> IndexVec.index (symbol_states b) symbol_id.

Definition register_lazy_snapshot (symbol_id : nat) (b : UseDefMapBuilder)
    : option (UseDefMapBuilder * nat) :=
  bindings ← IndexVec.index (symbol_states b) symbol_id;
  bindings ← (match lazy_defs b !! symbol_id with
              | Some defs => foldM Bindings.add_definition defs bindings
              | None => Some bindings
              end);
  '(snaps, id) ← IndexVec.push (enclosing_snapshots b) bindings;
  Some (mkBuilder (symbol_states b) (bindings_by_use b) (lazy_defs b) snaps
          (entry_push symbol_id id (lazy_watchers b)), id).

Definition register_eager_snapshot (symbol_id : nat) (b : UseDefMapBuilder)
    : option (UseDefMapBuilder * nat) :=
  bindings ← IndexVec.index (symbol_states b) symbol_id;
  '(snaps, id) ← IndexVec.push (enclosing_snapshots b) bindings;
  Some (set_enclosing_snapshots snaps b, id).

(** [for (symbol_id, defs) in mem::take(lazy_defs)], in the map's order. *)
Definition fold_lazy_defs (b : UseDefMapBuilder) : option UseDefMapBuilder :=
  states ← foldM (λ '(symbol_id, defs) states,
             foldM (λ def_id states,
               IndexVec.index_mut states symbol_id (Bindings.add_definition def_id)) defs states)
             (map_to_list (lazy_defs b)) (symbol_states b);
  Some (mkBuilder states (bindings_by_use b) ∅ (enclosing_snapshots b) (lazy_watchers b)).

Definition final_bindings (b : UseDefMapBuilder) : list Bindings := symbol_states b.

Definition bound_symbol_ids (b : UseDefMapBuilder) : list nat :=
  (filter (λ '(_, bs), definitions bs ≠ []) (IndexVec.iter (symbol_states b))).*1.

Definition finish (b : UseDefMapBuilder) : UseDefMap :=
  mkUseDefMap (bindings_by_use b) (enclosing_snapshots b).

End Builder.
