(* ===== verification/UseDefFacts.v ===== *)
(** * Facts about the use-def map builder

    The builder's invariant, and for each operation that it does not panic
    under it, keeps it, and what it changes. *)

From S2P Require Import Prelude External IndexVec UseDefMap.

(** ** Growing vectors of bindings *)

(** [added P l l']: [l'] is [l] with definition [x] added at entry [i] exactly
    when [P i x]. *)
Definition added (P : nat → nat → Prop) (l l' : list Bindings) : Prop :=
  length l' = length l ∧
  ∀ i b, l !! i = Some b → ∃ b', l' !! i = Some b' ∧
    may_be_unbound b' = may_be_unbound b ∧
    ∀ x, x ∈ definitions b' ↔ x ∈ definitions b ∨ P i x.

Lemma added_refl l : added (λ _ _, False) l l.
Proof. split; [done|]. intros i b Hb. exists b. naive_solver. Qed.

Lemma added_trans P Q l1 l2 l3 :
  added P l1 l2 → added Q l2 l3 → added (λ i x, P i x ∨ Q i x) l1 l3.
Proof.
  intros [L1 H1] [L2 H2]. split; [congruence|]. intros i b Hb.
  destruct (H1 i b Hb) as (b1 & Hb1 & F1 & E1). destruct (H2 i b1 Hb1) as (b2 & Hb2 & F2 & E2).
  exists b2. split; [done|]. split; [congruence|]. intros x. rewrite E2, E1. tauto.
Qed.

Lemma added_iff P Q l l' : (∀ i x, P i x ↔ Q i x) → added P l l' → added Q l l'.
Proof.
  intros HPQ [L H]. split; [done|]. intros i b Hb. destruct (H i b Hb) as (b' & ? & ? & E).
  exists b'. split; [done|]. split; [done|]. intros x. by rewrite E, HPQ.
Qed.

Lemma sorted_lt_NoDup (l : list nat) : StronglySorted lt l → NoDup l.
Proof.
  induction 1 as [|x l Hs IH Hx]; constructor; [|done].
  intros Hin. rewrite Forall_forall in Hx. specialize (Hx x Hin). lia.
Qed.

(** A strictly sorted list is determined by its elements. *)
Lemma sorted_lt_ext (l1 l2 : list nat) :
  StronglySorted lt l1 → StronglySorted lt l2 → (∀ x, x ∈ l1 ↔ x ∈ l2) → l1 = l2.
Proof.
  intros H1 H2 Heq.
  assert (AntiSymm (=) lt) by (intros x y; lia).
  apply (StronglySorted_unique lt); [done..|].
  apply NoDup_Permutation; by try apply sorted_lt_NoDup.
Qed.

Lemma added_same P l l' i :
  Forall Bindings.wf l → Forall Bindings.wf l' → added P l l' → (∀ x, ¬ P i x) →
  l' !! i = l !! i.
Proof.
  intros Hl Hl' [Hlen Hadd] HP. destruct (l !! i) as [[ds f]|] eqn:E.
  - destruct (Hadd i _ E) as ([ds' f'] & E' & Hf & Hd). rewrite E'. simpl in *. subst.
    f_equal; f_equal. apply sorted_lt_ext.
    + by apply (Forall_lookup_1 _ _ _ _ Hl' E').
    + by apply (Forall_lookup_1 _ _ _ _ Hl E).
    + intros x. rewrite Hd. naive_solver.
  - apply lookup_ge_None in E. apply lookup_ge_None. lia.
Qed.

Section foldM_added.
Context {A : Type} (f : A → list Bindings → option (list Bindings)).
Context (P : A → nat → nat → Prop) (n : nat).

(** A fold of additions, each described by [P a], adds their union. *)
Lemma foldM_added as_ l :
  (∀ a l, a ∈ as_ → Forall Bindings.wf l → length l = n →
     ∃ l', f a l = Some l' ∧ Forall Bindings.wf l' ∧ added (P a) l l') →
  Forall Bindings.wf l → length l = n →
  ∃ l', foldM f as_ l = Some l' ∧ Forall Bindings.wf l' ∧
        added (λ i x, ∃ a, a ∈ as_ ∧ P a i x) l l'.
Proof.
  revert l. induction as_ as [|a as_ IH]; intros l Hstep Hwf Hn; simpl.
  - exists l. split; [done|]. split; [done|].
    eapply added_iff; [|apply added_refl]. set_solver.
  - destruct (Hstep a l) as (l1 & -> & Hwf1 & Hadd1); [by left|done|done|]. simpl.
    destruct (IH l1) as (l2 & -> & Hwf2 & Hadd2); [|done|by destruct Hadd1; congruence|].
    { intros; apply Hstep; [by right|done|done]. }
    exists l2. split; [done|]. split; [done|].
    eapply added_iff; [|by eapply added_trans]. intros i x; simpl. set_solver.
Qed.
End foldM_added.

(** Adding definitions one after the other. *)
Lemma fold_add_definition ds b :
  Bindings.wf b →
  ∃ b', foldM Bindings.add_definition ds b = Some b' ∧ Bindings.wf b' ∧
        may_be_unbound b' = may_be_unbound b ∧
        ∀ x, x ∈ definitions b' ↔ x ∈ definitions b ∨ x ∈ ds.
Proof.
  revert b. induction ds as [|d ds IH]; intros b Hwf; simpl.
  - exists b. set_solver.
  - destruct (Bindings.add_definition_spec d b Hwf) as (b1 & -> & W1 & F1 & X1). simpl.
    destruct (IH b1 W1) as (b2 & -> & W2 & F2 & X2). exists b2. setoid_rewrite X2.
    setoid_rewrite X1. split; [done|]. split; [done|]. split; [congruence|set_solver].
Qed.

Lemma index_mut_add l i d :
  Forall Bindings.wf l → i < length l →
  ∃ l', IndexVec.index_mut l i (Bindings.add_definition d) = Some l' ∧
        Forall Bindings.wf l' ∧ added (λ j x, j = i ∧ x = d) l l'.
Proof.
  intros Hwf [b Hb]%lookup_lt_is_Some.
  destruct (Bindings.add_definition_spec d b) as (b' & Hadd & Hwf' & Hflag & Hin).
  { by eapply Forall_lookup_1. }
  exists (<[i := b']> l). unfold IndexVec.index_mut. rewrite Hb; simpl. rewrite Hadd; simpl.
  split; [done|]. split; [by apply Forall_insert|].
  split; [by rewrite length_insert|]. intros j bj Hj.
  destruct (decide (i = j)) as [<-|Hne].
  - exists b'. rewrite list_lookup_insert_eq by (by eapply lookup_lt_Some).
    simplify_eq. split; [done|]. split; [done|]. intros x. rewrite Hin. naive_solver.
  - exists bj. rewrite list_lookup_insert_ne by done. naive_solver.
Qed.

Lemma fold_index_mut_add l i ds :
  Forall Bindings.wf l → i < length l →
  ∃ l', foldM (λ d l, IndexVec.index_mut l i (Bindings.add_definition d)) ds l = Some l' ∧
        Forall Bindings.wf l' ∧ added (λ j x, j = i ∧ x ∈ ds) l l'.
Proof.
  intros Hwf Hi.
  destruct (foldM_added (λ d l, IndexVec.index_mut l i (Bindings.add_definition d))
              (λ d j x, j = i ∧ x = d) (length l) ds l) as (l' & ? & ? & ?); [|done|done|].
  { intros d l1 _ Hwf1 Hl1. apply index_mut_add; [done|lia]. }
  exists l'. split; [done|]. split; [done|]. eapply added_iff; [|done]. naive_solver.
Qed.

(** ** The builder's invariant *)

Module BuilderFacts.
Import Builder.

Record wf (b : UseDefMapBuilder) : Prop := {
  wf_states : Forall Bindings.wf (symbol_states b);
  wf_uses : Forall Bindings.wf (bindings_by_use b);
  wf_snaps : Forall Bindings.wf (enclosing_snapshots b);
  wf_watchers : ∀ sym ids id,
    lazy_watchers b !! sym = Some ids → id ∈ ids → id < length (enclosing_snapshots b);
  wf_lazy : ∀ sym defs, lazy_defs b !! sym = Some defs → sym < length (symbol_states b);
}.

Lemma wf_new : wf new.
Proof. split; simpl; try constructor; intros; simplify_map_eq. Qed.

(** What is live for a symbol; one never interned is unbound. *)
Definition st (b : UseDefMapBuilder) (sym : nat) : Bindings :=
  default Bindings.unbound (symbol_states b !! sym).

(** The snapshots watching a symbol. *)
Definition watchers_of (b : UseDefMapBuilder) (sym : nat) : list nat :=
  default [] (lazy_watchers b !! sym).

Lemma watchers_entry_push b k v sym id :
  id ∈ default [] (entry_push k v (lazy_watchers b) !! sym) ↔
  id ∈ watchers_of b sym ∨ sym = k ∧ id = v.
Proof.
  unfold entry_push, watchers_of. destruct (decide (sym = k)) as [->|Hne].
  - rewrite lookup_insert_eq. simpl. set_solver.
  - rewrite lookup_insert_ne by done. naive_solver.
Qed.

Lemma st_wf b sym : wf b → Bindings.wf (st b sym).
Proof.
  intros Hwf. unfold st. destruct (_ !! sym) eqn:E; simpl; [|apply Bindings.wf_unbound].
  eapply Forall_lookup_1; [by apply wf_states|done].
Qed.

Lemma push_unbound_spec n l :
  (N.of_nat (length l + n) ≤ N.succ IndexVec.MAX)%N →
  push_unbound n l = Some (l ++ replicate n Bindings.unbound).
Proof.
  revert l. induction n as [|n IH]; intros l Hl; simpl; [by rewrite app_nil_r|].
  rewrite IndexVec.push_total by lia. simpl. rewrite IH by (rewrite length_app; simpl; lia).
  by rewrite <-app_assoc.
Qed.

Lemma st_push_unbound b l n sym :
  symbol_states b = l →
  default Bindings.unbound ((l ++ replicate n Bindings.unbound) !! sym) = st b sym.
Proof.
  intros <-. unfold st. destruct (decide (sym < length (symbol_states b))).
  - by rewrite lookup_app_l.
  - rewrite lookup_app_r by lia. rewrite (lookup_ge_None_2 (symbol_states b)) by lia.
    destruct (replicate n _ !! _) eqn:E; [|done].
    apply lookup_replicate in E as [-> _]. done.
Qed.

Lemma ensure_symbol_spec sym b :
  wf b → (N.of_nat sym ≤ IndexVec.MAX)%N →
  (N.of_nat (length (symbol_states b)) ≤ N.succ IndexVec.MAX)%N →
  ∃ b', ensure_symbol sym b = Some b' ∧ wf b' ∧
    length (symbol_states b') = length (symbol_states b) `max` S sym ∧
    (∀ s, st b' s = st b s) ∧
    b' = set_symbol_states (symbol_states b') b.
Proof.
  intros Hwf Hs Hl. unfold ensure_symbol. rewrite push_unbound_spec by lia. simpl.
  eexists; split; [done|]. split; [|split; [|split; [|done]]].
  - destruct Hwf. split; simpl; try done.
    + apply Forall_app. split; [done|]. apply Forall_replicate, Bindings.wf_unbound.
    + intros s ds Hds. rewrite length_app. specialize (wf_lazy0 s ds Hds). lia.
  - simpl. rewrite length_app, length_replicate. lia.
  - intros s. unfold st at 1. simpl. by apply st_push_unbound.
Qed.

Lemma notify_watchers_spec snaps watchers sym d :
  Forall Bindings.wf snaps →
  (∀ ids id, watchers !! sym = Some ids → id ∈ ids → id < length snaps) →
  ∃ snaps', notify_watchers snaps watchers sym d = Some snaps' ∧ Forall Bindings.wf snaps' ∧
    added (λ i x, i ∈ default [] (watchers !! sym) ∧ x = d) snaps snaps'.
Proof.
  intros Hwf Hids. unfold notify_watchers. destruct (watchers !! sym) as [ids|]; simpl.
  - destruct (foldM_added (λ i l, IndexVec.index_mut l i (Bindings.add_definition d))
      (λ i j x, j = i ∧ x = d) (length snaps) ids snaps) as (l' & ? & ? & ?); [|done|done|].
    { intros i l Hi Hl Hlen. apply index_mut_add; [done|]. rewrite Hlen. by eapply Hids. }
    exists l'. split; [done|]. split; [done|]. eapply added_iff; [|done]. naive_solver.
  - exists snaps. split; [done|]. split; [done|].
    eapply added_iff; [|apply added_refl]. set_solver.
Qed.

Lemma notify_builder b sym d :
  wf b →
  ∃ snaps', notify_watchers (enclosing_snapshots b) (lazy_watchers b) sym d = Some snaps' ∧
    Forall Bindings.wf snaps' ∧
    added (λ i x, i ∈ watchers_of b sym ∧ x = d) (enclosing_snapshots b) snaps'.
Proof. intros Hwf. apply notify_watchers_spec; [apply Hwf|]. intros; by eapply wf_watchers. Qed.

Lemma wf_update b states snaps :
  wf b → Forall Bindings.wf states → length states = length (symbol_states b) →
  Forall Bindings.wf snaps → length snaps = length (enclosing_snapshots b) →
  wf (set_enclosing_snapshots snaps (set_symbol_states states b)).
Proof.
  intros [] ? Hls ? Hln. split; simpl; try done.
  - intros. rewrite Hln. eauto.
  - intros. rewrite Hls. eauto.
Qed.

(** A plain definition shadows everything live for its symbol and reaches the
    lazy snapshots that watch it. *)
Lemma record_definition_spec sym d b :
  wf b → sym < length (symbol_states b) →
  ∃ b', record_definition sym d b = Some b' ∧ wf b' ∧
    length (symbol_states b') = length (symbol_states b) ∧
    (∀ s, st b' s = if decide (s = sym) then mkBindings [d] false else st b s) ∧
    bindings_by_use b' = bindings_by_use b ∧ lazy_defs b' = lazy_defs b ∧
    lazy_watchers b' = lazy_watchers b ∧
    added (λ i x, i ∈ watchers_of b sym ∧ x = d)
      (enclosing_snapshots b) (enclosing_snapshots b').
Proof.
  intros Hwf Hs. unfold record_definition, IndexVec.index_mut.
  destruct (lookup_lt_is_Some_2 _ _ Hs) as [bs Hbs]. rewrite Hbs. simpl.
  destruct (notify_builder b sym d Hwf) as (snaps' & -> & Hwf' & Hadd). simpl.
  eexists; split; [done|]. split; [|repeat split; try done]; simpl.
  - apply wf_update; [done| |by rewrite length_insert|done|apply Hadd].
    apply Forall_insert; [apply Hwf|apply Bindings.wf_record_definition].
  - by rewrite length_insert.
  - intros s. unfold st; simpl. case_decide as Hc.
    + subst. by rewrite list_lookup_insert_eq.
    + by rewrite list_lookup_insert_ne.
  - apply Hadd.
  - apply Hadd.
Qed.

(** A super-assignment only adds. *)
Lemma record_super_definition_spec sym d b :
  wf b → sym < length (symbol_states b) →
  ∃ b', record_super_definition sym d b = Some b' ∧ wf b' ∧
    length (symbol_states b') = length (symbol_states b) ∧
    (∀ s, may_be_unbound (st b' s) = may_be_unbound (st b s) ∧
          ∀ x, x ∈ definitions (st b' s) ↔ x ∈ definitions (st b s) ∨ s = sym ∧ x = d) ∧
    bindings_by_use b' = bindings_by_use b ∧ lazy_defs b' = lazy_defs b ∧
    lazy_watchers b' = lazy_watchers b ∧
    added (λ i x, i ∈ watchers_of b sym ∧ x = d)
      (enclosing_snapshots b) (enclosing_snapshots b').
Proof.
  intros Hwf Hs. unfold record_super_definition.
  destruct (index_mut_add (symbol_states b) sym d) as (states & -> & Hst & Hadds);
    [apply Hwf|done|]. simpl.
  destruct (notify_builder b sym d Hwf) as (snaps' & -> & Hwf' & Hadd). simpl.
  eexists; split; [done|]. split; [|repeat split; try done]; simpl;
    [|by apply Hadds|..|apply Hadd|apply Hadd].
  { apply wf_update; [done..|apply Hadds|done|apply Hadd]. }
  all: destruct Hadds as [Hlen Hadds]; unfold st; simpl;
    (destruct (symbol_states b !! s) as [bs|] eqn:E;
     [destruct (Hadds s bs E) as (bs' & -> & Hf & Hx)
     |rewrite (lookup_ge_None_2 states) by (rewrite Hlen; by apply lookup_ge_None)]); simpl.
  - done.
  - done.
  - rewrite Hx. tauto.
  - intros ?%not_elem_of_nil; done.
  - rewrite Hx. tauto.
  - intros [?%not_elem_of_nil|[-> _]]; [done|]. apply lookup_ge_None in E. lia.
Qed.

Lemma record_use_spec sym use_id b :
  wf b → sym < length (symbol_states b) → use_id = length (bindings_by_use b) →
  (N.of_nat use_id ≤ IndexVec.MAX)%N →
  record_use sym use_id b =
    Some (set_bindings_by_use (bindings_by_use b ++ [st b sym]) b) ∧
  wf (set_bindings_by_use (bindings_by_use b ++ [st b sym]) b).
Proof.
  intros Hwf Hs -> Hn. split.
  - unfold record_use, IndexVec.index, st.
    destruct (lookup_lt_is_Some_2 _ _ Hs) as [bs ->]. simpl.
    rewrite IndexVec.push_total by done. simpl. by rewrite bool_decide_eq_true_2.
  - pose proof (st_wf b sym Hwf). destruct Hwf. split; simpl; try done.
    apply Forall_app; auto.
Qed.

(** ** Snapshots, restores and merges *)

(** [snap] was taken from an earlier state of the builder [b]. *)
Definition snap_of (snap : FlowSnapshot) (b : UseDefMapBuilder) : Prop :=
  Forall Bindings.wf (snap_symbol_states snap) ∧
  length (snap_symbol_states snap) ≤ length (symbol_states b).

(** What was live for a symbol when the snapshot was taken. *)
Definition snap_st (snap : FlowSnapshot) (sym : nat) : Bindings :=
  default Bindings.unbound (snap_symbol_states snap !! sym).

Lemma snapshot_spec b : wf b → snap_of (snapshot b) b ∧ ∀ s, snap_st (snapshot b) s = st b s.
Proof. intros Hwf. split; [split; [apply Hwf|done]|done]. Qed.

Lemma restore_spec snap b :
  wf b → snap_of snap b →
  (N.of_nat (length (symbol_states b)) ≤ N.succ IndexVec.MAX)%N →
  ∃ b', restore snap b = Some b' ∧ wf b' ∧
    length (symbol_states b') = length (symbol_states b) ∧
    (∀ s, st b' s = snap_st snap s) ∧
    b' = set_symbol_states (symbol_states b') b.
Proof.
  intros Hwf [Hsw Hsl] Hl. unfold restore. rewrite push_unbound_spec by lia. simpl.
  assert (Hlen : length (snap_symbol_states snap ++
    replicate (length (symbol_states b) - length (snap_symbol_states snap)) Bindings.unbound)
    = length (symbol_states b)) by (rewrite length_app, length_replicate; lia).
  eexists; split; [done|]. split; [|split; [done|split; [|done]]].
  - destruct Hwf. split; simpl; try done.
    + apply Forall_app. split; [done|]. apply Forall_replicate, Bindings.wf_unbound.
    + intros s ds Hds. rewrite Hlen. eauto.
  - intros s. unfold st, snap_st; simpl.
    by apply (st_push_unbound (set_symbol_states (snap_symbol_states snap) b)).
Qed.

Section merge.
Context `{MergeJoinBy}.

Lemma merge_states_lookup states snap s :
  merge_states states snap !! s =
  (λ b, Bindings.merge (default Bindings.unbound (snap !! s)) b) <$> states !! s.
Proof.
  revert snap s. induction states as [|b states IH]; intros snap s; simpl.
  - by destruct snap.
  - destruct snap as [|o snap], s as [|s]; simpl; try done; by rewrite IH.
Qed.

Lemma merge_states_length states snap : length (merge_states states snap) = length states.
Proof.
  revert snap. induction states as [|b states IH]; intros [|o snap]; simpl; by rewrite ?IH.
Qed.

(** Each symbol gets the union of what is live on both paths; it may be
    unbound when it may be on either. *)
Lemma merge_spec snap b :
  wf b → snap_of snap b →
  wf (merge snap b) ∧ length (symbol_states (merge snap b)) = length (symbol_states b) ∧
  ∀ s, may_be_unbound (st (merge snap b) s) =
         may_be_unbound (st b s) || may_be_unbound (snap_st snap s) ∧
       ∀ x, x ∈ definitions (st (merge snap b) s) ↔
            x ∈ definitions (st b s) ∨ x ∈ definitions (snap_st snap s).
Proof.
  intros Hwf [Hsw Hsl]. split; [|split; [apply merge_states_length|]].
  - destruct Hwf. split; simpl; try done.
    + apply Forall_lookup_2. intros s bs. rewrite merge_states_lookup.
      intros (o & Ho & ->)%fmap_Some. apply Bindings.wf_merge;
        [by apply (Forall_lookup_1 _ _ _ _ wf_states0 Ho)|].
      destruct (snap_symbol_states snap !! s) eqn:E; simpl;
        [by apply (Forall_lookup_1 _ _ _ _ Hsw E)|apply Bindings.wf_unbound].
    + intros s ds Hds. rewrite merge_states_length. eauto.
  - intros s. unfold st at 1 3, snap_st. simpl. rewrite merge_states_lookup.
    unfold st. destruct (symbol_states b !! s) eqn:E; simpl.
    + split; [done|]. intros x. apply Bindings.merge_elem_of.
    + apply lookup_ge_None in E.
      rewrite (lookup_ge_None_2 (snap_symbol_states snap)) by lia. simpl. set_solver.
Qed.
End merge.

(** ** The loop fixup *)

Section finish_loop.
Context {Range : Type} (uses : list (Use Range)).

Lemma patch_use_spec sym ds j l :
  Forall Bindings.wf l → j < length l → length l = length uses →
  ∃ l', patch_use uses sym ds j l = Some l' ∧ Forall Bindings.wf l' ∧
    added (λ i x, i = j ∧ x ∈ ds ∧ use_symbol <$> uses !! j = Some sym) l l'.
Proof.
  intros Hwf Hj Hl. unfold patch_use, IndexVec.index.
  destruct (lookup_lt_is_Some_2 uses j) as [u Hu]; [lia|]. rewrite Hu. simpl.
  case_decide as Hc.
  - destruct (fold_index_mut_add l j ds Hwf Hj) as (l' & ? & ? & ?).
    exists l'. split; [done|]. split; [done|]. eapply added_iff; [|done]. naive_solver.
  - exists l. split; [done|]. split; [done|].
    eapply added_iff; [|apply added_refl]. naive_solver.
Qed.

(** What the fixup adds: a definition live after the body but not before it,
    to the uses of its symbol recorded since [first_use]. *)
Definition loop_carried (pre_loop : FlowSnapshot) (first_use : nat) (b : UseDefMapBuilder)
    (i d : nat) : Prop :=
  first_use ≤ i ∧ ∃ u, uses !! i = Some u ∧
  d ∈ definitions (st b (use_symbol u)) ∧
  d ∉ definitions (snap_st pre_loop (use_symbol u)).

Lemma new_loop_defs_spec pre_loop b sym :
  sym < length (symbol_states b) →
  ∃ ds, new_loop_defs pre_loop b sym = Some ds ∧
    ∀ d, d ∈ ds ↔ d ∈ definitions (st b sym) ∧ d ∉ definitions (snap_st pre_loop sym).
Proof.
  intros Hs. unfold new_loop_defs, IndexVec.index, st, snap_st.
  destruct (lookup_lt_is_Some_2 _ _ Hs) as [bs ->]. case_decide as Hd; simpl.
  - destruct (lookup_lt_is_Some_2 _ _ Hd) as [ps ->]. simpl.
    eexists; split; [done|]. intros d. rewrite list_elem_of_filter. set_solver.
  - rewrite (lookup_ge_None_2 (snap_symbol_states pre_loop)) by lia.
    eexists; split; [done|]. intros d. rewrite list_elem_of_filter. set_solver.
Qed.

(** One turn of the fixup's outer loop. *)
Lemma finish_loop_step pre_loop first_use sym l b :
  Forall Bindings.wf l → length l = length uses →
  sym < length (symbol_states b) →
  ∃ l', (new_defs ← new_loop_defs pre_loop (set_bindings_by_use l b) sym;
         match new_defs with
         | [] => Some (set_bindings_by_use l b)
         | _ => by_use ← foldM (patch_use uses sym new_defs)
                           (seq first_use (length l - first_use)) l;
                Some (set_bindings_by_use by_use (set_bindings_by_use l b))
         end) = Some (set_bindings_by_use l' b) ∧ Forall Bindings.wf l' ∧
    added (λ i d, loop_carried pre_loop first_use b i d ∧
                  use_symbol <$> uses !! i = Some sym) l l'.
Proof.
  intros Hwf Hl Hs.
  destruct (new_loop_defs_spec pre_loop (set_bindings_by_use l b) sym Hs) as (ds & -> & Hds).
  simpl.
  assert (Hcar : ∀ i d, loop_carried pre_loop first_use b i d ∧
            use_symbol <$> uses !! i = Some sym ↔
            first_use ≤ i ∧ d ∈ ds ∧ use_symbol <$> uses !! i = Some sym).
  { intros i d. unfold loop_carried. rewrite Hds. unfold st; simpl. split.
    - intros ((? & u & Hu & ? & ?) & Hi). rewrite Hu in Hi |- *. injection Hi as <-. done.
    - intros (? & (? & ?) & Hi). apply fmap_Some in Hi as (u & Hu & ->).
      rewrite Hu. split; [|done]. split; [done|]. eauto. }
  destruct (decide (ds = [])) as [->|Hne].
  - exists l. split; [done|]. split; [done|].
    eapply added_iff; [|apply added_refl]. set_solver.
  - destruct (foldM_added (patch_use uses sym ds)
      (λ j i x, i = j ∧ x ∈ ds ∧ use_symbol <$> uses !! j = Some sym) (length l)
      (seq first_use (length l - first_use)) l) as (l' & Hrun & Hwf' & Hadd); [|done|done|].
    { intros j l1 Hj Hwf1 Hl1. apply elem_of_seq in Hj. apply patch_use_spec; [done|lia|lia]. }
    exists l'. destruct ds as [|d0 ds]; [done|]. rewrite Hrun. simpl.
    split; [done|]. split; [done|]. eapply added_iff; [|done]. intros i x.
    rewrite Hcar. split.
    + intros (j & Hj%elem_of_seq & -> & Hx & Hu). naive_solver.
    + intros (Hf & Hx & Hu). exists i. split; [|done]. apply elem_of_seq.
      assert (i < length uses); [|lia].
      apply lookup_lt_is_Some. apply fmap_Some in Hu as (u & Hu & _). eauto.
Qed.

(** Two vectors of uses in step, every symbol interned. *)
Lemma finish_loop_defs_spec pre_loop first_use b :
  wf b → length (bindings_by_use b) = length uses →
  (∀ i u, uses !! i = Some u → use_symbol u < length (symbol_states b)) →
  ∃ l', finish_loop_defs pre_loop first_use uses b = Some (set_bindings_by_use l' b) ∧
    Forall Bindings.wf l' ∧
    added (loop_carried pre_loop first_use b) (bindings_by_use b) l'.
Proof.
  intros Hwf Hl Hsyms. unfold finish_loop_defs.
  assert (Hgen : ∀ syms l, (∀ s, s ∈ syms → s < length (symbol_states b)) →
    Forall Bindings.wf l → length l = length uses →
    ∃ l', foldM (λ symbol_id b,
            new_defs ← new_loop_defs pre_loop b symbol_id;
            match new_defs with
            | [] => Some b
            | _ => by_use ← foldM (patch_use uses symbol_id new_defs)
                     (seq first_use (length (bindings_by_use b) - first_use))
                     (bindings_by_use b);
                   Some (set_bindings_by_use by_use b)
            end) syms (set_bindings_by_use l b) = Some (set_bindings_by_use l' b) ∧
      Forall Bindings.wf l' ∧
      added (λ i d, loop_carried pre_loop first_use b i d ∧
        ∃ s, s ∈ syms ∧ use_symbol <$> uses !! i = Some s) l l').
  { induction syms as [|s syms IH]; intros l Hsy Hwfl Hll; simpl.
    - exists l. split; [done|]. split; [done|].
      eapply added_iff; [|apply added_refl]. set_solver.
    - destruct (finish_loop_step pre_loop first_use s l b) as (l1 & Hrun & Hwf1 & Hadd1);
        [done|done|apply Hsy; by left|].
      simpl in Hrun |- *. rewrite Hrun. simpl.
      destruct (IH l1) as (l2 & -> & Hwf2 & Hadd2);
        [intros; apply Hsy; by right|done|by destruct Hadd1; congruence|].
      exists l2. split; [done|]. split; [done|].
      eapply added_iff; [|by eapply added_trans]. set_solver. }
  destruct (Hgen (seq 0 (length (symbol_states b))) (bindings_by_use b))
    as (l' & Hrun & Hwf' & Hadd); [by intros s ?%elem_of_seq; lia|apply Hwf|done|].
  exists l'. destruct b; simpl in *. split; [done|]. split; [done|].
  eapply added_iff; [|done]. intros i d; simpl. split; [by intros [? _]|]. intros Hc.
  split; [done|]. destruct Hc as (_ & u & Hu & _). exists (use_symbol u).
  rewrite Hu. split; [|done]. apply elem_of_seq. specialize (Hsyms i u Hu). lia.
Qed.
End finish_loop.

(** ** Lazy definitions *)

Lemma fold_lazy_defs_spec b :
  wf b →
  ∃ states, let b' := mkBuilder states (bindings_by_use b) ∅ (enclosing_snapshots b) (lazy_watchers b) in
    fold_lazy_defs b = Some b' ∧ wf b' ∧ length states = length (symbol_states b) ∧
    ∀ sym, may_be_unbound (st b' sym) = may_be_unbound (st b sym) ∧
      ∀ d, d ∈ definitions (st b' sym) ↔
           d ∈ definitions (st b sym) ∨ d ∈ default [] (lazy_defs b !! sym).
Proof.
  intros Hwf. unfold fold_lazy_defs.
  destruct (foldM_added
    (λ '(symbol_id, defs) states, foldM (λ def_id states,
       IndexVec.index_mut states symbol_id (Bindings.add_definition def_id)) defs states)
    (λ '(symbol_id, defs) i x, i = symbol_id ∧ x ∈ defs)
    (length (symbol_states b)) (map_to_list (lazy_defs b)) (symbol_states b))
    as (l' & -> & Wl & Len & Hadd); [|apply Hwf|done|].
  { intros [s defs] l Hin%elem_of_map_to_list W Hl.
    apply fold_index_mut_add; [done|]. rewrite Hl. by eapply wf_lazy. }
  simpl. eexists; split; [done|]. split; [|split; [done|]].
  - destruct Hwf. split; simpl; done.
  - intros sym. unfold st; simpl. destruct (symbol_states b !! sym) as [bs|] eqn:E.
    + destruct (Hadd sym bs E) as (bs' & -> & Hf & Hx). simpl. split; [done|].
      intros d. rewrite Hx. split.
      * intros [?|([s defs] & Hin & -> & Hd)]; [by left|right].
        apply elem_of_map_to_list in Hin. by rewrite Hin.
      * intros [?|Hd]; [by left|right].
        destruct (lazy_defs b !! sym) as [defs|] eqn:Hl; [|by apply elem_of_nil in Hd].
        exists (sym, defs). by rewrite elem_of_map_to_list.
    + apply lookup_ge_None in E. rewrite (lookup_ge_None_2 l') by lia. simpl.
      split; [done|]. intros d. split; [by left|]. intros [?|Hd]; [done|].
      destruct (lazy_defs b !! sym) as [defs|] eqn:Hl; [|done].
      specialize (wf_lazy _ Hwf _ _ Hl). lia.
Qed.

End BuilderFacts.
