(* ===== verification/FlowWalk.v ===== *)
(** * Control flow in the walk: [crates/oak_semantic/src/builder/walk.rs]

    [walk_branch] and [walk_loop_body] drive the use-def map of the current
    scope through snapshots, restores, merges and the loop fixup. They are
    generic in the visitor of the subtrees and in the state, which only has to
    expose the current scope's use-def map and uses ([CurrentScope]).

    [flow] is the control skeleton of one scope and [run] the walk over it;
    [exec] gives the paths through a skeleton, with loops iterated any number
    of times. The last sections relate the two, with the lemmas of the theorems
    in [UseDefTheorems]. *)

From S2P Require Import Prelude External IndexVec UseDefMap UseDefFacts.
(** [self.walk.use_def_maps[self.current_scope]] and
    [self.walk.uses[self.current_scope]]; indexing may panic. *)
Class CurrentScope (St Range : Type) := {
  cur_udm : M St UseDefMapBuilder;
  cur_uses : M St (list (Use Range));
  upd_udm : (UseDefMapBuilder → option UseDefMapBuilder) → M St ();
}.

Section walk.
Context {St Range E : Type} `{CurrentScope St Range, MergeJoinBy}.
Context (visit : E → M St ()).

Definition walk_branch (consequence alternative : option E) : M St () :=
  pre ← Builder.snapshot <$> cur_udm;
  if_some consequence visit;;
  post ← Builder.snapshot <$> cur_udm;
  upd_udm (Builder.restore pre);;
  if_some alternative visit;;
  upd_udm (λ b, Some (Builder.merge post b)).

Definition walk_loop_body (body : option E) (may_skip_body : bool) : M St () :=
  pre_loop ← Builder.snapshot <$> cur_udm;
  if_some body (λ body,
    uses ← cur_uses;
    first_use ← try_get (λ _, IndexVec.next_id uses);
    visit body;;
    uses ← cur_uses;
    upd_udm (Builder.finish_loop_defs pre_loop first_use uses));;
  when may_skip_body (upd_udm (λ b, Some (Builder.merge pre_loop b))).
End walk.

(** ** One scope's arenas *)

(** The definitions (by symbol), the uses and the use-def map of a scope. *)
Record ScopeState := mkScopeState {
  sc_defs : list nat;
  sc_uses : list (Use ());
  sc_udm : UseDefMapBuilder;
}.

#[export] Instance ScopeState_current : CurrentScope ScopeState () := {|
  cur_udm := gets sc_udm;
  cur_uses := gets sc_uses;
  upd_udm f := try_update (λ s,
    b ← f (sc_udm s); Some ((), mkScopeState (sc_defs s) (sc_uses s) b));
|}.

(** The arena part of [add_definition], [add_super_definition] and [add_use]
    for the scope that owns the symbol. *)
Definition scope_def (record : nat → nat → UseDefMapBuilder → option UseDefMapBuilder)
    (sym : nat) : M ScopeState () := try_update (λ s,
  '(defs, def_id) ← IndexVec.push (sc_defs s) sym;
  b ← Builder.ensure_symbol sym (sc_udm s);
  b ← record sym def_id b;
  Some ((), mkScopeState defs (sc_uses s) b)).

Definition scope_use (sym : nat) : M ScopeState () := try_update (λ s,
  '(uses, use_id) ← IndexVec.push (sc_uses s) (mkUse sym ());
  b ← Builder.ensure_symbol sym (sc_udm s);
  b ← Builder.record_use sym use_id b;
  Some ((), mkScopeState (sc_defs s) uses b)).

(** ** Control skeletons *)

Inductive flow :=
| FSkip
| FUse (sym : nat)
| FDef (sym : nat)
| FSuper (sym : nat)
| FSeq (s1 s2 : flow)
| FBranch (consequence alternative : option flow)
| FLoop (body : option flow) (may_skip_body : bool).

(** The induction principle that reaches under the options. *)
Section flow_ind.
Context (P : flow → Prop).
Context (Hskip : P FSkip) (Huse : ∀ s, P (FUse s)) (Hdef : ∀ s, P (FDef s))
  (Hsuper : ∀ s, P (FSuper s)) (Hseq : ∀ s1 s2, P s1 → P s2 → P (FSeq s1 s2))
  (Hbranch : ∀ c a, from_option P True c → from_option P True a → P (FBranch c a))
  (Hloop : ∀ b m, from_option P True b → P (FLoop b m)).

Fixpoint flow_ind' (s : flow) : P s :=
  let opt (o : option flow) : from_option P True o :=
    match o with Some s => flow_ind' s | None => I end in
  match s with
  | FSkip => Hskip
  | FUse s => Huse s
  | FDef s => Hdef s
  | FSuper s => Hsuper s
  | FSeq s1 s2 => Hseq s1 s2 (flow_ind' s1) (flow_ind' s2)
  | FBranch c a => Hbranch c a (opt c) (opt a)
  | FLoop b m => Hloop b m (opt b)
  end.
End flow_ind.

Section run.
Context `{MergeJoinBy}.

(** [walk_expression] on a skeleton. *)
Fixpoint run (s : flow) : M ScopeState () :=
  match s with
  | FSkip => mret ()
  | FUse sym => scope_use sym
  | FDef sym => scope_def Builder.record_definition sym
  | FSuper sym => scope_def Builder.record_super_definition sym
  | FSeq s1 s2 => run s1;; run s2
  | FBranch c a => walk_branch run c a
  | FLoop b m => walk_loop_body run b m
  end.
End run.

(** ** Paths *)

Inductive event := EvDef (sym def_id : nat) | EvUse (sym use_id : nat).

(** The definitions and uses a skeleton allocates. *)
Fixpoint ndefs (s : flow) : nat :=
  match s with
  | FSkip | FUse _ => 0
  | FDef _ | FSuper _ => 1
  | FSeq s1 s2 => ndefs s1 + ndefs s2
  | FBranch c a => from_option ndefs 0 c + from_option ndefs 0 a
  | FLoop b _ => from_option ndefs 0 b
  end.

Fixpoint use_syms (s : flow) : list nat :=
  match s with
  | FSkip | FDef _ | FSuper _ => []
  | FUse sym => [sym]
  | FSeq s1 s2 => use_syms s1 ++ use_syms s2
  | FBranch c a => from_option use_syms [] c ++ from_option use_syms [] a
  | FLoop b _ => from_option use_syms [] b
  end.

Definition nuses (s : flow) : nat := length (use_syms s).

(** [exec s d u tr]: [tr] is the sequence of definitions and uses along one
    path through [s], whose first definition site has identifier [d] and first
    use site [u]. A super-assignment may or may not run. *)
Inductive exec : flow → nat → nat → list event → Prop :=
| exec_skip d u : exec FSkip d u []
| exec_use sym d u : exec (FUse sym) d u [EvUse sym u]
| exec_def sym d u : exec (FDef sym) d u [EvDef sym d]
| exec_super_runs sym d u : exec (FSuper sym) d u [EvDef sym d]
| exec_super_not sym d u : exec (FSuper sym) d u []
| exec_seq s1 s2 d u t1 t2 :
    exec s1 d u t1 → exec s2 (d + ndefs s1) (u + nuses s1) t2 →
    exec (FSeq s1 s2) d u (t1 ++ t2)
| exec_consequence c a d u tr :
    exec_opt c d u tr → exec (FBranch c a) d u tr
| exec_alternative c a d u tr :
    exec_opt a (d + from_option ndefs 0 c) (u + from_option nuses 0 c) tr →
    exec (FBranch c a) d u tr
| exec_loop_skip b d u : exec (FLoop b true) d u []
| exec_loop b m d u t ts :
    exec_opt b d u t → iterate b d u ts → exec (FLoop b m) d u (t ++ ts)
with exec_opt : option flow → nat → nat → list event → Prop :=
| exec_none d u : exec_opt None d u []
| exec_some s d u tr : exec s d u tr → exec_opt (Some s) d u tr
with iterate : option flow → nat → nat → list event → Prop :=
| iterate_done b d u : iterate b d u []
| iterate_more b d u t ts :
    exec_opt b d u t → iterate b d u ts → iterate b d u (t ++ ts).

(** The definition a symbol holds after a path, if the path defines it. *)
Fixpoint last_def (tr : list event) (sym : nat) : option nat :=
  match tr with
  | [] => None
  | e :: tr =>
      match last_def tr sym with
      | Some d => Some d
      | None =>
          match e with
          | EvDef s d => if decide (s = sym) then Some d else None
          | EvUse _ _ => None
          end
      end
  end.

Lemma last_def_app t1 t2 sym :
  last_def (t1 ++ t2) sym =
  match last_def t2 sym with Some d => Some d | None => last_def t1 sym end.
Proof.
  induction t1 as [|e t1 IH]; simpl; [by destruct (last_def t2 sym)|].
  rewrite IH. by destruct (last_def t2 sym).
Qed.

Lemma last_def_app_None t1 t2 sym :
  last_def (t1 ++ t2) sym = None ↔ last_def t1 sym = None ∧ last_def t2 sym = None.
Proof. rewrite last_def_app. destruct (last_def t2 sym); naive_solver. Qed.

Import BuilderFacts.

(** ** The scope invariant and the capacity of the arenas *)

Record scope_wf (s : ScopeState) : Prop := {
  sw_udm : wf (sc_udm s);
  sw_len : length (bindings_by_use (sc_udm s)) = length (sc_uses s);
  sw_syms : ∀ i u, sc_uses s !! i = Some u → use_symbol u < length (symbol_states (sc_udm s));
  sw_cap : (N.of_nat (length (symbol_states (sc_udm s))) ≤ N.succ IndexVec.MAX)%N;
}.

Fixpoint syms (s : flow) : list nat :=
  match s with
  | FSkip => []
  | FUse sym | FDef sym | FSuper sym => [sym]
  | FSeq s1 s2 => syms s1 ++ syms s2
  | FBranch c a => from_option syms [] c ++ from_option syms [] a
  | FLoop b _ => from_option syms [] b
  end.

Record fits (s : flow) (st : ScopeState) : Prop := {
  fit_defs : (N.of_nat (length (sc_defs st) + ndefs s) ≤ N.succ IndexVec.MAX)%N;
  fit_uses : (N.of_nat (length (sc_uses st) + nuses s) ≤ IndexVec.MAX)%N;
  fit_syms : Forall (λ sym, (N.of_nat sym ≤ IndexVec.MAX)%N) (syms s);
}.

(** ** Covering and exactness of a set of paths *)

(** [b2] admits everything [b1] admits. *)
Definition below (b1 b2 : Bindings) : Prop :=
  (∀ d, d ∈ definitions b1 → d ∈ definitions b2) ∧
  (may_be_unbound b1 = true → may_be_unbound b2 = true).

#[export] Instance below_preorder : PreOrder below.
Proof. split; [by intros b|]. intros b1 b2 b3 [H1 H2] [H3 H4]. split; auto. Qed.

Section paths.
Implicit Types (paths : list event → Prop) (B : UseDefMapBuilder).

Record covers paths B B' : Prop := {
  cov_def : ∀ tr sym d, paths tr → last_def tr sym = Some d → d ∈ definitions (st B' sym);
  cov_thru : ∀ tr sym, paths tr → last_def tr sym = None → below (st B sym) (st B' sym);
  cov_use_def : ∀ t1 t2 sym u d, paths (t1 ++ EvUse sym u :: t2) →
    last_def t1 sym = Some d →
    ∃ b, bindings_by_use B' !! u = Some b ∧ d ∈ definitions b;
  cov_use_thru : ∀ t1 t2 sym u, paths (t1 ++ EvUse sym u :: t2) →
    last_def t1 sym = None →
    ∃ b, bindings_by_use B' !! u = Some b ∧ below (st B sym) b;
}.

(** Some path leaves the symbol alone. *)
Definition transparent paths sym : Prop := ∃ tr, paths tr ∧ last_def tr sym = None.

Record exact paths B B' : Prop := {
  ex_def : ∀ sym d, d ∈ definitions (st B' sym) →
    d ∈ definitions (st B sym) ∧ transparent paths sym ∨
    ∃ tr, paths tr ∧ last_def tr sym = Some d;
  ex_unbound : ∀ sym, may_be_unbound (st B' sym) = true →
    may_be_unbound (st B sym) = true ∧ transparent paths sym;
}.
End paths.

Record flow_ok (s : flow) (st0 st1 : ScopeState) : Prop := {
  fo_wf : scope_wf st1;
  fo_defs : length (sc_defs st1) = length (sc_defs st0) + ndefs s;
  fo_uses : sc_uses st1 = sc_uses st0 ++ ((λ sym, mkUse sym ()) <$> use_syms s);
  fo_mono : length (symbol_states (sc_udm st0)) ≤ length (symbol_states (sc_udm st1));
  fo_old : ∀ i, i < length (sc_uses st0) →
    bindings_by_use (sc_udm st1) !! i = bindings_by_use (sc_udm st0) !! i;
  fo_covers : covers (exec s (length (sc_defs st0)) (length (sc_uses st0)))
                (sc_udm st0) (sc_udm st1);
  fo_exact : exact (exec s (length (sc_defs st0)) (length (sc_uses st0)))
               (sc_udm st0) (sc_udm st1);
}.

Lemma fo_nuses s st0 st1 :
  flow_ok s st0 st1 → length (sc_uses st1) = length (sc_uses st0) + nuses s.
Proof. intros H. rewrite (fo_uses _ _ _ H), length_app, length_fmap. done. Qed.

(** ** Use events *)

Scheme exec_mut := Induction for exec Sort Prop
  with exec_opt_mut := Induction for exec_opt Sort Prop
  with iterate_mut := Induction for iterate Sort Prop.

Definition opt_flow (o : option flow) : flow := default FSkip o.

Lemma exec_opt_flow o d u tr : exec_opt o d u tr ↔ exec (opt_flow o) d u tr.
Proof.
  split.
  - intros H; inversion H; subst; simpl; [constructor|done].
  - destruct o; simpl; intros H; [by constructor|]. inversion H; constructor.
Qed.

Lemma opt_flow_ndefs o : ndefs (opt_flow o) = from_option ndefs 0 o.
Proof. by destruct o. Qed.
Lemma opt_flow_nuses o : nuses (opt_flow o) = from_option nuses 0 o.
Proof. by destruct o. Qed.
Lemma opt_flow_use_syms o : use_syms (opt_flow o) = from_option use_syms [] o.
Proof. by destruct o. Qed.
Lemma opt_flow_syms o : syms (opt_flow o) = from_option syms [] o.
Proof. by destruct o. Qed.

Lemma visit_opt_run `{MergeJoinBy} o : if_some o run = run (opt_flow o).
Proof. by destruct o. Qed.

(** The use sites of a path are the ones the skeleton allocates. *)
Lemma exec_use_sites s d u tr :
  exec s d u tr → ∀ sym i, EvUse sym i ∈ tr → u ≤ i ∧ use_syms s !! (i - u) = Some sym.
Proof.
  revert s d u tr.
  apply (exec_mut
    (λ s d u tr _, ∀ sym i, EvUse sym i ∈ tr → u ≤ i ∧ use_syms s !! (i - u) = Some sym)
    (λ o d u tr _, ∀ sym i, EvUse sym i ∈ tr →
       u ≤ i ∧ use_syms (opt_flow o) !! (i - u) = Some sym)
    (λ o d u tr _, ∀ sym i, EvUse sym i ∈ tr →
       u ≤ i ∧ use_syms (opt_flow o) !! (i - u) = Some sym)); intros; simpl;
    rewrite ?elem_of_app, ?elem_of_nil, ?list_elem_of_singleton in *; simplify_eq/=; try done.
  - by rewrite Nat.sub_diag.
  - destruct H1 as [Hi|Hi]; [apply H in Hi as [? Hi]|apply H0 in Hi as [? Hi]].
    + split; [done|]. by apply lookup_app_l_Some.
    + split; [lia|]. rewrite lookup_app_r by (fold (nuses s1); lia). fold (nuses s1).
      by replace (i - u - nuses s1) with (i - (u + nuses s1)) by lia.
  - apply H in H0 as [? Hi]. split; [done|]. rewrite opt_flow_use_syms in Hi.
    by apply lookup_app_l_Some.
  - apply H in H0 as [? Hi]. rewrite opt_flow_use_syms in Hi.
    rewrite <-opt_flow_nuses in *. unfold nuses in *. rewrite opt_flow_use_syms in *.
    split; [lia|]. rewrite lookup_app_r by lia.
    by replace (i - u - _) with (i - (u + length (from_option use_syms [] c))) by lia.
  - rewrite <-opt_flow_use_syms. destruct H1; auto.
  - auto.
  - destruct H1; auto.
Qed.

Lemma exec_use_lt s d u tr sym i :
  exec s d u tr → EvUse sym i ∈ tr → u ≤ i < u + nuses s.
Proof.
  intros He Hi. destruct (exec_use_sites _ _ _ _ He _ _ Hi) as [? Hl].
  apply lookup_lt_Some in Hl. unfold nuses. lia.
Qed.

(** ** The cases *)

Section cases.
Context `{MergeJoinBy}.

Definition run_spec (s : flow) : Prop :=
  ∀ st0, scope_wf st0 → fits s st0 → ∃ st1, run s st0 = Done () st1 ∧ flow_ok s st0 st1.

(** One definition, plain ([kills]) or super. *)
Lemma run_def_spec (s : flow) (record : nat → nat → UseDefMapBuilder → option UseDefMapBuilder)
    sym (kills : bool) :
  ndefs s = 1 → use_syms s = [] → syms s = [sym] →
  run s = scope_def record sym →
  (∀ d u tr, exec s d u tr ↔ tr = [EvDef sym d] ∨ tr = [] ∧ kills = false) →
  (∀ d b, wf b → sym < length (symbol_states b) →
    ∃ b', record sym d b = Some b' ∧ wf b' ∧
      length (symbol_states b') = length (symbol_states b) ∧
      (∀ s', (kills = false ∨ s' ≠ sym → below (st b s') (st b' s')) ∧
        (∀ x, x ∈ definitions (st b' s') → s' = sym ∧ x = d ∨
           (kills = false ∨ s' ≠ sym) ∧ x ∈ definitions (st b s')) ∧
        (may_be_unbound (st b' s') = true →
           (kills = false ∨ s' ≠ sym) ∧ may_be_unbound (st b s') = true)) ∧
      d ∈ definitions (st b' sym) ∧
      bindings_by_use b' = bindings_by_use b) →
  run_spec s.
Proof.
  intros Hnd Hus Hsy Hrun Hexec Hrec st0 Hwf Hfit. rewrite Hrun. unfold scope_def, try_update.
  destruct Hwf as [Hwf Hlen Hsyms Hcap], Hfit as [Hfd Hfu Hfs].
  rewrite Hsy in Hfs. apply Forall_cons in Hfs as [Hs _].
  rewrite IndexVec.push_total by (rewrite Hnd in Hfd; lia). simpl.
  destruct (ensure_symbol_spec sym (sc_udm st0)) as (b1 & -> & Hwf1 & Hl1 & Hst1 & Hb1);
    [done..|]. simpl.
  destruct (Hrec (length (sc_defs st0)) b1) as (b2 & -> & Hwf2 & Hl2 & Hst2 & Hin & Huse);
    [done|lia|]. simpl.
  assert (Hby : bindings_by_use b2 = bindings_by_use (sc_udm st0)) by (rewrite Huse, Hb1; done).
  eexists; split; [done|]. split; simpl.
  - split; simpl; [done|by rewrite Hby| |lia].
    intros i us Hi. specialize (Hsyms i us Hi). lia.
  - rewrite length_app, Hnd. done.
  - by rewrite Hus, app_nil_r.
  - lia.
  - by rewrite Hby.
  - split; intros ?*.
    + intros [->|[-> _]]%Hexec; simpl; [|done]. case_decide; [|done].
      intros ?; simplify_eq. done.
    + intros [->|[-> Hk]]%Hexec; simpl; [case_decide; [done|]|]; intros _;
        rewrite <-Hst1; apply Hst2; auto.
    + intros [Hx|[Hx _]]%Hexec; destruct t1 as [|? [|??]]; simplify_list_eq.
    + intros [Hx|[Hx _]]%Hexec; destruct t1 as [|? [|??]]; simplify_list_eq.
  - assert (Htr : ∀ s', kills = false ∨ s' ≠ sym →
      transparent (exec s (length (sc_defs st0)) (length (sc_uses st0))) s').
    { intros s' [Hk|Hne].
      - exists []. split; [|done]. apply Hexec. auto.
      - exists [EvDef sym (length (sc_defs st0))]. split; [apply Hexec; auto|].
        simpl. by rewrite decide_False. }
    split; intros s'; specialize (Hst2 s') as (_ & Hd & Hu); rewrite Hst1 in *.
    + intros x [[-> ->]|[Hk Hx]]%Hd; [right|left; auto].
      exists [EvDef sym (length (sc_defs st0))]. split; [apply Hexec; auto|].
      simpl. by rewrite decide_True.
    + intros [Hk Hx]%Hu. auto.
Qed.

Lemma run_FDef sym : run_spec (FDef sym).
Proof.
  apply (run_def_spec _ Builder.record_definition sym true); try done.
  - intros d u tr. split; [inversion 1; auto|]. intros [->|[_ ?]]; [constructor|done].
  - intros d b Hwf Hs.
    destruct (record_definition_spec sym d b Hwf Hs) as (b' & Hr & Hw & Hl & Hst & Hu & _).
    exists b'. do 3 (split; [done|]). split; [|split; [|done]].
    + intros s'. rewrite Hst. case_decide as Hc; simpl.
      * split; [naive_solver|]. split; [|done]. set_solver.
      * naive_solver.
    + rewrite Hst, decide_True by done. simpl. set_solver.
Qed.

Lemma run_FSuper sym : run_spec (FSuper sym).
Proof.
  apply (run_def_spec _ Builder.record_super_definition sym false); try done.
  - intros d u tr. split; [inversion 1; auto|]. intros [->|[-> _]]; constructor.
  - intros d b Hwf Hs.
    destruct (record_super_definition_spec sym d b Hwf Hs)
      as (b' & Hr & Hw & Hl & Hst & Hu & _).
    exists b'. do 3 (split; [done|]). split; [|split; [|done]].
    + intros s'. destruct (Hst s') as [Hf Hx]. unfold below. rewrite Hf.
      setoid_rewrite Hx. naive_solver.
    + apply Hst. auto.
Qed.

Lemma run_FUse sym : run_spec (FUse sym).
Proof.
  intros st0 Hwf Hfit. simpl. unfold scope_use, try_update.
  destruct Hwf as [Hwf Hlen Hsyms Hcap], Hfit as [Hfd Hfu Hfs].
  apply Forall_cons in Hfs as [Hs _]. unfold nuses in Hfu; simpl in Hfu.
  rewrite IndexVec.push_total by lia. simpl.
  destruct (ensure_symbol_spec sym (sc_udm st0)) as (b1 & -> & Hwf1 & Hl1 & Hst1 & Hb1);
    [done..|]. simpl.
  assert (Hby : bindings_by_use b1 = bindings_by_use (sc_udm st0)) by (rewrite Hb1; done).
  destruct (record_use_spec sym (length (sc_uses st0)) b1) as [-> Hwf2];
    [done|lia|by rewrite Hby|lia|]. simpl.
  assert (Hsub : ∀ s, st (Builder.set_bindings_by_use (bindings_by_use b1 ++ [st b1 sym]) b1) s
            = st (sc_udm st0) s) by (intros s; rewrite <-Hst1; done).
  eexists; split; [done|]. split; simpl.
  - split; simpl; [done|rewrite !length_app, Hby; simpl; lia| |lia].
    intros i us [Hi|[_ Hi]]%lookup_app_Some; [specialize (Hsyms i us Hi); lia|].
    apply list_lookup_singleton_Some in Hi as [_ <-]. simpl. lia.
  - lia.
  - done.
  - lia.
  - intros i Hi. rewrite lookup_app_l, Hby by (rewrite Hby; lia). done.
  - split; simpl.
    + inversion 1; subst; done.
    + intros tr s' _ _. by rewrite Hsub.
    + intros t1 t2 s' u d Hx Hld. inversion Hx;
        destruct t1 as [|? [|??]]; simplify_list_eq.
    + intros t1 t2 s' u Hx _. inversion Hx; destruct t1 as [|? [|??]]; simplify_list_eq.
      exists (st b1 s'). split; [|by rewrite Hst1].
      rewrite <-Hlen, <-Hby, lookup_app_r, Nat.sub_diag by done. done.
  - split; intros s'; rewrite Hsub.
    + intros d Hd. left. split; [done|]. eexists; split; [constructor|done].
    + intros Hu. split; [done|]. eexists; split; [constructor|done].
Qed.

Lemma run_FSkip : run_spec FSkip.
Proof.
  intros st0 Hwf Hfit. exists st0. split; [done|].
  assert (Ht : ∀ d u sym, transparent (exec FSkip d u) sym).
  { intros d u sym. exists []. split; [constructor|done]. }
  split; simpl; [done|lia|by rewrite app_nil_r|done|done| |].
  - split.
    + inversion 1; subst; done.
    + done.
    + intros [|??] t2 ??? He; inversion He.
    + intros [|??] t2 ?? He; inversion He.
  - split; auto.
Qed.
End cases.

(** ** Composing covered path sets *)

Section compose.
Implicit Types (P : list event → Prop) (B : UseDefMapBuilder).

(** [P]'s uses keep, or only grow, their bindings from [B] to [B']. *)
Definition uses_kept P B B' : Prop :=
  ∀ tr sym u b, P tr → EvUse sym u ∈ tr → bindings_by_use B !! u = Some b →
  ∃ b', bindings_by_use B' !! u = Some b' ∧ below b b'.

Lemma covers_mono P B0 B0' B1 B2 :
  covers P B0' B1 →
  (∀ s, below (st B0 s) (st B0' s)) → (∀ s, below (st B1 s) (st B2 s)) →
  uses_kept P B1 B2 → covers P B0 B2.
Proof.
  intros [H1 H2 H3 H4] H0 H12 Hk. split.
  - intros tr sym d Hp Hd. eapply H12, H1; done.
  - intros tr sym Hp Hd. etrans; [apply H0|]. etrans; [by eapply H2|]. done.
  - intros t1 t2 sym u d Hp Hd. destruct (H3 _ _ _ _ _ Hp Hd) as (b & Hb & Hin).
    destruct (Hk _ sym u b Hp) as (b' & ? & Hbl); [set_solver|done|].
    exists b'. split; [done|]. by apply Hbl.
  - intros t1 t2 sym u Hp Hd. destruct (H4 _ _ _ _ Hp Hd) as (b & Hb & Hin).
    destruct (Hk _ sym u b Hp) as (b' & ? & Hbl); [set_solver|done|].
    exists b'. split; [done|]. etrans; [apply H0|]. by etrans.
Qed.

Lemma covers_union P P1 P2 B0 B1 :
  (∀ tr, P tr → P1 tr ∨ P2 tr) → covers P1 B0 B1 → covers P2 B0 B1 → covers P B0 B1.
Proof. intros HP [] []. split; intros ?* Hp; destruct (HP _ Hp); eauto. Qed.

Lemma covers_seq P P1 P2 B0 B1 B2 :
  covers P1 B0 B1 → covers P2 B1 B2 → uses_kept P1 B1 B2 →
  (∀ tr, P tr → ∃ t1 t2, tr = t1 ++ t2 ∧ P1 t1 ∧ P2 t2) →
  covers P B0 B2.
Proof.
  intros [H1 H2 H3 H4] [G1 G2 G3 G4] Hk HP. split.
  - intros tr sym d (t1 & t2 & -> & Hp1 & Hp2)%HP. rewrite last_def_app.
    destruct (last_def t2 sym) eqn:E; intros Hd; simplify_eq; [by eapply G1|].
    eapply G2; [done..|]. by eapply H1.
  - intros tr sym (t1 & t2 & -> & Hp1 & Hp2)%HP [E1 E2]%last_def_app_None.
    etrans; [by eapply H2|by eapply G2].
  - intros t1 t2 sym u d (a & c & Heq & Hp1 & Hp2)%HP Hd.
    apply app_eq_inv in Heq as [(k & -> & ->)|([|e k] & -> & Hc)]; simplify_list_eq.
    + rewrite last_def_app in Hd. destruct (last_def k sym) eqn:E; simplify_eq.
      * by eapply G3.
      * eapply G4 in Hp2 as (b & ? & Hb); [|done].
        exists b. split; [done|]. apply Hb. by eapply H1.
    + eapply (G4 []) in Hp2 as (b & ? & Hb); [|done].
      exists b. split; [done|]. apply Hb. by eapply H1.
    + destruct (H3 _ _ _ _ _ Hp1 Hd) as (b & Hb & Hin).
      destruct (Hk _ sym u b Hp1) as (b' & ? & Hbl); [set_solver|done|].
      exists b'. split; [done|]. by apply Hbl.
  - intros t1 t2 sym u (a & c & Heq & Hp1 & Hp2)%HP Hd.
    apply app_eq_inv in Heq as [(k & -> & ->)|([|e k] & -> & Hc)]; simplify_list_eq.
    + apply last_def_app_None in Hd as [Ha Hk'].
      eapply G4 in Hp2 as (b & ? & Hb); [|done].
      exists b. split; [done|]. etrans; [by eapply H2|done].
    + eapply (G4 []) in Hp2 as (b & ? & Hb); [|done].
      exists b. split; [done|]. etrans; [by eapply H2|done].
    + destruct (H4 _ _ _ _ Hp1 Hd) as (b & Hb & Hin).
      destruct (Hk _ sym u b Hp1) as (b' & ? & Hbl); [set_solver|done|].
      exists b'. split; [done|]. by etrans.
Qed.

Lemma exact_seq P P1 P2 B0 B1 B2 :
  exact P1 B0 B1 → exact P2 B1 B2 →
  (∀ t1 t2, P1 t1 → P2 t2 → P (t1 ++ t2)) → (∃ t1, P1 t1) → exact P B0 B2.
Proof.
  intros [H1 H2] [G1 G2] HP [t0 Ht0].
  assert (Htr : ∀ sym, transparent P1 sym → transparent P2 sym → transparent P sym).
  { intros sym (t1 & ? & ?) (t2 & ? & ?). exists (t1 ++ t2).
    split; [by apply HP|]. by apply last_def_app_None. }
  split.
  - intros sym d [[Hd Ht]|(t2 & Hp2 & Hd)]%G1.
    + apply H1 in Hd as [[Hd Ht1]|(t1 & Hp1 & Hd)]; [left; auto|right].
      destruct Ht as (t2 & Hp2 & Hn). exists (t1 ++ t2). split; [auto|].
      by rewrite last_def_app, Hn.
    + right. exists (t0 ++ t2). split; [auto|]. by rewrite last_def_app, Hd.
  - intros sym [Hu Ht]%G2. apply H2 in Hu as [Hu Ht1]. auto.
Qed.

Lemma exact_union P P1 P2 B0 B1 B2 B3 :
  exact P1 B0 B1 → exact P2 B0 B2 → (∀ tr, P1 tr ∨ P2 tr → P tr) →
  (∀ s d, d ∈ definitions (st B3 s) → d ∈ definitions (st B1 s) ∨ d ∈ definitions (st B2 s)) →
  (∀ s, may_be_unbound (st B3 s) = true →
    may_be_unbound (st B1 s) = true ∨ may_be_unbound (st B2 s) = true) →
  exact P B0 B3.
Proof.
  intros [H1 H2] [G1 G2] HP Hd Hu.
  assert (Htr : ∀ sym, transparent P1 sym ∨ transparent P2 sym → transparent P sym).
  { intros sym [(t & ? & ?)|(t & ? & ?)]; exists t; auto. }
  split.
  - intros s d [[[? ?]|(t & ? & ?)]%H1|[[? ?]|(t & ? & ?)]%G1]%Hd;
      [left; auto|right; eauto|left; auto|right; eauto].
  - intros s [[? ?]%H2|[? ?]%G2]%Hu; auto.
Qed.

Lemma exact_ext P B0 B0' B1 B1' :
  exact P B0 B1 → (∀ s, st B0 s = st B0' s) → (∀ s, st B1 s = st B1' s) → exact P B0' B1'.
Proof.
  intros [H1 H2] H0 H3. split; intros s; rewrite <-H0, <-H3; auto.
Qed.
End compose.

(** Every skeleton has a path. *)
Lemma exec_exists s d u : ∃ tr, exec s d u tr.
Proof.
  revert d u. induction s as [| | | |s1 s2 IH1 IH2|c a IHc IHa|b m IHb] using flow_ind';
    intros d u; try (eexists; by constructor).
  - destruct (IH1 d u) as [t1 ?], (IH2 (d + ndefs s1) (u + nuses s1)) as [t2 ?].
    eexists; by constructor.
  - destruct c as [c|]; [|eexists; apply exec_consequence; constructor].
    destruct (IHc d u) as [t ?]. exists t. apply exec_consequence. by constructor.
  - destruct b as [b|]; [|exists ([] ++ []); by repeat constructor].
    destruct (IHb d u) as [t ?]. exists (t ++ []). constructor; by constructor.
Qed.

(** ** Sequences, branches and loops *)

Section structured.
Context `{MergeJoinBy}.

(** Later code leaves the bindings of earlier uses alone. *)
Lemma uses_kept_later s d u B B' n :
  u + nuses s ≤ n →
  (∀ i, i < n → bindings_by_use B' !! i = bindings_by_use B !! i) →
  uses_kept (exec s d u) B B'.
Proof.
  intros Hn Hold tr sym i b He Hi Hb. exists b. split; [|done].
  apply exec_use_lt with (1 := He) in Hi. rewrite Hold by lia. done.
Qed.

Lemma run_FSeq s1 s2 : run_spec s1 → run_spec s2 → run_spec (FSeq s1 s2).
Proof.
  intros H1 H2 st0 Hwf [Hfd Hfu Hfs]. simpl in Hfd, Hfs. unfold nuses in Hfu. simpl in Hfu.
  rewrite length_app in Hfu. apply Forall_app in Hfs as [Hs1 Hs2].
  destruct (H1 st0 Hwf) as (st1 & Hr1 & O1); [split; [lia|unfold nuses; lia|done]|].
  pose proof (fo_nuses _ _ _ O1) as Hn1. unfold nuses in Hn1.
  destruct (H2 st1) as (st2 & Hr2 & O2);
    [apply O1|split; [rewrite (fo_defs _ _ _ O1); lia|unfold nuses; lia|done]|].
  exists st2. simpl. unfold mbind, M_bind. rewrite Hr1. split; [done|].
  destruct O1 as [W1 D1 U1 M1 K1 C1 E1], O2 as [W2 D2 U2 M2 K2 C2 E2].
  split; simpl; [done|lia| |lia| | |].
  - by rewrite U2, U1, fmap_app, (assoc_L (++)).
  - intros i Hi. rewrite K2, K1 by lia. done.
  - eapply covers_seq; [exact C1|exact C2| |].
    + eapply uses_kept_later; [|exact K2]. unfold nuses. lia.
    + intros tr He. inversion He; subst. eexists _, _; split; [done|]. split; [done|].
      by rewrite D1, Hn1.
  - eapply exact_seq; [exact E1|exact E2| |apply exec_exists].
    intros t1 t2 He1 He2. constructor; [done|]. unfold nuses. by rewrite <-Hn1, <-D1.
Qed.

(** A merge admits what either side admits, and nothing more. *)
Lemma merge_join b1 b3 :
  wf b1 → wf b3 → length (symbol_states b1) ≤ length (symbol_states b3) →
  let b4 := Builder.merge (Builder.snapshot b1) b3 in
  wf b4 ∧ length (symbol_states b4) = length (symbol_states b3) ∧
  (∀ s, below (st b1 s) (st b4 s)) ∧ (∀ s, below (st b3 s) (st b4 s)) ∧
  (∀ s d, d ∈ definitions (st b4 s) → d ∈ definitions (st b1 s) ∨ d ∈ definitions (st b3 s)) ∧
  (∀ s, may_be_unbound (st b4 s) = true →
     may_be_unbound (st b1 s) = true ∨ may_be_unbound (st b3 s) = true).
Proof.
  intros W1 W3 Hl. destruct (snapshot_spec b1 W1) as [[Hsw Hsl] Hpost].
  destruct (merge_spec (Builder.snapshot b1) b3) as (W4 & L4 & S4); [done|split; [done|lia]|].
  simpl. split; [done|]. split; [done|]. unfold below.
  split; [|split; [|split]]; intros s; specialize (S4 s) as [Hf Hx];
    rewrite Hpost in Hf, Hx; rewrite ?Hf; setoid_rewrite Hx || idtac;
    rewrite ?orb_true_iff; naive_solver.
Qed.

Lemma run_FBranch c a :
  run_spec (opt_flow c) → run_spec (opt_flow a) → run_spec (FBranch c a).
Proof.
  intros Hc Ha st0 Hwf [Hfd Hfu Hfs]. simpl in Hfd, Hfs. unfold nuses in Hfu. simpl in Hfu.
  rewrite <-!opt_flow_ndefs in Hfd. rewrite <-!opt_flow_use_syms, length_app in Hfu.
  rewrite <-!opt_flow_syms in Hfs. apply Forall_app in Hfs as [Hs1 Hs2].
  destruct (Hc st0 Hwf) as (st1 & Hr1 & O1); [split; [lia|unfold nuses; lia|done]|].
  pose proof (fo_nuses _ _ _ O1) as Hn1. destruct O1 as [W1 D1 U1 M1 K1 C1 E1].
  destruct (restore_spec (Builder.snapshot (sc_udm st0)) (sc_udm st1))
    as (b2 & Hr2 & Wb2 & Lb2 & Sb2 & Eb2); [apply W1|split; [apply Hwf|done]|apply W1|].
  assert (Hby2 : bindings_by_use b2 = bindings_by_use (sc_udm st1)) by (rewrite Eb2; done).
  destruct (Ha (mkScopeState (sc_defs st1) (sc_uses st1) b2)) as (st3 & Hr3 & O3).
  { destruct W1. split; simpl; rewrite ?Hby2, ?Lb2; done. }
  { split; simpl; unfold nuses in *; [lia..|done]. }
  pose proof (fo_nuses _ _ _ O3) as Hn3. destruct O3 as [W3 D3 U3 M3 K3 C3 E3]. simpl in *.
  destruct (merge_join (sc_udm st1) (sc_udm st3)) as (Wb4 & Lb4 & B1 & B3 & Xd & Xu);
    [apply W1|apply W3|lia|].
  set (b4 := Builder.merge _ _) in *.
  assert (Hby4 : bindings_by_use b4 = bindings_by_use (sc_udm st3)) by done.
  assert (Eb4 : Builder.merge (Builder.snapshot (sc_udm st1)) (sc_udm st3) = b4) by done.
  clearbody b4.
  assert (Halt : ∀ tr, exec_opt a (length (sc_defs st0) + from_option ndefs 0 c)
             (length (sc_uses st0) + from_option nuses 0 c) tr ↔
           exec (opt_flow a) (length (sc_defs st1)) (length (sc_uses st1)) tr).
  { intros tr. by rewrite exec_opt_flow, D1, Hn1, opt_flow_ndefs, opt_flow_nuses. }
  exists (mkScopeState (sc_defs st3) (sc_uses st3) b4). split.
  { simpl. unfold walk_branch. rewrite !visit_opt_run.
    unfold mbind, M_bind, fmap, M_fmap. simpl. rewrite Hr1. unfold try_update.
    simpl. rewrite Hr2. simpl. rewrite Hr3. by rewrite Eb4. }
  split; simpl; rewrite ?Lb4, ?Hby4.
  - destruct W3. split; simpl; rewrite ?Lb4, ?Hby4; done.
  - rewrite <-!opt_flow_ndefs. lia.
  - by rewrite U3, U1, <-!opt_flow_use_syms, fmap_app, (assoc_L (++)).
  - lia.
  - intros i Hi. rewrite K3, Hby2, K1 by lia. done.
  - eapply (covers_union _
      (exec (opt_flow c) (length (sc_defs st0)) (length (sc_uses st0)))
      (exec (opt_flow a) (length (sc_defs st1)) (length (sc_uses st1)))).
    + intros tr He. rewrite <-Halt, <-exec_opt_flow. inversion He; auto.
    + eapply covers_mono; [exact C1|done|done|].
      apply (uses_kept_later _ _ _ _ _ (length (sc_uses st1))); [lia|].
      intros i Hi. by rewrite Hby4, K3, Hby2.
    + eapply covers_mono; [exact C3|intros s; by rewrite Sb2|done|].
      intros tr s u b _ _ Hb. exists b. by rewrite Hby4.
  - eapply (exact_union _
      (exec (opt_flow c) (length (sc_defs st0)) (length (sc_uses st0)))
      (exec (opt_flow a) (length (sc_defs st1)) (length (sc_uses st1)))); [exact E1| | |done..].
    + eapply exact_ext; [exact E3|exact Sb2|done].
    + intros tr. rewrite <-Halt, <-exec_opt_flow. intros []; by constructor.
Qed.

(** *** Loops *)

Lemma iterate_opt_flow b d u tr :
  iterate b d u tr → tr = [] ∨ ∃ t ts, tr = t ++ ts ∧ exec (opt_flow b) d u t ∧ iterate b d u ts.
Proof.
  inversion 1; subst; [by left|]. right. eexists _, _. by rewrite <-exec_opt_flow.
Qed.

(** The last definition along iterations is live after one walk of the body. *)
Lemma iterate_last_def b d u tr B0 B1 sym x :
  covers (exec (opt_flow b) d u) B0 B1 →
  iterate b d u tr → last_def tr sym = Some x → x ∈ definitions (st B1 sym).
Proof.
  intros C. induction 1 as [|b d u t ts Ht Hts IH]; simpl; [done|].
  rewrite last_def_app. destruct (last_def ts sym) eqn:E; intros ?; simplify_eq; [by eauto|].
  apply exec_opt_flow in Ht. by eapply cov_def.
Qed.

(** A use inside iterations lies in one of them, after complete ones. *)
Lemma iterate_use b d u t1 t2 sym i :
  iterate b d u (t1 ++ EvUse sym i :: t2) →
  ∃ t0 p q, t1 = t0 ++ p ∧ iterate b d u t0 ∧
            exec (opt_flow b) d u (p ++ EvUse sym i :: q).
Proof.
  intros H1. remember (t1 ++ EvUse sym i :: t2) as tr eqn:Heq. revert t1 Heq.
  induction H1 as [|b d u t ts Ht Hts IH]; intros t1 Heq; [by destruct t1|].
  apply app_eq_inv in Heq as [(k & -> & Hk)|(k & -> & Hk)].
  - destruct k as [|e k]; simplify_list_eq.
    + destruct (IH []) as (t0 & p & q & Hn & Hit & Hex); [done|].
      destruct t0, p; simplify_list_eq. exists t1, [], q. rewrite app_nil_r.
      split; [done|]. split; [|done]. rewrite <-(app_nil_r t1).
      constructor; [done|constructor].
    + exists [], t1, k. split; [done|]. split; [constructor|]. by apply exec_opt_flow.
  - destruct (IH k) as (t0 & p & q & -> & Hit & Hex); [done|].
    exists (t ++ t0), p, q. split; [by rewrite (assoc_L (++))|]. split; [by constructor|done].
Qed.

(** At least one iteration of a loop body. *)
Definition iterations (b : option flow) (d u : nat) (tr : list event) : Prop :=
  ∃ t ts, tr = t ++ ts ∧ exec (opt_flow b) d u t ∧ iterate b d u ts.

Lemma iterations_iterate b d u tr : iterations b d u tr → iterate b d u tr.
Proof. intros (t & ts & -> & Ht & Hts). constructor; [by apply exec_opt_flow|done]. Qed.

(** Walking the body once, the fixup makes it cover any number of
    iterations. *)
Lemma iterations_covers b d u B0 B1 B2 (uses : list (Use ())) :
  covers (exec (opt_flow b) d u) B0 B1 →
  (∀ tr sym i, exec (opt_flow b) d u tr → EvUse sym i ∈ tr →
     u ≤ i ∧ use_symbol <$> uses !! i = Some sym) →
  (∀ s, st B2 s = st B1 s) →
  added (loop_carried uses (Builder.snapshot B0) u B1) (bindings_by_use B1)
    (bindings_by_use B2) →
  covers (iterations b d u) B0 B2.
Proof.
  intros C Hsites Hst [_ Hadd]. split.
  - intros tr sym x Hp%iterations_iterate Hx. rewrite Hst. by eapply iterate_last_def.
  - intros tr sym (t & ts & -> & Ht & Hts) [E _]%last_def_app_None. rewrite Hst.
    by eapply cov_thru.
  - intros t1 t2 sym i x Hp%iterations_iterate Hx.
    destruct (iterate_use _ _ _ _ _ _ _ Hp) as (t0 & p & q & -> & Hit & Hex).
    rewrite last_def_app in Hx. destruct (last_def p sym) eqn:E; simplify_eq.
    + destruct (cov_use_def _ _ _ C _ _ _ _ _ Hex E) as (bs & Hbs & Hin).
      destruct (Hadd _ _ Hbs) as (bs' & ? & _ & Hd). exists bs'. rewrite Hd. auto.
    + destruct (cov_use_thru _ _ _ C _ _ _ _ Hex E) as (bs & Hbs & Hin).
      destruct (Hadd _ _ Hbs) as (bs' & ? & _ & Hd). exists bs'. rewrite Hd.
      split; [done|]. assert (Hl := iterate_last_def _ _ _ _ _ _ _ _ C Hit Hx).
      destruct (decide (x ∈ definitions (st B0 sym))) as [Hpre|Hpre]; [left; by apply Hin|].
      right. destruct (Hsites _ sym i Hex) as [? Hu]; [set_solver|].
      apply fmap_Some in Hu as (us & Hu & ->). split; [done|]. eauto.
  - intros t1 t2 sym i Hp%iterations_iterate Hx.
    destruct (iterate_use _ _ _ _ _ _ _ Hp) as (t0 & p & q & -> & Hit & Hex).
    apply last_def_app_None in Hx as [_ E].
    destruct (cov_use_thru _ _ _ C _ _ _ _ Hex E) as (bs & Hbs & Hin).
    destruct (Hadd _ _ Hbs) as (bs' & ? & Hf & Hd). exists bs'. split; [done|].
    etrans; [done|]. split; [intros; rewrite Hd; auto|by rewrite Hf].
Qed.

Lemma exec_FLoop b m d u tr :
  exec (FLoop b m) d u tr ↔ iterations b d u tr ∨ m = true ∧ tr = [].
Proof.
  split.
  - inversion 1; subst; [by right|left]. eexists _, _. by rewrite <-exec_opt_flow.
  - intros [(t & ts & -> & Ht & Hts)|[-> ->]]; constructor; [by apply exec_opt_flow|done].
Qed.

Lemma iterations_exact b d u B0 B1 :
  exact (exec (opt_flow b) d u) B0 B1 → exact (iterations b d u) B0 B1.
Proof.
  intros E. assert (Hi : ∀ tr, exec (opt_flow b) d u tr → iterations b d u tr).
  { intros tr Ht. exists tr, []. rewrite app_nil_r. split; [done|]. split; [done|]. constructor. }
  eapply exact_union; [exact E|exact E|naive_solver|naive_solver|naive_solver].
Qed.

(** The walk of a loop body up to the fixup. *)
Lemma loop_body_spec b st0 :
  run_spec (opt_flow b) → scope_wf st0 → fits (opt_flow b) st0 →
  ∃ st1 st2, run (opt_flow b) st0 = Done () st1 ∧ flow_ok (opt_flow b) st0 st1 ∧
    upd_udm (Builder.finish_loop_defs (Builder.snapshot (sc_udm st0)) (length (sc_uses st0))
               (sc_uses st1)) st1 = Done () st2 ∧
    scope_wf st2 ∧ sc_defs st2 = sc_defs st1 ∧ sc_uses st2 = sc_uses st1 ∧
    symbol_states (sc_udm st2) = symbol_states (sc_udm st1) ∧
    (∀ i, i < length (sc_uses st0) →
       bindings_by_use (sc_udm st2) !! i = bindings_by_use (sc_udm st0) !! i) ∧
    covers (iterations b (length (sc_defs st0)) (length (sc_uses st0)))
      (sc_udm st0) (sc_udm st2).
Proof.
  intros Hb Hwf Hfit. destruct (Hb st0 Hwf Hfit) as (st1 & Hr1 & O1).
  pose proof O1 as [W1 D1 U1 M1 K1 C1 E1].
  destruct (finish_loop_defs_spec (sc_uses st1) (Builder.snapshot (sc_udm st0))
    (length (sc_uses st0)) (sc_udm st1)) as (l' & Hfin & Wl & Hadd); [apply W1..|].
  exists st1, (mkScopeState (sc_defs st1) (sc_uses st1)
                 (Builder.set_bindings_by_use l' (sc_udm st1))).
  split; [done|]. split; [done|]. simpl. unfold try_update. rewrite Hfin. split; [done|].
  split; [|split; [done|split; [done|split; [done|split]]]].
  - destruct W1 as [[] ? ? ?]. split; simpl; try done. by rewrite (proj1 Hadd).
  - intros i Hi. rewrite <-K1 by done. simpl.
    apply (added_same _ _ _ i (wf_uses _ (sw_udm _ W1)) Wl Hadd).
    intros x [? _]. lia.
  - eapply iterations_covers; [exact C1| |done|exact Hadd].
    intros tr sym i He Hi. apply (exec_use_sites _ _ _ _ He) in Hi as [Hi Hs].
    split; [done|]. rewrite U1, lookup_app_r by done.
    by rewrite list_lookup_fmap, Hs.
Qed.

(** A body that is there or not, walked and fixed up: a loop that cannot be
    skipped. *)
Definition walk_iterations (b : option flow) (st0 : ScopeState) : outcome ScopeState () :=
  if_some b (λ body,
    uses ← cur_uses;
    first_use ← try_get (λ _, IndexVec.next_id uses);
    run body;;
    uses ← cur_uses;
    upd_udm (Builder.finish_loop_defs (Builder.snapshot (sc_udm st0)) first_use uses)) st0.

Lemma iterations_None d u tr : iterations None d u tr → tr = [].
Proof.
  intros H1%iterations_iterate. remember None as b.
  induction H1 as [|? d u t ts Ht Hts IH]; [done|]. subst.
  inversion Ht; subst. auto.
Qed.

Lemma walk_iterations_ok b st0 :
  run_spec (opt_flow b) → scope_wf st0 → fits (opt_flow b) st0 →
  ∃ st2, walk_iterations b st0 = Done () st2 ∧ flow_ok (FLoop b false) st0 st2.
Proof.
  intros Hb Hwf Hfit.
  assert (Hit : ∀ d u tr, exec (FLoop b false) d u tr ↔ iterations b d u tr)
    by (intros; rewrite exec_FLoop; naive_solver).
  destruct b as [body|]; simpl in *.
  - destruct (loop_body_spec (Some body) st0 Hb Hwf Hfit)
      as (st1 & st2 & Hr & O1 & Hu & W2 & D2 & U2 & S2 & K2 & C2).
    destruct O1 as [W1 D1 U1 M1 K1 C1 E1]. simpl in *.
    assert (Hst : ∀ s, st (sc_udm st1) s = st (sc_udm st2) s)
      by (intros s; unfold st; by rewrite S2).
    exists st2. split.
    + unfold walk_iterations, mbind, M_bind, try_get. simpl. unfold IndexVec.next_id.
      rewrite (proj2 (IndexVec.Idx_new_Some _ _)) by (split; [done|destruct Hfit; lia]).
      by rewrite Hr.
    + split; simpl; rewrite ?D2, ?U2, ?S2; try done.
      * eapply covers_union; [intros tr Hp; left; exact (proj1 (Hit _ _ _) Hp)|done..].
      * eapply exact_ext; [|done|exact Hst].
        apply (iterations_exact (Some body)) in E1.
        eapply exact_union; [exact E1|exact E1|intros tr; rewrite Hit; naive_solver
          |naive_solver|naive_solver].
  - exists st0. split; [done|].
    assert (Hn : ∀ d u tr, exec (FLoop None false) d u tr ↔ exec FSkip d u tr).
    { intros d u tr. rewrite Hit. split.
      - intros ->%iterations_None. constructor.
      - inversion 1; subst. exists [], []. repeat constructor. }
    destruct (run_FSkip st0 Hwf Hfit) as (? & [= <-] & [W D U M K C E]).
    split; simpl; try done.
    + eapply covers_union; [|exact C|exact C]. intros tr Hp. left. by apply Hn.
    + eapply exact_union; [exact E|exact E|intros tr; rewrite Hn; naive_solver
        |naive_solver|naive_solver].
Qed.

Lemma run_FLoop b m : run_spec (opt_flow b) → run_spec (FLoop b m).
Proof.
  intros Hb st0 Hwf Hfit.
  assert (Hfit' : fits (opt_flow b) st0).
  { destruct Hfit as [F1 F2 F3]. destruct b; (split; [exact F1|exact F2|exact F3]). }
  destruct (walk_iterations_ok b st0 Hb Hwf Hfit') as (st2 & Hr & O2).
  assert (Hrun : run (FLoop b m) st0 =
    when m (upd_udm (λ x, Some (Builder.merge (Builder.snapshot (sc_udm st0)) x))) st2).
  { unfold walk_iterations in Hr. simpl. unfold walk_loop_body, mbind, M_bind, fmap, M_fmap in *.
    simpl in *. by rewrite Hr. }
  rewrite Hrun. clear Hrun Hr. destruct m; [|by exists st2].
  destruct O2 as [W2 D2 U2 M2 K2 C2 E2].
  destruct (merge_join (sc_udm st0) (sc_udm st2)) as (Wb4 & Lb4 & B1 & B3 & Xd & Xu);
    [apply Hwf|apply W2|done|].
  eexists; split; [done|]. simpl. set (b4 := Builder.merge _ _) in *.
  assert (Hby4 : bindings_by_use b4 = bindings_by_use (sc_udm st2)) by done. clearbody b4.
  assert (Hm : ∀ d u tr, exec (FLoop b true) d u tr ↔
                 exec (FLoop b false) d u tr ∨ exec FSkip d u tr).
  { intros d u tr. rewrite !exec_FLoop. split; [|intros [[?|?]|Hs]; [naive_solver..|]].
    - intros [?|[_ ->]]; [by left; left|right; constructor].
    - inversion Hs. auto. }
  destruct (run_FSkip st0 Hwf) as (? & [= <-] & [_ _ _ _ _ C0 E0]);
    [destruct Hfit as [F1 F2 F3]; split; unfold nuses in *; simpl in *; [lia..|constructor]|].
  split; simpl; rewrite ?Lb4, ?Hby4; try done.
  - destruct W2. split; simpl; rewrite ?Lb4, ?Hby4; done.
  - eapply covers_union; [intros tr; apply Hm| |].
    + eapply covers_mono; [exact C2|done|done|].
      intros tr s u b' _ _ Hb'. exists b'. by rewrite Hby4.
    + eapply covers_mono; [exact C0|done|done|].
      intros tr s u b' He Hi. inversion He; subst. by apply elem_of_nil in Hi.
  - eapply exact_union; [exact E2|exact E0|intros tr; apply Hm|naive_solver|naive_solver].
Qed.
End structured.

(** ** The walk of every skeleton *)

Lemma run_ok `{MergeJoinBy} (s : flow) : run_spec s.
Proof.
  induction s as [| | | |s1 s2 IH1 IH2|c a IHc IHa|b m IHb] using flow_ind'.
  - apply run_FSkip.
  - apply run_FUse.
  - apply run_FDef.
  - apply run_FSuper.
  - by apply run_FSeq.
  - apply run_FBranch; [destruct c|destruct a]; simpl; auto using run_FSkip.
  - apply run_FLoop. destruct b; simpl; auto using run_FSkip.
Qed.
