(* ===== verification/UseDefTheorems.v ===== *)
(** * The contract of the use-def analysis

    The properties of [use_def_map.rs] and of the control-flow part of
    [walk.rs]: the walk covers every path, snapshots for nested scopes see the
    definitions they have to, and the data structure keeps its invariants. *)

From S2P Require Import Prelude External IndexVec UseDefMap UseDefFacts FlowWalk.
Import BuilderFacts.

(** ** Paths *)

(** A scope before the walk: nothing interned, defined or used. *)
Definition new_scope : ScopeState := mkScopeState [] [] Builder.new.

(** The arenas can hold what a skeleton allocates. *)
Definition within_capacity (s : flow) : Prop :=
  (N.of_nat (ndefs s) ≤ IndexVec.MAX)%N ∧ (N.of_nat (nuses s) ≤ IndexVec.MAX)%N ∧
  Forall (λ sym, (N.of_nat sym ≤ IndexVec.MAX)%N) (syms s).

#[export] Instance within_capacity_dec s : Decision (within_capacity s).
Proof. unfold within_capacity. apply _. Defined.

Lemma new_scope_wf : scope_wf new_scope.
Proof. split; simpl; [apply wf_new|done| |done]. intros i u Hi. by rewrite lookup_nil in Hi. Qed.

Lemma within_capacity_fits s : within_capacity s → fits s new_scope.
Proof. intros (Hd & Hu & Hs). split; simpl; [lia|done|done]. Qed.

Lemma new_scope_st sym : st (sc_udm new_scope) sym = Bindings.unbound.
Proof. done. Qed.

Section paths.
Context `{MergeJoinBy}.


(** Exactness at the exit. After the walk the live bindings of a symbol
    are exactly the definitions that some path through the scope leaves in
    it, and the symbol may be unbound exactly when some path leaves it
    undefined. *)
Theorem walk_exit_exact (s : flow) (Hcap : within_capacity s) :
  ∃ scope, run s new_scope = Done () scope ∧
  ∀ sym, let b := default Bindings.unbound (Builder.final_bindings (sc_udm scope) !! sym) in
  (∀ d, d ∈ definitions b ↔ ∃ tr, exec s 0 0 tr ∧ last_def tr sym = Some d) ∧
  (may_be_unbound b = true ↔ ∃ tr, exec s 0 0 tr ∧ last_def tr sym = None).
Proof.
  destruct (run_ok s new_scope new_scope_wf (within_capacity_fits s Hcap))
    as (scope & Hrun & [_ _ _ _ _ C E]).
  exists scope. split; [done|]. intros sym. split.
  - intros d. split.
    + intros [[Hd _]|?]%(ex_def _ _ _ E); [by apply elem_of_nil in Hd|done].
    + intros (tr & Hp & Hd). by eapply (cov_def _ _ _ C).
  - split.
    + by intros [_ ?]%(ex_unbound _ _ _ E).
    + intros (tr & Hp & Hd). by apply (cov_thru _ _ _ C _ _ Hp Hd).
Qed.
End paths.

(** [repeat]/[for]/[if] around one variable: [x <- 0; for (i in y) { if (c)
    print(x) else x <- 1 }; x]. *)
Definition sample_flow : flow :=
  FSeq (FDef 0) (FSeq (FLoop (Some (FBranch (Some (FUse 0)) (Some (FDef 0)))) true) (FUse 0)).


Lemma walk_exit_exact_witness :
  ∃ scope, run sample_flow new_scope = Done () scope ∧
  ∀ sym, let b := default Bindings.unbound (Builder.final_bindings (sc_udm scope) !! sym) in
  (∀ d, d ∈ definitions b ↔ ∃ tr, exec sample_flow 0 0 tr ∧ last_def tr sym = Some d) ∧
  (may_be_unbound b = true ↔ ∃ tr, exec sample_flow 0 0 tr ∧ last_def tr sym = None).
Proof. apply (walk_exit_exact sample_flow), (bool_decide_unpack _). by vm_compute. Defined.

(** The first use sees both definitions, and neither use may be unbound. *)
Example sample_flow_bindings :
  ∃ scope, run sample_flow new_scope = Done () scope ∧
  udm_bindings_by_use (Builder.finish (sc_udm scope)) =
    [mkBindings [0; 1] false; mkBindings [0; 1] false].
Proof. eexists. split; [vm_compute; reflexivity|reflexivity]. Qed.

(** ** Bindings as a semilattice *)

Section semilattice.
Context `{MergeJoinBy}.

(** Merging is a set union. On well-formed bindings [merge] stays strictly
    sorted, contains exactly the definitions of both sides, may be unbound
    when either side may, and, as an operation on the representation itself,
    is associative, commutative, idempotent and absorbs what is already
    there: the order in which paths are joined cannot be observed. *)
Theorem merge_semilattice (a b c : Bindings)
    (Ha : Bindings.wf a) (Hb : Bindings.wf b) (Hc : Bindings.wf c) :
  Bindings.wf (Bindings.merge a b) ∧
  (∀ d, Bindings.contains_definition (Bindings.merge a b) d =
        Bindings.contains_definition a d || Bindings.contains_definition b d) ∧
  may_be_unbound (Bindings.merge a b) = may_be_unbound a || may_be_unbound b ∧
  Bindings.merge a b = Bindings.merge b a ∧
  Bindings.merge a (Bindings.merge b c) = Bindings.merge (Bindings.merge a b) c ∧
  Bindings.merge a a = a ∧
  Bindings.definition_count (Bindings.merge a b) ≤
    Bindings.definition_count a + Bindings.definition_count b.
Proof.
  assert (Hext : ∀ x y, Bindings.wf x → Bindings.wf y → may_be_unbound x = may_be_unbound y →
    (∀ d, d ∈ definitions x ↔ d ∈ definitions y) → x = y).
  { intros [dx fx] [dy fy] Wx Wy Hf Hd. simpl in *. f_equal; [|done].
    by apply sorted_lt_ext. }
  split; [auto with ark|]. split; [|split; [|split; [|split; [|split]]]].
  - intros d. unfold Bindings.contains_definition. rewrite <-bool_decide_or.
    apply bool_decide_ext. rewrite Bindings.merge_elem_of. tauto.
  - apply orb_comm.
  - apply Hext; [auto with ark..|apply orb_comm|].
    intros d. rewrite !Bindings.merge_elem_of. tauto.
  - apply Hext; [auto with ark..| |].
    + simpl. rewrite <-orb_assoc, (orb_comm (may_be_unbound c)). 
      destruct (may_be_unbound a), (may_be_unbound b), (may_be_unbound c); done.
    + intros d. rewrite !Bindings.merge_elem_of. tauto.
  - apply Hext; [auto with ark..|apply orb_diag|].
    intros d. rewrite Bindings.merge_elem_of. tauto.
  - unfold Bindings.definition_count. rewrite Nat.add_comm, <-length_app.
    apply submseteq_length, NoDup_submseteq.
    + apply sorted_lt_NoDup. by apply (Bindings.wf_merge a b).
    + intros d. rewrite elem_of_app, Bindings.merge_elem_of. tauto.
Qed.
End semilattice.

Lemma merge_semilattice_witness :
  Bindings.merge (mkBindings [1; 3] false) (mkBindings [2; 3] true) = mkBindings [1; 2; 3] true ∧
  Bindings.merge (mkBindings [1; 3] false) (mkBindings [2; 3] true) =
  Bindings.merge (mkBindings [2; 3] true) (mkBindings [1; 3] false).
Proof.
  split; [reflexivity|].
  apply (merge_semilattice (mkBindings [1; 3] false) (mkBindings [2; 3] true) Bindings.unbound);
    repeat constructor; simpl; lia.
Defined.

(** ** Snapshots for nested scopes *)

(** What a walk of a scope does to its builder. *)
Inductive op {Range : Type} :=
| OpEnsure (sym : nat)
| OpDef (sym d : nat)
| OpSuper (sym d : nat)
| OpLazyDef (sym d : nat)
| OpUse (sym u : nat)
| OpRestore (snap : FlowSnapshot)
| OpMerge (snap : FlowSnapshot)
| OpFinishLoop (pre_loop : FlowSnapshot) (first_use : nat) (uses : list (Use Range))
| OpLazySnapshot (sym : nat)
| OpEagerSnapshot (sym : nat).
Arguments op : clear implicits.

Definition apply_op `{MergeJoinBy} {Range} (o : op Range) (b : UseDefMapBuilder)
    : option UseDefMapBuilder :=
  match o with
  | OpEnsure sym => Builder.ensure_symbol sym b
  | OpDef sym d => Builder.record_definition sym d b
  | OpSuper sym d => Builder.record_super_definition sym d b
  | OpLazyDef sym d => Builder.record_lazy_definition sym d b
  | OpUse sym u => Builder.record_use sym u b
  | OpRestore snap => Builder.restore snap b
  | OpMerge snap => Some (Builder.merge snap b)
  | OpFinishLoop pre first_use uses => Builder.finish_loop_defs pre first_use uses b
  | OpLazySnapshot sym => fst <$> Builder.register_lazy_snapshot sym b
  | OpEagerSnapshot sym => fst <$> Builder.register_eager_snapshot sym b
  end.

(** The definitions of a symbol that an operation records. *)
Definition op_defs {Range} (sym : nat) (o : op Range) : list nat :=
  match o with
  | OpDef s d | OpSuper s d | OpLazyDef s d => if decide (s = sym) then [d] else []
  | _ => []
  end.

(** What is known of one registered snapshot: its contents, and the symbols
    whose definitions it follows. *)
Record snapshot_is (b : UseDefMapBuilder) (id : nat) (watched : nat → Prop)
    (live : nat → Prop) (unbound : bool) : Prop := {
  si_snap : ∃ s, enclosing_snapshots b !! id = Some s ∧ Bindings.wf s ∧
    may_be_unbound s = unbound ∧ ∀ x, x ∈ definitions s ↔ live x;
  si_watched : ∀ sym, id ∈ watchers_of b sym ↔ watched sym;
}.

(** Notifying adds the definition to the snapshots that watch its symbol. *)
Lemma notify_snapshot ids d snaps snaps' id s :
  foldM (λ i l, IndexVec.index_mut l i (Bindings.add_definition d)) ids snaps = Some snaps' →
  snaps !! id = Some s → Bindings.wf s →
  ∃ s', snaps' !! id = Some s' ∧ Bindings.wf s' ∧ may_be_unbound s' = may_be_unbound s ∧
    ∀ x, x ∈ definitions s' ↔ x ∈ definitions s ∨ id ∈ ids ∧ x = d.
Proof.
  revert snaps s. induction ids as [|i ids IH]; intros snaps s; simpl.
  - intros [= <-] Hs Hwf. exists s. set_solver.
  - intros Hrun Hs Hwf. apply bind_Some in Hrun as (snaps1 & H1 & Hrun).
    apply IndexVec.index_mut_Some in H1 as (v & v' & Hv & Hadd & ->).
    destruct (decide (i = id)) as [->|Hne].
    + rewrite Hs in Hv. injection Hv as <-.
      destruct (Bindings.add_definition_spec d s Hwf) as (v2 & Hv2 & W & F & X).
      rewrite Hadd in Hv2. injection Hv2 as <-. destruct (IH _ v' Hrun) as (s' & ? & ? & ? & X'); [|done|].
      { apply list_lookup_insert_eq. by eapply lookup_lt_Some. }
      exists s'. setoid_rewrite X'. setoid_rewrite X. split; [done|].
      split; [done|]. split; [congruence|]. set_solver.
    + destruct (IH _ s Hrun) as (s' & ? & ? & ? & X'); [|done|].
      { by rewrite list_lookup_insert_ne. }
      exists s'. setoid_rewrite X'. set_solver.
Qed.

Lemma notify_snapshot_is b b' snaps' id sym d watched live unbound :
  snapshot_is b id watched live unbound →
  Builder.notify_watchers (enclosing_snapshots b) (lazy_watchers b) sym d = Some snaps' →
  enclosing_snapshots b' = snaps' → lazy_watchers b' = lazy_watchers b →
  snapshot_is b' id watched (λ x, live x ∨ watched sym ∧ x = d) unbound.
Proof.
  intros [(s & Hs & Hwf & Hf & Hx) Hw] Hn <- Hl. split.
  - unfold Builder.notify_watchers in Hn. pose proof (Hw sym) as Hws. unfold watchers_of in Hws.
    destruct (lazy_watchers b !! sym) as [ids|]; simpl in Hws.
    + destruct (notify_snapshot _ _ _ _ _ _ Hn Hs Hwf) as (s' & ? & ? & ? & Hx').
      exists s'. setoid_rewrite Hx'. setoid_rewrite Hws. setoid_rewrite Hx.
      split; [done|]. split; [done|]. split; [congruence|done].
    + injection Hn as Hn. exists s. rewrite <-Hn. split; [done|]. split; [done|]. split; [done|].
      intros x. rewrite Hx. assert (¬ watched sym) by (rewrite <-Hws; apply not_elem_of_nil).
      tauto.
  - intros s'. unfold watchers_of. rewrite Hl. apply Hw.
Qed.

(** A fresh snapshot leaves the earlier ones alone. *)
Lemma push_snapshot_is b b' bs id new_id watched live unbound :
  snapshot_is b id watched live unbound →
  IndexVec.push (enclosing_snapshots b) bs = Some (enclosing_snapshots b', new_id) →
  (∀ sym, id ∈ watchers_of b' sym ↔ id ∈ watchers_of b sym ∨ watched sym) →
  snapshot_is b' id watched live unbound.
Proof.
  intros [(s & Hs & Hrest) Hw] (Hp & _ & _)%IndexVec.push_Some Hwatch. split.
  - exists s. rewrite Hp. split; [by apply lookup_app_l_Some|done].
  - intros s'. rewrite Hwatch, Hw. tauto.
Qed.

Lemma snapshot_is_ext b b' id watched live live' unbound :
  snapshot_is b id watched live unbound →
  enclosing_snapshots b' = enclosing_snapshots b → lazy_watchers b' = lazy_watchers b →
  (∀ x, live x ↔ live' x) → snapshot_is b' id watched live' unbound.
Proof.
  intros [(s & Hs & Hwf & Hf & Hx) Hw] He Hl Hlive. split.
  - exists s. rewrite He. setoid_rewrite <-Hlive. done.
  - intros s'. unfold watchers_of. rewrite Hl. apply Hw.
Qed.

Lemma snapshot_is_iff b id watched live live' unbound :
  (∀ x, live x ↔ live' x) →
  snapshot_is b id watched live unbound → snapshot_is b id watched live' unbound.
Proof. intros Hlive Hs. eapply snapshot_is_ext; [exact Hs|done..]. Qed.

Lemma finish_loop_defs_frame {Range} pre first (uses : list (Use Range)) b b' :
  Builder.finish_loop_defs pre first uses b = Some b' →
  enclosing_snapshots b' = enclosing_snapshots b ∧ lazy_watchers b' = lazy_watchers b.
Proof.
  intros Hrun. eapply (foldM_inv _ (λ b', enclosing_snapshots b' = enclosing_snapshots b ∧
    lazy_watchers b' = lazy_watchers b)) in Hrun; [done| |done].
  intros sym b1 b2 _ HP Hs. apply bind_Some in Hs as ([|d ds] & _ & Hs); [by simplify_eq|].
  apply bind_Some in Hs as (l & _ & [= <-]). done.
Qed.

Section snapshots.
Context `{MergeJoinBy} {Range : Type}.
Implicit Types o : op Range.

(** One operation, seen from an already registered snapshot. *)
Lemma apply_op_snapshot o b b' id (watched live : nat → Prop) unbound :
  apply_op o b = Some b' → snapshot_is b id watched live unbound →
  snapshot_is b' id watched
    (λ x, live x ∨ ∃ sym, watched sym ∧ x ∈ op_defs sym o) unbound.
Proof.
  intros Hrun Hs.
  assert (Hlt : id < length (enclosing_snapshots b)).
  { destruct Hs as [(s & Hl & _) _]. by eapply lookup_lt_Some. }
  assert (Hdef : ∀ s d, (∀ x, live x ∨ watched s ∧ x = d ↔
    live x ∨ ∃ sym, watched sym ∧ x ∈ (if decide (s = sym) then [d] else []))).
  { intros s d x. split; [|intros [?|(s' & Hw & Hx)]; [by left|]].
    - intros [?|[? ->]]; [by left|right]. exists s. rewrite decide_True by done. set_solver.
    - case_decide; subst; set_solver. }
  destruct o as [sym|sym d|sym d|sym d|sym u|snap|snap|pre first uses|sym|sym]; simpl in Hrun.
  - apply bind_Some in Hrun as (l & _ & [= <-]). eapply snapshot_is_ext; [exact Hs|done|done|set_solver].
  - apply bind_Some in Hrun as (l & _ & Hrun). apply bind_Some in Hrun as (l' & Hn & [= <-]).
    eapply snapshot_is_iff; [apply Hdef|by eapply notify_snapshot_is].
  - apply bind_Some in Hrun as (l & _ & Hrun). apply bind_Some in Hrun as (l' & Hn & [= <-]).
    eapply snapshot_is_iff; [apply Hdef|by eapply notify_snapshot_is].
  - apply bind_Some in Hrun as (l' & Hn & [= <-]).
    eapply snapshot_is_iff; [apply Hdef|by eapply notify_snapshot_is].
  - apply bind_Some in Hrun as (bs & _ & Hrun). apply bind_Some in Hrun as ([l p] & _ & Hrun).
    apply bind_Some in Hrun as ([] & _ & [= <-]).
    eapply snapshot_is_ext; [exact Hs|done|done|set_solver].
  - apply bind_Some in Hrun as (l & _ & [= <-]). eapply snapshot_is_ext; [exact Hs|done|done|set_solver].
  - injection Hrun as <-. eapply snapshot_is_ext; [exact Hs|done|done|set_solver].
  - apply finish_loop_defs_frame in Hrun as [? ?]. eapply snapshot_is_ext; [exact Hs|done|done|set_solver].
  - apply fmap_Some in Hrun as ([b1 n] & Hr & ->). simpl. unfold Builder.register_lazy_snapshot in Hr.
    apply bind_Some in Hr as (bs & _ & Hr). apply bind_Some in Hr as (bs' & _ & Hr).
    apply bind_Some in Hr as ([snaps n'] & Hp & [= <- <-]).
    eapply snapshot_is_iff; [|eapply push_snapshot_is; [exact Hs|exact Hp|]]; [set_solver|].
    intros s. unfold watchers_of at 1. simpl. rewrite watchers_entry_push.
    apply IndexVec.push_Some in Hp as (_ & -> & _). destruct Hs as [_ Hw]. rewrite Hw.
    split; [intros [?|[_ ?]]; [by left|lia]|tauto].
  - apply fmap_Some in Hrun as ([b1 n] & Hr & ->). simpl.
    apply bind_Some in Hr as (bs & _ & Hr).
    apply bind_Some in Hr as ([snaps n'] & Hp & [= <- <-]).
    eapply snapshot_is_iff; [|eapply push_snapshot_is; [exact Hs|exact Hp|]]; [set_solver|].
    intros s. unfold watchers_of at 1. simpl. fold (watchers_of b s).
    destruct Hs as [_ Hw]. rewrite Hw. tauto.
Qed.

Lemma run_ops_snapshot (ops : list (op Range)) b b' id (watched live : nat → Prop) unbound :
  foldM apply_op ops b = Some b' → snapshot_is b id watched live unbound →
  snapshot_is b' id watched
    (λ x, live x ∨ ∃ sym o, o ∈ ops ∧ watched sym ∧ x ∈ op_defs sym o) unbound.
Proof.
  revert b live. induction ops as [|o ops IH]; intros b live; simpl.
  - intros [= <-] Hs. eapply snapshot_is_ext; [exact Hs|done|done|set_solver].
  - intros Hrun Hs. apply bind_Some in Hrun as (b1 & Ho & Hrun).
    eapply snapshot_is_ext; [eapply IH; [exact Hrun|by eapply apply_op_snapshot]|done..|].
    intros x. set_solver.
Qed.

(** Snapshots for nested scopes. A lazy scope (a function body) sees, for
    a free symbol, the definitions live where it is created, those recorded
    for a lazy owner before, and every definition of that symbol the enclosing
    scope records later, whatever happens in between; an eager scope
    ([local()]) sees exactly what is live where it runs. *)
Theorem enclosing_snapshots_follow (b b1 b2 : UseDefMapBuilder) (sym id : nat)
    (eager : bool) (ops : list (op Range))
    (Hwf : wf b)
    (Hreg : (if eager then Builder.register_eager_snapshot sym b
             else Builder.register_lazy_snapshot sym b) = Some (b1, id))
    (Hops : foldM apply_op ops b1 = Some b2) :
  ∃ s, UseDefMap.enclosing_snapshot id (Builder.finish b2) = Some s ∧
    may_be_unbound s = may_be_unbound (st b sym) ∧
    ∀ d, d ∈ definitions s ↔
      d ∈ definitions (st b sym) ∨
      eager = false ∧ (d ∈ default [] (lazy_defs b !! sym) ∨ ∃ o, o ∈ ops ∧ d ∈ op_defs sym o).
Proof.
  assert (Hnew : ∀ s, length (enclosing_snapshots b) ∉ watchers_of b s).
  { intros s Hin. unfold watchers_of in Hin. destruct (lazy_watchers b !! s) eqn:E; simpl in Hin;
      [|by apply elem_of_nil in Hin]. specialize (wf_watchers _ Hwf _ _ _ E Hin). lia. }
  assert (Hid : snapshot_is b1 id (λ s, eager = false ∧ s = sym)
    (λ d, d ∈ definitions (st b sym) ∨ eager = false ∧ d ∈ default [] (lazy_defs b !! sym))
    (may_be_unbound (st b sym))).
  { destruct eager; apply bind_Some in Hreg as (bs & Hbs & Hreg).
    - apply bind_Some in Hreg as ([snaps n'] & Hp & [= <- <-]).
      assert (Est : st b sym = bs) by (unfold st, IndexVec.index in *; by rewrite Hbs).
      apply IndexVec.push_Some in Hp as (-> & -> & _). split; simpl.
      + exists bs. rewrite lookup_app_r, Nat.sub_diag by done. rewrite <-Est.
        split; [done|]. split; [by apply st_wf|]. naive_solver.
      + intros s. specialize (Hnew s). unfold watchers_of in *. simpl. naive_solver.
    - assert (Est : st b sym = bs) by (unfold st, IndexVec.index in *; by rewrite Hbs).
      apply bind_Some in Hreg as (bs' & Hl & Hreg).
      apply bind_Some in Hreg as ([snaps n'] & Hp & [= <- <-]).
      apply IndexVec.push_Some in Hp as (-> & -> & _). split; simpl.
      + exists bs'. rewrite lookup_app_r, Nat.sub_diag by done. split; [done|].
        destruct (lazy_defs b !! sym) as [ds|]; simpl.
        * destruct (fold_add_definition ds bs) as (b3 & Hb3 & W & F & X);
            [rewrite <-Est; by apply st_wf|].
          rewrite Hl in Hb3. injection Hb3 as <-. rewrite Est. setoid_rewrite X. naive_solver.
        * injection Hl as <-. rewrite <-Est. split; [by apply st_wf|]. set_solver.
      + intros s. unfold watchers_of at 1. simpl. rewrite watchers_entry_push.
        specialize (Hnew s). naive_solver. }
  destruct (run_ops_snapshot _ _ _ _ _ _ _ Hops Hid) as [(s & Hs & _ & Hf & Hx) _].
  exists s. split; [done|]. split; [done|]. intros d. rewrite Hx. naive_solver.
Qed.
End snapshots.

Lemma enclosing_snapshots_follow_witness :
  ∃ b b1 b2, Builder.ensure_symbol 0 Builder.new = Some b ∧
    Builder.register_lazy_snapshot 0 b = Some (b1, 0) ∧
    foldM apply_op [OpDef 0 4; OpMerge (mkFlowSnapshot []); OpSuper 0 6 : op ()] b1 = Some b2 ∧
    ∃ s, UseDefMap.enclosing_snapshot 0 (Builder.finish b2) = Some s ∧
    may_be_unbound s = may_be_unbound (st b 0) ∧
    ∀ d, d ∈ definitions s ↔
      d ∈ definitions (st b 0) ∨
      false = false ∧ (d ∈ default [] (lazy_defs b !! 0) ∨
        ∃ o : op (), o ∈ [OpDef 0 4; OpMerge (mkFlowSnapshot []); OpSuper 0 6] ∧ d ∈ op_defs 0 o).
Proof.
  eexists _, _, _. split; [reflexivity|]. split; [reflexivity|]. split; [reflexivity|].
  eapply (enclosing_snapshots_follow _ _ _ 0 0 false); [|reflexivity..].
  split; simpl; try (repeat constructor; fail).
  - intros ??? He. by rewrite lookup_empty in He.
  - intros ?? He. by rewrite lookup_empty in He.
Defined.

(** [for (i in y) { local(x); x <- 1 }]: the loop body registers an eager
    snapshot of [x] and then defines it. *)
Definition eager_in_loop `{MergeJoinBy} : option UseDefMapBuilder :=
  b ← Builder.ensure_symbol 0 Builder.new;
  let pre_loop := Builder.snapshot b in
  '(b, _) ← Builder.register_eager_snapshot 0 b;
  b ← Builder.record_definition 0 0 b;
  b ← Builder.finish_loop_defs pre_loop 0 ([] : list (Use ())) b;
  Some (Builder.merge pre_loop b).

(** A gap of the loop fixup. [finish_loop_defs] patches uses of the loop's
    own scope only, so the snapshot of an eager scope in a loop body misses
    the definition the previous iteration left, although the same read made
    directly in the loop body is given it. *)
Theorem eager_snapshot_misses_loop_carried `{MergeJoinBy} :
  (b ← eager_in_loop; UseDefMap.enclosing_snapshot 0 (Builder.finish b)) =
    Some Bindings.unbound ∧
  ∃ scope, run (FLoop (Some (FSeq (FUse 0) (FDef 0))) true) new_scope = Done () scope ∧
    UseDefMap.bindings_at_use 0 (Builder.finish (sc_udm scope)) = Some (mkBindings [0] true).
Proof. split; [reflexivity|]. eexists; split; reflexivity. Qed.

(** ** Conditional and lazy definitions at the end of a scope *)

(** What a scope exports. [fold_lazy_defs] does not panic, and afterwards
    a symbol's final bindings are the live ones plus every definition recorded
    for a lazy owner; possible unboundness is unchanged, so a lazy definition
    never hides that the symbol may be missing. *)
Theorem fold_lazy_defs_ok (b : UseDefMapBuilder) (Hwf : wf b) :
  ∃ b', Builder.fold_lazy_defs b = Some b' ∧ wf b' ∧
    length (Builder.final_bindings b') = length (Builder.final_bindings b) ∧
    ∀ sym, may_be_unbound (st b' sym) = may_be_unbound (st b sym) ∧
      ∀ d, d ∈ definitions (st b' sym) ↔
           d ∈ definitions (st b sym) ∨ d ∈ default [] (lazy_defs b !! sym).
Proof.
  destruct (fold_lazy_defs_spec b Hwf) as (states & Hf & W & L & S). eexists. by split.
Qed.

Lemma fold_lazy_defs_ok_witness :
  ∃ b b', (b ← Builder.ensure_symbol 0 Builder.new; Builder.record_lazy_definition 0 7 b) = Some b ∧
    Builder.fold_lazy_defs b = Some b' ∧ wf b' ∧
    length (Builder.final_bindings b') = length (Builder.final_bindings b) ∧
    ∀ sym, may_be_unbound (st b' sym) = may_be_unbound (st b sym) ∧
      ∀ d, d ∈ definitions (st b' sym) ↔
           d ∈ definitions (st b sym) ∨ d ∈ default [] (lazy_defs b !! sym).
Proof.
  eexists. assert (Hwf : wf (mkBuilder [Bindings.unbound] [] {[0 := [7]]} [] ∅)).
  { split; simpl; try (repeat constructor; fail); try done.
    intros sym defs [<- _]%lookup_singleton_Some. lia. }
  destruct (fold_lazy_defs_ok _ Hwf) as (b' & Hb'). exists b'. split; [reflexivity|exact Hb'].
Defined.
