(* ===== verification/Syntax.v ===== *)
(** * The syntax tree as the indexer reads it

    The R syntax tree ([aether_syntax], [biome_rowan]) is third-party. What the
    indexer takes from a node is the variant it matches and the results of the
    accessors it calls, so [expr] has the matched variants of [AnyRExpression]
    with those results: an accessor that returns [Result] or [Option] is an
    [option], [text_trimmed_range()] is the range of the node. [descendants] are
    the outermost [AnyRExpression] nodes below a node in preorder, which is what
    [scan_descendants] and [walk_descendants] visit.

    The token predicates are those of [crates/oak_semantic/src/builder.rs]. *)

From S2P Require Export Prelude External.
From stdpp Require Export strings.

(** The operator kinds the indexer tells apart. *)
Inductive RSyntaxKind :=
| ASSIGN | EQUAL | ASSIGN_RIGHT | SUPER_ASSIGN | SUPER_ASSIGN_RIGHT
| SPECIAL | WALRUS | COLON2 | COLON3 | OTHER_KIND.

#[export] Instance RSyntaxKind_eq_dec : EqDecision RSyntaxKind.
Proof. solve_decision. Defined.

Record token := mkToken { kind : RSyntaxKind; text_trimmed : string }.

Section syntax.
Context `{TextRanges}.

(** [AnyRParameterName]. *)
Inductive param_name :=
| PIdentifier (name : string) (range : TextRange)
| PDots (range : TextRange)
| PDotDotI (text : string) (range : TextRange).

(** [default]: the default clause, if any, and its value, if it has one. *)
Record RParameter {E : Type} := mkParameter {
  par_name : option param_name;
  par_default : option (option E);
  par_range : TextRange;
}.

(** [name_clause]: the clause, if any, and the text of the name when it is an
    identifier or a string. *)
Record RArgument {E : Type} := mkArgument {
  arg_name_clause : option (option string);
  arg_value : option E;
}.

Inductive expr :=
| RIdentifier (name : string) (range : TextRange)
| RDots (range : TextRange)
| RDotDotI (text : string) (range : TextRange)
| RStringValue (text : option string) (range : TextRange)
| RNullExpression (range : TextRange)
| RTrueExpression (range : TextRange)
| RFalseExpression (range : TextRange)
| RFunctionDefinition (parameters : option (list (option (@RParameter expr))))
    (body : option expr) (range : TextRange)
| RBracedExpressions (expressions : list expr) (range : TextRange)
| RBinaryExpression (operator : option token) (left right : option expr) (range : TextRange)
| RCall (function : option expr) (arguments : option (list (option (@RArgument expr))))
    (range : TextRange)
| RSubset (function : option expr) (arguments : option (list (option (@RArgument expr))))
    (descendants : list expr) (range : TextRange)
| RExtractExpression (left : option expr) (descendants : list expr) (range : TextRange)
| RNamespaceExpression (operator : option token) (left right : option string)
    (descendants : list expr) (range : TextRange)
| RForStatement (variable : option (string * TextRange)) (sequence body : option expr)
    (range : TextRange)
| RIfStatement (condition consequence alternative : option expr) (range : TextRange)
| RWhileStatement (condition body : option expr) (range : TextRange)
| RRepeatStatement (body : option expr) (descendants : list expr) (range : TextRange)
| RBogusExpression (descendants : list expr) (range : TextRange)
| ROther (descendants : list expr) (range : TextRange).

(** [expr.syntax().text_trimmed_range()]. *)
Definition range_of (e : expr) : TextRange :=
  match e with
  | RIdentifier _ r | RDots r | RDotDotI _ r | RStringValue _ r | RNullExpression r
  | RTrueExpression r | RFalseExpression r | RFunctionDefinition _ _ r
  | RBracedExpressions _ r | RBinaryExpression _ _ _ r | RCall _ _ r | RSubset _ _ _ r
  | RExtractExpression _ _ r | RNamespaceExpression _ _ _ _ r | RForStatement _ _ _ r
  | RIfStatement _ _ _ r | RWhileStatement _ _ r | RRepeatStatement _ _ r
  | RBogusExpression _ r | ROther _ r => r
  end.

(** ** Sizes *)

Definition osize {A} (f : A → nat) (o : option A) : nat :=
  match o with Some x => f x | None => 0 end.

Definition lsize {A} (f : A → nat) : list A → nat :=
  fix go l := match l with [] => 0 | x :: l => f x + go l end.

Fixpoint esize (e : expr) : nat :=
  let args l := lsize (osize (λ a, osize esize (arg_value a))) l in
  let params l := lsize (osize (λ p, osize (osize esize) (par_default p))) l in
  S match e with
  | RIdentifier _ _ | RDots _ | RDotDotI _ _ | RStringValue _ _ | RNullExpression _
  | RTrueExpression _ | RFalseExpression _ => 0
  | RFunctionDefinition ps b _ => osize params ps + osize esize b
  | RBracedExpressions l _ => lsize esize l
  | RBinaryExpression _ l r _ => osize esize l + osize esize r
  | RCall f a _ => osize esize f + osize args a
  | RSubset f a d _ => osize esize f + osize args a + lsize esize d
  | RExtractExpression l d _ => osize esize l + lsize esize d
  | RNamespaceExpression _ _ _ d _ => lsize esize d
  | RForStatement _ s b _ => osize esize s + osize esize b
  | RIfStatement c t f _ => osize esize c + osize esize t + osize esize f
  | RWhileStatement c b _ => osize esize c + osize esize b
  | RRepeatStatement b d _ => osize esize b + lsize esize d
  | RBogusExpression d _ | ROther d _ => lsize esize d
  end.

Definition args_size (l : list (option (@RArgument expr))) : nat :=
  lsize (osize (λ a, osize esize (arg_value a))) l.

Definition params_size (l : list (option (@RParameter expr))) : nat :=
  lsize (osize (λ p, osize (osize esize) (par_default p))) l.

Lemma lsize_elem {A} (f : A → nat) l x : x ∈ l → f x ≤ lsize f l.
Proof. induction 1; simpl; lia. Qed.

Lemma args_size_elem l a v : Some a ∈ l → arg_value a = Some v → esize v ≤ args_size l.
Proof.
  intros Ha Hv. etrans; [|apply (lsize_elem _ _ _ Ha)]. simpl. by rewrite Hv.
Qed.

Lemma params_size_elem l p v :
  Some p ∈ l → par_default p = Some (Some v) → esize v ≤ params_size l.
Proof.
  intros Ha Hv. etrans; [|apply (lsize_elem _ _ _ Ha)]. simpl. by rewrite Hv.
Qed.

(** ** Sub-expressions *)

Definition arg_exprs (l : list (option (@RArgument expr))) : list expr :=
  omap (λ item, item ≫= arg_value) l.

Definition param_exprs (l : list (option (@RParameter expr))) : list expr :=
  omap (λ param, param ≫= λ p, default None (par_default p)) l.

Definition children (e : expr) : list expr :=
  match e with
  | RIdentifier _ _ | RDots _ | RDotDotI _ _ | RStringValue _ _ | RNullExpression _
  | RTrueExpression _ | RFalseExpression _ => []
  | RFunctionDefinition ps b _ => from_option param_exprs [] ps ++ option_list b
  | RBracedExpressions l _ => l
  | RBinaryExpression _ l r _ => option_list l ++ option_list r
  | RCall f a _ => option_list f ++ from_option arg_exprs [] a
  | RSubset f a d _ => option_list f ++ from_option arg_exprs [] a ++ d
  | RExtractExpression l d _ => option_list l ++ d
  | RNamespaceExpression _ _ _ d _ => d
  | RForStatement _ s b _ => option_list s ++ option_list b
  | RIfStatement c t f _ => option_list c ++ option_list t ++ option_list f
  | RWhileStatement c b _ => option_list c ++ option_list b
  | RRepeatStatement b d _ => option_list b ++ d
  | RBogusExpression d _ | ROther d _ => d
  end.

Definition child (e' e : expr) : Prop := e' ∈ children e.

Lemma option_list_size o e : e ∈ option_list o → esize e ≤ osize esize o.
Proof. destruct o; simpl; [intros ->%list_elem_of_singleton; done|by intros ?%elem_of_nil]. Qed.

Lemma arg_exprs_size o e : e ∈ from_option arg_exprs [] o → esize e ≤ osize args_size o.
Proof.
  destruct o as [l|]; simpl; [|by intros ?%elem_of_nil].
  intros ([a|] & Ha & Hv)%list_elem_of_omap; [|done]. by eapply args_size_elem.
Qed.

Lemma param_exprs_size o e : e ∈ from_option param_exprs [] o → esize e ≤ osize params_size o.
Proof.
  destruct o as [l|]; simpl; [|by intros ?%elem_of_nil].
  intros ([p|] & Hp & Hv)%list_elem_of_omap; [|done]. simpl in Hv.
  destruct (par_default p) as [d|] eqn:Hd; simplify_eq/=. by eapply params_size_elem.
Qed.

Lemma child_size e' e : child e' e → esize e' < esize e.
Proof.
  unfold child. destruct e; cbn [children esize]; fold args_size params_size;
    intros Hin; rewrite ?elem_of_app in Hin; destruct_or? Hin;
    first [by apply elem_of_nil in Hin
      | apply option_list_size in Hin; lia
      | apply arg_exprs_size in Hin; unfold args_size in *; lia
      | apply param_exprs_size in Hin; unfold params_size in *; lia
      | apply (lsize_elem esize) in Hin; lia].
Qed.

(** Strict sub-expressions are smaller. *)
Lemma strict_size e' e : tc child e' e → esize e' < esize e.
Proof. induction 1 as [e' e H1%child_size|e1 e2 e3 H1%child_size _ IH]; lia. Qed.

(** An expression of the program. *)
Definition within (program : list expr) (e : expr) : Prop :=
  ∃ top, top ∈ program ∧ rtc child e top.

Lemma within_top program e : e ∈ program → within program e.
Proof. intros He. exists e. by split. Qed.

Lemma within_child program e' e : within program e → child e' e → within program e'.
Proof. intros (top & Ht & Hr) Hc. exists top. split; [done|]. by eapply rtc_l. Qed.

Lemma within_strict program e' e : within program e → tc child e' e → within program e'.
Proof.
  intros (top & Ht & Hr) Hc. exists top. split; [done|]. etrans; [by apply tc_rtc|done].
Qed.

Lemma within_size program e : within program e → esize e ≤ lsize esize program.
Proof.
  intros (top & Ht & Hr). etrans; [|by apply lsize_elem].
  apply rtc_tc in Hr as [->|Hr]; [done|]. apply strict_size in Hr. lia.
Qed.

(** The items of an argument list and of a call. *)
Definition call_arguments (e : expr) : option (list (option (@RArgument expr))) :=
  match e with RCall _ a _ => a | _ => None end.

(** ** Token predicates *)

Definition is_assignment (operator : option token) : bool :=
  match operator with
  | Some op =>
      match kind op with
      | ASSIGN | EQUAL | ASSIGN_RIGHT | SUPER_ASSIGN | SUPER_ASSIGN_RIGHT => true
      | _ => false
      end
  | None => false
  end.

Definition is_right_assignment (operator : option token) : bool :=
  match operator with
  | Some op => match kind op with ASSIGN_RIGHT | SUPER_ASSIGN_RIGHT => true | _ => false end
  | None => false
  end.

Definition is_super_assignment (operator : option token) : bool :=
  match operator with
  | Some op => match kind op with SUPER_ASSIGN | SUPER_ASSIGN_RIGHT => true | _ => false end
  | None => false
  end.

Definition assignment_name (target : expr) : option (string * TextRange) :=
  match target with
  | RIdentifier name range => Some (name, range)
  | RStringValue text range => name ← text; Some (name, range)
  | _ => None
  end.

(** A node pointer identifies its node by kind, which the type of the pointer
    or the variant of its node fixes, and range. *)
Definition AstPtr : Type := TextRange.

End syntax.

Arguments RParameter {_} _.
Arguments mkParameter {_ _} _ _ _.
Arguments RArgument : clear implicits.
Arguments mkArgument {_} _ _.
