(* ===== verification/SemanticData.v ===== *)
(** * The data of a semantic index: [crates/oak_semantic/src/semantic_index.rs]

    Scopes, symbol tables, definitions, uses, semantic calls and diagnostics.
    Identifiers ([ScopeId], [SymbolId], [DefinitionId], [UseId],
    [EnclosingSnapshotId]) are [nat] indices into their [IndexVec]. *)

From S2P Require Export Syntax IndexVec UseDefMap.

Inductive EvalEnv := EnvCurrent | EnvNested.
Inductive EvalTiming := Eager | Lazy.

#[export] Instance EvalEnv_eq_dec : EqDecision EvalEnv.
Proof. solve_decision. Defined.
#[export] Instance EvalTiming_eq_dec : EqDecision EvalTiming.
Proof. solve_decision. Defined.

(** ** Scopes *)

Inductive ScopeKind := KFile | KFunction | KNse (env : EvalEnv) (timing : EvalTiming).

#[export] Instance ScopeKind_eq_dec : EqDecision ScopeKind.
Proof. solve_decision. Defined.

Module ScopeKind.

Definition is_lazy (kind : ScopeKind) : bool :=
  match kind with
  | KFile => false
  | KFunction => true
  | KNse _ timing => bool_decide (timing = Lazy)
  end.

Definition owns_bindings (kind : ScopeKind) : bool :=
  match kind with KNse EnvCurrent _ => false | _ => true end.

End ScopeKind.

(** [descendants: Range<ScopeId>]. *)
Record Scope `{TextRanges} := mkScope {
  scope_parent : option nat;
  scope_kind : ScopeKind;
  scope_range : TextRange;
  descendants_start : nat;
  descendants_end : nat;
}.

(** ** Symbols *)

(** [SymbolFlags(u8)]. *)
Definition SymbolFlags : Type := N.

Module SymbolFlags.

Definition IS_USED : SymbolFlags := N.shiftl 1 0.
Definition IS_BOUND : SymbolFlags := N.shiftl 1 1.
Definition IS_PARAMETER : SymbolFlags := N.shiftl 1 2.
Definition IS_SUPER_BOUND : SymbolFlags := N.shiftl 1 3.

Definition empty : SymbolFlags := 0%N.

Definition contains (self other : SymbolFlags) : bool :=
  bool_decide (N.land self other = other).

Definition intersects (self other : SymbolFlags) : bool :=
  negb (bool_decide (N.land self other = 0%N)).

Definition union (self other : SymbolFlags) : SymbolFlags := N.lor self other.

Definition insert (self other : SymbolFlags) : SymbolFlags := N.lor self other.

Lemma contains_spec self other :
  contains self other = true ↔ ∀ i, N.testbit other i = true → N.testbit self i = true.
Proof.
  unfold contains. rewrite bool_decide_eq_true. split.
  - intros Heq i Hi. rewrite <-Heq, N.land_spec in Hi. by apply andb_true_iff in Hi as [? _].
  - intros Hs. apply N.bits_inj. intros i. rewrite N.land_spec.
    destruct (N.testbit other i) eqn:E; [by rewrite (Hs i E)|apply andb_false_r].
Qed.

Lemma flags_contains_insert self a b :
  contains self b = true → contains (insert self a) b = true.
Proof.
  rewrite !contains_spec. intros Hs i Hi. unfold insert. by rewrite N.lor_spec, (Hs i Hi).
Qed.

Lemma insert_contains self a b : contains a b = true → contains (insert self a) b = true.
Proof.
  rewrite !contains_spec. intros Hs i Hi. unfold insert.
  by rewrite N.lor_spec, (Hs i Hi), orb_true_r.
Qed.

(** A single bit is in an insertion only when it is in one of the two. *)
Lemma contains_insert_bit self a n :
  contains (insert self a) (N.shiftl 1 n) = true →
  contains self (N.shiftl 1 n) = true ∨ contains a (N.shiftl 1 n) = true.
Proof.
  assert (Hbit : ∀ f, contains f (N.shiftl 1 n) = true ↔ N.testbit f n = true).
  { intros f. rewrite contains_spec, N.shiftl_1_l. split.
    - intros Hf. apply Hf, N.pow2_bits_true.
    - intros Hf i Hi. by apply N.pow2_bits_eqb in Hi as ->%N.eqb_eq || (rewrite N.pow2_bits_eqb in Hi; apply N.eqb_eq in Hi as <-). }
  rewrite !Hbit. unfold insert. rewrite N.lor_spec, orb_true_iff. done.
Qed.

End SymbolFlags.

Record Symbol := mkSymbol { symbol_name : string; symbol_flags : SymbolFlags }.

Record SymbolTable := mkSymbolTable {
  symbols : list Symbol;
  by_name : gmap string nat;
}.

Module SymbolTable.

Definition new : SymbolTable := mkSymbolTable [] ∅.

Definition id (t : SymbolTable) (name : string) : option nat := by_name t !! name.

(** Indexing panics out of range. *)
Definition get (t : SymbolTable) (name : string) : option (option Symbol) :=
  match by_name t !! name with
  | Some id => Some <$> IndexVec.index (symbols t) id
  | None => Some None
  end.

Definition symbol (t : SymbolTable) (id : nat) : option Symbol := IndexVec.index (symbols t) id.

Definition iter (t : SymbolTable) : list (nat * Symbol) := IndexVec.iter (symbols t).

Definition len (t : SymbolTable) : nat := IndexVec.len (symbols t).

Definition is_empty (t : SymbolTable) : bool := IndexVec.is_empty (symbols t).

(** [SymbolTableBuilder::intern]. *)
Definition intern (name : string) (flags : SymbolFlags) (t : SymbolTable)
    : option (SymbolTable * nat) :=
  match by_name t !! name with
  | Some id =>
      symbols ← IndexVec.index_mut (symbols t) id
                  (λ s, Some (mkSymbol (symbol_name s) (SymbolFlags.insert (symbol_flags s) flags)));
      Some (mkSymbolTable symbols (by_name t), id)
  | None =>
      '(symbols, id) ← IndexVec.push (symbols t) (mkSymbol name flags);
      Some (mkSymbolTable symbols (<[name := id]> (by_name t)), id)
  end.

End SymbolTable.

(** ** Definitions, calls and diagnostics *)

Inductive TargetAccess := Write | ReadWrite.

#[export] Instance TargetAccess_eq_dec : EqDecision TargetAccess.
Proof. solve_decision. Defined.

Inductive NamespaceAccessKind := Export | Internal.

Inductive CalleeUsage := UsageEffects | UsageValue.

Section data.
Context `{TextRanges, Urls}.

Inductive DefinitionKind :=
| DAssignment (node : AstPtr)
| DSuperAssignment (node : AstPtr)
| DParameter (node : AstPtr)
| DForVariable (node : AstPtr)
| DImport (call : AstPtr) (file : Url) (name : string)
| DAssign (node name : AstPtr) (value : option AstPtr).

Record Definition_ := mkDefinition {
  def_kind : DefinitionKind;
  def_symbol : nat;
  def_range : TextRange;
}.

(** [Conditional { end }]. *)
Inductive AttachRegion := Unconditional | Conditional (end_ : N).

Inductive SemanticCallKind :=
| Attach (package : string) (region : AttachRegion)
| Source (path : string) (resolved : option Url).

Record SemanticCall := mkSemanticCall {
  call_kind : SemanticCallKind;
  call_range : TextRange;
  call_scope : nat;
}.

(** [AttachRegion::contains]. *)
Definition region_contains (region : AttachRegion) (call : SemanticCall) (offset : N) : bool :=
  bool_decide (range_end (call_range call) ≤ offset)%N &&
  match region with
  | Unconditional => true
  | Conditional end_ => bool_decide (offset ≤ end_)%N
  end.

Definition call_offset (call : SemanticCall) : N := range_start (call_range call).

Record CalleeDependency := mkCalleeDependency {
  dep_name : string;
  dep_range : TextRange;
  dep_usage : CalleeUsage;
}.

Record NamespaceAccess := mkNamespaceAccess {
  na_package : string;
  na_symbol : string;
  na_kind : NamespaceAccessKind;
  na_offset : N;
}.

Inductive AmbiguityReason :=
| LazyShadow (overwrite_range : TextRange)
| ConditionalShadow (binding_range : TextRange)
| ConditionalAttach (package : string) (attach_range : TextRange).

Inductive SemanticDiagnostic :=
| AmbiguousCalleeResolution (name : string) (call_range : TextRange) (reason : AmbiguityReason)
| AmbiguousSuperAssignment (name : string) (range binding_range : TextRange)
| LockedSuperAssignment (name package : string) (range : TextRange)
| AmbiguousAttachOrder (packages : list string) (range : TextRange)
| UninstalledPackage (package : string) (range : TextRange)
| SourceCycle.
End data.

(** ** Symbol tables: invariant and operations *)

Module SymbolTableFacts.
Import SymbolTable.

(** Names and symbols are in bijection. *)
Record wf (t : SymbolTable) : Prop := {
  wf_name : ∀ name id, by_name t !! name = Some id →
    ∃ s, symbols t !! id = Some s ∧ symbol_name s = name;
  wf_id : ∀ id s, symbols t !! id = Some s → by_name t !! symbol_name s = Some id;
}.

Lemma wf_table_new : wf new.
Proof. split; simpl; intros *; [by rewrite lookup_empty|done]. Qed.

(** Interning returns the name's only identifier, keeps every other symbol
    and only adds flags. *)
Lemma intern_spec name flags t t' id :
  wf t → intern name flags t = Some (t', id) →
    wf t' ∧ by_name t' = <[name := id]> (by_name t) ∧
    length (symbols t) ≤ length (symbols t') ∧ id < length (symbols t') ∧
    (∀ i s, symbols t' !! i = Some s →
       symbols t !! i = Some s ∧ i ≠ id ∨
       i = id ∧ symbol_name s = name ∧
       (symbols t !! i = None ∧ symbol_flags s = flags ∨
        ∃ s0, symbols t !! i = Some s0 ∧ symbol_name s0 = name ∧
          symbol_flags s = SymbolFlags.insert (symbol_flags s0) flags)) ∧
    (∀ i s0, symbols t !! i = Some s0 →
       ∃ s, symbols t' !! i = Some s ∧ symbol_name s = symbol_name s0).
Proof.
  intros [Hn Hi]. unfold intern. destruct (by_name t !! name) as [id0|] eqn:E.
  - destruct (Hn _ _ E) as (s0 & Hs0 & <-). unfold IndexVec.index_mut. rewrite Hs0. simpl.
    intros [= <- <-]. simpl. rename id0 into id.
    assert (Hlt : id < length (symbols t)) by by eapply lookup_lt_Some.
    split; [|split; [by rewrite insert_id|split; [by rewrite length_insert|
      split; [by rewrite length_insert|split]]]].
    + split; simpl.
      * intros name i Hni. destruct (Hn _ _ Hni) as (s & Hs & <-).
        destruct (decide (i = id)) as [->|]; [|rewrite list_lookup_insert_ne by done; eauto].
        rewrite list_lookup_insert_eq by done. simplify_eq. eauto.
      * intros i s [[-> ->]|[Hs _]]%lookup_insert_cases; simpl; auto.
    + intros i s [[-> ->]|[Hs [Hne|Hnone]]]%lookup_insert_cases; simpl;
        [right; eauto 10|left; auto|congruence].
    + intros i s Hs. destruct (decide (i = id)) as [->|].
      * rewrite list_lookup_insert_eq by done. simplify_eq. eauto.
      * rewrite list_lookup_insert_ne by done. eauto.
  - intros Hp. apply bind_Some in Hp as ([syms0 id0] & Hp & [= <- <-]).
    apply IndexVec.push_Some in Hp as (-> & -> & _). simpl. rewrite length_app. simpl.
    assert (Hfresh : ∀ i s, symbols t !! i = Some s → symbol_name s ≠ name).
    { intros i s Hs Heq. apply Hi in Hs. congruence. }
    split; [|split; [done|split; [lia|split; [lia|split]]]].
    + split; simpl.
      * intros name' i [[<- <-]|[Hne Hni]]%lookup_insert_Some.
        -- eexists. rewrite lookup_app_r, Nat.sub_diag by done. done.
        -- destruct (Hn _ _ Hni) as (s & Hs & <-). exists s. split; [|done].
           by apply lookup_app_l_Some.
      * intros i s [Hs|[Hle Hs]]%lookup_app_Some.
        -- rewrite lookup_insert_ne; [by apply Hi|]. intros ?. by eapply Hfresh.
        -- apply list_lookup_singleton_Some in Hs as [Heq <-]. simpl.
           rewrite lookup_insert_eq. f_equal. lia.
    + intros i s [Hs|[Hle Hs]]%lookup_app_Some.
      * left. split; [done|]. apply lookup_lt_Some in Hs. lia.
      * apply list_lookup_singleton_Some in Hs as [Heq <-]. right.
        assert (i = length (symbols t)) as -> by lia. split; [done|]. split; [done|].
        left. split; [|done]. by apply lookup_ge_None.
    + intros i s Hs. exists s. split; [|done]. by apply lookup_app_l_Some.
Qed.

(** Interning fails only for a new name in a full table. *)
Lemma intern_None name flags t :
  wf t → intern name flags t = None → (IndexVec.MAX < N.of_nat (length (symbols t)))%N.
Proof.
  intros [Hn _]. unfold intern. destruct (by_name t !! name) as [id|] eqn:E.
  - destruct (Hn _ _ E) as (s0 & Hs0 & _). unfold IndexVec.index_mut. by rewrite Hs0.
  - intros Hp. apply N.nle_gt. intros Hle. by rewrite IndexVec.push_total in Hp.
Qed.
End SymbolTableFacts.
