(* ===== verification/Annotations.v ===== *)
(** * The standard handlers: argument matching and the declarative annotations

    [match_arguments] and [BoundArguments] of
    [crates/oak_semantic/src/effects.rs], the handlers built on them, the
    static evaluation of [effects/value_eval.rs], and what the matching
    guarantees. *)

From S2P Require Import Effects.

Section annotations.
Context `{Handlers}.

(** ** Matching arguments *)

Definition items : Type := list (option (RArgument expr)).

Definition match_named (arg : RArgument expr) (formals : Formals) : option nat :=
  clause ← arg_name_clause arg;
  name_text ← clause;
  position (λ formal, formal ≠ "..."%string ∧ formal = name_text) formals.

(** The first loop: exact named matches; [None] on a duplicate. *)
Fixpoint match_named_loop (formals : Formals) (i : nat) (l : items)
    (matched : list (option nat)) (consumed : list bool)
    : option (list (option nat) * list bool) :=
  match l with
  | [] => Some (matched, consumed)
  | item :: l =>
      match item ≫= λ arg, match_named arg formals with
      | None => match_named_loop formals (S i) l matched consumed
      | Some formal_idx =>
          taken ← consumed !! formal_idx;
          if taken : bool then None
          else match_named_loop formals (S i) l
                 (<[i := Some formal_idx]> matched) (<[formal_idx := true]> consumed)
      end
  end.

(** [while next_slot < positional && consumed[next_slot] { next_slot += 1 }],
    [n] being [positional - next_slot]. *)
Fixpoint skip_consumed (n : nat) (consumed : list bool) (next_slot : nat) : nat :=
  match n with
  | 0 => next_slot
  | S n =>
      if consumed !! next_slot is Some true then skip_consumed n consumed (S next_slot)
      else next_slot
  end.

(** The second loop: unnamed arguments fill the remaining slots. *)
Fixpoint match_positional_loop (positional : nat) (i : nat) (l : items)
    (matched : list (option nat)) (consumed : list bool) (next_slot : nat)
    : list (option nat) :=
  match l with
  | [] => matched
  | item :: l =>
      match item with
      | Some (mkArgument None _) =>
          let next_slot := skip_consumed (positional - next_slot) consumed next_slot in
          if decide (next_slot < positional) then
            match_positional_loop positional (S i) l (<[i := Some next_slot]> matched)
              (<[next_slot := true]> consumed) (S next_slot)
          else match_positional_loop positional (S i) l matched consumed next_slot
      | _ => match_positional_loop positional (S i) l matched consumed next_slot
      end
  end.

Definition match_arguments (call : expr) (formals : Formals) : option (list (option nat)) :=
  l ← call_arguments call;
  '(matched, consumed) ← match_named_loop formals 0 l
     (replicate (length l) None) (replicate (length formals) false);
  let positional := default (length formals) (position (λ formal, formal = "..."%string) formals) in
  Some (match_positional_loop positional 0 l matched consumed 0).

(** [BoundArguments]. *)
Record BoundArguments := mkBoundArguments {
  ba_formals : Formals;
  ba_bound : list (option nat * option expr);
}.

Definition bound_arguments_new (call : expr) (formals : Formals) : option BoundArguments :=
  matched ← match_arguments call formals;
  l ← call_arguments call;
  let values := (λ item, item ≫= arg_value) <$> l in
  Some (mkBoundArguments formals (zip matched values)).

Definition bound_get (b : BoundArguments) (formal : string) : option expr :=
  formal_idx ← position (λ name, name = formal) (ba_formals b);
  found ← List.find (λ e, bool_decide (e.1 = Some formal_idx)) (ba_bound b);
  snd found.

(** The formal of each argument; [self.formals[idx]] is in range. *)
Definition bound_formals (b : BoundArguments) : list (option string * option expr) :=
  (λ '(matched_idx, value), (matched_idx ≫= λ idx, ba_formals b !! idx, value)) <$> ba_bound b.

(** ** [ArgumentsAnnotation] *)

Definition effect_resolve (e : ArgumentEffect) : ResolvedArgumentEffect :=
  match e with AEvalQ env timing => REvalQ env timing | AQuote => RQuote [] end.

Definition inert_argument_effects (call : expr) : ResolvedArgumentEffects :=
  replicate (from_option length 0 (call_arguments call)) (Some (RQuote [])).

Definition ArgumentsAnnotation_resolve (self : ArgumentsAnnotation) (call : expr)
    : Handler ResolvedArgumentEffects := λ _ imports,
  match bound_arguments_new call (aa_formals self) with
  | None => (Some (inert_argument_effects call), imports)
  | Some bound =>
      (Some ((λ '(formal, _),
         formal ← formal;
         argument ← List.find (λ a, bool_decide (a.1 = formal)) (aa_arguments self);
         Some (effect_resolve argument.2)) <$> bound_formals bound), imports)
  end.

(** ** Static evaluation *)

Definition record_callee_import (call : expr) (resolution : CalleeResolution)
    (imports : list CalleeImport) : list CalleeImport :=
  if decide (cr_origin resolution ≠ Import) then imports
  else match call with
       | RCall (Some (RIdentifier name _)) _ call_range =>
           if existsb (λ import, bool_decide (ci_call_range import = call_range)) imports
           then imports
           else imports ++ [mkCalleeImport name call_range (ambiguity resolution has_value)]
       | _ => imports
       end.

Definition resolve_static_value (value : expr) : Handler StaticValue := λ ctx imports,
  match value with
  | RStringValue text _ => ((λ text, SCharacter [text]) <$> text, imports)
  | RNullExpression _ => (Some SNull, imports)
  | RCall _ _ _ =>
      let resolution := ctx_resolve_callee ctx value in
      let imports := record_callee_import value resolution imports in
      match cr_handlers resolution ≫= fh_value with
      | Some h => evaluate h value ctx imports
      | None => (None, imports)
      end
  | _ => (None, imports)
  end.

Definition resolve_static_character (value : expr) : Handler (list string) := λ ctx imports,
  let '(v, imports) := resolve_static_value value ctx imports in (v ≫= into_character, imports).

Definition resolve_static_string (value : expr) : Handler string := λ ctx imports,
  let '(elements, imports) := resolve_static_character value ctx imports in
  (elements ≫= λ elements, match elements with [x] => Some x | _ => None end, imports).

Definition resolve_static_bool (value : expr) : option bool :=
  match value with
  | RTrueExpression _ => Some true
  | RFalseExpression _ => Some false
  | _ => None
  end.

(** ** [SourceAnnotation], [AssignAnnotation] and [BindingOperatorHandler] *)

Definition SourceAnnotation_resolve (self : SourceAnnotation) (call : expr)
    : Handler (list SourcePath) := λ ctx imports,
  match bound_arguments_new call (sa_formals self) with
  | None => (None, imports)
  | Some bound =>
      let known_local :=
        match bound_get bound "local" with
        | Some local => is_Some_b (resolve_static_bool local)
        | None => true
        end in
      if known_local then
        let '(paths, imports) :=
          match bound_get bound (sa_path self) with
          | Some value => resolve_static_character value ctx imports
          | None => ((λ p, [p]) <$> sa_default_path self, imports)
          end in
        match paths with
        | None => (None, imports)
        | Some paths =>
            if bool_decide (sa_target self = TFile) && negb (length paths =? 1)
            then (None, imports)
            else (Some ((λ path, mkSourcePath path (sa_target self)) <$> paths), imports)
        end
      else (None, imports)
  end.

Definition AssignAnnotation_resolve (self : AssignAnnotation) (site : EffectSite)
    : Handler (list AssignBinding) := λ ctx imports,
  match site with
  | SiteOperator _ => (None, imports)
  | SiteCall call =>
      match bound_arguments_new call (as_formals self) with
      | None => (None, imports)
      | Some bound =>
          if existsb (λ formal, is_Some_b (bound_get bound formal)) (as_target_env self)
          then (None, imports)
          else match bound_get bound (as_name self) with
               | None => (None, imports)
               | Some name_expr =>
                   let '(name, imports) := resolve_static_string name_expr ctx imports in
                   ((λ name, [mkAssignBinding name (range_of name_expr)
                        (range_of <$> bound_get bound (as_value self)) Write]) <$> name, imports)
               end
      end
  end.

Definition resolve_quoted_symbol_or_string (value : expr) : option string :=
  match value with
  | RIdentifier name _ => Some name
  | RStringValue text _ => text
  | _ => None
  end.

Definition BindingOperatorHandler_resolve (target : TargetAccess) (site : EffectSite)
    : Handler (list AssignBinding) := λ _ imports,
  (match site with
   | SiteOperator (RBinaryExpression _ lhs rhs _) =>
       lhs ← lhs;
       rhs ← rhs;
       name ← resolve_quoted_symbol_or_string lhs;
       Some [mkAssignBinding name (range_of lhs) (Some (range_of rhs)) target]
   | _ => None
   end, imports).

(** ** What matching guarantees *)

Lemma match_named_loop_spec formals i l matched consumed matched' consumed' :
  match_named_loop formals i l matched consumed = Some (matched', consumed') →
  length matched' = length matched ∧ length consumed' = length consumed.
Proof.
  revert i matched consumed. induction l as [|item l IH]; intros i matched consumed; simpl.
  - by intros [= <- <-].
  - destruct (item ≫= _) as [idx|]; [|apply IH].
    destruct (consumed !! idx) as [[]|]; simpl; [done| |done].
    intros [-> ->]%IH. by rewrite !length_insert.
Qed.

Lemma match_positional_loop_length positional i l matched consumed next :
  length (match_positional_loop positional i l matched consumed next) = length matched.
Proof.
  revert i matched consumed next.
  induction l as [|[[[c|] v]|] l IH]; intros; simpl; [done|apply IH| |apply IH].
  case_decide; rewrite IH; [apply length_insert|done].
Qed.

Lemma match_arguments_length call formals matched :
  match_arguments call formals = Some matched →
  ∃ l, call_arguments call = Some l ∧ length matched = length l.
Proof.
  unfold match_arguments. intros (l & Hl & Hm)%bind_Some. exists l. split; [done|].
  apply bind_Some in Hm as ([m c] & [Hlm _]%match_named_loop_spec & [= <-]).
  by rewrite match_positional_loop_length, Hlm, length_replicate.
Qed.

Lemma bound_arguments_length call formals b :
  bound_arguments_new call formals = Some b →
  ∃ l, call_arguments call = Some l ∧ length (ba_bound b) = length l.
Proof.
  unfold bound_arguments_new. intros (m & Hm & Hb)%bind_Some.
  apply match_arguments_length in Hm as (l & Hl & Hlen).
  rewrite Hl in Hb. injection Hb as <-. exists l. split; [done|]. simpl.
  rewrite length_zip_with, length_fmap, Hlen. lia.
Qed.

(** The default handler satisfies the laws of [HandlersLawful]. *)
Lemma ArgumentsAnnotation_lawful self call ctx imports effects :
  (ArgumentsAnnotation_resolve self call ctx imports).1 = Some effects →
  (∀ l, call_arguments call = Some l → length effects = length l) ∧
  (∀ holes, Some (RQuote holes) ∈ effects → holes = []).
Proof.
  unfold ArgumentsAnnotation_resolve.
  destruct (bound_arguments_new call (aa_formals self)) as [b|] eqn:Hb; simpl; intros [= <-].
  - apply bound_arguments_length in Hb as (l & Hl & Hlen). split.
    + intros l' Hl'. simplify_eq. unfold bound_formals. by rewrite !length_fmap.
    + intros holes ([formal v] & He & _)%list_elem_of_fmap.
      destruct formal as [formal|]; [|done]. simpl in He.
      destruct (List.find _ _) as [[n []]|]; simplify_eq/=. done.
  - unfold inert_argument_effects. split.
    + intros l ->. apply length_replicate.
    + intros holes Hin%elem_of_replicate. naive_solver.
Qed.
End annotations.
