(* ===== verification/Timeline.v ===== *)
(** * What each [source()] call sees: the binding timeline of
    [crates/oak_semantic/src/semantic_index.rs]

    Each load-time [source()] call gets a rank, and each name a set of the
    ranks it is visible at, stored as words of 64 bits. *)

From S2P Require Export SemanticData.

(** A [SourceRank(u32)] is its number, a [RankSet { words: SmallVec<[u64; 1]> }] is its words. *)



Definition rank_position (rank : N) : nat * N :=
  (N.to_nat (rank / 64), (rank mod 64)%N).

Module RankSet.

(** [words.resize(n, 0)] when it grows. *)
Definition resize (n : nat) (words : list N) : list N :=
  words ++ replicate (n - length words) 0%N.

Definition insert (rank : N) (words : list N) : list N :=
  let '(word, bit) := rank_position rank in
  let words := if decide (length words ≤ word) then resize (word + 1) words else words in
  <[word := N.lor (default 0%N (words !! word)) (N.shiftl 1 bit)]> words.

Definition contains (words : list N) (rank : N) : bool :=
  let '(word, bit) := rank_position rank in
  match words !! word with
  | Some w => negb (bool_decide (N.land w (N.shiftl 1 bit) = 0%N))
  | None => false
  end.

Lemma land_bit w b : negb (bool_decide (N.land w (N.shiftl 1 b) = 0%N)) = N.testbit w b.
Proof.
  rewrite N.shiftl_1_l. destruct (N.testbit w b) eqn:E.
  - apply negb_true_iff, bool_decide_eq_false. intros Hz.
    assert (Hb : N.testbit (N.land w (2 ^ b)) b = false) by (rewrite Hz; apply N.bits_0).
    rewrite N.land_spec, E, N.pow2_bits_true in Hb. done.
  - apply negb_false_iff, bool_decide_eq_true, N.bits_inj_0. intros i.
    rewrite N.land_spec, N.pow2_bits_eqb. destruct (N.eqb_spec b i) as [<-|];
      [by rewrite E|apply andb_false_r].
Qed.

Lemma contains_alt words rank :
  contains words rank =
  N.testbit (default 0%N (words !! N.to_nat (rank / 64))) (rank mod 64).
Proof.
  unfold contains, rank_position. destruct (words !! _); simpl; [apply land_bit|done].
Qed.

Lemma resize_lookup n words i : default 0%N (resize n words !! i) = default 0%N (words !! i).
Proof.
  unfold resize. destruct (decide (i < length words)).
  - by rewrite lookup_app_l.
  - rewrite lookup_app_r, (lookup_ge_None_2 words) by lia.
    destruct (replicate _ _ !! _) eqn:E; [|done]. by apply lookup_replicate in E as [-> _].
Qed.

Lemma insert_lookup rank words i :
  default 0%N (insert rank words !! i) =
  if decide (i = N.to_nat (rank / 64))
  then N.lor (default 0%N (words !! i)) (N.shiftl 1 (rank mod 64))
  else default 0%N (words !! i).
Proof.
  unfold insert, rank_position. set (word := N.to_nat (rank / 64)).
  set (words' := if decide (length words ≤ word) then _ else _).
  assert (Hl : word < length words' ∧ ∀ j, default 0%N (words' !! j) = default 0%N (words !! j)).
  { unfold words'. case_decide; split; [|apply resize_lookup|lia|done].
    unfold resize. rewrite length_app, length_replicate. lia. }
  destruct Hl as [Hl Hw]. rewrite <-Hw. case_decide as Hi.
  - subst i. by rewrite list_lookup_insert_eq.
  - by rewrite list_lookup_insert_ne.
Qed.

(** A rank set is a set of ranks. *)
Lemma contains_insert words rank rank' :
  contains (insert rank words) rank' = bool_decide (rank = rank') || contains words rank'.
Proof.
  rewrite !contains_alt, insert_lookup. case_decide as Hw.
  - rewrite N.lor_spec, orb_comm. f_equal. rewrite N.shiftl_1_l, N.pow2_bits_eqb.
    apply eq_bool_prop_intro. rewrite Is_true_true, N.eqb_eq, bool_decide_spec.
    split; [|congruence]. intros Hm. apply N2Nat.inj in Hw.
    rewrite (N.div_mod rank 64), (N.div_mod rank' 64) by done. congruence.
  - case_bool_decide; [congruence|done].
Qed.

Lemma contains_nil rank : contains [] rank = false.
Proof. done. Qed.

End RankSet.

(** ** Recording and querying *)

(** [BindingTimeline] and [BindingTimelineBuilder]. *)
Record BindingTimelineBuilder := mkTimelineBuilder {
  visible_at : gmap string (list N);
  ranks : gmap N N;
}.

Record ExportsAtSource := mkExportsAtSource {
  eas_timeline : gmap string (list N);
  eas_ranks : list N;
}.

Module Timeline.

Definition new : BindingTimelineBuilder := mkTimelineBuilder ∅ ∅.

Definition record_name (rank : N) (t : gmap string (list N)) (name : string)
    : gmap string (list N) :=
  match t !! name with
  | Some ranks => <[name := RankSet.insert rank ranks]> t
  | None => <[name := RankSet.insert rank []]> t
  end.

(** [self.ranks.len() as u32]. *)
Definition record_source_call (offset : N) (bound : list string) (t : BindingTimelineBuilder)
    : BindingTimelineBuilder :=
  let rank := (N.of_nat (size (ranks t)) mod 2 ^ 32)%N in
  mkTimelineBuilder (foldl (record_name rank) (visible_at t) bound)
    (<[offset := rank]> (ranks t)).

Definition finish (t : BindingTimelineBuilder) : gmap string (list N) * gmap N N :=
  (visible_at t, ranks t).

Definition sees (e : ExportsAtSource) (visible : list N) : bool :=
  existsb (λ rank, RankSet.contains visible rank) (eas_ranks e).

Definition contains (e : ExportsAtSource) (name : string) : bool :=
  match eas_timeline e !! name with
  | Some visible => sees e visible
  | None => false
  end.

Definition names (e : ExportsAtSource) : list string :=
  (filter (λ '(_, visible), sees e visible = true) (map_to_list (eas_timeline e))).*1.

(** [exports_at_sources]. *)
Definition exports_at_sources (timeline : gmap string (list N))
    (source_ranks : gmap N N) (offsets : list N) : option ExportsAtSource :=
  match offsets with
  | [] => None
  | _ => ranks ← mapM (λ offset, source_ranks !! offset) offsets;
         Some (mkExportsAtSource timeline ranks)
  end.

(** The ranks a name is visible at. *)
Definition visible (t : gmap string (list N)) (name : string) (rank : N) : bool :=
  from_option (λ v, RankSet.contains v rank) false (t !! name).

Lemma record_name_visible rank t name name' rank' :
  visible (record_name rank t name) name' rank' =
  bool_decide (name = name' ∧ rank = rank') || visible t name' rank'.
Proof.
  unfold record_name, visible. destruct (decide (name = name')) as [<-|Hne].
  - rewrite (bool_decide_ext _ (rank = rank')) by naive_solver.
    destruct (t !! name) as [v|] eqn:E; rewrite lookup_insert_eq; simpl;
      rewrite RankSet.contains_insert; [done|by rewrite RankSet.contains_nil].
  - rewrite bool_decide_eq_false_2 by naive_solver.
    destruct (t !! name); by rewrite lookup_insert_ne.
Qed.

Lemma record_names_visible rank names t name' rank' :
  visible (foldl (record_name rank) t names) name' rank' =
  bool_decide (name' ∈ names ∧ rank = rank') || visible t name' rank'.
Proof.
  revert t. induction names as [|name names IH]; intros t; simpl.
  - done.
  - rewrite IH, record_name_visible, orb_assoc, <-bool_decide_or. f_equal.
    apply bool_decide_ext. set_solver.
Qed.

(** The log of calls: each with its offset and the names bound there. *)
Definition record_all (calls : list (N * list string)) : BindingTimelineBuilder :=
  foldl (λ t '(offset, bound), record_source_call offset bound t) new calls.

Lemma record_all_snoc calls offset bound :
  record_all (calls ++ [(offset, bound)]) = record_source_call offset bound (record_all calls).
Proof. unfold record_all. by rewrite foldl_app. Qed.

(** With distinct offsets, ranks number the calls. *)
Record log_ok (calls : list (N * list string)) (t : BindingTimelineBuilder) : Prop := {
  log_size : size (ranks t) = length calls;
  log_ranks : ∀ offset rank, ranks t !! offset = Some rank ↔
    ∃ i bound, rank = N.of_nat i ∧ calls !! i = Some (offset, bound);
  log_visible : ∀ name rank, visible (visible_at t) name rank = true ↔
    ∃ i offset bound, rank = N.of_nat i ∧ calls !! i = Some (offset, bound) ∧ name ∈ bound;
}.

Lemma record_all_ok calls :
  NoDup calls.*1 → (N.of_nat (length calls) ≤ 2 ^ 32)%N → log_ok calls (record_all calls).
Proof.
  induction calls as [|[offset bound] calls IH] using rev_ind; intros Hnd Hlen.
  { split; simpl; [by rewrite map_size_empty| |]; intros *.
    - rewrite lookup_empty. split; [done|]. by intros (? & ? & ? & ?).
    - unfold visible. rewrite lookup_empty. simpl. split; [done|].
      by intros (? & ? & ? & ? & ? & ?). }
  rewrite fmap_app in Hnd. apply NoDup_app in Hnd as (Hnd & Hfresh & _).
  rewrite length_app in Hlen. simpl in Hlen.
  destruct IH as [Hsize Hranks Hvis]; [done|lia|].
  rewrite record_all_snoc. set (t := record_all calls) in *.
  assert (Hr : (N.of_nat (size (ranks t)) mod 2 ^ 32 = N.of_nat (length calls))%N)
    by (rewrite Hsize, N.mod_small; lia).
  assert (Hnone : ranks t !! offset = None).
  { apply eq_None_not_Some. intros [rank (i & b & _ & Hi)%Hranks].
    apply (Hfresh offset); [|by left]. apply list_elem_of_fmap. exists (offset, b).
    split; [done|]. by eapply list_elem_of_lookup_2. }
  assert (Hsnoc : ∀ i o b, (calls ++ [(offset, bound)]) !! i = Some (o, b) ↔
     calls !! i = Some (o, b) ∨ i = length calls ∧ o = offset ∧ b = bound).
  { intros i o b. rewrite lookup_app_Some, list_lookup_singleton_Some. split.
    - intros [?|[? [? ?]]]; [by left|right]. simplify_eq. split; [lia|done].
    - intros [?|(-> & -> & ->)]; [by left|right]. by rewrite Nat.sub_diag. }
  split; simpl.
  - rewrite map_size_insert_None by done. rewrite Hsize, length_app. simpl. lia.
  - intros o rank. rewrite Hr, lookup_insert_Some, Hranks. setoid_rewrite Hsnoc. split.
    + intros [[<- <-]|[Hne (i & b & -> & Hi)]]; [exists (length calls), bound|]; eauto 10.
    + intros (i & b & -> & [Hi|(-> & -> & ->)]); [right|by left]. split; [|eauto].
      intros ->. assert (Hs : ranks t !! o = Some (N.of_nat i)) by (apply Hranks; eauto).
      by rewrite Hnone in Hs.
  - intros name rank. rewrite Hr, record_names_visible, orb_true_iff, bool_decide_eq_true, Hvis.
    setoid_rewrite Hsnoc. split.
    + intros [[Hin <-]|(i & o & b & -> & Hi & Hin)]; eauto 15.
    + intros (i & o & b & -> & [Hi|(-> & -> & ->)] & Hin); [right; eauto 10|by left].
Qed.

(** Looking up several calls sees what any of them sees. *)
Lemma exports_contains e name :
  contains e name = true ↔ ∃ rank, rank ∈ eas_ranks e ∧ visible (eas_timeline e) name rank = true.
Proof.
  unfold contains, visible, sees. destruct (eas_timeline e !! name) as [v|]; simpl.
  - rewrite existsb_exists. setoid_rewrite <-list_elem_of_In. naive_solver.
  - split; [done|]. by intros (? & _ & ?).
Qed.

Lemma exports_names e name : name ∈ names e ↔ contains e name = true.
Proof.
  unfold names. rewrite list_elem_of_fmap. split.
  - intros ([n v] & -> & [Hs Hv%elem_of_map_to_list]%list_elem_of_filter). simpl.
    unfold contains. by rewrite Hv.
  - unfold contains. intros Hc. destruct (eas_timeline e !! name) as [v|] eqn:E; [|done].
    exists (name, v). split; [done|]. apply list_elem_of_filter. by rewrite elem_of_map_to_list.
Qed.

End Timeline.
