(* ===== verification/ScopeTree.v ===== *)
(** * The scope tree: preorder allocation and the walks over it

    [push_scope], [pop_scope] and [ancestor_scope_ids] of
    [crates/oak_semantic/src/builder.rs], and [child_scope_ids],
    [ancestor_scope_ids], [enclosing_lazy_scope] and [scope_at] of
    [semantic_index.rs], with the invariant that makes the descendants of a
    scope a contiguous range. *)

From S2P Require Export SemanticData.

Section tree.
Context `{TextRanges}.
Implicit Types scopes : list Scope.

(** ** Walking the tree *)

(** The iterator of [ancestor_scope_ids], run to its end; indexing panics out
    of range. A chain of distinct scopes is no longer than the arena. *)
Fixpoint ancestor_ids_from (fuel : nat) scopes (current : option nat) : option (list nat) :=
  match current with
  | None => Some []
  | Some id =>
      match fuel with
      | 0 => None
      | S fuel =>
          s ← IndexVec.index scopes id;
          rest ← ancestor_ids_from fuel scopes (scope_parent s);
          Some (id :: rest)
      end
  end.

Definition ancestor_scope_ids scopes (scope_id : nat) : option (list nat) :=
  ancestor_ids_from (length scopes) scopes (Some scope_id).

(** [ancestors.find(|id| scopes[id].kind satisfies p)]. *)
Definition find_kind scopes (p : ScopeKind → bool) (ids : list nat) : option nat :=
  List.find (λ id, from_option (λ s, p (scope_kind s)) false (scopes !! id)) ids.

Definition enclosing_lazy_scope scopes (scope_id : nat) : option (option nat) :=
  find_kind scopes ScopeKind.is_lazy <$> ancestor_scope_ids scopes scope_id.

(** The iterator of [child_scope_ids]: from one child to the next over the
    child's descendants. *)
Fixpoint child_ids_from (fuel : nat) scopes (current end_ : nat) : option (list nat) :=
  if decide (end_ ≤ current) then Some []
  else
    match fuel with
    | 0 => None
    | S fuel =>
        s ← IndexVec.index scopes current;
        rest ← child_ids_from fuel scopes (descendants_end s) end_;
        Some (current :: rest)
    end.

Definition child_scope_ids scopes (scope_id : nat) : option (list nat) :=
  s ← IndexVec.index scopes scope_id;
  child_ids_from (length scopes) scopes (descendants_start s) (descendants_end s).

(** The ['outer] loop: descend into the first child whose range contains the
    offset. *)
Fixpoint scope_at_from (fuel : nat) scopes (offset : N) (current : nat) : option nat :=
  match fuel with
  | 0 => None
  | S fuel =>
      children ← child_scope_ids scopes current;
      match List.find (λ id, from_option (λ s, range_contains (scope_range s) offset)
                               false (scopes !! id)) children with
      | Some child_id => scope_at_from fuel scopes offset child_id
      | None => Some current
      end
  end.

Definition scope_at scopes (offset : N) : option nat :=
  scope_at_from (length scopes) scopes offset 0.

(** ** Building the tree *)

Definition push_scope_arena (kind : ScopeKind) (range : TextRange) scopes (current : nat)
    : option (list Scope * nat) :=
  next ← IndexVec.next_id scopes;
  (* [ScopeId::from(next_raw + 1)], twice *)
  start ← IndexVec.Idx_new (next + 1);
  IndexVec.push scopes (mkScope _ (Some current) kind range start start).

Definition set_descendants_end (e : nat) (s : Scope) : Scope :=
  mkScope _ (scope_parent s) (scope_kind s) (scope_range s) (descendants_start s) e.

(** The new arena and current scope; popping the file scope panics. *)
Definition pop_scope_arena (id : nat) scopes : option (list Scope * nat) :=
  next ← IndexVec.next_id scopes;
  scopes ← IndexVec.index_mut scopes id (λ s, Some (set_descendants_end next s));
  s ← IndexVec.index scopes id;
  parent ← scope_parent s;
  Some (scopes, parent).

(** ** The preorder invariant *)

(** [open], innermost first, is a scope with its ancestors. *)
Inductive chain scopes : option nat → list nat → Prop :=
| chain_end : chain scopes None []
| chain_up i s l :
    scopes !! i = Some s → chain scopes (scope_parent s) l → chain scopes (Some i) (i :: l).

(** Where a scope's descendants end: open scopes extend to the end of the
    arena, closed ones have it stored. *)
Definition scope_end scopes (open : list nat) (i : nat) (s : Scope) : nat :=
  if decide (i ∈ open) then length scopes else descendants_end s.

(** Preorder allocation: parents come first, the subtree of a scope is the
    contiguous range up to its end, and subtrees nest. *)
Record preorder scopes (open : list nat) : Prop := {
  po_root : ∀ s, scopes !! 0 = Some s → scope_parent s = None ∧ scope_kind s = KFile;
  po_parent : ∀ i s, scopes !! i = Some s → 0 < i →
    ∃ p sp, scope_parent s = Some p ∧ p < i ∧ scopes !! p = Some sp ∧
      i < scope_end scopes open p sp ∧ scope_end scopes open i s ≤ scope_end scopes open p sp ∧
      scope_kind s ≠ KFile;
  po_range : ∀ i s, scopes !! i = Some s →
    descendants_start s = S i ∧ S i ≤ scope_end scopes open i s ≤ length scopes;
  po_inside : ∀ i s j sj, scopes !! i = Some s → scopes !! j = Some sj →
    i < j < scope_end scopes open i s → ∃ p, scope_parent sj = Some p ∧ i ≤ p;
}.

Lemma chain_fun scopes c l1 l2 : chain scopes c l1 → chain scopes c l2 → l1 = l2.
Proof.
  intros H1. revert l2. induction H1 as [|i s l Hs H1 IH]; intros l2 H2.
  - by inversion H2.
  - inversion H2 as [|? s2 ? Hs2 Hc2]; subst. rewrite Hs in Hs2. injection Hs2 as <-.
    f_equal. by apply IH.
Qed.

(** A scope's ancestors come before it. *)
Lemma chain_le scopes open i l :
  preorder scopes open → chain scopes (Some i) l → ∀ j, j ∈ l → j ≤ i.
Proof.
  intros Hpo. remember (Some i) as c. intros Hc. revert i Heqc.
  induction Hc as [|i s l Hs Hc IH]; intros i0 [= ->] j.
  intros [->|Hj]%elem_of_cons; [done|].
  destruct (decide (i0 = 0)) as [->|].
  - destruct (po_root _ _ Hpo _ Hs) as [Hn _]. rewrite Hn in Hc. inversion Hc; subst.
    by apply elem_of_nil in Hj.
  - destruct (po_parent _ _ Hpo _ _ Hs) as (p & sp & Hp & Hlt & _); [lia|].
    specialize (IH p Hp j Hj). lia.
Qed.

Lemma chain_bounds scopes c l : chain scopes c l → ∀ j, j ∈ l → j < length scopes.
Proof.
  induction 1 as [|i s l Hs Hc IH]; intros j; [by intros ?%elem_of_nil|].
  intros [->|Hj]%elem_of_cons; [by eapply lookup_lt_Some|auto].
Qed.

(** Every scope has its chain, found within [length scopes] steps. *)
Lemma ancestor_ids_total scopes open i n :
  preorder scopes open → i < length scopes → i < n →
  ∃ l, ancestor_ids_from n scopes (Some i) = Some l ∧ chain scopes (Some i) l ∧ last l = Some 0.
Proof.
  intros Hpo. revert i. induction n as [|n IH]; intros i Hi Hn; [lia|].
  destruct (lookup_lt_is_Some_2 scopes i Hi) as [s Hs]. simpl. unfold IndexVec.index.
  rewrite Hs. simpl. destruct (decide (i = 0)) as [->|].
  - destruct (po_root _ _ Hpo _ Hs) as [Hp _]. rewrite Hp.
    exists [0]. split; [by destruct n|]. split; [|done]. econstructor; [done|].
    rewrite Hp. constructor.
  - destruct (po_parent _ _ Hpo _ _ Hs) as (p & sp & Hp & Hlt & Hsp & _); [lia|].
    rewrite Hp. destruct (IH p) as (l & -> & Hc & Hl); [by eapply lookup_lt_Some|lia|].
    exists (i :: l). split; [done|]. split; [econstructor; [done|by rewrite Hp]|].
    by destruct l.
Qed.

Lemma ancestor_scope_ids_total scopes open i :
  preorder scopes open → i < length scopes →
  ∃ l, ancestor_scope_ids scopes i = Some l ∧ chain scopes (Some i) l ∧ last l = Some 0.
Proof. intros. by eapply ancestor_ids_total. Qed.

(** ** Building keeps the invariant *)

Lemma preorder_single kind range :
  kind = KFile →
  preorder [mkScope _ None kind range 1 1] [0] ∧ chain [mkScope _ None kind range 1 1] (Some 0) [0].
Proof.
  intros ->. split; [|by repeat econstructor]. split.
  - by intros s [= <-].
  - intros i s Hs Hi. apply lookup_lt_Some in Hs. simpl in Hs. lia.
  - intros i s [-> <-]%list_lookup_singleton_Some. unfold scope_end.
    case_decide as Hd; simpl; [lia|]. destruct Hd. by left.
  - intros i s j sj Hs [-> <-]%list_lookup_singleton_Some Hj. lia.
Qed.

Lemma chain_app scopes s c l : chain scopes c l → chain (scopes ++ [s]) c l.
Proof.
  induction 1 as [|i s' l Hs Hc IH]; [constructor|]. econstructor; [|exact IH].
  by apply lookup_app_l_Some.
Qed.

Lemma push_scope_arena_spec kind range scopes current open :
  preorder scopes open → chain scopes (Some current) open → kind ≠ KFile →
  (N.of_nat (length scopes) < IndexVec.MAX)%N →
  ∃ scopes', push_scope_arena kind range scopes current = Some (scopes', length scopes) ∧
    scopes' = scopes ++ [mkScope _ (Some current) kind range (S (length scopes)) (S (length scopes))] ∧
    preorder scopes' (length scopes :: open) ∧
    chain scopes' (Some (length scopes)) (length scopes :: open).
Proof.
  intros Hpo Hc Hk Hcap. unfold push_scope_arena, IndexVec.next_id.
  rewrite (proj2 (IndexVec.Idx_new_Some _ _)) by (split; [done|lia]). simpl.
  rewrite (proj2 (IndexVec.Idx_new_Some _ _)) by (split; [done|lia]). simpl.
  rewrite IndexVec.push_total, Nat.add_1_r by lia.
  set (new := mkScope _ _ _ _ _ _). eexists; split; [done|]. split; [done|].
  assert (Hopen : ∀ i, i ∈ open → i ≤ current) by (by eapply chain_le).
  assert (Hin : current ∈ open) by (inversion Hc; left).
  assert (Hcur : current < length scopes) by (by eapply chain_bounds).
  assert (Hend : ∀ i s, scopes !! i = Some s →
    scope_end (scopes ++ [new]) (length scopes :: open) i s =
    if decide (i ∈ open) then S (length scopes) else scope_end scopes open i s).
  { intros i s Hs. apply lookup_lt_Some in Hs. unfold scope_end. rewrite length_app. simpl.
    destruct (decide (i ∈ open)).
    - rewrite decide_True by (by right). lia.
    - rewrite decide_False; [done|]. intros [->|?]%elem_of_cons; [lia|done]. }
  assert (Hnew : scope_end (scopes ++ [new]) (length scopes :: open) (length scopes) new
                 = S (length scopes)).
  { unfold scope_end. rewrite decide_True by (by left). rewrite length_app. simpl. lia. }
  assert (Hle : ∀ i s, scopes !! i = Some s → scope_end scopes open i s ≤ length scopes)
    by (intros i s Hs; apply (po_range _ _ Hpo _ _ Hs)).
  split.
  - split.
    + intros s [Hs|[H0 _]]%lookup_app_Some; [by apply (po_root _ _ Hpo)|]. lia.
    + intros i s [Hs|[Hi Hs]]%lookup_app_Some H0.
      * destruct (po_parent _ _ Hpo _ _ Hs H0) as (p & sp & Hp & Hlt & Hsp & H1 & H2 & H3).
        exists p, sp. split; [done|]. split; [done|]. split; [by apply lookup_app_l_Some|].
        rewrite (Hend _ _ Hs), (Hend _ _ Hsp).
        pose proof (Hle _ _ Hs). pose proof (Hle _ _ Hsp).
        assert (i ∈ open → p ∈ open).
        { intros Hio. clear -Hio Hc Hs Hp. revert Hio.
          induction Hc as [|k sk l Hk Hc IH]; [by intros ?%elem_of_nil|].
          intros [->|Hio]%elem_of_cons; [|right; auto]. simplify_eq. rewrite Hp in Hc.
          right. inversion Hc; left. }
        repeat case_decide; try tauto; (split; [lia|split; [lia|done]]).
      * apply list_lookup_singleton_Some in Hs as [Heq <-].
        assert (i = length scopes) as -> by lia.
        destruct (lookup_lt_is_Some_2 scopes current Hcur) as [sp Hsp].
        exists current, sp. rewrite Hnew, (Hend _ _ Hsp), decide_True by done.
        split; [done|]. split; [done|]. split; [by apply lookup_app_l_Some|].
        split; [lia|]. split; [lia|done].
    + intros i s [Hs|[Hi Hs]]%lookup_app_Some.
      * destruct (po_range _ _ Hpo _ _ Hs) as (Hst & H1 & H2). split; [done|].
        apply lookup_lt_Some in Hs as Hlt. rewrite (Hend _ _ Hs), length_app. simpl.
        case_decide; lia.
      * apply list_lookup_singleton_Some in Hs as [Heq <-].
        assert (i = length scopes) as -> by lia. rewrite Hnew, length_app. simpl. lia.
    + intros i s j sj Hs Hsj Hj.
      apply lookup_app_Some in Hs as [Hs|[Hi Hs]].
      * rewrite (Hend _ _ Hs) in Hj. apply lookup_app_Some in Hsj as [Hsj|[Hjl Hsj]].
        -- apply (po_inside _ _ Hpo _ _ _ _ Hs Hsj). apply lookup_lt_Some in Hsj.
           case_decide; [|done]. unfold scope_end. rewrite decide_True by done. lia.
        -- apply list_lookup_singleton_Some in Hsj as [Heq <-]. exists current.
           split; [done|]. specialize (Hle _ _ Hs). case_decide; [auto|lia].
      * apply list_lookup_singleton_Some in Hs as [Heq <-].
        apply lookup_lt_Some in Hsj. rewrite length_app in Hsj. simpl in Hsj. lia.
  - econstructor; [by rewrite lookup_app_r, Nat.sub_diag|]. simpl. by apply chain_app.
Qed.

(** The invariant depends on parents, kinds, starts and ends only. *)
Definition same_shape scopes open scopes' open' : Prop :=
  length scopes' = length scopes ∧
  ∀ i s s', scopes !! i = Some s → scopes' !! i = Some s' →
    scope_parent s' = scope_parent s ∧ scope_kind s' = scope_kind s ∧
    descendants_start s' = descendants_start s ∧
    scope_end scopes' open' i s' = scope_end scopes open i s.

Lemma preorder_same_shape scopes open scopes' open' :
  same_shape scopes open scopes' open' → preorder scopes open → preorder scopes' open'.
Proof.
  intros [Hlen Hs] [H1 H2 H3 H4].
  assert (Hback : ∀ i s', scopes' !! i = Some s' → ∃ s, scopes !! i = Some s).
  { intros i s' Hi%lookup_lt_Some. apply lookup_lt_is_Some_2. lia. }
  assert (Hforth : ∀ i s, scopes !! i = Some s → ∃ s', scopes' !! i = Some s').
  { intros i s Hi%lookup_lt_Some. apply lookup_lt_is_Some_2. lia. }
  split.
  - intros s' Hs'. destruct (Hback _ _ Hs') as [s Hs0].
    destruct (Hs _ _ _ Hs0 Hs') as (-> & -> & _). auto.
  - intros i s' Hs' Hi. destruct (Hback _ _ Hs') as [s Hs0].
    destruct (Hs _ _ _ Hs0 Hs') as (-> & -> & _ & ->).
    destruct (H2 _ _ Hs0 Hi) as (p & sp & Hp & Hlt & Hsp & Hrest).
    destruct (Hforth _ _ Hsp) as [sp' Hsp']. exists p, sp'.
    destruct (Hs _ _ _ Hsp Hsp') as (_ & _ & _ & ->). done.
  - intros i s' Hs'. destruct (Hback _ _ Hs') as [s Hs0].
    destruct (Hs _ _ _ Hs0 Hs') as (_ & _ & -> & ->). rewrite Hlen. auto.
  - intros i s' j sj' Hs' Hsj' Hj. destruct (Hback _ _ Hs') as [s Hs0].
    destruct (Hback _ _ Hsj') as [sj Hsj0].
    destruct (Hs _ _ _ Hs0 Hs') as (_ & _ & _ & He). rewrite He in Hj.
    destruct (Hs _ _ _ Hsj0 Hsj') as (-> & _). eauto.
Qed.

Lemma chain_same_shape scopes open scopes' open' c l :
  same_shape scopes open scopes' open' → chain scopes c l → chain scopes' c l.
Proof.
  intros [Hlen Hs]. induction 1 as [|i s l Hi Hc IH]; [constructor|].
  destruct (lookup_lt_is_Some_2 scopes' i) as [s' Hs'];
    [rewrite Hlen; by eapply lookup_lt_Some|].
  econstructor; [done|]. by destruct (Hs _ _ _ Hi Hs') as (-> & _).
Qed.

(** Closing the innermost open scope. *)
Lemma close_same_shape scopes id open s :
  preorder scopes (id :: open) → chain scopes (Some id) (id :: open) →
  scopes !! id = Some s →
  same_shape scopes (id :: open) (<[id := set_descendants_end (length scopes) s]> scopes) open.
Proof.
  intros Hpo Hc Hs. split; [apply length_insert|].
  assert (Hni : id ∉ open).
  { intros Hin. inversion Hc as [|? s0 ? Hs0 Hcp]; subst. simplify_eq.
    destruct (decide (id = 0)) as [->|].
    - destruct (po_root _ _ Hpo _ Hs) as [Hn _]. rewrite Hn in Hcp. inversion Hcp; subst.
      by apply elem_of_nil in Hin.
    - destruct (po_parent _ _ Hpo _ _ Hs) as (p & sp & Hp & Hlt & _); [lia|].
      rewrite Hp in Hcp. apply (chain_le _ _ _ _ Hpo Hcp) in Hin. lia. }
  intros i s1 s2 H1 [[<- ->]|[H2 Hne]]%lookup_insert_cases; simplify_eq.
  - split; [done|]. split; [done|]. split; [done|]. unfold scope_end.
    rewrite length_insert, decide_False, decide_True by (done || by left). done.
  - split; [done|]. split; [done|]. split; [done|]. unfold scope_end. rewrite length_insert.
    destruct Hne as [Hne|]; [|congruence].
    destruct (decide (i ∈ open)).
    + by rewrite decide_True by (by right).
    + rewrite decide_False; [done|]. by intros [->|?]%elem_of_cons.
Qed.

Lemma pop_scope_arena_spec scopes id open :
  preorder scopes (id :: open) → chain scopes (Some id) (id :: open) → open ≠ [] →
  (N.of_nat (length scopes) ≤ IndexVec.MAX)%N →
  ∃ scopes' s parent, pop_scope_arena id scopes = Some (scopes', parent) ∧
    scopes !! id = Some s ∧ scope_parent s = Some parent ∧
    scopes' = <[id := set_descendants_end (length scopes) s]> scopes ∧
    preorder scopes' open ∧ chain scopes' (Some parent) open.
Proof.
  intros Hpo Hc Hne Hcap. inversion Hc as [|? s ? Hs Hcp]; subst.
  assert (Hlt : id < length scopes) by (by eapply lookup_lt_Some).
  destruct (scope_parent s) as [parent|] eqn:Hp; [|inversion Hcp; congruence].
  exists (<[id := set_descendants_end (length scopes) s]> scopes), s, parent.
  split.
  { unfold pop_scope_arena, IndexVec.next_id.
    rewrite (proj2 (IndexVec.Idx_new_Some _ _)) by (split; [done|lia]). simpl.
    unfold IndexVec.index_mut, IndexVec.index. rewrite Hs. simpl.
    rewrite list_lookup_insert_eq by done. simpl. by rewrite Hp. }
  split; [done|]. split; [done|]. split; [done|].
  pose proof (close_same_shape _ _ _ _ Hpo Hc Hs) as Hsame.
  split; [by eapply preorder_same_shape|by eapply chain_same_shape].
Qed.

(** ** Finished trees *)

(** Once the file scope is closed no scope is open. *)
Definition finished scopes : Prop := preorder scopes [] ∧ scopes ≠ [].

(** [self.scopes[ScopeId::from(0)].descendants.end = self.scopes.next_id()] *)
Lemma finish_scopes scopes s :
  preorder scopes [0] → chain scopes (Some 0) [0] → scopes !! 0 = Some s →
  finished (<[0 := set_descendants_end (length scopes) s]> scopes).
Proof.
  intros Hpo Hc Hs. split.
  - eapply preorder_same_shape; [by apply close_same_shape|done].
  - intros Hn. apply (f_equal length) in Hn. rewrite length_insert in Hn.
    apply lookup_lt_Some in Hs. simpl in Hn. lia.
Qed.

(** A position reached by the child iterator: everything before it lies in the
    subtrees of earlier children. *)
Definition child_position scopes (i c : nat) : Prop :=
  S i ≤ c ∧ ∀ j s, scopes !! j = Some s → i < j < c → descendants_end s ≤ c.

Lemma child_position_parent scopes i si c sc :
  preorder scopes [] → scopes !! i = Some si → scopes !! c = Some sc →
  child_position scopes i c → c < descendants_end si → scope_parent sc = Some i.
Proof.
  intros Hpo Hi Hc [Hic Hpos] Hend.
  destruct (po_inside _ _ Hpo _ _ _ _ Hi Hc) as (p & Hp & Hle); [unfold scope_end; simpl; lia|].
  destruct (decide (p = i)) as [->|Hne]; [done|]. exfalso.
  destruct (po_parent _ _ Hpo _ _ Hc) as (p' & sp & Hp' & Hlt & Hsp & Hcp & _); [lia|].
  simplify_eq. unfold scope_end in Hcp. simpl in Hcp.
  specialize (Hpos _ _ Hsp). lia.
Qed.

(** Subtrees nest. *)
Lemma subtree_end scopes i si j sj :
  preorder scopes [] → scopes !! i = Some si → scopes !! j = Some sj →
  i < j < descendants_end si → descendants_end sj ≤ descendants_end si.
Proof.
  intros Hpo Hi. revert sj. induction (lt_wf j) as [j _ IH]. intros sj Hj Hlt.
  destruct (po_inside _ _ Hpo _ _ _ _ Hi Hj) as (p & Hp & Hle); [done|].
  destruct (po_parent _ _ Hpo _ _ Hj) as (p' & sp & Hp' & Hpj & Hsp & _ & Hend & _); [lia|].
  rewrite Hp in Hp'. injection Hp' as <-. unfold scope_end in Hend. simpl in Hend.
  destruct (decide (p = i)) as [->|Hne]; [congruence|].
  etrans; [exact Hend|]. apply (IH p); [lia|done|lia].
Qed.

Lemma child_position_next scopes i c sc :
  preorder scopes [] → scopes !! c = Some sc → child_position scopes i c →
  child_position scopes i (descendants_end sc).
Proof.
  intros Hpo Hc [Hic Hpos].
  destruct (po_range _ _ Hpo _ _ Hc) as (_ & Hle & _). unfold scope_end in Hle. simpl in Hle.
  split; [lia|]. intros j s Hj Hlt.
  destruct (decide (j < c)); [specialize (Hpos _ _ Hj); lia|].
  destruct (decide (j = c)) as [->|]; [simplify_eq; lia|].
  eapply (subtree_end _ c); [done..|lia].
Qed.

Lemma child_ids_from_spec scopes i si c fuel :
  preorder scopes [] → scopes !! i = Some si → child_position scopes i c →
  descendants_end si - c ≤ fuel →
  ∃ l, child_ids_from fuel scopes c (descendants_end si) = Some l ∧
    StronglySorted lt l ∧ (∀ j, j ∈ l → c ≤ j < length scopes) ∧
    ∀ j sj, scopes !! j = Some sj → c ≤ j → (j ∈ l ↔ scope_parent sj = Some i).
Proof.
  intros Hpo Hi.
  assert (Hchild : ∀ j sj, scopes !! j = Some sj → scope_parent sj = Some i →
    j < descendants_end si).
  { intros j sj Hj Hpj. destruct (decide (j = 0)) as [->|].
    - destruct (po_root _ _ Hpo _ Hj). congruence.
    - destruct (po_parent _ _ Hpo _ _ Hj) as (p & sp & Hp & _ & Hsp & Hlt & _); [lia|].
      unfold scope_end in Hlt. simpl in Hlt. by simplify_eq. }
  revert c. induction fuel as [|fuel IH]; intros c Hpos Hfuel; simpl;
    (case_decide as Hc;
     [exists []; split; [done|]; split; [constructor|]; split; [by intros ? ?%elem_of_nil|];
      intros j sj Hj Hcj; split; [by intros ?%elem_of_nil|intros Hp; specialize (Hchild _ _ Hj Hp); lia]|]);
    [lia|].
  destruct (po_range _ _ Hpo _ _ Hi) as (_ & _ & Hend). unfold scope_end in Hend. simpl in Hend.
  destruct (lookup_lt_is_Some_2 scopes c) as [sc Hsc]; [lia|].
  destruct (po_range _ _ Hpo _ _ Hsc) as (_ & Hle & _). unfold scope_end in Hle. simpl in Hle.
  unfold IndexVec.index. rewrite Hsc. simpl.
  destruct (IH (descendants_end sc)) as (l & -> & Hs & Hge & Hl);
    [by eapply child_position_next|lia|].
  exists (c :: l). split; [done|]. split; [|split].
  - constructor; [done|]. apply Forall_forall. intros j Hj. specialize (Hge j Hj). lia.
  - intros j [->|Hj]%elem_of_cons; [lia|]. specialize (Hge j Hj). lia.
  - intros j sj Hj Hcj. rewrite elem_of_cons.
    destruct (decide (j = c)) as [->|Hne].
    { simplify_eq. split; [intros _|by left].
      eapply child_position_parent; [done|exact Hi|done|done|lia]. }
    destruct (decide (j < descendants_end sc)) as [Hlt|Hge'].
    + destruct (po_inside _ _ Hpo _ _ _ _ Hsc Hj) as (p & Hp & Hcp);
        [unfold scope_end; simpl; lia|].
      split; [intros [?|Hin]; [done|]; specialize (Hge j Hin); lia|].
      intros Hpi. rewrite Hp in Hpi. destruct Hpos. simplify_eq. lia.
    + rewrite <-(Hl j sj Hj) by lia. naive_solver.
Qed.

(** [child_scope_ids] does not panic and enumerates exactly the children, in
    order. *)
Lemma child_scope_ids_spec scopes i si :
  finished scopes → scopes !! i = Some si →
  ∃ l, child_scope_ids scopes i = Some l ∧ StronglySorted lt l ∧
    ∀ j, j ∈ l ↔ ∃ sj, scopes !! j = Some sj ∧ scope_parent sj = Some i.
Proof.
  intros [Hpo _] Hi. unfold child_scope_ids, IndexVec.index. rewrite Hi. simpl.
  destruct (po_range _ _ Hpo _ _ Hi) as (-> & Hle & Hend). unfold scope_end in *. simpl in *.
  destruct (child_ids_from_spec scopes i si (S i) (length scopes)) as (l & Hrun & Hs & Hge & Hl);
    [done|done|split; [done|lia]|lia|].
  exists l. split; [done|]. split; [done|]. intros j. split.
  - intros Hj.
    destruct (lookup_lt_is_Some_2 scopes j) as [sj Hsj]; [by apply Hge|]. exists sj. split; [done|].
    apply (Hl j sj Hsj); [by apply Hge|done].
  - intros (sj & Hsj & Hp). apply (Hl j sj Hsj); [|done].
    destruct (decide (j = 0)) as [->|].
    + destruct (po_root _ _ Hpo _ Hsj). congruence.
    + destruct (po_parent _ _ Hpo _ _ Hsj) as (p & sp & Hpp & Hlt & _); [lia|]. simplify_eq. lia.
Qed.
(** ** [scope_at] *)

(** Scope [i]'s range contains the offset. *)
Definition covers_offset scopes (offset : N) (i : nat) : Prop :=
  ∃ s, scopes !! i = Some s ∧ range_contains (scope_range s) offset = true.

(** A scope whose ancestors, the file scope apart, contain the offset, and
    none of whose children does. *)
Record innermost scopes (offset : N) (id : nat) : Prop := {
  in_chain : ∃ l, chain scopes (Some id) l ∧ ∀ i, i ∈ l → i = 0 ∨ covers_offset scopes offset i;
  in_children : ∀ j sj, scopes !! j = Some sj → scope_parent sj = Some id →
    range_contains (scope_range sj) offset = false;
}.

Lemma scope_at_from_spec scopes offset fuel current l :
  finished scopes → chain scopes (Some current) l →
  (∀ i, i ∈ l → i = 0 ∨ covers_offset scopes offset i) → length scopes - current ≤ fuel →
  ∃ id, scope_at_from fuel scopes offset current = Some id ∧ innermost scopes offset id.
Proof.
  intros Hfin. revert current l. induction fuel as [|fuel IH]; intros current l Hc Hl Hfuel.
  { assert (current < length scopes); [|lia]. eapply chain_bounds; [done|]. inversion Hc; left. }
  inversion Hc as [|? s ? Hs Hcp]; subst. simpl.
  destruct (child_scope_ids_spec scopes current s Hfin Hs) as (ch & -> & _ & Hch). simpl.
  destruct (List.find _ ch) as [k|] eqn:E.
  - apply List.find_some in E as [Hk%list_elem_of_In Hr].
    apply Hch in Hk as (sk & Hsk & Hp). rewrite Hsk in Hr. simpl in Hr.
    assert (Hck : chain scopes (Some k) (k :: current :: l0)) by
      (econstructor; [done|by rewrite Hp]).
    apply (IH k _ Hck).
    + intros i [->|Hi]%elem_of_cons; [|by apply Hl]. right. by exists sk.
    + assert (current < k); [|apply lookup_lt_Some in Hsk; lia].
      destruct Hfin as [Hpo _]. destruct (decide (k = 0)) as [->|].
      * destruct (po_root _ _ Hpo _ Hsk). congruence.
      * destruct (po_parent _ _ Hpo _ _ Hsk) as (p & ? & Hpp & ? & _); [lia|]. by simplify_eq.
  - exists current. split; [done|]. split; [by exists (current :: l0)|].
    intros j sj Hj Hp. destruct (range_contains _ _) eqn:Hr; [|done].
    assert (Hin : j ∈ ch) by (apply Hch; eauto).
    apply list_elem_of_In in Hin. eapply List.find_none in Hin; [|exact E].
    simpl in Hin. rewrite Hj in Hin. simpl in Hin. congruence.
Qed.

Lemma scope_at_total scopes offset :
  finished scopes → ∃ id, scope_at scopes offset = Some id ∧ innermost scopes offset id.
Proof.
  intros Hfin. pose proof Hfin as [Hpo Hne]. destruct scopes as [|s scopes']; [done|].
  set (scopes := s :: scopes') in *.
  apply (scope_at_from_spec _ _ _ _ [0]); [done| |set_solver|lia].
  destruct (po_root _ _ Hpo s) as [Hp _]; [done|]. econstructor; [done|]. rewrite Hp. constructor.
Qed.

(** Source ranges nest: a child's range lies in its parent's (the file scope
    stands for the whole text), and siblings are disjoint. *)
Record ranges_nest scopes : Prop := {
  rn_parent : ∀ j sj p sp offset, scopes !! j = Some sj → scope_parent sj = Some p →
    p ≠ 0 → scopes !! p = Some sp →
    range_contains (scope_range sj) offset = true → range_contains (scope_range sp) offset = true;
  rn_siblings : ∀ i si j sj offset, scopes !! i = Some si → scopes !! j = Some sj →
    scope_parent si = scope_parent sj →
    range_contains (scope_range si) offset = true →
    range_contains (scope_range sj) offset = true → i = j;
}.

Lemma chain_next scopes c l p :
  chain scopes (Some c) l → p ∈ l → p ≠ c →
  ∃ k sk, k ∈ l ∧ scopes !! k = Some sk ∧ scope_parent sk = Some p.
Proof.
  remember (Some c) as o. intros Hc. revert c Heqo.
  induction Hc as [|i s l Hs Hc IH]; intros c [= ->].
  intros [->|Hp]%elem_of_cons Hne; [done|].
  destruct (scope_parent s) as [q|] eqn:Hq; [|inversion Hc; subst; by apply elem_of_nil in Hp].
  destruct (decide (p = q)) as [->|Hpq].
  - exists c, s. split; [by left|done].
  - destruct (IH q eq_refl Hp Hpq) as (k & sk & Hk & ? & ?). exists k, sk. split; [by right|done].
Qed.

(** With nesting ranges every scope around the offset is an ancestor. *)
Lemma innermost_unique scopes offset id :
  finished scopes → ranges_nest scopes → innermost scopes offset id →
  ∀ j, covers_offset scopes offset j → ∃ l, chain scopes (Some id) l ∧ j ∈ l.
Proof.
  intros [Hpo _] [Hrp Hrs] [(l & Hc & Hl) Hch] j. induction (lt_wf j) as [j _ IH].
  intros (sj & Hj & Hr). exists l. split; [done|].
  assert (Hid : id < length scopes) by (eapply chain_bounds; [done|inversion Hc; left]).
  destruct (ancestor_scope_ids_total _ _ _ Hpo Hid) as (l' & _ & Hc' & Hlast).
  assert (l' = l) as -> by (by eapply chain_fun).
  destruct (decide (j = 0)) as [->|Hj0].
  { apply last_Some_elem_of in Hlast. done. }
  destruct (po_parent _ _ Hpo _ _ Hj) as (p & sp & Hp & Hlt & Hsp & _); [lia|].
  assert (Hpl : p ∈ l).
  { destruct (decide (p = 0)) as [->|Hp0]; [by apply last_Some_elem_of in Hlast|].
    destruct (IH p Hlt) as (l1 & Hc1 & Hin); [exists sp; split; [done|exact (Hrp _ _ _ _ _ Hj Hp Hp0 Hsp Hr)]|].
    by assert (l1 = l) as <- by (by eapply chain_fun). }
  destruct (decide (p = id)) as [->|Hne]; [rewrite (Hch _ _ Hj Hp) in Hr; done|].
  destruct (chain_next _ _ _ _ Hc Hpl Hne) as (k & sk & Hk & Hsk & Hkp).
  destruct (Hl k Hk) as [->|(sk' & Hsk' & Hkr)].
  - destruct (po_root _ _ Hpo _ Hsk). congruence.
  - simplify_eq. assert (j = k) as -> by (eapply Hrs; [exact Hj|exact Hsk|congruence|done..]).
    done.
Qed.
End tree.
