(* ===== verification/SemanticIndex.v ===== *)
(** * The finished index and its queries: [SemanticIndex] of
    [crates/oak_semantic/src/semantic_index.rs]

    A query that panics returns [None]. *)

From S2P Require Export SemanticData Timeline ScopeTree.

Section index.
Context `{TextRanges, Urls}.

Record SemanticIndex := mkSemanticIndex {
  ix_scopes : list Scope;
  ix_symbol_tables : list SymbolTable;
  ix_definitions : list (list Definition_);
  ix_uses : list (list (Use TextRange));
  ix_use_def_maps : list UseDefMap;
  ix_enclosing_snapshots : gmap (nat * nat) (list (nat * nat));
  ix_semantic_calls : list SemanticCall;
  ix_callee_dependencies : list CalleeDependency;
  ix_namespace_accesses : list NamespaceAccess;
  ix_diagnostics : list SemanticDiagnostic;
  ix_final_bindings : list Bindings;
  ix_bindings_at_sources : gmap string (list N);
  ix_source_ranks : gmap N N;
}.

Implicit Types (ix : SemanticIndex).

(** [SemanticIndex::new]. *)
Definition index_new (scopes : list Scope) (symbol_tables : list SymbolTable)
    (definitions : list (list Definition_)) (uses : list (list (Use TextRange)))
    (use_def_maps : list UseDefMap) (enclosing_snapshots : gmap (nat * nat) (list (nat * nat)))
    (semantic_calls : list SemanticCall) (callee_dependencies : list CalleeDependency)
    (namespace_accesses : list NamespaceAccess) (diagnostics : list SemanticDiagnostic)
    (final_bindings : list Bindings) (bindings_at_sources : BindingTimelineBuilder)
    : SemanticIndex :=
  let '(timeline, source_ranks) := Timeline.finish bindings_at_sources in
  mkSemanticIndex scopes symbol_tables definitions uses use_def_maps enclosing_snapshots
    semantic_calls callee_dependencies namespace_accesses diagnostics final_bindings
    timeline source_ranks.

Definition with_diagnostic (d : SemanticDiagnostic) ix : SemanticIndex :=
  mkSemanticIndex (ix_scopes ix) (ix_symbol_tables ix) (ix_definitions ix) (ix_uses ix)
    (ix_use_def_maps ix) (ix_enclosing_snapshots ix) (ix_semantic_calls ix)
    (ix_callee_dependencies ix) (ix_namespace_accesses ix) (ix_diagnostics ix ++ [d])
    (ix_final_bindings ix) (ix_bindings_at_sources ix) (ix_source_ranks ix).

(** ** Exports *)

(** The definitions of a list of identifiers; indexing panics. *)
Definition defs_of (defs : list Definition_) (ids : list nat) : option (list (nat * Definition_)) :=
  mapM (λ id, d ← IndexVec.index defs id; Some (id, d)) ids.

(** One turn of the loop of [exports]. *)
Definition export_symbol (table : SymbolTable) (defs : list Definition_) (entry : nat * Bindings)
    (exports : gmap string (list (nat * Definition_)))
    : option (gmap string (list (nat * Definition_))) :=
  let '(symbol_id, bindings) := entry in
  match definitions bindings with
  | [] => Some exports
  | ids =>
      s ← SymbolTable.symbol table symbol_id;
      list ← defs_of defs ids;
      Some (<[symbol_name s := default [] (exports !! symbol_name s) ++ list]> exports)
  end.

Definition exports ix : option (gmap string (list (nat * Definition_))) :=
  table ← IndexVec.index (ix_symbol_tables ix) 0;
  defs ← IndexVec.index (ix_definitions ix) 0;
  foldM (export_symbol table defs) (IndexVec.iter (ix_final_bindings ix)) ∅.

(** The final bindings of a name, if it has an entry. *)
Definition final_bindings_of ix (table : SymbolTable) (name : string) : option Bindings :=
  symbol_id ← SymbolTable.id table name;
  IndexVec.get (ix_final_bindings ix) symbol_id.

Definition export_is_bound ix (name : string) : option bool :=
  table ← IndexVec.index (ix_symbol_tables ix) 0;
  Some (match final_bindings_of ix table name with
        | Some bindings => negb (may_be_unbound bindings)
        | None => false
        end).

Definition export ix (name : string) : option (list (nat * Definition_)) :=
  defs ← IndexVec.index (ix_definitions ix) 0;
  table ← IndexVec.index (ix_symbol_tables ix) 0;
  defs_of defs (from_option definitions [] (final_bindings_of ix table name)).

(** ** Attached packages *)

Definition scope_is_eager ix (scope_id : nat) : option bool :=
  (λ lazy, match lazy with None => true | Some _ => false end) <$>
    enclosing_lazy_scope (ix_scopes ix) scope_id.

Definition attach_package (call : SemanticCall) : option string :=
  match call_kind call with Attach package _ => Some package | Source _ _ => None end.

Definition attached_packages ix : option (list string) :=
  eager ← mapM (λ call, e ← scope_is_eager ix (call_scope call); Some (call, e))
            (ix_semantic_calls ix);
  Some (omap (λ '(call, e), if e : bool then attach_package call else None) eager).

Definition attached_packages_anywhere ix : list string :=
  omap attach_package (ix_semantic_calls ix).

Definition index_exports_at_sources ix (offsets : list N) : option ExportsAtSource :=
  Timeline.exports_at_sources (ix_bindings_at_sources ix) (ix_source_ranks ix) offsets.

(** ** Positions *)

Definition definition_at ix (offset : N) : option (option (nat * nat * Definition_)) :=
  scope ← scope_at (ix_scopes ix) offset;
  defs ← IndexVec.index (ix_definitions ix) scope;
  Some ('(id, def) ← IndexVec.contains (λ d, range_contains (def_range d) offset) defs;
        Some (scope, id, def)).

Definition use_at ix (offset : N) : option (option (nat * nat * Use TextRange)) :=
  scope ← scope_at (ix_scopes ix) offset;
  uses ← IndexVec.index (ix_uses ix) scope;
  Some ('(id, use) ← IndexVec.contains (λ u, range_contains (use_range u) offset) uses;
        Some (scope, id, use)).

Definition uses_of ix (name : string) : option (list (nat * nat * Use TextRange)) :=
  per_scope ← mapM (λ '(scope_id, _),
    table ← IndexVec.index (ix_symbol_tables ix) scope_id;
    match SymbolTable.id table name with
    | None => Some []
    | Some symbol_id =>
        uses ← IndexVec.index (ix_uses ix) scope_id;
        Some ((λ '(use_id, u), (scope_id, use_id, u)) <$>
                filter (λ '(_, u), use_symbol u = symbol_id) (IndexVec.iter uses))
    end) (IndexVec.iter (ix_scopes ix));
  Some (concat per_scope).

(** ** Lexical resolution *)

(** One turn of the loop over ancestors: [None] panics ([unreachable!] and
    indexing), [Some None] continues. *)
Definition resolve_in ix (name : string) (ancestor : nat)
    : option (option (nat * nat * Definition_)) :=
  table ← IndexVec.index (ix_symbol_tables ix) ancestor;
  match SymbolTable.id table name with
  | None => Some None
  | Some symbol_id =>
      s ← SymbolTable.symbol table symbol_id;
      if SymbolFlags.contains (symbol_flags s) SymbolFlags.IS_BOUND then
        defs ← IndexVec.index (ix_definitions ix) ancestor;
        '(def_id, def) ← List.find (λ '(_, d), bool_decide (def_symbol d = symbol_id))
                           (IndexVec.iter defs);
        Some (Some (ancestor, def_id, def))
      else Some None
  end.

Fixpoint resolve_from ix (name : string) (ancestors : list nat)
    : option (option (nat * nat * Definition_)) :=
  match ancestors with
  | [] => Some None
  | ancestor :: ancestors =>
      r ← resolve_in ix name ancestor;
      match r with Some found => Some (Some found) | None => resolve_from ix name ancestors end
  end.

Definition resolve ix (name : string) (scope : nat) : option (option (nat * nat * Definition_)) :=
  ancestors ← ancestor_scope_ids (ix_scopes ix) scope;
  resolve_from ix name ancestors.

(** ** Reaching bindings across scopes *)

Definition enclosing_bindings_chain ix (scope use_id : nat) : option (list (nat * Bindings)) :=
  mapM (λ '(ancestor_scope, snapshot_id),
    m ← IndexVec.index (ix_use_def_maps ix) ancestor_scope;
    bindings ← UseDefMap.enclosing_snapshot snapshot_id m;
    Some (ancestor_scope, bindings))
    (default [] (ix_enclosing_snapshots ix !! (scope, use_id))).

Definition enclosing_bindings ix (scope use_id : nat) : option (option (nat * Bindings)) :=
  head <$> enclosing_bindings_chain ix scope use_id.

(** The iterator that stops at the first ancestor whose bindings cannot be
    missing. *)
Fixpoint fall_through (may_fall_through : bool) (chain : list (nat * Bindings))
    : list (nat * Bindings) :=
  if may_fall_through then
    match chain with
    | [] => []
    | (ancestor_scope, bindings) :: chain =>
        (ancestor_scope, bindings) :: fall_through (may_be_unbound bindings) chain
    end
  else [].

Definition reaching_bindings ix (scope use_id : nat) : option (list (nat * Bindings)) :=
  m ← IndexVec.index (ix_use_def_maps ix) scope;
  local ← UseDefMap.bindings_at_use use_id m;
  chain ← enclosing_bindings_chain ix scope use_id;
  Some ((scope, local) :: fall_through (may_be_unbound local) chain).

Definition reaching_definitions ix (scope use_id : nat) : option (list (nat * nat)) :=
  bs ← reaching_bindings ix scope use_id;
  Some ('(scope, bindings) ← bs; (λ def, (scope, def)) <$> definitions bindings).

Definition use_is_bound ix (scope use_id : nat) : option bool :=
  bs ← reaching_bindings ix scope use_id;
  Some (existsb (λ '(_, bindings), negb (may_be_unbound bindings)) bs).
End index.

#[global] Arguments defs_of : simpl never.
