(* ===== verification/BuilderState.v ===== *)
(** * The state of the index builder: [crates/oak_semantic/src/builder.rs] and
    the data of [builder/scan.rs]

    [SemanticIndexBuilder] with its two halves, the scan state and the walk
    state, and the operations that both passes share. *)

From S2P Require Export SemanticIndex Effects FlowWalk.

(** [BindingSites { by_name: FxHashMap<String, TextRange> }] is its map. *)
Module BindingSites.

Definition new `{TextRanges} : gmap string TextRange := ∅.

Definition binds `{TextRanges} (sites : gmap string TextRange) (name : string) : bool :=
  bool_decide (is_Some (sites !! name)).

Definition binding_range `{TextRanges} (sites : gmap string TextRange) (name : string)
    : option TextRange :=
  sites !! name.

(** [entry(name).or_insert(range)]. *)
Definition add `{TextRanges} (name : string) (range : TextRange)
    (sites : gmap string TextRange) : gmap string TextRange :=
  match sites !! name with Some _ => sites | None => <[name := range]> sites end.

End BindingSites.

(** [FlowState { bound: FxHashSet<String> }] is its set. *)
Module FlowState.

Definition is_bound (self : gset string) (name : string) : bool := bool_decide (name ∈ self).
Definition snapshot (self : gset string) : gset string := self.
Definition restore (snapshot self : gset string) : gset string := snapshot.
(** [self.bound.retain(|name| other.bound.contains(name))]. *)
Definition merge (other self : gset string) : gset string := filter (λ name, name ∈ other) self.
Definition bind (name : string) (self : gset string) : gset string := {[name]} ∪ self.
Definition clear (self : gset string) : gset string := ∅.

Lemma flow_merge_spec other self : merge other self = self ∩ other.
Proof. unfold merge. set_solver. Qed.

End FlowState.

(** [FlowAttaches], two parallel vectors. *)
Record AttachSite := mkAttachSite { site_package : string; site_offset : N }.
Record FlowAttaches := mkFlowAttaches { fa_packages : list string; fa_offsets : list N }.

Module FlowAttaches.

Definition new : FlowAttaches := mkFlowAttaches [] [].
Definition packages (self : FlowAttaches) : list string := fa_packages self.
Definition len (self : FlowAttaches) : nat := length (fa_packages self).

Definition push (package : string) (offset : N) (self : FlowAttaches) : FlowAttaches :=
  mkFlowAttaches (fa_packages self ++ [package]) (fa_offsets self ++ [offset]).

Definition truncate (watermark : nat) (self : FlowAttaches) : FlowAttaches :=
  mkFlowAttaches (take watermark (fa_packages self)) (take watermark (fa_offsets self)).

(** [Vec::split_off] panics past the end. *)
Definition vec_split_off {A} (at_ : nat) (l : list A) : option (list A * list A) :=
  if decide (at_ ≤ length l) then Some (take at_ l, drop at_ l) else None.

Definition split_off (watermark : nat) (self : FlowAttaches)
    : option (FlowAttaches * list AttachSite) :=
  '(kept_offsets, offsets) ← vec_split_off watermark (fa_offsets self);
  '(kept_packages, packages) ← vec_split_off watermark (fa_packages self);
  Some (mkFlowAttaches kept_packages kept_offsets,
        (λ '(package, offset), mkAttachSite package offset) <$> zip packages offsets).

End FlowAttaches.

Section data.
Context `{TextRanges, Urls, HandlerTypes}.

(** ** Data of the scan *)

Record SourcedFile := mkSourcedFile { sf_path : string; sf_resolution : option SourceResolution }.

Record CallResolution := mkCallResolution {
  cres_arguments : option ResolvedArgumentEffects;
  cres_attach : option string;
  cres_source : list SourcedFile;
  cres_assign : list AssignBinding;
}.

Definition CallResolution_default : CallResolution := mkCallResolution None None [] [].

Record OpenScope := mkOpenScope { os_kind : ScopeKind; os_bindings : gmap string TextRange }.

Inductive BodyScan :=
| Deferred (bound_so_far : gset string) (attached_inherited : list string)
| Scanned (bindings : gmap string TextRange).

Record DeferredBody := mkDeferredBody {
  db_body : expr;
  db_bound_so_far : gset string;
  db_attached_inherited : list string;
}.

Record ScanState := mkScanState {
  bound_anywhere : list (gmap string TextRange);
  bound_so_far : gset string;
  open_scopes : list OpenScope;
  body_scans : gmap TextRange BodyScan;
  attached_so_far : FlowAttaches;
  attach_effect_ends : gmap N (list (string * N));
  attached_inherited : list string;
  attached_anywhere : list (string * TextRange);
  call_resolutions : gmap TextRange CallResolution;
  super_binding_packages : gmap TextRange string;
  deferred_bodies : list DeferredBody;
}.

Record WalkState := mkWalkState {
  symbol_tables : list SymbolTable;
  wk_definitions : list (list Definition_);
  uses : list (list (Use TextRange));
  use_def_maps : list UseDefMapBuilder;
  wk_enclosing_snapshots : gmap (nat * nat) (list (nat * nat));
  lazy_snapshots : gmap (nat * nat * nat) nat;
  semantic_calls : list SemanticCall;
  namespace_accesses : list NamespaceAccess;
  bindings_at_sources : BindingTimelineBuilder;
}.

Record SemanticIndexBuilder := mkSemanticIndexBuilder {
  scopes : list Scope;
  current_scope : nat;
  diagnostics : list SemanticDiagnostic;
  callee_dependencies : list CalleeDependency;
  scan : ScanState;
  walk : WalkState;
}.

(** ** Field updates *)

Implicit Types (b : SemanticIndexBuilder) (s : ScanState) (w : WalkState).

Definition set_scopes v b :=
  mkSemanticIndexBuilder v (current_scope b) (diagnostics b) (callee_dependencies b) (scan b) (walk b).
Definition set_current_scope v b :=
  mkSemanticIndexBuilder (scopes b) v (diagnostics b) (callee_dependencies b) (scan b) (walk b).
Definition push_diagnostic d b :=
  mkSemanticIndexBuilder (scopes b) (current_scope b) (diagnostics b ++ [d])
    (callee_dependencies b) (scan b) (walk b).
Definition push_callee_dependency d b :=
  mkSemanticIndexBuilder (scopes b) (current_scope b) (diagnostics b)
    (callee_dependencies b ++ [d]) (scan b) (walk b).
Definition upd_scan (f : ScanState → ScanState) b :=
  mkSemanticIndexBuilder (scopes b) (current_scope b) (diagnostics b) (callee_dependencies b)
    (f (scan b)) (walk b).
Definition upd_walk (f : WalkState → WalkState) b :=
  mkSemanticIndexBuilder (scopes b) (current_scope b) (diagnostics b) (callee_dependencies b)
    (scan b) (f (walk b)).

Definition set_bound_anywhere v s :=
  mkScanState v (bound_so_far s) (open_scopes s) (body_scans s) (attached_so_far s)
    (attach_effect_ends s) (attached_inherited s) (attached_anywhere s) (call_resolutions s)
    (super_binding_packages s) (deferred_bodies s).
Definition set_bound_so_far v s :=
  mkScanState (bound_anywhere s) v (open_scopes s) (body_scans s) (attached_so_far s)
    (attach_effect_ends s) (attached_inherited s) (attached_anywhere s) (call_resolutions s)
    (super_binding_packages s) (deferred_bodies s).
Definition set_open_scopes v s :=
  mkScanState (bound_anywhere s) (bound_so_far s) v (body_scans s) (attached_so_far s)
    (attach_effect_ends s) (attached_inherited s) (attached_anywhere s) (call_resolutions s)
    (super_binding_packages s) (deferred_bodies s).
Definition set_body_scans v s :=
  mkScanState (bound_anywhere s) (bound_so_far s) (open_scopes s) v (attached_so_far s)
    (attach_effect_ends s) (attached_inherited s) (attached_anywhere s) (call_resolutions s)
    (super_binding_packages s) (deferred_bodies s).
Definition set_attached_so_far v s :=
  mkScanState (bound_anywhere s) (bound_so_far s) (open_scopes s) (body_scans s) v
    (attach_effect_ends s) (attached_inherited s) (attached_anywhere s) (call_resolutions s)
    (super_binding_packages s) (deferred_bodies s).
Definition set_attach_effect_ends v s :=
  mkScanState (bound_anywhere s) (bound_so_far s) (open_scopes s) (body_scans s)
    (attached_so_far s) v (attached_inherited s) (attached_anywhere s) (call_resolutions s)
    (super_binding_packages s) (deferred_bodies s).
Definition set_attached_inherited v s :=
  mkScanState (bound_anywhere s) (bound_so_far s) (open_scopes s) (body_scans s)
    (attached_so_far s) (attach_effect_ends s) v (attached_anywhere s) (call_resolutions s)
    (super_binding_packages s) (deferred_bodies s).
Definition push_attached_anywhere v s :=
  mkScanState (bound_anywhere s) (bound_so_far s) (open_scopes s) (body_scans s)
    (attached_so_far s) (attach_effect_ends s) (attached_inherited s)
    (attached_anywhere s ++ [v]) (call_resolutions s) (super_binding_packages s)
    (deferred_bodies s).
Definition set_call_resolutions v s :=
  mkScanState (bound_anywhere s) (bound_so_far s) (open_scopes s) (body_scans s)
    (attached_so_far s) (attach_effect_ends s) (attached_inherited s) (attached_anywhere s) v
    (super_binding_packages s) (deferred_bodies s).
Definition set_super_binding_packages v s :=
  mkScanState (bound_anywhere s) (bound_so_far s) (open_scopes s) (body_scans s)
    (attached_so_far s) (attach_effect_ends s) (attached_inherited s) (attached_anywhere s)
    (call_resolutions s) v (deferred_bodies s).
Definition set_deferred_bodies v s :=
  mkScanState (bound_anywhere s) (bound_so_far s) (open_scopes s) (body_scans s)
    (attached_so_far s) (attach_effect_ends s) (attached_inherited s) (attached_anywhere s)
    (call_resolutions s) (super_binding_packages s) v.

Definition set_symbol_tables v w :=
  mkWalkState v (wk_definitions w) (uses w) (use_def_maps w) (wk_enclosing_snapshots w)
    (lazy_snapshots w) (semantic_calls w) (namespace_accesses w) (bindings_at_sources w).
Definition set_definitions v w :=
  mkWalkState (symbol_tables w) v (uses w) (use_def_maps w) (wk_enclosing_snapshots w)
    (lazy_snapshots w) (semantic_calls w) (namespace_accesses w) (bindings_at_sources w).
Definition set_uses v w :=
  mkWalkState (symbol_tables w) (wk_definitions w) v (use_def_maps w) (wk_enclosing_snapshots w)
    (lazy_snapshots w) (semantic_calls w) (namespace_accesses w) (bindings_at_sources w).
Definition set_use_def_maps v w :=
  mkWalkState (symbol_tables w) (wk_definitions w) (uses w) v (wk_enclosing_snapshots w)
    (lazy_snapshots w) (semantic_calls w) (namespace_accesses w) (bindings_at_sources w).
Definition set_wk_enclosing_snapshots v w :=
  mkWalkState (symbol_tables w) (wk_definitions w) (uses w) (use_def_maps w) v
    (lazy_snapshots w) (semantic_calls w) (namespace_accesses w) (bindings_at_sources w).
Definition set_lazy_snapshots v w :=
  mkWalkState (symbol_tables w) (wk_definitions w) (uses w) (use_def_maps w)
    (wk_enclosing_snapshots w) v (semantic_calls w) (namespace_accesses w)
    (bindings_at_sources w).
Definition push_semantic_call v w :=
  mkWalkState (symbol_tables w) (wk_definitions w) (uses w) (use_def_maps w)
    (wk_enclosing_snapshots w) (lazy_snapshots w) (semantic_calls w ++ [v])
    (namespace_accesses w) (bindings_at_sources w).
Definition push_namespace_access v w :=
  mkWalkState (symbol_tables w) (wk_definitions w) (uses w) (use_def_maps w)
    (wk_enclosing_snapshots w) (lazy_snapshots w) (semantic_calls w)
    (namespace_accesses w ++ [v]) (bindings_at_sources w).
Definition set_bindings_at_sources v w :=
  mkWalkState (symbol_tables w) (wk_definitions w) (uses w) (use_def_maps w)
    (wk_enclosing_snapshots w) (lazy_snapshots w) (semantic_calls w) (namespace_accesses w) v.

End data.
