(* ===== verification/BuilderOps.v ===== *)
(** * Scope management and lookups of the builder:
    [crates/oak_semantic/src/builder.rs], and callee resolution:
    [builder/effects.rs] *)

From S2P Require Export BuilderState.

Section ops.
Context `{TextRanges, Urls, HandlerTypes}.
Implicit Types (b : SemanticIndexBuilder).

(** [SemanticIndexBuilder::new]. *)
Definition builder_new (range : TextRange) : SemanticIndexBuilder :=
  mkSemanticIndexBuilder [mkScope _ None KFile range 1 1] 0 [] []
    (mkScanState [BindingSites.new] ∅ [] ∅ FlowAttaches.new ∅ [] [] ∅ ∅ [])
    (mkWalkState [SymbolTable.new] [[]] [[]] [Builder.new] ∅ ∅ [] [] Timeline.new).

(** ** Scopes *)

(** The pushes that keep every [ScopeId]-indexed vector in lockstep. *)
Definition push_scope (kind : ScopeKind) (range : TextRange) : M SemanticIndexBuilder nat :=
  try_update (λ b,
    '(scopes, id) ← push_scope_arena kind range (scopes b) (current_scope b);
    '(tables, _) ← IndexVec.push (symbol_tables (walk b)) SymbolTable.new;
    '(defs, _) ← IndexVec.push (wk_definitions (walk b)) [];
    '(uses, _) ← IndexVec.push (uses (walk b)) [];
    '(udms, _) ← IndexVec.push (use_def_maps (walk b)) Builder.new;
    '(bound, _) ← IndexVec.push (bound_anywhere (scan b)) BindingSites.new;
    Some (id,
      upd_walk (set_use_def_maps udms ∘ set_uses uses ∘ set_definitions defs ∘
                set_symbol_tables tables)
        (upd_scan (set_bound_anywhere bound) (set_current_scope id (set_scopes scopes b))))).

Definition pop_scope (id : nat) : M SemanticIndexBuilder () :=
  try_update (λ b,
    '(scopes, parent) ← pop_scope_arena id (scopes b);
    Some ((), set_current_scope parent (set_scopes scopes b))).

(** [self.scopes[self.current_scope]]. *)
Definition the_scope b : option Scope := IndexVec.index (scopes b) (current_scope b).

Definition enclosing_owner b : option (option nat) :=
  s ← the_scope b;
  match scope_parent s with
  | None => Some None
  | Some parent =>
      find_kind (scopes b) ScopeKind.owns_bindings <$> ancestor_scope_ids (scopes b) parent
  end.

(** ** Names a scope binds *)

Definition walked_binding b (scope : nat) (name : string) : option (option nat) :=
  table ← IndexVec.index (symbol_tables (walk b)) scope;
  match SymbolTable.id table name with
  | None => Some None
  | Some symbol_id =>
      s ← SymbolTable.symbol table symbol_id;
      Some (if SymbolFlags.contains (symbol_flags s) SymbolFlags.IS_BOUND then Some symbol_id
            else None)
  end.

Definition scope_binds_anywhere b (scope : nat) (name : string) : option bool :=
  walked ← walked_binding b scope name;
  sites ← IndexVec.index (bound_anywhere (scan b)) scope;
  Some (is_Some_b walked || BindingSites.binds sites name).

Definition scope_binding_range b (scope : nat) (name : string) : option (option TextRange) :=
  sites ← IndexVec.index (bound_anywhere (scan b)) scope;
  match BindingSites.binding_range sites name with
  | Some range => Some (Some range)
  | None =>
      walked ← walked_binding b scope name;
      match walked with
      | None => Some None
      | Some symbol_id =>
          defs ← IndexVec.index (wk_definitions (walk b)) scope;
          Some ((λ '(_, def), def_range def) <$>
                  List.find (λ '(_, def), bool_decide (def_symbol def = symbol_id))
                    (IndexVec.iter defs))
      end
  end.

(** ** The finished index *)

Definition dep_key (d : CalleeDependency) : N * N :=
  (range_start (dep_range d), range_end (dep_range d)).

Definition key_le (k1 k2 : N * N) : bool :=
  bool_decide (k1.1 < k2.1)%N || (bool_decide (k1.1 = k2.1) && bool_decide (k1.2 ≤ k2.2)%N).

Definition finish b : option SemanticIndex :=
  next ← IndexVec.next_id (scopes b);
  scopes ← IndexVec.index_mut (scopes b) 0 (λ s, Some (set_descendants_end next s));
  udms ← IndexVec.index_mut (use_def_maps (walk b)) 0 Builder.fold_lazy_defs;
  file_udm ← IndexVec.index udms 0;
  Some (index_new scopes (symbol_tables (walk b)) (wk_definitions (walk b)) (uses (walk b))
          (Builder.finish <$> udms) (wk_enclosing_snapshots (walk b)) (semantic_calls (walk b))
          (sort_by_key key_le dep_key (callee_dependencies b)) (namespace_accesses (walk b))
          (diagnostics b) (Builder.final_bindings file_udm) (bindings_at_sources (walk b))).

(** ** The attach search path *)

Definition attach_search_path (inherited so_far : list string) : list string :=
  match inherited with [] => so_far | _ => inherited ++ so_far end.

Definition search_path b : list string :=
  attach_search_path (attached_inherited (scan b))
    (FlowAttaches.packages (attached_so_far (scan b))).

(** ** The scope being scanned *)

Inductive ScanScope := Open (bindings : gmap string TextRange) | Arena (scope : nat).

Definition scan_scope b : ScanScope :=
  match List.find (λ o, ScopeKind.owns_bindings (os_kind o)) (reverse (open_scopes (scan b))) with
  | Some o => Open (os_bindings o)
  | None => Arena (current_scope b)
  end.

Definition scan_scope_binds b (name : string) : option bool :=
  match scan_scope b with
  | Open sites => Some (BindingSites.binds sites name)
  | Arena scope => scope_binds_anywhere b scope name
  end.

Definition scan_scope_binding_range b (name : string) : option (option TextRange) :=
  match scan_scope b with
  | Open sites => Some (BindingSites.binding_range sites name)
  | Arena scope => scope_binding_range b scope name
  end.

Definition scan_scope_is_global b : option bool :=
  match scan_scope b with
  | Open _ => Some false
  | Arena scope => s ← IndexVec.index (scopes b) scope; Some (bool_decide (scope_kind s = KFile))
  end.

(** ** Uncertain callees *)

(** The [while let] over arena scopes outward. *)
Fixpoint lazy_shadow_in_arena (fuel : nat) b (name : string) (scope : option nat)
    (crossed_lazy : bool) : option (option TextRange) :=
  match scope with
  | None => Some None
  | Some s =>
      match fuel with
      | 0 => None
      | S fuel =>
          found ← (if crossed_lazy then scope_binding_range b s name else Some None);
          match found with
          | Some range => Some (Some range)
          | None =>
              sc ← IndexVec.index (scopes b) s;
              lazy_shadow_in_arena fuel b name (scope_parent sc)
                (crossed_lazy || ScopeKind.is_lazy (scope_kind sc))
          end
      end
  end.

(** The loop over the frames beneath the body: the binding found, or whether a
    lazy boundary was crossed. *)
Fixpoint lazy_shadow_in_frames (frames : list OpenScope) (name : string) (crossed_lazy : bool)
    : TextRange + bool :=
  match frames with
  | [] => inr crossed_lazy
  | scope :: frames =>
      match (if crossed_lazy then BindingSites.binding_range (os_bindings scope) name else None) with
      | Some range => inl range
      | None => lazy_shadow_in_frames frames name (crossed_lazy || ScopeKind.is_lazy (os_kind scope))
      end
  end.

Definition is_lazily_shadowed b (name : string) : option (option TextRange) :=
  match reverse (open_scopes (scan b)) with
  | body :: frames =>
      match lazy_shadow_in_frames frames name (ScopeKind.is_lazy (os_kind body)) with
      | inl range => Some (Some range)
      | inr crossed_lazy =>
          lazy_shadow_in_arena (length (scopes b)) b name (Some (current_scope b)) crossed_lazy
      end
  | [] =>
      s ← the_scope b;
      lazy_shadow_in_arena (length (scopes b)) b name (scope_parent s)
        (ScopeKind.is_lazy (scope_kind s))
  end.

Context `{!ImportsResolver}.

Definition conditional_attach_uncertainty b (sym : string) : option CalleeUncertainty :=
  let path := search_path b in
  let dropped := filter (λ '(package, _), package ∉ path) (attached_anywhere (scan b)) in
  let candidates := omap (λ '(package, attach_range),
    handlers ← resolver_resolve_effects sym [package];
    Some (mkDroppedAttach package attach_range handlers)) (reverse dropped) in
  match candidates with [] => None | _ => Some (CUConditionalAttach candidates) end.

(** [resolve_local_effects]: no declared effects yet. *)
Definition resolve_local_effects b (name : string) : option FunctionHandlers := None.

(** The [uncertainty] of an import. *)
Definition import_uncertainty b (sym : string) (handlers : option FunctionHandlers)
    : option (option CalleeUncertainty) :=
  match handlers with
  | Some _ => fmap (M:=option) CULazyShadow <$> is_lazily_shadowed b sym
  | None => Some (conditional_attach_uncertainty b sym)
  end.

Definition resolve_symbol b (sym : string) : option CalleeResolution :=
  if FlowState.is_bound (bound_so_far (scan b)) sym then
    Some (settled Local (resolve_local_effects b sym))
  else if negb (annotates sym) then Some (settled Import None)
  else
    let handlers := resolver_resolve_effects sym (search_path b) in
    uncertainty ← import_uncertainty b sym handlers;
    Some (mkCalleeResolution Import handlers uncertainty).

Definition resolve_qualified_effects (pkg func_name : option string) : option FunctionHandlers :=
  pkg ← pkg;
  func_name ← func_name;
  if annotates func_name then resolver_resolve_qualified_effects pkg func_name else None.

Definition resolve_callee b (call : expr) : option CalleeResolution :=
  match call with
  | RCall (Some (RIdentifier name _)) _ _ =>
      resolution ← resolve_symbol b name;
      match source_dir_idiom name with
      | Some handlers => Some (settled (cr_origin resolution) (Some handlers))
      | None => Some resolution
      end
  | RCall (Some (RNamespaceExpression _ pkg func_name _ _)) _ _ =>
      Some (settled Qualified (resolve_qualified_effects pkg func_name))
  | _ => Some (settled Dynamic None)
  end.

(** [ScanBindings]: what handlers see of the builder. Its lookups do not panic
    on a builder in its invariant, so their results are read with a default. *)
Definition scan_bindings b : ScopeContext := {|
  ctx_is_bound name inherits :=
    if inherits : bool then FlowState.is_bound (bound_so_far (scan b)) name
    else default false (scan_scope_binds b name);
  ctx_is_global := default false (scan_scope_is_global b);
  ctx_resolve_callee call := default (settled Dynamic None) (resolve_callee b call);
|}.
End ops.
