(* ===== verification/ScopeUnit.v ===== *)
(** * One scope's tables in the builder, and their invariant

    The symbol table, definitions, uses and use-def map of a scope refer to
    each other by index. [unit_wf] says the references are sound: every
    definition that reaches a use is a row of the scope's definitions with the
    use's symbol, and an [IS_BOUND] symbol has a row. *)

From S2P Require Export BuilderState UseDefFacts.
Import BuilderFacts.

Section unit.
Context `{TextRanges, Urls}.

Record scope_unit := mkUnit {
  u_table : SymbolTable;
  u_defs : list Definition_;
  u_uses : list (Use TextRange);
  u_udm : UseDefMapBuilder;
}.

Implicit Types (u : scope_unit) (d : list Definition_) (m : UseDefMapBuilder).

(** Definition [x] is a row for symbol [sym]. *)
Definition row d (x sym : nat) : Prop := ∃ def, d !! x = Some def ∧ def_symbol def = sym.

Lemma row_app d d' x sym : row d x sym → row (d ++ d') x sym.
Proof. intros (def & Hd & Hs). exists def. split; [by apply lookup_app_l_Some|done]. Qed.

(** Snapshot [id] holds and receives definitions of symbol [sym] only. *)
Definition follows d m (id sym : nat) : Prop :=
  ∃ s, enclosing_snapshots m !! id = Some s ∧
    (∀ x, x ∈ definitions s → row d x sym) ∧
    (∀ sym', id ∈ watchers_of m sym' → sym' = sym).

Record refs d (us : list (Use TextRange)) m : Prop := {
  rf_st : ∀ sym x, x ∈ definitions (st m sym) → row d x sym;
  rf_use : ∀ k use bs x, us !! k = Some use → bindings_by_use m !! k = Some bs →
    x ∈ definitions bs → row d x (use_symbol use);
  rf_lazy : ∀ sym l x, lazy_defs m !! sym = Some l → x ∈ l → row d x sym;
}.

Record unit_wf u : Prop := {
  uw_table : SymbolTableFacts.wf (u_table u);
  uw_udm : wf (u_udm u);
  uw_uses : length (bindings_by_use (u_udm u)) = length (u_uses u);
  uw_states : length (symbol_states (u_udm u)) ≤ length (symbols (u_table u));
  uw_cap : (N.of_nat (length (symbols (u_table u))) ≤ N.succ IndexVec.MAX)%N;
  uw_def_syms : ∀ x def, u_defs u !! x = Some def → def_symbol def < length (symbols (u_table u));
  uw_use_syms : ∀ k use, u_uses u !! k = Some use → use_symbol use < length (symbol_states (u_udm u));
  uw_bound : ∀ sym s, symbols (u_table u) !! sym = Some s →
    SymbolFlags.contains (symbol_flags s) SymbolFlags.IS_BOUND = true → ∃ x, row (u_defs u) x sym;
  uw_refs : refs (u_defs u) (u_uses u) (u_udm u);
}.

(** What later code can rely on after the walk went on. *)
Record unit_grows u u' : Prop := {
  ug_names : ∀ sym s, symbols (u_table u) !! sym = Some s →
    ∃ s', symbols (u_table u') !! sym = Some s' ∧ symbol_name s' = symbol_name s;
  ug_defs : ∃ l, u_defs u' = u_defs u ++ l;
  ug_uses : ∃ l, u_uses u' = u_uses u ++ l;
  ug_states : length (symbol_states (u_udm u)) ≤ length (symbol_states (u_udm u'));
  ug_follows : ∀ id sym, follows (u_defs u) (u_udm u) id sym → follows (u_defs u') (u_udm u') id sym;
}.

#[export] Instance unit_grows_preorder : PreOrder unit_grows.
Proof.
  split.
  - intros u. split; eauto; exists []; by rewrite app_nil_r.
  - intros u1 u2 u3 [N1 [l1 D1] [k1 U1] S1 F1] [N2 [l2 D2] [k2 U2] S2 F2]. split.
    + intros sym s Hs. destruct (N1 _ _ Hs) as (s2 & Hs2 & <-).
      destruct (N2 _ _ Hs2) as (s3 & Hs3 & <-). eauto.
    + exists (l1 ++ l2). by rewrite D2, D1, app_assoc.
    + exists (k1 ++ k2). by rewrite U2, U1, app_assoc.
    + lia.
    + auto.
Qed.

(** A table too full for another index. *)
Definition unit_full u : Prop :=
  (IndexVec.MAX < N.of_nat (length (symbols (u_table u))))%N ∨
  (IndexVec.MAX < N.of_nat (length (u_defs u)))%N ∨
  (IndexVec.MAX < N.of_nat (length (u_uses u)))%N ∨
  (IndexVec.MAX < N.of_nat (length (enclosing_snapshots (u_udm u))))%N.

(** ** Symbols *)

Definition set_table t u := mkUnit t (u_defs u) (u_uses u) (u_udm u).
Definition set_defs d u := mkUnit (u_table u) d (u_uses u) (u_udm u).
Definition set_unit_uses us u := mkUnit (u_table u) (u_defs u) us (u_udm u).
Definition set_udm m u := mkUnit (u_table u) (u_defs u) (u_uses u) m.

(** Interning and [ensure_symbol], whatever the flags: everything but the
    claim about [IS_BOUND] symbols. *)
Lemma intern_unit u name flags t id :
  unit_wf u → SymbolTable.intern name flags (u_table u) = Some (t, id) →
  ∃ m, Builder.ensure_symbol id (u_udm u) = Some m ∧
    SymbolTableFacts.wf t ∧ by_name t !! name = Some id ∧
    length (symbols (u_table u)) ≤ length (symbols t) ∧ id < length (symbols t) ∧
    (N.of_nat (length (symbols t)) ≤ N.succ IndexVec.MAX)%N ∧
    (∃ s, symbols t !! id = Some s ∧ symbol_name s = name) ∧
    (∀ sym s, symbols t !! sym = Some s →
       SymbolFlags.contains (symbol_flags s) SymbolFlags.IS_BOUND = true →
       sym = id ∧ SymbolFlags.contains flags SymbolFlags.IS_BOUND = true ∨
       ∃ s0, symbols (u_table u) !! sym = Some s0 ∧
         SymbolFlags.contains (symbol_flags s0) SymbolFlags.IS_BOUND = true) ∧
    (∀ sym s, symbols (u_table u) !! sym = Some s →
       ∃ s', symbols t !! sym = Some s' ∧ symbol_name s' = symbol_name s) ∧
    wf m ∧ id < length (symbol_states m) ≤ length (symbols t) ∧
    length (symbol_states (u_udm u)) ≤ length (symbol_states m) ∧
    (∀ s, st m s = st (u_udm u) s) ∧ m = Builder.set_symbol_states (symbol_states m) (u_udm u).
Proof.
  intros [] Hi.
  destruct (SymbolTableFacts.intern_spec name flags (u_table u) t id uw_table0 Hi)
    as (Wt & Hby & Hlen & Hid & Hback & Hforth).
  assert (Hname : by_name t !! name = Some id) by (by rewrite Hby, lookup_insert_eq).
  assert (Hcap' : (N.of_nat (length (symbols t)) ≤ N.succ IndexVec.MAX)%N).
  { clear -uw_cap0 Hi. unfold SymbolTable.intern in Hi.
    destruct (by_name (u_table u) !! name) as [i|].
    - apply bind_Some in Hi as (l & Hl%IndexVec.index_mut_length & [= <- <-]). simpl. lia.
    - apply bind_Some in Hi as ([l i] & Hl & [= <- <-]). apply IndexVec.push_Some in Hl as (-> & _ & ?).
      simpl. rewrite length_app. simpl. lia. }
  destruct (ensure_symbol_spec id (u_udm u)) as (m & Hm & Wm & Lm & Sm & Em);
    [done|lia|lia|].
  exists m. repeat (split; [done|]).
  split. { destruct (SymbolTableFacts.wf_name _ Wt _ _ Hname) as (s & ? & ?). eauto. }
  split.
  { intros sym s Hs Hb. destruct (Hback _ _ Hs) as [[Hs0 _]|(-> & _ & Hc)]; [right; eauto|].
    destruct Hc as [[_ <-]|(s0 & Hs0 & _ & Hf)]; [by left|]. rewrite Hf in Hb.
    apply SymbolFlags.contains_insert_bit in Hb as [?|?]; [right; eauto|by left]. }
  split; [done|]. split; [done|]. rewrite Lm. split; [lia|]. split; [lia|done].
Qed.

(** ** The invariant under the builder's operations *)

Lemma refs_ext d us m m' :
  refs d us m → (∀ s x, x ∈ definitions (st m' s) → x ∈ definitions (st m s)) →
  bindings_by_use m' = bindings_by_use m → lazy_defs m' = lazy_defs m → refs d us m'.
Proof.
  intros [H1 H2 H3] Hst Hu Hl. split.
  - intros sym x Hx. by apply H1, Hst.
  - rewrite Hu. done.
  - rewrite Hl. done.
Qed.

Lemma refs_app d d' us m : refs d us m → refs (d ++ d') us m.
Proof. intros [H1 H2 H3]. split; intros; apply row_app; eauto. Qed.

Lemma follows_app d d' m id sym : follows d m id sym → follows (d ++ d') m id sym.
Proof. intros (s & Hs & Hd & Hw). exists s. split; [done|]. split; [|done]. intros; apply row_app; auto. Qed.

Lemma follows_ext d m m' id sym :
  follows d m id sym → enclosing_snapshots m' = enclosing_snapshots m →
  lazy_watchers m' = lazy_watchers m → follows d m' id sym.
Proof.
  intros (s & Hs & Hd & Hw) He Hl. exists s. rewrite He. split; [done|]. split; [done|].
  intros sym'. unfold watchers_of. rewrite Hl. apply Hw.
Qed.

(** A recording operation: definition [x] is added for [sym]. *)
Definition records (record : nat → nat → UseDefMapBuilder → option UseDefMapBuilder) : Prop :=
  ∀ sym x m, wf m → sym < length (symbol_states m) →
  ∃ m', record sym x m = Some m' ∧ wf m' ∧
    length (symbol_states m') = length (symbol_states m) ∧
    (∀ s y, y ∈ definitions (st m' s) → y ∈ definitions (st m s) ∨ s = sym ∧ y = x) ∧
    bindings_by_use m' = bindings_by_use m ∧
    (∀ s l y, lazy_defs m' !! s = Some l → y ∈ l →
       (∃ l0, lazy_defs m !! s = Some l0 ∧ y ∈ l0) ∨ s = sym ∧ y = x) ∧
    lazy_watchers m' = lazy_watchers m ∧
    added (λ i y, i ∈ watchers_of m sym ∧ y = x) (enclosing_snapshots m) (enclosing_snapshots m').

Lemma records_definition : records Builder.record_definition.
Proof.
  intros sym x m Hwf Hs.
  destruct (record_definition_spec sym x m Hwf Hs) as (m' & Hr & W & L & S & U & Z & Wa & A).
  exists m'. repeat (split; [done|]). split; [|split; [done|split; [|done]]].
  - intros s y. rewrite S. case_decide; [|by left]. simpl. set_solver.
  - rewrite Z. eauto.
Qed.

Lemma records_super : records Builder.record_super_definition.
Proof.
  intros sym x m Hwf Hs.
  destruct (record_super_definition_spec sym x m Hwf Hs) as (m' & Hr & W & L & S & U & Z & Wa & A).
  exists m'. repeat (split; [done|]). split; [|split; [done|split; [|done]]].
  - intros s y Hy. apply S in Hy. tauto.
  - rewrite Z. eauto.
Qed.

Lemma records_lazy : records Builder.record_lazy_definition.
Proof.
  intros sym x m Hwf Hs. unfold Builder.record_lazy_definition.
  destruct (notify_builder m sym x Hwf) as (snaps & -> & Wsn & Hadd). simpl.
  eexists; split; [done|]. split; [|split; [done|split; [by left|split; [done|split; [|done]]]]].
  - destruct Hwf. split; simpl; try done.
    + intros s ids id Hids Hid. rewrite (proj1 Hadd). eauto.
    + intros s l. unfold Builder.entry_push. intros [[<- _]|[_ Hl]]%lookup_insert_Some; eauto.
  - simpl. unfold Builder.entry_push. intros s l y [[<- <-]|[Hne Hl]]%lookup_insert_Some Hy; [|eauto].
    apply elem_of_app in Hy as [Hy|Hy]; [|set_solver].
    destruct (lazy_defs m !! sym) as [l0|] eqn:E; [|by apply elem_of_nil in Hy]. left. eauto.
Qed.

Lemma follows_record d m m' id sym0 sym x :
  follows d m id sym0 → row d x sym →
  lazy_watchers m' = lazy_watchers m →
  added (λ i y, i ∈ watchers_of m sym ∧ y = x) (enclosing_snapshots m) (enclosing_snapshots m') →
  follows d m' id sym0.
Proof.
  intros (s & Hs & Hd & Hw) Hrow Hl [_ Hadd].
  destruct (Hadd _ _ Hs) as (s' & Hs' & _ & Hx). exists s'. split; [done|]. split.
  - intros y [Hy|[Hin ->]]%Hx; [auto|]. by rewrite <-(Hw _ Hin).
  - intros sym'. unfold watchers_of. rewrite Hl. apply Hw.
Qed.

(** [intern], [definitions.push], [ensure_symbol] and a recording operation. *)
Lemma record_unit u name flags kind range record t id d x :
  unit_wf u → records record →
  SymbolTable.intern name flags (u_table u) = Some (t, id) →
  IndexVec.push (u_defs u) (mkDefinition kind id range) = Some (d, x) →
  ∃ m m', Builder.ensure_symbol id (u_udm u) = Some m ∧ record id x m = Some m' ∧
    unit_wf (mkUnit t d (u_uses u) m') ∧ unit_grows u (mkUnit t d (u_uses u) m').
Proof.
  intros Hwf Hrec Hi (-> & -> & _)%IndexVec.push_Some.
  destruct (intern_unit u name flags t id Hwf Hi) as (m & He & Wt & Hby & Hlen & Hid &
    Hcap & Hnm & Hbound & Hnames & Wm & Hidm & Hst & Sm & Em).
  destruct Hwf.
  set (def := mkDefinition kind id range). set (d' := u_defs u ++ [def]).
  assert (Hrow : row d' (length (u_defs u)) id).
  { exists def. split; [|done]. unfold d'. by rewrite lookup_app_r, Nat.sub_diag. }
  destruct (Hrec id (length (u_defs u)) m Wm) as (m' & Hr & Wm' & Lm' & Sm' & Um' & Zm' & Wa & Ad);
    [lia|].
  exists m, m'. split; [done|]. split; [done|].
  assert (Hby' : bindings_by_use m' = bindings_by_use (u_udm u)) by (rewrite Um', Em; done).
  assert (Hlz : lazy_defs m = lazy_defs (u_udm u)) by (rewrite Em; done).
  split; split; simpl.
  - done.
  - done.
  - by rewrite Hby'.
  - lia.
  - done.
  - intros x dx [Hx|[_ Hx]]%lookup_app_Some; [specialize (uw_def_syms0 _ _ Hx); lia|].
    apply list_lookup_singleton_Some in Hx as [_ <-]. done.
  - intros k use Hu. specialize (uw_use_syms0 _ _ Hu). lia.
  - intros sym s Hs Hb. destruct (Hbound _ _ Hs Hb) as [[-> _]|(s0 & Hs0 & Hb0)]; [eauto|].
    destruct (uw_bound0 _ _ Hs0 Hb0) as [x Hx]. exists x. by apply row_app.
  - apply (refs_app _ [def]) in uw_refs0. fold d' in uw_refs0. destruct uw_refs0 as [R1 R2 R3]. split.
    + intros sym x [Hx|[-> ->]]%Sm'; [|done]. rewrite Sm in Hx. auto.
    + rewrite Hby'. done.
    + intros sym l x Hl Hx. destruct (Zm' _ _ _ Hl Hx) as [(l0 & Hl0 & Hx0)|[-> ->]]; [|done].
      rewrite Hlz in Hl0. eauto.
  - done.
  - by exists [def].
  - exists []. by rewrite app_nil_r.
  - lia.
  - intros i sym Hf. eapply follows_record; [|done|done|done].
    eapply follows_ext; [by apply follows_app|by rewrite Em|by rewrite Em].
Qed.

(** The marker row of a super-assignment: [intern] and [definitions.push]. *)
Lemma marker_unit u name flags kind range t id d x :
  unit_wf u → SymbolFlags.contains flags SymbolFlags.IS_BOUND = false →
  SymbolTable.intern name flags (u_table u) = Some (t, id) →
  IndexVec.push (u_defs u) (mkDefinition kind id range) = Some (d, x) →
  unit_wf (mkUnit t d (u_uses u) (u_udm u)) ∧ unit_grows u (mkUnit t d (u_uses u) (u_udm u)).
Proof.
  intros Hwf Hfl Hi (-> & -> & _)%IndexVec.push_Some.
  destruct (intern_unit u name flags t id Hwf Hi) as (m & He & Wt & Hby & Hlen & Hid &
    Hcap & Hnm & Hbound & Hnames & Wm & Hidm & Hst & Sm & Em).
  destruct Hwf.
  split; split; simpl; try done.
  - lia.
  - intros x dx [Hx|[_ Hx]]%lookup_app_Some; [specialize (uw_def_syms0 _ _ Hx); lia|].
    apply list_lookup_singleton_Some in Hx as [_ <-]. done.
  - intros sym s Hs Hb. destruct (Hbound _ _ Hs Hb) as [[-> Hc]|(s0 & Hs0 & Hb0)]; [congruence|].
    destruct (uw_bound0 _ _ Hs0 Hb0) as [x Hx]. exists x. by apply row_app.
  - by apply refs_app.
  - eauto.
  - exists []. by rewrite app_nil_r.
  - intros i sym Hf. by apply follows_app.
Qed.

(** [intern], [uses.push], [ensure_symbol] and [record_use]. *)
Lemma use_unit u name range t id us k :
  unit_wf u → SymbolTable.intern name SymbolFlags.IS_USED (u_table u) = Some (t, id) →
  IndexVec.push (u_uses u) (mkUse id range) = Some (us, k) →
  ∃ m m', Builder.ensure_symbol id (u_udm u) = Some m ∧
    Builder.record_use id k m = Some m' ∧
    id < length (symbol_states m') ∧ us !! k = Some (mkUse id range) ∧
    (∃ s, symbols t !! id = Some s ∧ symbol_name s = name) ∧
    unit_wf (mkUnit t (u_defs u) us m') ∧ unit_grows u (mkUnit t (u_defs u) us m').
Proof.
  intros Hwf Hi (-> & -> & Hfu)%IndexVec.push_Some.
  destruct (intern_unit u name SymbolFlags.IS_USED t id Hwf Hi) as (m & He & Wt & Hby &
    Hlen & Hid & Hcap & Hnm & Hbound & Hnames & Wm & Hidm & Hst & Sm & Em).
  destruct Hwf.
  assert (Hbm : bindings_by_use m = bindings_by_use (u_udm u)) by (rewrite Em; done).
  destruct (record_use_spec id (length (u_uses u)) m) as [Hr Wm']; [done|lia|by rewrite Hbm|done|].
  set (m' := Builder.set_bindings_by_use (bindings_by_use m ++ [st m id]) m) in *.
  exists m, m'. split; [done|]. split; [exact Hr|]. split; [simpl; lia|].
  split; [by rewrite lookup_app_r, Nat.sub_diag|]. split; [done|].
  split; split; simpl; try done.
  - rewrite !length_app, Hbm. simpl. lia.
  - lia.
  - intros x dx Hx. specialize (uw_def_syms0 _ _ Hx). lia.
  - intros k use [Hu|[_ Hu]]%lookup_app_Some; [specialize (uw_use_syms0 _ _ Hu); lia|].
    apply list_lookup_singleton_Some in Hu as [_ <-]. simpl. lia.
  - intros sym s Hs Hb. destruct (Hbound _ _ Hs Hb) as [[_ Hc]|(s0 & Hs0 & Hb0)]; [done|eauto].
  - destruct uw_refs0 as [R1 R2 R3]. split; simpl.
    + intros sym x Hx. change (st m' sym) with (st m sym) in Hx. rewrite Sm in Hx. auto.
    + intros k use bs x Hu Hbs Hx. rewrite Hbm in Hbs.
      apply lookup_app_Some in Hu as [Hu|[Hk Hu]].
      * rewrite lookup_app_l in Hbs by (rewrite uw_uses0; by eapply lookup_lt_Some). eauto.
      * apply list_lookup_singleton_Some in Hu as [Hk0 <-].
        rewrite lookup_app_r in Hbs by (rewrite uw_uses0; lia).
        apply list_lookup_singleton_Some in Hbs as [_ <-]. rewrite Sm in Hx. auto.
    + intros sym l x Hl. apply R3. rewrite Em in Hl. done.
  - exists []. by rewrite app_nil_r.
  - by exists [mkUse id range].
  - intros i sym Hf. eapply follows_ext; [exact Hf| |]; unfold m'; simpl; by rewrite Em.
Qed.

(** [intern] with no flags and [ensure_symbol]. *)
Lemma touch_unit u name t id :
  unit_wf u → SymbolTable.intern name SymbolFlags.empty (u_table u) = Some (t, id) →
  ∃ m, Builder.ensure_symbol id (u_udm u) = Some m ∧
    id < length (symbol_states m) ∧ (∃ s, symbols t !! id = Some s ∧ symbol_name s = name) ∧
    unit_wf (mkUnit t (u_defs u) (u_uses u) m) ∧
    unit_grows u (mkUnit t (u_defs u) (u_uses u) m).
Proof.
  intros Hwf Hi.
  destruct (intern_unit u name SymbolFlags.empty t id Hwf Hi) as (m & He & Wt & Hby &
    Hlen & Hid & Hcap & Hnm & Hbound & Hnames & Wm & Hidm & Hst & Sm & Em).
  destruct Hwf. exists m. split; [done|]. split; [lia|]. split; [done|].
  split; split; simpl; try done.
  - rewrite Em. done.
  - lia.
  - intros x dx Hx. specialize (uw_def_syms0 _ _ Hx). lia.
  - intros k use Hu. specialize (uw_use_syms0 _ _ Hu). lia.
  - intros sym s Hs Hb. destruct (Hbound _ _ Hs Hb) as [[_ Hc]|(s0 & Hs0 & Hb0)]; [done|eauto].
  - eapply refs_ext; [exact uw_refs0|by intros; rewrite <-Sm|by rewrite Em|by rewrite Em].
  - exists []. by rewrite app_nil_r.
  - exists []. by rewrite app_nil_r.
  - intros i sym Hf. eapply follows_ext; [exact Hf|by rewrite Em|by rewrite Em].
Qed.

(** ** Changes of the use-def map alone *)

Lemma udm_unit u m :
  unit_wf u → wf m →
  length (bindings_by_use m) = length (bindings_by_use (u_udm u)) →
  length (symbol_states m) = length (symbol_states (u_udm u)) →
  refs (u_defs u) (u_uses u) m →
  (∀ id sym, follows (u_defs u) (u_udm u) id sym → follows (u_defs u) m id sym) →
  unit_wf (set_udm m u) ∧ unit_grows u (set_udm m u).
Proof.
  intros [] Hm Hu Hs Hr Hf. split; split; simpl; try done.
  - by rewrite Hu.
  - by rewrite Hs.
  - by rewrite Hs.
  - eauto.
  - exists []. by rewrite app_nil_r.
  - exists []. by rewrite app_nil_r.
  - by rewrite Hs.
Qed.

(** Registering a snapshot for a nested scope. *)
Definition register (eager : bool) (sym : nat) m : option (UseDefMapBuilder * nat) :=
  if eager then Builder.register_eager_snapshot sym m
  else Builder.register_lazy_snapshot sym m.

(** What registering stores: the live definitions, and for a lazy scope those
    of lazy owners. *)
Lemma register_spec eager sym m :
  wf m → sym < length (symbol_states m) →
  ∃ bs, Bindings.wf bs ∧
    (∀ x, x ∈ definitions bs → x ∈ definitions (st m sym) ∨
       ∃ l, lazy_defs m !! sym = Some l ∧ x ∈ l) ∧
    register eager sym m =
      ('(snaps, id) ← IndexVec.push (enclosing_snapshots m) bs;
       Some (if eager then Builder.set_enclosing_snapshots snaps m
             else mkBuilder (symbol_states m) (bindings_by_use m) (lazy_defs m) snaps
                    (Builder.entry_push sym id (lazy_watchers m)), id)).
Proof.
  intros Hwf Hs. pose proof (st_wf m sym Hwf) as Hst. unfold register.
  apply lookup_lt_is_Some in Hs as [bs Hbs].
  assert (Hm : st m sym = bs) by (unfold st; by rewrite Hbs). rewrite Hm in Hst.
  destruct eager; unfold Builder.register_eager_snapshot, Builder.register_lazy_snapshot,
    IndexVec.index; rewrite Hbs; simpl.
  - exists bs. rewrite Hm. auto.
  - destruct (lazy_defs m !! sym) as [l|].
    + destruct (fold_add_definition l bs Hst) as (bs' & -> & W & _ & X). exists bs'. simpl.
      rewrite Hm. split; [done|]. split; [|done]. intros x [Hx|Hx]%X; eauto.
    + exists bs. rewrite Hm. auto.
Qed.

Lemma register_unit eager u sym m id :
  unit_wf u → sym < length (symbol_states (u_udm u)) →
  register eager sym (u_udm u) = Some (m, id) →
  unit_wf (set_udm m u) ∧ unit_grows u (set_udm m u) ∧ follows (u_defs u) m id sym.
Proof.
  intros Hu Hs Hr. pose proof (uw_udm _ Hu) as Hm. pose proof (uw_refs _ Hu) as [R1 R2 R3].
  destruct (register_spec eager sym (u_udm u) Hm Hs) as (bs & Wbs & Hx & Heq).
  rewrite Hr in Heq. symmetry in Heq. apply bind_Some in Heq as ([snaps i] & Hp & Heq).
  apply IndexVec.push_Some in Hp as (-> & -> & _).
  assert (Hrow : ∀ x, x ∈ definitions bs → row (u_defs u) x sym)
    by (intros x [?|(l & ? & ?)]%Hx; eauto).
  assert (Hin : ∀ s i, i ∈ watchers_of (u_udm u) s → i < length (enclosing_snapshots (u_udm u))).
  { unfold watchers_of. intros s i. destruct (_ !! s) eqn:E; simpl; [by eapply wf_watchers|].
    by intros ?%not_elem_of_nil. }
  assert (Hw : ∀ s i, i ∈ watchers_of m s → i ∈ watchers_of (u_udm u) s ∨
    s = sym ∧ i = length (enclosing_snapshots (u_udm u))).
  { intros s i. destruct eager; injection Heq as <- _; [by left|].
    unfold watchers_of at 1. simpl. by rewrite watchers_entry_push. }
  assert (Hen : enclosing_snapshots m = enclosing_snapshots (u_udm u) ++ [bs] ∧
    symbol_states m = symbol_states (u_udm u) ∧ bindings_by_use m = bindings_by_use (u_udm u) ∧
    lazy_defs m = lazy_defs (u_udm u) ∧ id = length (enclosing_snapshots (u_udm u)))
    by (destruct eager; injection Heq as <- <-; done).
  destruct Hen as (He & Hst & Hb & Hl & ->).
  assert (Hwf : wf m).
  { destruct Hm. split; rewrite ?He, ?Hst, ?Hb, ?Hl; try done.
    - apply Forall_app. by repeat constructor.
    - intros s ids i Hids Hi. rewrite length_app. simpl.
      destruct (Hw s i) as [Hold|[_ ->]]; [unfold watchers_of; by rewrite Hids| |lia].
      specialize (Hin _ _ Hold). lia. }
  cut ((unit_wf (set_udm m u) ∧ unit_grows u (set_udm m u)) ∧
    follows (u_defs u) m (length (enclosing_snapshots (u_udm u))) sym); [tauto|]. split.
  - apply udm_unit; [done|done|by rewrite Hb|by rewrite Hst| |].
    + eapply refs_ext; [by apply uw_refs| |done|done]. intros s x. unfold st. by rewrite Hst.
    + intros i s (bs' & Hbs' & Hd & Hwt). exists bs'. rewrite He.
      split; [by apply lookup_app_l_Some|]. split; [done|].
      intros s' [Hs'|[_ ->]]%Hw; [auto|]. apply lookup_lt_Some in Hbs'. lia.
  - exists bs. rewrite He. split; [by rewrite lookup_app_r, Nat.sub_diag|]. split; [done|].
    intros s' [Hs'%Hin|[-> _]]%Hw; [lia|done].
Qed.

Lemma register_None eager u sym :
  unit_wf u → sym < length (symbol_states (u_udm u)) →
  register eager sym (u_udm u) = None → unit_full u.
Proof.
  intros Hu Hs Hr. pose proof (uw_udm _ Hu) as Hm.
  destruct (register_spec eager sym (u_udm u) Hm Hs) as (bs & _ & _ & Heq).
  rewrite Hr in Heq. do 3 right. apply N.nle_gt. intros Hle.
  by rewrite IndexVec.push_total in Heq.
Qed.

(** ** Flow snapshots *)

Definition snap_ok u (snap : FlowSnapshot) : Prop :=
  snap_of snap (u_udm u) ∧
  ∀ s x, x ∈ definitions (snap_st snap s) → row (u_defs u) x s.

Lemma snap_ok_grows u u' snap : unit_grows u u' → snap_ok u snap → snap_ok u' snap.
Proof.
  intros [_ [l Hd] _ Hs _] [[Hw Hl] Hr]. split; [split; [done|lia]|].
  intros s x Hx. rewrite Hd. apply row_app; auto.
Qed.

Lemma snapshot_unit u : unit_wf u → snap_ok u (Builder.snapshot (u_udm u)).
Proof.
  intros Hu. destruct (snapshot_spec (u_udm u) (uw_udm _ Hu)) as [Ho Hs].
  split; [done|]. intros s x. rewrite Hs. apply Hu.
Qed.

Lemma restore_unit u snap :
  unit_wf u → snap_ok u snap →
  ∃ m, Builder.restore snap (u_udm u) = Some m ∧
    unit_wf (set_udm m u) ∧ unit_grows u (set_udm m u).
Proof.
  intros Hu [Ho Hr]. pose proof (uw_states _ Hu). pose proof (uw_cap _ Hu).
  destruct (restore_spec snap (u_udm u)) as (m & Hm & W & L & S & E); [apply Hu|done|lia|].
  exists m. split; [done|]. apply udm_unit; [done|done|by rewrite E|done| |].
  - destruct (uw_refs _ Hu) as [R1 R2 R3]. split.
    + intros s x. rewrite S. auto.
    + rewrite E. done.
    + rewrite E. done.
  - intros i s Hf. eapply follows_ext; [exact Hf|by rewrite E|by rewrite E].
Qed.

Lemma merge_unit `{MergeJoinBy} u snap :
  unit_wf u → snap_ok u snap →
  unit_wf (set_udm (Builder.merge snap (u_udm u)) u) ∧
  unit_grows u (set_udm (Builder.merge snap (u_udm u)) u).
Proof.
  intros Hu [Ho Hr]. destruct (merge_spec snap (u_udm u) (uw_udm _ Hu) Ho) as (W & L & S).
  apply udm_unit; [done|done|done|done| |].
  - destruct (uw_refs _ Hu) as [R1 R2 R3]. split; [|done|done].
    intros s x Hx. apply S in Hx as [?|?]; auto.
  - intros i s Hf. by eapply follows_ext.
Qed.

Lemma finish_loop_unit u snap first_use :
  unit_wf u → snap_ok u snap →
  ∃ m, Builder.finish_loop_defs snap first_use (u_uses u) (u_udm u) = Some m ∧
    unit_wf (set_udm m u) ∧ unit_grows u (set_udm m u).
Proof.
  intros Hu [Ho Hr].
  destruct (finish_loop_defs_spec (u_uses u) snap first_use (u_udm u))
    as (l & Hl & Wl & [Ll Al]); [apply Hu..|].
  eexists; split; [done|]. pose proof (uw_refs _ Hu) as [R1 R2 R3].
  apply udm_unit; [done| |done|done| |by intros].
  - destruct (uw_udm _ Hu). by split.
  - split; [done| |done]. simpl. intros k use bs x Hk Hbs Hx.
    assert (∃ bs0, bindings_by_use (u_udm u) !! k = Some bs0) as [bs0 Hbs0].
    { apply lookup_lt_is_Some_2. rewrite <-Ll. by eapply lookup_lt_Some. }
    pose proof (Al k bs0 Hbs0) as HA. clear Al. destruct HA as (bs1 & Hbs1 & _ & Hx1). simplify_eq.
    destruct (proj1 (Hx1 x) Hx) as [Hold|(_ & u0 & Hu0 & Hnew & _)]; [eauto|]. simplify_eq. auto.
Qed.
End unit.
