(* ===== verification/Scan.v ===== *)
(** * The scan pass: [crates/oak_semantic/src/builder/scan.rs], with
    [resolve_effects] and [resolve_operator_assign] of [builder/effects.rs]

    The functions of the pass take the recursive calls as arguments; the knot
    is tied at the end by [scan_expression] and [scan_deferred_bodies], mutually
    recursive on fuel. *)

From S2P Require Export BuilderOps.

(** [debug_panic!] panics in debug builds and only logs in the others. *)
Definition debug_panic `{BuildProfile} {St} : M St () :=
  if debug_assertions then panic else mret ().

Section scan.
Context `{TextRanges, Urls, !HandlerTypes, !Handlers, !ImportsResolver, BuildProfile}.

#[local] Abbreviation B := SemanticIndexBuilder.

(** ** Small steps *)

Definition on_scan (f : ScanState → ScanState) : M B () := modify (upd_scan f).

Definition record_ambiguity (name : string) (call_range : TextRange) (reason : AmbiguityReason)
    : M B () :=
  modify (push_diagnostic (AmbiguousCalleeResolution name call_range reason)).

Definition record_call_ambiguity (call : expr) (reason : AmbiguityReason) : M B () :=
  match call with
  | RCall (Some (RIdentifier name _)) _ range => record_ambiguity name range reason
  | _ => mret ()
  end.

Definition record_callee_imports (callee_imports : list CalleeImport) : M B () :=
  for_each callee_imports (λ import,
    if_some (ci_ambiguity import) (record_ambiguity (ci_name import) (ci_call_range import));;
    modify (push_callee_dependency
              (mkCalleeDependency (ci_name import) (ci_call_range import) UsageValue))).

(** [handlers.x.and_then(|handler| handler.resolve(..))]. *)
Definition opt_handler {K A} (o : option K) (resolve : K → Handler A) : Handler A :=
  λ ctx imports, match o with Some h => resolve h ctx imports | None => (None, imports) end.

Definition resolve_effects (call : expr) : M B (option Effects) :=
  resolution ← try_get (λ b, resolve_callee b call);
  if_some (ambiguity resolution has_effects) (record_call_ambiguity call);;
  match cr_handlers resolution with
  | None => mret None
  | Some fh =>
      let handlers := fh_effects fh in
      ctx ← gets scan_bindings;
      let '(arguments, imports) :=
        opt_handler (h_arguments handlers) (λ h, resolve_arguments h call) ctx [] in
      let '(attach, imports) :=
        opt_handler (h_attach handlers) (λ h, resolve_attach h call) ctx imports in
      let '(source, imports) :=
        opt_handler (h_source handlers) (λ h, resolve_source_paths h call) ctx imports in
      let '(assign, imports) :=
        opt_handler (h_assign handlers) (λ h, resolve_assign h (SiteCall call)) ctx imports in
      record_callee_imports imports;;
      mret (Some (mkEffects arguments attach source assign))
  end.

Definition resolve_operator_assign (bin : expr) : M B (option (list AssignBinding)) :=
  match bin with
  | RBinaryExpression (Some op) _ _ range =>
      if negb (bool_decide (kind op = SPECIAL ∨ kind op = WALRUS)) then mret None
      else if negb (annotates (text_trimmed op)) then mret None
      else
        resolution ← try_get (λ b, resolve_symbol b (text_trimmed op));
        if_some (ambiguity resolution has_effects) (record_ambiguity (text_trimmed op) range);;
        match cr_handlers resolution ≫= λ fh, h_assign (fh_effects fh) with
        | None => mret None
        | Some assign =>
            ctx ← gets scan_bindings;
            let '(assigned, imports) := resolve_assign assign (SiteOperator bin) ctx [] in
            record_callee_imports imports;;
            mret assigned
        end
  | _ => mret None
  end.

(** [call_resolutions.entry(range).or_default()]. *)
Definition upd_resolution (range : TextRange) (f : CallResolution → CallResolution) : M B () :=
  on_scan (λ s, set_call_resolutions
    (<[range := f (default CallResolution_default (call_resolutions s !! range))]>
       (call_resolutions s)) s).

Definition set_cres_arguments (a : ResolvedArgumentEffects) (c : CallResolution) :=
  mkCallResolution (Some a) (cres_attach c) (cres_source c) (cres_assign c).
Definition set_cres_attach (p : string) (c : CallResolution) :=
  mkCallResolution (cres_arguments c) (Some p) (cres_source c) (cres_assign c).
Definition extend_cres_source (l : list SourcedFile) (c : CallResolution) :=
  mkCallResolution (cres_arguments c) (cres_attach c) (cres_source c ++ l) (cres_assign c).
Definition push_cres_assign (a : AssignBinding) (c : CallResolution) :=
  mkCallResolution (cres_arguments c) (cres_attach c) (cres_source c) (cres_assign c ++ [a]).

(** ** Bindings and flow *)

(** The innermost frame that owns its bindings, frames innermost first. *)
Fixpoint add_to_frames (name : string) (range : TextRange) (frames : list OpenScope)
    : option (list OpenScope) :=
  match frames with
  | [] => None
  | frame :: frames =>
      if ScopeKind.owns_bindings (os_kind frame) then
        Some (mkOpenScope (os_kind frame) (BindingSites.add name range (os_bindings frame)) :: frames)
      else cons frame <$> add_to_frames name range frames
  end.

Definition record_binding (name : string) (range : TextRange) : M B () :=
  on_scan (λ s, set_bound_so_far (FlowState.bind name (bound_so_far s)) s);;
  try_update (λ b,
    match add_to_frames name range (reverse (open_scopes (scan b))) with
    | Some frames => Some ((), upd_scan (set_open_scopes (reverse frames)) b)
    | None =>
        sites ← IndexVec.index_mut (bound_anywhere (scan b)) (current_scope b)
                  (λ sites, Some (BindingSites.add name range sites));
        Some ((), upd_scan (set_bound_anywhere sites) b)
    end).

(** [attach_search_path(..).into_owned()] of the current state. *)
Definition record_enclosing_flow (range : TextRange) : M B () :=
  modify (λ b, upd_scan (λ s, set_body_scans
    (<[range := Deferred (FlowState.snapshot (bound_so_far s)) (search_path b)]> (body_scans s)) s) b).

Definition begin_scan : M B () :=
  s ← try_get the_scope;
  body ← gets (λ b, body_scans (scan b) !! scope_range s);
  match body with
  | None =>
      on_scan (λ s, set_attached_inherited [] (set_bound_so_far (FlowState.clear (bound_so_far s)) s))
  | Some (Deferred bound inherited) =>
      on_scan (λ s, set_attached_inherited inherited
                      (set_bound_so_far (FlowState.restore bound (bound_so_far s)) s))
  | Some (Scanned _) =>
      debug_panic;;
      on_scan (λ s, set_attached_inherited [] (set_bound_so_far (FlowState.clear (bound_so_far s)) s))
  end;;
  table ← try_get (λ b, IndexVec.index (symbol_tables (walk b)) (current_scope b));
  for_each (SymbolTable.iter table) (λ '(_, symbol),
    when (SymbolFlags.contains (symbol_flags symbol) SymbolFlags.IS_BOUND)
      (on_scan (λ s, set_bound_so_far (FlowState.bind (symbol_name symbol) (bound_so_far s)) s))).

Definition scan_super_binding_package (name : string) (range : TextRange) : M B () :=
  attached ← gets search_path;
  if_some (binding_package name attached) (λ package,
    on_scan (λ s, set_super_binding_packages (<[range := package]> (super_binding_packages s)) s)).

(** ** Attaches at joins *)

Definition split_off_attaches (watermark : nat) : M B (list AttachSite) :=
  try_update (λ b,
    '(attaches, sites) ← FlowAttaches.split_off watermark (attached_so_far (scan b));
    Some (sites, upd_scan (set_attached_so_far attaches) b)).

Definition search_order (sites : list AttachSite) (packages : gset string) : list string :=
  foldl (λ order site,
    if decide (site_package site ∈ packages)
    then filter (λ kept, kept ≠ site_package site) order ++ [site_package site]
    else order) [] sites.

Definition record_attach_order_ambiguity (consequence rejoined : list AttachSite)
    (range : TextRange) : M B () :=
  if decide (length rejoined < 2) then mret ()
  else
    let packages : gset string := list_to_set (site_package <$> rejoined) in
    let kept := search_order rejoined packages in
    if decide (search_order consequence packages = kept) then mret ()
    else modify (push_diagnostic (AmbiguousAttachOrder kept range)).

Definition end_attach_effects (sites : list AttachSite) (end_ : option N) : M B () :=
  if_some end_ (λ end_,
    for_each sites (λ site,
      on_scan (λ s, set_attach_effect_ends
        (<[site_offset site :=
             default [] (attach_effect_ends s !! site_offset site) ++ [(site_package site, end_)]]>
           (attach_effect_ends s)) s))).

Definition push_attach (package : string) (offset : N) : M B () :=
  on_scan (λ s, set_attached_so_far (FlowAttaches.push package offset (attached_so_far s)) s).

Definition join_attaches (consequence : list AttachSite) (consequence_end : option N)
    (alternative : list AttachSite) (alternative_end : option N) (range : TextRange) : M B () :=
  let attached_in_consequence site :=
    existsb (λ other, bool_decide (site_package other = site_package site)) consequence in
  let '(rejoined, dropped) := List.partition attached_in_consequence alternative in
  record_attach_order_ambiguity consequence rejoined range;;
  end_attach_effects consequence consequence_end;;
  end_attach_effects dropped alternative_end;;
  for_each rejoined (λ site, push_attach (site_package site) (site_offset site)).

(** ** Sourced files *)

Definition record_source_resolution (resolution : SourceResolution) (source_range : TextRange)
    : M B () :=
  for_each (sr_names resolution) (λ name, record_binding name source_range);;
  s ← try_get the_scope;
  when (negb (ScopeKind.is_lazy (scope_kind s)))
    (for_each (sr_packages resolution) (λ pkg,
      on_scan (push_attached_anywhere (pkg, source_range));;
      push_attach pkg (range_start source_range))).

Definition source_resolutions (sourced : SourcePath) : list SourceResolution :=
  match sp_target sourced with
  | TFile => option_list (resolve_source (sp_path sourced))
  | TDir walk => resolve_source_dir (sp_path sourced) walk
  | TFileOrDir walk =>
      match resolve_source (sp_path sourced) with
      | Some resolution => [resolution]
      | None => resolve_source_dir (sp_path sourced) walk
      end
  end.

Definition scan_source_call (sourced : SourcePath) (source_range : TextRange)
    : M B (list SourceResolution) :=
  let resolutions := source_resolutions sourced in
  for_each resolutions (λ resolution, record_source_resolution resolution source_range);;
  mret resolutions.

(** ** Ambiguous scope shapes *)

Definition creates_scope (effect : option ResolvedArgumentEffect) : bool :=
  match effect with
  | Some (REvalQ env timing) =>
      negb (bool_decide (env = EnvCurrent ∧ timing = Eager))
  | _ => false
  end.

Definition record_conditional_shadow_ambiguity (call : expr)
    (arg_effects : ResolvedArgumentEffects) : M B () :=
  if negb (existsb creates_scope arg_effects) then mret ()
  else match call with
       | RCall (Some (RIdentifier name _)) _ call_range =>
           found ← try_get (λ b, scan_scope_binding_range b name);
           if_some found (λ binding_range,
             bound ← gets (λ b, FlowState.is_bound (bound_so_far (scan b)) name);
             when (negb bound)
               (record_ambiguity name call_range (ConditionalShadow binding_range)))
       | _ => mret ()
       end.

Definition record_uninstalled_package (package : string) (call_range : TextRange) : M B () :=
  modify (push_diagnostic (UninstalledPackage package call_range)).

Definition scan_operator_assign (bin : expr) : M B () :=
  bindings ← resolve_operator_assign bin;
  if_some bindings (λ bindings,
    for_each bindings (λ binding,
      record_binding (ab_name binding) (range_of bin);;
      upd_resolution (range_of bin) (push_cres_assign binding))).

(** ** Traversal, given the recursive calls *)

Section recursion.
Context (scan_expression : expr → M B ()) (scan_deferred_bodies : nat → M B ()).

Definition scan_expression_list (l : list expr) : M B () := for_each l scan_expression.

(** The descendants of the syntax view, in preorder. *)
Definition scan_descendants (descendants : list expr) : M B () := for_each descendants scan_expression.

Definition scan_conditional (region : option expr) : M B (option N) :=
  match region with
  | None => mret None
  | Some region => scan_expression region;; mret (Some (range_end (range_of region)))
  end.

Definition scan_branch (consequence alternative : option expr) (range : TextRange) : M B () :=
  pre ← gets (λ b, FlowState.snapshot (bound_so_far (scan b)));
  attach_watermark ← gets (λ b, FlowAttaches.len (attached_so_far (scan b)));
  consequence_end ← scan_conditional consequence;
  post ← gets (λ b, FlowState.snapshot (bound_so_far (scan b)));
  consequence_attaches ← split_off_attaches attach_watermark;
  on_scan (λ s, set_bound_so_far (FlowState.restore pre (bound_so_far s)) s);;
  alternative_end ← scan_conditional alternative;
  on_scan (λ s, set_bound_so_far (FlowState.merge post (bound_so_far s)) s);;
  alternative_attaches ← split_off_attaches attach_watermark;
  join_attaches consequence_attaches consequence_end alternative_attaches alternative_end range.

Definition scan_loop_body (body : option expr) : M B () :=
  attach_watermark ← gets (λ b, FlowAttaches.len (attached_so_far (scan b)));
  pre_body ← gets (λ b, FlowState.snapshot (bound_so_far (scan b)));
  body_end ← scan_conditional body;
  on_scan (λ s, set_bound_so_far (FlowState.merge pre_body (bound_so_far s)) s);;
  dropped ← split_off_attaches attach_watermark;
  end_attach_effects dropped body_end.

(** [for item in args.items().iter()] over the values of the arguments. *)
Definition scan_plain_arguments (items : list (option (RArgument expr))) : M B () :=
  for_each items (λ item, if_some (item ≫= arg_value) scan_expression).

Definition push_open_scope (kind : ScopeKind) : M B () :=
  on_scan (λ s, set_open_scopes (open_scopes s ++ [mkOpenScope kind BindingSites.new]) s).

(** [self.scan.open_scopes.pop()]. *)
Definition pop_open_scope : M B (option OpenScope) :=
  try_update (λ b,
    match reverse (open_scopes (scan b)) with
    | [] => Some (None, b)
    | scope :: rest => Some (Some scope, upd_scan (set_open_scopes (reverse rest)) b)
    end).

(** The [Nested + Eager] arm. *)
Definition scan_nested_eager (value : expr) : M B () :=
  old ← gets (λ b, FlowState.snapshot (bound_so_far (scan b)));
  watermark ← gets (λ b, length (deferred_bodies (scan b)));
  push_open_scope (KNse EnvNested Eager);;
  scan_expression value;;
  scan_deferred_bodies watermark;;
  scope ← pop_open_scope;
  if_some scope (λ scope,
    on_scan (λ s, set_body_scans (<[range_of value := Scanned (os_bindings scope)]> (body_scans s)) s));;
  on_scan (λ s, set_bound_so_far (FlowState.restore old (bound_so_far s)) s).

Definition scan_argument (effect : option ResolvedArgumentEffect) (value : expr) : M B () :=
  match effect with
  | None => scan_expression value
  | Some (RQuote holes) => for_each holes scan_expression
  | Some (REvalQ EnvCurrent Eager) => scan_expression value
  | Some (REvalQ EnvCurrent Lazy) =>
      modify (λ b, upd_scan (λ s, set_deferred_bodies (deferred_bodies s ++
        [mkDeferredBody value (FlowState.snapshot (bound_so_far s)) (search_path b)]) s) b)
  | Some (REvalQ EnvNested Eager) => scan_nested_eager value
  | Some (REvalQ EnvNested Lazy) => record_enclosing_flow (range_of value)
  end.

Definition scan_call_arguments (call : expr) (arg_effects : option ResolvedArgumentEffects)
    : M B () :=
  match arg_effects with
  | None => if_some (call_arguments call) scan_plain_arguments
  | Some arg_effects =>
      record_conditional_shadow_ambiguity call arg_effects;;
      if_some (call_arguments call) (λ items,
        for_each_i 0 items (λ i item,
          if_some (item ≫= arg_value) (λ value,
            effect ← try_get (λ _, arg_effects !! i);
            scan_argument effect value));;
        upd_resolution (range_of call) (set_cres_arguments arg_effects))
  end.

(** The [source] part of [scan_call]. *)
Definition scan_sources (range : TextRange) (paths : list SourcePath) : M B () :=
  for_each paths (λ sourced,
    resolutions ← scan_source_call sourced range;
    upd_resolution range (extend_cres_source
      match resolutions with
      | [] => [mkSourcedFile (sp_path sourced) None]
      | _ => (λ r, mkSourcedFile (sp_path sourced) (Some r)) <$> resolutions
      end)).

(** The [attach] part of [scan_call]. *)
Definition scan_attach (call_range : TextRange) (package : string) : M B () :=
  when (negb (package_exists package)) (record_uninstalled_package package call_range);;
  upd_resolution call_range (set_cres_attach package);;
  s ← try_get the_scope;
  when (negb (ScopeKind.is_lazy (scope_kind s)))
    (on_scan (push_attached_anywhere (package, call_range)));;
  push_attach package (range_start call_range).

Definition scan_call (call : expr) : M B () :=
  effects ← resolve_effects call;
  let effects := default (mkEffects None None None None) effects in
  let range := range_of call in
  scan_call_arguments call (eff_arguments effects);;
  if_some (eff_attach effects) (scan_attach range);;
  if_some (eff_source effects) (scan_sources range);;
  if_some (eff_assign effects) (λ bindings,
    for_each bindings (λ binding,
      record_binding (ab_name binding) range;;
      upd_resolution range (push_cres_assign binding))).

Definition param_text (name : param_name) : string * TextRange :=
  match name with
  | PIdentifier name range => (name, range)
  | PDots range => ("..."%string, range)
  | PDotDotI text range => (text, range)
  end.

Definition scan_parameter_defaults (items : list (option (RParameter expr))) : M B () :=
  for_each items (λ param,
    if_some (param ≫= par_name) (λ name,
      let '(text, range) := param_text name in record_binding text range));;
  for_each items (λ param,
    if_some (param ≫= par_default) (λ default, if_some default scan_expression)).

(** The assignment arm of [scan_expression]. *)
Definition scan_assignment (operator : option token) (lhs rhs : option expr) : M B () :=
  let right := is_right_assignment operator in
  if_some (if right then lhs else rhs) scan_expression;;
  if_some (if right then rhs else lhs) (λ target,
    match assignment_name target with
    | Some (name, range) =>
        if is_super_assignment operator then scan_super_binding_package name range
        else record_binding name range
    | None => scan_expression target
    end).

(** One body of the deferred queue. *)
Definition scan_deferred_body (d : DeferredBody) : M B () :=
  old ← gets (λ b, FlowState.snapshot (bound_so_far (scan b)));
  old_attached ← gets (λ b, attached_inherited (scan b));
  on_scan (λ s, set_bound_so_far (FlowState.restore (db_bound_so_far d) (bound_so_far s))
                  (set_attached_inherited (db_attached_inherited d) s));;
  push_open_scope (KNse EnvCurrent Lazy);;
  scan_expression (db_body d);;
  _ ← pop_open_scope;
  on_scan (λ s, set_attached_inherited old_attached
                  (set_bound_so_far (FlowState.restore old (bound_so_far s)) s)).

(** [self.scan.deferred_bodies.split_off(watermark)]. *)
Definition split_off_deferred (watermark : nat) : M B (list DeferredBody) :=
  try_update (λ b,
    '(kept, batch) ← FlowAttaches.vec_split_off watermark (deferred_bodies (scan b));
    Some (batch, upd_scan (set_deferred_bodies kept) b)).

(** One level of [scan_expression]. *)
Definition scan_expression_step (e : expr) : M B () :=
  match e with
  | RFunctionDefinition _ _ range => record_enclosing_flow range
  | RBracedExpressions l _ => scan_expression_list l
  | RBinaryExpression operator lhs rhs _ =>
      if is_assignment operator then scan_assignment operator lhs rhs
      else if_some lhs scan_expression;; if_some rhs scan_expression;; scan_operator_assign e
  | RCall function _ _ => if_some function scan_expression;; scan_call e
  | RForStatement variable sequence body _ =>
      if_some variable (λ '(name, range), record_binding name range);;
      if_some sequence scan_expression;;
      scan_loop_body body
  | RIfStatement condition consequence alternative range =>
      if_some condition scan_expression;;
      scan_branch consequence alternative range
  | RWhileStatement condition body _ =>
      if_some condition scan_expression;;
      scan_loop_body body
  | RIdentifier _ _ | RDots _ | RDotDotI _ _ | RStringValue _ _ | RNullExpression _
  | RTrueExpression _ | RFalseExpression _ => scan_descendants []
  | RSubset _ _ descendants _ | RExtractExpression _ descendants _
  | RNamespaceExpression _ _ _ descendants _ | RRepeatStatement _ descendants _
  | RBogusExpression descendants _ | ROther descendants _ => scan_descendants descendants
  end.
End recursion.

(** ** The pass *)

Fixpoint scan_expression (fuel : nat) (e : expr) {struct fuel} : M B () :=
  match fuel with
  | 0 => out_of_fuel
  | S fuel => scan_expression_step (scan_expression fuel) (scan_deferred_bodies fuel) e
  end
with scan_deferred_bodies (fuel : nat) (watermark : nat) {struct fuel} : M B () :=
  match fuel with
  | 0 => out_of_fuel
  | S fuel =>
      batch ← split_off_deferred watermark;
      match batch with
      | [] => mret ()
      | _ =>
          for_each batch (scan_deferred_body (scan_expression fuel));;
          scan_deferred_bodies fuel watermark
      end
  end.
End scan.
