(* ===== verification/BuilderInv.v ===== *)
(** * The invariant of the index builder

    [SemanticIndexBuilder] keeps five vectors in lockstep, a scope tree under
    construction and three tables that refer into them. [bwf] collects what
    holds between any two statements of the walk; [step] is what the walk never
    takes back, so that an index handed out stays valid. [arena_full] is the one
    reason for a panic: an arena with no index left. *)

From S2P Require Export BuilderOps ScopeUnit.

(** Goals that follow from a record of facts by evaluation. *)
Ltac frame := repeat split; simpl; auto; try done.

Section inv.
Context `{TextRanges, Urls, !HandlerTypes}.
Context (program : list expr).
Implicit Types (b : SemanticIndexBuilder) (u : scope_unit) (open : list nat).

(** ** The arenas, scope by scope *)

Definition unit_at b (i : nat) : option scope_unit :=
  t ← symbol_tables (walk b) !! i;
  d ← wk_definitions (walk b) !! i;
  us ← uses (walk b) !! i;
  m ← use_def_maps (walk b) !! i;
  Some (mkUnit t d us m).

Lemma unit_at_Some b i u :
  unit_at b i = Some u ↔
  symbol_tables (walk b) !! i = Some (u_table u) ∧ wk_definitions (walk b) !! i = Some (u_defs u) ∧
  uses (walk b) !! i = Some (u_uses u) ∧ use_def_maps (walk b) !! i = Some (u_udm u).
Proof.
  unfold unit_at. split.
  - intros (t & Ht & Hu)%bind_Some. apply bind_Some in Hu as (d & Hd & Hu).
    apply bind_Some in Hu as (us & Hus & Hu). apply bind_Some in Hu as (m & Hm & [= <-]). done.
  - intros (-> & -> & -> & ->). simpl. by destruct u.
Qed.

Record arenas_wf open b : Prop := {
  aw_preorder : ScopeTree.preorder (scopes b) open;
  aw_chain : chain (scopes b) (Some (current_scope b)) open;
  aw_cap : (N.of_nat (length (scopes b)) ≤ IndexVec.MAX)%N;
  aw_tables : length (symbol_tables (walk b)) = length (scopes b);
  aw_defs : length (wk_definitions (walk b)) = length (scopes b);
  aw_uses : length (uses (walk b)) = length (scopes b);
  aw_udms : length (use_def_maps (walk b)) = length (scopes b);
  aw_bound : length (bound_anywhere (scan b)) = length (scopes b);
  aw_units : ∀ i u, unit_at b i = Some u → unit_wf u;
}.

Lemma unit_at_total open b i :
  arenas_wf open b → i < length (scopes b) → ∃ u, unit_at b i = Some u ∧ unit_wf u.
Proof.
  intros Hb Hi.
  destruct (lookup_lt_is_Some_2 (symbol_tables (walk b)) i) as [t Ht]; [by rewrite (aw_tables _ _ Hb)|].
  destruct (lookup_lt_is_Some_2 (wk_definitions (walk b)) i) as [d Hd]; [by rewrite (aw_defs _ _ Hb)|].
  destruct (lookup_lt_is_Some_2 (uses (walk b)) i) as [us Hus]; [by rewrite (aw_uses _ _ Hb)|].
  destruct (lookup_lt_is_Some_2 (use_def_maps (walk b)) i) as [m Hm]; [by rewrite (aw_udms _ _ Hb)|].
  exists (mkUnit t d us m). assert (Hu : unit_at b i = Some (mkUnit t d us m)) by by apply unit_at_Some.
  split; [done|]. by eapply aw_units.
Qed.

Lemma unit_at_lt open b i u : arenas_wf open b → unit_at b i = Some u → i < length (scopes b).
Proof. intros Hb (Ht & _)%unit_at_Some. rewrite <-(aw_tables _ _ Hb). by eapply lookup_lt_Some. Qed.

(** The current scope is the innermost open one. *)
Lemma current_open open b :
  arenas_wf open b →
  current_scope b < length (scopes b) ∧ ∃ rest, open = current_scope b :: rest.
Proof.
  intros Hb. pose proof (aw_chain _ _ Hb) as Hc. inversion Hc as [|? s l Hs Hcl]; subst.
  split; [by eapply lookup_lt_Some|eauto].
Qed.

(** ** Names across scopes *)

Definition name_at b (i sym : nat) (name : string) : Prop :=
  ∃ u s, unit_at b i = Some u ∧ symbols (u_table u) !! sym = Some s ∧ symbol_name s = name.

Definition use_named b (i k : nat) (name : string) : Prop :=
  ∃ u use, unit_at b i = Some u ∧ u_uses u !! k = Some use ∧ name_at b i (use_symbol use) name.

(** Snapshot [id] of scope [a] follows the symbol of that name. *)
Definition snap_named b (a id : nat) (name : string) : Prop :=
  ∃ u sym, unit_at b a = Some u ∧ follows (u_defs u) (u_udm u) id sym ∧ name_at b a sym name.

(** The snapshots of a use follow its own name, in ancestors, innermost
    first. *)
Record snaps_wf b : Prop := {
  sw_chain : ∀ s k entries, wk_enclosing_snapshots (walk b) !! (s, k) = Some entries →
    ∃ name l, use_named b s k name ∧ chain (scopes b) (Some s) (s :: l) ∧
      sublist entries.*1 l ∧ ∀ a id, (a, id) ∈ entries → snap_named b a id name;
  sw_lazy : ∀ s nested a id, lazy_snapshots (walk b) !! (s, nested, a) = Some id →
    ∃ name, name_at b s nested name ∧ snap_named b a id name;
  sw_calls : ∀ c, c ∈ semantic_calls (walk b) → call_scope c < length (scopes b);
}.

(** ** The state of the scan *)

Definition is_call (e : expr) : Prop := match e with RCall _ _ _ => True | _ => False end.

(** Effects resolved for a call: one per argument, and the holes of quoted
    arguments lie inside the call. *)
Record effects_ok (call : expr) (effects : ResolvedArgumentEffects) : Prop := {
  eo_aligned : ∀ items, call_arguments call = Some items → length effects = length items;
  eo_holes : ∀ holes hole, Some (RQuote holes) ∈ effects → hole ∈ holes → tc child hole call;
}.

Record scan_wf (s : ScanState) : Prop := {
  cw_attach : length (fa_offsets (attached_so_far s)) = length (fa_packages (attached_so_far s));
  cw_deferred : ∀ d, d ∈ deferred_bodies s → within program (db_body d);
  cw_calls : ∀ range r effects, call_resolutions s !! range = Some r →
    cres_arguments r = Some effects →
    ∃ call, within program call ∧ is_call call ∧ range_of call = range ∧ effects_ok call effects;
}.

Record bwf open b : Prop := {
  bw_arenas : arenas_wf open b;
  bw_snaps : snaps_wf b;
  bw_scan : scan_wf (scan b);
}.

(** An arena with no index left. *)
Definition arena_full b : Prop :=
  (IndexVec.MAX ≤ N.of_nat (length (scopes b)))%N ∨
  ∃ i u, unit_at b i = Some u ∧ unit_full u.

(** ** What the walk never takes back *)

Record step b b' : Prop := {
  sp_scopes : ∀ i s, scopes b !! i = Some s → ∃ s', scopes b' !! i = Some s' ∧
    scope_parent s' = scope_parent s ∧ scope_kind s' = scope_kind s ∧
    scope_range s' = scope_range s;
  sp_units : ∀ i u, unit_at b i = Some u → ∃ u', unit_at b' i = Some u' ∧ unit_grows u u';
}.

#[export] Instance step_preorder : PreOrder step.
Proof.
  split.
  - intros b. split; [by eauto 10|]. intros i u Hu. by exists u.
  - intros b1 b2 b3 [S1 U1] [S2 U2]. split.
    + intros i s Hs. destruct (S1 _ _ Hs) as (s2 & Hs2 & <- & <- & <-). by apply S2.
    + intros i u Hu. destruct (U1 _ _ Hu) as (u2 & Hu2 & ?).
      destruct (U2 _ _ Hu2) as (u3 & Hu3 & ?). exists u3. split; [done|]. by etrans.
Qed.

Lemma step_chain b b' c l : step b b' → chain (scopes b) c l → chain (scopes b') c l.
Proof.
  intros [HS _]. induction 1 as [|i s l Hs Hc IH]; [constructor|].
  destruct (HS _ _ Hs) as (s' & Hs' & Hp & _). econstructor; [done|]. by rewrite Hp.
Qed.

Lemma step_name b b' i sym name : step b b' → name_at b i sym name → name_at b' i sym name.
Proof.
  intros [_ HU] (u & s & Hu & Hs & <-). destruct (HU _ _ Hu) as (u' & Hu' & Hg).
  destruct (ug_names _ _ Hg _ _ Hs) as (s' & ? & <-). by exists u', s'.
Qed.

Lemma step_use b b' i k name : step b b' → use_named b i k name → use_named b' i k name.
Proof.
  intros Hst (u & use & Hu & Hk & Hn). destruct (sp_units _ _ Hst _ _ Hu) as (u' & Hu' & Hg).
  destruct (ug_uses _ _ Hg) as [l Hl]. exists u', use. split; [done|].
  rewrite Hl. split; [by apply lookup_app_l_Some|]. by eapply step_name.
Qed.

Lemma step_snap b b' a id name : step b b' → snap_named b a id name → snap_named b' a id name.
Proof.
  intros Hst (u & sym & Hu & Hf & Hn). destruct (sp_units _ _ Hst _ _ Hu) as (u' & Hu' & Hg).
  exists u', sym. split; [done|]. split; [by apply Hg|]. by eapply step_name.
Qed.

Lemma step_length b b' : step b b' → length (scopes b) ≤ length (scopes b').
Proof.
  intros [HS _]. destruct (length (scopes b)) as [|n] eqn:Hn; [lia|].
  destruct (lookup_lt_is_Some_2 (scopes b) n) as [s Hs]; [lia|].
  destruct (HS _ _ Hs) as (s' & Hs'%lookup_lt_Some & _). lia.
Qed.

Lemma step_snaps_wf b b' :
  step b b' → snaps_wf b →
  wk_enclosing_snapshots (walk b') = wk_enclosing_snapshots (walk b) →
  lazy_snapshots (walk b') = lazy_snapshots (walk b) →
  semantic_calls (walk b') = semantic_calls (walk b) → snaps_wf b'.
Proof.
  intros Hst [Hc Hl Hca] E1 E2 E. split; rewrite ?E1, ?E2, ?E.
  - intros s k entries Hs. destruct (Hc _ _ _ Hs) as (name & l & ? & ? & ? & Hsn).
    exists name, l. split; [by eapply step_use|]. split; [by eapply step_chain|].
    split; [done|]. intros. eapply step_snap; eauto.
  - intros s nested a id Hs. destruct (Hl _ _ _ _ Hs) as (name & ? & ?).
    exists name. split; [by eapply step_name|by eapply step_snap].
  - intros c Hcall. apply step_length in Hst. specialize (Hca c Hcall). lia.
Qed.

(** ** Changing one scope's unit *)

(** [b'] is [b] with unit [u] for scope [i]. *)
Record touches (i : nat) u b b' : Prop := {
  th_unit : unit_at b' i = Some u;
  th_others : ∀ j, j ≠ i → unit_at b' j = unit_at b j;
  th_scopes : scopes b' = scopes b;
  th_current : current_scope b' = current_scope b;
  th_scan : scan b' = scan b;
  th_tables : length (symbol_tables (walk b')) = length (symbol_tables (walk b));
  th_defs : length (wk_definitions (walk b')) = length (wk_definitions (walk b));
  th_uses : length (uses (walk b')) = length (uses (walk b));
  th_udms : length (use_def_maps (walk b')) = length (use_def_maps (walk b));
  th_chain : wk_enclosing_snapshots (walk b') = wk_enclosing_snapshots (walk b);
  th_lazy : lazy_snapshots (walk b') = lazy_snapshots (walk b);
  th_calls : semantic_calls (walk b') = semantic_calls (walk b);
}.

Lemma touches_trans i u1 u2 b b1 b2 : touches i u1 b b1 → touches i u2 b1 b2 → touches i u2 b b2.
Proof.
  intros [] []. split; try congruence.
  intros j Hj. rewrite th_others1, th_others0 by done. done.
Qed.

Lemma touches_step i u u' b b' :
  touches i u' b b' → unit_at b i = Some u → unit_grows u u' → step b b'.
Proof.
  intros [] Hu Hg. split.
  - intros j s Hs. exists s. by rewrite th_scopes0.
  - intros j v Hv. destruct (decide (j = i)) as [->|Hne].
    + simplify_eq. eauto.
    + exists v. by rewrite th_others0.
Qed.

Lemma touches_wf open i u u' b b' :
  bwf open b → unit_at b i = Some u → touches i u' b b' → unit_wf u' → unit_grows u u' →
  bwf open b' ∧ step b b'.
Proof.
  intros [Ha Hsn Hsc] Hu Ht Hwf Hg. pose proof (touches_step _ _ _ _ _ Ht Hu Hg) as Hst.
  split; [|done]. destruct Ht. split.
  - destruct Ha. split; rewrite ?th_scopes0, ?th_current0, ?th_scan0; try congruence.
    intros j v Hv. destruct (decide (j = i)) as [->|Hne].
    + by simplify_eq.
    + rewrite th_others0 in Hv by done. eauto.
  - by eapply step_snaps_wf.
  - by rewrite th_scan0.
Qed.

(** ** Changing the scan state alone *)

(** Scopes and arenas are the same; [snaps_wf] and [step] follow. *)
Lemma same_walk_wf open b b' :
  bwf open b → scopes b' = scopes b → current_scope b' = current_scope b → walk b' = walk b →
  length (bound_anywhere (scan b')) = length (bound_anywhere (scan b)) →
  scan_wf (scan b') → bwf open b' ∧ step b b'.
Proof.
  intros [Ha Hsn Hsc] Hs Hcur Hw Hb Hsc'.
  assert (Hu : ∀ i, unit_at b' i = unit_at b i) by (intros; unfold unit_at; by rewrite Hw).
  assert (Hst : step b b') 
    by (split; [intros i s ?; exists s; by rewrite Hs|intros i u ?; exists u; by rewrite Hu]).
  split; [split|done].
  - destruct Ha. split; rewrite ?Hs, ?Hcur, ?Hw; try congruence.
    intros i u. rewrite Hu. eauto.
  - eapply step_snaps_wf; [done|done|by rewrite Hw..].
  - done.
Qed.

(** ** Reads never panic *)

Lemma walked_binding_total open b i name :
  arenas_wf open b → i < length (scopes b) →
  ∃ o, walked_binding b i name = Some o ∧ ∀ sym, o = Some sym →
    ∃ u s, unit_at b i = Some u ∧ symbols (u_table u) !! sym = Some s ∧ symbol_name s = name ∧
      SymbolFlags.contains (symbol_flags s) SymbolFlags.IS_BOUND = true.
Proof.
  intros Hb Hi. destruct (unit_at_total open b i Hb Hi) as (u & Hu & Hwf).
  pose proof (proj1 (unit_at_Some _ _ _) Hu) as (Ht & _). unfold walked_binding, IndexVec.index.
  rewrite Ht. simpl. unfold SymbolTable.id, SymbolTable.symbol, IndexVec.index.
  destruct (by_name (u_table u) !! name) as [sym|] eqn:Hn; [|by eexists].
  destruct (SymbolTableFacts.wf_name _ (uw_table _ Hwf) _ _ Hn) as (s & Hs & Hname).
  rewrite Hs. simpl. destruct (SymbolFlags.contains _ _) eqn:Hf; eexists; (split; [done|]); [|done].
  intros ? [= <-]. by exists u, s.
Qed.

Lemma bound_anywhere_total open b i :
  arenas_wf open b → i < length (scopes b) → ∃ sites, bound_anywhere (scan b) !! i = Some sites.
Proof. intros Hb Hi. apply lookup_lt_is_Some_2. by rewrite (aw_bound _ _ Hb). Qed.

Lemma scope_binds_anywhere_total open b i name :
  arenas_wf open b → i < length (scopes b) → is_Some (scope_binds_anywhere b i name).
Proof.
  intros Hb Hi. unfold scope_binds_anywhere, IndexVec.index.
  destruct (walked_binding_total open b i name Hb Hi) as (o & -> & _).
  destruct (bound_anywhere_total open b i Hb Hi) as [sites ->]. by eexists.
Qed.

Lemma scope_binding_range_total open b i name :
  arenas_wf open b → i < length (scopes b) → is_Some (scope_binding_range b i name).
Proof.
  intros Hb Hi. unfold scope_binding_range, IndexVec.index.
  destruct (bound_anywhere_total open b i Hb Hi) as [sites ->]. simpl.
  destruct (BindingSites.binding_range _ _); [by eexists|].
  destruct (walked_binding_total open b i name Hb Hi) as (o & -> & _). simpl.
  destruct o as [sym|]; [|by eexists].
  destruct (unit_at_total open b i Hb Hi) as (u & Hu & _).
  apply unit_at_Some in Hu as (_ & -> & _). by eexists.
Qed.

Lemma the_scope_total open b : arenas_wf open b → ∃ s, the_scope b = Some s.
Proof. intros Hb. apply lookup_lt_is_Some_2. by destruct (current_open _ _ Hb). Qed.

Lemma ancestors_total open b i :
  arenas_wf open b → i < length (scopes b) →
  ∃ l, ancestor_scope_ids (scopes b) i = Some l ∧ chain (scopes b) (Some i) l.
Proof.
  intros Hb Hi. destruct (ancestor_scope_ids_total _ _ _ (aw_preorder _ _ Hb) Hi)
    as (l & ? & ? & _). eauto.
Qed.

Lemma enclosing_lazy_total open b i :
  arenas_wf open b → i < length (scopes b) → is_Some (enclosing_lazy_scope (scopes b) i).
Proof.
  intros Hb Hi. destruct (ancestors_total open b i Hb Hi) as (l & Hl & _).
  unfold enclosing_lazy_scope. rewrite Hl. by eexists.
Qed.

Lemma parent_lt open b i s p :
  arenas_wf open b → scopes b !! i = Some s → scope_parent s = Some p → p < i.
Proof.
  intros Hb Hs Hp. destruct (decide (i = 0)) as [->|].
  - destruct (po_root _ _ (aw_preorder _ _ Hb) _ Hs). congruence.
  - destruct (po_parent _ _ (aw_preorder _ _ Hb) _ _ Hs) as (q & ? & Hq & ? & _); [lia|].
    congruence.
Qed.

Lemma enclosing_owner_total open b :
  arenas_wf open b →
  ∃ o, enclosing_owner b = Some o ∧ ∀ i, o = Some i → i < length (scopes b).
Proof.
  intros Hb. unfold enclosing_owner. destruct (the_scope_total open b Hb) as [s Hs].
  rewrite Hs. simpl. destruct (scope_parent s) as [p|] eqn:Hp; [|by eexists].
  assert (Hlt : p < current_scope b) by (by eapply parent_lt).
  apply lookup_lt_Some in Hs.
  destruct (ancestors_total open b p Hb) as (l & -> & Hc); [lia|]. eexists; split; [done|].
  unfold find_kind. intros i [Hi _]%List.find_some. apply list_elem_of_In in Hi.
  by eapply chain_bounds.
Qed.

(** Scopes outward: a chain is no longer than the arena. *)
Lemma lazy_shadow_in_arena_total open b name i fuel lazy :
  arenas_wf open b → i < length (scopes b) → i < fuel →
  is_Some (lazy_shadow_in_arena fuel b name (Some i) lazy).
Proof.
  intros Hb. revert i lazy. induction fuel as [|fuel IH]; intros i lazy Hi Hf; [lia|]. simpl.
  destruct (scope_binding_range_total open b i name Hb Hi) as [r Hr].
  destruct (lookup_lt_is_Some_2 _ _ Hi) as [s Hs].
  assert (Hrest : is_Some (sc ← IndexVec.index (scopes b) i;
    lazy_shadow_in_arena fuel b name (scope_parent sc) (lazy || ScopeKind.is_lazy (scope_kind sc)))).
  { unfold IndexVec.index. rewrite Hs. simpl. destruct (scope_parent s) as [p|] eqn:Hp.
    - pose proof (parent_lt _ _ _ _ _ Hb Hs Hp). apply IH; lia.
    - destruct fuel; by eexists. }
  destruct lazy; simpl; rewrite ?Hr; simpl; [destruct r; [by eexists|done]|done].
Qed.

Lemma is_lazily_shadowed_total open b name : arenas_wf open b → is_Some (is_lazily_shadowed b name).
Proof.
  intros Hb. destruct (current_open _ _ Hb) as [Hlt _]. unfold is_lazily_shadowed.
  destruct (reverse _) as [|body frames].
  - destruct (the_scope_total open b Hb) as [s Hs]. rewrite Hs. simpl.
    destruct (scope_parent s) as [p|] eqn:Hp.
    + pose proof (parent_lt _ _ _ _ _ Hb Hs Hp).
      apply (lazy_shadow_in_arena_total open); [done|lia|lia].
    + destruct (length _); by eexists.
  - destruct (lazy_shadow_in_frames _ _ _); [by eexists|].
    by apply (lazy_shadow_in_arena_total open).
Qed.

Lemma scan_scope_total open b name :
  arenas_wf open b →
  is_Some (scan_scope_binds b name) ∧ is_Some (scan_scope_binding_range b name) ∧
  is_Some (scan_scope_is_global b).
Proof.
  intros Hb. destruct (current_open _ _ Hb) as [Hlt _].
  unfold scan_scope_binds, scan_scope_binding_range, scan_scope_is_global, scan_scope.
  destruct (List.find _ _); [by repeat (split; [by eexists|])|].
  split; [by eapply scope_binds_anywhere_total|].
  split; [by eapply scope_binding_range_total|].
  destruct (lookup_lt_is_Some_2 _ _ Hlt) as [s Hs]. unfold IndexVec.index. rewrite Hs. by eexists.
Qed.

Context `{!ImportsResolver}.

Lemma resolve_symbol_total open b name : arenas_wf open b → is_Some (resolve_symbol b name).
Proof.
  intros Hb. unfold resolve_symbol. destruct (FlowState.is_bound _ _); [by eexists|].
  destruct (negb _); [by eexists|]. unfold import_uncertainty.
  destruct (is_lazily_shadowed_total open b name Hb) as [o ->].
  destruct (resolver_resolve_effects _ _); by eexists.
Qed.

Lemma resolve_callee_total open b call : arenas_wf open b → is_Some (resolve_callee b call).
Proof.
  intros Hb. unfold resolve_callee.
  destruct call as [| | | | | | | | | | [[]|] | | | | | | | | |]; try by eexists.
  destruct (resolve_symbol_total open b name Hb) as [r ->]. simpl.
  destruct (source_dir_idiom name); by eexists.
Qed.
End inv.
