(* ===== verification/ScanInv.v ===== *)
(** * The scan pass keeps the builder's invariant

    A scan changes the scan state only: the scope tree and the arenas of the
    walk are the same afterwards, the frames it opened are closed, attaches are
    only dropped down to where a region started, and the deferred bodies it
    queued are smaller than the expression scanned, so the queue drains. It
    never panics on a builder in its invariant. *)

From S2P Require Export Scan BuilderInv.

Create HintDb scan.

Section scan.
Context `{TextRanges, Urls, !HandlerTypes, !Handlers, !HandlersLawful, !ImportsResolver}.
Context `{BuildProfile}.
Context (program : list expr) (open : list nat).
Implicit Types (b : SemanticIndexBuilder).

#[local] Abbreviation B := SemanticIndexBuilder.

(** ** What a scan leaves alone *)

Record same_arenas b b' : Prop := {
  sl_scopes : scopes b' = scopes b;
  sl_current : current_scope b' = current_scope b;
  sl_walk : walk b' = walk b;
  sl_bound : length (bound_anywhere (scan b')) = length (bound_anywhere (scan b));
}.

(** The kinds of the open frames. *)
Definition frames b : list ScopeKind := os_kind <$> open_scopes (scan b).

Definition still b b' : Prop := same_arenas b b' ∧ frames b' = frames b.

(** The deferred queue only grew, by bodies smaller than [n]. *)
Definition queued (n : nat) b b' : Prop :=
  ∃ ext, deferred_bodies (scan b') = deferred_bodies (scan b) ++ ext ∧
    ∀ d, d ∈ ext → esize (db_body d) < n.

Definition attaches b : nat := FlowAttaches.len (attached_so_far (scan b)).

Definition kept (n : nat) b b' : Prop := still b b' ∧ queued n b b'.
Definition scanned (n : nat) b b' : Prop := kept n b b' ∧ attaches b ≤ attaches b'.

#[export] Instance same_arenas_preorder : PreOrder same_arenas.
Proof. split; [by split|]. intros b1 b2 b3 [] []. split; congruence. Qed.

#[export] Instance still_preorder : PreOrder still.
Proof. split; [by split|]. intros b1 b2 b3 [] []. split; [by etrans|congruence]. Qed.

#[export] Instance queued_preorder n : PreOrder (queued n).
Proof.
  split.
  - intros b. exists []. rewrite app_nil_r. set_solver.
  - intros b1 b2 b3 (x1 & E1 & L1) (x2 & E2 & L2). exists (x1 ++ x2).
    rewrite E2, E1, app_assoc. set_solver.
Qed.

#[export] Instance kept_preorder n : PreOrder (kept n).
Proof. split; [by split|]. intros b1 b2 b3 [] []. split; by etrans. Qed.

#[export] Instance scanned_preorder n : PreOrder (scanned n).
Proof. split; [by split|]. intros b1 b2 b3 [] []. split; [by etrans|lia]. Qed.

Lemma scanned_mono n n' b b' : n ≤ n' → scanned n b b' → scanned n' b b'.
Proof.
  intros Hn [[Hs (ext & He & Hl)] Ha]. split; [split; [done|]|done].
  exists ext. split; [done|]. intros d Hd. specialize (Hl d Hd). lia.
Qed.

(** The triple of a scanning step. *)
#[local] Abbreviation sk n m := (keeps arena_full (bwf program open) (scanned n) m).

Lemma sk_mono n n' {A} (m : M B A) : n ≤ n' → sk n m → sk n' m.
Proof. intros Hn. apply keeps_mono. intros *. by apply scanned_mono. Qed.

(** An update of the scan state. *)
Lemma modify_scan n (f : B → ScanState → ScanState) :
  (∀ b, bwf program open b →
     scan_wf program (f b (scan b)) ∧
     scanned n b (upd_scan (f b) b)) →
  sk n (modify (λ b, upd_scan (f b) b)).
Proof.
  intros Hf. apply keeps_modify. intros b Hb. destruct (Hf b Hb) as [Hwf Hsc].
  split; [|done]. destruct Hsc as [[[[] _] _] _].
  by eapply same_walk_wf.
Qed.

(** Updates of fields that neither the invariant nor the frame mention. *)
Definition scan_frame_at (s s' : ScanState) : Prop :=
  length (bound_anywhere s') = length (bound_anywhere s) ∧
  attached_so_far s' = attached_so_far s ∧ call_resolutions s' = call_resolutions s ∧
  deferred_bodies s' = deferred_bodies s ∧
  os_kind <$> open_scopes s' = os_kind <$> open_scopes s.

Definition scan_frame (f : ScanState → ScanState) : Prop := ∀ s, scan_frame_at s (f s).

Lemma upd_frame n b f :
  bwf program open b → scan_frame_at (scan b) (f (scan b)) →
  bwf program open (upd_scan f b) ∧ scanned n b (upd_scan f b).
Proof.
  intros Hb (E1 & E2 & E3 & E4 & E5). destruct (bw_scan _ _ _ Hb) as [C1 C2 C3]. split.
  - apply (same_walk_wf program open b); [done..|]. simpl. split; rewrite ?E2, ?E3, ?E4; done.
  - split; [split; [by repeat split|]|].
    + exists []. simpl. rewrite E4, app_nil_r. set_solver.
    + unfold attaches. simpl. by rewrite E2.
Qed.

Lemma modify_frame n (f : B → ScanState → ScanState) :
  (∀ b, scan_frame (f b)) → sk n (modify (λ b, upd_scan (f b) b)).
Proof. intros Hf b Hb. apply wp_modify, upd_frame; [done|apply Hf]. Qed.

Lemma on_scan_frame n f : scan_frame f → sk n (on_scan f).
Proof. intros Hf. by apply (modify_frame n (λ _, f)). Qed.

(** Updates outside the scan state. *)
Lemma modify_other n (f : B → B) :
  (∀ b, scopes (f b) = scopes b ∧ current_scope (f b) = current_scope b ∧
        scan (f b) = scan b ∧ walk (f b) = walk b) → sk n (modify f).
Proof.
  intros Hf. apply keeps_modify. intros b Hb. destruct (Hf b) as (E1 & E2 & E3 & E4).
  split.
  - apply (same_walk_wf program open b (f b)); rewrite ?E1, ?E3; try done. by apply bw_scan in Hb.
  - unfold scanned, kept, queued, attaches. rewrite E3. split; [split; [split; [split; by rewrite ?E3|by unfold frames; rewrite E3]|]|done].
    exists []. rewrite app_nil_r. set_solver.
Qed.

Lemma sk_try_get n {A} (g : B → option A) :
  (∀ b, arenas_wf open b → is_Some (g b)) → sk n (try_get g).
Proof. intros Hg. apply keeps_try_get; [apply _|]. intros b Hb. apply Hg, Hb. Qed.

Hint Resolve on_scan_frame modify_frame modify_other sk_try_get : scan.

Ltac sk := intros; repeat (keeps_step || solve [eauto with scan]).

(** ** Diagnostics, dependencies and call resolutions *)

Lemma record_ambiguity_sk n name range reason : sk n (record_ambiguity name range reason).
Proof. by apply modify_other. Qed.
Hint Resolve record_ambiguity_sk : scan.

Lemma record_call_ambiguity_sk n call reason : sk n (record_call_ambiguity call reason).
Proof.
  unfold record_call_ambiguity.
  destruct call as [| | | | | | | | | | [[]|] | | | | | | | | |]; sk.
Qed.
Hint Resolve record_call_ambiguity_sk : scan.

Lemma record_callee_imports_sk n imports : sk n (record_callee_imports imports).
Proof. unfold record_callee_imports. sk. Qed.
Hint Resolve record_callee_imports_sk : scan.

(** The resolutions keep their argument effects. *)
Lemma upd_resolution_sk n range f :
  (∀ c, cres_arguments (f c) = cres_arguments c) → sk n (upd_resolution range f).
Proof.
  intros Hf. apply (modify_scan n (λ _, _)). intros b Hb.
  destruct (bw_scan _ _ _ Hb) as [C1 C2 C3]. split.
  - split; simpl; [done|done|]. intros r c effects Hc Ha.
    apply lookup_insert_Some in Hc as [[<- <-]|[_ Hc]]; [|eauto].
    rewrite Hf in Ha. destruct (call_resolutions (scan b) !! range) as [c|] eqn:Hr; [eauto|done].
  - split; [split; [by repeat split|]|done]. exists []. simpl. rewrite app_nil_r. set_solver.
Qed.

Lemma push_assign_sk n range a : sk n (upd_resolution range (push_cres_assign a)).
Proof. by apply upd_resolution_sk. Qed.
Lemma extend_source_sk n range l : sk n (upd_resolution range (extend_cres_source l)).
Proof. by apply upd_resolution_sk. Qed.
Lemma set_attach_sk n range p : sk n (upd_resolution range (set_cres_attach p)).
Proof. by apply upd_resolution_sk. Qed.
Hint Resolve push_assign_sk extend_source_sk set_attach_sk : scan.

(** The effects of a call are recorded under its range. *)
Lemma set_arguments_sk n call effects :
  within program call → is_call call → effects_ok call effects →
  sk n (upd_resolution (range_of call) (set_cres_arguments effects)).
Proof.
  intros Hin Hcall Hok. apply (modify_scan n (λ _, _)). intros b Hb.
  destruct (bw_scan _ _ _ Hb) as [C1 C2 C3]. split.
  - split; simpl; [done|done|]. intros r c es Hc Ha.
    apply lookup_insert_Some in Hc as [[<- <-]|[_ Hc]]; [|eauto].
    injection Ha as <-. exists call. auto.
  - split; [split; [by repeat split|]|done]. exists []. simpl. rewrite app_nil_r. set_solver.
Qed.

(** ** Callee resolution *)

Lemma resolve_callee_sk n call : sk n (try_get (λ b, resolve_callee b call)).
Proof. apply sk_try_get. intros b. apply resolve_callee_total. Qed.
Lemma resolve_symbol_sk n name : sk n (try_get (λ b, resolve_symbol b name)).
Proof. apply sk_try_get. intros b. apply resolve_symbol_total. Qed.
Lemma the_scope_sk n : sk n (try_get the_scope).
Proof. apply sk_try_get. intros b Hb. destruct (the_scope_total _ _ Hb) as [s ->]. by eexists. Qed.
Hint Resolve resolve_callee_sk resolve_symbol_sk the_scope_sk : scan.

Lemma opt_handler_case {K A} (o : option K) (resolve : K → Handler A) ctx imports a :
  (opt_handler o resolve ctx imports).1 = Some a →
  ∃ h, o = Some h ∧ (resolve h ctx imports).1 = Some a.
Proof. destruct o; simpl; [eauto|done]. Qed.

(** Resolved argument effects fit the call. *)
Lemma resolve_effects_sk n call b :
  bwf program open b →
  wp (resolve_effects call) arena_full
    (λ effects b', (bwf program open b' ∧ scanned n b b') ∧
       ∀ e arguments, effects = Some e → eff_arguments e = Some arguments →
         effects_ok call arguments) b.
Proof.
  intros Hb. unfold resolve_effects.
  assert (Hamb : ∀ o, sk n (if_some o (record_call_ambiguity call))) by sk.
  apply wp_bind. eapply wp_mono; [by apply (resolve_callee_sk n)|]. intros resolution b1 [Hb1 S1].
  apply wp_bind. eapply wp_mono; [by apply Hamb|]. intros [] b2 [Hb2 S2].
  destruct (cr_handlers resolution) as [fh|]; [|apply wp_ret; split; [by split; [|etrans]|done]].
  apply wp_bind, wp_gets. set (ctx := scan_bindings b2).
  destruct (opt_handler (h_arguments _) _ _ _) as [arguments imports1] eqn:Ha.
  destruct (opt_handler (h_attach _) _ _ _) as [attach imports2].
  destruct (opt_handler (h_source _) _ _ _) as [source imports3].
  destruct (opt_handler (h_assign _) _ _ _) as [assign imports4].
  apply wp_bind. eapply wp_mono; [by apply (record_callee_imports_sk n)|]. intros [] b3 [Hb3 S3].
  apply wp_ret. split; [split; [done|by etrans; [|etrans]]|].
  intros e args [= <-] Hargs. simpl in Hargs. apply (f_equal fst) in Ha. simpl in Ha.
  rewrite Hargs in Ha. apply opt_handler_case in Ha as (h & _ & Hh).
  split; [by eapply arguments_aligned|by eapply holes_inside].
Qed.

Lemma resolve_operator_assign_sk n bin : sk n (resolve_operator_assign bin).
Proof.
  unfold resolve_operator_assign. destruct bin as [| | | | | | | | | [op|] | | | | | | | | | |]; sk.
  destruct (negb _); [sk|]. destruct (negb _); [sk|]. sk.
  destruct (cr_handlers _ ≫= _) as [assign|]; sk.
  destruct (resolve_assign _ _ _ _); sk.
Qed.
Hint Resolve resolve_operator_assign_sk : scan.

(** ** Bindings and flow *)

Lemma add_to_frames_kinds name range frames frames' :
  add_to_frames name range frames = Some frames' → os_kind <$> frames' = os_kind <$> frames.
Proof.
  revert frames'. induction frames as [|f frames IH]; intros frames'; simpl; [done|].
  destruct (ScopeKind.owns_bindings _); [by intros [= <-]|].
  intros (l & Hl & ->)%fmap_Some. simpl. f_equal. by apply IH.
Qed.

Lemma record_binding_sk n name range : sk n (record_binding name range).
Proof.
  unfold record_binding. apply keeps_bind; [apply _| |intros _].
  { by apply on_scan_frame. }
  intros b Hb. apply wp_try_update; destruct (add_to_frames _ _ _) as [frames|] eqn:Hf.
  - intros [] b' [= <-]. apply upd_frame; [done|]. repeat split. simpl.
    rewrite fmap_reverse, (add_to_frames_kinds _ _ _ _ Hf), <-fmap_reverse, reverse_involutive. done.
  - intros [] b' (sites & Hs & [= <-])%bind_Some. apply upd_frame; [done|]. repeat split. simpl.
    by eapply IndexVec.index_mut_length.
  - done.
  - destruct (current_open _ _ (bw_arenas _ _ _ Hb)) as [Hlt _].
    destruct (bound_anywhere_total _ _ _ (bw_arenas _ _ _ Hb) Hlt) as [sites Hs].
    unfold IndexVec.index_mut. by rewrite Hs.
Qed.
Hint Resolve record_binding_sk : scan.

Lemma record_enclosing_flow_sk n range : sk n (record_enclosing_flow range).
Proof. by apply (modify_frame n (λ b s, _)). Qed.
Hint Resolve record_enclosing_flow_sk : scan.

Lemma set_flow_sk n (f : ScanState → gset string) :
  sk n (on_scan (λ s, set_bound_so_far (f s) s)).
Proof. by apply on_scan_frame. Qed.
Lemma set_flow_inherited_sk n (f : ScanState → gset string) (l : ScanState → list string) :
  sk n (on_scan (λ s, set_attached_inherited (l s) (set_bound_so_far (f s) s))).
Proof. by apply on_scan_frame. Qed.
Lemma set_inherited_flow_sk n (f : ScanState → gset string) (l : ScanState → list string) :
  sk n (on_scan (λ s, set_bound_so_far (f s) (set_attached_inherited (l s) s))).
Proof. by apply on_scan_frame. Qed.
Hint Resolve set_flow_sk set_flow_inherited_sk set_inherited_flow_sk : scan.

Context (Hrelease : debug_assertions = false).

Lemma debug_panic_sk n : sk n debug_panic.
Proof. unfold debug_panic. rewrite Hrelease. sk. Qed.
Hint Resolve debug_panic_sk : scan.

Lemma begin_scan_sk n : sk n begin_scan.
Proof.
  unfold begin_scan. sk.
  - destruct a0 as [[]|]; sk.
  - apply sk_try_get. intros b Hb. destruct (current_open _ _ Hb) as [Hlt _].
    unfold IndexVec.index. apply lookup_lt_is_Some_2. by rewrite (aw_tables _ _ Hb).
  - destruct x. sk.
Qed.
Hint Resolve begin_scan_sk : scan.

Lemma scan_super_binding_package_sk n name range : sk n (scan_super_binding_package name range).
Proof. unfold scan_super_binding_package. sk. by apply on_scan_frame. Qed.
Hint Resolve scan_super_binding_package_sk : scan.

(** ** Attaches *)

(** Updates of the attaches alone. *)
Lemma upd_attaches n b a :
  bwf program open b → length (fa_offsets a) = length (fa_packages a) →
  let b' := upd_scan (set_attached_so_far a) b in
  (bwf program open b' ∧ kept n b b') ∧ attaches b' = FlowAttaches.len a.
Proof.
  intros Hb Ha. destruct (bw_scan _ _ _ Hb) as [C1 C2 C3]. split; [split|done].
  - by apply (same_walk_wf program open b).
  - split; [by repeat split|]. exists []. simpl. rewrite app_nil_r. set_solver.
Qed.

Lemma push_attach_sk n package offset : sk n (push_attach package offset).
Proof.
  intros b Hb. apply wp_modify. destruct (bw_scan _ _ _ Hb) as [C1 _ _].
  destruct (upd_attaches n b (FlowAttaches.push package offset (attached_so_far (scan b))))
    as [[? ?] E]; [done|simpl; by rewrite !length_app, C1|].
  split; [done|]. split; [done|]. unfold attaches, FlowAttaches.len. simpl.
  rewrite length_app. lia.
Qed.
Hint Resolve push_attach_sk : scan.

Lemma split_off_wp n b watermark :
  bwf program open b → watermark ≤ attaches b →
  wp (split_off_attaches watermark) arena_full
    (λ _ b', (bwf program open b' ∧ kept n b b') ∧ attaches b' = watermark) b.
Proof.
  intros Hb Hw. destruct (bw_scan _ _ _ Hb) as [C1 _ _]. unfold attaches, FlowAttaches.len in Hw.
  apply wp_try_update; unfold FlowAttaches.split_off, FlowAttaches.vec_split_off;
    rewrite !decide_True by lia; simpl; [|done].
  intros sites b' [= <- <-].
  destruct (upd_attaches n b (mkFlowAttaches (take watermark (fa_packages (attached_so_far (scan b))))
    (take watermark (fa_offsets (attached_so_far (scan b)))))) as [? E]; [done| |].
  - simpl. by rewrite !length_take, C1.
  - split; [done|]. rewrite E. unfold FlowAttaches.len. simpl. rewrite length_take. lia.
Qed.

Lemma end_attach_effects_sk n sites end_ : sk n (end_attach_effects sites end_).
Proof. unfold end_attach_effects. sk. by apply on_scan_frame. Qed.
Hint Resolve end_attach_effects_sk : scan.

Lemma push_diagnostic_sk n d : sk n (modify (push_diagnostic d)).
Proof. by apply modify_other. Qed.
Hint Resolve push_diagnostic_sk : scan.

Lemma record_attach_order_ambiguity_sk n consequence rejoined range :
  sk n (record_attach_order_ambiguity consequence rejoined range).
Proof. unfold record_attach_order_ambiguity. case_decide; [sk|]. case_decide; sk. Qed.
Hint Resolve record_attach_order_ambiguity_sk : scan.

Lemma join_attaches_sk n consequence e1 alternative e2 range :
  sk n (join_attaches consequence e1 alternative e2 range).
Proof. unfold join_attaches. destruct (List.partition _ _). sk. Qed.
Hint Resolve join_attaches_sk : scan.

Lemma push_attached_anywhere_sk n v : sk n (on_scan (push_attached_anywhere v)).
Proof. by apply on_scan_frame. Qed.
Hint Resolve push_attached_anywhere_sk : scan.

(** ** Sourced files, shadows and operators *)

Lemma record_source_resolution_sk n resolution range :
  sk n (record_source_resolution resolution range).
Proof. unfold record_source_resolution. sk. Qed.
Hint Resolve record_source_resolution_sk : scan.

Lemma scan_source_call_sk n sourced range : sk n (scan_source_call sourced range).
Proof. unfold scan_source_call. sk. Qed.
Hint Resolve scan_source_call_sk : scan.

Lemma scan_binding_range_sk n name : sk n (try_get (λ b, scan_scope_binding_range b name)).
Proof. apply sk_try_get. intros b Hb. by apply (scan_scope_total open). Qed.
Hint Resolve scan_binding_range_sk : scan.

Lemma record_conditional_shadow_ambiguity_sk n call effects :
  sk n (record_conditional_shadow_ambiguity call effects).
Proof.
  unfold record_conditional_shadow_ambiguity. destruct (negb _); [sk|].
  destruct call as [| | | | | | | | | | [[]|] | | | | | | | | |]; sk.
Qed.
Hint Resolve record_conditional_shadow_ambiguity_sk : scan.

Lemma record_uninstalled_package_sk n package range : sk n (record_uninstalled_package package range).
Proof. by apply modify_other. Qed.
Hint Resolve record_uninstalled_package_sk : scan.

Lemma scan_operator_assign_sk n bin : sk n (scan_operator_assign bin).
Proof. unfold scan_operator_assign. sk. Qed.
Hint Resolve scan_operator_assign_sk : scan.

Lemma scan_sources_sk n range paths : sk n (scan_sources range paths).
Proof. unfold scan_sources. sk. Qed.
Hint Resolve scan_sources_sk : scan.

Lemma scan_attach_sk n range package : sk n (scan_attach range package).
Proof. unfold scan_attach. sk. Qed.
Hint Resolve scan_attach_sk : scan.

(** ** Branches, loops and frames, given a scan of the parts *)

Section regions.
Context (n : nat) (scan_expression : expr → M B ()).

Lemma scan_conditional_sk region :
  (∀ e, region = Some e → sk n (scan_expression e)) → sk n (scan_conditional scan_expression region).
Proof. intros He. unfold scan_conditional. destruct region as [e|]; sk. Qed.

Lemma scan_branch_sk consequence alternative range :
  (∀ e, consequence = Some e → sk n (scan_expression e)) →
  (∀ e, alternative = Some e → sk n (scan_expression e)) →
  sk n (scan_branch scan_expression consequence alternative range).
Proof.
  intros Hc Ha b Hb. unfold scan_branch. apply wp_bind, wp_gets, wp_bind, wp_gets, wp_bind.
  eapply wp_mono; [by apply scan_conditional_sk|]. intros end1 b1 [Hb1 [K1 L1]].
  apply wp_bind, wp_gets, wp_bind.
  eapply wp_mono; [by apply (split_off_wp n)|]. intros sites1 b2 [[Hb2 K2] E2].
  apply wp_bind. eapply wp_mono; [by apply (set_flow_sk n)|]. intros [] b3 [Hb3 [K3 L3]].
  apply wp_bind. eapply wp_mono; [by apply scan_conditional_sk|]. intros end2 b4 [Hb4 [K4 L4]].
  apply wp_bind. eapply wp_mono; [by apply (set_flow_sk n)|]. intros [] b5 [Hb5 [K5 L5]].
  assert (attaches b ≤ attaches b5) as L by (change (attaches b2 = attaches b) in E2; lia).
  apply wp_bind. eapply wp_mono; [by apply (split_off_wp n)|]. intros sites2 b6 [[Hb6 K6] E6].
  eapply wp_mono; [by apply (join_attaches_sk n)|]. intros [] b7 [Hb7 [K7 L7]].
  split; [done|]. split; [by do 6 (etrans; [eassumption|])|].
  change (attaches b6 = attaches b) in E6. lia.
Qed.

Lemma scan_loop_body_sk body :
  (∀ e, body = Some e → sk n (scan_expression e)) → sk n (scan_loop_body scan_expression body).
Proof.
  intros He b Hb. unfold scan_loop_body. apply wp_bind, wp_gets, wp_bind, wp_gets, wp_bind.
  eapply wp_mono; [by apply scan_conditional_sk|]. intros end1 b1 [Hb1 [K1 L1]].
  apply wp_bind. eapply wp_mono; [by apply (set_flow_sk n)|]. intros [] b2 [Hb2 [K2 L2]].
  assert (attaches b ≤ attaches b2) as L by lia.
  apply wp_bind. eapply wp_mono; [by apply (split_off_wp n)|]. intros sites b3 [[Hb3 K3] E3].
  eapply wp_mono; [by apply (end_attach_effects_sk n)|]. intros [] b4 [Hb4 [K4 L4]].
  split; [done|]. split; [by do 3 (etrans; [eassumption|])|].
  change (attaches b3 = attaches b) in E3. lia.
Qed.
End regions.

(** A frame is opened around a scan and closed after it. *)
Lemma push_open_scope_wp kind b :
  bwf program open b →
  wp (push_open_scope kind) arena_full
    (λ _ b', (bwf program open b' ∧ same_arenas b b' ∧
       deferred_bodies (scan b') = deferred_bodies (scan b) ∧ attaches b' = attaches b) ∧
       frames b' = frames b ++ [kind]) b.
Proof.
  intros Hb. destruct (bw_scan _ _ _ Hb) as [C1 C2 C3]. apply wp_modify.
  split; [split; [by apply (same_walk_wf program open b)|by repeat split]|].
  unfold frames. simpl. by rewrite fmap_app.
Qed.

Lemma pop_open_scope_wp kinds kind b :
  bwf program open b → frames b = kinds ++ [kind] →
  wp pop_open_scope arena_full
    (λ o b', (bwf program open b' ∧ same_arenas b b' ∧
       deferred_bodies (scan b') = deferred_bodies (scan b) ∧ attaches b' = attaches b) ∧
       frames b' = kinds) b.
Proof.
  intros Hb Hk. unfold frames in Hk. destruct (bw_scan _ _ _ Hb) as [C1 C2 C3]. apply wp_try_update.
  - destruct (reverse _) as [|scope rest] eqn:Hr; apply (f_equal reverse) in Hr;
      rewrite reverse_involutive in Hr; rewrite Hr in Hk; [by destruct kinds|].
    rewrite reverse_cons, fmap_app in Hk. apply app_inj_2 in Hk as [Hk _]; [|done].
    intros o b' [= <- <-]. split; [|done].
    split; [by apply (same_walk_wf program open b)|by repeat split].
  - by destruct (reverse _).
Qed.

(** ** One level of the recursion *)

(** Draining the deferred bodies above a watermark, when they are smaller than
    [k]. *)
Definition drains (k : nat) (drain : nat → M B ()) : Prop := ∀ b base tail,
  bwf program open b → deferred_bodies (scan b) = base ++ tail →
  (∀ d, d ∈ tail → esize (db_body d) < k) →
  wp (drain (length base)) arena_full
    (λ _ b', (bwf program open b' ∧ still b b' ∧ attaches b ≤ attaches b') ∧
       deferred_bodies (scan b') = base) b.

(** The value of an argument is a child of the call. *)
Lemma arg_child f items range item value :
  item ∈ items → item ≫= arg_value = Some value → child value (RCall f (Some items) range).
Proof.
  intros Hi Hv. unfold child. simpl. apply elem_of_app. right. apply list_elem_of_omap. eauto.
Qed.

Section recursion.
Context (e0 : expr) (Hin : within program e0).
Context (scan_expression : expr → M B ()) (scan_deferred_bodies : nat → M B ()).
Context (Hscan : ∀ e, tc child e e0 → sk (esize e) (scan_expression e)).
Context (Hdrain : ∀ e, tc child e e0 → drains (esize e) scan_deferred_bodies).

Lemma scan_sub_sk e : tc child e e0 → sk (esize e0) (scan_expression e).
Proof. intros He. eapply sk_mono; [|by apply Hscan]. apply strict_size in He. lia. Qed.

Lemma scan_child_sk e : child e e0 → sk (esize e0) (scan_expression e).
Proof. intros He. by apply scan_sub_sk, tc_once. Qed.

Lemma scan_nested_eager_sk value :
  child value e0 → sk (esize e0) (scan_nested_eager scan_expression scan_deferred_bodies value).
Proof.
  intros Hv b Hb. apply tc_once in Hv. unfold scan_nested_eager.
  apply wp_bind, wp_gets, wp_bind, wp_gets, wp_bind.
  eapply wp_mono; [by apply push_open_scope_wp|]. intros [] b1 [(Hb1 & A1 & D1 & L1) F1].
  apply wp_bind. eapply wp_mono; [by apply (Hscan value)|].
  intros [] b2 [Hb2 [[[A2 F2] (ext & D2 & Hext)] L2]]. rewrite D1 in D2.
  apply wp_bind. eapply wp_mono; [by eapply (Hdrain value Hv b2)|].
  intros [] b3 [(Hb3 & [A3 F3] & L3) D3].
  apply wp_bind. eapply wp_mono.
  { apply (pop_open_scope_wp (frames b) (KNse EnvNested Eager)); [done|congruence]. }
  intros o b4 [(Hb4 & A4 & D4 & L4) F4].
  assert (K4 : scanned (esize e0) b b4).
  { split; [split; [split; [by do 3 (etrans; [eassumption|])|done]|]|lia].
    exists []. rewrite D4, D3, app_nil_r. set_solver. }
  assert (Hrest : sk (esize e0) (if_some o (λ scope,
      on_scan (λ s, set_body_scans (<[range_of value := Scanned (os_bindings scope)]> (body_scans s)) s));;
    on_scan (λ s, set_bound_so_far
      (FlowState.restore (FlowState.snapshot (bound_so_far (scan b))) (bound_so_far s)) s)))
    by (sk; by apply on_scan_frame).
  eapply wp_mono; [by apply Hrest|]. intros [] b5 [Hb5 K5]. split; [done|]. by etrans.
Qed.

Lemma scan_argument_sk effects i effect value :
  effects_ok e0 effects → effects !! i = Some effect → child value e0 →
  sk (esize e0) (scan_argument scan_expression scan_deferred_bodies effect value).
Proof.
  intros Hok Hi Hv. destruct effect as [[[] []|holes]|]; simpl;
    try solve [by apply scan_child_sk].
  - apply (modify_scan (esize e0) (λ b s, set_deferred_bodies (deferred_bodies s ++
      [mkDeferredBody value (FlowState.snapshot (bound_so_far s)) (search_path b)]) s)).
    intros b Hb. destruct (bw_scan _ _ _ Hb) as [C1 C2 C3]. split.
    + split; simpl; [done| |done]. intros d [Hd|Hd]%elem_of_app; [auto|].
      apply list_elem_of_singleton in Hd as ->. simpl. by eapply within_child.
    + split; [split; [by repeat split|]|done].
      eexists; split; [done|]. intros d ->%list_elem_of_singleton. simpl. by apply child_size.
  - by apply scan_nested_eager_sk.
  - sk.
  - sk. apply scan_sub_sk. eapply eo_holes; [done| |done]. by eapply list_elem_of_lookup_2.
Qed.

Lemma scan_call_arguments_sk f a range effects :
  e0 = RCall f a range → (∀ es, effects = Some es → effects_ok e0 es) →
  sk (esize e0) (scan_call_arguments scan_expression scan_deferred_bodies e0 effects).
Proof.
  intros He Hok. unfold scan_call_arguments.
  destruct effects as [effects|].
  - specialize (Hok effects eq_refl).
    apply keeps_bind; [apply _|by sk|intros _]. apply keeps_if_some; [apply _|]. intros items Hitems.
    apply keeps_bind; [apply _| |intros _].
    + apply keeps_for_each_i; [apply _|]. intros i item Hi.
      apply keeps_if_some; [apply _|]. intros value Hval.
      assert (Hv : child value e0).
      { rewrite He in Hitems |- *. simpl in Hitems. subst a.
        eapply arg_child; [by eapply list_elem_of_lookup_2|done]. }
      intros b Hb. apply wp_bind, wp_try_get.
      * intros effect Heff. by eapply scan_argument_sk.
      * intros Hn. apply lookup_ge_None in Hn. rewrite (eo_aligned _ _ Hok items) in Hn by done.
        apply lookup_lt_Some in Hi. simpl in Hn. lia.
    + apply set_arguments_sk; [done|by rewrite He|done].
  - sk. unfold scan_plain_arguments. sk. apply scan_child_sk. rewrite He in *. simplify_eq/=.
    by eapply arg_child.
Qed.

Lemma scan_call_sk f a range :
  e0 = RCall f a range → sk (esize e0) (scan_call scan_expression scan_deferred_bodies e0).
Proof.
  intros He b Hb. unfold scan_call. apply wp_bind.
  eapply wp_mono; [by apply (resolve_effects_sk (esize e0))|].
  intros effects b1 [[Hb1 S1] Hok]. set (es := default _ effects).
  assert (Hes : ∀ arguments, eff_arguments es = Some arguments → effects_ok e0 arguments).
  { intros args Ha. destruct effects; [by eapply Hok|done]. }
  assert (Hrest : sk (esize e0) (
    scan_call_arguments scan_expression scan_deferred_bodies e0 (eff_arguments es);;
    if_some (eff_attach es) (scan_attach (range_of e0));;
    if_some (eff_source es) (scan_sources (range_of e0));;
    if_some (eff_assign es) (λ bindings,
      for_each bindings (λ binding,
        record_binding (ab_name binding) (range_of e0);;
        upd_resolution (range_of e0) (push_cres_assign binding))))).
  { apply keeps_bind; [apply _|by eapply scan_call_arguments_sk|sk]. }
  eapply wp_mono; [by apply Hrest|]. intros [] b2 [Hb2 S2]. split; [done|by etrans].
Qed.

Lemma scan_assignment_sk op lhs rhs range :
  e0 = RBinaryExpression op lhs rhs range → sk (esize e0) (scan_assignment scan_expression op lhs rhs).
Proof.
  intros He.
  assert (Hl : ∀ e, lhs = Some e → child e e0) by (intros e ->; rewrite He; by left).
  assert (Hr : ∀ e, rhs = Some e → child e e0)
    by (intros e ->; rewrite He; apply elem_of_app; right; by left).
  assert (Hs : ∀ (c : bool) e, (if c then lhs else rhs) = Some e → sk (esize e0) (scan_expression e))
    by (intros [] e ?; apply scan_child_sk; auto).
  unfold scan_assignment. sk.
  destruct (assignment_name x) as [[name r]|].
  - destruct (is_super_assignment op); sk.
  - apply scan_child_sk. destruct (is_right_assignment op); auto.
Qed.

Lemma scan_expression_step_sk :
  sk (esize e0) (scan_expression_step scan_expression scan_deferred_bodies e0).
Proof.
  pose proof scan_child_sk as Hc. pose proof scan_assignment_sk as Hassign.
  pose proof scan_call_sk as Hcall.
  assert (Hd : ∀ l, (∀ e, e ∈ l → child e e0) → sk (esize e0) (scan_descendants scan_expression l))
    by (unfold scan_descendants; sk).
  assert (Ho : ∀ o, (∀ e, o = Some e → child e e0) → sk (esize e0) (if_some o scan_expression)) by sk.
  unfold scan_expression_step. destruct e0 eqn:He; rewrite <-He in *;
    try solve [sk | apply Hd; rewrite He; unfold child; simpl; set_solver].
  - (* binary operators *)
    destruct (is_assignment operator); [by eapply Hassign|].
    sk; apply Hc; rewrite He; unfold child; simpl; subst; set_solver.
  - (* calls *)
    apply keeps_bind; [apply _| |intros _; by eapply Hcall].
    apply Ho. intros e ->. rewrite He. by left.
  - (* for *)
    apply keeps_bind; [apply _| |intros _; apply keeps_bind; [apply _| |intros _]].
    + apply keeps_if_some; [apply _|]. intros [name r] _. sk.
    + apply Ho. intros e ->. rewrite He. by left.
    + apply scan_loop_body_sk. intros e ->. apply Hc. rewrite He. apply elem_of_app. right. by left.
  - (* if *)
    apply keeps_bind; [apply _| |intros _].
    + apply Ho. intros e ->. rewrite He. by left.
    + apply scan_branch_sk; intros e ->; apply Hc; rewrite He; unfold child; simpl; set_solver.
  - (* while *)
    apply keeps_bind; [apply _| |intros _].
    + apply Ho. intros e ->. rewrite He. by left.
    + apply scan_loop_body_sk. intros e ->. apply Hc. rewrite He. apply elem_of_app. right. by left.
Qed.
End recursion.

(** ** Parameters and deferred bodies *)

Lemma scan_parameter_defaults_sk n (f : expr → M B ()) items :
  (∀ e, e ∈ param_exprs items → sk n (f e)) → sk n (scan_parameter_defaults f items).
Proof.
  intros Hf. unfold scan_parameter_defaults. sk.
  - destruct (param_text _); sk.
  - apply Hf, list_elem_of_omap. eexists. split; [done|]. destruct x as [p|]; [|done]. simpl in *.
    by simplify_eq/=; match goal with Hp : par_default _ = _ |- _ => rewrite Hp end.
Qed.

Lemma scan_deferred_body_sk n (f : expr → M B ()) d :
  sk n (f (db_body d)) → sk n (scan_deferred_body f d).
Proof.
  intros Hf b Hb. unfold scan_deferred_body. apply wp_bind, wp_gets, wp_bind, wp_gets, wp_bind.
  eapply wp_mono; [by apply (set_inherited_flow_sk n)|]. intros [] b1 [Hb1 S1].
  apply wp_bind. eapply wp_mono; [by apply push_open_scope_wp|].
  intros [] b2 [(Hb2 & A2 & D2 & L2) F2].
  apply wp_bind. eapply wp_mono; [by apply Hf|].
  intros [] b3 [Hb3 [[[A3 F3] (ext & D3 & Hext)] L3]].
  apply wp_bind. eapply wp_mono.
  { apply (pop_open_scope_wp (frames b1) (KNse EnvCurrent Lazy)); [done|congruence]. }
  intros o b4 [(Hb4 & A4 & D4 & L4) F4].
  eapply wp_mono; [by apply (set_flow_inherited_sk n)|]. intros [] b5 [Hb5 S5].
  split; [done|]. etrans; [exact S1|]. etrans; [|exact S5].
  split; [|lia]. split; [split; [by do 2 (etrans; [eassumption|])|done]|].
  exists ext. split; [congruence|done].
Qed.

Lemma split_off_deferred_wp b base tail :
  bwf program open b → deferred_bodies (scan b) = base ++ tail →
  wp (split_off_deferred (length base)) arena_full
    (λ batch b', (bwf program open b' ∧ still b b' ∧ attaches b ≤ attaches b') ∧
       deferred_bodies (scan b') = base ∧ batch = tail) b.
Proof.
  intros Hb Hd. destruct (bw_scan _ _ _ Hb) as [C1 C2 C3]. rewrite Hd in C2.
  apply wp_try_update; unfold FlowAttaches.vec_split_off; rewrite Hd, length_app, decide_True by lia;
    [|done].
  simpl. rewrite take_app_length, drop_app_length. intros batch b' [= <- <-].
  split; [|done]. split; [|by repeat split].
  apply (same_walk_wf program open b); [done..|]. split; simpl; [done| |done]. set_solver.
Qed.

(** ** The pass *)

Lemma esize_pos e : 0 < esize e.
Proof. destruct e; simpl; lia. Qed.

Lemma drains_mono k k' drain : k ≤ k' → drains k' drain → drains k drain.
Proof.
  intros Hk Hd b base tail Hb Heq Htail. eapply Hd; [done|done|].
  intros d Hin. specialize (Htail d Hin). lia.
Qed.

(** With fuel for the size of the expression, a scan ends. *)
Lemma scan_pass fuel :
  (∀ e, within program e → esize e ≤ fuel → sk (esize e) (scan_expression fuel e)) ∧
  (0 < fuel → drains fuel (scan_deferred_bodies fuel)).
Proof.
  induction fuel as [|fuel [IHe IHd]]; (split; [intros e Hin He|intros Hpos]);
    [pose proof (esize_pos e); lia|lia| |].
  - apply scan_expression_step_sk; [done| |].
    + intros e' He'. apply IHe; [by eapply within_strict|]. apply strict_size in He'. lia.
    + intros e' He'. apply strict_size in He'. pose proof (esize_pos e').
      eapply drains_mono; [|apply IHd]; lia.
  - intros b base tail Hb Hd Htail.
    pose proof (cw_deferred _ _ (bw_scan _ _ _ Hb)) as Hbodies. simpl. apply wp_bind.
    eapply wp_mono; [by eapply split_off_deferred_wp|].
    intros batch b1 [(Hb1 & S1 & L1) [D1 ->]]. destruct tail as [|d tail]; [by apply wp_ret|].
    assert (Hbatch : ∀ d', d' ∈ d :: tail → within program (db_body d') ∧ esize (db_body d') ≤ fuel).
    { intros d' Hin. specialize (Htail d' Hin). split; [|lia]. apply Hbodies. rewrite Hd. set_solver. }
    assert (0 < fuel) by (pose proof (esize_pos (db_body d)); destruct (Hbatch d); [by left|lia]).
    apply wp_bind. eapply wp_mono.
    { refine (keeps_for_each _ _ (scanned fuel) _ _ _ b1 Hb1). intros d' Hin.
      destruct (Hbatch d' Hin). apply scan_deferred_body_sk. by eapply sk_mono; [|apply IHe]. }
    intros [] b2 [Hb2 [[S2 (ext & D2 & Hext)] L2]]. rewrite D1 in D2.
    eapply wp_mono; [by eapply IHd|]. intros [] b3 [(Hb3 & S3 & L3) D3].
    split; [|done]. split; [done|]. split; [by do 2 (etrans; [eassumption|])|lia].
Qed.
End scan.
