(* ===== verification/ScanFlow.v ===== *)
(** * What the scan knows to be bound

    The scan keeps one set, [bound_so_far]. [assigns e names] says that an execution
    of [e] assigns [names], in order; for code without calls, whose effects the
    handlers decide, the scan of an expression adds exactly the names that every
    execution assigns. Also what the scan knows to be attached: the search path
    of a state, and the join of two branches. *)

From S2P Require Export Scan ScanInv.

Section flow.
Context `{TextRanges}.

(** ** Executions *)

Inductive assigns_opt (assigns : expr → list string → Prop) : option expr → list string → Prop :=
| assigns_none : assigns_opt assigns None []
| assigns_some e names : assigns e names → assigns_opt assigns (Some e) names.

Inductive assigns_list (assigns : expr → list string → Prop) : list expr → list string → Prop :=
| assigns_nil : assigns_list assigns [] []
| assigns_cons e l names names' :
    assigns e names → assigns_list assigns l names' → assigns_list assigns (e :: l) (names ++ names').

Definition is_leaf (e : expr) : bool :=
  match e with
  | RIdentifier _ _ | RDots _ | RDotDotI _ _ | RStringValue _ _ | RNullExpression _
  | RTrueExpression _ | RFalseExpression _ | RFunctionDefinition _ _ _ => true
  | _ => false
  end.

(** The value and the target of an assignment. *)
Definition value_side (op : option token) (lhs rhs : option expr) : option expr :=
  if is_right_assignment op then lhs else rhs.
Definition target_side (op : option token) (lhs rhs : option expr) : option expr :=
  if is_right_assignment op then rhs else lhs.

(** Operators other than the assignments that handlers may know. *)
Definition plain_operator (op : option token) : bool :=
  negb (is_assignment op) &&
  from_option (λ op, negb (bool_decide (kind op = SPECIAL ∨ kind op = WALRUS))) true op.

Inductive assigns : expr → list string → Prop :=
| assigns_leaf e : is_leaf e = true → assigns e []
| assigns_braces l r names : assigns_list assigns l names → assigns (RBracedExpressions l r) names
| assigns_assign op lhs rhs r target name range names :
    is_assignment op = true → target_side op lhs rhs = Some target →
    assignment_name target = Some (name, range) →
    assigns_opt assigns (value_side op lhs rhs) names →
    assigns (RBinaryExpression op lhs rhs r)
      (names ++ if is_super_assignment op then [] else [name])
| assigns_operator op lhs rhs r names names' :
    plain_operator op = true → assigns_opt assigns lhs names → assigns_opt assigns rhs names' →
    assigns (RBinaryExpression op lhs rhs r) (names ++ names')
| assigns_then c t f r names names' :
    assigns_opt assigns c names → assigns_opt assigns t names' → assigns (RIfStatement c t f r) (names ++ names')
| assigns_else c t f r names names' :
    assigns_opt assigns c names → assigns_opt assigns f names' → assigns (RIfStatement c t f r) (names ++ names')
| assigns_while_end c b r names : assigns_opt assigns c names → assigns (RWhileStatement c b r) names
| assigns_while_again c b r names names' names'' :
    assigns_opt assigns c names → assigns_opt assigns b names' → assigns (RWhileStatement c b r) names'' →
    assigns (RWhileStatement c b r) (names ++ names' ++ names'')
| assigns_for v s b r names bodies :
    assigns_opt assigns s names → (∀ names', names' ∈ bodies → assigns_opt assigns b names') →
    assigns (RForStatement v s b r) (names ++ option_list (fst <$> v) ++ concat bodies).

(** Expressions that [assigns] covers. *)
Inductive straight : expr → Prop :=
| straight_leaf e : is_leaf e = true → straight e
| straight_braces l r : (∀ e, e ∈ l → straight e) → straight (RBracedExpressions l r)
| straight_assign op lhs rhs r target name range :
    is_assignment op = true → target_side op lhs rhs = Some target →
    assignment_name target = Some (name, range) →
    (∀ e, value_side op lhs rhs = Some e → straight e) →
    straight (RBinaryExpression op lhs rhs r)
| straight_operator op lhs rhs r :
    plain_operator op = true → (∀ e, lhs = Some e → straight e) →
    (∀ e, rhs = Some e → straight e) → straight (RBinaryExpression op lhs rhs r)
| straight_if c t f r :
    (∀ e, c = Some e → straight e) → (∀ e, t = Some e → straight e) →
    (∀ e, f = Some e → straight e) → straight (RIfStatement c t f r)
| straight_while c b r :
    (∀ e, c = Some e → straight e) → (∀ e, b = Some e → straight e) →
    straight (RWhileStatement c b r)
| straight_for v s b r :
    (∀ e, s = Some e → straight e) → (∀ e, b = Some e → straight e) →
    straight (RForStatement v s b r).

(** ** Names bound on every path *)

(** [must] holds exactly the names in all the traces. *)
Record exactly (traces : list string → Prop) (must : gset string) : Prop := {
  ex_some : ∃ names, traces names;
  ex_in name : name ∈ must → ∀ names, traces names → name ∈ names;
  ex_out name : name ∉ must → ∃ names, traces names ∧ name ∉ names;
}.

Lemma exactly_ext (T T' : list string → Prop) must :
  (∀ names, T names ↔ T' names) → exactly T must → exactly T' must.
Proof.
  intros HT [[n Hn] Hin Hout]. split.
  - exists n. by apply HT.
  - intros name Hm names Hr%HT. by apply Hin.
  - intros name Hm. destruct (Hout name Hm) as (names & ?%HT & ?). eauto.
Qed.

Lemma exact_single names : exactly (λ n, n = names) (list_to_set names).
Proof.
  split; [eauto| |].
  - intros name Hm ? ->. by apply elem_of_list_to_set in Hm.
  - intros name Hm. exists names. split; [done|]. intros ?. apply Hm. by apply elem_of_list_to_set.
Qed.

Lemma exact_app T1 T2 m1 m2 :
  exactly T1 m1 → exactly T2 m2 →
  exactly (λ n, ∃ n1 n2, n = n1 ++ n2 ∧ T1 n1 ∧ T2 n2) (m1 ∪ m2).
Proof.
  intros [[x1 X1] I1 O1] [[x2 X2] I2 O2]. split; [by exists (x1 ++ x2), x1, x2| |].
  - intros name [Hm|Hm]%elem_of_union n (n1 & n2 & -> & H1 & H2); apply elem_of_app;
      [left|right]; eauto.
  - intros name Hm. destruct (O1 name) as (n1 & ? & ?); [set_solver|].
    destruct (O2 name) as (n2 & ? & ?); [set_solver|].
    exists (n1 ++ n2). split; [eauto|]. rewrite elem_of_app. tauto.
Qed.

Lemma exact_or (T1 T2 : list string → Prop) m1 m2 :
  exactly T1 m1 → exactly T2 m2 → exactly (λ n, T1 n ∨ T2 n) (m1 ∩ m2).
Proof.
  intros [[x1 X1] I1 O1] [[x2 X2] I2 O2]. split; [eauto| |].
  - intros name [Hm1 Hm2]%elem_of_intersection n [H1|H2]; eauto.
  - intros name Hm. destruct (decide (name ∈ m1)) as [Hin|Hn].
    + destruct (O2 name) as (n & ? & ?); [set_solver|eauto].
    + destruct (O1 name) as (n & ? & ?); [done|eauto].
Qed.

(** Traces that extend those of a shorter execution add no certainty. *)
Lemma exact_more (T T' : list string → Prop) must :
  (∀ n, T n → T' n) → (∀ n, T' n → ∃ n1 n2, n = n1 ++ n2 ∧ T n1) → exactly T must → exactly T' must.
Proof.
  intros Hsub Hext [[n Hn] Hin Hout]. split; [eauto| |].
  - intros name Hm n' (n1 & n2 & -> & H1)%Hext. apply elem_of_app. left. by apply Hin.
  - intros name Hm. destruct (Hout name Hm) as (n' & ? & ?). eauto.
Qed.
End flow.

(** ** What a computation adds to the bound names *)

Section scan.
Context `{TextRanges, Urls, !HandlerTypes, !Handlers, !ImportsResolver, BuildProfile}.
#[local] Abbreviation B := SemanticIndexBuilder.
Implicit Types b : B.

Definition names_bound b : gset string := bound_so_far (scan b).

(** Where [m] ends, it has added exactly the names [must]. *)
Definition adds {A} (m : M B A) (must : gset string) : Prop :=
  ∀ b a b', m b = Done a b' → names_bound b' = names_bound b ∪ must.

Lemma adds_ret {A} (a : A) : adds (mret a) ∅.
Proof. intros b a' b' [= _ <-]. set_solver. Qed.

Lemma adds_bind {A C} (m : M B A) (k : A → M B C) m1 m2 :
  adds m m1 → (∀ a, adds (k a) m2) → adds (m ≫= k) (m1 ∪ m2).
Proof.
  intros Hm Hk b c b' (a & b1 & E1 & E2)%bind_Done. apply Hm in E1. apply Hk in E2.
  rewrite E2, E1. set_solver.
Qed.

(** Sequences whose other part leaves the bound names alone. *)
Lemma adds_before {A C} (m : M B A) (k : A → M B C) must :
  adds m ∅ → (∀ a, adds (k a) must) → adds (m ≫= k) must.
Proof. intros. replace must with (∅ ∪ must) by set_solver. by apply adds_bind. Qed.

Lemma adds_after {A C} (m : M B A) (k : A → M B C) must :
  adds m must → (∀ a, adds (k a) ∅) → adds (m ≫= k) must.
Proof. intros. replace must with (must ∪ ∅) by set_solver. by apply adds_bind. Qed.

Lemma adds_gets {A} (f : B → A) : adds (gets f) ∅.
Proof. intros b a b' [= _ <-]. set_solver. Qed.

Lemma adds_try_get {A} (f : B → option A) : adds (try_get f) ∅.
Proof. intros b a b'. unfold try_get. destruct (f b); [|done]. intros [= _ <-]. set_solver. Qed.

Lemma adds_modify (f : B → B) : (∀ b, names_bound (f b) = names_bound b) → adds (modify f) ∅.
Proof. intros Hf b a b' [= _ <-]. rewrite Hf. set_solver. Qed.

Lemma adds_on_scan f : (∀ s, bound_so_far (f s) = bound_so_far s) → adds (on_scan f) ∅.
Proof. intros Hf. apply adds_modify. intros b. apply Hf. Qed.

Lemma adds_when (c : bool) (m : M B ()) : adds m ∅ → adds (when c m) ∅.
Proof. intros Hm. destruct c; [done|apply adds_ret]. Qed.

Lemma adds_if_some {A} (o : option A) (f : A → M B ()) :
  (∀ a, adds (f a) ∅) → adds (if_some o f) ∅.
Proof. intros Hf. destruct o; [apply Hf|apply adds_ret]. Qed.

Lemma adds_for_each {A} (l : list A) (f : A → M B ()) :
  (∀ a, adds (f a) ∅) → adds (for_each l f) ∅.
Proof.
  intros Hf. induction l as [|a l IH]; [apply adds_ret|]. by apply adds_before; [apply Hf|intros _].
Qed.

Ltac quiet := repeat first
  [ apply adds_ret | apply adds_gets | apply adds_try_get
  | apply adds_before; [|intros ?] | apply adds_when | apply adds_if_some; intros ?
  | apply adds_for_each; intros ? | apply adds_on_scan; by intros ?
  | apply adds_modify; by intros ? | case_decide ].

(** ** The operations around a region *)

Lemma split_off_adds watermark : adds (split_off_attaches watermark) ∅.
Proof.
  intros b a b'. unfold split_off_attaches, try_update.
  destruct (FlowAttaches.split_off _ _) as [[attaches sites]|]; [|done].
  intros [= _ <-]. unfold names_bound. simpl. set_solver.
Qed.

Lemma end_attach_effects_adds sites end_ : adds (end_attach_effects sites end_) ∅.
Proof. unfold end_attach_effects. quiet. Qed.

Lemma join_attaches_adds c c_end a a_end range : adds (join_attaches c c_end a a_end range) ∅.
Proof.
  unfold join_attaches, record_attach_order_ambiguity. destruct (List.partition _ _).
  quiet; try apply end_attach_effects_adds; quiet.
Qed.

Lemma record_binding_adds name range : adds (record_binding name range) {[name]}.
Proof.
  intros b a b' ([] & b1 & [= <-] & Hu)%bind_Done. unfold try_update in Hu.
  assert (names_bound b' = {[name]} ∪ names_bound b) as ->; [|set_solver].
  destruct (add_to_frames _ _ _) as [frames|]; [by injection Hu as _ <-|].
  destruct (IndexVec.index_mut _ _ _); [|done]. by injection Hu as _ <-.
Qed.

Lemma scan_super_adds name range : adds (scan_super_binding_package name range) ∅.
Proof. unfold scan_super_binding_package. quiet. Qed.

Lemma record_enclosing_flow_adds range : adds (record_enclosing_flow range) ∅.
Proof. apply adds_modify. done. Qed.

Lemma scan_operator_adds op lhs rhs r :
  plain_operator op = true → adds (scan_operator_assign (RBinaryExpression op lhs rhs r)) ∅.
Proof.
  intros [_ Hop]%andb_true_iff b a b' (x & b1 & E1 & E2)%bind_Done.
  assert (x = None ∧ b1 = b) as [-> ->].
  { unfold resolve_operator_assign in E1. destruct op as [op|]; simpl in *;
      [rewrite Hop in E1|]; by injection E1 as <- <-. }
  injection E2 as _ <-. set_solver.
Qed.

(** ** Regions *)

(** What the scan of an expression is to add, whatever its fuel. *)
Definition scans_exactly (e : expr) : Prop :=
  ∃ must, (∀ fuel, adds (scan_expression fuel e) must) ∧ exactly (assigns e) must.

(** An optional part is scanned when it is there. *)
Lemma opt_exact (o : option expr) :
  (∀ e, o = Some e → scans_exactly e) →
  ∃ must, (∀ fuel, adds (if_some o (scan_expression fuel)) must) ∧
    (∀ fuel, adds (scan_conditional (scan_expression fuel) o) must) ∧ exactly (assigns_opt assigns o) must.
Proof.
  intros Ho. destruct o as [e|]; simpl.
  - destruct (Ho e eq_refl) as (must & Ha & He). exists must. split; [done|].
    split; [intros fuel; by apply adds_after; [|intros _; apply adds_ret]|].
    eapply exactly_ext; [|exact He]. intros names. split; [by constructor|by inversion 1].
  - exists ∅. split; [intros _; apply adds_ret|]. split; [intros _; apply adds_ret|].
    eapply exactly_ext; [|exact (exact_single [])]. intros names.
    split; [intros ->; constructor|by inversion 1].
Qed.

Lemma list_exact l :
  (∀ e, e ∈ l → scans_exactly e) →
  ∃ must, (∀ fuel, adds (for_each l (scan_expression fuel)) must) ∧ exactly (assigns_list assigns l) must.
Proof.
  intros Hl. induction l as [|e l IH]; simpl.
  - exists ∅. split; [intros _; apply adds_ret|]. eapply exactly_ext; [|exact (exact_single [])].
    intros names. split; [intros ->; constructor|by inversion 1].
  - destruct (Hl e) as (m1 & Ha1 & He1); [by left|].
    destruct IH as (m2 & Ha2 & He2); [intros; apply Hl; by right|].
    exists (m1 ∪ m2). split; [intros fuel; by apply adds_bind|].
    eapply exactly_ext; [|exact (exact_app _ _ _ _ He1 He2)]. intros names. split.
    + intros (n1 & n2 & -> & ? & ?). by constructor.
    + inversion 1; subst. eauto.
Qed.

Section regions.
Context (visit : expr → M B ()).

Lemma branch_adds t f range mt mf :
  adds (scan_conditional visit t) mt → adds (scan_conditional visit f) mf →
  adds (scan_branch visit t f range) (mt ∩ mf).
Proof.
  intros Ht Hf b a b' Hrun. unfold scan_branch in Hrun.
  apply bind_Done in Hrun as (pre & b0 & [= <- <-] & Hrun).
  apply bind_Done in Hrun as (w & b0 & [= <- <-] & Hrun).
  apply bind_Done in Hrun as (c_end & b1 & Hc & Hrun). apply Ht in Hc.
  apply bind_Done in Hrun as (post & b0 & [= <- <-] & Hrun).
  apply bind_Done in Hrun as (sites & b2 & Hs & Hrun). apply split_off_adds in Hs.
  apply bind_Done in Hrun as ([] & b3 & [= <-] & Hrun).
  apply bind_Done in Hrun as (a_end & b4 & Ha & Hrun). apply Hf in Ha.
  apply bind_Done in Hrun as ([] & b5 & [= <-] & Hrun).
  apply bind_Done in Hrun as (sites' & b6 & Hs' & Hrun). apply split_off_adds in Hs'.
  apply join_attaches_adds in Hrun. rewrite Hrun, Hs'. clear Hrun Hs'.
  unfold names_bound in *. simpl in *. unfold FlowState.snapshot, FlowState.restore in *.
  rewrite FlowState.flow_merge_spec, Ha, Hc. set_solver.
Qed.

Lemma loop_adds body mb :
  adds (scan_conditional visit body) mb → adds (scan_loop_body visit body) ∅.
Proof.
  intros Hb b a b' Hrun. unfold scan_loop_body in Hrun.
  apply bind_Done in Hrun as (w & b0 & [= <- <-] & Hrun).
  apply bind_Done in Hrun as (pre & b0 & [= <- <-] & Hrun).
  apply bind_Done in Hrun as (c_end & b1 & Hc & Hrun). apply Hb in Hc.
  apply bind_Done in Hrun as ([] & b2 & [= <-] & Hrun).
  apply bind_Done in Hrun as (sites & b3 & Hs & Hrun). apply split_off_adds in Hs.
  apply end_attach_effects_adds in Hrun. rewrite Hrun, Hs.
  unfold names_bound in *. simpl in *. unfold FlowState.snapshot in *.
  rewrite FlowState.flow_merge_spec, Hc. set_solver.
Qed.
End regions.

(** ** The scan of an expression *)

Lemma leaf_exact e : is_leaf e = true → exactly (assigns e) ∅.
Proof.
  intros Hl. eapply exactly_ext; [|exact (exact_single [])]. intros names. split.
  - intros ->. by constructor.
  - inversion 1; subst; by try discriminate.
Qed.

Lemma assign_exact op lhs rhs r target name range :
  is_assignment op = true → target_side op lhs rhs = Some target →
  assignment_name target = Some (name, range) →
  (∀ e, value_side op lhs rhs = Some e → scans_exactly e) →
  ∃ must, (∀ fuel, adds (scan_assignment (scan_expression fuel) op lhs rhs) must) ∧
    exactly (assigns (RBinaryExpression op lhs rhs r)) must.
Proof.
  intros Hop Ht Hn Hv. destruct (opt_exact _ Hv) as (mv & Ha & _ & He).
  set (names := if is_super_assignment op then [] else [name]).
  exists (mv ∪ list_to_set names). split.
  - intros fuel. unfold scan_assignment. fold (value_side op lhs rhs) (target_side op lhs rhs). rewrite Ht.
    apply adds_bind; [done|]. intros _. simpl. rewrite Hn. unfold names.
    destruct (is_super_assignment op); [by apply scan_super_adds|].
    simpl. rewrite (right_id_L ∅ (∪)). apply record_binding_adds.
  - eapply exactly_ext; [|exact (exact_app _ _ _ _ He (exact_single names))]. intros ns. split.
    + intros (n1 & n2 & -> & ? & ->). by eapply assigns_assign.
    + inversion 1 as [? Hf| |? ? ? ? target' name' ? n1 ? Ht' Hn'|? ? ? ? ? ? Hp| | | | |]; subst; try done.
      * rewrite Ht in Ht'. injection Ht' as <-. rewrite Hn in Hn'. injection Hn' as <- _. eauto.
      * unfold plain_operator in Hp. by rewrite Hop in Hp.
Qed.

Lemma operator_exact op lhs rhs r :
  plain_operator op = true → (∀ e, lhs = Some e → scans_exactly e) → (∀ e, rhs = Some e → scans_exactly e) →
  ∃ must, (∀ fuel, adds (if_some lhs (scan_expression fuel);;
      if_some rhs (scan_expression fuel);;
      scan_operator_assign (RBinaryExpression op lhs rhs r)) must) ∧
    exactly (assigns (RBinaryExpression op lhs rhs r)) must.
Proof.
  intros Hop Hl Hr. destruct (opt_exact _ Hl) as (ml & Hal & _ & Hel).
  destruct (opt_exact _ Hr) as (mr & Har & _ & Her). exists (ml ∪ mr). split.
  - intros fuel. apply adds_bind; [done|]. intros _. apply adds_after; [done|]. intros _.
    by apply scan_operator_adds.
  - eapply exactly_ext; [|exact (exact_app _ _ _ _ Hel Her)]. intros ns. split.
    + intros (n1 & n2 & -> & ? & ?). by constructor.
    + inversion 1 as [? Hf| |? ? ? ? ? ? ? ? Ha| | | | | |]; subst; try done; eauto.
      unfold plain_operator in Hop. by rewrite Ha in Hop.
Qed.

Lemma if_exact c t f r :
  (∀ e, c = Some e → scans_exactly e) → (∀ e, t = Some e → scans_exactly e) → (∀ e, f = Some e → scans_exactly e) →
  ∃ must, (∀ fuel, adds (if_some c (scan_expression fuel);;
      scan_branch (scan_expression fuel) t f r) must) ∧
    exactly (assigns (RIfStatement c t f r)) must.
Proof.
  intros Hc Ht Hf. destruct (opt_exact _ Hc) as (mc & Hac & _ & Hec).
  destruct (opt_exact _ Ht) as (mt & _ & Hat & Het).
  destruct (opt_exact _ Hf) as (mf & _ & Haf & Hef).
  exists (mc ∪ mt ∩ mf). split; [intros fuel; apply adds_bind; [done|intros _; by apply branch_adds]|].
  eapply exactly_ext; [|exact (exact_app _ _ _ _ Hec (exact_or _ _ _ _ Het Hef))]. intros ns. split.
  - intros (n1 & n2 & -> & ? & [?|?]); [by apply assigns_then|by apply assigns_else].
  - inversion 1; subst; try done; eauto 10.
Qed.

Lemma while_exact c body r :
  (∀ e, c = Some e → scans_exactly e) → (∀ e, body = Some e → scans_exactly e) →
  ∃ must, (∀ fuel, adds (if_some c (scan_expression fuel);;
      scan_loop_body (scan_expression fuel) body) must) ∧
    exactly (assigns (RWhileStatement c body r)) must.
Proof.
  intros Hc Hb. destruct (opt_exact _ Hc) as (mc & Hac & _ & Hec).
  destruct (opt_exact _ Hb) as (mb & _ & Hab & _).
  exists mc. split; [intros fuel; apply adds_after; [done|intros _; by eapply loop_adds]|].
  eapply exact_more; [| |exact Hec].
  - intros n. apply assigns_while_end.
  - inversion 1; subst; try done; [|eauto]. exists n, []. by rewrite app_nil_r.
Qed.

Lemma for_exact v s body r :
  (∀ e, s = Some e → scans_exactly e) → (∀ e, body = Some e → scans_exactly e) →
  ∃ must, (∀ fuel, adds (if_some v (λ '(name, range), record_binding name range);;
      if_some s (scan_expression fuel);; scan_loop_body (scan_expression fuel) body) must) ∧
    exactly (assigns (RForStatement v s body r)) must.
Proof.
  intros Hs Hb. destruct (opt_exact _ Hs) as (ms & Has & _ & Hes).
  destruct (opt_exact _ Hb) as (mb & _ & Hab & _).
  exists (list_to_set (option_list (fst <$> v)) ∪ ms). split.
  - intros fuel. apply adds_bind; [|intros _; apply adds_after; [done|intros _; by eapply loop_adds]].
    destruct v as [[name range]|]; simpl; [|apply adds_ret].
    rewrite (right_id_L ∅ (∪)). apply record_binding_adds.
  - rewrite (comm_L (∪)). eapply exact_more; [| |exact (exact_app _ _ _ _ Hes (exact_single (option_list (fst <$> v))))].
    + intros n (n1 & n2 & -> & ? & ->). pose proof (assigns_for v s body r n1 []) as Hr.
      simpl in Hr. rewrite app_nil_r in Hr. apply Hr; [done|]. by intros ? ?%elem_of_nil.
    + inversion 1; subst; try done. rewrite app_assoc. eauto 10.
Qed.

(** Each expression [assigns] covers. *)
Lemma straight_spec e : straight e → scans_exactly e.
Proof.
  assert (Hstep : ∀ e' must, (∀ fuel, adds (scan_expression_step (scan_expression fuel)
      (scan_deferred_bodies fuel) e') must) → ∀ fuel, adds (scan_expression fuel e') must).
  { intros e' must Ha [|fuel]; [by intros ? ? ?|apply Ha]. }
  induction 1 as [e Hl|l r _ IH|op lhs rhs r target name range Hop Ht Hn _ IH|op lhs rhs r Hop _ IHl _ IHr
    |c t f r _ IHc _ IHt _ IHf|c body r _ IHc _ IHb|v s body r _ IHs _ IHb].
  - exists ∅. split; [apply Hstep; intros fuel|by apply leaf_exact].
    destruct e; try done; simpl; try apply adds_ret. apply record_enclosing_flow_adds.
  - destruct (list_exact l IH) as (must & Ha & He). exists must.
    split; [by apply Hstep|]. eapply exactly_ext; [|exact He]. intros names. split; [by constructor|].
    inversion 1; by subst.
  - destruct (assign_exact op lhs rhs r target name range) as (must & Ha & He); [done..|].
    exists must. split; [|done]. apply Hstep. intros fuel. simpl. by rewrite Hop.
  - destruct (operator_exact op lhs rhs r) as (must & Ha & He); [done..|].
    exists must. split; [|done]. apply Hstep. intros fuel. simpl.
    by destruct (andb_prop _ _ Hop) as [->%negb_true_iff _].
  - destruct (if_exact c t f r) as (must & Ha & He); [done..|]. exists must. by split; [apply Hstep|].
  - destruct (while_exact c body r) as (must & Ha & He); [done..|]. exists must. by split; [apply Hstep|].
  - destruct (for_exact v s body r) as (must & Ha & He); [done..|]. exists must. by split; [apply Hstep|].
Qed.
End scan.

(** Elements at their last occurrence. *)
Fixpoint keep_last (l : list string) : list string :=
  match l with
  | [] => []
  | x :: l => if decide (x ∈ l) then keep_last l else x :: keep_last l
  end.

Lemma keep_last_elem l x : x ∈ keep_last l ↔ x ∈ l.
Proof.
  induction l as [|y l IH]; simpl; [done|]. case_decide; set_solver.
Qed.

Lemma keep_last_NoDup l : NoDup (keep_last l).
Proof.
  induction l as [|y l IH]; simpl; [constructor|]. case_decide; [done|].
  constructor; [by rewrite keep_last_elem|done].
Qed.

Lemma keep_last_snoc l x :
  keep_last (l ++ [x]) = filter (λ y, y ≠ x) (keep_last l) ++ [x].
Proof.
  induction l as [|y l IH]; simpl; [done|].
  rewrite IH. destruct (decide (y ∈ l)) as [Hy|Hy].
  - by rewrite decide_True by set_solver.
  - destruct (decide (y = x)) as [->|Hne].
    + rewrite decide_True by set_solver. by rewrite filter_cons_False by naive_solver.
    + rewrite decide_False by set_solver. by rewrite filter_cons_True.
Qed.

(** A re-attach moves the package to the end. *)
Lemma search_order_alt sites packages :
  search_order sites packages =
  keep_last (filter (λ p, p ∈ packages) (site_package <$> sites)).
Proof.
  unfold search_order. induction sites as [|s sites IH] using rev_ind; [done|].
  rewrite foldl_app, fmap_app, filter_app. simpl. rewrite IH. case_decide as Hp.
  - by rewrite filter_cons_True, filter_nil, keep_last_snoc.
  - by rewrite filter_cons_False, filter_nil, app_nil_r.
Qed.

Section attaches.
Context `{TextRanges, Urls, !HandlerTypes}.
#[local] Abbreviation B := SemanticIndexBuilder.
Implicit Types (b : B) (s : ScanState).

(** A loop of updates is a fold. *)
Lemma for_each_modify {A} (l : list A) (f : A → B → B) b :
  for_each l (λ a, modify (f a)) b = Done () (foldl (λ b a, f a b) b l).
Proof. revert b. induction l as [|a l IH]; intros b; [done|]. apply IH. Qed.

Definition end_effect (end_ : N) (ends : gmap N (list (string * N))) (site : AttachSite) :=
  <[site_offset site := default [] (ends !! site_offset site) ++ [(site_package site, end_)]]> ends.

(** The attaches of a region that was left: each package with where it ends. *)
Definition ended (sites : list AttachSite) (end_ : option N) (ends : gmap N (list (string * N))) :=
  match end_ with Some end_ => foldl (end_effect end_) ends sites | None => ends end.

Lemma end_attach_effects_run sites end_ b :
  end_attach_effects sites end_ b =
  Done () (upd_scan (λ s, set_attach_effect_ends (ended sites end_ (attach_effect_ends s)) s) b).
Proof.
  unfold end_attach_effects. destruct end_ as [e|]; simpl.
  - unfold on_scan. rewrite for_each_modify. f_equal.
    revert b. induction sites as [|site sites IH]; intros b; simpl; [by destruct b as [? ? ? ? [] ?]|].
    by rewrite IH.
  - by destruct b as [? ? ? ? [] ?].
Qed.

Lemma ended_lookup sites e ends offset package :
  (package, e) ∈ default [] (ended sites (Some e) ends !! offset) ↔
  (package, e) ∈ default [] (ends !! offset) ∨ mkAttachSite package offset ∈ sites.
Proof.
  simpl. revert ends. induction sites as [|[p o] sites IH]; intros ends; simpl; [set_solver|].
  rewrite IH. unfold end_effect. simpl. destruct (decide (o = offset)) as [->|Hne].
  - rewrite lookup_insert_eq. simpl. rewrite elem_of_app, list_elem_of_singleton, elem_of_cons.
    naive_solver.
  - rewrite lookup_insert_ne by done. rewrite elem_of_cons. naive_solver.
Qed.

Lemma ended_keeps sites e ends offset entry :
  entry ∈ default [] (ends !! offset) → entry ∈ default [] (ended sites (Some e) ends !! offset).
Proof.
  simpl. revert ends. induction sites as [|[p o] sites IH]; intros ends Hin; [done|]. simpl.
  apply IH. unfold end_effect. simpl. destruct (decide (o = offset)) as [->|Hne].
  - rewrite lookup_insert_eq. apply elem_of_app. by left.
  - by rewrite lookup_insert_ne.
Qed.

Lemma push_attaches_run sites b :
  for_each sites (λ site, push_attach (site_package site) (site_offset site)) b =
  Done () (upd_scan (λ s, set_attached_so_far (mkFlowAttaches
    (fa_packages (attached_so_far s) ++ (site_package <$> sites))
    (fa_offsets (attached_so_far s) ++ (site_offset <$> sites))) s) b).
Proof.
  unfold push_attach, on_scan. rewrite for_each_modify. f_equal.
  revert b. induction sites as [|site sites IH]; intros b; simpl.
  - unfold upd_scan. rewrite !app_nil_r. by destruct b as [? ? ? ? [? ? ? ? [] ?] ?].
  - rewrite IH. simpl. unfold upd_scan. simpl. by rewrite <-!app_assoc.
Qed.

Lemma partition_alt {A} (p : A → bool) l :
  List.partition p l = (List.filter p l, List.filter (λ a, negb (p a)) l).
Proof. induction l as [|a l IH]; simpl; [done|]. rewrite IH. by destruct (p a). Qed.

(** What is attached on both sides of a join. *)
Definition attached_in (c : list AttachSite) (site : AttachSite) : bool :=
  existsb (λ other, bool_decide (site_package other = site_package site)) c.

Lemma attached_in_spec c site : attached_in c site = true ↔ site_package site ∈ site_package <$> c.
Proof.
  unfold attached_in. rewrite existsb_exists, list_elem_of_fmap. split.
  - intros (other & Hin%list_elem_of_In & Heq%bool_decide_eq_true). eauto.
  - intros (other & Heq & Hin). exists other. rewrite <-list_elem_of_In, bool_decide_eq_true. done.
Qed.

(** The diagnostic of a join. *)
Definition order_diagnostic (c both : list AttachSite) (range : TextRange) : list SemanticDiagnostic :=
  let packages : gset string := list_to_set (site_package <$> both) in
  if decide (2 ≤ length both ∧ search_order c packages ≠ search_order both packages)
  then [AmbiguousAttachOrder (search_order both packages) range] else [].

Definition append_diagnostics (l : list SemanticDiagnostic) b : B :=
  mkSemanticIndexBuilder (scopes b) (current_scope b) (diagnostics b ++ l)
    (callee_dependencies b) (scan b) (walk b).

Lemma record_order_run c both range b :
  record_attach_order_ambiguity c both range b =
  Done () (append_diagnostics (order_diagnostic c both range) b).
Proof.
  unfold record_attach_order_ambiguity, order_diagnostic, append_diagnostics.
  case_decide as Hlen.
  - rewrite decide_False by lia. rewrite app_nil_r. by destruct b.
  - case_decide as Heq.
    + rewrite decide_False by tauto. rewrite app_nil_r. by destruct b.
    + rewrite decide_True by (split; [lia|done]). done.
Qed.

(** [join_attaches] in closed form. *)
Lemma join_attaches_run c c_end a a_end range b :
  let both := List.filter (attached_in c) a in
  let dropped := List.filter (λ site, negb (attached_in c site)) a in
  join_attaches c c_end a a_end range b =
  Done () (upd_scan (λ s, set_attached_so_far (mkFlowAttaches
      (fa_packages (attached_so_far s) ++ (site_package <$> both))
      (fa_offsets (attached_so_far s) ++ (site_offset <$> both)))
    (set_attach_effect_ends (ended dropped a_end (ended c c_end (attach_effect_ends s))) s))
    (append_diagnostics (order_diagnostic c both range) b)).
Proof.
  intros both dropped. unfold join_attaches. rewrite partition_alt. fold (attached_in c).
  fold both. fold dropped. unfold mbind, M_bind.
  by rewrite record_order_run, !end_attach_effects_run, push_attaches_run.
Qed.
End attaches.
