(* ===== verification/Walk.v ===== *)
(** * The walk pass: [crates/oak_semantic/src/builder/walk.rs]

    The recursive descent that writes the arenas. As in [Scan], functions take
    the recursive call as an argument; [walk_expression] ties the knot, on the
    same fuel as the scans it starts. [build_index] is in [builder.rs]. *)

From S2P Require Export Scan.

Section walk.
Context `{TextRanges, Urls, !HandlerTypes, !Handlers, !ImportsResolver, BuildProfile, MergeJoinBy}.

#[local] Abbreviation B := SemanticIndexBuilder.

(** ** Arena updates *)

Definition on_walk (f : WalkState → WalkState) : M B () := modify (upd_walk f).

(** [self.walk.symbol_tables[scope].intern(name, flags)]. *)
Definition intern_in (scope : nat) (name : string) (flags : SymbolFlags) : M B nat :=
  try_update (λ b,
    table ← IndexVec.index (symbol_tables (walk b)) scope;
    '(table, id) ← SymbolTable.intern name flags table;
    Some (id, upd_walk (set_symbol_tables (<[scope := table]> (symbol_tables (walk b)))) b)).

(** [self.walk.definitions[scope].push(def)]. *)
Definition push_definition (scope : nat) (def : Definition_) : M B nat :=
  try_update (λ b,
    defs ← IndexVec.index (wk_definitions (walk b)) scope;
    '(defs, id) ← IndexVec.push defs def;
    Some (id, upd_walk (set_definitions (<[scope := defs]> (wk_definitions (walk b)))) b)).

(** [self.walk.uses[scope].push(use)]. *)
Definition push_use (scope : nat) (use : Use TextRange) : M B nat :=
  try_update (λ b,
    us ← IndexVec.index (uses (walk b)) scope;
    '(us, id) ← IndexVec.push us use;
    Some (id, upd_walk (set_uses (<[scope := us]> (uses (walk b)))) b)).

(** An update of [self.walk.use_def_maps[scope]], with a result. *)
Definition on_udm {A} (scope : nat) (f : UseDefMapBuilder → option (UseDefMapBuilder * A)) : M B A :=
  try_update (λ b,
    udm ← IndexVec.index (use_def_maps (walk b)) scope;
    '(udm, a) ← f udm;
    Some (a, upd_walk (set_use_def_maps (<[scope := udm]> (use_def_maps (walk b)))) b)).

Definition on_udm_ (scope : nat) (f : UseDefMapBuilder → option UseDefMapBuilder) : M B () :=
  on_udm scope (λ udm, udm ← f udm; Some (udm, ())).

#[export] Instance builder_current_scope : CurrentScope B TextRange := {|
  cur_udm := try_get (λ b, IndexVec.index (use_def_maps (walk b)) (current_scope b));
  cur_uses := try_get (λ b, IndexVec.index (uses (walk b)) (current_scope b));
  upd_udm f := current ← gets current_scope; on_udm_ current f;
|}.

(** The four statements that record a definition of a scope. *)
Definition record_in (scope : nat) (name : string) (flags : SymbolFlags) (kind : DefinitionKind)
    (range : TextRange) (record : nat → nat → UseDefMapBuilder → option UseDefMapBuilder) : M B () :=
  symbol_id ← intern_in scope name flags;
  def_id ← push_definition scope (mkDefinition kind symbol_id range);
  on_udm_ scope (Builder.ensure_symbol symbol_id);;
  on_udm_ scope (record symbol_id def_id).

(** ** Definitions *)

Definition add_definition_to_owner (name : string) (flags : SymbolFlags) (kind : DefinitionKind)
    (range : TextRange) : M B () :=
  owner ← try_get enclosing_owner;
  match owner with
  | None => debug_panic
  | Some owner_scope => record_in owner_scope name flags kind range Builder.record_lazy_definition
  end.

Definition add_definition (name : string) (flags : SymbolFlags) (kind : DefinitionKind)
    (range : TextRange) : M B () :=
  s ← try_get the_scope;
  if negb (ScopeKind.owns_bindings (scope_kind s)) then
    add_definition_to_owner name flags kind range
  else
    current ← gets current_scope;
    record_in current name flags kind range Builder.record_definition.

Definition super_name_is_locked (name : string) (range : TextRange) : M B bool :=
  found ← gets (λ b, super_binding_packages (scan b) !! range);
  match found with
  | None => mret false
  | Some package =>
      on_scan (λ s, set_super_binding_packages (delete range (super_binding_packages s)) s);;
      modify (push_diagnostic (LockedSuperAssignment name package range));;
      mret true
  end.

(** The loop over ancestors: the target and whether it depends on timing. *)
Fixpoint find_super_target (b : B) (name : string) (site_unit : option nat) (ancestors : list nat)
    : option (option (nat * bool)) :=
  match ancestors with
  | [] => Some None
  | ancestor :: ancestors =>
      unit_ ← enclosing_lazy_scope (scopes b) ancestor;
      let same_unit := bool_decide (unit_ = site_unit) in
      walked ← walked_binding b ancestor name;
      bound ← (if same_unit then Some (is_Some_b walked) else scope_binds_anywhere b ancestor name);
      if bound : bool then Some (Some (ancestor, negb same_unit && is_none walked))
      else find_super_target b name site_unit ancestors
  end.

Definition resolve_super_target (name : string) (start : nat) (range : TextRange)
    : M B (option nat) :=
  found ← try_get (λ b,
    site_unit ← enclosing_lazy_scope (scopes b) (current_scope b);
    ancestors ← ancestor_scope_ids (scopes b) start;
    find_super_target b name site_unit ancestors);
  match found with
  | None =>
      locked ← super_name_is_locked name range;
      mret (if locked : bool then None else Some 0)
  | Some (target, timing_dependent) =>
      when timing_dependent
        (binding_range ← try_get (λ b, scope_binding_range b target name);
         if_some binding_range (λ binding_range,
           modify (push_diagnostic (AmbiguousSuperAssignment name range binding_range))));;
      mret (Some target)
  end.

Definition add_super_definition (name : string) (kind : DefinitionKind) (range : TextRange)
    : M B () :=
  s ← try_get the_scope;
  current ← gets current_scope;
  frame ← (if ScopeKind.owns_bindings (scope_kind s) then mret (Some current)
           else try_get enclosing_owner);
  match frame with
  | None => debug_panic
  | Some frame =>
      fs ← try_get (λ b, IndexVec.index (scopes b) frame);
      match scope_parent fs with
      | None =>
          locked ← super_name_is_locked name range;
          let flags := if locked : bool then SymbolFlags.IS_SUPER_BOUND
                       else SymbolFlags.union SymbolFlags.IS_SUPER_BOUND SymbolFlags.IS_BOUND in
          record_in frame name flags kind range Builder.record_super_definition
      | Some start =>
          target_scope ← resolve_super_target name start range;
          symbol_id ← intern_in current name SymbolFlags.IS_SUPER_BOUND;
          push_definition current (mkDefinition kind symbol_id range);;
          if_some target_scope (λ target_scope,
            record_in target_scope name SymbolFlags.IS_BOUND kind range
              Builder.record_super_definition)
      end
  end.

Definition add_assign_definitions (node : AstPtr) (bindings : list AssignBinding) : M B () :=
  for_each bindings (λ binding,
    add_definition (ab_name binding) SymbolFlags.IS_BOUND
      (DAssign node (ab_name_expr binding) (ab_value_expr binding)) (ab_name_expr binding)).

(** ** Uses *)

(** The lazy arm: one growing snapshot per (use scope, nested symbol, ancestor
    scope). *)
Definition shared_lazy_snapshot (current nested_symbol ancestor symbol_id : nat) : M B nat :=
  found ← gets (λ b, lazy_snapshots (walk b) !! (current, nested_symbol, ancestor));
  match found with
  | Some snapshot_id => mret snapshot_id
  | None =>
      snapshot_id ← on_udm ancestor (Builder.register_lazy_snapshot symbol_id);
      on_walk (λ w, set_lazy_snapshots
        (<[(current, nested_symbol, ancestor) := snapshot_id]> (lazy_snapshots w)) w);;
      mret snapshot_id
  end.

(** One ancestor: its entry, when it binds the name anywhere. *)
Definition register_in_ancestor (name : string) (use_scope nested_symbol current : nat)
    (all_eager : bool) (chain : list (nat * nat)) : M B (list (nat * nat)) :=
  binds ← try_get (λ b, scope_binds_anywhere b current name);
  if binds : bool then
    symbol_id ← intern_in current name SymbolFlags.empty;
    on_udm_ current (Builder.ensure_symbol symbol_id);;
    snapshot_id ← (if all_eager
      then on_udm current (Builder.register_eager_snapshot symbol_id)
      else shared_lazy_snapshot use_scope nested_symbol current symbol_id);
    mret (chain ++ [(current, snapshot_id)])
  else mret chain.

(** The [loop] over the ancestors of the using scope. *)
Fixpoint register_in_ancestors (fuel : nat) (name : string) (use_scope nested_symbol : nat)
    (current : nat) (all_eager : bool) (chain : list (nat * nat)) : M B (list (nat * nat)) :=
  match fuel with
  | 0 => out_of_fuel
  | S fuel =>
      chain ← register_in_ancestor name use_scope nested_symbol current all_eager chain;
      s ← try_get (λ b, IndexVec.index (scopes b) current);
      match scope_parent s with
      | None => mret chain
      | Some parent =>
          register_in_ancestors fuel name use_scope nested_symbol parent
            (all_eager && negb (ScopeKind.is_lazy (scope_kind s))) chain
      end
  end.

Definition register_enclosing_snapshot (name : string) (nested_symbol use_id : nat) : M B () :=
  s ← try_get the_scope;
  current ← gets current_scope;
  if_some (scope_parent s) (λ parent,
    n ← gets (λ b, length (scopes b));
    chain ← register_in_ancestors n name current nested_symbol parent
              (negb (ScopeKind.is_lazy (scope_kind s))) [];
    match chain with
    | [] => mret ()
    | _ => on_walk (λ w, set_wk_enclosing_snapshots
             (<[(current, use_id) := chain]> (wk_enclosing_snapshots w)) w)
    end).

Definition add_use (name : string) (range : TextRange) : M B () :=
  current ← gets current_scope;
  symbol_id ← intern_in current name SymbolFlags.IS_USED;
  use_id ← push_use current (mkUse symbol_id range);
  on_udm_ current (Builder.ensure_symbol symbol_id);;
  on_udm_ current (Builder.record_use symbol_id use_id);;
  unbound ← try_get (λ b,
    udm ← IndexVec.index (use_def_maps (walk b)) current; Builder.is_may_be_unbound symbol_id udm);
  when unbound (register_enclosing_snapshot name symbol_id use_id).

(** ** Semantic calls *)

Definition attach_region (b : B) (offset : N) (package : string) : AttachRegion :=
  match (ends ← attach_effect_ends (scan b) !! offset;
         List.find (λ '(site_package, _), bool_decide (site_package = package)) ends) with
  | Some (_, end_) => Conditional end_
  | None => Unconditional
  end.

Definition record_effects_callee (call : expr) : M B () :=
  match call with
  | RCall (Some (RIdentifier name _)) _ range =>
      modify (push_callee_dependency (mkCalleeDependency name range UsageEffects))
  | _ => mret ()
  end.

(** [self.walk.semantic_calls.push(SemanticCall { kind, range, scope })]. *)
Definition push_call (kind : SemanticCallKind) (range : TextRange) : M B () :=
  modify (λ b, upd_walk (push_semantic_call (mkSemanticCall kind range (current_scope b))) b).

Definition walk_attach_call (call : expr) (package : string) : M B () :=
  region ← gets (λ b, attach_region b (range_start (range_of call)) package);
  push_call (Attach package region) (range_of call);;
  record_effects_callee call.

(** The names bound at the top level, for [record_source_call]. *)
Definition top_level_names (b : B) : option (list string) :=
  table ← IndexVec.index (symbol_tables (walk b)) 0;
  udm ← IndexVec.index (use_def_maps (walk b)) 0;
  mapM (λ symbol_id, symbol_name <$> SymbolTable.symbol table symbol_id)
    (Builder.bound_symbol_ids udm).

Definition walk_sourced_file (call : expr) (sourced : SourcedFile) : M B () :=
  let range := range_of call in
  let call_offset := range_start range in
  push_call (Source (sf_path sourced) (sr_url <$> sf_resolution sourced)) range;;
  if_some (sf_resolution sourced) (λ resolution,
    for_each (sr_names resolution) (λ name,
      add_definition name SymbolFlags.IS_BOUND (DImport range (sr_url resolution) name)
        (range_empty call_offset));;
    for_each (sr_packages resolution) (λ pkg,
      region ← gets (λ b, attach_region b call_offset pkg);
      push_call (Attach pkg region) range)).

Definition walk_source_call (call : expr) : M B () :=
  let range := range_of call in
  found ← gets (λ b, call_resolutions (scan b) !! range);
  if_some found (λ resolution,
    record_effects_callee call;;
    lazy ← try_get (λ b, enclosing_lazy_scope (scopes b) (current_scope b));
    when (is_none lazy)
      (bound ← try_get top_level_names;
       on_walk (λ w, set_bindings_at_sources
         (Timeline.record_source_call (range_start range) bound (bindings_at_sources w)) w));;
    for_each (cres_source resolution) (walk_sourced_file call)).

Definition walk_assign_call (call : expr) : M B () :=
  found ← gets (λ b, call_resolutions (scan b) !! range_of call);
  if_some found (λ resolution, add_assign_definitions (range_of call) (cres_assign resolution)).

Definition walk_assign_operator (bin : expr) : M B () :=
  found ← gets (λ b, call_resolutions (scan b) !! range_of bin);
  if_some found (λ resolution,
    match cres_assign resolution with
    | [] => mret ()
    | bindings => add_assign_definitions (range_of bin) bindings
    end).

Definition walk_semantic_call (call : expr) : M B () :=
  let resolution b := call_resolutions (scan b) !! range_of call in
  attach ← gets (λ b, resolution b ≫= cres_attach);
  if_some attach (walk_attach_call call);;
  source ← gets (λ b, from_option cres_source [] (resolution b));
  when (negb (IndexVec.is_empty source)) (walk_source_call call);;
  assign ← gets (λ b, from_option cres_assign [] (resolution b));
  when (negb (IndexVec.is_empty assign)) (walk_assign_call call).

Definition walk_namespace_access (operator : option token) (lhs rhs : option string)
    (range : TextRange) : M B () :=
  let access (kind : NamespaceAccessKind) :=
    if_some lhs (λ package, if_some rhs (λ symbol,
      on_walk (push_namespace_access (mkNamespaceAccess package symbol kind (range_start range))))) in
  match operator with
  | Some op =>
      match kind op with
      | COLON2 => access Export
      | COLON3 => access Internal
      | _ => mret ()
      end
  | None => mret ()
  end.

Definition argument_effects (b : B) (call : expr) : option ResolvedArgumentEffects :=
  resolution ← call_resolutions (scan b) !! range_of call;
  cres_arguments resolution.

(** ** Traversal, given the recursive call and the fuel of the scans *)

Section recursion.
Context (fuel : nat) (walk_expression : expr → M B ()).

Definition walk_expression_list (l : list expr) : M B () := for_each l walk_expression.

Definition walk_descendants (descendants : list expr) : M B () :=
  for_each descendants walk_expression.

Definition walk_arguments (items : list (option (RArgument expr))) : M B () :=
  for_each items (λ item, if_some (item ≫= arg_value) walk_expression).

Definition walk_parameter (param : RParameter expr) : M B () :=
  let flags := SymbolFlags.union SymbolFlags.IS_BOUND SymbolFlags.IS_PARAMETER in
  if_some (par_name param) (λ name,
    let '(text, range) := param_text name in
    add_definition text flags (DParameter (par_range param)) range);;
  if_some (par_default param) (λ default, if_some default walk_expression).

Definition walk_parameters (items : list (option (RParameter expr))) : M B () :=
  for_each items (λ param, if_some param walk_parameter).

(** [let attached = self.scan.attached_so_far.len()] and the truncation on the
    way out of a lazy context. *)
Definition truncate_attaches (attached : nat) : M B () :=
  on_scan (λ s, set_attached_so_far (FlowAttaches.truncate attached (attached_so_far s)) s).

Definition walk_function (params : option (list (option (RParameter expr)))) (body : option expr)
    (range : TextRange) : M B () :=
  watermark ← gets (λ b, length (deferred_bodies (scan b)));
  scope ← push_scope KFunction range;
  attached ← gets (λ b, FlowAttaches.len (attached_so_far (scan b)));
  begin_scan;;
  if_some params (scan_parameter_defaults (scan_expression fuel));;
  if_some body (scan_expression fuel);;
  scan_deferred_bodies fuel watermark;;
  if_some params walk_parameters;;
  if_some body walk_expression;;
  truncate_attaches attached;;
  pop_scope scope.

Definition walk_assignment (op : option token) (lhs rhs : option expr) (range : TextRange)
    : M B () :=
  let right := is_right_assignment op in
  let super_assign := is_super_assignment op in
  if_some (if right then lhs else rhs) walk_expression;;
  if_some (if right then rhs else lhs) (λ target,
    match assignment_name target with
    | None => walk_expression target
    | Some (name, name_range) =>
        if super_assign then add_super_definition name (DSuperAssignment range) name_range
        else add_definition name SymbolFlags.IS_BOUND (DAssignment range) name_range
    end).

(** The [Nested + Eager] arm: [local()]. *)
Definition walk_nested_eager (value : expr) : M B () :=
  let range := range_of value in
  scope ← push_scope (KNse EnvNested Eager) range;
  found ← gets (λ b, body_scans (scan b) !! range);
  on_scan (λ s, set_body_scans (delete range (body_scans s)) s);;
  match found with
  | Some (Scanned bound) =>
      try_update (λ b,
        sites ← IndexVec.index_mut (bound_anywhere (scan b)) scope (λ _, Some bound);
        Some ((), upd_scan (set_bound_anywhere sites) b))
  | _ => debug_panic;; begin_scan;; scan_expression fuel value
  end;;
  walk_expression value;;
  pop_scope scope.

(** The [Nested + Lazy] arm: [reactive()]. *)
Definition walk_nested_lazy (value : expr) : M B () :=
  scope ← push_scope (KNse EnvNested Lazy) (range_of value);
  attached ← gets (λ b, FlowAttaches.len (attached_so_far (scan b)));
  begin_scan;;
  watermark ← gets (λ b, length (deferred_bodies (scan b)));
  scan_expression fuel value;;
  scan_deferred_bodies fuel watermark;;
  walk_expression value;;
  truncate_attaches attached;;
  pop_scope scope.

Definition walk_nse_argument (env : EvalEnv) (timing : EvalTiming) (value : expr) : M B () :=
  match env, timing with
  | EnvCurrent, Eager => walk_expression value
  | EnvNested, Eager => walk_nested_eager value
  | EnvCurrent, Lazy =>
      scope ← push_scope (KNse EnvCurrent Lazy) (range_of value);
      walk_expression value;;
      pop_scope scope
  | EnvNested, Lazy => walk_nested_lazy value
  end.

Definition walk_nse_call (call : expr) (effects : ResolvedArgumentEffects) : M B () :=
  if_some (call_arguments call) (λ items,
    for_each_i 0 items (λ i item,
      if_some (item ≫= arg_value) (λ value,
        effect ← try_get (λ _, effects !! i);
        match effect with
        | None => walk_expression value
        | Some (REvalQ env timing) => walk_nse_argument env timing value
        | Some (RQuote holes) => for_each holes walk_expression
        end))).

(** Whether a binding operator reads its left operand. *)
Definition reads_lhs (b : B) (range : TextRange) : bool :=
  match call_resolutions (scan b) !! range with
  | Some resolution =>
      match cres_assign resolution with
      | [] => true
      | assign => existsb (λ binding, bool_decide (ab_target binding = ReadWrite)) assign
      end
  | None => true
  end.

(** One level of [walk_expression]. *)
Definition walk_expression_step (e : expr) : M B () :=
  match e with
  | RIdentifier name range => add_use name range
  | RDots range => add_use "..." range
  | RDotDotI text range => add_use text range
  | RFunctionDefinition params body range => walk_function params body range
  | RBracedExpressions l _ => walk_expression_list l
  | RBinaryExpression op lhs rhs range =>
      if is_assignment op then walk_assignment op lhs rhs range
      else
        reads ← gets (λ b, reads_lhs b range);
        when reads (if_some lhs walk_expression);;
        if_some rhs walk_expression;;
        walk_assign_operator e
  | RCall function arguments _ =>
      if_some function walk_expression;;
      effects ← gets (λ b, argument_effects b e);
      match effects with
      | Some effects => walk_nse_call e effects
      | None => if_some arguments walk_arguments
      end;;
      walk_semantic_call e
  | RSubset object arguments _ _ =>
      if_some object walk_expression;;
      if_some arguments walk_arguments
  | RExtractExpression object _ _ => if_some object walk_expression
  | RNamespaceExpression operator lhs rhs _ range => walk_namespace_access operator lhs rhs range
  | RForStatement variable sequence body range =>
      if_some variable (λ '(name, name_range),
        add_definition name SymbolFlags.IS_BOUND (DForVariable range) name_range);;
      if_some sequence walk_expression;;
      walk_loop_body walk_expression body true
  | RIfStatement condition consequence alternative _ =>
      if_some condition walk_expression;;
      walk_branch walk_expression consequence alternative
  | RWhileStatement condition body _ =>
      if_some condition walk_expression;;
      walk_loop_body walk_expression body true
  | RRepeatStatement body _ _ => walk_loop_body walk_expression body false
  | RBogusExpression _ _ => mret ()
  | RStringValue _ _ | RNullExpression _ | RTrueExpression _ | RFalseExpression _ =>
      walk_descendants []
  | ROther descendants _ => walk_descendants descendants
  end.
End recursion.

Fixpoint walk_expression (fuel : nat) (e : expr) : M B () :=
  match fuel with
  | 0 => out_of_fuel
  | S fuel => walk_expression_step fuel (walk_expression fuel) e
  end.

(** [build_index]; [root.expressions()] in [expressions], [range] the trimmed
    range of the root. *)
Definition build (fuel : nat) (expressions : list expr) : M B SemanticIndex :=
  begin_scan;;
  scan_expression_list (scan_expression fuel) expressions;;
  scan_deferred_bodies fuel 0;;
  walk_expression_list (walk_expression fuel) expressions;;
  try_get finish.

Definition build_index (fuel : nat) (expressions : list expr) (range : TextRange)
    : outcome B SemanticIndex :=
  build fuel expressions (builder_new range).
End walk.
