(* ===== verification/WalkInv.v ===== *)
(** * The walk keeps the builder's invariant

    Every step of the walk keeps [bwf] and is a [step]: definitions, uses and
    scopes are only added, and a snapshot keeps following the symbol it was
    taken for. Panics are possible only when an arena is full. *)

From S2P Require Export Walk ScanInv.

Create HintDb walk.

Section walk.
Context `{TextRanges, Urls, !HandlerTypes, !Handlers, !HandlersLawful, !ImportsResolver}.
Context `{BuildProfile, MergeJoinBy}.
Context (program : list expr) (Hrelease : debug_assertions = false).
Implicit Types (b : SemanticIndexBuilder) (open : list nat).

#[local] Abbreviation B := SemanticIndexBuilder.
#[local] Abbreviation wk open m := (keeps arena_full (bwf program open) step m).

Ltac wk := intros; repeat (keeps_step || solve [eauto with walk]).

(** ** Updates of one arena *)

Lemma wp_intern_in b i u name flags (Q : nat → B → Prop) :
  unit_at b i = Some u → SymbolTableFacts.wf (u_table u) →
  (∀ t id b', SymbolTable.intern name flags (u_table u) = Some (t, id) →
     touches i (set_table t u) b b' → Q id b') →
  wp (intern_in i name flags) arena_full Q b.
Proof.
  intros Hu Hwf HQ. pose proof (proj1 (unit_at_Some _ _ _) Hu) as (Ht & Hd & Hus & Hm).
  apply wp_try_update; unfold IndexVec.index; rewrite Ht; simpl.
  - intros id b' ([t id'] & Hi & [= <- <-])%bind_Some. eapply HQ; [done|].
    split; simpl; try done.
    + apply unit_at_Some. simpl. rewrite list_lookup_insert_eq by (by eapply lookup_lt_Some). done.
    + intros j Hj. unfold unit_at. simpl. by rewrite list_lookup_insert_ne.
    + apply length_insert.
  - intros Hn. right. exists i, u. split; [done|]. left.
    eapply SymbolTableFacts.intern_None; [done|].
    destruct (SymbolTable.intern _ _ _) as [[]|] eqn:E; [done|exact E].
Qed.

Lemma wp_push_definition b i u def (Q : nat → B → Prop) :
  unit_at b i = Some u →
  (∀ d x b', IndexVec.push (u_defs u) def = Some (d, x) → touches i (set_defs d u) b b' → Q x b') →
  wp (push_definition i def) arena_full Q b.
Proof.
  intros Hu HQ. pose proof (proj1 (unit_at_Some _ _ _) Hu) as (Ht & Hd & Hus & Hm).
  apply wp_try_update; unfold IndexVec.index; rewrite Hd; simpl.
  - intros id b' ([t id'] & Hi & [= <- <-])%bind_Some. eapply HQ; [done|].
    split; simpl; try done.
    + apply unit_at_Some. simpl. rewrite list_lookup_insert_eq by (by eapply lookup_lt_Some). done.
    + intros j Hj. unfold unit_at. simpl. by rewrite list_lookup_insert_ne.
    + apply length_insert.
  - intros Hn. right. exists i, u. split; [done|]. right; left.
    apply N.nle_gt. intros Hle. by rewrite IndexVec.push_total in Hn.
Qed.

Lemma wp_push_use b i u use (Q : nat → B → Prop) :
  unit_at b i = Some u →
  (∀ us k b', IndexVec.push (u_uses u) use = Some (us, k) →
     touches i (set_unit_uses us u) b b' → Q k b') →
  wp (push_use i use) arena_full Q b.
Proof.
  intros Hu HQ. pose proof (proj1 (unit_at_Some _ _ _) Hu) as (Ht & Hd & Hus & Hm).
  apply wp_try_update; unfold IndexVec.index; rewrite Hus; simpl.
  - intros id b' ([t id'] & Hi & [= <- <-])%bind_Some. eapply HQ; [done|].
    split; simpl; try done.
    + apply unit_at_Some. simpl. rewrite list_lookup_insert_eq by (by eapply lookup_lt_Some). done.
    + intros j Hj. unfold unit_at. simpl. by rewrite list_lookup_insert_ne.
    + apply length_insert.
  - intros Hn. right. exists i, u. split; [done|]. right; right; left.
    apply N.nle_gt. intros Hle. by rewrite IndexVec.push_total in Hn.
Qed.

Lemma wp_on_udm {A} b i u (f : UseDefMapBuilder → option (UseDefMapBuilder * A)) (Q : A → B → Prop) :
  unit_at b i = Some u → (f (u_udm u) = None → arena_full b) →
  (∀ m a b', f (u_udm u) = Some (m, a) → touches i (set_udm m u) b b' → Q a b') →
  wp (on_udm i f) arena_full Q b.
Proof.
  intros Hu Hn HQ. pose proof (proj1 (unit_at_Some _ _ _) Hu) as (Ht & Hd & Hus & Hm).
  apply wp_try_update; unfold IndexVec.index; rewrite Hm; simpl.
  - intros a b' ([m a'] & Hf & [= <- <-])%bind_Some. eapply HQ; [done|].
    split; simpl; try done.
    + apply unit_at_Some. simpl. rewrite list_lookup_insert_eq by (by eapply lookup_lt_Some). done.
    + intros j Hj. unfold unit_at. simpl. by rewrite list_lookup_insert_ne.
    + apply length_insert.
  - destruct (f (u_udm u)) as [[]|]; [done|auto].
Qed.

Lemma wp_on_udm_ b i u m (f : UseDefMapBuilder → option UseDefMapBuilder) (Q : () → B → Prop) :
  unit_at b i = Some u → f (u_udm u) = Some m →
  (∀ b', touches i (set_udm m u) b b' → Q () b') →
  wp (on_udm_ i f) arena_full Q b.
Proof.
  intros Hu Hf HQ. apply (wp_on_udm b i u); [done|by rewrite Hf|].
  intros m' [] b'. rewrite Hf. intros [= <-]. apply HQ.
Qed.

(** ** Definitions *)

Lemma record_in_wp open b i name flags kind range record :
  bwf program open b → i < length (scopes b) → records record →
  wp (record_in i name flags kind range record) arena_full
    (λ _ b', bwf program open b' ∧ step b b') b.
Proof.
  intros Hb Hi Hrec.
  destruct (unit_at_total _ _ _ (bw_arenas _ _ _ Hb) Hi) as (u & Hu & Hwf).
  apply wp_bind, (wp_intern_in b i u); [done|apply Hwf|]. intros t id b1 Hint T1.
  apply wp_bind, (wp_push_definition b1 i (set_table t u)); [by apply T1|]. intros d x b2 Hp T2.
  destruct (record_unit u name flags kind range record t id d x Hwf Hrec Hint Hp)
    as (m & m' & Hm & Hm' & Hwf' & Hg).
  apply wp_bind. eapply (wp_on_udm_ b2); [by apply T2|exact Hm|]. intros b3 T3.
  eapply (wp_on_udm_ b3); [by apply T3|exact Hm'|]. intros b4 T4.
  eapply (touches_wf program open i u); [done|done| |exact Hwf'|exact Hg].
  eapply touches_trans; [exact T1|]. eapply touches_trans; [exact T2|].
  eapply touches_trans; [exact T3|exact T4].
Qed.

Lemma wk_try_get open {A} (g : B → option A) :
  (∀ b, arenas_wf open b → is_Some (g b)) → wk open (try_get g).
Proof. intros Hg. apply keeps_try_get; [apply _|]. intros b Hb. apply Hg, Hb. Qed.

(** Scans are steps. *)
Lemma scanned_step n b b' : scanned n b b' → step b b'.
Proof.
  intros [[[[Hs _ Hw _] _] _] _]. split.
  - intros i s Hi. exists s. by rewrite Hs.
  - intros i u Hu. exists u. unfold unit_at in *. by rewrite Hw.
Qed.

Lemma sk_wk open n {A} (m : M B A) :
  keeps arena_full (bwf program open) (scanned n) m → wk open m.
Proof. apply keeps_mono. intros *. apply scanned_step. Qed.

Lemma debug_panic_wk open : wk open debug_panic.
Proof. unfold debug_panic. rewrite Hrelease. wk. Qed.

Lemma push_diagnostic_wk open d : wk open (modify (push_diagnostic d)).
Proof. apply (sk_wk _ 0), modify_other. done. Qed.

Lemma on_scan_wk open f : scan_frame f → wk open (on_scan f).
Proof. intros Hf. by apply (sk_wk _ 0), on_scan_frame. Qed.
Hint Resolve debug_panic_wk push_diagnostic_wk on_scan_wk : walk.
Hint Extern 1 (scan_frame _) => done : walk.

Lemma add_definition_to_owner_wk open name flags kind range :
  wk open (add_definition_to_owner name flags kind range).
Proof.
  intros b Hb. destruct (enclosing_owner_total _ _ (bw_arenas _ _ _ Hb)) as (o & Ho & Hlt).
  apply wp_bind, wp_try_get; rewrite Ho; [|done]. intros ? [= <-].
  destruct o as [owner|]; [|by apply debug_panic_wk].
  apply record_in_wp; [done|by apply Hlt|apply records_lazy].
Qed.

Lemma add_definition_wk open name flags kind range : wk open (add_definition name flags kind range).
Proof.
  intros b Hb. destruct (the_scope_total _ _ (bw_arenas _ _ _ Hb)) as [s Hs].
  apply wp_bind, wp_try_get; rewrite Hs; [|done]. intros ? [= <-].
  destruct (negb _); [by apply add_definition_to_owner_wk|]. apply wp_bind, wp_gets.
  apply record_in_wp; [done|by destruct (current_open _ _ (bw_arenas _ _ _ Hb))|].
  apply records_definition.
Qed.
Hint Resolve add_definition_wk : walk.

Lemma super_name_is_locked_wk open name range : wk open (super_name_is_locked name range).
Proof. unfold super_name_is_locked. wk. destruct a; wk. Qed.
Hint Resolve super_name_is_locked_wk : walk.

Lemma find_super_target_total open b name unit_ ancestors :
  arenas_wf open b → (∀ a, a ∈ ancestors → a < length (scopes b)) →
  ∃ r, find_super_target b name unit_ ancestors = Some r ∧
    ∀ target timing, r = Some (target, timing) → target < length (scopes b).
Proof.
  intros Hb. induction ancestors as [|a ancestors IH]; intros Ha; simpl; [by eexists|].
  assert (Hlt : a < length (scopes b)) by (apply Ha; by left).
  destruct (enclosing_lazy_total open b a Hb Hlt) as [l ->].
  destruct (walked_binding_total open b a name Hb Hlt) as (w & -> & _).
  destruct (scope_binds_anywhere_total open b a name Hb Hlt) as [any ->]. simpl.
  assert (∃ bound, (if bool_decide (l = unit_) then Some (is_Some_b w) else Some any) = Some bound)
    as [bound ->] by (case_bool_decide; by eexists). simpl.
  destruct bound; [|by apply IH; intros; apply Ha; right].
  eexists; split; [done|]. by intros target timing [= <- _].
Qed.

Lemma resolve_super_target_wp open b name start range :
  bwf program open b → start < length (scopes b) →
  wp (resolve_super_target name start range) arena_full
    (λ target b', (bwf program open b' ∧ step b b') ∧
       ∀ i, target = Some i → i < length (scopes b')) b.
Proof.
  intros Hb Hlt. pose proof (bw_arenas _ _ _ Hb) as Ha.
  destruct (current_open _ _ Ha) as [Hcur _].
  destruct (enclosing_lazy_total open b _ Ha Hcur) as [u Hu].
  destruct (ancestors_total open b start Ha Hlt) as (l & Hl & Hc).
  destruct (find_super_target_total open b name u l Ha) as (r & Hr & Htarget);
    [by eapply chain_bounds|].
  apply wp_bind, wp_try_get; rewrite Hu; simpl; rewrite Hl; simpl; rewrite Hr; [|done].
  intros ? [= <-]. destruct r as [[target timing]|].
  - specialize (Htarget _ _ eq_refl).
    assert (Hd : ∀ o, wk open (if_some o (λ binding_range,
      modify (push_diagnostic (AmbiguousSuperAssignment name range binding_range))))) by wk.
    apply wp_bind. eapply wp_mono.
    { apply (wp_when _ _ _ (λ _ b', bwf program open b' ∧ step b b')); [intros _|done].
      apply wp_bind, wp_try_get; [intros o _; by apply Hd|].
      destruct (scope_binding_range_total open b target name Ha Htarget) as [? ->]. done. }
    intros [] b1 [Hb1 S1]. apply wp_ret. split; [done|]. intros i [= <-].
    apply step_length in S1. lia.
  - apply wp_bind. eapply wp_mono; [by apply super_name_is_locked_wk|].
    intros locked b1 [Hb1 S1]. apply wp_ret. split; [done|].
    destruct locked; intros i Hi; simplify_eq. apply step_length in S1. lia.
Qed.

(** The marker row of a super-assignment. *)
Lemma marker_wp open b i name kind range :
  bwf program open b → i < length (scopes b) →
  wp (symbol_id ← intern_in i name SymbolFlags.IS_SUPER_BOUND;
      push_definition i (mkDefinition kind symbol_id range)) arena_full
    (λ _ b', bwf program open b' ∧ step b b') b.
Proof.
  intros Hb Hi. destruct (unit_at_total _ _ _ (bw_arenas _ _ _ Hb) Hi) as (u & Hu & Hwf).
  apply wp_bind, (wp_intern_in b i u); [done|apply Hwf|]. intros t id b1 Hint T1.
  apply (wp_push_definition b1 i (set_table t u)); [by apply T1|]. intros d x b2 Hp T2.
  destruct (marker_unit u name SymbolFlags.IS_SUPER_BOUND kind range t id d x) as [Hwf' Hg]; [done..|].
  eapply (touches_wf program open i u); [done|done| |exact Hwf'|exact Hg].
  by eapply touches_trans.
Qed.

Lemma add_super_definition_wk open name kind range : wk open (add_super_definition name kind range).
Proof.
  intros b Hb. pose proof (bw_arenas _ _ _ Hb) as Ha. destruct (current_open _ _ Ha) as [Hcur _].
  destruct (the_scope_total _ _ Ha) as [s Hs]. unfold add_super_definition.
  apply wp_bind, wp_try_get; rewrite Hs; [|done]. intros ? [= <-]. apply wp_bind, wp_gets.
  assert (Hframe : wp (if ScopeKind.owns_bindings (scope_kind s) then mret (Some (current_scope b))
      else try_get enclosing_owner) arena_full
    (λ frame b', b' = b ∧ ∀ i, frame = Some i → i < length (scopes b)) b).
  { destruct (ScopeKind.owns_bindings _).
    - apply wp_ret. split; [done|]. by intros i [= <-].
    - destruct (enclosing_owner_total _ _ Ha) as (o & Ho & Hlt).
      apply wp_try_get; rewrite Ho; [|done]. by intros ? [= <-]. }
  apply wp_bind. eapply wp_mono; [exact Hframe|]. intros frame b0 [-> Hlt].
  destruct frame as [frame|]; [|by apply debug_panic_wk]. specialize (Hlt _ eq_refl).
  apply wp_bind, wp_try_get; unfold IndexVec.index.
  2:{ intros Hn%lookup_ge_None. lia. }
  intros fs Hfs. destruct (scope_parent fs) as [start|] eqn:Hstart.
  - assert (start < length (scopes b)) by (pose proof (parent_lt _ _ _ _ _ Ha Hfs Hstart); lia).
    apply wp_bind. eapply wp_mono; [by eapply resolve_super_target_wp|].
    intros target b1 [[Hb1 S1] Ht]. pose proof (step_length _ _ S1).
    apply wp_assoc, wp_bind. eapply wp_mono; [by apply (marker_wp open); [done|lia]|].
    intros _ b3 [Hb3 S3]. pose proof (step_length _ _ S3).
    assert (S13 : step b b3) by (by etrans).
    destruct target as [target|]; [|by apply wp_ret]. specialize (Ht _ eq_refl).
    eapply wp_mono; [apply (record_in_wp open); [done|lia|apply records_super]|].
    intros [] b4 [Hb4 S4]. split; [done|by etrans].
  - apply wp_bind. eapply wp_mono; [by apply super_name_is_locked_wk|].
    intros locked b1 [Hb1 S1]. pose proof (step_length _ _ S1).
    eapply wp_mono; [apply (record_in_wp open); [done|lia|apply records_super]|].
    intros [] b2 [Hb2 S2]. split; [done|by etrans].
Qed.
Hint Resolve add_super_definition_wk : walk.

Lemma add_assign_definitions_wk open node bindings : wk open (add_assign_definitions node bindings).
Proof. unfold add_assign_definitions. wk. Qed.
Hint Resolve add_assign_definitions_wk : walk.

(** ** Uses *)

Lemma name_at_fun b i sym name1 name2 : name_at b i sym name1 → name_at b i sym name2 → name1 = name2.
Proof. intros (u1 & s1 & ? & ? & <-) (u2 & s2 & ? & ? & <-). by simplify_eq. Qed.

(** Interning a name without flags gives its stable identifier. *)
Lemma touch_wp open b i name :
  bwf program open b → i < length (scopes b) →
  wp (symbol_id ← intern_in i name SymbolFlags.empty;
      on_udm_ i (Builder.ensure_symbol symbol_id);;
      mret symbol_id) arena_full
    (λ id b', (bwf program open b' ∧ step b b') ∧
       ∃ u, unit_at b' i = Some u ∧ id < length (symbol_states (u_udm u)) ∧ name_at b' i id name) b.
Proof.
  intros Hb Hi. destruct (unit_at_total _ _ _ (bw_arenas _ _ _ Hb) Hi) as (u & Hu & Hwf).
  apply wp_bind, (wp_intern_in b i u); [done|apply Hwf|]. intros t id b1 Hint T1.
  destruct (touch_unit u name t id Hwf Hint) as (m & Hm & Hlt & (s & Hs & Hname) & Hwf' & Hg).
  apply wp_bind. eapply (wp_on_udm_ b1); [by apply T1|exact Hm|]. intros b2 T2. apply wp_ret.
  pose proof (touches_trans _ _ _ _ _ _ T1 T2) as T. split.
  - by eapply touches_wf.
  - eexists; split; [by apply T2|]. split; [done|]. eexists _, s. split; [by apply T2|done].
Qed.

(** A new snapshot follows its symbol. *)
Lemma register_wp open b i u sym name eager :
  bwf program open b → unit_at b i = Some u → sym < length (symbol_states (u_udm u)) →
  name_at b i sym name →
  wp (on_udm i (register eager sym)) arena_full
    (λ id b', (bwf program open b' ∧ step b b') ∧ snap_named b' i id name) b.
Proof.
  intros Hb Hu Hlt Hname. pose proof (aw_units _ _ (bw_arenas _ _ _ Hb) _ _ Hu) as Hwf.
  eapply wp_on_udm; [exact Hu| |].
  - intros Hn. right. exists i, u. split; [done|]. by eapply register_None.
  - intros m id b1 Hr T. destruct (register_unit eager u sym m id Hwf Hlt Hr) as (Hwf' & Hg & Hf).
    destruct (touches_wf program open i u _ b b1 Hb Hu T Hwf' Hg) as [Hb1 S1]. split; [done|].
    exists (set_udm m u), sym. split; [by apply T|]. split; [done|]. by eapply step_name.
Qed.

(** Updates of the tables that refer into the arenas. *)
Lemma upd_walk_wf open b f :
  bwf program open b →
  symbol_tables (f (walk b)) = symbol_tables (walk b) ∧
  wk_definitions (f (walk b)) = wk_definitions (walk b) ∧ uses (f (walk b)) = uses (walk b) ∧
  use_def_maps (f (walk b)) = use_def_maps (walk b) →
  (step b (upd_walk f b) → snaps_wf (upd_walk f b)) →
  bwf program open (upd_walk f b) ∧ step b (upd_walk f b).
Proof.
  intros [Ha Hsn Hsc] (E1 & E2 & E3 & E4) Hwf.
  assert (Hu : ∀ i, unit_at (upd_walk f b) i = unit_at b i)
    by (intros; unfold unit_at; simpl; by rewrite E1, E2, E3, E4).
  assert (Hst : step b (upd_walk f b))
    by (split; [intros i s ?; by exists s|intros i u ?; exists u; by rewrite Hu]).
  split; [split; [|by apply Hwf|done]|done].
  destruct Ha. split; simpl; rewrite ?E1, ?E2, ?E3, ?E4; try done.
  intros i u. rewrite Hu. eauto.
Qed.

Lemma set_lazy_snapshots_wf open b use_scope nested i id name :
  bwf program open b → name_at b use_scope nested name → snap_named b i id name →
  let b' := upd_walk (λ w, set_lazy_snapshots
    (<[(use_scope, nested, i) := id]> (lazy_snapshots w)) w) b in
  bwf program open b' ∧ step b b'.
Proof.
  intros Hb Hn Hsn. apply upd_walk_wf; [done|done|]. intros Hst.
  destruct (bw_snaps _ _ _ Hb) as [Hc Hl Hca]. split; simpl.
  - intros s k entries He. destruct (Hc _ _ _ He) as (nm & l & ? & ? & ? & Ha).
    exists nm, l. split; [by eapply step_use|]. split; [done|]. split; [done|].
    intros. eapply step_snap; eauto.
  - intros s n a i' Hi. apply lookup_insert_Some in Hi as [[[= <- <- <-] <-]|[_ Hi]].
    + exists name. split; [by eapply step_name|by eapply step_snap].
    + destruct (Hl _ _ _ _ Hi) as (nm & ? & ?). exists nm.
      split; [by eapply step_name|by eapply step_snap].
  - done.
Qed.

Lemma set_chain_wf open b s k entries name l :
  bwf program open b → use_named b s k name → chain (scopes b) (Some s) (s :: l) →
  sublist entries.*1 l → (∀ a id, (a, id) ∈ entries → snap_named b a id name) →
  let b' := upd_walk (λ w, set_wk_enclosing_snapshots
    (<[(s, k) := entries]> (wk_enclosing_snapshots w)) w) b in
  bwf program open b' ∧ step b b'.
Proof.
  intros Hb Hn Hch Hsub Hsn. apply upd_walk_wf; [done|done|]. intros Hst.
  destruct (bw_snaps _ _ _ Hb) as [Hc Hl Hca]. split; simpl.
  - intros s' k' es He. apply lookup_insert_Some in He as [[[= <- <-] <-]|[_ He]].
    + exists name, l. split; [by eapply step_use|]. split; [done|]. split; [done|].
      intros. eapply step_snap; eauto.
    + destruct (Hc _ _ _ He) as (nm & l' & ? & ? & ? & Ha).
      exists nm, l'. split; [by eapply step_use|]. split; [done|]. split; [done|].
      intros. eapply step_snap; eauto.
  - intros s' n a i' Hi. destruct (Hl _ _ _ _ Hi) as (nm & ? & ?). exists nm.
    split; [by eapply step_name|by eapply step_snap].
  - done.
Qed.

Lemma shared_lazy_snapshot_wp open b use_scope nested i u sym name :
  bwf program open b → unit_at b i = Some u → sym < length (symbol_states (u_udm u)) →
  name_at b i sym name → name_at b use_scope nested name →
  wp (shared_lazy_snapshot use_scope nested i sym) arena_full
    (λ id b', (bwf program open b' ∧ step b b') ∧ snap_named b' i id name) b.
Proof.
  intros Hb Hu Hlt Hname Hnested. unfold shared_lazy_snapshot. apply wp_bind, wp_gets.
  destruct (lazy_snapshots (walk b) !! _) as [id|] eqn:Hid.
  - apply wp_ret. split; [done|]. destruct (sw_lazy _ (bw_snaps _ _ _ Hb) _ _ _ _ Hid) as (nm & Hn & Hs).
    by rewrite (name_at_fun _ _ _ _ _ Hnested Hn).
  - apply wp_bind. eapply wp_mono; [by apply (register_wp open b i u sym name false)|].
    intros id b1 [[Hb1 S1] Hs1]. apply wp_bind, wp_modify, wp_ret.
    destruct (set_lazy_snapshots_wf open b1 use_scope nested i id name) as [Hb2 S2];
      [done|by eapply step_name|done|].
    split; [split; [done|by etrans]|by eapply step_snap].
Qed.

(** One ancestor's entry in the chain of a free use. *)
Lemma register_in_ancestor_wp open name use_scope nested current eager acc b :
  bwf program open b → current < length (scopes b) →
  name_at b use_scope nested name → (∀ a id, (a, id) ∈ acc → snap_named b a id name) →
  wp (register_in_ancestor name use_scope nested current eager acc) arena_full
    (λ entries b', (bwf program open b' ∧ step b b') ∧
       (∃ ext, entries = acc ++ ext ∧ sublist ext.*1 [current]) ∧
       ∀ a id, (a, id) ∈ entries → snap_named b' a id name) b.
Proof.
  intros Hb Hcur Hn Hacc. apply wp_bind, wp_try_get.
  2:{ intros Hnone. destruct (scope_binds_anywhere_total open b current name
        (bw_arenas _ _ _ Hb) Hcur). congruence. }
  intros [] _.
  2:{ apply wp_ret. split; [done|]. split; [|done]. exists []. rewrite app_nil_r.
      split; [done|]. apply sublist_nil_l. }
  eapply wp_cut; [by apply (touch_wp open)|].
  intros id b1 ((Hb1 & S1) & u & Hu & Hid & Hname). simpl.
  apply wp_bind, (wp_mono _ _ (λ i b', (bwf program open b' ∧ step b1 b') ∧
    snap_named b' current i name)).
  - destruct eager.
    + by apply (register_wp open b1 current u id name true).
    + eapply shared_lazy_snapshot_wp; [done..|]. by eapply step_name.
  - intros i b2 [[Hb2 S2] Hsn]. apply wp_ret. assert (S : step b b2) by (by etrans).
    split; [done|]. split; [by exists [(current, i)]|].
    intros a j [Hj|Hj]%elem_of_app; [by eapply step_snap; eauto|].
    apply list_elem_of_singleton in Hj as [= -> ->]. done.
Qed.

(** The chain of a free use: one snapshot per binding ancestor, in order. *)
Lemma register_in_ancestors_wp open fuel name use_scope nested current l eager acc b :
  bwf program open b → chain (scopes b) (Some current) l → current < fuel →
  name_at b use_scope nested name → (∀ a id, (a, id) ∈ acc → snap_named b a id name) →
  wp (register_in_ancestors fuel name use_scope nested current eager acc) arena_full
    (λ entries b', (bwf program open b' ∧ step b b') ∧
       (∃ ext, entries = acc ++ ext ∧ sublist ext.*1 l) ∧
       ∀ a id, (a, id) ∈ entries → snap_named b' a id name) b.
Proof.
  revert current l eager acc b.
  induction fuel as [|fuel IH]; intros current l eager acc b Hb Hc Hf Hn Hacc; [lia|].
  inversion Hc as [|? s l' Hs Hc']; subst. simpl.
  assert (Hcur : current < length (scopes b)) by (by eapply lookup_lt_Some).
  apply wp_bind. eapply wp_mono; [by apply (register_in_ancestor_wp open)|].
  intros entries b1 ((Hb1 & S1) & (ext & -> & Hsub) & Hall).
  destruct (sp_scopes _ _ S1 _ _ Hs) as (s' & Hs' & Hp & Hk & _).
  apply wp_bind, wp_try_get; unfold IndexVec.index; rewrite Hs'; [|done]. intros ? [= <-].
  rewrite Hp, Hk. destruct (scope_parent s) as [parent|] eqn:Hpar.
  - pose proof (parent_lt _ _ _ _ _ (bw_arenas _ _ _ Hb) Hs Hpar).
    eapply wp_mono; [apply (IH parent l'); [done|by eapply step_chain|lia|by eapply step_name|done]|].
    intros entries b2 ((Hb2 & S2) & (ext2 & -> & Hsub2) & Hall2).
    split; [split; [done|by etrans]|]. split; [|done].
    exists (ext ++ ext2). rewrite app_assoc. split; [done|]. rewrite fmap_app.
    by apply (sublist_app _ [current]).
  - apply wp_ret. split; [done|]. split; [|done]. exists ext. split; [done|].
    inversion Hc'; subst. done.
Qed.

Lemma register_enclosing_snapshot_wp open b name nested use_id :
  bwf program open b → use_named b (current_scope b) use_id name →
  name_at b (current_scope b) nested name →
  wp (register_enclosing_snapshot name nested use_id) arena_full
    (λ _ b', bwf program open b' ∧ step b b') b.
Proof.
  intros Hb Huse Hn. pose proof (bw_arenas _ _ _ Hb) as Ha.
  pose proof (aw_chain _ _ Ha) as Hc. inversion Hc as [|? s l Hs Hc']; subst.
  apply wp_bind, wp_try_get; unfold the_scope, IndexVec.index; rewrite Hs; [|done]. intros ? [= <-].
  apply wp_bind, wp_gets. destruct (scope_parent s) as [parent|] eqn:Hp; [|by apply wp_ret].
  apply wp_if_some; [intros ? [= <-]|done]. apply wp_bind, wp_gets.
  pose proof (parent_lt _ _ _ _ _ Ha Hs Hp). apply lookup_lt_Some in Hs as Hlt.
  apply wp_bind. eapply wp_mono.
  { apply (register_in_ancestors_wp (current_scope b :: l)) with (l := l);
      [done|done|lia|done|]. intros a id Hin. by apply elem_of_nil in Hin. }
  intros entries b1 ((Hb1 & S1) & (ext & -> & Hsub) & Hall). simpl in *.
  assert (Hset : bwf program (current_scope b :: l) (upd_walk (λ w, set_wk_enclosing_snapshots
      (<[(current_scope b, use_id) := ext]> (wk_enclosing_snapshots w)) w) b1) ∧
    step b1 (upd_walk (λ w, set_wk_enclosing_snapshots
      (<[(current_scope b, use_id) := ext]> (wk_enclosing_snapshots w)) w) b1)).
  { apply (set_chain_wf _ _ _ _ _ name l); [done|by eapply step_use| |done|done].
    by eapply step_chain. }
  destruct ext; [by apply wp_ret|]. apply wp_modify. destruct Hset. split; [done|by etrans].
Qed.

Lemma add_use_wk open name range : wk open (add_use name range).
Proof.
  intros b Hb. pose proof (bw_arenas _ _ _ Hb) as Ha. destruct (current_open _ _ Ha) as [Hcur _].
  destruct (unit_at_total _ _ _ Ha Hcur) as (u & Hu & Hwf). apply wp_bind, wp_gets.
  apply wp_bind, (wp_intern_in b (current_scope b) u); [done|apply Hwf|]. intros t id b1 Hint T1.
  apply wp_bind, (wp_push_use b1 (current_scope b) (set_table t u)); [by apply T1|].
  intros us k b2 Hp T2.
  destruct (use_unit u name range t id us k Hwf Hint Hp)
    as (m & m' & Hm & Hm' & Hid & Hk & (s & Hs & Hname) & Hwf' & Hg).
  apply wp_bind. eapply (wp_on_udm_ b2); [by apply T2|exact Hm|]. intros b3 T3.
  apply wp_bind. eapply (wp_on_udm_ b3); [by apply T3|exact Hm'|]. intros b4 T4.
  assert (T : touches (current_scope b) (mkUnit t (u_defs u) us m') b b4).
  { eapply touches_trans; [exact T1|]. eapply touches_trans; [exact T2|].
    eapply touches_trans; [exact T3|exact T4]. }
  destruct (touches_wf program open _ u _ b b4 Hb Hu T Hwf' Hg) as [Hb4 S4].
  pose proof (th_unit _ _ _ _ T) as Hu4. pose proof (proj1 (unit_at_Some _ _ _) Hu4) as (_ & _ & _ & Hudm).
  simpl in Hudm. destruct (lookup_lt_is_Some_2 _ _ Hid) as [bs Hbs].
  apply wp_bind, wp_try_get; unfold IndexVec.index, Builder.is_may_be_unbound; rewrite Hudm; simpl;
    unfold IndexVec.index; rewrite Hbs; simpl; [|done].
  intros ? [= <-]. apply wp_when; [intros _|done].
  assert (Hn4 : name_at b4 (current_scope b) id name) by (by eexists _, s).
  rewrite <-(th_current _ _ _ _ T) in *.
  eapply wp_mono; [apply (register_enclosing_snapshot_wp open)|]; [done| |done|].
  - eexists _, _. split; [exact Hu4|]. split; [exact Hk|]. done.
  - intros [] b5 [Hb5 S5]. split; [done|by etrans].
Qed.
Hint Resolve add_use_wk : walk.

(** ** Semantic calls *)

Lemma on_walk_other_wk open f :
  (∀ w, symbol_tables (f w) = symbol_tables w ∧ wk_definitions (f w) = wk_definitions w ∧
     uses (f w) = uses w ∧ use_def_maps (f w) = use_def_maps w ∧
     wk_enclosing_snapshots (f w) = wk_enclosing_snapshots w ∧
     lazy_snapshots (f w) = lazy_snapshots w ∧ semantic_calls (f w) = semantic_calls w) →
  wk open (on_walk f).
Proof.
  intros Hf b Hb. apply wp_modify.
  destruct (Hf (walk b)) as (E1 & E2 & E3 & E4 & E5 & E6 & E7).
  apply upd_walk_wf; [done|done|]. intros Hst. eapply step_snaps_wf; [done|apply Hb|done..].
Qed.

Lemma push_call_wk open kind range : wk open (push_call kind range).
Proof.
  intros b Hb. apply wp_modify. destruct (current_open _ _ (bw_arenas _ _ _ Hb)) as [Hcur _].
  apply upd_walk_wf; [done|done|]. intros Hst.
  assert (Hs : snaps_wf (upd_walk id b)) by (by destruct (bw_snaps _ _ _ Hb)).
  destruct Hs as [Hc Hl Hca]. split; [done|done|]. simpl in *.
  intros c [Hin|Hin]%elem_of_app; [auto|]. by apply list_elem_of_singleton in Hin as ->.
Qed.
Hint Resolve push_call_wk : walk.

Lemma record_effects_callee_wk open call : wk open (record_effects_callee call).
Proof.
  unfold record_effects_callee.
  destruct call as [| | | | | | | | | | [[]|] | | | | | | | | |]; wk.
  apply (sk_wk _ 0), modify_other. done.
Qed.
Hint Resolve record_effects_callee_wk : walk.

Lemma walk_attach_call_wk open call package : wk open (walk_attach_call call package).
Proof. unfold walk_attach_call. wk. Qed.
Hint Resolve walk_attach_call_wk : walk.

(** Every live symbol of the file scope has a name. *)
Lemma top_level_names_total open b : arenas_wf open b → is_Some (top_level_names b).
Proof.
  intros Hb. destruct (current_open _ _ Hb) as [Hcur _].
  destruct (unit_at_total _ b 0 Hb) as (u & Hu & Hwf); [lia|].
  apply unit_at_Some in Hu as (Ht & _ & _ & Hm). unfold top_level_names, IndexVec.index.
  rewrite Ht, Hm. simpl. apply mapM_is_Some, Forall_forall. intros sym Hsym.
  unfold Builder.bound_symbol_ids in Hsym. apply list_elem_of_fmap in Hsym as ([i bs] & -> & Hin).
  apply list_elem_of_filter in Hin as [_ Hin%IndexVec.iter_elem_of]. simpl.
  apply lookup_lt_Some in Hin. pose proof (uw_states _ Hwf).
  destruct (lookup_lt_is_Some_2 (symbols (u_table u)) i) as [s Hs]; [lia|].
  unfold SymbolTable.symbol, IndexVec.index. rewrite Hs. by eexists.
Qed.

Lemma walk_sourced_file_wk open call sourced : wk open (walk_sourced_file call sourced).
Proof. unfold walk_sourced_file. wk. Qed.
Hint Resolve walk_sourced_file_wk : walk.

Lemma walk_source_call_wk open call : wk open (walk_source_call call).
Proof.
  unfold walk_source_call. wk.
  - apply wk_try_get. intros b Hb. destruct (current_open _ _ Hb) as [Hcur _].
    by eapply enclosing_lazy_total.
  - apply wk_try_get. intros b. apply top_level_names_total.
  - by apply on_walk_other_wk.
Qed.
Hint Resolve walk_source_call_wk : walk.

Lemma walk_assign_call_wk open call : wk open (walk_assign_call call).
Proof. unfold walk_assign_call. wk. Qed.
Hint Resolve walk_assign_call_wk : walk.

Lemma walk_assign_operator_wk open bin : wk open (walk_assign_operator bin).
Proof. unfold walk_assign_operator. wk. destruct (cres_assign _); wk. Qed.
Hint Resolve walk_assign_operator_wk : walk.

Lemma walk_semantic_call_wk open call : wk open (walk_semantic_call call).
Proof. unfold walk_semantic_call. wk. Qed.
Hint Resolve walk_semantic_call_wk : walk.

Lemma walk_namespace_access_wk open op lhs rhs range : wk open (walk_namespace_access op lhs rhs range).
Proof.
  unfold walk_namespace_access. destruct op as [op|]; [|wk].
  destruct (kind op); wk; by apply on_walk_other_wk.
Qed.
Hint Resolve walk_namespace_access_wk : walk.

(** ** Branches and loops *)

(** The current scope's unit, while the walk is in it. *)
Lemma current_unit open b :
  bwf program open b → ∃ u, unit_at b (current_scope b) = Some u ∧ unit_wf u.
Proof.
  intros Hb. pose proof (bw_arenas _ _ _ Hb) as Ha. destruct (current_open _ _ Ha) as [Hcur _].
  by eapply unit_at_total.
Qed.

Lemma same_current open b b' :
  bwf program open b → bwf program open b' → current_scope b' = current_scope b.
Proof.
  intros Hb Hb'. destruct (current_open _ _ (bw_arenas _ _ _ Hb)) as [_ [r1 E1]].
  destruct (current_open _ _ (bw_arenas _ _ _ Hb')) as [_ [r2 E2]]. congruence.
Qed.

(** A snapshot of the current scope stays usable. *)
Definition snap_here (snap : FlowSnapshot) b : Prop :=
  ∃ u, unit_at b (current_scope b) = Some u ∧ snap_ok u snap.

Lemma snap_here_step open snap b b' :
  bwf program open b → bwf program open b' → step b b' → snap_here snap b → snap_here snap b'.
Proof.
  intros Hb Hb' S (u & Hu & Hok). destruct (sp_units _ _ S _ _ Hu) as (u' & Hu' & Hg).
  exists u'. rewrite (same_current _ _ _ Hb Hb'). split; [done|]. by eapply snap_ok_grows.
Qed.

Lemma cur_snapshot_wp open b :
  bwf program open b →
  wp (Builder.snapshot <$> cur_udm) arena_full (λ snap b', b' = b ∧ snap_here snap b) b.
Proof.
  intros Hb. destruct (current_unit _ _ Hb) as (u & Hu & Hwf). apply wp_fmap.
  pose proof (proj1 (unit_at_Some _ _ _) Hu) as (_ & _ & _ & Hm).
  apply wp_try_get; unfold IndexVec.index; rewrite Hm; [|done]. intros ? [= <-].
  split; [done|]. exists u. split; [done|]. by apply snapshot_unit.
Qed.

(** An update of the current use-def map that keeps its unit's invariant. *)
Lemma upd_udm_wp open b u (f : UseDefMapBuilder → option UseDefMapBuilder) :
  bwf program open b → unit_at b (current_scope b) = Some u →
  (∃ m, f (u_udm u) = Some m ∧ unit_wf (set_udm m u) ∧ unit_grows u (set_udm m u)) →
  wp (upd_udm f) arena_full (λ _ b', bwf program open b' ∧ step b b') b.
Proof.
  intros Hb Hu (m & Hm & Hwf & Hg). apply wp_bind, wp_gets.
  eapply wp_on_udm_; [exact Hu|exact Hm|]. intros b' T. by eapply touches_wf.
Qed.

Section flow.
Context {E : Type} (open : list nat) (visit : E → M B ()).

Lemma walk_branch_wk consequence alternative :
  (∀ e, consequence = Some e → wk open (visit e)) →
  (∀ e, alternative = Some e → wk open (visit e)) →
  wk open (walk_branch visit consequence alternative).
Proof.
  intros Hc Ha b Hb. unfold walk_branch.
  apply wp_bind. eapply wp_mono; [by eapply cur_snapshot_wp|]. intros pre ? [-> Hpre].
  apply wp_bind. eapply wp_mono; [by apply (keeps_if_some _ _ step _ _ Hc)|]. intros [] b1 [Hb1 S1].
  apply wp_bind. eapply wp_mono; [by eapply cur_snapshot_wp|]. intros post ? [-> Hpost].
  destruct (snap_here_step open pre b b1 Hb Hb1 S1 Hpre) as (u1 & Hu1 & Hok1).
  pose proof (aw_units _ _ (bw_arenas _ _ _ Hb1) _ _ Hu1) as Hwf1.
  apply wp_bind. eapply wp_mono; [by eapply upd_udm_wp, restore_unit|]. intros [] b2 [Hb2 S2].
  apply wp_bind. eapply wp_mono; [by apply (keeps_if_some _ _ step _ _ Ha)|]. intros [] b3 [Hb3 S3].
  assert (S13 : step b1 b3) by (by etrans).
  destruct (snap_here_step open post b1 b3 Hb1 Hb3 S13 Hpost) as (u3 & Hu3 & Hok3).
  pose proof (aw_units _ _ (bw_arenas _ _ _ Hb3) _ _ Hu3) as Hwf3.
  eapply wp_mono; [eapply upd_udm_wp; [done|done|]|].
  - eexists; split; [done|]. by apply merge_unit.
  - intros [] b4 [Hb4 S4]. split; [done|]. by do 2 (etrans; [eassumption|]).
Qed.

Lemma walk_loop_body_wk body may_skip :
  (∀ e, body = Some e → wk open (visit e)) → wk open (walk_loop_body visit body may_skip).
Proof.
  intros Hbody b Hb. unfold walk_loop_body.
  apply wp_bind. eapply wp_mono; [by eapply cur_snapshot_wp|]. intros pre ? [-> Hpre].
  apply wp_bind, (wp_mono _ _ (λ _ b', bwf program open b' ∧ step b b')).
  - apply wp_if_some; [intros e He|done].
    destruct (current_unit _ _ Hb) as (u & Hu & Hwf).
    pose proof (proj1 (unit_at_Some _ _ _) Hu) as (_ & _ & Hus & _).
    apply wp_bind, wp_try_get; unfold IndexVec.index; rewrite Hus; [|done]. intros ? [= <-].
    apply wp_bind, wp_try_get.
    2:{ unfold IndexVec.next_id, IndexVec.Idx_new. case_decide as Hd; [done|]. intros _.
        right. eexists _, u. split; [done|]. right; right; left. lia. }
    intros first_use _. apply wp_bind. eapply wp_mono; [by apply Hbody|]. intros [] b1 [Hb1 S1].
    destruct (snap_here_step open pre b b1 Hb Hb1 S1 Hpre) as (u1 & Hu1 & Hok1).
    pose proof (aw_units _ _ (bw_arenas _ _ _ Hb1) _ _ Hu1) as Hwf1.
    pose proof (proj1 (unit_at_Some _ _ _) Hu1) as (_ & _ & Hus1 & _).
    apply wp_bind, wp_try_get; unfold IndexVec.index; rewrite Hus1; [|done]. intros ? [= <-].
    eapply wp_mono; [eapply upd_udm_wp; [done|done|]|].
    + by apply finish_loop_unit.
    + intros [] b2 [Hb2 S2]. split; [done|by etrans].
  - intros [] b1 [Hb1 S1]. apply wp_when; [intros _|done].
    destruct (snap_here_step open pre b b1 Hb Hb1 S1 Hpre) as (u1 & Hu1 & Hok1).
    pose proof (aw_units _ _ (bw_arenas _ _ _ Hb1) _ _ Hu1) as Hwf1.
    eapply wp_mono; [eapply upd_udm_wp; [done|done|]|].
    + eexists; split; [done|]. by apply merge_unit.
    + intros [] b2 [Hb2 S2]. split; [done|by etrans].
Qed.
End flow.

(** ** Scopes *)

(** A new scope has an empty unit. *)
Definition new_unit : scope_unit := mkUnit SymbolTable.new [] [] Builder.new.

Lemma new_unit_wf : unit_wf new_unit.
Proof.
  split; simpl; [exact SymbolTableFacts.wf_table_new|exact BuilderFacts.wf_new|done..|].
  split; simpl; [|done|]; intros *.
  - unfold BuilderFacts.st. simpl. by intros ?%elem_of_nil.
  - by rewrite lookup_empty.
Qed.

Lemma push_scope_wp open kind range b :
  bwf program open b → kind ≠ KFile →
  wp (push_scope kind range) arena_full
    (λ id b', (bwf program (id :: open) b' ∧ step b b') ∧
       deferred_bodies (scan b') = deferred_bodies (scan b)) b.
Proof.
  intros [Ha Hsn Hsc] Hk. pose proof (aw_cap _ _ Ha) as Hcap. apply wp_try_update.
  2:{ intros Hn. left. destruct (decide (N.of_nat (length (scopes b)) < IndexVec.MAX)%N) as [Hlt|]; [|lia].
      destruct (push_scope_arena_spec kind range _ _ _ (aw_preorder _ _ Ha) (aw_chain _ _ Ha) Hk Hlt)
        as (scopes' & Hp & _). rewrite Hp in Hn. simpl in Hn.
      rewrite !IndexVec.push_total in Hn by (rewrite ?(aw_tables _ _ Ha), ?(aw_defs _ _ Ha),
        ?(aw_uses _ _ Ha), ?(aw_udms _ _ Ha), ?(aw_bound _ _ Ha); done). done. }
  intros id b' Hrun. apply bind_Some in Hrun as ([scopes' i] & Hp & Hrun).
  assert (Hlt : (N.of_nat (length (scopes b)) < IndexVec.MAX)%N).
  { unfold push_scope_arena in Hp. apply bind_Some in Hp as (next & Hn & Hp).
    apply bind_Some in Hp as (start & Hst & _).
    apply IndexVec.Idx_new_Some in Hn as [-> _]. apply IndexVec.Idx_new_Some in Hst as [_ ?]. lia. }
  destruct (push_scope_arena_spec kind range _ _ _ (aw_preorder _ _ Ha) (aw_chain _ _ Ha) Hk Hlt)
    as (scopes2 & Hp2 & Hs2 & Hpo & Hch). rewrite Hp in Hp2. injection Hp2 as -> ->.
  apply bind_Some in Hrun as ([tables ?] & (-> & _)%IndexVec.push_Some & Hrun).
  apply bind_Some in Hrun as ([defs ?] & (-> & _)%IndexVec.push_Some & Hrun).
  apply bind_Some in Hrun as ([us ?] & (-> & _)%IndexVec.push_Some & Hrun).
  apply bind_Some in Hrun as ([udms ?] & (-> & _)%IndexVec.push_Some & Hrun).
  apply bind_Some in Hrun as ([bound ?] & (-> & _)%IndexVec.push_Some & [= <- <-]).
  set (b' := upd_walk _ _).
  assert (Hold : ∀ j, j < length (scopes b) → unit_at b' j = unit_at b j).
  { intros j Hj. unfold unit_at. simpl. rewrite !lookup_app_l;
      rewrite ?(aw_tables _ _ Ha), ?(aw_defs _ _ Ha), ?(aw_uses _ _ Ha), ?(aw_udms _ _ Ha); done. }
  assert (Hnew : unit_at b' (length (scopes b)) = Some new_unit).
  { apply unit_at_Some. simpl. rewrite !lookup_app_r;
      rewrite ?(aw_tables _ _ Ha), ?(aw_defs _ _ Ha), ?(aw_uses _ _ Ha), ?(aw_udms _ _ Ha); [|done..].
    by rewrite Nat.sub_diag. }
  assert (Hst : step b b').
  { split; simpl; rewrite ?Hs2.
    - intros j s Hj. exists s. split; [by apply lookup_app_l_Some|done].
    - intros j u Hj. exists u. rewrite Hold by (by eapply unit_at_lt). done. }
  split; [split; [split|done]|done].
  - split; simpl; rewrite ?Hs2, ?length_app; simpl; rewrite <-?Hs2; try done;
      rewrite ?(aw_tables _ _ Ha), ?(aw_defs _ _ Ha), ?(aw_uses _ _ Ha), ?(aw_udms _ _ Ha),
        ?(aw_bound _ _ Ha); try done; [lia|].
    intros j u Hu. destruct (decide (j < length (scopes b))) as [Hj|Hj].
    + rewrite Hold in Hu by done. by eapply aw_units.
    + assert (j = length (scopes b)) as ->.
      { apply unit_at_Some in Hu as (Ht%lookup_lt_Some & _). simpl in Ht.
        rewrite length_app, (aw_tables _ _ Ha) in Ht. simpl in Ht. lia. }
      rewrite Hnew in Hu. injection Hu as <-. apply new_unit_wf.
  - by eapply step_snaps_wf.
  - destruct Hsc. by split.
Qed.

Lemma pop_scope_wp open id b :
  bwf program (id :: open) b → open ≠ [] →
  wp (pop_scope id) arena_full (λ _ b', bwf program open b' ∧ step b b') b.
Proof.
  intros [Ha Hsn Hsc] Hne. pose proof (aw_cap _ _ Ha) as Hcap.
  pose proof (aw_chain _ _ Ha) as Hch. inversion Hch as [|? s ? Hs Hc]; subst.
  destruct (pop_scope_arena_spec _ _ _ (aw_preorder _ _ Ha) Hch Hne Hcap)
    as (scopes' & s' & parent & Hp & Hs' & Hpar & -> & Hpo & Hch'). simplify_eq.
  apply wp_try_update; rewrite Hp; simpl; [|done]. intros [] b' [= <-].
  set (b' := set_current_scope _ _).
  assert (Hst : step b b').
  { split; simpl; [|intros j u Hu; by exists u]. intros j sj Hj.
    destruct (decide (j = current_scope b)) as [->|].
    - simplify_eq. eexists. rewrite list_lookup_insert_eq by (by eapply lookup_lt_Some). done.
    - exists sj. by rewrite list_lookup_insert_ne. }
  split; [split|done].
  - destruct Ha. split; simpl; rewrite ?length_insert; done.
  - by eapply step_snaps_wf.
  - done.
Qed.

(** A block that starts with [open] scopes and ends with [open']. *)
Definition goes open open' {A} (m : M B A) : Prop :=
  ∀ b, bwf program open b → wp m arena_full (λ _ b', bwf program open' b' ∧ step b b') b.

Lemma goes_bind open open' {A C} (m : M B A) (f : A → M B C) :
  wk open m → (∀ a, goes open open' (f a)) → goes open open' (m ≫= f).
Proof.
  intros Hm Hf b Hb. apply wp_bind. eapply wp_mono; [by apply Hm|]. intros a b1 [Hb1 S1].
  eapply wp_mono; [by apply Hf|]. intros c b2 [Hb2 S2]. split; [done|by etrans].
Qed.

Lemma open_nonempty open b : bwf program open b → open ≠ [].
Proof. intros Hb. destruct (current_open _ _ (bw_arenas _ _ _ Hb)) as [_ [r ->]]. done. Qed.

Lemma truncate_attaches_wk open n : wk open (truncate_attaches n).
Proof.
  intros b Hb. apply wp_modify. destruct (bw_scan _ _ _ Hb) as [C1 _ _].
  destruct (upd_attaches program open Hrelease 0 b (FlowAttaches.truncate n (attached_so_far (scan b))))
    as [[Hb' [[HA _] _]] _]; [done|simpl; by rewrite !length_take, C1|].
  split; [exact Hb'|]. destruct HA as [Hs _ Hw _]. split.
  - intros i s Hi. exists s. done.
  - intros i u Hu. by exists u.
Qed.
Hint Resolve truncate_attaches_wk : walk.

(** ** One level of the recursion *)

(** No two calls of the program have the same range: a call is longer than the
    callee it starts with. *)
Definition calls_have_own_ranges : Prop := ∀ c1 c2,
  within program c1 → within program c2 → is_call c1 → is_call c2 →
  range_of c1 = range_of c2 → c1 = c2.

Section recursion.
Context (Hcalls : calls_have_own_ranges).
Context (e0 : expr) (Hin : within program e0) (fuel : nat) (Hfuel : esize e0 ≤ fuel).
Context (walk_expression : expr → M B ()).
Context (Hwalk : ∀ open e, tc child e e0 → wk open (walk_expression e)).

Lemma walk_child_wk open e : child e e0 → wk open (walk_expression e).
Proof. intros He. by apply Hwalk, tc_once. Qed.

Lemma scan_child_sk' open e :
  child e e0 → keeps arena_full (bwf program open) (scanned (esize e0)) (scan_expression fuel e).
Proof.
  intros He. pose proof (child_size _ _ He).
  eapply sk_mono; [|apply (scan_pass program open Hrelease fuel)]; [lia| |lia].
  by eapply within_child.
Qed.

(** After the scans of a body, its queue is drained. *)
Lemma drain_wp open b b' :
  bwf program open b' → scanned (esize e0) b b' →
  wp (scan_deferred_bodies fuel (length (deferred_bodies (scan b)))) arena_full
    (λ _ b'', bwf program open b'' ∧ step b' b'') b'.
Proof.
  intros Hb' [[_ (ext & Hd & Hext)] _].
  destruct (scan_pass program open Hrelease fuel) as [_ Hdrain].
  eapply wp_mono; [eapply Hdrain; [pose proof (esize_pos e0); lia|done|exact Hd|]|].
  - intros d Hin'. specialize (Hext d Hin'). lia.
  - intros [] b2 [(Hb2 & [[Hs _ Hw _] _] & _) _]. split; [done|]. split.
    + intros i s Hi. exists s. by rewrite Hs.
    + intros i u Hu. exists u. unfold unit_at in *. by rewrite Hw.
Qed.

(** The scan of the body of a lazy scope, and its walk. *)
Lemma lazy_body_wp open open' b0 b (scans : M B ()) (rest : M B ()) :
  bwf program open b → deferred_bodies (scan b) = deferred_bodies (scan b0) →
  keeps arena_full (bwf program open) (scanned (esize e0)) scans → goes open open' rest →
  wp (scans;; scan_deferred_bodies fuel (length (deferred_bodies (scan b0)));; rest) arena_full
    (λ _ b', bwf program open' b' ∧ step b b') b.
Proof.
  intros Hb Hd Hs Hrest. rewrite <-Hd. apply wp_bind.
  eapply wp_mono; [by apply Hs|]. intros [] b1 [Hb1 S1]. pose proof (scanned_step _ _ _ S1) as S1'.
  apply wp_bind. eapply wp_mono; [by apply (drain_wp open b)|]. intros [] b2 [Hb2 S2].
  eapply wp_mono; [by apply Hrest|]. intros [] b3 [Hb3 S3].
  split; [done|]. by do 2 (etrans; [eassumption|]).
Qed.

Lemma walk_parameters_wk open items :
  (∀ e, e ∈ param_exprs items → child e e0) → wk open (walk_parameters walk_expression items).
Proof.
  intros Hi. unfold walk_parameters, walk_parameter. wk.
  - destruct (param_text _). wk.
  - apply walk_child_wk, Hi, list_elem_of_omap. eexists. split; [done|]. subst. simpl.
    by match goal with Hp : par_default _ = _ |- _ => rewrite Hp end.
Qed.

Lemma walk_function_wk open params body range :
  e0 = RFunctionDefinition params body range →
  wk open (walk_function fuel walk_expression params body range).
Proof.
  intros He b Hb.
  assert (Hp : ∀ items e, params = Some items → e ∈ param_exprs items → child e e0)
    by (intros items e -> ?; rewrite He; apply elem_of_app; by left).
  assert (Hbody : ∀ e, body = Some e → child e e0)
    by (intros e ->; rewrite He; apply elem_of_app; right; by left).
  apply wp_bind, wp_gets, wp_bind. eapply wp_mono; [by apply push_scope_wp|].
  intros id b1 [[Hb1 S1] D1]. apply wp_bind, wp_gets.
  set (rest := if_some params (walk_parameters walk_expression);; _).
  assert (Hrest : goes (id :: open) open rest).
  { repeat (apply goes_bind; [|intros ?]).
    - wk. apply walk_parameters_wk. eauto.
    - wk. apply walk_child_wk. eauto.
    - wk.
    - intros b2 Hb2. apply pop_scope_wp; [done|by eapply open_nonempty]. }
  assert (Hscan : keeps arena_full (bwf program (id :: open)) (scanned (esize e0))
    ((begin_scan;; if_some params (scan_parameter_defaults (scan_expression fuel)));;
     if_some body (scan_expression fuel))).
  { repeat keeps_step; [by apply begin_scan_sk| |].
    - apply scan_parameter_defaults_sk. intros e Hine. apply scan_child_sk'. eauto.
    - apply scan_child_sk'. eauto. }
  pose proof (lazy_body_wp _ _ b b1 _ _ Hb1 D1 Hscan Hrest) as Hall.
  eapply wp_mono; [do 2 apply wp_assoc; exact Hall|].
  intros [] b2 [Hb2 S2]. split; [done|by etrans].
Qed.

Lemma walk_nested_lazy_wk open value :
  child value e0 → wk open (walk_nested_lazy fuel walk_expression value).
Proof.
  intros Hv b Hb. apply wp_bind. eapply wp_mono; [by apply push_scope_wp|].
  intros id b1 [[Hb1 S1] D1]. apply wp_bind, wp_gets.
  apply wp_bind. eapply wp_mono; [by apply (begin_scan_sk program (id :: open) Hrelease 0)|].
  intros [] b2 [Hb2 K2]. pose proof (scanned_step _ _ _ K2). apply wp_bind, wp_gets.
  eapply wp_mono.
  { apply (lazy_body_wp (id :: open) open b2 b2); [done|done|by apply scan_child_sk'|].
    repeat (apply goes_bind; [|intros ?]).
    - by apply walk_child_wk.
    - wk.
    - intros b3 Hb3. apply pop_scope_wp; [done|by eapply open_nonempty]. }
  intros [] b3 [Hb3 S3]. split; [done|]. by do 2 (etrans; [eassumption|]).
Qed.

(** The frame of an eager scope, installed from its scan. *)
Lemma install_sites_wk open i bound :
  wk (i :: open) (try_update (λ b,
    sites ← IndexVec.index_mut (bound_anywhere (scan b)) i (λ _, Some bound);
    Some ((), upd_scan (set_bound_anywhere sites) b))).
Proof.
  intros b Hb. pose proof (bw_arenas _ _ _ Hb) as Ha.
  destruct (current_open _ _ Ha) as [Hcur [rest [= Hi _]]].
  apply wp_try_update.
  - intros [] b' (sites & Hs & [= <-])%bind_Some.
    apply (same_walk_wf program (i :: open) b); [done..| |].
    + simpl. by eapply IndexVec.index_mut_length.
    + by destruct (bw_scan _ _ _ Hb).
  - destruct (bound_anywhere_total _ _ i Ha) as [sites Hs]; [by rewrite Hi|].
    unfold IndexVec.index_mut. by rewrite Hs.
Qed.

Lemma walk_nested_eager_wk open value :
  child value e0 → wk open (walk_nested_eager fuel walk_expression value).
Proof.
  intros Hv b Hb. apply wp_bind. eapply wp_mono; [by apply push_scope_wp|].
  intros id b1 [[Hb1 S1] D1].
  match goal with |- wp ?m _ _ _ => assert (Hrest : goes (id :: open) open m) end.
  { repeat (apply goes_bind; [|intros ?]).
    - wk.
    - wk.
    - destruct a as [[]|]; [|apply install_sites_wk|]; apply (sk_wk _ (esize e0)); repeat keeps_step;
        first [by apply debug_panic_sk | by apply begin_scan_sk | by apply scan_child_sk'].
    - by apply walk_child_wk.
    - intros b3 Hb3. apply pop_scope_wp; [done|by eapply open_nonempty]. }
  eapply wp_mono; [by apply Hrest|]. intros [] b2 [Hb2 S2]. split; [done|by etrans].
Qed.

Lemma walk_nse_argument_wk open env timing value :
  child value e0 → wk open (walk_nse_argument fuel walk_expression env timing value).
Proof.
  intros Hv. destruct env, timing; simpl.
  - by apply walk_child_wk.
  - intros b Hb. apply wp_bind. eapply wp_mono; [by apply push_scope_wp|].
    intros id b1 [[Hb1 S1] D1].
    assert (Hrest : goes (id :: open) open (walk_expression value;; pop_scope id)).
    { apply goes_bind; [by apply walk_child_wk|]. intros _ b2 Hb2.
      apply pop_scope_wp; [done|by eapply open_nonempty]. }
    eapply wp_mono; [by apply Hrest|]. intros [] b2 [Hb2 S2]. split; [done|by etrans].
  - by apply walk_nested_eager_wk.
  - by apply walk_nested_lazy_wk.
Qed.

Lemma walk_nse_call_wk open f items range effects :
  e0 = RCall f items range → effects_ok e0 effects →
  wk open (walk_nse_call fuel walk_expression e0 effects).
Proof.
  intros He Hok. unfold walk_nse_call. apply keeps_if_some; [apply _|]. intros l Hl.
  apply keeps_for_each_i; [apply _|]. intros i item Hi.
  apply keeps_if_some; [apply _|]. intros value Hval.
  assert (Hv : child value e0).
  { rewrite He in Hl |- *. simpl in Hl. subst items.
    eapply arg_child; [by eapply list_elem_of_lookup_2|done]. }
  intros b Hb. apply wp_bind, wp_try_get.
  - intros [[env timing|holes]|] Heff.
    + by apply walk_nse_argument_wk.
    + refine ((_ : wk open _) b Hb). wk. apply Hwalk. eapply eo_holes; [done| |done].
      by eapply list_elem_of_lookup_2.
    + by apply walk_child_wk.
  - intros Hn. apply lookup_ge_None in Hn. rewrite (eo_aligned _ _ Hok l) in Hn by done.
    apply lookup_lt_Some in Hi. simpl in Hn. lia.
Qed.

Lemma walk_call_wk open f items range :
  e0 = RCall f items range →
  wk open (if_some f walk_expression;;
    effects ← gets (λ b, argument_effects b e0);
    match effects with
    | Some effects => walk_nse_call fuel walk_expression e0 effects
    | None => if_some items (walk_arguments walk_expression)
    end;;
    walk_semantic_call e0).
Proof.
  intros He. apply keeps_bind; [apply _| |intros _].
  { wk. apply walk_child_wk. subst f. rewrite He. by left. }
  intros b Hb. apply wp_bind, wp_gets.
  destruct (argument_effects b e0) as [effects|] eqn:Heff; refine ((_ : wk open _) b Hb).
  - apply keeps_bind; [apply _| |intros _; wk].
    eapply walk_nse_call_wk; [done|]. unfold argument_effects in Heff.
    apply bind_Some in Heff as (r & Hr & Ha).
    destruct (cw_calls _ _ (bw_scan _ _ _ Hb) _ _ _ Hr Ha) as (call & Hc1 & Hc2 & Hc3 & Hok).
    assert (Heq : e0 = call) by (apply Hcalls; [done|done|by rewrite He|done|by symmetry]).
    by rewrite Heq.
  - wk. unfold walk_arguments. wk. apply walk_child_wk. rewrite He. subst items.
    by eapply arg_child.
Qed.

Lemma walk_assignment_wk open op lhs rhs range range' :
  e0 = RBinaryExpression op lhs rhs range' →
  wk open (walk_assignment walk_expression op lhs rhs range).
Proof.
  intros He.
  assert (Hs : ∀ (c : bool) e, (if c then lhs else rhs) = Some e → wk open (walk_expression e)).
  { intros c e Hc. apply walk_child_wk. rewrite He. unfold child. simpl.
    destruct c; subst; set_solver. }
  pose proof (Hs (negb (is_right_assignment op))) as Hs'.
  unfold walk_assignment. wk.
  destruct (assignment_name x) as [[name r]|].
  - destruct (is_super_assignment op); wk.
  - apply Hs'. by destruct (is_right_assignment op).
Qed.

Lemma walk_expression_step_wk open : wk open (walk_expression_step fuel walk_expression e0).
Proof.
  pose proof (walk_child_wk open) as Hc.
  assert (Hd : ∀ l, (∀ e, e ∈ l → child e e0) → wk open (for_each l walk_expression)) by wk.
  assert (Ho : ∀ o, (∀ e, o = Some e → child e e0) → wk open (if_some o walk_expression)) by wk.
  pose proof (walk_function_wk open) as Hfun. pose proof (walk_assignment_wk open) as Hassign.
  pose proof (walk_call_wk open) as Hcall.
  unfold walk_expression_step, walk_expression_list, walk_descendants.
  destruct e0 eqn:He; rewrite <-He in *;
    try solve [wk | apply Hd; by intros ? ?%elem_of_nil].
  - apply Hd. by rewrite He.
  - destruct (is_assignment operator); [by eapply Hassign|].
    wk; apply Hc; rewrite He; unfold child; simpl; subst; set_solver.
  - by eapply Hcall.
  - wk; [apply Hc; rewrite He; subst; by left|]. unfold walk_arguments. wk. apply Hc. rewrite He.
    unfold child. simpl. subst. apply elem_of_app. right. apply elem_of_app. left.
    apply list_elem_of_omap. eauto.
  - apply Ho. intros e ->. rewrite He. by left.
  - repeat (apply keeps_bind; [apply _| |intros _]).
    + apply keeps_if_some; [apply _|]. intros [name r] _. wk.
    + apply Ho. intros e ->. rewrite He. by left.
    + apply walk_loop_body_wk. intros e ->. apply Hc. rewrite He. apply elem_of_app. right. by left.
  - repeat (apply keeps_bind; [apply _| |intros _]).
    + apply Ho. intros e ->. rewrite He. by left.
    + apply walk_branch_wk; intros e ->; apply Hc; rewrite He; unfold child; simpl; set_solver.
  - repeat (apply keeps_bind; [apply _| |intros _]).
    + apply Ho. intros e ->. rewrite He. by left.
    + apply walk_loop_body_wk. intros e ->. apply Hc. rewrite He. apply elem_of_app. right. by left.
  - apply walk_loop_body_wk. intros e ->. apply Hc. rewrite He. by left.
  - apply Hd. by rewrite He.
Qed.
End recursion.

(** ** The pass *)

(** With more fuel than the expression's size, the walk ends. *)
Lemma walk_pass (Hcalls : calls_have_own_ranges) fuel open e :
  within program e → esize e < fuel → wk open (walk_expression fuel e).
Proof.
  revert open e. induction fuel as [|fuel IH]; intros open e Hin He; [lia|].
  apply walk_expression_step_wk; [done|done|lia|].
  intros open' e' He'. pose proof (strict_size _ _ He'). apply IH; [by eapply within_strict|lia].
Qed.
End walk.
