(* ===== verification/WalkFacts.v ===== *)
(** * What the walk's lookups find

    The targets of super-assignments and the chains of snapshots, in terms of
    what the scopes around the site bind; that fuel beyond the size of a
    program does not change what a pass does; and that the index a build leaves
    is well formed. *)

From S2P Require Export Walk WalkInv.

Section walk.
Context `{TextRanges, Urls, !HandlerTypes, !Handlers, !ImportsResolver, BuildProfile}.
Context (program : list expr).
#[local] Abbreviation B := SemanticIndexBuilder.
Implicit Types b : B.

(** ** What a scope binds *)

(** The walk has bound the name in scope [a]; the walk or a scan has. *)
Definition bound_now b (a : nat) (name : string) : Prop :=
  ∃ t sym s, symbol_tables (walk b) !! a = Some t ∧ symbols t !! sym = Some s ∧
    symbol_name s = name ∧ SymbolFlags.contains (symbol_flags s) SymbolFlags.IS_BOUND = true.

Definition bound_anywhere_in b (a : nat) (name : string) : Prop :=
  bound_now b a name ∨ ∃ sites, bound_anywhere (scan b) !! a = Some sites ∧ is_Some (sites !! name).

Lemma walked_binding_spec open b a name :
  arenas_wf open b → a < length (scopes b) →
  ∃ r, walked_binding b a name = Some r ∧ (is_Some_b r = true ↔ bound_now b a name).
Proof.
  intros Hb Ha. destruct (unit_at_total open b a Hb Ha) as (u & Hu & Hwf).
  apply unit_at_Some in Hu as (Ht & _). destruct (uw_table _ Hwf) as [Hname Hid].
  unfold walked_binding, IndexVec.index. rewrite Ht. simpl.
  destruct (SymbolTable.id (u_table u) name) as [sym|] eqn:Hsym.
  - destruct (Hname _ _ Hsym) as (s & Hs & Hn). unfold SymbolTable.symbol, IndexVec.index.
    rewrite Hs. simpl. eexists; split; [done|].
    destruct (SymbolFlags.contains _ _) eqn:Hc; simpl.
    + split; [|done]. intros _. by exists (u_table u), sym, s.
    + split; [done|]. intros (t & sym' & s' & Ht' & Hs' & Hn' & Hc'). simplify_eq.
      assert (sym = sym') as <-; [|congruence].
      apply Hid in Hs'. unfold SymbolTable.id in Hsym. congruence.
  - eexists; split; [done|]. split; [done|]. intros (t & sym' & s' & Ht' & Hs' & Hn' & _).
    simplify_eq. apply Hid in Hs'. unfold SymbolTable.id in Hsym. congruence.
Qed.

Lemma scope_binds_anywhere_spec open b a name :
  arenas_wf open b → a < length (scopes b) →
  ∃ r, scope_binds_anywhere b a name = Some r ∧ (r = true ↔ bound_anywhere_in b a name).
Proof.
  intros Hb Ha. destruct (walked_binding_spec open b a name Hb Ha) as (w & Hw & Hwb).
  destruct (bound_anywhere_total open b a Hb Ha) as [sites Hs].
  unfold scope_binds_anywhere, IndexVec.index. rewrite Hw, Hs. simpl. eexists; split; [done|].
  rewrite orb_true_iff, Hwb. unfold BindingSites.binds, bound_anywhere_in.
  rewrite bool_decide_eq_true. split.
  - intros [?|?]; [by left|right; eauto].
  - intros [?|(sites' & Hs' & ?)]; [by left|right]. by simplify_eq.
Qed.

(** ** A definition in its scope *)

Lemma define_unit u name flags kind range t id d x :
  unit_wf u → SymbolTable.intern name flags (u_table u) = Some (t, id) →
  IndexVec.push (u_defs u) (mkDefinition kind id range) = Some (d, x) →
  ∃ m m', Builder.ensure_symbol id (u_udm u) = Some m ∧ Builder.record_definition id x m = Some m' ∧
    d = u_defs u ++ [mkDefinition kind id range] ∧ SymbolTable.id t name = Some id ∧
    (∀ sym, BuilderFacts.st m' sym =
       if decide (sym = id) then mkBindings [length (u_defs u)] false
       else BuilderFacts.st (u_udm u) sym) ∧
    (SymbolFlags.contains flags SymbolFlags.IS_BOUND = true →
     ∃ s, symbols t !! id = Some s ∧ symbol_name s = name ∧
       SymbolFlags.contains (symbol_flags s) SymbolFlags.IS_BOUND = true).
Proof.
  intros Hwf Hi (-> & -> & _)%IndexVec.push_Some.
  destruct (intern_unit u name flags t id Hwf Hi) as (m & He & Wt & Hby & Hlen & Hid &
    Hcap & Hnm & Hbound & Hnames & Wm & Hidm & Hst & Sm & Em).
  destruct (BuilderFacts.record_definition_spec id (length (u_defs u)) m Wm)
    as (m' & Hr & _ & _ & Hs & _); [lia|].
  exists m, m'. split; [done|]. split; [done|]. split; [done|]. split; [done|]. split.
  - intros sym. rewrite Hs. case_decide; [done|]. apply Sm.
  - intros Hflags. destruct Hnm as (s & Hs' & Hn). exists s. split; [done|]. split; [done|].
    destruct (SymbolTableFacts.intern_spec _ _ _ _ _ (uw_table _ Hwf) Hi) as (_ & _ & _ & _ & Hback & _).
    destruct (Hback _ _ Hs') as [[_ ?]|(_ & _ & [[_ ->]|(s0 & _ & _ & ->)])]; [done|done|].
    by apply SymbolFlags.insert_contains.
Qed.

(** ** The target of a super-assignment *)

(** Whether [<<-] from execution unit [site] may target scope [a]: in the same
    unit the walk has seen what runs before, in another any binding counts. *)
Definition super_binds b (site : option nat) (name : string) (a : nat) : Prop :=
  (enclosing_lazy_scope (scopes b) a = Some site ∧ bound_now b a name) ∨
  (enclosing_lazy_scope (scopes b) a ≠ Some site ∧ bound_anywhere_in b a name).

Lemma find_super_target_spec open b name site l :
  arenas_wf open b → (∀ a, a ∈ l → a < length (scopes b)) →
  match find_super_target b name site l with
  | None => False
  | Some None => ∀ a, a ∈ l → ¬ super_binds b site name a
  | Some (Some (a, timing)) => ∃ inner outer, l = inner ++ a :: outer ∧
      (∀ a', a' ∈ inner → ¬ super_binds b site name a') ∧ super_binds b site name a ∧
      (timing = true ↔ enclosing_lazy_scope (scopes b) a ≠ Some site ∧ ¬ bound_now b a name)
  end.
Proof.
  intros Hb. induction l as [|a l IH]; intros Hl; simpl; [by intros ? ?%elem_of_nil|].
  assert (Ha : a < length (scopes b)) by (apply Hl; by left).
  destruct (enclosing_lazy_total open b a Hb Ha) as [unit_ Hunit].
  destruct (walked_binding_spec open b a name Hb Ha) as (w & Hw & Hwb).
  destruct (scope_binds_anywhere_spec open b a name Hb Ha) as (any & Hany & Hanyb).
  rewrite Hunit, Hw, Hany. simpl.
  assert (Hlook : (if bool_decide (unit_ = site) then Some (is_Some_b w) else Some any) =
    Some (if bool_decide (unit_ = site) then is_Some_b w else any)) by by destruct (bool_decide _).
  rewrite Hlook. simpl. clear Hlook.
  assert (Hbinds : (if bool_decide (unit_ = site) then is_Some_b w else any) = true ↔
    super_binds b site name a).
  { unfold super_binds. rewrite Hunit. case_bool_decide as Hu.
    - rewrite Hwb. subst. naive_solver.
    - rewrite Hanyb. split; [intros ?; right; by split; [intros [= ?]|]|naive_solver]. }
  destruct (if bool_decide _ then _ else _).
  - exists [], l. split; [done|]. split; [by intros ? ?%elem_of_nil|].
    split; [by apply Hbinds|]. rewrite Hunit, andb_true_iff, negb_true_iff, bool_decide_eq_false.
    rewrite <-Hwb. destruct w; simpl; split; intros [? ?]; (split; [congruence|]); try done; try congruence.
  - assert (Hn : ¬ super_binds b site name a) by (intros Hs; by apply Hbinds in Hs).
    specialize (IH (λ j Hj, Hl j (list_elem_of_further _ _ _ Hj))).
    destruct (find_super_target b name site l) as [[[t timing]|]|]; [| |done].
    + destruct IH as (inner & outer & -> & Hin & Hrest). exists (a :: inner), outer.
      split; [done|]. split; [|done]. intros x [->|Hx]%elem_of_cons; auto.
    + intros x [->|Hx]%elem_of_cons; auto.
Qed.

(** ** The chain of a use *)

(** The scopes, and what each binds, are the same. *)
Record same_names b b' : Prop := {
  sn_scopes : scopes b' = scopes b;
  sn_walked a name : walked_binding b' a name = walked_binding b a name;
  sn_scan : bound_anywhere (scan b') = bound_anywhere (scan b);
  sn_snaps : wk_enclosing_snapshots (walk b') = wk_enclosing_snapshots (walk b);
}.

#[export] Instance same_names_preorder : PreOrder same_names.
Proof. split; [by split|]. intros b1 b2 b3 [] []. split; intros; congruence. Qed.

Lemma same_names_binds b b' a name :
  same_names b b' → scope_binds_anywhere b' a name = scope_binds_anywhere b a name.
Proof. intros [_ Hw Hs _]. unfold scope_binds_anywhere. by rewrite Hw, Hs. Qed.

(** Interning without flags binds nothing. *)
Lemma intern_binds_nothing name t t' id name' :
  SymbolTableFacts.wf t → SymbolTable.intern name SymbolFlags.empty t = Some (t', id) →
  match SymbolTable.id t' name' with
  | None => Some None
  | Some i => s ← SymbolTable.symbol t' i;
      Some (if SymbolFlags.contains (symbol_flags s) SymbolFlags.IS_BOUND then Some i else None)
  end =
  match SymbolTable.id t name' with
  | None => Some None
  | Some i => s ← SymbolTable.symbol t i;
      Some (if SymbolFlags.contains (symbol_flags s) SymbolFlags.IS_BOUND then Some i else None)
  end.
Proof.
  intros Hwf Hi. destruct (SymbolTableFacts.intern_spec _ _ _ _ _ Hwf Hi)
    as (Hwf' & Hby & _ & Hlt & Hnew & Hold).
  unfold SymbolTable.id, SymbolTable.symbol, IndexVec.index. rewrite Hby.
  destruct (decide (name = name')) as [<-|Hne].
  - rewrite lookup_insert_eq. destruct (lookup_lt_is_Some_2 _ _ Hlt) as [s Hs]. rewrite Hs. simpl.
    destruct (Hnew _ _ Hs) as [[_ ?]|(_ & Hn & [[Hnone Hf]|(s0 & Hs0 & Hn0 & Hf)])]; [done| |].
    + rewrite Hf. destruct (by_name t !! name) as [i|] eqn:E; [|done].
      destruct (SymbolTableFacts.wf_name _ Hwf _ _ E) as (s1 & Hs1 & _).
      assert (i = id) as ->; [|by rewrite Hnone in Hs1].
      unfold SymbolTable.intern in Hi. rewrite E in Hi.
      by apply bind_Some in Hi as (? & _ & [= _ <-]).
    + pose proof (SymbolTableFacts.wf_id _ Hwf _ _ Hs0) as E. rewrite Hn0 in E. rewrite E, Hs0.
      simpl. rewrite Hf. unfold SymbolFlags.insert, SymbolFlags.empty. by rewrite N.lor_0_r.
  - rewrite lookup_insert_ne by done. destruct (by_name t !! name') as [i|] eqn:E; [|done].
    destruct (SymbolTableFacts.wf_name _ Hwf _ _ E) as (s0 & Hs0 & Hn0). rewrite Hs0.
    destruct (Hold _ _ Hs0) as (s' & Hs' & Hn'). rewrite Hs'. simpl.
    destruct (Hnew _ _ Hs') as [[Hs'' _]|(_ & Hn'' & _)]; [|congruence]. by simplify_eq.
Qed.

Lemma intern_same_names open b i name id b' :
  arenas_wf open b → intern_in i name SymbolFlags.empty b = Done id b' → same_names b b'.
Proof.
  intros Hb Hrun. unfold intern_in, try_update in Hrun.
  destruct (_ ← _; _) as [[id' b1]|] eqn:E in Hrun; [|done]. injection Hrun as -> ->.
  apply bind_Some in E as (t & Ht & E). apply bind_Some in E as ([t' id0] & Hi & [= -> <-]).
  assert (Hwf : SymbolTableFacts.wf t).
  { destruct (unit_at_total open b i Hb) as (u & Hu & Hwf).
    - rewrite <-(aw_tables _ _ Hb). by eapply lookup_lt_Some.
    - apply unit_at_Some in Hu as (Ht' & _). unfold IndexVec.index in Ht. simplify_eq. apply Hwf. }
  split; [done| |done|done]. intros a name'. unfold walked_binding, IndexVec.index. simpl.
  destruct (decide (i = a)) as [<-|Hne].
  - rewrite list_lookup_insert_eq by by eapply lookup_lt_Some.
    unfold IndexVec.index in Ht. rewrite Ht. simpl. by eapply intern_binds_nothing.
  - by rewrite list_lookup_insert_ne.
Qed.

Lemma on_udm_same_names {A} i (f : UseDefMapBuilder → option (UseDefMapBuilder * A)) b a b' :
  on_udm i f b = Done a b' → same_names b b'.
Proof.
  intros Hrun. unfold on_udm, try_update in Hrun.
  destruct (_ ← _; _) as [[a' b1]|] eqn:E in Hrun; [|done]. injection Hrun as -> ->.
  apply bind_Some in E as (m & _ & E). apply bind_Some in E as ([m' a0] & _ & [= -> <-]).
  by split.
Qed.

Lemma shared_lazy_same_names i nested a sym b id b' :
  shared_lazy_snapshot i nested a sym b = Done id b' → same_names b b'.
Proof.
  intros (found & b1 & [= <- <-] & Hrun)%bind_Done. destruct (lazy_snapshots _ !! _); [by injection Hrun as _ <-|].
  apply bind_Done in Hrun as (id' & b2 & Hr%on_udm_same_names & Hrun).
  apply bind_Done in Hrun as ([] & b3 & [= <-] & [= _ <-]). etrans; [exact Hr|]. by split.
Qed.

Definition binds_any b (a : nat) (name : string) : bool := default false (scope_binds_anywhere b a name).

Lemma register_in_ancestor_reads open name i nested a eager chain b entries b' :
  arenas_wf open b → register_in_ancestor name i nested a eager chain b = Done entries b' →
  same_names b b' ∧
  entries.*1 = chain.*1 ++ (if binds_any b a name then [a] else []).
Proof.
  intros Hb (binds & b1 & Hbinds & Hrun)%bind_Done. unfold try_get in Hbinds. unfold binds_any.
  destruct (scope_binds_anywhere b a name) as [any|]; [|done]. injection Hbinds as -> ->. simpl.
  destruct binds; [|injection Hrun as <- <-; by rewrite app_nil_r].
  apply bind_Done in Hrun as (sym & b2 & Hr1 & Hrun). eapply intern_same_names in Hr1; [|done].
  apply bind_Done in Hrun as ([] & b3 & Hr2%on_udm_same_names & Hrun).
  apply bind_Done in Hrun as (id & b4 & Hr3 & [= <- <-]).
  assert (same_names b3 b4) as Hr3'.
  { destruct eager; [by eapply on_udm_same_names|by eapply shared_lazy_same_names]. }
  split; [by do 2 (etrans; [eassumption|])|]. by rewrite fmap_app.
Qed.

Lemma register_in_ancestors_reads open fuel name i nested a l eager acc b entries b' :
  bwf program open b → chain (scopes b) (Some a) l → name_at b i nested name →
  (∀ a id, (a, id) ∈ acc → snap_named b a id name) →
  register_in_ancestors fuel name i nested a eager acc b = Done entries b' →
  same_names b b' ∧ entries.*1 = acc.*1 ++ List.filter (λ a, binds_any b a name) l.
Proof.
  revert a l eager acc b. induction fuel as [|fuel IH]; intros a l eager acc b Hb Hc Hn Hacc Hrun; [done|].
  inversion Hc as [|? s l' Hs Hc']; subst.
  assert (Ha : a < length (scopes b)) by by eapply lookup_lt_Some.
  apply bind_Done in Hrun as (entries1 & b1 & Hr1 & Hrun).
  pose proof (register_in_ancestor_wp program open name i nested a eager acc b Hb Ha Hn Hacc) as Hw.
  unfold wp in Hw. rewrite Hr1 in Hw. destruct Hw as ((Hb1 & S1) & _ & Hsnap).
  destruct (register_in_ancestor_reads open _ _ _ _ _ _ _ _ _ (bw_arenas _ _ _ Hb) Hr1) as [N1 E1].
  apply bind_Done in Hrun as (s' & b2 & Hget & Hrun). unfold try_get, IndexVec.index in Hget.
  rewrite (sn_scopes _ _ N1), Hs in Hget. injection Hget as <- <-.
  assert (Hsame : ∀ a', binds_any b1 a' name = binds_any b a' name)
    by (intros a'; unfold binds_any; by rewrite (same_names_binds _ _ _ _ N1)).
  simpl. destruct (scope_parent s) as [parent|] eqn:Hp.
  - edestruct (IH parent l') as [N2 E2]; [exact Hb1| | |exact Hsnap|exact Hrun|].
    + by rewrite (sn_scopes _ _ N1).
    + by eapply step_name.
    + split; [by etrans|]. rewrite E2, E1, <-(assoc_L (++)). f_equal. simpl.
      assert (Hf : List.filter (λ a', binds_any b1 a' name) l' =
        List.filter (λ a', binds_any b a' name) l')
        by (apply List.filter_ext; intros; apply Hsame).
      rewrite Hf. by destruct (binds_any b a name).
  - injection Hrun as <- <-. inversion Hc'; subst. split; [done|]. rewrite E1. simpl.
    by destruct (binds_any b a name).
Qed.

(** The entry of a use lists every scope around it that binds its name. *)
Lemma register_enclosing_reads open name nested use_id b b' l :
  bwf program open b → use_named b (current_scope b) use_id name →
  name_at b (current_scope b) nested name →
  chain (scopes b) (Some (current_scope b)) (current_scope b :: l) →
  register_enclosing_snapshot name nested use_id b = Done () b' →
  let around := List.filter (λ a, binds_any b a name) l in
  wk_enclosing_snapshots (walk b') !! (current_scope b, use_id) =
    match around with
    | [] => wk_enclosing_snapshots (walk b) !! (current_scope b, use_id)
    | _ => wk_enclosing_snapshots (walk b') !! (current_scope b, use_id)
    end ∧
  (around ≠ [] → ∃ entries, entries.*1 = around ∧
     wk_enclosing_snapshots (walk b') !! (current_scope b, use_id) = Some entries).
Proof.
  intros Hb Huse Hn Hc Hrun around. inversion Hc as [|? s ? Hs Hc']; subst.
  apply bind_Done in Hrun as (s' & b1 & Hget & Hrun). unfold try_get, the_scope, IndexVec.index in Hget.
  rewrite Hs in Hget. injection Hget as <- <-.
  apply bind_Done in Hrun as (current & b1 & [= <- <-] & Hrun).
  destruct (scope_parent s) as [parent|] eqn:Hp.
  - apply bind_Done in Hrun as (n & b1 & [= <- <-] & Hrun).
    apply bind_Done in Hrun as (entries & b1 & Hr & Hrun).
    eapply (register_in_ancestors_reads open) in Hr as [N1 E1]; [|done..|by intros ? ? ?%elem_of_nil].
    simpl in E1. fold around in E1.
    destruct entries as [|entry entries].
    + injection Hrun as <-. rewrite <-E1. split; [by rewrite (sn_snaps _ _ N1)|done].
    + injection Hrun as <-. simpl. rewrite lookup_insert_eq. rewrite <-E1. split; [done|]. eauto.
  - injection Hrun as <-. inversion Hc'; subst. done.
Qed.
End walk.

Section extends.
Context {St : Type}.

(** [m'] does what [m] does, unless [m] ran out of fuel. *)
Definition extends {A} (m m' : M St A) : Prop := ∀ s, m s = OutOfFuel ∨ m s = m' s.

#[export] Instance extends_refl {A} : Reflexive (@extends A).
Proof. intros m s. by right. Qed.

Lemma extends_bind {A B} (m m' : M St A) (f f' : A → M St B) :
  extends m m' → (∀ a, extends (f a) (f' a)) → extends (m ≫= f) (m' ≫= f').
Proof.
  intros Hm Hf s. unfold mbind, M_bind. destruct (Hm s) as [->|<-]; [by left|].
  destruct (m s); [apply Hf|by right|by left].
Qed.

Lemma extends_when (c : bool) (m m' : M St ()) : extends m m' → extends (when c m) (when c m').
Proof. intros Hm. destruct c; [exact Hm|reflexivity]. Qed.

Lemma extends_if_some {A} (o : option A) (f f' : A → M St ()) :
  (∀ a, extends (f a) (f' a)) → extends (if_some o f) (if_some o f').
Proof. intros Hf. destruct o; [apply Hf|reflexivity]. Qed.

Lemma extends_for_each {A} (l : list A) (f f' : A → M St ()) :
  (∀ a, extends (f a) (f' a)) → extends (for_each l f) (for_each l f').
Proof.
  intros Hf. induction l as [|a l IH]; [reflexivity|]. apply extends_bind; [apply Hf|by intros _].
Qed.

Lemma extends_for_each_i {A} (l : list A) (f f' : nat → A → M St ()) i :
  (∀ j a, extends (f j a) (f' j a)) → extends (for_each_i i l f) (for_each_i i l f').
Proof.
  intros Hf. revert i. induction l as [|a l IH]; intros i; [reflexivity|].
  apply extends_bind; [apply Hf|intros _; apply IH].
Qed.
End extends.

Create HintDb extends.

(** Descend through the combinators and case distinctions two sides share. *)
Ltac extends_step :=
  match goal with
  | |- extends ?m ?m => reflexivity
  | |- extends out_of_fuel _ => intros ?; by left
  | H : _ |- extends _ _ => apply H
  | |- extends (_ ≫= _) (_ ≫= _) => apply extends_bind; [|intros ?]
  | |- extends (when _ _) _ => apply extends_when
  | |- extends (if_some _ _) _ => apply extends_if_some; intros ?
  | |- extends (for_each _ _) _ => apply extends_for_each; intros ?
  | |- extends (for_each_i _ _ _) _ => apply extends_for_each_i; intros ? ?
  | |- extends _ _ => solve [auto with extends nocore]
  | |- extends (match ?x with _ => _ end) _ => destruct x
  end.
Ltac extends := repeat extends_step.

Section passes.
Context `{TextRanges, Urls, !HandlerTypes, !Handlers, !ImportsResolver, BuildProfile, MergeJoinBy}.
#[local] Abbreviation B := SemanticIndexBuilder.

(** ** The scan *)

Section scan.
Context (scan scan' : expr → M B ()) (drain drain' : nat → M B ()).
Context (Hscan : ∀ e, extends (scan e) (scan' e)) (Hdrain : ∀ w, extends (drain w) (drain' w)).

Lemma scan_conditional_extends region :
  extends (scan_conditional scan region) (scan_conditional scan' region).
Proof using Hscan. unfold scan_conditional. extends. Qed.
#[local] Hint Resolve scan_conditional_extends : extends.

Lemma scan_argument_extends effect value :
  extends (scan_argument scan drain effect value) (scan_argument scan' drain' effect value).
Proof using Hscan Hdrain. unfold scan_argument, scan_nested_eager. extends. Qed.
#[local] Hint Resolve scan_argument_extends : extends.

Lemma scan_call_extends call :
  extends (scan_call scan drain call) (scan_call scan' drain' call).
Proof using Hscan Hdrain. unfold scan_call, scan_call_arguments, scan_plain_arguments. extends. Qed.
#[local] Hint Resolve scan_call_extends : extends.

Lemma scan_parameter_defaults_extends items :
  extends (scan_parameter_defaults scan items) (scan_parameter_defaults scan' items).
Proof using Hscan. unfold scan_parameter_defaults. extends. Qed.

Lemma scan_deferred_body_extends d :
  extends (scan_deferred_body scan d) (scan_deferred_body scan' d).
Proof using Hscan. unfold scan_deferred_body. extends. Qed.

Lemma scan_expression_step_extends e :
  extends (scan_expression_step scan drain e) (scan_expression_step scan' drain' e).
Proof using Hscan Hdrain.
  unfold scan_expression_step, scan_expression_list, scan_assignment, scan_loop_body, scan_branch,
    scan_descendants. extends.
Qed.
End scan.

#[local] Hint Resolve scan_deferred_body_extends scan_parameter_defaults_extends : extends.

Lemma scan_extends fuel :
  (∀ e, extends (scan_expression fuel e) (scan_expression (S fuel) e)) ∧
  (∀ w, extends (scan_deferred_bodies fuel w) (scan_deferred_bodies (S fuel) w)).
Proof.
  induction fuel as [|fuel [IHe IHd]]; split; try (intros ? ?; by left).
  - intros e. by apply scan_expression_step_extends.
  - intros w. cbn [scan_deferred_bodies]. apply extends_bind; [done|]. intros [|d l]; [done|].
    apply extends_bind; [|done]. apply extends_for_each. intros. by apply scan_deferred_body_extends.
Qed.

(** ** The walk *)

Section walk.
Context (fuel : nat) (walk walk' : expr → M B ()) (Hwalk : ∀ e, extends (walk e) (walk' e)).

Lemma scan_expression_extends e : extends (scan_expression fuel e) (scan_expression (S fuel) e).
Proof. apply scan_extends. Qed.

Lemma scan_deferred_extends w :
  extends (scan_deferred_bodies fuel w) (scan_deferred_bodies (S fuel) w).
Proof. apply scan_extends. Qed.
#[local] Hint Resolve scan_expression_extends scan_deferred_extends : extends.

Lemma scan_defaults_extends items :
  extends (scan_parameter_defaults (scan_expression fuel) items)
    (scan_parameter_defaults (scan_expression (S fuel)) items).
Proof. apply scan_parameter_defaults_extends, scan_extends. Qed.
#[local] Hint Resolve scan_defaults_extends : extends.

Lemma walk_function_extends params body range :
  extends (walk_function fuel walk params body range) (walk_function (S fuel) walk' params body range).
Proof using Hwalk. unfold walk_function, walk_parameters, walk_parameter. extends. Qed.

Lemma walk_nse_call_extends call effects :
  extends (walk_nse_call fuel walk call effects) (walk_nse_call (S fuel) walk' call effects).
Proof using Hwalk.
  unfold walk_nse_call, walk_nse_argument, walk_nested_eager, walk_nested_lazy. extends.
Qed.
#[local] Hint Resolve walk_function_extends walk_nse_call_extends : extends.

Lemma walk_expression_step_extends e :
  extends (walk_expression_step fuel walk e) (walk_expression_step (S fuel) walk' e).
Proof using Hwalk.
  unfold walk_expression_step, walk_expression_list, walk_assignment, walk_arguments,
    walk_loop_body, walk_branch, walk_descendants. extends.
Qed.
End walk.

Lemma walk_extends fuel e : extends (walk_expression fuel e) (walk_expression (S fuel) e).
Proof.
  revert e. induction fuel as [|fuel IH]; intros e; [intros ?; by left|].
  by apply walk_expression_step_extends.
Qed.

Lemma build_extends fuel program : extends (build fuel program) (build (S fuel) program).
Proof.
  pose proof (scan_extends fuel) as [He Hd]. pose proof (walk_extends fuel) as Hw.
  unfold build, scan_expression_list, walk_expression_list. extends.
Qed.

Lemma build_index_extends fuel fuel' program range :
  fuel ≤ fuel' → build_index fuel program range = OutOfFuel ∨
    build_index fuel program range = build_index fuel' program range.
Proof.
  induction 1 as [|fuel' _ IH]; [by right|]. destruct IH as [?|Heq]; [by left|].
  destruct (build_extends fuel' program (builder_new range)) as [Ho|Hs];
    [left; rewrite Heq; exact Ho|right; rewrite Heq; exact Hs].
Qed.
End passes.

Section index.
Context `{TextRanges, Urls}.
Implicit Types (ix : SemanticIndex).

(** ** Names in a finished index *)

Definition ix_name_at ix (i sym : nat) (name : string) : Prop :=
  ∃ t s, ix_symbol_tables ix !! i = Some t ∧ symbols t !! sym = Some s ∧ symbol_name s = name.

Definition ix_use_named ix (i k : nat) (name : string) : Prop :=
  ∃ us use, ix_uses ix !! i = Some us ∧ us !! k = Some use ∧ ix_name_at ix i (use_symbol use) name.

Definition ix_def_named ix (i x : nat) (name : string) : Prop :=
  ∃ d def, ix_definitions ix !! i = Some d ∧ d !! x = Some def ∧ ix_name_at ix i (def_symbol def) name.

(** The tables of one scope refer to each other soundly. *)
Record scope_tables_wf (t : SymbolTable) (d : list Definition_) (us : list (Use TextRange))
    (m : UseDefMap) : Prop := {
  st_table : SymbolTableFacts.wf t;
  st_uses : length (udm_bindings_by_use m) = length us;
  st_def_syms : ∀ x def, d !! x = Some def → def_symbol def < length (symbols t);
  st_use_syms : ∀ k use, us !! k = Some use → use_symbol use < length (symbols t);
  st_bound : ∀ sym s, symbols t !! sym = Some s →
    SymbolFlags.contains (symbol_flags s) SymbolFlags.IS_BOUND = true → ∃ x, row d x sym;
  st_reaching : ∀ k use bs x, us !! k = Some use → udm_bindings_by_use m !! k = Some bs →
    x ∈ definitions bs → row d x (use_symbol use);
}.

Record index_wf ix : Prop := {
  iw_tree : finished (ix_scopes ix);
  iw_tables : ∀ i, i < length (ix_scopes ix) → ∃ t d us m,
    ix_symbol_tables ix !! i = Some t ∧ ix_definitions ix !! i = Some d ∧
    ix_uses ix !! i = Some us ∧ ix_use_def_maps ix !! i = Some m ∧ scope_tables_wf t d us m;
  iw_lengths : length (ix_symbol_tables ix) = length (ix_scopes ix) ∧
    length (ix_definitions ix) = length (ix_scopes ix) ∧
    length (ix_uses ix) = length (ix_scopes ix) ∧
    length (ix_use_def_maps ix) = length (ix_scopes ix);
  iw_chain : ∀ s k entries, ix_enclosing_snapshots ix !! (s, k) = Some entries →
    ∃ name l, ix_use_named ix s k name ∧ chain (ix_scopes ix) (Some s) (s :: l) ∧
      sublist entries.*1 l ∧
      ∀ a id, (a, id) ∈ entries → ∃ m bs, ix_use_def_maps ix !! a = Some m ∧
        udm_enclosing_snapshots m !! id = Some bs ∧
        ∀ x, x ∈ definitions bs → ix_def_named ix a x name;
  iw_calls : ∀ c, c ∈ ix_semantic_calls ix → call_scope c < length (ix_scopes ix);
  iw_final : ∀ t d, ix_symbol_tables ix !! 0 = Some t → ix_definitions ix !! 0 = Some d →
    length (ix_final_bindings ix) ≤ length (symbols t) ∧
    ∀ sym bs x, ix_final_bindings ix !! sym = Some bs → x ∈ definitions bs → row d x sym;
}.
End index.

(** ** From the builder to the index *)

Section finish.
Context `{TextRanges, Urls, !HandlerTypes}.
Context (program : list expr).
Implicit Types (b : SemanticIndexBuilder).

(** Folding lazy definitions keeps a unit's invariant. *)
Lemma fold_unit u :
  unit_wf u → ∃ m, Builder.fold_lazy_defs (u_udm u) = Some m ∧
    unit_wf (set_udm m u) ∧ unit_grows u (set_udm m u).
Proof.
  intros Hu. destruct (BuilderFacts.fold_lazy_defs_spec (u_udm u) (uw_udm _ Hu))
    as (states & Hf & W & L & S).
  eexists; split; [exact Hf|]. destruct (uw_refs _ Hu) as [R1 R2 R3].
  apply udm_unit; [done|done|done|done| |].
  - split; [|done|done]. intros sym x Hx. apply S in Hx as [Hx|Hx]; [auto|].
    destruct (lazy_defs (u_udm u) !! sym) as [l|] eqn:Hl; [eauto|by apply elem_of_nil in Hx].
  - intros id sym Hfo. by eapply follows_ext.
Qed.

Lemma unit_scope_tables_wf u :
  unit_wf u → scope_tables_wf (u_table u) (u_defs u) (u_uses u) (Builder.finish (u_udm u)).
Proof.
  intros []. split; simpl; try done.
  - intros k use Hk. specialize (uw_use_syms _ _ Hk). lia.
  - apply uw_refs.
Qed.

Lemma finish_wf b :
  bwf program [0] b → ∃ ix, finish b = Some ix ∧ index_wf ix.
Proof.
  intros Hb. pose proof (bw_arenas _ _ _ Hb) as Ha.
  destruct (current_open _ _ Ha) as [Hcur [rest [= Hc0 _]]]. rewrite <-Hc0 in Hcur.
  pose proof (aw_chain _ _ Ha) as Hch. rewrite <-Hc0 in Hch.
  destruct (lookup_lt_is_Some_2 _ _ Hcur) as [s0 Hs0].
  destruct (unit_at_total _ _ 0 Ha Hcur) as (u & Hu & Hwf).
  destruct (fold_unit u Hwf) as (m & Hm & Hwf' & Hg).
  pose proof (proj1 (unit_at_Some _ _ _) Hu) as (Ht & Hd & Hus & Hudm).
  set (b1 := upd_walk (set_use_def_maps (<[0:=m]> (use_def_maps (walk b)))) b).
  assert (T : touches 0 (set_udm m u) b b1).
  { split; simpl; try done.
    - apply unit_at_Some. simpl. by rewrite list_lookup_insert_eq by (by eapply lookup_lt_Some).
    - intros j Hj. unfold unit_at. simpl. by rewrite list_lookup_insert_ne.
    - apply length_insert. }
  destruct (touches_wf program [0] 0 u _ b b1 Hb Hu T Hwf' Hg) as [Hb1 _].
  clear T Hg. pose proof (bw_arenas _ _ _ Hb1) as Ha1. pose proof (bw_snaps _ _ _ Hb1) as Hsn1.
  set (scopes' := <[0 := set_descendants_end (length (scopes b)) s0]> (scopes b)).
  pose proof (finish_scopes _ _ (aw_preorder _ _ Ha) Hch Hs0) as Hfin. fold scopes' in Hfin.
  pose proof (close_same_shape _ _ _ _ (aw_preorder _ _ Ha) Hch Hs0) as Hsame. fold scopes' in Hsame.
  unfold finish, IndexVec.next_id. rewrite (proj2 (IndexVec.Idx_new_Some _ _)) by (split; [done|apply Ha]).
  simpl. unfold IndexVec.index_mut, IndexVec.index. rewrite Hs0, Hudm. simpl. rewrite Hm. simpl.
  rewrite list_lookup_insert_eq by (by eapply lookup_lt_Some). simpl.
  eexists; split; [done|]. fold scopes'.
  assert (Hlen : length scopes' = length (scopes b)) by apply length_insert.
  assert (Hname : ∀ i sym name, name_at b1 i sym name → ∃ t s, symbol_tables (walk b) !! i = Some t ∧
    symbols t !! sym = Some s ∧ symbol_name s = name).
  { intros i sym name (v & s & Hv & ? & ?). apply unit_at_Some in Hv as (? & _). eauto. }
  split; simpl.
  - done.
  - intros i Hi. rewrite Hlen in Hi.
    destruct (unit_at_total _ b1 i Ha1 Hi) as (v & Hv & Hvwf).
    pose proof (proj1 (unit_at_Some _ _ _) Hv) as (Hvt & Hvd & Hvu & Hvm). simpl in *.
    exists (u_table v), (u_defs v), (u_uses v), (Builder.finish (u_udm v)).
    repeat (split; [done|]). rewrite list_lookup_fmap, Hvm.
    split; [done|by apply unit_scope_tables_wf].
  - rewrite length_fmap, length_insert, Hlen. split; [apply Ha|]. split; [apply Ha|]. split; apply Ha.
  - intros s k entries He. destruct (sw_chain _ Hsn1 _ _ _ He) as (name & l & Huse & Hl & Hsub & Hall).
    exists name, l. split.
    { destruct Huse as (v & use & Hv & Hk & Hn). apply unit_at_Some in Hv as (_ & _ & Hvu & _).
      exists (u_uses v), use. split; [done|]. split; [done|]. by apply Hname. }
    split; [by eapply chain_same_shape|]. split; [done|]. intros a id Hin.
    destruct (Hall a id Hin) as (v & sym & Hv & (bs & Hbs & Hrow & _) & Hn).
    pose proof (proj1 (unit_at_Some _ _ _) Hv) as (_ & Hvd & _ & Hvm). simpl in *.
    exists (Builder.finish (u_udm v)), bs. rewrite list_lookup_fmap, Hvm. split; [done|].
    split; [done|]. intros x Hx. destruct (Hrow x Hx) as (def & Hdef & <-).
    exists (u_defs v), def. split; [done|]. split; [done|]. by apply Hname.
  - intros c Hc. rewrite Hlen. by apply (sw_calls _ Hsn1).
  - intros t d Ht' Hd'. simplify_eq. split; [apply Hwf'|].
    intros sym bs x Hsym Hx. apply (rf_st _ _ _ (uw_refs _ Hwf')). simpl.
    unfold BuilderFacts.st, Builder.final_bindings in *. rewrite Hsym. done.
Qed.

Lemma builder_new_wf range : bwf program [0] (builder_new range).
Proof.
  split.
  - destruct (preorder_single KFile range eq_refl) as [Hp Hc]. split; simpl; try done.
    intros i u Hu. apply unit_at_Some in Hu as (Ht & Hd & Hus & Hm). simpl in *.
    destruct i as [|i]; [|done]. simplify_eq/=.
    assert (u = new_unit) as -> by (destruct u; simpl in *; by subst). apply new_unit_wf.
  - split; simpl; intros *; rewrite ?lookup_empty; try done. by intros ?%elem_of_nil.
  - split; simpl; [done| |]; intros *; [by intros ?%elem_of_nil|by rewrite lookup_empty].
Qed.
End finish.

(** ** The whole build *)

Section build.
Context `{TextRanges, Urls, !HandlerTypes, !Handlers, !HandlersLawful, !ImportsResolver}.
Context `{BuildProfile, MergeJoinBy}.

Lemma build_wp (program : list expr) fuel b :
  debug_assertions = false → calls_have_own_ranges program →
  (∀ e, e ∈ program → esize e < fuel) → 0 < fuel → bwf program [0] b →
  deferred_bodies (scan b) = [] →
  wp (build fuel program) arena_full
    (λ ix b', bwf program [0] b' ∧ step b b' ∧ finish b' = Some ix ∧ index_wf ix) b.
Proof.
  intros Hrel Hcalls Hfuel Hpos Hb Hd.
  destruct (scan_pass program [0] Hrel fuel) as [Hscan Hdrain].
  assert (Hsk : keeps arena_full (bwf program [0]) (scanned fuel)
    (begin_scan;; scan_expression_list (scan_expression fuel) program)).
  { keeps_step; [by apply begin_scan_sk|]. unfold scan_expression_list. keeps_step.
    specialize (Hfuel x H7). eapply sk_mono; [|apply Hscan]; [lia|by apply within_top|lia]. }
  apply wp_assoc, wp_bind. eapply wp_mono; [by apply Hsk|].
  intros [] b1 [Hb1 S1]. pose proof (scanned_step _ _ _ S1) as T1.
  destruct S1 as [[_ (ext & Hext & Hsize)] _]. rewrite Hd in Hext.
  apply wp_bind. eapply wp_mono; [by eapply (Hdrain Hpos b1 [] ext)|].
  intros [] b2 [(Hb2 & [[Hs _ Hw _] _] & _) _].
  assert (T2 : step b1 b2).
  { split; [intros i s Hi; exists s; by rewrite Hs|]. intros i u Hu. exists u.
    unfold unit_at in *. by rewrite Hw. }
  assert (Hwk : keeps arena_full (bwf program [0]) step
    (walk_expression_list (walk_expression fuel) program)).
  { unfold walk_expression_list. keeps_step. apply walk_pass; [done|done|by apply within_top|auto]. }
  apply wp_bind. eapply wp_mono; [by apply Hwk|]. intros [] b3 [Hb3 T3].
  destruct (finish_wf program b3 Hb3) as (ix & Hix & Hwf).
  apply wp_try_get; rewrite Hix; [|done]. intros ? [= <-].
  split; [done|]. split; [by do 2 (etrans; [eassumption|])|done].
Qed.
End build.
