(* ===== verification/Reference.v ===== *)
(** * A reference instance of the parameters, and sample programs

    Concrete text ranges, handlers and imports that satisfy the laws of the
    interfaces: base R's [local()], [quote()], [library()], [source()] and
    [assign()], rlang's [on_load()] and shiny's [reactive()]. Witnesses and
    examples run the builder on them. *)

From S2P Require Export Annotations WalkFacts.

(** ** Checking a program's call ranges *)

Section calls.
Context `{TextRanges}.

(** The expressions of an expression. *)
Fixpoint subexprs (fuel : nat) (e : expr) : list expr :=
  match fuel with
  | 0 => []
  | S fuel => e :: (e' ← children e; subexprs fuel e')
  end.

Lemma subexprs_complete fuel e' e : rtc child e' e → esize e ≤ fuel → e' ∈ subexprs fuel e.
Proof.
  revert e. induction fuel as [|fuel IH]; intros e Hr He; [pose proof (esize_pos e); lia|]. simpl.
  apply rtc_inv_r in Hr as [->|(m & Hr & Hm)]; [by left|]. right.
  apply list_elem_of_bind. exists m. split; [|exact Hm].
  apply IH; [done|]. apply child_size in Hm. lia.
Qed.

Definition callb (e : expr) : bool := match e with RCall _ _ _ => true | _ => false end.

Definition calls_of (program : list expr) : list expr :=
  List.filter callb (e ← program; subexprs (esize e) e).

Definition own_ranges (program : list expr) : bool :=
  bool_decide (NoDup (range_of <$> calls_of program)).

Lemma own_ranges_sound program : own_ranges program = true → calls_have_own_ranges program.
Proof.
  unfold own_ranges. rewrite bool_decide_eq_true. intros Hnd c1 c2 Hc1 Hc2 Hi1 Hi2 Heq.
  assert (Hin : ∀ c, within program c → is_call c → c ∈ calls_of program).
  { intros c (top & Ht & Hr) Hc. apply list_elem_of_In, List.filter_In. split; [|by destruct c].
    apply list_elem_of_In, list_elem_of_bind. exists top. split; [by apply subexprs_complete|done]. }
  apply Hin in Hc1 as [i1 H1]%list_elem_of_lookup_1; [|done].
  apply Hin in Hc2 as [i2 H2]%list_elem_of_lookup_1; [|done].
  assert (i1 = i2) as -> by (eapply (NoDup_lookup (range_of <$> calls_of program));
    [done|by rewrite list_lookup_fmap, H1|by rewrite list_lookup_fmap, H2, Heq]).
  congruence.
Qed.
End calls.

(** ** The instances *)

#[local] Open Scope string_scope.

#[export] Instance reference_ranges : TextRanges := text_ranges_reference.
#[export] Instance reference_urls : Urls := urls_reference.

#[export] Instance reference_handler_types : HandlerTypes := {|
  ArgumentsHandler := ArgumentsAnnotation;
  AttachHandler := ();
  SourceHandler := SourceAnnotation;
  AssignHandler := ();
  ValueHandler := Empty_set;
  source_annotation_handler a := a;
|}.

(** The value of the first argument of a call. *)
Definition first_argument (call : expr) : option expr :=
  items ← call_arguments call;
  item ← head items;
  arg ← item;
  arg_value arg.

#[export] Instance reference_handlers : Handlers := {|
  resolve_arguments h call := ArgumentsAnnotation_resolve h call;
  resolve_attach _ call _ imports :=
    (e ← first_argument call; resolve_quoted_symbol_or_string e, imports);
  resolve_source_paths a call _ imports :=
    (e ← first_argument call;
     match e with
     | RStringValue text _ => t ← text; Some [mkSourcePath t (sa_target a)]
     | _ => None
     end, imports);
  resolve_assign _ site ctx imports :=
    match site with
    | SiteCall call =>
        (e ← first_argument call;
         name ← resolve_quoted_symbol_or_string e;
         Some [mkAssignBinding name (range_of e) None Write], imports)
    | SiteOperator bin => BindingOperatorHandler_resolve ReadWrite (SiteOperator bin) ctx imports
    end;
  evaluate h _ _ imports := (None, imports);
|}.

#[export] Instance reference_handlers_lawful : HandlersLawful.
Proof.
  split; simpl; intros h call ctx imports effects He; apply ArgumentsAnnotation_lawful in He.
  - apply He.
  - intros holes hole Hin Hhole. apply He in Hin as ->. by apply elem_of_nil in Hhole.
Qed.

Definition evalq_handlers (env : EvalEnv) (timing : EvalTiming) : FunctionHandlers :=
  with_effects (mkEffectsHandlers
    (Some (mkArgumentsAnnotation ["expr"] [("expr", AEvalQ env timing)])) None None None).

Definition reference_registry : list PackageEntry := [
  mkPackageEntry "base" [
    mkFunctionEntry "local" (evalq_handlers EnvNested Eager);
    mkFunctionEntry "quote" (with_effects (mkEffectsHandlers
      (Some (mkArgumentsAnnotation ["expr"] [("expr", AQuote)])) None None None));
    mkFunctionEntry "library" (with_effects (mkEffectsHandlers None (Some ()) None None));
    mkFunctionEntry "source" (with_effects (mkEffectsHandlers None None
      (Some (mkSourceAnnotation ["file"; "local"] "file" TFile None)) None));
    mkFunctionEntry "assign" (with_effects (mkEffectsHandlers None None None (Some ())))];
  mkPackageEntry "rlang" [mkFunctionEntry "on_load" (evalq_handlers EnvCurrent Lazy)];
  mkPackageEntry "shiny" [mkFunctionEntry "reactive" (evalq_handlers EnvNested Lazy)]].

(** Bare callees come from the attached packages, the last first, then base;
    [source("b.R")] defines [b]. *)
#[export] Instance reference_resolver : ImportsResolver := {|
  resolve_source path :=
    if decide (path = "b.R") then Some (mkSourceResolution (String.list_ascii_of_string "b.R") ["b"] []) else None;
  resolve_source_dir _ _ := [];
  resolver_resolve_effects name attached :=
    head (omap (λ package, lookup_handlers (build_INDEX reference_registry) package name)
            (reverse attached ++ ["base"])%list);
  resolver_resolve_qualified_effects package name :=
    lookup_handlers (build_INDEX reference_registry) package name;
  binding_package name attached :=
    if decide (name = "runApp" ∧ "shiny" ∈ attached) then Some "shiny" else None;
  package_exists _ := true;
  REGISTRY := reference_registry;
|}.

#[export] Instance release_build : BuildProfile := false.

(** ** Writing programs *)

Definition at_ (start len : N) : @TextRange reference_ranges := (start, len).
Definition assign_op : option token := Some (mkToken ASSIGN "<-").
Definition super_op : option token := Some (mkToken SUPER_ASSIGN "<<-").

(** [name <- value], [name <<- value], a call with plain arguments. *)
Definition set_ (start len : N) (name : string) (value : expr) : expr :=
  RBinaryExpression assign_op (Some (RIdentifier name (at_ start 1))) (Some value) (at_ start len).
Definition super_set_ (start len : N) (name : string) (value : expr) : expr :=
  RBinaryExpression super_op (Some (RIdentifier name (at_ start 1))) (Some value) (at_ start len).
Definition num_ (start : N) : expr := ROther [] (at_ start 1).
Definition null_ (start : N) : expr := RNullExpression (at_ start 1).
Definition id_ (start : N) (name : string) : expr := RIdentifier name (at_ start 1).
Definition call_ (start len : N) (f : string) (args : list expr) : expr :=
  RCall (Some (id_ start f)) (Some ((λ a, Some (mkArgument None (Some a))) <$> args)) (at_ start len).
Definition fun_ (start len : N) (body : expr) : expr :=
  RFunctionDefinition (Some []) (Some body) (at_ start len).
Definition braces_ (start len : N) (l : list expr) : expr := RBracedExpressions l (at_ start len).

Definition index_of (fuel : nat) (program : list expr) : option SemanticIndex :=
  match build_index fuel program (at_ 0 1000) with Done ix _ => Some ix | _ => None end.

(** ** Sample programs *)

(** [x <- 1; f <- function() x; x <- 2; x]: the use in [f] sees both
    definitions through its lazy snapshot, the last one only the second. *)
Definition program_closure : list expr := [
  set_ 0 6 "x" (num_ 5);
  set_ 10 20 "f" (fun_ 15 14 (id_ 28 "x"));
  set_ 40 6 "x" (num_ 45);
  id_ 50 "x"].

Example program_closure_reaching :
  (ix ← index_of 10 program_closure; reaching_definitions ix 1 0) = Some [(0, 0); (0, 2)] ∧
  (ix ← index_of 10 program_closure; reaching_definitions ix 0 0) = Some [(0, 2)].
Proof. split; vm_compute; reflexivity. Qed.

(** ** Sample indices *)

(** Evaluates a lookup without printing what it finds. *)
Lemma some_default {A} (d : A) (o : option A) : is_Some_b o = true → o = Some (default d o).
Proof. by destruct o. Qed.

Definition empty_index : SemanticIndex := mkSemanticIndex [] [] [] [] [] ∅ [] [] [] [] [] ∅ ∅.

Definition sample (program : list expr) : SemanticIndex :=
  default empty_index (index_of 100 program).

Definition sample_ok (program : list expr) : bool :=
  own_ranges program && bool_decide (lsize esize program < 100) &&
  bool_decide (is_Some (index_of 100 program)).

Lemma sample_wf program : sample_ok program = true → index_wf (sample program).
Proof.
  unfold sample_ok, sample, index_of, build_index.
  rewrite !andb_true_iff, !bool_decide_eq_true. intros [[Hr%own_ranges_sound Hs] Hd].
  pose proof (build_wp program 100 (builder_new (at_ 0 1000)) eq_refl Hr) as Hb.
  unfold wp in Hb. destruct (build _ _ _) as [ix b|b|]; [|by destruct Hd..]. simpl.
  apply Hb; [|lia|apply builder_new_wf|done].
  intros e He. apply (lsize_elem esize) in He. lia.
Qed.
