(* ===== verification/ScanTheorems.v ===== *)
(** * What the scan pass guarantees

    The invariant of a scan, what it knows to be bound after an expression, and
    how branches combine the packages they attach. *)

From S2P Require Export ScanFlow Reference.

Section theorems.
Context `{TextRanges, Urls, !HandlerTypes, !Handlers, !HandlersLawful, !ImportsResolver}.
Context `{BuildProfile}.
Implicit Types (b : SemanticIndexBuilder).

(** A scan from a sound builder ends without panic, and leaves the walk's
    half of it alone: the scope tree, the current scope and every arena are the
    same, the frames it opened are closed again, attached packages before it
    stay attached, and the bodies it put off are sub-expressions, so that the
    queue drains. *)
Theorem scan_leaves_walk_alone (program : list expr) open fuel e b :
  debug_assertions = false → within program e → esize e ≤ fuel → bwf program open b →
  match scan_expression fuel e b with
  | Done _ b' => bwf program open b' ∧ same_arenas b b' ∧ frames b' = frames b ∧
      attaches b ≤ attaches b' ∧
      ∃ put_off, deferred_bodies (scan b') = deferred_bodies (scan b) ++ put_off ∧
        ∀ d, d ∈ put_off → within program (db_body d) ∧ esize (db_body d) < esize e
  | Panicked b' => arena_full b'
  | OutOfFuel => False
  end.
Proof.
  intros Hrel Hin He Hb. pose proof (proj1 (scan_pass program open Hrel fuel) e Hin He b Hb) as Hw.
  unfold wp in Hw. destruct (scan_expression fuel e b) as [[] b'|b'|]; [|done..].
  destruct Hw as [Hb' [[[Hs Hf] (ext & Hext & Hsize)] Ha]]. split; [done|]. split; [done|].
  split; [done|]. split; [done|]. exists ext. split; [done|]. intros d Hd. split; [|by apply Hsize].
  apply (cw_deferred _ _ (bw_scan _ _ _ Hb')). rewrite Hext. apply elem_of_app. by right.
Qed.

(** Draining the queue: every body put off, and those it puts off in turn,
    is scanned, and the queue is back to where it was; nothing stays behind. *)
Theorem deferred_bodies_drain (program : list expr) open fuel b base tail :
  debug_assertions = false → 0 < fuel → bwf program open b →
  deferred_bodies (scan b) = base ++ tail → (∀ d, d ∈ tail → esize (db_body d) < fuel) →
  match scan_deferred_bodies fuel (length base) b with
  | Done _ b' => bwf program open b' ∧ deferred_bodies (scan b') = base ∧ same_arenas b b' ∧
      frames b' = frames b
  | Panicked b' => arena_full b'
  | OutOfFuel => False
  end.
Proof.
  intros Hrel Hpos Hb Hd Htail.
  pose proof (proj2 (scan_pass program open Hrel fuel) Hpos b base tail Hb Hd Htail) as Hw.
  unfold wp in Hw. destruct (scan_deferred_bodies _ _ b) as [[] b'|b'|]; [|done..].
  destruct Hw as ((? & [? ?] & ?) & ?). done.
Qed.

(** What the scan knows to be bound is exact: after an expression without
    calls, a name is known to be bound if and only if it was before, or every
    execution of the expression (branches taken or not, loops run any number of
    times) assigns it. *)
Theorem scan_bound_exact (program : list expr) open fuel e b :
  debug_assertions = false → within program e → esize e ≤ fuel → bwf program open b →
  straight e →
  match scan_expression fuel e b with
  | Done _ b' => ∀ name, FlowState.is_bound (bound_so_far (scan b')) name = true ↔
      FlowState.is_bound (bound_so_far (scan b)) name = true ∨ ∀ names, assigns e names → name ∈ names
  | Panicked b' => arena_full b'
  | OutOfFuel => False
  end.
Proof.
  intros Hrel Hin He Hb Hs. pose proof (proj1 (scan_pass program open Hrel fuel) e Hin He b Hb) as Hw.
  destruct (straight_spec e Hs) as (must & Hadds & [_ Hmust Hout]). specialize (Hadds fuel b).
  unfold wp in Hw. destruct (scan_expression fuel e b) as [[] b'|b'|]; [|done..].
  specialize (Hadds () b' eq_refl). intros name. unfold FlowState.is_bound.
  rewrite !bool_decide_eq_true. fold (names_bound b') (names_bound b). rewrite Hadds, elem_of_union.
  split; (intros [?|Hname]; [by left|right]); [by apply Hmust|].
  destruct (decide (name ∈ must)) as [|Hn]; [done|].
  destruct (Hout name Hn) as (names & Hr & Hni). by specialize (Hname names Hr).
Qed.

(** The order in which packages are searched after a region: those of the
    given set that its sites attach, each where it was attached last. *)
Theorem search_order_keeps_last sites packages :
  search_order sites packages = keep_last (filter (λ p, p ∈ packages) (site_package <$> sites)) ∧
  NoDup (search_order sites packages) ∧
  ∀ p, p ∈ search_order sites packages ↔ p ∈ packages ∧ p ∈ site_package <$> sites.
Proof.
  rewrite search_order_alt. split; [done|]. split; [apply keep_last_NoDup|].
  intros p. by rewrite keep_last_elem, list_elem_of_filter.
Qed.

(** Where two branches join, a package stays attached if and only if both
    attached it: the search path gains exactly those, in the order of the
    alternative. Every attach of the consequence, and each of the alternative
    that the consequence lacks, is recorded to end with its branch. A diagnostic
    is reported exactly when both attach two packages or more in different
    orders. *)
Theorem join_attaches_both c c_end a a_end range b :
  let both := List.filter (attached_in c) a in
  ∃ b', join_attaches c c_end a a_end range b = Done () b' ∧
    search_path b' = search_path b ++ (site_package <$> both) ∧
    (∀ p, p ∈ site_package <$> both ↔ p ∈ site_package <$> c ∧ p ∈ site_package <$> a) ∧
    (∀ e site, c_end = Some e → site ∈ c →
       (site_package site, e) ∈ default [] (attach_effect_ends (scan b') !! site_offset site)) ∧
    (∀ e site, a_end = Some e → site ∈ a → site_package site ∉ site_package <$> c →
       (site_package site, e) ∈ default [] (attach_effect_ends (scan b') !! site_offset site)) ∧
    diagnostics b' = diagnostics b ++
      (if decide (2 ≤ length both ∧ search_order c (list_to_set (site_package <$> both)) ≠
                                    search_order both (list_to_set (site_package <$> both)))
       then [AmbiguousAttachOrder (search_order both (list_to_set (site_package <$> both))) range]
       else []).
Proof.
  intros both. eexists; split; [apply join_attaches_run|]. fold both. simpl.
  split; [|split; [|split; [|split; [|done]]]].
  - unfold search_path, attach_search_path, FlowAttaches.packages. simpl.
    destruct (attached_inherited (scan b)); [done|by rewrite (assoc_L (++))].
  - intros p. rewrite !list_elem_of_fmap. split.
    + intros (site & -> & Hin%list_elem_of_In). apply List.filter_In in Hin as [Hin Hc].
      apply attached_in_spec, list_elem_of_fmap in Hc as (site' & Heq & Hc).
      split; [by exists site'|exists site; by rewrite list_elem_of_In].
    + intros [(site' & Hp & Hc) (site & -> & Ha)]. exists site. split; [done|].
      apply list_elem_of_In, List.filter_In. rewrite <-list_elem_of_In. split; [done|].
      apply attached_in_spec, list_elem_of_fmap. by exists site'.
  - intros e [p o] -> Hin. simpl. destruct a_end as [e'|].
    + apply ended_keeps. by apply ended_lookup; right.
    + by apply ended_lookup; right.
  - intros e [p o] -> Hin Hn. apply ended_lookup. right. apply list_elem_of_In, List.filter_In.
    rewrite <-list_elem_of_In. split; [done|]. apply negb_true_iff, not_true_is_false.
    by rewrite attached_in_spec.
Qed.
End theorems.

(** ** Witnesses *)

(** [if (c) { x <- 1; y <- 2 } else x <- 3]. *)
Definition branch_expression : expr :=
  RIfStatement (Some (id_ 4 "c"))
    (Some (braces_ 7 20 [set_ 9 6 "x" (null_ 14); set_ 17 6 "y" (null_ 22)]))
    (Some (set_ 33 6 "x" (null_ 38))) (at_ 0 39).

Definition fresh_builder : SemanticIndexBuilder := builder_new (at_ 0 1000).

Lemma fresh_wf program : bwf program [0] fresh_builder.
Proof. apply builder_new_wf. Qed.

Lemma branch_straight : straight branch_expression.
Proof.
  assert (Hset : ∀ s l n v, is_leaf v = true → straight (set_ s l n v)).
  { intros s l n v Hv. eapply straight_assign; [done..|]. intros e [= <-]. by apply straight_leaf. }
  apply straight_if; intros e [= <-]; [by apply straight_leaf| |by apply Hset].
  apply straight_braces. intros e [->|[->|?%elem_of_nil]%elem_of_cons]%elem_of_cons;
    by try apply Hset.
Qed.

Lemma branch_within : within [branch_expression] branch_expression.
Proof. apply within_top. by left. Qed.

Lemma scan_leaves_walk_alone_witness :
  match scan_expression 20 branch_expression fresh_builder with
  | Done _ b' => bwf [branch_expression] [0] b' ∧ same_arenas fresh_builder b' ∧
      frames b' = frames fresh_builder ∧ attaches fresh_builder ≤ attaches b' ∧
      ∃ put_off, deferred_bodies (scan b') = deferred_bodies (scan fresh_builder) ++ put_off ∧
        ∀ d, d ∈ put_off → within [branch_expression] (db_body d) ∧
          esize (db_body d) < esize branch_expression
  | Panicked b' => arena_full b'
  | OutOfFuel => False
  end.
Proof.
  apply (scan_leaves_walk_alone [branch_expression] [0] 20 branch_expression fresh_builder);
    [reflexivity|exact branch_within|by apply (bool_decide_unpack _); vm_compute|apply fresh_wf].
Defined.

(** A builder with a body put off. *)
Definition queued_builder : SemanticIndexBuilder :=
  upd_scan (set_deferred_bodies [mkDeferredBody branch_expression ∅ []]) fresh_builder.

Lemma queued_wf : bwf [branch_expression] [0] queued_builder.
Proof.
  apply (same_walk_wf [branch_expression] [0] fresh_builder); [apply fresh_wf|done..|].
  split; simpl; [done| |]; intros *; [|by rewrite lookup_empty].
  intros ->%list_elem_of_singleton. exact branch_within.
Qed.

Lemma deferred_bodies_drain_witness :
  match scan_deferred_bodies 20 0 queued_builder with
  | Done _ b' => bwf [branch_expression] [0] b' ∧ deferred_bodies (scan b') = [] ∧
      same_arenas queued_builder b' ∧ frames b' = frames queued_builder
  | Panicked b' => arena_full b'
  | OutOfFuel => False
  end.
Proof.
  apply (deferred_bodies_drain [branch_expression] [0] 20 queued_builder []
    [mkDeferredBody branch_expression ∅ []]); [reflexivity|lia|exact queued_wf|reflexivity|].
  intros d ->%list_elem_of_singleton. by apply (bool_decide_unpack _); vm_compute.
Defined.

Lemma scan_bound_exact_witness :
  match scan_expression 20 branch_expression fresh_builder with
  | Done _ b' => ∀ name, FlowState.is_bound (bound_so_far (scan b')) name = true ↔
      FlowState.is_bound (bound_so_far (scan fresh_builder)) name = true ∨
      ∀ names, assigns branch_expression names → name ∈ names
  | Panicked b' => arena_full b'
  | OutOfFuel => False
  end.
Proof.
  apply (scan_bound_exact [branch_expression] [0] 20 branch_expression fresh_builder);
    [reflexivity|exact branch_within|by apply (bool_decide_unpack _); vm_compute|apply fresh_wf|
     exact branch_straight].
Defined.
