(* ===== verification/WalkTheorems.v ===== *)
(** * What the walk pass guarantees

    The invariant of the walk, what a definition does to its scope, which scope
    a super-assignment reaches and which snapshots a use is given. *)

From S2P Require Export WalkFacts Reference.

Section theorems.
Context `{TextRanges, Urls, !HandlerTypes, !Handlers, !HandlersLawful, !ImportsResolver}.
Context `{BuildProfile, MergeJoinBy}.
Implicit Types (b : SemanticIndexBuilder) (u : scope_unit).

(** The walk of any expression of the program ends without panic, keeps the
    builder sound and takes nothing back: every scope is still there with the
    same parent, kind and range, and the arenas of every scope only grow, with
    their symbols, rows, uses and snapshots keeping their identifiers. *)
Theorem walk_keeps_builder_sound (program : list expr) open fuel e b :
  debug_assertions = false → calls_have_own_ranges program → within program e →
  esize e < fuel → bwf program open b →
  match walk_expression fuel e b with
  | Done _ b' => bwf program open b' ∧ step b b'
  | Panicked b' => arena_full b'
  | OutOfFuel => False
  end.
Proof.
  intros Hrel Hcalls Hin He Hb.
  pose proof (walk_pass program Hrel Hcalls fuel open e Hin He b Hb) as Hw. unfold wp in Hw.
  by destruct (walk_expression fuel e b).
Qed.

(** What handlers see of the builder is never made up: on a sound builder
    every lookup behind a handler's context answers, so the defaults of
    [scan_bindings] are not used. *)
Theorem handler_context_total (program : list expr) open b name call :
  bwf program open b →
  scan_scope_binds b name = Some (ctx_is_bound (scan_bindings b) name false) ∧
  scan_scope_is_global b = Some (ctx_is_global (scan_bindings b)) ∧
  resolve_callee b call = Some (ctx_resolve_callee (scan_bindings b) call).
Proof.
  intros Hb. pose proof (bw_arenas _ _ _ Hb) as Ha.
  destruct (scan_scope_total open b name Ha) as ([r Hr] & _ & [g Hg]).
  destruct (resolve_callee_total open b call Ha) as [c Hc]. simpl. by rewrite Hr, Hg, Hc.
Qed.

(** A definition in a scope that owns its bindings: the scope gets a new
    last row for the name, the name is bound there, and from here on the new row
    is the only live definition of the name, which cannot be unbound; the live
    definitions of every other symbol, and all other scopes, are the same. *)
Theorem add_definition_shadows (program : list expr) open b s name flags kind range :
  bwf program open b → the_scope b = Some s → ScopeKind.owns_bindings (scope_kind s) = true →
  SymbolFlags.contains flags SymbolFlags.IS_BOUND = true →
  match add_definition name flags kind range b with
  | Done _ b' => ∃ u u' sym,
      unit_at b (current_scope b) = Some u ∧ unit_at b' (current_scope b) = Some u' ∧
      u_defs u' = u_defs u ++ [mkDefinition kind sym range] ∧
      SymbolTable.id (u_table u') name = Some sym ∧ bound_now b' (current_scope b) name ∧
      (∀ sym', BuilderFacts.st (u_udm u') sym' =
         if decide (sym' = sym) then mkBindings [length (u_defs u)] false
         else BuilderFacts.st (u_udm u) sym') ∧
      ∀ i, i ≠ current_scope b → unit_at b' i = unit_at b i
  | Panicked b' => arena_full b'
  | OutOfFuel => False
  end.
Proof.
  intros Hb Hs Hown Hflags. pose proof (bw_arenas _ _ _ Hb) as Ha.
  destruct (current_open _ _ Ha) as [Hcur _].
  destruct (unit_at_total _ _ _ Ha Hcur) as (u & Hu & Hwf).
  set (Q := λ (_ : ()) b', ∃ u' sym, unit_at b' (current_scope b) = Some u' ∧
    u_defs u' = u_defs u ++ [mkDefinition kind sym range] ∧
    SymbolTable.id (u_table u') name = Some sym ∧ bound_now b' (current_scope b) name ∧
    (∀ sym', BuilderFacts.st (u_udm u') sym' =
       if decide (sym' = sym) then mkBindings [length (u_defs u)] false
       else BuilderFacts.st (u_udm u) sym') ∧
    ∀ i, i ≠ current_scope b → unit_at b' i = unit_at b i).
  assert (Hw : wp (add_definition name flags kind range) arena_full Q b).
  { apply wp_bind, wp_try_get; rewrite Hs; [|done]. intros ? [= <-]. rewrite Hown. simpl.
    apply wp_bind, wp_gets.
    apply wp_bind, (wp_intern_in b _ u); [done|apply Hwf|]. intros t id b1 Hint T1.
    apply wp_bind, (wp_push_definition b1 _ (set_table t u)); [by apply T1|]. intros d x b2 Hp T2.
    destruct (define_unit u name flags kind range t id d x Hwf Hint Hp)
      as (m & m' & Hm & Hm' & -> & Hid & Hst & Hbound).
    apply wp_bind. eapply (wp_on_udm_ b2); [by apply T2|exact Hm|]. intros b3 T3.
    eapply (wp_on_udm_ b3); [by apply T3|exact Hm'|]. intros b4 T4.
    assert (T : touches (current_scope b) (mkUnit t (u_defs u ++ [mkDefinition kind id range])
      (u_uses u) m') b b4).
    { eapply touches_trans; [exact T1|]. eapply touches_trans; [exact T2|].
      eapply touches_trans; [exact T3|exact T4]. }
    pose proof (th_unit _ _ _ _ T) as Hu4. eexists _, id. split; [exact Hu4|]. split; [done|].
    split; [done|]. split; [|split; [exact Hst|apply T]].
    destruct (Hbound Hflags) as (s' & Hs' & Hn' & Hf').
    apply unit_at_Some in Hu4 as (Ht4 & _). by exists t, id, s'. }
  unfold wp in Hw. destruct (add_definition _ _ _ _ b) as [[] b'|b'|]; [|done..].
  destruct Hw as (u' & sym & ?). exists u, u', sym. done.
Qed.

(** The target of [<<-]: the innermost scope around the assignment that
    binds the name, where a scope in the same execution unit counts only what
    the walk has bound so far and any other counts every binding. When there is
    none, the target is the top level, or nothing if an attached package locks
    the name, which is reported. Nothing panics and nothing but diagnostics and
    the used-up lock changes. *)
Theorem super_target_innermost (program : list expr) open b name start range site l :
  bwf program open b → chain (scopes b) (Some start) l →
  enclosing_lazy_scope (scopes b) (current_scope b) = Some site →
  match resolve_super_target name start range b with
  | Done target b' => scopes b' = scopes b ∧ walk b' = walk b ∧
      ((∃ a inner outer, target = Some a ∧ l = inner ++ a :: outer ∧
          (∀ a', a' ∈ inner → ¬ super_binds b site name a') ∧ super_binds b site name a) ∨
       (∀ a, a ∈ l → ¬ super_binds b site name a) ∧
       match super_binding_packages (scan b) !! range with
       | None => target = Some 0
       | Some package => target = None ∧
           diagnostics b' = diagnostics b ++ [LockedSuperAssignment name package range]
       end)
  | Panicked _ | OutOfFuel => False
  end.
Proof.
  intros Hb Hc Hsite. pose proof (bw_arenas _ _ _ Hb) as Ha.
  assert (Hstart : start < length (scopes b)) by (eapply chain_bounds; [done|inversion Hc; left]).
  destruct (ancestors_total open b start Ha Hstart) as (l' & Hl & Hc').
  rewrite (chain_fun _ _ _ _ Hc' Hc) in Hl.
  pose proof (find_super_target_spec open b name site l Ha (chain_bounds _ _ _ Hc)) as Hf.
  unfold resolve_super_target, mbind, M_bind, try_get. rewrite Hsite. simpl. rewrite Hl. simpl.
  destruct (find_super_target b name site l) as [[[a timing]|]|]; [| |done].
  - destruct Hf as (inner & outer & -> & Hin & Hbind & _).
    assert (Hlt : a < length (scopes b)).
    { eapply chain_bounds; [exact Hc|]. apply elem_of_app. right. by left. }
    destruct (scope_binding_range_total open b a name Ha Hlt) as [r Hr].
    destruct timing; simpl; rewrite ?Hr; [destruct r; simpl|];
      (split; [done|]; split; [done|]; left; by exists a, inner, outer).
  - unfold super_name_is_locked, mbind, M_bind, gets. simpl.
    destruct (super_binding_packages (scan b) !! range) as [package|] eqn:Hp; simpl;
      (split; [done|]; split; [done|]; right; by split).
Qed.

(** A use that may be unbound in its own scope is linked to every scope
    around it that binds its name, now or according to the scan, and to no
    other: its entry lists exactly those, innermost first, and there is no new
    entry when there are none. *)
Theorem use_chain_complete (program : list expr) open b name nested use_id l :
  bwf program open b → use_named b (current_scope b) use_id name →
  name_at b (current_scope b) nested name →
  chain (scopes b) (Some (current_scope b)) (current_scope b :: l) →
  match register_enclosing_snapshot name nested use_id b with
  | Done _ b' => bwf program open b' ∧
      ∃ around, sublist around l ∧ (∀ a, a ∈ around ↔ a ∈ l ∧ bound_anywhere_in b a name) ∧
        match around with
        | [] => wk_enclosing_snapshots (walk b') !! (current_scope b, use_id) =
                wk_enclosing_snapshots (walk b) !! (current_scope b, use_id)
        | _ => ∃ entries, entries.*1 = around ∧
                 wk_enclosing_snapshots (walk b') !! (current_scope b, use_id) = Some entries
        end
  | Panicked b' => arena_full b'
  | OutOfFuel => False
  end.
Proof.
  intros Hb Huse Hn Hc.
  pose proof (register_enclosing_snapshot_wp program open b name nested use_id Hb Huse Hn) as Hw.
  pose proof (register_enclosing_reads program open name nested use_id b) as Hr.
  unfold wp in Hw. destruct (register_enclosing_snapshot _ _ _ b) as [[] b'|b'|]; [|done..].
  destruct (Hr b' l Hb Huse Hn Hc eq_refl) as [Hnil Hcons]. split; [apply Hw|].
  exists (List.filter (λ a, binds_any b a name) l). split; [apply filter_sublist|]. split.
  - intros a. rewrite !list_elem_of_In, List.filter_In, <-list_elem_of_In. split.
    + intros [Hin Hbind]. split; [done|]. unfold binds_any in Hbind.
      destruct (scope_binds_anywhere_spec open b a name (bw_arenas _ _ _ Hb)) as (r & Hs & Hspec).
      * eapply chain_bounds; [exact Hc|by right].
      * rewrite Hs in Hbind. by apply Hspec.
    + intros [Hin Hbind]. split; [done|]. unfold binds_any.
      destruct (scope_binds_anywhere_spec open b a name (bw_arenas _ _ _ Hb)) as (r & -> & Hspec).
      * eapply chain_bounds; [exact Hc|by right].
      * by apply Hspec.
  - destruct (List.filter _ l); [exact Hnil|]. by apply Hcons.
Qed.
End theorems.

(** ** Witnesses *)

(** The walk inside [x <- 1; f <- function() x], just after the use of [x]. *)
Definition inside : M SemanticIndexBuilder () :=
  add_definition "x" SymbolFlags.IS_BOUND (DAssignment (at_ 0 6)) (at_ 0 1);;
  push_scope KFunction (at_ 15 14);;
  add_use "x" (at_ 28 1).

Definition inside_builder : SemanticIndexBuilder :=
  match inside (builder_new (at_ 0 1000)) with Done _ b => b | _ => builder_new (at_ 0 1000) end.

Lemma inside_wf : bwf program_closure [1; 0] inside_builder.
Proof.
  assert (Hw : wp inside arena_full (λ _ b, ∃ i, bwf program_closure [i; 0] b)
    (builder_new (at_ 0 1000))).
  { apply wp_bind. eapply wp_mono; [by apply add_definition_wk, builder_new_wf|].
    intros [] b1 [Hb1 _]. apply wp_bind. eapply wp_mono; [by apply push_scope_wp|].
    intros i b2 [[Hb2 _] _]. eapply wp_mono; [by apply add_use_wk|]. intros [] b3 [Hb3 _]. eauto. }
  unfold wp, inside_builder in *. destruct (inside _) as [[] b|b|] eqn:E; [| |done].
  - destruct Hw as [i Hb]. assert (i = 1) as ->; [|done].
    destruct (current_open _ _ (bw_arenas _ _ _ Hb)) as [_ [rest Hr]]. injection Hr as -> _.
    pose proof (f_equal (λ r, match r with Done _ b' => current_scope b' | _ => 0 end) E) as Hcur.
    simpl in Hcur. rewrite <-Hcur. vm_compute. reflexivity.
  - pose proof (f_equal (λ r, match r with Done _ _ => true | _ => false end) E) as Hd.
    vm_compute in Hd. discriminate.
Qed.

Lemma inside_current : current_scope inside_builder = 1.
Proof. by vm_compute. Qed.

(** Scope 1 there. *)
Definition inside_unit : scope_unit := default new_unit (unit_at inside_builder 1).

Lemma inside_name : name_at inside_builder 1 0 "x".
Proof.
  exists inside_unit, (default (mkSymbol "" SymbolFlags.empty) (symbols (u_table inside_unit) !! 0)).
  split; [apply some_default; by vm_compute|]. split; [apply some_default; by vm_compute|].
  by vm_compute.
Qed.

Lemma inside_use : use_named inside_builder 1 0 "x".
Proof.
  exists inside_unit, (default (mkUse 0 (at_ 0 0)) (u_uses inside_unit !! 0)).
  split; [apply some_default; by vm_compute|]. split; [apply some_default; by vm_compute|].
  assert (use_symbol (default (mkUse 0 (at_ 0 0)) (u_uses inside_unit !! 0)) = 0) as -> by by vm_compute.
  exact inside_name.
Qed.

Lemma inside_chain : chain (scopes inside_builder) (Some (current_scope inside_builder)) [1; 0].
Proof. apply (aw_chain _ _ (bw_arenas _ _ _ inside_wf)). Qed.

Lemma inside_outer : chain (scopes inside_builder) (Some 0) [0].
Proof.
  pose proof inside_chain as Hc. inversion Hc as [|? s l Hs Hc']; subst.
  replace (Some 0) with (scope_parent s); [done|].
  assert (Hp : scope_parent <$> scopes inside_builder !! current_scope inside_builder = Some (Some 0))
    by by vm_compute.
  rewrite Hs in Hp. by injection Hp.
Qed.

Lemma inside_scope :
  the_scope inside_builder = Some (mkScope _ (Some 0) KFunction (at_ 15 14) 2 2).
Proof. by vm_compute. Qed.

Lemma walk_keeps_builder_sound_witness :
  match walk_expression 100 (id_ 50 "x") (builder_new (at_ 0 1000)) with
  | Done _ b' => bwf program_closure [0] b' ∧ step (builder_new (at_ 0 1000)) b'
  | Panicked b' => arena_full b'
  | OutOfFuel => False
  end.
Proof.
  apply (walk_keeps_builder_sound program_closure [0] 100 (id_ 50 "x") (builder_new (at_ 0 1000))).
  - reflexivity.
  - apply own_ranges_sound. by vm_compute.
  - apply within_top. unfold program_closure. set_solver.
  - by apply (bool_decide_unpack _); vm_compute.
  - apply builder_new_wf.
Defined.

Lemma handler_context_total_witness :
  scan_scope_binds inside_builder "x" = Some (ctx_is_bound (scan_bindings inside_builder) "x" false) ∧
  scan_scope_is_global inside_builder = Some (ctx_is_global (scan_bindings inside_builder)) ∧
  resolve_callee inside_builder (call_ 60 3 "library" []) =
    Some (ctx_resolve_callee (scan_bindings inside_builder) (call_ 60 3 "library" [])).
Proof.
  exact (handler_context_total program_closure [1; 0] inside_builder "x" (call_ 60 3 "library" [])
    inside_wf).
Defined.

Lemma add_definition_shadows_witness :
  match add_definition "y" SymbolFlags.IS_BOUND (DAssignment (at_ 60 6)) (at_ 60 1) inside_builder with
  | Done _ b' => ∃ u u' sym,
      unit_at inside_builder (current_scope inside_builder) = Some u ∧
      unit_at b' (current_scope inside_builder) = Some u' ∧
      u_defs u' = u_defs u ++ [mkDefinition (DAssignment (at_ 60 6)) sym (at_ 60 1)] ∧
      SymbolTable.id (u_table u') "y" = Some sym ∧
      bound_now b' (current_scope inside_builder) "y" ∧
      (∀ sym', BuilderFacts.st (u_udm u') sym' =
         if decide (sym' = sym) then mkBindings [length (u_defs u)] false
         else BuilderFacts.st (u_udm u) sym') ∧
      ∀ i, i ≠ current_scope inside_builder → unit_at b' i = unit_at inside_builder i
  | Panicked b' => arena_full b'
  | OutOfFuel => False
  end.
Proof.
  exact (add_definition_shadows program_closure [1; 0] inside_builder _ "y" SymbolFlags.IS_BOUND
    (DAssignment (at_ 60 6)) (at_ 60 1) inside_wf inside_scope eq_refl eq_refl).
Defined.

Lemma super_target_innermost_witness :
  match resolve_super_target "x" 0 (at_ 70 1) inside_builder with
  | Done target b' => scopes b' = scopes inside_builder ∧ walk b' = walk inside_builder ∧
      ((∃ a inner outer, target = Some a ∧ [0] = inner ++ a :: outer ∧
          (∀ a', a' ∈ inner → ¬ super_binds inside_builder (Some 1) "x" a') ∧
          super_binds inside_builder (Some 1) "x" a) ∨
       (∀ a, a ∈ [0] → ¬ super_binds inside_builder (Some 1) "x" a) ∧
       match super_binding_packages (scan inside_builder) !! at_ 70 1 with
       | None => target = Some 0
       | Some package => target = None ∧ diagnostics b' =
           diagnostics inside_builder ++ [LockedSuperAssignment "x" package (at_ 70 1)]
       end)
  | Panicked _ | OutOfFuel => False
  end.
Proof.
  apply (super_target_innermost program_closure [1; 0] inside_builder "x" 0 (at_ 70 1) (Some 1) [0]);
    [exact inside_wf|exact inside_outer|by vm_compute].
Defined.

Lemma use_chain_complete_witness :
  match register_enclosing_snapshot "x" 0 0 inside_builder with
  | Done _ b' => bwf program_closure [1; 0] b' ∧
      ∃ around, sublist around [0] ∧
        (∀ a, a ∈ around ↔ a ∈ [0] ∧ bound_anywhere_in inside_builder a "x") ∧
        match around with
        | [] => wk_enclosing_snapshots (walk b') !! (current_scope inside_builder, 0) =
                wk_enclosing_snapshots (walk inside_builder) !! (current_scope inside_builder, 0)
        | _ => ∃ entries, entries.*1 = around ∧
                 wk_enclosing_snapshots (walk b') !! (current_scope inside_builder, 0) = Some entries
        end
  | Panicked b' => arena_full b'
  | OutOfFuel => False
  end.
Proof.
  apply (use_chain_complete program_closure [1; 0] inside_builder "x" 0 0 [0] inside_wf).
  - rewrite inside_current. exact inside_use.
  - rewrite inside_current. exact inside_name.
  - rewrite inside_current at 2. exact inside_chain.
Defined.
