(* ===== verification/QueryFacts.v ===== *)
(** * Facts about the queries of a well-formed index

    Lookups, the chain of snapshots of a use, the stopping rule, resolution in
    one scope, the loop of [exports], eager scopes and positional search, on an
    index in [index_wf]. *)

From S2P Require Export Reference.

Section queries.
Context `{TextRanges, Urls}.
Implicit Types (ix : SemanticIndex).

(** ** Lookups in a well-formed index *)

Lemma ix_scope_tables ix i :
  index_wf ix → i < length (ix_scopes ix) → ∃ t d us m,
    ix_symbol_tables ix !! i = Some t ∧ ix_definitions ix !! i = Some d ∧
    ix_uses ix !! i = Some us ∧ ix_use_def_maps ix !! i = Some m ∧ scope_tables_wf t d us m.
Proof. intros Hix. apply (iw_tables _ Hix). Qed.

Lemma ix_use_lt ix i us : index_wf ix → ix_uses ix !! i = Some us → i < length (ix_scopes ix).
Proof.
  intros Hix Hi%lookup_lt_Some. destruct (iw_lengths _ Hix) as (_ & _ & <- & _). done.
Qed.

Lemma ix_name_fun ix i sym n1 n2 : ix_name_at ix i sym n1 → ix_name_at ix i sym n2 → n1 = n2.
Proof. intros (t1 & s1 & ? & ? & <-) (t2 & s2 & ? & ? & <-). by simplify_eq. Qed.

Lemma ix_use_name_fun ix i k n1 n2 : ix_use_named ix i k n1 → ix_use_named ix i k n2 → n1 = n2.
Proof.
  intros (u1 & use1 & ? & ? & Hn1) (u2 & use2 & ? & ? & Hn2). simplify_eq. by eapply ix_name_fun.
Qed.

Lemma ix_ancestors ix i :
  index_wf ix → i < length (ix_scopes ix) →
  ∃ l, ancestor_scope_ids (ix_scopes ix) i = Some l ∧ chain (ix_scopes ix) (Some i) l.
Proof.
  intros Hix Hi. destruct (ancestor_scope_ids_total _ _ _ (proj1 (iw_tree _ Hix)) Hi)
    as (l & ? & ? & _). eauto.
Qed.

(** ** Reaching definitions *)

(** Local bindings exist and refer to rows of the use's symbol. *)
Lemma local_bindings ix s k name :
  index_wf ix → ix_use_named ix s k name →
  ∃ m bs, ix_use_def_maps ix !! s = Some m ∧ UseDefMap.bindings_at_use k m = Some bs ∧
    s < length (ix_scopes ix) ∧ ∀ x, x ∈ definitions bs → ix_def_named ix s x name.
Proof.
  intros Hix (us & use & Hus & Hk & Hn).
  assert (Hs : s < length (ix_scopes ix)) by by eapply ix_use_lt.
  destruct (ix_scope_tables _ _ Hix Hs) as (t & d & us' & m & Ht & Hd & Hus' & Hm & Hwf). simplify_eq.
  destruct (lookup_lt_is_Some_2 (udm_bindings_by_use m) k) as [bs Hbs].
  { rewrite (st_uses _ _ _ _ Hwf). by eapply lookup_lt_Some. }
  exists m, bs. split; [done|]. split; [done|]. split; [done|]. intros x Hx.
  destruct (st_reaching _ _ _ _ Hwf _ _ _ _ Hk Hbs Hx) as (def & Hdef & Hsym).
  exists d, def. rewrite Hsym. done.
Qed.

(** The chain of a use is read without panic; its definitions are named like
    the use and belong to proper ancestors. *)
Lemma chain_bindings ix s k name :
  index_wf ix → ix_use_named ix s k name →
  ∃ ch l, enclosing_bindings_chain ix s k = Some ch ∧ chain (ix_scopes ix) (Some s) (s :: l) ∧
    sublist ch.*1 l ∧
    ∀ a bs x, (a, bs) ∈ ch → x ∈ definitions bs → ix_def_named ix a x name.
Proof.
  intros Hix Huse. unfold enclosing_bindings_chain.
  destruct (ix_enclosing_snapshots ix !! (s, k)) as [entries|] eqn:He; simpl.
  - destruct (iw_chain _ Hix _ _ _ He) as (name' & l & Huse' & Hl & Hsub & Hall).
    rewrite <-(ix_use_name_fun _ _ _ _ _ Huse Huse') in Hall. clear He.
    assert (Hgen : ∃ ch, mapM (λ '(a, id), m ← IndexVec.index (ix_use_def_maps ix) a;
        bindings ← UseDefMap.enclosing_snapshot id m; Some (a, bindings)) entries = Some ch ∧
        ch.*1 = entries.*1 ∧
        ∀ a bs x, (a, bs) ∈ ch → x ∈ definitions bs → ix_def_named ix a x name).
    { cut (∃ ch, Forall2 (λ '(a, id) '(a', bs), a' = a ∧ (m ← IndexVec.index (ix_use_def_maps ix) a;
          UseDefMap.enclosing_snapshot id m) = Some bs) entries ch ∧
        ∀ a bs x, (a, bs) ∈ ch → x ∈ definitions bs → ix_def_named ix a x name).
      { intros (ch & HF & Hch). exists ch. split; [|split; [|done]].
        - apply mapM_Some. eapply Forall2_impl; [exact HF|]. intros [a id] [a' bs] [-> Hbs].
          destruct (IndexVec.index _ a) as [m|]; [|done]. simpl in *. by rewrite Hbs.
        - clear Hall Hsub Hch. induction HF as [|[] [] ? ? [-> _] _ IH]; [done|]. csimpl. by rewrite IH. }
      clear Hsub. induction entries as [|[a id] entries IH].
      - exists []. split; [constructor|]. by intros ? ? ? ?%elem_of_nil.
      - destruct (Hall a id) as (m & bs & Hm & Hbs & Hx); [by left|].
        destruct IH as (ch & HF & Hch); [intros; apply Hall; by right|].
        exists ((a, bs) :: ch). split.
        + constructor; [|done]. split; [done|].
          unfold IndexVec.index, UseDefMap.enclosing_snapshot. by rewrite Hm.
        + intros a' bs' x [Heq|Hin]%elem_of_cons; [|by eapply Hch]. simplify_eq. apply Hx. }
    destruct Hgen as (ch & Hch0 & Hfst & Hch). exists ch, l. rewrite Hfst.
    split; [exact Hch0|done].
  - destruct Huse as (us & use & Hus & _).
    assert (Hs : s < length (ix_scopes ix)) by by eapply ix_use_lt.
    destruct (ix_ancestors _ _ Hix Hs) as (l & _ & Hc).
    pose proof Hc as Hc'. inversion Hc' as [|? sc l' Hsc Hrest]; subst.
    exists [], l'. split; [done|]. split; [done|]. split; [apply sublist_nil_l|].
    by intros ? ? ? ?%elem_of_nil.
Qed.

Lemma fall_through_elem may ch a bs : (a, bs) ∈ fall_through may ch → (a, bs) ∈ ch.
Proof.
  revert may. induction ch as [|[a' bs'] ch IH]; intros []; simpl; try by intros ?%elem_of_nil.
  intros [Heq|Hin]%elem_of_cons; [rewrite Heq; by left|]. right. by eapply IH.
Qed.

(** Stopping at the first scope that surely binds the name loses no
    certainty. *)
Lemma fall_through_bound may ch :
  existsb (λ '(_, bs), negb (may_be_unbound bs)) (fall_through may ch) =
  may && existsb (λ '(_, bs), negb (may_be_unbound bs)) ch.
Proof.
  revert may. induction ch as [|[a bs] ch IH]; intros []; simpl; [done..| |done].
  rewrite IH. by destruct (may_be_unbound bs).
Qed.

(** The scopes read are the first ones, up to the first that surely binds. *)
Lemma fall_through_prefix may ch :
  ∃ n, fall_through may ch = take n ch ∧
    (∀ j a bs, ch !! j = Some (a, bs) → S j < n → may_be_unbound bs = true) ∧
    (n < length ch → 0 < n → ∃ a bs, ch !! (n - 1) = Some (a, bs) ∧ may_be_unbound bs = false) ∧
    (may = false → n = 0) ∧ (may = true → ch ≠ [] → 0 < n).
Proof.
  revert may. induction ch as [|[a bs] ch IH]; intros may.
  - exists 0. rewrite take_nil. split; [by destruct may|]. repeat split; simpl; try lia; try done.
  - destruct may; simpl; [|exists 0; repeat split; try lia; done].
    destruct (IH (may_be_unbound bs)) as (n & -> & Hpre & Hlast & Hf & Ht).
    exists (S n). split; [done|]. split; [|split; [|split; [done|lia]]].
    + intros [|j] a' bs' Hj Hlt; simplify_eq/=.
      * destruct (may_be_unbound _) eqn:E; [done|]. rewrite (Hf eq_refl) in Hlt. lia.
      * eapply Hpre; [done|lia].
    + intros Hlt _. simpl. rewrite Nat.sub_0_r. destruct n as [|n].
      * exists a, bs. split; [done|]. destruct (may_be_unbound bs) eqn:E; [|done].
        assert (0 < 0) by (apply Ht; [done|by intros ->; simpl in Hlt; lia]). lia.
      * destruct Hlast as (a' & bs' & Hn & ?); [simpl in *; lia|lia|]. exists a', bs'.
        simpl in Hn. rewrite Nat.sub_0_r in Hn. done.
Qed.

(** ** Name resolution *)

(** Scope [a] has a local binding of the name. *)
Definition binds ix (a : nat) (name : string) : Prop :=
  ∃ t sym s, ix_symbol_tables ix !! a = Some t ∧ symbols t !! sym = Some s ∧
    symbol_name s = name ∧ SymbolFlags.contains (symbol_flags s) SymbolFlags.IS_BOUND = true.

(** Row [id] is the first of scope [a] for the name. *)
Definition first_row ix (a id : nat) (name : string) (def : Definition_) : Prop :=
  ∃ d, ix_definitions ix !! a = Some d ∧ d !! id = Some def ∧
    ix_name_at ix a (def_symbol def) name ∧
    ∀ x, x < id → ¬ ix_def_named ix a x name.

Lemma find_row (d : list Definition_) sym :
  match List.find (λ '(_, def), bool_decide (def_symbol def = sym)) (IndexVec.iter d) with
  | Some (id, def) => d !! id = Some def ∧ def_symbol def = sym ∧ ∀ x, x < id → ¬ row d x sym
  | None => ∀ x, ¬ row d x sym
  end.
Proof.
  unfold IndexVec.iter. pose proof (find_imap (λ def, bool_decide (def_symbol def = sym)) d) as Hf.
  destruct (List.find _ _) as [[id def]|].
  - destruct Hf as (Hid & Hsym & Hmin). apply bool_decide_eq_true in Hsym.
    split; [done|]. split; [done|]. intros x Hx (def' & Hd' & Heq).
    specialize (Hmin x def' Hx Hd'). by apply bool_decide_eq_false in Hmin.
  - intros x (def & Hd & Heq). specialize (Hf x def Hd). by apply bool_decide_eq_false in Hf.
Qed.

Lemma resolve_in_spec ix name a :
  index_wf ix → a < length (ix_scopes ix) →
  match resolve_in ix name a with
  | None => False
  | Some None => ¬ binds ix a name
  | Some (Some (a', id, def)) => a' = a ∧ binds ix a name ∧ first_row ix a id name def
  end.
Proof.
  intros Hix Ha. destruct (ix_scope_tables _ _ Hix Ha) as (t & d & us & m & Ht & Hd & _ & _ & Hwf).
  destruct (st_table _ _ _ _ Hwf) as [Hname Hid]. unfold resolve_in, IndexVec.index.
  rewrite Ht. simpl. destruct (SymbolTable.id t name) as [sym|] eqn:Hsym.
  - destruct (Hname _ _ Hsym) as (s & Hs & Hn). unfold SymbolTable.symbol, IndexVec.index.
    rewrite Hs. simpl. destruct (SymbolFlags.contains _ _) eqn:Hb.
    + rewrite Hd. simpl. pose proof (find_row d sym) as Hrow.
      destruct (st_bound _ _ _ _ Hwf _ _ Hs Hb) as (x & Hx).
      destruct (List.find _ _) as [[id def]|]; [|by apply Hrow in Hx].
      destruct Hrow as (Hdef & <- & Hmin). simpl. split; [done|]. split; [by exists t, (def_symbol def), s|].
      exists d. split; [done|]. split; [done|]. split; [by exists t, s|].
      intros y Hy (d' & def' & Hd' & Hdef' & t' & s' & Ht' & Hs' & Hn'). simplify_eq.
      apply (Hmin y Hy). exists def'. split; [done|]. apply Hid in Hs, Hs'. congruence.
    + intros (t' & sym' & s' & Ht' & Hs' & Hn' & Hb'). simplify_eq.
      assert (sym = sym') as <-; [|congruence].
      apply Hid in Hs'. unfold SymbolTable.id in Hsym. rewrite Hn' in Hs'. congruence.
  - intros (t' & sym' & s' & Ht' & Hs' & Hn' & Hb'). simplify_eq.
    apply Hid in Hs'. unfold SymbolTable.id in Hsym. congruence.
Qed.

(** ** Exports *)

(** What a symbol of the file scope exports. *)
Definition exported_rows (finals : list Bindings) (d : list Definition_) (sym : nat)
    : option (list (nat * Definition_)) :=
  bindings ← finals !! sym;
  match definitions bindings with [] => None | ids => defs_of d ids end.

Lemma defs_of_total (d : list Definition_) ids sym :
  (∀ x, x ∈ ids → row d x sym) →
  ∃ l, defs_of d ids = Some l ∧ l.*1 = ids ∧
    ∀ x def, (x, def) ∈ l → d !! x = Some def ∧ def_symbol def = sym.
Proof.
  intros Hids. destruct (mapM_total (λ id, def ← IndexVec.index d id; Some (id, def))
    (λ id p, p.1 = id ∧ d !! id = Some p.2 ∧ def_symbol p.2 = sym) ids) as (l & Hl & HF).
  { intros x Hx. destruct (Hids x Hx) as (def & Hd & Hs). exists (x, def).
    unfold IndexVec.index. by rewrite Hd. }
  exists l. split; [exact Hl|]. clear Hl. split.
  - clear Hids. induction HF as [|x p ids l [Hp _] _ IH]; [done|]. csimpl. by rewrite IH, Hp.
  - intros x def Hin. apply (Forall2_elem_r _ _ _ _ HF) in Hin as (y & _ & Hy & Hd & Hs). simpl in *. by subst.
Qed.

(** The loop of [exports] over the final bindings. *)
Lemma exports_fold t (d : list Definition_) finals :
  SymbolTableFacts.wf t → length finals ≤ length (symbols t) →
  (∀ sym bs x, finals !! sym = Some bs → x ∈ definitions bs → row d x sym) →
  ∃ e, foldM (export_symbol t d) (IndexVec.iter finals) ∅ = Some e ∧
    ∀ name, e !! name = SymbolTable.id t name ≫= exported_rows finals d.
Proof.
  intros [Hname Hid]. unfold IndexVec.iter. induction finals as [|bs finals IH] using rev_ind; intros Hlen Hrows.
  { exists ∅. split; [done|]. intros name. rewrite lookup_empty. by destruct (SymbolTable.id t name). }
  rewrite length_app in Hlen. simpl in Hlen.
  destruct IH as (e & He & Hall); [lia|intros; eapply Hrows; [by apply lookup_app_l_Some|done]|].
  rewrite imap_app, foldM_app, He. simpl. rewrite Nat.add_0_r.
  destruct (lookup_lt_is_Some_2 (symbols t) (length finals)) as [s Hs]; [lia|].
  assert (Hex : ∀ sym, sym ≠ length finals →
    exported_rows (finals ++ [bs]) d sym = exported_rows finals d sym).
  { intros sym Hne. unfold exported_rows. destruct (decide (sym < length finals)).
    - by rewrite lookup_app_l by lia.
    - rewrite !lookup_ge_None_2; [done|lia|rewrite length_app; simpl; lia]. }
  assert (Hlast : (finals ++ [bs]) !! length finals = Some bs) by by rewrite lookup_app_r, Nat.sub_diag.
  assert (Hother : ∀ name sym, symbol_name s ≠ name → SymbolTable.id t name = Some sym →
    sym ≠ length finals).
  { intros name sym Hne (s' & Hs' & <-)%Hname ->. congruence. }
  destruct (definitions bs) as [|x ids] eqn:Hdefs.
  - exists e. split; [done|]. intros name. rewrite Hall.
    destruct (SymbolTable.id t name) as [sym|] eqn:Hsym; [|done]. simpl.
    destruct (decide (sym = length finals)) as [->|Hne]; [|by rewrite Hex].
    unfold exported_rows. rewrite Hlast. simpl. rewrite Hdefs.
    by rewrite lookup_ge_None_2 by done.
  - destruct (defs_of_total d (x :: ids) (length finals)) as (l & Hl & _).
    { intros y Hy. eapply Hrows; [done|by rewrite Hdefs]. }
    unfold SymbolTable.symbol, IndexVec.index. rewrite Hs. simpl. rewrite Hl. simpl.
    eexists; split; [done|]. intros name.
    assert (Hsid : SymbolTable.id t (symbol_name s) = Some (length finals)) by by apply Hid.
    rewrite !Hall, Hsid. simpl. unfold exported_rows at 1. rewrite lookup_ge_None_2 by done. simpl.
    destruct (decide (symbol_name s = name)) as [<-|Hne].
    + rewrite lookup_insert_eq, Hsid. simpl. unfold exported_rows. rewrite Hlast. simpl.
      by rewrite Hdefs.
    + rewrite lookup_insert_ne, Hall by done.
      destruct (SymbolTable.id t name) as [sym|] eqn:Hsym; [|done]. simpl.
      by rewrite Hex by by eapply Hother.
Qed.

(** ** Attached packages and positions *)

Lemma find_In_None {A} (p : A → bool) l : List.find p l = None ↔ ∀ a, a ∈ l → p a = false.
Proof.
  split.
  - intros Hf a Ha%list_elem_of_In. by eapply List.find_none.
  - induction l as [|a l IH]; simpl; intros Hl; [done|]. rewrite Hl by by left.
    apply IH. intros; apply Hl. by right.
Qed.

(** No ancestor of the scope, itself included, runs later than the file. *)
Definition eager_scope ix (scope : nat) : Prop :=
  ∃ l, chain (ix_scopes ix) (Some scope) l ∧
    ∀ i s, i ∈ l → ix_scopes ix !! i = Some s → ScopeKind.is_lazy (scope_kind s) = false.

Lemma scope_is_eager_spec ix scope :
  index_wf ix → scope < length (ix_scopes ix) →
  ∃ e, scope_is_eager ix scope = Some e ∧ (e = true ↔ eager_scope ix scope).
Proof.
  intros Hix Hs. destruct (ix_ancestors _ _ Hix Hs) as (l & Hl & Hc).
  unfold scope_is_eager, enclosing_lazy_scope, find_kind. rewrite Hl. simpl.
  eexists; split; [done|]. split.
  - intros He. exists l. split; [done|]. intros i s Hi Hsc.
    destruct (List.find _ _) as [?|] eqn:Hf; [done|]. rewrite find_In_None in Hf.
    specialize (Hf i Hi). simpl in Hf. by rewrite Hsc in Hf.
  - intros (l' & Hc' & Hall). rewrite (chain_fun _ _ _ _ Hc' Hc) in Hall.
    destruct (List.find _ _) as [i|] eqn:Hf; [|done].
    apply List.find_some in Hf as [Hi%list_elem_of_In Hp].
    pose proof (chain_bounds _ _ _ Hc i Hi) as [s Hsc]%lookup_lt_is_Some.
    rewrite Hsc in Hp. simpl in Hp. by rewrite (Hall i s Hi Hsc) in Hp.
Qed.

(** [IndexVec::contains]: the first element whose range contains the offset. *)
Lemma index_contains_spec {V} (p : V → bool) raw :
  match IndexVec.contains p raw with
  | Some (id, v) => raw !! id = Some v ∧ p v = true ∧ ∀ j u, j < id → raw !! j = Some u → p u = false
  | None => ∀ j u, raw !! j = Some u → p u = false
  end.
Proof. apply find_imap. Qed.

Lemma scope_at_ix ix offset :
  index_wf ix → ∃ s, scope_at (ix_scopes ix) offset = Some s ∧
    innermost (ix_scopes ix) offset s ∧ s < length (ix_scopes ix).
Proof.
  intros Hix. destruct (scope_at_total (ix_scopes ix) offset (iw_tree _ Hix)) as (s & Hs & Hin).
  exists s. split; [done|]. split; [done|].
  destruct (in_chain _ _ _ Hin) as (l & Hc & _). eapply chain_bounds; [done|]. inversion Hc; left.
Qed.

(** The uses of a name in one scope. *)
Lemma uses_of_lists ix name :
  index_wf ix →
  ∃ per_scope, mapM (λ '(scope_id, _),
    table ← IndexVec.index (ix_symbol_tables ix) scope_id;
    match SymbolTable.id table name with
    | None => Some []
    | Some symbol_id =>
        uses ← IndexVec.index (ix_uses ix) scope_id;
        Some ((λ '(use_id, u), (scope_id, use_id, u)) <$>
                filter (λ '(_, u), use_symbol u = symbol_id) (IndexVec.iter uses))
    end) (IndexVec.iter (ix_scopes ix)) = Some per_scope ∧
  Forall2 (λ '(i, _) l, ∀ s k use, (s, k, use) ∈ l ↔
    s = i ∧ (us ← ix_uses ix !! s; us !! k) = Some use ∧ ix_use_named ix s k name)
    (IndexVec.iter (ix_scopes ix)) per_scope.
Proof.
  intros Hix. apply mapM_total. intros [i sc] Hi%IndexVec.iter_elem_of%lookup_lt_Some.
  destruct (ix_scope_tables _ _ Hix Hi) as (t & d & us & m & Ht & Hd & Hus & Hm & Hwf).
  destruct (st_table _ _ _ _ Hwf) as [Hname Hid]. unfold IndexVec.index. rewrite Ht. simpl.
  destruct (SymbolTable.id t name) as [sym|] eqn:Hsym.
  - rewrite Hus. simpl. eexists; split; [done|]. intros s k use. rewrite list_elem_of_fmap. split.
    + intros ([k' u] & [= -> -> ->] & [Hu Hk%IndexVec.iter_elem_of]%list_elem_of_filter).
      rewrite Hus. split; [done|]. split; [done|].
      destruct (Hname _ _ Hsym) as (s' & Hs' & Hn). exists us, u. rewrite Hu.
      split; [done|]. split; [done|]. by exists t, s'.
    + intros (-> & Hk & us' & u & Hus' & Hk' & t' & s' & Ht' & Hs' & Hn). simplify_eq.
      rewrite Hus in Hk. simpl in Hk. simplify_eq. exists (k, use). split; [done|].
      apply list_elem_of_filter. rewrite IndexVec.iter_elem_of. split; [|done].
      apply Hid in Hs'. unfold SymbolTable.id in Hsym. congruence.
  - exists []. split; [done|]. intros s k use. split; [by intros ?%elem_of_nil|].
    intros (-> & _ & us' & u & Hus' & Hk' & t' & s' & Ht' & Hs' & Hn). simplify_eq.
    apply Hid in Hs'. unfold SymbolTable.id in Hsym. congruence.
Qed.
End queries.
