(* ===== verification/IndexTheorems.v ===== *)
(** * What a build produces, and what the index answers

    A build ends in a well-formed index ([build_index_total]); on such an index
    no query panics, and each answers what its documentation says. Witnesses run
    the builder on small programs with the reference instances. *)

From S2P Require Export QueryFacts WalkFacts.

Section theorems.
Context `{TextRanges, Urls}.
Implicit Types (ix : SemanticIndex).

(** C1. Building the index of a file ends: with fuel for the size of the
    program, the scan, the deferred bodies and the walk never run out of it.
    The index it returns is well formed (preorder scope tree, tables that refer
    to each other soundly, snapshots in ancestors with the name of their use),
    and no [unwrap], index or [unreachable!] panics: a release build panics only
    when an arena has no index left. *)
Theorem build_index_total `{!HandlerTypes, !Handlers, !HandlersLawful, !ImportsResolver,
    BuildProfile, MergeJoinBy} (program : list expr) (range : TextRange) (fuel : nat) :
  debug_assertions = false → calls_have_own_ranges program → lsize esize program < fuel →
  match build_index fuel program range with
  | Done ix _ => index_wf ix
  | Panicked b => arena_full b
  | OutOfFuel => False
  end.
Proof.
  intros Hrel Hcalls Hfuel.
  pose proof (build_wp program fuel (builder_new range) Hrel Hcalls) as Hb. unfold wp in Hb.
  unfold build_index. destruct (build _ _ _) as [ix b|b|]; apply Hb; try lia;
    try apply builder_new_wf; try done; intros e He; apply (lsize_elem esize) in He; lia.
Qed.

(** Fuel does not show: every build of a program with fuel for its size has
    the same outcome, index or panic, so the result is a function of the file. *)
Theorem build_fuel_irrelevant `{!HandlerTypes, !Handlers, !HandlersLawful, !ImportsResolver,
    BuildProfile, MergeJoinBy} (program : list expr) (range : TextRange) (fuel fuel' : nat) :
  debug_assertions = false → calls_have_own_ranges program →
  lsize esize program < fuel → lsize esize program < fuel' →
  build_index fuel program range = build_index fuel' program range.
Proof.
  intros Hrel Hcalls Hfuel Hfuel'.
  assert (Hends : build_index (S (lsize esize program)) program range ≠ OutOfFuel).
  { intros Ho. pose proof (build_wp program (S (lsize esize program)) (builder_new range)
      Hrel Hcalls) as Hb. unfold wp, build_index in *. rewrite Ho in Hb. apply Hb; try lia;
      try apply builder_new_wf; try done. intros e He%(lsize_elem esize). lia. }
  destruct (build_index_extends (S (lsize esize program)) fuel program range) as [?|<-]; [lia|done|].
  destruct (build_index_extends (S (lsize esize program)) fuel' program range) as [?|?]; [lia|done..].
Qed.

Lemma reaching_definitions_spec ix s k name :
  index_wf ix → ix_use_named ix s k name →
  ∃ l defs, chain (ix_scopes ix) (Some s) l ∧ reaching_definitions ix s k = Some defs ∧
    ∀ a x, (a, x) ∈ defs → a ∈ l ∧ ix_def_named ix a x name.
Proof.
  intros Hix Huse. destruct (local_bindings _ _ _ _ Hix Huse) as (m & bs & Hm & Hbs & _ & Hloc).
  destruct (chain_bindings _ _ _ _ Hix Huse) as (ch & l & Hch & Hc & Hsub & Hall).
  unfold reaching_definitions, reaching_bindings, IndexVec.index. rewrite Hm. simpl.
  rewrite Hbs. simpl. rewrite Hch. simpl. eexists (s :: l), _. split; [done|]. split; [done|].
  intros a x [Hx|Hx]%elem_of_app.
  - apply list_elem_of_fmap in Hx as (y & [= -> ->] & Hy). split; [by left|by apply Hloc].
  - apply list_elem_of_bind in Hx as ([a' bs'] & Hx & Hin%fall_through_elem).
    apply list_elem_of_fmap in Hx as (y & [= -> ->] & Hy). split; [|by eapply Hall].
    right. eapply elem_of_sublist; [|exact Hsub]. apply list_elem_of_fmap. by exists (a', bs').
Qed.

(** C35. A use is explained by its own scope and its ancestors: reading its
    definitions never panics, and each is a definition of the name the use
    mentions, in the scope of the use or one around it. *)
Theorem reaching_definitions_sound ix s k name :
  index_wf ix → ix_use_named ix s k name →
  ∃ l defs, chain (ix_scopes ix) (Some s) l ∧ reaching_definitions ix s k = Some defs ∧
    ∀ a x, (a, x) ∈ defs → a ∈ l ∧ ix_def_named ix a x name.
Proof. apply reaching_definitions_spec. Qed.

(** The stopping rule: the bindings of a use are those of its own scope
    followed by its snapshots, innermost first, up to the first that surely
    binds the name; every one before the last may be unbound. A use is bound
    exactly when some scope of the whole chain surely binds it, so stopping
    early loses nothing. *)
Theorem reaching_bindings_stop ix s k name :
  index_wf ix → ix_use_named ix s k name →
  ∃ local ch n, let all := (s, local) :: ch in
    (m ← ix_use_def_maps ix !! s; UseDefMap.bindings_at_use k m) = Some local ∧
    enclosing_bindings_chain ix s k = Some ch ∧
    reaching_bindings ix s k = Some (take (S n) all) ∧
    (∀ j a bs, all !! j = Some (a, bs) → j < n → may_be_unbound bs = true) ∧
    (S n < length all → ∃ a bs, all !! n = Some (a, bs) ∧ may_be_unbound bs = false) ∧
    use_is_bound ix s k = Some (existsb (λ '(_, bs), negb (may_be_unbound bs)) all).
Proof.
  intros Hix Huse. destruct (local_bindings _ _ _ _ Hix Huse) as (m & local & Hm & Hbs & _).
  destruct (chain_bindings _ _ _ _ Hix Huse) as (ch & _ & Hch & _).
  exists local, ch. unfold use_is_bound, reaching_bindings, IndexVec.index. rewrite Hm. simpl.
  rewrite Hbs. simpl. rewrite Hch. simpl.
  destruct (fall_through_prefix true ((s, local) :: ch)) as (n & Heq & Hpre & Hlast & _ & Hpos).
  destruct n as [|n]; [assert (0 < 0) by (by apply Hpos); lia|].
  simpl in Heq, Hlast. rewrite Nat.sub_0_r in Hlast. injection Heq as Heq.
  exists n. rewrite Heq. split; [done|]. split; [done|]. split; [done|]. split; [|split].
  - intros j a bs Hj Hlt. by apply (Hpre j a bs Hj); lia.
  - intros Hlt. apply Hlast; lia.
  - rewrite <-Heq, fall_through_bound. f_equal. by destruct (may_be_unbound local).
Qed.

(** Lexical resolution answers with the innermost scope around the position
    that binds the name locally, and with the first row of the name there;
    scopes in between do not bind it, and the answer is empty exactly when no
    scope around the position binds it. The [unreachable!] of the loop (a bound
    symbol without a row) is never reached. *)
Theorem resolve_innermost ix name scope :
  index_wf ix → scope < length (ix_scopes ix) →
  ∃ l, chain (ix_scopes ix) (Some scope) l ∧
  match resolve ix name scope with
  | None => False
  | Some None => ∀ a, a ∈ l → ¬ binds ix a name
  | Some (Some (a, id, def)) =>
      ∃ inner outer, l = inner ++ a :: outer ∧ (∀ a', a' ∈ inner → ¬ binds ix a' name) ∧
        binds ix a name ∧ first_row ix a id name def
  end.
Proof.
  intros Hix Hs. destruct (ix_ancestors _ _ Hix Hs) as (l & Hl & Hc). exists l. split; [done|].
  unfold resolve. rewrite Hl. simpl.
  pose proof (chain_bounds _ _ _ Hc) as Hb. clear Hl Hc.
  induction l as [|a l IH]; simpl; [by intros ? ?%elem_of_nil|].
  pose proof (resolve_in_spec ix name a Hix) as Ha.
  destruct (resolve_in ix name a) as [[[[a' id] def]|]|]; simpl.
  - destruct Ha as (-> & Hbind & Hrow); [apply Hb; by left|].
    exists [], l. split; [done|]. split; [by intros ? ?%elem_of_nil|done].
  - assert (Hna : ¬ binds ix a name) by (refine (Ha _); apply Hb; by left).
    specialize (IH (λ j Hj, Hb j (list_elem_of_further _ _ _ Hj))).
    destruct (resolve_from ix name l) as [[[[a' id] def]|]|]; [| |done].
    + destruct IH as (inner & outer & -> & Hin & ?). exists (a :: inner), outer.
      split; [done|]. split; [|done]. intros x [->|Hx]%elem_of_cons; auto.
    + intros x [->|Hx]%elem_of_cons; auto.
  - apply Ha, Hb. by left.
Qed.

Lemma exports_spec ix :
  index_wf ix →
  ∃ e, exports ix = Some e ∧ ∀ name,
    export ix name = Some (default [] (e !! name)) ∧ e !! name ≠ Some [] ∧
    (∀ id def, (id, def) ∈ default [] (e !! name) →
       ix_def_named ix 0 id name ∧ (d ← ix_definitions ix !! 0; d !! id) = Some def) ∧
    (export_is_bound ix name = Some true →
       ∃ bs, final_bindings_of ix (default SymbolTable.new (ix_symbol_tables ix !! 0)) name = Some bs ∧
         may_be_unbound bs = false ∧ (default [] (e !! name)).*1 = definitions bs).
Proof.
  intros Hix. assert (Hne0 : 0 < length (ix_scopes ix)).
  { destruct (iw_tree _ Hix) as [_ Hne]. destruct (ix_scopes ix); [done|simpl; lia]. }
  destruct (ix_scope_tables _ _ Hix Hne0) as (t & d & us & m & Ht & Hd & _ & _ & Hwf).
  destruct (iw_final _ Hix _ _ Ht Hd) as [Hlen Hrows].
  destruct (exports_fold t d (ix_final_bindings ix) (st_table _ _ _ _ Hwf) Hlen Hrows)
    as (e & He & Hall).
  exists e. unfold exports, IndexVec.index. rewrite Ht, Hd. simpl. split; [done|]. intros name.
  unfold export, export_is_bound, IndexVec.index. rewrite Ht, Hd. simpl. rewrite Hall.
  unfold final_bindings_of, exported_rows, IndexVec.get.
  destruct (SymbolTable.id t name) as [sym|] eqn:Hsym; simpl;
    [|split; [done|]; split; [done|]; split; [by intros ? ? ?%elem_of_nil|done]].
  destruct (ix_final_bindings ix !! sym) as [bs|] eqn:Hbs; simpl;
    [|split; [done|]; split; [done|]; split; [by intros ? ? ?%elem_of_nil|done]].
  destruct (defs_of_total d (definitions bs) sym) as (l & Hl & Hfst & Hin); [eauto|].
  assert (Hrow : ∀ id def, (id, def) ∈ l → ix_def_named ix 0 id name ∧ d !! id = Some def).
  { intros id def Hd'. destruct (Hin _ _ Hd') as [Hdef <-]. split; [|done].
    exists d, def. split; [done|]. split; [done|].
    destruct (SymbolTableFacts.wf_name _ (st_table _ _ _ _ Hwf) _ _ Hsym) as (s & ? & ?). by exists t, s. }
  rewrite Hl. destruct (definitions bs) as [|x ids] eqn:Hdefs; simpl; rewrite ?Hl.
  - apply fmap_nil_inv in Hfst as ->. split; [done|]. split; [done|].
    split; [by intros ? ? ?%elem_of_nil|]. intros [= Hn%negb_true_iff]. by exists bs.
  - split; [done|]. split; [by intros [= ->]|]. split; [done|].
    intros [= Hn%negb_true_iff]. exists bs. by rewrite Hdefs, <-Hfst.
Qed.

(** The exports of a file: [exports] never panics, and lists for each name
    the rows live at the end of the file, which are definitions of that name in
    the file scope, never none; [export] answers one name with the same rows. A
    name that is surely bound ([export_is_bound]) and the rows of a name come
    from the same final bindings. *)
Theorem exports_agree ix :
  index_wf ix →
  ∃ e, exports ix = Some e ∧ ∀ name,
    export ix name = Some (default [] (e !! name)) ∧ e !! name ≠ Some [] ∧
    (∀ id def, (id, def) ∈ default [] (e !! name) →
       ix_def_named ix 0 id name ∧ (d ← ix_definitions ix !! 0; d !! id) = Some def) ∧
    (export_is_bound ix name = Some true →
       ∃ bs, final_bindings_of ix (default SymbolTable.new (ix_symbol_tables ix !! 0)) name = Some bs ∧
         may_be_unbound bs = false ∧ (default [] (e !! name)).*1 = definitions bs).
Proof. apply exports_spec. Qed.

(** The definition at an offset: the query answers without panic for the
    innermost scope at the offset, with the first definition of that scope whose
    range contains it, and with nothing only if none does. *)
Theorem definition_at_innermost ix offset :
  index_wf ix →
  ∃ s d, innermost (ix_scopes ix) offset s ∧ ix_definitions ix !! s = Some d ∧
  match definition_at ix offset with
  | None => False
  | Some None => ∀ id def, d !! id = Some def → range_contains (def_range def) offset = false
  | Some (Some (s', id, def)) => s' = s ∧ d !! id = Some def ∧
      range_contains (def_range def) offset = true ∧
      ∀ j def', j < id → d !! j = Some def' → range_contains (def_range def') offset = false
  end.
Proof.
  intros Hix. destruct (scope_at_ix ix offset Hix) as (s & Hs & Hin & Hlt).
  destruct (ix_scope_tables _ _ Hix Hlt) as (t & d & us & m & _ & Hd & _).
  exists s, d. split; [done|]. split; [done|].
  unfold definition_at. rewrite Hs. unfold IndexVec.index. simpl. rewrite Hd. simpl.
  pose proof (index_contains_spec (λ x, range_contains (def_range x) offset) d) as Hc.
  by destruct (IndexVec.contains _ d) as [[id def]|].
Qed.

(** The use at an offset, likewise. *)
Theorem use_at_innermost ix offset :
  index_wf ix →
  ∃ s us, innermost (ix_scopes ix) offset s ∧ ix_uses ix !! s = Some us ∧
  match use_at ix offset with
  | None => False
  | Some None => ∀ id use, us !! id = Some use → range_contains (use_range use) offset = false
  | Some (Some (s', id, use)) => s' = s ∧ us !! id = Some use ∧
      range_contains (use_range use) offset = true ∧
      ∀ j use', j < id → us !! j = Some use' → range_contains (use_range use') offset = false
  end.
Proof.
  intros Hix. destruct (scope_at_ix ix offset Hix) as (s & Hs & Hin & Hlt).
  destruct (ix_scope_tables _ _ Hix Hlt) as (t & d & us & m & _ & _ & Hu & _).
  exists s, us. split; [done|]. split; [done|].
  unfold use_at. rewrite Hs. unfold IndexVec.index. simpl. rewrite Hu. simpl.
  pose proof (index_contains_spec (λ x, range_contains (use_range x) offset) us) as Hc.
  by destruct (IndexVec.contains _ us) as [[id use]|].
Qed.

(** [uses_of] lists exactly the uses of the name, in all scopes, each with
    its scope and identifier. *)
Theorem uses_of_exact ix name :
  index_wf ix →
  ∃ l, uses_of ix name = Some l ∧ ∀ s k use,
    (s, k, use) ∈ l ↔
    (us ← ix_uses ix !! s; us !! k) = Some use ∧ ix_use_named ix s k name.
Proof.
  intros Hix. destruct (uses_of_lists ix name Hix) as (per & Hper & HF).
  exists (concat per). unfold uses_of. rewrite Hper. split; [done|]. intros s k use.
  rewrite list_elem_of_In, in_concat. split.
  - intros (l & Hl%list_elem_of_In & Hin%list_elem_of_In).
    apply (Forall2_elem_r _ _ _ _ HF) in Hl as ([s' sc] & _ & Hs'). by apply Hs' in Hin as [-> ?].
  - intros [Huse Hn]. assert (Hus := Huse). apply bind_Some in Hus as (us & Hus & _).
    apply (ix_use_lt _ _ _ Hix) in Hus as [sc Hsc]%lookup_lt_is_Some.
    destruct (Forall2_elem_l _ _ _ (s, sc) HF) as (l & Hl & Hs'); [by apply IndexVec.iter_elem_of|].
    exists l. split; [by apply list_elem_of_In|]. apply list_elem_of_In, Hs'. done.
Qed.

(** [attached_packages] lists the packages of the file's [library()] calls
    that run while the file is sourced, those no lazy scope encloses, in the
    order of the calls. The scope of every call is found without panic. *)
Theorem attached_packages_eager ix :
  index_wf ix →
  ∃ eager : nat → bool,
    (∀ s, s < length (ix_scopes ix) → eager s = true ↔ eager_scope ix s) ∧
    attached_packages ix =
      Some (omap attach_package (List.filter (λ c, eager (call_scope c)) (ix_semantic_calls ix))).
Proof.
  intros Hix. exists (λ s, default false (scope_is_eager ix s)). split.
  - intros s Hs. by destruct (scope_is_eager_spec ix s Hix Hs) as (e & -> & He).
  - unfold attached_packages.
    destruct (mapM_total (λ call, e ← scope_is_eager ix (call_scope call); Some (call, e))
      (λ c p, p = (c, default false (scope_is_eager ix (call_scope c)))) (ix_semantic_calls ix))
      as (l & Hl & HF).
    { intros c Hc. destruct (scope_is_eager_spec ix _ Hix (iw_calls _ Hix c Hc)) as (e & -> & _). eauto. }
    rewrite Hl. simpl. f_equal. clear Hl. induction HF as [|c p cs l -> _ IH]; [done|].
    cbn [List.filter]. destruct (default false _); csimpl; by rewrite IH.
Qed.

(** [child_scope_ids] walks the arena from one child to the next over the
    child's descendants, and still lists exactly the scopes whose parent is the
    given one, in source order; it ends and does not panic. *)
Theorem child_scope_ids_exact ix i si :
  index_wf ix → ix_scopes ix !! i = Some si →
  ∃ l, child_scope_ids (ix_scopes ix) i = Some l ∧ StronglySorted lt l ∧
    ∀ j, j ∈ l ↔ ∃ sj, ix_scopes ix !! j = Some sj ∧ scope_parent sj = Some i.
Proof. intros Hix. apply child_scope_ids_spec, Hix. Qed.

(** [scope_at] ends in a scope all of whose ancestors (the file scope apart)
    contain the offset and none of whose children does. When source ranges nest,
    every scope around the offset is that scope or an ancestor of it: the answer
    is the innermost. *)
Theorem scope_at_innermost ix offset :
  index_wf ix →
  ∃ id, scope_at (ix_scopes ix) offset = Some id ∧ innermost (ix_scopes ix) offset id ∧
    (ranges_nest (ix_scopes ix) → ∀ j, covers_offset (ix_scopes ix) offset j →
       ∃ l, chain (ix_scopes ix) (Some id) l ∧ j ∈ l).
Proof.
  intros Hix. destruct (scope_at_ix ix offset Hix) as (id & Hid & Hin & _).
  exists id. split; [done|]. split; [done|]. intros Hr. by apply innermost_unique; [apply Hix| |].
Qed.

(** Entering and leaving a scope: [push_scope] allocates the new scope after
    every scope there is, as a child of the current one, and makes it current;
    whatever is pushed while it is open, [pop_scope] closes it with exactly the
    scopes allocated since as its descendants and goes back to its parent. Both
    keep the preorder invariant the range queries rely on. *)
Theorem push_pop_preorder scopes open current kind range :
  ScopeTree.preorder scopes open → chain scopes (Some current) open → kind ≠ KFile →
  (N.of_nat (length scopes) < IndexVec.MAX)%N →
  ∃ s1, push_scope_arena kind range scopes current = Some (s1, length scopes) ∧
    take (length scopes) s1 = scopes ∧
    (∃ s, s1 !! length scopes = Some s ∧ scope_parent s = Some current ∧ scope_kind s = kind) ∧
    ScopeTree.preorder s1 (length scopes :: open) ∧
    ∀ s2, ScopeTree.preorder s2 (length scopes :: open) →
      chain s2 (Some (length scopes)) (length scopes :: open) →
      (N.of_nat (length s2) ≤ IndexVec.MAX)%N →
      ∃ s3 s parent, pop_scope_arena (length scopes) s2 = Some (s3, parent) ∧
        s3 !! length scopes = Some s ∧ scope_parent s = Some parent ∧
        descendants_start s = S (length scopes) ∧ descendants_end s = length s2 ∧
        ScopeTree.preorder s3 open ∧ chain s3 (Some parent) open.
Proof.
  intros Hpo Hc Hk Hcap.
  destruct (push_scope_arena_spec kind range _ _ _ Hpo Hc Hk Hcap) as (s1 & Hpush & -> & Hpo1 & Hc1).
  eexists; split; [exact Hpush|]. split; [by rewrite take_app_length|].
  split; [eexists; split; [by rewrite lookup_app_r, Nat.sub_diag|done]|]. split; [done|].
  intros s2 Hpo2 Hc2 Hcap2.
  destruct (pop_scope_arena_spec s2 (length scopes) open) as
    (s3 & s & parent & Hpop & Hs & Hp & -> & Hpo3 & Hc3); [done|done| |done|].
  { intros ->. inversion Hc. }
  eexists _, (set_descendants_end (length s2) s), parent. split; [exact Hpop|].
  destruct (po_range _ _ Hpo2 _ _ Hs) as [Hst _].
  rewrite list_lookup_insert_eq by by eapply lookup_lt_Some. done.
Qed.
End theorems.

(** ** Witnesses *)

(** The index of [program_closure]. *)
Definition closure_ix : SemanticIndex := sample program_closure.

Lemma closure_wf : index_wf closure_ix.
Proof. apply sample_wf. by vm_compute. Qed.

Lemma closure_use : ix_use_named closure_ix 1 0 "x".
Proof.
  exists (default [] (ix_uses closure_ix !! 1)),
    (default (mkUse 0 (at_ 0 0)) (default [] (ix_uses closure_ix !! 1) !! 0)).
  split; [apply some_default; by vm_compute|]. split; [apply some_default; by vm_compute|].
  assert (use_symbol (default (mkUse 0 (at_ 0 0)) (default [] (ix_uses closure_ix !! 1) !! 0)) = 0)
    as -> by by vm_compute.
  exists (default SymbolTable.new (ix_symbol_tables closure_ix !! 1)),
    (default (mkSymbol "" SymbolFlags.empty)
       (symbols (default SymbolTable.new (ix_symbol_tables closure_ix !! 1)) !! 0)).
  split; [apply some_default; by vm_compute|]. split; [apply some_default; by vm_compute|].
  by vm_compute.
Qed.

Lemma build_index_total_witness :
  match build_index 100 program_closure (at_ 0 1000) with
  | Done ix _ => index_wf ix
  | Panicked b => arena_full b
  | OutOfFuel => False
  end.
Proof.
  apply (build_index_total program_closure (at_ 0 1000) 100);
    [reflexivity|apply own_ranges_sound; by vm_compute|by apply (bool_decide_unpack _); vm_compute].
Defined.

Lemma build_fuel_irrelevant_witness :
  build_index 100 program_closure (at_ 0 1000) = build_index 200 program_closure (at_ 0 1000).
Proof.
  apply (build_fuel_irrelevant program_closure (at_ 0 1000) 100 200);
    [reflexivity|apply own_ranges_sound; by vm_compute|by apply (bool_decide_unpack _); vm_compute..].
Defined.

Lemma reaching_definitions_sound_witness : ∃ l defs,
  chain (ix_scopes closure_ix) (Some 1) l ∧ reaching_definitions closure_ix 1 0 = Some defs ∧
  ∀ a x, (a, x) ∈ defs → a ∈ l ∧ ix_def_named closure_ix a x "x".
Proof. exact (reaching_definitions_sound closure_ix 1 0 "x" closure_wf closure_use). Defined.

Lemma reaching_bindings_stop_witness : ∃ local ch n, let all := (1, local) :: ch in
  (m ← ix_use_def_maps closure_ix !! 1; UseDefMap.bindings_at_use 0 m) = Some local ∧
  enclosing_bindings_chain closure_ix 1 0 = Some ch ∧
  reaching_bindings closure_ix 1 0 = Some (take (S n) all) ∧
  (∀ j a bs, all !! j = Some (a, bs) → j < n → may_be_unbound bs = true) ∧
  (S n < length all → ∃ a bs, all !! n = Some (a, bs) ∧ may_be_unbound bs = false) ∧
  use_is_bound closure_ix 1 0 = Some (existsb (λ '(_, bs), negb (may_be_unbound bs)) all).
Proof. exact (reaching_bindings_stop closure_ix 1 0 "x" closure_wf closure_use). Defined.

Lemma resolve_innermost_witness : ∃ l, chain (ix_scopes closure_ix) (Some 1) l ∧
  match resolve closure_ix "x" 1 with
  | None => False
  | Some None => ∀ a, a ∈ l → ¬ binds closure_ix a "x"
  | Some (Some (a, id, def)) =>
      ∃ inner outer, l = inner ++ a :: outer ∧ (∀ a', a' ∈ inner → ¬ binds closure_ix a' "x") ∧
        binds closure_ix a "x" ∧ first_row closure_ix a id "x" def
  end.
Proof.
  refine (resolve_innermost closure_ix "x" 1 closure_wf _). apply (bool_decide_unpack _). by vm_compute.
Defined.

Lemma exports_agree_witness : ∃ e, exports closure_ix = Some e ∧ ∀ name,
  export closure_ix name = Some (default [] (e !! name)) ∧ e !! name ≠ Some [] ∧
  (∀ id def, (id, def) ∈ default [] (e !! name) →
     ix_def_named closure_ix 0 id name ∧
     (d ← ix_definitions closure_ix !! 0; d !! id) = Some def) ∧
  (export_is_bound closure_ix name = Some true →
     ∃ bs, final_bindings_of closure_ix
         (default SymbolTable.new (ix_symbol_tables closure_ix !! 0)) name = Some bs ∧
       may_be_unbound bs = false ∧ (default [] (e !! name)).*1 = definitions bs).
Proof. exact (exports_agree closure_ix closure_wf). Defined.

Lemma definition_at_innermost_witness : ∃ s d,
  innermost (ix_scopes closure_ix) 40 s ∧ ix_definitions closure_ix !! s = Some d ∧
  match definition_at closure_ix 40 with
  | None => False
  | Some None => ∀ id def, d !! id = Some def → range_contains (def_range def) 40 = false
  | Some (Some (s', id, def)) => s' = s ∧ d !! id = Some def ∧
      range_contains (def_range def) 40 = true ∧
      ∀ j def', j < id → d !! j = Some def' → range_contains (def_range def') 40 = false
  end.
Proof. exact (definition_at_innermost closure_ix 40 closure_wf). Defined.

Lemma use_at_innermost_witness : ∃ s us,
  innermost (ix_scopes closure_ix) 28 s ∧ ix_uses closure_ix !! s = Some us ∧
  match use_at closure_ix 28 with
  | None => False
  | Some None => ∀ id use, us !! id = Some use → range_contains (use_range use) 28 = false
  | Some (Some (s', id, use)) => s' = s ∧ us !! id = Some use ∧
      range_contains (use_range use) 28 = true ∧
      ∀ j use', j < id → us !! j = Some use' → range_contains (use_range use') 28 = false
  end.
Proof. exact (use_at_innermost closure_ix 28 closure_wf). Defined.

Lemma uses_of_exact_witness : ∃ l, uses_of closure_ix "x" = Some l ∧ ∀ s k use,
  (s, k, use) ∈ l ↔
  (us ← ix_uses closure_ix !! s; us !! k) = Some use ∧ ix_use_named closure_ix s k "x".
Proof. exact (uses_of_exact closure_ix "x" closure_wf). Defined.

(** [library(rlang); function() library(shiny)]. *)
Definition program_attach : list expr := [
  call_ 0 14 "library" [id_ 8 "rlang"];
  fun_ 20 30 (call_ 31 14 "library" [id_ 39 "shiny"])].

Lemma attached_packages_eager_witness :
  attached_packages (sample program_attach) = Some ["rlang"%string] ∧
  ∃ eager : nat → bool,
    (∀ s, s < length (ix_scopes (sample program_attach)) →
       eager s = true ↔ eager_scope (sample program_attach) s) ∧
    attached_packages (sample program_attach) =
      Some (omap attach_package
        (List.filter (λ c, eager (call_scope c)) (ix_semantic_calls (sample program_attach)))).
Proof.
  split; [by vm_compute|]. apply (attached_packages_eager (sample program_attach)).
  apply sample_wf. by vm_compute.
Defined.

Lemma child_scope_ids_exact_witness : ∃ l,
  child_scope_ids (ix_scopes closure_ix) 0 = Some l ∧ StronglySorted lt l ∧
  ∀ j, j ∈ l ↔ ∃ sj, ix_scopes closure_ix !! j = Some sj ∧ scope_parent sj = Some 0.
Proof.
  apply (child_scope_ids_exact closure_ix 0
    (default (mkScope _ None KFile (at_ 0 0) 0 0) (ix_scopes closure_ix !! 0)));
    [exact closure_wf|apply some_default; by vm_compute].
Defined.

Lemma scope_at_innermost_witness : ∃ id,
  scope_at (ix_scopes closure_ix) 28 = Some id ∧ innermost (ix_scopes closure_ix) 28 id ∧
  (ranges_nest (ix_scopes closure_ix) → ∀ j, covers_offset (ix_scopes closure_ix) 28 j →
     ∃ l, chain (ix_scopes closure_ix) (Some id) l ∧ j ∈ l).
Proof. exact (scope_at_innermost closure_ix 28 closure_wf). Defined.

Lemma push_pop_preorder_witness : ∃ s1,
  push_scope_arena KFunction (at_ 5 10) [mkScope _ None KFile (at_ 0 99) 1 1] 0 = Some (s1, 1) ∧
  take 1 s1 = [mkScope _ None KFile (at_ 0 99) 1 1].
Proof.
  destruct (push_pop_preorder [mkScope _ None KFile (at_ 0 99) 1 1] [0] 0 KFunction (at_ 5 10))
    as (s1 & Hpush & Htake & _).
  - by apply preorder_single.
  - by apply preorder_single.
  - done.
  - by apply (bool_decide_unpack _); vm_compute.
  - exists s1. split; [exact Hpush|exact Htake].
Defined.
