(* ===== verification/CallTheorems.v ===== *)
(** * Calls: matching their arguments, finding their handlers, and what a
    sourced file sees

    Theorems about [match_arguments], with its specification, the registry's
    index, symbol interning and the timeline of top-level bindings; then two
    behaviours of the index that its comments do not promise. *)

From S2P Require Export Effects Annotations IndexTheorems.

(** The tables agree: a formal is consumed when some argument has it, and no
    two arguments have the same. *)
Record tables_wf (n args : nat) (matched : list (option nat)) (consumed : list bool) : Prop := {
  tw_args : length matched = args;
  tw_formals : length consumed = n;
  tw_consumed f : consumed !! f = Some true ↔ ∃ i, matched !! i = Some (Some f);
  tw_once i j f : matched !! i = Some (Some f) → matched !! j = Some (Some f) → i = j;
}.

Lemma tables_new n args : tables_wf n args (replicate args None) (replicate n false).
Proof.
  split; [apply length_replicate..| |].
  - intros f. rewrite lookup_replicate. split; [naive_solver|]. intros (i & Hi%lookup_replicate). naive_solver.
  - intros i j f Hi%lookup_replicate. naive_solver.
Qed.

(** A free formal is given to an argument without one. *)
Lemma tables_give n args matched consumed i f :
  tables_wf n args matched consumed → matched !! i = Some None → consumed !! f = Some false →
  tables_wf n args (<[i := Some f]> matched) (<[f := true]> consumed).
Proof.
  intros [Ha Hn Hc Ho] Hi Hf.
  assert (Hfree : ∀ j, matched !! j ≠ Some (Some f)).
  { intros j Hj. assert (consumed !! f = Some true) by (apply Hc; eauto). congruence. }
  apply lookup_lt_Some in Hf as Hlt. apply lookup_lt_Some in Hi as Hil.
  split; rewrite ?length_insert; try done.
  - intros g. rewrite list_lookup_insert_Some. split.
    + intros [(<- & _ & _)|[Hne Hg]].
      * exists i. by rewrite list_lookup_insert_eq.
      * apply Hc in Hg as [j Hj]. exists j. rewrite list_lookup_insert_ne; [done|]. intros ->. congruence.
    + intros [j [(<- & [= <-] & _)|[Hne Hj]]%list_lookup_insert_Some]; [by left|]. right.
      split; [intros <-; by eapply Hfree|]. apply Hc. eauto.
  - intros j k g [(<- & [= <-] & _)|[Hj Hjg]]%list_lookup_insert_Some
      [(<- & ? & _)|[Hk Hkg]]%list_lookup_insert_Some; simplify_eq; try done.
    + by destruct (Hfree k).
    + by destruct (Hfree j).
    + by eapply Ho.
Qed.

Section matching.
Context `{TextRanges}.
Context (formals : Formals) (all : list (option (RArgument expr))).

(** Argument [k] names formal [f]; argument [k] is given by position. *)
Definition names_formal (k f : nat) : Prop :=
  ∃ arg, all !! k = Some (Some arg) ∧ match_named arg formals = Some f.
Definition unnamed (k : nat) : Prop := ∃ v, all !! k = Some (Some (mkArgument None v)).

Lemma match_named_lt arg f : match_named arg formals = Some f → f < length formals.
Proof.
  unfold match_named. intros (clause & _ & Hm)%bind_Some. apply bind_Some in Hm as (name & _ & Hp).
  by eapply position_bound.
Qed.

Lemma names_not_unnamed k f : names_formal k f → ¬ unnamed k.
Proof. intros (arg & Hk & Hf) [v Hv]. by simplify_eq. Qed.

(** ** The named loop *)

Lemma named_loop_spec l i matched consumed :
  drop i all = l → i + length l = length all →
  tables_wf (length formals) (length all) matched consumed →
  (∀ k f, matched !! k = Some (Some f) ↔ k < i ∧ names_formal k f) →
  match match_named_loop formals i l matched consumed with
  | None => ∃ j k f, j ≠ k ∧ names_formal j f ∧ names_formal k f
  | Some (matched', consumed') =>
      tables_wf (length formals) (length all) matched' consumed' ∧
      ∀ k f, matched' !! k = Some (Some f) ↔ names_formal k f
  end.
Proof.
  revert i matched consumed. induction l as [|item l IH]; intros i matched consumed Hl Hlen Hwf Hm; simpl in *.
  - split; [done|]. intros k f. rewrite Hm. split; [tauto|]. intros Hk. split; [|done].
    destruct Hk as (arg & Hk%lookup_lt_Some & _). lia.
  - assert (Hi : all !! i = Some item).
    { rewrite <-(Nat.add_0_r i), <-lookup_drop, Hl. done. }
    assert (Hdrop : drop (S i) all = l) by (by rewrite <-Nat.add_1_r, <-drop_drop, Hl).
    assert (Hitem : ∀ f, (item ≫= λ arg, match_named arg formals) = Some f ↔ names_formal i f).
    { intros f. split; [intros (arg & -> & Hf)%bind_Some; by exists arg|].
      intros (arg & Ha & Hf). simplify_eq. done. }
    destruct (item ≫= _) as [f|].
    + assert (Hf : names_formal i f) by by apply Hitem.
      assert (Hlt : f < length consumed).
      { destruct Hf as (arg & _ & Hf). rewrite (tw_formals _ _ _ _ Hwf). by eapply match_named_lt. }
      apply lookup_lt_is_Some in Hlt as [taken Ht]. rewrite Ht. simpl. destruct taken.
      * apply (tw_consumed _ _ _ _ Hwf) in Ht as [j Hj]. apply Hm in Hj as [? ?].
        exists j, i, f. split; [lia|done].
      * assert (Hnone : matched !! i = Some None).
        { destruct (lookup_lt_is_Some_2 matched i) as [[g|] Hg]; [|by apply Hm in Hg as [? _]; lia|done].
          rewrite (tw_args _ _ _ _ Hwf). lia. }
        apply IH; [done|lia|by apply tables_give|].
        intros k g. rewrite list_lookup_insert_Some, Hm. split.
        -- intros [(<- & [= <-] & _)|[_ [? ?]]]; (split; [lia|done]).
        -- intros [Hk Hg]. destruct (decide (i = k)) as [<-|]; [left|right; split; [done|split; [lia|done]]].
           apply Hitem in Hf. apply Hitem in Hg. apply lookup_lt_Some in Hnone. naive_solver.
    + apply IH; [done|lia|done|]. intros k f. rewrite Hm. split.
      * intros [? ?]. split; [lia|done].
      * intros [Hk Hf]. split; [|done]. destruct (decide (k = i)) as [->|]; [by apply Hitem in Hf|lia].
Qed.

(** ** The positional loop *)

Lemma skip_consumed_spec n consumed next :
  let next' := skip_consumed n consumed next in
  next ≤ next' ≤ next + n ∧ (∀ f, next ≤ f < next' → consumed !! f = Some true) ∧
  (next' < next + n → consumed !! next' ≠ Some true).
Proof.
  revert next. induction n as [|n IH]; intros next; simpl.
  - split; [lia|]. split; intros; lia.
  - destruct (consumed !! next) as [[]|] eqn:E; try (split; [lia|]; split; [intros; lia|congruence]).
    destruct (IH (S next)) as (? & Hall & Hlast). split; [lia|]. split; [|intros; apply Hlast; lia].
    intros f Hf. destruct (decide (f = next)) as [->|]; [done|]. apply Hall. lia.
Qed.

(** R's matching: named arguments get their formal; the others, in order, the
    formals before the dots that are left, until none is. *)
Record matched_spec (positional : nat) (matched : list (option nat)) : Prop := {
  ma_length : length matched = length all;
  ma_range k f : matched !! k = Some (Some f) → f < length formals;
  ma_once i j f : matched !! i = Some (Some f) → matched !! j = Some (Some f) → i = j;
  ma_named k f : names_formal k f → matched !! k = Some (Some f);
  ma_only k f : matched !! k = Some (Some f) → names_formal k f ∨ unnamed k ∧ f < positional;
  ma_order i j f g : i < j → unnamed i → unnamed j →
    matched !! i = Some (Some f) → matched !! j = Some (Some g) → f < g;
  ma_full i f : unnamed i → matched !! i = Some None → f < positional →
    ∃ j, matched !! j = Some (Some f) ∧ (unnamed j → j < i);
}.

(** Where the loop is: [next] is past every formal given by position. *)
Record positional_at (positional i next : nat) (matched : list (option nat))
    (consumed : list bool) : Prop := {
  pa_wf : tables_wf (length formals) (length all) matched consumed;
  pa_named k f : names_formal k f → matched !! k = Some (Some f);
  pa_only k f : matched !! k = Some (Some f) →
    names_formal k f ∨ unnamed k ∧ k < i ∧ f < positional ∧ f < next;
  pa_next : ∀ f, f < next → f < positional → consumed !! f = Some true;
  pa_order j k f g : j < k → unnamed j → unnamed k →
    matched !! j = Some (Some f) → matched !! k = Some (Some g) → f < g;
  pa_full j f : j < i → unnamed j → matched !! j = Some None → f < positional →
    ∃ k, matched !! k = Some (Some f) ∧ (unnamed k → k < j);
}.

Lemma positional_skip positional i next matched consumed :
  positional_at positional i next matched consumed → ¬ unnamed i →
  positional_at positional (S i) next matched consumed.
Proof.
  intros [W N O X R F] Hn. split; try done.
  - intros k f Hk. destruct (O k f Hk) as [?|(? & ? & ?)]; [by left|right]. split; [done|lia].
  - intros j f Hj Hu. apply F; [|done]. destruct (decide (j = i)) as [->|]; [done|lia].
Qed.

Lemma positional_loop_spec positional l i next matched consumed :
  positional ≤ length formals → drop i all = l → i + length l = length all →
  positional_at positional i next matched consumed →
  matched_spec positional (match_positional_loop positional i l matched consumed next).
Proof.
  intros Hpos. revert i next matched consumed.
  induction l as [|item l IH]; intros i next matched consumed Hl Hlen Hat; simpl in *.
  - destruct Hat as [[W1 W2 W3 W4] N O X R F]. split; try done.
    + intros k f Hk. rewrite <-W2. eapply lookup_lt_Some, W3. eauto.
    + intros k f Hk. destruct (O k f Hk) as [?|(? & ? & ? & ?)]; [by left|by right].
    + intros j f Hu Hj Hf. apply F; [|done..]. destruct Hu as [v Hv%lookup_lt_Some]. lia.
  - assert (Hi : all !! i = Some item) by (by rewrite <-(Nat.add_0_r i), <-lookup_drop, Hl).
    assert (Hdrop : drop (S i) all = l) by (by rewrite <-Nat.add_1_r, <-drop_drop, Hl).
    assert (Hskip : ¬ unnamed i → matched_spec positional
      (match_positional_loop positional (S i) l matched consumed next)).
    { intros Hn. apply IH; [done|lia|]. by apply positional_skip. }
    destruct item as [[[clause|] v]|]; [apply Hskip; intros [w Hw]; by simplify_eq| |
      apply Hskip; intros [w Hw]; by simplify_eq].
    clear Hskip. assert (Hu : unnamed i) by (by exists v).
    assert (Hnone : matched !! i = Some None).
    { destruct (lookup_lt_is_Some_2 matched i) as [[g|] Hg]; [|exfalso|done].
      - rewrite (tw_args _ _ _ _ (pa_wf _ _ _ _ _ Hat)). lia.
      - destruct (pa_only _ _ _ _ _ Hat _ _ Hg) as [Hn|(_ & ? & _)]; [by eapply names_not_unnamed|lia]. }
    destruct (skip_consumed_spec (positional - next) consumed next) as (Hle & Hall & Hlast).
    set (next' := skip_consumed _ _ _) in *. destruct Hat as [W N O X R F].
    assert (X' : ∀ f, f < next' → f < positional → consumed !! f = Some true).
    { intros f Hf Hfp. destruct (decide (f < next)); [by apply X|apply Hall; lia]. }
    case_decide as Hlt.
    + assert (Hfree : consumed !! next' = Some false).
      { destruct (lookup_lt_is_Some_2 consumed next') as [[] Hc]; [| |done].
        - rewrite (tw_formals _ _ _ _ W). lia.
        - by destruct Hlast; [lia|]. }
      apply IH; [done|lia|]. split.
      * by apply tables_give.
      * intros k f Hk. rewrite list_lookup_insert_ne; [by apply N|]. intros ->. by eapply names_not_unnamed.
      * intros k f [(<- & [= <-] & _)|[Hne Hk]]%list_lookup_insert_Some; [right; repeat split; [done|lia..]|].
        destruct (O k f Hk) as [?|(? & ? & ? & ?)]; [by left|right]. repeat split; [done|lia..].
      * intros f Hf Hfp. destruct (decide (f = next')) as [->|].
        -- apply list_lookup_insert_eq. by eapply lookup_lt_Some.
        -- rewrite list_lookup_insert_ne by done. apply X'; lia.
      * intros j k f g Hjk Hj Hk [(<- & [= <-] & _)|[? Hjf]]%list_lookup_insert_Some
          [(<- & Hg & _)|[? Hkg]]%list_lookup_insert_Some; simplify_eq; [lia| | |by eapply R].
        -- destruct (O k g Hkg) as [?|(_ & ? & _)]; [by destruct (names_not_unnamed k g)|lia].
        -- destruct (O j f Hjf) as [?|(_ & _ & _ & ?)]; [by destruct (names_not_unnamed j f)|lia].
      * intros j f Hj Huj [(_ & Hn & _)|[Hne Hjn]]%list_lookup_insert_Some Hf; [done|].
        destruct (F j f) as (k & Hk & Hkj); [lia|done..|]. exists k. split; [|done].
        rewrite list_lookup_insert_ne; [done|]. intros <-. congruence.
    + apply IH; [done|lia|]. split; try done.
      * intros k f Hk. destruct (O k f Hk) as [?|(? & ? & ? & ?)]; [by left|right]. repeat split; [done|lia..].
      * intros j f Hj Huj Hjn Hf. destruct (decide (j = i)) as [->|]; [|apply F; [lia|done..]].
        destruct (proj1 (tw_consumed _ _ _ _ W f)) as [k Hk]; [apply X'; lia|].
        exists k. split; [done|]. intros Huk.
        destruct (O k f Hk) as [?|(_ & ? & _)]; [by destruct (names_not_unnamed k f)|done].
Qed.
End matching.

(** ** The index of the registry *)

Section registry.
Context `{TextRanges, Urls, !HandlerTypes}.

(** The bucket of a function name lists its entries in order. *)
Lemma index_entries (entries : list (string * (string * FunctionHandlers))) function :
  foldl (λ index '(function, entry),
    <[function := default [] (index !! function) ++ [entry]]> index)
    (∅ : gmap string (list (string * FunctionHandlers))) entries !! function =
  match filter (λ e, e.1 = function) entries with [] => None | l => Some (snd <$> l) end.
Proof.
  induction entries as [|[f e] entries IH] using rev_ind; [done|].
  rewrite foldl_app, filter_app. simpl. destruct (decide (f = function)) as [->|Hne].
  - rewrite lookup_insert_eq, IH, filter_cons_True by done. simpl.
    destruct (filter _ entries) as [|e0 l]; simpl; [done|]. by rewrite fmap_app.
  - rewrite lookup_insert_ne, IH, filter_cons_False by done. simpl. by rewrite app_nil_r.
Qed.
End registry.

(** ** The order of ranges *)

Lemma key_le_total k1 k2 : key_le k1 k2 = true ∨ key_le k2 k1 = true.
Proof.
  unfold key_le. rewrite !orb_true_iff, !andb_true_iff, !bool_decide_eq_true.
  destruct k1, k2; simpl. lia.
Qed.

Lemma key_le_trans k1 k2 k3 : key_le k1 k2 = true → key_le k2 k3 = true → key_le k1 k3 = true.
Proof.
  unfold key_le. rewrite !orb_true_iff, !andb_true_iff, !bool_decide_eq_true.
  destruct k1, k2, k3; simpl. lia.
Qed.

Section theorems.
Context `{TextRanges, Urls, !HandlerTypes}.

(** Argument matching is R's, without partial names: it fails exactly when
    two arguments name one formal; otherwise every argument gets at most one
    formal and every formal at most one argument, a named argument gets its
    formal, and the unnamed ones get, in order, the formals before the dots that
    no name claims, until there is none left. *)
Theorem match_arguments_spec call formals all :
  call_arguments call = Some all →
  match match_arguments call formals with
  | None => ∃ j k f, j ≠ k ∧ names_formal formals all j f ∧ names_formal formals all k f
  | Some matched => matched_spec formals all
      (default (length formals) (position (λ formal, formal = "..."%string) formals)) matched
  end.
Proof.
  intros Hall. unfold match_arguments. rewrite Hall. simpl.
  pose proof (named_loop_spec formals all all 0 (replicate (length all) None)
    (replicate (length formals) false)) as Hn.
  specialize (Hn eq_refl eq_refl (tables_new _ _)).
  destruct (match_named_loop formals 0 all _ _) as [[matched consumed]|]; simpl.
  - destruct Hn as [Hwf Hm].
    { intros k f. split; [intros Hk%lookup_replicate; naive_solver|intros [? _]; lia]. }
    apply (positional_loop_spec formals all _ all 0); [|done|done|].
    + destruct (position _ formals) as [p|] eqn:Hp; simpl; [|done].
      apply position_bound in Hp. lia.
    + split; [done|by intros k f ?%Hm|intros k f ?%Hm; by left|intros; lia| |intros; lia].
      intros j k f g _ Hj _ Hjf%Hm. by destruct (names_not_unnamed _ _ _ _ Hjf).
  - apply Hn. intros k f. split; [intros Hk%lookup_replicate; naive_solver|intros [? _]; lia].
Qed.

(** Looking a function up in the registry's index answers what a search of
    the registry would: the handlers of the first entry with that package and
    function name, in registry order; and a name is annotated exactly when some
    package has an entry for it. *)
Theorem registry_lookup_first registry package function :
  lookup_handlers (build_INDEX registry) package function =
    (snd ∘ snd) <$> List.find (λ e, bool_decide (e.1 = function ∧ e.2.1 = package))
                      (registry_entries registry) ∧
  (index_annotates (build_INDEX registry) function = true ↔
     ∃ entry, (function, entry) ∈ registry_entries registry).
Proof.
  unfold lookup_handlers, index_annotates, build_INDEX. rewrite index_entries.
  set (entries := registry_entries registry). rewrite bool_decide_eq_true. split.
  - induction entries as [|[f [p h]] entries IH]; simpl; [done|].
    destruct (decide (f = function)) as [->|Hne].
    + rewrite filter_cons_True by done. simpl. case_bool_decide as Hp; simpl.
      * subst p. by rewrite bool_decide_eq_true_2.
      * rewrite bool_decide_eq_false_2 by tauto. rewrite <-IH. simpl.
        by destruct (filter _ entries).
    + rewrite filter_cons_False by done. rewrite bool_decide_eq_false_2 by tauto. exact IH.
  - destruct (filter _ entries) as [|[f e] l] eqn:E; simpl.
    + split; [by intros [? ?]|]. intros [entry Hin]. assert (Hf : (function, entry) ∈ filter (λ e, e.1 = function) entries)
        by (by apply list_elem_of_filter). rewrite E in Hf. by apply elem_of_nil in Hf.
    + split; [intros _|by eexists]. assert (Hf : (f, e) ∈ filter (λ e, e.1 = function) entries)
        by (rewrite E; by left). apply list_elem_of_filter in Hf as [Hf ?]. simpl in Hf. subst f. eauto.
Qed.

(** C40. Interning: the identifier it returns carries the name, in every table the
    identifiers and the names are in bijection, other symbols keep their
    identifier, name and flags, and the flags of the symbol itself gain the given
    ones without losing any; it fails only for a new name in a full table. *)
Theorem intern_keeps_names name flags t :
  SymbolTableFacts.wf t →
  match SymbolTable.intern name flags t with
  | Some (t', id) => SymbolTableFacts.wf t' ∧ SymbolTable.id t' name = Some id ∧
      (∀ name', name' ≠ name → SymbolTable.id t' name' = SymbolTable.id t name') ∧
      (∀ i, i ≠ id → symbols t' !! i = symbols t !! i) ∧
      ∃ s, symbols t' !! id = Some s ∧ symbol_name s = name ∧
        ∀ f, SymbolFlags.contains (symbol_flags s) f = true ↔
          SymbolFlags.contains (N.lor flags (from_option symbol_flags SymbolFlags.empty
            (symbols t !! id))) f = true
  | None => SymbolTable.id t name = None ∧ (IndexVec.MAX < N.of_nat (length (symbols t)))%N
  end.
Proof.
  intros Hwf. destruct (SymbolTable.intern name flags t) as [[t' id]|] eqn:E.
  - destruct (SymbolTableFacts.intern_spec _ _ _ _ _ Hwf E) as (Hwf' & Hby & _ & Hlt & Hnew & Hold).
    split; [done|]. unfold SymbolTable.id. rewrite Hby. split; [by rewrite lookup_insert_eq|].
    split; [intros; by rewrite lookup_insert_ne|]. split.
    + intros i Hi. destruct (symbols t !! i) as [s|] eqn:Hs.
      * destruct (Hold _ _ Hs) as (s' & Hs' & _). rewrite Hs'.
        destruct (Hnew _ _ Hs') as [[? _]|[? _]]; [congruence|done].
      * destruct (symbols t' !! i) as [s'|] eqn:Hs'; [|done].
        destruct (Hnew _ _ Hs') as [[? _]|[? _]]; [congruence|done].
    + destruct (lookup_lt_is_Some_2 _ _ Hlt) as [s Hs]. exists s. split; [done|].
      destruct (Hnew _ _ Hs) as [[_ ?]|(_ & Hn & Hf)]; [done|]. split; [done|]. intros f.
      destruct Hf as [[-> ->]|(s0 & -> & _ & ->)]; simpl.
      * unfold SymbolFlags.empty. by rewrite N.lor_0_r.
      * unfold SymbolFlags.insert. by rewrite N.lor_comm.
  - split; [|by eapply SymbolTableFacts.intern_None].
    destruct (SymbolTable.id t name) as [id|] eqn:Hid; [|done]. unfold SymbolTable.id in Hid.
    destruct (SymbolTableFacts.wf_name _ Hwf _ _ Hid) as (s & Hs & _).
    unfold SymbolTable.intern in E. rewrite Hid in E. unfold IndexVec.index_mut in E.
    by rewrite Hs in E.
Qed.

(** The timeline of top-level bindings: at the [source()] calls a file is
    sourced from, it sees exactly the names that were bound at one of them, by
    [contains] and by [names] alike; an offset where no call was recorded has no
    answer. Names are stored once, as bit sets of calls, whose ranks are [u32]s. *)
Theorem exports_at_sources_exact calls offsets :
  NoDup calls.*1 → (N.of_nat (length calls) ≤ 2 ^ 32)%N → offsets ≠ [] →
  let '(timeline, ranks) := Timeline.finish (Timeline.record_all calls) in
  match Timeline.exports_at_sources timeline ranks offsets with
  | Some e => (∀ o, o ∈ offsets → o ∈ calls.*1) ∧ ∀ name,
      (Timeline.contains e name = true ↔
         ∃ o names, o ∈ offsets ∧ (o, names) ∈ calls ∧ name ∈ names) ∧
      (name ∈ Timeline.names e ↔ Timeline.contains e name = true)
  | None => ∃ o, o ∈ offsets ∧ o ∉ calls.*1
  end.
Proof.
  intros Hnd Hlen Hne. destruct (Timeline.record_all_ok calls Hnd Hlen) as [_ Hranks Hvis].
  simpl. set (t := Timeline.record_all calls) in *. unfold Timeline.exports_at_sources.
  destruct offsets as [|o0 offsets0]; [done|]. set (offsets := o0 :: offsets0) in *. clear Hne.
  destruct (mapM _ offsets) as [rs|] eqn:Hm; simpl.
  - apply mapM_Some in Hm. split.
    + intros o Ho. destruct (Forall2_elem_l _ _ _ _ Hm Ho) as (r & _ & Hr).
      apply Hranks in Hr as (i & bound & _ & Hi). apply list_elem_of_fmap. exists (o, bound).
      split; [done|by eapply list_elem_of_lookup_2].
    + intros name. split; [|apply Timeline.exports_names].
      rewrite Timeline.exports_contains. simpl. split.
      * intros (r & Hr & Hv). destruct (Forall2_elem_r _ _ _ _ Hm Hr) as (o & Ho & Hor).
        apply Hvis in Hv as (i & o' & names & -> & Hi & Hin).
        apply Hranks in Hor as (i' & names' & Heq & Hi'). assert (i = i') as <- by lia. simplify_eq.
        exists o', names. split; [done|]. split; [by eapply list_elem_of_lookup_2|done].
      * intros (o & names & Ho & [i Hi]%list_elem_of_lookup_1 & Hin).
        destruct (Forall2_elem_l _ _ _ _ Hm Ho) as (r & Hr & Hor). exists r. split; [done|].
        apply Hranks in Hor as (j & names' & -> & Hj). apply Hvis.
        assert (j = i) as -> by (eapply (NoDup_lookup calls.*1);
          [done|by rewrite list_lookup_fmap, Hj|by rewrite list_lookup_fmap, Hi]).
        exists i, o, names. done.
  - apply mapM_None, Exists_exists in Hm as (o & Ho & Hn). exists o. split; [done|].
    intros ([o' names] & -> & [i Hi]%list_elem_of_lookup_1)%list_elem_of_fmap.
    assert (ranks t !! o' = Some (N.of_nat i)) by (apply Hranks; eauto). simpl in Hn. congruence.
Qed.

(** The callee dependencies of a finished index are those the builder
    recorded, none lost or doubled, in the order of their ranges; dependencies on
    one range stay in the order they were recorded in. *)
Theorem callee_dependencies_sorted b ix :
  finish b = Some ix →
  ix_callee_dependencies ix ≡ₚ callee_dependencies b ∧
  StronglySorted (key_lte key_le dep_key) (ix_callee_dependencies ix) ∧
  ∀ k, filter (λ d, dep_key d = k) (ix_callee_dependencies ix) =
       filter (λ d, dep_key d = k) (callee_dependencies b).
Proof.
  unfold finish. intros Hf. repeat (apply bind_Some in Hf as (? & _ & Hf)).
  injection Hf as <-. apply sort_by_key_spec; [apply key_le_total|apply key_le_trans].
Qed.
End theorems.

(** ** Witnesses *)

(** [f(2, x = 1, 3)] against the formals [x, y, ...]. *)
Definition matched_call : expr :=
  RCall (Some (id_ 0 "f")) (Some [
    Some (mkArgument None (Some (num_ 2)));
    Some (mkArgument (Some (Some "x"%string)) (Some (num_ 9)));
    Some (mkArgument None (Some (num_ 12)))]) (at_ 0 14).

Lemma match_arguments_spec_witness :
  match_arguments matched_call ["x"; "y"; "..."]%string = Some [Some 1; Some 0; None] ∧
  match match_arguments matched_call ["x"; "y"; "..."]%string with
  | None => ∃ j k f, j ≠ k ∧
      names_formal ["x"; "y"; "..."]%string (default [] (call_arguments matched_call)) j f ∧
      names_formal ["x"; "y"; "..."]%string (default [] (call_arguments matched_call)) k f
  | Some matched =>
      matched_spec ["x"; "y"; "..."]%string (default [] (call_arguments matched_call)) 2 matched
  end.
Proof.
  split; [by vm_compute|]. exact (match_arguments_spec matched_call ["x"; "y"; "..."]%string _ eq_refl).
Defined.

Lemma intern_keeps_names_witness :
  match SymbolTable.intern "x" SymbolFlags.IS_USED SymbolTable.new with
  | Some (t', id) => SymbolTableFacts.wf t' ∧ SymbolTable.id t' "x" = Some id ∧
      (∀ name', name' ≠ "x"%string → SymbolTable.id t' name' = SymbolTable.id SymbolTable.new name') ∧
      (∀ i, i ≠ id → symbols t' !! i = symbols SymbolTable.new !! i) ∧
      ∃ s, symbols t' !! id = Some s ∧ symbol_name s = "x"%string ∧
        ∀ f, SymbolFlags.contains (symbol_flags s) f = true ↔
          SymbolFlags.contains (N.lor SymbolFlags.IS_USED (from_option symbol_flags SymbolFlags.empty
            (symbols SymbolTable.new !! id))) f = true
  | None => SymbolTable.id SymbolTable.new "x" = None ∧
      (IndexVec.MAX < N.of_nat (length (symbols SymbolTable.new)))%N
  end.
Proof. exact (intern_keeps_names "x" SymbolFlags.IS_USED SymbolTable.new SymbolTableFacts.wf_table_new). Defined.

(** [x <- 1; source("a.R"); y <- 2; source("b.R")]. *)
Definition two_sources : list (N * list string) := [(10%N, ["x"]); (40%N, ["x"; "y"])]%string.

Lemma exports_at_sources_exact_witness :
  let '(timeline, ranks) := Timeline.finish (Timeline.record_all two_sources) in
  match Timeline.exports_at_sources timeline ranks [10%N] with
  | Some e => (∀ o, o ∈ [10%N] → o ∈ two_sources.*1) ∧ ∀ name,
      (Timeline.contains e name = true ↔
         ∃ o names, o ∈ [10%N] ∧ (o, names) ∈ two_sources ∧ name ∈ names) ∧
      (name ∈ Timeline.names e ↔ Timeline.contains e name = true)
  | None => ∃ o, o ∈ [10%N] ∧ o ∉ two_sources.*1
  end.
Proof.
  apply (exports_at_sources_exact two_sources [10%N]);
    [by apply (bool_decide_unpack _); vm_compute|by vm_compute|done].
Defined.

(** Two dependencies recorded against their order. *)
Definition two_dependencies : SemanticIndexBuilder :=
  push_callee_dependency (mkCalleeDependency "g" (at_ 5 3) UsageValue)
    (push_callee_dependency (mkCalleeDependency "f" (at_ 20 3) UsageEffects)
      (builder_new (at_ 0 30))).

Lemma callee_dependencies_sorted_witness : ∃ ix,
  finish two_dependencies = Some ix ∧
  ix_callee_dependencies ix ≡ₚ callee_dependencies two_dependencies ∧
  StronglySorted (key_lte key_le dep_key) (ix_callee_dependencies ix) ∧
  ∀ k, filter (λ d, dep_key d = k) (ix_callee_dependencies ix) =
       filter (λ d, dep_key d = k) (callee_dependencies two_dependencies).
Proof.
  eexists; split; [reflexivity|]. apply (callee_dependencies_sorted two_dependencies). reflexivity.
Defined.

#[local] Open Scope string_scope.

Definition scope_kinds (program : list expr) : option (list ScopeKind) :=
  (λ ix, scope_kind <$> ix_scopes ix) <$> index_of 100 program.

(** [library(shiny); reactive <- identity], then the given expression. *)
Definition shadowed_reactive (e : expr) : list expr := [
  call_ 0 14 "library" [id_ 8 "shiny"];
  RBinaryExpression assign_op (Some (RIdentifier "reactive" (at_ 20 8))) (Some (id_ 32 "identity"))
    (at_ 20 20);
  e].

(** [reactive({ y <- 1 })] in a function. *)
Definition reactive_function : expr :=
  fun_ 70 50 (call_ 81 30 "reactive" [braces_ 90 12 [set_ 92 6 "y" (num_ 97)]]).

(** A function given directly to [local()] forgets the names bound around it:
    its flow state, keyed by its range, is overwritten by the entry of the eager
    body with the same range, so a shadowed [reactive()] is taken for shiny's and
    opens a scope. Braces around the same function keep the name. *)
Theorem eager_function_body_forgets_bindings :
  scope_kinds (shadowed_reactive (call_ 60 62 "local" [reactive_function])) =
    Some [KFile; KNse EnvNested Eager; KFunction; KNse EnvNested Lazy] ∧
  scope_kinds (shadowed_reactive (call_ 60 64 "local" [braces_ 66 55 [reactive_function]])) =
    Some [KFile; KNse EnvNested Eager; KFunction].
Proof. split; vm_compute; reflexivity. Qed.

(** [f <- function() { x <<- 1; x <- 2 }]. *)
Definition program_marker : list expr := [
  set_ 0 60 "f" (fun_ 5 55 (braces_ 16 40 [
    super_set_ 18 7 "x" (num_ 24); set_ 30 6 "x" (num_ 35)]))].

(** [f <- function() { x <<- 1 }]. *)
Definition program_super : list expr := [
  set_ 0 60 "f" (fun_ 5 55 (braces_ 16 40 [super_set_ 18 7 "x" (num_ 24)]))].

(** Whether the symbols of scope 1 are bound, and the symbols of its rows. *)
Definition bound_and_rows (ix : SemanticIndex) : option (list bool * list nat) :=
  t ← IndexVec.index (ix_symbol_tables ix) 1;
  d ← IndexVec.index (ix_definitions ix) 1;
  Some (List.map (λ s, SymbolFlags.contains (symbol_flags s) SymbolFlags.IS_BOUND) (symbols t),
        List.map def_symbol d).

Definition is_marker (def : Definition_) : bool :=
  match def_kind def with DSuperAssignment _ => true | _ => false end.

(** The answer of [resolve] for [x] in scope 1, and which rows of scope 1 are
    markers of [<<-]. *)
Definition answer_and_markers (ix : SemanticIndex) : option (option (nat * nat * bool) * list bool) :=
  r ← resolve ix "x" 1;
  d ← IndexVec.index (ix_definitions ix) 1;
  Some (option_map (λ '(scope, id, def), (scope, id, is_marker def)) r, List.map is_marker d).

(** A symbol may have a row without being bound: [<<-] records its marker row
    in the scope of the assignment, where it does not set [IS_BOUND]. When a
    local assignment to the name follows, [resolve] answers with that marker row,
    the first of the symbol, although the binding of the scope is the second. *)
Theorem resolve_may_answer_marker_row :
  bound_and_rows (sample program_super) = Some ([false], [0]) ∧
  answer_and_markers (sample program_marker) = Some (Some (1, 0, true), [true; false]).
Proof. split; vm_compute; reflexivity. Qed.
