(* ===== verification/Text.v ===== *)
(** * Rust strings as bytes

    A [&str] is its list of bytes ([Ascii.ascii] is a byte). What the sources
    use of [str]: slicing, [split_at] and [truncate], which panic inside a
    character, [starts_with], [ends_with], [find] of an ASCII character and
    [split_inclusive]. [utf8] is what the proofs need of UTF-8: the lead byte
    of a character says how many continuation bytes follow (a superset of the
    strings Rust admits). Then characters with their widths, UTF-16 among them,
    and white space. *)

From S2P Require Export Prelude.
From Stdlib Require String.
From Stdlib Require Export Ascii.
Abbreviation text := (list ascii).
Definition text_of (s : string) : text := String.list_ascii_of_string s.
#[global] Arguments text_of s%_string_scope.

Definition newline : ascii := "010"%char.

(** ** Characters *)

(** A byte [10xxxxxx]. *)
Definition is_continuation (b : ascii) : bool :=
  bool_decide (128 ≤ N_of_ascii b < 192)%N.

(** The continuation bytes that follow a lead byte. *)
Definition lead_len (b : ascii) : nat :=
  let n := N_of_ascii b in
  if bool_decide (n < 128)%N then 0
  else if bool_decide (n < 224)%N then 1
  else if bool_decide (n < 240)%N then 2 else 3.

(** Reads [s] with [pending] continuation bytes still due. *)
Fixpoint utf8_from (pending : nat) (s : text) : bool :=
  match s with
  | [] => bool_decide (pending = 0)
  | b :: s =>
      match pending with
      | 0 => negb (is_continuation b) && utf8_from (lead_len b) s
      | S pending => is_continuation b && utf8_from pending s
      end
  end.

Definition utf8 (s : text) : Prop := utf8_from 0 s = true.

Definition is_ascii (b : ascii) : bool := bool_decide (N_of_ascii b < 128)%N.

(** [s.is_char_boundary(i)]. *)
Definition is_char_boundary (s : text) (i : nat) : bool :=
  bool_decide (i = 0) ||
  match s !! i with
  | None => bool_decide (i = length s)
  | Some b => negb (is_continuation b)
  end.

(** ** Operations *)

(** [&s[i..]]. *)
Definition slice_from (s : text) (i : nat) : option text :=
  if is_char_boundary s i then Some (drop i s) else None.

(** [s.split_at(i)]. *)
Definition split_at (s : text) (i : nat) : option (text * text) :=
  if is_char_boundary s i then Some (take i s, drop i s) else None.

(** [s.truncate(n)]: nothing past the end. *)
Definition truncate (n : nat) (s : text) : option text :=
  if bool_decide (n ≤ length s) then
    if is_char_boundary s n then Some (take n s) else None
  else Some s.

(** [s.replace_range(i..j, r)]. *)
Definition replace_range (s : text) (i j : nat) (r : text) : option text :=
  if bool_decide (i ≤ j ≤ length s) && is_char_boundary s i && is_char_boundary s j
  then Some (take i s ++ r ++ drop j s) else None.

Definition starts_with (s p : text) : bool := bool_decide (p `prefix_of` s).

(** [s.ends_with(c)] for an ASCII [c]. *)
Definition ends_with (s : text) (c : ascii) : bool := bool_decide (last s = Some c).

(** [s.find(c)] for an ASCII [c]. *)
Definition find_char (s : text) (c : ascii) : option nat :=
  fst <$> list_find (c =.) s.

(** [s.split_inclusive('\n')]. *)
Fixpoint split_inclusive (s : text) : list text :=
  match s with
  | [] => []
  | b :: s =>
      if bool_decide (b = newline) then [b] :: split_inclusive s
      else match split_inclusive s with
           | [] => [[b]]
           | line :: lines => (b :: line) :: lines
           end
  end.

(** ** Facts *)

Lemma ascii_not_continuation b : is_ascii b = true → is_continuation b = false ∧ lead_len b = 0.
Proof.
  unfold is_ascii, is_continuation, lead_len. intros Hb%bool_decide_eq_true.
  split; [apply bool_decide_eq_false; lia|by rewrite bool_decide_true].
Qed.

(** After an ASCII byte a character starts. *)
Lemma utf8_after_ascii k (a r : text) b :
  is_ascii b = true → utf8_from k (a ++ b :: r) = true → utf8 r.
Proof.
  intros [Hc Hl]%ascii_not_continuation. revert k. induction a as [|x a IH]; intros k; simpl.
  - rewrite Hc, Hl. destruct k; [done|]. by rewrite andb_false_l.
  - destruct k; intros [_ Hs]%andb_true_iff; by eapply IH.
Qed.

Lemma utf8_ascii_prefix (p r : text) :
  forallb is_ascii p = true → utf8 (p ++ r) → utf8 r.
Proof.
  destruct p as [|b p _] using rev_ind; [done|].
  rewrite forallb_app. intros [_ [Hb _]%andb_true_iff]%andb_true_iff.
  rewrite <-app_assoc. by apply utf8_after_ascii.
Qed.

Lemma utf8_app k (a b : text) : utf8_from k a = true → utf8 b → utf8_from k (a ++ b) = true.
Proof.
  intros Ha Hb. revert k Ha. induction a as [|x a IH]; intros k; simpl.
  - by intros ->%bool_decide_eq_true.
  - destruct k; intros [-> Ha]%andb_true_iff; by apply IH.
Qed.

Lemma utf8_of_ascii (p : text) : forallb is_ascii p = true → utf8 p.
Proof.
  unfold utf8. induction p as [|b p IH]; [done|]. simpl.
  intros [[-> ->]%ascii_not_continuation Hp]%andb_true_iff. by apply IH.
Qed.

Lemma utf8_boundary (a r : text) : utf8 r → is_char_boundary (a ++ r) (length a) = true.
Proof.
  intros Hr. apply orb_true_iff. right. destruct r as [|b r].
  - rewrite app_nil_r, lookup_ge_None_2 by lia. by apply bool_decide_eq_true.
  - rewrite list_lookup_middle by done. by apply andb_true_iff in Hr as [-> _].
Qed.

Lemma slice_from_app (a r : text) : utf8 r → slice_from (a ++ r) (length a) = Some r.
Proof. intros Hr. unfold slice_from. by rewrite utf8_boundary, drop_app_length. Qed.

Lemma split_at_app (a r : text) : utf8 r → split_at (a ++ r) (length a) = Some (a, r).
Proof.
  intros Hr. unfold split_at. by rewrite utf8_boundary, take_app_length, drop_app_length.
Qed.

Lemma truncate_app (a r : text) : utf8 r → truncate (length a) (a ++ r) = Some a.
Proof.
  intros Hr. unfold truncate. rewrite bool_decide_true by (rewrite length_app; lia).
  by rewrite utf8_boundary, take_app_length.
Qed.

(** Replacing what lies between two character boundaries. *)
Lemma replace_range_app (a d r new : text) :
  utf8 (d ++ r) → utf8 r →
  replace_range (a ++ d ++ r) (length a) (length a + length d) new = Some (a ++ new ++ r).
Proof.
  intros Hd Hr. unfold replace_range.
  rewrite bool_decide_true by (rewrite !length_app; lia). simpl.
  rewrite (utf8_boundary a) by done. rewrite <-length_app, app_assoc.
  rewrite (utf8_boundary (a ++ d)) by done. simpl.
  rewrite drop_app_length, <-app_assoc, take_app_length. done.
Qed.

Lemma starts_with_spec s p : starts_with s p = true ↔ ∃ r, s = p ++ r.
Proof. unfold starts_with. by rewrite bool_decide_eq_true. Qed.

Lemma ends_with_snoc s b c : ends_with (s ++ [b]) c = bool_decide (b = c).
Proof. unfold ends_with. rewrite last_snoc. apply bool_decide_ext. naive_solver. Qed.

Lemma ends_with_app s r c : r ≠ [] → ends_with (s ++ r) c = ends_with r c.
Proof.
  destruct r as [|b r _] using rev_ind; [done|]. intros _.
  by rewrite app_assoc, !ends_with_snoc.
Qed.

Lemma ends_with_spec s c : ends_with s c = true ↔ ∃ r, s = r ++ [c].
Proof.
  unfold ends_with. rewrite bool_decide_eq_true. split.
  - intros [r ->]%last_Some. by exists r.
  - intros [r ->]. apply last_snoc.
Qed.

(** The first occurrence of [c]. *)
Lemma find_char_Some s c i :
  find_char s c = Some i → ∃ a r, s = a ++ c :: r ∧ length a = i ∧ c ∉ a.
Proof.
  unfold find_char. intros ([j x] & (Hj & -> & Hn)%list_find_Some & ->)%fmap_Some. simpl.
  exists (take j s), (drop (S j) s). split; [by rewrite take_drop_middle|].
  split; [apply length_take_le; apply lookup_lt_Some in Hj; lia|].
  intros (k & Hk)%list_elem_of_lookup. apply lookup_take_Some in Hk as [Hk Hlt]. by eapply Hn.
Qed.

Lemma find_char_None s c : find_char s c = None → c ∉ s.
Proof.
  unfold find_char. rewrite fmap_None, list_find_None, Forall_forall. naive_solver.
Qed.

Lemma utf8_after_newline k (a r : text) : utf8_from k (a ++ newline :: r) = true → utf8 r.
Proof. by apply utf8_after_ascii. Qed.

(** The lines of a text, with their terminators, are the text. *)
Lemma split_inclusive_concat s : concat (split_inclusive s) = s.
Proof.
  induction s as [|b s IH]; [done|]. simpl.
  case_bool_decide; simpl; [by rewrite IH|].
  destruct (split_inclusive s); simpl in *; by rewrite <-IH.
Qed.

(** Every line but the last ends with the newline, its only one. *)
Lemma split_inclusive_lines s ls line rest :
  split_inclusive s = ls ++ line :: rest →
  line ≠ [] ∧ (rest ≠ [] → ∃ l, line = l ++ [newline]).
Proof.
  revert ls line rest. induction s as [|b s IH]; intros ls line rest Hs; simpl in Hs.
  { by destruct ls. }
  case_bool_decide.
  - destruct ls as [|? ls]; simplify_eq/=; [split; [done|by exists []]|by eapply IH].
  - destruct (split_inclusive s) as [|l0 lines] eqn:Hl.
    + destruct ls as [|? [|??]]; simplify_eq/=. done.
    + destruct ls as [|? ls]; simplify_eq/=.
      * split; [done|]. intros Hr. destruct (IH [] l0 rest eq_refl) as [_ Hi].
        destruct (Hi Hr) as [l ->]. by exists (b :: l).
      * by eapply (IH (l0 :: ls)).
Qed.

Lemma split_inclusive_line line s :
  newline ∉ line → split_inclusive (line ++ newline :: s) = (line ++ [newline]) :: split_inclusive s.
Proof.
  induction line as [|b line IH]; intros Hn; [done|].
  apply not_elem_of_cons in Hn as [Hb Hn]. simpl. rewrite bool_decide_false by congruence.
  by rewrite IH.
Qed.

Lemma split_inclusive_utf8 k s :
  utf8_from k s = true →
  match split_inclusive s with [] => True | l :: ls => utf8_from k l = true ∧ Forall utf8 ls end.
Proof.
  revert k. induction s as [|b s IH]; intros k Hs; [done|]. cbn [split_inclusive].
  case_bool_decide as Hb.
  - subst b. destruct k; [|done]. split; [done|]. specialize (IH 0 Hs).
    destruct (split_inclusive s); [constructor|]. constructor; apply IH.
  - cbn [utf8_from] in Hs. destruct (split_inclusive s) as [|l ls] eqn:Hsp.
    + assert (s = []) as -> by (pose proof (split_inclusive_concat s) as Hc; by rewrite Hsp in Hc).
      by split; [|constructor].
    + cbn [utf8_from]. destruct k; apply andb_true_iff in Hs as [-> Hs]; by apply IH.
Qed.

Lemma segments_utf8 s seg : utf8 s → seg ∈ split_inclusive s → utf8 seg.
Proof.
  intros Hs Hin. pose proof (split_inclusive_utf8 0 s Hs) as Hu.
  destruct (split_inclusive s) as [|l ls]; [by apply not_elem_of_nil in Hin|].
  destruct Hu as [Hl Hls]. apply elem_of_cons in Hin as [->|Hin]; [done|].
  by eapply Forall_forall in Hls.
Qed.

(** [s.chars()]. *)
Fixpoint chars (s : text) : list text :=
  match s with
  | [] => []
  | b :: s =>
      match chars s with
      | (c :: ch) :: l => if is_continuation c then (b :: c :: ch) :: l else [b] :: (c :: ch) :: l
      | l => [b] :: l
      end
  end.

(** [ch.len_utf16()]: characters of four bytes are surrogate pairs. *)
Definition len_utf16 (ch : text) : nat := if bool_decide (length ch = 4) then 2 else 1.

(** [s.encode_utf16().count()]. *)
Definition utf16_count (s : text) : nat := sum_list (len_utf16 <$> chars s).

(** [s.chars().count()]. *)
Definition char_count (s : text) : nat := length (chars s).

(** The encodings of the characters that are white space. *)
Definition whitespace_chars : list (list N) :=
  [ [9]; [10]; [11]; [12]; [13]; [32]; [194; 133]; [194; 160]; [225; 154; 128];
    [226; 128; 128]; [226; 128; 129]; [226; 128; 130]; [226; 128; 131]; [226; 128; 132];
    [226; 128; 133]; [226; 128; 134]; [226; 128; 135]; [226; 128; 136]; [226; 128; 137];
    [226; 128; 138]; [226; 128; 168]; [226; 128; 169]; [226; 128; 175]; [226; 129; 159];
    [227; 128; 128] ]%N.

(** [ch.is_whitespace()]. *)
Definition is_whitespace (ch : text) : bool :=
  bool_decide ((N_of_ascii <$> ch) ∈ whitespace_chars).

(** [b.is_ascii_whitespace()]: space, tab, line feed, form feed and carriage
    return. *)
Definition is_ascii_whitespace (b : ascii) : bool :=
  bool_decide (N_of_ascii b ∈ [32; 9; 10; 12; 13]%N).

Fixpoint drop_while {A : Type} (p : A → bool) (l : list A) : list A :=
  match l with
  | [] => []
  | x :: l => if p x then drop_while p l else x :: l
  end.

Fixpoint take_while {A : Type} (p : A → bool) (l : list A) : list A :=
  match l with
  | [] => []
  | x :: l => if p x then x :: take_while p l else []
  end.

(** [s.trim_start()], [s.trim_end()], [s.trim()]. *)
Definition trim_start (s : text) : text := concat (drop_while is_whitespace (chars s)).
Definition trim_end (s : text) : text :=
  concat (reverse (drop_while is_whitespace (reverse (chars s)))).
Definition trim (s : text) : text := trim_end (trim_start s).

(** [s.get(i..j)]; [&s[i..j]] panics where it is [None]. *)
Definition slice (s : text) (i j : nat) : option text :=
  if bool_decide (i ≤ j ≤ length s) && is_char_boundary s i && is_char_boundary s j
  then Some (take (j - i) (drop i s)) else None.

(** ** Facts *)

Lemma chars_nil_iff s : chars s = [] ↔ s = [].
Proof.
  split; [|by intros ->]. destruct s as [|b s]; [done|]. simpl.
  destruct (chars s) as [|[|c ch] l]; [done..|]. by destruct (is_continuation c).
Qed.

(** The first byte of the first character is the first byte. *)
Lemma chars_head s b : head s = Some b → ∃ ch l, chars s = (b :: ch) :: l.
Proof.
  destruct s as [|b' s]; [done|]. intros [= ->]. simpl.
  destruct (chars s) as [|[|c ch] l]; [eauto..|]. destruct (is_continuation c); eauto.
Qed.

Lemma chars_cons b s :
  chars (b :: s) =
  match chars s with
  | (c :: ch) :: l => if is_continuation c then (b :: c :: ch) :: l else [b] :: (c :: ch) :: l
  | l => [b] :: l
  end.
Proof. done. Qed.

Lemma chars_concat s : concat (chars s) = s.
Proof.
  induction s as [|b s IH]; [done|]. rewrite chars_cons.
  destruct (chars s) as [|[|c ch] l]; simpl in *; [by rewrite <-IH..|].
  destruct (is_continuation c); simpl; by rewrite <-IH.
Qed.

(** A text that starts a character. *)
Definition starts_char (s : text) : Prop :=
  match s with [] => True | b :: _ => is_continuation b = false end.

Lemma utf8_starts_char s : utf8 s → starts_char s.
Proof. destruct s as [|b s]; [done|]. unfold utf8. simpl. by intros [?%negb_true_iff _]%andb_true_iff. Qed.

(** Splitting at a boundary splits the characters. *)
Lemma chars_app a r : starts_char r → chars (a ++ r) = chars a ++ chars r.
Proof.
  intros Hr. induction a as [|b a IH]; [done|]. change ((b :: a) ++ r) with (b :: (a ++ r)).
  rewrite !chars_cons, IH. destruct (chars a) as [|[|c ch] l] eqn:Ha; simpl.
  - destruct r as [|x r]; [done|]. destruct (chars_head (x :: r) x eq_refl) as (ch & l & ->).
    simpl in Hr. by rewrite Hr.
  - done.
  - by destruct (is_continuation c).
Qed.

Lemma utf16_count_app a r : starts_char r → utf16_count (a ++ r) = utf16_count a + utf16_count r.
Proof.
  intros Hr. unfold utf16_count. rewrite chars_app by done.
  by rewrite fmap_app, sum_list_with_app.
Qed.

Lemma char_count_app a r : starts_char r → char_count (a ++ r) = char_count a + char_count r.
Proof. intros Hr. unfold char_count. by rewrite chars_app, length_app. Qed.

(** What follows a whole text of characters is one. *)
Lemma utf8_app_inv k a r : utf8_from k a = true → utf8_from k (a ++ r) = utf8_from 0 r.
Proof.
  revert k. induction a as [|b a IH]; intros k; simpl.
  - by intros ->%bool_decide_eq_true.
  - destruct k; intros [-> ?]%andb_true_iff; simpl; auto.
Qed.

Lemma utf8_app_iff a r : utf8 a → utf8 (a ++ r) ↔ utf8 r.
Proof. intros Ha. unfold utf8. by rewrite (utf8_app_inv 0 a r Ha). Qed.

Lemma utf8_two a r : utf8 a → utf8 r → utf8 (a ++ r).
Proof. intros Ha Hr. by apply utf8_app_iff. Qed.

Lemma utf8_nil : utf8 [].
Proof. done. Qed.

(** A split at a character boundary splits into texts. *)
Lemma utf8_from_boundary k a r :
  utf8_from k (a ++ r) = true → starts_char r → utf8_from k a = true ∨ (r = [] ∧ a = []).
Proof.
  revert k. induction a as [|b a IH]; intros k; simpl.
  - intros Hr Hc. destruct k; [by left|]. destruct r as [|x r]; simpl in *; [done|].
    by rewrite Hc in Hr.
  - intros Hs Hc. destruct k; apply andb_true_iff in Hs as [-> Hs]; simpl.
    + destruct (IH _ Hs Hc) as [?|[-> ->]]; [by left|]. left. by simpl in Hs.
    + destruct (IH _ Hs Hc) as [?|[-> ->]]; [by left|]. left. by simpl in Hs.
Qed.

Lemma utf8_split a r : utf8 (a ++ r) → starts_char r → utf8 a ∧ utf8 r.
Proof.
  intros Hs Hc.
  assert (Ha : utf8 a) by (destruct (utf8_from_boundary 0 a r Hs Hc) as [?|[-> ->]]; done).
  split; [done|]. by apply (utf8_app_iff a r Ha).
Qed.

(** The characters after the first are those of what they spell. *)
Lemma chars_suffix s c l :
  chars s = c :: l → c ≠ [] ∧ starts_char (concat l) ∧ chars (concat l) = l.
Proof.
  revert c l. induction s as [|b s IH]; intros c l Hs; [done|]. rewrite chars_cons in Hs.
  pose proof (chars_concat s) as Hcat.
  destruct (chars s) as [|[|x y] l'] eqn:Hs'; simplify_eq/=; [done|..].
  - by destruct (IH _ _ eq_refl).
  - destruct (IH _ _ eq_refl) as (_ & Hc & Hl).
    destruct (is_continuation x) eqn:Hx; simplify_eq/=; [done|].
    by split_and!.
Qed.

(** Splitting between characters splits into texts. *)
Lemma chars_split s l1 l2 :
  utf8 s → chars s = l1 ++ l2 →
  utf8 (concat l1) ∧ utf8 (concat l2) ∧ chars (concat l2) = l2.
Proof.
  revert s. induction l1 as [|c l1 IH]; intros s Hs Hl; simpl in *.
  - rewrite <-Hl, chars_concat. done.
  - destruct (chars_suffix s c (l1 ++ l2) Hl) as (_ & Hc & Hr).
    assert (Hcat : s = c ++ concat (l1 ++ l2)) by (rewrite <-(chars_concat s), Hl; done).
    rewrite Hcat in Hs. destruct (utf8_split _ _ Hs Hc) as [Hu Hur].
    destruct (IH _ Hur Hr) as (? & ? & ?). split_and!; [by apply utf8_two|done..].
Qed.

Lemma chars_nonempty s ch : ch ∈ chars s → ch ≠ [].
Proof.
  intros (l1 & l2 & Hl)%list_elem_of_split. revert s Hl.
  induction l1 as [|c l1 IH]; intros s Hl; simpl in Hl.
  - by destruct (chars_suffix _ _ _ Hl).
  - destruct (chars_suffix _ _ _ Hl) as (_ & _ & Hr). by eapply IH.
Qed.

Lemma drop_while_suffix {A} (p : A → bool) l : ∃ k, l = k ++ drop_while p l ∧ Forall (λ x, p x = true) k.
Proof.
  induction l as [|x l (k & Hk & Hp)]; simpl; [by exists []|].
  destruct (p x) eqn:Hx; [|by exists []]. exists (x :: k). split; [by f_equal/=|by constructor].
Qed.

(** Trimming cuts whole characters of white space. *)
Lemma trim_start_spec s :
  utf8 s → ∃ w, s = w ++ trim_start s ∧ utf8 (trim_start s) ∧
    chars (trim_start s) = drop_while is_whitespace (chars s).
Proof.
  intros Hs. unfold trim_start. destruct (drop_while_suffix is_whitespace (chars s)) as (k & Hk & _).
  destruct (chars_split _ _ _ Hs Hk) as (_ & Hu & Hc). exists (concat k).
  by rewrite <-concat_app, <-Hk, chars_concat.
Qed.

Lemma trim_end_spec s : utf8 s → ∃ w, s = trim_end s ++ w ∧ utf8 (trim_end s).
Proof.
  intros Hs. unfold trim_end.
  destruct (drop_while_suffix is_whitespace (reverse (chars s))) as (k & Hk & _).
  apply (f_equal reverse) in Hk. rewrite reverse_involutive, reverse_app in Hk.
  destruct (chars_split _ _ _ Hs Hk) as (Hu & _ & _). exists (concat (reverse k)).
  by rewrite <-concat_app, <-Hk, chars_concat.
Qed.

Lemma trim_utf8 s : utf8 s → utf8 (trim s).
Proof.
  intros Hs. unfold trim. destruct (trim_start_spec s Hs) as (? & _ & Hu & _).
  by destruct (trim_end_spec _ Hu) as (? & _ & ?).
Qed.

Lemma slice_app (a m r : text) :
  utf8 (m ++ r) → utf8 r → slice (a ++ m ++ r) (length a) (length (a ++ m)) = Some m.
Proof.
  intros Hm Hr. unfold slice. rewrite bool_decide_true by (rewrite !length_app; lia).
  rewrite (utf8_boundary a) by done. rewrite app_assoc. rewrite (utf8_boundary (a ++ m)) by done. simpl.
  rewrite <-app_assoc, drop_app_length, length_app, Nat.add_comm, Nat.add_sub. by rewrite take_app_length.
Qed.
