(* ===== verification/Identifiers.v ===== *)
(** * Names in R source: [crates/oak_core/src/identifier.rs]

    [RName], a validated name with its spellings, and the extensions of
    [syntax_ext.rs] that read a name from a token. Then: what a rename writes
    is read back, and when it is not. *)

From S2P Require Export Text.
#[local] Open Scope list_scope.

Definition backtick : ascii := "`"%char.
Definition backslash : ascii := "\"%char.

(** [char::is_alphabetic], by the tables of Unicode. *)
Class CharClass := {
  is_alphabetic : text → bool;
  is_alphabetic_ascii c : is_ascii c = true →
    is_alphabetic [c] = true ↔
      (65 ≤ N_of_ascii c ≤ 90 ∨ 97 ≤ N_of_ascii c ≤ 122)%N;
}.

(** ** Reading names: [syntax_ext.rs] *)

(** [s.strip_prefix('`').and_then(|s| s.strip_suffix('`'))]. *)
Definition strip_backticks (s : text) : option text :=
  match s with
  | c :: rest =>
      if bool_decide (c = backtick) && ends_with rest backtick
      then Some (take (length rest - 1) rest) else None
  | [] => None
  end.

(** [RIdentifierExt::name_text], of the text of the node. *)
Definition name_text (s : text) : text := default s (strip_backticks s).

(** [RStringValueExt::string_text], of the text of the token: [None] is a panic. *)
Definition string_text (s : text) : option text := slice s 1 (length s - 1).

(** ** [identifier.rs] *)

Definition is_ascii_digit (b : ascii) : bool := bool_decide (48 ≤ N_of_ascii b ≤ 57)%N.

Definition is_dot_dot_n (name : text) : bool :=
  match name with
  | c1 :: c2 :: rest =>
      bool_decide (c1 = "."%char) && bool_decide (c2 = "."%char) &&
      negb (bool_decide (rest = [])) && forallb is_ascii_digit rest
  | _ => false
  end.

Definition RESERVED : list text :=
  text_of <$> ["if"; "else"; "for"; "while"; "repeat"; "break"; "next"; "function"; "in"; "TRUE"; "FALSE";
               "NULL"; "NA"; "NA_integer_"; "NA_real_"; "NA_complex_"; "NA_character_"; "NaN"; "Inf"; "..."; "_"]%string.

Definition is_reserved (name : text) : bool := bool_decide (name ∈ RESERVED) || is_dot_dot_n name.

Section names.
Context `{CharClass}.

Definition is_dot (ch : text) : bool := bool_decide (ch = ["."%char]).
Definition is_digit_char (ch : text) : bool := match ch with [b] => is_ascii_digit b | _ => false end.

Definition is_valid_identifier (name : text) : bool :=
  match chars name with
  | [] => false
  | first :: rest =>
      if negb (is_alphabetic first || is_dot first) then false
      else if is_dot first && match rest with second :: _ => is_digit_char second | [] => false end then false
      else forallb (λ c, is_alphabetic c || is_digit_char c || is_dot c || bool_decide (c = ["_"%char])) rest
  end.

Record RName := mkRName { semantic : text; identifier : text }.

Inductive NameError := NameEmpty | NameBacktick | NameReserved (name : text).

Definition from_semantic (name : text) : RName :=
  mkRName name (if is_valid_identifier name then name else backtick :: name ++ [backtick]).

Definition from_wrapped (inner : text) : NameError + RName :=
  if bool_decide (inner = []) then inl NameEmpty
  else if bool_decide (backtick ∈ inner) then inl NameBacktick
  else if is_reserved inner then inr (mkRName inner (backtick :: inner ++ [backtick]))
  else inr (from_semantic inner).

(** [RName::parse]. *)
Definition parse_name (name : text) : NameError + RName :=
  if bool_decide (name = []) then inl NameEmpty
  else
    match strip_backticks name with
    | Some inner => from_wrapped inner
    | None =>
        if bool_decide (backtick ∈ name) then inl NameBacktick
        else if is_reserved name then inl (NameReserved name)
        else inr (from_semantic name)
    end.

(** [str::replace] of a character, by that character behind a backslash. *)
Definition escape (c : ascii) (s : text) : text :=
  s ≫= λ b, if bool_decide (b = c) then [backslash; b] else [b].

(** [RName::quoted]. *)
Definition quoted (n : RName) (delimiter : ascii) : text :=
  delimiter :: escape delimiter (escape backslash (semantic n)) ++ [delimiter].
End names.

(** ** Properties *)

Section properties.
Context `{CC : CharClass}.

Lemma strip_backticks_wrapped s : strip_backticks (backtick :: s ++ [backtick]) = Some s.
Proof.
  cbn [strip_backticks]. rewrite ends_with_snoc, !bool_decide_true by done. cbn [andb].
  rewrite length_app. cbn. by rewrite Nat.add_sub, take_app_length.
Qed.

Lemma strip_backticks_none s : (backtick ∉ s) → strip_backticks s = None.
Proof.
  intros Hs. destruct s as [|c s]; [done|]. cbn. rewrite bool_decide_false; [done|].
  intros ->. apply Hs. by left.
Qed.

Lemma strip_backticks_some s inner : strip_backticks s = Some inner → s = backtick :: inner ++ [backtick].
Proof.
  destruct s as [|c rest]; [done|]. cbn. case_bool_decide as Hc; [|done]. subst c. cbn [andb].
  destruct (ends_with rest backtick) eqn:He; [|done]. intros [= <-].
  apply ends_with_spec in He as [r ->]. rewrite length_app. cbn. by rewrite Nat.add_sub, take_app_length.
Qed.

(** A parsed name, from one of its two spellings. *)
Lemma parse_name_inr name n :
  parse_name name = inr n ↔
  semantic n ≠ [] ∧ (backtick ∉ semantic n) ∧
  (name = backtick :: semantic n ++ [backtick] ∨ name = semantic n ∧ is_reserved (semantic n) = false) ∧
  identifier n = (if negb (is_reserved (semantic n)) && is_valid_identifier (semantic n) then semantic n
                  else backtick :: semantic n ++ [backtick]).
Proof.
  unfold parse_name. case_bool_decide as Hn.
  { subst name. split; [done|]. intros (Hne & _ & [Hw|[Hw _]] & _); [done|by destruct Hne]. }
  destruct (strip_backticks name) as [inner|] eqn:Es.
  - apply strip_backticks_some in Es as ->. unfold from_wrapped. case_bool_decide as Hi.
    { subst inner. split; [done|]. intros (Hne & Hb & [Hw|[Hw _]] & _); [|exfalso; apply Hb; rewrite <- Hw; by left].
      injection Hw as Hw. apply (app_inj_2 [] (semantic n)) in Hw as [Hw _]; [|done]. by destruct Hne. }
    case_bool_decide as Hb.
    { split; [done|]. intros (Hne & Hb' & [Hw|[Hw _]] & _).
      - injection Hw as Hw. apply app_inj_2 in Hw as [-> _]; done.
      - exfalso. apply Hb'. rewrite <- Hw. by left. }
    assert (Hinner : ∀ m : RName, (backtick :: inner ++ [backtick] = backtick :: semantic m ++ [backtick] ∨
      backtick :: inner ++ [backtick] = semantic m ∧ is_reserved (semantic m) = false) → (backtick ∉ semantic m) →
      semantic m = inner).
    { intros m [Hw|[Hw _]] Hm; [injection Hw as Hw; by apply app_inj_2 in Hw as [-> _]|].
      exfalso. apply Hm. rewrite <- Hw. by left. }
    destruct (is_reserved inner) eqn:Er.
    + split.
      * intros [= <-]. cbn. rewrite Er. split_and!; auto.
      * intros (Hne & Hm & Hw & Hid). pose proof (Hinner n Hw Hm) as <-. rewrite Er in Hid. cbn in Hid.
        destruct n. cbn in *. by subst.
    + unfold from_semantic. split.
      * intros [= <-]. cbn. rewrite Er. cbn. split_and!; auto.
      * intros (Hne & Hm & Hw & Hid). pose proof (Hinner n Hw Hm) as <-. rewrite Er in Hid. cbn in Hid.
        destruct n. cbn in *. by rewrite Hid.
  - case_bool_decide as Hb.
    { split; [done|]. intros (_ & Hm & [->|[-> _]] & _); [by rewrite strip_backticks_wrapped in Es|done]. }
    destruct (is_reserved name) eqn:Er.
    { split; [done|]. intros (_ & Hm & [->|[-> Hr]] & _); [by rewrite strip_backticks_wrapped in Es|congruence]. }
    unfold from_semantic. split.
    + intros [= <-]. cbn. rewrite Er. cbn. split_and!; auto.
    + intros (Hne & Hm & [->|[-> Hr]] & Hid); [by rewrite strip_backticks_wrapped in Es|].
      rewrite Er in Hid. cbn in Hid. destruct n. cbn in *. by rewrite Hid.
Qed.

(** *** Escapes *)

Lemma escape_length c s : length s ≤ length (escape c s).
Proof.
  induction s as [|b s IH]; [done|]. change (b :: s) with ([b] ++ s). unfold escape. rewrite bind_app, !length_app.
  cbn. fold (escape c s). case_bool_decide; cbn; lia.
Qed.

Lemma escape_cons c b s :
  escape c (b :: s) = (if bool_decide (b = c) then [backslash; b] else [b]) ++ escape c s.
Proof. done. Qed.

Lemma escape_not_in c s : (c ∉ s) → escape c s = s.
Proof.
  induction s as [|b s IH]; [done|]. intros [Hb Hs]%not_elem_of_cons.
  rewrite escape_cons, bool_decide_false by done. cbn. by rewrite IH.
Qed.

Lemma escape_same_length c s : length (escape c s) = length s → c ∉ s.
Proof.
  induction s as [|b s IH]; [by intros _ ?%elem_of_nil|]. rewrite escape_cons, not_elem_of_cons.
  pose proof (escape_length c s). case_bool_decide; cbn; intros Hl; [lia|]. split; [done|]. apply IH. lia.
Qed.

(** R's reading of these escapes. *)
Fixpoint unescape (s : text) : text :=
  match s with
  | [] => []
  | b :: s =>
      if bool_decide (b = backslash) then match s with [] => [b] | c :: s => c :: unescape s end
      else b :: unescape s
  end.

Lemma unescape_cons b s : b ≠ backslash → unescape (b :: s) = b :: unescape s.
Proof. intros Hb. cbn. by rewrite bool_decide_false. Qed.
Lemma unescape_pair b s : unescape (backslash :: b :: s) = b :: unescape s.
Proof. done. Qed.

Lemma unescape_escape d s : d ≠ backslash → unescape (escape d (escape backslash s)) = s.
Proof.
  intros Hd. induction s as [|b s IH]; [done|]. rewrite escape_cons. case_bool_decide as Hb.
  - subst b. cbn [app]. rewrite !escape_cons, !bool_decide_false by done. cbn [app].
    by rewrite unescape_pair, IH.
  - cbn [app]. rewrite escape_cons. case_bool_decide; cbn [app].
    + by rewrite unescape_pair, IH.
    + by rewrite unescape_cons, IH.
Qed.

Lemma escape_utf8_from c k s : is_ascii c = true → utf8_from k s = true → utf8_from k (escape c s) = true.
Proof.
  intros Hc. destruct (ascii_not_continuation c Hc) as [Hn Hl]. revert k.
  induction s as [|b s IH]; intros k Hs; [done|]. rewrite escape_cons. case_bool_decide as Hb.
  - subst b. destruct k; cbn [utf8_from] in Hs; rewrite Hn in Hs; [|done]. cbn in Hs. rewrite Hl in Hs.
    change (utf8_from 0 ([backslash; c] ++ escape c s)) with (utf8_from 0 (c :: escape c s)).
    cbn [utf8_from]. rewrite Hn, Hl. by apply IH.
  - destruct k; cbn [utf8_from app] in *; apply andb_true_iff in Hs as [-> Hs]; by apply IH.
Qed.

Lemma escape_utf8 c s : is_ascii c = true → utf8 s → utf8 (escape c s).
Proof. intros Hc. by apply escape_utf8_from. Qed.

Lemma utf8_ascii_one c : is_ascii c = true → utf8 [c].
Proof. intros Hc. apply utf8_of_ascii. cbn. by rewrite Hc. Qed.

Lemma string_text_quoted n d :
  is_ascii d = true → utf8 (semantic n) →
  string_text (quoted n d) = Some (escape d (escape backslash (semantic n))).
Proof.
  intros Hd Hn. unfold string_text, quoted. set (e := escape d (escape backslash (semantic n))).
  assert (He : utf8 e) by (by apply escape_utf8, escape_utf8).
  pose proof (slice_app [d] e [d] (utf8_two _ _ He (utf8_ascii_one d Hd)) (utf8_ascii_one d Hd)) as Hs.
  cbn in Hs |- *. rewrite length_app. cbn. by rewrite Nat.add_1_r.
Qed.

(** The string literals R opens with one of its two quotes. *)
Definition quotes : list ascii := ["034"%char; "'"%char].

(** C29. What a rename writes for a name that was accepted: the identifier reads
    back as the name, also when it is parsed again; the literal, read with R's
    escapes, is the name too. The indexer, which does not read escapes, sees the
    name in the literal if and only if it has no backslash and no such quote. *)
Theorem rendered_name_reads_back s n :
  utf8 s → parse_name s = inr n →
  name_text (identifier n) = semantic n ∧ parse_name (identifier n) = inr n ∧
  ∀ d, d ∈ quotes →
    ∃ inner, string_text (quoted n d) = Some inner ∧ unescape inner = semantic n ∧
      (inner = semantic n ↔ (backslash ∉ semantic n) ∧ d ∉ semantic n).
Proof.
  intros Hs Hp. pose proof (proj1 (parse_name_inr s n) Hp) as (Hne & Hb & Hw & Hid).
  split; [|split].
  - rewrite Hid. case_match; unfold name_text; [by rewrite strip_backticks_none|by rewrite strip_backticks_wrapped].
  - apply parse_name_inr. split_and!; [done..| |done]. rewrite Hid. case_match eqn:E; [|by left].
    apply andb_true_iff in E as [Hr%negb_true_iff _]. by right.
  - intros d Hd. assert (is_ascii d = true ∧ d ≠ backslash) as [Hda Hdb]
      by (apply elem_of_cons in Hd as [->| ->%list_elem_of_singleton]; done).
    assert (Hu : utf8 (semantic n)).
    { destruct Hw as [Hw|[Hw _]]; [|by rewrite <- Hw]. rewrite Hw in Hs. apply (utf8_app_iff [backtick]) in Hs; [|done].
      by apply (utf8_split (semantic n) [backtick]) in Hs as [Hs _]; [|apply utf8_starts_char]. }
    exists (escape d (escape backslash (semantic n))).
    split; [by apply string_text_quoted|]. split; [by apply unescape_escape|]. split.
    + intros He. pose proof (escape_length backslash (semantic n)).
      pose proof (escape_length d (escape backslash (semantic n))). rewrite He in *.
      assert (backslash ∉ semantic n) as Hn by (apply escape_same_length; lia).
      split; [exact Hn|]. rewrite (escape_not_in backslash) in He by exact Hn.
      apply escape_same_length. by rewrite He.
    + intros [Hnb Hnd]. by rewrite (escape_not_in backslash), escape_not_in.
Qed.
End properties.

(** ** Witnesses, with the letters of ASCII *)

Definition ascii_letter (ch : text) : bool :=
  match ch with
  | [c] => bool_decide (65 ≤ N_of_ascii c ≤ 90)%N || bool_decide (97 ≤ N_of_ascii c ≤ 122)%N
  | _ => false
  end.

#[export, refine] Instance ascii_letters : CharClass := {| is_alphabetic := ascii_letter |}.
Proof. intros c _. cbn. by rewrite orb_true_iff, !bool_decide_eq_true. Defined.

(** A name with a backslash has to be wrapped, and its literal is not read back. *)
Definition backslash_name : text := ["a"%char; backslash].

Lemma rendered_name_reads_back_witness :
  let n := mkRName backslash_name (backtick :: backslash_name ++ [backtick]) in
  name_text (identifier n) = semantic n ∧ parse_name (identifier n) = inr n ∧
  ∀ d, d ∈ quotes →
    ∃ inner, string_text (quoted n d) = Some inner ∧ unescape inner = semantic n ∧
      (inner = semantic n ↔ (backslash ∉ semantic n) ∧ d ∉ semantic n).
Proof. apply (rendered_name_reads_back backslash_name); [by vm_compute|reflexivity]. Defined.
