(* ===== verification/ConsoleFilter.v ===== *)
(** * The console filter: [crates/ark/src/console/console_filter.rs]

    The state machine that holds R's debug messages back from the console
    output until the next prompt tells whether they are real. The clock is a
    parameter: [clock i] is its [i]-th reading. *)

From S2P Require Export Text.

Inductive MatchedPattern := CalledFrom | DebugAt | Debug.

#[export] Instance MatchedPattern_eq_dec : EqDecision MatchedPattern.
Proof. solve_decision. Defined.

Module Pattern.
Definition prefix (p : MatchedPattern) : text :=
  text_of match p with
  | CalledFrom => "Called from: "
  | DebugAt => "debug at "
  | Debug => "debug: "
  end.
End Pattern.

Definition all_patterns : list MatchedPattern := [CalledFrom; DebugAt; Debug].

Inductive ConsoleFilterState :=
| Passthrough (at_line_start : bool)
| Filtering (pattern : MatchedPattern) (buffer : text) (timestamp : N).

(** [timeout] in nanoseconds. *)
Record ConsoleFilter := mkConsoleFilter {
  state : ConsoleFilterState;
  timeout : N;
  suppress : bool;
}.

(** [DebugCallText] of [console_debug.rs]. *)
Inductive DebugCallText := CallDebug (text_ : text) | CallDebugAt (text_ : text).

(** [ConsoleFilter::new]. *)
Definition new_filter (IS_TESTING : bool) : ConsoleFilter :=
  mkConsoleFilter (Passthrough true) (if IS_TESTING then 500000000 else 50000000)%N true.

Definition with_state (s : ConsoleFilterState) (f : ConsoleFilter) : ConsoleFilter :=
  mkConsoleFilter s (timeout f) (suppress f).

(** The filter and the readings of the clock so far. *)
Record World := mkWorld { filter_ : ConsoleFilter; reads : nat }.

Definition set_state (s : ConsoleFilterState) : M World () :=
  modify (λ w, mkWorld (with_state s (filter_ w)) (reads w)).

Definition set_suppress (b : bool) : M World () :=
  modify (λ w, mkWorld (mkConsoleFilter (state (filter_ w)) (timeout (filter_ w)) b) (reads w)).

(** ** Pure helpers *)

Definition try_match_prefix (content : text) : option MatchedPattern :=
  List.find (λ p, starts_with content (Pattern.prefix p)) all_patterns.

Definition is_ascii_digit (b : ascii) : bool :=
  bool_decide (48 ≤ N_of_ascii b ≤ 57)%N.

(** The loop over [bytes.iter().enumerate()] at [rest = &bytes[i..]]. *)
Fixpoint find_start_from (bytes : text) (i : nat) (in_digits : bool) (rest : text) : option nat :=
  match rest with
  | [] => None
  | b :: rest =>
      if bool_decide (b = "#"%char) then find_start_from bytes (S i) true rest
      else if in_digits then
        if is_ascii_digit b then find_start_from bytes (S i) true rest
        else if bool_decide (b = ":"%char) then
          if bool_decide (i + 2 ≤ length bytes) && bool_decide (bytes !! (i + 1) = Some " "%char)
          then Some (i + 2)
          else find_start_from bytes (S i) false rest
        else find_start_from bytes (S i) false rest
      else find_start_from bytes (S i) false rest
  end.

Definition find_debug_at_expression_start (buffer : text) : option nat :=
  find_start_from buffer 0 false buffer.

(** The outer [option] is the panic of the slice. *)
Definition finalize_capture (pattern : MatchedPattern) (buffer : text)
    : option (option DebugCallText) :=
  match pattern with
  | DebugAt =>
      t ← match find_debug_at_expression_start buffer with
          | Some start => slice_from buffer start
          | None => Some []
          end;
      Some (Some (CallDebugAt t))
  | Debug => Some (Some (CallDebug buffer))
  | CalledFrom => Some None
  end.

Definition is_debug_line (line : text) : bool :=
  starts_with line (Pattern.prefix CalledFrom) || starts_with line (Pattern.prefix DebugAt) ||
  starts_with line (Pattern.prefix Debug).

Fixpoint strip_lines_from (t : text) (pos : nat) (lines : list text) : option text :=
  match lines with
  | [] => Some t
  | line :: lines =>
      if is_debug_line line then truncate pos t
      else strip_lines_from t (pos + length line) lines
  end.

Definition strip_step_lines (t : text) : option text :=
  strip_lines_from t 0 (split_inclusive t).

(** ** The state machine *)

Section filter.
Context (clock : nat → N).

(** [Instant::now()]. *)
Definition now : M World N := try_update (λ w,
  Some (clock (reads w), mkWorld (filter_ w) (S (reads w)))).

(** [timestamp.elapsed()], which saturates. *)
Definition elapsed (timestamp : N) : M World N :=
  n ← now; mret (n - timestamp)%N.

Definition timed_out (timestamp : N) : M World bool :=
  e ← elapsed timestamp;
  limit ← gets (λ w, timeout (filter_ w));
  mret (bool_decide (limit < e)%N).

Definition drain : M World (option text) :=
  s ← gets (λ w, state (filter_ w));
  match s with
  | Passthrough _ => mret None
  | Filtering pattern buffer _ =>
      let t := Pattern.prefix pattern ++ buffer in
      set_state (Passthrough (ends_with t newline));;
      mret (Some t)
  end.

Definition drain_on_timeout : M World (option text) :=
  s ← gets (λ w, state (filter_ w));
  out ← match s with
        | Passthrough _ => mret false
        | Filtering _ _ timestamp => timed_out timestamp
        end;
  if out : bool then drain else mret None.

Definition check_timeout : M World (option text) := drain_on_timeout.

Definition flush : M World (option text) := drain.

Definition emit_until_newline (content : text) : M World (option text * nat) :=
  match find_char content newline with
  | Some newline_pos =>
      '(before, _) ← try_get (λ _, split_at content (newline_pos + 1));
      set_state (Passthrough true);;
      mret (Some before, newline_pos + 1)
  | None =>
      set_state (Passthrough false);;
      mret (Some content, length content)
  end.

(** The [Filtering] arm of [process_chunk]. *)
Definition process_filtering (pattern : MatchedPattern) (buffer : text) (timestamp : N)
    (content : text) : M World (option text * nat) :=
  out ← timed_out timestamp;
  if out : bool then
    set_state (Passthrough (ends_with buffer newline));;
    mret (Some (Pattern.prefix pattern ++ buffer), 0)
  else
    let at_line_boundary := bool_decide (buffer = []) || ends_with buffer newline in
    match (if at_line_boundary then try_match_prefix content else None) with
    | Some new_pattern =>
        set_state (Filtering new_pattern [] timestamp);;
        mret (None, length (Pattern.prefix new_pattern))
    | None =>
        set_state (Filtering pattern (buffer ++ content) timestamp);;
        mret (None, length content)
    end.

Definition process_chunk (content : text) : M World (option text * nat) :=
  s ← gets (λ w, state (filter_ w));
  match s with
  | Passthrough true =>
      match try_match_prefix content with
      | Some pattern =>
          timestamp ← now;
          set_state (Filtering pattern [] timestamp);;
          mret (None, length (Pattern.prefix pattern))
      | None => emit_until_newline content
      end
  | Passthrough false => emit_until_newline content
  | Filtering pattern buffer timestamp => process_filtering pattern buffer timestamp content
  end.

(** [while !remaining.is_empty()]. *)
Fixpoint feed_loop (fuel : nat) (remaining : text) : M World (list text) :=
  match remaining with
  | [] => mret []
  | _ =>
      match fuel with
      | 0 => out_of_fuel
      | S fuel =>
          '(emit, consumed) ← process_chunk remaining;
          remaining ← try_get (λ _, slice_from remaining consumed);
          emits ← feed_loop fuel remaining;
          mret (option_list emit ++ emits)
      end
  end.

Definition feed (fuel : nat) (content : text) : M World (list text) :=
  drained ← drain_on_timeout;
  emits ← feed_loop fuel content;
  mret (option_list drained ++ emits).

Definition on_read_console (is_browser : bool) : M World (option text * option DebugCallText) :=
  s ← gets (λ w, state (filter_ w));
  set_state (Passthrough true);;
  match s with
  | Passthrough _ => mret (None, None)
  | Filtering pattern buffer _ =>
      debug_update ← (if is_browser then try_get (λ _, finalize_capture pattern buffer)
                      else mret None);
      suppress ← gets (λ w, suppress (filter_ w));
      mret (if negb is_browser || negb suppress then Some (Pattern.prefix pattern ++ buffer)
            else None, debug_update)
  end.
End filter.
