(* ===== verification/ConsoleTheorems.v ===== *)
(** * Theorems on the console filter

    The conservation law of the filter ([released]), sessions as traces of its
    operations, the extraction of the call text, and the lines it strips. *)

From S2P Require Export ConsoleFilter.

(** ** What is held, what is lost *)

Definition held_state (s : ConsoleFilterState) : text :=
  match s with
  | Passthrough _ => []
  | Filtering pattern buffer _ => Pattern.prefix pattern ++ buffer
  end.

Definition held (w : World) : text := held_state (state (filter_ w)).

Definition line_start (line : text) : bool := bool_decide (line = []) || ends_with line newline.

(** A whole debug message: a prefix, alone or up to the end of a line. *)
Definition is_message (m : text) : Prop :=
  ∃ p body, m = Pattern.prefix p ++ body ∧ line_start body = true.

(** Losing a debug message that another debug prefix follows. *)
Inductive superseded : text → text → Prop :=
| superseded_intro a m p b :
    is_message m → superseded (a ++ m ++ Pattern.prefix p ++ b) (a ++ Pattern.prefix p ++ b).

Definition released : relation text := rtc superseded.

(** The flag of [Passthrough] tells whether [line], the output since the last
    prompt, ends a line; capture only starts there. *)
Definition tracks (w : World) (line : text) : Prop :=
  match state (filter_ w) with
  | Passthrough at_line_start => at_line_start = line_start line
  | Filtering _ _ _ => line_start line = true
  end.

(** A step from [w] to [w'] that reads [inp] and emits [out]. *)
Record step_ok (w : World) (inp out : text) (w' : World) : Prop := {
  step_released : released (held w ++ inp) (out ++ held w');
  step_tracks line : tracks w line → tracks w' (line ++ out);
  step_timeout : timeout (filter_ w') = timeout (filter_ w);
  step_utf8 : utf8 (held w) → utf8 (held w');
}.

Lemma released_app x a b y : released a b → released (x ++ a ++ y) (x ++ b ++ y).
Proof.
  apply (rtc_congruence (λ z, x ++ z ++ y)). intros ? ? [a' m p b' Hm].
  replace (x ++ (a' ++ m ++ Pattern.prefix p ++ b') ++ y)
    with ((x ++ a') ++ m ++ Pattern.prefix p ++ (b' ++ y)) by by rewrite <-!app_assoc.
  replace (x ++ (a' ++ Pattern.prefix p ++ b') ++ y)
    with ((x ++ a') ++ Pattern.prefix p ++ (b' ++ y)) by by rewrite <-!app_assoc.
  by constructor.
Qed.

Lemma released_extend a b c d x :
  released a (x ++ b) → released (b ++ c) d → released (a ++ c) (x ++ d).
Proof.
  intros Ha Hb. etrans; [apply (released_app [] _ _ c Ha)|]. simpl.
  rewrite <-app_assoc. pose proof (released_app x _ _ [] Hb) as H.
  by rewrite !app_nil_r in H.
Qed.

Lemma step_ok_refl w : step_ok w [] [] w.
Proof. split; [by rewrite app_nil_r|intros line; by rewrite app_nil_r|done..]. Qed.

Lemma step_ok_trans w1 i1 o1 w2 i2 o2 w3 :
  step_ok w1 i1 o1 w2 → step_ok w2 i2 o2 w3 → step_ok w1 (i1 ++ i2) (o1 ++ o2) w3.
Proof.
  intros [R1 T1 E1 U1] [R2 T2 E2 U2]. split.
  - rewrite app_assoc, <-(app_assoc o1). by eapply released_extend.
  - intros line Hl. rewrite app_assoc. by apply T2, T1.
  - by rewrite E2.
  - auto.
Qed.

(** ** Prefixes *)

Lemma prefix_ascii p : forallb is_ascii (Pattern.prefix p) = true.
Proof. by destruct p. Qed.

Lemma prefix_nonempty p : Pattern.prefix p ≠ [].
Proof. by destruct p. Qed.

Lemma prefix_ends p : ends_with (Pattern.prefix p) newline = false.
Proof. by destruct p. Qed.

Lemma prefix_long p : 7 ≤ length (Pattern.prefix p).
Proof. destruct p; simpl; lia. Qed.

Lemma try_match_prefix_Some content p :
  try_match_prefix content = Some p → ∃ rest, content = Pattern.prefix p ++ rest.
Proof. intros [_ Hp]%find_some. by apply starts_with_spec. Qed.

Lemma try_match_prefix_None content :
  try_match_prefix content = None → ∀ p rest, content ≠ Pattern.prefix p ++ rest.
Proof.
  intros Hn p rest Hc. assert (Hf : starts_with content (Pattern.prefix p) = false).
  { apply (find_none _ _ Hn p). destruct p; simpl; auto. }
  enough (starts_with content (Pattern.prefix p) = true) by congruence.
  apply starts_with_spec. by exists rest.
Qed.

(** No prefix is a prefix of another: the match does not depend on the order
    of [MatchedPattern::all]. *)
Lemma prefix_unique p q a b : Pattern.prefix p ++ a = Pattern.prefix q ++ b → p = q.
Proof. destruct p, q; simpl; intros; simplify_eq; done. Qed.

Lemma try_match_prefix_app p rest : try_match_prefix (Pattern.prefix p ++ rest) = Some p.
Proof.
  destruct (try_match_prefix _) as [q|] eqn:Hq.
  - apply try_match_prefix_Some in Hq as [r Hr]. by apply prefix_unique in Hr as ->.
  - by destruct (try_match_prefix_None _ Hq p rest).
Qed.

Lemma line_start_app line t : t ≠ [] → line_start (line ++ t) = ends_with t newline.
Proof.
  intros Ht. unfold line_start. rewrite ends_with_app by done.
  rewrite bool_decide_false; [done|]. intros [_ ?]%app_eq_nil. done.
Qed.

(** The prefix has no newline: whether the capture ends a line is whether its
    body does. *)
Lemma message_ends p buffer :
  ends_with (Pattern.prefix p ++ buffer) newline = ends_with buffer newline.
Proof.
  destruct buffer as [|b buffer]; [rewrite app_nil_r; apply prefix_ends|].
  by apply ends_with_app.
Qed.

(** ** The operations *)

(** Runs the straight-line part of an operation. *)
Ltac run_op :=
  cbv [drain drain_on_timeout timed_out elapsed now gets modify set_state try_get try_update
       mbind M_bind mret M_ret]; cbn [state filter_ reads timeout suppress with_state].

Section steps.
Context (clock : nat → N).

(** A step that changes no text: what was held, and what was read, is emitted
    or held. *)
Lemma step_ok_exact w inp out w' :
  held w ++ inp = out ++ held w' → timeout (filter_ w') = timeout (filter_ w) →
  (∀ line, tracks w line → tracks w' (line ++ out)) → (utf8 (held w) → utf8 (held w')) →
  step_ok w inp out w'.
Proof. intros Hh Ht Hl Hu. split; [by rewrite Hh; apply rtc_refl|done..]. Qed.

Lemma drain_ok w :
  ∃ out w', drain w = Done out w' ∧ step_ok w [] (default [] out) w' ∧
    default [] out = held w ∧ held w' = [].
Proof.
  destruct w as [[[b|p buffer ts] limit sup] n].
  - exists None. eexists. run_op. split; [reflexivity|]. split; [apply step_ok_refl|done].
  - eexists (Some _), _. run_op. split; [reflexivity|]. split; [|done]. apply step_ok_exact; unfold held; simpl.
    + by rewrite !app_nil_r.
    + reflexivity.
    + intros line _. unfold tracks. simpl. rewrite line_start_app; [done|].
      by destruct p.
    + done.
Qed.

Lemma drain_on_timeout_ok w :
  ∃ out w', drain_on_timeout clock w = Done out w' ∧ step_ok w [] (default [] out) w' ∧
    match state (filter_ w) with
    | Filtering _ _ ts => (timeout (filter_ w) < clock (reads w) - ts)%N →
        default [] out = held w ∧ held w' = []
    | Passthrough _ => True
    end.
Proof.
  destruct w as [[[b|p buffer ts] limit sup] n].
  - exists None. eexists. run_op. split; [reflexivity|]. split; [apply step_ok_refl|done].
  - pose (w1 := mkWorld (mkConsoleFilter (Filtering p buffer ts) limit sup) (S n)).
    assert (Hw1 : ∀ i o w', step_ok w1 i o w' →
      step_ok (mkWorld (mkConsoleFilter (Filtering p buffer ts) limit sup) n) i o w').
    { intros i o w' [R T E U]. split; [exact R|exact T|exact E|exact U]. }
    unfold drain_on_timeout at 1. run_op. case_bool_decide.
    + destruct (drain_ok w1) as (out & w' & Hd & Hs & Ho). exists out, w'.
      split; [done|]. split; [by apply Hw1|]. done.
    + exists None. eexists. split; [reflexivity|]. split; [apply Hw1, step_ok_refl|done].
Qed.

(** How many more chunks a call to [feed] can process. *)
Definition weight (w : World) : nat :=
  match state (filter_ w) with Passthrough _ => 0 | Filtering _ _ _ => 1 end.

(** What [process_chunk] answers on [content]: it splits it. *)
Definition chunk_ok (w : World) (content : text) (m : outcome World (option text * nat)) : Prop :=
  ∃ emit a r w', m = Done (emit, length a) w' ∧ content = a ++ r ∧ utf8 r ∧
    step_ok w a (default [] emit) w' ∧
    2 * length r + weight w' < 2 * length content + weight w.

Lemma emit_until_newline_ok w b content :
  state (filter_ w) = Passthrough b → content ≠ [] → utf8 content →
  chunk_ok w content (emit_until_newline content w).
Proof.
  destruct w as [[st limit sup] n]. simpl. intros -> Hne Hu. unfold emit_until_newline.
  destruct (find_char content newline) as [i|] eqn:Hf.
  - apply find_char_Some in Hf as (a & r & -> & <- & Hn).
    assert (Hr : utf8 r) by by eapply utf8_after_newline.
    exists (Some (a ++ [newline])), (a ++ [newline]), r. eexists.
    replace (length a + 1) with (length (a ++ [newline])) by by rewrite length_app.
    assert (a ++ newline :: r = (a ++ [newline]) ++ r) as -> by by rewrite <-app_assoc.
    unfold try_get, mbind, M_bind. rewrite split_at_app by done.
    run_op. split; [reflexivity|]. split; [done|]. split; [done|]. split.
    + apply step_ok_exact; [by simpl; rewrite app_nil_r|done| |done].
      intros line _. unfold tracks. simpl.
      rewrite line_start_app by by destruct a. by rewrite ends_with_snoc, bool_decide_true.
    + rewrite !length_app. unfold weight. simpl. lia.
  - apply find_char_None in Hf. exists (Some content), content, []. eexists.
    run_op. split; [reflexivity|]. split; [by rewrite app_nil_r|]. split; [done|]. split.
    + apply step_ok_exact; unfold held; simpl; [by rewrite app_nil_r|done| |done].
      intros line _. unfold tracks. simpl. rewrite line_start_app by done.
      symmetry. apply not_true_iff_false. intros [l ->]%ends_with_spec. apply Hf. set_solver.
    + unfold weight. destruct content; simpl; [done|lia].
Qed.

Lemma process_filtering_ok w p buffer ts content :
  state (filter_ w) = Filtering p buffer ts → content ≠ [] → utf8 content →
  chunk_ok w content (process_filtering clock p buffer ts content w).
Proof.
  destruct w as [[st limit sup] n]. simpl. intros -> Hne Hu.
  unfold process_filtering. run_op. case_bool_decide; simpl.
  { eexists (Some _), [], content, _. split; [reflexivity|]. split; [done|]. split; [done|].
    split; [|unfold weight; simpl; lia]. apply step_ok_exact; unfold held; simpl.
    - by rewrite !app_nil_r.
    - done.
    - intros line _. unfold tracks. simpl.
      rewrite line_start_app by by destruct p. by rewrite message_ends.
    - done. }
  fold (line_start buffer).
  destruct (if line_start buffer then try_match_prefix content else None) as [q|] eqn:Hq; simpl.
  - destruct (line_start buffer) eqn:Hl; [|done].
    apply try_match_prefix_Some in Hq as [r ->].
    eexists None, (Pattern.prefix q), r, _. split; [done|]. split; [done|].
    split; [by eapply utf8_ascii_prefix; [apply prefix_ascii|]|]. split.
    + split; [|intros line; by rewrite app_nil_r|done|].
      2:{ intros _. unfold held. simpl. rewrite app_nil_r. apply utf8_of_ascii, prefix_ascii. }
      change (released ((Pattern.prefix p ++ buffer) ++ Pattern.prefix q) (Pattern.prefix q ++ [])).
      apply rtc_once. rewrite <-(app_nil_r (Pattern.prefix q)) at 1.
      apply (superseded_intro [] (Pattern.prefix p ++ buffer) q []). by exists p, buffer.
    + rewrite length_app. pose proof (prefix_long q). unfold weight. simpl. lia.
  - eexists None, content, [], _. split; [reflexivity|]. split; [by rewrite app_nil_r|].
    split; [done|]. split.
    + apply step_ok_exact; unfold held; simpl; [by rewrite <-app_assoc|done| |].
      * intros line. by rewrite app_nil_r.
      * intros Hh. rewrite app_assoc. by apply utf8_app.
    + unfold weight. simpl. destruct content; simpl; [done|lia].
Qed.

Lemma process_chunk_ok w content :
  content ≠ [] → utf8 content → chunk_ok w content (process_chunk clock content w).
Proof.
  intros Hne Hu. destruct w as [[[b|p buffer ts] limit sup] n].
  2:{ exact (process_filtering_ok (mkWorld (mkConsoleFilter (Filtering p buffer ts) limit sup) n)
        p buffer ts content eq_refl Hne Hu). }
  unfold process_chunk, gets, mbind, M_bind at 1. simpl.
  destruct b; [|by eapply emit_until_newline_ok].
  destruct (try_match_prefix content) as [p|] eqn:Hp; [|by eapply emit_until_newline_ok].
  apply try_match_prefix_Some in Hp as [r ->].
  eexists None, (Pattern.prefix p), r, _. split; [done|]. split; [done|].
  split; [by eapply utf8_ascii_prefix; [apply prefix_ascii|]|]. split.
  - apply step_ok_exact; unfold held; simpl; [by rewrite app_nil_r|done| |].
    + intros line. by rewrite app_nil_r.
    + intros _. rewrite app_nil_r. apply utf8_of_ascii, prefix_ascii.
  - rewrite length_app. pose proof (prefix_long p). unfold weight. simpl. lia.
Qed.

Lemma feed_loop_ok fuel w remaining :
  utf8 remaining → 2 * length remaining + weight w ≤ fuel →
  ∃ emits w', feed_loop clock fuel remaining w = Done emits w' ∧
    step_ok w remaining (concat emits) w'.
Proof.
  revert w remaining. induction fuel as [|fuel IH]; intros w remaining Hu Hf.
  - destruct remaining; [|simpl in Hf; lia].
    exists [], w. split; [done|apply step_ok_refl].
  - destruct remaining as [|b remaining]; [exists [], w; split; [done|apply step_ok_refl]|].
    destruct (process_chunk_ok w (b :: remaining)) as (emit & a & r & w1 & Hp & Heq & Hr & Hs & Hlt);
      [done|done|].
    destruct (IH w1 r Hr) as (emits & w2 & Hl & Hs2); [lia|].
    exists (option_list emit ++ emits), w2. split.
    + cbn [feed_loop]. unfold mbind, M_bind, try_get. rewrite Hp, Heq, slice_from_app by done.
      by rewrite Hl.
    + rewrite Heq. replace (concat (option_list emit ++ emits)) with (default [] emit ++ concat emits).
      * by eapply step_ok_trans.
      * destruct emit; simpl; by rewrite ?app_nil_r.
Qed.

(** Enough fuel for a chunk of [content]. *)
Definition feed_fuel (content : text) : nat := S (2 * length content).

Lemma feed_ok fuel w content :
  utf8 content → feed_fuel content ≤ fuel →
  ∃ emits w', feed clock fuel content w = Done emits w' ∧ step_ok w content (concat emits) w'.
Proof.
  intros Hu Hf. destruct (drain_on_timeout_ok w) as (out & w1 & Hd & Hs & _).
  destruct (feed_loop_ok fuel w1 content) as (emits & w2 & Hl & Hs2); [done| |].
  { unfold feed_fuel, weight in *. destruct (state _); lia. }
  exists (option_list out ++ emits), w2. split.
  - unfold feed, mbind, M_bind. by rewrite Hd, Hl.
  - replace (concat (option_list out ++ emits)) with (default [] out ++ concat emits)
      by (destruct out; simpl; by rewrite ?app_nil_r).
    by eapply (step_ok_trans _ []).
Qed.
End steps.

(** ** The call text *)

(** A byte offset just after [#<digits>: ]. *)
Definition marker (buffer : text) (i : nat) : Prop :=
  ∃ a ds r, buffer = a ++ "#"%char :: ds ++ ":"%char :: " "%char :: r ∧
    forallb is_ascii_digit ds = true ∧ i = length a + length ds + 3.

(** [done] ends in a run of digits after a [#]. *)
Definition in_run (done : text) : Prop :=
  ∃ a ds, done = a ++ "#"%char :: ds ∧ forallb is_ascii_digit ds = true.

Lemma in_run_snoc done b :
  in_run (done ++ [b]) ↔ b = "#"%char ∨ in_run done ∧ is_ascii_digit b = true.
Proof.
  split.
  - intros (a & ds & Hd & Hds). destruct ds as [|d ds _] using rev_ind.
    + apply app_inj_2 in Hd as [_ [= ->]]; [by left|done].
    + rewrite forallb_app in Hds. apply andb_true_iff in Hds as [Hds Hb]. right.
      rewrite app_comm_cons, app_assoc in Hd. apply app_inj_2 in Hd as [-> [= ->]]; [|done].
      split; [by exists a, ds|]. by apply andb_true_iff in Hb as [? _].
  - intros [->|[(a & ds & -> & Hds) Hb]]; [by exists done, []|].
    exists a, (ds ++ [b]). split; [by rewrite <-app_assoc|].
    rewrite forallb_app, Hds. simpl. by rewrite Hb.
Qed.

(** A marker ends at [i + 2] when the bytes before [i] end in a run and [: ]
    follows. *)
Lemma marker_run done rest :
  marker (done ++ rest) (length done + 2) ↔
  in_run done ∧ ∃ r, rest = ":"%char :: " "%char :: r.
Proof.
  split.
  - intros (a & ds & r & Hb & Hds & Hi).
    assert (done = a ++ "#"%char :: ds ∧ rest = ":"%char :: " "%char :: r) as [-> ->].
    { apply app_inj_1; [rewrite length_app; simpl; lia|]. by rewrite Hb, <-app_assoc. }
    split; [by exists a, ds|by exists r].
  - intros [(a & ds & -> & Hds) [r ->]]. exists a, ds, r.
    split; [by rewrite <-app_assoc|]. split; [done|]. rewrite length_app. simpl. lia.
Qed.

Lemma marker_ge buffer i : marker buffer i → 2 < i.
Proof. intros (a & ds & r & _ & _ & ->). lia. Qed.

(** What the loop answers from [i = length done] on. *)
Lemma find_start_from_spec bytes done rest (in_digits : bool) :
  bytes = done ++ rest → (in_digits = true ↔ in_run done) →
  match find_start_from bytes (length done) in_digits rest with
  | Some i => marker bytes i ∧ (∀ j, marker bytes j → length done + 2 ≤ j → i ≤ j)
  | None => ∀ j, marker bytes j → j < length done + 2
  end.
Proof.
  revert done in_digits. induction rest as [|b rest IH]; intros done in_digits Hb Hin.
  { simpl. intros j (a & ds & r & Ha & _ & ->).
    rewrite app_nil_r in Hb. subst done. rewrite Ha, length_app. simpl. rewrite length_app. simpl. lia. }
  (* the step to the next byte, unless a marker ends here *)
  assert (Hstep : ∀ next : bool,
    (next = true ↔ in_run (done ++ [b])) →
    ¬ (in_run done ∧ ∃ r, b :: rest = ":"%char :: " "%char :: r) →
    match find_start_from bytes (S (length done)) next rest with
    | Some i => marker bytes i ∧ (∀ j, marker bytes j → length done + 2 ≤ j → i ≤ j)
    | None => ∀ j, marker bytes j → j < length done + 2
    end).
  { intros next Hnext Hno. rewrite <-marker_run, <-Hb in Hno.
    specialize (IH (done ++ [b]) next). rewrite length_app, Nat.add_comm in IH. simpl in IH.
    rewrite <-app_assoc in IH. specialize (IH Hb Hnext).
    destruct (find_start_from _ _ _ rest) as [i|].
    - destruct IH as [Hi Hmin]. split; [done|]. intros j Hj Hle.
      destruct (decide (j = length done + 2)) as [->|]; [done|]. apply Hmin; [done|lia].
    - intros j Hj. specialize (IH j Hj).
      destruct (decide (j = length done + 2)) as [->|]; [done|lia]. }
  simpl. case_bool_decide as Hh.
  { apply Hstep; [|naive_solver]. split; [|done]. intros _. apply in_run_snoc. by left. }
  destruct in_digits.
  2:{ apply Hstep; [|naive_solver]. split; [done|]. rewrite in_run_snoc. naive_solver. }
  destruct (is_ascii_digit b) eqn:Hd.
  { apply Hstep; [|intros [_ [r [= -> ->]]]; done].
    split; [|done]. intros _. apply in_run_snoc. right. split; [by apply Hin|done]. }
  assert (Hnext : false = true ↔ in_run (done ++ [b])).
  { split; [done|]. rewrite in_run_snoc. intros [?|[_ ?]]; congruence. }
  case_bool_decide as Hc; [subst b|apply Hstep; [done|intros [_ [r [= ? ?]]]; done]].
  assert (Hlk : bytes !! (length done + 1) = rest !! 0).
  { rewrite Hb, lookup_app_r by lia. by replace (length done + 1 - length done) with 1 by lia. }
  rewrite Hlk. destruct (_ && _) eqn:Hok.
  - apply andb_true_iff in Hok as [_ Hsp%bool_decide_eq_true].
    destruct rest as [|? rest]; [done|]. injection Hsp as ->. split.
    + rewrite Hb. apply marker_run. split; [by apply Hin|by exists rest].
    + intros j _ Hj. lia.
  - apply Hstep; [done|]. intros [_ [r [= ->]]].
    apply andb_false_iff in Hok as [Hlen%bool_decide_eq_false|Hsp%bool_decide_eq_false]; [|done].
    rewrite Hb, length_app in Hlen. simpl in Hlen. lia.
Qed.

Lemma find_debug_at_expression_start_spec buffer :
  match find_debug_at_expression_start buffer with
  | Some i => marker buffer i ∧ ∀ j, marker buffer j → i ≤ j
  | None => ∀ i, ¬ marker buffer i
  end.
Proof.
  pose proof (find_start_from_spec buffer [] buffer false eq_refl) as Hs.
  unfold find_debug_at_expression_start. simpl in Hs.
  assert (H0 : false = true ↔ in_run []).
  { split; [done|]. intros ([|??] & ? & ? & ?); done. }
  specialize (Hs H0). destruct (find_start_from _ _ _ _) as [i|].
  - destruct Hs as [Hm Hmin]. split; [done|]. intros j Hj. apply Hmin; [done|].
    apply marker_ge in Hj. lia.
  - intros i Hi. pose proof (marker_ge _ _ Hi). apply Hs in Hi. lia.
Qed.

(** A marker is a character boundary. *)
Lemma marker_slice buffer i :
  utf8 buffer → marker buffer i → slice_from buffer i = Some (drop i buffer).
Proof.
  intros Hu (a & ds & r & Hb & _ & ->).
  assert (Hsplit : buffer = (a ++ "#"%char :: ds ++ [":"; " "]%char) ++ r).
  { rewrite Hb, <-app_assoc. simpl. by rewrite <-app_assoc. }
  assert (Hr : utf8 r).
  { rewrite Hb in Hu. rewrite app_comm_cons, app_assoc in Hu.
    change (":"%char :: " "%char :: r) with ([":"]%char ++ " "%char :: r) in Hu.
    rewrite app_assoc in Hu. by eapply utf8_after_ascii; [|exact Hu]. }
  replace (length a + length ds + 3) with (length (a ++ "#"%char :: ds ++ [":"; " "]%char))
    by (rewrite !length_app; simpl; rewrite length_app; simpl; lia).
  rewrite Hsplit at 1 2. by rewrite slice_from_app, drop_app_length.
Qed.

(** The call text a capture holds: after the first marker of a [debug at]
    message, nothing when it has none. *)
Lemma finalize_capture_ok p buffer :
  utf8 buffer →
  finalize_capture p buffer = Some
    match p with
    | DebugAt => Some (CallDebugAt
        (from_option (λ i, drop i buffer) [] (find_debug_at_expression_start buffer)))
    | Debug => Some (CallDebug buffer)
    | CalledFrom => None
    end.
Proof.
  intros Hu. destruct p; simpl; [done| |done].
  pose proof (find_debug_at_expression_start_spec buffer) as Hf.
  destruct (find_debug_at_expression_start buffer) as [i|]; [|done].
  destruct Hf as [Hm _]. simpl. by rewrite marker_slice.
Qed.

(** ** Sessions *)

(** What the console does with its filter. *)
Inductive op :=
| OFeed (content : text)
| OCheckTimeout
| OFlush
| OReadConsole (is_browser : bool)
| OSetSuppress (suppress : bool).

(** The texts of a [&str] argument. *)
Definition op_ok (o : op) : Prop :=
  match o with OFeed content => utf8 content | _ => True end.

(** The text read and emitted so far, the output since the last prompt, and
    whether a prompt was the browser's. *)
Record trace := mkTrace {
  t_in : text;
  t_out : text;
  t_line : text;
  t_debugged : bool;
}.

Definition log (o : op) (out : text) (t : trace) : trace :=
  mkTrace
    (t_in t ++ match o with OFeed content => content | _ => [] end)
    (t_out t ++ out)
    (match o with OReadConsole _ => [] | _ => t_line t ++ out end)
    (t_debugged t || match o with OReadConsole is_browser => is_browser | _ => false end).

Section sessions.
Context (clock : nat → N).

Definition perform (o : op) : M World (list text) :=
  match o with
  | OFeed content => feed clock (feed_fuel content) content
  | OCheckTimeout => option_list <$> check_timeout clock
  | OFlush => option_list <$> flush
  | OReadConsole is_browser => (λ '(emit, _), option_list emit) <$> on_read_console is_browser
  | OSetSuppress b => set_suppress b;; mret []
  end.

Inductive session : World → trace → Prop :=
| session_new IS_TESTING : session (mkWorld (new_filter IS_TESTING) 0) (mkTrace [] [] [] false)
| session_step w t o emits w' :
    session w t → op_ok o → perform o w = Done emits w' → session w' (log o (concat emits) t).

(** At a prompt nothing stays held; what was is emitted, but at a browser
    prompt that suppresses it. *)
Lemma on_read_console_ok is_browser w :
  utf8 (held w) →
  ∃ emit update w', on_read_console is_browser w = Done (emit, update) w' ∧
    state (filter_ w') = Passthrough true ∧
    (negb is_browser || negb (suppress (filter_ w)) = true → default [] emit = held w).
Proof.
  destruct w as [[[b|p buffer ts] limit sup] n]; unfold held; simpl; intros Hu.
  { eexists None, None, _. unfold on_read_console. run_op. done. }
  assert (Hb : utf8 buffer) by by eapply utf8_ascii_prefix; [apply prefix_ascii|].
  unfold on_read_console. run_op. destruct is_browser; simpl.
  - rewrite finalize_capture_ok by done. eexists _, _, _. split; [done|]. split; [done|].
    by destruct sup.
  - eexists _, _, _. split; [done|]. done.
Qed.

(** Every operation of a session ends without a panic. *)
Lemma perform_ok o w :
  utf8 (held w) → op_ok o →
  ∃ emits w', perform o w = Done emits w' ∧
    match o with
    | OFeed content => step_ok w content (concat emits) w'
    | OReadConsole is_browser => state (filter_ w') = Passthrough true ∧
        (is_browser = false → concat emits = held w)
    | _ => step_ok w [] (concat emits) w'
    end.
Proof.
  intros Hu Ho. destruct o as [content| | |is_browser|b]; simpl in *.
  - by apply feed_ok.
  - destruct (drain_on_timeout_ok clock w) as (out & w' & Hd & Hs & _).
    exists (option_list out), w'. unfold fmap, M_fmap, check_timeout. rewrite Hd. split; [done|].
    destruct out; simpl; by rewrite ?app_nil_r.
  - destruct (drain_ok w) as (out & w' & Hd & Hs & _).
    exists (option_list out), w'. unfold fmap, M_fmap, flush. rewrite Hd. split; [done|].
    destruct out; simpl; by rewrite ?app_nil_r.
  - destruct (on_read_console_ok is_browser w Hu) as (emit & update & w' & Hr & Hst & He).
    exists (option_list emit), w'. unfold fmap, M_fmap. rewrite Hr. split; [done|].
    split; [done|]. intros ->. rewrite <-He by done. destruct emit; simpl; by rewrite ?app_nil_r.
  - eexists [], _. split; [reflexivity|]. destruct w as [[st limit sup] n].
    split; [|intros line|..]; unfold held, tracks; simpl; rewrite ?app_nil_r; done.
Qed.

Lemma session_inv w t :
  session w t →
  utf8 (held w) ∧ tracks w (t_line t) ∧
  (t_debugged t = false → released (t_in t) (t_out t ++ held w)).
Proof.
  induction 1 as [|w t o emits w' _ (Hu & Ht & Hr) Ho Hp]; [done|].
  destruct (perform_ok o w Hu Ho) as (emits' & w1 & Hp' & Hok).
  rewrite Hp in Hp'. injection Hp' as <- <-.
  assert (Hstep : ∀ inp, step_ok w inp (concat emits) w' →
    utf8 (held w') ∧ tracks w' (t_line t ++ concat emits) ∧
    (t_debugged t = false → released (t_in t ++ inp) ((t_out t ++ concat emits) ++ held w'))).
  { intros inp [R T _ U]. split; [auto|]. split; [auto|]. intros Hd. rewrite <-app_assoc.
    eapply released_extend; [by apply Hr|done]. }
  destruct o as [content| | |is_browser|b]; simpl in *; rewrite ?orb_false_r;
    [by apply Hstep..| |by apply Hstep].
  destruct Hok as [Hst He]. unfold tracks, held at 1 2. rewrite Hst.
  split; [done|]. split; [done|]. intros [Hd ->]%orb_false_iff.
  rewrite He, !app_nil_r by done. by apply Hr.
Qed.

(** C14. Over a whole session (chunks fed, timer ticks, flushes and prompts, in
    any order and at any speed of the clock): (1) every next operation ends
    and never panics; (2) [at_line_start] says whether the output since the
    last prompt ends a line, and a capture only starts where it does; (3) as
    long as the user has not been in the debugger, the output with what is
    held is the input, except for whole debug messages that another debug
    prefix follows. *)
Theorem session_conserves_output w t :
  session w t →
  (∀ o, op_ok o → ∃ emits w', perform o w = Done emits w') ∧
  tracks w (t_line t) ∧
  (t_debugged t = false → released (t_in t) (t_out t ++ held w)).
Proof.
  intros (Hu & Ht & Hr)%session_inv. split; [|done].
  intros o Ho. destruct (perform_ok o w Hu Ho) as (emits & w' & Hp & _). eauto.
Qed.

(** Held output is released: all of it by a timer tick once the timeout
    has passed, by a flush, and by a top-level prompt. *)
Theorem held_output_released w t :
  session w t →
  (∀ pattern buffer timestamp, state (filter_ w) = Filtering pattern buffer timestamp →
    (timeout (filter_ w) < clock (reads w) - timestamp)%N →
    ∃ w', check_timeout clock w = Done (Some (held w)) w' ∧ held w' = []) ∧
  (∃ out w', flush w = Done out w' ∧ default [] out = held w ∧ held w' = []) ∧
  (∃ out w', on_read_console false w = Done (out, None) w' ∧ default [] out = held w ∧ held w' = []).
Proof.
  intros (Hu & _)%session_inv. split; [|split].
  - intros p buffer ts Hst Hlate.
    destruct (drain_on_timeout_ok clock w) as (out & w' & Hd & _ & Ho).
    rewrite Hst in Ho. destruct (Ho Hlate) as [Hout Hh]. exists w'. split; [|done].
    unfold check_timeout. rewrite Hd. destruct out; simpl in *; [by subst|].
    exfalso. unfold held in Hout. rewrite Hst in Hout. by destruct p.
  - destruct (drain_ok w) as (out & w' & Hd & _ & Ho). eauto.
  - destruct w as [[[b|p buffer ts] limit sup] n]; unfold on_read_console; run_op;
      eexists _, _; done.
Qed.
End sessions.

(** ** A debug message at a browser prompt *)

Section capture.
Context (clock : nat → N).

(** [feed] on each chunk R writes. *)
Fixpoint feed_each (chunks : list text) : M World (list text) :=
  match chunks with
  | [] => mret []
  | content :: chunks =>
      emits ← feed clock (feed_fuel content) content;
      rest ← feed_each chunks;
      mret (emits ++ rest)
  end.

(** No chunk that starts a line of the message starts with a debug prefix. *)
Fixpoint no_nested (body : text) (chunks : list text) : Prop :=
  match chunks with
  | [] => True
  | content :: chunks =>
      (line_start body = true → try_match_prefix content = None) ∧
      no_nested (body ++ content) chunks
  end.

(** Any two readings of the clock are within the timeout. *)
Definition in_time (limit : N) : Prop := ∀ i j, (clock j - clock i ≤ limit)%N.

Context (limit : N) (Htime : in_time limit) (sup : bool).

Lemma filtering_chunk p body i content n :
  content ≠ [] → (line_start body = true → try_match_prefix content = None) →
  process_filtering clock p body (clock i) content
    (mkWorld (mkConsoleFilter (Filtering p body (clock i)) limit sup) n) =
  Done (None, length content)
    (mkWorld (mkConsoleFilter (Filtering p (body ++ content) (clock i)) limit sup) (S n)).
Proof.
  intros Hne Hno. unfold process_filtering. run_op.
  rewrite bool_decide_false by (apply N.le_ngt, Htime). simpl. fold (line_start body).
  by destruct (line_start body); [rewrite Hno|].
Qed.

Lemma feed_loop_step fuel remaining :
  remaining ≠ [] →
  feed_loop clock (S fuel) remaining =
    ('(emit, consumed) ← process_chunk clock remaining;
     remaining ← try_get (λ _, slice_from remaining consumed);
     emits ← feed_loop clock fuel remaining;
     mret (option_list emit ++ emits)).
Proof. by destruct remaining. Qed.

(** The loop over what is left of a chunk. *)
Lemma filtering_loop fuel p body i content n :
  feed_fuel content ≤ S fuel → (line_start body = true → try_match_prefix content = None) →
  ∃ n', feed_loop clock fuel content
    (mkWorld (mkConsoleFilter (Filtering p body (clock i)) limit sup) n) =
  Done [] (mkWorld (mkConsoleFilter (Filtering p (body ++ content) (clock i)) limit sup) n').
Proof.
  intros Hf Hno. destruct content as [|b content].
  { exists n. rewrite app_nil_r. by destruct fuel. }
  destruct fuel as [|fuel]; [unfold feed_fuel in Hf; simpl in Hf; lia|].
  exists (S n). rewrite feed_loop_step by done. unfold mbind, M_bind at 1.
  change (process_chunk clock (b :: content) ?w)
    with (process_filtering clock p body (clock i) (b :: content) w).
  rewrite filtering_chunk by done. unfold try_get.
  pose proof (slice_from_app (b :: content) [] eq_refl) as Hs. rewrite app_nil_r in Hs.
  rewrite Hs. by destruct fuel.
Qed.

Lemma filtering_feed p body i content n :
  (line_start body = true → try_match_prefix content = None) →
  ∃ n', feed clock (feed_fuel content) content
    (mkWorld (mkConsoleFilter (Filtering p body (clock i)) limit sup) n) =
  Done [] (mkWorld (mkConsoleFilter (Filtering p (body ++ content) (clock i)) limit sup) n').
Proof.
  intros Hno.
  destruct (filtering_loop (feed_fuel content) p body i content (S n)) as [n' Hl]; [lia|done|].
  exists n'. unfold feed, drain_on_timeout. run_op.
  rewrite bool_decide_false by (apply N.le_ngt, Htime). by rewrite Hl.
Qed.

Lemma filtering_feed_each p body i chunks n :
  no_nested body chunks →
  ∃ n', feed_each chunks (mkWorld (mkConsoleFilter (Filtering p body (clock i)) limit sup) n) =
  Done [] (mkWorld (mkConsoleFilter (Filtering p (body ++ concat chunks) (clock i)) limit sup) n').
Proof.
  revert body n. induction chunks as [|c chunks IH]; intros body n.
  { intros _. exists n. simpl. by rewrite app_nil_r. }
  intros [Hno Hrest]. destruct (filtering_feed p body i c n Hno) as [n1 H1].
  destruct (IH (body ++ c) n1 Hrest) as [n2 H2]. exists n2.
  cbn [feed_each]. unfold mbind, M_bind. rewrite H1, H2. simpl. by rewrite <-app_assoc.
Qed.

(** A chunk that starts with a prefix, at the start of a line. *)
Lemma prefix_feed_loop p content n w' :
  utf8 content →
  feed_loop clock (2 * length (Pattern.prefix p ++ content)) content
    (mkWorld (mkConsoleFilter (Filtering p [] (clock n)) limit sup) (S n)) = Done [] w' →
  feed clock (feed_fuel (Pattern.prefix p ++ content)) (Pattern.prefix p ++ content)
    (mkWorld (mkConsoleFilter (Passthrough true) limit sup) n) = Done [] w'.
Proof.
  intros Hu Hl. unfold feed, feed_fuel, drain_on_timeout. run_op.
  rewrite feed_loop_step by by destruct p. unfold process_chunk at 1. run_op.
  rewrite try_match_prefix_app. run_op. rewrite slice_from_app by done.
  cbv [with_state]. cbn [timeout suppress]. by rewrite Hl.
Qed.

Lemma prefix_feed p content n :
  utf8 content → try_match_prefix content = None →
  ∃ n', feed clock (feed_fuel (Pattern.prefix p ++ content)) (Pattern.prefix p ++ content)
    (mkWorld (mkConsoleFilter (Passthrough true) limit sup) n) =
  Done [] (mkWorld (mkConsoleFilter (Filtering p content (clock n)) limit sup) n').
Proof.
  intros Hu Hno.
  destruct (filtering_loop (2 * length (Pattern.prefix p ++ content)) p [] n content (S n))
    as [n' Hl]; [|done|].
  { unfold feed_fuel. rewrite length_app. lia. }
  exists n'. by apply prefix_feed_loop.
Qed.

(** A second prefix right after the first. *)
Lemma nested_feed p q content n :
  utf8 content → try_match_prefix content = None →
  let chunk := Pattern.prefix p ++ Pattern.prefix q ++ content in
  ∃ n', feed clock (feed_fuel chunk) chunk
    (mkWorld (mkConsoleFilter (Passthrough true) limit sup) n) =
  Done [] (mkWorld (mkConsoleFilter (Filtering q content (clock n)) limit sup) n').
Proof.
  intros Hu Hno. cbn zeta.
  destruct (2 * length (Pattern.prefix p ++ Pattern.prefix q ++ content)) as [|fuel] eqn:Hf.
  { destruct p; simpl in Hf; lia. }
  destruct (filtering_loop fuel q [] n content (S (S n))) as [n' Hl]; [|done|].
  { unfold feed_fuel. rewrite !length_app in Hf. pose proof (prefix_long q). lia. }
  exists n'. apply prefix_feed_loop; [apply utf8_app; [apply utf8_of_ascii, prefix_ascii|done]|].
  rewrite Hf, feed_loop_step by by destruct q.
  unfold mbind, M_bind at 1, process_chunk, process_filtering. run_op.
  rewrite bool_decide_false by (apply N.le_ngt, Htime). cbn iota.
  rewrite bool_decide_true by done. rewrite try_match_prefix_app. cbn [orb]. run_op.
  rewrite slice_from_app by done. cbv [with_state]. cbn [timeout suppress]. by rewrite Hl.
Qed.
End capture.

(** Stepping reads the call from the console: from the start of a line, R
    writes a debug prefix and then, in any chunks and within the timeout, the
    text [body]. Nothing reaches the console; at the browser prompt the message
    is dropped, or emitted whole when [suppress] is off; and the answer is the
    call text: all of [body] for [debug: ], what follows the first
    [#<digits>: ] of it for [debug at ] (nothing when it has none), no update
    for [Called from: ]. *)
Theorem capture_extracts_call clock limit sup n p content chunks :
  let body := content ++ concat chunks in
  in_time clock limit → utf8 content → Forall utf8 chunks → no_nested [] (content :: chunks) →
  ∃ w' update,
    (emits ← feed_each clock ((Pattern.prefix p ++ content) :: chunks);
     r ← on_read_console true;
     mret (emits, r)) (mkWorld (mkConsoleFilter (Passthrough true) limit sup) n) =
    Done ([], (if sup then None else Some (Pattern.prefix p ++ body), update)) w' ∧
    state (filter_ w') = Passthrough true ∧
    match p with
    | CalledFrom => update = None
    | Debug => update = Some (CallDebug body)
    | DebugAt => ∃ t, update = Some (CallDebugAt t) ∧
        (∀ i, marker body i → (∀ j, marker body j → i ≤ j) → t = drop i body) ∧
        ((∀ i, ¬ marker body i) → t = [])
    end.
Proof.
  intros body Ht Hu Hus [Hno Hrest].
  destruct (prefix_feed clock limit Ht sup p content n Hu (Hno eq_refl)) as [n1 E1].
  destruct (filtering_feed_each clock limit Ht sup p content n chunks n1 Hrest) as [n2 E2].
  assert (Hb : utf8 body).
  { unfold body. apply utf8_app; [done|].
    clear -Hus. induction Hus; [done|]. by apply (utf8_app 0). }
  cbn [feed_each]. unfold mbind, M_bind. rewrite E1, E2. unfold on_read_console. run_op.
  fold body. rewrite finalize_capture_ok by done.
  eexists _, _. split; [by destruct sup|]. split; [done|]. destruct p; [done| |done].
  eexists. split; [done|]. pose proof (find_debug_at_expression_start_spec body) as Hf.
  destruct (find_debug_at_expression_start body) as [i|]; simpl; [|naive_solver].
  destruct Hf as [Hi Hmin]. split; [|intros Hn; by destruct (Hn i)].
  intros j Hj Hjmin. replace j with i; [done|]. apply Nat.le_antisymm; auto.
Qed.

(** ** The lines stripped from autoprint *)

(** The lines before the first debug line. *)
Fixpoint before_debug (lines : list text) : list text :=
  match lines with
  | [] => []
  | line :: lines => if is_debug_line line then [] else line :: before_debug lines
  end.

Lemma strip_lines_from_ok t kept lines :
  t = kept ++ concat lines → utf8 t →
  (∀ ls line rest, lines = ls ++ line :: rest → utf8 (concat (line :: rest))) →
  strip_lines_from t (length kept) lines = Some (kept ++ concat (before_debug lines)).
Proof.
  revert kept. induction lines as [|line lines IH]; intros kept Ht Hu Hb; simpl.
  { by rewrite Ht. }
  destruct (is_debug_line line).
  - rewrite Ht, truncate_app by by apply (Hb [] line lines). simpl. by rewrite app_nil_r.
  - rewrite <-length_app, (IH (kept ++ line)); [|by rewrite <-app_assoc|done|].
    + by rewrite <-app_assoc.
    + intros ls l rest Hl. apply (Hb (line :: ls)). by rewrite Hl.
Qed.

(** A line of a text starts at a character. *)
Lemma lines_utf8 t ls line rest :
  utf8 t → split_inclusive t = ls ++ line :: rest → utf8 (concat (line :: rest)).
Proof.
  intros Hu Hs. pose proof (split_inclusive_concat t) as Hc. rewrite Hs, concat_app in Hc.
  destruct ls as [|l ls _] using rev_ind; [by rewrite <-Hc in Hu|].
  rewrite <-app_assoc in Hs.
  destruct (split_inclusive_lines t ls l (line :: rest) Hs) as [_ [l' ->]]; [done|].
  rewrite concat_app in Hc. cbn [concat] in Hc. rewrite app_nil_r, <-app_assoc in Hc.
  rewrite <-app_assoc in Hc. unfold utf8 in Hu. rewrite <-Hc, app_assoc in Hu.
  by apply utf8_after_newline in Hu.
Qed.

(** [strip_step_lines] never panics and leaves the lines before the first
    that starts with a debug prefix, whole. *)
Theorem strip_step_lines_spec t :
  utf8 t → strip_step_lines t = Some (concat (before_debug (split_inclusive t))).
Proof.
  intros Hu. apply (strip_lines_from_ok t [] (split_inclusive t)); [|done|].
  - by rewrite split_inclusive_concat.
  - intros ls line rest. by apply lines_utf8.
Qed.

(** Output can be lost outside the debugger: when a line of the program's
    own output starts with a debug prefix twice over, the first is gone for
    good, even though the next prompt is the top level's. *)
Theorem nested_prefix_swallowed clock p q content IS_TESTING :
  (∀ i j, clock j - clock i ≤ timeout (new_filter IS_TESTING))%N →
  utf8 content → try_match_prefix content = None →
  ∃ w', (emits ← feed_each clock [Pattern.prefix p ++ Pattern.prefix q ++ content];
         r ← on_read_console false;
         mret (emits, r)) (mkWorld (new_filter IS_TESTING) 0) =
    Done ([], (Some (Pattern.prefix q ++ content), None)) w'.
Proof.
  intros Ht Hu Hno.
  destruct (nested_feed clock _ Ht true p q content 0 Hu Hno) as [n' E1].
  cbn [feed_each]. unfold mbind, M_bind. change (mkWorld (new_filter IS_TESTING) 0)
    with (mkWorld (mkConsoleFilter (Passthrough true) (timeout (new_filter IS_TESTING)) true) 0).
  rewrite E1. eexists. reflexivity.
Qed.

(** ** Concrete runs *)

Section play.
Context (clock : nat → N).

Fixpoint play (ops : list op) (w : World) (t : trace) : option (World * trace) :=
  match ops with
  | [] => Some (w, t)
  | o :: ops =>
      match perform clock o w with
      | Done emits w => play ops w (log o (concat emits) t)
      | _ => None
      end
  end.

Lemma play_session ops w t w' t' :
  session clock w t → Forall op_ok ops → play ops w t = Some (w', t') → session clock w' t'.
Proof.
  revert w t. induction ops as [|o ops IH]; intros w t Hs Ho Hp; simpl in Hp; [by simplify_eq|].
  apply Forall_cons in Ho as [Ho Hos]. destruct (perform clock o w) as [emits w1| |] eqn:He; [|done..].
  eapply IH; [|done|exact Hp]. by eapply session_step.
Qed.
End play.

Definition tick (i : nat) : N := N.of_nat i.

(** A line of output, a nested debug message, a prompt at the top level. *)
Definition sample_ops : list op := [
  OFeed (text_of "[1] 2" ++ [newline] ++ text_of "tail");
  OFeed [newline]; OCheckTimeout;
  OFeed (text_of "debug: f()" ++ [newline]);
  OFeed (text_of "Called from: g()")].

Definition sample_session : World * trace :=
  default (mkWorld (new_filter true) 0, mkTrace [] [] [] true)
    (play tick sample_ops (mkWorld (new_filter true) 0) (mkTrace [] [] [] false)).

Lemma sample_session_ok : session tick sample_session.1 sample_session.2.
Proof.
  apply (play_session tick sample_ops (mkWorld (new_filter true) 0) (mkTrace [] [] [] false)).
  - constructor.
  - repeat (apply Forall_cons; split; [done|]). by apply Forall_nil.
  - vm_compute. reflexivity.
Qed.

Lemma session_conserves_output_witness :
  let (w, t) := sample_session in
  t_debugged t = false ∧ held w = text_of "Called from: g()" ∧
  (∃ emits w', perform tick OFlush w = Done emits w') ∧
  released (t_in t) (t_out t ++ held w).
Proof.
  split; [done|]. split; [done|].
  destruct (session_conserves_output tick _ _ sample_session_ok) as (Ho & _ & Hr).
  split; [by apply (Ho OFlush)|]. by apply Hr.
Defined.

Lemma held_output_released_witness :
  let w := sample_session.1 in
  ∃ out w', flush w = Done out w' ∧ default [] out = text_of "Called from: g()" ∧ held w' = [].
Proof. by destruct (held_output_released tick _ _ sample_session_ok) as (_ & Hf & _). Defined.

Lemma capture_extracts_call_witness :
  ∃ w' update,
    (emits ← feed_each (λ _, 7%N) [text_of "debug at a.R#10: "; text_of "x <- 1"];
     r ← on_read_console true;
     mret (emits, r)) (mkWorld (mkConsoleFilter (Passthrough true) 500 true) 0) =
    Done ([], (None, update)) w' ∧ update = Some (CallDebugAt (text_of "x <- 1")).
Proof.
  destruct (capture_extracts_call (λ _, 7%N) 500 true 0 DebugAt (text_of "a.R#10: ")
    [text_of "x <- 1"]) as (w' & update & Hrun & _).
  - intros i j. lia.
  - done.
  - by repeat constructor.
  - split; [done|]. split; [done|]. done.
  - exists w', update. split; [exact Hrun|]. vm_compute in Hrun. by injection Hrun as <- <-.
Defined.

Lemma strip_step_lines_spec_witness :
  strip_step_lines (text_of "[1] 42" ++ [newline] ++ text_of "debug at a.R#1: x") =
  Some (text_of "[1] 42" ++ [newline]).
Proof. rewrite strip_step_lines_spec; vm_compute; reflexivity. Defined.

Lemma nested_prefix_swallowed_witness :
  ∃ w', (emits ← feed_each (λ _, 7%N) [text_of "debug: debug: hello"];
         r ← on_read_console false;
         mret (emits, r)) (mkWorld (new_filter false) 0) =
    Done ([], (Some (text_of "debug: hello"), None)) w'.
Proof.
  apply (nested_prefix_swallowed (λ _, 7%N) Debug Debug (text_of "hello") false).
  - intros i j. vm_compute. done.
  - done.
  - done.
Defined.
