(* ===== verification/Paths.v ===== *)
(** * File identities: [crates/aether_path/src/file_path.rs]

    A [Utf8Path] that is absolute and lexically normalised is its list of
    components, [path]; the text of a path is [text] (Unix paths: no Windows
    prefix). [FilePath] is the tagged identity the database keys files with.
    Also the parts of [crates/oak_core/src/file.rs] and
    [crates/oak_db/src/package_layout.rs] that only look at paths, and the
    comparison of texts and paths with the sorted lists that use it. *)

From S2P Require Export Text.

Abbreviation path := (list text).

(** [AbsPathBuf] is a [path]; [VirtualUri] is its verbatim text. *)
Inductive FilePath :=
| FFile (p : path)
| FVirtual (uri : text).

#[export] Instance FilePath_eq_dec : EqDecision FilePath.
Proof. solve_decision. Defined.

#[export] Instance FilePath_countable : Countable FilePath.
Proof.
  refine (inj_countable'
    (λ f, match f with FFile p => inl p | FVirtual u => inr u end)
    (λ s, match s with inl p => FFile p | inr u => FVirtual u end) _).
  by intros [].
Defined.

#[export] Instance FilePath_inhabited : Inhabited FilePath := populate (FFile []).

Definition as_path (f : FilePath) : option path :=
  match f with FFile p => Some p | FVirtual _ => None end.

Definition is_file_path (f : FilePath) : bool :=
  match f with FFile _ => true | FVirtual _ => false end.

(** ** Components *)

Definition slash : ascii := "/"%char.

(** [s.split(c)]. *)
Fixpoint split_on (c : ascii) (s : text) : list text :=
  match s with
  | [] => [[]]
  | b :: s =>
      if bool_decide (b = c) then [] :: split_on c s
      else match split_on c s with
           | [] => [[b]]
           | piece :: pieces => (b :: piece) :: pieces
           end
  end.

Definition cur_dir : text := text_of ".".
Definition parent_dir : text := text_of "..".

(** The [ParentDir] and [Normal] components of an absolute path, in order:
    [components()] drops empty pieces and [.]. *)
Definition components (s : text) : list text :=
  filter (λ piece, piece ≠ [] ∧ piece ≠ cur_dir) (split_on slash s).

Definition is_absolute (s : text) : bool := starts_with s [slash].

(** [out.pop()]: nothing at the root. *)
Definition pop (out : path) : path := take (length out - 1) out.

(** One component of the loop of [normalise]. *)
Definition normalise_component (out : path) (component : text) : path :=
  if bool_decide (component = parent_dir) then pop out else out ++ [component].

Definition normalise (s : text) : path := foldl normalise_component [] (components s).

Definition from_utf8_path_buf (s : text) : option path :=
  if is_absolute s then Some (normalise s) else None.

(** A [PathBuf]: the bytes it holds, and whether they are UTF-8. *)
Record PathBuf := mkPathBuf { pb_text : text; pb_utf8 : bool }.

Definition abs_from_path_buf (p : PathBuf) : option path :=
  if pb_utf8 p then from_utf8_path_buf (pb_text p) else None.

(** [FilePath::from_path_buf]. *)
Definition from_path_buf (p : PathBuf) : option FilePath := FFile <$> abs_from_path_buf p.

(** The text of a path: what [as_path()] holds. *)
Definition path_text (p : path) : text :=
  match p with [] => [slash] | _ => concat ((λ c, slash :: c) <$> p) end.

(** ** Queries on normalised paths *)

(** [path.starts_with(base)], which compares components. *)
Definition path_starts_with (p base : path) : bool := bool_decide (base `prefix_of` p).

(** [path.strip_prefix(base)]. *)
Definition strip_prefix (p base : path) : option path :=
  if path_starts_with p base then Some (drop (length base) p) else None.

Definition file_name (p : path) : option text := last p.

(** [path.parent()]. *)
Definition parent (p : path) : option path :=
  match p with [] => None | _ => Some (pop p) end.

(** [path.join(name)] for a single component. *)
Definition join (p : path) (name : text) : path := p ++ [name].

(** [path.ancestors()]: the path itself first, the root last. *)
Definition ancestors (p : path) : list path :=
  (λ n, take n p) <$> reverse (seq 0 (S (length p))).

(** ASCII letters, without case. *)
Definition to_lower (b : ascii) : ascii :=
  if bool_decide (65 ≤ N_of_ascii b ≤ 90)%N then ascii_of_N (N_of_ascii b + 32) else b.

Definition eq_ignore_ascii_case (a b : text) : bool :=
  bool_decide (to_lower <$> a = to_lower <$> b).

Definition dot : ascii := "."%char.

(** [path.extension()]: what follows the last dot of the file name, unless the
    name starts with its only dot. *)
Definition extension (p : path) : option text :=
  name ← file_name p;
  i ← find_char (reverse name) dot;
  if bool_decide (i + 1 = length name) then None else Some (drop (length name - i) name).

(** [oak_core::is_r_file]. *)
Definition has_r_extension (p : path) : bool :=
  match extension p with
  | Some e => eq_ignore_ascii_case e (text_of "r")
  | None => false
  end.

(** [PackagePlacement] and [classify_in_package]. *)
Inductive PackagePlacement := PlacedFile | PlacedScript | Skip.

#[export] Instance PackagePlacement_eq_dec : EqDecision PackagePlacement.
Proof. solve_decision. Defined.

Definition classify_in_package (package_dir p : path) : PackagePlacement :=
  let r_dir := join package_dir (text_of "R") in
  if bool_decide (parent p = Some r_dir) then PlacedFile
  else if path_starts_with p r_dir then Skip
  else PlacedScript.

(** ** Facts *)

(** A component of a normalised path. *)
Definition is_component (c : text) : Prop :=
  c ≠ [] ∧ c ≠ cur_dir ∧ c ≠ parent_dir ∧ slash ∉ c.

Definition normalised (p : path) : Prop := Forall is_component p.

Lemma split_on_app c (a b : text) :
  c ∉ a → split_on c (a ++ c :: b) = a :: split_on c b.
Proof.
  induction a as [|x a IH]; simpl; intros Ha; [by rewrite bool_decide_true|].
  rewrite bool_decide_false by set_solver. by rewrite IH by set_solver.
Qed.

Lemma split_on_none c (a : text) : c ∉ a → split_on c a = [a].
Proof.
  induction a as [|x a IH]; simpl; intros Ha; [done|].
  rewrite bool_decide_false by set_solver. by rewrite IH by set_solver.
Qed.

Lemma split_on_elem c s piece : piece ∈ split_on c s → c ∉ piece.
Proof.
  revert piece. induction s as [|b s IH]; intros piece; simpl.
  { intros ->%list_elem_of_singleton. apply not_elem_of_nil. }
  case_bool_decide as Hb.
  { intros [->|Hp]%elem_of_cons; [apply not_elem_of_nil|by apply IH]. }
  destruct (split_on c s) as [|p ps].
  - intros ->%list_elem_of_singleton. by intros ->%list_elem_of_singleton.
  - intros [->|Hp]%elem_of_cons; [|apply IH; by right].
    intros [?|Hc]%elem_of_cons; [congruence|]. by apply (IH p); [left|].
Qed.

Lemma pop_snoc (p : path) c : pop (p ++ [c]) = p.
Proof. unfold pop. rewrite length_app, Nat.add_sub. by rewrite take_app_length. Qed.

Lemma pop_prefix p : pop p `prefix_of` p.
Proof. apply prefix_take. Qed.

Lemma normalise_component_ok out c :
  normalised out → c ≠ [] → c ≠ cur_dir → slash ∉ c → normalised (normalise_component out c).
Proof.
  intros Ho E1 E2 E3. unfold normalise_component. case_bool_decide.
  - by apply Forall_take.
  - apply Forall_app. split; [done|]. by apply Forall_singleton.
Qed.

Lemma normalise_ok s : normalised (normalise s).
Proof.
  unfold normalise. assert (Hc : Forall (λ c, c ≠ [] ∧ c ≠ cur_dir ∧ slash ∉ c) (components s)).
  { apply Forall_forall. intros c [[??] Hs]%list_elem_of_filter. by apply split_on_elem in Hs. }
  assert (Ho : normalised []) by constructor. revert Ho. generalize (@nil text).
  induction (components s) as [|c cs IH]; intros out Ho; simpl; [done|].
  apply Forall_cons in Hc as [(?&?&?) Hcs]. apply IH; [done|]. by apply normalise_component_ok.
Qed.

Lemma foldl_normalised out p :
  normalised p → foldl normalise_component out p = out ++ p.
Proof.
  revert out. induction p as [|c p IH]; intros out; simpl; [by rewrite app_nil_r|].
  intros [(?&?&?&?) Hp]%Forall_cons. rewrite IH by done. unfold normalise_component.
  rewrite bool_decide_false by done. by rewrite <-app_assoc.
Qed.

Lemma split_on_path_text p :
  Forall (λ c, slash ∉ c) p → split_on slash (concat ((λ c, slash :: c) <$> p)) = [] :: p.
Proof.
  induction p as [|c p IH]; [done|]. intros [Hc Hp]%Forall_cons.
  rewrite fmap_cons. cbn [concat app split_on]. rewrite bool_decide_true by done. f_equal.
  destruct p as [|c' p].
  - simpl. rewrite app_nil_r. by apply split_on_none.
  - specialize (IH Hp). rewrite fmap_cons in IH |- *. cbn [concat app split_on] in IH |- *.
    rewrite bool_decide_true in IH by done. injection IH as IH.
    rewrite split_on_app by done. by f_equal.
Qed.

Lemma filter_all {A} (P : A → Prop) `{∀ x, Decision (P x)} (l : list A) :
  Forall P l → filter P l = l.
Proof. induction 1; [done|]. rewrite filter_cons_True by done. by f_equal. Qed.

Lemma components_path_text p : normalised p → components (path_text p) = p.
Proof.
  intros Hp. unfold components, path_text. destruct p as [|c p]; [done|].
  rewrite split_on_path_text.
  - rewrite filter_cons_False by naive_solver. apply filter_all.
    eapply Forall_impl; [exact Hp|]. by intros ? (?&?&?&?).
  - eapply Forall_impl; [exact Hp|]. by intros ? (?&?&?&?).
Qed.

Lemma from_utf8_normalised s p : from_utf8_path_buf s = Some p → normalised p.
Proof. unfold from_utf8_path_buf. destruct (is_absolute s); [|done]. intros [= <-]. apply normalise_ok. Qed.

Lemma from_path_text p : normalised p → from_utf8_path_buf (path_text p) = Some p.
Proof.
  intros Hp. unfold from_utf8_path_buf.
  assert (is_absolute (path_text p) = true) as ->.
  { apply starts_with_spec. destruct p as [|c p]; [by exists []|]. simpl. eauto. }
  unfold normalise. rewrite components_path_text by done. by rewrite foldl_normalised.
Qed.

(** Identities are canonical: an absolute path normalises to components
    without [.], [..] or separators; building a path again from the text of the
    result gives the same path, so two identities with the same text are
    equal. *)
Theorem from_path_buf_roundtrip s p :
  from_utf8_path_buf s = Some p →
  normalised p ∧ from_utf8_path_buf (path_text p) = Some p ∧
  ∀ s' p', from_utf8_path_buf s' = Some p' → path_text p' = path_text p → p' = p.
Proof.
  intros Hs. assert (Hp := from_utf8_normalised _ _ Hs). split; [done|].
  split; [by apply from_path_text|]. intros s' p' Hs' Ht.
  assert (Hp' := from_utf8_normalised _ _ Hs'). apply from_path_text in Hp, Hp'. congruence.
Qed.

Lemma from_path_buf_roundtrip_witness :
  from_utf8_path_buf (text_of "/home//me/./proj/../pkg/") =
    Some [text_of "home"; text_of "me"; text_of "pkg"] ∧
  from_utf8_path_buf (path_text [text_of "home"; text_of "me"; text_of "pkg"]) =
    Some [text_of "home"; text_of "me"; text_of "pkg"].
Proof.
  assert (Hs : from_utf8_path_buf (text_of "/home//me/./proj/../pkg/") =
    Some [text_of "home"; text_of "me"; text_of "pkg"]) by (vm_compute; reflexivity).
  split; [exact Hs|]. apply (from_path_buf_roundtrip _ _ Hs).
Defined.

(** Bytes in lexicographic order, and paths by their components. *)
Fixpoint text_le (a b : text) : bool :=
  match a, b with
  | [], _ => true
  | _ :: _, [] => false
  | x :: a, y :: b =>
      if bool_decide (N_of_ascii x < N_of_ascii y)%N then true
      else if bool_decide (N_of_ascii y < N_of_ascii x)%N then false
      else text_le a b
  end.

Fixpoint path_le (a b : path) : bool :=
  match a, b with
  | [], _ => true
  | _ :: _, [] => false
  | x :: a, y :: b =>
      if bool_decide (x = y) then path_le a b else text_le x y
  end.

(** Optional names: [None] sorts first. *)
Definition name_le (a b : option text) : bool :=
  match a, b with
  | None, _ => true
  | Some _, None => false
  | Some a, Some b => text_le a b
  end.

(** ** Facts *)

Lemma text_le_total a b : text_le a b = true ∨ text_le b a = true.
Proof.
  revert b. induction a as [|x a IH]; intros [|y b]; simpl; auto.
  repeat case_bool_decide; auto; lia.
Qed.

Lemma N_of_ascii_inj x y : N_of_ascii x = N_of_ascii y → x = y.
Proof. intros E. by rewrite <-(ascii_N_embedding x), E, ascii_N_embedding. Qed.

Lemma text_le_antisym a b : text_le a b = true → text_le b a = true → a = b.
Proof.
  revert b. induction a as [|x a IH]; intros [|y b]; simpl; try done.
  repeat case_bool_decide; try done; try lia. intros Ha Hb.
  rewrite (N_of_ascii_inj x y) by lia. f_equal. auto.
Qed.

Lemma text_le_trans a b c : text_le a b = true → text_le b c = true → text_le a c = true.
Proof.
  revert b c. induction a as [|x a IH]; intros [|y b] [|z c]; simpl; try done.
  repeat case_bool_decide; try done; try lia. eauto.
Qed.

Lemma name_le_antisym a b : name_le a b = true → name_le b a = true → a = b.
Proof. destruct a, b; simpl; try done. intros. f_equal. by apply text_le_antisym. Qed.

Lemma name_le_total a b : name_le a b = true ∨ name_le b a = true.
Proof. destruct a, b; simpl; auto using text_le_total. Qed.

Lemma name_le_trans a b c : name_le a b = true → name_le b c = true → name_le a c = true.
Proof. destruct a, b, c; simpl; try done. apply text_le_trans. Qed.

(** ** [Vec::dedup_by] *)

Section dedup.
Context {A : Type} (same : A → A → bool).

(** Drops what follows [prev] and is the same. *)
Fixpoint dedup_after (prev : A) (l : list A) : list A :=
  match l with
  | [] => []
  | a :: l => if same a prev then dedup_after prev l else a :: dedup_after a l
  end.

Definition vec_dedup_by (l : list A) : list A :=
  match l with [] => [] | a :: l => a :: dedup_after a l end.

Lemma dedup_after_sublist prev l : sublist (dedup_after prev l) l.
Proof.
  revert prev. induction l as [|a l IH]; intros prev; simpl; [done|].
  destruct (same a prev); [by apply sublist_cons|by apply sublist_skip].
Qed.

Lemma vec_dedup_sublist l : sublist (vec_dedup_by l) l.
Proof. destruct l; simpl; [done|]. apply sublist_skip, dedup_after_sublist. Qed.

Context {K : Type} `{!EqDecision K} (key : A → K).
Context (same_spec : ∀ a b, same a b = bool_decide (key a = key b)).
Context (le : K → K → bool) (le_anti : ∀ k1 k2, le k1 k2 = true → le k2 k1 = true → k1 = k2).

Lemma dedup_after_filter k prev l :
  StronglySorted (key_lte le key) l → Forall (key_lte le key prev) l →
  filter (λ a, key a = k) (dedup_after prev l) =
    if decide (key prev = k) then [] else take 1 (filter (λ a, key a = k) l).
Proof.
  intros Hs. revert prev. induction Hs as [|a l Hs IH Ha]; intros prev Hp; simpl; [by case_decide|].
  apply Forall_cons in Hp as [Hpa Hp]. rewrite same_spec. case_bool_decide as E.
  - rewrite IH by done. case_decide as Ek; [done|]. rewrite filter_cons_False; [done|congruence].
  - rewrite !filter_cons, IH by done. repeat case_decide; try done; try congruence.
    destruct (filter _ l) as [|x m] eqn:Hx; [done|]. exfalso.
    assert (x ∈ filter (λ a, key a = k) l) as [Hk Hin]%list_elem_of_filter by (rewrite Hx; left).
    rewrite Forall_forall in Ha. specialize (Ha _ Hin). apply E. unfold key_lte in *.
    apply le_anti; congruence.
Qed.

(** Of a sorted list, the first element of each key. *)
Lemma vec_dedup_filter k l :
  StronglySorted (key_lte le key) l →
  filter (λ a, key a = k) (vec_dedup_by l) = take 1 (filter (λ a, key a = k) l).
Proof.
  intros Hs. destruct Hs as [|a l Hs Ha]; [done|]. simpl.
  rewrite !filter_cons, dedup_after_filter by done. by repeat case_decide.
Qed.

(** At most one element of each key. *)
Lemma NoDup_key_filter l :
  (∀ k, length (filter (λ a, key a = k) l) ≤ 1) → NoDup (key <$> l).
Proof.
  induction l as [|a l IH]; intros Hk; [constructor|]. rewrite fmap_cons. constructor.
  - intros (x & E & Hx)%list_elem_of_fmap. specialize (Hk (key a)).
    rewrite filter_cons_True in Hk by done. simpl in Hk.
    assert (Hin : x ∈ filter (λ b, key b = key a) l) by (apply list_elem_of_filter; done).
    destruct (filter _ l); [by apply elem_of_nil in Hin|simpl in Hk; lia].
  - apply IH. intros k. specialize (Hk k). rewrite filter_cons in Hk. case_decide; simpl in Hk; lia.
Qed.

Lemma vec_dedup_nodup l : StronglySorted (key_lte le key) l → NoDup (key <$> vec_dedup_by l).
Proof.
  intros Hs. apply NoDup_key_filter. intros k. rewrite vec_dedup_filter, length_take by done. lia.
Qed.

Lemma vec_dedup_elem l k :
  StronglySorted (key_lte le key) l → k ∈ key <$> vec_dedup_by l ↔ k ∈ key <$> l.
Proof.
  intros Hs. rewrite !list_elem_of_fmap.
  assert (He : ∀ m, (∃ y, k = key y ∧ y ∈ m) ↔ filter (λ a, key a = k) m ≠ []).
  { intros m. split.
    - intros (y & -> & Hy) Hn. assert (y ∈ filter (λ a, key a = key y) m) as Hin by (by apply list_elem_of_filter).
      rewrite Hn in Hin. by apply elem_of_nil in Hin.
    - destruct (filter _ m) as [|y m'] eqn:Hm; [done|]. intros _.
      assert (y ∈ filter (λ a, key a = k) m) as [? ?]%list_elem_of_filter by (rewrite Hm; left). by exists y. }
  rewrite !He, vec_dedup_filter by done. by destruct (filter _ l).
Qed.
End dedup.
