(* ===== verification/OakInputs.v ===== *)
(** * The inputs of the database: [crates/oak_db/src]

    The entities ([File], [Package], [Root], [Notebook]) are identifiers into
    the tables of [Db], with the fields of the salsa inputs ([file.rs],
    [package.rs], [inputs.rs]); a field is read with [!!!] and written by its
    setter. [namespace_override], which nothing here reads or writes, is left
    out. The queries are those of [db.rs]; their indices are computed where
    salsa caches them. *)

From S2P Require Export Paths.

(** The order in which a hash set or map is iterated. *)
Class HashOrder := {
  hash_order : ∀ {A : Type}, list A → list A;
  hash_order_perm : ∀ {A : Type} (l : list A), hash_order l ≡ₚ l;
}.

(** ** Entities *)

Definition File := nat.
Definition Package := nat.
Definition Root := nat.
Definition Notebook := nat.

Record FileData := mkFile {
  f_path : FilePath;
  f_revision : N;
  f_override : option text;
  f_package : option Package;
}.

Record PackageData := mkPackage {
  p_description_path : FilePath;
  p_name : text;
  p_description_revision : N;
  p_namespace_revision : N;
  p_index_revision : option N;
  p_files : list File;
  p_scripts : list File;
}.

Inductive RootKind := Workspace | Library.

Record RootData := mkRoot {
  r_path : FilePath;
  r_kind : RootKind;
  r_scripts : list File;
  r_packages : list Package;
  r_environment_dirs : list FilePath;
}.

Record NotebookData := mkNotebook {
  n_path : FilePath;
  n_cells : list File;
}.

#[export] Instance FileData_inhabited : Inhabited FileData := populate (mkFile inhabitant 0 None None).
#[export] Instance PackageData_inhabited : Inhabited PackageData :=
  populate (mkPackage inhabitant [] 0 0 None [] []).
#[export] Instance RootData_inhabited : Inhabited RootData :=
  populate (mkRoot inhabitant Workspace [] [] []).
#[export] Instance NotebookData_inhabited : Inhabited NotebookData :=
  populate (mkNotebook inhabitant []).

(** The tables, and the singletons [WorkspaceRoots], [LibraryRoots],
    [OrphanRoot], [StaleRoot] and [OpenNotebooks]. *)
Record Db := mkDb {
  files : list FileData;
  packages : list PackageData;
  roots : list RootData;
  notebooks : list NotebookData;
  workspace_roots : list Root;
  library_roots : list Root;
  orphan_files : gset File;
  stale_files : gset File;
  stale_packages : list Package;
  open_notebooks : list Notebook;
}.

(** [OakDatabase::new]. *)
Definition new_db : Db := mkDb [] [] [] [] [] [] ∅ ∅ [] [].

Definition file (db : Db) (f : File) : FileData := files db !!! f.
Definition package (db : Db) (p : Package) : PackageData := packages db !!! p.
Definition root (db : Db) (r : Root) : RootData := roots db !!! r.
Definition notebook (db : Db) (n : Notebook) : NotebookData := notebooks db !!! n.

(** ** Setters *)

Definition upd_files (g : list FileData → list FileData) (db : Db) : Db :=
  mkDb (g (files db)) (packages db) (roots db) (notebooks db) (workspace_roots db)
    (library_roots db) (orphan_files db) (stale_files db) (stale_packages db) (open_notebooks db).
Definition upd_packages (g : list PackageData → list PackageData) (db : Db) : Db :=
  mkDb (files db) (g (packages db)) (roots db) (notebooks db) (workspace_roots db)
    (library_roots db) (orphan_files db) (stale_files db) (stale_packages db) (open_notebooks db).
Definition upd_roots (g : list RootData → list RootData) (db : Db) : Db :=
  mkDb (files db) (packages db) (g (roots db)) (notebooks db) (workspace_roots db)
    (library_roots db) (orphan_files db) (stale_files db) (stale_packages db) (open_notebooks db).
Definition upd_notebooks (g : list NotebookData → list NotebookData) (db : Db) : Db :=
  mkDb (files db) (packages db) (roots db) (g (notebooks db)) (workspace_roots db)
    (library_roots db) (orphan_files db) (stale_files db) (stale_packages db) (open_notebooks db).

Definition set_workspace_roots (l : list Root) (db : Db) : Db :=
  mkDb (files db) (packages db) (roots db) (notebooks db) l
    (library_roots db) (orphan_files db) (stale_files db) (stale_packages db) (open_notebooks db).
Definition set_library_roots (l : list Root) (db : Db) : Db :=
  mkDb (files db) (packages db) (roots db) (notebooks db) (workspace_roots db)
    l (orphan_files db) (stale_files db) (stale_packages db) (open_notebooks db).
Definition set_orphan_files (s : gset File) (db : Db) : Db :=
  mkDb (files db) (packages db) (roots db) (notebooks db) (workspace_roots db)
    (library_roots db) s (stale_files db) (stale_packages db) (open_notebooks db).
Definition set_stale_files (s : gset File) (db : Db) : Db :=
  mkDb (files db) (packages db) (roots db) (notebooks db) (workspace_roots db)
    (library_roots db) (orphan_files db) s (stale_packages db) (open_notebooks db).
Definition set_stale_packages (l : list Package) (db : Db) : Db :=
  mkDb (files db) (packages db) (roots db) (notebooks db) (workspace_roots db)
    (library_roots db) (orphan_files db) (stale_files db) l (open_notebooks db).
Definition set_open_notebooks (l : list Notebook) (db : Db) : Db :=
  mkDb (files db) (packages db) (roots db) (notebooks db) (workspace_roots db)
    (library_roots db) (orphan_files db) (stale_files db) (stale_packages db) l.

Definition on_file (f : File) (g : FileData → FileData) : Db → Db := upd_files (alter g f).
Definition on_package (p : Package) (g : PackageData → PackageData) : Db → Db :=
  upd_packages (alter g p).
Definition on_root (r : Root) (g : RootData → RootData) : Db → Db := upd_roots (alter g r).

Definition set_revision (v : N) (f : FileData) : FileData :=
  mkFile (f_path f) v (f_override f) (f_package f).
Definition set_source_text_override (v : option text) (f : FileData) : FileData :=
  mkFile (f_path f) (f_revision f) v (f_package f).
Definition set_file_package (v : option Package) (f : FileData) : FileData :=
  mkFile (f_path f) (f_revision f) (f_override f) v.

Definition set_name (v : text) (p : PackageData) : PackageData :=
  mkPackage (p_description_path p) v (p_description_revision p) (p_namespace_revision p)
    (p_index_revision p) (p_files p) (p_scripts p).
Definition set_description_revision (v : N) (p : PackageData) : PackageData :=
  mkPackage (p_description_path p) (p_name p) v (p_namespace_revision p)
    (p_index_revision p) (p_files p) (p_scripts p).
Definition set_namespace_revision (v : N) (p : PackageData) : PackageData :=
  mkPackage (p_description_path p) (p_name p) (p_description_revision p) v
    (p_index_revision p) (p_files p) (p_scripts p).
Definition set_files (v : list File) (p : PackageData) : PackageData :=
  mkPackage (p_description_path p) (p_name p) (p_description_revision p) (p_namespace_revision p)
    (p_index_revision p) v (p_scripts p).
Definition set_scripts (v : list File) (p : PackageData) : PackageData :=
  mkPackage (p_description_path p) (p_name p) (p_description_revision p) (p_namespace_revision p)
    (p_index_revision p) (p_files p) v.

Definition set_root_scripts (v : list File) (r : RootData) : RootData :=
  mkRoot (r_path r) (r_kind r) v (r_packages r) (r_environment_dirs r).
Definition set_packages (v : list Package) (r : RootData) : RootData :=
  mkRoot (r_path r) (r_kind r) (r_scripts r) v (r_environment_dirs r).
Definition set_environment_dirs (v : list FilePath) (r : RootData) : RootData :=
  mkRoot (r_path r) (r_kind r) (r_scripts r) (r_packages r) v.

Definition set_cells (v : list File) (n : NotebookData) : NotebookData := mkNotebook (n_path n) v.

(** [File::new] and the like: a new entity, the last of its table. *)
Definition new_file (d : FileData) (db : Db) : Db * File :=
  (upd_files (.++ [d]) db, length (files db)).
Definition new_package (d : PackageData) (db : Db) : Db * Package :=
  (upd_packages (.++ [d]) db, length (packages db)).
Definition new_root (d : RootData) (db : Db) : Db * Root :=
  (upd_roots (.++ [d]) db, length (roots db)).
Definition new_notebook (d : NotebookData) (db : Db) : Db * Notebook :=
  (upd_notebooks (.++ [d]) db, length (notebooks db)).
