(* ===== verification/OakQueries.v ===== *)
(** * Lookups over the inputs: [crates/oak_db/src/db.rs] and [file.rs]

    The live roots in lookup order, the path and package indices of a root,
    and the queries built on them. *)

From S2P Require Export OakInputs.

Inductive LiveRoot :=
| LWorkspace (r : Root)
| LLibrary (r : Root)
| LOrphan.

(** The workspace or library root, if it is one. *)
Definition live_root (l : LiveRoot) : option Root :=
  match l with LWorkspace r | LLibrary r => Some r | LOrphan => None end.

Definition live_roots (db : Db) : list LiveRoot :=
  (LWorkspace <$> workspace_roots db) ++ (LLibrary <$> library_roots db) ++ [LOrphan].

(** ** Indices *)

(** The files of a package, in the order the indices and lists read them. *)
Definition package_listing (db : Db) (p : Package) : list File :=
  p_files (package db p) ++ p_scripts (package db p).

Definition root_listing (db : Db) (r : Root) : list File :=
  r_scripts (root db r) ++ (r_packages (root db r) ≫= package_listing db).

(** [map.insert(file.path, file)] for each file: the last one wins. *)
Definition path_index (db : Db) (l : list File) : gmap FilePath File :=
  foldl (λ m f, <[f_path (file db f) := f]> m) ∅ l.

Definition root_path_index (db : Db) (r : Root) : gmap FilePath File :=
  path_index db (root_listing db r).

Definition root_package_index (db : Db) (r : Root) : gmap text Package :=
  foldl (λ m p, <[p_name (package db p) := p]> m) ∅ (r_packages (root db r)).

Definition notebook_cell_index (db : Db) : gmap File Notebook :=
  foldl (λ m n, foldl (λ m cell, <[cell := n]> m) m (n_cells (notebook db n)))
    ∅ (open_notebooks db).

Definition notebook_by_cell (db : Db) (f : File) : option Notebook :=
  notebook_cell_index db !! f.

(** The first answer along a list. *)
Fixpoint first_some {A B} (f : A → option B) (l : list A) : option B :=
  match l with
  | [] => None
  | x :: l => match f x with Some b => Some b | None => first_some f l end
  end.

Section queries.
Context `{HashOrder}.

Definition orphan_path_index (db : Db) : gmap FilePath File :=
  path_index db (hash_order (elements (orphan_files db))).

(** ** Lookups *)

Definition file_by_path (db : Db) (p : FilePath) : option File :=
  first_some (λ l,
    match live_root l with
    | Some r => root_path_index db r !! p
    | None => orphan_path_index db !! p
    end) (live_roots db).

Definition package_by_name (db : Db) (name : text) : option Package :=
  first_some (λ l, r ← live_root l; root_package_index db r !! name) (live_roots db).

(** [url.path_segments()] of a virtual document; what is not [file:] is left
    to the [url] crate. *)
Context (virtual_depth : text → nat).

Definition root_depth (db : Db) (r : Root) : nat :=
  match r_path (root db r) with
  | FFile p => length p
  | FVirtual uri => virtual_depth uri
  end.

(** The root of greatest depth, the first one on ties, that [claims]. *)
Definition deepest (db : Db) (claims : Root → bool) : option Root :=
  fst <$> foldl (λ best l,
    match live_root l with
    | Some r =>
        if claims r then
          let depth := root_depth db r in
          match best with
          | Some (_, d) => if bool_decide (d < depth) then Some (r, depth) else best
          | None => Some (r, depth)
          end
        else best
    | None => best
    end) None (live_roots db).

Definition root_by_package (db : Db) (p : Package) : option Root :=
  deepest db (λ r, bool_decide (p ∈ r_packages (root db r))).

Definition root_by_file (db : Db) (f : File) : option Root :=
  deepest db (λ r, bool_decide (is_Some (root_path_index db r !! f_path (file db f)))).

(** [max_by_key]: the last of the deepest workspace roots above the path. *)
Definition root_by_path (db : Db) (fp : FilePath) : option Root :=
  p ← as_path fp;
  snd <$> foldl (λ best r,
    match as_path (r_path (root db r)) with
    | Some root_path =>
        if path_starts_with p root_path then
          match best with
          | Some (d, _) => if bool_decide (length root_path < d) then best
                           else Some (length root_path, r)
          | None => Some (length root_path, r)
          end
        else best
    | None => best
    end) None (workspace_roots db).

(** [File::root]. *)
Definition file_root (db : Db) (f : File) : option Root :=
  match f_package (file db f) with
  | Some p => root_by_package db p
  | None =>
      match root_by_file db f with
      | Some r => Some r
      | None => root_by_path db (f_path (file db f))
      end
  end.

(** ** Listings *)

(** [if seen.insert(file) { files.push(file) }] for each of [l]. *)
Definition push_new (l : list File) (acc : list File) : list File :=
  foldl (λ acc f, if bool_decide (f ∈ acc) then acc else acc ++ [f]) acc l.

(** [push_root_files] without a filter on dependencies. *)
Definition push_root_files (db : Db) (r : Root) (acc : list File) : list File :=
  push_new (root_listing db r) acc.

Definition all_known_files (db : Db) : list File :=
  foldl (λ acc l,
    match live_root l with
    | Some r => push_root_files db r acc
    | None => push_new (hash_order (elements (orphan_files db))) acc
    end) [] (live_roots db).

Definition collect_root_files (db : Db) (r : Root) : list File :=
  filter (λ f, root_by_file db f = Some r) (root_listing db r).

Definition workspace_files (db : Db) : list File :=
  l ← live_roots db;
  match l with
  | LWorkspace r => collect_root_files db r
  | LLibrary _ => []
  | LOrphan => hash_order (elements (orphan_files db))
  end.

Definition workspace_scripts (db : Db) : list File :=
  workspace_roots db ≫= λ r, r_scripts (root db r).

Definition workspace_root_files (db : Db) : list File :=
  workspace_roots db ≫= collect_root_files db.

(** [File::earlier_notebook_cells]. *)
Definition earlier_notebook_cells (db : Db) (f : File) : list File :=
  match notebook_by_cell db f with
  | None => []
  | Some n =>
      let cells := n_cells (notebook db n) in
      take (default 0 (fst <$> list_find (f =.) cells)) cells
  end.
End queries.
