(* ===== verification/OakScan.v ===== *)
(** * Updates of the inputs: [crates/oak_scan/src]

    [inputs.rs], [stale.rs], [lookup.rs], [watch.rs] and [library.rs]: the
    helpers that move files and packages between the containers of the
    database, and the operations of the scanner and the editor made of them.
    The file system is a [Disk]; a handler reads the one of its time. *)

From S2P Require Export OakQueries.

(** ** The file system *)

(** [io::ErrorKind], as far as the code tells kinds apart. *)
Inductive IoError := NotFound | NotADirectory | OtherError.

(** What the scan reads of a parsed [DESCRIPTION]: [name] and [collate()]. *)
Record Description := mkDescription {
  desc_name : text;
  desc_collate : option (list text);
}.

(** [fs::FileType]. *)
Inductive FileType := TFile | TDir | TOther.

#[export] Instance FileType_eq_dec : EqDecision FileType.
Proof. solve_decision. Defined.

Record Disk := mkDisk {
  (** [fs::metadata(path)], and its [is_file()] *)
  d_metadata : path → IoError + bool;
  (** [fs::read_dir(path)]: the names of the entries *)
  d_read_dir : path → IoError + list (IoError + text);
  (** the packed modification time, zero when it cannot be read *)
  d_revision : path → N;
  (** the parsed [DESCRIPTION] of a directory, when it can be read *)
  d_description : path → option Description;
  (** the directories just below a library path *)
  d_library_dirs : path → list path;
  (** the entries of the gitignore-aware walk below a directory, in order *)
  d_walk : path → list (path * option FileType);
}.

Definition empty_disk : Disk :=
  mkDisk (λ _, inl NotFound) (λ _, inl NotFound) (λ _, 0%N) (λ _, None) (λ _, []) (λ _, []).

(** [path.is_file()]. *)
Definition is_file (disk : Disk) (p : path) : bool :=
  match d_metadata disk p with inr b => b | inl _ => false end.

Definition is_r_file (disk : Disk) (p : path) : bool := is_file disk p && has_r_extension p.

(** [read_description_name]. *)
Definition read_description_name (disk : Disk) (package_dir : path) : option text :=
  desc_name <$> d_description disk package_dir.

Definition DESCRIPTION : text := text_of "DESCRIPTION".

(** ** Entries *)

Record FileEntry := mkEntry { fe_path : FilePath; fe_revision : N }.

Record PackageEntry := mkPackageEntry {
  pe_description_path : FilePath;
  pe_name : text;
  pe_description_revision : N;
  pe_namespace_revision : N;
  pe_files : list FileEntry;
  pe_scripts : list FileEntry;
  pe_collation : option (list text);
}.

(** ** Copy-on-write containers *)

Definition with_cow_push (l : list nat) (x : nat) : option (list nat) :=
  if bool_decide (x ∈ l) then None else Some (l ++ [x]).

Definition with_cow_filter (l : list nat) (x : nat) : option (list nat) :=
  if bool_decide (x ∈ l) then Some (filter (λ y, y ≠ x) l) else None.

Definition with_cow_insert (s : gset nat) (x : nat) : option (gset nat) :=
  if bool_decide (x ∈ s) then None else Some (s ∪ {[x]}).

Definition with_cow_remove (s : gset nat) (x : nat) : option (gset nat) :=
  if bool_decide (x ∈ s) then Some (s ∖ {[x]}) else None.

Definition remove_from_pkg_files (p : Package) (f : File) (db : Db) : Db :=
  match with_cow_filter (p_files (package db p)) f with
  | Some files => on_package p (set_files files) db
  | None =>
      match with_cow_filter (p_scripts (package db p)) f with
      | Some scripts => on_package p (set_scripts scripts) db
      | None => db
      end
  end.

Definition remove_from_orphan (f : File) (db : Db) : Db :=
  match with_cow_remove (orphan_files db) f with
  | Some files => set_orphan_files files db
  | None => db
  end.

Definition add_to_orphan_files (f : File) (db : Db) : Db :=
  match with_cow_insert (orphan_files db) f with
  | Some files => set_orphan_files files db
  | None => db
  end.

Definition remove_from_stale_files (f : File) (db : Db) : Db :=
  match with_cow_remove (stale_files db) f with
  | Some files => set_stale_files files db
  | None => db
  end.

Definition remove_from_stale_packages (p : Package) (db : Db) : Db :=
  match with_cow_filter (stale_packages db) p with
  | Some packages => set_stale_packages packages db
  | None => db
  end.

(** [if field(db) != v { set_field(db).to(v) }]. *)
Definition on_file_if (c : bool) (f : File) (g : FileData → FileData) (db : Db) : Db :=
  if c then on_file f g db else db.
Definition on_package_if (c : bool) (p : Package) (g : PackageData → PackageData) (db : Db) : Db :=
  if c then on_package p g db else db.
Definition on_root_if (c : bool) (r : Root) (g : RootData → RootData) (db : Db) : Db :=
  if c then on_root r g db else db.

Section scan.
Context `{HashOrder}.

(** ** Lookups *)

Definition stale_path_index (db : Db) : gmap FilePath File :=
  path_index db (hash_order (elements (stale_files db))).

Definition stale_file_by_path (db : Db) (p : FilePath) : option File := stale_path_index db !! p.

(** [map.insert(pkg.description_path, pkg)] for each package. *)
Definition package_path_index (db : Db) (l : list Package) : gmap FilePath Package :=
  foldl (λ m p, <[p_description_path (package db p) := p]> m) ∅ l.

Definition stale_package_path_index (db : Db) : gmap FilePath Package :=
  package_path_index db (stale_packages db).

Definition root_package_path_index (db : Db) (r : Root) : gmap FilePath Package :=
  package_path_index db (r_packages (root db r)).

Definition package_by_path (db : Db) (p : FilePath) : option Package :=
  match first_some (λ l, r ← live_root l; root_package_path_index db r !! p) (live_roots db) with
  | Some pkg => Some pkg
  | None => stale_package_path_index db !! p
  end.

(** ** Upserts of the scanner *)

Definition upsert_existing (pkg : option Package) (entry : FileEntry) (existing : File) (db : Db)
    : Db :=
  let db := on_file_if (negb (bool_decide (f_revision (file db existing) = fe_revision entry)))
              existing (set_revision (fe_revision entry)) db in
  let old_package := f_package (file db existing) in
  let db :=
    if bool_decide (old_package = pkg) then db
    else
      let db := on_file existing (set_file_package pkg) db in
      match old_package with
      | Some old_pkg => remove_from_pkg_files old_pkg existing db
      | None => db
      end in
  remove_from_orphan existing db.

Definition upsert_stale (pkg : option Package) (entry : FileEntry) (stale : File) (db : Db) : Db :=
  let db := on_file_if (negb (bool_decide (f_revision (file db stale) = fe_revision entry)))
              stale (set_revision (fe_revision entry)) db in
  let db := on_file_if (bool_decide (is_Some (f_override (file db stale))))
              stale (set_source_text_override None) db in
  let db := on_file_if (negb (bool_decide (f_package (file db stale) = pkg)))
              stale (set_file_package pkg) db in
  remove_from_stale_files stale db.

Definition upsert_root_file (pkg : option Package) (entry : FileEntry) (db : Db) : Db * File :=
  match file_by_path db (fe_path entry) with
  | Some existing => (upsert_existing pkg entry existing db, existing)
  | None =>
      match stale_file_by_path db (fe_path entry) with
      | Some stale => (upsert_stale pkg entry stale db, stale)
      | None => new_file (mkFile (fe_path entry) (fe_revision entry) None pkg) db
      end
  end.

(** [files.into_iter().map(|entry| upsert_root_file(db, pkg, entry)).collect()]. *)
Fixpoint upsert_root_files (pkg : option Package) (entries : list FileEntry) (db : Db)
    : Db * list File :=
  match entries with
  | [] => (db, [])
  | entry :: entries =>
      let (db, f) := upsert_root_file pkg entry db in
      let (db, fs) := upsert_root_files pkg entries db in
      (db, f :: fs)
  end.

(** The entity [set_package] writes to. *)
Definition upsert_package (description_path : FilePath) (name : text)
    (description_revision namespace_revision : N) (index_revision : option N) (db : Db)
    : Db * Package :=
  match package_by_path db description_path with
  | Some p =>
      let db := on_package_if (negb (bool_decide (p_name (package db p) = name)))
                  p (set_name name) db in
      let db := on_package_if
                  (negb (bool_decide (p_description_revision (package db p) = description_revision)))
                  p (set_description_revision description_revision) db in
      let db := on_package_if
                  (negb (bool_decide (p_namespace_revision (package db p) = namespace_revision)))
                  p (set_namespace_revision namespace_revision) db in
      (remove_from_stale_packages p db, p)
  | None =>
      new_package (mkPackage description_path name description_revision namespace_revision
                     index_revision [] []) db
  end.

(** The two upserts and the writes of [files] and [scripts], shared by
    [set_package] and [set_package_sources]. *)
Definition replace_package_files (p : Package) (files scripts : list FileEntry) (db : Db) : Db :=
  let (db, file_entities) := upsert_root_files (Some p) files db in
  let (db, script_entities) := upsert_root_files (Some p) scripts db in
  let db := on_package_if (negb (bool_decide (p_files (package db p) = file_entities)))
              p (set_files file_entities) db in
  on_package_if (negb (bool_decide (p_scripts (package db p) = script_entities)))
    p (set_scripts script_entities) db.

Definition set_package (description_path : FilePath) (name : text)
    (description_revision namespace_revision : N) (index_revision : option N)
    (files scripts : list FileEntry) (db : Db) : Db * Package :=
  let (db, p) := upsert_package description_path name description_revision namespace_revision
                   index_revision db in
  (replace_package_files p files scripts db, p).

Definition set_workspace_scripts (r : Root) (files : list FileEntry) (db : Db) : Db :=
  let (db, scripts) := upsert_root_files None files db in
  on_root_if (negb (bool_decide (r_scripts (root db r) = scripts))) r (set_root_scripts scripts) db.

(** ** Eviction *)

(** [for &file in &all_files { file.set_package(db).to(None) }]. *)
Definition clear_backpointers (l : list File) (db : Db) : Db :=
  foldl (λ db f, on_file f (set_file_package None) db) db l.

(** [if !stale_packages.contains(pkg) { stale_packages.push(pkg) }]. *)
Definition push_stale_packages (l acc : list Package) : list Package :=
  foldl (λ acc p, if bool_decide (p ∈ acc) then acc else acc ++ [p]) acc l.

Definition clear_packages (l : list Package) (db : Db) : Db :=
  foldl (λ db p, on_package p (set_scripts []) (on_package p (set_files []) db)) db l.

Definition set_root_stale (r : Root) (editor_owned : option (gset FilePath)) (db : Db) : Db :=
  let pkgs := r_packages (root db r) in
  let all_files := root_listing db r in
  let db := clear_backpointers all_files db in
  let owned f :=
    match editor_owned with Some owned => bool_decide (f_path (file db f) ∈ owned) | None => false end in
  let '(to_orphan, to_stale) := List.partition owned all_files in
  let db := if bool_decide (to_orphan = []) then db
            else set_orphan_files (orphan_files db ∪ list_to_set to_orphan) db in
  let db := if bool_decide (to_stale = []) then db
            else set_stale_files (stale_files db ∪ list_to_set to_stale) db in
  let db := if bool_decide (pkgs = []) then db
            else set_stale_packages (push_stale_packages pkgs (stale_packages db)) db in
  let db := on_root r (set_root_scripts []) db in
  let db := clear_packages pkgs db in
  on_root r (set_environment_dirs []) (on_root r (set_packages []) db).

(** ** The editor *)

Definition upsert_editor (p : FilePath) (contents : text) (db : Db) : Db * File :=
  match file_by_path db p with
  | Some existing => (on_file existing (set_source_text_override (Some contents)) db, existing)
  | None =>
      match stale_file_by_path db p with
      | Some stale =>
          let db := on_file stale (set_source_text_override (Some contents)) db in
          let db := on_file stale (set_file_package None) db in
          (add_to_orphan_files stale (remove_from_stale_files stale db), stale)
      | None =>
          let (db, f) := new_file (mkFile p 0 (Some contents) None) db in
          (add_to_orphan_files f db, f)
      end
  end.

Definition close_editor (p : FilePath) (db : Db) : Db :=
  match file_by_path db p with
  | None => db
  | Some f =>
      let db := on_file f (set_source_text_override None) db in
      match with_cow_remove (orphan_files db) f with
      | None => db
      | Some orphans =>
          let db := set_orphan_files orphans db in
          match with_cow_insert (stale_files db) f with
          | Some stales => set_stale_files stales db
          | None => db
          end
      end
  end.

Definition set_notebook_cells (p : FilePath) (cells : list File) (db : Db) : Db * Notebook :=
  match List.find (λ n, bool_decide (n_path (notebook db n) = p)) (open_notebooks db) with
  | Some n =>
      (if bool_decide (n_cells (notebook db n) = cells) then db
       else upd_notebooks (alter (set_cells cells) n) db, n)
  | None =>
      let (db, n) := new_notebook (mkNotebook p cells) db in
      (set_open_notebooks (open_notebooks db ++ [n]) db, n)
  end.

Definition close_notebook (p : FilePath) (db : Db) : Db :=
  let notebooks := filter (λ n, n_path (notebook db n) ≠ p) (open_notebooks db) in
  if bool_decide (length notebooks = length (open_notebooks db)) then db
  else set_open_notebooks notebooks db.

(** ** Watched files *)

Inductive Placement :=
| PScript (r : Root)
| PPackageFile (p : Package)
| PPackageScript (p : Package).

Definition package_backpointer (pl : Placement) : option Package :=
  match pl with PScript _ => None | PPackageFile p | PPackageScript p => Some p end.

Definition workspace_root_containing (db : Db) (p : path) : option Root :=
  List.find (λ r,
    match as_path (r_path (root db r)) with
    | Some root_path => path_starts_with p root_path
    | None => false
    end) (workspace_roots db).

(** [take_while]. *)
Fixpoint take_while {A} (f : A → bool) (l : list A) : list A :=
  match l with
  | [] => []
  | x :: l => if f x then x :: take_while f l else []
  end.

Definition classify (disk : Disk) (db : Db) (p : path) : option Placement :=
  if is_r_file disk p then
    r ← workspace_root_containing db p;
    root_path ← as_path (r_path (root db r));
    match List.find (λ ancestor, is_file disk (join ancestor DESCRIPTION))
            (take_while (λ ancestor, path_starts_with ancestor root_path) (drop 1 (ancestors p)))
    with
    | None => Some (PScript r)
    | Some pkg_dir =>
        pkg_name ← read_description_name disk pkg_dir;
        pkg ← List.find (λ pkg, bool_decide (p_name (package db pkg) = pkg_name))
                (r_packages (root db r));
        match classify_in_package pkg_dir p with
        | PlacedFile => Some (PPackageFile pkg)
        | PlacedScript => Some (PPackageScript pkg)
        | Skip => None
        end
    end
  else None.

Definition append_to_container (f : File) (pl : Placement) (db : Db) : Db :=
  match pl with
  | PScript r =>
      match with_cow_push (r_scripts (root db r)) f with
      | Some scripts => on_root r (set_root_scripts scripts) db
      | None => db
      end
  | PPackageFile p =>
      match with_cow_push (p_files (package db p)) f with
      | Some files => on_package p (set_files files) db
      | None => db
      end
  | PPackageScript p =>
      match with_cow_push (p_scripts (package db p)) f with
      | Some scripts => on_package p (set_scripts scripts) db
      | None => db
      end
  end.

Definition add_watched_file (disk : Disk) (fp : FilePath) (db : Db) : Db :=
  match as_path fp with
  | None => db
  | Some fs_path =>
      let revision := d_revision disk fs_path in
      match file_by_path db fp with
      | Some existing =>
          on_file_if (negb (bool_decide (f_revision (file db existing) = revision)))
            existing (set_revision revision) db
      | None =>
          match classify disk db fs_path with
          | None => db
          | Some placement =>
              let (db, f) := upsert_root_file (package_backpointer placement)
                               (mkEntry fp revision) db in
              append_to_container f placement db
          end
      end
  end.

(** The first workspace root that lists [f] as a script drops it. *)
Fixpoint remove_from_scripts (f : File) (rs : list Root) (db : Db) : option Db :=
  match rs with
  | [] => None
  | r :: rs =>
      match with_cow_filter (r_scripts (root db r)) f with
      | Some scripts => Some (on_root r (set_root_scripts scripts) db)
      | None => remove_from_scripts f rs db
      end
  end.

Definition remove_watched_file (fp : FilePath) (db : Db) : Db :=
  match file_by_path db fp with
  | None => db
  | Some f =>
      match f_package (file db f) with
      | Some p => remove_from_pkg_files p f db
      | None =>
          match remove_from_scripts f (workspace_roots db) db with
          | Some db => db
          | None => remove_from_orphan f db
          end
      end
  end.

(** ** Libraries *)

(** [old]: the roots by path; the last root of a path wins. *)
Definition roots_by_path (db : Db) (rs : list Root) : gmap FilePath Root :=
  foldl (λ m r, <[r_path (root db r) := r]> m) ∅ rs.

Definition register_installed_package (disk : Disk) (package_dir : path) (db : Db)
    : Db * option Package :=
  let description_file := join package_dir DESCRIPTION in
  if is_file disk description_file then
    match file_name package_dir with
    | None => (db, None)
    | Some name =>
        let (db, p) := set_package (FFile description_file) name
                         (d_revision disk description_file)
                         (d_revision disk (join package_dir (text_of "NAMESPACE")))
                         (Some (d_revision disk (join package_dir (text_of "INDEX"))))
                         [] [] db in
        (db, Some p)
    end
  else (db, None).

Fixpoint register_installed_packages (disk : Disk) (dirs : list path) (db : Db)
    : Db * list Package :=
  match dirs with
  | [] => (db, [])
  | dir :: dirs =>
      let (db, p) := register_installed_package disk dir db in
      let (db, ps) := register_installed_packages disk dirs db in
      (db, option_list p ++ ps)
  end.

Definition scan_new_library_path (disk : Disk) (p : path) (db : Db) : Db * Root :=
  let (db, r) := new_root (mkRoot (FFile p) Library [] [] []) db in
  let (db, pkgs) := register_installed_packages disk (d_library_dirs disk p) db in
  (on_root r (set_packages pkgs) db, r).

(** The roots of [old] whose path is not among [paths], in the order of the
    map. *)
Definition evicted_roots (old : gmap FilePath Root) (paths : list FilePath) : list Root :=
  (filter (λ '(p, _), p ∉ paths) (hash_order (map_to_list old))).*2.

Definition evict_all (editor_owned : option (gset FilePath)) (rs : list Root) (db : Db) : Db :=
  foldl (λ db r, set_root_stale r editor_owned db) db rs.

(** [Vec<Root>] inputs are written only when they change. *)
Definition set_library_roots_if (rs : list Root) (db : Db) : Db :=
  if bool_decide (library_roots db = rs) then db else set_library_roots rs db.

Fixpoint build_library_roots (disk : Disk) (old : gmap FilePath Root) (paths : list path) (db : Db)
    : Db * list Root :=
  match paths with
  | [] => (db, [])
  | p :: paths =>
      let (db, r) := match old !! FFile p with
                     | Some r => (db, r)
                     | None => scan_new_library_path disk p db
                     end in
      let (db, rs) := build_library_roots disk old paths db in
      (db, r :: rs)
  end.

Definition set_library_paths (disk : Disk) (paths : list PathBuf) (db : Db) : Db :=
  let new := omap abs_from_path_buf paths in
  let old := roots_by_path db (library_roots db) in
  let db := evict_all None (evicted_roots old (FFile <$> new)) db in
  let (db, rs) := build_library_roots disk old new db in
  set_library_roots_if rs db.
End scan.
