(* ===== verification/Scheduler.v ===== *)
(** * The scan scheduler: [crates/oak_scan/src/scheduler.rs]

    [ScanScheduler] tracks the workspace roots with a scan in flight, queues at
    most one more scan per root, and buffers the paths of watcher events until
    every root around them is idle. A run of a scan ([ScanRequest::run]) reads
    the disk only, so its result is data here ([ScanCompleted]). *)

From S2P Require Export OakScan.

Inductive ScanState := Scanning | ScanningWithRescanQueued.

#[export] Instance ScanState_eq_dec : EqDecision ScanState.
Proof. solve_decision. Defined.

Record ScanRequest := mkRequest { rq_root : Root; rq_path : path }.

Record ScanCompleted := mkCompleted {
  sc_root : Root;
  sc_packages : list PackageEntry;
  sc_scripts : list FileEntry;
  sc_environment_dirs : list FilePath;
}.

(** [buffered] is an [IndexSet]: in order of arrival, without duplicates. *)
Record ScanScheduler := mkScheduler {
  state : gmap Root ScanState;
  buffered : list FilePath;
}.

Definition new_scheduler : ScanScheduler := mkScheduler ∅ [].

(** The scheduler and the database it is handed. *)
Record World := mkWorld { sched : ScanScheduler; db : Db }.

Definition on_db (g : Db → Db) (w : World) : World := mkWorld (sched w) (g (db w)).
Definition on_state (g : gmap Root ScanState → gmap Root ScanState) (w : World) : World :=
  mkWorld (mkScheduler (g (state (sched w))) (buffered (sched w))) (db w).
Definition set_buffered (l : list FilePath) (w : World) : World :=
  mkWorld (mkScheduler (state (sched w)) l) (db w).

Definition has_pending_scans (w : World) : bool :=
  negb (bool_decide (state (sched w) = ∅)).

(** ** Paths *)

Definition ENVIRONMENT_SENTINELS : list text := [text_of ".Rprofile"; text_of ".Renviron"].

Definition is_environment_sentinel (name : text) : bool :=
  bool_decide (name ∈ ENVIRONMENT_SENTINELS).

Definition triggers_rescan (p : path) : bool :=
  match file_name p with
  | Some name => bool_decide (name = DESCRIPTION) || is_environment_sentinel name
  | None => false
  end.

Definition workspace_root_paths (db : Db) : list (path * Root) :=
  omap (λ r, (λ p, (p, r)) <$> as_path (r_path (root db r))) (workspace_roots db).

(** The roots around a path. *)
Definition containing_roots (roots : list (path * Root)) (p : path) : list (path * Root) :=
  filter (λ '(root_path, _), path_starts_with p root_path = true) roots.

(** The loop over the entries of a directory: [exact], [case_variant], or the
    error of an entry read before an exact match. *)
Fixpoint find_entry (name : text) (case_variant : bool) (entries : list (IoError + text))
    : IoError + (bool * bool) :=
  match entries with
  | [] => inr (false, case_variant)
  | inl err :: _ => inl err
  | inr entry_name :: entries =>
      if bool_decide (entry_name = name) then inr (true, case_variant)
      else find_entry name (case_variant || eq_ignore_ascii_case entry_name name) entries
  end.

(** The loop over the components below the root. *)
Fixpoint check_components (disk : Disk) (dir : path) (components : list text) : IoError + bool :=
  match components with
  | [] => inr true
  | name :: components =>
      match d_read_dir disk dir with
      | inl err => inl err
      | inr entries =>
          match find_entry name false entries with
          | inl err => inl err
          | inr (exact, case_variant) =>
              if case_variant && negb exact then inr false
              else check_components disk (join dir name) components
          end
      end
  end.

Definition is_file_on_disk (disk : Disk) (root_path fs_path : path) : IoError + bool :=
  match d_metadata disk fs_path with
  | inl err => inl err
  | inr false => inr false
  | inr true =>
      match strip_prefix fs_path root_path with
      | None => inr true
      | Some relative => check_components disk root_path relative
      end
  end.

Section scheduler.
Context `{HashOrder}.

(** ** Applying a scan *)

(** One package of the result, through [set_package]. *)
Fixpoint set_scanned_packages (pkgs : list PackageEntry) (db : Db) : Db * list Package :=
  match pkgs with
  | [] => (db, [])
  | pkg :: pkgs =>
      let (db, p) := set_package (pe_description_path pkg) (pe_name pkg)
                       (pe_description_revision pkg) (pe_namespace_revision pkg) None
                       (pe_files pkg) (pe_scripts pkg) db in
      let (db, ps) := set_scanned_packages pkgs db in
      (db, p :: ps)
  end.

(** [ScanCompleted::apply]. *)
Definition apply (result : ScanCompleted) (db : Db) : Db :=
  let r := sc_root result in
  let (db, pkgs) := set_scanned_packages (sc_packages result) db in
  let db := on_root_if (negb (bool_decide (r_packages (root db r) = pkgs))) r (set_packages pkgs) db in
  let db := set_workspace_scripts r (sc_scripts result) db in
  on_root_if (negb (bool_decide (r_environment_dirs (root db r) = sc_environment_dirs result)))
    r (set_environment_dirs (sc_environment_dirs result)) db.

(** ** Buffered paths *)

(** Reconciles an unblocked path with the disk. *)
Definition reconcile (disk : Disk) (root_path fs_path : path) (fp : FilePath) (db : Db) : Db :=
  match is_file_on_disk disk root_path fs_path with
  | inr true => add_watched_file disk fp db
  | inr false | inl NotFound | inl NotADirectory => remove_watched_file fp db
  | inl OtherError => db
  end.

(** What the closure of [retain] answers for one path, with its effects. *)
Definition drain_path (disk : Disk) (editor_owned : gset FilePath) (roots : list (path * Root))
    (pending : gmap Root ScanState) (fp : FilePath) (db : Db) : bool * Db :=
  match as_path fp with
  | None => (false, db)
  | Some fs_path =>
      match containing_roots roots fs_path with
      | [] => (false, db)
      | ((root_path, _) :: _) as containing =>
          if existsb (λ '(_, r), bool_decide (is_Some (pending !! r))) containing then (true, db)
          else if bool_decide (fp ∈ editor_owned) then (false, db)
          else (false, reconcile disk root_path fs_path fp db)
      end
  end.

(** [buffered.retain(..)]. *)
Fixpoint drain_paths (disk : Disk) (editor_owned : gset FilePath) (roots : list (path * Root))
    (pending : gmap Root ScanState) (paths : list FilePath) (db : Db) : list FilePath * Db :=
  match paths with
  | [] => ([], db)
  | fp :: paths =>
      let (keep, db) := drain_path disk editor_owned roots pending fp db in
      let (kept, db) := drain_paths disk editor_owned roots pending paths db in
      (if keep then fp :: kept else kept, db)
  end.

Definition drain_buffered (disk : Disk) (editor_owned : gset FilePath) (w : World) : World :=
  let roots := workspace_root_paths (db w) in
  let (kept, db) := drain_paths disk editor_owned roots (state (sched w)) (buffered (sched w)) (db w) in
  mkWorld (mkScheduler (state (sched w)) kept) db.

(** [self.buffered.insert(path)]. *)
Definition buffer_path (fp : FilePath) (l : list FilePath) : list FilePath :=
  if bool_decide (fp ∈ l) then l else l ++ [fp].

(** ** Handlers *)

Definition request_rescan (r : Root) (w : World) : World * option ScanRequest :=
  match state (sched w) !! r with
  | Some Scanning => (on_state <[r := ScanningWithRescanQueued]> w, None)
  | Some ScanningWithRescanQueued => (w, None)
  | None =>
      match as_path (r_path (root (db w) r)) with
      | None => (w, None)
      | Some p => (on_state <[r := Scanning]> w, Some (mkRequest r p))
      end
  end.

Fixpoint request_rescans (rs : list Root) (w : World) : World * list ScanRequest :=
  match rs with
  | [] => (w, [])
  | r :: rs =>
      let (w, req) := request_rescan r w in
      let (w, reqs) := request_rescans rs w in
      (w, option_list req ++ reqs)
  end.

(** The roots around the discovery paths of a batch, each once. *)
Definition add_rescan_root (acc : list Root) (r : Root) : list Root :=
  if bool_decide (r ∈ acc) then acc else acc ++ [r].

Definition rescan_roots (roots : list (path * Root)) (paths : list FilePath) : list Root :=
  foldl (λ acc fp,
    match as_path fp with
    | None => acc
    | Some fs_path =>
        if triggers_rescan fs_path
        then foldl add_rescan_root acc (containing_roots roots fs_path).*2
        else acc
    end) [] paths.

Definition buffer_paths (paths : list FilePath) (l : list FilePath) : list FilePath :=
  foldl (λ l fp,
    match as_path fp with
    | None => l
    | Some fs_path => if triggers_rescan fs_path then l else buffer_path fp l
    end) l paths.

Definition apply_watcher_events (disk : Disk) (paths : list FilePath) (skip : gset FilePath)
    (w : World) : World * list ScanRequest :=
  let roots := workspace_root_paths (db w) in
  let (w, requests) := request_rescans (rescan_roots roots paths) w in
  let w := set_buffered (buffer_paths paths (buffered (sched w))) w in
  (drain_buffered disk skip w, requests).

(** The eviction of one root. *)
Definition evict_workspace_root (editor_owned : gset FilePath) (r : Root) (w : World) : World :=
  on_state (delete r) (on_db (set_root_stale r (Some editor_owned)) w).

(** The roots of the new folders: reused, or new and scanned. *)
Fixpoint add_workspace_roots (old : gmap FilePath Root) (paths : list path) (w : World)
    : World * list Root * list ScanRequest :=
  match paths with
  | [] => (w, [], [])
  | p :: paths =>
      match old !! FFile p with
      | Some r =>
          let '(w, rs, reqs) := add_workspace_roots old paths w in
          (w, r :: rs, reqs)
      | None =>
          let (db, r) := new_root (mkRoot (FFile p) Workspace [] [] []) (db w) in
          let w := on_state <[r := Scanning]> (mkWorld (sched w) db) in
          let '(w, rs, reqs) := add_workspace_roots old paths w in
          (w, r :: rs, mkRequest r p :: reqs)
      end
  end.

Definition set_workspace_roots_if (rs : list Root) (db : Db) : Db :=
  if bool_decide (workspace_roots db = rs) then db else set_workspace_roots rs db.

Definition set_workspace_paths (disk : Disk) (paths : list PathBuf) (editor_owned : gset FilePath)
    (w : World) : World * list ScanRequest :=
  let new := omap abs_from_path_buf paths in
  let old := roots_by_path (db w) (workspace_roots (db w)) in
  let w := foldl (λ w r, evict_workspace_root editor_owned r w) w
             (evicted_roots old (FFile <$> new)) in
  let '(w, rs, requests) := add_workspace_roots old new w in
  let w := on_db (set_workspace_roots_if rs) w in
  (drain_buffered disk editor_owned w, requests).

Definition apply_scan_completed (disk : Disk) (result : ScanCompleted)
    (editor_owned : gset FilePath) (w : World) : World * list ScanRequest :=
  let r := sc_root result in
  if bool_decide (r ∈ workspace_roots (db w)) then
    let w := on_db (apply result) w in
    let prior := state (sched w) !! r in
    let w := on_state (delete r) w in
    let (w, requests) :=
      match prior with
      | Some ScanningWithRescanQueued =>
          match as_path (r_path (root (db w) r)) with
          | Some p => (on_state <[r := Scanning]> w, [mkRequest r p])
          | None => (w, [])
          end
      | Some Scanning | None => (w, [])
      end in
    (drain_buffered disk editor_owned w, requests)
  else (on_state (delete r) w, []).
End scheduler.
