(* ===== verification/ScanPackages.v ===== *)
(** * Package discovery: [crates/oak_scan/src/packages.rs]

    What a scan of a workspace root reads: packages (every directory with a
    [DESCRIPTION]), their files in load order, scripts, and environment
    directories; and [ScanRequest::run], which puts them together. The walk, the
    file metadata and the parsed [DESCRIPTION] come from the [Disk]. *)

From S2P Require Export Paths Scheduler.

(** ** Load order *)

(** [basename_key]; [None] sorts first. *)
Definition basename_key (p : path) : option text := file_name p.

(** [files.sort_by_cached_key(|(path, _)| basename_key(path))]. *)
Definition sort_by_basename (l : list (path * FileEntry)) : list (path * FileEntry) :=
  sort_by_key name_le (λ f, basename_key f.1) l.

(** [by_name]: the files by basename; a later one of the same name wins. *)
Definition files_by_name (files : list (path * FileEntry)) : gmap text (path * FileEntry) :=
  foldl (λ m f,
    match file_name f.1 with Some name => <[name := f]> m | None => m end) ∅ files.

(** The loop over [Collate:], which takes each file out of the map. *)
Fixpoint take_collated (order : list text) (by_name : gmap text (path * FileEntry))
    : list FileEntry * gmap text (path * FileEntry) :=
  match order with
  | [] => ([], by_name)
  | name :: order =>
      match by_name !! name with
      | Some (_, file) =>
          let (loadable, rest) := take_collated order (delete name by_name) in
          (file :: loadable, rest)
      | None => take_collated order by_name
      end
  end.

Section scan.
Context `{HashOrder}.

Definition order_by_collation (files : list (path * FileEntry)) (order : list text)
    : list FileEntry * list FileEntry :=
  let (loadable, rest) := take_collated order (files_by_name files) in
  (loadable, (sort_by_basename (hash_order (map_to_list rest)).*2).*2).

Definition order_alphabetically (files : list (path * FileEntry))
    : list FileEntry * list FileEntry :=
  ((sort_by_basename files).*2, []).

(** ** Packages *)

Definition read_package_metadata (disk : Disk) (package_dir : path) : option PackageEntry :=
  description ← d_description disk package_dir;
  Some (mkPackageEntry (FFile (join package_dir DESCRIPTION)) (desc_name description)
          (d_revision disk (join package_dir DESCRIPTION))
          (d_revision disk (join package_dir (text_of "NAMESPACE"))) [] []
          (desc_collate description)).

(** One entry of the walk of a package: a file to load, or a script. *)
Definition classify_entry (disk : Disk) (package_dir : path)
    (acc : list (path * FileEntry) * list FileEntry) (p : path)
    : list (path * FileEntry) * list FileEntry :=
  let '(files, scripts) := acc in
  if is_r_file disk p then
    let entry := mkEntry (FFile p) (d_revision disk p) in
    match classify_in_package package_dir p with
    | Skip => (files, scripts)
    | PlacedFile => (files ++ [(p, entry)], scripts)
    | PlacedScript => (files, scripts ++ [entry])
    end
  else (files, scripts).

Definition read_workspace_package (disk : Disk) (package_dir : path) : option PackageEntry :=
  package ← read_package_metadata disk package_dir;
  let '(files, scripts) :=
    foldl (classify_entry disk package_dir) ([], []) (d_walk disk package_dir).*1 in
  let '(loadable, leftover) :=
    match pe_collation package with
    | Some order => order_by_collation files order
    | None => order_alphabetically files
    end in
  Some (mkPackageEntry (pe_description_path package) (pe_name package)
          (pe_description_revision package) (pe_namespace_revision package)
          loadable (scripts ++ leftover) (pe_collation package)).

Definition collect_description_dirs (disk : Disk) (r : path) : list path :=
  omap (λ '(p, t),
    if bool_decide (t = Some TFile) && bool_decide (file_name p = Some DESCRIPTION)
    then parent p else None) (d_walk disk r).

(** The loop of [dedup_packages_by_name] with the names seen so far. *)
Fixpoint dedup_packages (winners : gset text) (pkgs : list PackageEntry) : list PackageEntry :=
  match pkgs with
  | [] => []
  | pkg :: pkgs =>
      if bool_decide (pe_name pkg ∈ winners) then dedup_packages winners pkgs
      else pkg :: dedup_packages ({[pe_name pkg]} ∪ winners) pkgs
  end.

Definition dedup_packages_by_name (pkgs : list PackageEntry) : list PackageEntry :=
  dedup_packages ∅ pkgs.

Definition scan_workspace_packages (disk : Disk) (r : path) : list PackageEntry :=
  let dirs := sort_by_key path_le id (collect_description_dirs disk r) in
  dedup_packages_by_name (omap (read_workspace_package disk) dirs).

(** [read_package_sources]: the files directly in a directory. *)
Definition read_package_sources (disk : Disk) (directory : path) (collation : option (list text))
    : list FileEntry * list FileEntry :=
  match d_read_dir disk directory with
  | inl _ => ([], [])
  | inr entries =>
      let files := omap (λ e,
        match e with
        | inr name =>
            let p := join directory name in
            if is_r_file disk p then Some (p, mkEntry (FFile p) (d_revision disk p)) else None
        | inl _ => None
        end) entries in
      match collation with
      | Some order => order_by_collation files order
      | None => order_alphabetically files
      end
  end.

(** [DbScan::set_package_sources]. *)
Definition set_package_sources (disk : Disk) (p : Package) (directory : path)
    (collation : option (list text)) (db : Db) : Db :=
  let '(files, scripts) := read_package_sources disk directory collation in
  replace_package_files p files scripts db.

(** ** Scripts and environments *)

Definition collect_scripts (disk : Disk) (r : path) (package_dirs : list path) : list FileEntry :=
  omap (λ p,
    if is_r_file disk p && negb (existsb (path_starts_with p) package_dirs)
    then Some (mkEntry (FFile p) (d_revision disk p)) else None) (d_walk disk r).*1.

Definition scan_workspace_scripts (disk : Disk) (r : path) : list FileEntry :=
  collect_scripts disk r (collect_description_dirs disk r).

Definition scan_workspace_environment_dirs (disk : Disk) (r : path) : list FilePath :=
  let dirs := omap (λ '(p, t),
    if bool_decide (t = Some TDir) &&
       existsb (λ sentinel, is_file disk (join p sentinel)) ENVIRONMENT_SENTINELS
    then Some p else None) (d_walk disk r) in
  FFile <$> sort_by_key path_le id dirs.

(** [ScanRequest::run]. *)
Definition run_scan (disk : Disk) (request : ScanRequest) : ScanCompleted :=
  mkCompleted (rq_root request)
    (scan_workspace_packages disk (rq_path request))
    (scan_workspace_scripts disk (rq_path request))
    (scan_workspace_environment_dirs disk (rq_path request)).
End scan.
