(* ===== verification/OakDemo.v ===== *)
(** * Two small workspaces

    Concrete file systems and the worlds the scheduler reaches on them, for
    the witnesses of the theorems on the scanner: a folder [/w] with a package
    and a script ([plain]), and the same with a second package inside the
    tests of the first ([nested]). *)

From S2P Require Export ScanPackages.

(** Sets and maps enumerate in the order of their elements. *)
Definition element_order : HashOrder :=
  {| hash_order A l := l; hash_order_perm A l := reflexivity l |}.

Definition at_path (p : list string) : path := text_of <$> p.

(** A disk with the given files; a [DESCRIPTION] carries the name of its
    package. The walk lists the files in the given order. *)
Definition disk_of (fs : list (path * text)) : Disk := mkDisk
  (λ p, if bool_decide (p ∈ fs.*1) then inr true else inl NotFound)
  (λ p, inr ((λ n, inr n) <$> omap (λ f,
     if path_starts_with f p then head (drop (length p) f) else None) fs.*1))
  (λ p, 1%N)
  (λ p, (λ f, mkDescription f.2 None) <$> List.find (λ f, bool_decide (f.1 = p ++ [DESCRIPTION])) fs)
  (λ p, [])
  (λ p, (λ f, (f.1, Some TFile)) <$> filter (λ f, path_starts_with f.1 p = true) fs).

Definition plain_disk : Disk := disk_of
  [(at_path ["w"; "p"; "DESCRIPTION"], text_of "p");
   (at_path ["w"; "p"; "R"; "a.R"], []);
   (at_path ["w"; "s.R"], [])]%string.

Definition nested_disk : Disk := disk_of
  [(at_path ["w"; "p"; "DESCRIPTION"], text_of "p");
   (at_path ["w"; "p"; "R"; "a.R"], []);
   (at_path ["w"; "p"; "tests"; "q"; "DESCRIPTION"], text_of "q");
   (at_path ["w"; "p"; "tests"; "q"; "R"; "x.R"], [])]%string.

Definition empty_world : World := mkWorld new_scheduler new_db.

Definition folder : list PathBuf := [mkPathBuf (text_of "/w") true].

Section demo.
Context `{HashOrder}.

(** The folder is opened; its scan is in flight. *)
Definition opened (disk : Disk) : World := (set_workspace_paths disk folder ∅ empty_world).1.

Definition first_scan : ScanRequest := mkRequest 0 (at_path ["w"]).

(** The first scan has completed. *)
Definition scanned (disk : Disk) : World :=
  (apply_scan_completed disk (run_scan disk first_scan) ∅ (opened disk)).1.

(** Two folders, one inside the other, both scanned; then the outer one is
    closed. *)
Definition both_opened : World :=
  (set_workspace_paths plain_disk
    [mkPathBuf (text_of "/w") true; mkPathBuf (text_of "/w/p") true] ∅ empty_world).1.

Definition both_scanned : World :=
  let inner_scan := mkRequest 1 (at_path ["w"; "p"]%string) in
  (apply_scan_completed plain_disk (run_scan plain_disk inner_scan) ∅
    (apply_scan_completed plain_disk (run_scan plain_disk first_scan) ∅ both_opened).1).1.

Definition outer_closed : World :=
  (set_workspace_paths plain_disk [mkPathBuf (text_of "/w/p") true] ∅ both_scanned).1.

(** A library [/lib] with one installed package, whose files have one
    modification time. *)
Definition library_disk (modified : N) : Disk := mkDisk
  (λ p, if bool_decide (p = at_path ["lib"; "p"; "DESCRIPTION"]%string) then inr true else inl NotFound)
  (λ _, inl NotFound) (λ _, modified) (λ _, None)
  (λ p, if bool_decide (p = at_path ["lib"]%string) then [at_path ["lib"; "p"]%string] else [])
  (λ _, []).

Definition library : list PathBuf := [mkPathBuf (text_of "/lib") true].

(** The library path is dropped, the package upgraded, the path added again. *)
Definition upgraded : Db :=
  set_library_paths (library_disk 2) library
    (set_library_paths (library_disk 1) [] (set_library_paths (library_disk 1) library new_db)).
End demo.
