(* ===== verification/Placement.v ===== *)
(** * The placement invariant: lookups and upserts

    First [grows], what no update touches.
    [placed] is the invariant the comments of [oak_db] and [oak_scan] ask of
    the inputs: the backpointer of a file agrees with the container that lists
    it, and a path has one live file. [placed_except] leaves the scripts of
    one root out while a scan of it is applied. *)

From S2P Require Export Scheduler.

Record grows (db db' : Db) : Prop := {
  grows_workspace : workspace_roots db' = workspace_roots db;
  grows_roots r : r < length (roots db) →
    r < length (roots db') ∧ r_path (root db' r) = r_path (root db r);
  grows_files f : f < length (files db) →
    f < length (files db') ∧ f_path (file db' f) = f_path (file db f);
  grows_packages p : p < length (packages db) → p < length (packages db');
}.

Create HintDb grows.

#[export] Instance grows_preorder : PreOrder grows.
Proof.
  split.
  - intros db. by split; auto.
  - intros a b c [W1 R1 F1 P1] [W2 R2 F2 P2]. split.
    + congruence.
    + intros r Hr. destruct (R1 r Hr) as [Hr1 E1]. destruct (R2 r Hr1) as [Hr2 E2].
      split; [done|congruence].
    + intros f Hf. destruct (F1 f Hf) as [Hf1 E1]. destruct (F2 f Hf1) as [Hf2 E2].
      split; [done|congruence].
    + auto.
Qed.

#[export] Hint Extern 0 (grows ?d ?d) => reflexivity : grows.

(** ** Tables *)

Section tables.
Context {A : Type} `{Inhabited A}.
Implicit Types (l : list A).

Lemma alter_total l (g : A → A) i j :
  i < length l → alter g i l !!! i = g (l !!! i) ∧ (i ≠ j → alter g i l !!! j = l !!! j).
Proof.
  intros Hi. split; [|intros Hij]; rewrite list_lookup_total_alter.
  - by rewrite decide_True by done.
  - by rewrite decide_False by naive_solver.
Qed.

(** A field the update of one entry leaves alone is the same in all. *)
Lemma alter_field {B} (h : A → B) l (g : A → A) i j :
  (∀ a, h (g a) = h a) → h (alter g i l !!! j) = h (l !!! j).
Proof.
  intros Hg. rewrite list_lookup_total_alter. case_decide as Hij; [|done].
  destruct Hij as [-> _]. apply Hg.
Qed.

Lemma snoc_total l a i :
  (i < length l → (l ++ [a]) !!! i = l !!! i) ∧ (l ++ [a]) !!! length l = a.
Proof.
  split; [intros Hi; by apply lookup_total_app_l|].
  by rewrite lookup_total_app_r, Nat.sub_diag by lia.
Qed.
End tables.

(** ** Setters *)

Section setters.
Implicit Types (db : Db).

Lemma grows_on_file d db f g :
  (∀ a, f_path (g a) = f_path a) → grows d db → grows d (on_file f g db).
Proof.
  intros Hg Hd. etrans; [exact Hd|]. split; [done|done| |done].
  intros f' Hf'. unfold file, on_file; simpl. rewrite length_alter. split; [done|].
  by apply (alter_field f_path).
Qed.

Lemma grows_on_package d db p g : grows d db → grows d (on_package p g db).
Proof.
  intros Hd. etrans; [exact Hd|]. split; [done|done|done|].
  intros p' Hp'. unfold on_package; simpl. by rewrite length_alter.
Qed.

Lemma grows_on_root d db r g :
  (∀ a, r_path (g a) = r_path a) → grows d db → grows d (on_root r g db).
Proof.
  intros Hg Hd. etrans; [exact Hd|]. split; [done| |done|done].
  intros r' Hr'. unfold root, on_root; simpl. rewrite length_alter. split; [done|].
  by apply (alter_field r_path).
Qed.

Lemma grows_on_file_if d db c f g :
  (∀ a, f_path (g a) = f_path a) → grows d db → grows d (on_file_if c f g db).
Proof. destruct c; [by apply grows_on_file|done]. Qed.

Lemma grows_on_package_if d db c p g : grows d db → grows d (on_package_if c p g db).
Proof. destruct c; [by apply grows_on_package|done]. Qed.

Lemma grows_on_root_if d db c r g :
  (∀ a, r_path (g a) = r_path a) → grows d db → grows d (on_root_if c r g db).
Proof. destruct c; [by apply grows_on_root|done]. Qed.

Lemma grows_set_orphan_files d db s : grows d db → grows d (set_orphan_files s db).
Proof. intros Hd. etrans; [exact Hd|]. by split. Qed.

Lemma grows_set_stale_files d db s : grows d db → grows d (set_stale_files s db).
Proof. intros Hd. etrans; [exact Hd|]. by split. Qed.

Lemma grows_set_stale_packages d db s : grows d db → grows d (set_stale_packages s db).
Proof. intros Hd. etrans; [exact Hd|]. by split. Qed.

Lemma grows_set_library_roots d db s : grows d db → grows d (set_library_roots s db).
Proof. intros Hd. etrans; [exact Hd|]. by split. Qed.

Lemma grows_new_file d db a : grows d db → grows d (new_file a db).1.
Proof.
  intros Hd. etrans; [exact Hd|]. split; [done|done| |done].
  intros f Hf. unfold file, new_file; simpl. rewrite length_app. split; [lia|].
  by rewrite (proj1 (snoc_total _ a f)).
Qed.

Lemma grows_new_package d db a : grows d db → grows d (new_package a db).1.
Proof.
  intros Hd. etrans; [exact Hd|]. split; [done|done|done|].
  intros p Hp. unfold new_package; simpl. rewrite length_app. lia.
Qed.

Lemma grows_new_root d db a : grows d db → grows d (new_root a db).1.
Proof.
  intros Hd. etrans; [exact Hd|]. split; [done| |done|done].
  intros r Hr. unfold root, new_root; simpl. rewrite length_app. split; [lia|].
  by rewrite (proj1 (snoc_total _ a r)).
Qed.

Lemma grows_new_notebook d db a : grows d db → grows d (new_notebook a db).1.
Proof. intros Hd. etrans; [exact Hd|]. by split. Qed.
End setters.

#[export] Hint Resolve grows_on_package grows_on_package_if grows_set_orphan_files
  grows_set_stale_files grows_set_stale_packages grows_set_library_roots grows_new_file
  grows_new_package grows_new_root grows_new_notebook : grows.
#[export] Hint Extern 1 (grows _ (on_file _ _ _)) => apply grows_on_file; [done|] : grows.
#[export] Hint Extern 1 (grows _ (on_root _ _ _)) => apply grows_on_root; [done|] : grows.
#[export] Hint Extern 1 (grows _ (on_file_if _ _ _ _)) => apply grows_on_file_if; [done|] : grows.
#[export] Hint Extern 1 (grows _ (on_root_if _ _ _ _)) => apply grows_on_root_if; [done|] : grows.

(** Follows the branches of an update. *)
Ltac grows :=
  repeat case_match; simplify_eq/=; eauto 20 with grows.

(** A fold of updates. *)
Lemma grows_foldl {A} (step : Db → A → Db) l d db :
  (∀ db a, grows d db → grows d (step db a)) → grows d db → grows d (foldl step db l).
Proof. intros Hs. revert db. induction l; simpl; auto. Qed.

(** ** Updates *)

Section updates.
Context `{HashOrder}.
Implicit Types (db d : Db).

Lemma grows_remove_from_pkg_files d p f db :
  grows d db → grows d (remove_from_pkg_files p f db).
Proof. intros Hd. unfold remove_from_pkg_files. grows. Qed.

Lemma grows_remove_from_orphan d f db : grows d db → grows d (remove_from_orphan f db).
Proof. intros Hd. unfold remove_from_orphan. grows. Qed.

Lemma grows_add_to_orphan_files d f db : grows d db → grows d (add_to_orphan_files f db).
Proof. intros Hd. unfold add_to_orphan_files. grows. Qed.

Lemma grows_remove_from_stale_files d f db : grows d db → grows d (remove_from_stale_files f db).
Proof. intros Hd. unfold remove_from_stale_files. grows. Qed.

Lemma grows_remove_from_stale_packages d p db :
  grows d db → grows d (remove_from_stale_packages p db).
Proof. intros Hd. unfold remove_from_stale_packages. grows. Qed.
#[local] Hint Resolve grows_remove_from_pkg_files grows_remove_from_orphan
  grows_add_to_orphan_files grows_remove_from_stale_files
  grows_remove_from_stale_packages : grows.

Lemma grows_upsert_existing d pkg entry f db :
  grows d db → grows d (upsert_existing pkg entry f db).
Proof.
  intros Hd. unfold upsert_existing. apply grows_remove_from_orphan.
  case_match; [eauto with grows|]. case_match; eauto with grows.
Qed.

Lemma grows_upsert_stale d pkg entry f db :
  grows d db → grows d (upsert_stale pkg entry f db).
Proof.
  intros Hd. unfold upsert_stale. apply grows_remove_from_stale_files.
  by repeat (apply grows_on_file_if; [done|]).
Qed.

Lemma grows_upsert_root_file d pkg entry db :
  grows d db → grows d (upsert_root_file pkg entry db).1.
Proof.
  intros Hd. unfold upsert_root_file. case_match; [by apply grows_upsert_existing|].
  case_match; [by apply grows_upsert_stale|eauto with grows].
Qed.
#[local] Hint Resolve grows_upsert_root_file : grows.

Lemma grows_upsert_root_files d pkg entries db :
  grows d db → grows d (upsert_root_files pkg entries db).1.
Proof.
  revert db. induction entries as [|e es IH]; intros db Hd; simpl; [done|].
  destruct (upsert_root_file pkg e db) as [db1 f] eqn:E1.
  assert (grows d db1) by (replace db1 with (upsert_root_file pkg e db).1 by (by rewrite E1); eauto with grows).
  specialize (IH db1). destruct (upsert_root_files pkg es db1). simpl in *. auto.
Qed.
#[local] Hint Resolve grows_upsert_root_files : grows.

Lemma grows_replace_package_files d p fs ss db :
  grows d db → grows d (replace_package_files p fs ss db).
Proof.
  intros Hd. unfold replace_package_files.
  pose proof (grows_upsert_root_files d (Some p) fs db Hd) as E1.
  destruct (upsert_root_files (Some p) fs db) as [db1 l1]; simpl in E1.
  pose proof (grows_upsert_root_files d (Some p) ss db1 E1) as E2.
  destruct (upsert_root_files (Some p) ss db1) as [db2 l2]; simpl in E2. eauto with grows.
Qed.

Lemma grows_upsert_package d a b c e g db :
  grows d db → grows d (upsert_package a b c e g db).1.
Proof.
  intros Hd. unfold upsert_package. case_match; [|by apply grows_new_package].
  apply grows_remove_from_stale_packages. by repeat apply grows_on_package_if.
Qed.

Lemma grows_set_package d a b c e g fs ss db :
  grows d db → grows d (set_package a b c e g fs ss db).1.
Proof.
  intros Hd. unfold set_package. pose proof (grows_upsert_package d a b c e g db Hd) as E1.
  destruct (upsert_package a b c e g db) as [db1 p]. simpl in *. by apply grows_replace_package_files.
Qed.

Lemma grows_set_workspace_scripts d r fs db :
  grows d db → grows d (set_workspace_scripts r fs db).
Proof.
  intros Hd. unfold set_workspace_scripts. pose proof (grows_upsert_root_files d None fs db Hd) as E1.
  destruct (upsert_root_files None fs db) as [db1 l]. simpl in E1. eauto with grows.
Qed.

Lemma grows_set_scanned_packages d pkgs db :
  grows d db → grows d (set_scanned_packages pkgs db).1.
Proof.
  revert db. induction pkgs as [|pkg pkgs IH]; intros db Hd; simpl; [done|].
  match goal with |- context [set_package ?a ?b ?c ?e ?g ?fs ?ss db] =>
    pose proof (grows_set_package d a b c e g fs ss db Hd) as E1;
    destruct (set_package a b c e g fs ss db) as [db1 p] end.
  simpl in E1. specialize (IH db1 E1). by destruct (set_scanned_packages pkgs db1).
Qed.

Lemma grows_apply d result db : grows d db → grows d (apply result db).
Proof.
  intros Hd. unfold apply. pose proof (grows_set_scanned_packages d (sc_packages result) db Hd) as E1.
  destruct (set_scanned_packages _ db) as [db1 pkgs]. simpl in E1.
  apply grows_on_root_if; [done|]. apply grows_set_workspace_scripts. eauto with grows.
Qed.

Lemma grows_set_root_stale d r owned db : grows d db → grows d (set_root_stale r owned db).
Proof.
  intros Hd. unfold set_root_stale. case_match.
  apply grows_on_root; [done|]. apply grows_on_root; [done|].
  unfold clear_packages. apply grows_foldl; [eauto with grows|]. apply grows_on_root; [done|].
  assert (grows d (clear_backpointers (root_listing db r) db)).
  { unfold clear_backpointers. apply grows_foldl; eauto with grows. }
  repeat case_match; eauto with grows.
Qed.

Lemma grows_append_to_container d f pl db : grows d db → grows d (append_to_container f pl db).
Proof. intros Hd. unfold append_to_container. repeat case_match; eauto with grows. Qed.

Lemma grows_add_watched_file d disk fp db : grows d db → grows d (add_watched_file disk fp db).
Proof.
  intros Hd. unfold add_watched_file. repeat case_match; eauto with grows.
  apply grows_append_to_container.
  match goal with E : upsert_root_file ?p ?e db = (?db1, _) |- _ =>
    replace db1 with (upsert_root_file p e db).1 by (by rewrite E) end.
  eauto with grows.
Qed.

Lemma grows_remove_from_scripts d f rs db db' :
  grows d db → remove_from_scripts f rs db = Some db' → grows d db'.
Proof.
  intros Hd. induction rs as [|r rs IH]; simpl; [done|].
  case_match; [|done]. intros [= <-]. eauto with grows.
Qed.

Lemma grows_remove_watched_file d fp db : grows d db → grows d (remove_watched_file fp db).
Proof.
  intros Hd. unfold remove_watched_file. repeat case_match; eauto with grows.
  by eapply grows_remove_from_scripts.
Qed.

Lemma grows_reconcile d disk root_path fs_path fp db :
  grows d db → grows d (reconcile disk root_path fs_path fp db).
Proof.
  intros Hd. unfold reconcile.
  repeat case_match; auto using grows_add_watched_file, grows_remove_watched_file.
Qed.

Lemma grows_drain_path d disk owned rs pending fp db :
  grows d db → grows d (drain_path disk owned rs pending fp db).2.
Proof. intros Hd. unfold drain_path. repeat case_match; simpl; auto using grows_reconcile. Qed.

Lemma grows_drain_paths d disk owned rs pending paths db :
  grows d db → grows d (drain_paths disk owned rs pending paths db).2.
Proof.
  revert db. induction paths as [|fp paths IH]; intros db Hd; simpl; [done|].
  pose proof (grows_drain_path d disk owned rs pending fp db Hd) as E1.
  destruct (drain_path _ _ _ _ _ db) as [keep db1]. simpl in E1. specialize (IH db1 E1).
  by destruct (drain_paths _ _ _ _ paths db1).
Qed.

Lemma grows_upsert_editor d p contents db : grows d db → grows d (upsert_editor p contents db).1.
Proof.
  intros Hd. unfold upsert_editor. repeat case_match; simpl; eauto 10 with grows.
  match goal with E : new_file ?a db = (?db1, _) |- _ =>
    replace db1 with (new_file a db).1 by (by rewrite E) end.
  eauto with grows.
Qed.

Lemma grows_register_installed_packages d disk dirs db :
  grows d db → grows d (register_installed_packages disk dirs db).1.
Proof.
  revert db. induction dirs as [|dir dirs IH]; intros db Hd; simpl; [done|].
  assert (E1 : grows d (register_installed_package disk dir db).1).
  { unfold register_installed_package. case_match; [|done]. case_match; [|done].
    match goal with |- context [set_package ?a ?b ?c ?e ?g ?fs ?ss db] =>
      pose proof (grows_set_package d a b c e g fs ss db Hd) as E1;
      destruct (set_package a b c e g fs ss db) as [db1 p] end.
    done. }
  destruct (register_installed_package disk dir db) as [db1 p]. simpl in E1. specialize (IH db1 E1).
  by destruct (register_installed_packages disk dirs db1).
Qed.

Lemma grows_build_library_roots d disk old paths db :
  grows d db → grows d (build_library_roots disk old paths db).1.
Proof.
  revert db. induction paths as [|p paths IH]; intros db Hd; cbn [build_library_roots]; [done|].
  assert (E1 : grows d
    (match old !! FFile p with Some r => (db, r) | None => scan_new_library_path disk p db end).1).
  { case_match; [done|]. unfold scan_new_library_path.
    pose proof (grows_new_root d db (mkRoot (FFile p) Library [] [] []) Hd) as E0.
    destruct (new_root _ db) as [db0 r]. simpl in E0.
    pose proof (grows_register_installed_packages d disk (d_library_dirs disk p) db0 E0) as E1.
    destruct (register_installed_packages _ _ db0) as [db1 ps]. simpl in *. eauto with grows. }
  destruct (match old !! FFile p with Some r => (db, r) | None => scan_new_library_path disk p db end)
    as [db1 r]. simpl in E1. specialize (IH db1 E1). by destruct (build_library_roots disk old paths db1).
Qed.

Lemma grows_set_library_paths d disk paths db :
  grows d db → grows d (set_library_paths disk paths db).
Proof.
  intros Hd. unfold set_library_paths.
  match goal with |- context [build_library_roots ?disk ?old ?new ?e] =>
    assert (E1 : grows d e); [|
      pose proof (grows_build_library_roots d disk old new e E1) as E2;
      destruct (build_library_roots disk old new e) as [db2 rs]] end.
  { apply grows_foldl; auto using grows_set_root_stale. }
  simpl in E2. unfold set_library_roots_if. case_match; eauto with grows.
Qed.

Lemma grows_close_editor d p db : grows d db → grows d (close_editor p db).
Proof. intros Hd. unfold close_editor. repeat case_match; eauto 10 with grows. Qed.
End updates.

(** [old]: the roots by path. *)
Lemma roots_by_path_Some db rs p r :
  roots_by_path db rs !! p = Some r → r ∈ rs ∧ r_path (root db r) = p.
Proof.
  unfold roots_by_path.
  assert (Hm : ∀ m : gmap FilePath Root, (∀ p r, m !! p = Some r → r ∈ rs ∧ r_path (root db r) = p) →
    ∀ l, (∀ r, r ∈ l → r ∈ rs) → ∀ p r,
    foldl (λ m r, <[r_path (root db r) := r]> m) m l !! p = Some r →
    r ∈ rs ∧ r_path (root db r) = p); [|apply (Hm ∅); [by intros ?? ?%lookup_empty_Some|done]].
  clear p r. intros m Hm l. revert m Hm. induction l as [|r0 l IH]; intros m Hm Hl p r; simpl; [apply Hm|].
  apply IH; [|set_solver]. intros p' r'. destruct (decide (r_path (root db r0) = p')) as [<-|].
  - rewrite lookup_insert_eq. intros [= <-]. split; [apply Hl; by left|done].
  - rewrite lookup_insert_ne by done. apply Hm.
Qed.

(** ** Live entities *)

Definition live_list (db : Db) : list Root := workspace_roots db ++ library_roots db.

Definition live (db : Db) (f : File) : Prop :=
  (∃ r, r ∈ live_list db ∧ f ∈ root_listing db r) ∨ f ∈ orphan_files db.

Record placed_except (x : option Root) (db : Db) : Prop := {
  (** identifiers are those of existing entities *)
  pl_root r : r ∈ live_list db → r < length (roots db);
  pl_root_pkg r p : p ∈ r_packages (root db r) → p < length (packages db);
  pl_listing p f : f ∈ package_listing db p → f < length (files db);
  pl_scripts r f : f ∈ r_scripts (root db r) → f < length (files db);
  pl_orphan f : f ∈ orphan_files db → f < length (files db);
  pl_stale f : f ∈ stale_files db → f < length (files db);
  pl_stale_pkg p : p ∈ stale_packages db → p < length (packages db);
  (** backpointers *)
  pl_backpointer p f : f ∈ package_listing db p → f_package (file db f) = Some p;
  pl_script_none r f : r ∈ live_list db → x ≠ Some r → f ∈ r_scripts (root db r) →
    f_package (file db f) = None;
  pl_orphan_none f : f ∈ orphan_files db → f_package (file db f) = None;
  pl_stale_none f : f ∈ stale_files db → f_package (file db f) = None;
  (** containers are disjoint *)
  pl_split p f : f ∈ p_files (package db p) → f ∉ p_scripts (package db p);
  pl_stale_orphan f : f ∈ stale_files db → f ∉ orphan_files db;
  pl_stale_script r f : r ∈ live_list db → f ∈ stale_files db → f ∉ r_scripts (root db r);
  pl_orphan_script r f : r ∈ live_list db → f ∈ orphan_files db → f ∉ r_scripts (root db r);
  pl_pkg_once r r' p : r ∈ live_list db → r' ∈ live_list db →
    p ∈ r_packages (root db r) → p ∈ r_packages (root db r') → r = r';
  pl_script_once r r' f : r ∈ live_list db → r' ∈ live_list db →
    f ∈ r_scripts (root db r) → f ∈ r_scripts (root db r') → r = r';
  (** one live file per path *)
  pl_path f g : live db f → live db g → f_path (file db f) = f_path (file db g) → f = g;
}.

Definition placed : Db → Prop := placed_except None.

Lemma placed_weaken x db : placed db → placed_except x db.
Proof. intros []. split; eauto. Qed.

(** ** Lookups *)

Lemma elem_of_root_listing db r f :
  f ∈ root_listing db r ↔
  f ∈ r_scripts (root db r) ∨ ∃ p, p ∈ r_packages (root db r) ∧ f ∈ package_listing db p.
Proof. unfold root_listing. rewrite elem_of_app, list_elem_of_bind. naive_solver. Qed.

Lemma live_valid x db f : placed_except x db → live db f → f < length (files db).
Proof.
  intros Hp [(r & Hr & Hf)|Hf]; [|by eapply pl_orphan].
  apply elem_of_root_listing in Hf as [Hf|(p & _ & Hf)];
    [by eapply pl_scripts|by eapply pl_listing].
Qed.

(** An index by path holds files of the list, at their paths, and has every
    path of the list. *)
Lemma path_index_spec db l p :
  match path_index db l !! p with
  | Some f => f ∈ l ∧ f_path (file db f) = p
  | None => ∀ f, f ∈ l → f_path (file db f) ≠ p
  end.
Proof.
  unfold path_index.
  assert (Hg : ∀ (m : gmap FilePath File) l0,
    match m !! p with
    | Some f => f ∈ l0 ∧ f_path (file db f) = p
    | None => ∀ f, f ∈ l0 → f_path (file db f) ≠ p
    end →
    match foldl (λ m f, <[f_path (file db f) := f]> m) m l !! p with
    | Some f => f ∈ l0 ++ l ∧ f_path (file db f) = p
    | None => ∀ f, f ∈ l0 ++ l → f_path (file db f) ≠ p
    end); [|by apply (Hg ∅ []); rewrite lookup_empty; set_solver].
  induction l as [|f l IH]; intros m l0 Hm; simpl; [by rewrite app_nil_r|].
  rewrite (app_assoc l0 [f] l : l0 ++ f :: l = _). apply IH.
  destruct (decide (f_path (file db f) = p)) as [<-|Hne].
  - rewrite lookup_insert_eq. set_solver.
  - rewrite lookup_insert_ne by done. destruct (m !! p); set_solver.
Qed.

Lemma first_some_spec {A B} (g : A → option B) l :
  match first_some g l with
  | Some b => ∃ a, a ∈ l ∧ g a = Some b
  | None => ∀ a, a ∈ l → g a = None
  end.
Proof.
  induction l as [|a l IH]; simpl; [set_solver|]. destruct (g a) eqn:Ha.
  - exists a. split; [by left|done].
  - destruct (first_some g l).
    + destruct IH as (a' & ? & ?). exists a'. split; [by right|done].
    + intros a' [->|?]%elem_of_cons; auto.
Qed.

Lemma elem_of_live_roots db l :
  l ∈ live_roots db ↔
  match live_root l with Some r => r ∈ live_list db | None => True end ∧
  match l with LWorkspace r => r ∈ workspace_roots db | LLibrary r => r ∈ library_roots db
  | LOrphan => True end.
Proof.
  unfold live_roots, live_list. rewrite !elem_of_app, !list_elem_of_fmap, list_elem_of_singleton.
  destruct l; simpl; rewrite ?elem_of_app; naive_solver.
Qed.

Lemma live_roots_root db r : r ∈ live_list db → ∃ l, l ∈ live_roots db ∧ live_root l = Some r.
Proof.
  intros Hr. assert (Hr' := Hr). apply elem_of_app in Hr' as [Hw|Hl].
  - exists (LWorkspace r). by rewrite elem_of_live_roots.
  - exists (LLibrary r). by rewrite elem_of_live_roots.
Qed.

Section lookups.
Context `{HashOrder}.

Lemma file_by_path_spec db p :
  match file_by_path db p with
  | Some f => live db f ∧ f_path (file db f) = p
  | None => ∀ f, live db f → f_path (file db f) ≠ p
  end.
Proof.
  unfold file_by_path. set (g := λ l, match live_root l with
    | Some r => root_path_index db r !! p | None => orphan_path_index db !! p end).
  pose proof (first_some_spec g (live_roots db)) as Hs.
  assert (Hg : ∀ l, match g l with
    | Some f => f_path (file db f) = p ∧
        match live_root l with Some r => f ∈ root_listing db r | None => f ∈ orphan_files db end
    | None => ∀ f, match live_root l with Some r => f ∈ root_listing db r
                   | None => f ∈ orphan_files db end → f_path (file db f) ≠ p end).
  { intros l. unfold g. destruct (live_root l) as [r|].
    - pose proof (path_index_spec db (root_listing db r) p) as Hi.
      unfold root_path_index. destruct (path_index _ _ !! p); naive_solver.
    - unfold orphan_path_index.
      pose proof (path_index_spec db (hash_order (elements (orphan_files db))) p) as Hi.
      destruct (path_index _ _ !! p); setoid_rewrite hash_order_perm in Hi;
        setoid_rewrite elem_of_elements in Hi; naive_solver. }
  destruct (first_some g (live_roots db)) as [f|].
  - destruct Hs as (l & Hl & Hf). specialize (Hg l). rewrite Hf in Hg. destruct Hg as [Hp Hin].
    split; [|done]. apply elem_of_live_roots in Hl as [Hl _].
    destruct (live_root l) as [r|]; [left; eauto|by right].
  - intros f [(r & Hr & Hf)|Hf].
    + destruct (live_roots_root db r Hr) as (l & Hl & Hlr). specialize (Hg l).
      rewrite (Hs l Hl), Hlr in Hg. by apply Hg.
    + specialize (Hg LOrphan). rewrite (Hs LOrphan) in Hg by by rewrite elem_of_live_roots.
      by apply Hg.
Qed.

(** A live file is found at its path. *)
Lemma file_by_path_live x db f :
  placed_except x db → live db f → file_by_path db (f_path (file db f)) = Some f.
Proof.
  intros Hp Hf. pose proof (file_by_path_spec db (f_path (file db f))) as Hs.
  destruct (file_by_path _ _) as [g|].
  - destruct Hs as [Hg He]. f_equal. by eapply pl_path.
  - by destruct (Hs f Hf).
Qed.

Lemma stale_file_by_path_Some db p f :
  stale_file_by_path db p = Some f → f ∈ stale_files db ∧ f_path (file db f) = p.
Proof.
  unfold stale_file_by_path, stale_path_index. intros Hf.
  pose proof (path_index_spec db (hash_order (elements (stale_files db))) p) as Hi.
  rewrite Hf, hash_order_perm, elem_of_elements in Hi. done.
Qed.
End lookups.

(** ** Reading after a write *)

Lemma file_on_file db f g f' :
  f < length (files db) →
  file (on_file f g db) f' = if decide (f' = f) then g (file db f) else file db f'.
Proof.
  intros Hf. unfold file, on_file; simpl. destruct (alter_total (files db) g f f' Hf) as [He Hn].
  case_decide; [by subst|by apply Hn].
Qed.

Lemma package_on_package db p g p' :
  p < length (packages db) →
  package (on_package p g db) p' = if decide (p' = p) then g (package db p) else package db p'.
Proof.
  intros Hp. unfold package, on_package; simpl.
  destruct (alter_total (packages db) g p p' Hp) as [He Hn].
  case_decide; [by subst|by apply Hn].
Qed.

Lemma root_on_root db r g r' :
  r < length (roots db) →
  root (on_root r g db) r' = if decide (r' = r) then g (root db r) else root db r'.
Proof.
  intros Hr. unfold root, on_root; simpl. destruct (alter_total (roots db) g r r' Hr) as [He Hn].
  case_decide; [by subst|by apply Hn].
Qed.

(** A listed file has a package that exists. *)
Lemma listing_valid db p f : f ∈ package_listing db p → p < length (packages db).
Proof.
  intros Hf. destruct (decide (p < length (packages db))) as [|Hp]; [done|].
  unfold package_listing, package in Hf.
  rewrite (list_lookup_total_alt (packages db)), lookup_ge_None_2 in Hf by lia.
  by apply not_elem_of_nil in Hf.
Qed.

Lemma with_cow_filter_None l x : with_cow_filter l x = None → x ∉ l.
Proof. unfold with_cow_filter. by case_bool_decide. Qed.

Lemma with_cow_filter_Some l x l' :
  with_cow_filter l x = Some l' → x ∈ l ∧ l' = filter (λ y, y ≠ x) l.
Proof. unfold with_cow_filter. case_bool_decide; [|done]. by intros [= <-]. Qed.

(** Removing a file from the package that lists it. *)
Lemma remove_from_pkg_files_spec db p f :
  (f ∈ p_files (package db p) → f ∉ p_scripts (package db p)) →
  let db' := remove_from_pkg_files p f db in
  files db' = files db ∧ roots db' = roots db ∧ workspace_roots db' = workspace_roots db ∧
  library_roots db' = library_roots db ∧ orphan_files db' = orphan_files db ∧
  stale_files db' = stale_files db ∧ stale_packages db' = stale_packages db ∧
  length (packages db') = length (packages db) ∧
  ∀ p', p_description_path (package db' p') = p_description_path (package db p') ∧
    (∀ g, g ∈ p_files (package db' p') ↔ g ∈ p_files (package db p') ∧ (g = f → p' ≠ p)) ∧
    (∀ g, g ∈ p_scripts (package db' p') ↔ g ∈ p_scripts (package db p') ∧ (g = f → p' ≠ p)).
Proof.
  intros Hsplit. cbn zeta. unfold remove_from_pkg_files.
  destruct (with_cow_filter (p_files (package db p)) f) as [l|] eqn:E1.
  - apply with_cow_filter_Some in E1 as [Hin ->].
    assert (Hp : p < length (packages db)).
    { eapply listing_valid. unfold package_listing. apply elem_of_app. by left. }
    split_and!; try done; [apply length_alter|]. intros p'. rewrite package_on_package by done.
    case_decide as Hpp; [subst p'; simpl|naive_solver].
    split; [done|]. split; intros g; [rewrite list_elem_of_filter; naive_solver|naive_solver].
  - apply with_cow_filter_None in E1.
    destruct (with_cow_filter (p_scripts (package db p)) f) as [l|] eqn:E2.
    + apply with_cow_filter_Some in E2 as [Hin ->].
      assert (Hp : p < length (packages db)).
      { eapply listing_valid. unfold package_listing. apply elem_of_app. by right. }
      split_and!; try done; [apply length_alter|]. intros p'. rewrite package_on_package by done.
      case_decide as Hpp; [subst p'; simpl|naive_solver].
      split; [done|]. split; intros g; [naive_solver|rewrite list_elem_of_filter; naive_solver].
    + apply with_cow_filter_None in E2. split_and!; try done. naive_solver.
Qed.

(** ** Upserts *)

(** What an upsert of [entry] into [pkg] that answers [f] has done. *)
Record upserted (pkg : option Package) (entry : FileEntry) (db db' : Db) (f : File) : Prop := {
  up_path : f_path (file db' f) = fe_path entry;
  up_package : f_package (file db' f) = pkg;
  up_valid : f < length (files db');
  up_files : length (files db) ≤ length (files db');
  up_other g : g ≠ f → g < length (files db) → file db' g = file db g;
  up_orphan g : g ∈ orphan_files db' ↔ g ∈ orphan_files db ∧ g ≠ f;
  up_stale g : g ∈ stale_files db' ↔ g ∈ stale_files db ∧ g ≠ f;
  up_pfiles p g : g ∈ p_files (package db' p) ↔ g ∈ p_files (package db p) ∧ (g = f → pkg = Some p);
  up_pscripts p g :
    g ∈ p_scripts (package db' p) ↔ g ∈ p_scripts (package db p) ∧ (g = f → pkg = Some p);
  up_description p : p_description_path (package db' p) = p_description_path (package db p);
  up_packages : length (packages db') = length (packages db);
  up_roots : roots db' = roots db;
  up_workspace : workspace_roots db' = workspace_roots db;
  up_library : library_roots db' = library_roots db;
  up_stale_packages : stale_packages db' = stale_packages db;
  up_unique g : live db g → f_path (file db g) = fe_path entry → g = f;
  up_same : f < length (files db) → f_path (file db f) = fe_path entry;
  up_script r : r ∈ live_list db → f ∈ r_scripts (root db r) →
    live db f ∧ f_path (file db f) = fe_path entry;
}.

Lemma file_on_file_if db c f g f' :
  f < length (files db) →
  file (on_file_if c f g db) f' = if decide (f' = f) then if c then g (file db f) else file db f
                                  else file db f'.
Proof.
  intros Hf. destruct c; simpl; [by apply file_on_file|]. case_decide; by subst.
Qed.

Lemma with_cow_remove_spec (s : gset nat) x :
  ∀ y, y ∈ default s (with_cow_remove s x) ↔ y ∈ s ∧ y ≠ x.
Proof. intros y. unfold with_cow_remove. case_bool_decide; simpl; set_solver. Qed.

Lemma remove_from_orphan_eq f db :
  remove_from_orphan f db = db ∨ ∃ s, remove_from_orphan f db = set_orphan_files s db.
Proof. unfold remove_from_orphan. destruct (with_cow_remove _ _); eauto. Qed.

Lemma orphan_remove_from_orphan f db g :
  g ∈ orphan_files (remove_from_orphan f db) ↔ g ∈ orphan_files db ∧ g ≠ f.
Proof.
  rewrite <-with_cow_remove_spec. unfold remove_from_orphan.
  by destruct (with_cow_remove (orphan_files db) f).
Qed.

Lemma remove_from_stale_files_eq f db :
  remove_from_stale_files f db = db ∨ ∃ s, remove_from_stale_files f db = set_stale_files s db.
Proof. unfold remove_from_stale_files. destruct (with_cow_remove _ _); eauto. Qed.

Lemma stale_remove_from_stale_files f db g :
  g ∈ stale_files (remove_from_stale_files f db) ↔ g ∈ stale_files db ∧ g ≠ f.
Proof.
  rewrite <-with_cow_remove_spec. unfold remove_from_stale_files.
  by destruct (with_cow_remove (stale_files db) f).
Qed.

(** Only the data of [f] changes, and not its path. *)
Record touched (f : File) (db db' : Db) : Prop := {
  to_file g : g ≠ f → file db' g = file db g;
  to_path : f_path (file db' f) = f_path (file db f);
  to_length : length (files db') = length (files db);
  to_packages : packages db' = packages db;
  to_roots : roots db' = roots db;
  to_workspace : workspace_roots db' = workspace_roots db;
  to_library : library_roots db' = library_roots db;
  to_orphan : orphan_files db' = orphan_files db;
  to_stale : stale_files db' = stale_files db;
  to_stale_packages : stale_packages db' = stale_packages db;
}.

Lemma touched_refl f db : touched f db db.
Proof. by split. Qed.

Lemma touched_on_file f g db db' :
  (∀ a, f_path (g a) = f_path a) → touched f db db' → touched f db (on_file f g db').
Proof.
  intros Hg []. split; try done.
  - intros f' Hf'. rewrite <-to_file0 by done. unfold file, on_file; simpl.
    rewrite list_lookup_total_alter. by rewrite decide_False by naive_solver.
  - rewrite <-to_path0. unfold file, on_file; simpl. by apply (alter_field f_path).
  - rewrite <-to_length0. apply length_alter.
Qed.

Lemma touched_on_file_if c f g db db' :
  (∀ a, f_path (g a) = f_path a) → touched f db db' → touched f db (on_file_if c f g db').
Proof. destruct c; [by apply touched_on_file|done]. Qed.

(** [f] leaves the containers other than those of [pkg]; no data changes. *)
Record moved (pkg : option Package) (f : File) (db db' : Db) : Prop := {
  mo_files : files db' = files db;
  mo_roots : roots db' = roots db;
  mo_workspace : workspace_roots db' = workspace_roots db;
  mo_library : library_roots db' = library_roots db;
  mo_stale_packages : stale_packages db' = stale_packages db;
  mo_packages : length (packages db') = length (packages db);
  mo_description p : p_description_path (package db' p) = p_description_path (package db p);
  mo_orphan g : g ∈ orphan_files db' ↔ g ∈ orphan_files db ∧ g ≠ f;
  mo_stale g : g ∈ stale_files db' ↔ g ∈ stale_files db ∧ g ≠ f;
  mo_pfiles p g : g ∈ p_files (package db' p) ↔ g ∈ p_files (package db p) ∧ (g = f → pkg = Some p);
  mo_pscripts p g :
    g ∈ p_scripts (package db' p) ↔ g ∈ p_scripts (package db p) ∧ (g = f → pkg = Some p);
}.

Lemma upserted_intro pkg entry f db db1 db2 :
  f < length (files db) → touched f db db1 → f_package (file db1 f) = pkg →
  f_path (file db f) = fe_path entry →
  moved pkg f db1 db2 → (∀ g, live db g → f_path (file db g) = fe_path entry → g = f) →
  (∀ r, r ∈ live_list db → f ∈ r_scripts (root db r) → live db f) →
  upserted pkg entry db db2 f.
Proof.
  intros Hlt [] Hpkg Hpath [] Huniq Hscript.
  assert (Hfile : ∀ g, file db2 g = file db1 g) by by intros g; unfold file; rewrite mo_files0.
  split; rewrite ?Hfile, ?mo_files0; try congruence; try lia; try done.
  - intros g Hg _. rewrite Hfile. auto.
  - intros g. by rewrite mo_orphan0, to_orphan0.
  - intros g. by rewrite mo_stale0, to_stale0.
  - intros p g. rewrite mo_pfiles0. unfold package. by rewrite to_packages0.
  - intros p g. rewrite mo_pscripts0. unfold package. by rewrite to_packages0.
  - intros p. rewrite mo_description0. unfold package. by rewrite to_packages0.
  - intros r Hr Hf. split; [by eapply Hscript|done].
Qed.

Section upserts.
Context `{HashOrder}.
Context (x : option Root).

(** A file lists no package but its backpointer's. *)
Lemma listing_back db p f :
  placed_except x db → f ∈ package_listing db p → f_package (file db f) = Some p.
Proof. intros Hp. by apply (pl_backpointer _ _ Hp). Qed.

Lemma live_not_stale db f : placed_except x db → live db f → f ∉ stale_files db.
Proof.
  intros Hp Hf Hs. destruct Hf as [(r & Hr & Hf)|Hf]; [|by eapply pl_stale_orphan].
  apply elem_of_root_listing in Hf as [Hf|(p & _ & Hf)]; [by eapply pl_stale_script|].
  apply (listing_back _ _ _ Hp) in Hf. apply (pl_stale_none _ _ Hp) in Hs. congruence.
Qed.

Lemma move_iff (l : list nat) (f q p : nat) (pkg : option Package) g :
  (f ∈ l → q = p) → Some q ≠ pkg →
  (g ∈ l ∧ (g = f → p ≠ q)) ↔ (g ∈ l ∧ (g = f → pkg = Some p)).
Proof.
  intros Hl Hq. split; intros [Hg Himp]; (split; [done|]); intros ->.
  - destruct (Himp eq_refl). symmetry. by apply Hl.
  - intros ->. by rewrite Himp in Hq.
Qed.

(** Taking [f] out of the package it had, and out of the orphans. *)
Lemma moved_existing pkg f db db1 :
  placed_except x db → touched f db db1 → f ∉ stale_files db →
  moved pkg f db1 (remove_from_orphan f
    (if bool_decide (f_package (file db f) = pkg) then db1
     else match f_package (file db f) with
          | Some q => remove_from_pkg_files q f db1
          | None => db1
          end)).
Proof.
  intros Hp [] Hst.
  assert (Hback : ∀ p, f ∈ p_files (package db1 p) ∨ f ∈ p_scripts (package db1 p) →
    f_package (file db f) = Some p).
  { intros p Hin. apply (listing_back _ _ _ Hp). unfold package_listing. apply elem_of_app.
    unfold package in *. by rewrite <-to_packages0. }
  assert (Hsplit : ∀ p, f ∈ p_files (package db1 p) → f ∉ p_scripts (package db1 p)).
  { intros p. unfold package. rewrite to_packages0. apply (pl_split _ _ Hp). }
  set (db2 := if bool_decide _ then db1 else _).
  assert (H2 : files db2 = files db1 ∧ roots db2 = roots db1 ∧
    workspace_roots db2 = workspace_roots db1 ∧ library_roots db2 = library_roots db1 ∧
    orphan_files db2 = orphan_files db1 ∧ stale_files db2 = stale_files db1 ∧
    stale_packages db2 = stale_packages db1 ∧ length (packages db2) = length (packages db1) ∧
    ∀ p, p_description_path (package db2 p) = p_description_path (package db1 p) ∧
      (∀ g, g ∈ p_files (package db2 p) ↔ g ∈ p_files (package db1 p) ∧ (g = f → pkg = Some p)) ∧
      (∀ g, g ∈ p_scripts (package db2 p) ↔ g ∈ p_scripts (package db1 p) ∧ (g = f → pkg = Some p))).
  { unfold db2. case_bool_decide as Hsame; [|destruct (f_package (file db f)) as [q|] eqn:Hq].
    - split_and!; try done. intros p. split; [done|].
      split; intros g; (split; [intros Hg|by intros [??]]); split; try done; intros ->; rewrite <-Hsame;
        apply Hback; auto.
    - pose proof (remove_from_pkg_files_spec db1 q f (Hsplit q)) as Hr. cbn zeta in Hr.
      destruct Hr as (?&?&?&?&?&?&?&?&Hrp). split_and!; try done. intros p.
      destruct (Hrp p) as (Hd & Hf & Hs). split; [done|].
      split; intros g; [rewrite Hf|rewrite Hs]; apply move_iff; try done;
        intros Hin; enough (Some q = Some p) by congruence; apply Hback; auto.
    - split_and!; try done. intros p. split; [done|].
      split; intros g; (split; [intros Hg|by intros [??]]); split; try done; intros ->;
        enough (None = Some p) by done; apply Hback; auto. }
  destruct H2 as (F & R & W & L & O & S & SP & LP & HP).
  assert (Hst1 : f ∉ stale_files db2) by congruence.
  assert (Ho : ∀ g, g ∈ orphan_files (remove_from_orphan f db2) ↔ g ∈ orphan_files db1 ∧ g ≠ f).
  { intros g. by rewrite orphan_remove_from_orphan, O. }
  revert Ho. destruct (remove_from_orphan_eq f db2) as [->|[s ->]]; intros Ho;
    (split; try done; intros; unfold package; simpl; try apply HP).
  all: simpl in *; rewrite S in *; set_solver.
Qed.

Lemma upsert_existing_spec pkg entry f db :
  placed_except x db → live db f → f_path (file db f) = fe_path entry →
  upserted pkg entry db (upsert_existing pkg entry f db) f.
Proof.
  intros Hp Hf Hpath. assert (Hlt := live_valid _ _ _ Hp Hf).
  assert (Hst := live_not_stale _ _ Hp Hf).
  unfold upsert_existing. set (db1 := on_file_if _ f _ db).
  assert (T1 : touched f db db1) by (apply touched_on_file_if; [done|apply touched_refl]).
  assert (Hlt1 : f < length (files db1)) by by rewrite (to_length _ _ _ T1).
  assert (Hpkg1 : f_package (file db1 f) = f_package (file db f)).
  { unfold db1. rewrite file_on_file_if, decide_True by done. by case_match. }
  rewrite Hpkg1.
  set (db2 := if bool_decide (f_package (file db f) = pkg) then db1
              else on_file f (set_file_package pkg) db1).
  assert (T2 : touched f db db2) by (unfold db2; case_match; [done|by apply touched_on_file]).
  assert (Hpkg2 : f_package (file db2 f) = pkg).
  { unfold db2. case_bool_decide; [congruence|]. by rewrite file_on_file, decide_True. }
  eapply (upserted_intro pkg entry f db db2); try done.
  - replace (if bool_decide _ then db1 else _) with
      (if bool_decide (f_package (file db f) = pkg) then db2
       else match f_package (file db f) with
            | Some q => remove_from_pkg_files q f db2 | None => db2 end).
    { by apply moved_existing. }
    unfold db2. case_bool_decide; [done|]. by destruct (f_package (file db f)).
  - intros g Hg Hgp. eapply pl_path; [done..|congruence].
Qed.

Lemma upsert_stale_spec pkg entry f db :
  placed_except x db → f ∈ stale_files db → f_path (file db f) = fe_path entry →
  (∀ g, live db g → f_path (file db g) ≠ fe_path entry) →
  upserted pkg entry db (upsert_stale pkg entry f db) f.
Proof.
  intros Hp Hf Hpath Hno. assert (Hlt := pl_stale _ _ Hp _ Hf).
  assert (Hnone := pl_stale_none _ _ Hp _ Hf).
  assert (Horph := pl_stale_orphan _ _ Hp _ Hf).
  unfold upsert_stale. set (db1 := on_file_if _ f _ db). set (db2 := on_file_if _ f _ db1).
  set (db3 := on_file_if _ f _ db2).
  assert (T1 : touched f db db1) by (apply touched_on_file_if; [done|apply touched_refl]).
  assert (T2 : touched f db db2) by by apply touched_on_file_if.
  assert (T3 : touched f db db3) by by apply touched_on_file_if.
  assert (Hpkg : f_package (file db3 f) = pkg).
  { unfold db3. rewrite file_on_file_if, decide_True; [|done|].
    - case_bool_decide as Hsame; simpl; [done|done].
    - by rewrite (to_length _ _ _ T2). }
  eapply (upserted_intro pkg entry f db db3); try done.
  - assert (Hs : ∀ g, g ∈ stale_files (remove_from_stale_files f db3) ↔ g ∈ stale_files db3 ∧ g ≠ f)
      by apply stale_remove_from_stale_files.
    assert (Hno' : ∀ p, (f ∉ p_files (package db3 p)) ∧ (f ∉ p_scripts (package db3 p))).
    { intros p. unfold package. rewrite (to_packages _ _ _ T3).
      split; intros Hin; enough (f_package (file db f) = Some p) by congruence;
        apply (listing_back _ _ _ Hp), elem_of_app; auto. }
    assert (Ho : ∀ g, g ∈ orphan_files db3 ↔ g ∈ orphan_files db3 ∧ g ≠ f).
    { intros g. rewrite (to_orphan _ _ _ T3). split; [|by intros [??]].
      intros Hg. split; [done|]. by intros ->. }
    assert (Hpf : ∀ p g, g ∈ p_files (package db3 p) ↔
      g ∈ p_files (package db3 p) ∧ (g = f → pkg = Some p)).
    { intros p g. split; [|by intros [??]]. intros Hg. split; [done|]. intros ->. by destruct (Hno' p). }
    assert (Hps : ∀ p g, g ∈ p_scripts (package db3 p) ↔
      g ∈ p_scripts (package db3 p) ∧ (g = f → pkg = Some p)).
    { intros p g. split; [|by intros [??]]. intros Hg. split; [done|]. intros ->. by destruct (Hno' p). }
    revert Hs. destruct (remove_from_stale_files_eq f db3) as [->|[s ->]]; intros Hs;
      constructor; first [exact Hs|exact Ho|exact Hpf|exact Hps|reflexivity|intros; reflexivity].
  - intros g Hg Hgp. by destruct (Hno g Hg).
  - intros r Hr Hin. by destruct (pl_stale_script _ _ Hp r f Hr Hf).
Qed.

Lemma file_new_file db a g :
  file (new_file a db).1 g = if decide (g = length (files db)) then a else file db g.
Proof.
  unfold file, new_file; simpl. destruct (snoc_total (files db) a g) as [Hlt Hlen].
  case_decide; [by subst|]. destruct (decide (g < length (files db))); [by apply Hlt|].
  rewrite !list_lookup_total_alt, !lookup_ge_None_2; [done|lia|]. rewrite length_app. simpl. lia.
Qed.

Lemma upsert_new_spec pkg entry db :
  placed_except x db → (∀ g, live db g → f_path (file db g) ≠ fe_path entry) →
  let d := mkFile (fe_path entry) (fe_revision entry) None pkg in
  upserted pkg entry db (new_file d db).1 (new_file d db).2.
Proof.
  intros Hp Hno. cbn zeta. set (d := mkFile _ _ _ _).
  assert (Hfresh : ∀ g, g < length (files db) → g ≠ length (files db)) by lia.
  change (new_file d db).2 with (length (files db)).
  split; rewrite ?file_new_file, ?decide_True by done; simpl; try done.
  - rewrite length_app. simpl. lia.
  - rewrite length_app. lia.
  - intros g Hg _. change (file (new_file d db).1 g = file db g).
    by rewrite file_new_file, decide_False.
  - intros g. split; [|by intros [??]]. intros Hg. split; [done|]. by eapply Hfresh, pl_orphan.
  - intros g. split; [|by intros [??]]. intros Hg. split; [done|]. by eapply Hfresh, pl_stale.
  - intros p g. split; [|by intros [??]]. intros Hg. split; [done|]. intros ->.
    destruct (Hfresh (length (files db))); [|done]. eapply (pl_listing _ _ Hp p), elem_of_app. by left.
  - intros p g. split; [|by intros [??]]. intros Hg. split; [done|]. intros ->.
    destruct (Hfresh (length (files db))); [|done]. eapply (pl_listing _ _ Hp p), elem_of_app. by right.
  - intros g Hg Hgp. by destruct (Hno g Hg).
  - lia.
  - intros r Hr Hin. destruct (Hfresh (length (files db))); [|done]. by eapply (pl_scripts _ _ Hp r).
Qed.

Lemma upsert_root_file_spec pkg entry db :
  placed_except x db →
  upserted pkg entry db (upsert_root_file pkg entry db).1 (upsert_root_file pkg entry db).2.
Proof.
  intros Hp. unfold upsert_root_file. pose proof (file_by_path_spec db (fe_path entry)) as Hs.
  destruct (file_by_path db (fe_path entry)) as [f|].
  { destruct Hs. by apply upsert_existing_spec. }
  destruct (stale_file_by_path db (fe_path entry)) as [f|] eqn:Hst.
  - apply stale_file_by_path_Some in Hst as [??]. by apply upsert_stale_spec.
  - by apply upsert_new_spec.
Qed.
End upserts.

(** ** What an upsert keeps *)

Section keeps.
Context (x : option Root) (pkg : option Package) (entry : FileEntry) (db db' : Db) (f : File).
Context (Hp : placed_except x db) (Hu : upserted pkg entry db db' f).

Lemma up_live_list : live_list db' = live_list db.
Proof. unfold live_list. by rewrite (up_workspace _ _ _ _ _ Hu), (up_library _ _ _ _ _ Hu). Qed.

Lemma up_root r : root db' r = root db r.
Proof. unfold root. by rewrite (up_roots _ _ _ _ _ Hu). Qed.

Lemma up_listing p g : g ∈ package_listing db' p → g ∈ package_listing db p ∧ (g = f → pkg = Some p).
Proof.
  unfold package_listing. rewrite !elem_of_app, (up_pfiles _ _ _ _ _ Hu), (up_pscripts _ _ _ _ _ Hu).
  naive_solver.
Qed.

Lemma up_live g : live db' g → live db g.
Proof.
  intros [(r & Hr & Hg)|Hg]; [|right; by apply (up_orphan _ _ _ _ _ Hu) in Hg as [? _]].
  left. rewrite up_live_list in Hr. exists r. split; [done|].
  apply elem_of_root_listing in Hg. rewrite up_root in Hg. apply elem_of_root_listing.
  destruct Hg as [?|(p & ? & [? _]%up_listing)]; eauto.
Qed.

(** Data of existing files but [f], and the path of all. *)
Lemma up_file_path g : g < length (files db) → f_path (file db' g) = f_path (file db g).
Proof.
  intros Hg. destruct (decide (g = f)) as [->|].
  - by rewrite (up_path _ _ _ _ _ Hu), (up_same _ _ _ _ _ Hu).
  - by rewrite (up_other _ _ _ _ _ Hu).
Qed.

Lemma up_placed :
  (∀ r g, r ∈ live_list db → x ≠ Some r → g ∈ r_scripts (root db r) →
     f_path (file db g) = fe_path entry → pkg = None) →
  placed_except x db'.
Proof.
  intros Hscripts. pose proof up_live_list as HL. pose proof up_live as Hlive.
  assert (Hlen := up_files _ _ _ _ _ Hu).
  assert (Hother : ∀ g, g ≠ f → g < length (files db) → f_package (file db' g) = f_package (file db g)).
  { intros g Hg Hlt. by rewrite (up_other _ _ _ _ _ Hu). }
  split; try setoid_rewrite HL; try setoid_rewrite up_root;
    try setoid_rewrite (up_orphan _ _ _ _ _ Hu); try setoid_rewrite (up_stale _ _ _ _ _ Hu).
  - intros r Hr. rewrite (up_roots _ _ _ _ _ Hu). by apply Hp.
  - intros r p Hr. rewrite (up_packages _ _ _ _ _ Hu). by eapply pl_root_pkg.
  - intros p g [Hg _]%up_listing. eapply Nat.lt_le_trans; [|done]. by eapply pl_listing.
  - intros r g Hg. eapply Nat.lt_le_trans; [|done]. by eapply pl_scripts.
  - intros g [Hg _]. eapply Nat.lt_le_trans; [|done]. by eapply pl_orphan.
  - intros g [Hg _]. eapply Nat.lt_le_trans; [|done]. by eapply pl_stale.
  - intros p. rewrite (up_stale_packages _ _ _ _ _ Hu), (up_packages _ _ _ _ _ Hu). by apply Hp.
  - intros p g [Hg Hpkg]%up_listing. destruct (decide (g = f)) as [->|Hne].
    + rewrite (up_package _ _ _ _ _ Hu). auto.
    + rewrite Hother; [by eapply pl_backpointer|done|by eapply pl_listing].
  - intros r g Hr Hx Hg. destruct (decide (g = f)) as [->|Hne].
    + rewrite (up_package _ _ _ _ _ Hu). eapply Hscripts; try done.
      by apply (up_script _ _ _ _ _ Hu r).
    + rewrite Hother; [by eapply pl_script_none|done|by eapply pl_scripts].
  - intros g [Hg Hne]. rewrite Hother; [by eapply pl_orphan_none|done|by eapply pl_orphan].
  - intros g [Hg Hne]. rewrite Hother; [by eapply pl_stale_none|done|by eapply pl_stale].
  - intros p g. rewrite (up_pfiles _ _ _ _ _ Hu), (up_pscripts _ _ _ _ _ Hu).
    intros [Hg _] [Hg' _]. by eapply pl_split.
  - intros g [Hg _] [Hg' _]. by eapply pl_stale_orphan.
  - intros r g Hr [Hg _]. by eapply pl_stale_script.
  - intros r g Hr [Hg _]. by eapply pl_orphan_script.
  - apply (pl_pkg_once _ _ Hp).
  - apply (pl_script_once _ _ Hp).
  - intros g g' Hg%Hlive Hg'%Hlive. rewrite !up_file_path by by eapply live_valid.
    by apply (pl_path _ _ Hp).
Qed.
End keeps.
