(* ===== verification/PlacementApply.v ===== *)
(** * The placement invariant: packages, and a scan as a whole

    [upsert_package] finds the package of a description path or makes one;
    [set_scanned_packages] loads the packages of a result one after the other,
    and [apply] hands them to the root. A result [fits] when its paths are
    those of one root only. The first part is about the scripts of a scan. *)

From S2P Require Export Placement.

(** [f] is the file of the path [y], ready to be listed by [pkg]. *)
Record settled (y : FilePath) (pkg : option Package) (f : File) (db : Db) : Prop := {
  se_valid : f < length (files db);
  se_path : f_path (file db f) = y;
  se_package : f_package (file db f) = pkg;
  se_orphan : f ∉ orphan_files db;
  se_stale : f ∉ stale_files db;
  se_unique g : live db g → f_path (file db g) = y → g = f;
}.

(** An update on behalf of the paths [E] that rewrites the packages [P]. *)
Record stepped (E : list FilePath) (P : list Package) (db db' : Db) : Prop := {
  st_files : length (files db) ≤ length (files db');
  st_path g : g < length (files db) → f_path (file db' g) = f_path (file db g);
  st_roots : roots db' = roots db;
  st_workspace : workspace_roots db' = workspace_roots db;
  st_library : library_roots db' = library_roots db;
  st_packages : length (packages db) ≤ length (packages db');
  st_description p : p < length (packages db) →
    p_description_path (package db' p) = p_description_path (package db p);
  st_listing p g : p ∉ P → g ∈ package_listing db' p → g ∈ package_listing db p;
  st_kept p g : p ∉ P → g < length (files db) → f_path (file db g) ∉ E →
    g ∈ package_listing db p → g ∈ package_listing db' p;
  st_live g : live db' g → live db g ∨ f_path (file db' g) ∈ E;
  st_settled y pkg f : y ∉ E → settled y pkg f db → settled y pkg f db';
}.

Lemma stepped_refl E P db : stepped E P db db.
Proof. split; auto. Qed.

Lemma stepped_live_list E P db db' : stepped E P db db' → live_list db' = live_list db.
Proof. intros []. unfold live_list. congruence. Qed.

Lemma stepped_root E P db db' r : stepped E P db db' → root db' r = root db r.
Proof. intros []. unfold root. congruence. Qed.

Lemma stepped_trans x E1 P1 E2 P2 db1 db2 db3 :
  placed_except x db2 →
  stepped E1 P1 db1 db2 → stepped E2 P2 db2 db3 → stepped (E1 ++ E2) (P1 ++ P2) db1 db3.
Proof.
  intros Hp [] []. split; try congruence; try lia.
  - intros g Hg. rewrite st_path1, st_path0; [done..|lia].
  - intros p Hlt. rewrite st_description1, st_description0; [done..|lia].
  - intros p g Hn Hg. apply st_listing0, st_listing1; set_solver.
  - intros p g Hn Hlt Hg Hin. apply st_kept1; [set_solver|lia| |apply st_kept0; set_solver].
    rewrite st_path0; set_solver.
  - intros g Hg. destruct (st_live1 g Hg) as [Hg2|]; [|set_solver].
    destruct (st_live0 g Hg2) as [|He]; [by left|]. right.
    rewrite st_path1; [set_solver|by eapply live_valid].
  - intros y pkg f Hy Hs. apply st_settled1, st_settled0; [set_solver..|done].
Qed.

(** ** Upserts *)

Section upserts.
Context `{HashOrder}.
Context (x : option Root).

Lemma up_settled pkg entry db db' f :
  placed_except x db → upserted pkg entry db db' f → settled (fe_path entry) pkg f db'.
Proof.
  intros Hp Hu. split.
  - by eapply up_valid.
  - by eapply up_path.
  - by eapply up_package.
  - by intros [_ ?]%(up_orphan _ _ _ _ _ Hu).
  - by intros [_ ?]%(up_stale _ _ _ _ _ Hu).
  - intros g Hg Hgp. apply (up_live _ _ _ _ _ Hu) in Hg.
    rewrite (up_file_path _ _ _ _ _ Hu) in Hgp by by eapply live_valid. by eapply up_unique.
Qed.

Lemma up_stepped pkg entry db db' f :
  placed_except x db → upserted pkg entry db db' f → stepped [fe_path entry] [] db db'.
Proof.
  intros Hp Hu. split; try by apply Hu.
  - apply (up_file_path _ _ _ _ _ Hu).
  - by rewrite (up_packages _ _ _ _ _ Hu).
  - intros p _. apply (up_description _ _ _ _ _ Hu).
  - intros p g _ Hg. by apply (up_listing _ _ _ _ _ Hu) in Hg as [? _].
  - intros p g _ Hlt Hg. unfold package_listing. rewrite !elem_of_app.
    rewrite (up_pfiles _ _ _ _ _ Hu), (up_pscripts _ _ _ _ _ Hu).
    assert (g ≠ f).
    { intros ->. apply Hg. rewrite (up_same _ _ _ _ _ Hu Hlt). set_solver. }
    naive_solver.
  - intros g Hg. left. by apply (up_live _ _ _ _ _ Hu).
  - intros y pk h Hy [V Pa Pk O S U].
    assert (Hne : h ≠ f).
    { intros ->. apply Hy. rewrite <-Pa. rewrite (up_same _ _ _ _ _ Hu V). set_solver. }
    assert (Hf : file db' h = file db h) by by eapply up_other.
    split; rewrite ?Hf; try done.
    + eapply Nat.lt_le_trans; [done|]. by apply Hu.
    + by intros [? _]%(up_orphan _ _ _ _ _ Hu).
    + by intros [? _]%(up_stale _ _ _ _ _ Hu).
    + intros g Hg Hgp. apply (up_live _ _ _ _ _ Hu) in Hg.
      rewrite (up_file_path _ _ _ _ _ Hu) in Hgp by by eapply live_valid. by apply U.
Qed.

(** The script of another root at one of the paths forbids a package there. *)
Definition scripts_clear (pkg : option Package) (E : list FilePath) (db : Db) : Prop :=
  ∀ r g, r ∈ live_list db → x ≠ Some r → g ∈ r_scripts (root db r) →
    f_path (file db g) ∈ E → pkg = None.

Lemma scripts_clear_stepped pkg E E' P db db' :
  placed_except x db → stepped E' P db db' → scripts_clear pkg E db → scripts_clear pkg E db'.
Proof.
  intros Hp Hs Hc r g. rewrite (stepped_live_list _ _ _ _ Hs), (stepped_root _ _ _ _ r Hs).
  intros Hr Hx Hg He. rewrite (st_path _ _ _ _ Hs) in He by by eapply pl_scripts. by eapply Hc.
Qed.

Lemma upsert_root_files_spec pkg entries db :
  placed_except x db → NoDup (fe_path <$> entries) → scripts_clear pkg (fe_path <$> entries) db →
  let db' := (upsert_root_files pkg entries db).1 in
  let fs := (upsert_root_files pkg entries db).2 in
  placed_except x db' ∧ stepped (fe_path <$> entries) [] db db' ∧
  (∀ g, live db' g → live db g) ∧ length (packages db') = length (packages db) ∧
  Forall2 (λ e f, settled (fe_path e) pkg f db') entries fs.
Proof.
  revert db. induction entries as [|e es IH]; intros db Hp Hn Hc; cbn zeta; simpl.
  { split_and!; try done. apply stepped_refl. }
  apply NoDup_cons in Hn as [He Hn].
  pose proof (upsert_root_file_spec x pkg e db Hp) as Hu.
  destruct (upsert_root_file pkg e db) as [db1 f]. simpl in Hu.
  assert (Hp1 : placed_except x db1).
  { eapply up_placed; [done|exact Hu|]. intros r g Hr Hx Hg Hgp. eapply Hc; try done.
    rewrite Hgp. by left. }
  assert (S1 := up_stepped _ _ _ _ _ Hp Hu).
  destruct (IH db1 Hp1 Hn) as (Hp2 & S2 & L2 & P2 & F2).
  { apply (scripts_clear_stepped pkg _ _ _ _ _ Hp S1). intros r g Hr Hx Hg Hgp. eapply Hc; try done. by right. }
  destruct (upsert_root_files pkg es db1) as [db2 fs]. simpl in *.
  split; [done|]. split; [exact (stepped_trans x _ _ _ _ _ _ _ Hp1 S1 S2)|]. split; [|split].
  - intros g Hg. by eapply up_live, L2.
  - by rewrite P2, (up_packages _ _ _ _ _ Hu).
  - constructor; [|done]. apply (st_settled _ _ _ _ S2); [done|]. eapply up_settled; [exact Hp|exact Hu].
Qed.
End upserts.

(** ** The files of a package *)

Section listings.
Context `{HashOrder}.
Context (x : option Root).

(** What [D] lists for each path is settled. *)
Definition settled_all (pkg : option Package) (D : list (FilePath * File)) (db : Db) : Prop :=
  Forall (λ '(y, f), settled y pkg f db) D.

Lemma Forall2_settled pkg entries fs db :
  Forall2 (λ e f, settled (fe_path e) pkg f db) entries fs →
  settled_all pkg (zip (fe_path <$> entries) fs) db ∧
  (zip (fe_path <$> entries) fs).*1 = fe_path <$> entries ∧
  (zip (fe_path <$> entries) fs).*2 = fs.
Proof.
  induction 1 as [|e f es fs He _ (IH1 & IH2 & IH3)]; simpl; [by repeat constructor|].
  split; [by constructor|]. split; f_equal; [exact IH2|exact IH3].
Qed.

Lemma settled_all_elem pkg D db f :
  settled_all pkg D db → f ∈ D.*2 → ∃ y, (y, f) ∈ D ∧ settled y pkg f db.
Proof.
  intros Hs ([y f'] & -> & Hin)%list_elem_of_fmap. exists y. split; [done|].
  unfold settled_all in Hs. rewrite Forall_forall in Hs. apply (Hs (y, f') Hin).
Qed.

(** Paths without duplicates: [D] is a function. *)
Lemma settled_fun (D : list (FilePath * File)) y f f' :
  NoDup D.*1 → (y, f) ∈ D → (y, f') ∈ D → f = f'.
Proof.
  intros Hn E1 E2. apply list_elem_of_lookup in E1 as [i Hi], E2 as [j Hj].
  assert (i = j) as ->.
  { eapply (NoDup_lookup D.*1); [done|..]; by rewrite list_lookup_fmap, ?Hi, ?Hj. }
  congruence.
Qed.

Lemma settled_all_stepped pkg D E P db db' :
  stepped E P db db' → (∀ y, y ∈ D.*1 → y ∉ E) → settled_all pkg D db → settled_all pkg D db'.
Proof.
  intros Hs Hd. unfold settled_all. rewrite !Forall_forall. intros Ha [y f] Hin.
  apply (st_settled _ _ _ _ Hs); [|by apply (Ha (y, f))]. apply Hd, list_elem_of_fmap. by exists (y, f).
Qed.

(** Distinct paths: the files are distinct. *)
Lemma settled_files_NoDup pkg D db : NoDup D.*1 → settled_all pkg D db → NoDup D.*2.
Proof.
  unfold settled_all. induction D as [|[y f] D IH]; simpl; [constructor|].
  intros [Hy Hn]%NoDup_cons Hs. apply Forall_cons in Hs as [Hf Hs].
  constructor; [|by apply IH]. intros (y' & Hin & Hf')%(settled_all_elem pkg D db); [|done].
  apply Hy, list_elem_of_fmap. exists (y', f). split; [|done]. simpl.
  by rewrite <-(se_path _ _ _ _ Hf), (se_path _ _ _ _ Hf').
Qed.

(** Only what [p] lists is rewritten. *)
Record replaced (p : Package) (fe se : list File) (db db' : Db) : Prop := {
  rp_files : files db' = files db;
  rp_roots : roots db' = roots db;
  rp_workspace : workspace_roots db' = workspace_roots db;
  rp_library : library_roots db' = library_roots db;
  rp_orphan : orphan_files db' = orphan_files db;
  rp_stale : stale_files db' = stale_files db;
  rp_stale_packages : stale_packages db' = stale_packages db;
  rp_packages : length (packages db') = length (packages db);
  rp_listing p' : package_listing db' p' = if decide (p' = p) then fe ++ se else package_listing db p';
  rp_pfiles p' : p_files (package db' p') = if decide (p' = p) then fe else p_files (package db p');
  rp_pscripts p' :
    p_scripts (package db' p') = if decide (p' = p) then se else p_scripts (package db p');
  rp_description p' : p_description_path (package db' p') = p_description_path (package db p');
}.

Lemma replaced_write p fe se db :
  p < length (packages db) →
  let db' := on_package_if (negb (bool_decide (p_files (package db p) = fe))) p (set_files fe) db in
  replaced p fe se db
    (on_package_if (negb (bool_decide (p_scripts (package db' p) = se))) p (set_scripts se) db').
Proof.
  intros Hlt. cbn zeta. set (db1 := on_package_if _ p (set_files fe) db).
  assert (H1 : ∀ p', package db1 p' = if decide (p' = p) then set_files fe (package db p) else package db p').
  { intros p'. unfold db1. case_bool_decide as Hsame; simpl; [|by apply package_on_package].
    case_decide; [|done]. subst p' fe. by destruct (package db p). }
  assert (Hlt1 : p < length (packages db1)).
  { unfold db1, on_package_if. case_match; [|done]. simpl. by rewrite length_alter. }
  set (db2 := on_package_if _ p (set_scripts se) db1).
  assert (H2 : ∀ p', package db2 p' =
    if decide (p' = p) then set_scripts se (set_files fe (package db p)) else package db p').
  { intros p'. unfold db2. case_bool_decide as Hsame; simpl.
    - rewrite H1. case_decide; [|done]. subst p' se. rewrite H1, decide_True by done.
      by destruct (package db p).
    - rewrite package_on_package by done. case_decide; [|by rewrite H1, decide_False].
      by rewrite H1, decide_True. }
  assert (Hsame : length (packages db2) = length (packages db)).
  { unfold db2, db1, on_package_if. repeat case_match; simpl; by rewrite ?length_alter. }
  assert (Hr : ∀ A (h : Db → A), (∀ q g d, h (on_package q g d) = h d) → h db2 = h db).
  { intros A h Hh. unfold db2, db1, on_package_if. repeat case_match; by rewrite ?Hh. }
  split; try (by apply Hr); try done; intros p'; unfold package_listing; rewrite ?H2;
    case_decide; by subst.
Qed.

Section replaced.
Context (p : Package) (fe se : list File) (D : list (FilePath * File)) (db db' : Db).
Context (Hp : placed_except x db) (Hlt : p < length (packages db)).
Context (Hr : replaced p fe se db db').
Context (Hs : settled_all (Some p) D db) (Hn : NoDup D.*1) (HD : D.*2 = fe ++ se).

Lemma rp_file g : file db' g = file db g.
Proof. unfold file. by rewrite (rp_files _ _ _ _ _ Hr). Qed.

Lemma rp_root r : root db' r = root db r.
Proof. unfold root. by rewrite (rp_roots _ _ _ _ _ Hr). Qed.

Lemma rp_live_list : live_list db' = live_list db.
Proof. unfold live_list. by rewrite (rp_workspace _ _ _ _ _ Hr), (rp_library _ _ _ _ _ Hr). Qed.

Lemma rp_elem p' g :
  g ∈ package_listing db' p' → p' = p ∧ g ∈ D.*2 ∨ p' ≠ p ∧ g ∈ package_listing db p'.
Proof. rewrite (rp_listing _ _ _ _ _ Hr), HD. case_decide; auto. Qed.

Lemma rp_live g : live db' g → live db g ∨ g ∈ D.*2.
Proof.
  intros [(r & Hin & Hg)|Hg].
  - rewrite rp_live_list in Hin. apply elem_of_root_listing in Hg. rewrite rp_root in Hg.
    destruct Hg as [Hg|(p' & Hp' & Hg)].
    + left. left. exists r. split; [done|]. apply elem_of_root_listing. by left.
    + apply rp_elem in Hg as [[_ Hg]|[_ Hg]]; [by right|]. left. left. exists r.
      split; [done|]. apply elem_of_root_listing. eauto.
  - left. right. by rewrite <-(rp_orphan _ _ _ _ _ Hr).
Qed.

(** The file listed for [y] is the only one of that path. *)
Lemma rp_unique y f g :
  settled y (Some p) f db → (y, f) ∈ D → live db' g → f_path (file db g) = y → g = f.
Proof.
  intros Hf Hin [Hg|Hg]%rp_live Hy; [by eapply se_unique|].
  apply (settled_all_elem _ _ _ _ Hs) in Hg as (y' & Hin' & Hg).
  rewrite (se_path _ _ _ _ Hg) in Hy. subst y'. by eapply settled_fun.
Qed.

Lemma replaced_settled : settled_all (Some p) D db'.
Proof.
  unfold settled_all. rewrite Forall_forall. intros [y f] Hin.
  assert (Hf : settled y (Some p) f db).
  { unfold settled_all in Hs. rewrite Forall_forall in Hs. by apply (Hs (y, f)). }
  split; rewrite ?rp_file, ?(rp_files _ _ _ _ _ Hr), ?(rp_orphan _ _ _ _ _ Hr),
    ?(rp_stale _ _ _ _ _ Hr); try apply Hf.
  intros g. rewrite rp_file. by apply rp_unique.
Qed.

Lemma replaced_placed : placed_except x db'.
Proof.
  assert (Hdis := settled_files_NoDup _ _ _ Hn Hs). rewrite HD in Hdis.
  apply NoDup_app in Hdis as (_ & Hdis & _).
  split; rewrite ?rp_live_list, ?(rp_files _ _ _ _ _ Hr), ?(rp_roots _ _ _ _ _ Hr),
    ?(rp_packages _ _ _ _ _ Hr), ?(rp_stale_packages _ _ _ _ _ Hr), ?(rp_orphan _ _ _ _ _ Hr), ?(rp_stale _ _ _ _ _ Hr);
    try setoid_rewrite rp_root; try setoid_rewrite rp_file; try apply Hp.
  - intros p' f [[-> Hf]|[_ Hf]]%rp_elem; [|by eapply pl_listing].
    apply (settled_all_elem _ _ _ _ Hs) in Hf as (y & _ & Hf). apply Hf.
  - intros p' f [[-> Hf]|[_ Hf]]%rp_elem; [|by eapply pl_backpointer].
    apply (settled_all_elem _ _ _ _ Hs) in Hf as (y & _ & Hf). apply Hf.
  - intros p' f. rewrite (rp_pfiles _ _ _ _ _ Hr), (rp_pscripts _ _ _ _ _ Hr).
    case_decide; [apply Hdis|apply Hp].
  - intros f g Hf Hg Heq.
    destruct (rp_live f Hf) as [Hf1|Hf1], (rp_live g Hg) as [Hg1|Hg1];
      [by eapply pl_path| | |];
      first [apply (settled_all_elem _ _ _ _ Hs) in Hg1 as (y & Hin & Hy)
            |apply (settled_all_elem _ _ _ _ Hs) in Hf1 as (y & Hin & Hy); symmetry];
      (eapply rp_unique; [exact Hy|done|done|]); rewrite <-(se_path _ _ _ _ Hy); congruence.
Qed.

Lemma replaced_stepped E : E = D.*1 → stepped E [p] db db'.
Proof.
  intros ->. split; rewrite ?(rp_files _ _ _ _ _ Hr), ?(rp_packages _ _ _ _ _ Hr); try done;
    try apply Hr.
  - intros g _. by rewrite rp_file.
  - intros p' _. apply Hr.
  - intros p' g Hp' [[-> _]|[_ Hg]]%rp_elem; [set_solver|done].
  - intros p' g Hp' _ _ Hg. rewrite (rp_listing _ _ _ _ _ Hr), decide_False; [done|set_solver].
  - intros g [Hg|Hg]%rp_live; [by left|]. right. rewrite rp_file.
    apply (settled_all_elem _ _ _ _ Hs) in Hg as (y & Hin & Hg).
    rewrite (se_path _ _ _ _ Hg). apply list_elem_of_fmap. by exists (y, g).
  - intros y pkg f Hy Hf. split; rewrite ?rp_file, ?(rp_files _ _ _ _ _ Hr),
      ?(rp_orphan _ _ _ _ _ Hr), ?(rp_stale _ _ _ _ _ Hr); try apply Hf.
    intros g. rewrite rp_file. intros [Hg|Hg]%rp_live Hgy; [by eapply se_unique|].
    apply (settled_all_elem _ _ _ _ Hs) in Hg as (y' & Hin & Hg).
    destruct Hy. rewrite <-Hgy, (se_path _ _ _ _ Hg). apply list_elem_of_fmap. by exists (y', g).
Qed.
End replaced.

Lemma scripts_clear_sub pkg E E' db :
  (∀ y, y ∈ E' → y ∈ E) → scripts_clear x pkg E db → scripts_clear x pkg E' db.
Proof. intros Hsub Hc r g Hr Hx Hg He. eapply Hc; eauto. Qed.

Lemma stepped_weaken E E' P P' db db' :
  (∀ y, y ∈ E → y ∈ E') → (∀ p, p ∈ P → p ∈ P') → stepped E P db db' → stepped E' P' db db'.
Proof.
  intros HE HP []. split; try done; auto.
  - intros g Hg. destruct (st_live0 g Hg); auto.
Qed.

Lemma replace_package_files_spec p fs ss db :
  let E := fe_path <$> fs ++ ss in
  let db' := replace_package_files p fs ss db in
  placed_except x db → p < length (packages db) → NoDup E → scripts_clear x (Some p) E db →
  placed_except x db' ∧ stepped E [p] db db' ∧ length (packages db') = length (packages db) ∧
  ∃ D, D.*1 = E ∧ package_listing db' p = D.*2 ∧ settled_all (Some p) D db'.
Proof.
  cbn zeta. intros Hp Hlt Hn Hc. unfold replace_package_files.
  rewrite fmap_app in *. apply NoDup_app in Hn as Hn'. destruct Hn' as (Hn1 & Hdis & Hn2).
  pose proof (upsert_root_files_spec x (Some p) fs db Hp Hn1) as H1.
  destruct (upsert_root_files (Some p) fs db) as [db1 fe]. simpl in H1.
  destruct H1 as (Hp1 & S1 & _ & L1 & F1).
  { eapply scripts_clear_sub; [|done]. set_solver. }
  pose proof (upsert_root_files_spec x (Some p) ss db1 Hp1 Hn2) as H2.
  destruct (upsert_root_files (Some p) ss db1) as [db2 se]. simpl in H2.
  destruct H2 as (Hp2 & S2 & _ & L2 & F2).
  { eapply scripts_clear_sub; [|eapply (scripts_clear_stepped x); [exact Hp|exact S1|done]]. set_solver. }
  apply Forall2_settled in F1 as (F1 & D1 & E1), F2 as (F2 & D2 & E2).
  set (Df := zip (fe_path <$> fs) fe) in *. set (Ds := zip (fe_path <$> ss) se) in *.
  assert (S12 := stepped_trans x _ _ _ _ _ _ _ Hp1 S1 S2).
  assert (HD1 : (Df ++ Ds).*1 = (fe_path <$> fs) ++ (fe_path <$> ss)) by by rewrite fmap_app, D1, D2.
  assert (HD2 : (Df ++ Ds).*2 = fe ++ se) by by rewrite fmap_app, E1, E2.
  assert (Hs : settled_all (Some p) (Df ++ Ds) db2).
  { apply Forall_app. split; [|done]. eapply settled_all_stepped; [exact S2| |done].
    rewrite D1. apply Hdis. }
  assert (Hlt2 : p < length (packages db2)) by congruence.
  assert (Hr := replaced_write p fe se db2 Hlt2). cbn zeta in Hr.
  set (db3 := on_package_if _ p (set_scripts se) _) in *.
  rewrite <-HD1 in Hn |- *.
  assert (Hp3 := replaced_placed _ _ _ _ _ _ Hp2 Hr Hs Hn HD2).
  split; [done|]. split.
  { assert (S3 : stepped (Df ++ Ds).*1 [p] db2 db3) by by eapply replaced_stepped.
    eapply stepped_weaken; [| |eapply (stepped_trans x); [exact Hp2|exact S12|exact S3]];
      rewrite ?HD1; set_solver. }
  split; [rewrite (rp_packages _ _ _ _ _ Hr); congruence|].
  exists (Df ++ Ds). split; [done|]. split; [|by eapply replaced_settled].
  by rewrite (rp_listing _ _ _ _ _ Hr), decide_True.
Qed.
End listings.

(** ** Packages by path *)

Lemma package_path_index_Some db l y p :
  package_path_index db l !! y = Some p → p ∈ l ∧ p_description_path (package db p) = y.
Proof.
  unfold package_path_index.
  enough (Hg : ∀ (m : gmap FilePath Package),
    (∀ p, m !! y = Some p → p ∈ l ∧ p_description_path (package db p) = y ∨ m !! y = Some p) →
    foldl (λ m p, <[p_description_path (package db p) := p]> m) m l !! y = Some p →
    p ∈ l ∧ p_description_path (package db p) = y ∨ m !! y = Some p).
  { intros Hp. destruct (Hg ∅) as [|E]; auto. by rewrite lookup_empty in E. }
  induction l as [|q l IH]; intros m _ Hp; simpl in *; [by right|].
  destruct (IH _ ltac:(auto) Hp) as [[Hin Hy]|Hm]; [left; split; [by right|done]|].
  destruct (decide (p_description_path (package db q) = y)) as [<-|Hne].
  - rewrite lookup_insert_eq in Hm. injection Hm as ->. left. split; [by left|done].
  - rewrite lookup_insert_ne in Hm by done. by right.
Qed.

Lemma package_path_index_None db l y p :
  package_path_index db l !! y = None → p ∈ l → p_description_path (package db p) ≠ y.
Proof.
  unfold package_path_index.
  enough (Hg : ∀ (m : gmap FilePath Package),
    foldl (λ m p, <[p_description_path (package db p) := p]> m) m l !! y = None →
    m !! y = None ∧ ∀ p, p ∈ l → p_description_path (package db p) ≠ y).
  { intros Hp. by apply (Hg ∅). }
  induction l as [|q l IH]; intros m Hp; simpl in *; [split; [done|set_solver]|].
  destruct (IH _ Hp) as [Hm Hl].
  destruct (decide (p_description_path (package db q) = y)) as [<-|Hne];
    [by rewrite lookup_insert_eq in Hm|].
  rewrite lookup_insert_ne in Hm by done. split; [done|].
  intros p' [->|Hin]%elem_of_cons; auto.
Qed.

Section packages.
Context `{HashOrder}.
Context (x : option Root).

Lemma package_by_path_Some db y p :
  placed_except x db → package_by_path db y = Some p →
  p < length (packages db) ∧ p_description_path (package db p) = y.
Proof.
  intros Hp. unfold package_by_path. set (g := λ l, r ← live_root l; _).
  pose proof (first_some_spec g (live_roots db)) as Hs.
  destruct (first_some g (live_roots db)) as [q|].
  - intros [= ->]. destruct Hs as (l & _ & Hg). unfold g in Hg.
    destruct (live_root l) as [r|]; [|done]. simpl in Hg.
    unfold root_package_path_index in Hg. apply package_path_index_Some in Hg as [Hin Hy]. split; [by eapply pl_root_pkg|done].
  - unfold stale_package_path_index. intros Hg. apply package_path_index_Some in Hg as [Hin Hy].
    split; [by eapply pl_stale_pkg|done].
Qed.

(** What [upsert_package] leaves as it was. *)
Record same_files (db db' : Db) : Prop := {
  sf_files : files db' = files db;
  sf_roots : roots db' = roots db;
  sf_workspace : workspace_roots db' = workspace_roots db;
  sf_library : library_roots db' = library_roots db;
  sf_orphan : orphan_files db' = orphan_files db;
  sf_stale : stale_files db' = stale_files db;
  sf_stale_packages p : p ∈ stale_packages db' → p ∈ stale_packages db;
  sf_packages : length (packages db) ≤ length (packages db');
  sf_pfiles p : p_files (package db' p) = p_files (package db p);
  sf_pscripts p : p_scripts (package db' p) = p_scripts (package db p);
  sf_description p : p < length (packages db) →
    p_description_path (package db' p) = p_description_path (package db p);
}.

Lemma same_files_refl db : same_files db db.
Proof. by split. Qed.

Lemma same_files_trans db1 db2 db3 : same_files db1 db2 → same_files db2 db3 → same_files db1 db3.
Proof.
  intros [] []. split; try congruence; try lia; auto.
  intros p Hp. rewrite sf_description1 by lia. auto.
Qed.

Lemma same_files_on_package_if c p g db :
  (∀ a, p_files (g a) = p_files a) → (∀ a, p_scripts (g a) = p_scripts a) →
  (∀ a, p_description_path (g a) = p_description_path a) → same_files db (on_package_if c p g db).
Proof.
  intros Hf Hs Hd. destruct c; simpl; [|apply same_files_refl].
  split; try done; intros; unfold package, on_package; simpl; rewrite ?length_alter; try done;
    by (apply (alter_field p_files) || apply (alter_field p_scripts)
        || apply (alter_field p_description_path)).
Qed.

Lemma same_files_then c p g db0 db :
  (∀ a, p_files (g a) = p_files a) → (∀ a, p_scripts (g a) = p_scripts a) →
  (∀ a, p_description_path (g a) = p_description_path a) →
  same_files db0 db → same_files db0 (on_package_if c p g db).
Proof. intros. eapply same_files_trans; [done|]. by apply same_files_on_package_if. Qed.

Lemma same_files_remove_stale p db : same_files db (remove_from_stale_packages p db).
Proof.
  unfold remove_from_stale_packages. destruct (with_cow_filter _ _) as [l|] eqn:E; [|apply same_files_refl].
  apply with_cow_filter_Some in E as [_ ->]. split; try done.
  intros q. simpl. rewrite list_elem_of_filter. by intros [_ ?].
Qed.

Lemma package_new_package a db p :
  package (new_package a db).1 p = if decide (p = length (packages db)) then a else package db p.
Proof.
  unfold package, new_package; simpl. destruct (snoc_total (packages db) a p) as [Hlt Hlen].
  case_decide; [by subst|]. destruct (decide (p < length (packages db))); [by apply Hlt|].
  rewrite !list_lookup_total_alt, !lookup_ge_None_2; [done|lia|]. rewrite length_app. simpl. lia.
Qed.

Lemma same_files_new_package a db :
  p_files a = [] → p_scripts a = [] → same_files db (new_package a db).1.
Proof.
  intros Hf Hs.
  assert (Hd : package db (length (packages db)) = inhabitant).
  { unfold package. by rewrite list_lookup_total_alt, lookup_ge_None_2. }
  split; try done; intros; rewrite ?package_new_package.
  - simpl. rewrite length_app. lia.
  - case_decide; [|done]. subst. by rewrite Hd, Hf.
  - case_decide; [|done]. subst. by rewrite Hd, Hs.
  - case_decide; [lia|done].
Qed.

Lemma upsert_package_spec y n dr nr ir db :
  placed_except x db →
  let db' := (upsert_package y n dr nr ir db).1 in
  let p := (upsert_package y n dr nr ir db).2 in
  same_files db db' ∧ p < length (packages db') ∧ p_description_path (package db' p) = y.
Proof.
  intros Hp. cbn zeta. unfold upsert_package. destruct (package_by_path db y) as [p|] eqn:E.
  - apply package_by_path_Some in E as [Hlt Hy]; [|done].
    match goal with |- context [(?d, p)] => assert (Hs : same_files db d); [|generalize dependent d] end.
    { apply (λ d Hd, same_files_trans _ _ _ Hd (same_files_remove_stale p d)).
      do 3 (apply same_files_then; [intros []; reflexivity..|]). apply same_files_refl. }
    intros d Hs. simpl. split; [exact Hs|]. split; [eapply Nat.lt_le_trans; [done|apply Hs]|].
    by rewrite (sf_description _ _ Hs).
  - split; [by apply same_files_new_package|].
    change (new_package ?a db).2 with (length (packages db)).
    rewrite package_new_package, decide_True by done. split; [|done].
    simpl. rewrite length_app. simpl. lia.
Qed.

Section same_files.
Context (db db' : Db) (Hsf : same_files db db').

Lemma sf_file f : file db' f = file db f.
Proof. unfold file. by rewrite (sf_files _ _ Hsf). Qed.

Lemma sf_root r : root db' r = root db r.
Proof. unfold root. by rewrite (sf_roots _ _ Hsf). Qed.

Lemma sf_listing p : package_listing db' p = package_listing db p.
Proof. unfold package_listing. by rewrite (sf_pfiles _ _ Hsf), (sf_pscripts _ _ Hsf). Qed.

Lemma sf_live_list : live_list db' = live_list db.
Proof. unfold live_list. by rewrite (sf_workspace _ _ Hsf), (sf_library _ _ Hsf). Qed.

Lemma sf_live f : live db' f ↔ live db f.
Proof.
  unfold live. rewrite sf_live_list, (sf_orphan _ _ Hsf).
  setoid_rewrite elem_of_root_listing. setoid_rewrite sf_root. by setoid_rewrite sf_listing.
Qed.

Lemma sf_placed : placed_except x db → placed_except x db'.
Proof.
  intros Hp. split; rewrite ?sf_live_list, ?(sf_files _ _ Hsf), ?(sf_roots _ _ Hsf),
    ?(sf_orphan _ _ Hsf), ?(sf_stale _ _ Hsf); try setoid_rewrite sf_root;
    try setoid_rewrite sf_file; try setoid_rewrite sf_listing; try setoid_rewrite sf_live;
    try apply Hp.
  - intros r p Hr. eapply Nat.lt_le_trans; [by eapply pl_root_pkg|apply Hsf].
  - intros p Hr%(sf_stale_packages _ _ Hsf). eapply Nat.lt_le_trans; [by eapply pl_stale_pkg|apply Hsf].
  - intros p f. rewrite (sf_pfiles _ _ Hsf), (sf_pscripts _ _ Hsf). apply Hp.
Qed.

Lemma sf_stepped : stepped [] [] db db'.
Proof.
  split; rewrite ?(sf_files _ _ Hsf); try apply Hsf; try done.
  - intros g _. by rewrite sf_file.
  - intros p g _. by rewrite sf_listing.
  - intros p g _ _ _. by rewrite sf_listing.
  - intros g Hg. left. by apply sf_live.
  - intros y pkg f _ []. split; rewrite ?(sf_files _ _ Hsf), ?sf_file, ?(sf_orphan _ _ Hsf),
      ?(sf_stale _ _ Hsf); try done. intros g. rewrite sf_live, sf_file. auto.
Qed.
End same_files.

(** ** Packages of a result *)

Definition entry_paths (e : PackageEntry) : list FilePath := fe_path <$> pe_files e ++ pe_scripts e.

(** [p] is the package of [e], with its files at the paths of the entry. *)
Record loaded (e : PackageEntry) (p : Package) (db : Db) : Prop := {
  ld_valid : p < length (packages db);
  ld_path : p_description_path (package db p) = pe_description_path e;
  ld_listed g : g ∈ package_listing db p → ∃ y, y ∈ entry_paths e ∧ settled y (Some p) g db;
  ld_once g g' : g ∈ package_listing db p → g' ∈ package_listing db p →
    f_path (file db g) = f_path (file db g') → g = g';
  ld_all y : y ∈ entry_paths e → ∃ g, g ∈ package_listing db p ∧ settled y (Some p) g db;
}.

Lemma loaded_listed_valid e p db g : loaded e p db → g ∈ package_listing db p → g < length (files db).
Proof. intros Hl Hg. destruct (ld_listed _ _ _ Hl g Hg) as (y & _ & Hs). apply Hs. Qed.

Lemma loaded_stepped e p E P db db' :
  stepped E P db db' → p ∉ P → (∀ y, y ∈ entry_paths e → y ∉ E) → loaded e p db → loaded e p db'.
Proof.
  intros Hs HP HE Hl. assert (Hin := λ g, st_listing _ _ _ _ Hs p g HP). split.
  - eapply Nat.lt_le_trans; [apply Hl|apply Hs].
  - rewrite (st_description _ _ _ _ Hs) by apply Hl. apply Hl.
  - intros g Hg. destruct (ld_listed _ _ _ Hl g (Hin g Hg)) as (y & Hy & Hg').
    exists y. split; [done|]. apply (st_settled _ _ _ _ Hs); auto.
  - intros g g' Hg%Hin Hg'%Hin. rewrite !(st_path _ _ _ _ Hs) by by eapply loaded_listed_valid.
    by apply Hl.
  - intros y Hy. destruct (ld_all _ _ _ Hl y Hy) as (g & Hg & Hset). exists g. split.
    + apply (st_kept _ _ _ _ Hs); [done|apply Hset| |done]. rewrite (se_path _ _ _ _ Hset). auto.
    + apply (st_settled _ _ _ _ Hs); auto.
Qed.

Lemma set_package_spec y n dr nr ir fs ss db :
  let E := fe_path <$> fs ++ ss in
  let db' := (set_package y n dr nr ir fs ss db).1 in
  let p := (set_package y n dr nr ir fs ss db).2 in
  placed_except x db → NoDup E → (∀ p, scripts_clear x (Some p) E db) →
  placed_except x db' ∧ stepped E [p] db db' ∧ loaded (mkPackageEntry y n dr nr fs ss None) p db'.
Proof.
  cbn zeta. intros Hp Hn Hc. unfold set_package.
  pose proof (upsert_package_spec y n dr nr ir db Hp) as Hu.
  destruct (upsert_package y n dr nr ir db) as [db1 p]. simpl in *. destruct Hu as (Hsf & Hlt & Hy).
  assert (Hp1 := sf_placed _ _ Hsf Hp). assert (S1 := sf_stepped _ _ Hsf).
  destruct (replace_package_files_spec x p fs ss db1) as (Hp2 & S2 & L2 & D & HD & HL & Hs); try done.
  { by apply (scripts_clear_stepped x _ _ _ _ _ _ Hp S1). }
  set (db2 := replace_package_files p fs ss db1) in *.
  split; [done|]. split; [exact (stepped_trans x _ _ _ _ _ _ _ Hp1 S1 S2)|].
  assert (Hd : p_description_path (package db2 p) = y) by by rewrite (st_description _ _ _ _ S2).
  split; unfold entry_paths; simpl; rewrite ?HL, ?L2, <-?HD; try done.
  - intros g (y' & Hin & Hg)%(settled_all_elem _ _ _ _ Hs). exists y'. split; [|done].
    apply list_elem_of_fmap. by exists (y', g).
  - intros g g' (u & Hu & Hg)%(settled_all_elem _ _ _ _ Hs) (u' & Hu' & Hg')%(settled_all_elem _ _ _ _ Hs).
    rewrite (se_path _ _ _ _ Hg), (se_path _ _ _ _ Hg'). intros ->.
    eapply settled_fun; [|exact Hu|exact Hu']. by rewrite HD.
  - intros u ([u' g] & -> & Hin)%list_elem_of_fmap. exists g. split.
    + apply list_elem_of_fmap. by exists (u', g).
    + unfold settled_all in Hs. rewrite Forall_forall in Hs. apply (Hs (u', g) Hin).
Qed.

Lemma set_scanned_packages_spec pkgs db :
  let E := pkgs ≫= entry_paths in
  let db' := (set_scanned_packages pkgs db).1 in
  let ps := (set_scanned_packages pkgs db).2 in
  placed_except x db → NoDup E → NoDup (pe_description_path <$> pkgs) →
  (∀ p, scripts_clear x (Some p) E db) →
  placed_except x db' ∧ stepped E ps db db' ∧ Forall2 (λ e p, loaded e p db') pkgs ps.
Proof.
  cbn zeta. revert db. induction pkgs as [|e pkgs IH]; intros db Hp Hn Hd Hc; simpl.
  { split_and!; [done|apply stepped_refl|constructor]. }
  apply NoDup_cons in Hd as [He Hd]. simpl in Hn.
  assert (Hn' := Hn). apply NoDup_app in Hn' as (Hn1 & Hdis & Hn2).
  pose proof (set_package_spec (pe_description_path e) (pe_name e) (pe_description_revision e)
    (pe_namespace_revision e) None (pe_files e) (pe_scripts e) db Hp Hn1) as H1.
  destruct (set_package _ _ _ _ _ _ _ db) as [db1 p]. simpl in H1.
  destruct H1 as (Hp1 & S1 & L1).
  { intros p'. eapply scripts_clear_sub; [|apply Hc]. simpl. set_solver. }
  specialize (IH db1 Hp1 Hn2 Hd).
  destruct (set_scanned_packages pkgs db1) as [db2 ps]. simpl in *.
  destruct IH as (Hp2 & S2 & F2).
  { intros p'. apply (scripts_clear_stepped x _ _ _ _ _ _ Hp S1).
    eapply scripts_clear_sub; [|apply Hc]. set_solver. }
  split; [done|]. split; [exact (stepped_trans x _ _ _ _ _ _ _ Hp1 S1 S2)|].
  constructor; [|done]. destruct e as [d n dr nr fs ss co]. simpl in *.
  assert (L1' : loaded (mkPackageEntry d n dr nr fs ss co) p db1) by by destruct L1; split.
  eapply loaded_stepped; [exact S2| |exact Hdis|exact L1'].
  intros Hin. apply list_elem_of_lookup in Hin as [i Hi].
  destruct (Forall2_lookup_r _ _ _ _ _ F2 Hi) as (e' & Hi' & L2). apply He.
  apply list_elem_of_fmap. exists e'. split; [|by eapply list_elem_of_lookup_2].
  rewrite <-(ld_path _ _ _ L2), (st_description _ _ _ _ S2) by apply L1. symmetry. apply L1.
Qed.
End packages.

(** ** A scan applied *)

(** The paths of the result are its own: distinct, and no other live root has
    a package or a script there. *)
Record fits (result : ScanCompleted) (db : Db) : Prop := {
  ft_paths : NoDup (sc_packages result ≫= entry_paths);
  ft_descriptions : NoDup (pe_description_path <$> sc_packages result);
  ft_scripts : NoDup (fe_path <$> sc_scripts result);
  ft_other_package r p : r ∈ live_list db → r ≠ sc_root result → p ∈ r_packages (root db r) →
    p_description_path (package db p) ∉ pe_description_path <$> sc_packages result;
  ft_other_script r f : r ∈ live_list db → r ≠ sc_root result → f ∈ r_scripts (root db r) →
    f_path (file db f) ∉ (sc_packages result ≫= entry_paths) ++ (fe_path <$> sc_scripts result);
}.

Lemma NoDup_bind_inj {A B} (g : A → list B) l i j a b y :
  NoDup (l ≫= g) → l !! i = Some a → l !! j = Some b → y ∈ g a → y ∈ g b → i = j.
Proof.
  revert i j. induction l as [|c l IH]; intros i j Hn Hi Hj Ha Hb; [done|].
  simpl in Hn. apply NoDup_app in Hn as (_ & Hdis & Hn).
  assert (Hin : ∀ k d, l !! k = Some d → y ∈ g d → y ∈ l ≫= g).
  { intros k d Hk Hd. apply list_elem_of_bind. exists d. split; [done|by eapply list_elem_of_lookup_2]. }
  destruct i as [|i], j as [|j]; simplify_eq/=; [done| | |f_equal; by eapply IH].
  - destruct (Hdis y Ha). by eapply Hin.
  - destruct (Hdis y Hb). by eapply Hin.
Qed.

(** The packages of root [r], or its scripts, were rewritten. *)
Record rerooted (r : Root) (ps : list Package) (ss : list File) (db db' : Db) : Prop := {
  rr_files : files db' = files db;
  rr_packages : packages db' = packages db;
  rr_roots : length (roots db') = length (roots db);
  rr_workspace : workspace_roots db' = workspace_roots db;
  rr_library : library_roots db' = library_roots db;
  rr_orphan : orphan_files db' = orphan_files db;
  rr_stale : stale_files db' = stale_files db;
  rr_stale_packages : stale_packages db' = stale_packages db;
  rr_pkgs r' : r_packages (root db' r') = if decide (r' = r) then ps else r_packages (root db r');
  rr_scripts r' : r_scripts (root db' r') = if decide (r' = r) then ss else r_scripts (root db r');
}.

Section rerooted.
Context (x : option Root) (r : Root) (ps : list Package) (ss : list File) (db db' : Db).
Context (Hr : rerooted r ps ss db db').

Lemma rr_file f : file db' f = file db f.
Proof. unfold file. by rewrite (rr_files _ _ _ _ _ Hr). Qed.

Lemma rr_package p : package db' p = package db p.
Proof. unfold package. by rewrite (rr_packages _ _ _ _ _ Hr). Qed.

Lemma rr_listing p : package_listing db' p = package_listing db p.
Proof. unfold package_listing. by rewrite rr_package. Qed.

Lemma rr_live_list : live_list db' = live_list db.
Proof. unfold live_list. by rewrite (rr_workspace _ _ _ _ _ Hr), (rr_library _ _ _ _ _ Hr). Qed.

Lemma rr_live f : live db' f → live db f ∨ f ∈ ss ∨ ∃ p, p ∈ ps ∧ f ∈ package_listing db p.
Proof.
  intros [(r' & Hin & Hf)|Hf]; [|left; right; by rewrite <-(rr_orphan _ _ _ _ _ Hr)].
  rewrite rr_live_list in Hin. apply elem_of_root_listing in Hf.
  rewrite (rr_pkgs _ _ _ _ _ Hr), (rr_scripts _ _ _ _ _ Hr) in Hf. setoid_rewrite rr_listing in Hf.
  case_decide; [right; naive_solver|]. left. left. exists r'. split; [done|].
  by apply elem_of_root_listing.
Qed.

(** What [r] lists now must be as the invariant asks. *)
Lemma rr_placed x' :
  placed_except x db → r ∈ live_list db →
  (x' = Some r ∨ x' = None ∧ ∀ f, f ∈ ss → f_package (file db f) = None) →
  (x = None ∨ x = Some r) →
  (∀ p, p ∈ ps → p < length (packages db)) →
  (∀ p r', p ∈ ps → r' ∈ live_list db → r' ≠ r → p ∉ r_packages (root db r')) →
  (∀ f, f ∈ ss → f < length (files db) ∧ (f ∉ stale_files db) ∧ f ∉ orphan_files db) →
  (∀ f r', f ∈ ss → r' ∈ live_list db → r' ≠ r → f ∉ r_scripts (root db r')) →
  (∀ f g, live db' f → live db' g → f_path (file db f) = f_path (file db g) → f = g) →
  placed_except x' db'.
Proof.
  intros Hp Hin Hx' Hx Hps Hother Hss Hsother Hpath.
  assert (Hscript : ∀ r' f, r' ∈ live_list db → f ∈ r_scripts (root db' r') →
    r' = r ∧ f ∈ ss ∨ r' ≠ r ∧ f ∈ r_scripts (root db r')).
  { intros r' f _. rewrite (rr_scripts _ _ _ _ _ Hr). case_decide; auto. }
  split; rewrite ?rr_live_list, ?(rr_files _ _ _ _ _ Hr), ?(rr_packages _ _ _ _ _ Hr),
    ?(rr_roots _ _ _ _ _ Hr), ?(rr_orphan _ _ _ _ _ Hr), ?(rr_stale _ _ _ _ _ Hr),
    ?(rr_stale_packages _ _ _ _ _ Hr); try setoid_rewrite rr_file; try setoid_rewrite rr_package;
    try setoid_rewrite rr_listing; try apply Hp.
  - intros r' p. rewrite (rr_pkgs _ _ _ _ _ Hr). case_decide; [apply Hps|by eapply pl_root_pkg].
  - intros r' f. rewrite (rr_scripts _ _ _ _ _ Hr). case_decide; [apply Hss|by eapply pl_scripts].
  - intros r' f Hr' Hne [[-> Hf]|[Hrr Hf]]%Hscript; [|eapply pl_script_none|]; try done.
    + destruct Hx' as [->|[_ Hnone]]; [done|by apply Hnone].
    + intros Hxr. destruct Hx; congruence.
  - intros r' f Hr' Hst [[-> Hf]|[Hrr Hf]]%Hscript; try done.
    + by destruct (Hss f Hf) as (_ & ? & _).
    + by eapply pl_stale_script.
  - intros r' f Hr' Ho [[-> Hf]|[Hrr Hf]]%Hscript; try done.
    + by destruct (Hss f Hf) as (_ & _ & ?).
    + by eapply pl_orphan_script.
  - intros r1 r2 p H1 H2. rewrite !(rr_pkgs _ _ _ _ _ Hr). repeat case_decide; subst; try done.
    + intros E1 E2. by destruct (Hother p r2 E1 H2).
    + intros E1 E2. by destruct (Hother p r1 E2 H1).
    + by apply (pl_pkg_once _ _ Hp).
  - intros r1 r2 f H1 H2 [[-> Hf]|[Hr1 Hf]]%Hscript [[-> Hg]|[Hr2 Hg]]%Hscript; try done.
    + by destruct (Hsother f r2 Hf H2).
    + by destruct (Hsother f r1 Hg H1).
    + by apply (pl_script_once _ _ Hp r1 r2 f).
  - done.
Qed.
End rerooted.

Lemma rerooted_packages c r ps db :
  r < length (roots db) → (c = false → r_packages (root db r) = ps) →
  rerooted r ps (r_scripts (root db r)) db (on_root_if c r (set_packages ps) db).
Proof.
  intros Hlt Hc. destruct c; simpl.
  - split; try done; intros; rewrite ?root_on_root by done; unfold on_root; simpl;
      rewrite ?length_alter; try done; case_decide; by subst.
  - split; try done; intros; case_decide; subst; auto.
Qed.

Lemma rerooted_scripts c r ss db :
  r < length (roots db) → (c = false → r_scripts (root db r) = ss) →
  rerooted r (r_packages (root db r)) ss db (on_root_if c r (set_root_scripts ss) db).
Proof.
  intros Hlt Hc. destruct c; simpl.
  - split; try done; intros; rewrite ?root_on_root by done; unfold on_root; simpl;
      rewrite ?length_alter; try done; case_decide; by subst.
  - split; try done; intros; case_decide; subst; auto.
Qed.

Section apply.
Context `{HashOrder}.

(** The files of packages loaded for distinct paths are distinct. *)
Lemma loaded_inj pkgs ps db p p' g g' :
  Forall2 (λ e p, loaded e p db) pkgs ps → NoDup (pkgs ≫= entry_paths) →
  p ∈ ps → p' ∈ ps → g ∈ package_listing db p → g' ∈ package_listing db p' →
  f_path (file db g) = f_path (file db g') → g = g'.
Proof.
  intros HF Hn Hp Hp' Hg Hg' Heq.
  apply list_elem_of_lookup in Hp as [i Hi], Hp' as [j Hj].
  destruct (Forall2_lookup_r _ _ _ _ _ HF Hi) as (e & He & Hl).
  destruct (Forall2_lookup_r _ _ _ _ _ HF Hj) as (e' & He' & Hl').
  destruct (ld_listed _ _ _ Hl g Hg) as (y & Hy & Hs).
  destruct (ld_listed _ _ _ Hl' g' Hg') as (y' & Hy' & Hs').
  rewrite (se_path _ _ _ _ Hs), (se_path _ _ _ _ Hs') in Heq. subst y'.
  assert (i = j) by by eapply NoDup_bind_inj. simplify_eq.
  apply (ld_once _ _ _ Hl); [done..|]. by rewrite (se_path _ _ _ _ Hs), (se_path _ _ _ _ Hs').
Qed.

(** Handing the loaded packages to the root. *)
Lemma packages_handed r pkgs ps db db' :
  placed_except (Some r) db → r ∈ live_list db → NoDup (pkgs ≫= entry_paths) →
  Forall2 (λ e p, loaded e p db) pkgs ps →
  (∀ r' p, r' ∈ live_list db → r' ≠ r → p ∈ r_packages (root db r') →
    p_description_path (package db p) ∉ pe_description_path <$> pkgs) →
  rerooted r ps (r_scripts (root db r)) db db' →
  placed_except (Some r) db' ∧ Forall2 (λ e p, loaded e p db') pkgs ps.
Proof.
  intros Hp Hin Hn HF Hother Hr.
  assert (Hps : ∀ p, p ∈ ps → ∃ e, e ∈ pkgs ∧ loaded e p db).
  { intros p Hpin. apply list_elem_of_lookup in Hpin as [i Hi].
    destruct (Forall2_lookup_r _ _ _ _ _ HF Hi) as (e & He & Hl).
    exists e. split; [by eapply list_elem_of_lookup_2|done]. }
  assert (Hlive : ∀ f, live db' f → live db f ∨ ∃ p, p ∈ ps ∧ f ∈ package_listing db p).
  { intros f [Hf|[Hf|Hf]]%(rr_live _ _ _ _ _ Hr); [by left| |by right].
    left. left. exists r. split; [done|]. apply elem_of_root_listing. by left. }
  assert (Huniq : ∀ p f g, p ∈ ps → f ∈ package_listing db p → live db' g →
    f_path (file db f) = f_path (file db g) → f = g).
  { intros p f g Hpin Hf [Hg|(p' & Hpin' & Hg)]%Hlive Heq; [|exact (loaded_inj pkgs ps db p p' f g HF Hn Hpin Hpin' Hf Hg Heq)].
    destruct (Hps p Hpin) as (e & _ & Hl). destruct (ld_listed _ _ _ Hl f Hf) as (y & _ & Hs).
    symmetry. eapply se_unique; [exact Hs|done|]. by rewrite <-Heq, (se_path _ _ _ _ Hs). }
  assert (Hsettled : ∀ p f y, p ∈ ps → f ∈ package_listing db p → settled y (Some p) f db →
    settled y (Some p) f db').
  { intros p f y Hpin Hf Hs. split; rewrite ?(rr_files _ _ _ _ _ Hr), ?(rr_file _ _ _ _ _ Hr),
      ?(rr_orphan _ _ _ _ _ Hr), ?(rr_stale _ _ _ _ _ Hr); try apply Hs.
    intros g Hg. rewrite (rr_file _ _ _ _ _ Hr). intros Hy. symmetry. eapply Huniq; try done.
    by rewrite (se_path _ _ _ _ Hs). }
  split.
  - eapply rr_placed; [exact Hr|exact Hp|..]; try done; [by left|by right| | | | |].
    + intros p Hpin. destruct (Hps p Hpin) as (e & _ & Hl). apply Hl.
    + intros p r' Hpin Hr' Hne Hin'. destruct (Hps p Hpin) as (e & He & Hl).
      apply (Hother r' p Hr' Hne Hin'). rewrite (ld_path _ _ _ Hl). by apply list_elem_of_fmap_2.
    + intros f Hf. assert (Hlf : live db f).
      { left. exists r. split; [done|]. apply elem_of_root_listing. by left. }
      split; [by eapply live_valid|]. split; [by eapply live_not_stale|].
      intros Ho. by eapply pl_orphan_script.
    + intros f r' Hf Hr' Hne Hf'. apply Hne. by apply (pl_script_once _ _ Hp r' r f).
    + intros f g Hf Hg Heq. destruct (Hlive f Hf) as [Hf1|(p & Hpin & Hf1)]; [|by eapply Huniq].
      destruct (Hlive g Hg) as [Hg1|(p & Hpin & Hg1)]; [by eapply pl_path|].
      symmetry. by eapply Huniq.
  - apply Forall2_same_length_lookup_2.
    { by eapply Forall2_length. }
    intros i e p He Hi. assert (Hl : loaded e p db) by exact (Forall2_lookup_lr _ _ _ _ _ _ HF He Hi).
    assert (Hpin : p ∈ ps) by by eapply list_elem_of_lookup_2.
    split; rewrite ?(rr_package _ _ _ _ _ Hr), ?(rr_packages _ _ _ _ _ Hr),
      ?(rr_listing _ _ _ _ _ Hr); try apply Hl.
    + intros g Hg. destruct (ld_listed _ _ _ Hl g Hg) as (y & Hy & Hs). eauto.
    + intros g g'. rewrite !(rr_file _ _ _ _ _ Hr). apply Hl.
    + intros y Hy. destruct (ld_all _ _ _ Hl y Hy) as (g & Hg & Hs). eauto.
Qed.

(** Handing the scripts to the root. *)
Lemma scripts_handed r (D : list (FilePath * File)) db db' :
  placed_except (Some r) db → r ∈ live_list db → NoDup D.*1 → settled_all None D db →
  (∀ r' f, r' ∈ live_list db → r' ≠ r → f ∈ r_scripts (root db r') → f_path (file db f) ∉ D.*1) →
  rerooted r (r_packages (root db r)) D.*2 db db' →
  placed db' ∧ settled_all None D db' ∧
  ∀ y pkg f, y ∉ D.*1 → settled y pkg f db → settled y pkg f db'.
Proof.
  intros Hp Hin Hn HD Hother Hr.
  assert (Hlive : ∀ f, live db' f → live db f ∨ f ∈ D.*2).
  { intros f [Hf|[Hf|(p & Hpin & Hf)]]%(rr_live _ _ _ _ _ Hr); [by left|by right|].
    left. left. exists r. split; [done|]. apply elem_of_root_listing. eauto. }
  assert (Huniq : ∀ f g, f ∈ D.*2 → live db' g → f_path (file db g) = f_path (file db f) → g = f).
  { intros f g (y & Hy & Hf)%(settled_all_elem _ _ _ _ HD) [Hg|Hg]%Hlive;
      rewrite (se_path _ _ _ _ Hf); intros Heq; [by eapply se_unique|].
    apply (settled_all_elem _ _ _ _ HD) in Hg as (y' & Hy' & Hg).
    rewrite (se_path _ _ _ _ Hg) in Heq. subst y'. by eapply settled_fun. }
  assert (Hkeep : ∀ y pkg f, settled y pkg f db →
    (∀ g, live db' g → f_path (file db g) = y → g = f) → settled y pkg f db').
  { intros y pkg f Hs Hu. split; rewrite ?(rr_files _ _ _ _ _ Hr), ?(rr_file _ _ _ _ _ Hr),
      ?(rr_orphan _ _ _ _ _ Hr), ?(rr_stale _ _ _ _ _ Hr); try apply Hs.
    intros g. rewrite (rr_file _ _ _ _ _ Hr). auto. }
  split; [|split].
  - eapply rr_placed; [exact Hr|exact Hp|..]; try done; [|by right| | | | |].
    + right. split; [done|]. intros f (y & _ & Hf)%(settled_all_elem _ _ _ _ HD). apply Hf.
    + intros p. by eapply pl_root_pkg.
    + intros p r' Hpin Hr' Hne Hpin'. apply Hne. by apply (pl_pkg_once _ _ Hp r' r p).
    + intros f (y & _ & Hf)%(settled_all_elem _ _ _ _ HD). split_and!; apply Hf.
    + intros f r' (y & Hy & Hf)%(settled_all_elem _ _ _ _ HD) Hr' Hne Hin'.
      apply (Hother r' f Hr' Hne Hin'). rewrite (se_path _ _ _ _ Hf).
      apply list_elem_of_fmap. by exists (y, f).
    + intros f g Hf Hg Heq. destruct (Hlive f Hf) as [Hf1|Hf1]; [|by symmetry; apply Huniq].
      destruct (Hlive g Hg) as [Hg1|Hg1]; [by eapply pl_path|]. by apply Huniq.
  - unfold settled_all. rewrite Forall_forall. intros [y f] Hy.
    assert (Hf : settled y None f db).
    { unfold settled_all in HD. rewrite Forall_forall in HD. apply (HD (y, f) Hy). }
    apply Hkeep; [done|]. intros g Hg Heq. apply Huniq; [|done|by rewrite (se_path _ _ _ _ Hf)].
    apply list_elem_of_fmap. by exists (y, f).
  - intros y pkg f Hy Hf. apply Hkeep; [done|]. intros g [Hg|Hg]%Hlive Heq; [by eapply se_unique|].
    apply (settled_all_elem _ _ _ _ HD) in Hg as (y' & Hy' & Hg).
    destruct Hy. rewrite <-Heq, (se_path _ _ _ _ Hg). apply list_elem_of_fmap. by exists (y', g).
Qed.

(** The two results of a scan: packages of root [r] with their files, and its
    scripts. *)
Record applied (result : ScanCompleted) (db db' : Db) : Prop := {
  ap_placed : placed db';
  ap_live_list : live_list db' = live_list db;
  ap_packages : Forall2 (λ e p, p_description_path (package db' p) = pe_description_path e)
    (sc_packages result) (r_packages (root db' (sc_root result)));
  ap_loaded :
    (∀ y, y ∈ sc_packages result ≫= entry_paths → y ∉ fe_path <$> sc_scripts result) →
    Forall2 (λ e p, ∀ y, y ∈ entry_paths e →
      ∃ f, f ∈ package_listing db' p ∧ settled y (Some p) f db')
      (sc_packages result) (r_packages (root db' (sc_root result)));
  ap_scripts : Forall2 (λ e f, settled (fe_path e) None f db')
    (sc_scripts result) (r_scripts (root db' (sc_root result)));
}.

(** A write of the root that keeps its packages and scripts. *)
Section reroot_same.
Context (r : Root) (db db' : Db).
Context (Hr : rerooted r (r_packages (root db r)) (r_scripts (root db r)) db db').

Lemma rs_packages r' : r_packages (root db' r') = r_packages (root db r').
Proof. rewrite (rr_pkgs _ _ _ _ _ Hr). case_decide; by subst. Qed.

Lemma rs_scripts r' : r_scripts (root db' r') = r_scripts (root db r').
Proof. rewrite (rr_scripts _ _ _ _ _ Hr). case_decide; by subst. Qed.

Lemma rs_live f : live db' f ↔ live db f.
Proof.
  unfold live. rewrite (rr_live_list _ _ _ _ _ Hr), (rr_orphan _ _ _ _ _ Hr).
  setoid_rewrite elem_of_root_listing. setoid_rewrite rs_packages. setoid_rewrite rs_scripts.
  by setoid_rewrite (rr_listing _ _ _ _ _ Hr).
Qed.

Lemma rs_placed x : placed_except x db → placed_except x db'.
Proof.
  intros Hp. split; rewrite ?(rr_live_list _ _ _ _ _ Hr), ?(rr_files _ _ _ _ _ Hr),
    ?(rr_packages _ _ _ _ _ Hr), ?(rr_roots _ _ _ _ _ Hr), ?(rr_orphan _ _ _ _ _ Hr),
    ?(rr_stale _ _ _ _ _ Hr), ?(rr_stale_packages _ _ _ _ _ Hr);
    try setoid_rewrite (rr_file _ _ _ _ _ Hr); try setoid_rewrite (rr_package _ _ _ _ _ Hr);
    try setoid_rewrite (rr_listing _ _ _ _ _ Hr); try setoid_rewrite rs_packages;
    try setoid_rewrite rs_scripts; try setoid_rewrite rs_live; apply Hp.
Qed.

Lemma rs_settled y pkg f : settled y pkg f db → settled y pkg f db'.
Proof.
  intros []. split; rewrite ?(rr_files _ _ _ _ _ Hr), ?(rr_file _ _ _ _ _ Hr),
    ?(rr_orphan _ _ _ _ _ Hr), ?(rr_stale _ _ _ _ _ Hr); try done.
  intros g. rewrite rs_live, (rr_file _ _ _ _ _ Hr). auto.
Qed.
End reroot_same.

Lemma rerooted_environment c r dirs db :
  r < length (roots db) →
  rerooted r (r_packages (root db r)) (r_scripts (root db r)) db
    (on_root_if c r (set_environment_dirs dirs) db).
Proof.
  intros Hlt. destruct c; simpl.
  - split; try done; intros; rewrite ?root_on_root by done; unfold on_root; simpl;
      rewrite ?length_alter; try done; case_decide; by subst.
  - split; try done; intros; case_decide; by subst.
Qed.

Lemma apply_spec result db :
  placed db → sc_root result ∈ live_list db → fits result db → applied result db (apply result db).
Proof.
  intros Hp0 Hin []. set (r := sc_root result) in *.
  assert (Hp := placed_weaken (Some r) _ Hp0). unfold apply. fold r.
  pose proof (set_scanned_packages_spec (Some r) (sc_packages result) db Hp ft_paths0
    ft_descriptions0) as H1.
  destruct (set_scanned_packages (sc_packages result) db) as [db1 ps]. simpl in H1.
  destruct H1 as (Hp1 & S1 & F1).
  { intros p r' g Hr' Hne Hg Hgp. exfalso. eapply (ft_other_script0 r' g); try done; [congruence|].
    apply elem_of_app. by left. }
  assert (L1 := stepped_live_list _ _ _ _ S1). assert (Hin1 : r ∈ live_list db1) by by rewrite L1.
  set (db2 := on_root_if _ r (set_packages ps) db1).
  assert (R2 : rerooted r ps (r_scripts (root db1 r)) db1 db2).
  { apply rerooted_packages; [by eapply pl_root|]. by case_bool_decide. }
  destruct (packages_handed r (sc_packages result) ps db1 db2) as [Hp2 F2]; try done.
  { intros r' p Hr' Hne Hpin. rewrite (st_description _ _ _ _ S1).
    - eapply ft_other_package0; [by rewrite <-L1|done|].
      by rewrite <-(stepped_root _ _ _ _ r' S1).
    - rewrite (stepped_root _ _ _ _ r' S1) in Hpin. by eapply pl_root_pkg. }
  assert (L2 := rr_live_list _ _ _ _ _ R2).
  clearbody db2. unfold set_workspace_scripts.
  pose proof (upsert_root_files_spec (Some r) None (sc_scripts result) db2 Hp2 ft_scripts0) as H3.
  destruct (upsert_root_files None (sc_scripts result) db2) as [db3 fs]. simpl in H3.
  destruct H3 as (Hp3 & S3 & _ & _ & F3); [by intros ? ? _ _ _ _|].
  assert (L3 := stepped_live_list _ _ _ _ S3). assert (Hin3 : r ∈ live_list db3) by congruence.
  apply Forall2_settled in F3 as F3'. destruct F3' as (HD & HD1 & HD2).
  set (D := zip (fe_path <$> sc_scripts result) fs) in *.
  set (db4 := on_root_if _ r (set_root_scripts fs) db3).
  assert (R4 : rerooted r (r_packages (root db3 r)) D.*2 db3 db4).
  { rewrite HD2. apply rerooted_scripts; [by eapply pl_root|]. by case_bool_decide. }
  destruct (scripts_handed r D db3 db4) as (Hp4 & HD4 & HK4); try done.
  { by rewrite HD1. }
  { intros r' f Hr' Hne Hf. rewrite (stepped_root _ _ _ _ r' S3), (rr_scripts _ _ _ _ _ R2),
      decide_False, (stepped_root _ _ _ _ r' S1) in Hf by done.
    assert (Hlt := pl_scripts _ _ Hp _ _ Hf).
    assert (Hlt1 : f < length (files db1)) by (pose proof (st_files _ _ _ _ S1); lia).
    assert (Hlt2 : f < length (files db2)) by by rewrite (rr_files _ _ _ _ _ R2).
    rewrite (st_path _ _ _ _ S3), (rr_file _ _ _ _ _ R2), (st_path _ _ _ _ S1) by done.
    rewrite HD1. intros Hfp. eapply (ft_other_script0 r' f); try done; [congruence|].
    apply elem_of_app. by right. }
  assert (L4 := rr_live_list _ _ _ _ _ R4). clearbody db4.
  set (db5 := on_root_if _ r _ db4).
  assert (R5 : rerooted r (r_packages (root db4 r)) (r_scripts (root db4 r)) db4 db5).
  { apply rerooted_environment. eapply pl_root; [done|by rewrite L4]. }
  clearbody db5.
  assert (Hpk : r_packages (root db5 r) = ps).
  { rewrite (rs_packages _ _ _ R5), (rr_pkgs _ _ _ _ _ R4), decide_True by done.
    by rewrite (stepped_root _ _ _ _ r S3), (rr_pkgs _ _ _ _ _ R2), decide_True. }
  assert (Hsc : r_scripts (root db5 r) = fs).
  { by rewrite (rs_scripts _ _ _ R5), (rr_scripts _ _ _ _ _ R4), decide_True. }
  assert (Hpp : ∀ p, package db5 p = package db3 p).
  { intros p. by rewrite (rr_package _ _ _ _ _ R5), (rr_package _ _ _ _ _ R4). }
  split.
  - by eapply rs_placed.
  - rewrite (rr_live_list _ _ _ _ _ R5). congruence.
  - fold r. rewrite Hpk. eapply Forall2_impl; [exact F2|]. intros e p Hl. cbn beta in *.
    rewrite Hpp, (st_description _ _ _ _ S3) by apply Hl. apply Hl.
  - intros Hapart. fold r. rewrite Hpk. apply Forall2_same_length_lookup_2; [by eapply Forall2_length|].
    intros i e p He Hi y Hy. assert (Hl := Forall2_lookup_lr _ _ _ _ _ _ F2 He Hi).
    assert (Hy' : y ∉ fe_path <$> sc_scripts result).
    { apply Hapart, list_elem_of_bind. exists e. split; [done|by eapply list_elem_of_lookup_2]. }
    destruct (ld_all _ _ _ Hl y Hy) as (f & Hf & Hs). exists f. split.
    + unfold package_listing. rewrite Hpp. apply (st_kept _ _ _ _ S3); [set_solver|apply Hs| |done].
      by rewrite (se_path _ _ _ _ Hs).
    + apply (rs_settled _ _ _ R5), HK4; [by rewrite HD1|]. by apply (st_settled _ _ _ _ S3).
  - fold r. rewrite Hsc. apply Forall2_same_length_lookup_2; [by eapply Forall2_length|].
    intros i e f He Hi. apply (rs_settled _ _ _ R5). unfold settled_all in HD4.
    rewrite Forall_forall in HD4. apply (HD4 (fe_path e, f)). apply list_elem_of_lookup. exists i.
    unfold D. rewrite lookup_zip_with. rewrite list_lookup_fmap, He, Hi. done.
Qed.
End apply.
