(* ===== verification/PlacementOps.v ===== *)
(** * The placement invariant: the other updates

    The editor, the watcher and the eviction of a root. Most of them only take
    files out of containers ([shrinks]); the ones that add a file find no live
    file at its path first. *)

From S2P Require Export PlacementApply.

(** ** Taking files out *)

(** Containers lose files, orphans may turn stale, live roots may come without
    content. *)
Record shrinks (db db' : Db) : Prop := {
  sh_files : length (files db) ≤ length (files db');
  sh_path f : f < length (files db) → f_path (file db' f) = f_path (file db f);
  sh_package f : f < length (files db) → f_package (file db' f) = f_package (file db f);
  sh_roots : length (roots db) ≤ length (roots db');
  sh_packages : length (packages db) ≤ length (packages db');
  sh_live r : r ∈ live_list db' → r ∈ live_list db ∨
    r < length (roots db') ∧ r_packages (root db' r) = [] ∧ r_scripts (root db' r) = [];
  sh_rpackages r p : p ∈ r_packages (root db' r) → p ∈ r_packages (root db r);
  sh_rscripts r f : f ∈ r_scripts (root db' r) → f ∈ r_scripts (root db r);
  sh_pfiles p f : f ∈ p_files (package db' p) → f ∈ p_files (package db p);
  sh_pscripts p f : f ∈ p_scripts (package db' p) → f ∈ p_scripts (package db p);
  sh_orphan f : f ∈ orphan_files db' → f ∈ orphan_files db;
  sh_stale f : f ∈ stale_files db' → f ∈ stale_files db ∨ f ∈ orphan_files db ∧ f ∉ orphan_files db';
  sh_stale_packages p : p ∈ stale_packages db' → p ∈ stale_packages db;
}.

Section shrinks.
Context (db db' : Db) (Hs : shrinks db db').

Lemma sh_listing p f : f ∈ package_listing db' p → f ∈ package_listing db p.
Proof.
  unfold package_listing. rewrite !elem_of_app.
  intros [?%(sh_pfiles _ _ Hs)|?%(sh_pscripts _ _ Hs)]; auto.
Qed.

Lemma sh_live_script r f : r ∈ live_list db' → f ∈ r_scripts (root db' r) →
  r ∈ live_list db ∧ f ∈ r_scripts (root db r).
Proof.
  intros Hr Hf. destruct (sh_live _ _ Hs r Hr) as [?|(_ & _ & E)].
  - split; [done|by apply (sh_rscripts _ _ Hs)].
  - rewrite E in Hf. by apply not_elem_of_nil in Hf.
Qed.

Lemma sh_live_package r p : r ∈ live_list db' → p ∈ r_packages (root db' r) →
  r ∈ live_list db ∧ p ∈ r_packages (root db r).
Proof.
  intros Hr Hf. destruct (sh_live _ _ Hs r Hr) as [?|(_ & E & _)].
  - split; [done|by apply (sh_rpackages _ _ Hs)].
  - rewrite E in Hf. by apply not_elem_of_nil in Hf.
Qed.

Lemma sh_live_file f : live db' f → live db f.
Proof.
  intros [(r & Hr & Hf)|Hf]; [|right; by apply (sh_orphan _ _ Hs)].
  left. apply elem_of_root_listing in Hf as [Hf|(p & Hp & Hf)].
  - destruct (sh_live_script r f Hr Hf). exists r. split; [done|]. apply elem_of_root_listing. by left.
  - destruct (sh_live_package r p Hr Hp). exists r. split; [done|]. apply elem_of_root_listing. right.
    exists p. split; [done|by apply sh_listing].
Qed.

Lemma shrinks_placed x : placed_except x db → placed_except x db'.
Proof.
  intros Hp. assert (HL := sh_files _ _ Hs).
  assert (Hpk := sh_package _ _ Hs). assert (Hlist := sh_listing).
  split.
  - intros r Hr. destruct (sh_live _ _ Hs r Hr) as [Hr'|(? & _)]; [|done].
    eapply Nat.lt_le_trans; [by eapply pl_root|apply Hs].
  - intros r p Hin%(sh_rpackages _ _ Hs). eapply Nat.lt_le_trans; [by eapply pl_root_pkg|apply Hs].
  - intros p f Hf%Hlist. eapply Nat.lt_le_trans; [by eapply pl_listing|done].
  - intros r f Hf%(sh_rscripts _ _ Hs). eapply Nat.lt_le_trans; [by eapply pl_scripts|done].
  - intros f Hf%(sh_orphan _ _ Hs). eapply Nat.lt_le_trans; [by eapply pl_orphan|done].
  - intros f [Hf|[Hf _]]%(sh_stale _ _ Hs);
      (eapply Nat.lt_le_trans; [first [by eapply pl_stale|by eapply pl_orphan]|done]).
  - intros p Hf%(sh_stale_packages _ _ Hs). eapply Nat.lt_le_trans; [by eapply pl_stale_pkg|apply Hs].
  - intros p f Hf%Hlist. rewrite Hpk; [by eapply pl_backpointer|by eapply pl_listing].
  - intros r f Hr Hx Hf. destruct (sh_live_script r f Hr Hf).
    rewrite Hpk; [by eapply pl_script_none|by eapply pl_scripts].
  - intros f Hf%(sh_orphan _ _ Hs). rewrite Hpk; [by eapply pl_orphan_none|by eapply pl_orphan].
  - intros f [Hf|[Hf _]]%(sh_stale _ _ Hs).
    + rewrite Hpk; [by eapply pl_stale_none|by eapply pl_stale].
    + rewrite Hpk; [by eapply pl_orphan_none|by eapply pl_orphan].
  - intros p f Hf%(sh_pfiles _ _ Hs) Hg%(sh_pscripts _ _ Hs). by eapply pl_split.
  - intros f [Hf|[_ Hf]]%(sh_stale _ _ Hs) Hg; [|done]. apply (sh_orphan _ _ Hs) in Hg.
    by eapply pl_stale_orphan.
  - intros r f Hr [Hf|[Hf _]]%(sh_stale _ _ Hs) Hg; destruct (sh_live_script r f Hr Hg).
    + by eapply pl_stale_script.
    + by eapply pl_orphan_script.
  - intros r f Hr Hf%(sh_orphan _ _ Hs) Hg. destruct (sh_live_script r f Hr Hg).
    by eapply pl_orphan_script.
  - intros r r' p Hr Hr' H1 H2. destruct (sh_live_package r p Hr H1), (sh_live_package r' p Hr' H2).
    by apply (pl_pkg_once _ _ Hp r r' p).
  - intros r r' f Hr Hr' H1 H2. destruct (sh_live_script r f Hr H1), (sh_live_script r' f Hr' H2).
    by apply (pl_script_once _ _ Hp r r' f).
  - intros f g Hf%sh_live_file Hg%sh_live_file. rewrite !(sh_path _ _ Hs) by by eapply live_valid.
    by apply (pl_path _ _ Hp).
Qed.
End shrinks.

Lemma shrinks_refl db : shrinks db db.
Proof. split; auto. Qed.

Lemma shrinks_on_file f g db :
  (∀ a, f_path (g a) = f_path a) → (∀ a, f_package (g a) = f_package a) →
  shrinks db (on_file f g db).
Proof.
  intros Hpath Hpkg. split; try done; auto.
  - simpl. by rewrite length_alter.
  - intros f' _. unfold file, on_file; simpl. by apply (alter_field f_path).
  - intros f' _. unfold file, on_file; simpl. by apply (alter_field f_package).
Qed.

Lemma shrinks_on_file_if c f g db :
  (∀ a, f_path (g a) = f_path a) → (∀ a, f_package (g a) = f_package a) →
  shrinks db (on_file_if c f g db).
Proof. destruct c; [apply shrinks_on_file|intros; apply shrinks_refl]. Qed.

Lemma shrinks_remove_from_orphan f db : shrinks db (remove_from_orphan f db).
Proof.
  pose proof (orphan_remove_from_orphan f db) as Ho. revert Ho.
  destruct (remove_from_orphan_eq f db) as [->|[s ->]]; [intros; apply shrinks_refl|].
  intros Ho. split; simpl in *; auto. intros g Hg%Ho. apply Hg.
Qed.

Lemma shrinks_remove_from_pkg_files x p f db :
  placed_except x db → shrinks db (remove_from_pkg_files p f db).
Proof.
  intros Hp. pose proof (remove_from_pkg_files_spec db p f (pl_split _ _ Hp p f)) as Hr.
  cbn zeta in Hr. destruct Hr as (F & R & W & L & O & S & SP & LP & HP).
  split; unfold file, root, live_list; rewrite ?F, ?R, ?W, ?L, ?O, ?S, ?SP, ?LP; auto.
  - intros q g. destruct (HP q) as (_ & Hq & _). rewrite Hq. by intros [? _].
  - intros q g. destruct (HP q) as (_ & _ & Hq). rewrite Hq. by intros [? _].
Qed.

Lemma shrinks_remove_from_scripts x f rs db db' :
  placed_except x db → (∀ r, r ∈ rs → r ∈ live_list db) →
  remove_from_scripts f rs db = Some db' → shrinks db db'.
Proof.
  intros Hp. induction rs as [|r rs IH]; intros Hrs; simpl; [done|].
  destruct (with_cow_filter _ _) as [l|] eqn:E; [|apply IH; intros r' Hr'; apply Hrs; by right].
  apply with_cow_filter_Some in E as [_ ->]. intros [= <-].
  assert (Hlt : r < length (roots db)) by (eapply pl_root, Hrs; [done|by left]).
  split; auto; try done.
  - simpl. by rewrite length_alter.
  - intros r' p. rewrite root_on_root by done. case_decide; by subst.
  - intros r' g. rewrite root_on_root by done. case_decide; [subst; simpl|done].
    rewrite list_elem_of_filter. by intros [_ ?].
Qed.

Section operations.
Context `{HashOrder}.

Lemma remove_watched_file_placed fp db : placed db → placed (remove_watched_file fp db).
Proof.
  intros Hp. unfold remove_watched_file. destruct (file_by_path db fp) as [f|]; [|done].
  destruct (f_package (file db f)) as [p|].
  - eapply shrinks_placed; [by eapply shrinks_remove_from_pkg_files|done].
  - destruct (remove_from_scripts _ _ _) as [db'|] eqn:E.
    + eapply shrinks_placed; [eapply shrinks_remove_from_scripts; [done| |done]|done].
      intros r Hr. apply elem_of_app. by left.
    + eapply shrinks_placed; [apply shrinks_remove_from_orphan|done].
Qed.

Lemma close_editor_placed fp db : placed db → placed (close_editor fp db).
Proof.
  intros Hp. unfold close_editor. destruct (file_by_path db fp) as [f|]; [|done].
  set (db1 := on_file f (set_source_text_override None) db).
  assert (Hp1 : placed db1) by (eapply shrinks_placed; [by apply shrinks_on_file|done]).
  destruct (with_cow_remove (orphan_files db1) f) as [s|] eqn:E; [|done].
  unfold with_cow_remove in E. case_bool_decide as Hin; [|done]. injection E as <-.
  simpl. unfold with_cow_insert. case_bool_decide as Hst.
  - eapply shrinks_placed; [|exact Hp1]. split; auto; simpl; set_solver.
  - eapply shrinks_placed; [|exact Hp1]. split; auto; simpl; set_solver.
Qed.

(** ** The editor *)

(** A file that no live file shares its path with may become an orphan. *)
Lemma orphan_added f db :
  placed db → f < length (files db) → f_package (file db f) = None → f ∉ stale_files db →
  (∀ r, r ∈ live_list db → f ∉ r_scripts (root db r)) →
  (∀ g, live db g → f_path (file db g) ≠ f_path (file db f)) →
  placed (add_to_orphan_files f db).
Proof.
  intros Hp Hlt Hpkg Hst Hsc Hpath. unfold add_to_orphan_files, with_cow_insert.
  case_bool_decide as Hin; [done|].
  set (db' := set_orphan_files _ db).
  assert (Ho : ∀ g, g ∈ orphan_files db' ↔ g ∈ orphan_files db ∨ g = f) by (simpl; set_solver).
  assert (Hlive : ∀ g, live db' g → live db g ∨ g = f).
  { intros g [Hg|Hg]; [left; by left|]. apply Ho in Hg as [Hg|?]; [left; by right|by right]. }
  split; try apply Hp.
  - intros g [Hg| ->]%Ho; [by apply (pl_orphan _ _ Hp)|done].
  - intros g [Hg| ->]%Ho; [by apply (pl_orphan_none _ _ Hp)|done].
  - intros g Hg [Hg'| ->]%Ho; [by apply (pl_stale_orphan _ _ Hp g)|by apply Hst].
  - intros r g Hr [Hg'| ->]%Ho; [by apply (pl_orphan_script _ _ Hp)|by apply Hsc].
  - intros g h [Hg| ->]%Hlive [Hh| ->]%Hlive Heq; [by apply (pl_path _ _ Hp)| | |done].
    + by destruct (Hpath g Hg).
    + by destruct (Hpath h Hh).
Qed.

Lemma shrinks_new_file a db x : placed_except x db → shrinks db (new_file a db).1.
Proof.
  intros Hp. split; try done; auto.
  - simpl. rewrite length_app. lia.
  - intros f Hf. by rewrite file_new_file, decide_False by lia.
  - intros f Hf. by rewrite file_new_file, decide_False by lia.
Qed.

Lemma shrinks_remove_from_stale_files f db : shrinks db (remove_from_stale_files f db).
Proof.
  pose proof (stale_remove_from_stale_files f db) as Ho. revert Ho.
  destruct (remove_from_stale_files_eq f db) as [->|[s ->]]; [intros; apply shrinks_refl|].
  intros Ho. split; simpl in *; auto. intros g Hg%Ho. left. apply Hg.
Qed.

Lemma upsert_editor_placed fp contents db : placed db → placed (upsert_editor fp contents db).1.
Proof.
  intros Hp. unfold upsert_editor. pose proof (file_by_path_spec db fp) as Hs.
  destruct (file_by_path db fp) as [f|].
  { eapply shrinks_placed; [by apply shrinks_on_file|done]. }
  destruct (stale_file_by_path db fp) as [f|] eqn:E.
  - apply stale_file_by_path_Some in E as [Hst Hfp]. assert (Hlt := pl_stale _ _ Hp _ Hst).
    set (db1 := on_file f _ db). set (db2 := on_file f (set_file_package None) db1).
    assert (T1 : touched f db db1) by (apply touched_on_file; [done|apply touched_refl]).
    assert (Hpk1 : f_package (file db1 f) = None).
    { unfold db1. rewrite file_on_file, decide_True by done. by apply (pl_stale_none _ _ Hp). }
    assert (Hp1 : placed db1) by (eapply shrinks_placed; [by apply shrinks_on_file|done]).
    assert (T12 : touched f db1 db2) by (apply touched_on_file; [done|apply touched_refl]).
    assert (Hp2 : placed db2).
    { eapply shrinks_placed; [|exact Hp1]. split; try done; auto.
      - by rewrite (to_length _ _ _ T12).
      - intros g _. unfold file, db2, on_file; simpl. by apply (alter_field f_path).
      - intros g _. unfold db2. rewrite file_on_file by by rewrite (to_length _ _ _ T1).
        case_decide; [subst g; by rewrite Hpk1|done]. }
    assert (Hp3 : placed (remove_from_stale_files f db2)).
    { eapply shrinks_placed; [apply shrinks_remove_from_stale_files|done]. }
    assert (T2 : touched f db db2) by by apply touched_on_file.
    assert (T3 : ∀ g, file (remove_from_stale_files f db2) g = file db2 g ∧
      root (remove_from_stale_files f db2) = root db2 ∧
      live_list (remove_from_stale_files f db2) = live_list db2 ∧
      length (files (remove_from_stale_files f db2)) = length (files db2)).
    { intros g. by destruct (remove_from_stale_files_eq f db2) as [->|[s ->]]. }
    destruct (T3 f) as (Hf3 & HR & HL & Hlen). simpl. apply orphan_added; try done.
    + by rewrite Hlen, (to_length _ _ _ T2).
    + rewrite Hf3. unfold db2. rewrite file_on_file by by rewrite (to_length _ _ _ T1).
      by rewrite decide_True.
    + rewrite stale_remove_from_stale_files. by intros [_ ?].
    + intros r. rewrite HL, HR. intros Hr. by apply (pl_stale_script _ _ Hp r f).
    + intros g Hg. rewrite Hf3, (to_path _ _ _ T2), Hfp.
      assert (Hg' : live db g).
      { revert Hg. unfold live. destruct (remove_from_stale_files_eq f db2) as [->|[s ->]]; done. }
      destruct (T3 g) as (-> & _). assert (Hne : g ≠ f) by (intros E'; rewrite E' in Hg'; exact (live_not_stale None db f Hp Hg' Hst)).
      rewrite (to_file _ _ _ T2) by done. by apply Hs.
  - set (d := mkFile fp 0 (Some contents) None).
    change (placed (add_to_orphan_files (length (files db)) (new_file d db).1)). apply orphan_added.
    + eapply shrinks_placed; [by eapply shrinks_new_file|done].
    + simpl. rewrite length_app. simpl. lia.
    + rewrite file_new_file, decide_True; done.
    + intros Hin. pose proof (pl_stale _ _ Hp _ Hin). lia.
    + intros r Hr Hin. pose proof (pl_scripts _ _ Hp _ _ Hin). lia.
    + intros g Hg. assert (Hlt : g < length (files db)) by by apply (live_valid None).
      rewrite !file_new_file, decide_False, decide_True by (lia || done). by apply Hs.
Qed.

(** ** Watched files *)

(** What the packages of live roots list is settled. *)
Lemma listed_settled r p f db :
  placed db → r ∈ live_list db → p ∈ r_packages (root db r) → f ∈ package_listing db p →
  settled (f_path (file db f)) (Some p) f db.
Proof.
  intros Hp Hr Hpin Hf.
  assert (Hlf : live db f).
  { left. exists r. split; [done|]. apply elem_of_root_listing. eauto. }
  split; [by eapply live_valid|done|by eapply pl_backpointer| |by eapply live_not_stale|].
  - intros Ho. apply (pl_orphan_none _ _ Hp) in Ho. apply (pl_backpointer _ _ Hp) in Hf. congruence.
  - intros g Hg Heq. by eapply pl_path.
Qed.

Lemma replaced_set_files p fe db :
  p < length (packages db) →
  replaced p fe (p_scripts (package db p)) db (on_package p (set_files fe) db).
Proof.
  intros Hlt. split; try done; [simpl; by rewrite length_alter|..]; intros q; unfold package_listing;
    rewrite package_on_package by done; case_decide; by subst.
Qed.

Lemma replaced_set_scripts p se db :
  p < length (packages db) →
  replaced p (p_files (package db p)) se db (on_package p (set_scripts se) db).
Proof.
  intros Hlt. split; try done; [simpl; by rewrite length_alter|..]; intros q; unfold package_listing;
    rewrite package_on_package by done; case_decide; by subst.
Qed.

(** One more file for a package. *)
Lemma listing_appended p f y fe se db db' :
  placed db → settled y (Some p) f db → replaced p fe se db db' →
  (∀ g, g ∈ fe ++ se → g ∈ package_listing db p ∨ g = f) → (∀ g, g ∈ fe → g ∉ se) → placed db'.
Proof.
  intros Hp Hs Hr Hin Hdis.
  assert (Hel : ∀ p' g, g ∈ package_listing db' p' → g ∈ package_listing db p' ∨ p' = p ∧ g = f).
  { intros p' g. rewrite (rp_listing _ _ _ _ _ Hr). case_decide; [|by left]. subst p'.
    intros [?|?]%Hin; auto. }
  assert (Hlive : ∀ g, live db' g → live db g ∨ g = f).
  { intros g [(r & Hr' & Hg)|Hg]; [|left; right; by rewrite <-(rp_orphan _ _ _ _ _ Hr)].
    rewrite (rp_live_list _ _ _ _ _ Hr) in Hr'. apply elem_of_root_listing in Hg.
    rewrite (rp_root _ _ _ _ _ Hr) in Hg. destruct Hg as [Hg|(q & Hq & [Hg|[_ ->]]%Hel)]; [| |by right].
    - left. left. exists r. split; [done|]. apply elem_of_root_listing. by left.
    - left. left. exists r. split; [done|]. apply elem_of_root_listing. eauto. }
  split; rewrite ?(rp_live_list _ _ _ _ _ Hr), ?(rp_files _ _ _ _ _ Hr), ?(rp_roots _ _ _ _ _ Hr),
    ?(rp_packages _ _ _ _ _ Hr), ?(rp_orphan _ _ _ _ _ Hr), ?(rp_stale _ _ _ _ _ Hr),
    ?(rp_stale_packages _ _ _ _ _ Hr); try setoid_rewrite (rp_root _ _ _ _ _ Hr);
    try setoid_rewrite (rp_file _ _ _ _ _ Hr); try apply Hp.
  - intros q g [Hg|[-> ->]]%Hel; [by apply (pl_listing _ _ Hp q)|apply Hs].
  - intros q g [Hg|[-> ->]]%Hel; [by apply (pl_backpointer _ _ Hp)|apply Hs].
  - intros q g. rewrite (rp_pfiles _ _ _ _ _ Hr), (rp_pscripts _ _ _ _ _ Hr).
    case_decide; [apply Hdis|apply Hp].
  - intros g h [Hg| ->]%Hlive [Hh| ->]%Hlive Heq; [by apply (pl_path _ _ Hp)| | |done].
    + apply (se_unique _ _ _ _ Hs g Hg). by rewrite Heq, (se_path _ _ _ _ Hs).
    + symmetry. apply (se_unique _ _ _ _ Hs h Hh). by rewrite <-Heq, (se_path _ _ _ _ Hs).
Qed.

Lemma with_cow_push_Some l f l' : with_cow_push l f = Some l' → l' = l ++ [f] ∧ f ∉ l.
Proof. unfold with_cow_push. case_bool_decide; [done|]. by intros [= <-]. Qed.

(** A placement the classifier may answer: a workspace root, or a package of
    one. *)
Definition placement_live (pl : Placement) (db : Db) : Prop :=
  match pl with
  | PScript r => r ∈ workspace_roots db
  | PPackageFile p | PPackageScript p => ∃ r, r ∈ workspace_roots db ∧ p ∈ r_packages (root db r)
  end.

Lemma append_to_container_placed f y pl db :
  placed db → placement_live pl db → settled y (package_backpointer pl) f db → ¬ live db f →
  placed (append_to_container f pl db).
Proof.
  intros Hp Hpl Hs Hnl.
  assert (Hws : ∀ r, r ∈ workspace_roots db → r ∈ live_list db).
  { intros r Hr. apply elem_of_app. by left. }
  destruct pl as [r|p|p]; simpl in *.
  - destruct (with_cow_push _ _) as [l|] eqn:E; [|done]. apply with_cow_push_Some in E as [-> Hnin].
    assert (Hr := Hws r Hpl).
    assert (R := rerooted_scripts true r (r_scripts (root db r) ++ [f]) db (pl_root _ _ Hp r Hr)
                   (λ e, False_rect _ (Bool.diff_true_false e))). simpl in R.
    assert (Hel : ∀ g, g ∈ r_scripts (root db r) ++ [f] → g ∈ r_scripts (root db r) ∨ g = f) by set_solver.
    eapply (rr_placed None); [exact R|exact Hp|done| |by left|..].
    + right. split; [done|]. intros g [Hg| ->]%Hel; [|apply Hs]. by apply (pl_script_none _ _ Hp r).
    + intros p. apply (pl_root_pkg _ _ Hp).
    + intros p r' H1 H2 Hne H3. apply Hne. by apply (pl_pkg_once _ _ Hp r' r p).
    + intros g [Hg| ->]%Hel; [|split_and!; apply Hs].
      split; [by apply (pl_scripts _ _ Hp r)|]. split.
      * intros Hst. by apply (pl_stale_script _ _ Hp r g).
      * intros Ho. by apply (pl_orphan_script _ _ Hp r g).
    + intros g r' [Hg| ->]%Hel Hr' Hne Hg'.
      * apply Hne. by apply (pl_script_once _ _ Hp r' r g).
      * apply Hnl. left. exists r'. split; [done|]. apply elem_of_root_listing. by left.
    + assert (Hlive : ∀ g, live (on_root r (set_root_scripts (r_scripts (root db r) ++ [f])) db) g →
        live db g ∨ g = f).
      { intros g [Hg|[[Hg| ->]%Hel|(p & Hpin & Hg)]]%(rr_live _ _ _ _ _ R); auto.
        - left. left. exists r. split; [done|]. apply elem_of_root_listing. by left.
        - left. left. exists r. split; [done|]. apply elem_of_root_listing. eauto. }
      intros g h [Hg| ->]%Hlive [Hh| ->]%Hlive Heq; [by apply (pl_path _ _ Hp)| | |done].
      * apply (se_unique _ _ _ _ Hs g Hg). by rewrite Heq, (se_path _ _ _ _ Hs).
      * symmetry. apply (se_unique _ _ _ _ Hs h Hh). by rewrite <-Heq, (se_path _ _ _ _ Hs).
  - destruct Hpl as (r & Hr & Hpin). assert (Hlt := pl_root_pkg _ _ Hp r p Hpin).
    assert (Hnp : f ∉ package_listing db p).
    { intros Hf. apply Hnl. left. exists r. split; [auto|]. apply elem_of_root_listing. eauto. }
    destruct (with_cow_push _ _) as [l|] eqn:E; [|done]. apply with_cow_push_Some in E as [-> Hnin].
    eapply listing_appended; [exact Hp|exact Hs|by apply replaced_set_files|..];
      unfold package_listing in *; [set_solver|].
    intros g. rewrite elem_of_app. intros [Hg|Hg]; [by apply (pl_split _ _ Hp)|set_solver].
  - destruct Hpl as (r & Hr & Hpin). assert (Hlt := pl_root_pkg _ _ Hp r p Hpin).
    assert (Hnp : f ∉ package_listing db p).
    { intros Hf. apply Hnl. left. exists r. split; [auto|]. apply elem_of_root_listing. eauto. }
    destruct (with_cow_push _ _) as [l|] eqn:E; [|done]. apply with_cow_push_Some in E as [-> Hnin].
    eapply listing_appended; [exact Hp|exact Hs|by apply replaced_set_scripts|..];
      unfold package_listing in *; [set_solver|].
    intros g Hg. rewrite elem_of_app. intros [Hg'|Hg']; [by apply (pl_split _ _ Hp p g)|set_solver].
Qed.

Lemma find_elem {A} (g : A → bool) l a : List.find g l = Some a → a ∈ l ∧ g a = true.
Proof. intros [Hin Hg]%List.find_some. split; [by apply list_elem_of_In|done]. Qed.

Lemma classify_live disk db p pl : classify disk db p = Some pl → placement_live pl db.
Proof.
  unfold classify. destruct (is_r_file disk p); [|done].
  destruct (workspace_root_containing db p) as [r|] eqn:E; [|done].
  apply find_elem in E as [Hr _]. simpl.
  destruct (as_path _) as [root_path|]; [|done]. simpl.
  destruct (List.find _ _) as [dir|]; [|by intros [= <-]].
  destruct (read_description_name disk dir) as [name|]; [|done]. simpl.
  destruct (List.find _ (r_packages _)) as [pkg|] eqn:E; [|done]. apply find_elem in E as [Hp _].
  simpl. destruct (classify_in_package dir p); intros [= <-]; simpl; eauto.
Qed.

Lemma add_watched_file_placed disk fp db : placed db → placed (add_watched_file disk fp db).
Proof.
  intros Hp. unfold add_watched_file. destruct (as_path fp) as [fs_path|]; [|done].
  pose proof (file_by_path_spec db fp) as Hs. destruct (file_by_path db fp) as [f|].
  { eapply shrinks_placed; [by apply shrinks_on_file_if|done]. }
  destruct (classify disk db fs_path) as [pl|] eqn:Hpl; [|done]. apply classify_live in Hpl.
  set (entry := mkEntry fp _).
  pose proof (upsert_root_file_spec None (package_backpointer pl) entry db Hp) as Hu.
  destruct (upsert_root_file _ entry db) as [db1 f]. simpl in Hu.
  assert (Hset := up_settled None _ _ _ _ _ Hp Hu).
  eapply append_to_container_placed; [|by destruct pl; simpl in *;
    rewrite ?(up_workspace _ _ _ _ _ Hu); try setoid_rewrite (up_root _ _ _ _ _ Hu)|exact Hset|].
  - eapply up_placed; [exact Hp|exact Hu|]. intros r g Hr _ Hg Hgp. destruct (Hs g); [|done].
    left. exists r. split; [done|]. apply elem_of_root_listing. by left.
  - intros Hf. apply (up_live _ _ _ _ _ Hu) in Hf. apply (Hs f Hf).
    etrans; [|exact (up_path _ _ _ _ _ Hu)]. symmetry. apply (up_file_path _ _ _ _ _ Hu).
    by apply (live_valid None).
Qed.

Lemma reconcile_placed disk root_path fs_path fp db :
  placed db → placed (reconcile disk root_path fs_path fp db).
Proof.
  intros Hp. unfold reconcile.
  repeat case_match; auto using add_watched_file_placed, remove_watched_file_placed.
Qed.

Lemma drain_paths_placed disk owned rs pending paths db :
  placed db → placed (drain_paths disk owned rs pending paths db).2.
Proof.
  revert db. induction paths as [|fp paths IH]; intros db Hp; simpl; [done|].
  assert (Hp1 : placed (drain_path disk owned rs pending fp db).2).
  { unfold drain_path. repeat case_match; simpl; auto using reconcile_placed. }
  destruct (drain_path _ _ _ _ _ db) as [keep db1]. specialize (IH db1 Hp1).
  by destruct (drain_paths _ _ _ _ paths db1).
Qed.

Lemma drain_buffered_placed disk owned w : placed (db w) → placed (db (drain_buffered disk owned w)).
Proof.
  intros Hp. unfold drain_buffered.
  pose proof (drain_paths_placed disk owned (workspace_root_paths (db w)) (state (sched w))
    (buffered (sched w)) (db w) Hp) as Hd.
  by destruct (drain_paths _ _ _ _ _ _).
Qed.
End operations.
