(* ===== verification/PlacementEvict.v ===== *)
(** * The placement invariant: evicting roots and changing the library

    [set_root_stale] empties a root: its files turn orphan or stale, its
    packages stale. With the invariant the root shares nothing, so the other
    roots keep all they list. Then the updates of [library.rs]. *)

From S2P Require Export PlacementOps.

Section evict.
Context `{HashOrder}.

(** [set_root_stale r owned] in one description. *)
Record evicted (r : Root) (owned : FilePath → bool) (db db' : Db) : Prop := {
  ev_files : length (files db') = length (files db);
  ev_file f : file db' f =
    if decide (f ∈ root_listing db r) then set_file_package None (file db f) else file db f;
  ev_packages : length (packages db') = length (packages db);
  ev_package p : package db' p =
    if decide (p ∈ r_packages (root db r)) then set_scripts [] (set_files [] (package db p))
    else package db p;
  ev_roots : length (roots db') = length (roots db);
  ev_root r' : r' ≠ r → root db' r' = root db r';
  ev_root_packages : r_packages (root db' r) = [];
  ev_root_scripts : r_scripts (root db' r) = [];
  ev_root_path : r_path (root db' r) = r_path (root db r);
  ev_orphan f : f ∈ orphan_files db' ↔
    f ∈ orphan_files db ∨ f ∈ root_listing db r ∧ owned (f_path (file db f)) = true;
  ev_stale f : f ∈ stale_files db' ↔
    f ∈ stale_files db ∨ f ∈ root_listing db r ∧ owned (f_path (file db f)) = false;
  ev_stale_packages p : p ∈ stale_packages db' ↔
    p ∈ stale_packages db ∨ p ∈ r_packages (root db r);
  ev_workspace : workspace_roots db' = workspace_roots db;
  ev_library : library_roots db' = library_roots db;
}.

Lemma clear_backpointers_spec l db :
  Forall (λ f, f < length (files db)) l →
  let db' := clear_backpointers l db in
  length (files db') = length (files db) ∧
  (∀ f, file db' f = if decide (f ∈ l) then set_file_package None (file db f) else file db f) ∧
  packages db' = packages db ∧ roots db' = roots db ∧ orphan_files db' = orphan_files db ∧
  stale_files db' = stale_files db ∧ stale_packages db' = stale_packages db ∧
  workspace_roots db' = workspace_roots db ∧ library_roots db' = library_roots db.
Proof.
  cbn zeta. unfold clear_backpointers. revert db. induction l as [|g l IH]; intros db Hl; simpl.
  { split_and!; try done. }
  apply Forall_cons in Hl as [Hg Hl].
  set (db1 := on_file g (set_file_package None) db).
  assert (Hlen : length (files db1) = length (files db)) by (simpl; by rewrite length_alter).
  destruct (IH db1) as (L & F & P & R & O & S & SP & W & B); [by rewrite Hlen|].
  split; [congruence|]. split; [|split_and!; done].
  intros f. rewrite F. unfold db1. rewrite file_on_file by done.
  repeat case_decide; try set_solver; subst; try done.
Qed.

Lemma clear_packages_spec l db :
  Forall (λ p, p < length (packages db)) l →
  let db' := clear_packages l db in
  length (packages db') = length (packages db) ∧
  (∀ p, package db' p =
    if decide (p ∈ l) then set_scripts [] (set_files [] (package db p)) else package db p) ∧
  files db' = files db ∧ roots db' = roots db ∧ orphan_files db' = orphan_files db ∧
  stale_files db' = stale_files db ∧ stale_packages db' = stale_packages db ∧
  workspace_roots db' = workspace_roots db ∧ library_roots db' = library_roots db.
Proof.
  cbn zeta. unfold clear_packages. revert db. induction l as [|g l IH]; intros db Hl; simpl.
  { split_and!; try done. }
  apply Forall_cons in Hl as [Hg Hl].
  set (db1 := on_package g (set_scripts []) (on_package g (set_files []) db)).
  assert (Hlen : length (packages db1) = length (packages db)) by (simpl; by rewrite !length_alter).
  destruct (IH db1) as (L & F & P & R & O & S & SP & W & B); [by rewrite Hlen|].
  split; [congruence|]. split; [|split_and!; done].
  assert (Hdb1 : ∀ p, package db1 p =
    if decide (p = g) then set_scripts [] (set_files [] (package db g)) else package db p).
  { intros p. unfold db1. rewrite package_on_package by (simpl; by rewrite length_alter).
    rewrite !package_on_package by done. repeat case_decide; try done. }
  intros p. rewrite F, !Hdb1. repeat case_decide; try set_solver; subst; try done.
Qed.

Lemma elem_of_push_stale_packages l acc p :
  p ∈ push_stale_packages l acc ↔ p ∈ acc ∨ p ∈ l.
Proof.
  unfold push_stale_packages. revert acc. induction l as [|q l IH]; intros acc; simpl; [set_solver|].
  rewrite IH. case_bool_decide; [|set_solver]. set_solver.
Qed.

Lemma partition_elem {A} (g : A → bool) l a :
  (a ∈ (List.partition g l).1 ↔ a ∈ l ∧ g a = true) ∧
  (a ∈ (List.partition g l).2 ↔ a ∈ l ∧ g a = false).
Proof.
  induction l as [|b l [IH1 IH2]]; simpl; [set_solver|].
  destruct (List.partition g l) as [l1 l2]. simpl in *.
  destruct (g b) eqn:E; simpl; rewrite !elem_of_cons, IH1, IH2; split; naive_solver congruence.
Qed.

Definition is_owned (editor_owned : option (gset FilePath)) (y : FilePath) : bool :=
  match editor_owned with Some owned => bool_decide (y ∈ owned) | None => false end.

(** The writes of the two sets and of the stale packages. *)
Lemma stale_sets_spec (to_orphan to_stale : list File) (pkgs : list Package) db :
  let db1 := if bool_decide (to_orphan = []) then db
             else set_orphan_files (orphan_files db ∪ list_to_set to_orphan) db in
  let db2 := if bool_decide (to_stale = []) then db1
             else set_stale_files (stale_files db1 ∪ list_to_set to_stale) db1 in
  let db3 := if bool_decide (pkgs = []) then db2
             else set_stale_packages (push_stale_packages pkgs (stale_packages db2)) db2 in
  files db3 = files db ∧ packages db3 = packages db ∧ roots db3 = roots db ∧
  workspace_roots db3 = workspace_roots db ∧ library_roots db3 = library_roots db ∧
  (∀ f, f ∈ orphan_files db3 ↔ f ∈ orphan_files db ∨ f ∈ to_orphan) ∧
  (∀ f, f ∈ stale_files db3 ↔ f ∈ stale_files db ∨ f ∈ to_stale) ∧
  (∀ p, p ∈ stale_packages db3 ↔ p ∈ stale_packages db ∨ p ∈ pkgs).
Proof.
  cbn zeta. repeat case_bool_decide; subst; simpl; split_and!; try done; intros f;
    rewrite ?elem_of_push_stale_packages, ?elem_of_union, ?elem_of_list_to_set,
      ?elem_of_nil; naive_solver.
Qed.

Lemma set_root_stale_spec r editor_owned db :
  placed db → r ∈ live_list db →
  evicted r (is_owned editor_owned) db (set_root_stale r editor_owned db).
Proof.
  intros Hp Hr. unfold set_root_stale.
  assert (Hall : Forall (λ f, f < length (files db)) (root_listing db r)).
  { apply Forall_forall. intros f Hf. apply (live_valid None); [done|]. left. by exists r. }
  assert (Hpk : Forall (λ p, p < length (packages db)) (r_packages (root db r))).
  { apply Forall_forall. intros p. by apply (pl_root_pkg _ _ Hp). }
  assert (Hlt := pl_root _ _ Hp r Hr).
  pose proof (clear_backpointers_spec (root_listing db r) db Hall) as H1. cbn zeta in H1.
  set (all := root_listing db r) in *. set (pkgs := r_packages (root db r)) in *.
  set (db1 := clear_backpointers all db) in *.
  destruct H1 as (L1 & F1 & P1 & R1 & O1 & S1 & SP1 & W1 & B1).
  assert (Hpath : ∀ f, f_path (file db1 f) = f_path (file db f)).
  { intros f. rewrite F1. by case_decide. }
  match goal with |- context [List.partition ?g all] => set (own := g);
    pose proof (λ f, partition_elem own all f) as Hpart end.
  assert (Hown : ∀ f, own f = is_owned editor_owned (f_path (file db f))).
  { intros f. unfold own. by rewrite Hpath. }
  destruct (List.partition own all) as [to_orphan to_stale]. simpl in Hpart.
  pose proof (stale_sets_spec to_orphan to_stale pkgs db1) as H3. cbn zeta in H3.
  match type of H3 with files ?d = _ ∧ _ => set (db3 := d) in * end.
  destruct H3 as (F3 & P3 & R3 & W3 & B3 & O3 & S3 & SP3). clearbody db1 db3.
  set (db4 := on_root r (set_root_scripts []) db3).
  assert (Hpk4 : Forall (λ p, p < length (packages db4)) pkgs) by (simpl; by rewrite P3, P1).
  pose proof (clear_packages_spec pkgs db4 Hpk4) as H5. cbn zeta in H5.
  set (db5 := clear_packages pkgs db4) in *.
  destruct H5 as (L5 & P5 & F5 & R5 & O5 & S5 & SP5 & W5 & B5). clearbody db5.
  assert (HL3 : r < length (roots db3)) by by rewrite R3, R1.
  assert (HL5 : r < length (roots db5)) by (rewrite R5; simpl; by rewrite length_alter).
  assert (Hroot5 : ∀ r', root db5 r' = if decide (r' = r) then set_root_scripts [] (root db r) else root db r').
  { intros r'. assert (root db5 r' = root db4 r') as -> by by unfold root; rewrite R5.
    unfold db4. rewrite root_on_root by done. unfold root. by rewrite R3, R1. }
  set (db6 := on_root r (set_packages []) db5).
  assert (HL6 : r < length (roots db6)) by (simpl; by rewrite length_alter).
  assert (Hroot7 : ∀ r', root (on_root r (set_environment_dirs []) db6) r' =
    if decide (r' = r) then set_environment_dirs [] (set_packages [] (set_root_scripts [] (root db r)))
    else root db r').
  { intros r'. rewrite root_on_root by done. unfold db6. rewrite !root_on_root, !Hroot5 by done.
    by repeat case_decide. }
  assert (Hfile : ∀ f, file db5 f = file db1 f) by by (intros f; unfold file; rewrite F5; simpl; rewrite F3).
  split; rewrite ?Hroot7, ?decide_True by done; simpl; rewrite ?length_alter; try done.
  - by rewrite F5; simpl; rewrite F3, L1.
  - intros f. change (file db5 f = if decide (f ∈ all) then set_file_package None (file db f) else file db f).
    by rewrite Hfile.
  - rewrite L5. simpl. by rewrite P3, P1.
  - intros p. change (package db5 p = if decide (p ∈ pkgs)
      then set_scripts [] (set_files [] (package db p)) else package db p).
    rewrite P5. unfold package. simpl. by rewrite P3, P1.
  - rewrite R5. simpl. rewrite length_alter, R3, R1. done.
  - intros r' Hne. change (root (on_root r (set_environment_dirs []) db6) r' = root db r').
    by rewrite Hroot7, decide_False.
  - intros f. rewrite O5. simpl. rewrite O3, O1, (proj1 (Hpart f)), Hown. done.
  - intros f. rewrite S5. simpl. rewrite S3, S1, (proj2 (Hpart f)), Hown. done.
  - intros p. rewrite SP5. simpl. by rewrite SP3, SP1.
  - rewrite W5. simpl. by rewrite W3.
  - rewrite B5. simpl. by rewrite B3.
Qed.

Section evicted.
Context (r : Root) (owned : FilePath → bool) (db db' : Db).
Context (Hp : placed db) (Hr : r ∈ live_list db) (He : evicted r owned db db').

Lemma ev_live_list : live_list db' = live_list db.
Proof. unfold live_list. by rewrite (ev_workspace _ _ _ _ He), (ev_library _ _ _ _ He). Qed.

Lemma ev_all_live f : f ∈ root_listing db r → live db f.
Proof. intros Hf. left. by exists r. Qed.

(** What the root lists, no other container holds. *)
Lemma ev_own_package f p :
  f ∈ root_listing db r → f ∈ package_listing db p → p ∈ r_packages (root db r).
Proof.
  intros [Hf|(q & Hq & Hf)]%elem_of_root_listing Hfp; apply (pl_backpointer _ _ Hp) in Hfp.
  - apply (pl_script_none _ _ Hp) in Hf; [congruence|done..].
  - apply (pl_backpointer _ _ Hp) in Hf. congruence.
Qed.

Lemma ev_own_script f r' :
  f ∈ root_listing db r → r' ∈ live_list db → f ∈ r_scripts (root db r') → r' = r.
Proof.
  intros [Hf|(q & Hq & Hf)]%elem_of_root_listing Hr' Hfr.
  - by apply (pl_script_once _ _ Hp r' r f).
  - apply (pl_backpointer _ _ Hp) in Hf. apply (pl_script_none _ _ Hp) in Hfr; [congruence|done..].
Qed.

Lemma ev_own_orphan f : f ∈ root_listing db r → f ∉ orphan_files db.
Proof.
  intros [Hf|(q & Hq & Hf)]%elem_of_root_listing Ho.
  - by apply (pl_orphan_script _ _ Hp r f).
  - apply (pl_backpointer _ _ Hp) in Hf. apply (pl_orphan_none _ _ Hp) in Ho. congruence.
Qed.

Lemma ev_own_stale f : f ∈ root_listing db r → f ∉ stale_files db.
Proof. intros Hf%ev_all_live. by apply (live_not_stale None). Qed.

Lemma ev_listing p f : f ∈ package_listing db' p →
  (p ∉ r_packages (root db r)) ∧ f ∈ package_listing db p ∧ f ∉ root_listing db r.
Proof.
  unfold package_listing at 1. rewrite (ev_package _ _ _ _ He). case_decide as Hin.
  - simpl. intros Hf. by apply not_elem_of_nil in Hf.
  - intros Hf. split_and!; try done. intros Hall. by apply Hin, (ev_own_package f).
Qed.

Lemma ev_script r' f : r' ∈ live_list db → f ∈ r_scripts (root db' r') →
  r' ≠ r ∧ f ∈ r_scripts (root db r') ∧ f ∉ root_listing db r.
Proof.
  intros Hr' Hf. destruct (decide (r' = r)) as [->|Hne].
  - rewrite (ev_root_scripts _ _ _ _ He) in Hf. by apply not_elem_of_nil in Hf.
  - rewrite (ev_root _ _ _ _ He) in Hf by done. split_and!; try done. intros Hall.
    by apply Hne, (ev_own_script f).
Qed.

Lemma ev_file_package f : f ∉ root_listing db r → file db' f = file db f.
Proof. intros Hf. rewrite (ev_file _ _ _ _ He). by rewrite decide_False. Qed.

Lemma ev_file_path f : f_path (file db' f) = f_path (file db f).
Proof. rewrite (ev_file _ _ _ _ He). by case_decide. Qed.

Lemma ev_root_package r' p : p ∈ r_packages (root db' r') → r' ≠ r ∧ p ∈ r_packages (root db r').
Proof.
  destruct (decide (r' = r)) as [->|Hne].
  - rewrite (ev_root_packages _ _ _ _ He). intros Hf. by apply not_elem_of_nil in Hf.
  - by rewrite (ev_root _ _ _ _ He).
Qed.

Lemma ev_live f : live db' f → live db f.
Proof.
  intros [(r' & Hr' & Hf)|Hf].
  - rewrite ev_live_list in Hr'. left. exists r'. split; [done|].
    apply elem_of_root_listing in Hf. apply elem_of_root_listing.
    destruct Hf as [Hf|(p & Hpin & Hf)].
    + left. by apply ev_script in Hf as (_ & ? & _).
    + right. apply ev_root_package in Hpin as [_ Hpin]. apply ev_listing in Hf as (_ & Hf & _). eauto.
  - apply (ev_orphan _ _ _ _ He) in Hf as [Hf|[Hf _]]; [by right|by apply ev_all_live].
Qed.

Lemma evicted_placed : placed db'.
Proof.
  split; rewrite ?ev_live_list, ?(ev_files _ _ _ _ He), ?(ev_roots _ _ _ _ He),
    ?(ev_packages _ _ _ _ He); try setoid_rewrite ev_file_path.
  - apply (pl_root _ _ Hp).
  - intros r' p [_ Hin]%ev_root_package. by apply (pl_root_pkg _ _ Hp r').
  - intros p f (_ & Hf & _)%ev_listing. by apply (pl_listing _ _ Hp p).
  - intros r' f Hf. destruct (decide (r' = r)) as [->|Hne].
    + rewrite (ev_root_scripts _ _ _ _ He) in Hf. by apply not_elem_of_nil in Hf.
    + rewrite (ev_root _ _ _ _ He) in Hf by done. by apply (pl_scripts _ _ Hp r').
  - intros f [Hf|[Hf _]]%(ev_orphan _ _ _ _ He); [by apply (pl_orphan _ _ Hp)|].
    by apply (live_valid None), ev_all_live.
  - intros f [Hf|[Hf _]]%(ev_stale _ _ _ _ He); [by apply (pl_stale _ _ Hp)|].
    by apply (live_valid None), ev_all_live.
  - intros p [Hf|Hf]%(ev_stale_packages _ _ _ _ He); [by apply (pl_stale_pkg _ _ Hp)|].
    by apply (pl_root_pkg _ _ Hp r).
  - intros p f (_ & Hf & Hn)%ev_listing. rewrite ev_file_package by done.
    by apply (pl_backpointer _ _ Hp).
  - intros r' f Hr' Hx (_ & Hf & Hn)%ev_script; [|done]. rewrite ev_file_package by done.
    by apply (pl_script_none _ _ Hp r').
  - intros f [Hf|[Hf _]]%(ev_orphan _ _ _ _ He); rewrite (ev_file _ _ _ _ He);
      case_decide; try done. by apply (pl_orphan_none _ _ Hp).
  - intros f [Hf|[Hf _]]%(ev_stale _ _ _ _ He); rewrite (ev_file _ _ _ _ He);
      case_decide; try done. by apply (pl_stale_none _ _ Hp).
  - intros p f. rewrite (ev_package _ _ _ _ He). case_decide; [|apply (pl_split _ _ Hp)].
    simpl. intros Hf. by apply not_elem_of_nil in Hf.
  - intros f [Hs|[Hs Ho]]%(ev_stale _ _ _ _ He) [Ho'|[Ho' Ho2]]%(ev_orphan _ _ _ _ He).
    + by apply (pl_stale_orphan _ _ Hp f).
    + by apply (ev_own_stale f).
    + by apply (ev_own_orphan f).
    + congruence.
  - intros r' f Hr' [Hs|[Hs _]]%(ev_stale _ _ _ _ He) (Hne & Hf & Hn)%ev_script; try done.
    by apply (pl_stale_script _ _ Hp r' f).
  - intros r' f Hr' [Hs|[Hs _]]%(ev_orphan _ _ _ _ He) (Hne & Hf & Hn)%ev_script; try done.
    by apply (pl_orphan_script _ _ Hp r' f).
  - intros r1 r2 p H1 H2 [_ E1]%ev_root_package [_ E2]%ev_root_package.
    by apply (pl_pkg_once _ _ Hp r1 r2 p).
  - intros r1 r2 f H1 H2 (_ & E1 & _)%ev_script (_ & E2 & _)%ev_script; try done.
    by apply (pl_script_once _ _ Hp r1 r2 f).
  - intros f g Hf%ev_live Hg%ev_live. by apply (pl_path _ _ Hp).
Qed.
End evicted.

Lemma set_root_stale_placed r editor_owned db :
  placed db → r ∈ live_list db → placed (set_root_stale r editor_owned db).
Proof. intros Hp Hr. eapply evicted_placed; [done..|by apply set_root_stale_spec]. Qed.

(** ** Folders *)

Lemma set_root_stale_live_list r editor_owned db :
  placed db → r ∈ live_list db → live_list (set_root_stale r editor_owned db) = live_list db.
Proof. intros Hp Hr. eapply ev_live_list, set_root_stale_spec; done. Qed.

Lemma evict_all_placed editor_owned rs db :
  placed db → (∀ r, r ∈ rs → r ∈ live_list db) →
  placed (evict_all editor_owned rs db) ∧ grows db (evict_all editor_owned rs db) ∧
  live_list (evict_all editor_owned rs db) = live_list db ∧
  (∀ r p, p ∈ r_packages (root (evict_all editor_owned rs db) r) → p ∈ r_packages (root db r)) ∧
  (∀ p, p_description_path (package (evict_all editor_owned rs db) p) =
        p_description_path (package db p)).
Proof.
  unfold evict_all. revert db. induction rs as [|r rs IH]; intros db Hp Hrs; simpl.
  { split_and!; done. }
  assert (Hr : r ∈ live_list db) by (apply Hrs; by left).
  assert (Hs := set_root_stale_spec r editor_owned db Hp Hr).
  destruct (IH (set_root_stale r editor_owned db)) as (H1 & H2 & H3 & H4 & H5).
  - by apply set_root_stale_placed.
  - intros r' Hr'. rewrite set_root_stale_live_list by done. apply Hrs. by right.
  - split; [done|]. split; [etrans; [by apply grows_set_root_stale|done]|].
    split; [rewrite H3; by apply set_root_stale_live_list|]. split.
    + intros r' p Hin. apply H4 in Hin. by apply (ev_root_package _ _ _ _ Hs) in Hin as [_ ?].
    + intros p. rewrite H5, (ev_package _ _ _ _ Hs). by case_decide.
Qed.

Lemma shrinks_new_root path kind db : shrinks db (new_root (mkRoot path kind [] [] []) db).1.
Proof.
  assert (Hroot : ∀ r, r_packages (root (new_root (mkRoot path kind [] [] []) db).1 r) = r_packages (root db r) ∧
    r_scripts (root (new_root (mkRoot path kind [] [] []) db).1 r) = r_scripts (root db r)).
  { intros r. unfold root, new_root; simpl. destruct (decide (r < length (roots db))).
    - by rewrite (proj1 (snoc_total _ _ r)).
    - rewrite (list_lookup_total_alt (roots db)), lookup_ge_None_2 by lia. simpl.
      destruct (decide (r = length (roots db))) as [->|].
      + by rewrite (proj2 (snoc_total (roots db) _ 0)).
      + rewrite list_lookup_total_alt, lookup_ge_None_2; [done|]. rewrite length_app. simpl. lia. }
  split; auto; try done.
  - simpl. rewrite length_app. lia.
  - intros r p. by rewrite (proj1 (Hroot r)).
  - intros r p. by rewrite (proj2 (Hroot r)).
Qed.

Lemma root_new_root d db r :
  r < length (roots db) → root (new_root d db).1 r = root db r.
Proof. intros Hr. unfold root, new_root; simpl. by apply (snoc_total (roots db) d r). Qed.

(** A root without content. *)
Definition bare (db : Db) (r : Root) : Prop :=
  r < length (roots db) ∧ r_packages (root db r) = [] ∧ r_scripts (root db r) = [].

Lemma add_workspace_roots_placed old paths w :
  placed (db w) →
  let '(w', rs, _) := add_workspace_roots old paths w in
  placed (db w') ∧ live_list (db w') = live_list (db w) ∧
  library_roots (db w') = library_roots (db w) ∧
  (∀ r, bare (db w) r → bare (db w') r) ∧
  (∀ r, r ∈ rs → (∃ p, old !! FFile p = Some r) ∨ bare (db w') r).
Proof.
  revert w. induction paths as [|p paths IH]; intros w Hp; cbn [add_workspace_roots].
  { split_and!; try done. set_solver. }
  destruct (old !! FFile p) as [r|] eqn:Hold.
  - specialize (IH w Hp). destruct (add_workspace_roots old paths w) as [[w' rs] reqs].
    destruct IH as (H1 & H2 & HB & H3 & H4). split_and!; try done.
    intros r' [->|Hr']%elem_of_cons; eauto.
  - set (d := mkRoot (FFile p) Workspace [] [] []).
    change (new_root d (db w)) with ((new_root d (db w)).1, length (roots (db w))). cbv beta iota.
    set (db1 := (new_root d (db w)).1).
    set (w1 := on_state _ _).
    assert (Hp1 : placed (db w1)).
    { eapply shrinks_placed; [apply (shrinks_new_root (FFile p) Workspace (db w))|done]. }
    specialize (IH w1 Hp1). destruct (add_workspace_roots old paths w1) as [[w' rs] reqs].
    destruct IH as (H1 & H2 & HB & H3 & H4).
    assert (Hlen : length (roots db1) = S (length (roots (db w)))).
    { unfold db1; simpl. rewrite length_app. simpl. lia. }
    split_and!; try done.
    + intros r (Hlt & E1 & E2). apply H3. change (bare db1 r). unfold bare.
      rewrite Hlen. unfold db1. rewrite root_new_root by done. split_and!; [lia|done..].
    + intros r [->|Hr]%elem_of_cons; [|by apply H4]. right. apply H3. change (bare db1 (length (roots (db w)))).
      unfold bare. rewrite Hlen. unfold root, db1; simpl. rewrite (proj2 (snoc_total (roots (db w)) d 0)).
      split_and!; [lia|done..].
Qed.

Lemma evict_workspace_db owned es w :
  db (foldl (λ w r, evict_workspace_root owned r w) w es) = evict_all (Some owned) es (db w).
Proof. unfold evict_all. revert w. induction es as [|r es IH]; intros w; simpl; [done|]. by rewrite IH. Qed.

Lemma evicted_roots_elem db rs paths r : r ∈ evicted_roots (roots_by_path db rs) paths → r ∈ rs.
Proof.
  unfold evicted_roots. intros ([p r'] & -> & Hr)%list_elem_of_fmap.
  apply list_elem_of_filter in Hr as [_ Hin]. rewrite hash_order_perm in Hin.
  by apply elem_of_map_to_list, roots_by_path_Some in Hin as [? _].
Qed.

Lemma set_workspace_paths_placed disk paths owned w :
  placed (db w) → placed (db (set_workspace_paths disk paths owned w).1).
Proof.
  intros Hp. unfold set_workspace_paths. set (new := omap abs_from_path_buf paths).
  set (old := roots_by_path (db w) (workspace_roots (db w))).
  set (es := evicted_roots old (FFile <$> new)).
  destruct (evict_all_placed (Some owned) es (db w) Hp) as (Hp1 & G1 & L1 & _ & _).
  { intros r Hr%evicted_roots_elem. apply elem_of_app. by left. }
  rewrite <-evict_workspace_db in Hp1, G1, L1. set (w1 := foldl _ w es) in *.
  pose proof (add_workspace_roots_placed old new w1 Hp1) as Ha.
  destruct (add_workspace_roots old new w1) as [[w2 rs] reqs].
  destruct Ha as (Hp2 & L2 & B2 & _ & H2). apply drain_buffered_placed.
  unfold on_db; simpl. unfold set_workspace_roots_if. case_bool_decide; [done|].
  eapply shrinks_placed; [|exact Hp2]. split; auto; try done.
  intros r [Hr|Hr]%elem_of_app; [|left; apply elem_of_app; by right].
  destruct (H2 r Hr) as [[p Hin]|Hb]; [left|right; exact Hb].
  rewrite L2, L1. apply elem_of_app. left. by apply roots_by_path_Some in Hin as [? _].
Qed.

(** ** Scans and events *)

Lemma request_rescans_db rs w : db (request_rescans rs w).1 = db w.
Proof.
  revert w. induction rs as [|r rs IH]; intros w; simpl; [done|].
  assert (Hd : db (request_rescan r w).1 = db w) by (unfold request_rescan; by repeat case_match).
  destruct (request_rescan r w) as [w1 req]. specialize (IH w1).
  destruct (request_rescans rs w1). simpl in *. congruence.
Qed.

Lemma apply_watcher_events_placed disk paths skip w :
  placed (db w) → placed (db (apply_watcher_events disk paths skip w).1).
Proof.
  intros Hp. unfold apply_watcher_events.
  pose proof (request_rescans_db (rescan_roots (workspace_root_paths (db w)) paths) w) as Hd.
  destruct (request_rescans _ w) as [w1 reqs]. apply drain_buffered_placed. simpl in *. by rewrite Hd.
Qed.

Lemma apply_scan_completed_placed disk result owned w :
  placed (db w) → (sc_root result ∈ workspace_roots (db w) → fits result (db w)) →
  placed (db (apply_scan_completed disk result owned w).1).
Proof.
  intros Hp Hfit. unfold apply_scan_completed. case_bool_decide as Hin; [|done].
  assert (Hp1 : placed (apply result (db w))).
  { apply (ap_placed result (db w)), apply_spec; [done| |auto]. apply elem_of_app. by left. }
  repeat case_match; simplify_eq/=; by apply drain_buffered_placed.
Qed.
End evict.

Section library.
Context `{HashOrder}.
Context (disk : Disk).

Definition description_of (dir : path) : FilePath := FFile (join dir DESCRIPTION).

Lemma description_of_inj d d' : description_of d = description_of d' → d = d'.
Proof. unfold description_of, join. intros [= E]. by apply (inj (.++ [DESCRIPTION])) in E. Qed.

(** Packages without files, registered below the directories [dirs]. *)
Definition registered (dirs : list path) (p : Package) (db : Db) : Prop :=
  p < length (packages db) ∧ package_listing db p = [] ∧
  ∃ d, d ∈ dirs ∧ p_description_path (package db p) = description_of d.

(** Updates after which what was registered still is. *)
Record registers (db db' : Db) : Prop := {
  rg_placed : placed db';
  rg_roots r : r < length (roots db) → r < length (roots db') ∧
    (r_packages (root db' r) = r_packages (root db r)) ∧ r_scripts (root db' r) = r_scripts (root db r);
  rg_live : live_list db' = live_list db;
  rg_library : library_roots db' = library_roots db;
  rg_packages : length (packages db) ≤ length (packages db');
  rg_description p : p < length (packages db) →
    p_description_path (package db' p) = p_description_path (package db p);
  rg_listing p : p < length (packages db) → package_listing db p = [] → package_listing db' p = [];
}.

Lemma registers_refl db : placed db → registers db db.
Proof. intros. split; auto. Qed.

Lemma registers_trans db1 db2 db3 : registers db1 db2 → registers db2 db3 → registers db1 db3.
Proof.
  intros [P1 R1 L1 B1 K1 D1 S1] [P2 R2 L2 B2 K2 D2 S2]. split; try congruence; try lia; try done.
  - intros r Hr. destruct (R1 r Hr) as (Hr1 & E1 & E2). destruct (R2 r Hr1) as (Hr2 & E3 & E4).
    split_and!; congruence.
  - intros p Hp. rewrite D2 by lia. auto.
  - intros p Hp Hl. apply S2; [lia|auto].
Qed.

Lemma registered_kept dirs p db db' : registers db db' → registered dirs p db → registered dirs p db'.
Proof.
  intros [P1 R1 L1 B1 K1 D1 S1] (Hp & Hl & d & Hd & E). split; [lia|]. split; [auto|].
  exists d. split; [done|]. by rewrite D1.
Qed.

(** One package, with no file. *)
Lemma set_package_registers y n dr nr ir db :
  placed db →
  let db' := (set_package y n dr nr ir [] [] db).1 in
  let p := (set_package y n dr nr ir [] [] db).2 in
  registers db db' ∧ p < length (packages db') ∧ package_listing db' p = [] ∧
  p_description_path (package db' p) = y.
Proof.
  intros Hp. cbn zeta.
  destruct (set_package_spec None y n dr nr ir [] [] db Hp) as (Hp1 & S1 & L1).
  { constructor. }
  { intros p r g _ _ _ Hg. by apply not_elem_of_nil in Hg. }
  destruct (set_package y n dr nr ir [] [] db) as [db1 p]. simpl in *.
  assert (Hl : package_listing db1 p = []).
  { destruct (package_listing db1 p) as [|g l] eqn:E; [done|].
    destruct (ld_listed _ _ _ L1 g) as (u & Hu & _); [rewrite E; by left|].
    by apply not_elem_of_nil in Hu. }
  split; [|split_and!; [apply L1|done|apply L1]].
  split; [done|..]; try apply S1.
  - intros r Hr. rewrite (stepped_root _ _ _ _ r S1). by rewrite (st_roots _ _ _ _ S1).
  - by apply stepped_live_list in S1.
  - intros q _ Hq. destruct (decide (q = p)) as [->|Hne]; [done|].
    destruct (package_listing db1 q) as [|g l] eqn:E; [done|].
    assert (Hg : g ∈ package_listing db q).
    { apply (st_listing _ _ _ _ S1); [set_solver|]. rewrite E. by left. }
    rewrite Hq in Hg. by apply not_elem_of_nil in Hg.
Qed.

Lemma register_installed_packages_spec dirs db :
  placed db →
  let db' := (register_installed_packages disk dirs db).1 in
  registers db db' ∧ ∀ p, p ∈ (register_installed_packages disk dirs db).2 → registered dirs p db'.
Proof.
  cbn zeta. revert db. induction dirs as [|dir dirs IH]; intros db Hp; simpl.
  { split; [by apply registers_refl|]. intros p Hin. by apply not_elem_of_nil in Hin. }
  assert (H1 : registers db (register_installed_package disk dir db).1 ∧
    ∀ p, (register_installed_package disk dir db).2 = Some p →
      registered (dir :: dirs) p (register_installed_package disk dir db).1).
  { unfold register_installed_package. destruct (is_file _ _); [|by split; [apply registers_refl|]].
    destruct (file_name dir) as [name|]; [|by split; [apply registers_refl|]].
    match goal with |- context [set_package ?y ?n ?a ?b ?c [] [] db] =>
      pose proof (set_package_registers y n a b c db Hp) as Hs;
      destruct (set_package y n a b c [] [] db) as [db1 p] end.
    simpl in *. destruct Hs as (R & Hlt & Hl & Hd). split; [done|]. intros p' [= <-].
    split; [done|]. split; [done|]. exists dir. split; [by left|done]. }
  destruct (register_installed_package disk dir db) as [db1 op]. simpl in H1.
  destruct H1 as [R1 H1]. destruct (IH db1 (rg_placed _ _ R1)) as [R2 H2].
  destruct (register_installed_packages disk dirs db1) as [db2 ps]. simpl in *.
  split; [by eapply registers_trans|]. intros p [Hp'|Hp']%elem_of_app.
  - destruct op as [q|]; simpl in Hp'; [|by apply not_elem_of_nil in Hp'].
    apply list_elem_of_singleton in Hp' as ->. by eapply registered_kept, H1.
  - destruct (H2 p Hp') as (Ha & Hb & d & Hd & E). split; [done|]. split; [done|].
    exists d. split; [by right|done].
Qed.

(** A root that was built for the library path [P]. *)
Definition built (db : Db) (P : path) (r : Root) : Prop :=
  r < length (roots db) ∧ r_scripts (root db r) = [] ∧
  ∀ p, p ∈ r_packages (root db r) → registered (d_library_dirs disk P) p db.

Lemma built_kept db db' P r : registers db db' → built db P r → built db' P r.
Proof.
  intros R (Hr & Hs & Hp). destruct (rg_roots _ _ R r Hr) as (Hr' & E1 & E2).
  split; [done|]. split; [congruence|]. rewrite E1. intros p Hin.
  eapply registered_kept; [done|auto].
Qed.

(** A write to a root that is not live. *)
Lemma placed_dead_root r ps db :
  placed db → r ∉ live_list db → r < length (roots db) →
  (∀ p, p ∈ ps → p < length (packages db)) → placed (on_root r (set_packages ps) db).
Proof.
  intros Hp Hnr Hlt Hps. set (db' := on_root r (set_packages ps) db).
  assert (Hsame : ∀ r', r' ∈ live_list db → root db' r' = root db r').
  { intros r' Hr'. unfold db'. rewrite root_on_root by done. case_decide; by subst. }
  assert (Hlive : ∀ f, live db' f → live db f).
  { intros f [(r' & Hr' & Hf)|Hf]; [left|by right]. exists r'. split; [done|].
    apply elem_of_root_listing in Hf. rewrite Hsame in Hf by done. by apply elem_of_root_listing. }
  assert (Hscripts : ∀ r', r_scripts (root db' r') = r_scripts (root db r')).
  { intros r'. unfold db'. rewrite root_on_root by done. case_decide; by subst. }
  split; try setoid_rewrite Hscripts; try apply Hp.
  - intros r' Hr'. simpl. rewrite length_alter. by apply (pl_root _ _ Hp).
  - intros r' p. unfold db'. rewrite root_on_root by done. case_decide; [apply Hps|].
    by apply (pl_root_pkg _ _ Hp r').
  - intros r1 r2 p H1 H2. rewrite !Hsame by done. by apply (pl_pkg_once _ _ Hp).
  - intros f g Hf%Hlive Hg%Hlive. by apply (pl_path _ _ Hp).
Qed.

Lemma scan_new_library_path_spec P db :
  placed db →
  let db' := (scan_new_library_path disk P db).1 in
  registers db db' ∧ built db' P (scan_new_library_path disk P db).2.
Proof.
  intros Hp. cbn zeta. unfold scan_new_library_path. set (d := mkRoot (FFile P) Library [] [] []).
  set (r := length (roots db)).
  change (new_root d db) with ((new_root d db).1, r). cbv beta iota.
  set (db1 := (new_root d db).1).
  assert (Hlen : length (roots db1) = S r) by (unfold db1; simpl; rewrite length_app; simpl; lia).
  assert (R1 : registers db db1).
  { split; try done.
    - eapply shrinks_placed; [apply (shrinks_new_root (FFile P) Library db)|done].
    - intros r' Hr'. rewrite Hlen. unfold db1. rewrite root_new_root by done.
      split_and!; [unfold r; lia|done..]. }
  assert (Hbare : bare db1 r).
  { unfold bare. rewrite Hlen. unfold root, db1; simpl. unfold r.
    rewrite (proj2 (snoc_total (roots db) d 0)). split_and!; [lia|done..]. }
  destruct (register_installed_packages_spec (d_library_dirs disk P) db1 (rg_placed _ _ R1)) as [R2 H2].
  destruct (register_installed_packages disk _ db1) as [db2 ps]. cbn [fst snd] in R2, H2 |- *.
  clearbody db1. destruct (rg_roots _ _ R2 r) as (Hlt2 & E1 & E2); [lia|].
  assert (Hdead : r ∉ live_list db2).
  { rewrite (rg_live _ _ R2), (rg_live _ _ R1). intros Hin%(pl_root _ _ Hp). unfold r in Hin. lia. }
  set (db3 := on_root r (set_packages ps) db2).
  assert (Hp3 : placed db3).
  { apply placed_dead_root; [apply R2|done|done|]. intros p Hin. by apply H2. }
  assert (R12 := registers_trans _ _ _ R1 R2). split.
  - split; try apply R12; [done|]. intros r' Hr'. destruct (rg_roots _ _ R12 r' Hr') as (Hr2 & E3 & E4).
    unfold db3. rewrite root_on_root, decide_False by (done || unfold r; lia). split; [|done].
    simpl. by rewrite length_alter.
  - unfold built, db3. rewrite root_on_root, decide_True by done. simpl. rewrite length_alter.
    split; [done|]. split; [by rewrite E2; apply Hbare|]. intros p Hin. by apply H2.
Qed.

Lemma build_library_roots_spec old paths db :
  placed db →
  let db' := (build_library_roots disk old paths db).1 in
  registers db db' ∧
  Forall2 (λ P r, old !! FFile P = Some r ∨ old !! FFile P = None ∧ built db' P r)
    paths (build_library_roots disk old paths db).2.
Proof.
  cbn zeta. revert db. induction paths as [|P paths IH]; intros db Hp; cbn [build_library_roots].
  { split; [by apply registers_refl|constructor]. }
  assert (H1 : ∃ db1 r, match old !! FFile P with Some r => (db, r)
      | None => scan_new_library_path disk P db end = (db1, r) ∧ registers db db1 ∧
      (old !! FFile P = Some r ∨ old !! FFile P = None ∧ built db1 P r)).
  { destruct (old !! FFile P) as [r|]; [exists db, r; split_and!; [done|by apply registers_refl|by left]|].
    pose proof (scan_new_library_path_spec P db Hp) as Hs.
    destruct (scan_new_library_path disk P db) as [db1 r]. simpl in Hs. exists db1, r. split; [done|].
    split; [apply Hs|right]. split; [done|apply Hs]. }
  destruct H1 as (db1 & r & -> & R1 & H1).
  destruct (IH db1 (rg_placed _ _ R1)) as [R2 H2].
  destruct (build_library_roots disk old paths db1) as [db2 rs]. simpl in *.
  split; [by eapply registers_trans|]. constructor; [|done].
  destruct H1 as [?|[? Hb]]; [by left|right]. split; [done|by eapply built_kept].
Qed.

(** The new library paths hold packages of their own. *)
Record lib_fits (paths : list PathBuf) (db : Db) : Prop := {
  lf_once i j P Q d :
    omap abs_from_path_buf paths !! i = Some P → omap abs_from_path_buf paths !! j = Some Q →
    roots_by_path db (library_roots db) !! FFile P = None →
    roots_by_path db (library_roots db) !! FFile Q = None →
    d ∈ d_library_dirs disk P → d ∈ d_library_dirs disk Q → i = j;
  lf_apart r p P d : r ∈ live_list db → p ∈ r_packages (root db r) →
    P ∈ omap abs_from_path_buf paths → roots_by_path db (library_roots db) !! FFile P = None →
    d ∈ d_library_dirs disk P → p_description_path (package db p) ≠ description_of d;
}.

Lemma set_library_paths_placed paths db :
  placed db → lib_fits paths db → placed (set_library_paths disk paths db).
Proof.
  intros Hp Hfit. unfold set_library_paths. set (new := omap abs_from_path_buf paths).
  set (old := roots_by_path db (library_roots db)).
  assert (Hold : ∀ P r, old !! P = Some r → r ∈ live_list db).
  { intros P r [Hr _]%roots_by_path_Some. apply elem_of_app. by right. }
  destruct (evict_all_placed None (evicted_roots old (FFile <$> new)) db Hp)
    as (Hp1 & G1 & L1 & K1 & D1).
  { intros r Hr%evicted_roots_elem. apply elem_of_app. by right. }
  set (db1 := evict_all None _ db) in *.
  destruct (build_library_roots_spec old new db1 Hp1) as [R2 F2].
  destruct (build_library_roots disk old new db1) as [db2 rs]. simpl in *.
  unfold set_library_roots_if. case_bool_decide; [apply R2|].
  assert (Hp2 := rg_placed _ _ R2). assert (L2 := rg_live _ _ R2).
  assert (Hclass : ∀ r, r ∈ workspace_roots db2 ++ rs → r ∈ live_list db2 ∨
    ∃ i P, new !! i = Some P ∧ rs !! i = Some r ∧ old !! FFile P = None ∧ built db2 P r).
  { intros r [Hr|Hr]%elem_of_app; [left; apply elem_of_app; by left|].
    apply list_elem_of_lookup in Hr as [i Hi].
    destruct (Forall2_lookup_r _ _ _ _ _ F2 Hi) as (P & HP & [Ho|[Ho Hb]]).
    - left. rewrite L2, L1. by eapply Hold.
    - right. eauto 10. }
  assert (Hlivepkg : ∀ r p, r ∈ live_list db2 → p ∈ r_packages (root db2 r) →
    r ∈ live_list db ∧ p ∈ r_packages (root db r) ∧
    p_description_path (package db2 p) = p_description_path (package db p)).
  { intros r p Hr Hin. rewrite L2 in Hr. assert (Hlt := pl_root _ _ Hp1 r Hr).
    destruct (rg_roots _ _ R2 r Hlt) as (_ & E & _). rewrite E in Hin.
    split; [by rewrite <-L1|]. split; [by apply K1|].
    rewrite (rg_description _ _ R2), D1; [done|]. by apply (pl_root_pkg _ _ Hp1 r). }
  assert (Hapart : ∀ r p i P, r ∈ live_list db2 → p ∈ r_packages (root db2 r) →
    new !! i = Some P → old !! FFile P = None → ¬ registered (d_library_dirs disk P) p db2).
  { intros r p i P Hr Hin HP Ho (_ & _ & d & Hd & E). destruct (Hlivepkg r p Hr Hin) as (A & B & C).
    apply (lf_apart _ _ Hfit r p P d); try done; [by eapply list_elem_of_lookup_2|congruence]. }
  set (db3 := set_library_roots rs db2).
  assert (Hempty : ∀ r f, (∃ P, built db2 P r) → f ∉ root_listing db2 r).
  { intros r f (P & _ & Hs & Hpk) [Hf|(p & Hin & Hf)]%elem_of_root_listing.
    - rewrite Hs in Hf. by apply not_elem_of_nil in Hf.
    - destruct (Hpk p Hin) as (_ & E & _). rewrite E in Hf. by apply not_elem_of_nil in Hf. }
  assert (Hscript : ∀ r f, r ∈ live_list db3 → f ∈ r_scripts (root db2 r) → r ∈ live_list db2).
  { intros r f [Hr|(i & P & _ & _ & _ & Hb)]%Hclass Hf; [done|]. destruct (Hempty r f); [by exists P|].
    apply elem_of_root_listing. by left. }
  assert (Hlive : ∀ f, live db3 f → live db2 f).
  { intros f [(r & [Hr|(i & P & _ & _ & _ & Hb)]%Hclass & Hf)|Hf]; [left; by exists r| |by right].
    destruct (Hempty r f); [by exists P|done]. }
  split; try apply Hp2.
  - intros r [Hr|(i & P & _ & _ & _ & Hb)]%Hclass; [by apply (pl_root _ _ Hp2)|apply Hb].
  - intros r f Hr Hx Hf. apply (pl_script_none _ _ Hp2 r); [by eapply Hscript|done..].
  - intros r f Hr Hst Hf. apply (pl_stale_script _ _ Hp2 r f); [by eapply Hscript|done..].
  - intros r f Hr Hst Hf. apply (pl_orphan_script _ _ Hp2 r f); [by eapply Hscript|done..].
  - intros r r' p [Hr|(i & P & HP & Hi & Ho & Hb)]%Hclass [Hr'|(j & Q & HQ & Hj & Ho' & Hb')]%Hclass E1 E2.
    + by apply (pl_pkg_once _ _ Hp2 r r' p).
    + destruct (Hapart r p j Q Hr E1 HQ Ho'). by apply Hb'.
    + destruct (Hapart r' p i P Hr' E2 HP Ho). by apply Hb.
    + apply Hb in E1 as (_ & _ & d & Hd & E1). apply Hb' in E2 as (_ & _ & d' & Hd' & E2).
      rewrite E1 in E2. apply description_of_inj in E2 as <-.
      assert (i = j) as -> by by eapply lf_once. congruence.
  - intros r r' f Hr Hr' E1 E2. apply (pl_script_once _ _ Hp2 r r' f); [by eapply Hscript..|done|done].
  - intros f g Hf%Hlive Hg%Hlive. by apply (pl_path _ _ Hp2).
Qed.
End library.
