(* ===== verification/PlacementTheorems.v ===== *)
(** * Theorems on the inputs of the database

    The placement invariant over every sequence of updates, what a scan
    registers, and what the editor registers. *)

From S2P Require Export PlacementEvict OakDemo.

Section theorems.
Context `{HashOrder}.

(** The updates of the main loop. A scan result, or the packages of new
    library paths, must not claim paths of another live root. *)
Inductive tidy_step : World → World → Prop :=
| tidy_scan disk result owned w :
    (sc_root result ∈ workspace_roots (db w) → fits result (db w)) →
    tidy_step w (apply_scan_completed disk result owned w).1
| tidy_workspace disk paths owned w : tidy_step w (set_workspace_paths disk paths owned w).1
| tidy_watcher disk paths skip w : tidy_step w (apply_watcher_events disk paths skip w).1
| tidy_open fp contents w : tidy_step w (on_db (λ db, (upsert_editor fp contents db).1) w)
| tidy_close fp w : tidy_step w (on_db (close_editor fp) w)
| tidy_library disk paths w :
    lib_fits disk paths (db w) → tidy_step w (on_db (set_library_paths disk paths) w).

Lemma new_db_placed : placed new_db.
Proof.
  split; unfold live_list, package_listing, package, root; simpl; try set_solver.
  - intros f g [(r & Hr & _)|Hf]; [by apply not_elem_of_nil in Hr|set_solver].
Qed.

Lemma tidy_step_placed w w' : tidy_step w w' → placed (db w) → placed (db w').
Proof.
  destruct 1; intros Hp.
  - by apply apply_scan_completed_placed.
  - by apply set_workspace_paths_placed.
  - by apply apply_watcher_events_placed.
  - by apply upsert_editor_placed.
  - by apply close_editor_placed.
  - by apply set_library_paths_placed.
Qed.

Lemma tidy_placed w : rtc tidy_step empty_world w → placed (db w).
Proof.
  intros Hr. assert (Hi : placed (db empty_world)) by apply new_db_placed.
  revert Hi. induction Hr; [done|]. intros Hi. eapply IHHr, tidy_step_placed; done.
Qed.

(** C4. However scans, folder changes, file events, library changes and
    editor events interleave, the database keeps its files in their places: a
    live file is the answer of [file_by_path] at its path, so no path has two;
    a file a package lists points back to that package, and a script or orphan
    to none; a package has its files and scripts apart; a stale file is not
    live; and no two live roots share a package or a script. *)
Theorem placement_invariant w :
  rtc tidy_step empty_world w →
  (∀ f, live (db w) f → file_by_path (db w) (f_path (file (db w) f)) = Some f) ∧
  (∀ p f, f ∈ package_listing (db w) p → f_package (file (db w) f) = Some p) ∧
  (∀ r f, r ∈ live_list (db w) → f ∈ r_scripts (root (db w) r) → f_package (file (db w) f) = None) ∧
  (∀ f, f ∈ orphan_files (db w) → f_package (file (db w) f) = None ∧
     ∀ r, r ∈ live_list (db w) → f ∉ root_listing (db w) r) ∧
  (∀ p f, f ∈ p_files (package (db w) p) → f ∉ p_scripts (package (db w) p)) ∧
  (∀ f, f ∈ stale_files (db w) → ¬ live (db w) f) ∧
  (∀ r r', r ∈ live_list (db w) → r' ∈ live_list (db w) → r ≠ r' →
     r_packages (root (db w) r) ## r_packages (root (db w) r') ∧
     r_scripts (root (db w) r) ## r_scripts (root (db w) r')).
Proof.
  intros Hp%tidy_placed. split_and!.
  - intros f Hf. by apply (file_by_path_live None).
  - apply (pl_backpointer _ _ Hp).
  - intros r f Hr. by apply (pl_script_none _ _ Hp).
  - intros f Hf. split; [by apply (pl_orphan_none _ _ Hp)|]. intros r Hr Hin.
    by apply (ev_own_orphan r (db w) Hp Hr f).
  - apply (pl_split _ _ Hp).
  - intros f Hf Hl. by apply (live_not_stale None (db w) f).
  - intros r r' Hr Hr' Hne. split; intros a H1 H2; apply Hne.
    + by apply (pl_pkg_once _ _ Hp r r' a).
    + by apply (pl_script_once _ _ Hp r r' a).
Qed.

(** A scan is registered in full. After [apply] of a result whose paths
    are its own, every path of a package entry finds a file that belongs to a
    package of the scanned root with the description path of the entry, every
    script finds a file of the root that belongs to none, and the root has no
    other package or script. *)
Theorem apply_registers_scan result db :
  placed db → sc_root result ∈ live_list db → fits result db →
  (∀ y, y ∈ sc_packages result ≫= entry_paths → y ∉ fe_path <$> sc_scripts result) →
  let db' := apply result db in
  let r := sc_root result in
  (∀ e entry, e ∈ sc_packages result → entry ∈ pe_files e ++ pe_scripts e →
     ∃ f p, file_by_path db' (fe_path entry) = Some f ∧ f_package (file db' f) = Some p ∧
       p ∈ r_packages (root db' r) ∧ p_description_path (package db' p) = pe_description_path e) ∧
  (∀ entry, entry ∈ sc_scripts result →
     ∃ f, file_by_path db' (fe_path entry) = Some f ∧ f_package (file db' f) = None ∧
       f ∈ r_scripts (root db' r)) ∧
  (λ p, p_description_path (package db' p)) <$> r_packages (root db' r) =
    pe_description_path <$> sc_packages result ∧
  (λ f, f_path (file db' f)) <$> r_scripts (root db' r) = fe_path <$> sc_scripts result.
Proof.
  intros Hp Hr Hf Hapart. cbn zeta. destruct (apply_spec result db Hp Hr Hf) as [Hp' L' HP HL HS].
  specialize (HL Hapart). set (db' := apply result db) in *. set (r := sc_root result) in *.
  assert (Hr' : r ∈ live_list db') by by rewrite L'. split_and!.
  - intros e entry He Hin. apply list_elem_of_lookup in He as [i Hi].
    destruct (Forall2_lookup_l _ _ _ _ _ HL Hi) as (p & Hp1 & Hy).
    assert (Hd := Forall2_lookup_lr _ _ _ _ _ _ HP Hi Hp1).
    apply list_elem_of_lookup_2 in Hp1.
    destruct (Hy (fe_path entry)) as (f & Hfl & Hs); [by apply list_elem_of_fmap_2|].
    exists f, p. split; [|split; [apply Hs|done]].
    rewrite <-(se_path _ _ _ _ Hs). apply (file_by_path_live None); [done|].
    left. exists r. split; [done|]. apply elem_of_root_listing. eauto.
  - intros entry Hin. apply list_elem_of_lookup in Hin as [i Hi].
    destruct (Forall2_lookup_l _ _ _ _ _ HS Hi) as (f & Hf1 & Hs).
    apply list_elem_of_lookup_2 in Hf1. exists f. split; [|split; [apply Hs|done]].
    rewrite <-(se_path _ _ _ _ Hs). apply (file_by_path_live None); [done|].
    left. exists r. split; [done|]. apply elem_of_root_listing. by left.
  - clear -HP. induction HP as [|e p es ps Hd _ IH]; [done|]. simpl. by f_equal.
  - clear -HS. induction HS as [|e f es fs Hs _ IH]; [done|]. simpl. f_equal; [apply Hs|done].
Qed.

Lemma add_to_orphan_files_spec f db :
  f ∈ orphan_files (add_to_orphan_files f db) ∧ files (add_to_orphan_files f db) = files db.
Proof. unfold add_to_orphan_files, with_cow_insert. case_bool_decide; simpl; split; set_solver. Qed.

Lemma on_file_live f g db h : live (on_file f g db) h ↔ live db h.
Proof. done. Qed.

Lemma upsert_editor_spec fp contents db :
  placed db →
  let db' := (upsert_editor fp contents db).1 in
  let f := (upsert_editor fp contents db).2 in
  live db' f ∧ f_path (file db' f) = fp ∧ f_override (file db' f) = Some contents ∧
  (∀ g, g < length (files db) → g ≠ f → file db' g = file db g).
Proof.
  intros Hp. cbn zeta. unfold upsert_editor. pose proof (file_by_path_spec db fp) as Hs.
  destruct (file_by_path db fp) as [f|]; [|destruct (stale_file_by_path db fp) as [f|] eqn:E].
  - destruct Hs as [Hf Hfp]. assert (Hlt := live_valid None _ _ Hp Hf). cbn [fst snd].
    rewrite file_on_file, decide_True by done. split_and!; [by apply on_file_live|done|done|].
    intros g _ Hne. by rewrite file_on_file, decide_False.
  - apply stale_file_by_path_Some in E as [Hst Hfp]. assert (Hlt := pl_stale _ _ Hp _ Hst).
    cbn [fst snd]. set (db1 := on_file f _ db). set (db2 := on_file f (set_file_package None) db1).
    assert (Hfiles : files (add_to_orphan_files f (remove_from_stale_files f db2)) = files db2).
    { rewrite (proj2 (add_to_orphan_files_spec _ _)).
      by destruct (remove_from_stale_files_eq f db2) as [->|[s ->]]. }
    assert (Hfile : ∀ g, file (add_to_orphan_files f (remove_from_stale_files f db2)) g =
      if decide (g = f) then set_file_package None (set_source_text_override (Some contents) (file db f))
      else file db g).
    { intros g. unfold file at 1. rewrite Hfiles. change (files db2 !!! g) with (file db2 g).
      assert (Hlt1 : f < length (files db1)) by (unfold db1; simpl; by rewrite length_alter).
      unfold db2. rewrite file_on_file by done. unfold db1. rewrite !file_on_file by done.
      by repeat case_decide. }
    rewrite Hfile, decide_True by done. split_and!; [|done|done|].
    + right. apply add_to_orphan_files_spec.
    + intros g _ Hne. by rewrite Hfile, decide_False.
  - set (d := mkFile fp 0 (Some contents) None).
    change (new_file d db) with ((new_file d db).1, length (files db)). cbn [fst snd].
    assert (Hfile : ∀ g, file (add_to_orphan_files (length (files db)) (new_file d db).1) g =
      if decide (g = length (files db)) then d else file db g).
    { intros g. rewrite <-file_new_file. unfold file.
      by rewrite (proj2 (add_to_orphan_files_spec _ _)). }
    rewrite Hfile, decide_True by done. split_and!; [|done|done|].
    + right. apply add_to_orphan_files_spec.
    + intros g _ Hne. by rewrite Hfile, decide_False.
Qed.

Lemma close_editor_files fp db f :
  file_by_path db fp = Some f →
  files (close_editor fp db) = files (on_file f (set_source_text_override None) db).
Proof. intros Hf. unfold close_editor. rewrite Hf. by repeat case_match. Qed.

(** Opening a buffer registers it: [file_by_path] answers the file
    [upsert_editor] returns, which has the contents of the buffer and the path
    asked for; no other file changes. Closing it takes the contents back. *)
Theorem upsert_editor_registers fp contents db :
  placed db →
  let db' := (upsert_editor fp contents db).1 in
  let f := (upsert_editor fp contents db).2 in
  file_by_path db' fp = Some f ∧ f_path (file db' f) = fp ∧
  f_override (file db' f) = Some contents ∧
  (∀ g, g < length (files db) → g ≠ f → file db' g = file db g) ∧
  f_override (file (close_editor fp db') f) = None ∧
  (∀ g, g < length (files db) → g ≠ f → file (close_editor fp db') g = file db g).
Proof.
  intros Hp. cbn zeta. destruct (upsert_editor_spec fp contents db Hp) as (Hl & Hfp & Ho & Hg).
  assert (Hp' := upsert_editor_placed fp contents db Hp).
  assert (Hgrow := grows_files _ _ (grows_upsert_editor db fp contents db (reflexivity db))).
  set (db' := (upsert_editor fp contents db).1) in *. set (f := (upsert_editor fp contents db).2) in *.
  assert (Hlt := live_valid None _ _ Hp' Hl).
  assert (Hfind : file_by_path db' fp = Some f) by by rewrite <-Hfp; apply (file_by_path_live None).
  assert (Hclosed : ∀ g, file (close_editor fp db') g =
    if decide (g = f) then set_source_text_override None (file db' f) else file db' g).
  { intros g. rewrite <-file_on_file by done. unfold file. by rewrite (close_editor_files _ _ f). }
  split_and!; try done.
  - by rewrite Hclosed, decide_True.
  - intros g Hlg Hne. rewrite Hclosed, decide_False by done. auto.
Qed.
End theorems.

(** ** Witnesses *)

#[local] Existing Instance element_order.

(** A package inside a package breaks the invariant on the first scan: the
    files of the inner package are scripts of the outer one too, and as the
    second package is registered before the root lists the first, one path
    gets two live files with different owners. *)
Theorem nested_package_doubles :
  ∃ f g, f ≠ g ∧ live (db (scanned nested_disk)) f ∧ live (db (scanned nested_disk)) g ∧
    f_path (file (db (scanned nested_disk)) f) = f_path (file (db (scanned nested_disk)) g) ∧
    f_package (file (db (scanned nested_disk)) f) ≠ f_package (file (db (scanned nested_disk)) g).
Proof.
  exists 1, 2. split; [done|].
  split; [left; exists 0; split; apply (bool_decide_unpack _); vm_compute; exact I|].
  split; [left; exists 0; split; apply (bool_decide_unpack _); vm_compute; exact I|].
  split; apply (bool_decide_unpack _); vm_compute; exact I.
Qed.

(** With one folder open inside another, both roots list the package
    they share. Closing the outer folder empties it for the inner one as well:
    the inner root is live, idle and still lists the package, and its file is
    no longer found. *)
Theorem outer_folder_takes_files :
  let fp := FFile (at_path ["w"; "p"; "R"; "a.R"]%string) in
  is_Some (file_by_path (db both_scanned) fp) ∧
  r_packages (root (db both_scanned) 0) = r_packages (root (db both_scanned) 1) ∧
  workspace_roots (db outer_closed) = [1] ∧ has_pending_scans outer_closed = false ∧
  r_packages (root (db outer_closed) 1) = r_packages (root (db both_scanned) 1) ∧
  r_packages (root (db outer_closed) 1) ≠ [] ∧
  file_by_path (db outer_closed) fp = None.
Proof.
  cbn zeta. split_and!; try (apply (bool_decide_unpack _); vm_compute; exact I).
Qed.

(** An installed package that comes back after an upgrade is the same
    entity with the new revisions of its [DESCRIPTION] and [NAMESPACE], but
    with the old revision of its [INDEX]. *)
Theorem upgrade_keeps_index_revision :
  let p := package upgraded 0 in
  library_roots upgraded = [1] ∧ r_packages (root upgraded 1) = [0] ∧
  p_description_revision p = 2%N ∧ p_namespace_revision p = 2%N ∧ p_index_revision p = Some 1%N.
Proof. cbn zeta. split_and!; vm_compute; reflexivity. Qed.

Lemma opened_reached disk : rtc tidy_step empty_world (opened disk).
Proof. apply rtc_once. apply (tidy_workspace disk folder ∅ empty_world). Qed.

Lemma opened_live_list : live_list (db (opened plain_disk)) = [0].
Proof. vm_compute. reflexivity. Qed.

Lemma plain_fits : fits (run_scan plain_disk first_scan) (db (opened plain_disk)).
Proof.
  split; rewrite ?opened_live_list.
  - apply (bool_decide_unpack _). vm_compute. done.
  - apply (bool_decide_unpack _). vm_compute. done.
  - apply (bool_decide_unpack _). vm_compute. done.
  - intros r p Hr%list_elem_of_singleton Hne. by destruct Hne.
  - intros r p Hr%list_elem_of_singleton Hne. by destruct Hne.
Qed.

Lemma plain_reached : rtc tidy_step empty_world (scanned plain_disk).
Proof.
  eapply rtc_r; [apply opened_reached|].
  apply (tidy_scan plain_disk (run_scan plain_disk first_scan) ∅ (opened plain_disk)).
  intros _. apply plain_fits.
Qed.

Lemma placement_invariant_witness :
  rtc tidy_step empty_world (scanned plain_disk) ∧
  file_by_path (db (scanned plain_disk)) (f_path (file (db (scanned plain_disk)) 1)) = Some 1.
Proof.
  split; [exact plain_reached|].
  apply (proj1 (placement_invariant (scanned plain_disk) plain_reached)).
  left. exists 0. split; apply (bool_decide_unpack _); vm_compute; exact I.
Defined.

Lemma apply_registers_scan_witness :
  fits (run_scan plain_disk first_scan) (db (opened plain_disk)) ∧
  (λ f, f_path (file (apply (run_scan plain_disk first_scan) (db (opened plain_disk))) f)) <$>
    r_scripts (root (apply (run_scan plain_disk first_scan) (db (opened plain_disk))) 0) =
  [FFile (at_path ["w"; "s.R"]%string)].
Proof.
  split; [exact plain_fits|].
  assert (Hp : placed (db (opened plain_disk))) by apply tidy_placed, opened_reached.
  assert (Hl : 0 ∈ live_list (db (opened plain_disk))) by by rewrite opened_live_list; left.
  assert (Ha : ∀ y, y ∈ sc_packages (run_scan plain_disk first_scan) ≫= entry_paths →
    y ∉ fe_path <$> sc_scripts (run_scan plain_disk first_scan)).
  { apply Forall_forall. apply (bool_decide_unpack _). vm_compute. exact I. }
  etrans; [apply (apply_registers_scan (run_scan plain_disk first_scan) (db (opened plain_disk))
    Hp Hl plain_fits Ha)|]. vm_compute. reflexivity.
Defined.

Lemma upsert_editor_registers_witness :
  placed (db (scanned plain_disk)) ∧
  file_by_path (upsert_editor (FFile (at_path ["w"; "s.R"]%string)) (text_of "1")
    (db (scanned plain_disk))).1 (FFile (at_path ["w"; "s.R"]%string)) = Some 1.
Proof.
  assert (Hp : placed (db (scanned plain_disk))) by apply tidy_placed, plain_reached.
  split; [exact Hp|].
  etrans; [apply (upsert_editor_registers (FFile (at_path ["w"; "s.R"]%string)) (text_of "1") _ Hp)|].
  vm_compute. reflexivity.
Defined.
