(* ===== verification/SchedulerTheorems.v ===== *)
(** * Theorems on the scan scheduler

    The scheduler in its environment: the driver runs the scans it asks for in
    any order, while folders change, files change on disk and buffers open and
    close. *)

From S2P Require Export Placement OakDemo.

Section system.
Context `{HashOrder}.

(** The world of the main loop, and the scans in flight. *)
Record System := mkSystem { world : World; inflight : list ScanRequest }.

Definition init : System := mkSystem (mkWorld new_scheduler new_db) [].

(** The scan of one request in flight completes, with any result. *)
Inductive complete : System → System → Prop :=
| complete_intro disk result editor_owned w l1 req l2 :
    sc_root result = rq_root req →
    complete (mkSystem w (l1 ++ req :: l2))
      (mkSystem (apply_scan_completed disk result editor_owned w).1
        (l1 ++ l2 ++ (apply_scan_completed disk result editor_owned w).2)).

Inductive step : System → System → Prop :=
| step_complete s s' : complete s s' → step s s'
| step_workspace disk paths editor_owned w l :
    step (mkSystem w l)
      (mkSystem (set_workspace_paths disk paths editor_owned w).1
        (l ++ (set_workspace_paths disk paths editor_owned w).2))
| step_watcher disk paths skip w l :
    step (mkSystem w l)
      (mkSystem (apply_watcher_events disk paths skip w).1
        (l ++ (apply_watcher_events disk paths skip w).2))
| step_open fp contents w l :
    step (mkSystem w l) (mkSystem (on_db (λ db, (upsert_editor fp contents db).1) w) l)
| step_close fp w l : step (mkSystem w l) (mkSystem (on_db (close_editor fp) w) l)
| step_library disk paths w l :
    step (mkSystem w l) (mkSystem (on_db (set_library_paths disk paths) w) l).

Definition reachable (s : System) : Prop := rtc step init s.

(** ** Scans in flight *)

Definition count (r : Root) (l : list ScanRequest) : nat :=
  length (filter (λ q, rq_root q = r) l).

Lemma count_app r l1 l2 : count r (l1 ++ l2) = count r l1 + count r l2.
Proof. unfold count. by rewrite filter_app, length_app. Qed.

Lemma count_cons r q l : count r (q :: l) = (if decide (rq_root q = r) then 1 else 0) + count r l.
Proof.
  unfold count. case_decide; [by rewrite filter_cons_True|by rewrite filter_cons_False].
Qed.

Lemma count_elem q l : q ∈ l → 0 < count (rq_root q) l.
Proof.
  intros Hq. unfold count. assert (Hf : q ∈ filter (λ q', rq_root q' = rq_root q) l).
  { by apply list_elem_of_filter. }
  destruct (filter _ l); [by apply not_elem_of_nil in Hf|simpl; lia].
Qed.

Lemma count_exists r l : 0 < count r l → ∃ q, q ∈ l ∧ rq_root q = r.
Proof.
  unfold count. destruct (filter (λ q, rq_root q = r) l) as [|q qs] eqn:Hf; simpl; [lia|].
  assert (Hq : q ∈ filter (λ q, rq_root q = r) l) by (rewrite Hf; by left).
  apply list_elem_of_filter in Hq as [??]. eauto.
Qed.

(** The scheduler's bookkeeping is right for the roots in [L]. *)
Record tracked (L : list Root) (w : World) (l : list ScanRequest) : Prop := {
  tr_live r : r ∈ L → r < length (roots (db w)) ∧ is_Some (as_path (r_path (root (db w) r)));
  tr_pending r : is_Some (state (sched w) !! r) → count r l = 1;
  tr_idle r : r ∈ L → state (sched w) !! r = None → count r l = 0;
  tr_once r : count r l ≤ 1;
  tr_valid q : q ∈ l → rq_root q < length (roots (db w));
}.

Lemma tracked_subset L L' w l : (∀ r, r ∈ L' → r ∈ L) → tracked L w l → tracked L' w l.
Proof. intros Hsub []. split; auto. Qed.

(** An update of the database that keeps the roots. *)
Lemma tracked_grows L w w' l :
  tracked L w l → grows (db w) (db w') → state (sched w') = state (sched w) → tracked L w' l.
Proof.
  intros [T1 T2 T3 T4 T5] [_ G _ _] Hs. split; rewrite ?Hs; auto.
  - intros r Hr. destruct (T1 r Hr) as [Hlt Hp]. destruct (G r Hlt) as [? ->]. done.
  - intros q Hq. by apply G, T5.
Qed.

(** Starting a scan of an idle root. *)
Lemma tracked_start L w l r p :
  tracked L w l → r < length (roots (db w)) → count r l = 0 →
  tracked L (on_state <[r := Scanning]> w) (l ++ [mkRequest r p]).
Proof.
  intros [T1 T2 T3 T4 T5] Hr Hc.
  assert (Hn : ∀ r', count r' (l ++ [mkRequest r p]) = count r' l + (if decide (r = r') then 1 else 0)).
  { intros r'. rewrite count_app, count_cons. change (count r' []) with 0.
    change (rq_root (mkRequest r p)) with r. repeat case_decide; lia || done. }
  split; simpl.
  - done.
  - intros r'. rewrite Hn. destruct (decide (r = r')) as [<-|]; [lia|].
    rewrite lookup_insert_ne by done. intros ?%T2. lia.
  - intros r' Hr'. rewrite Hn. destruct (decide (r = r')) as [<-|]; [by rewrite lookup_insert_eq|].
    rewrite lookup_insert_ne by done. intros ?%T3; [lia|done].
  - intros r'. rewrite Hn. specialize (T4 r'). case_decide; subst; lia.
  - intros q [Hq|Hq%list_elem_of_singleton]%elem_of_app; [by apply T5|by subst q].
Qed.

(** Marking a pending root. *)
Lemma tracked_mark L w l r s :
  tracked L w l → is_Some (state (sched w) !! r) → tracked L (on_state <[r := s]> w) l.
Proof.
  intros [T1 T2 T3 T4 T5] Hr. split; simpl; try done.
  - intros r'. destruct (decide (r = r')) as [<-|]; [by auto|]. rewrite lookup_insert_ne by done. auto.
  - intros r' Hr'. destruct (decide (r = r')) as [<-|]; [by rewrite lookup_insert_eq|].
    rewrite lookup_insert_ne by done. auto.
Qed.

(** Forgetting roots. *)
Lemma tracked_forget L w l r :
  tracked L w l → tracked (filter (λ r', r' ≠ r) L) (on_state (delete r) w) l.
Proof.
  intros [T1 T2 T3 T4 T5]. split; simpl; try done.
  - intros r' [_ ?]%list_elem_of_filter. auto.
  - intros r' Hr'. apply T2. destruct (decide (r = r')) as [<-|].
    + rewrite lookup_delete_eq in Hr'. by destruct Hr'.
    + by rewrite lookup_delete_ne in Hr'.
  - intros r' [? ?]%list_elem_of_filter. rewrite lookup_delete_ne by done. auto.
Qed.

(** Taking a scan out of flight. *)
Lemma tracked_complete L w l1 q l2 :
  tracked L w (l1 ++ q :: l2) → tracked L (on_state (delete (rq_root q)) w) (l1 ++ l2).
Proof.
  intros [T1 T2 T3 T4 T5].
  assert (Hn : ∀ r, count r (l1 ++ q :: l2) =
    count r (l1 ++ l2) + (if decide (rq_root q = r) then 1 else 0)).
  { intros r. rewrite !count_app, count_cons. lia. }
  split; simpl.
  - done.
  - intros r Hr. destruct (decide (rq_root q = r)) as [<-|].
    + rewrite lookup_delete_eq in Hr. by destruct Hr.
    + rewrite lookup_delete_ne in Hr by done. apply T2 in Hr. rewrite Hn in Hr.
      rewrite decide_False in Hr by done. lia.
  - intros r Hr Hs. specialize (T4 r). rewrite Hn in T4.
    destruct (decide (rq_root q = r)) as [<-|]; [lia|].
    rewrite lookup_delete_ne in Hs by done. apply T3 in Hs; [|done]. rewrite Hn in Hs. lia.
  - intros r. specialize (T4 r). rewrite Hn in T4. lia.
  - intros q' Hq'. apply T5. set_solver.
Qed.

(** ** Buffered paths *)

(** A root around the path has a scan in flight. *)
Definition blocked_in (rs : list (path * Root)) (pending : gmap Root ScanState) (fp : FilePath)
    : bool :=
  match as_path fp with
  | None => false
  | Some fs_path =>
      existsb (λ '(_, r), bool_decide (is_Some (pending !! r))) (containing_roots rs fs_path)
  end.

Definition blocked (w : World) (fp : FilePath) : bool :=
  blocked_in (workspace_root_paths (db w)) (state (sched w)) fp.

(** Draining keeps the blocked paths, in order. *)
Lemma drain_paths_kept disk owned rs pending paths db :
  (drain_paths disk owned rs pending paths db).1 =
  filter (λ fp, blocked_in rs pending fp = true) paths.
Proof.
  revert db. induction paths as [|fp paths IH]; intros db; cbn [drain_paths]; [done|].
  assert (Hk : (drain_path disk owned rs pending fp db).1 = blocked_in rs pending fp).
  { unfold drain_path, blocked_in. destruct (as_path fp) as [p|]; [|done].
    destruct (containing_roots rs p) as [|[rp r] l] eqn:Hc; [done|].
    destruct (existsb _ _); [done|]. by case_bool_decide. }
  destruct (drain_path _ _ _ _ fp db) as [keep db1]. simpl in Hk. subst keep.
  specialize (IH db1). destruct (drain_paths _ _ _ _ paths db1) as [kept db2]. simpl in IH. subst kept.
  simpl. destruct (blocked_in rs pending fp) eqn:Hb.
  - by rewrite filter_cons_True.
  - rewrite filter_cons_False; [done|]. by rewrite Hb.
Qed.

Lemma drain_buffered_ok disk owned w :
  let w' := drain_buffered disk owned w in
  buffered (sched w') = filter (λ fp, blocked w fp = true) (buffered (sched w)) ∧
  state (sched w') = state (sched w) ∧ grows (db w) (db w').
Proof.
  cbn zeta. unfold drain_buffered.
  pose proof (drain_paths_kept disk owned (workspace_root_paths (db w)) (state (sched w))
    (buffered (sched w)) (db w)) as Hk.
  pose proof (grows_drain_paths (db w) disk owned (workspace_root_paths (db w)) (state (sched w))
    (buffered (sched w)) (db w) (reflexivity _)) as Hg.
  destruct (drain_paths _ _ _ _ _ _) as [kept db']. simpl in *. by subst kept.
Qed.

Lemma root_paths_grows d d' :
  (∀ r, r ∈ workspace_roots d → r < length (roots d)) → grows d d' →
  workspace_root_paths d' = workspace_root_paths d.
Proof.
  intros Hv [W R _ _]. unfold workspace_root_paths. rewrite W.
  apply list_omap_ext, Forall_Forall2_diag, Forall_forall. intros r Hr.
  by destruct (R r (Hv r Hr)) as [_ ->].
Qed.

Lemma blocked_grows w w' fp :
  (∀ r, r ∈ workspace_roots (db w) → r < length (roots (db w))) → grows (db w) (db w') →
  state (sched w') = state (sched w) → blocked w' fp = blocked w fp.
Proof. intros Hv Hg Hs. unfold blocked. by rewrite (root_paths_grows (db w)), Hs. Qed.

Lemma blocked_spec w fp :
  blocked w fp = true ↔ ∃ p rp r, as_path fp = Some p ∧ (rp, r) ∈ workspace_root_paths (db w) ∧
    path_starts_with p rp = true ∧ is_Some (state (sched w) !! r).
Proof.
  unfold blocked, blocked_in. destruct (as_path fp) as [p|]; [|naive_solver].
  rewrite existsb_exists. split.
  - intros ([rp r] & Hin%list_elem_of_In & Hp%bool_decide_eq_true).
    apply list_elem_of_filter in Hin as [? ?]. eauto 10.
  - intros (p' & rp & r & [= <-] & Hin & Hs & Hr). exists (rp, r).
    split; [|by apply bool_decide_eq_true]. apply list_elem_of_In, list_elem_of_filter. done.
Qed.

(** ** The invariant *)

Record sound (s : System) : Prop := {
  so_tracked : tracked (workspace_roots (db (world s))) (world s) (inflight s);
  so_nodup : NoDup (buffered (sched (world s)));
  so_blocked fp : fp ∈ buffered (sched (world s)) → blocked (world s) fp = true;
}.

(** Every handler ends by draining the buffer. *)
Lemma sound_drain disk owned w l :
  tracked (workspace_roots (db w)) w l → NoDup (buffered (sched w)) →
  sound (mkSystem (drain_buffered disk owned w) l).
Proof.
  intros Ht Hn. destruct (drain_buffered_ok disk owned w) as (Hb & Hs & Hg).
  split; simpl.
  - rewrite (grows_workspace _ _ Hg). by eapply tracked_grows.
  - rewrite Hb. by apply NoDup_filter.
  - intros fp. rewrite Hb. intros [Hf _]%list_elem_of_filter.
    rewrite (blocked_grows w); [done| |done|done]. intros r Hr. by apply Ht.
Qed.

(** ** Handlers *)

(** An update of the database between handlers. *)
Lemma sound_grows g w l :
  grows (db w) (g (db w)) → sound (mkSystem w l) → sound (mkSystem (on_db g w) l).
Proof.
  intros Hg [Ht Hn Hb]. simpl in *. split; simpl.
  - rewrite (grows_workspace _ _ Hg). by eapply tracked_grows.
  - done.
  - intros fp Hfp. rewrite (blocked_grows w); [by apply Hb| |done|done]. intros r Hr. by apply Ht.
Qed.

Lemma request_rescan_ok L w l r :
  tracked L w l → r ∈ L →
  let w' := (request_rescan r w).1 in
  let req := (request_rescan r w).2 in
  tracked L w' (l ++ option_list req) ∧ db w' = db w ∧ buffered (sched w') = buffered (sched w) ∧
  (∀ r', is_Some (state (sched w) !! r') → is_Some (state (sched w') !! r')) ∧
  (∀ r', state (sched w) !! r' = Some ScanningWithRescanQueued →
         state (sched w') !! r' = Some ScanningWithRescanQueued) ∧
  ((∃ p, as_path (r_path (root (db w) r)) = Some p ∧ req = Some (mkRequest r p)) ∨
   state (sched w') !! r = Some ScanningWithRescanQueued) ∧
  (∀ q, req = Some q → rq_root q = r).
Proof.
  intros Ht Hr. cbn zeta. unfold request_rescan.
  destruct (state (sched w) !! r) as [[]|] eqn:Hs; simpl.
  - rewrite app_nil_r. split; [by apply tracked_mark|]. split; [done|]. split; [done|].
    split; [|split; [|split; [right; by rewrite lookup_insert_eq|done]]].
    + intros r'. destruct (decide (r = r')) as [<-|]; [by rewrite lookup_insert_eq|].
      by rewrite lookup_insert_ne.
    + intros r'. destruct (decide (r = r')) as [<-|]; [by rewrite lookup_insert_eq|].
      by rewrite lookup_insert_ne.
  - rewrite app_nil_r. split_and!; auto. done.
  - destruct (tr_live _ _ _ Ht r Hr) as [Hlt [p Hp]]. rewrite Hp. simpl.
    split; [apply tracked_start; [done|done|by eapply tr_idle]|]. split; [done|]. split; [done|].
    split; [|split; [|split; [eauto|intros q [= <-]; done]]].
    + intros r'. destruct (decide (r = r')) as [<-|]; [by rewrite lookup_insert_eq|].
      by rewrite lookup_insert_ne.
    + intros r'. destruct (decide (r = r')) as [<-|]; [congruence|]. by rewrite lookup_insert_ne.
Qed.

Lemma request_rescans_ok L rs w l :
  tracked L w l → (∀ r, r ∈ rs → r ∈ L) →
  let w' := (request_rescans rs w).1 in
  let reqs := (request_rescans rs w).2 in
  tracked L w' (l ++ reqs) ∧ db w' = db w ∧ buffered (sched w') = buffered (sched w) ∧
  (∀ r', state (sched w) !! r' = Some ScanningWithRescanQueued →
         state (sched w') !! r' = Some ScanningWithRescanQueued) ∧
  (∀ r, r ∈ rs → (∃ p, as_path (r_path (root (db w) r)) = Some p ∧ mkRequest r p ∈ reqs) ∨
         state (sched w') !! r = Some ScanningWithRescanQueued) ∧
  (∀ q, q ∈ reqs → rq_root q ∈ rs).
Proof.
  revert w l. induction rs as [|r rs IH]; intros w l Ht Hrs; cbn zeta; simpl.
  { rewrite app_nil_r. split_and!; try done; set_solver. }
  destruct (request_rescan_ok L w l r Ht) as (T1 & D1 & B1 & _ & Q1 & A1 & O1); [set_solver|].
  destruct (request_rescan r w) as [w1 req]. simpl in *.
  destruct (IH w1 _ T1) as (T2 & D2 & B2 & Q2 & A2 & O2); [set_solver|].
  destruct (request_rescans rs w1) as [w2 reqs]. simpl in *.
  rewrite <-app_assoc in T2. split; [done|]. split; [congruence|]. split; [congruence|].
  split; [auto|]. split.
  - intros r' [->|Hr']%elem_of_cons.
    + destruct A1 as [(p & Hp & ->)|Hq]; [left|right; auto]. exists p. split; [done|]. set_solver.
    + rewrite <-D1. destruct (A2 r' Hr') as [(p & Hp & Hin)|Hq]; [left|by right].
      exists p. split; [done|]. set_solver.
  - intros q [Hq|Hq]%elem_of_app; [|right; auto].
    destruct req as [q'|]; simpl in Hq; [|set_solver].
    apply list_elem_of_singleton in Hq as ->. rewrite (O1 q' eq_refl). by left.
Qed.

Lemma evicted_roots_spec db rs paths r :
  r ∈ evicted_roots (roots_by_path db rs) paths → r_path (root db r) ∉ paths.
Proof.
  unfold evicted_roots. intros ([p r'] & -> & Hr)%list_elem_of_fmap.
  apply list_elem_of_filter in Hr as [Hp Hin]. rewrite hash_order_perm in Hin.
  apply elem_of_map_to_list, roots_by_path_Some in Hin as [_ <-]. done.
Qed.

Lemma evict_ok L es owned w l :
  tracked L w l →
  let w' := foldl (λ w r, evict_workspace_root owned r w) w es in
  tracked (filter (λ r, r ∉ es) L) w' l ∧ grows (db w) (db w') ∧
  buffered (sched w') = buffered (sched w).
Proof.
  revert L w. induction es as [|e es IH]; intros L w Ht; cbn [foldl].
  - split; [|done]. eapply tracked_subset; [|exact Ht]. intros r [_ Hr]%list_elem_of_filter. done.
  - set (w1 := evict_workspace_root owned e w).
    assert (Hg : grows (db w) (db w1)) by (apply grows_set_root_stale; reflexivity).
    assert (T1 : tracked (filter (λ r, r ≠ e) L) w1 l).
    { apply (tracked_forget L (on_db (set_root_stale e (Some owned)) w)).
      by eapply tracked_grows. }
    destruct (IH _ w1 T1) as (T2 & G2 & B2). split; [|split; [by etrans|done]].
    eapply tracked_subset; [|exact T2]. intros r. rewrite !list_elem_of_filter. set_solver.
Qed.

Lemma add_workspace_roots_ok old paths L w l :
  tracked L w l → (∀ p r, p ∈ paths → old !! FFile p = Some r → r ∈ L) →
  let '(w', rs, reqs) := add_workspace_roots old paths w in
  tracked (L ++ rs) w' (l ++ reqs) ∧ grows (db w) (db w') ∧
  buffered (sched w') = buffered (sched w).
Proof.
  revert L w l. induction paths as [|p paths IH]; intros L w l Ht Hold; cbn [add_workspace_roots].
  { by rewrite !app_nil_r. }
  destruct (old !! FFile p) as [r|] eqn:Hp.
  - specialize (IH L w l Ht). destruct (add_workspace_roots old paths w) as [[w' rs] reqs].
    destruct IH as (T & G & B); [set_solver|]. split; [|done].
    eapply tracked_subset; [|exact T]. intros r'. rewrite !elem_of_app, elem_of_cons.
    intros [?|[->|?]]; [by left| |by right]. left. apply (Hold p); [by left|done].
  - simpl. set (d := mkRoot (FFile p) Workspace [] [] []). set (r := length (roots (db w))).
    set (w1 := mkWorld (sched w) (upd_roots (.++ [d]) (db w))).
    assert (Hg : grows (db w) (db w1)) by (apply (grows_new_root _ _ d); reflexivity).
    assert (Hlt : r < length (roots (db w1))) by (simpl; rewrite length_app; simpl; lia).
    assert (Hc : count r l = 0).
    { destruct (count r l) eqn:Hc; [done|]. destruct (count_exists r l) as (q & Hin & Hq); [lia|].
      apply (tr_valid _ _ _ Ht) in Hin. unfold r in Hq. lia. }
    assert (T1 : tracked L w1 l) by by eapply tracked_grows.
    assert (T2 : tracked (r :: L) (on_state <[r := Scanning]> w1) (l ++ [mkRequest r p])).
    { pose proof (tracked_start L w1 l r p T1 Hlt Hc) as [S1 S2 S3 S4 S5]. split; [|done| |done|done].
      - intros r' [->|Hr']%elem_of_cons; [|by apply S1]. split; [done|]. unfold root, r; simpl.
        rewrite (proj2 (snoc_total _ d 0)). by eexists.
      - intros r' [->|Hr']%elem_of_cons; [|by apply S3]. simpl. by rewrite lookup_insert_eq. }
    specialize (IH (r :: L) _ _ T2).
    match goal with |- context [add_workspace_roots old paths ?e] =>
      change e with (on_state <[r := Scanning]> w1) end.
    destruct (add_workspace_roots old paths (on_state <[r := Scanning]> w1)) as [[w' rs] reqs].
    destruct IH as (T & G & B); [set_solver|]. rewrite <-app_assoc in T.
    cbv beta iota. split; [|split].
    + eapply tracked_subset; [|exact T]. set_solver.
    + by etrans.
    + done.
Qed.

Lemma set_workspace_paths_ok disk paths owned w l :
  sound (mkSystem w l) →
  sound (mkSystem (set_workspace_paths disk paths owned w).1
    (l ++ (set_workspace_paths disk paths owned w).2)).
Proof.
  intros [Ht Hn _]. simpl in *. unfold set_workspace_paths.
  set (new := omap abs_from_path_buf paths).
  set (old := roots_by_path (db w) (workspace_roots (db w))).
  set (es := evicted_roots old (FFile <$> new)).
  destruct (evict_ok _ es owned w l Ht) as (T1 & G1 & B1).
  set (w1 := foldl _ w es) in *.
  pose proof (add_workspace_roots_ok old new _ w1 l T1) as Hadd.
  destruct (add_workspace_roots old new w1) as [[w2 rs] reqs].
  destruct Hadd as (T2 & G2 & B2).
  { intros p r Hp Hr. apply list_elem_of_filter. apply roots_by_path_Some in Hr as [Hin Hpath].
    split; [|done]. intros He. apply evicted_roots_spec in He. apply He. rewrite Hpath.
    apply list_elem_of_fmap. eauto. }
  apply sound_drain.
  - assert (Hws : workspace_roots (set_workspace_roots_if rs (db w2)) = rs).
    { unfold set_workspace_roots_if. by case_bool_decide. }
    simpl. rewrite Hws. apply (tracked_subset (filter (λ r, r ∉ es) (workspace_roots (db w)) ++ rs));
      [set_solver|].
    unfold set_workspace_roots_if. destruct T2 as [S1 S2 S3 S4 S5].
    unfold on_db. case_bool_decide; split; done.
  - simpl. by rewrite B2, B1.
Qed.


(** ** Events *)

Lemma workspace_root_paths_spec d rp r :
  (rp, r) ∈ workspace_root_paths d ↔
  r ∈ workspace_roots d ∧ as_path (r_path (root d r)) = Some rp.
Proof.
  unfold workspace_root_paths. rewrite list_elem_of_omap. split.
  - intros (r' & Hr & (p & Hp & [= -> ->])%fmap_Some). done.
  - intros [Hr Hp]. exists r. by rewrite Hp.
Qed.

Lemma add_rescan_roots_spec acc rs r :
  r ∈ foldl add_rescan_root acc rs ↔ r ∈ acc ∨ r ∈ rs.
Proof.
  revert acc. induction rs as [|r0 rs IH]; intros acc; simpl; [set_solver|].
  rewrite IH. unfold add_rescan_root. case_bool_decide; set_solver.
Qed.

Lemma rescan_roots_spec roots paths r :
  r ∈ rescan_roots roots paths ↔ ∃ fp p rp, fp ∈ paths ∧ as_path fp = Some p ∧
    triggers_rescan p = true ∧ (rp, r) ∈ roots ∧ path_starts_with p rp = true.
Proof.
  unfold rescan_roots.
  assert (Hg : ∀ acc, r ∈ foldl (λ acc fp,
      match as_path fp with
      | None => acc
      | Some fs_path =>
          if triggers_rescan fs_path
          then foldl add_rescan_root acc (containing_roots roots fs_path).*2
          else acc
      end) acc paths ↔ r ∈ acc ∨ ∃ fp p rp, fp ∈ paths ∧ as_path fp = Some p ∧
        triggers_rescan p = true ∧ (rp, r) ∈ roots ∧ path_starts_with p rp = true).
  2:{ rewrite Hg. set_solver. }
  induction paths as [|fp paths IH]; intros acc; simpl; [set_solver|]. rewrite IH. clear IH.
  destruct (as_path fp) as [p|] eqn:Hp; [destruct (triggers_rescan p) eqn:Ht|].
  - rewrite add_rescan_roots_spec, list_elem_of_fmap. split.
    + intros [[?|([rp r'] & -> & Hin)]|(fp' & p' & rp & ? & ?)]; [by left| |].
      * apply list_elem_of_filter in Hin as [??]. right. exists fp, p, rp. set_solver.
      * right. exists fp', p', rp. set_solver.
    + intros [?|(fp' & p' & rp & [->|Hin]%elem_of_cons & Hp' & Ht' & Hr & Hs)]; [by left; left| |].
      * left; right. exists (rp, r). split; [done|]. apply list_elem_of_filter. by simplify_eq.
      * right. eauto 10.
  - split; [intros [?|(fp' & p' & rp & ? & ?)]; [by left|right; exists fp', p', rp; set_solver]|].
    intros [?|(fp' & p' & rp & [->|Hin]%elem_of_cons & Hp' & Ht' & Hr & Hs)];
      [by left|congruence|right; eauto 10].
  - split; [intros [?|(fp' & p' & rp & ? & ?)]; [by left|right; exists fp', p', rp; set_solver]|].
    intros [?|(fp' & p' & rp & [->|Hin]%elem_of_cons & Hp' & Ht' & Hr & Hs)];
      [by left|congruence|right; eauto 10].
Qed.

Lemma buffer_paths_nodup paths l : NoDup l → NoDup (buffer_paths paths l).
Proof.
  unfold buffer_paths. revert l. induction paths as [|fp paths IH]; intros l Hl; simpl; [done|].
  apply IH. destruct (as_path fp); [|done]. destruct (triggers_rescan _); [done|].
  unfold buffer_path. case_bool_decide as Hin; [done|]. apply NoDup_app.
  split; [done|]. split; [|apply NoDup_singleton]. set_solver.
Qed.

Lemma apply_watcher_events_ok disk paths skip w l :
  sound (mkSystem w l) →
  let w' := (apply_watcher_events disk paths skip w).1 in
  let reqs := (apply_watcher_events disk paths skip w).2 in
  let w1 := (request_rescans (rescan_roots (workspace_root_paths (db w)) paths) w).1 in
  sound (mkSystem w' (l ++ reqs)) ∧
  buffered (sched w') =
    filter (λ fp, blocked w1 fp = true) (buffer_paths paths (buffered (sched w))) ∧
  state (sched w') = state (sched w1) ∧ grows (db w) (db w') ∧ db w1 = db w ∧
  reqs = (request_rescans (rescan_roots (workspace_root_paths (db w)) paths) w).2.
Proof.
  intros [Ht Hn _]. simpl in *. unfold apply_watcher_events.
  destruct (request_rescans_ok _ (rescan_roots (workspace_root_paths (db w)) paths) w l Ht)
    as (T1 & D1 & B1 & _).
  { intros r (fp & p & rp & _ & _ & _ & Hr & _)%rescan_roots_spec.
    by apply workspace_root_paths_spec in Hr as [? _]. }
  destruct (request_rescans _ w) as [w1 reqs]. simpl in *.
  set (w2 := set_buffered _ w1).
  destruct (drain_buffered_ok disk skip w2) as (Hb & Hs & Hg).
  split; [|rewrite Hb, Hs; simpl; rewrite B1; split_and!; try done].
  - apply sound_drain; [|by simpl; apply buffer_paths_nodup; rewrite B1].
    simpl. rewrite D1. destruct T1. by split.
  - by rewrite <-D1.
Qed.

Lemma apply_scan_completed_ok disk result owned w l1 req l2 :
  sound (mkSystem w (l1 ++ req :: l2)) → sc_root result = rq_root req →
  let w' := (apply_scan_completed disk result owned w).1 in
  let reqs := (apply_scan_completed disk result owned w).2 in
  sound (mkSystem w' (l1 ++ l2 ++ reqs)) ∧
  (rq_root req ∈ workspace_roots (db w) → is_Some (state (sched w) !! rq_root req)) ∧
  (∀ r, r ≠ rq_root req → state (sched w') !! r = state (sched w) !! r) ∧
  ((rq_root req ∈ workspace_roots (db w) ∧
    state (sched w) !! rq_root req = Some ScanningWithRescanQueued ∧
    state (sched w') !! rq_root req = Some Scanning ∧
    ∃ p, as_path (r_path (root (db w) (rq_root req))) = Some p ∧ reqs = [mkRequest (rq_root req) p]) ∨
   (state (sched w') !! rq_root req = None ∧ reqs = [] ∧
    (rq_root req ∈ workspace_roots (db w) → state (sched w) !! rq_root req = Some Scanning))).
Proof.
  intros [Ht Hn Hb] Hr. simpl in *. rewrite <-Hr. unfold apply_scan_completed.
  assert (Hone : count (sc_root result) (l1 ++ req :: l2) = 1).
  { assert (0 < count (sc_root result) (l1 ++ req :: l2)).
    { rewrite Hr. apply count_elem. set_solver. }
    pose proof (tr_once _ _ _ Ht (sc_root result)). lia. }
  pose proof (tracked_complete _ _ _ _ _ Ht) as T1. rewrite <-Hr in T1.
  assert (Hne : ∀ r, r ≠ sc_root result →
    delete (sc_root result) (state (sched w)) !! r = state (sched w) !! r).
  { intros r Hrne. by rewrite lookup_delete_ne. }
  case_bool_decide as Hlive; cbn [fst snd].
  2:{ rewrite app_nil_r. split; [split; [done|done|]|].
    - intros fp Hfp. specialize (Hb fp Hfp). apply blocked_spec in Hb as (p & rp & r & Hp & Hin & Hs & Hst).
      apply blocked_spec. exists p, rp, r. split_and!; try done. simpl.
      apply workspace_root_paths_spec in Hin as [Hin _]. rewrite lookup_delete_ne; [done|].
      intros <-. done.
    - simpl. rewrite lookup_delete_eq. split_and!; [done|done|]. right. done. }
  assert (Hst : is_Some (state (sched w) !! sc_root result)).
  { destruct (state (sched w) !! sc_root result) eqn:Hs; [by eexists|].
    apply (tr_idle _ _ _ Ht) in Hs; [lia|done]. }
  set (w1 := on_state (delete (sc_root result)) (on_db (apply result) w)).
  assert (Hg : grows (db w) (db w1)) by (apply grows_apply; reflexivity).
  assert (T2 : tracked (workspace_roots (db w1)) w1 (l1 ++ l2)).
  { rewrite (grows_workspace _ _ Hg). by eapply tracked_grows. }
  assert (Hpath : r_path (root (db w1) (sc_root result)) = r_path (root (db w) (sc_root result))).
  { apply Hg, Ht, Hlive. }
  assert (Hlive1 : sc_root result ∈ workspace_roots (db w1)) by by rewrite (grows_workspace _ _ Hg).
  assert (Hnone : state (sched w1) !! sc_root result = None) by apply lookup_delete_eq.
  change (state (sched (on_db (apply result) w))) with (state (sched w)). fold w1.
  destruct Hst as [[] Hst]; rewrite Hst; cbn [fst snd].
  - rewrite app_nil_r. split; [by apply sound_drain|].
    destruct (drain_buffered_ok disk owned w1) as (_ & -> & _). split_and!; [done|done|].
    right. by rewrite Hnone.
  - destruct (tr_live _ _ _ T2 _ Hlive1) as [Hlt [p Hp]].
    assert (Hidle : count (sc_root result) (l1 ++ l2) = 0) by by eapply tr_idle.
    rewrite Hp. cbn [fst snd]. rewrite app_assoc. split.
    + apply sound_drain; [|done]. by apply tracked_start.
    + destruct (drain_buffered_ok disk owned (on_state <[sc_root result := Scanning]> w1))
        as (_ & -> & _). simpl. split; [by eexists|]. split.
      * intros r Hrne. rewrite lookup_insert_ne by done. by apply Hne.
      * left. rewrite lookup_insert_eq, <-Hpath. split_and!; eauto.
Qed.

Lemma sound_step s s' : step s s' → sound s → sound s'.
Proof.
  destruct 1 as [s s' Hc|disk paths owned w l|disk paths skip w l|fp contents w l|fp w l|disk paths w l];
    intros Hs.
  - destruct Hc as [disk result owned w l1 req l2 Hr].
    by destruct (apply_scan_completed_ok disk result owned w l1 req l2 Hs Hr).
  - by apply set_workspace_paths_ok.
  - by apply (apply_watcher_events_ok disk paths skip).
  - apply (sound_grows (λ db, (upsert_editor fp contents db).1)); [|done].
    by apply grows_upsert_editor.
  - apply sound_grows; [|done]. by apply grows_close_editor.
  - apply sound_grows; [|done]. by apply grows_set_library_paths.
Qed.

Lemma reachable_sound s : reachable s → sound s.
Proof.
  intros Hr. unfold reachable in Hr.
  assert (Hi : sound init).
  { split; simpl; [|constructor|set_solver].
    split; simpl; try set_solver. by intros r [? ?%lookup_empty_Some]. }
  revert Hi. induction Hr; [done|]. intros. by eapply IHHr, sound_step.
Qed.

(** C9. The scheduler never loses track of a scan, whatever the order of
    folder changes, file events, editor events and completions. A live root is
    pending exactly when one scan of it is in flight, and never has two; so a
    scan that completes for a live root is tracked (the warning about an
    untracked root is unreachable), and one that completes for an evicted root
    is dropped without touching the database. Every buffered path waits, once,
    for a live root around it that is pending. *)
Theorem scheduler_tracks_scans s :
  reachable s →
  let w := world s in
  (∀ r, r ∈ workspace_roots (db w) → (is_Some (state (sched w) !! r) ↔ count r (inflight s) = 1)) ∧
  (∀ r, count r (inflight s) ≤ 1) ∧
  (∀ q disk result editor_owned, q ∈ inflight s → sc_root result = rq_root q →
     if decide (rq_root q ∈ workspace_roots (db w))
     then is_Some (state (sched w) !! rq_root q)
     else apply_scan_completed disk result editor_owned w = (on_state (delete (rq_root q)) w, [])) ∧
  NoDup (buffered (sched w)) ∧
  (∀ fp, fp ∈ buffered (sched w) → ∃ p rp r, as_path fp = Some p ∧
     r ∈ workspace_roots (db w) ∧ as_path (r_path (root (db w) r)) = Some rp ∧
     rp `prefix_of` p ∧ is_Some (state (sched w) !! r)).
Proof.
  intros [[T1 T2 T3 T4 T5] Hn Hb]%reachable_sound. cbn zeta. split_and!.
  - intros r Hr. split; [by apply T2|]. intros Hc.
    destruct (state (sched (world s)) !! r) eqn:Hs; [by eexists|]. apply T3 in Hs; [lia|done].
  - done.
  - intros q disk result owned Hq Hr. case_decide as Hlive.
    + destruct (state (sched (world s)) !! rq_root q) eqn:Hs; [by eexists|].
      apply T3 in Hs; [|done]. apply count_elem in Hq. lia.
    + unfold apply_scan_completed. rewrite Hr. by rewrite bool_decide_false.
  - done.
  - intros fp (p & rp & r & Hp & Hin & Hs & Hst)%Hb%blocked_spec. exists p, rp, r.
    apply workspace_root_paths_spec in Hin as [??]. by apply bool_decide_eq_true in Hs.
Qed.

(** ** Quiescence *)

(** The scans a request in flight stands for: its own, and the rescan queued
    behind it. *)
Definition scans_of (pending : gmap Root ScanState) (q : ScanRequest) : nat :=
  match pending !! rq_root q with Some ScanningWithRescanQueued => 2 | _ => 1 end.

Definition pending_work (s : System) : nat :=
  sum_list_with (scans_of (state (sched (world s)))) (inflight s).

Lemma sum_list_with_ext {A} (f g : A → nat) l :
  (∀ a, a ∈ l → f a = g a) → sum_list_with f l = sum_list_with g l.
Proof.
  induction l as [|a l IH]; intros Hfg; simpl; [done|].
  rewrite Hfg by by left. rewrite IH; [done|]. intros; apply Hfg; by right.
Qed.

Lemma complete_decreases s s' :
  sound s → complete s s' → sound s' ∧ pending_work s' < pending_work s.
Proof.
  intros Hs Hc. split; [by eapply sound_step; [apply step_complete|]|].
  destruct Hc as [disk result owned w l1 req l2 Hr].
  destruct (apply_scan_completed_ok disk result owned w l1 req l2 Hs Hr) as (_ & _ & Hne & Hcase).
  unfold pending_work. cbn [world inflight].
  set (w' := (apply_scan_completed disk result owned w).1) in *.
  set (reqs := (apply_scan_completed disk result owned w).2) in *.
  pose proof (tr_once _ _ _ (so_tracked _ Hs) (rq_root req)) as Hone. simpl in Hone.
  rewrite count_app, count_cons, decide_True in Hone by done.
  assert (Hoth : ∀ l, count (rq_root req) l = 0 →
    sum_list_with (scans_of (state (sched w'))) l = sum_list_with (scans_of (state (sched w))) l).
  { intros l Hl. apply sum_list_with_ext. intros q Hq. unfold scans_of. rewrite Hne; [done|].
    intros Heq. apply count_elem in Hq. rewrite Heq in Hq. lia. }
  rewrite !sum_list_with_app. simpl. rewrite (Hoth l1), (Hoth l2) by lia.
  destruct Hcase as [(_ & Hq & Hq' & p & _ & ->)|(_ & -> & _)]; simpl.
  - assert (scans_of (state (sched w)) req = 2) as -> by by unfold scans_of; rewrite Hq.
    assert (scans_of (state (sched w')) (mkRequest (rq_root req) p) = 1) as ->
      by by unfold scans_of; simpl; rewrite Hq'.
    lia.
  - assert (1 ≤ scans_of (state (sched w)) req) by (unfold scans_of; repeat case_match; lia). lia.
Qed.

Lemma idle_at_rest s :
  sound s → inflight s = [] →
  has_pending_scans (world s) = false ∧ buffered (sched (world s)) = [].
Proof.
  intros [[_ T2 _ _ _] _ Hb] Hf.
  assert (Hst : ∀ r, state (sched (world s)) !! r = None).
  { intros r. destruct (state (sched (world s)) !! r) eqn:Hs; [|done].
    assert (Hc : count r (inflight s) = 1) by (apply T2; by eexists). by rewrite Hf in Hc. }
  split.
  - unfold has_pending_scans. rewrite bool_decide_true; [done|]. by apply map_empty.
  - destruct (buffered (sched (world s))) as [|fp l]; [done|].
    destruct (blocked_spec (world s) fp) as [Hbl _].
    destruct Hbl as (_ & _ & r & _ & _ & _ & [st Hr]); [apply Hb; by left|].
    by rewrite Hst in Hr.
Qed.

(** C37. The scheduler comes to rest: from any reachable state, completing the
    scans in flight, in any order and with any results, ends after at most as
    many completions as scans in flight and queued; while one is in flight a
    completion is possible; and when none is, no root is pending and no path is
    left in the buffer. *)
Theorem scheduler_quiesces s :
  reachable s →
  (∀ n s', nsteps complete n s s' →
     n + pending_work s' ≤ pending_work s ∧
     (inflight s' = [] → has_pending_scans (world s') = false ∧ buffered (sched (world s')) = []) ∧
     (inflight s' ≠ [] → ∃ s'', complete s' s'')) ∧
  ∃ s', rtc complete s s' ∧ inflight s' = [].
Proof.
  intros Hr%reachable_sound.
  assert (Hprog : ∀ s', inflight s' ≠ [] → ∃ s'', complete s' s'').
  { intros [w [|q l]]; simpl; [done|]. intros _. eexists.
    by apply (complete_intro empty_disk
      (mkCompleted (rq_root q) [] [] []) ∅ w [] q l). }
  split.
  - intros n s' Hn. revert Hr. induction Hn as [s|n s s1 s' Hc _ IH]; intros Hr.
    + split; [lia|]. split; [by apply idle_at_rest|apply Hprog].
    + destruct (complete_decreases _ _ Hr Hc) as [Hr1 Hlt].
      destruct (IH Hr1) as [Hle Hrest]. split; [lia|done].
  - remember (pending_work s) as n eqn:Hn. revert s Hn Hr.
    induction (lt_wf n) as [n _ IH]. intros s -> Hr.
    destruct (decide (inflight s = [])) as [Hi|Hi]; [by exists s|].
    destruct (Hprog s Hi) as [s1 Hc]. destruct (complete_decreases _ _ Hr Hc) as [Hr1 Hlt].
    destruct (IH _ Hlt s1 eq_refl Hr1) as (s' & Hs' & Hend). exists s'. split; [|done].
    by eapply rtc_l.
Qed.

(** C36. No discovery event is lost. After a batch of file events, every live
    root around a [DESCRIPTION] or environment file of the batch has a scan
    that starts after the batch: requested now, with the root's path, or queued
    behind the one in flight; the completion of that one requests it. Of the
    other paths of the batch and of the buffer, exactly those blocked by a
    pending root stay buffered, in order of arrival. *)
Theorem discovery_events_rescan s disk paths skip :
  reachable s →
  let w := world s in
  let w' := (apply_watcher_events disk paths skip w).1 in
  let reqs := (apply_watcher_events disk paths skip w).2 in
  (∀ fp p r rp, fp ∈ paths → as_path fp = Some p → triggers_rescan p = true →
     r ∈ workspace_roots (db w) → as_path (r_path (root (db w) r)) = Some rp → rp `prefix_of` p →
     mkRequest r rp ∈ reqs ∨
     (state (sched w') !! r = Some ScanningWithRescanQueued ∧
      ∃ q, q ∈ inflight s ++ reqs ∧ rq_root q = r ∧
      ∀ disk' result owned, sc_root result = r →
        (apply_scan_completed disk' result owned w').2 = [mkRequest r rp])) ∧
  buffered (sched w') = filter (λ fp, blocked w' fp = true) (buffer_paths paths (buffered (sched w))).
Proof.
  intros Hs%reachable_sound. cbn zeta. destruct s as [w l]. simpl.
  destruct (apply_watcher_events_ok disk paths skip w l Hs) as (Hs' & Hb & Hst & Hg & Hd & Hreqs).
  pose proof (so_tracked _ Hs) as Ht. simpl in Ht.
  destruct (request_rescans_ok _ (rescan_roots (workspace_root_paths (db w)) paths) w l Ht)
    as (T1 & D1 & _ & _ & A1 & O1).
  { intros r (fp & p & rp & _ & _ & _ & Hr & _)%rescan_roots_spec.
    by apply workspace_root_paths_spec in Hr as [? _]. }
  set (w1 := (request_rescans _ w).1) in *. set (w' := (apply_watcher_events disk paths skip w).1) in *.
  split.
  - intros fp p r rp Hfp Hp Ht' Hr Hrp Hpre.
    assert (Hin : r ∈ rescan_roots (workspace_root_paths (db w)) paths).
    { apply rescan_roots_spec. exists fp, p, rp. split_and!; try done.
      - by apply workspace_root_paths_spec.
      - by apply bool_decide_eq_true. }
    destruct (A1 r Hin) as [(p' & Hp' & Hreq)|Hq]; [left|right].
    + rewrite Hreqs. congruence.
    + assert (Hpend : is_Some (state (sched w') !! r)) by (rewrite Hst, Hq; by eexists).
      assert (Hc : count r (l ++ (request_rescans (rescan_roots (workspace_root_paths (db w)) paths) w).2) = 1).
      { apply T1. rewrite Hq. by eexists. }
      split; [by rewrite Hst|]. destruct (count_exists r _ ltac:(rewrite Hc; lia)) as (q & Hqin & Hqr).
      rewrite <-Hreqs in Hqin. exists q. split; [done|]. split; [done|].
      intros disk' result owned Hres.
      destruct (list_elem_of_split _ _ Hqin) as (l1 & l2 & Hl).
      assert (Hs2 : sound (mkSystem w' (l1 ++ q :: l2))) by by rewrite <-Hl.
      destruct (apply_scan_completed_ok disk' result owned w' l1 q l2 Hs2) as (_ & _ & _ & Hcase);
        [congruence|].
      assert (Hlive : rq_root q ∈ workspace_roots (db w')).
      { rewrite Hqr, (grows_workspace _ _ Hg). done. }
      rewrite Hqr in *. destruct Hcase as [(_ & _ & _ & p' & Hp' & ->)|(_ & _ & Hn)].
      * destruct (grows_roots _ _ Hg r) as [_ Hrp']; [by apply Ht|]. rewrite Hrp' in Hp'. congruence.
      * rewrite Hst, Hq in Hn. specialize (Hn Hlive). done.
  - rewrite Hb. apply list_filter_iff. intros fp.
    assert (blocked w' fp = blocked w1 fp) as ->; [|done]. apply blocked_grows.
    + rewrite Hd. intros r Hr. by apply Ht.
    + by rewrite Hd.
    + done.
Qed.
End system.

(** ** Witnesses: a folder was opened, and its scan is in flight *)

#[local] Existing Instance element_order.

Definition scanning : System := mkSystem (opened plain_disk) [first_scan].

Lemma scanning_reached : reachable scanning.
Proof.
  unfold reachable. eapply rtc_l; [apply (step_workspace plain_disk folder ∅)|].
  change (opened plain_disk) with (set_workspace_paths plain_disk folder ∅ empty_world).1.
  assert (E : (set_workspace_paths plain_disk folder ∅ empty_world).2 = [first_scan])
    by (vm_compute; reflexivity).
  unfold scanning, opened. rewrite <-E. apply rtc_refl.
Qed.

Lemma scheduler_tracks_scans_witness :
  reachable scanning ∧
  (is_Some (state (sched (world scanning)) !! 0) ↔ count 0 (inflight scanning) = 1).
Proof.
  split; [exact scanning_reached|].
  apply (proj1 (scheduler_tracks_scans scanning scanning_reached)).
  apply (bool_decide_unpack _). vm_compute. exact I.
Defined.

Lemma scheduler_quiesces_witness :
  reachable scanning ∧ ∃ s, rtc complete scanning s ∧ inflight s = [].
Proof.
  split; [exact scanning_reached|].
  exact (proj2 (scheduler_quiesces scanning scanning_reached)).
Defined.

(** A [DESCRIPTION] changes while the scan runs: the rescan is queued. *)
Lemma discovery_events_rescan_witness :
  reachable scanning ∧
  (mkRequest 0 (at_path ["w"]%string) ∈
     (apply_watcher_events plain_disk [FFile (at_path ["w"; "p"; "DESCRIPTION"]%string)] ∅
       (world scanning)).2 ∨
   state (sched (apply_watcher_events plain_disk [FFile (at_path ["w"; "p"; "DESCRIPTION"]%string)] ∅
     (world scanning)).1) !! 0 = Some ScanningWithRescanQueued).
Proof.
  split; [exact scanning_reached|].
  destruct (proj1 (discovery_events_rescan scanning plain_disk
    [FFile (at_path ["w"; "p"; "DESCRIPTION"]%string)] ∅ scanning_reached)
    (FFile (at_path ["w"; "p"; "DESCRIPTION"]%string)) (at_path ["w"; "p"; "DESCRIPTION"]%string) 0
    (at_path ["w"]%string)) as [Hreq|[Hq _]].
  - by left.
  - reflexivity.
  - vm_compute. reflexivity.
  - apply (bool_decide_unpack _). vm_compute. exact I.
  - vm_compute. reflexivity.
  - by eexists.
  - left. exact Hreq.
  - right. exact Hq.
Defined.
