(* ===== verification/PackageTheorems.v ===== *)
(** * Theorems on package discovery

    The load order of a package, and the choice between packages of one
    name. Both are functions of what is on disk: the order in which hash maps
    are iterated never shows. *)

From S2P Require Export ScanPackages OakDemo.

(** ** The order of names *)

(** Files with names of their own. *)
Definition named_apart (files : list (path * FileEntry)) : Prop :=
  (∀ f, f ∈ files → is_Some (file_name f.1)) ∧ NoDup ((λ f, file_name f.1) <$> files).

Lemma named_apart_key files f g :
  NoDup ((λ f : path * FileEntry, file_name f.1) <$> files) → f ∈ files → g ∈ files →
  file_name f.1 = file_name g.1 → f = g.
Proof.
  intros Hn [i Hi]%list_elem_of_lookup [j Hj]%list_elem_of_lookup E.
  assert (i = j) as ->; [|congruence]. eapply NoDup_lookup; [exact Hn|..]; rewrite list_lookup_fmap.
  - by rewrite Hi.
  - rewrite Hj. simpl. by rewrite E.
Qed.

(** One sort for all orders of iteration. *)
Lemma sort_by_basename_perm l1 l2 :
  NoDup ((λ f, file_name f.1) <$> l1) → l1 ≡ₚ l2 → sort_by_basename l1 = sort_by_basename l2.
Proof.
  intros Hn Hp. unfold sort_by_basename.
  apply (StronglySorted_unique_strong (key_lte name_le (λ f, basename_key f.1))).
  - intros f g Hf Hg H1 H2. rewrite sort_by_key_perm in Hf, Hg. rewrite <-Hp in Hg.
    apply (named_apart_key l1); try done. by apply name_le_antisym.
  - apply (sort_by_key_spec name_le _ name_le_total name_le_trans).
  - apply (sort_by_key_spec name_le _ name_le_total name_le_trans).
  - by rewrite !sort_by_key_perm.
Qed.

(** ** Load order *)

(** The elements of a list at their first occurrence. *)
Fixpoint firsts (seen : gset text) (l : list text) : list text :=
  match l with
  | [] => []
  | n :: l => if bool_decide (n ∈ seen) then firsts seen l else n :: firsts ({[n]} ∪ seen) l
  end.

Lemma files_by_name_spec files :
  named_apart files →
  ∀ n f, files_by_name files !! n = Some f ↔ f ∈ files ∧ file_name f.1 = Some n.
Proof.
  unfold files_by_name. intros [Hsome Hn].
  enough (Hg : ∀ l (m : gmap text (path * FileEntry)) done,
    done ++ l = files →
    (∀ n f, m !! n = Some f ↔ f ∈ done ∧ file_name f.1 = Some n) →
    ∀ n f, foldl (λ m f, match file_name f.1 with Some name => <[name := f]> m | None => m end) m l !! n
      = Some f ↔ f ∈ files ∧ file_name f.1 = Some n).
  { apply (Hg files ∅ []); [done|]. intros n f. rewrite lookup_empty. set_solver. }
  induction l as [|g l IH]; intros m d Hd Hm; simpl.
  { rewrite app_nil_r in Hd. by subst d. }
  apply (IH _ (d ++ [g])); [by rewrite <-app_assoc|].
  assert (Hgin : g ∈ files) by (rewrite <-Hd; set_solver).
  destruct (Hsome g Hgin) as [k Hk]. rewrite Hk. intros n f.
  rewrite elem_of_app, list_elem_of_singleton. destruct (decide (k = n)) as [<-|Hne].
  - rewrite lookup_insert_eq. split; [intros [= <-]; by split; [right|]|].
    intros [[Hf| ->] Hfk]; [|done]. f_equal. symmetry.
    apply (named_apart_key files); [done| |done|congruence]. rewrite <-Hd. set_solver.
  - rewrite lookup_insert_ne by done. rewrite Hm. naive_solver congruence.
Qed.

Lemma take_collated_spec (order : list text) (m : gmap text (path * FileEntry)) (seen : gset text) :
  (∀ n, n ∈ seen → m !! n = None) →
  (take_collated order m).1 = omap (λ n, snd <$> m !! n) (firsts seen order) ∧
  ∀ n, (take_collated order m).2 !! n = if bool_decide (n ∈ order) then None else m !! n.
Proof.
  revert m seen. induction order as [|k order IH]; intros m seen Hseen; simpl.
  { by split. }
  assert (Hmem : ∀ n (o : option (path * FileEntry)),
    (n = k → o = None) → (if bool_decide (n ∈ order) then None else o) =
    (if bool_decide (n ∈ k :: order) then None else o)).
  { intros n o Ho. repeat case_bool_decide; set_solver. }
  destruct (m !! k) as [[p f]|] eqn:Hk.
  - assert (Hk' : k ∉ seen) by (intros Hin%Hseen; congruence).
    rewrite bool_decide_false by done. simpl. rewrite Hk. simpl.
    destruct (IH (delete k m) ({[k]} ∪ seen)) as [IH1 IH2].
    { intros n [->%elem_of_singleton|Hn%Hseen]%elem_of_union; [apply lookup_delete_eq|].
      destruct (decide (k = n)) as [->|]; [apply lookup_delete_eq|by rewrite lookup_delete_ne]. }
    destruct (take_collated order (delete k m)) as [loadable rest]. simpl in *. split.
    + rewrite IH1. f_equal. clear -Hk'.
      enough (Hg : ∀ seen', k ∈ seen' → omap (λ n, snd <$> delete k m !! n) (firsts seen' order) =
        omap (λ n, snd <$> m !! n) (firsts seen' order)) by (apply Hg; set_solver).
      induction order as [|n order IH]; intros seen' Hs; simpl; [done|].
      case_bool_decide as Hn; [by apply IH|]. simpl.
      rewrite lookup_delete_ne by (intros ->; done). by rewrite IH by set_solver.
    + intros n. rewrite IH2. destruct (decide (k = n)) as [->|Hne].
      * rewrite lookup_delete_eq. rewrite (bool_decide_true (n ∈ n :: order)) by by left. by case_bool_decide.
      * rewrite lookup_delete_ne by done. repeat case_bool_decide; set_solver.
  - assert (Hskip : omap (λ n, snd <$> m !! n) (if bool_decide (k ∈ seen) then firsts seen order
        else k :: firsts ({[k]} ∪ seen) order) =
      omap (λ n, snd <$> m !! n) (firsts ({[k]} ∪ seen) order)).
    { case_bool_decide as Hin; [|simpl; by rewrite Hk]. f_equal. f_equal. set_solver. }
    rewrite Hskip. destruct (IH m ({[k]} ∪ seen)) as [IH1 IH2].
    { intros n [->%elem_of_singleton|Hn%Hseen]%elem_of_union; done. }
    split; [done|]. intros n. rewrite IH2. apply Hmem. by intros ->.
Qed.

Lemma elem_of_firsts n seen l : n ∈ firsts seen l ↔ n ∈ l ∧ n ∉ seen.
Proof.
  revert seen. induction l as [|k l IH]; intros seen; simpl; [set_solver|].
  case_bool_decide; rewrite ?elem_of_cons, IH; [set_solver|].
  destruct (decide (n = k)); set_solver.
Qed.

Lemma NoDup_firsts seen l : NoDup (firsts seen l).
Proof.
  revert seen. induction l as [|k l IH]; intros seen; simpl; [constructor|].
  case_bool_decide; [done|]. constructor; [|done]. rewrite elem_of_firsts. set_solver.
Qed.

(** The file of a name. *)
Definition file_named (files : list (path * FileEntry)) (n : text) : option (path * FileEntry) :=
  List.find (λ f, bool_decide (file_name f.1 = Some n)) files.

Lemma file_named_spec files n f :
  named_apart files → file_named files n = Some f ↔ f ∈ files ∧ file_name f.1 = Some n.
Proof.
  intros [_ Hn]. unfold file_named. split.
  - intros [Hf Hk%bool_decide_eq_true]%List.find_some. split; [by apply list_elem_of_In|done].
  - intros [Hf Hk]. destruct (List.find _ files) as [g|] eqn:E.
    + apply List.find_some in E as [Hg Hgk%bool_decide_eq_true]. f_equal.
      apply (named_apart_key files); [done|by apply list_elem_of_In|done|congruence].
    + apply List.find_none with (x := f) in E; [|by apply list_elem_of_In].
      by apply bool_decide_eq_false in E.
Qed.

Lemma files_by_name_named files n :
  named_apart files → files_by_name files !! n = file_named files n.
Proof.
  intros Hn. apply option_eq. intros f. by rewrite files_by_name_spec, file_named_spec.
Qed.

Lemma NoDup_named files : named_apart files → NoDup files.
Proof. intros [_ Hn]. by eapply NoDup_fmap_1. Qed.

(** [Collate:] lists the file. *)
Definition listed (order : list text) (f : path * FileEntry) : bool :=
  match file_name f.1 with Some n => bool_decide (n ∈ order) | None => false end.

Lemma listed_spec order f : listed order f = true ↔ ∃ n, n ∈ order ∧ file_name f.1 = Some n.
Proof.
  unfold listed. destruct (file_name f.1) as [n|]; [rewrite bool_decide_eq_true|]; naive_solver.
Qed.

(** The files of the listed names, each once. *)
Lemma collated_perm files order :
  named_apart files →
  omap (file_named files) (firsts ∅ order) ≡ₚ
  filter (λ f, listed order f = true) files.
Proof.
  intros Hn. apply NoDup_Permutation.
  - generalize (NoDup_firsts ∅ order). induction 1 as [|n l Hin _ IH]; simpl; [constructor|].
    destruct (file_named files n) as [f|] eqn:Hf; [|done]. constructor; [|done].
    intros (n' & Hn' & Hf')%list_elem_of_omap. apply file_named_spec in Hf, Hf'; try done.
    destruct Hf as [_ Hf], Hf' as [_ Hf']. congruence.
  - by apply NoDup_filter, NoDup_named.
  - intros f. rewrite list_elem_of_omap, list_elem_of_filter.
    setoid_rewrite elem_of_firsts. setoid_rewrite (file_named_spec files _ f Hn).
    rewrite listed_spec. set_solver.
Qed.

Section order.
Context `{HashOrder}.

(** The load order of a package is a function of its files and of
    [Collate:], whatever the order in which the hash map of names is iterated:
    the files [Collate:] names, at their first mention; the others, sorted by
    name in byte order, are scripts. No file is lost or listed twice. *)
Theorem load_order_spec files order :
  named_apart files →
  order_by_collation files order =
    (snd <$> omap (file_named files) (firsts ∅ order),
     (sort_by_basename (filter (λ f, listed order f = false) files)).*2) ∧
  (order_by_collation files order).1 ++ (order_by_collation files order).2 ≡ₚ files.*2 ∧
  StronglySorted (key_lte name_le (λ f, basename_key f.1))
    (sort_by_basename (filter (λ f, listed order f = false) files)).
Proof.
  intros Hn. unfold order_by_collation.
  destruct (take_collated_spec order (files_by_name files) ∅) as [H1 H2]; [set_solver|].
  destruct (take_collated order (files_by_name files)) as [loadable rest]. cbn [fst snd] in *.
  assert (Hl : loadable = snd <$> omap (file_named files) (firsts ∅ order)).
  { rewrite H1. clear H1 H2. induction (firsts ∅ order) as [|n l IH]; csimpl; [done|].
    rewrite files_by_name_named by done. destruct (file_named files n); csimpl; [by f_equal|done]. }
  assert (Hr : (map_to_list rest).*2 ≡ₚ filter (λ f, listed order f = false) files).
  { apply NoDup_Permutation.
    - apply NoDup_fmap_2_strong; [|apply NoDup_map_to_list].
      intros [n f] [n' f'] Hf%elem_of_map_to_list Hf'%elem_of_map_to_list. simpl. intros <-.
      rewrite H2 in Hf, Hf'. destruct (bool_decide (n ∈ order)), (bool_decide (n' ∈ order)); try done.
      apply files_by_name_spec in Hf as [_ Hf], Hf' as [_ Hf']; [|done..]. congruence.
    - by apply NoDup_filter, NoDup_named.
    - intros f. rewrite list_elem_of_fmap, list_elem_of_filter. split.
      + intros ([n g] & -> & Hg%elem_of_map_to_list). rewrite H2 in Hg. simpl.
        destruct (decide (n ∈ order)) as [Hin|Hin];
          [by rewrite bool_decide_true in Hg|rewrite bool_decide_false in Hg by done]. apply files_by_name_spec in Hg as [Hg Hk]; [|done].
        split; [|done]. unfold listed. rewrite Hk. by apply bool_decide_eq_false.
      + intros [Hf Hin]. destruct Hn as [Hsome Hd]. destruct (Hsome f Hin) as [n Hk].
        exists (n, f). split; [done|]. apply elem_of_map_to_list. rewrite H2. unfold listed in Hf.
        rewrite Hk in Hf. rewrite Hf. by apply files_by_name_spec. }
  assert (Hs : sort_by_basename (hash_order (map_to_list rest)).*2 =
    sort_by_basename (filter (λ f, listed order f = false) files)).
  { symmetry. apply sort_by_basename_perm; [|by rewrite hash_order_perm].
    destruct Hn as [_ Hd]. eapply sublist_NoDup; [exact Hd|]. apply fmap_sublist, sublist_filter. }
  rewrite Hl, Hs. split; [done|]. split.
  - unfold sort_by_basename. rewrite sort_by_key_perm, collated_perm, <-fmap_app by done.
    apply fmap_Permutation. clear. induction files as [|f files IH]; [done|].
    rewrite !filter_cons. destruct (listed order f); simpl.
    + by rewrite IH.
    + by rewrite <-Permutation_middle, IH.
  - apply (sort_by_key_spec name_le _ name_le_total name_le_trans).
Qed.

(** ** Packages of one name *)

(** Of the packages of one name the first is kept, and every name keeps
    one: the result has each name once, in the order of its first package. *)
Theorem dedup_first_wins pkgs :
  let kept := dedup_packages_by_name pkgs in
  NoDup (pe_name <$> kept) ∧ sublist kept pkgs ∧
  (∀ name, List.find (λ p, bool_decide (pe_name p = name)) kept =
           List.find (λ p, bool_decide (pe_name p = name)) pkgs).
Proof.
  cbn zeta. unfold dedup_packages_by_name.
  enough (Hg : ∀ seen, NoDup (pe_name <$> dedup_packages seen pkgs) ∧
    sublist (dedup_packages seen pkgs) pkgs ∧
    (∀ p, p ∈ dedup_packages seen pkgs → pe_name p ∉ seen) ∧
    (∀ name, name ∉ seen → List.find (λ p, bool_decide (pe_name p = name)) (dedup_packages seen pkgs) =
      List.find (λ p, bool_decide (pe_name p = name)) pkgs)).
  { destruct (Hg ∅) as (? & ? & _ & ?). split_and!; try done. intros name. set_solver. }
  induction pkgs as [|p pkgs IH]; intros seen; simpl.
  { split_and!; try done. constructor. set_solver. }
  case_bool_decide as Hin.
  - destruct (IH seen) as (H1 & H2 & H3 & H4). split_and!; try done.
    + by constructor.
    + intros name Hname. rewrite H4 by done. rewrite bool_decide_false; [done|]. by intros <-.
  - destruct (IH ({[pe_name p]} ∪ seen)) as (H1 & H2 & H3 & H4). simpl. split_and!.
    + constructor; [|done]. intros (q & Hq & Hqin)%list_elem_of_fmap. apply H3 in Hqin. set_solver.
    + by constructor.
    + intros q [->|Hq%H3]%elem_of_cons; [done|set_solver].
    + intros name Hname. case_bool_decide as Hp; [done|]. apply H4. set_solver.
Qed.
End order.

(** ** Witness *)

#[local] Existing Instance element_order.

Definition two_files : list (path * FileEntry) :=
  (λ name, (at_path ["p"; "R"; name]%string, mkEntry (FFile (at_path ["p"; "R"; name]%string)) 1))
    <$> ["a.R"; "b.R"]%string.

Lemma load_order_spec_witness :
  named_apart two_files ∧
  fe_path <$> (order_by_collation two_files [text_of "b.R"]).1 =
    [FFile (at_path ["p"; "R"; "b.R"]%string)].
Proof.
  assert (Hn : named_apart two_files).
  { split; [|apply (bool_decide_unpack _); vm_compute; exact I].
    intros f. unfold two_files. simpl. intros [->|[->|[]%not_elem_of_nil]%elem_of_cons]%elem_of_cons;
      by eexists. }
  split; [exact Hn|]. rewrite (proj1 (load_order_spec two_files [text_of "b.R"] Hn)).
  vm_compute. reflexivity.
Defined.
