(* ===== verification/Lines.v ===== *)
(** * Lines and positions of a text

    A position in a text is determined by what precedes it: the number of
    newlines, and the length of the last line in the unit of the encoding.
    [LineIndexes] is the interface of the crate [biome_line_index], stated with
    these; [line_index_reference] is an instance on which witnesses compute. *)

From S2P Require Export Text External.

(** ** Widths of integers *)

Definition u32_max : N := 4294967295.

(** The addition and subtraction of [TextSize], a [u32]. *)
Definition size_add `{BuildProfile} (a b : N) : option N :=
  if bool_decide (a + b ≤ u32_max)%N then Some (a + b)%N
  else if debug_assertions then None else Some ((a + b) `mod` (u32_max + 1))%N.

Definition size_sub `{BuildProfile} (a b : N) : option N :=
  if bool_decide (b ≤ a)%N then Some (a - b)%N
  else if debug_assertions then None else Some (a + (u32_max + 1) - b)%N.

(** The length of a text in bytes. *)
Definition len (s : text) : N := N.of_nat (length s).

(** A text whose offsets are [u32]. *)
Definition fits (s : text) : Prop := (len s ≤ u32_max)%N.

(** [TextSize::of(s)], which unwraps the conversion to [u32]. *)
Definition size_of (s : text) : option N :=
  if bool_decide (fits s) then Some (len s) else None.

(** ** Positions *)

Inductive WideEncoding := Utf16 | Utf32.
Inductive PositionEncoding := Utf8 | Wide (enc : WideEncoding).

(** The types of [biome_line_index] and of the LSP; all fields are [u32]. *)
Record LineCol := mkLineCol { line : N; col : N }.
Record WideLineCol := mkWideLineCol { wide_line : N; wide_col : N }.
Record Position := mkPosition { p_line : N; p_character : N }.
Record Range := mkRange { r_start : Position; r_end : Position }.

#[export] Instance Position_eq_dec : EqDecision Position.
Proof. solve_decision. Defined.
#[export] Instance Range_eq_dec : EqDecision Range.
Proof. solve_decision. Defined.
#[export] Instance LineCol_eq_dec : EqDecision LineCol.
Proof. solve_decision. Defined.
#[export] Instance WideLineCol_eq_dec : EqDecision WideLineCol.
Proof. solve_decision. Defined.

Definition newline_count (p : text) : nat := length (filter (newline =.) p).

(** What follows the last newline. *)
Definition last_line (p : text) : text :=
  foldl (λ acc b, if bool_decide (b = newline) then [] else acc ++ [b]) [] p.

Definition wide_units (enc : WideEncoding) (s : text) : nat :=
  match enc with Utf16 => utf16_count s | Utf32 => char_count s end.

Definition units (enc : PositionEncoding) (s : text) : nat :=
  match enc with Utf8 => length s | Wide enc => wide_units enc s end.

(** The position after the text [p]. *)
Definition line_col_after (p : text) : LineCol :=
  mkLineCol (N.of_nat (newline_count p)) (len (last_line p)).
Definition wide_after (enc : WideEncoding) (p : text) : WideLineCol :=
  mkWideLineCol (N.of_nat (newline_count p)) (N.of_nat (wide_units enc (last_line p))).
Definition position_after (enc : PositionEncoding) (p : text) : Position :=
  mkPosition (N.of_nat (newline_count p)) (N.of_nat (units enc (last_line p))).

(** The offsets of the lines of a text. *)
Fixpoint starts_after (o : N) (s : text) : list N :=
  match s with
  | [] => []
  | b :: s =>
      if bool_decide (b = newline) then (o + 1)%N :: starts_after (o + 1) s
      else starts_after (o + 1) s
  end.
Definition line_starts (s : text) : list N := 0%N :: starts_after 0 s.

(** ** The interface of [biome_line_index] *)

Class LineIndexes := {
  LineIndex : Type;
  index_new : text → LineIndex;
  newlines : LineIndex → list N;
  index_len : LineIndex → N;
  index_offset : LineIndex → LineCol → option N;
  index_line_col : LineIndex → N → option LineCol;
  to_wide : LineIndex → WideEncoding → LineCol → option WideLineCol;
  to_utf8 : LineIndex → WideEncoding → WideLineCol → LineCol;
  newlines_new s : fits s → newlines (index_new s) = line_starts s;
  index_len_new s : fits s → index_len (index_new s) = N.min u32_max (N.of_nat (length (line_starts s)));
  index_offset_new a r : fits (a ++ r) → index_offset (index_new (a ++ r)) (line_col_after a) = Some (len a);
  index_line_col_new a r : fits (a ++ r) →
    index_line_col (index_new (a ++ r)) (len a) = Some (line_col_after a);
  to_wide_new enc a r : fits (a ++ r) → utf8 a → utf8 r →
    to_wide (index_new (a ++ r)) enc (line_col_after a) = Some (wide_after enc a);
  to_utf8_new enc a r : fits (a ++ r) → utf8 a → utf8 r →
    to_utf8 (index_new (a ++ r)) enc (wide_after enc a) = line_col_after a;
}.

(** ** Facts on lines *)

Lemma newline_count_app a b : newline_count (a ++ b) = newline_count a + newline_count b.
Proof. unfold newline_count. by rewrite filter_app, length_app. Qed.

Lemma newline_count_zero s : newline_count s = 0 ↔ newline ∉ s.
Proof.
  unfold newline_count. rewrite length_zero_iff_nil. split.
  - intros Hf Hin. apply (not_elem_of_nil newline). rewrite <-Hf. by apply list_elem_of_filter.
  - intros Hn. destruct (filter _ s) as [|b l] eqn:Hf; [done|]. exfalso. apply Hn.
    assert (b ∈ filter (newline =.) s) as [<- ?]%list_elem_of_filter; [rewrite Hf; left|done].
Qed.

Lemma last_line_snoc p b : last_line (p ++ [b]) = if bool_decide (b = newline) then [] else last_line p ++ [b].
Proof. unfold last_line. by rewrite foldl_app. Qed.

Lemma last_line_app a b : newline ∉ b → last_line (a ++ b) = last_line a ++ b.
Proof.
  induction b as [|x b IH] using rev_ind; intros Hb; [by rewrite !app_nil_r|].
  apply not_elem_of_app in Hb as [Hb [Hx _]%not_elem_of_cons]. rewrite app_assoc, last_line_snoc, IH by done.
  rewrite bool_decide_false by congruence. by rewrite app_assoc.
Qed.

Lemma last_line_newline a b : newline ∉ b → last_line (a ++ newline :: b) = b.
Proof.
  intros Hb. change (newline :: b) with ([newline] ++ b). rewrite app_assoc, last_line_app by done.
  by rewrite last_line_snoc, bool_decide_true.
Qed.

Lemma last_line_alone s : newline ∉ s → last_line s = s.
Proof. intros Hs. exact (last_line_app [] s Hs). Qed.

(** A text is its last line, alone or after a newline. *)
Lemma last_line_split p :
  (newline ∉ last_line p) ∧
  ((newline ∉ p) ∧ last_line p = p ∨ ∃ a, p = a ++ newline :: last_line p).
Proof.
  induction p as [|b p (Hl & Hc)] using rev_ind; [split; [|left; split]; done || apply not_elem_of_nil|].
  rewrite last_line_snoc. case_bool_decide as Hb.
  - subst b. split; [apply not_elem_of_nil|]. right. by exists p.
  - split; [apply not_elem_of_app; split; [done|]; apply not_elem_of_cons; split; [congruence|apply not_elem_of_nil]|].
    destruct Hc as [[Hp ->]|[a Ha]].
    + left. split; [|done]. apply not_elem_of_app. split; [done|].
      apply not_elem_of_cons; split; [congruence|apply not_elem_of_nil].
    + right. exists a. rewrite Ha at 1. by rewrite <-app_assoc.
Qed.

Lemma last_line_utf8 p : utf8 p → utf8 (last_line p).
Proof.
  intros Hp. destruct (last_line_split p) as [_ [[_ ->]|[a Ha]]]; [done|].
  rewrite Ha in Hp. by eapply utf8_after_newline.
Qed.

(** ** Facts on positions *)

Lemma units_app enc a r : starts_char r → units enc (a ++ r) = units enc a + units enc r.
Proof.
  intros Hr. destruct enc as [|[]]; [apply length_app|by apply utf16_count_app|by apply char_count_app].
Qed.

Lemma units_pos enc s : s ≠ [] → 0 < units enc s.
Proof.
  intros Hs. destruct enc as [|[]]; simpl.
  - destruct s; simpl; [done|lia].
  - unfold utf16_count. destruct (chars s) as [|c l] eqn:Hc; [by apply chars_nil_iff in Hc|].
    simpl. unfold len_utf16. case_bool_decide; lia.
  - unfold char_count. destruct (chars s) as [|c l] eqn:Hc; [by apply chars_nil_iff in Hc|]. simpl. lia.
Qed.

(** The order of positions. *)
Definition position_lt (p q : Position) : bool :=
  bool_decide (p_line p < p_line q)%N ||
  (bool_decide (p_line p = p_line q) && bool_decide (p_character p < p_character q)%N).

Lemma position_lt_spec p q :
  position_lt p q = true ↔
  (p_line p < p_line q ∨ (p_line p = p_line q ∧ p_character p < p_character q))%N.
Proof. unfold position_lt. rewrite orb_true_iff, andb_true_iff, !bool_decide_eq_true. done. Qed.

Lemma position_lt_irrefl p : position_lt p p = false.
Proof. apply not_true_iff_false. rewrite position_lt_spec. lia. Qed.

(** Later text has later positions. *)
Lemma position_after_app enc a d :
  starts_char d → d ≠ [] → position_lt (position_after enc a) (position_after enc (a ++ d)) = true.
Proof.
  intros Hd Hne. apply position_lt_spec. simpl. rewrite newline_count_app.
  destruct (decide (newline ∈ d)) as [Hin|Hn].
  - left. assert (newline_count d ≠ 0) by (by rewrite newline_count_zero; intros ?). lia.
  - right. rewrite (proj2 (newline_count_zero d) Hn), last_line_app, units_app by done.
    pose proof (units_pos enc d Hne). lia.
Qed.

Lemma line_after_app enc a d : (p_line (position_after enc a) ≤ p_line (position_after enc (a ++ d)))%N.
Proof. simpl. rewrite newline_count_app. lia. Qed.

(** Two ways of splitting a text are nested. *)
Lemma app_split {A} (a r a' r' : list A) :
  a ++ r = a' ++ r' → (∃ d, a' = a ++ d ∧ r = d ++ r') ∨ (∃ d, a = a' ++ d ∧ r' = d ++ r).
Proof.
  intros (d & [[-> ->]|[-> ->]])%app_eq_app; [right|left]; by exists d.
Qed.

(** A position is after one prefix only. *)
Lemma position_after_inj enc a r a' r' :
  a ++ r = a' ++ r' → utf8 a → utf8 a' → position_after enc a = position_after enc a' → a = a'.
Proof.
  assert (Hwlog : ∀ a d, utf8 a → utf8 (a ++ d) →
    position_after enc a = position_after enc (a ++ d) → d = []).
  { intros b d Hb Hd%utf8_app_iff Hp; [|done]. destruct d as [|x d]; [done|].
    pose proof (position_after_app enc b (x :: d) (utf8_starts_char _ Hd)) as Hlt.
    rewrite <-Hp, position_lt_irrefl in Hlt. by discriminate Hlt. }
  intros [(d & -> & _)|(d & -> & _)]%app_split Ha Ha' Hp.
  - by rewrite (Hwlog a d Ha Ha' Hp), app_nil_r.
  - by rewrite (Hwlog a' d Ha' Ha (eq_sym Hp)), app_nil_r.
Qed.

(** ** The lines of a text *)

Lemma len_app a b : len (a ++ b) = (len a + len b)%N.
Proof. unfold len. rewrite length_app. lia. Qed.

Lemma len_zero s : len s = 0%N → s = [].
Proof. destruct s; [done|]. unfold len. simpl length. lia. Qed.

Lemma starts_after_app o a b : starts_after o (a ++ b) = starts_after o a ++ starts_after (o + len a) b.
Proof.
  revert o. induction a as [|x a IH]; intros o; [by rewrite N.add_0_r|].
  simpl. replace (o + len (x :: a))%N with (o + 1 + len a)%N by (unfold len; simpl; lia).
  rewrite IH. by case_bool_decide.
Qed.

Lemma length_starts_after o a : length (starts_after o a) = newline_count a.
Proof.
  unfold newline_count. revert o. induction a as [|x a IH]; intros o; [done|]. simpl.
  rewrite filter_cons. case_bool_decide; case_decide; simpl; rewrite ?IH; congruence.
Qed.

(** The line of a prefix starts where its last line does. *)
Lemma line_starts_lookup a r : line_starts (a ++ r) !! newline_count a = Some (len a - len (last_line a))%N.
Proof.
  destruct (last_line_split a) as [_ [[Hn Hl]|[b Hb]]].
  - rewrite (proj2 (newline_count_zero a) Hn), Hl. simpl. f_equal. lia.
  - rewrite Hb at 1 2 3. destruct (last_line_split a) as [Hn _].
    revert Hn. generalize (last_line a). intros l Hn. unfold line_starts.
    change (newline :: l) with ([newline] ++ l). rewrite !newline_count_app.
    rewrite (proj2 (newline_count_zero l) Hn), Nat.add_0_r, Nat.add_1_r. simpl.
    rewrite <-!app_assoc, starts_after_app, lookup_app_r by (rewrite length_starts_after; lia).
    rewrite length_starts_after, Nat.sub_diag. simpl. f_equal. rewrite len_app. unfold len. simpl. lia.
Qed.

(** ** A reference instance

    Looks positions up among the prefixes of the text. *)

Definition char_prefixes (s : text) : list text :=
  (λ k, concat (take k (chars s))) <$> seq 0 (S (length (chars s))).

Definition find_prefix (P : text → bool) (s : text) : option text := List.find P (char_prefixes s).

Lemma find_prefix_spec P a r :
  utf8 (a ++ r) → utf8 a → P a = true →
  (∀ b c, a ++ r = b ++ c → utf8 b → P b = true → b = a) →
  find_prefix P (a ++ r) = Some a.
Proof.
  intros Hs Ha HP Huniq. pose proof (proj1 (utf8_app_iff a r Ha) Hs) as Hr.
  unfold find_prefix. destruct (List.find P _) as [b|] eqn:Hf.
  - apply find_some in Hf as [Hin%list_elem_of_In Hb]. f_equal.
    apply list_elem_of_fmap in Hin as (k & -> & _).
    assert (Hsplit : chars (a ++ r) = take k (chars (a ++ r)) ++ drop k (chars (a ++ r))) by by rewrite take_drop.
    eapply (Huniq _ (concat (drop k (chars (a ++ r))))); [|exact (proj1 (chars_split _ _ _ Hs Hsplit))|done].
    by rewrite <-concat_app, take_drop, chars_concat.
  - exfalso. eapply find_none in Hf; [by rewrite HP in Hf|]. apply list_elem_of_In, list_elem_of_fmap.
    rewrite chars_app by by apply utf8_starts_char.
    exists (length (chars a)). rewrite take_app_length, chars_concat. split; [done|].
    apply elem_of_seq. rewrite length_app. lia.
Qed.

Definition reference_to_wide (s : text) (enc : WideEncoding) (lc : LineCol) : option WideLineCol :=
  wide_after enc <$> find_prefix (λ a, bool_decide (line_col_after a = lc)) s.

Definition reference_to_utf8 (s : text) (enc : WideEncoding) (lc : WideLineCol) : LineCol :=
  match find_prefix (λ a, bool_decide (wide_after enc a = lc)) s with
  | Some a => line_col_after a
  | None => mkLineCol (wide_line lc) (wide_col lc)
  end.

Definition reference_offset (s : text) (lc : LineCol) : option N :=
  if bool_decide (line lc < N.of_nat (length (line_starts s)))%N then
    start ← line_starts s !! N.to_nat (line lc);
    if bool_decide (start + col lc ≤ u32_max)%N then Some (start + col lc)%N else None
  else None.

Definition line_index_reference : LineIndexes.
Proof.
  refine {|
    LineIndex := text;
    index_new s := s;
    newlines := line_starts;
    index_len s := N.min u32_max (N.of_nat (length (line_starts s)));
    index_offset := reference_offset;
    index_line_col s o :=
      if bool_decide (o ≤ len s)%N then Some (line_col_after (take (N.to_nat o) s)) else None;
    to_wide := reference_to_wide;
    to_utf8 := reference_to_utf8 |}.
  - done.
  - done.
  - intros a r Hf. unfold reference_offset. simpl line. simpl col.
    pose proof (line_starts_lookup a r) as Hl. pose proof (lookup_lt_Some _ _ _ Hl).
    rewrite bool_decide_true by lia. rewrite Nat2N.id, Hl. simpl.
    assert (len (last_line a) ≤ len a)%N.
    { destruct (last_line_split a) as [_ [[_ ->]|[b Hb]]]; [done|]. rewrite Hb at 2.
      rewrite len_app. unfold len. simpl. lia. }
    unfold fits in Hf. rewrite len_app in Hf. rewrite bool_decide_true by lia. f_equal. lia.
  - intros a r _. rewrite len_app, bool_decide_true by lia.
    unfold len. rewrite Nat2N.id, take_app_length. done.
  - intros enc a r _ Ha Hr. unfold reference_to_wide.
    rewrite (find_prefix_spec _ a r); [done|by apply utf8_two|done|by apply bool_decide_eq_true|].
    intros b c Heq Hb Hp%bool_decide_eq_true. symmetry.
    eapply (position_after_inj Utf8); [exact Heq|done..|].
    injection Hp as Hl Hc. unfold position_after. f_equal; symmetry; [exact Hl|exact Hc].
  - intros enc a r _ Ha Hr. unfold reference_to_utf8.
    rewrite (find_prefix_spec _ a r); [done|by apply utf8_two|done|by apply bool_decide_eq_true|].
    intros b c Heq Hb Hp%bool_decide_eq_true. symmetry.
    eapply (position_after_inj (Wide enc)); [exact Heq|done..|].
    injection Hp as Hl Hc. unfold position_after. f_equal; symmetry; [exact Hl|exact Hc].
Defined.
