(* ===== verification/LineEnding.v ===== *)
(** * Line endings: [crates/aether_lsp_utils/src/line_ending.rs]

    [normalize] replaces CRLF by LF in place: the buffer is [written ++ tail],
    and the first [gap_len] bytes of [tail] are those freed so far. The search
    for CRLF is the crate [memchr]. *)

From S2P Require Export Text.
From Equations Require Import Equations.

Inductive LineEnding := Lf | Crlf.

#[export] Instance LineEnding_eq_dec : EqDecision LineEnding.
Proof. solve_decision. Defined.

(** [Display]. *)
Definition fmt_line_ending (e : LineEnding) : text :=
  match e with Lf => text_of "LF" | Crlf => text_of "CRLF" end.

Definition carriage_return : ascii := "013"%char.
Definition crlf : text := [carriage_return; newline].

(** [memmem::Finder::find]: the first occurrence of the needle. *)
Class Memmem := {
  memmem_find : text → text → option nat;
  memmem_find_spec needle s :
    match memmem_find needle s with
    | Some i => (∃ a r, s = a ++ needle ++ r ∧ length a = i) ∧
        ∀ a r, s = a ++ needle ++ r → i ≤ length a
    | None => ∀ a r, s ≠ a ++ needle ++ r
    end;
}.

Fixpoint memmem_reference_find (needle s : text) : option nat :=
  if starts_with s needle then Some 0
  else match s with [] => None | _ :: s => S <$> memmem_reference_find needle s end.

#[refine] Instance memmem_reference : Memmem := {| memmem_find := memmem_reference_find |}.
Proof.
  intros needle s. induction s as [|b s IH]; simpl.
  - destruct (starts_with [] needle) eqn:Hp.
    + apply starts_with_spec in Hp as [r Hr]. split; [|intros; lia]. by exists [], r.
    + intros a r Hs. symmetry in Hs. apply app_eq_nil in Hs as [-> Hs]. symmetry in Hs.
      apply not_true_iff_false in Hp. apply Hp, starts_with_spec. by exists r.
  - destruct (starts_with (b :: s) needle) eqn:Hp.
    + apply starts_with_spec in Hp as [r Hr]. split; [|intros; lia]. by exists [], r.
    + assert (Hne : ∀ a r, b :: s = a ++ needle ++ r → ∃ a', a = b :: a' ∧ s = a' ++ needle ++ r).
      { intros [|x a] r Hs; simplify_eq/=; [|by eauto].
        apply not_true_iff_false in Hp. destruct Hp. apply starts_with_spec. by exists r. }
      destruct (memmem_reference_find needle s) as [i|]; simpl.
      * destruct IH as [(a & r & -> & <-) Hmin]. split; [by exists (b :: a), r|].
        intros a' r' (a'' & -> & Hs)%Hne. apply Hmin in Hs. simpl. lia.
      * intros a r (a' & -> & Hs)%Hne. by eapply IH.
Defined.

(** [s.copy_within(i..j, 0)] on a slice. *)
Definition copy_within (s : text) (i j : nat) : option text :=
  if bool_decide (i ≤ j ≤ length s)
  then Some (take (j - i) (drop i s) ++ drop (j - i) s) else None.

Section line_ending.
Context {MM : Memmem}.

Definition finder_find (s : text) : option nat := memmem_find crlf s.

Definition infer (x : text) : LineEnding :=
  match finder_find x with Some _ => Crlf | None => Lf end.

(** [tail.copy_within(gap_len..idx, 0)] and the split of [tail] at
    [idx - gap_len]. *)
Definition advance (tail : text) (gap_len idx : nat) : option (text * text) :=
  tail' ← copy_within tail gap_len idx;
  if bool_decide (idx - gap_len ≤ length tail')
  then Some (take (idx - gap_len) tail', drop (idx - gap_len) tail') else None.

(** One turn of the loop of [normalize]: [None] is the early return, otherwise
    what is split off the front of [tail], and the rest. *)
Definition normalize_step (tail : text) (gap_len : nat) (crlf_seen : bool)
    : option (option (text * text)) :=
  if bool_decide (gap_len ≤ length tail) then
    match finder_find (drop gap_len tail) with
    | None => if crlf_seen then Some <$> advance tail gap_len (length tail) else Some None
    | Some idx => Some <$> advance tail gap_len (idx + gap_len)
    end
  else None.

Lemma advance_spec tail gap_len idx :
  match advance tail gap_len idx with
  | Some (front, rest) =>
      gap_len ≤ idx ≤ length tail ∧ front = take (idx - gap_len) (drop gap_len tail) ∧
      length rest = length tail - (idx - gap_len) ∧ drop gap_len rest = drop idx tail
  | None => ¬ gap_len ≤ idx ≤ length tail
  end.
Proof.
  unfold advance, copy_within. case_bool_decide as Hi; simpl; [|done].
  set (front := take (idx - gap_len) (drop gap_len tail)).
  assert (Hf : length front = idx - gap_len) by (unfold front; rewrite length_take, length_drop; lia).
  rewrite <-Hf, take_app_length, drop_app_length. rewrite bool_decide_true by (rewrite length_app; lia).
  split_and!; [lia..|done|by rewrite length_drop|]. rewrite drop_drop. f_equal. lia.
Qed.

Lemma normalize_step_length tail gap_len crlf_seen front rest :
  normalize_step tail gap_len crlf_seen = Some (Some (front, rest)) →
  gap_len ≤ length rest ≤ length tail.
Proof.
  unfold normalize_step. case_bool_decide; [|done].
  assert (Hadv : ∀ idx, Some <$> advance tail gap_len idx = Some (Some (front, rest)) →
    gap_len ≤ length rest ≤ length tail).
  { intros idx. pose proof (advance_spec tail gap_len idx) as Ha.
    destruct (advance tail gap_len idx) as [[f r]|]; [|done]. intros [= -> ->]. lia. }
  destruct (finder_find _); [by apply Hadv|]. destruct crlf_seen; [by apply Hadv|done].
Qed.

(** What is done after the loop: [buf.set_len(buf.len() - gap_len)]. *)
Definition set_len (buf : text) (gap_len : nat) : option text :=
  if bool_decide (gap_len ≤ length buf) then Some (take (length buf - gap_len) buf) else None.

Equations? normalize_loop (written tail : text) (gap_len : nat) (crlf_seen : bool) : option text
  by wf (length tail - gap_len) lt :=
normalize_loop w t gap_len crlf_seen with with_eq (normalize_step t gap_len crlf_seen) => {
  | exist _ None _ => None
  | exist _ (Some None) _ => Some (w ++ t)
  | exist _ (Some (Some (front, rest))) Hstep with decide (length rest = gap_len) => {
    | left _ => set_len (w ++ front ++ rest) gap_len
    | right Hne => normalize_loop (w ++ front) rest (S gap_len) true } }.
Proof. apply normalize_step_length in Hstep. lia. Qed.

Definition normalize (x : text) : option text := normalize_loop [] x 0 false.

Definition normalize_ref (x : text) : option text :=
  match infer x with Lf => Some x | Crlf => normalize x end.

(** ** The specification *)

(** Every CRLF replaced by LF, from the left. *)
Fixpoint replace_crlf (s : text) : text :=
  match s with
  | [] => []
  | b :: s' =>
      match s' with
      | c :: s'' =>
          if bool_decide (b = carriage_return ∧ c = newline) then newline :: replace_crlf s''
          else b :: replace_crlf s'
      | [] => [b]
      end
  end.

Lemma replace_crlf_crlf s : replace_crlf (crlf ++ s) = newline :: replace_crlf s.
Proof. done. Qed.

Lemma replace_crlf_cons b s :
  (∀ r, b :: s ≠ crlf ++ r) → replace_crlf (b :: s) = b :: replace_crlf s.
Proof.
  intros Hn. destruct s as [|c s]; [done|]. cbn [replace_crlf].
  rewrite bool_decide_false; [done|]. intros [-> ->]. by apply (Hn s).
Qed.

(** Up to the first CRLF nothing changes. *)
Lemma replace_crlf_first a r :
  (∀ a' r', a ++ r = a' ++ crlf ++ r' → length a ≤ length a') →
  replace_crlf (a ++ r) = a ++ replace_crlf r.
Proof.
  induction a as [|b a IH]; intros Hmin; [done|]. rewrite <-app_comm_cons, replace_crlf_cons.
  - rewrite IH; [done|]. intros a' r' Heq.
    specialize (Hmin (b :: a') r'). simpl in Hmin. rewrite Heq in Hmin. specialize (Hmin eq_refl). lia.
  - intros r' Heq. specialize (Hmin [] r' Heq). simpl in Hmin. lia.
Qed.

Lemma replace_crlf_none s : (∀ a r, s ≠ a ++ crlf ++ r) → replace_crlf s = s.
Proof.
  intros Hn. rewrite <-(app_nil_r s) at 1. rewrite replace_crlf_first; [by rewrite app_nil_r|].
  intros a' r' Heq. rewrite app_nil_r in Heq. by apply Hn in Heq.
Qed.

Lemma replace_crlf_utf8 k s : utf8_from k s = true → utf8_from k (replace_crlf s) = true.
Proof.
  remember (length s) as n eqn:Hn. revert k s Hn.
  induction n as [n IH] using lt_wf_ind. intros k s -> Hs.
  destruct s as [|b s]; [done|]. destruct (starts_with (b :: s) crlf) eqn:Hp.
  - apply starts_with_spec in Hp as [r Hr]. rewrite Hr in *. rewrite replace_crlf_crlf.
    destruct k; [|done]. simpl in Hs |- *. eapply IH; [|done|exact Hs]. simpl. lia.
  - rewrite replace_crlf_cons.
    + cbn [utf8_from] in Hs |- *. destruct k; apply andb_true_iff in Hs as [-> Hs];
        (eapply IH; [|done|exact Hs]); simpl; lia.
    + intros r Hr. apply not_true_iff_false in Hp. apply Hp, starts_with_spec. by exists r.
Qed.

(** A turn writes the input up to the next CRLF, whose CR becomes part of the
    gap; the last one writes all of it. *)
Lemma normalize_step_spec tail gap_len crlf_seen :
  gap_len ≤ length tail → (crlf_seen = false → gap_len = 0) →
  match normalize_step tail gap_len crlf_seen with
  | None => False
  | Some None => gap_len = 0 ∧ replace_crlf tail = tail
  | Some (Some (front, rest)) =>
      gap_len ≤ length rest ∧ front `prefix_of` drop gap_len tail ∧
      if decide (length rest = gap_len) then replace_crlf (drop gap_len tail) = front
      else replace_crlf (drop gap_len tail) = front ++ replace_crlf (drop (S gap_len) rest)
  end.
Proof.
  intros Hg Hseen. unfold normalize_step, finder_find. rewrite bool_decide_true by done.
  pose proof (memmem_find_spec crlf (drop gap_len tail)) as Hfind.
  destruct (memmem_find crlf (drop gap_len tail)) as [idx|].
  - destruct Hfind as [(a & r & Hd & <-) Hmin].
    assert (Hlen : length (drop gap_len tail) = length a + 2 + length r) by (rewrite Hd, !length_app; simpl; lia).
    rewrite length_drop in Hlen. pose proof (advance_spec tail gap_len (length a + gap_len)) as Hadv.
    destruct (advance tail gap_len (length a + gap_len)) as [[front rest]|]; [|lia]. simpl.
    destruct Hadv as (_ & -> & Hrest & Hdrop). rewrite Nat.add_sub in *.
    rewrite Hd, take_app_length. split; [lia|]. split; [by apply prefix_app_r|].
    rewrite decide_False by lia. rewrite replace_crlf_first by (intros; apply (Hmin a' r'); by rewrite Hd).
    rewrite replace_crlf_crlf. f_equal.
    rewrite (Nat.add_comm (length a)), <-drop_drop, Hd, drop_app_length in Hdrop.
    rewrite <-Nat.add_1_r, <-drop_drop, Hdrop. symmetry. by apply replace_crlf_cons.
  - apply replace_crlf_none in Hfind. destruct crlf_seen.
    + pose proof (advance_spec tail gap_len (length tail)) as Hadv.
      destruct (advance tail gap_len (length tail)) as [[front rest]|]; [|lia]. simpl.
      destruct Hadv as (_ & -> & Hrest & Hdrop). rewrite take_ge by (rewrite length_drop; lia).
      split; [lia|]. split; [done|]. by rewrite decide_True by lia.
    + rewrite (Hseen eq_refl) in *. by rewrite drop_0 in Hfind.
Qed.

(** The input that remains starts after the gap. *)
Lemma normalize_loop_spec written tail gap_len crlf_seen :
  gap_len ≤ length tail → (crlf_seen = false → gap_len = 0) →
  normalize_loop written tail gap_len crlf_seen = Some (written ++ replace_crlf (drop gap_len tail)).
Proof.
  funelim (normalize_loop written tail gap_len crlf_seen); intros Hg Hseen;
    pose proof (normalize_step_spec t gap_len crlf_seen Hg Hseen) as Hspec;
    match goal with E : normalize_step _ _ _ = _ |- _ => rewrite E in Hspec end.
  - destruct Hspec as [-> Ht]. by rewrite drop_0, Ht.
  - done.
  - destruct Hspec as (_ & _ & Hr). rewrite decide_True in Hr by done. rewrite Hr.
    unfold set_len. rewrite app_assoc, bool_decide_true by (rewrite !length_app; lia).
    f_equal. apply take_app_length'. rewrite (length_app (w ++ front)). lia.
  - destruct Hspec as (Hlen & _ & Hr). rewrite decide_False in Hr by done.
    match goal with IH : _ → _ → normalize_loop _ _ _ _ = _ |- _ => rewrite IH by (done || lia) end.
    by rewrite Hr, app_assoc.
Qed.

Lemma normalize_total (x : text) : normalize x = Some (replace_crlf x) ∧ normalize_ref x = Some (replace_crlf x).
Proof.
  assert (Hn : normalize x = Some (replace_crlf x)).
  { unfold normalize. rewrite normalize_loop_spec by (done || lia). by rewrite drop_0. }
  split; [done|]. unfold normalize_ref, infer, finder_find. pose proof (memmem_find_spec crlf x) as Hf.
  destruct (memmem_find crlf x); [done|]. by rewrite replace_crlf_none.
Qed.

(** C22. In-place normalisation never panics and computes the text with every
    CRLF replaced by LF; it is UTF-8 again when the input was, which the
    conversion without check relies on, and the borrowing variant agrees. *)
Theorem normalize_replaces_crlf (x : text) :
  normalize x = Some (replace_crlf x) ∧ normalize_ref x = Some (replace_crlf x) ∧
  (utf8 x → utf8 (replace_crlf x)).
Proof. split; [|split]; [apply normalize_total..|apply replace_crlf_utf8]. Qed.

End line_ending.

Lemma normalize_replaces_crlf_witness :
  let x := crlf ++ text_of "a" ++ crlf ++ [newline] ++ text_of "b" ++ crlf in
  normalize (MM := memmem_reference) x =
    Some ([newline] ++ text_of "a" ++ [newline; newline] ++ text_of "b" ++ [newline]).
Proof. exact (proj1 (normalize_replaces_crlf (MM := memmem_reference) _)). Defined.

(** Normalisation looks at each CR once: [CR CR LF] becomes [CR LF]. *)
Theorem normalize_leaves_crlf :
  normalize (MM := memmem_reference) (carriage_return :: crlf) = Some crlf ∧
  infer (MM := memmem_reference) crlf = Crlf.
Proof. split; vm_compute; reflexivity. Qed.
