(* ===== verification/TextEdit.v ===== *)
(** * Text edits: [crates/aether_lsp_utils/src/text_edit.rs] and [diff.rs]

    An [Indel] replaces a range of the original text; a [TextEdit] is a list of
    them, disjoint and sorted. The adaptors of [itertools], the ranges of
    [text-size] and the diff of [dissimilar] are parameters. Reserving memory
    in [apply] has no effect on the result and is left out. *)

From S2P Require Export Lines.
Section text_edit.
Context {TR : TextRanges} {TRO : TextRangeOps} {IT : Itertools} {BP : BuildProfile}.

Record Indel := mkIndel { ins : text; del : TextRange }.

#[export] Instance Indel_eq_dec : EqDecision Indel.
Proof. pose proof TextRange_eq_dec. solve_decision. Defined.

Record TextEdit := mkTextEdit { indels : list Indel }.
Record TextEditBuilder := mkBuilder { pending : list Indel }.

(** ** Indels *)

Definition indel_replace (range : TextRange) (replace_with : text) : Indel :=
  mkIndel replace_with range.
Definition indel_insert (offset : N) (s : text) : Indel := indel_replace (range_empty offset) s.
Definition indel_delete (range : TextRange) : Indel := indel_replace range [].

Definition indel_apply (i : Indel) (s : text) : option text :=
  replace_range s (N.to_nat (range_start (del i))) (N.to_nat (range_end (del i))) (ins i).

(** ** Disjoint lists of indels *)

Definition indel_key (i : Indel) : N * N := (range_start (del i), range_end (del i)).

(** The order of pairs. *)
Definition key_le (k k' : N * N) : bool :=
  bool_decide (k.1 < k'.1)%N || (bool_decide (k.1 = k'.1) && bool_decide (k.2 ≤ k'.2)%N).

Definition disjoint_or_equal (p : Indel * Indel) : bool :=
  let '(l, r) := p in
  bool_decide (range_end (del l) ≤ range_start (del r))%N || bool_decide (l = r).

Definition check_disjoint (l : list Indel) : bool := forallb disjoint_or_equal (zip l (drop 1 l)).

(** Sorts in place; the second component is the answer. *)
Definition check_disjoint_and_sort (l : list Indel) : list Indel * bool :=
  let l := sort_by_key key_le indel_key l in (l, check_disjoint l).

Definition assert_disjoint_or_equal (l : list Indel) : option (list Indel) :=
  let '(l, disjoint) := check_disjoint_and_sort l in
  if disjoint then Some l else None.

(** The closure of [coalesce_indels]. *)
Definition coalesce_step (a b : Indel) : option (Indel + Indel * Indel) :=
  if bool_decide (range_end (del a) = range_start (del b)) then
    r ← range_new (range_start (del a)) (range_end (del b));
    Some (inl (mkIndel (ins a ++ ins b) r))
  else Some (inr (a, b)).

Definition coalesce_indels (l : list Indel) : option (list Indel) := coalesce coalesce_step l.

(** ** The builder *)

Definition builder : TextEditBuilder := mkBuilder [].

Definition builder_is_empty (b : TextEditBuilder) : bool := bool_decide (pending b = []).

Definition builder_indel (b : TextEditBuilder) (i : Indel) : option TextEditBuilder :=
  let l := pending b ++ [i] in
  if bool_decide (length l ≤ 16) then mkBuilder <$> assert_disjoint_or_equal l
  else Some (mkBuilder l).

Definition builder_replace (b : TextEditBuilder) (range : TextRange) (replace_with : text) :=
  builder_indel b (indel_replace range replace_with).
Definition builder_delete (b : TextEditBuilder) (range : TextRange) :=
  builder_indel b (indel_delete range).
Definition builder_insert (b : TextEditBuilder) (offset : N) (s : text) :=
  builder_indel b (indel_insert offset s).

Definition builder_finish (b : TextEditBuilder) : option TextEdit :=
  l ← assert_disjoint_or_equal (pending b);
  l ← coalesce_indels l;
  Some (mkTextEdit l).

Definition invalidates_offset (b : TextEditBuilder) (offset : N) : bool :=
  existsb (λ i, range_contains_inclusive (del i) offset) (pending b).

(** ** Edits *)

Definition edit_insert (offset : N) (s : text) : option TextEdit :=
  b ← builder_insert builder offset s; builder_finish b.
Definition edit_delete (range : TextRange) : option TextEdit :=
  b ← builder_delete builder range; builder_finish b.
Definition edit_replace (range : TextRange) (replace_with : text) : option TextEdit :=
  b ← builder_replace builder range replace_with; builder_finish b.

Definition edit_len (e : TextEdit) : nat := length (indels e).
Definition edit_is_empty (e : TextEdit) : bool := bool_decide (indels e = []).

(** One turn of the loop that sums up the length of the result. *)
Definition add_len (i : Indel) (total_len : N) : option N :=
  n ← size_of (ins i);
  total_len ← size_add total_len n;
  size_sub total_len (range_len (del i)).

Definition edit_apply (e : TextEdit) (s : text) : option text :=
  match indels e with
  | [] => Some s
  | [i] => indel_apply i s
  | l =>
      text_size ← size_of s;
      total_len ← foldM add_len l text_size;
      s' ← foldM indel_apply (reverse l) s;
      n ← size_of s';
      if bool_decide (n = total_len) then Some s' else None
  end.

(** [Err(other)] leaves the edit as it is. *)
Definition edit_union (e other : TextEdit) : TextEdit + TextEdit :=
  let merged :=
    merge_by (λ l r, bool_decide (range_start (del l) ≤ range_start (del r))%N)
      (indels e) (indels other) in
  if check_disjoint merged then
    inl (mkTextEdit (dedup_by (λ a b, bool_decide (a = b) && negb (range_is_empty (del a))) merged))
  else inr other.

(** The loop of [apply_to_offset]; [Some None] is its answer [None]. *)
Fixpoint offset_loop (offset res : N) (l : list Indel) : option (option N) :=
  match l with
  | [] => Some (Some res)
  | i :: l =>
      if bool_decide (offset ≤ range_start (del i))%N then Some (Some res)
      else if bool_decide (offset < range_end (del i))%N then Some None
      else
        n ← size_of (ins i);
        res ← size_add res n;
        res ← size_sub res (range_len (del i));
        offset_loop offset res l
  end.

Definition apply_to_offset (e : TextEdit) (offset : N) : option (option N) :=
  offset_loop offset offset (indels e).

End text_edit.
#[global] Arguments mkIndel {TR} _ _.
#[global] Arguments mkTextEdit {TR} _.

Inductive Chunk := Equal (s : text) | Delete (s : text) | Insert (s : text).

Definition chunk_old (c : Chunk) : text :=
  match c with Equal s | Delete s => s | Insert _ => [] end.
Definition chunk_new (c : Chunk) : text :=
  match c with Equal s | Insert s => s | Delete _ => [] end.
Definition chunk_text (c : Chunk) : text :=
  match c with Equal s | Delete s | Insert s => s end.

(** The chunks are [&str]s that spell the old text without the insertions, and
    the new text without the deletions. *)
Class Dissimilar := {
  dissimilar_diff : text → text → list Chunk;
  dissimilar_utf8 left right c :
    utf8 left → utf8 right → c ∈ dissimilar_diff left right → utf8 (chunk_text c);
  dissimilar_old left right :
    utf8 left → utf8 right → concat (chunk_old <$> dissimilar_diff left right) = left;
  dissimilar_new left right :
    utf8 left → utf8 right → concat (chunk_new <$> dissimilar_diff left right) = right;
}.

(** The instance of the witnesses: one deletion and one insertion between the
    common characters at both ends. *)
Fixpoint common_prefix (l k : list text) : list text * list text * list text :=
  match l, k with
  | a :: l', b :: k' =>
      if bool_decide (a = b) then
        let '(p, l', k') := common_prefix l' k' in (a :: p, l', k')
      else ([], l, k)
  | _, _ => ([], l, k)
  end.

Definition middle_diff (left right : text) : list Chunk :=
  let '(p, l, k) := common_prefix (chars left) (chars right) in
  let '(s, l, k) := common_prefix (reverse l) (reverse k) in
  [Equal (concat p); Delete (concat (reverse l)); Insert (concat (reverse k)); Equal (concat (reverse s))].

Lemma common_prefix_spec l k p l' k' : common_prefix l k = (p, l', k') → l = p ++ l' ∧ k = p ++ k'.
Proof.
  revert k p l' k'. induction l as [|a l IH]; intros [|b k] p l' k' Hp; simplify_eq/=; try done.
  case_bool_decide as Hab; [|by simplify_eq]. destruct (common_prefix l k) as [[q l1] k1] eqn:Hq.
  simplify_eq/=. by destruct (IH _ _ _ _ Hq) as [-> ->].
Qed.

Lemma middle_diff_spec left right :
  ∃ p l k s, middle_diff left right = [Equal (concat p); Delete (concat l); Insert (concat k); Equal (concat s)] ∧
    chars left = p ++ l ++ s ∧ chars right = p ++ k ++ s.
Proof.
  unfold middle_diff. destruct (common_prefix (chars left) (chars right)) as [[p l] k] eqn:Hp.
  destruct (common_prefix (reverse l) (reverse k)) as [[s l'] k'] eqn:Hs.
  apply common_prefix_spec in Hp as [-> ->]. apply common_prefix_spec in Hs as [Hl Hk].
  apply (f_equal reverse) in Hl, Hk. rewrite reverse_involutive, reverse_app in Hl, Hk. subst l k.
  by exists p, (reverse l'), (reverse k'), (reverse s).
Qed.

#[refine] Instance dissimilar_reference : Dissimilar := {| dissimilar_diff := middle_diff |}.
Proof.
  - intros left right c Hl Hr Hc. destruct (middle_diff_spec left right) as (p & l & k & s & Hm & Hcl & Hcr).
    destruct (chars_split _ _ _ Hl Hcl) as (Hp & Hls & Hcls). destruct (chars_split _ _ _ Hls Hcls) as (Hl' & Hs & _).
    destruct (chars_split _ _ _ Hr Hcr) as (_ & Hks & Hcks). destruct (chars_split _ _ _ Hks Hcks) as (Hk' & _ & _).
    rewrite Hm in Hc. repeat (apply elem_of_cons in Hc as [->|Hc]; [done|]). by apply not_elem_of_nil in Hc.
  - intros left right _ _. destruct (middle_diff_spec left right) as (p & l & k & s & -> & Hcl & Hcr). simpl.
    rewrite app_nil_r, <-!concat_app, <-Hcl. apply chars_concat.
  - intros left right _ _. destruct (middle_diff_spec left right) as (p & l & k & s & -> & Hcl & Hcr). simpl.
    rewrite app_nil_r, <-!concat_app, <-Hcr. apply chars_concat.
Defined.

Section diff.
Context {TR : TextRanges} {TRO : TextRangeOps} {IT : Itertools} {BP : BuildProfile} {DS : Dissimilar}.

(** The loop of [diff] over the peekable chunks, with its two variables. *)
Fixpoint diff_loop (chunks : list Chunk) (b : TextEditBuilder) (pos : N) : option TextEditBuilder :=
  match chunks with
  | [] => Some b
  | chunk :: chunks =>
      match chunk, chunks with
      | Delete deleted, Insert inserted :: chunks =>
          deleted_len ← size_of deleted;
          range ← range_at pos deleted_len;
          b ← builder_replace b range inserted;
          pos ← size_add pos deleted_len;
          diff_loop chunks b pos
      | Equal s, _ =>
          n ← size_of s;
          pos ← size_add pos n;
          diff_loop chunks b pos
      | Delete deleted, _ =>
          deleted_len ← size_of deleted;
          range ← range_at pos deleted_len;
          b ← builder_delete b range;
          pos ← size_add pos deleted_len;
          diff_loop chunks b pos
      | Insert inserted, _ =>
          b ← builder_insert b pos inserted;
          diff_loop chunks b pos
      end
  end.

Definition diff (left right : text) : option TextEdit :=
  b ← diff_loop (dissimilar_diff left right) builder 0;
  builder_finish b.
End diff.
