(* ===== verification/TextEditTheorems.v ===== *)
(** * Properties of text edits

    The relation [spliced], the simultaneous replacement that edits implement,
    its lemmas, and the theorems on the builder, [apply] and the diff. *)

From S2P Require Export TextEdit.

Section facts.
Context {TR : TextRanges} {TRO : TextRangeOps} {IT : Itertools} {BP : BuildProfile}.

Inductive spliced : N → text → list Indel → text → Prop :=
| spliced_nil o s : utf8 s → spliced o s [] s
| spliced_cons o a d r i l r' :
    utf8 a → utf8 d → utf8 (ins i) →
    range_start (del i) = (o + len a)%N → range_end (del i) = (o + len a + len d)%N →
    spliced (range_end (del i)) r l r' →
    spliced o (a ++ d ++ r) (i :: l) (a ++ ins i ++ r').

(** The lengths of the insertions. *)
Fixpoint ins_len (l : list Indel) : N :=
  match l with [] => 0%N | i :: l => (len (ins i) + ins_len l)%N end.

(** No sum of lengths leaves [u32]. *)
Definition room (s : text) (l : list Indel) : Prop := (len s + ins_len l ≤ u32_max)%N.

Lemma ins_len_app l k : ins_len (l ++ k) = (ins_len l + ins_len k)%N.
Proof. induction l as [|i l IH]; simpl; [done|]. rewrite IH. lia. Qed.

Lemma ins_len_perm l k : l ≡ₚ k → ins_len l = ins_len k.
Proof. induction 1; simpl; lia. Qed.

(** ** The relation *)

Lemma spliced_utf8 o s l s' : spliced o s l s' → utf8 s ∧ utf8 s'.
Proof. induction 1 as [|???????????? _ [? ?]]; [done|]. split; by repeat apply utf8_two. Qed.

Lemma spliced_start o s i l s' : spliced o s (i :: l) s' → (o ≤ range_start (del i))%N.
Proof. inversion 1; lia. Qed.

(** Every range starts after the ones before. *)
Lemma spliced_sorted o s l s' :
  spliced o s l s' →
  StronglySorted (λ a b, range_end (del a) ≤ range_start (del b))%N l ∧
  Forall (λ i, o ≤ range_start (del i))%N l.
Proof.
  induction 1 as [|o a d r i l r' _ _ _ Hst Hen _ [IHs IHf]]; [repeat constructor|].
  split; [by constructor|]. constructor; [lia|]. eapply Forall_impl; [exact IHf|]. intros x Hx.
  cbv beta in Hx. lia.
Qed.

Lemma spliced_length o s l s' :
  spliced o s l s' →
  (len s' + foldr (λ i n, range_len (del i) + n) 0 l = len s + ins_len l)%N.
Proof.
  induction 1 as [|o a d r i l r' _ _ _ Hst Hen _ IH]; simpl; [done|].
  rewrite range_len_spec, Hst, Hen, !len_app. lia.
Qed.

Lemma spliced_app o s1 l1 s1' s2 l2 s2' :
  spliced o s1 l1 s1' → spliced (o + len s1) s2 l2 s2' →
  spliced o (s1 ++ s2) (l1 ++ l2) (s1' ++ s2').
Proof.
  induction 1 as [o s Hs|o a d r i l r' Ha Hd Hi Hst Hen _ IH]; intros H2; simpl.
  - inversion H2; subst; [constructor; by apply utf8_two|].
    rewrite !(app_assoc s a). constructor; [by apply utf8_two|done..| | |].
    + rewrite len_app. lia.
    + rewrite len_app. lia.
    + done.
  - rewrite <-!app_assoc. constructor; [done..|]. apply IH.
    rewrite !len_app in H2. by replace (range_end (del i) + len r)%N with (o + (len a + (len d + len r)))%N by lia.
Qed.

(** ** [edit_apply] *)

Lemma len_to_nat s : N.to_nat (len s) = length s.
Proof. apply Nat2N.id. Qed.

(** From the last indel to the first, offsets stay valid. *)
Lemma apply_reverse p s l s' :
  spliced (len p) s l s' → foldM indel_apply (reverse l) (p ++ s) = Some (p ++ s').
Proof.
  intros Hs. remember (len p) as o eqn:Ho. revert p Ho.
  induction Hs as [|o a d r i l r' Ha Hd Hi Hst Hen Hl IH]; intros p Ho; [done|].
  rewrite reverse_cons, foldM_app.
  replace (p ++ a ++ d ++ r) with ((p ++ a ++ d) ++ r) by by rewrite <-!app_assoc.
  rewrite IH by (rewrite Hen, !len_app; lia). simpl. unfold indel_apply.
  replace ((p ++ a ++ d) ++ r') with ((p ++ a) ++ d ++ r') by by rewrite <-!app_assoc.
  rewrite Hen, Hst, Ho, <-len_app, N2Nat.inj_add, !len_to_nat.
  pose proof (spliced_utf8 _ _ _ _ Hl) as [_ Hr'].
  rewrite replace_range_app; [|by apply utf8_two|done]. simpl. by rewrite <-app_assoc.
Qed.

Lemma size_add_fits a b : (a + b ≤ u32_max)%N → size_add a b = Some (a + b)%N.
Proof. intros Hab. unfold size_add. by rewrite bool_decide_true. Qed.

Lemma size_sub_le a b : (b ≤ a)%N → size_sub a b = Some (a - b)%N.
Proof. intros Hab. unfold size_sub. by rewrite bool_decide_true. Qed.

Lemma size_of_fits s : fits s → size_of s = Some (len s).
Proof. intros Hs. unfold size_of. by rewrite bool_decide_true. Qed.

Lemma add_len_fits i n :
  (n + len (ins i) ≤ u32_max)%N → (range_len (del i) ≤ n + len (ins i))%N →
  add_len i n = Some (n + len (ins i) - range_len (del i))%N.
Proof.
  intros Hn Hd. unfold add_len. rewrite size_of_fits by (unfold fits; lia). cbn [mbind option_bind].
  rewrite size_add_fits by done. cbn [mbind option_bind]. by apply size_sub_le.
Qed.

(** The running length is right and never leaves [u32]. *)
Lemma total_len_spec k o s l s' :
  spliced o s l s' → (k + len s + ins_len l ≤ u32_max)%N →
  foldM add_len l (k + len s)%N = Some (k + len s')%N.
Proof.
  intros Hs. revert k. induction Hs as [|o a d r i l r' Ha Hd Hi Hst Hen Hl IH]; intros k Hk; [done|].
  cbn [ins_len] in Hk. rewrite !len_app in *. cbn [foldM].
  rewrite add_len_fits by (rewrite ?range_len_spec; lia). cbn [mbind option_bind].
  rewrite range_len_spec, Hst, Hen.
  replace (k + (len a + (len d + len r)) + len (ins i) - (o + len a + len d - (o + len a)))%N
    with (k + len a + len (ins i) + len r)%N by lia.
  rewrite IH by lia. f_equal. lia.
Qed.

Lemma edit_apply_spliced s l s' :
  spliced 0 s l s' → room s l → edit_apply (mkTextEdit l) s = Some s'.
Proof.
  intros Hs Hroom. pose proof (apply_reverse [] s l s' Hs) as Happ. simpl app in Happ.
  pose proof (total_len_spec 0 0 s l s' Hs) as Htot. pose proof (spliced_length _ _ _ _ Hs) as Hlen.
  unfold room in Hroom. rewrite !N.add_0_l in Htot. specialize (Htot Hroom). unfold edit_apply. simpl indels.
  destruct l as [|i [|j l]].
  - by inversion Hs.
  - simpl in Happ. by destruct (indel_apply i s).
  - rewrite size_of_fits by (unfold fits; lia). cbn [mbind option_bind]. rewrite Htot. cbn [mbind option_bind].
    rewrite Happ. cbn [mbind option_bind]. rewrite size_of_fits by (unfold fits; lia).
    cbn [mbind option_bind]. by rewrite bool_decide_true.
Qed.

(** ** Coalescing *)

(** The next range is neither overlapping nor adjacent. *)
Definition gap (i j : Indel) : Prop := (range_end (del i) < range_start (del j))%N.

Lemma range_new_ok s e : (s ≤ e)%N → ∃ r, range_new s e = Some r ∧ range_start r = s ∧ range_end r = e.
Proof.
  intros Hle. pose proof (range_new_spec s e) as Hr.
  destruct (range_new s e) as [r|]; [by exists r; destruct Hr|lia].
Qed.

(** Merging the first two of adjacent indels. *)
Lemma spliced_merge o s i j l s' r :
  spliced o s (i :: j :: l) s' → range_end (del i) = range_start (del j) →
  range_start r = range_start (del i) → range_end r = range_end (del j) →
  spliced o s (mkIndel (ins i ++ ins j) r :: l) s'.
Proof.
  intros Hs Hadj Hst Hen. inversion Hs as [|? a d rest ? ? rest' Ha Hd Hi Hsi Hei Hl]; subst.
  inversion Hl as [|? a2 d2 r2 ? ? r2' Ha2 Hd2 Hj Hsj Hej Hl2]; subst.
  assert (a2 = []) as -> by (apply len_zero; lia).
  simpl. rewrite (app_assoc d), (app_assoc (ins i)).
  apply (spliced_cons o a (d ++ d2) r2 (mkIndel (ins i ++ ins j) r)); simpl;
    [done|by apply utf8_two|by apply utf8_two|by rewrite Hst|rewrite Hen, len_app; unfold len in *; simpl in *; lia|].
  by rewrite Hen.
Qed.

Lemma coalesce_spliced i l o s s' :
  spliced o s (i :: l) s' →
  ∃ j k, coalesce_indels (i :: l) = Some (j :: k) ∧ spliced o s (j :: k) s' ∧
    Sorted gap (j :: k) ∧ range_start (del j) = range_start (del i) ∧ ins_len (j :: k) = ins_len (i :: l).
Proof.
  unfold coalesce_indels. revert i o s s'. induction l as [|b l IH]; intros i o s s' Hs.
  - exists i, []. rewrite coalesce_one. split_and!; [done..|by repeat constructor|done|done].
  - rewrite coalesce_cons. unfold coalesce_step at 1. case_bool_decide as Hadj.
    + destruct (range_new_ok (range_start (del i)) (range_end (del b))) as (r & Hr & Hst & Hen).
      { pose proof (range_start_end (del i)). pose proof (range_start_end (del b)). lia. }
      rewrite Hr. cbn [mbind option_bind].
      destruct (IH (mkIndel (ins i ++ ins b) r) o s s') as (j & k & Hc & ? & ? & Hj & Hn);
        [by eapply spliced_merge|].
      exists j, k. split_and!; [done..| |]; [simpl in Hj; by rewrite Hj|].
      rewrite Hn. simpl. rewrite len_app. lia.
    + inversion Hs as [|? a d rest ? ? rest' Ha Hd Hi Hsi Hei Hl]; subst.
      destruct (IH b _ _ _ Hl) as (j & k & Hc & Hsp & Hg & Hj & Hn).
      exists i, (j :: k). rewrite Hc. split_and!; [done|by constructor| |done|cbn [ins_len] in *; lia].
      constructor; [done|]. constructor. unfold gap. rewrite Hj.
      apply spliced_start in Hl. lia.
Qed.

(** ** Sorting and checking *)

(** Two ranges that do not overlap. *)
Definition apart (i j : Indel) : Prop :=
  (range_end (del i) ≤ range_start (del j) ∨ range_end (del j) ≤ range_start (del i))%N.

#[export] Instance apart_symmetric : Symmetric apart.
Proof. intros i j [?|?]; [by right|by left]. Qed.

(** Apart, or the same indel twice, which the builder admits. *)
Definition compatible (i j : Indel) : Prop := apart i j ∨ i = j.

#[export] Instance compatible_symmetric : Symmetric compatible.
Proof. intros i j [?|?]; [left; by symmetry|by right]. Qed.

Lemma key_le_spec k k' : key_le k k' = true ↔ (k.1 < k'.1 ∨ k.1 = k'.1 ∧ k.2 ≤ k'.2)%N.
Proof. unfold key_le. by rewrite orb_true_iff, andb_true_iff, !bool_decide_eq_true. Qed.

Lemma indel_key_le_total k k' : key_le k k' = true ∨ key_le k' k = true.
Proof. rewrite !key_le_spec. lia. Qed.

Lemma indel_key_le_trans k1 k2 k3 : key_le k1 k2 = true → key_le k2 k3 = true → key_le k1 k3 = true.
Proof. rewrite !key_le_spec. lia. Qed.

Lemma key_le_anti k k' : key_le k k' = true → key_le k' k = true → k = k'.
Proof. rewrite !key_le_spec. destruct k, k'. simpl. intros ? ?. f_equal; lia. Qed.

Definition sort_indels (l : list Indel) : list Indel := sort_by_key key_le indel_key l.

Lemma sort_indels_perm l : sort_indels l ≡ₚ l.
Proof. apply sort_by_key_perm. Qed.

Lemma sort_indels_sorted l : StronglySorted (key_lte key_le indel_key) (sort_indels l).
Proof. by apply sort_by_key_spec; [apply indel_key_le_total|apply indel_key_le_trans|apply _]. Qed.

Lemma sort_indels_app l m : sort_indels (sort_indels l ++ m) = sort_indels (l ++ m).
Proof. apply sort_by_key_app; [apply indel_key_le_total|apply indel_key_le_trans|apply _|apply key_le_anti]. Qed.

Lemma sort_indels_idem l : sort_indels (sort_indels l) = sort_indels l.
Proof. pose proof (sort_indels_app l []) as Hs. by rewrite !app_nil_r in Hs. Qed.

(** On a sorted list it is enough to check neighbours. *)
Lemma disjoint_or_equal_spec a b :
  key_lte key_le indel_key a b → disjoint_or_equal (a, b) = true ↔ compatible a b.
Proof.
  unfold key_lte, disjoint_or_equal, compatible, apart. rewrite key_le_spec. simpl.
  rewrite orb_true_iff, !bool_decide_eq_true. intros Hk.
  pose proof (range_start_end (del a)). pose proof (range_start_end (del b)).
  split; [intros [?|?]; auto|]. intros [[?|?]|?]; [by left|left; lia|by right].
Qed.

Lemma check_disjoint_spec l :
  StronglySorted (key_lte key_le indel_key) l →
  check_disjoint l = true ↔ StronglySorted compatible l.
Proof.
  unfold check_disjoint. induction 1 as [|a l Hs IH Ha]; [split; [constructor|done]|].
  destruct l as [|b l].
  - split; [by repeat constructor|done].
  - inversion Ha as [|? ? Hab Hal]; subst. 
    change (forallb disjoint_or_equal (zip (a :: b :: l) (drop 1 (a :: b :: l)))) with
      (disjoint_or_equal (a, b) && forallb disjoint_or_equal (zip (b :: l) (drop 1 (b :: l)))).
    rewrite andb_true_iff, IH, disjoint_or_equal_spec by done. split.
    + intros [Hc Hl]. constructor; [done|]. constructor; [done|].
      inversion Hl as [|? ? _ Hbl]; subst. inversion Hs as [|? ? _ Hbk]; subst.
      rewrite Forall_forall in *. intros x Hx. specialize (Hbl x Hx). specialize (Hbk x Hx). specialize (Hal x Hx).
      apply disjoint_or_equal_spec; [done|].
      apply disjoint_or_equal_spec in Hc; [|done]. apply disjoint_or_equal_spec in Hbl; [|done].
      unfold disjoint_or_equal in *. rewrite !orb_true_iff, !bool_decide_eq_true in *.
      pose proof (range_start_end (del b)). destruct Hc as [?| ->], Hbl as [?|<-]; auto. left. lia.
    + intros Hl. inversion Hl as [|? ? ? Hc]; subst. inversion Hc; subst. done.
Qed.

Lemma assert_disjoint_spec l :
  assert_disjoint_or_equal l = Some (sort_indels l) ∧ StronglySorted compatible l ∨
  assert_disjoint_or_equal l = None ∧ ¬ StronglySorted compatible l.
Proof.
  unfold assert_disjoint_or_equal, check_disjoint_and_sort. fold (sort_indels l).
  pose proof (check_disjoint_spec _ (sort_indels_sorted l)) as Hc.
  pose proof (sort_indels_perm l) as Hp.
  destruct (check_disjoint (sort_indels l)).
  - left. split; [done|]. eapply StronglySorted_perm; [apply _|exact Hp|]. by apply Hc.
  - right. split; [done|]. intros Hs. symmetry in Hp.
    assert (false = true); [|done]. apply Hc. eapply StronglySorted_perm; [apply _|exact Hp|done].
Qed.

(** ** The builder *)

(** Coalescing never reverses a range. *)
Lemma coalesce_total l : is_Some (coalesce_indels l).
Proof.
  destruct l as [|i l]; [unfold coalesce_indels; by rewrite coalesce_nil|]. unfold coalesce_indels.
  revert i. induction l as [|b l IH]; intros i; [by rewrite coalesce_one|].
  rewrite coalesce_cons. unfold coalesce_step at 1. case_bool_decide as Hadj.
  - destruct (range_new_ok (range_start (del i)) (range_end (del b))) as (r & Hr & _).
    { pose proof (range_start_end (del i)). pose proof (range_start_end (del b)). lia. }
    rewrite Hr. apply IH.
  - destruct (IH b) as [k Hk]. rewrite Hk. by eexists.
Qed.

(** The builder holds what was pushed, in an order that the final sort does not
    notice. *)
Lemma builder_run l0 l b :
  pending b ≡ₚ l0 → sort_indels (pending b) = sort_indels l0 → StronglySorted compatible (l0 ++ l) →
  ∃ b', foldM (λ i b, builder_indel b i) l b = Some b' ∧
    pending b' ≡ₚ l0 ++ l ∧ sort_indels (pending b') = sort_indels (l0 ++ l).
Proof.
  revert l0 b. induction l as [|i l IH]; intros l0 b Hp Hs Hc; simpl.
  - exists b. by rewrite app_nil_r.
  - assert (Hs' : sort_indels (pending b ++ [i]) = sort_indels (l0 ++ [i])).
    { by rewrite <-sort_indels_app, Hs, sort_indels_app. }
    assert (Hp' : pending b ++ [i] ≡ₚ l0 ++ [i]) by by rewrite Hp.
    change (i :: l) with ([i] ++ l) in *. rewrite app_assoc in Hc |- *.
    assert (Hc' : StronglySorted compatible (pending b ++ [i])).
    { apply StronglySorted_app_iff in Hc as (Hc & _ & _). symmetry in Hp'.
      eapply StronglySorted_perm; [apply _|exact Hp'|done]. }
    unfold builder_indel. case_bool_decide; simpl.
    + destruct (assert_disjoint_spec (pending b ++ [i])) as [[-> _]|[_ []]]; [|done]. simpl.
      apply (IH (l0 ++ [i])); [|..|done].
      * simpl. by rewrite sort_indels_perm.
      * cbn [pending]. by rewrite sort_indels_idem.
    + by apply (IH (l0 ++ [i])).
Qed.

(** An indel pair in the way of [finish]. *)
Lemma not_pairwise (R : Indel → Indel → Prop) `{!∀ i j, Decision (R i j)} l :
  ¬ StronglySorted R l → ∃ l1 a l2 b l3, l = l1 ++ a :: l2 ++ b :: l3 ∧ ¬ R a b.
Proof.
  induction l as [|a l IH]; intros Hn; [destruct Hn; constructor|].
  destruct (decide (Forall (R a) l)) as [Ha|Ha].
  - destruct IH as (l1 & x & l2 & y & l3 & -> & Hxy); [intros Hs; apply Hn; by constructor|].
    by exists (a :: l1), x, l2, y, l3.
  - apply not_Forall_Exists in Ha; [|apply _]. apply Exists_exists in Ha as (b & Hb & Hab).
    apply list_elem_of_split in Hb as (l2 & l3 & ->). by exists [], a, l2, b, l3.
Qed.

#[export] Instance compatible_dec i j : Decision (compatible i j).
Proof. unfold compatible, apart. apply _. Defined.

Lemma spliced_apart o s l s' : spliced o s l s' → StronglySorted compatible l.
Proof.
  intros [Hs _]%spliced_sorted. eapply StronglySorted_impl; [|exact Hs]. intros a b Hab. left. by left.
Qed.

(** Indels in the order of the text are sorted. *)
Lemma sort_indels_spliced o s l s' : spliced o s l s' → sort_indels l = l.
Proof.
  intros [Hs _]%spliced_sorted.
  eapply (sorted_unique key_le indel_key indel_key_le_total key_le_anti).
  - apply sort_indels_sorted.
  - eapply StronglySorted_impl; [|exact Hs]. intros a b Hab. unfold key_lte, indel_key. rewrite key_le_spec. cbn [fst snd]. cbv beta in Hab.
    pose proof (range_start_end (del a)). pose proof (range_start_end (del b)). lia.
  - intros k. by apply sort_by_key_spec; [apply indel_key_le_total|apply indel_key_le_trans].
Qed.

(** [finish] leaves an edit with the effect of its indels. *)
Lemma finish_spliced b s s' :
  spliced 0 s (sort_indels (pending b)) s' →
  ∃ e, builder_finish b = Some e ∧ spliced 0 s (indels e) s' ∧ ins_len (indels e) = ins_len (pending b) ∧
    Sorted gap (indels e).
Proof.
  intros Hs. unfold builder_finish.
  destruct (assert_disjoint_spec (pending b)) as [[-> _]|[_ Hn]].
  - cbn [mbind option_bind]. rewrite <-(ins_len_perm _ _ (sort_indels_perm (pending b))).
    destruct (sort_indels (pending b)) as [|i l].
    + exists (mkTextEdit []). unfold coalesce_indels. rewrite coalesce_nil. by repeat constructor.
    + destruct (coalesce_spliced i l 0 s s' Hs) as (j & k & -> & Hsp & Hg & _ & Hn).
      by exists (mkTextEdit (j :: k)).
  - destruct Hn. eapply StronglySorted_perm; [apply _|apply sort_indels_perm|by eapply spliced_apart].
Qed.

(** Every insertion can be found in the result. *)
Lemma spliced_infix o s l s' i : spliced o s l s' → i ∈ l → ∃ x y, s' = x ++ ins i ++ y.
Proof.
  induction 1 as [|o a d r j l r' _ _ _ _ _ _ IH]; [by intros ?%not_elem_of_nil|].
  intros [->|Hi]%elem_of_cons; [by exists a, r'|].
  destruct (IH Hi) as (x & y & ->). exists (a ++ ins j ++ x), y. by rewrite <-!app_assoc.
Qed.

(** ** Offsets *)

(** The loop of [apply_to_offset] at the offset after [x], when [w] bytes of the
    result are behind it. *)
Lemma offset_loop_spec o w s l s' :
  spliced o s l s' → ∀ x y, s = x ++ y → utf8 x → (w + len s + ins_len l ≤ u32_max)%N →
  match offset_loop (o + len x) (w + len x) l with
  | Some (Some res) => ∃ l1 l2 x' y', l = l1 ++ l2 ∧ s' = x' ++ y' ∧
      spliced o x l1 x' ∧ spliced (o + len x) y l2 y' ∧ res = (w + len x')%N ∧
      Forall (λ i, range_start (del i) < o + len x)%N l1
  | Some None => ∃ i, i ∈ l ∧ (range_start (del i) < o + len x < range_end (del i))%N
  | None => False
  end.
Proof.
  intros Hs. revert w. induction Hs as [o s Hu|o a d r i l r' Ha Hd Hi Hst Hen Hl IH];
    intros w x y Heq Hx Hroom; cbn [offset_loop].
  - subst s. exists [], [], x, y. split_and!; [done..| | |done|done]; constructor; [done|].
    by apply (utf8_app_iff x y Hx).
  - cbn [ins_len] in Hroom. rewrite !len_app in Hroom. case_bool_decide as Hle.
    + assert (∃ a2, a = x ++ a2 ∧ y = a2 ++ d ++ r) as (a2 & -> & ->).
      { apply app_split in Heq as [(e & -> & Hy)|(e & -> & ->)]; [|by exists e].
        assert (e = []) as -> by (apply len_zero; rewrite len_app in Hle; lia).
        exists []. by rewrite !app_nil_r. }
      exists [], (i :: l), x, (a2 ++ ins i ++ r'). rewrite len_app in *.
      split_and!; [done|by rewrite <-app_assoc|by constructor| |done|done].
      apply utf8_app_iff in Ha; [|done]. constructor; [done..| | |done]; lia.
    + rewrite <-N.lt_nge in Hle. case_bool_decide as Hlt; [exists i; split; [left|lia]|].
      assert (∃ x2, x = a ++ d ++ x2 ∧ r = x2 ++ y) as (x2 & -> & ->).
      { rewrite app_assoc in Heq. apply app_split in Heq as [(e & -> & ->)|(e & He & ->)].
        - exists e. by rewrite <-app_assoc.
        - exists []. apply (f_equal len) in He as Hn. rewrite !len_app in Hn.
          assert (e = []) as -> by (apply len_zero; lia).
          rewrite app_nil_r in He. by rewrite app_nil_r. }
      rewrite !len_app in *. rewrite size_of_fits by (unfold fits; lia). cbn [mbind option_bind].
      rewrite size_add_fits by lia. cbn [mbind option_bind].
      rewrite range_len_spec, Hst, Hen, size_sub_le by lia. cbn [mbind option_bind].
      do 2 (apply utf8_app_iff in Hx; [|done]).
      specialize (IH (w + len a + len (ins i))%N x2 y eq_refl Hx).
      specialize (IH ltac:(lia)). rewrite Hen in IH.
      replace (o + (len a + (len d + len x2)))%N with (o + len a + len d + len x2)%N by lia.
      replace (w + (len a + (len d + len x2)) + len (ins i) - (o + len a + len d - (o + len a)))%N
        with (w + len a + len (ins i) + len x2)%N by lia.
      destruct (offset_loop _ _ l) as [[res|]|]; [| |done].
      * destruct IH as (l1 & l2 & x' & y' & -> & -> & Hs1 & Hs2 & -> & Hf).
        exists (i :: l1), l2, (a ++ ins i ++ x'), y'. split_and!.
        -- done.
        -- by rewrite <-!app_assoc.
        -- constructor; [done..|]. by rewrite Hen.
        -- done.
        -- rewrite !len_app. lia.
        -- constructor; [lia|done].
      * destruct IH as (j & Hj & ?). exists j. split; [by right|done].
Qed.

End facts.

Section diff_facts.
Context {TR : TextRanges} {TRO : TextRangeOps} {IT : Itertools} {BP : BuildProfile}.

(** Pushing an indel after all others. *)
Lemma builder_push l i s s' :
  spliced 0 s (l ++ [i]) s' → builder_indel (mkBuilder l) i = Some (mkBuilder (l ++ [i])).
Proof.
  intros Hs. unfold builder_indel. simpl pending. case_bool_decide; [|done].
  destruct (assert_disjoint_spec (l ++ [i])) as [[-> _]|[_ []]]; [|by eapply spliced_apart].
  by rewrite (sort_indels_spliced _ _ _ _ Hs).
Qed.

(** A chunk deleted and replaced, after what is edited so far. *)
Lemma spliced_chunk x l x' r d new :
  spliced 0 x l x' → utf8 d → utf8 new →
  range_start r = len x → range_end r = (len x + len d)%N →
  spliced 0 (x ++ d) (l ++ [mkIndel new r]) (x' ++ new).
Proof.
  intros Hs Hd Hnew Hst Hen. apply spliced_app; [done|].
  pose proof (spliced_cons (0 + len x) [] d [] (mkIndel new r) [] []) as Hc.
  simpl in Hc. rewrite !app_nil_r in Hc. assert (Hz : len [] = 0%N) by done.
  apply Hc; [done..|lia|lia|by constructor].
Qed.

Lemma range_at_ok o n :
  (o + n ≤ u32_max)%N → ∃ r, range_at o n = Some r ∧ range_start r = o ∧ range_end r = (o + n)%N.
Proof. intros Hle. rewrite range_at_new by (unfold u32_max in Hle; lia). apply range_new_ok. lia. Qed.

(** What the loop leaves when [x] has become [x'] by [l], and [old] is to
    become [new]. *)
Definition loop_ok (r : option TextEditBuilder) (l : list Indel) (x x' old new : text) : Prop :=
  ∃ k, r = Some (mkBuilder (l ++ k)) ∧ spliced 0 (x ++ old) (l ++ k) (x' ++ new) ∧
    (ins_len k ≤ len new)%N.

Lemma loop_ok_push r l i x x' d old new :
  loop_ok r (l ++ [i]) (x ++ d) (x' ++ ins i) old new →
  loop_ok r l x x' (d ++ old) (ins i ++ new).
Proof.
  intros (k & -> & Hs & Hk). exists (i :: k). rewrite <-!app_assoc in Hs. simpl in Hs.
  rewrite len_app. rewrite <-app_assoc. simpl. split_and!; [done..|lia].
Qed.

(** Replacing a chunk, if what follows is right. *)
Lemma loop_ok_replace d new rest l x x' old' new' :
  spliced 0 x l x' → utf8 d → utf8 new → (len x + len d ≤ u32_max)%N →
  (∀ i, spliced 0 (x ++ d) (l ++ [i]) (x' ++ new) →
    loop_ok (diff_loop rest (mkBuilder (l ++ [i])) (len (x ++ d))) (l ++ [i]) (x ++ d) (x' ++ new) old' new') →
  loop_ok (r ← range_at (len x) (len d); b ← builder_replace (mkBuilder l) r new;
           pos ← size_add (len x) (len d); diff_loop rest b pos) l x x' (d ++ old') (new ++ new').
Proof.
  intros Hs Hd Hnew Hle Hrest. destruct (range_at_ok _ _ Hle) as (r & -> & Hst & Hen).
  cbn [mbind option_bind]. unfold builder_replace, indel_replace.
  pose proof (spliced_chunk x l x' r d new Hs Hd Hnew Hst Hen) as Hs'.
  rewrite (builder_push _ _ _ _ Hs'). cbn [mbind option_bind]. rewrite size_add_fits by done.
  cbn [mbind option_bind]. apply (loop_ok_push _ _ (mkIndel new r)). rewrite <-len_app. by apply Hrest.
Qed.

(** The loop pushes the chunks as indels. *)
Lemma diff_loop_spec chunks l x x' :
  spliced 0 x l x' → (∀ c, c ∈ chunks → utf8 (chunk_text c)) →
  (len x + len (concat (chunk_old <$> chunks)) ≤ u32_max)%N →
  (len (concat (chunk_new <$> chunks)) ≤ u32_max)%N →
  loop_ok (diff_loop chunks (mkBuilder l) (len x)) l x x'
    (concat (chunk_old <$> chunks)) (concat (chunk_new <$> chunks)).
Proof.
  remember (length chunks) as n eqn:Hn. revert chunks Hn l x x'.
  induction n as [n IH] using lt_wf_ind. intros chunks -> l x x' Hs Hu Hold Hnew.
  destruct chunks as [|c chunks].
  { exists []. rewrite !app_nil_r. by split_and!. }
  assert (Hc : utf8 (chunk_text c)) by (apply Hu; left).
  assert (Hu' : ∀ c, c ∈ chunks → utf8 (chunk_text c)) by (intros; apply Hu; by right).
  destruct c as [s|d|s]; cbn [diff_loop fmap list_fmap concat chunk_old chunk_new chunk_text] in *;
    rewrite ?len_app in Hold, Hnew.
  - rewrite size_of_fits by (unfold fits; lia). cbn [mbind option_bind].
    rewrite size_add_fits by lia. cbn [mbind option_bind]. rewrite <-len_app.
    destruct (IH (length chunks) ltac:(simpl; lia) chunks eq_refl l (x ++ s) (x' ++ s)) as (k & Hr & Hsp & Hk).
    + rewrite <-(app_nil_r l). apply spliced_app; [done|by constructor].
    + done.
    + rewrite len_app. lia.
    + lia.
    + exists k. rewrite <-!app_assoc in Hsp. split_and!; [exact Hr|exact Hsp|rewrite len_app; lia].
  - rewrite size_of_fits by (unfold fits; lia). cbn [mbind option_bind].
    assert (Hplain : loop_ok (r ← range_at (len x) (len d); b ← builder_delete (mkBuilder l) r;
             pos ← size_add (len x) (len d); diff_loop chunks b pos) l x x'
      (d ++ concat (chunk_old <$> chunks)) ([] ++ concat (chunk_new <$> chunks))).
    { apply loop_ok_replace; [done..|lia|]. intros i Hi. eapply IH; [|done..|rewrite len_app; lia|done]. simpl; lia. }
    destruct chunks as [|[s|d'|s] chunks]; [exact Hplain..|].
    cbn [fmap list_fmap concat chunk_old chunk_new chunk_text] in *. rewrite ?app_nil_l, ?len_app in *.
    apply loop_ok_replace; [done..|apply (Hu' (Insert s)); left|lia|]. intros i Hi.
    eapply IH; [|done..| |rewrite len_app; lia|lia]; [simpl; lia|intros; apply Hu'; by right].
  - unfold builder_insert, indel_insert, indel_replace.
    assert (Hs' : spliced 0 (x ++ []) (l ++ [mkIndel s (range_empty (len x))]) (x' ++ s)).
    { apply spliced_chunk; [done..|apply range_empty_start|rewrite range_empty_end; unfold len; simpl; lia]. }
    rewrite (builder_push _ _ _ _ Hs'). cbn [mbind option_bind].
    apply (loop_ok_push _ _ (mkIndel s (range_empty (len x))) x x' []). rewrite app_nil_r in *.
    eapply IH; [|done..|lia]. simpl. lia.
Qed.
End diff_facts.

Lemma diff_spliced {TR : TextRanges} {TRO : TextRangeOps} {IT : Itertools} {BP : BuildProfile}
    {DS : Dissimilar} (left right : text) :
  utf8 left → utf8 right → (len left + len right ≤ u32_max)%N →
  ∃ e, diff left right = Some e ∧ spliced 0 left (indels e) right ∧ (ins_len (indels e) ≤ len right)%N ∧
    Sorted gap (indels e).
Proof.
  intros Hl Hr Hlen. unfold diff.
  destruct (diff_loop_spec (dissimilar_diff left right) [] [] []) as (k & Hk & Hs & Hn);
    rewrite ?(dissimilar_old _ _ Hl Hr), ?(dissimilar_new _ _ Hl Hr) in *.
  - by constructor.
  - intros c. by apply dissimilar_utf8.
  - unfold len in *. simpl. lia.
  - lia.
  - unfold builder. change (len []) with 0%N in Hk. rewrite Hk. cbn [mbind option_bind]. simpl in Hs.
    destruct (finish_spliced (mkBuilder k) left right) as (e & He & Hsp & Hn' & Hg).
    + simpl. by rewrite (sort_indels_spliced _ _ _ _ Hs).
    + exists e. simpl in Hn'. rewrite Hn'. by split_and!.
Qed.

(** C19. Whatever the order in which replacements that do not overlap are given
    to the builder (the order of those at one offset is kept), it builds an
    edit whose ranges are sorted and not adjacent, and the edit, which replaces
    from the end with checked lengths, replaces them all at once in the
    original text. *)
Theorem builder_replaces_all {TR : TextRanges} {TRO : TextRangeOps} {IT : Itertools}
    {BP : BuildProfile} (l : list Indel) (s s' : text) :
  spliced 0 s (sort_indels l) s' → room s l →
  ∃ e, (foldM (λ i b, builder_indel b i) l builder ≫= builder_finish) = Some e ∧
    edit_apply e s = Some s' ∧ Sorted gap (indels e).
Proof.
  intros Hs Hroom. destruct (builder_run [] l builder) as (b & Hb & Hp & Hsort); [done..| |].
  { eapply StronglySorted_perm; [apply _|apply sort_indels_perm|by eapply spliced_apart]. }
  simpl in Hp, Hsort. rewrite <-Hsort in Hs.
  destruct (finish_spliced b s s' Hs) as (e & He & Hsp & Hr & Hg).
  exists e. rewrite Hb. split; [done|]. split; [|done]. destruct e as [l']. apply edit_apply_spliced; [done|].
  unfold room in *. simpl in Hr. by rewrite Hr, (ins_len_perm _ _ Hp).
Qed.

(** The builder panics exactly when two of its replacements overlap and are
    not the same. *)
Theorem finish_panics_overlap {TR : TextRanges} {TRO : TextRangeOps} {IT : Itertools} (l : list Indel) :
  builder_finish (mkBuilder l) = None ↔
  ∃ l1 a l2 b l3, l = l1 ++ a :: l2 ++ b :: l3 ∧ a ≠ b ∧
    (range_start (del b) < range_end (del a) ∧ range_start (del a) < range_end (del b))%N.
Proof.
  unfold builder_finish. simpl pending. destruct (assert_disjoint_spec l) as [[-> Hc]|[-> Hn]]; cbn [mbind option_bind].
  - destruct (coalesce_total (sort_indels l)) as [k ->]. split; [done|].
    intros (l1 & a & l2 & b & l3 & -> & Hab & Ho). exfalso.
    apply StronglySorted_app_iff in Hc as (_ & Hc & _). inversion Hc as [|? ? _ Ha]; subst.
    rewrite Forall_app, Forall_cons in Ha. destruct Ha as (_ & [[?|?]|?] & _); [lia..|done].
  - split; [intros _|done]. destruct (not_pairwise compatible l Hn) as (l1 & a & l2 & b & l3 & -> & Hab).
    exists l1, a, l2, b, l3. split; [done|]. unfold compatible, apart in Hab.
    split; [intros ->; by apply Hab; right|].
    split; apply N.nle_gt; intros Hle; apply Hab; left; [by left|by right].
Qed.

(** An offset between two characters is moved to where the same place is
    after the edit: what precedes it is the edited text before it, and an
    insertion at the offset itself comes after it. An offset strictly inside a
    replaced range has no answer. *)
Theorem apply_to_offset_moves {TR : TextRanges} {TRO : TextRangeOps} {BP : BuildProfile}
    (x y : text) (l : list Indel) (s' : text) :
  spliced 0 (x ++ y) l s' → utf8 x → room (x ++ y) l →
  match apply_to_offset (mkTextEdit l) (len x) with
  | Some (Some offset) => ∃ l1 l2 x' y', l = l1 ++ l2 ∧ s' = x' ++ y' ∧
      spliced 0 x l1 x' ∧ spliced (len x) y l2 y' ∧ offset = len x' ∧
      Forall (λ i, range_start (del i) < len x)%N l1
  | Some None => ∃ i, i ∈ l ∧ (range_start (del i) < len x < range_end (del i))%N
  | None => False
  end.
Proof.
  intros Hs Hx Hroom. pose proof (offset_loop_spec 0 0 _ _ _ Hs x y eq_refl Hx Hroom) as Ho.
  by rewrite !N.add_0_l in Ho.
Qed.

(** The edit between two texts, whatever the diff, exists and turns the
    first into the second. *)
Theorem diff_turns {TR : TextRanges} {TRO : TextRangeOps} {IT : Itertools} {BP : BuildProfile}
    {DS : Dissimilar} (left right : text) :
  utf8 left → utf8 right → (len left + len right ≤ u32_max)%N →
  ∃ e, diff left right = Some e ∧ edit_apply e left = Some right ∧ Sorted gap (indels e).
Proof.
  intros Hl Hr Hlen. destruct (diff_spliced left right Hl Hr Hlen) as ([l] & He & Hsp & Hroom & Hg).
  exists (mkTextEdit l). split; [done|]. split; [|done]. apply edit_apply_spliced; [done|].
  unfold room. simpl in Hroom. lia.
Qed.

(** ** Witnesses *)

Section witnesses.
#[local] Existing Instance text_ranges_reference.
#[local] Existing Instance text_range_ops_reference.
#[local] Existing Instance itertools_reference.
#[local] Existing Instance dissimilar_reference.
#[local] Instance debug_build : BuildProfile := true.

Definition at_range (s n : N) : TextRange := (s, n).

(** ["_11h1_xx3_"] edited out of order, with an insertion at the start of a
    deletion. *)
Definition sample_indels : list Indel :=
  [ mkIndel (text_of "3") (at_range 9 1); mkIndel [] (at_range 6 2);
    mkIndel (text_of "22_") (at_range 6 0); mkIndel (text_of "1") (at_range 3 1) ].

Definition sample_old : text := text_of "_11h1_xx3_".
Definition sample_new : text := text_of "_1111_22_33".

Lemma sample_spliced : spliced 0 sample_old (sort_indels sample_indels) sample_new.
Proof.
  change sample_old with (text_of "_11" ++ text_of "h" ++ (text_of "1_" ++ [] ++ ([] ++ text_of "xx" ++ (text_of "3" ++ text_of "_" ++ [])))).
  change sample_new with (text_of "_11" ++ text_of "1" ++ (text_of "1_" ++ text_of "22_" ++ ([] ++ [] ++ (text_of "3" ++ text_of "3" ++ [])))).
  repeat (apply spliced_cons; [vm_compute; reflexivity..|]). by constructor.
Qed.

Lemma builder_replaces_all_witness :
  ∃ e, (foldM (λ i b, builder_indel b i) sample_indels builder ≫= builder_finish) = Some e ∧
    edit_apply e sample_old = Some sample_new ∧ Sorted gap (indels e).
Proof. apply builder_replaces_all; [exact sample_spliced|vm_compute; discriminate]. Defined.

Lemma apply_to_offset_moves_witness :
  match apply_to_offset (mkTextEdit (sort_indels sample_indels)) (len (text_of "_11h1_xx3")) with
  | Some (Some offset) => ∃ l1 l2 x' y', sort_indels sample_indels = l1 ++ l2 ∧ sample_new = x' ++ y' ∧
      spliced 0 (text_of "_11h1_xx3") l1 x' ∧ spliced (len (text_of "_11h1_xx3")) (text_of "_") l2 y' ∧
      offset = len x' ∧ Forall (λ i, range_start (del i) < len (text_of "_11h1_xx3"))%N l1
  | Some None => ∃ i, i ∈ sort_indels sample_indels ∧
      (range_start (del i) < len (text_of "_11h1_xx3") < range_end (del i))%N
  | None => False
  end.
Proof.
  apply (apply_to_offset_moves (text_of "_11h1_xx3") (text_of "_"));
    [exact sample_spliced|reflexivity|vm_compute; discriminate].
Defined.

Lemma diff_turns_witness :
  ∃ e, diff (text_of "f(x)") (text_of "f(x, y)") = Some e ∧
    edit_apply e (text_of "f(x)") = Some (text_of "f(x, y)") ∧ Sorted gap (indels e).
Proof. apply diff_turns; [reflexivity|reflexivity|vm_compute; discriminate]. Defined.

(** The builder admits the same deletion twice and keeps both, although the
    ranges of an edit are documented as disjoint: the edit then deletes twice as
    much. *)
Theorem duplicate_deletes_twice :
  let b := builder_delete builder (at_range 1 2) ≫= λ b, builder_delete b (at_range 1 2) in
  ∃ e, (b ≫= builder_finish) = Some e ∧ edit_apply e (text_of "abcdef") = Some (text_of "af").
Proof.
  exists (mkTextEdit [mkIndel [] (at_range 1 2); mkIndel [] (at_range 1 2)]).
  split; vm_compute; reflexivity.
Qed.
End witnesses.
