(* ===== verification/Proto.v ===== *)
(** * Positions and edits of the language server protocol:
    [crates/aether_lsp_utils/src/proto/from_proto.rs] and [to_proto.rs]

    An [anyhow::Result] is an option ([None] is [Err]); a function that can also
    panic returns an option of that. Then the meaning of a list of changes
    ([applies]) and the theorems on it, with their witnesses. *)

From S2P Require Export LineEnding TextEdit TextEditTheorems.
Abbreviation Result A := (option A).

(** [TextDocumentContentChangeEvent] and [TextEdit] of [lsp_types]. *)
Record ChangeEvent := mkChange { c_range : option Range; c_range_length : option N; c_text : text }.
Record LspTextEdit := mkLspEdit { te_range : Range; te_new_text : text }.

(** The closure that turns an edit into a change. *)
Definition change_of_edit (e : LspTextEdit) : ChangeEvent :=
  mkChange (Some (te_range e)) None (te_new_text e).

(** [iter.rposition(p)]. *)
Definition rposition {A : Type} (p : A → bool) (l : list A) : option nat :=
  (λ i, length l - 1 - i) ∘ fst <$> list_find p (reverse l).

(** [s.replace('\n', "\r\n")]. *)
Fixpoint expand_newlines (s : text) : text :=
  match s with
  | [] => []
  | b :: s => if bool_decide (b = newline) then crlf ++ expand_newlines s else b :: expand_newlines s
  end.

Module from_proto.
Section from_proto.
Context {TR : TextRanges} {TRO : TextRangeOps} {LI : LineIndexes} {MM : Memmem}.

Definition line_col_from_position (position : Position) (line_index : LineIndex)
    (encoding : PositionEncoding) : LineCol :=
  match encoding with
  | Utf8 => mkLineCol (p_line position) (p_character position)
  | Wide enc => to_utf8 line_index enc (mkWideLineCol (p_line position) (p_character position))
  end.

Definition offset_from_position (position : Position) (line_index : LineIndex)
    (encoding : PositionEncoding) : Result N :=
  index_offset line_index (line_col_from_position position line_index encoding).

(** [TextRange::new] panics on a reversed range. *)
Definition text_range (range : Range) (line_index : LineIndex) (encoding : PositionEncoding)
    : option (Result TextRange) :=
  match offset_from_position (r_start range) line_index encoding with
  | None => Some None
  | Some start_ =>
      match offset_from_position (r_end range) line_index encoding with
      | None => Some None
      | Some end_ => Some <$> range_new start_ end_
      end
  end.

(** The loop of [apply_text_changes] over the incremental changes. *)
Fixpoint apply_changes_loop (changes : list ChangeEvent) (contents : text) (line_index : LineIndex)
    (last_start_line : N) (encoding : PositionEncoding) : option (text * LineIndex) :=
  match changes with
  | [] => Some (contents, line_index)
  | change :: changes =>
      range ← c_range change;
      let line_index :=
        if bool_decide (last_start_line ≤ p_line (r_end range))%N then index_new contents
        else line_index in
      let last_start_line := p_line (r_start range) in
      result ← text_range range line_index encoding;
      bytes ← result;
      s ← normalize (c_text change);
      contents ← replace_range contents (N.to_nat (range_start bytes)) (N.to_nat (range_end bytes)) s;
      apply_changes_loop changes contents line_index last_start_line encoding
  end.

Definition is_full_change (change : ChangeEvent) : bool :=
  match c_range change with None => true | Some _ => false end.

Definition apply_text_changes (contents : text) (changes : list ChangeEvent)
    (line_index : LineIndex) (encoding : PositionEncoding) : option (text * LineIndex) :=
  match rposition is_full_change changes with
  | Some idx =>
      let incremental := drop (idx + 1) changes in
      change ← last (take (idx + 1) changes);
      contents ← normalize (c_text change);
      apply_changes_loop incremental contents line_index 0 encoding
  | None => apply_changes_loop changes contents line_index u32_max encoding
  end.

(** The order of the sort: later positions first. *)
Definition start_order (p q : Position) : bool := negb (position_lt p q).

Definition apply_text_edits (contents : text) (edits : list LspTextEdit) (line_index : LineIndex)
    (encoding : PositionEncoding) : option (text * LineIndex) :=
  let edits := sort_by_key start_order (λ e, r_start (te_range e)) edits in
  let changes := change_of_edit <$> edits in
  apply_text_changes contents changes line_index encoding.
End from_proto.
End from_proto.

Module to_proto.
Section to_proto.
Context {TR : TextRanges} {TRO : TextRangeOps} {LI : LineIndexes}.
Context {IT : Itertools} {BP : BuildProfile} {DS : Dissimilar}.

Definition position_from_line_col (lc : LineCol) (line_index : LineIndex)
    (encoding : PositionEncoding) : Result Position :=
  match encoding with
  | Utf8 => Some (mkPosition (line lc) (col lc))
  | Wide enc =>
      lc ← to_wide line_index enc lc;
      Some (mkPosition (wide_line lc) (wide_col lc))
  end.

Definition position_from_offset (offset : N) (line_index : LineIndex)
    (encoding : PositionEncoding) : Result Position :=
  lc ← index_line_col line_index offset;
  position_from_line_col lc line_index encoding.

Definition range (r : TextRange) (line_index : LineIndex) (encoding : PositionEncoding)
    : Result Range :=
  start_ ← position_from_offset (range_start r) line_index encoding;
  end_ ← position_from_offset (range_end r) line_index encoding;
  Some (mkRange start_ end_).

Definition text_edit (indel : Indel) (line_index : LineIndex) (encoding : PositionEncoding)
    (endings : LineEnding) : Result LspTextEdit :=
  r ← range (del indel) line_index encoding;
  Some (mkLspEdit r
    match endings with Lf => ins indel | Crlf => expand_newlines (ins indel) end).

Definition text_edit_vec (e : TextEdit) (line_index : LineIndex) (encoding : PositionEncoding)
    (endings : LineEnding) : Result (list LspTextEdit) :=
  mapM (λ indel, text_edit indel line_index encoding endings) (indels e).

Definition doc_edit_vec (e : TextEdit) (line_index : LineIndex) (encoding : PositionEncoding)
    (endings : LineEnding) : Result (list ChangeEvent) :=
  edits ← text_edit_vec e line_index encoding endings;
  Some (map change_of_edit edits).

Definition replace_range_edit (r : TextRange) (replace_with : text) (line_index : LineIndex)
    (encoding : PositionEncoding) (endings : LineEnding) : option (Result (list LspTextEdit)) :=
  e ← edit_replace r replace_with;
  Some (text_edit_vec e line_index encoding endings).

Definition replace_all_edit (s replace_with : text) (line_index : LineIndex)
    (encoding : PositionEncoding) (endings : LineEnding) : option (Result (list LspTextEdit)) :=
  e ← diff s replace_with;
  Some (text_edit_vec e line_index encoding endings).
End to_proto.
End to_proto.

Section positions.
Context {TR : TextRanges} {TRO : TextRangeOps} {LI : LineIndexes}.

(** A position between two characters, both ways. *)
Lemma offset_of_position enc a r :
  fits (a ++ r) → utf8 a → utf8 r →
  from_proto.offset_from_position (position_after enc a) (index_new (a ++ r)) enc = Some (len a).
Proof.
  intros Hf Ha Hr. unfold from_proto.offset_from_position, from_proto.line_col_from_position.
  rewrite <-(index_offset_new a r Hf). f_equal. destruct enc as [|enc]; [done|].
  exact (to_utf8_new enc a r Hf Ha Hr).
Qed.

Lemma position_of_offset enc a r :
  fits (a ++ r) → utf8 a → utf8 r →
  to_proto.position_from_offset (len a) (index_new (a ++ r)) enc = Some (position_after enc a).
Proof.
  intros Hf Ha Hr. unfold to_proto.position_from_offset. rewrite index_line_col_new by done.
  cbn [mbind option_bind]. destruct enc as [|enc]; [done|].
  unfold to_proto.position_from_line_col. by rewrite to_wide_new.
Qed.

(** The range between two prefixes. *)
Definition range_after (enc : PositionEncoding) (a d : text) : Range :=
  mkRange (position_after enc a) (position_after enc (a ++ d)).

Lemma text_range_between enc a d r :
  fits (a ++ d ++ r) → utf8 a → utf8 d → utf8 r →
  ∃ bytes, from_proto.text_range (range_after enc a d) (index_new (a ++ d ++ r)) enc = Some (Some bytes) ∧
    range_start bytes = len a ∧ range_end bytes = (len a + len d)%N.
Proof.
  intros Hf Ha Hd Hr. unfold from_proto.text_range. simpl r_start. simpl r_end.
  rewrite offset_of_position by (done || by apply utf8_two). rewrite app_assoc in Hf |- *.
  rewrite offset_of_position by (done || by apply utf8_two). rewrite len_app.
  destruct (range_new_ok (len a) (len a + len d)) as (bytes & -> & ? & ?); [lia|]. by exists bytes.
Qed.
End positions.

Lemma rposition_spec {A} (p : A → bool) l :
  match rposition p l with
  | Some i => ∃ k1 x k2, l = k1 ++ x :: k2 ∧ length k1 = i ∧ p x = true ∧ Forall (λ y, p y = false) k2
  | None => Forall (λ y, p y = false) l
  end.
Proof.
  unfold rposition. destruct (list_find p (reverse l)) as [[i x]|] eqn:Hf; simpl.
  - apply list_find_Some in Hf as (Hi & Hp & Hmin). pose proof (lookup_lt_Some _ _ _ Hi) as Hlt.
    pose proof (take_drop_middle _ _ _ Hi) as Hl. apply (f_equal reverse) in Hl.
    rewrite reverse_involutive, reverse_app, reverse_cons, <-app_assoc in Hl.
    exists (reverse (drop (S i) (reverse l))), x, (reverse (take i (reverse l))).
    split; [symmetry; exact Hl|]. rewrite length_reverse, length_drop, length_reverse in *.
    split; [lia|]. split; [by apply Is_true_true|]. apply Forall_reverse, Forall_forall.
    intros y (j & Hj)%list_elem_of_lookup. apply lookup_take_Some in Hj as [Hj Hji].
    apply not_true_iff_false. intros Hy. eapply Hmin; [exact Hj|exact Hji|by apply Is_true_true].
  - apply list_find_None in Hf. apply Forall_reverse in Hf. rewrite reverse_involutive in Hf.
    eapply Forall_impl; [exact Hf|]. intros y Hy. apply not_true_iff_false. intros Hpy. by apply Hy, Is_true_true.
Qed.

Section changes.
Context {TR : TextRanges} {TRO : TextRangeOps} {LI : LineIndexes} {MM : Memmem}.
Context (enc : PositionEncoding).

(** One incremental change: the text between the two positions is replaced. *)
Inductive change_applies (s : text) (range : Range) (new s' : text) : Prop :=
| change_applies_intro a d r :
    s = a ++ d ++ r → utf8 a → utf8 d → utf8 r → range = range_after enc a d →
    s' = a ++ new ++ r → change_applies s range new s'.

(** A list of changes, in order; inserted text is normalised. *)
Inductive applies : text → list ChangeEvent → text → Prop :=
| applies_nil s : applies s [] s
| applies_full s change rest s' :
    c_range change = None → applies (replace_crlf (c_text change)) rest s' →
    applies s (change :: rest) s'
| applies_incremental s change range s1 rest s' :
    c_range change = Some range → fits s →
    change_applies s range (replace_crlf (c_text change)) s1 → utf8 (c_text change) →
    applies s1 rest s' → applies s (change :: rest) s'.

Lemma applies_app s c1 s1 c2 s2 : applies s c1 s1 → applies s1 c2 s2 → applies s (c1 ++ c2) s2.
Proof.
  intros Hc. induction Hc; intros Hn; simpl; [done|eapply applies_full; eauto|eapply applies_incremental; eauto].
Qed.

(** The line index answers for the lines before [last]. *)
Definition valid_before (contents : text) (line_index : LineIndex) (last : N) : Prop :=
  ∃ s0, line_index = index_new s0 ∧
    ∀ a r, contents = a ++ r → utf8 a → utf8 r → (N.of_nat (newline_count a) < last)%N →
      fits s0 ∧ ∃ r0, s0 = a ++ r0 ∧ utf8 r0.

Lemma valid_before_new s last : fits s → valid_before s (index_new s) last.
Proof. intros Hf. exists s. split; [done|]. intros a r -> _ Hr _. split; [done|]. by exists r. Qed.

(** Ranges in those lines convert. *)
Lemma text_range_valid contents line_index last a d r :
  valid_before contents line_index last → contents = a ++ d ++ r → utf8 a → utf8 d → utf8 r →
  (p_line (r_end (range_after enc a d)) < last)%N →
  ∃ bytes, from_proto.text_range (range_after enc a d) line_index enc = Some (Some bytes) ∧
    range_start bytes = len a ∧ range_end bytes = (len a + len d)%N.
Proof.
  intros (s0 & -> & Hv) -> Ha Hd Hr Hlast.
  destruct (Hv (a ++ d) r) as (Hf & r0 & -> & Hr0); [by rewrite app_assoc|by apply utf8_two|done|done|].
  rewrite <-app_assoc in Hf |- *. by apply text_range_between.
Qed.

(** A change leaves the lines before its start as they are. *)
Lemma valid_before_change contents line_index last a d r new :
  valid_before contents line_index last → contents = a ++ d ++ r → utf8 a → utf8 d → utf8 r →
  (p_line (r_end (range_after enc a d)) < last)%N →
  valid_before (a ++ new ++ r) line_index (p_line (r_start (range_after enc a d))).
Proof.
  intros (s0 & -> & Hv) -> Ha Hd Hr Hlast. exists s0. split; [done|]. simpl in Hlast |- *.
  intros b t [(e & -> & _)|(e & -> & ->)]%app_split Hb Ht Hlt.
  - rewrite newline_count_app in Hlt. lia.
  - apply (utf8_app_iff b e Hb) in Ha. rewrite !newline_count_app in *.
    apply (Hv b (e ++ d ++ r)); [by rewrite <-app_assoc|done|by repeat apply utf8_two|lia].
Qed.

(** The loop runs the changes in order, rebuilding the index when a change
    reaches the last one's lines. *)
Lemma apply_changes_loop_spec changes contents s' line_index last :
  applies contents changes s' → Forall (λ c, c_range c ≠ None) changes → utf8 contents →
  valid_before contents line_index last →
  ∃ line_index', from_proto.apply_changes_loop changes contents line_index last enc = Some (s', line_index').
Proof.
  intros Hap. revert line_index last. induction Hap as [s|s c rest s' Hc _ _|s c range s1 rest s' Hc Hf Hch Hu _ IH];
    intros li last Hinc Hs Hv; inversion Hinc as [|? ? Hne Hrest]; subst; simpl; [by eexists|done|].
  destruct Hch as [a d r -> Ha Hd Hr -> ->]. rewrite Hc. cbn [mbind option_bind].
  set (li1 := if bool_decide (last ≤ _)%N then _ else li).
  assert (∃ last1, valid_before (a ++ d ++ r) li1 last1 ∧
    (p_line (r_end (range_after enc a d)) < last1)%N) as (last1 & Hv1 & Hlt).
  { unfold li1. case_bool_decide as Hle.
    - exists (p_line (r_end (range_after enc a d)) + 1)%N. split; [by apply valid_before_new|lia].
    - exists last. split; [done|]. by apply N.nle_gt. }
  destruct (text_range_valid _ _ _ a d r Hv1 eq_refl Ha Hd Hr Hlt) as (bytes & -> & Hst & Hen).
  cbn [mbind option_bind]. rewrite (proj1 (normalize_total (c_text c))). cbn [mbind option_bind].
  rewrite Hst, Hen, N2Nat.inj_add, !len_to_nat, replace_range_app by (done || by apply utf8_two).
  cbn [mbind option_bind]. apply IH; [done|by repeat apply utf8_two; try apply replace_crlf_utf8|].
  eapply valid_before_change; [exact Hv1|done..].
Qed.
(** What precedes a full change does not matter. *)
Lemma applies_after_full s c1 c rest s' :
  applies s (c1 ++ c :: rest) s' → c_range c = None → applies (replace_crlf (c_text c)) rest s'.
Proof.
  intros Hap Hc. revert s Hap. induction c1 as [|c' c1 IH]; intros s Hap; simpl in Hap.
  - by inversion Hap; congruence.
  - inversion Hap; subst; by eapply IH.
Qed.

Lemma incremental_changes l : Forall (λ c, from_proto.is_full_change c = false) l → Forall (λ c, c_range c ≠ None) l.
Proof.
  intros Hl. eapply Forall_impl; [exact Hl|]. unfold from_proto.is_full_change. intros c. by destruct (c_range c).
Qed.

Lemma apply_text_changes_spec changes contents s' :
  applies contents changes s' → utf8 contents → fits contents →
  Forall (λ c, c_range c = None → utf8 (c_text c)) changes →
  ∃ line_index', from_proto.apply_text_changes contents changes (index_new contents) enc = Some (s', line_index').
Proof.
  intros Hap Hs Hf Hfull. unfold from_proto.apply_text_changes.
  pose proof (rposition_spec from_proto.is_full_change changes) as Hr.
  destruct (rposition _ changes) as [i|].
  - destruct Hr as (c1 & c & c2 & -> & <- & Hc & Hinc%incremental_changes).
    assert (Hnone : c_range c = None) by (unfold from_proto.is_full_change in Hc; by destruct (c_range c)).
    apply applies_after_full in Hap; [|done]. apply Forall_app in Hfull as [_ Hfull].
    inversion Hfull as [|? ? Hc' _]; subst. replace (length c1 + 1) with (length (c1 ++ [c])) by (by rewrite length_app).
    change (c :: c2) with ([c] ++ c2). rewrite app_assoc, take_app_length, drop_app_length, last_snoc.
    cbn [mbind option_bind]. rewrite (proj1 (normalize_total (c_text c))). cbn [mbind option_bind].
    apply apply_changes_loop_spec; [done..|by apply replace_crlf_utf8, Hc'|].
    exists contents. split; [done|]. intros. lia.
  - apply apply_changes_loop_spec; [done|by apply incremental_changes|done|by apply valid_before_new].
Qed.
End changes.

(** ** Line endings on the way out and in *)

Lemma expand_newlines_head s : head (expand_newlines s) ≠ Some newline.
Proof. destruct s as [|b s]; [done|]. simpl. case_bool_decide; [done|simpl; congruence]. Qed.

Lemma replace_expand s : replace_crlf (expand_newlines s) = s.
Proof.
  induction s as [|b s IH]; [done|]. cbn [expand_newlines]. case_bool_decide as Hb.
  - rewrite replace_crlf_crlf, IH. by subst b.
  - rewrite replace_crlf_cons, IH; [done|]. intros r [= _ Hr].
    apply (expand_newlines_head s). by rewrite Hr.
Qed.

Lemma expand_newlines_utf8 k s : utf8_from k s = true → utf8_from k (expand_newlines s) = true.
Proof.
  revert k. induction s as [|b s IH]; intros k Hs; [done|]. simpl. case_bool_decide as Hb; [subst b|].
  - destruct k; [|done]. simpl in Hs |- *. by apply IH.
  - cbn [utf8_from] in Hs |- *. destruct k; apply andb_true_iff in Hs as [-> Hs]; by apply IH.
Qed.

(** What is sent for an inserted text. *)
Definition outgoing (endings : LineEnding) (s : text) : text :=
  match endings with Lf => s | Crlf => expand_newlines s end.

Lemma outgoing_utf8 endings s : utf8 s → utf8 (outgoing endings s).
Proof. destruct endings; [done|apply expand_newlines_utf8]. Qed.

Section edits.
Context {TR : TextRanges} {TRO : TextRangeOps} {LI : LineIndexes} {IT : Itertools}.
Context (enc : PositionEncoding) (endings : LineEnding).

Lemma position_after_le p d : utf8 d → position_lt (position_after enc (p ++ d)) (position_after enc p) = false.
Proof.
  intros Hd. destruct (decide (d = [])) as [->|Hne]; [by rewrite app_nil_r, position_lt_irrefl|].
  pose proof (position_after_app enc p d (utf8_starts_char _ Hd) Hne) as Hlt.
  apply not_true_iff_false. rewrite position_lt_spec in *. lia.
Qed.

Lemma position_lt_le_trans p q r : position_lt q p = false → position_lt q r = true → position_lt p r = true.
Proof. rewrite <-!not_true_iff_false, !position_lt_spec. lia. Qed.

Lemma gap_all i l : Sorted gap (i :: l) → Forall (λ j, range_end (del i) < range_start (del j))%N l.
Proof.
  intros Hs. apply Sorted_StronglySorted in Hs; [by inversion Hs|].
  unfold gap. intros a b c. pose proof (range_start_end (del b)). lia.
Qed.

(** The edit sent for an indel. *)
Lemma text_edit_ok i a d r :
  range_start (del i) = len a → range_end (del i) = (len a + len d)%N →
  fits (a ++ d ++ r) → utf8 a → utf8 d → utf8 r →
  to_proto.text_edit i (index_new (a ++ d ++ r)) enc endings =
    Some (mkLspEdit (range_after enc a d) (outgoing endings (ins i))).
Proof.
  intros Hst Hen Hf Ha Hd Hr. unfold to_proto.text_edit, to_proto.range.
  rewrite Hst, Hen, position_of_offset by (done || by apply utf8_two). cbn [mbind option_bind].
  rewrite <-len_app, app_assoc in *. rewrite position_of_offset by (done || by apply utf8_two). done.
Qed.

(** The edits sent for the indels of an edit: in the order of the text, and
    applied from the last they have the effect of the edit. *)
Lemma text_edit_vec_spec p s l s' :
  spliced (len p) s l s' → utf8 p → (len p + len s + ins_len l ≤ u32_max)%N → Sorted gap l →
  (∀ i, i ∈ l → replace_crlf (outgoing endings (ins i)) = ins i) →
  ∃ edits, mapM (λ i, to_proto.text_edit i (index_new (p ++ s)) enc endings) l = Some edits ∧
    applies enc (p ++ s) (reverse (change_of_edit <$> edits)) (p ++ s') ∧
    StronglySorted (λ e e', position_lt (r_start (te_range e)) (r_start (te_range e')) = true) edits ∧
    (Forall (λ i, len p < range_start (del i))%N l →
     Forall (λ e, position_lt (position_after enc p) (r_start (te_range e)) = true) edits).
Proof.
  intros Hs. remember (len p) as o eqn:Ho. revert p Ho.
  induction Hs as [o s Hu|o a d r i l r' Ha Hd Hi Hst Hen Hl IH]; intros p Ho Hp Hroom Hgap Hend.
  - exists []. repeat split; constructor.
  - cbn [ins_len] in Hroom. rewrite !len_app in Hroom.
    destruct (IH (p ++ a ++ d)) as (edits & He & Hap & Hsort & Hfirst).
    + rewrite !len_app, Hen. lia.
    + by repeat apply utf8_two.
    + lia.
    + by inversion Hgap.
    + intros j Hj. apply Hend. by right.
    + replace ((p ++ a ++ d) ++ r) with (p ++ a ++ d ++ r) in He, Hap by by rewrite <-!app_assoc.
      replace ((p ++ a ++ d) ++ r') with (p ++ a ++ d ++ r') in Hap by by rewrite <-!app_assoc.
      pose proof (spliced_utf8 _ _ _ _ Hl) as [Hr Hr']. pose proof (spliced_length _ _ _ _ Hl) as Hlen.
      assert (Hfit : ∀ t, (len t ≤ len r + ins_len l)%N → fits (p ++ a ++ d ++ t)).
      { intros t Ht. unfold fits. rewrite !len_app. lia. }
      exists (mkLspEdit (range_after enc (p ++ a) d) (outgoing endings (ins i)) :: edits).
      split; [|split; [|split]].
      * cbn [mapM]. replace (p ++ a ++ d ++ r) with ((p ++ a) ++ d ++ r) in * by by rewrite <-app_assoc.
        rewrite (text_edit_ok i (p ++ a) d r).
        -- cbn [mbind option_bind]. by rewrite He.
        -- rewrite len_app. lia.
        -- rewrite len_app. lia.
        -- rewrite <-app_assoc. apply Hfit. lia.
        -- by apply utf8_two.
        -- done.
        -- done.
      * rewrite fmap_cons, reverse_cons. eapply applies_app; [exact Hap|].
        eapply applies_incremental; [done|apply Hfit; lia| |by apply outgoing_utf8|apply applies_nil].
        simpl. rewrite Hend by left. apply (change_applies_intro _ _ _ _ _ (p ++ a) d r');
          [by rewrite <-app_assoc|by apply utf8_two|done..|by rewrite <-app_assoc].
      * constructor; [done|]. apply gap_all, Hfirst in Hgap. eapply Forall_impl; [exact Hgap|].
        intros e. apply position_lt_le_trans. simpl. rewrite (app_assoc p). by apply position_after_le.
      * intros Hfst. inversion Hfst as [|? ? Hi1 _]; subst. constructor.
        -- simpl. apply position_after_app; [by apply utf8_starts_char|].
           intros ->. change (len []) with 0%N in *. lia.
        -- apply gap_all, Hfirst in Hgap. eapply Forall_impl; [exact Hgap|].
           intros e. apply position_lt_le_trans. apply position_after_le. by apply utf8_two.
Qed.
End edits.

(** The position of a place between two characters, in any encoding,
    converts back to its offset; so does a range. *)
Theorem positions_roundtrip {TR : TextRanges} {TRO : TextRangeOps} {LI : LineIndexes}
    (enc : PositionEncoding) (a d r : text) (bytes : TextRange) :
  fits (a ++ d ++ r) → utf8 a → utf8 d → utf8 r →
  range_start bytes = len a → range_end bytes = (len a + len d)%N →
  let line_index := index_new (a ++ d ++ r) in
  (∃ p, to_proto.position_from_offset (len a) line_index enc = Some p ∧
    from_proto.offset_from_position p line_index enc = Some (len a)) ∧
  (∃ range bytes', to_proto.range bytes line_index enc = Some range ∧
    from_proto.text_range range line_index enc = Some (Some bytes') ∧
    range_start bytes' = range_start bytes ∧ range_end bytes' = range_end bytes).
Proof.
  intros Hf Ha Hd Hr Hst Hen. simpl. split.
  - exists (position_after enc a).
    split; [apply position_of_offset|apply offset_of_position]; by try apply utf8_two.
  - destruct (text_range_between enc a d r Hf Ha Hd Hr) as (bytes' & Hb & Hst' & Hen').
    exists (range_after enc a d), bytes'. rewrite Hst, Hen. split; [|done].
    unfold to_proto.range. rewrite Hst, Hen, position_of_offset by (done || by apply utf8_two).
    cbn [mbind option_bind]. rewrite <-len_app, app_assoc in *.
    by rewrite position_of_offset by (done || by apply utf8_two).
Qed.

(** C13. [apply_text_changes] has the sequential meaning of the protocol: when
    each change refers to places in the text left by the changes before it, the
    result is the last text, although earlier changes than the last full one are
    skipped and the line index is rebuilt only when a change reaches lines that
    an earlier one touched. *)
Theorem text_changes_sequential {TR : TextRanges} {TRO : TextRangeOps} {LI : LineIndexes}
    {MM : Memmem} (enc : PositionEncoding) (changes : list ChangeEvent) (contents contents' : text) :
  applies enc contents changes contents' → utf8 contents → fits contents →
  Forall (λ c, c_range c = None → utf8 (c_text c)) changes →
  ∃ line_index', from_proto.apply_text_changes contents changes (index_new contents) enc =
    Some (contents', line_index').
Proof. apply apply_text_changes_spec. Qed.

(** The edits sent for an edit have its effect on the text of the client. *)
Lemma edits_applied {TR : TextRanges} {TRO : TextRangeOps} {LI : LineIndexes}
    {MM : Memmem} {IT : Itertools} (enc : PositionEncoding) (endings : LineEnding) s l s' :
  spliced 0 s l s' → room s l → Sorted gap l →
  (∀ i, i ∈ l → replace_crlf (outgoing endings (ins i)) = ins i) →
  ∃ edits line_index', to_proto.text_edit_vec (mkTextEdit l) (index_new s) enc endings = Some edits ∧
    from_proto.apply_text_edits s edits (index_new s) enc = Some (s', line_index').
Proof.
  intros Hs Hroom Hg Hout. pose proof (spliced_utf8 _ _ _ _ Hs) as [Hu _].
  destruct (text_edit_vec_spec enc endings [] s l s') as (edits & He & Hap & Hsort & _); [done..|].
  simpl in He, Hap. exists edits. unfold from_proto.apply_text_edits.
  rewrite sort_by_key_reverse.
  - rewrite fmap_reverse. destruct (apply_text_changes_spec enc _ _ _ Hap) as (li & Hli).
    + done.
    + unfold room, fits in *. lia.
    + apply Forall_reverse, Forall_fmap, Forall_forall. by intros e _ [=].
    + by exists li.
  - eapply StronglySorted_impl; [|exact Hsort]. intros e e' Hlt. unfold from_proto.start_order. by rewrite Hlt.
Qed.

(** C21. The edits computed to replace a whole text, sent in any encoding and
    with either line ending and applied to the text, leave the replacement. With
    LF the replacement must not hold a CRLF, as the receiver normalises. *)
Theorem replace_all_edit_applies {TR : TextRanges} {TRO : TextRangeOps} {LI : LineIndexes}
    {MM : Memmem} {IT : Itertools} {BP : BuildProfile} {DS : Dissimilar}
    (enc : PositionEncoding) (endings : LineEnding) (s replace_with : text) :
  utf8 s → utf8 replace_with → (len s + len replace_with ≤ u32_max)%N →
  (endings = Lf → ∀ x y, replace_with ≠ x ++ crlf ++ y) →
  ∃ edits line_index', to_proto.replace_all_edit s replace_with (index_new s) enc endings = Some (Some edits) ∧
    from_proto.apply_text_edits s edits (index_new s) enc = Some (replace_with, line_index').
Proof.
  intros Hs Hr Hlen Hlf. destruct (diff_spliced s replace_with Hs Hr Hlen) as ([l] & He & Hsp & Hn & Hg).
  simpl in Hsp, Hn, Hg. destruct (edits_applied enc endings s l replace_with) as (edits & li & Hv & Hap); [done| |done| |].
  - unfold room. lia.
  - intros i Hi. destruct endings; [|apply replace_expand].
    apply replace_crlf_none. intros x y Hx. destruct (spliced_infix _ _ _ _ _ Hsp Hi) as (u & v & ->).
    apply (Hlf eq_refl (u ++ x) (y ++ v)). by rewrite Hx, <-!app_assoc.
  - exists edits, li. unfold to_proto.replace_all_edit. rewrite He. cbn [mbind option_bind]. by rewrite Hv.
Qed.

(** ** Witnesses *)

Section witnesses.
#[local] Existing Instance text_ranges_reference.
#[local] Existing Instance text_range_ops_reference.
#[local] Existing Instance itertools_reference.
#[local] Existing Instance dissimilar_reference.
#[local] Existing Instance memmem_reference.
#[local] Existing Instance line_index_reference.
#[local] Instance debug_build_proto : BuildProfile := true.

(** A character of four bytes, two UTF-16 units. *)
Definition emoji : text := ascii_of_N <$> [240; 159; 152; 128]%N.

Lemma positions_roundtrip_witness :
  let a := text_of "x" ++ [newline] ++ emoji in
  let line_index := index_new (a ++ text_of "y" ++ text_of "z") in
  (∃ p, to_proto.position_from_offset (len a) line_index (Wide Utf16) = Some p ∧
    from_proto.offset_from_position p line_index (Wide Utf16) = Some (len a)) ∧
  (∃ range bytes', to_proto.range (at_range 6 1) line_index (Wide Utf16) = Some range ∧
    from_proto.text_range range line_index (Wide Utf16) = Some (Some bytes') ∧
    range_start bytes' = 6%N ∧ range_end bytes' = 7%N).
Proof.
  apply (positions_roundtrip (Wide Utf16) (text_of "x" ++ [newline] ++ emoji) (text_of "y") (text_of "z") (at_range 6 1));
    first [reflexivity|vm_compute; discriminate].
Defined.

Definition incremental (l1 c1 l2 c2 : N) (s : text) : ChangeEvent :=
  mkChange (Some (mkRange (mkPosition l1 c1) (mkPosition l2 c2))) None s.

(** A full change, then one that adds lines, then one below it. *)
Definition sample_changes : list ChangeEvent :=
  [ mkChange None None (text_of "a" ++ crlf ++ text_of "b");
    incremental 0 1 0 1 ([newline] ++ text_of "c");
    incremental 2 0 2 1 emoji ].

Definition changed : text := text_of "a" ++ [newline] ++ text_of "c" ++ [newline] ++ emoji.

Lemma sample_changes_apply s :
  applies (Wide Utf16) s sample_changes changed.
Proof.
  eapply applies_full; [done|].
  eapply applies_incremental; [done|vm_compute; discriminate| |reflexivity|].
  { apply (change_applies_intro _ _ _ _ _ (text_of "a") [] ([newline] ++ text_of "b")); reflexivity. }
  eapply applies_incremental; [done|vm_compute; discriminate| |reflexivity|].
  { apply (change_applies_intro _ _ _ _ _ (text_of "a" ++ [newline] ++ text_of "c" ++ [newline]) (text_of "b") []); reflexivity. }
  apply applies_nil.
Qed.

Lemma text_changes_sequential_witness :
  ∃ line_index', from_proto.apply_text_changes (text_of "old") sample_changes
    (index_new (text_of "old")) (Wide Utf16) = Some (changed, line_index').
Proof.
  apply text_changes_sequential; [apply sample_changes_apply|reflexivity|vm_compute; discriminate|].
  repeat constructor; intros [=].
Defined.

Lemma replace_all_edit_applies_witness :
  let s := text_of "f <- 1" ++ [newline] ++ emoji in
  let new := text_of "f <- 2" ++ [newline; newline] ++ emoji in
  ∃ edits line_index', to_proto.replace_all_edit s new (index_new s) (Wide Utf16) Crlf = Some (Some edits) ∧
    from_proto.apply_text_edits s edits (index_new s) (Wide Utf16) = Some (new, line_index').
Proof.
  apply replace_all_edit_applies; [reflexivity|reflexivity|vm_compute; discriminate|intros [=]].
Defined.
End witnesses.
