(* ===== verification/Literate.v ===== *)
(** * The R view of a literate document: the second half of
    [crates/ark-lsp-core/src/lsp/document.rs]

    In an R Markdown document only the R chunks and the inline code are R. The
    document is normalised to a text of the same shape in which everything else
    is a comment or blank. *)

From S2P Require Export Text Paths.
From Equations Require Import Equations.

Inductive DocumentKind := R | LiterateR.

#[export] Instance DocumentKind_eq_dec : EqDecision DocumentKind.
Proof. solve_decision. Defined.

Definition literate_names : list text := [text_of "rmd"; text_of "qmd"; text_of "quarto"].

(** [DocumentKind::from_language_id] and [from_path]. *)
Definition from_language_id (language_id : text) : DocumentKind :=
  if bool_decide ((to_lower <$> language_id) ∈ literate_names) then LiterateR else R.

Definition from_path (p : path) : DocumentKind :=
  match extension p with
  | Some e => if bool_decide (map to_lower e ∈ literate_names) then LiterateR else R
  | None => R
  end.

(** ** Fences *)

Definition backtick : ascii := "`"%char.
Definition tilde : ascii := "~"%char.
Definition hash : ascii := "#"%char.
Definition space : ascii := " "%char.
Definition semicolon : ascii := ";"%char.

(** [marker] is a character, [width] their number. *)
Record Fence := mkFence { marker : text; width : nat; is_r : bool }.

(** [segment.strip_suffix('\n')] and the newline. *)
Definition strip_trailing_newline (segment : text) : text * text :=
  if ends_with segment newline then (take (length segment - 1) segment, [newline])
  else (segment, []).

Definition is_separator (ch : text) : bool :=
  bool_decide (ch = [","%char]) || is_whitespace ch.

(** [take_while(|ch| *ch == marker).count()]. *)
Definition marker_width (marker trimmed : text) : nat :=
  length (take_while (λ ch, bool_decide (ch = marker)) (chars trimmed)).

(** [info.trim().split(separator).next().unwrap_or_default()]. *)
Definition fence_engine (info : text) : text :=
  concat (take_while (λ ch, negb (is_separator ch)) (chars (trim info))).

Definition parse_fence (line : text) : option (option Fence) :=
  let trimmed := trim_start line in
  match head (chars trimmed) with
  | None => Some None
  | Some marker =>
      if bool_decide (marker ≠ [backtick] ∧ marker ≠ [tilde]) then Some None
      else
        let width := marker_width marker trimmed in
        if bool_decide (width < 3) then Some None
        else
          rest ← slice_from trimmed width;
          let rest := trim rest in
          if negb (starts_with rest ["{"%char]) || negb (ends_with rest "}"%char) then Some None
          else
            info ← slice rest 1 (length rest - 1);
            Some (Some (mkFence marker width (eq_ignore_ascii_case (fence_engine info) (text_of "r"))))
  end.

Definition is_closing_fence (line : text) (fence : Fence) : option bool :=
  let trimmed := trim_start line in
  let w := marker_width (marker fence) trimmed in
  if bool_decide (width fence ≤ w) then
    rest ← slice_from trimmed w;
    Some (bool_decide (trim rest = []))
  else Some false.

(** ** Lines *)

Definition mask_non_r_line (line : text) : text :=
  imap (λ i _, if bool_decide (i = 0) then hash else space) line.

(** [while i < bytes.len() && p(bytes[i]) { i += 1 }]. *)
Definition skip_while (p : ascii → bool) (bytes : text) (i : nat) : nat :=
  i + length (take_while p (drop i bytes)).

(** [dst[i..j].copy_from_slice(&src[i..j])]. *)
Definition copy_range (dst src : text) (i j : nat) : option text :=
  if bool_decide (i ≤ j ≤ length dst ∧ j ≤ length src)
  then Some (take i dst ++ take (j - i) (drop i src) ++ drop j dst) else None.

(** [dst[i] = b]. *)
Definition set_byte (dst : text) (i : nat) (b : ascii) : option text :=
  if bool_decide (i < length dst) then Some (<[i := b]> dst) else None.

(** One turn of the loop of [normalize_inline_r_line] at [i]: the variables
    after it, and [None] for the index at the [break]. *)
Definition inline_step (bytes normalized : text) (found_inline : bool) (i : nat)
    : option (text * bool * option nat) :=
  let continue := Some (normalized, found_inline, Some (i + 1)) in
  b ← bytes !! i;
  if bool_decide (b ≠ backtick) then continue
  else
    match bytes !! (i + 1), bytes !! (i + 2) with
    | Some r_prefix, Some whitespace =>
        if bool_decide (r_prefix ≠ "r"%char) || negb (is_ascii_whitespace whitespace) then continue
        else
          let code_start := skip_while is_ascii_whitespace bytes (i + 2) in
          let code_end := skip_while (λ b, bool_decide (b ≠ backtick)) bytes code_start in
          normalized ←
            if bool_decide (code_start < code_end) then copy_range normalized bytes code_start code_end
            else Some normalized;
          if bool_decide (code_end < length bytes) then
            normalized ← set_byte normalized code_end semicolon;
            Some (normalized, true, Some (code_end + 1))
          else Some (normalized, true, None)
    | _, _ => continue
    end.

Lemma inline_step_advances bytes normalized found i n f j :
  inline_step bytes normalized found i = Some (n, f, Some j) → i < j ∧ i < length bytes.
Proof.
  unfold inline_step. destruct (bytes !! i) as [b|] eqn:Hi; simpl; [|done].
  apply lookup_lt_Some in Hi. case_bool_decide; [intros [= _ _ <-]; lia|].
  destruct (bytes !! (i + 1)) as [r|], (bytes !! (i + 2)) as [w|]; try (intros [= _ _ <-]; lia).
  destruct (_ || _); [intros [= _ _ <-]; lia|].
  intros (n1 & _ & Hs)%bind_Some. case_bool_decide; [|discriminate Hs].
  apply bind_Some in Hs as (n2 & _ & Hs). injection Hs as _ _ <-. unfold skip_while. lia.
Qed.

Equations? inline_loop (bytes normalized : text) (found_inline : bool) (i : nat) : option (text * bool)
  by wf (length bytes - i) lt :=
inline_loop bytes n f i with decide (i < length bytes) => {
  | right _ => Some (n, f)
  | left _ with with_eq (inline_step bytes n f i) => {
    | exist _ None _ => None
    | exist _ (Some (n', f', None)) _ => Some (n', f')
    | exist _ (Some (n', f', Some j)) Hstep => inline_loop bytes n' f' j } }.
Proof. apply inline_step_advances in Hstep. lia. Qed.

(** [String::from_utf8(bytes).expect(..)]. *)
Definition from_utf8 (bytes : text) : option text := if utf8_from 0 bytes then Some bytes else None.

Definition normalize_inline_r_line (line : text) : option (option text) :=
  match inline_loop line (replicate (length line) space) false 0 with
  | Some (normalized, true) => Some <$> from_utf8 normalized
  | Some (_, false) => Some None
  | None => None
  end.

Definition normalize_literate_r_line (line : text) : option text :=
  normalized ← normalize_inline_r_line line;
  Some match normalized with Some s => s | None => mask_non_r_line line end.

(** ** Documents *)

(** One turn of the loop of [normalize_literate_r]. *)
Definition literate_step (segment : text) (state : text * option Fence)
    : option (text * option Fence) :=
  let '(normalized, active_fence) := state in
  let '(line, nl) := strip_trailing_newline segment in
  match active_fence with
  | Some fence =>
      closing ← is_closing_fence line fence;
      if (closing : bool) then Some (normalized ++ mask_non_r_line line ++ nl, None)
      else if is_r fence then Some (normalized ++ line ++ nl, Some fence)
      else Some (normalized ++ mask_non_r_line line ++ nl, Some fence)
  | None =>
      fence ← parse_fence line;
      match fence with
      | Some fence => Some (normalized ++ mask_non_r_line line ++ nl, Some fence)
      | None =>
          s ← normalize_literate_r_line line;
          Some (normalized ++ s ++ nl, None)
      end
  end.

Definition normalize_literate_r (contents : text) : option text :=
  fst <$> foldM literate_step (split_inclusive contents) ([], None).

Definition normalize_contents (contents : text) (kind : DocumentKind) : option text :=
  match kind with R => Some contents | LiterateR => normalize_literate_r contents end.

Example literate_inline :
  normalize_literate_r (text_of "Text `r whi`." ++ [newline]) = Some (text_of "        whi; " ++ [newline]).
Proof. vm_compute. reflexivity. Qed.

Example literate_chunk :
  normalize_literate_r (text_of "---" ++ [newline] ++ text_of "```{r, echo}" ++ [newline] ++ text_of "x" ++ [newline] ++ text_of "```")
  = Some (text_of "#  " ++ [newline] ++ text_of "#           " ++ [newline] ++ text_of "x" ++ [newline] ++ text_of "#  ").
Proof. vm_compute. reflexivity. Qed.
