(* ===== verification/LiterateTheorems.v ===== *)
(** * Properties of the R view of a literate document *)

From S2P Require Import Lines Literate.
From Equations Require Import Equations.

(** What a byte of the document may become: nothing else, a comment mark, a
    blank or a separator; newlines stay. *)
Definition shows (b c : ascii) : Prop := c = b ∨ (b ≠ newline ∧ c ∈ [hash; space; semicolon]).

Lemma shows_refl s : Forall2 shows s s.
Proof. induction s; constructor; [by left|done]. Qed.

Lemma shows_blank b : b ≠ newline → shows b space.
Proof. right. split; [done|set_solver]. Qed.

Lemma shows_blanks s : newline ∉ s → Forall2 shows s (replicate (length s) space).
Proof.
  induction s as [|b s IH]; intros Hn; simpl; [constructor|].
  apply not_elem_of_cons in Hn as [Hb Hn]. constructor; [by apply shows_blank|by apply IH].
Qed.

Lemma take_drop_while {A} (p : A → bool) l :
  l = take_while p l ++ drop_while p l ∧ Forall (λ x, p x = true) (take_while p l) ∧
  match drop_while p l with [] => True | x :: _ => p x = false end.
Proof.
  induction l as [|x l (Hl & Hp & Hd)]; simpl; [done|].
  destruct (p x) eqn:Hx; simpl; [|done]. split; [by rewrite <-Hl|]. split; [by constructor|done].
Qed.

Lemma skip_while_app p a b : skip_while p (a ++ b) (length a) = length (a ++ take_while p b).
Proof. unfold skip_while. by rewrite drop_app_length, length_app. Qed.

Lemma copy_range_app (x1 x2 x3 y1 y2 y3 : text) :
  length x1 = length y1 → length x2 = length y2 →
  copy_range (x1 ++ x2 ++ x3) (y1 ++ y2 ++ y3) (length y1) (length (y1 ++ y2)) = Some (x1 ++ y2 ++ x3).
Proof.
  intros H1 H2. unfold copy_range. rewrite bool_decide_true by (rewrite !length_app; lia). f_equal.
  rewrite take_app_length' by done. rewrite drop_app_length. f_equal. f_equal.
  - apply take_app_length'. rewrite length_app. lia.
  - rewrite app_assoc. apply drop_app_length'. rewrite !length_app. lia.
Qed.

Lemma set_byte_app a c r b : set_byte (a ++ c :: r) (length a) b = Some (a ++ b :: r).
Proof.
  unfold set_byte. rewrite bool_decide_true by (rewrite length_app; simpl; lia).
  by rewrite insert_app_r_alt, Nat.sub_diag.
Qed.

Lemma is_ascii_whitespace_ascii b : is_ascii_whitespace b = true → is_ascii b = true.
Proof.
  unfold is_ascii_whitespace, is_ascii. rewrite !bool_decide_eq_true, !elem_of_cons, elem_of_nil.
  intros [->|[->|[->|[->|[->|[]]]]]]; lia.
Qed.

Lemma utf8_blanks n : utf8 (replicate n space).
Proof. induction n as [|n IH]; [done|]. exact IH. Qed.

(** Inline code after the blanks, up to the next backtick. *)
Lemma utf8_code x ws code q :
  utf8 (x ++ ws ++ code ++ q) → ws ≠ [] → Forall (λ b, is_ascii_whitespace b = true) ws →
  starts_char q → utf8 code ∧ utf8 q.
Proof.
  intros Hu Hne Hws Hq. destruct ws as [|w ws _] using rev_ind; [done|].
  apply Forall_app in Hws as [_ Hw]. inversion Hw as [|? ? Hw' _]; subst.
  rewrite <-app_assoc, app_assoc in Hu. apply utf8_split; [|done].
  eapply (utf8_after_ascii 0 (x ++ ws) (code ++ q) w); [by apply is_ascii_whitespace_ascii|exact Hu].
Qed.

(** What a turn of the loop leaves: the next bytes [y1] are written as [y1']. *)
Definition inline_turn (x y x' : text) (f : bool) (r : option (text * bool * option nat)) : Prop :=
  ∃ y1 y2 y1' f' next, y = y1 ++ y2 ∧ Forall2 shows y1 y1' ∧ utf8 y1' ∧
    r = Some (x' ++ y1' ++ replicate (length y2) space, f', next) ∧
    (next = Some (length (x ++ y1)) ∨ next = None ∧ y2 = []).

Lemma inline_turn_skip x b y x' f :
  b ≠ newline →
  inline_turn x (b :: y) x' f (Some (x' ++ replicate (length (b :: y)) space, f, Some (length x + 1))).
Proof.
  intros Hb. exists [b], y, [space], f, (Some (length x + 1)). split; [done|].
  split; [constructor; [by apply shows_blank|done]|]. split; [done|]. split; [done|].
  left. by rewrite length_app.
Qed.

(** The turn that finds inline code. *)
Lemma inline_turn_code x x' f ws code q :
  length x' = length x → utf8 code → newline ∉ ws →
  match q with [] => True | b :: _ => b = backtick end →
  inline_turn x (backtick :: "r"%char :: ws ++ code ++ q) x' f
    (let bytes := x ++ backtick :: "r"%char :: ws ++ code ++ q in
     let code_start := length x + 2 + length ws in
     let code_end := code_start + length code in
     normalized ←
       (if bool_decide (code_start < code_end)
        then copy_range (x' ++ replicate (length (backtick :: "r"%char :: ws ++ code ++ q)) space) bytes code_start code_end
        else Some (x' ++ replicate (length (backtick :: "r"%char :: ws ++ code ++ q)) space));
     if bool_decide (code_end < length bytes) then
       normalized ← set_byte normalized code_end semicolon;
       Some (normalized, true, Some (code_end + 1))
     else Some (normalized, true, None)).
Proof.
  intros Hx Hcode Hws Hq. cbv zeta. set (pre := [backtick; "r"%char] ++ ws).
  replace (backtick :: "r"%char :: ws ++ code ++ q) with (pre ++ code ++ q) by (unfold pre; by rewrite <-app_assoc).
  assert (Hpre : length pre = 2 + length ws) by done.
  assert (Hnl : newline ∉ pre).
  { unfold pre. rewrite not_elem_of_app, !not_elem_of_cons. split; [|done]. split_and!; [done|done|apply not_elem_of_nil]. }
  set (blank := x' ++ replicate (length pre) space).
  assert (Hblank : length blank = length (x ++ pre)) by (unfold blank; rewrite !length_app, length_replicate; lia).
  replace (length x + 2 + length ws) with (length (x ++ pre)) by (rewrite length_app; lia).
  replace (length (x ++ pre) + length code) with (length ((x ++ pre) ++ code)) by by rewrite length_app.
  assert (Hcopy : (if bool_decide (length (x ++ pre) < length ((x ++ pre) ++ code))
      then copy_range (x' ++ replicate (length (pre ++ code ++ q)) space) (x ++ pre ++ code ++ q)
        (length (x ++ pre)) (length ((x ++ pre) ++ code))
      else Some (x' ++ replicate (length (pre ++ code ++ q)) space)) =
    Some (blank ++ code ++ replicate (length q) space)).
  { rewrite !length_app, !replicate_add. rewrite (app_assoc x'). fold blank. rewrite <-!length_app.
    case_bool_decide as Hlt.
    - rewrite (app_assoc x pre). apply copy_range_app; [done|by rewrite length_replicate].
    - assert (code = []) as -> by (apply nil_length_inv; rewrite (length_app (x ++ pre)) in Hlt; lia). done. }
  rewrite Hcopy. cbn [mbind option_bind]. clear Hcopy.
  assert (Hshow : Forall2 shows (pre ++ code) (replicate (length pre) space ++ code)).
  { apply Forall2_app; [by apply shows_blanks|apply shows_refl]. }
  assert (Hu : utf8 (replicate (length pre) space ++ code)) by (apply utf8_two; [apply utf8_blanks|done]).
  destruct q as [|b q].
  - rewrite bool_decide_false by (rewrite !length_app; simpl; lia).
    exists (pre ++ code), [], (replicate (length pre) space ++ code), true, None.
    split; [by rewrite !app_nil_r|]. split_and!; [done..| |by right].
    unfold blank. by rewrite <-!app_assoc.
  - subst b. rewrite bool_decide_true by (rewrite !length_app; simpl; lia).
    replace (length ((x ++ pre) ++ code)) with (length (blank ++ code)) by (rewrite !length_app in *; lia).
    simpl replicate. rewrite (app_assoc blank code), set_byte_app. cbn [mbind option_bind].
    exists ((pre ++ code) ++ [backtick]), q, ((replicate (length pre) space ++ code) ++ [semicolon]), true.
    eexists. split; [by rewrite <-!app_assoc|]. split; [|split; [|split; [|left; reflexivity]]].
    + apply Forall2_app; [done|]. constructor; [|done]. right. split; [done|set_solver].
    + by apply utf8_two.
    + replace (length (blank ++ code) + 1) with (length (x ++ (pre ++ code) ++ [backtick]))
        by (rewrite !length_app in *; simpl; lia).
      unfold blank. by rewrite <-!app_assoc.
Qed.

(** A turn of the loop writes the next bytes. *)
Lemma inline_step_spec x y x' f :
  utf8 (x ++ y) → newline ∉ y → length x' = length x → y ≠ [] →
  inline_turn x y x' f (inline_step (x ++ y) (x' ++ replicate (length y) space) f (length x)).
Proof.
  intros Hu Hn Hx Hne. destruct y as [|b y]; [done|]. unfold inline_step.
  rewrite (list_lookup_middle x y b (length x)) by done. cbn [mbind option_bind].
  apply not_elem_of_cons in Hn as [Hb Hn]. case_bool_decide as Hbt; [by apply inline_turn_skip|].
  subst b.
  rewrite !lookup_app_r by lia. replace (length x + 1 - length x) with 1 by lia.
  replace (length x + 2 - length x) with 2 by lia. cbn [lookup list_lookup].
  destruct y as [|r [|w y]]; [by apply inline_turn_skip..|]. cbn [lookup list_lookup].
  destruct (_ || _) eqn:Hcond; [by apply inline_turn_skip|].
  apply orb_false_iff in Hcond as [Hr%bool_decide_eq_false Hw%negb_false_iff].
  apply dec_stable in Hr as ->. cbv zeta.
  destruct (take_drop_while is_ascii_whitespace (w :: y)) as (Hy & Hws & Hcode).
  set (ws := take_while is_ascii_whitespace (w :: y)) in *.
  set (z := drop_while is_ascii_whitespace (w :: y)) in *.
  destruct (take_drop_while (λ b, bool_decide (b ≠ backtick)) z) as (Hz & _ & Hq).
  set (code := take_while (λ b, bool_decide (b ≠ backtick)) z) in *.
  set (q := drop_while (λ b, bool_decide (b ≠ backtick)) z) in *.
  set (bytes := x ++ backtick :: "r"%char :: w :: y).
  assert (Hs1 : skip_while is_ascii_whitespace bytes (length x + 2) = length x + 2 + length ws).
  { pose proof (skip_while_app is_ascii_whitespace (x ++ [backtick; "r"%char]) (w :: y)) as Hs.
    rewrite <-app_assoc, !length_app in Hs. exact Hs. }
  assert (Hs2 : skip_while (λ b, bool_decide (b ≠ backtick)) bytes (length x + 2 + length ws) =
    length x + 2 + length ws + length code).
  { pose proof (skip_while_app (λ b, bool_decide (b ≠ backtick)) (x ++ [backtick; "r"%char] ++ ws) z) as Hs.
    rewrite <-!app_assoc, <-Hy, !length_app, !Nat.add_assoc in Hs. exact Hs. }
  rewrite !Hs1, !Hs2. unfold bytes. rewrite Hy, Hz in *.
  assert (Hq' : match q with [] => True | b :: _ => b = backtick end).
  { destruct q as [|b q']; [done|]. by apply bool_decide_eq_false, dec_stable in Hq. }
  apply inline_turn_code; [done| | |exact Hq'].
  - eapply (utf8_code (x ++ [backtick; "r"%char]) ws code q); [by rewrite <-app_assoc| |done|].
    + unfold ws. simpl. by rewrite Hw.
    + destruct q; [done|]. by rewrite Hq'.
  - rewrite !not_elem_of_cons, !not_elem_of_app in Hn. tauto.
Qed.

Lemma inline_loop_unfold bytes n f i :
  inline_loop bytes n f i =
  if decide (i < length bytes) then
    match inline_step bytes n f i with
    | None => None
    | Some (n', f', None) => Some (n', f')
    | Some (n', f', Some j) => inline_loop bytes n' f' j
    end
  else Some (n, f).
Proof.
  funelim (inline_loop bytes n f i); destruct (decide (i < length bytes)); try lia;
    by repeat match goal with E : inline_step _ _ _ _ = _ |- _ => rewrite E end.
Qed.

(** The loop ends, and writes a text of the same shape. *)
Lemma inline_loop_spec x y x' f :
  utf8 (x ++ y) → newline ∉ y → Forall2 shows x x' → utf8 x' →
  ∃ r f', inline_loop (x ++ y) (x' ++ replicate (length y) space) f (length x) = Some (r, f') ∧
    Forall2 shows (x ++ y) r ∧ utf8 r.
Proof.
  remember (length y) as n eqn:Hlen. revert x y x' f Hlen.
  induction n as [n IH] using lt_wf_ind. intros x y x' f -> Hu Hn Hsh Hux.
  pose proof (Forall2_length _ _ _ Hsh) as Hx. rewrite inline_loop_unfold.
  destruct y as [|b y].
  { rewrite decide_False by (rewrite app_nil_r; lia). exists x', f. simpl. by rewrite !app_nil_r. }
  rewrite decide_True by (rewrite length_app; simpl; lia).
  destruct (inline_step_spec x (b :: y) x' f) as (y1 & y2 & y1' & f' & next & Hy & Hsh1 & Hu1 & Hstep & Hnext); [done..|].
  rewrite Hstep. assert (Hsh' : Forall2 shows (x ++ y1) (x' ++ y1')) by by apply Forall2_app.
  destruct Hnext as [->|[-> ->]].
  - pose proof (inline_step_advances _ _ _ _ _ _ _ Hstep) as [Hadv _]. rewrite length_app in Hadv.
    rewrite Hy, (app_assoc x) in *. rewrite (app_assoc x' y1'). apply not_elem_of_app in Hn as [_ Hn].
    eapply IH; [|done..|by apply utf8_two]. rewrite length_app. lia.
  - rewrite Hy, app_nil_r. exists (x' ++ y1'), f'. simpl. rewrite app_nil_r. by split; [|split; [|apply utf8_two]].
Qed.

(** ** Fences *)

(** The markers in front of a line. *)
Lemma marker_prefix marker s :
  utf8 s → length marker = 1 → ∃ p r, s = p ++ r ∧ length p = marker_width marker s ∧ utf8 r.
Proof.
  intros Hs Hm. unfold marker_width.
  destruct (take_drop_while (λ ch, bool_decide (ch = marker)) (chars s)) as (Hc & Hall & _).
  set (l := take_while _ (chars s)) in *. set (k := drop_while _ (chars s)) in *.
  destruct (chars_split _ _ _ Hs Hc) as (_ & Hr & _).
  exists (concat l), (concat k). split; [by rewrite <-concat_app, <-Hc, chars_concat|]. split; [|done].
  clear Hc Hr. induction Hall as [|ch l' Hch _ IH]; [done|]. simpl. rewrite length_app, IH.
  apply bool_decide_eq_true in Hch. subst ch. lia.
Qed.

Lemma slice_inner a m b :
  utf8 (a :: m ++ [b]) → is_ascii a = true → is_ascii b = true →
  slice (a :: m ++ [b]) 1 (length (a :: m ++ [b]) - 1) = Some m.
Proof.
  intros Hu Ha Hb. pose proof (utf8_after_ascii 0 [] (m ++ [b]) a Ha Hu) as Hm.
  assert (Hbu : utf8 [b]) by (apply utf8_of_ascii; simpl; by rewrite Hb).
  pose proof (utf8_boundary [a] (m ++ [b]) Hm) as H1. pose proof (utf8_boundary (a :: m) [b] Hbu) as H2.
  unfold slice. simpl length in *. simpl app in *. rewrite length_app, Nat.sub_succ, Nat.sub_0_r in *. simpl length in *.
  rewrite Nat.add_1_r. rewrite bool_decide_true by lia. rewrite H1, H2. simpl.
  rewrite Nat.sub_0_r, drop_0. by rewrite take_app_length.
Qed.

Definition fence_ok (fence : option Fence) : Prop :=
  match fence with Some f => length (marker f) = 1 | None => True end.

Lemma parse_fence_total line : utf8 line → ∃ fence, parse_fence line = Some fence ∧ fence_ok fence.
Proof.
  intros Hl. unfold parse_fence. destruct (trim_start_spec line Hl) as (_ & _ & Ht & _).
  destruct (head (chars (trim_start line))) as [m|]; [|by eexists].
  case_bool_decide as Hm; [by eexists|]. case_bool_decide; [by eexists|].
  assert (Hm1 : length m = 1).
  { destruct (decide (m = [backtick])) as [->|]; [done|]. destruct (decide (m = [tilde])) as [->|]; [done|].
    by destruct Hm. }
  destruct (marker_prefix m _ Ht Hm1) as (p & r & Hpr & Hp & Hr). rewrite <-Hp, Hpr, slice_from_app by done.
  cbn [mbind option_bind]. pose proof (trim_utf8 r Hr) as Hrt.
  destruct (starts_with (trim r) ["{"%char]) eqn:Hopen; [|by eexists].
  destruct (ends_with (trim r) "}"%char) eqn:Hclose; [|by eexists]. simpl.
  apply starts_with_spec in Hopen as [u Hu]. apply ends_with_spec in Hclose as [v Hv].
  destruct v as [|c v]; [by rewrite Hu in Hv|]. rewrite Hv in Hu. injection Hu as -> Hu.
  rewrite Hv in Hrt |- *. pose proof (slice_inner "{"%char v "}"%char Hrt eq_refl eq_refl) as Hsl.
  simpl app. rewrite Hsl. by eexists.
Qed.

Lemma is_closing_fence_total line fence :
  utf8 line → length (marker fence) = 1 → is_Some (is_closing_fence line fence).
Proof.
  intros Hl Hm. unfold is_closing_fence. case_bool_decide; [|by eexists].
  destruct (trim_start_spec line Hl) as (_ & _ & Ht & _).
  destruct (marker_prefix _ _ Ht Hm) as (p & r & Hpr & Hp & Hr). rewrite <-Hp, Hpr, slice_from_app by done.
  by eexists.
Qed.

(** ** Lines *)

Lemma mask_utf8 line : utf8 (mask_non_r_line line).
Proof.
  apply utf8_of_ascii, forallb_forall. intros b Hb. apply list_elem_of_In in Hb.
  unfold mask_non_r_line in Hb. apply list_elem_of_lookup in Hb as (i & Hi).
  rewrite list_lookup_imap in Hi. apply fmap_Some in Hi as (? & _ & ->). by case_bool_decide.
Qed.

Lemma mask_shows line : newline ∉ line → Forall2 shows line (mask_non_r_line line).
Proof.
  intros Hn. apply Forall2_same_length_lookup_2; unfold mask_non_r_line; [by rewrite length_imap|].
  intros i b c Hb Hc. rewrite list_lookup_imap, Hb in Hc. injection Hc as <-. right.
  split; [intros ->; by apply list_elem_of_lookup_2 in Hb|].
  case_bool_decide; rewrite !elem_of_cons; auto.
Qed.

Lemma literate_line_total line :
  utf8 line → newline ∉ line →
  ∃ s, normalize_literate_r_line line = Some s ∧ Forall2 shows line s ∧ utf8 s.
Proof.
  intros Hl Hn. unfold normalize_literate_r_line, normalize_inline_r_line.
  destruct (inline_loop_spec [] line [] false) as (r & f & Hr & Hsh & Hu); [done|done|constructor|done|].
  simpl in Hr, Hsh. rewrite Hr. destruct f; simpl.
  - unfold from_utf8. rewrite Hu. by exists r.
  - exists (mask_non_r_line line). split; [done|]. split; [by apply mask_shows|apply mask_utf8].
Qed.

(** ** Documents *)

Lemma split_inclusive_segment s seg :
  seg ∈ split_inclusive s → ∃ line, (newline ∉ line) ∧ (seg = line ∨ seg = line ++ [newline]).
Proof.
  revert seg. induction s as [|b s IH]; intros seg; simpl; [by intros ?%not_elem_of_nil|].
  case_bool_decide as Hb.
  - intros [->|Hin]%elem_of_cons; [|by apply IH]. exists []. subst b. split; [apply not_elem_of_nil|by right].
  - destruct (split_inclusive s) as [|l ls].
    + intros ->%list_elem_of_singleton. exists [b]. split; [|by left].
      rewrite not_elem_of_cons. split; [congruence|apply not_elem_of_nil].
    + intros [->|Hin]%elem_of_cons; [|apply IH; by right].
      destruct (IH l) as (line & Hn & Hl); [left|]. exists (b :: line).
      split; [rewrite not_elem_of_cons; split; [congruence|done]|]. destruct Hl as [->| ->]; [by left|by right].
Qed.

Lemma strip_newline_spec line : strip_trailing_newline (line ++ [newline]) = (line, [newline]).
Proof.
  unfold strip_trailing_newline. rewrite ends_with_snoc, bool_decide_true by done.
  rewrite length_app. simpl. by rewrite Nat.add_sub, take_app_length.
Qed.

Lemma strip_newline_none line : newline ∉ line → strip_trailing_newline line = (line, []).
Proof.
  intros Hn. unfold strip_trailing_newline. destruct (ends_with line newline) eqn:He; [|done].
  apply ends_with_spec in He as [r ->]. exfalso. apply Hn, elem_of_app. right. left.
Qed.

(** A segment is shown as one of the same shape. *)
Lemma literate_step_spec seg s fence :
  utf8 seg → (∃ line, (newline ∉ line) ∧ (seg = line ∨ seg = line ++ [newline])) → fence_ok fence →
  ∃ t fence', literate_step seg (s, fence) = Some (s ++ t, fence') ∧
    Forall2 shows seg t ∧ utf8 t ∧ fence_ok fence'.
Proof.
  intros Hu (line & Hn & Hseg) Hf.
  assert (∃ nl, strip_trailing_newline seg = (line, nl) ∧ seg = line ++ nl ∧ utf8 nl ∧ utf8 line) as (nl & Hst & -> & Hnl & Hl).
  { destruct Hseg as [->| ->]; [exists []|exists [newline]].
    - rewrite app_nil_r. by rewrite strip_newline_none.
    - rewrite strip_newline_spec. split; [done|]. split; [done|]. split; [done|]. exact (proj1 (utf8_split _ _ Hu eq_refl)). }
  unfold literate_step. rewrite Hst. clear Hst.
  assert (Hgo : ∀ t, Forall2 shows line t → utf8 t → Forall2 shows (line ++ nl) (t ++ nl) ∧ utf8 (t ++ nl)).
  { intros t Ht Htu. split; [apply Forall2_app; [done|apply shows_refl]|by apply utf8_two]. }
  pose proof (Hgo _ (mask_shows _ Hn) (mask_utf8 line)) as [Hm Hmu].
  pose proof (Hgo _ (shows_refl line) Hl) as [Hv Hvu].
  destruct fence as [f|].
  - destruct (is_closing_fence_total line f Hl Hf) as [c ->]. cbn [mbind option_bind].
    destruct c; [|destruct (is_r f)]; do 2 eexists; done.
  - destruct (parse_fence_total line Hl) as (fence & -> & Hf'). cbn [mbind option_bind].
    destruct fence as [f|]; [do 2 eexists; done|].
    destruct (literate_line_total line Hl Hn) as (t & -> & Ht & Htu). cbn [mbind option_bind].
    destruct (Hgo t Ht Htu). by do 2 eexists.
Qed.

Lemma literate_fold_spec segs s fence :
  (∀ seg, seg ∈ segs → utf8 seg ∧ ∃ line, (newline ∉ line) ∧ (seg = line ∨ seg = line ++ [newline])) →
  fence_ok fence →
  ∃ t fence', foldM literate_step segs (s, fence) = Some (s ++ t, fence') ∧
    Forall2 shows (concat segs) t ∧ utf8 t.
Proof.
  revert s fence. induction segs as [|seg segs IH]; intros s fence Hsegs Hf.
  - exists [], fence. rewrite app_nil_r. by split; [|split; [constructor|]].
  - destruct (Hsegs seg) as [Hu Hline]; [left|].
    destruct (literate_step_spec seg s fence Hu Hline Hf) as (t & fence' & Hst & Hsh & Htu & Hf'). cbn [foldM].
    rewrite Hst. cbn [mbind option_bind].
    destruct (IH (s ++ t) fence') as (t2 & f2 & Hr & Hsh2 & Hu2); [intros; apply Hsegs; by right|done|].
    exists (t ++ t2), f2. rewrite Hr, app_assoc. split; [done|]. split; [by apply Forall2_app|by apply utf8_two].
Qed.

Lemma segments_ok s seg :
  utf8 s → seg ∈ split_inclusive s →
  utf8 seg ∧ ∃ line, (newline ∉ line) ∧ (seg = line ∨ seg = line ++ [newline]).
Proof. intros Hs Hin. split; [by eapply segments_utf8|by eapply split_inclusive_segment]. Qed.

Lemma normalize_contents_total contents kind :
  utf8 contents → ∃ view, normalize_contents contents kind = Some view ∧ Forall2 shows contents view ∧ utf8 view.
Proof.
  intros Hc. destruct kind; simpl; [exists contents; split; [done|]; split; [apply shows_refl|done]|].
  unfold normalize_literate_r.
  destruct (literate_fold_spec (split_inclusive contents) [] None) as (t & f & -> & Hsh & Hu);
    [intros seg; by apply (segments_ok contents)|done|].
  rewrite split_inclusive_concat in Hsh. by exists t.
Qed.

(** Lines start at the same offsets. *)
Lemma shows_line_starts o s t : Forall2 shows s t → starts_after o s = starts_after o t.
Proof.
  intros Hs. revert o. induction Hs as [|b c s t Hbc _ IH]; intros o; [done|]. simpl. rewrite IH.
  destruct Hbc as [->|[Hb Hc]]; [done|]. rewrite !bool_decide_false; [done| |done].
  intros ->. rewrite !elem_of_cons, elem_of_nil in Hc. by destruct Hc as [|[|[|[]]]].
Qed.

(** C23. The R view of a document never panics and has its shape: it is UTF-8
    and as long, its lines start at the same offsets, and each of its bytes is
    that of the document or a comment mark, blank or separator; so offsets and
    lines of the view are those of the document. *)
Theorem literate_view_shape (contents : text) (kind : DocumentKind) :
  utf8 contents →
  ∃ view, normalize_contents contents kind = Some view ∧ utf8 view ∧
    length view = length contents ∧ line_starts view = line_starts contents ∧
    ∀ i b c, contents !! i = Some b → view !! i = Some c →
      c = b ∨ (b ≠ newline ∧ c ∈ [hash; space; semicolon]).
Proof.
  intros Hc. destruct (normalize_contents_total contents kind Hc) as (view & Hv & Hsh & Hu).
  exists view. split; [done|]. split; [done|]. split; [symmetry; by eapply Forall2_length|].
  split; [unfold line_starts; f_equal; symmetry; by apply shows_line_starts|].
  intros i b c Hb Hc'. by eapply Forall2_lookup_lr in Hsh.
Qed.

(** Lines with their newlines. *)
Definition unlines (lines : list text) : text := concat (map (λ l, l ++ [newline]) lines).

Lemma split_inclusive_unlines lines s :
  Forall (λ l, newline ∉ l) lines →
  split_inclusive (unlines lines ++ s) = map (λ l, l ++ [newline]) lines ++ split_inclusive s.
Proof.
  induction 1 as [|l lines Hl _ IH]; [done|]. unfold unlines in *. simpl.
  rewrite <-!app_assoc. simpl. by rewrite split_inclusive_line, IH.
Qed.

(** The lines of an open R chunk are kept. *)
Lemma literate_fold_body fence body s :
  is_r fence = true → Forall (λ l, is_closing_fence l fence = Some false) body →
  foldM literate_step (map (λ l, l ++ [newline]) body) (s, Some fence) = Some (s ++ unlines body, Some fence).
Proof.
  intros Hr Hb. revert s. induction Hb as [|l body Hl _ IH]; intros s; [by rewrite app_nil_r|].
  assert (Hstep : literate_step (l ++ [newline]) (s, Some fence) = Some (s ++ l ++ [newline], Some fence)).
  { unfold literate_step. rewrite strip_newline_spec, Hl. cbn [mbind option_bind]. by rewrite Hr. }
  cbn [map foldM]. rewrite Hstep. cbn [mbind option_bind]. rewrite IH.
  unfold unlines. simpl. by rewrite <-!app_assoc.
Qed.

(** An R chunk is in the view as it is: after lines that leave no fence open
    and the line that opens it, which is masked, every line of the chunk appears
    verbatim at its place. *)
Theorem literate_chunk_verbatim (pre body : list text) (open_ view rest : text) (fence : Fence) :
  utf8 (unlines pre ++ open_ ++ [newline] ++ unlines body ++ rest) →
  Forall (λ l, newline ∉ l) (pre ++ open_ :: body) →
  foldM literate_step (split_inclusive (unlines pre)) ([], None) = Some (view, None) →
  parse_fence open_ = Some (Some fence) → is_r fence = true →
  Forall (λ l, is_closing_fence l fence = Some false) body →
  ∃ rest_view,
    normalize_literate_r (unlines pre ++ open_ ++ [newline] ++ unlines body ++ rest) =
      Some (view ++ mask_non_r_line open_ ++ [newline] ++ unlines body ++ rest_view) ∧
    length view = length (unlines pre) ∧ length rest_view = length rest.
Proof.
  intros Hu Hn Hpre Hopen Hr Hbody. rewrite Forall_app, Forall_cons in Hn. destruct Hn as (Hnp & Hno & Hnb).
  pose proof (λ seg, segments_ok _ seg Hu) as Hok.
  rewrite <-(app_nil_r (unlines pre)), split_inclusive_unlines, app_nil_r in Hpre by done. simpl in Hpre.
  unfold normalize_literate_r. revert Hok. rewrite split_inclusive_unlines by done. simpl app.
  rewrite split_inclusive_line, split_inclusive_unlines by done. intros Hok.
  destruct (literate_fold_spec (map (λ l, l ++ [newline]) pre) [] None) as (v & f & Hf & Hshp & _);
    [intros; apply Hok, elem_of_app; by left|done|].
  rewrite Hpre in Hf. injection Hf as -> _. apply Forall2_length in Hshp.
  destruct (parse_fence_total open_) as (fence' & Hopen' & Hfence).
  { exact (proj1 (utf8_split _ [newline] (proj1 (Hok (open_ ++ [newline]) ltac:(apply elem_of_app; right; left))) eq_refl)). }
  rewrite Hopen in Hopen'. injection Hopen' as <-.
  assert (Hstep : literate_step (open_ ++ [newline]) (v, None) =
    Some (v ++ mask_non_r_line open_ ++ [newline], Some fence)).
  { unfold literate_step. by rewrite strip_newline_spec, Hopen. }
  destruct (literate_fold_spec (split_inclusive rest) (v ++ (mask_non_r_line open_ ++ [newline]) ++ unlines body) (Some fence))
    as (t & f2 & Hf2 & Hsh & _); [intros; apply Hok; rewrite elem_of_app, elem_of_cons, elem_of_app; by auto|done|].
  exists t. split; [|split; [done|apply Forall2_length in Hsh; by rewrite split_inclusive_concat in Hsh]].
  rewrite foldM_app, Hpre. cbn [mbind option_bind foldM]. rewrite Hstep. cbn [mbind option_bind].
  rewrite foldM_app, literate_fold_body by done. cbn [mbind option_bind].
  rewrite <-app_assoc, Hf2. simpl. by rewrite <-!app_assoc.
Qed.

(** ** Witnesses *)

Definition sample_document : text :=
  text_of "Text `r x`" ++ [newline] ++ text_of "```{r}" ++ [newline] ++ text_of "y <- 1" ++ [newline] ++ text_of "```".

Lemma literate_view_shape_witness :
  ∃ view, normalize_contents sample_document LiterateR = Some view ∧ utf8 view ∧
    length view = length sample_document ∧ line_starts view = line_starts sample_document ∧
    ∀ i b c, sample_document !! i = Some b → view !! i = Some c →
      c = b ∨ (b ≠ newline ∧ c ∈ [hash; space; semicolon]).
Proof. apply literate_view_shape. reflexivity. Defined.

Lemma literate_chunk_verbatim_witness :
  ∃ rest_view,
    normalize_literate_r (unlines [text_of "Text `r x`"] ++ text_of "```{r}" ++ [newline] ++
        unlines [text_of "y <- 1"] ++ text_of "```") =
      Some (text_of "        x;" ++ [newline] ++ mask_non_r_line (text_of "```{r}") ++ [newline] ++
        unlines [text_of "y <- 1"] ++ rest_view) ∧
    length (text_of "        x;" ++ [newline]) = length (unlines [text_of "Text `r x`"]) ∧ length rest_view = length (text_of "```").
Proof.
  apply (literate_chunk_verbatim [text_of "Text `r x`"] [text_of "y <- 1"] (text_of "```{r}")
    (text_of "        x;" ++ [newline]) (text_of "```") (mkFence [backtick] 3 true)); try reflexivity.
  - repeat constructor; rewrite <-newline_count_zero; reflexivity.
  - repeat constructor.
Defined.
