(* ===== verification/Document.v ===== *)
(** * Documents of the language server: [crates/ark-lsp-core/src/lsp/document.rs]

    A document keeps the text of the editor, the R view of it, the tree of the
    view and the line index of the text. The tree-sitter parser is a parameter;
    [None] is its failure, on which the code panics. *)

From S2P Require Export Proto Literate.

Class TreeSitter := { Tree : Type; parse : text → option Tree }.

Inductive IndentStyle := Tab | Space.
Record IndentationConfig := mkIndentation { indent_style : IndentStyle; indent_size : N; tab_width : N }.
Record DocumentConfig := mkDocumentConfig { indent : IndentationConfig }.

Definition default_config : DocumentConfig := mkDocumentConfig (mkIndentation Space 2 2).

(** [tree_sitter::Point] and [Range]. *)
Record Point := mkPoint { row : N; column : N }.
Record TsRange := mkTsRange { start_byte : N; end_byte : N; start_point : Point; end_point : Point }.

(** [n as u32]. *)
Definition as_u32 (n : N) : N := (n `mod` (u32_max + 1))%N.

Section document.
Context {TR : TextRanges} {TRO : TextRangeOps} {LI : LineIndexes} {TS : TreeSitter}.

Record Document := mkDocument {
  source_contents : text;
  doc_path : option PathBuf;
  contents : text;
  ast : Tree;
  line_index : LineIndex;
  version : option Z;
  position_encoding : PositionEncoding;
  config : DocumentConfig;
  kind : DocumentKind;
}.

Definition with_source (s : text) (d : Document) : Document :=
  mkDocument s (doc_path d) (contents d) (ast d) (line_index d) (version d)
    (position_encoding d) (config d) (kind d).
Definition with_line_index (i : LineIndex) (d : Document) : Document :=
  mkDocument (source_contents d) (doc_path d) (contents d) (ast d) i (version d)
    (position_encoding d) (config d) (kind d).

(** ** Construction *)

Definition new_with_parser_and_kind (s : text) (ver : option Z) (k : DocumentKind) : option Document :=
  view ← normalize_contents s k;
  tree ← parse view;
  Some (mkDocument s None view tree (index_new s) ver (Wide Utf16) default_config k).

Definition new_with_kind (s : text) (ver : option Z) (k : DocumentKind) : option Document :=
  new_with_parser_and_kind s ver k.
Definition new_with_parser (s : text) (ver : option Z) : option Document :=
  new_with_parser_and_kind s ver R.
Definition new_document (s : text) (ver : option Z) : option Document := new_with_kind s ver R.

(** ** Lines and positions *)

(** [newlines.get(i)]. *)
Definition newline_at (d : Document) (i : N) : option N :=
  let starts := newlines (line_index d) in
  if bool_decide (i < N.of_nat (length starts))%N then starts !! N.to_nat i else None.

Definition get_line (d : Document) (l : N) : option text :=
  line_start ← newline_at d l;
  let line_end := default (as_u32 (len (source_contents d))) (newline_at d (l + 1)) in
  slice (source_contents d) (N.to_nat line_start) (N.to_nat line_end).

(** [line.strip_suffix('\n').unwrap_or(line)]. *)
Definition strip_newline (s : text) : text := fst (strip_trailing_newline s).

Definition clamp_lsp_position (d : Document) (position : Position) : Position :=
  let last_line := (index_len (line_index d) - 1)%N in
  let l := N.min (p_line position) last_line in
  let max_character :=
    match get_line d l with
    | Some s => as_u32 (N.of_nat (units (position_encoding d) (strip_newline s)))
    | None => 0%N
    end in
  mkPosition l (N.min (p_character position) max_character).

Definition clamp_lsp_range (d : Document) (range : Range) : Range :=
  let start_ := clamp_lsp_position d (r_start range) in
  let end_ := clamp_lsp_position d (r_end range) in
  mkRange start_ (if position_lt end_ start_ then start_ else end_).

Definition tree_sitter_point_from_lsp_position (d : Document) (position : Position) : Result Point :=
  let position := clamp_lsp_position d position in
  let lc := from_proto.line_col_from_position position (line_index d) (position_encoding d) in
  Some (mkPoint (line lc) (col lc)).

Definition lsp_position_from_tree_sitter_point (d : Document) (p : Point) : Result Position :=
  to_proto.position_from_line_col (mkLineCol (as_u32 (row p)) (as_u32 (column p)))
    (line_index d) (position_encoding d).

Definition lsp_range_from_tree_sitter_range (d : Document) (r : TsRange) : Result Range :=
  start_ ← lsp_position_from_tree_sitter_point d (start_point r);
  end_ ← lsp_position_from_tree_sitter_point d (end_point r);
  Some (mkRange start_ end_).

Definition tree_sitter_range_from_lsp_range (d : Document) (range : Range) : option (Result TsRange) :=
  let range := clamp_lsp_range d range in
  match tree_sitter_point_from_lsp_position d (r_start range),
        tree_sitter_point_from_lsp_position d (r_end range) with
  | Some start_, Some end_ =>
      text_range ← from_proto.text_range range (line_index d) (position_encoding d);
      Some match text_range with
           | Some r => Some (mkTsRange (range_start r) (range_end r) start_ end_)
           | None => None
           end
  | _, _ => Some None
  end.

(** ** Changes *)

(** The loop of [on_did_change] over the incremental changes. *)
Fixpoint did_change_loop (changes : list ChangeEvent) (last_start_line : N) (d : Document)
    : option Document :=
  match changes with
  | [] => Some d
  | change :: changes =>
      range ← c_range change;
      let range := clamp_lsp_range d range in
      let d :=
        if bool_decide (last_start_line ≤ p_line (r_end range))%N
        then with_line_index (index_new (source_contents d)) d else d in
      let last_start_line := p_line (r_start range) in
      result ← from_proto.text_range range (line_index d) (position_encoding d);
      bytes ← result;
      s ← replace_range (source_contents d) (N.to_nat (range_start bytes)) (N.to_nat (range_end bytes))
            (c_text change);
      did_change_loop changes last_start_line (with_source s d)
  end.

(** What is done once at the end. *)
Definition rebuild (new_version : Z) (d : Document) : option Document :=
  view ← normalize_contents (source_contents d) (kind d);
  tree ← parse view;
  Some (mkDocument (source_contents d) (doc_path d) view tree (index_new (source_contents d))
    (Some new_version) (position_encoding d) (config d) (kind d)).

(** Whether the notification is out of order. *)
Definition out_of_sync (d : Document) (new_version : Z) : bool :=
  match version d with
  | Some old_version => bool_decide (new_version < old_version)%Z
  | None => false
  end.

Definition on_did_change (d : Document) (new_version : Z) (changes : list ChangeEvent)
    : option Document :=
  if out_of_sync d new_version then None
  else
    d ←
      match rposition from_proto.is_full_change changes with
      | Some idx =>
          let incremental := drop (idx + 1) changes in
          change ← last (take (idx + 1) changes);
          did_change_loop incremental 0 (with_source (c_text change) d)
      | None => did_change_loop changes u32_max d
      end;
    rebuild new_version d.
End document.
