(* ===== verification/DocumentTheorems.v ===== *)
(** * Properties of documents *)

From S2P Require Import Proto LiterateTheorems Document.

(** ** Lengths *)

Lemma units_le enc s : units enc s ≤ length s.
Proof.
  assert (Hch : ∀ l : list text, (∀ ch, ch ∈ l → ch ≠ []) →
    sum_list (len_utf16 <$> l) ≤ length (concat l) ∧ length l ≤ length (concat l)).
  { induction l as [|ch l IH]; intros Hne; [done|]. destruct IH as [IH1 IH2]; [intros; apply Hne; by right|].
    assert (ch ≠ []) by (apply Hne; left). rewrite fmap_cons. simpl. rewrite length_app. unfold len_utf16 at 1.
    destruct ch as [|b ch]; [done|]. simpl length. case_bool_decide; lia. }
  destruct (Hch (chars s)) as [H1 H2]; [intros ch; apply chars_nonempty|]. rewrite chars_concat in H1, H2.
  destruct enc as [|[]]; simpl; [done|exact H1|exact H2].
Qed.

Lemma as_u32_small n : (n ≤ u32_max)%N → as_u32 n = n.
Proof. intros Hn. unfold as_u32. apply N.mod_small. unfold u32_max in *. lia. Qed.

Lemma newline_count_len s : (N.of_nat (newline_count s) ≤ len s)%N.
Proof. unfold newline_count, len. pose proof (length_filter (newline =.) s). lia. Qed.

Lemma last_line_suffix a : ∃ p, a = p ++ last_line a.
Proof.
  destruct (last_line_split a) as [_ [[_ Hl]|[b Hb]]]; [exists []; by rewrite Hl|].
  exists (b ++ [newline]). rewrite <-app_assoc. exact Hb.
Qed.

Section lines.
Context {TR : TextRanges} {TRO : TextRangeOps} {LI : LineIndexes} {TS : TreeSitter}.

Lemma newline_at_new d s i :
  line_index d = index_new s → fits s → newline_at d (N.of_nat i) = line_starts s !! i.
Proof.
  intros Hi Hf. unfold newline_at. rewrite Hi, newlines_new by done. case_bool_decide as Hlt.
  - by rewrite Nat2N.id.
  - symmetry. apply lookup_ge_None_2. lia.
Qed.

(** The index knows the line of [a]: its rest is [b] in the text and in the text
    of the index, and both end there or go on with a newline. *)
Definition line_known (a b x y : text) : Prop :=
  (newline ∉ b) ∧ ((x = [] ∧ y = []) ∨ ∃ x' y', x = newline :: x' ∧ y = newline :: y').

Lemma get_line_known d a b x y :
  source_contents d = a ++ b ++ x → line_index d = index_new (a ++ b ++ y) →
  fits (a ++ b ++ y) → utf8 a → utf8 (b ++ x) → utf8 x → line_known a b x y →
  ∃ l, get_line d (N.of_nat (newline_count a)) = Some l ∧ strip_newline l = last_line a ++ b.
Proof.
  intros Hs Hi Hf Ha Hbx Hx [Hb Hxy]. unfold get_line.
  rewrite (newline_at_new d _ _ Hi Hf), line_starts_lookup. cbn [mbind option_bind].
  destruct (last_line_suffix a) as [p Hp].
  assert (Hstart : N.to_nat (len a - len (last_line a)) = length p).
  { rewrite Hp at 1. rewrite len_app. unfold len. lia. }
  rewrite Hstart, Hs. destruct Hxy as [[-> ->]|(x' & y' & -> & ->)].
  - replace (N.of_nat (newline_count a) + 1)%N with (N.of_nat (S (newline_count a))) by lia.
    rewrite (newline_at_new d _ _ Hi Hf), lookup_ge_None_2.
    + rewrite !app_nil_r in *. simpl. rewrite as_u32_small by done. rewrite len_to_nat.
      exists (last_line a ++ b). split.
      * replace (a ++ b) with (p ++ (last_line a ++ b)) by (by rewrite (app_assoc p), <-Hp).
        rewrite <-(app_nil_r (last_line a ++ b)) at 1. apply slice_app; [|done].
        rewrite app_nil_r. apply utf8_two; [by apply last_line_utf8|done].
      * unfold strip_newline. rewrite strip_newline_none; [done|].
        apply not_elem_of_app. split; [apply last_line_split|done].
    + unfold line_starts. simpl. rewrite length_starts_after, app_nil_r, newline_count_app.
      rewrite (proj2 (newline_count_zero b) Hb). lia.
  - set (c := a ++ b ++ [newline]).
    assert (Hc : newline_count c = S (newline_count a)).
    { unfold c. rewrite !newline_count_app, (proj2 (newline_count_zero b) Hb). change (newline_count [newline]) with 1. lia. }
    replace (N.of_nat (newline_count a) + 1)%N with (N.of_nat (newline_count c)) by lia.
    rewrite (newline_at_new d _ _ Hi Hf).
    replace (a ++ b ++ newline :: y') with (c ++ y') by (unfold c; by rewrite <-!app_assoc).
    rewrite line_starts_lookup.
    assert (Hlc : last_line c = []) by (unfold c; by rewrite app_assoc, last_line_snoc).
    rewrite Hlc.
    simpl. replace (N.to_nat (len c - len [])) with (length c) by (unfold len; simpl; lia).
    exists ((last_line a ++ b) ++ [newline]). split; [|unfold strip_newline; by rewrite strip_newline_spec].
    replace (a ++ b ++ newline :: x') with (p ++ ((last_line a ++ b) ++ [newline]) ++ x')
      by (rewrite <-!app_assoc; by rewrite (app_assoc p), <-Hp).
    replace c with (p ++ (last_line a ++ b) ++ [newline]) by (unfold c; rewrite <-!app_assoc; by rewrite (app_assoc p), <-Hp).
    apply slice_app; [|by apply (utf8_after_newline 0 [])].
    rewrite <-!app_assoc. apply utf8_two; [by apply last_line_utf8|done].
Qed.

(** A position on such a line is not clamped. *)
Lemma clamp_known d a b x y :
  source_contents d = a ++ b ++ x → line_index d = index_new (a ++ b ++ y) →
  (len (a ++ b ++ y) < u32_max)%N → utf8 a → utf8 (b ++ x) → utf8 x → line_known a b x y →
  clamp_lsp_position d (position_after (position_encoding d) a) = position_after (position_encoding d) a.
Proof.
  intros Hs Hi Hf Ha Hbx Hx Hk. assert (Hfit : fits (a ++ b ++ y)) by (unfold fits; lia).
  destruct (get_line_known d a b x y) as (l & Hl & Hst); [done..|].
  pose proof (newline_count_len (a ++ b ++ y)) as Hcount. rewrite newline_count_app in Hcount.
  unfold clamp_lsp_position. simpl p_line. simpl p_character.
  rewrite N.min_l.
  - rewrite Hl, Hst. unfold position_after. f_equal. apply N.min_l.
    assert (starts_char b).
    { destruct b as [|c b]; [done|]. by apply (utf8_starts_char ((c :: b) ++ x)) in Hbx. }
    rewrite units_app by done. pose proof (units_le (position_encoding d) (last_line a ++ b)) as Hle.
    rewrite units_app, length_app in Hle by done. destruct (last_line_suffix a) as [p Hp].
    apply (f_equal length) in Hp. rewrite length_app in Hp. unfold len in Hf. rewrite !length_app in Hf.
    rewrite as_u32_small by lia. lia.
  - rewrite Hi, index_len_new by done. unfold line_starts. simpl length.
    rewrite length_starts_after, newline_count_app. lia.
Qed.
(** ** The index during a list of changes *)

(** The index was built for a text that differs from the current one only after
    a common part, which ends on line [last]. *)
Definition known_before (s s0 : text) (last : N) : Prop :=
  ∃ common x y, s = common ++ x ∧ s0 = common ++ y ∧
    ((x = [] ∧ y = []) ∨ N.of_nat (newline_count common) = last).

Lemma line_rest t : ∃ b x, t = b ++ x ∧ (newline ∉ b) ∧ (x = [] ∨ ∃ x', x = newline :: x').
Proof.
  destruct (take_drop_while (λ b, bool_decide (b ≠ newline)) t) as (Ht & Hb & Hx).
  exists (take_while (λ b, bool_decide (b ≠ newline)) t), (drop_while (λ b, bool_decide (b ≠ newline)) t).
  split; [done|]. split.
  - intros Hin. rewrite Forall_forall in Hb. specialize (Hb _ Hin). by apply bool_decide_eq_true in Hb.
  - destruct (drop_while _ t) as [|c x]; [by left|]. right. exists x.
    apply bool_decide_eq_false, dec_stable in Hx. by subst c.
Qed.

Lemma known_line s s0 last a t :
  known_before s s0 last → s = a ++ t → (N.of_nat (newline_count a) < last)%N →
  ∃ b x y, s = a ++ b ++ x ∧ s0 = a ++ b ++ y ∧ line_known a b x y.
Proof.
  intros (common & x & y & Hs & Hs0 & Hc) Hat Hlt. destruct Hc as [[-> ->]|Hc].
  - rewrite app_nil_r in *. subst common. destruct (line_rest t) as (b & z & -> & Hb & Hz).
    exists b, z, z. split; [done|]. split; [by rewrite Hs0|]. split; [done|].
    destruct Hz as [->|[z' ->]]; [by left|right; by exists z', z'].
  - rewrite Hs in Hat. apply app_split in Hat as [(c & -> & ->)|(c & -> & ->)].
    + rewrite newline_count_app in Hlt. lia.
    + destruct (line_rest c) as (b & z & -> & Hb & Hz). destruct Hz as [->|[z' ->]].
      * rewrite app_nil_r, newline_count_app, (proj2 (newline_count_zero b) Hb) in Hc. lia.
      * exists b, ((newline :: z') ++ x), ((newline :: z') ++ y).
        rewrite Hs, Hs0, <-!app_assoc. split; [done|]. split; [done|]. split; [done|]. right. by exists (z' ++ x), (z' ++ y).
Qed.

(** Positions before [last] are kept by the clamp and converted right. *)
Lemma clamp_before d s0 last a t :
  known_before (source_contents d) s0 last → line_index d = index_new s0 → (len s0 < u32_max)%N →
  source_contents d = a ++ t → utf8 a → utf8 t → (N.of_nat (newline_count a) < last)%N →
  clamp_lsp_position d (position_after (position_encoding d) a) = position_after (position_encoding d) a.
Proof.
  intros Hk Hi Hlen Hs Ha Ht Hlt. destruct (known_line _ _ _ _ _ Hk Hs Hlt) as (b & x & y & Hsx & -> & Hb).
  rewrite Hs in Hsx. apply app_inv_head in Hsx. subst t.
  eapply clamp_known; [exact Hs|exact Hi|done..| |exact Hb].
  apply (utf8_split b x Ht). by destruct Hb as [_ [[-> _]|(x' & ? & -> & _)]].
Qed.




(** ** The meaning of changes sent from the bottom of a text to its top *)


End lines.

(** ** Theorems *)

Section theorems.
Context {TR : TextRanges} {TRO : TextRangeOps} {LI : LineIndexes} {TS : TreeSitter}.

(** A document whose parts are those of its text. *)
Record in_sync (d : Document) : Prop := {
  sync_utf8 : utf8 (source_contents d);
  sync_index : line_index d = index_new (source_contents d);
  sync_contents : normalize_contents (source_contents d) (kind d) = Some (contents d);
  sync_ast : parse (contents d) = Some (ast d);
}.









(** A place between two characters of the document converts from the
    position of the editor to the point of the tree and back. *)
Theorem document_points_roundtrip (d : Document) (a r : text) :
  in_sync d → source_contents d = a ++ r → (len (a ++ r) < u32_max)%N → utf8 a → utf8 r →
  let position := position_after (position_encoding d) a in
  ∃ p, tree_sitter_point_from_lsp_position d position = Some p ∧
    row p = N.of_nat (newline_count a) ∧ column p = len (last_line a) ∧
    lsp_position_from_tree_sitter_point d p = Some position.
Proof.
  intros [Hu Hi _ _] Hs Hlen Ha Hr. cbv zeta. unfold tree_sitter_point_from_lsp_position.
  assert (Hk : known_before (source_contents d) (a ++ r) u32_max).
  { exists (a ++ r), [], []. rewrite app_nil_r. split; [done|]. split; [done|]. by left. }
  rewrite Hs in Hi. pose proof (newline_count_len a) as Hn. rewrite len_app in Hlen.
  rewrite (clamp_before d (a ++ r) u32_max a r) by (done || rewrite ?len_app; lia).
  assert (Hfit : fits (a ++ r)) by (unfold fits; rewrite len_app; lia).
  assert (Hlc : from_proto.line_col_from_position (position_after (position_encoding d) a) (line_index d)
    (position_encoding d) = line_col_after a).
  { unfold from_proto.line_col_from_position. destruct (position_encoding d) as [|enc]; [done|].
    rewrite Hi. exact (to_utf8_new enc a r Hfit Ha Hr). }
  rewrite Hlc. eexists. split; [done|]. split; [done|]. split; [done|].
  unfold lsp_position_from_tree_sitter_point, to_proto.position_from_line_col. simpl.
  assert (len (last_line a) ≤ len a)%N.
  { destruct (last_line_suffix a) as [p Hp]. rewrite Hp at 2. rewrite len_app. lia. }
  rewrite !as_u32_small by lia. destruct (position_encoding d) as [|enc]; [done|].
  rewrite Hi. pose proof (to_wide_new enc a r Hfit Ha Hr) as Hw. unfold line_col_after in Hw.
  by rewrite Hw.
Qed.
End theorems.

(** ** Witnesses, and a list of changes that goes down *)

Section witnesses.
#[local] Existing Instance text_ranges_reference.
#[local] Existing Instance text_range_ops_reference.
#[local] Existing Instance line_index_reference.

(** A parser that keeps the text. *)
#[local] Instance text_trees : TreeSitter := {| Tree := text; parse := Some |}.

(** The document of a text, in the state [new] leaves it in. *)
Definition demo_document (s : text) : Document :=
  mkDocument s None s s (index_new s) (Some 1%Z) (Wide Utf16) default_config R.

Lemma demo_in_sync s : utf8 s → in_sync (demo_document s).
Proof. by split. Qed.

Definition change (l1 c1 l2 c2 : N) (s : text) : ChangeEvent :=
  mkChange (Some (mkRange (mkPosition l1 c1) (mkPosition l2 c2))) None s.


(** ["one", "two"] edited on its second line, then on its first. *)
Definition two_lines : text := text_of "one" ++ [newline] ++ text_of "two".


Lemma document_points_roundtrip_witness :
  let d := demo_document two_lines in
  ∃ p, tree_sitter_point_from_lsp_position d (position_after (Wide Utf16) (text_of "one" ++ [newline] ++ text_of "t")) = Some p ∧
    row p = 1%N ∧ column p = 1%N ∧
    lsp_position_from_tree_sitter_point d p = Some (position_after (Wide Utf16) (text_of "one" ++ [newline] ++ text_of "t")).
Proof.
  apply (document_points_roundtrip (demo_document two_lines) (text_of "one" ++ [newline] ++ text_of "t") (text_of "wo"));
    [by apply demo_in_sync|reflexivity|vm_compute; reflexivity|reflexivity|reflexivity].
Defined.

(** Changes that go down the document and add lines are misplaced: each
    position is clamped with the line index of before the changes, although the
    index is rebuilt for the conversion. A newline typed after [a] and then [b]
    on the new line give [b], [a] and an empty line; applied in order they give
    [a] and [b]. *)
Theorem downward_changes_misplaced :
  let s := text_of "a" in
  let changes := [change 0 1 0 1 [newline]; change 1 0 1 0 (text_of "b")] in
  in_sync (demo_document s) ∧
  applies (Wide Utf16) s changes (text_of "a" ++ [newline] ++ text_of "b") ∧
  source_contents <$> on_did_change (demo_document s) 2 changes = Some (text_of "ba" ++ [newline]).
Proof.
  split; [by apply demo_in_sync|]. split; [|vm_compute; reflexivity].
  eapply applies_incremental; [reflexivity|vm_compute; discriminate| |reflexivity|].
  { apply (change_applies_intro _ _ _ _ _ (text_of "a") [] []); reflexivity. }
  eapply applies_incremental; [reflexivity|vm_compute; discriminate| |reflexivity|apply applies_nil].
  apply (change_applies_intro _ _ _ _ _ (text_of "a" ++ [newline]) [] []); reflexivity.
Qed.
End witnesses.
