(* ===== verification/LoadContext.v ===== *)
(** * Load contexts: [crates/oak_db/src/load_context.rs]

    Which files, namespace and packages the loader of a file makes visible to
    it, from paths and source text only. [Directory] is [directory.rs],
    [Testthat] and [Shiny] are the modules of [load_context/contrib]. First the
    identities of files as URLs, the conversions of
    [aether_path/src/file_path.rs], and the reads of the database. *)

From S2P Require Export External Paths OakQueries.

(** What the sources take of [url] and [percent_encoding]. A [VirtualUri] is
    kept as the text of its URL, which [url_of_text] reads back. *)
Class UrlOps `{Urls} := {
  url_text : Url → text;
  url_of_text : text → Url;
  url_parse : text → option Url;
  is_file_url : Url → bool;
  url_to_file_path : Url → option PathBuf;
  url_from_file_path : path → Url;
  path_segments : Url → option (list text);
  percent_decode_utf8 : text → option text;
  url_text_of u : url_of_text (url_text u) = u;
  file_url_scheme p : is_file_url (url_from_file_path p) = true;
  file_url_path p : url_to_file_path (url_from_file_path p) = Some (mkPathBuf (path_text p) true);
}.

Section urls.
Context `{UO : UrlOps}.

(** [AbsPathBuf::from_url]. *)
Definition abs_from_url (url : Url) : option path :=
  if is_file_url url then url_to_file_path url ≫= abs_from_path_buf else None.

Definition from_url (url : Url) : FilePath :=
  match abs_from_url url with
  | Some p => FFile p
  | None => FVirtual (url_text url)
  end.

Definition parse_path (s : text) : option FilePath := from_url <$> url_parse s.

Definition to_url (fp : FilePath) : Url :=
  match fp with FFile p => url_from_file_path p | FVirtual uri => url_of_text uri end.

(** [Display]: what paths are sorted by. *)
Definition path_string (fp : FilePath) : text := url_text (to_url fp).

Definition path_file_name (fp : FilePath) : option text :=
  match fp with
  | FFile p => file_name p
  | FVirtual uri =>
      segments ← path_segments (url_of_text uri);
      segment ← last segments;
      if bool_decide (segment = []) then None else percent_decode_utf8 segment
  end.

(** The non-empty segments that [root_depth] counts. *)
Definition virtual_depth (uri : text) : nat :=
  match path_segments (url_of_text uri) with
  | Some segments => length (filter (λ segment, segment ≠ []) segments)
  | None => 0
  end.

(** An identity survives a trip over the wire: reading back the URL that
    the identity of any URL is sent as gives the same identity, whatever
    spelling the URL had, and distinct identities have distinct URLs. *)
Theorem file_url_roundtrip (u u' : Url) :
  from_url (to_url (from_url u)) = from_url u ∧
  (to_url (from_url u) = to_url (from_url u') → from_url u = from_url u').
Proof.
  assert (Hr : ∀ v, from_url (to_url (from_url v)) = from_url v).
  { intros v. unfold from_url at 2 3. destruct (abs_from_url v) as [p|] eqn:Hv; simpl.
    - unfold from_url, abs_from_url. rewrite file_url_scheme, file_url_path.
      cbn [mbind option_bind]. unfold abs_from_path_buf. cbn [pb_utf8 pb_text].
      rewrite from_path_text; [done|]. unfold abs_from_url in Hv.
      destruct (is_file_url v); [|done]. destruct (url_to_file_path v) as [b|]; [|done].
      simpl in Hv. unfold abs_from_path_buf in Hv. destruct (pb_utf8 b); [|done].
      by eapply from_utf8_normalised.
    - unfold from_url. by rewrite url_text_of, Hv. }
  split; [apply Hr|]. intros E. by rewrite <-Hr, E, Hr.
Qed.
End urls.

(** ** Reads *)

(** [DbInputs::read_to_string], [None] for any error. *)
Class DbReads := read_to_string : path → option text.

(** The point in a load at which a file views its siblings. *)
Inductive CollationView := VEager | VDeferred.

#[export] Instance CollationView_eq_dec : EqDecision CollationView.
Proof. solve_decision. Defined.

(** [str::to_ascii_lowercase] and [str::contains]. *)
Definition to_ascii_lowercase (s : text) : text := to_lower <$> s.

Fixpoint text_contains (s m : text) : bool :=
  starts_with s m || match s with [] => false | _ :: s => text_contains s m end.

Section load_context.
Context `{HO : HashOrder} `{UO : UrlOps} `{RD : DbReads}.
Implicit Types (db : Db) (f : File) (view : CollationView).

(** [File::source_text]. *)
Definition source_text db f : text :=
  match f_override (file db f) with
  | Some t => t
  | None =>
      match f_path (file db f) with
      | FFile p => default [] (read_to_string p)
      | FVirtual _ => []
      end
  end.

Definition file_as_path db f : option path := as_path (f_path (file db f)).
Definition file_basename db f : option text := path_file_name (f_path (file db f)).

(** ** Directories *)

Definition collation_basename_key db f : option text :=
  to_ascii_lowercase <$> file_basename db f.

Definition files_in_directory db (dir : path) : list File :=
  sort_by_key name_le (collation_basename_key db)
    (filter (λ f, (file_as_path db f ≫= parent) = Some dir)
       (workspace_root_files virtual_depth db)).

(** [relative.as_str()]: components without a leading separator. *)
Definition relative_text (p : path) : text := drop 1 (path_text p).

Definition files_in_directory_recursive db (dir : path) : list File :=
  (sort_by_key text_le fst
    (omap (λ f,
       p ← file_as_path db f;
       relative ← strip_prefix p dir;
       Some (to_ascii_lowercase (match relative with [] => [] | _ => relative_text relative end), f))
       (workspace_root_files virtual_depth db))).*2.

(** ** Contexts *)

(** Files writing into one environment, in forward execution order; and
    environments in child-to-parent order. *)
Definition LoadEnvironment : Type := list File.
Definition EnvironmentChain : Type := list LoadEnvironment.

Record LoaderInfo := mkLoaderInfo { loader_name : string; loader_loads : string }.

Inductive LoadKind := LoadNamespace (p : Package) | LoadSession.

Inductive SearchPathTail := TailBase | TailDefault.

Record LoadContext := mkLoadContext {
  lc_kind : LoadKind;
  lc_environments : EnvironmentChain;
  lc_implicit_attaches : list string;
  lc_loader : option LoaderInfo;
}.

Definition chain_own f : EnvironmentChain := [[f]].

Definition lookup_files (chain : EnvironmentChain) : list File :=
  environment ← chain; reverse environment.

Definition fixes_load_order (kind : LoadKind) : bool :=
  match kind with LoadNamespace _ => true | LoadSession => false end.

Definition search_path_tail (kind : LoadKind) : SearchPathTail :=
  match kind with LoadNamespace _ => TailBase | LoadSession => TailDefault end.

Definition PACKAGE_LOADER : LoaderInfo :=
  mkLoaderInfo "The package" "its `R/` files in collation order".
Definition NOTEBOOK_LOADER : LoaderInfo :=
  mkLoaderInfo "This notebook" "its cells in document order".

(** [prefix_len] is a position of [collation] or an insertion point, so that
    its slices are in range. *)
Definition load_environment f (collation : list File) view (prefix_len : nat) : LoadEnvironment :=
  let before := take prefix_len collation ++ [f] in
  match view with
  | VEager => before
  | VDeferred =>
      let present := bool_decide (collation !! prefix_len = Some f) in
      before ++ drop (prefix_len + (if present then 1 else 0)) collation
  end.

Definition collation_siblings db f : list File :=
  match file_as_path db f ≫= parent with
  | None => []
  | Some dir => files_in_directory db dir
  end.

(** [a < b] on keys. *)
Definition key_before (a b : option text) : bool := negb (name_le b a).

Definition collation_environment db f view : LoadEnvironment :=
  let siblings := collation_siblings db f in
  let prefix_len :=
    match position (λ sibling, sibling = f) siblings with
    | Some i => i
    | None =>
        partition_point (λ sibling,
          key_before (collation_basename_key db sibling) (collation_basename_key db f)) siblings
    end in
  load_environment f siblings view prefix_len.

Definition in_r_directory db f : bool :=
  bool_decide (((file_as_path db f ≫= parent) ≫= file_name) = Some (text_of "R")).

Definition notebook_load_context db f view : option LoadContext :=
  n ← notebook_by_cell db f;
  let cells := n_cells (notebook db n) in
  prefix_len ← position (λ cell, cell = f) cells;
  Some (mkLoadContext LoadSession [load_environment f cells view prefix_len] []
          (Some NOTEBOOK_LOADER)).

Definition package_load_context db f view : option LoadContext :=
  p ← f_package (file db f);
  let files := p_files (package db p) in
  prefix_len ← position (λ sibling, sibling = f) files;
  Some (mkLoadContext (LoadNamespace p) [load_environment f files view prefix_len] []
          (Some PACKAGE_LOADER)).

Definition standalone_load_context f : LoadContext :=
  mkLoadContext LoadSession (chain_own f) [] None.
End load_context.

(** ** testthat *)

Module Testthat.
Section testthat.
Context `{HO : HashOrder} `{UO : UrlOps} `{RD : DbReads}.
Implicit Types (db : Db) (f : File) (view : CollationView).

Definition LOADER : LoaderInfo :=
  mkLoaderInfo "testthat" "`helper*.R` and `setup*.R` before your tests".

Definition in_testthat_dir (p : path) : bool :=
  match parent p with
  | None => false
  | Some dir =>
      bool_decide (file_name dir = Some (text_of "testthat")) &&
      bool_decide ((parent dir ≫= file_name) = Some (text_of "tests"))
  end.

Definition is_testthat_file db f : bool :=
  match file_as_path db f with Some p => in_testthat_dir p | None => false end.

Definition is_testthat_support_file db f : bool :=
  is_testthat_file db f &&
  match file_basename db f with
  | Some name => starts_with name (text_of "helper") || starts_with name (text_of "setup")
  | None => false
  end.

Definition testthat_support_key db f : text := default [] (file_basename db f).

Definition load_context db f view : option LoadContext :=
  p ← f_package (file db f);
  if negb (is_testthat_file db f) then None
  else
    let support := sort_by_key text_le (testthat_support_key db)
      (filter (λ script, is_testthat_support_file db script) (p_scripts (package db p))) in
    let environments :=
      match position (λ script, script = f) support with
      | Some i => [load_environment f support view i]
      | None => chain_own f ++ [support]
      end in
    Some (mkLoadContext (LoadNamespace p) (environments ++ [p_files (package db p)])
            ["testthat"%string] (Some LOADER)).
End testthat.
End Testthat.

(** ** Shiny *)

Module Shiny.
Section shiny.
Context `{HO : HashOrder} `{UO : UrlOps} `{RD : DbReads}.
Implicit Types (db : Db) (f : File) (view : CollationView).

Definition LOADER : LoaderInfo :=
  mkLoaderInfo "This Shiny app" "its `global.R` and `R/` files through `shiny::loadSupport()`".

Definition SHINY_ENTRY_FILES : list (text * text) := [
  (text_of "app.R", text_of "shinyApp");
  (text_of "ui.R", text_of "shinyUI");
  (text_of "server.R", text_of "shinyServer")].

Definition is_named db f (name : text) : bool :=
  match file_basename db f with
  | Some basename => eq_ignore_ascii_case basename name
  | None => false
  end.

Definition is_shiny_entry_file db f : bool :=
  existsb (λ '(name, marker), is_named db f name && text_contains (source_text db f) marker)
    SHINY_ENTRY_FILES.

Definition is_shiny_dir db (dir : path) : bool :=
  existsb (is_shiny_entry_file db) (files_in_directory db dir).

Definition shiny_global_file db (app_dir : path) : option File :=
  List.find (λ f, is_named db f (text_of "global.R")) (files_in_directory db app_dir).

Definition is_shiny_global_file db f : bool :=
  is_named db f (text_of "global.R") &&
  match file_as_path db f ≫= parent with
  | Some dir => is_shiny_dir db dir
  | None => false
  end.

Definition r_autoload_disabled db (app_dir : path) : bool :=
  existsb (λ f, is_named db f (text_of "_disable_autoload.R"))
    (files_in_directory db (join app_dir (text_of "R"))).

Definition option_list {A} (o : option A) : list A :=
  match o with Some x => [x] | None => [] end.

Definition shiny_support_files db (app_dir : path) : list File :=
  let files := option_list (shiny_global_file db app_dir) in
  if r_autoload_disabled db app_dir then files
  else files ++ files_in_directory db (join app_dir (text_of "R")).

Definition enclosing_app_dir db f : option path :=
  if in_r_directory db f then
    app_dir ← (file_as_path db f ≫= parent) ≫= parent;
    if is_shiny_dir db app_dir then Some app_dir else None
  else None.

Definition shiny_app_dir db f : option path :=
  if is_shiny_entry_file db f then file_as_path db f ≫= parent else None.

Definition shiny_autoload db f : option (list File) :=
  match enclosing_app_dir db f with
  | Some app_dir =>
      if r_autoload_disabled db app_dir then None
      else Some (option_list (shiny_global_file db app_dir))
  | None =>
      app_dir ← shiny_app_dir db f;
      Some (shiny_support_files db app_dir)
  end.

Definition autoload_context db f view (autoload : list File) : LoadContext :=
  mkLoadContext LoadSession [collation_environment db f view; autoload] ["shiny"%string]
    (Some LOADER).

Definition entry_context db f (autoload : list File) : LoadContext :=
  mkLoadContext LoadSession
    (chain_own f ++ [filter (λ support, in_r_directory db support) autoload] ++
     [filter (λ support, negb (in_r_directory db support)) autoload])
    ["shiny"%string] (Some LOADER).

Definition global_context f : LoadContext :=
  mkLoadContext LoadSession (chain_own f) ["shiny"%string] (Some LOADER).

Definition load_context db f view : option LoadContext :=
  if in_r_directory db f then
    autoload ← shiny_autoload db f;
    Some (autoload_context db f view autoload)
  else
    match shiny_autoload db f with
    | Some autoload => Some (entry_context db f autoload)
    | None => if is_shiny_global_file db f then Some (global_context f) else None
    end.
End shiny.
End Shiny.

Section loaders.
Context `{HO : HashOrder} `{UO : UrlOps} `{RD : DbReads}.
Implicit Types (db : Db) (f : File) (view : CollationView).

Definition load_context db f view : LoadContext :=
  match notebook_load_context db f view with
  | Some context => context
  | None =>
  match Testthat.load_context db f view with
  | Some context => context
  | None =>
  match package_load_context db f view with
  | Some context => context
  | None =>
  match Shiny.load_context db f view with
  | Some context => context
  | None => standalone_load_context f
  end end end end.

(** [loader]. *)
Definition file_loader db f : option LoaderInfo := lc_loader (load_context db f VDeferred).
End loaders.
