(* ===== verification/Metadata.v ===== *)
(** * Metadata of packages: [crates/oak_package_metadata]

    The parsers of [dcf.rs] (Debian control files), [description.rs] and
    [index.rs], and the queries of [crates/oak_db/src/package.rs] over them.
    [None] is a panic of a slice. At the end, what the parser of [DESCRIPTION]
    reads back, and that it does not panic. *)

From S2P Require Export Text LoadContext.

#[local] Open Scope list_scope.

Definition carriage_return : ascii := "013"%char.
Definition colon : ascii := ":"%char.

(** ** Lines and words *)

(** [s.strip_suffix(c)], for an ASCII [c]. *)
Definition strip_suffix (s : text) (c : ascii) : option text :=
  if ends_with s c then Some (take (length s - 1) s) else None.

(** [s.lines()]: lines without their [\n] or [\r\n]. *)
Definition strip_line (line : text) : text :=
  match strip_suffix line newline with
  | None => line
  | Some line => default line (strip_suffix line carriage_return)
  end.

Definition lines (s : text) : list text := strip_line <$> split_inclusive s.

(** [line.starts_with(char::is_whitespace)]. *)
Definition starts_with_whitespace (line : text) : bool :=
  match chars line with ch :: _ => is_whitespace ch | [] => false end.

(** The pieces between the elements that satisfy [p]. *)
Fixpoint split_by {A} (p : A → bool) (l : list A) : list (list A) :=
  match l with
  | [] => [[]]
  | x :: l =>
      if p x then [] :: split_by p l
      else match split_by p l with
           | [] => [[x]]
           | piece :: pieces => (x :: piece) :: pieces
           end
  end.

(** [s.split_whitespace()]. *)
Definition split_whitespace (s : text) : list text :=
  filter (λ word, word ≠ []) (@concat _ <$> split_by is_whitespace (chars s)).

(** [trim_matches] of both kinds of quotes. *)
Definition is_quote (b : ascii) : bool := bool_decide (N_of_ascii b ∈ [39; 34]%N).
Definition trim_quotes (s : text) : text :=
  reverse (drop_while is_quote (reverse (drop_while is_quote s))).

(** ** Control files *)

Definition Dcf : Type := gmap text text.

(** [(fields, current_key, current_value)]. *)
Definition DcfState : Type := Dcf * option text * text.

Definition save_field (fields : Dcf) (key : option text) (value : text) : Dcf :=
  match key with Some key => <[key := trim_end value]> fields | None => fields end.

Definition parse_dcf_line (line : text) (st : DcfState) : option DcfState :=
  let '(fields, current_key, current_value) := st in
  if starts_with_whitespace line then
    Some (fields, current_key, current_value ++ line ++ [newline])
  else if bool_decide (line ≠ []) && bool_decide (colon ∈ line) then
    let fields := save_field fields current_key current_value in
    idx ← find_char line colon;
    key ← slice line 0 idx;
    value ← slice_from line (idx + 1);
    Some (fields, Some (trim key), trim_start value ++ [newline])
  else Some st.

Definition parse_dcf (input : text) : option Dcf :=
  '(fields, current_key, current_value) ← foldM parse_dcf_line (lines input) (∅, None, []);
  Some (save_field fields current_key current_value).

(** ** DESCRIPTION *)

Module Description.

Inductive Repository := CRAN.
Inductive Priority := Base | Recommended.

Record Description := mkDescription {
  name : text;
  version : text;
  depends : list text;
  imports : list text;
  repository : option Repository;
  priority : option Priority;
  built : option text;
  fields : Dcf;
}.

(** The errors of [parse]. *)
Inductive Error := MissingPackage | MissingVersion.

Definition parse_dependency (s : text) : option text :=
  match find_char s "("%char with
  | Some idx => trim <$> slice s 0 idx
  | None => Some s
  end.

Definition parse_comma_separated (input : text) : option (list text) :=
  mapM parse_dependency (filter (λ s, s ≠ []) (trim <$> split_on ","%char input)).

(** [fields.get(key).map(parse_comma_separated).unwrap_or_default()]. *)
Definition dependencies (fields : Dcf) (key : text) : option (list text) :=
  match fields !! key with Some deps => parse_comma_separated deps | None => Some [] end.

Definition parse_repository (s : text) : option Repository :=
  if bool_decide (s = text_of "CRAN") then Some CRAN else None.

Definition parse_priority (s : text) : option Priority :=
  if bool_decide (s = text_of "base") then Some Base
  else if bool_decide (s = text_of "recommended") then Some Recommended else None.

Definition parse (contents : text) : option (Error + Description) :=
  fields ← parse_dcf contents;
  match fields !! text_of "Package" with
  | None => Some (inl MissingPackage)
  | Some name =>
      match fields !! text_of "Version" with
      | None => Some (inl MissingVersion)
      | Some version =>
          pkgs ← dependencies fields (text_of "Depends");
          let depends := filter (λ pkg, pkg ≠ text_of "R") pkgs in
          imports ← dependencies fields (text_of "Imports");
          Some (inr (mkDescription name version depends imports
            (fields !! text_of "Repository" ≫= parse_repository)
            (fields !! text_of "Priority" ≫= parse_priority)
            (fields !! text_of "Built") fields))
      end
  end.

(** The names of [Collate:], without their quotes. *)
Definition collate (d : Description) : option (list text) :=
  (λ collate, trim_quotes <$> split_whitespace collate) <$> fields d !! text_of "Collate".

End Description.

(** ** INDEX *)

Module Index.

Definition in_range (lo hi : N) (b : ascii) : bool :=
  bool_decide (lo ≤ N_of_ascii b ≤ hi)%N.

(** [A-Za-z.], and [A-Za-z0-9._]. *)
Definition name_start (b : ascii) : bool :=
  in_range 65 90 b || in_range 97 122 b || bool_decide (b = "."%char).
Definition name_part (b : ascii) : bool :=
  name_start b || in_range 48 57 b || bool_decide (b = "_"%char).

Definition valid_name (s : text) : bool :=
  match s with b :: s => name_start b && forallb name_part s | [] => false end.

Definition parse_line (line : text) : option text :=
  if starts_with_whitespace line then None
  else
    first_col ← head (split_whitespace line);
    if valid_name first_col then Some first_col else None.

Definition parse (input : text) : list text := omap parse_line (lines input).

End Index.

(** ** Queries of a package

    Outside, [None] is a panic; inside, it is the query's own [None]. *)

Section package.
Context `{RD : DbReads}.
Implicit Types (db : Db) (p : Package).

Definition package_description db p : option (option Description.Description) :=
  match (path ← as_path (p_description_path (package db p)); read_to_string path) with
  | None => Some None
  | Some text =>
      parsed ← Description.parse text;
      Some (match parsed with inl _ => None | inr d => Some d end)
  end.

Definition over_description {A} (f : option Description.Description → A) db p : option A :=
  f <$> package_description db p.

Definition package_version : Db → Package → option (option text) :=
  over_description (fmap Description.version).
Definition package_built : Db → Package → option (option text) :=
  over_description (mbind Description.built).
Definition package_priority : Db → Package → option (option Description.Priority) :=
  over_description (mbind Description.priority).
Definition package_depends : Db → Package → option (option (list text)) :=
  over_description (fmap Description.depends).
Definition package_collation : Db → Package → option (option (list text)) :=
  over_description (mbind Description.collate).

(** [Package::index]. *)
Definition package_index db p : option (list text) :=
  _ ← p_index_revision (package db p);
  match as_path (p_description_path (package db p)) ≫= parent with
  | None => Some []
  | Some dir =>
      Some (match read_to_string (join dir (text_of "INDEX")) with
            | Some text => Index.parse text
            | None => []
            end)
  end.
End package.


(** ** White space *)

Definition ends_with_whitespace (s : text) : bool :=
  match last (chars s) with Some ch => is_whitespace ch | None => false end.

(** A text that trimming leaves alone. *)
Record solid (s : text) : Prop := {
  so_utf8 : utf8 s;
  so_ne : s ≠ [];
  so_start : starts_with_whitespace s = false;
  so_end : ends_with_whitespace s = false;
}.

Lemma trim_start_id s : starts_with_whitespace s = false → trim_start s = s.
Proof.
  unfold starts_with_whitespace, trim_start. intros Hs. rewrite <-(chars_concat s) at 2.
  destruct (chars s) as [|ch l]; [done|]. simpl. by rewrite Hs.
Qed.

Lemma trim_end_id s : ends_with_whitespace s = false → trim_end s = s.
Proof.
  unfold ends_with_whitespace, trim_end. intros Hs. rewrite <-(chars_concat s) at 2.
  destruct (chars s) as [|ch l _] using rev_ind; [done|].
  rewrite last_snoc in Hs. rewrite reverse_snoc. simpl. by rewrite Hs, reverse_cons, reverse_involutive.
Qed.

Lemma trim_id s : starts_with_whitespace s = false → ends_with_whitespace s = false → trim s = s.
Proof. intros Hs He. unfold trim. by rewrite trim_start_id, trim_end_id. Qed.

Lemma solid_trim s : solid s → trim s = s.
Proof. intros []. by apply trim_id. Qed.

(** White space in front of a text is trimmed, and behind it. *)
Lemma trim_start_space w s :
  utf8 s → Forall (λ ch, is_whitespace ch = true) (chars w) → trim_start (w ++ s) = trim_start s.
Proof.
  intros Hs Hw. unfold trim_start. rewrite chars_app by by apply utf8_starts_char.
  f_equal. induction Hw as [|ch l Hch _ IH]; [done|]. simpl. by rewrite Hch.
Qed.

Lemma trim_end_space w s :
  utf8 w → Forall (λ ch, is_whitespace ch = true) (chars w) → trim_end (s ++ w) = trim_end s.
Proof.
  intros Hu Hw. unfold trim_end. rewrite chars_app by by apply utf8_starts_char.
  rewrite reverse_app. do 2 f_equal. apply Forall_reverse in Hw.
  induction Hw as [|ch l Hch _ IH]; [done|]. simpl. by rewrite Hch.
Qed.

Lemma starts_with_whitespace_app s r :
  s ≠ [] → utf8 r → starts_with_whitespace (s ++ r) = starts_with_whitespace s.
Proof.
  intros Hs Hr. unfold starts_with_whitespace. rewrite chars_app by by apply utf8_starts_char.
  destruct (chars s) eqn:E; [|done]. by apply chars_nil_iff in E.
Qed.

Lemma ends_with_whitespace_app s r :
  r ≠ [] → utf8 r → ends_with_whitespace (s ++ r) = ends_with_whitespace r.
Proof.
  intros Hs Hr. unfold ends_with_whitespace. rewrite chars_app, last_app by by apply utf8_starts_char.
  destruct (last (chars r)) eqn:E; [done|]. apply last_None in E. by apply chars_nil_iff in E.
Qed.

Lemma solid_app a m b : solid a → utf8 m → solid b → solid (a ++ m ++ b).
Proof.
  intros [Ha Hna Hsa _] Hm [Hb Hnb _ Heb]. split.
  - by repeat apply utf8_two.
  - by destruct a.
  - rewrite starts_with_whitespace_app by (try done; by apply utf8_two). done.
  - rewrite app_assoc, ends_with_whitespace_app by done. done.
Qed.

(** ** Lines *)

(** Lines have no line feed in them, nor a carriage return at their end. *)
Definition line_ok (l : text) : Prop := (newline ∉ l) ∧ last l ≠ Some carriage_return.

Definition line_ending (eol : text) : Prop := eol = [newline] ∨ eol = [carriage_return; newline].

Definition write_lines (eol : text) (ls : list text) : text := concat ((λ l, l ++ eol) <$> ls).

Lemma strip_line_eol l eol : line_ok l → line_ending eol → strip_line (l ++ eol) = l.
Proof.
  intros [Hn Hcr] [-> | ->]; unfold strip_line, strip_suffix.
  - rewrite ends_with_snoc, bool_decide_true by done.
    rewrite length_app, Nat.add_sub, take_app_length. unfold ends_with.
    by rewrite bool_decide_false.
  - change [carriage_return; newline] with ([carriage_return] ++ [newline]).
    rewrite app_assoc, ends_with_snoc, bool_decide_true by done.
    rewrite (length_app (l ++ [_])), Nat.add_sub, take_app_length, ends_with_snoc, bool_decide_true by done.
    simpl. by rewrite length_app, Nat.add_sub, take_app_length.
Qed.

Lemma lines_write eol ls : Forall line_ok ls → line_ending eol → lines (write_lines eol ls) = ls.
Proof.
  intros Hls He. unfold lines, write_lines.
  assert (Hsplit : split_inclusive (concat ((λ l, l ++ eol) <$> ls)) = (λ l, l ++ eol) <$> ls).
  { induction Hls as [|l ls [Hl Hcr] _ IH]; [done|]. rewrite fmap_cons. cbn [concat].
    destruct He as [-> | ->].
    - rewrite <-app_assoc. simpl. by rewrite split_inclusive_line, IH.
    - change [carriage_return; newline] with ([carriage_return] ++ [newline]) at 1.
      rewrite (app_assoc l), <-(app_assoc (l ++ _)). cbn [app].
      rewrite split_inclusive_line, IH; [by rewrite <-app_assoc|].
      rewrite not_elem_of_app, not_elem_of_cons. split; [done|]. split; [done|apply not_elem_of_nil]. }
  rewrite Hsplit, <-list_fmap_compose. etrans; [|apply list_fmap_id]. apply list_fmap_ext.
  intros i l Hl. simpl. apply strip_line_eol; [|done].
  rewrite Forall_forall in Hls. by eapply Hls, list_elem_of_lookup_2.
Qed.

(** ** Control files *)

(** A field as it is written: the key, what follows it on its line, and the
    indented lines that continue it. *)
Record Field := mkField { fd_key : text; fd_first : text; fd_rest : list text }.

Definition colon_space : text := [colon; " "%char].

Definition field_lines (f : Field) : list text :=
  (fd_key f ++ colon_space ++ fd_first f) :: fd_rest f.

Definition write_fields (eol : text) (fs : list Field) : text :=
  write_lines eol (fs ≫= field_lines).

(** Its lines, each with a line feed, without the white space at the end. *)
Definition field_value (f : Field) : text :=
  trim_end (write_lines [newline] (fd_first f :: fd_rest f)).

Record field_ok (f : Field) : Prop := {
  fo_key : utf8 (fd_key f) ∧ starts_with_whitespace (fd_key f) = false ∧
    ends_with_whitespace (fd_key f) = false ∧ (colon ∉ fd_key f) ∧ (newline ∉ fd_key f) ∧ fd_key f ≠ [];
  fo_first : utf8 (fd_first f) ∧ starts_with_whitespace (fd_first f) = false ∧ line_ok (fd_first f);
  fo_rest : Forall (λ l, line_ok l ∧ starts_with_whitespace l = true) (fd_rest f);
}.

Lemma utf8_newline : utf8 [newline].
Proof. done. Qed.

Lemma utf8_colon_space s : utf8 s → utf8 (colon_space ++ s).
Proof. by apply utf8_two. Qed.

Lemma find_char_app a c r : c ∉ a → find_char (a ++ c :: r) c = Some (length a).
Proof.
  intros Hc. unfold find_char. rewrite (proj2 (list_find_Some _ _ (length a) c)); [done|].
  rewrite list_lookup_middle by done. split; [done|]. split; [done|].
  intros j y Hj Hlt <-. rewrite lookup_app_l in Hj by done. by eapply Hc, list_elem_of_lookup_2.
Qed.

Lemma key_line_ok f : field_ok f → line_ok (fd_key f ++ colon_space ++ fd_first f).
Proof.
  intros [(_ & _ & _ & _ & Hn & _) (_ & _ & Hl & Hcr) _]. split.
  - rewrite !not_elem_of_app. split; [done|]. split; [|done]. by apply (bool_decide_unpack _).
  - rewrite app_assoc, last_app. destruct (last (fd_first f)); [done|].
    rewrite last_app. done.
Qed.

Lemma parse_key_line f fields key value :
  field_ok f →
  parse_dcf_line (fd_key f ++ colon_space ++ fd_first f) (fields, key, value) =
    Some (save_field fields key value, Some (fd_key f), fd_first f ++ [newline]).
Proof.
  intros [(Hu & Hs & He & Hc & _ & Hne) (Hfu & Hfs & _) _]. unfold parse_dcf_line.
  rewrite starts_with_whitespace_app, Hs by (try done; by apply utf8_colon_space).
  rewrite bool_decide_true by (by destruct (fd_key f)).
  rewrite bool_decide_true by (rewrite !elem_of_app; right; left; left). cbn [andb].
  change (colon_space ++ fd_first f) with (colon :: (" "%char :: fd_first f)).
  rewrite find_char_app by done. cbn [mbind option_bind].
  assert (utf8 (" "%char :: fd_first f)) as Hsp by (by apply (utf8_two [" "%char])).
  pose proof (slice_app [] (fd_key f) (colon :: " "%char :: fd_first f)) as Hsl.
  assert (utf8 (colon :: " "%char :: fd_first f)) as Hcol by (by apply utf8_colon_space).
  cbn [length app] in Hsl. rewrite Hsl by (done || by apply utf8_two).
  cbn [mbind option_bind].
  assert (Hfrom : slice_from (fd_key f ++ colon :: " "%char :: fd_first f) (length (fd_key f) + 1) =
    Some (" "%char :: fd_first f)).
  { change (fd_key f ++ colon :: " "%char :: fd_first f) with
      (fd_key f ++ [colon] ++ (" "%char :: fd_first f)).
    rewrite app_assoc. pose proof (slice_from_app (fd_key f ++ [colon]) (" "%char :: fd_first f) Hsp) as H.
    by rewrite length_app in H. }
  rewrite Hfrom. cbn [mbind option_bind].
  rewrite trim_id by done. change (" "%char :: fd_first f) with ([" "%char] ++ fd_first f).
  rewrite trim_start_space, trim_start_id; [done|done|done|]. by repeat constructor.
Qed.

Lemma parse_rest_lines ls fields key value :
  Forall (λ l, line_ok l ∧ starts_with_whitespace l = true) ls →
  foldM parse_dcf_line ls (fields, key, value) =
    Some (fields, key, value ++ write_lines [newline] ls).
Proof.
  intros Hls. revert value. induction Hls as [|l ls [_ Hl] _ IH]; intros value.
  { by rewrite app_nil_r. }
  cbn [foldM]. assert (Hstep : parse_dcf_line l (fields, key, value) =
    Some (fields, key, value ++ l ++ [newline])) by (unfold parse_dcf_line; by rewrite Hl).
  rewrite Hstep. cbn [mbind option_bind]. rewrite IH.
  unfold write_lines. rewrite fmap_cons. cbn [concat]. by rewrite !app_assoc.
Qed.

Lemma parse_fields fs : ∀ fields key value,
  Forall field_ok fs → ∃ fields' key' value',
  foldM parse_dcf_line (fs ≫= field_lines) (fields, key, value) = Some (fields', key', value') ∧
  save_field fields' key' value' =
    foldl (λ m f, <[fd_key f := field_value f]> m) (save_field fields key value) fs.
Proof.
  induction fs as [|f fs IH]; intros fields key value Hok.
  { exists fields, key, value. done. }
  apply Forall_cons in Hok as [Hf Hok]. rewrite bind_cons, foldM_app.
  assert (Hone : foldM parse_dcf_line (field_lines f) (fields, key, value) =
    Some (save_field fields key value, Some (fd_key f),
      (fd_first f ++ [newline]) ++ write_lines [newline] (fd_rest f))).
  { unfold field_lines. cbn [foldM]. rewrite parse_key_line by done. cbn [mbind option_bind].
    apply parse_rest_lines, Hf. }
  rewrite Hone. cbn [mbind option_bind].
  destruct (IH (save_field fields key value) (Some (fd_key f))
    ((fd_first f ++ [newline]) ++ write_lines [newline] (fd_rest f)) Hok) as (m & k & v & Hm & Hs).
  exists m, k, v. split; [exact Hm|]. rewrite Hs. done.
Qed.

Lemma parse_dcf_write eol fs :
  line_ending eol → Forall field_ok fs →
  parse_dcf (write_fields eol fs) =
    Some (foldl (λ m f, <[fd_key f := field_value f]> m) (∅ : Dcf) fs).
Proof.
  intros He Hok. unfold parse_dcf, write_fields. rewrite lines_write; [|clear He|done].
  - destruct (parse_fields fs ∅ None [] Hok) as (m & k & v & -> & Hs). cbn [mbind option_bind].
    by rewrite Hs.
  - apply Forall_bind. eapply Forall_impl; [exact Hok|]. intros f Hf. unfold field_lines.
    constructor; [by apply key_line_ok|]. eapply Forall_impl; [apply Hf|]. by intros l [].
Qed.

(** ** Lists of dependencies *)

(** A package, and what is written between parentheses behind it. *)
Definition Dependency : Type := text * option text.

Definition open_paren : ascii := "("%char.

Definition write_dependency (d : Dependency) : text :=
  match d.2 with
  | Some constraint => d.1 ++ (text_of " (" ++ constraint) ++ text_of ")"
  | None => d.1
  end.

Definition write_dependencies (ds : list Dependency) : text :=
  match ds with
  | [] => []
  | d :: ds => write_dependency d ++ concat ((λ d, text_of ", " ++ write_dependency d) <$> ds)
  end.

Record dependency_ok (d : Dependency) : Prop := {
  do_name : solid d.1;
  do_comma : ","%char ∉ d.1;
  do_paren : open_paren ∉ d.1;
  do_constraint c : d.2 = Some c → utf8 c ∧ ","%char ∉ c;
}.

Lemma solid_paren : solid (text_of ")").
Proof. by split. Qed.

Lemma dependency_solid d : dependency_ok d → solid (write_dependency d).
Proof.
  intros [Hn _ _ Hc]. unfold write_dependency. destruct (d.2) as [c|] eqn:E; [|done].
  apply solid_app; [done| |apply solid_paren]. destruct (Hc c eq_refl) as [Hu _]. by apply (utf8_two (text_of " (")).
Qed.

Lemma dependency_comma d : dependency_ok d → ","%char ∉ write_dependency d.
Proof.
  intros [_ Hn _ Hc]. unfold write_dependency. destruct (d.2) as [c|] eqn:E; [|done].
  destruct (Hc c eq_refl) as [_ Hcc]. rewrite !not_elem_of_app. split; [done|].
  split; [split; [by apply (bool_decide_unpack _)|done]|by apply (bool_decide_unpack _)].
Qed.

Lemma split_dependencies d ds :
  dependency_ok d → Forall dependency_ok ds →
  split_on ","%char (write_dependencies (d :: ds)) =
    write_dependency d :: ((λ d, " "%char :: write_dependency d) <$> ds).
Proof.
  intros Hd Hds. unfold write_dependencies.
  assert (Hg : ∀ w, (","%char ∉ w) →
    split_on ","%char (w ++ concat ((λ d, text_of ", " ++ write_dependency d) <$> ds)) =
      w :: ((λ d, " "%char :: write_dependency d) <$> ds)); [|by apply Hg, dependency_comma].
  induction Hds as [|e ds He _ IH]; intros w Hw.
  - by rewrite app_nil_r, split_on_none.
  - rewrite !fmap_cons. cbn [concat]. change (text_of ", " ++ write_dependency e) with
      (","%char :: (" "%char :: write_dependency e)).
    rewrite <-app_comm_cons, split_on_app by done. f_equal. apply (IH (" "%char :: write_dependency e)).
    rewrite not_elem_of_cons. split; [done|by apply dependency_comma].
Qed.

Lemma parse_dependency_write d :
  dependency_ok d → Description.parse_dependency (write_dependency d) = Some d.1.
Proof.
  intros [[Hu Hne Hs He] _ Hp Hc]. unfold Description.parse_dependency, write_dependency.
  destruct (d.2) as [c|] eqn:E.
  - destruct (Hc c eq_refl) as [Huc _].
    assert (Hrest : utf8 (open_paren :: c ++ text_of ")")) by (apply (utf8_two [open_paren]), utf8_two; done).
    replace (d.1 ++ (text_of " (" ++ c) ++ text_of ")") with
      ((d.1 ++ [" "%char]) ++ open_paren :: c ++ text_of ")") by (by rewrite <-!app_assoc).
    rewrite find_char_app by (rewrite not_elem_of_app; split; [done|by apply (bool_decide_unpack _)]).
    pose proof (slice_app [] (d.1 ++ [" "%char]) (open_paren :: c ++ text_of ")")) as Hsl.
    cbn [length app] in Hsl. rewrite Hsl by (done || by repeat apply utf8_two). cbn [fmap option_fmap option_map].
    f_equal. unfold trim. rewrite trim_start_id by (by rewrite starts_with_whitespace_app).
    rewrite trim_end_space, trim_end_id; [done|done|done|by repeat constructor].
  - destruct (find_char (d.1) "("%char) as [i|] eqn:Hf; [|done].
    apply find_char_Some in Hf as (a & r & Ha & _). exfalso. apply Hp. rewrite Ha. apply elem_of_app. right. left.
Qed.

Lemma parse_dependencies_write ds :
  Forall dependency_ok ds →
  Description.parse_comma_separated (write_dependencies ds) = Some ds.*1.
Proof.
  intros Hds. unfold Description.parse_comma_separated.
  assert (Htrim : filter (λ s, s ≠ []) (trim <$> split_on ","%char (write_dependencies ds)) =
    write_dependency <$> ds).
  { destruct Hds as [|d ds Hd Hds]; [done|]. rewrite split_dependencies by done. rewrite !fmap_cons.
    rewrite (solid_trim _ (dependency_solid d Hd)).
    rewrite filter_cons_True by (by destruct (dependency_solid d Hd)). f_equal.
    induction Hds as [|e ds He _ IH]; [done|]. rewrite !fmap_cons.
    change (" "%char :: write_dependency e) with ([" "%char] ++ write_dependency e).
    destruct (dependency_solid e He) as [Hu Hne Hs Hend]. unfold trim at 1.
    rewrite trim_start_space, trim_start_id, trim_end_id by (done || by repeat constructor).
    rewrite filter_cons_True by done. by f_equal. }
  rewrite Htrim. clear Htrim. induction Hds as [|d ds Hd _ IH]; [done|].
  rewrite !fmap_cons. simpl. rewrite parse_dependency_write by done. simpl. by rewrite IH.
Qed.

(** ** Collation fields *)

Section words.
Context {A : Type} (p : A → bool).

Lemma split_by_app w l :
  Forall (λ x, p x = false) w → match l with [] => True | x :: _ => p x = true end →
  split_by p (w ++ l) = match l with [] => [w] | _ :: l => w :: split_by p l end.
Proof.
  intros Hw Hl. induction Hw as [|x w Hx _ IH]; simpl.
  - destruct l as [|y l]; [done|]. simpl. by rewrite Hl.
  - rewrite Hx, IH. by destruct l.
Qed.
End words.

Lemma words_space ws l :
  Forall (λ ch, is_whitespace ch = true) ws →
  filter (λ word, word ≠ []) (@concat _ <$> split_by is_whitespace (ws ++ l)) =
  filter (λ word, word ≠ []) (@concat _ <$> split_by is_whitespace l).
Proof.
  induction 1 as [|ch ws Hch _ IH]; [done|]. simpl. rewrite Hch, fmap_cons.
  rewrite filter_cons_False by (simpl; tauto). exact IH.
Qed.

Lemma words_word w l :
  Forall (λ ch, is_whitespace ch = false) w → concat w ≠ [] →
  match l with [] => True | ch :: _ => is_whitespace ch = true end →
  filter (λ word, word ≠ []) (@concat _ <$> split_by is_whitespace (w ++ l)) =
  concat w :: filter (λ word, word ≠ []) (@concat _ <$> split_by is_whitespace l).
Proof.
  intros Hw Hne Hl. rewrite split_by_app by done. destruct l as [|ch l].
  - rewrite fmap_cons, filter_cons_True by done. reflexivity.
  - rewrite fmap_cons, filter_cons_True by done. simpl. rewrite Hl, fmap_cons.
    by rewrite filter_cons_False by (simpl; tauto).
Qed.

Definition apostrophe : ascii := "'"%char.
Definition indent : text := text_of "    ".
Definition quoted (name : text) : text := [apostrophe] ++ name ++ [apostrophe].

(** A name of a file that the field can list. *)
Record listed_ok (name : text) : Prop := {
  lo_utf8 : utf8 name;
  lo_space : Forall (λ ch, is_whitespace ch = false) (chars name);
  lo_first : match name with [] => False | b :: _ => is_quote b = false end;
  lo_last : match last name with Some b => is_quote b = false | None => False end;
}.

Lemma trim_quotes_quoted name : listed_ok name → trim_quotes (quoted name) = name.
Proof.
  intros [_ _ Hf Hl]. unfold trim_quotes, quoted. simpl.
  destruct name as [|b name]; [done|]. simpl. rewrite Hf.
  change (b :: name ++ [apostrophe]) with ((b :: name) ++ [apostrophe]).
  rewrite reverse_snoc. simpl. destruct (last (b :: name)) as [c|] eqn:Hc; [|done].
  apply last_Some in Hc as [r Hr]. rewrite Hr, reverse_snoc. simpl. rewrite Hl.
  by rewrite reverse_cons, reverse_involutive.
Qed.

(** The names on lines of their own behind [Collate:]. *)
Definition collate_field (names : list text) : Field :=
  mkField (text_of "Collate") [] ((λ name, indent ++ quoted name) <$> names).

Definition listing (names : list text) : text :=
  concat ((λ name, newline :: indent ++ quoted name) <$> names).

Lemma quoted_utf8 name : listed_ok name → utf8 (quoted name).
Proof. intros []. unfold quoted. by repeat apply utf8_two. Qed.

Lemma quoted_chars name :
  listed_ok name → chars (quoted name) = [[apostrophe]] ++ chars name ++ [[apostrophe]].
Proof.
  intros []. unfold quoted. rewrite (chars_app [apostrophe]) by (by apply utf8_starts_char, utf8_two).
  by rewrite chars_app.
Qed.

Lemma listing_utf8 names : Forall listed_ok names → utf8 (listing names).
Proof.
  induction 1 as [|name names Hn _ IH]; [done|]. unfold listing. rewrite fmap_cons. cbn [concat].
  apply utf8_two; [|exact IH]. apply (utf8_two (newline :: indent)); [done|by apply quoted_utf8].
Qed.

Lemma split_listing names :
  Forall listed_ok names → split_whitespace (listing names) = quoted <$> names.
Proof.
  unfold split_whitespace. induction 1 as [|name names Hn Hns IH]; [done|].
  unfold listing. rewrite !fmap_cons. cbn [concat]. fold (listing names).
  change ((newline :: indent ++ quoted name) ++ listing names) with
    ((newline :: indent) ++ (quoted name ++ listing names)).
  pose proof (quoted_utf8 name Hn) as Hq. pose proof (listing_utf8 names Hns) as Hl.
  rewrite chars_app by (by apply utf8_starts_char, utf8_two).
  rewrite words_space by (by repeat constructor). rewrite chars_app by by apply utf8_starts_char.
  rewrite words_word.
  - by rewrite IH, chars_concat.
  - rewrite quoted_chars by done. repeat (apply Forall_app; split); [by repeat constructor|apply Hn|by repeat constructor].
  - by rewrite chars_concat.
  - destruct names as [|name' names]; [done|]. unfold listing. rewrite fmap_cons. cbn [concat].
    change ((newline :: indent ++ quoted name') ++ ?x) with ([newline] ++ ((indent ++ quoted name') ++ x)).
    apply Forall_cons in Hns as [Hn' Hns]. rewrite chars_app; [done|].
    apply utf8_starts_char, utf8_two; [|by apply listing_utf8].
    apply utf8_two; [done|by apply quoted_utf8].
Qed.

Lemma collate_value names :
  Forall listed_ok names → field_value (collate_field names) = listing names.
Proof.
  intros Hns. unfold field_value, collate_field. cbn [fd_first fd_rest].
  assert (Hw : write_lines [newline] ([] :: ((λ name, indent ++ quoted name) <$> names)) =
    listing names ++ [newline]).
  { unfold write_lines. rewrite fmap_cons. cbn [concat app].
    clear Hns. induction names as [|name names IH]; [done|]. rewrite !fmap_cons. cbn [concat].
    unfold listing. rewrite fmap_cons. cbn [concat]. fold (listing names).
    rewrite <-(app_assoc (_ ++ _) [newline]). cbn [app]. rewrite IH. f_equal. apply app_assoc. }
  rewrite Hw, trim_end_space by (done || by repeat constructor). apply trim_end_id.
  destruct names as [|name names _] using rev_ind; [done|].
  apply Forall_app in Hns as [_ [Hn _]%Forall_cons]. unfold listing. rewrite fmap_app, concat_app. simpl.
  rewrite app_nil_r.
  match goal with |- ends_with_whitespace (?l ++ ?r) = _ => change r with ((newline :: indent) ++ quoted name) end.
  rewrite app_assoc, ends_with_whitespace_app by (by apply quoted_utf8 || by unfold quoted).
  unfold quoted. rewrite app_assoc. by rewrite ends_with_whitespace_app.
Qed.


(** ** Reading back *)

(** What a [DESCRIPTION] says, and its other fields. *)
Record Spec := mkSpec {
  sp_name : text;
  sp_version : text;
  sp_depends : list Dependency;
  sp_imports : list Dependency;
  sp_collate : list text;
  sp_other : list Field;
}.

Definition main_keys : list text :=
  text_of <$> ["Package"; "Version"; "Depends"; "Imports"; "Collate"]%string.

Definition describe (s : Spec) : list Field :=
  [mkField (text_of "Package") (sp_name s) [];
   mkField (text_of "Version") (sp_version s) [];
   mkField (text_of "Depends") (write_dependencies (sp_depends s)) [];
   mkField (text_of "Imports") (write_dependencies (sp_imports s)) [];
   collate_field (sp_collate s)] ++ sp_other s.

(** A value on one line. *)
Record value_ok (v : text) : Prop := {
  vo_utf8 : utf8 v;
  vo_start : starts_with_whitespace v = false;
  vo_end : ends_with_whitespace v = false;
  vo_line : newline ∉ v;
}.

Record spec_ok (s : Spec) : Prop := {
  sk_name : value_ok (sp_name s);
  sk_version : value_ok (sp_version s);
  sk_depends : Forall dependency_ok (sp_depends s) ∧ newline ∉ write_dependencies (sp_depends s);
  sk_imports : Forall dependency_ok (sp_imports s) ∧ newline ∉ write_dependencies (sp_imports s);
  sk_collate : Forall (λ n, listed_ok n ∧ (newline ∉ n)) (sp_collate s);
  sk_other : Forall (λ f, field_ok f ∧ fd_key f ∉ main_keys) (sp_other s);
}.

Lemma last_cr_whitespace v : last v = Some carriage_return → ends_with_whitespace v = true.
Proof.
  intros [r ->]%last_Some. unfold ends_with_whitespace. rewrite chars_app by done.
  change (chars [carriage_return]) with [[carriage_return]]. by rewrite last_snoc.
Qed.

Lemma main_key_ok key :
  key ∈ main_keys →
  utf8 key ∧ starts_with_whitespace key = false ∧ ends_with_whitespace key = false ∧
    (colon ∉ key) ∧ (newline ∉ key) ∧ key ≠ [].
Proof.
  revert key. apply Forall_forall. repeat constructor; by apply (bool_decide_unpack _).
Qed.

Lemma value_field key v :
  key ∈ main_keys → value_ok v → field_ok (mkField key v []) ∧ field_value (mkField key v []) = v.
Proof.
  intros Hkey%main_key_ok [Hu Hs He Hn]. split.
  - split; [done| |constructor]. simpl. split; [done|]. split; [done|]. split; [done|].
    intros Hcr%last_cr_whitespace. by rewrite Hcr in He.
  - unfold field_value, write_lines. simpl. rewrite app_nil_r, trim_end_space; [by apply trim_end_id|done|].
    by repeat constructor.
Qed.

Lemma dependencies_value ds :
  Forall dependency_ok ds → (newline ∉ write_dependencies ds) → value_ok (write_dependencies ds).
Proof.
  intros Hds Hn. destruct Hds as [|d ds Hd Hds]; [by split|].
  assert (Hg : ∀ w, solid w → solid (w ++ concat ((λ d, text_of ", " ++ write_dependency d) <$> ds))).
  { clear Hn. induction Hds as [|e ds He _ IH]; intros w Hw; [by rewrite app_nil_r|].
    rewrite fmap_cons. cbn [concat]. rewrite app_assoc. apply IH, solid_app; [done|done|by apply dependency_solid]. }
  destruct (Hg _ (dependency_solid d Hd)). by split.
Qed.

Lemma collate_field_ok names :
  Forall (λ n, listed_ok n ∧ (newline ∉ n)) names → field_ok (collate_field names).
Proof.
  intros Hns. split; [apply main_key_ok; by apply (bool_decide_unpack _)|..].
  { split; [done|]. split; [done|]. split; [apply not_elem_of_nil|done]. }
  cbn [fd_rest collate_field]. apply Forall_fmap. eapply Forall_impl; [exact Hns|]. intros n [Hn Hnl].
  change (line_ok (indent ++ quoted n) ∧ starts_with_whitespace (indent ++ quoted n) = true).
  split; [split|].
  - unfold quoted. rewrite !not_elem_of_app. split_and!; try done; by apply (bool_decide_unpack _).
  - unfold quoted. change ([apostrophe] ++ n ++ [apostrophe]) with ((apostrophe :: n) ++ [apostrophe]).
    by rewrite app_assoc, last_snoc.
  - pose proof (quoted_utf8 n Hn). by rewrite starts_with_whitespace_app.
Qed.

Lemma describe_ok s : spec_ok s → Forall field_ok (describe s).
Proof.
  intros [Hn Hv [Hd Hdn] [Hi Hin] Hc Ho]. unfold describe.
  assert (Hv' : ∀ key v, value_ok v → key ∈ main_keys → field_ok (mkField key v [])).
  { intros key v ??. by apply value_field. }
  assert (Hk : ∀ key, bool_decide (key ∈ main_keys) = true → key ∈ main_keys).
  { intros key. by rewrite bool_decide_eq_true. }
  apply Forall_app. split; [|eapply Forall_impl; [exact Ho|]; by intros f []].
  repeat (apply Forall_cons_2; [try (apply Hv'; [done || by apply dependencies_value|by apply Hk])|]).
  - by apply collate_field_ok.
  - apply Forall_nil_2.
Qed.

(** The fields that are written last do not change a key they do not have. *)
Lemma lookup_other (key : text) (fs : list Field) (m : gmap text text) :
  Forall (λ f, fd_key f ≠ key) fs →
  foldl (λ m f, <[fd_key f := field_value f]> m) m fs !! key = m !! key.
Proof.
  intros Hfs. revert m. induction Hfs as [|f fs Hf _ IH]; intros m; [done|]. simpl.
  by rewrite IH, lookup_insert_ne.
Qed.

Lemma describe_lookup s (key : text) :
  spec_ok s → key ∈ main_keys →
  foldl (λ m f, <[fd_key f := field_value f]> m) (∅ : gmap text text) (describe s) !! key =
  foldl (λ m f, <[fd_key f := field_value f]> m) (∅ : gmap text text) (take 5 (describe s)) !! key.
Proof.
  intros Hs Hk. unfold describe at 1. rewrite foldl_app, lookup_other; [done|].
  eapply Forall_impl; [apply (sk_other _ Hs)|]. intros f [_ Hf] <-. done.
Qed.

(** C33. A [DESCRIPTION] written with either line ending, from a name, a version,
    dependencies with or without constraints, a collation of quoted names on
    lines of their own and any other fields, is parsed to them: constraints and
    quotes are dropped, and the dependency on R. *)
Theorem description_roundtrip eol s :
  line_ending eol → spec_ok s →
  ∃ d, Description.parse (write_fields eol (describe s)) = Some (inr d) ∧
    Description.name d = sp_name s ∧ Description.version d = sp_version s ∧
    Description.depends d = filter (λ p, p ≠ text_of "R") (sp_depends s).*1 ∧
    Description.imports d = (sp_imports s).*1 ∧
    Description.collate d = Some (sp_collate s) ∧
    Description.fields d = foldl (λ m f, <[fd_key f := field_value f]> m) ∅ (describe s).
Proof.
  intros He Hs. unfold Description.parse. rewrite parse_dcf_write by (done || by apply describe_ok).
  cbn [mbind option_bind].
  set (m := foldl (λ (m : Dcf) f, <[fd_key f := field_value f]> m) ∅ (describe s)).
  assert (Hm : ∀ key, bool_decide (key ∈ main_keys) = true →
    m !! key = foldl (λ (m : gmap text text) f, <[fd_key f := field_value f]> m) ∅ (take 5 (describe s)) !! key).
  { intros key Hk%bool_decide_eq_true. by apply describe_lookup. }
  destruct Hs as [Hn Hv [Hd Hdn] [Hi Hin] Hc _].
  assert (Hval : ∀ key v, value_ok v → bool_decide (key ∈ main_keys) = true →
    field_value (mkField key v []) = v).
  { intros key v ? Hk%bool_decide_eq_true. by apply value_field. }
  assert (Hp : m !! text_of "Package" = Some (sp_name s)).
  { rewrite Hm by done. etrans; [|apply f_equal, (Hval (text_of "Package")); done]. reflexivity. }
  assert (Hve : m !! text_of "Version" = Some (sp_version s)).
  { rewrite Hm by done. etrans; [|apply f_equal, (Hval (text_of "Version")); done]. reflexivity. }
  assert (Hde : m !! text_of "Depends" = Some (write_dependencies (sp_depends s))).
  { rewrite Hm by done. etrans; [|apply f_equal, (Hval (text_of "Depends")); [by apply dependencies_value|done]]. reflexivity. }
  assert (Him : m !! text_of "Imports" = Some (write_dependencies (sp_imports s))).
  { rewrite Hm by done. etrans; [|apply f_equal, (Hval (text_of "Imports")); [by apply dependencies_value|done]]. reflexivity. }
  assert (Hco : m !! text_of "Collate" = Some (listing (sp_collate s))).
  { rewrite Hm by done. etrans; [|apply f_equal, (collate_value (sp_collate s))]; [reflexivity|].
    eapply Forall_impl; [exact Hc|]. by intros ? []. }
  unfold Description.dependencies. rewrite Hp, Hve, Hde, Him, !parse_dependencies_write by done.
  cbn [mbind option_bind]. eexists. split; [done|]. do 4 (split; [done|]). split; [|done].
  unfold Description.collate. cbn [Description.fields]. rewrite Hco. cbn [fmap option_fmap option_map].
  rewrite split_listing by (eapply Forall_impl; [exact Hc|]; by intros ? []). f_equal.
  rewrite <-list_fmap_compose. etrans; [|apply list_fmap_id]. apply list_fmap_ext.
  intros i n Hn'. simpl. apply trim_quotes_quoted.
  rewrite Forall_forall in Hc. by eapply Hc, list_elem_of_lookup_2.
Qed.

(** ** Totality and errors *)

Lemma take_utf8_before_ascii a c r : is_ascii c = true → utf8 (a ++ c :: r) → utf8 a.
Proof.
  intros Hc Hu. apply (utf8_split a (c :: r) Hu). by apply ascii_not_continuation in Hc as [? _].
Qed.

Lemma strip_suffix_utf8 s c : is_ascii c = true → utf8 s → utf8 (default s (strip_suffix s c)).
Proof.
  intros Hc Hs. unfold strip_suffix. destruct (ends_with s c) eqn:He; [|done].
  apply ends_with_spec in He as [r ->]. simpl.
  rewrite length_app, Nat.add_sub, take_app_length. by eapply take_utf8_before_ascii.
Qed.

Lemma input_lines_utf8 s line : utf8 s → line ∈ lines s → utf8 line.
Proof.
  intros Hs (seg & -> & Hseg)%list_elem_of_fmap. pose proof (segments_utf8 _ _ Hs Hseg) as Hu.
  unfold strip_line. pose proof (strip_suffix_utf8 seg newline eq_refl Hu) as Hl.
  destruct (strip_suffix seg newline) as [l|]; [|done]. by apply strip_suffix_utf8.
Qed.

(** A text can be cut before and behind an ASCII character. *)
Lemma slice_before s c i : is_ascii c = true → find_char s c = Some i → is_Some (slice s 0 i).
Proof.
  intros Hc (a & r & -> & <- & _)%find_char_Some. unfold slice.
  rewrite bool_decide_true by (rewrite length_app; lia).
  assert (is_char_boundary (a ++ c :: r) (length a) = true) as ->; [|by eexists].
  unfold is_char_boundary. rewrite list_lookup_middle by done.
  apply orb_true_iff. right. by apply ascii_not_continuation in Hc as [-> _].
Qed.

Lemma parse_dcf_line_total line st : utf8 line → is_Some (parse_dcf_line line st).
Proof.
  intros Hu. destruct st as [[fields key] value]. unfold parse_dcf_line.
  destruct (starts_with_whitespace line); [by eexists|].
  destruct (bool_decide (line ≠ [])); [|by eexists]. case_bool_decide as Hc; [|by eexists]. cbn [andb].
  destruct (find_char line colon) as [i|] eqn:Hi; [|by apply find_char_None in Hi].
  destruct (slice_before line colon i eq_refl Hi) as [k Hk]. cbn [mbind option_bind]. rewrite Hk.
  cbn [mbind option_bind]. apply find_char_Some in Hi as (a & r & -> & <- & _).
  assert (utf8 r) as Hr by (apply (utf8_after_ascii 0 a r colon); done).
  pose proof (slice_from_app (a ++ [colon]) r Hr) as Hf.
  rewrite length_app, <-app_assoc in Hf. cbn [length app] in Hf. rewrite Hf. by eexists.
Qed.

Lemma parse_dcf_total contents : utf8 contents → is_Some (parse_dcf contents).
Proof.
  intros Hu. unfold parse_dcf.
  assert (Hg : ∀ ls st, (∀ l, l ∈ ls → utf8 l) → is_Some (foldM parse_dcf_line ls st)).
  { induction ls as [|l ls IH]; intros st Hl; [by eexists|]. cbn [foldM].
    destruct (parse_dcf_line_total l st) as [st' ->]; [apply Hl; by left|]. cbn [mbind option_bind].
    apply IH. intros. apply Hl. by right. }
  destruct (Hg (lines contents) (∅, None, [])) as [[[m k] v] ->]; [|by eexists].
  intros l. by apply input_lines_utf8.
Qed.

Lemma parse_comma_separated_total s : is_Some (Description.parse_comma_separated s).
Proof.
  unfold Description.parse_comma_separated.
  destruct (mapM_total Description.parse_dependency (λ _ _, True)
    (filter (λ s, s ≠ []) (trim <$> split_on ","%char s))) as (l & -> & _); [|by eexists].
  intros d _. unfold Description.parse_dependency. destruct (find_char d "("%char) as [i|] eqn:Hi; [|by eexists].
  destruct (slice_before d "("%char i eq_refl Hi) as [k ->]. by eexists.
Qed.

Lemma dependencies_total fields key : is_Some (Description.dependencies fields key).
Proof.
  unfold Description.dependencies. destruct (fields !! key); [apply parse_comma_separated_total|by eexists].
Qed.

(** Reading a [DESCRIPTION] never panics, and fails exactly when it has no
    [Package:] field, or else no [Version:] field; otherwise it has the two,
    all its fields, and never depends on R. *)
Theorem description_parse_total contents :
  utf8 contents →
  ∃ fields, parse_dcf contents = Some fields ∧
  match fields !! text_of "Package", fields !! text_of "Version" with
  | None, _ => Description.parse contents = Some (inl Description.MissingPackage)
  | Some _, None => Description.parse contents = Some (inl Description.MissingVersion)
  | Some name, Some version =>
      ∃ d, Description.parse contents = Some (inr d) ∧ Description.name d = name ∧
        Description.version d = version ∧ (text_of "R" ∉ Description.depends d) ∧
        Description.fields d = fields
  end.
Proof.
  intros Hu. destruct (parse_dcf_total contents Hu) as [fields Hf]. exists fields. split; [done|].
  unfold Description.parse. rewrite Hf. cbn [mbind option_bind].
  destruct (fields !! text_of "Package") as [name|]; [|done].
  destruct (fields !! text_of "Version") as [version|]; [|done].
  destruct (dependencies_total fields (text_of "Depends")) as [depends ->].
  destruct (dependencies_total fields (text_of "Imports")) as [imports ->].
  cbn [mbind option_bind]. eexists. split; [done|]. do 2 (split; [done|]). split; [|done]. simpl.
  by intros [? _]%list_elem_of_filter.
Qed.

(** ** Witnesses *)

Definition demo_spec : Spec := mkSpec (text_of "demo") (text_of "1.0.0")
  [(text_of "R", Some (text_of ">= 3.5.0")); (text_of "utils", None)] [(text_of "rlang", None)]
  [text_of "utils.R"; text_of "core.R"]
  [mkField (text_of "Title") (text_of "A: b") [text_of "  more"]].

#[local] Ltac by_deciding := first [done | by apply (bool_decide_unpack _)].

Lemma demo_dependency d :
  solid d.1 → bool_decide (","%char ∉ d.1 ++ default [] d.2) = true →
  bool_decide (open_paren ∉ d.1) = true → utf8 (default [] d.2) → dependency_ok d.
Proof.
  intros Hs [H1 H2]%bool_decide_eq_true%not_elem_of_app H3%bool_decide_eq_true Hu. split; try done.
  intros c Hc. by rewrite Hc in *.
Qed.

Lemma demo_spec_ok : spec_ok demo_spec.
Proof.
  split.
  - split; by_deciding.
  - split; by_deciding.
  - split; [|by_deciding]. repeat apply Forall_cons_2; try apply Forall_nil_2;
      apply demo_dependency; by_deciding || (split; by_deciding).
  - split; [|by_deciding]. repeat apply Forall_cons_2; try apply Forall_nil_2;
      apply demo_dependency; by_deciding || (split; by_deciding).
  - repeat apply Forall_cons_2; try apply Forall_nil_2; (split; [split|]);
      try by_deciding; by repeat constructor.
  - apply Forall_cons_2; [|apply Forall_nil_2]. split; [|by_deciding]. split.
    + split_and!; by_deciding.
    + split_and!; try by_deciding. all: split; by_deciding.
    + apply Forall_cons_2; [|apply Forall_nil_2]. split; [split; by_deciding|done].
Qed.

Lemma description_roundtrip_witness :
  ∃ d, Description.parse (write_fields [newline] (describe demo_spec)) = Some (inr d) ∧
    Description.name d = sp_name demo_spec ∧ Description.version d = sp_version demo_spec ∧
    Description.depends d = filter (λ p, p ≠ text_of "R") (sp_depends demo_spec).*1 ∧
    Description.imports d = (sp_imports demo_spec).*1 ∧
    Description.collate d = Some (sp_collate demo_spec) ∧
    Description.fields d = foldl (λ m f, <[fd_key f := field_value f]> m) ∅ (describe demo_spec).
Proof. exact (description_roundtrip [newline] demo_spec (or_introl eq_refl) demo_spec_ok). Defined.

Lemma description_parse_total_witness :
  ∃ fields, parse_dcf (text_of "Package: p") = Some fields ∧
  match fields !! text_of "Package", fields !! text_of "Version" with
  | None, _ => Description.parse (text_of "Package: p") = Some (inl Description.MissingPackage)
  | Some _, None => Description.parse (text_of "Package: p") = Some (inl Description.MissingVersion)
  | Some name, Some version =>
      ∃ d, Description.parse (text_of "Package: p") = Some (inr d) ∧ Description.name d = name ∧
        Description.version d = version ∧ (text_of "R" ∉ Description.depends d) ∧
        Description.fields d = fields
  end.
Proof. exact (description_parse_total (text_of "Package: p") eq_refl). Defined.
