(* ===== verification/Dap.v ===== *)
(** * The state of the debug adapter: [crates/ark/src/dap/dap_state.rs]

    Breakpoints and the map that keeps them, debug sessions with the references
    of variables, and the events sent to the frontends. A channel is the list of
    the messages sent on it. What reads the file system or runs R code takes the
    answer as an argument. [None] is a panic: an overflow in a debug build. *)

From S2P Require Export Text OakInputs External.
From stdpp Require Import gmap pretty.
#[local] Open Scope list_scope.
#[local] Open Scope Z_scope.

(** ** Machine integers *)

Section machine.
Context `{BP : BuildProfile}.

(** [n as u32], [n as i32]. *)
Definition to_u32 (n : Z) : Z := n mod 2 ^ 32.
Definition to_i32 (n : Z) : Z := (n + 2 ^ 31) mod 2 ^ 32 - 2 ^ 31.

(** [n], the exact result of an operation on integers of [lo..=hi]. *)
Definition overflowing (lo hi n : Z) : option Z :=
  if bool_decide (lo ≤ n ≤ hi) then Some n
  else if debug_assertions then None else Some ((n - lo) mod (hi + 1 - lo) + lo).

Definition add_i64 (a b : Z) : option Z := overflowing (- 2 ^ 63) (2 ^ 63 - 1) (a + b).
Definition add_u64 (a b : Z) : option Z := overflowing 0 (2 ^ 64 - 1) (a + b).
Definition add_u32 (a b : Z) : option Z := overflowing 0 (2 ^ 32 - 1) (a + b).
Definition add_i32 (a b : Z) : option Z := overflowing (- 2 ^ 31) (2 ^ 31 - 1) (a + b).
End machine.

(** ** Breakpoints *)

Inductive InvalidReason := ClosingBrace | EmptyBraces.
Inductive BreakpointState := Unverified | Verified | Invalid (reason : InvalidReason) | Disabled.

#[export] Instance InvalidReason_eq_dec : EqDecision InvalidReason.
Proof. solve_decision. Defined.
#[export] Instance BreakpointState_eq_dec : EqDecision BreakpointState.
Proof. solve_decision. Defined.

Definition message (reason : InvalidReason) : text :=
  match reason with
  | ClosingBrace => text_of "Can't break on closing `}` brace"
  | EmptyBraces => text_of "Can't break inside empty braces"
  end.

Record Breakpoint := mkBreakpoint {
  id : Z;
  line : Z;
  original_line : Z;
  state : BreakpointState;
  injected : bool;
  condition : option text;
  log_message : option text;
  hit_condition : option text;
  hit_count : Z;
}.

Definition is_disabled (bp : Breakpoint) : bool := bool_decide (state bp = Disabled).
Definition is_verified (bp : Breakpoint) : bool := bool_decide (state bp = Verified).

(** [bp.state = s], [bp.hit_count = n], and what annotation writes. *)
Definition set_state (s : BreakpointState) (bp : Breakpoint) : Breakpoint :=
  mkBreakpoint (id bp) (line bp) (original_line bp) s (injected bp)
    (condition bp) (log_message bp) (hit_condition bp) (hit_count bp).
Definition set_hit_count (n : Z) (bp : Breakpoint) : Breakpoint :=
  mkBreakpoint (id bp) (line bp) (original_line bp) (state bp) (injected bp)
    (condition bp) (log_message bp) (hit_condition bp) n.
Definition set_anchor (n : Z) (bp : Breakpoint) : Breakpoint :=
  mkBreakpoint (id bp) n (original_line bp) (state bp) true
    (condition bp) (log_message bp) (hit_condition bp) (hit_count bp).

Section lines.
Context `{BP : BuildProfile}.

Definition from_dap_line (line : Z) : option Z := to_u32 <$> add_i64 line (-1).
Definition to_dap_line (line : Z) : option Z := add_u32 line 1.
End lines.

(** ** Events *)

Definition THREAD_ID : Z := -1.

Inductive DapBackendEvent :=
| EvTerminated
| EvContinued
| EvStopped
| EvInvalidated
| EvBreakpointState (id line : Z) (verified : bool) (message : option text)
| EvException (class message : text).

(** [dap::types::Breakpoint]: the fields that are set. *)
Record DapBreakpoint := mkDapBreakpoint {
  rb_id : option Z;
  rb_verified : bool;
  rb_line : option Z;
  rb_message : option text;
}.

(** The events of the protocol: the fields that vary. *)
Inductive Event :=
| EInitialized
| EThreadStarted (thread_id : Z)
| EContinued (thread_id : Z)
| EStoppedStep (thread_id : Z)
| EStoppedException (thread_id : Z) (description text : text)
| EInvalidatedVariables (thread_id : Z)
| ETerminated
| EBreakpointChanged (breakpoint : DapBreakpoint).

Definition into_dap_event `{BP : BuildProfile} (event : DapBackendEvent) : option Event :=
  match event with
  | EvContinued => Some (EContinued THREAD_ID)
  | EvStopped => Some (EStoppedStep THREAD_ID)
  | EvException class message =>
      Some (EStoppedException THREAD_ID message
        (text_of "<" ++ class ++ text_of ">" ++ [newline] ++ message))
  | EvInvalidated => Some (EInvalidatedVariables THREAD_ID)
  | EvTerminated => Some ETerminated
  | EvBreakpointState id line verified message =>
      line ← to_dap_line line;
      Some (EBreakpointChanged (mkDapBreakpoint (Some id) verified (Some line) message))
  end.

(** ** The map of breakpoints *)

(** [blake3]: the hash of the text of a document. *)
Class Blake3 := {
  Hash : Type;
  Hash_eq_dec :: EqDecision Hash;
  blake3_hash : text → Hash;
}.

(** [fs::read_to_string] of a path as the frontend wrote it, and
    [fs::canonicalize] of a normalised one. *)
Record Fs := mkFs {
  fs_read_to_string : text → option text;
  fs_canonicalize : path → option path;
}.

Section map.
Context `{B3 : Blake3}.

Record BreakpointEntry := mkEntry {
  verbatim_path : text;
  entry_hash : Hash;
  breakpoints : list Breakpoint;
}.

Definition set_breakpoints (bps : list Breakpoint) (entry : BreakpointEntry) : BreakpointEntry :=
  mkEntry (verbatim_path entry) (entry_hash entry) bps.

Record BreakpointMap := mkMap {
  by_path : gmap FilePath BreakpointEntry;
  by_canonical : gmap path FilePath;
}.

Definition canonical_path (fs : Fs) (p : FilePath) : option path := as_path p ≫= fs_canonicalize fs.

Definition resolve_primary (fs : Fs) (m : BreakpointMap) (p : FilePath) : option FilePath :=
  match by_path m !! p with
  | Some _ => Some p
  | None => canonical ← canonical_path fs p; by_canonical m !! canonical
  end.

Definition bpm_insert (fs : Fs) (p : FilePath) (entry : BreakpointEntry) (m : BreakpointMap)
    : BreakpointMap :=
  let canonicals :=
    match canonical_path fs p with
    | Some canonical => <[canonical := p]> (by_canonical m)
    | None => by_canonical m
    end in
  mkMap (<[p := entry]> (by_path m)) canonicals.

Definition bpm_remove (fs : Fs) (p : FilePath) (m : BreakpointMap)
    : option BreakpointEntry * BreakpointMap :=
  match resolve_primary fs m p with
  | None => (None, m)
  | Some primary =>
      (by_path m !! primary,
       mkMap (delete primary (by_path m)) (filter (λ '(_, q), q ≠ primary) (by_canonical m)))
  end.

Definition bpm_get (fs : Fs) (m : BreakpointMap) (p : FilePath) : option BreakpointEntry :=
  primary ← resolve_primary fs m p; by_path m !! primary.

(** [get_mut]: the entry with the key to write it back under. *)
Definition bpm_get_mut (fs : Fs) (m : BreakpointMap) (p : FilePath)
    : option (FilePath * BreakpointEntry) :=
  primary ← resolve_primary fs m p; pair primary <$> by_path m !! primary.

Definition bpm_write (m : BreakpointMap) (primary : FilePath) (entry : BreakpointEntry) : BreakpointMap :=
  mkMap (<[primary := entry]> (by_path m)) (by_canonical m).

Definition bpm_contains_key (fs : Fs) (m : BreakpointMap) (p : FilePath) : bool :=
  bool_decide (is_Some (resolve_primary fs m p)).
End map.

(** ** R objects *)

(** [harp::object::RObject], and the global environment. *)
Class RObjects := {
  RObject : Type;
  R_global : RObject;
}.

Section objects.
Context `{RO : RObjects}.

Record RVariable := mkRVariable {
  rv_name : text;
  rv_value : text;
  rv_type : option text;
  variables_reference_object : option RObject;
}.

Inductive FrameSource := FSFile (path : text) | FSText (source : text).

Record FrameInfo := mkFrame {
  fr_id : Z;
  fr_source_name : text;
  fr_frame_name : text;
  fr_source : FrameSource;
  fr_environment : option RObject;
  fr_start_line : Z;
  fr_start_column : Z;
  fr_end_line : Z;
  fr_end_column : Z;
}.

Definition take_environment (f : FrameInfo) : FrameInfo :=
  mkFrame (fr_id f) (fr_source_name f) (fr_frame_name f) (fr_source f) None
    (fr_start_line f) (fr_start_column f) (fr_end_line f) (fr_end_column f).
End objects.

Inductive DebugStoppedReason := Step | Pause | Condition (class message : text).

(** Messages on the comm of the console. *)
Inductive CommMessage := StartDebug | StopDebug.

(** ** The state *)

Section dap.
Context `{BP : BuildProfile} `{B3 : Blake3} `{RO : RObjects}.

Record Dap := mkDap {
  is_debugging : bool;
  is_debugging_stdin : bool;
  is_connected : bool;
  backend_events_tx : option (list DapBackendEvent);
  stack : option (list FrameInfo);
  dap_breakpoints : BreakpointMap;
  exception_breakpoint_filters : list text;
  fallback_sources : gmap text text;
  frame_id_to_variables_reference : gmap Z Z;
  variables_reference_to_r_object : gmap Z RObject;
  current_variables_reference : Z;
  current_breakpoint_id : Z;
  is_interrupting_for_debugger : bool;
  comm_tx : option (list CommMessage);
  notebook_iopub_tx : option (list (Z * Event));
  iopub_seq : Z;
}.

Definition new_dap : Dap :=
  mkDap false false false None None (mkMap ∅ ∅) [] ∅ ∅ ∅ 1 1 false None None 0.

Implicit Types d : Dap.

(** Assignments of fields. *)
Definition set_channels backend comm iopub seq d : Dap :=
  let '(mkDap a b c _ e f g h i j k l m _ _ _) := d in
  mkDap a b c backend e f g h i j k l m comm iopub seq.
Definition set_dap_map map d : Dap :=
  let '(mkDap a b c d' e _ g h i j k l m n o p) := d in
  mkDap a b c d' e map g h i j k l m n o p.
Definition set_connected connected d : Dap :=
  let '(mkDap a b _ d' e f g h i j k l m n o p) := d in
  mkDap a b connected d' e f g h i j k l m n o p.
Definition set_filters filters d : Dap :=
  let '(mkDap a b c d' e f _ h i j k l m n o p) := d in
  mkDap a b c d' e f filters h i j k l m n o p.
Definition set_interrupting interrupting d : Dap :=
  let '(mkDap a b c d' e f g h i j k l _ n o p) := d in
  mkDap a b c d' e f g h i j k l interrupting n o p.
Definition set_breakpoint_id next d : Dap :=
  let '(mkDap a b c d' e f g h i j k _ m n o p) := d in
  mkDap a b c d' e f g h i j k next m n o p.
Definition set_references frames objects next d : Dap :=
  let '(mkDap a b c d' e f g h _ _ _ l m n o p) := d in
  mkDap a b c d' e f g h frames objects next l m n o p.
Definition set_session debugging stack sources d : Dap :=
  let '(mkDap _ b c d' _ f g _ i j k l m n o p) := d in
  mkDap debugging b c d' stack f g sources i j k l m n o p.

(** *** Events *)

Definition send_backend_event (event : DapBackendEvent) d : option Dap :=
  let backend := (λ sent, sent ++ [event]) <$> backend_events_tx d in
  match notebook_iopub_tx d with
  | None => Some (set_channels backend (comm_tx d) None (iopub_seq d) d)
  | Some sent =>
      dap_event ← into_dap_event event;
      seq ← add_i64 (iopub_seq d) 1;
      Some (set_channels backend (comm_tx d) (Some (sent ++ [(seq, dap_event)])) seq d)
  end.

Definition send_comm (msg : CommMessage) d : Dap :=
  set_channels (backend_events_tx d) ((λ sent, sent ++ [msg]) <$> comm_tx d)
    (notebook_iopub_tx d) (iopub_seq d) d.

Definition send_invalidated d : option Dap := send_backend_event EvInvalidated d.

Definition set_iopub_tx d : Dap :=
  set_channels (backend_events_tx d) (comm_tx d) (Some []) (iopub_seq d) d.

(** *** Sessions and the references of variables *)

Definition clear_variables_reference_maps d : Dap :=
  set_references ∅ ∅ (current_variables_reference d) d.

Definition reset_variables_reference_count d : Dap :=
  set_references (frame_id_to_variables_reference d) (variables_reference_to_r_object d) 1 d.

Definition insert_variables_reference_object (x : RObject) d : option (Z * Dap) :=
  let variables_reference := current_variables_reference d in
  next ← add_i64 variables_reference 1;
  Some (variables_reference,
    set_references (frame_id_to_variables_reference d)
      (<[variables_reference := x]> (variables_reference_to_r_object d)) next d).

Definition load_frame (frame : FrameInfo) d : option Dap :=
  let environment := default R_global (fr_environment frame) in
  let variables_reference := current_variables_reference d in
  next ← add_i64 variables_reference 1;
  Some (set_references
    (<[fr_id frame := variables_reference]> (frame_id_to_variables_reference d))
    (<[variables_reference := environment]> (variables_reference_to_r_object d)) next d).

Definition load_variables_references (stack : list FrameInfo) d : option (list FrameInfo * Dap) :=
  d ← foldM load_frame stack (clear_variables_reference_maps d);
  Some (take_environment <$> stack, d).

Definition start_debug (stack : list FrameInfo) (sources : gmap text text)
    (reason : DebugStoppedReason) d : option Dap :=
  '(stack, d) ← load_variables_references stack d;
  let d := set_session true (Some stack) (sources ∪ fallback_sources d) d in
  let event :=
    match reason with
    | Step | Pause => EvStopped
    | Condition class message => EvException class message
    end in
  send_backend_event event (send_comm StartDebug d).

Definition stop_debug d : option Dap :=
  let was_debugging := is_debugging d in
  let d := reset_variables_reference_count (clear_variables_reference_maps (set_interrupting false d)) in
  let d := set_session false None ∅ d in
  if was_debugging && (is_connected d || bool_decide (is_Some (notebook_iopub_tx d)))
  then send_backend_event EvContinued (send_comm StopDebug d)
  else Some d.

(** [dap::types::Variable]: the fields that are set. *)
Record DapVariable := mkVariable {
  v_name : text;
  v_value : text;
  v_type : option text;
  v_reference : Z;
}.

Definition variables_reference_of (x : option RObject) d : option (Z * Dap) :=
  match x with
  | Some x => insert_variables_reference_object x d
  | None => Some (0, d)
  end.

Definition make_variable (variable : RVariable) (st : list DapVariable * Dap)
    : option (list DapVariable * Dap) :=
  let '(out, d) := st in
  '(reference, d) ← variables_reference_of (variables_reference_object variable) d;
  Some (out ++ [mkVariable (rv_name variable) (rv_value variable) (rv_type variable) reference], d).

Definition make_variables (variables : list RVariable) d : option (list DapVariable * Dap) :=
  foldM make_variable variables ([], d).

(** The answer to [evaluate]: result, type and reference. *)
Definition into_evaluate_response (variable : RVariable) d : option ((text * option text * Z) * Dap) :=
  '(reference, d) ← variables_reference_of (variables_reference_object variable) d;
  Some ((rv_value variable, rv_type variable, reference), d).

Inductive FrameEnvError := UnknownFrameId (frame_id : Z) | UnknownVariablesReference (reference : Z).

Definition frame_env d (frame_id : option Z) : FrameEnvError + RObject :=
  match frame_id with
  | None => inr R_global
  | Some frame_id =>
      match frame_id_to_variables_reference d !! frame_id with
      | None => inl (UnknownFrameId frame_id)
      | Some reference =>
          match variables_reference_to_r_object d !! reference with
          | None => inl (UnknownVariablesReference reference)
          | Some obj => inr obj
          end
      end
  end.

(** [get_frame_env], which is [frame_env] with another type of errors. *)
Definition get_frame_env d (frame_id : option Z) : FrameEnvError + RObject :=
  match frame_id with
  | None => inr R_global
  | Some frame_id =>
      match frame_id_to_variables_reference d !! frame_id with
      | None => inl (UnknownFrameId frame_id)
      | Some reference =>
          match variables_reference_to_r_object d !! reference with
          | None => inl (UnknownVariablesReference reference)
          | Some obj => inr obj
          end
      end
  end.

Definition is_exception_breakpoint_filter_enabled d (filter : text) : bool :=
  existsb (λ enabled, bool_decide (enabled = filter)) (exception_breakpoint_filters d).

(** *** Breakpoints *)

Definition next_breakpoint_id d : option (Z * Dap) :=
  let id := current_breakpoint_id d in
  next ← add_i64 id 1;
  Some (id, set_breakpoint_id next d).

Definition write_entry d (primary : FilePath) (entry : BreakpointEntry) : Dap :=
  set_dap_map (bpm_write (dap_breakpoints d) primary entry) d.

(** The breakpoints that [verify_breakpoints] verifies. *)
Definition verifies (start_line end_line : Z) (bp : Breakpoint) : bool :=
  bool_decide (state bp = Unverified) && injected bp &&
    bool_decide (start_line ≤ line bp < end_line).

Definition verified_event (bp : Breakpoint) : DapBackendEvent :=
  EvBreakpointState (id bp) (line bp) true None.

Definition verify_breakpoints (fs : Fs) (uri : FilePath) (start_line end_line : Z) d : option Dap :=
  match bpm_get_mut fs (dap_breakpoints d) uri with
  | None => Some d
  | Some (primary, entry) =>
      let bps := breakpoints entry in
      let verify bp := if verifies start_line end_line bp then set_state Verified bp else bp in
      let events := verified_event <$> filter (λ bp, verifies start_line end_line bp) bps in
      foldM send_backend_event events
        (write_entry d primary (set_breakpoints (verify <$> bps) entry))
  end.

(** Update the first breakpoint that satisfies [p]. *)
Fixpoint alter_first (p : Breakpoint → bool) (f : Breakpoint → Breakpoint) (bps : list Breakpoint)
    : list Breakpoint :=
  match bps with
  | [] => []
  | bp :: bps => if p bp then f bp :: bps else bp :: alter_first p f bps
  end.

Definition find_breakpoint (p : Breakpoint → bool) (bps : list Breakpoint) : option Breakpoint :=
  List.find p bps.

Definition verify_breakpoint (fs : Fs) (uri : FilePath) (bp_id : text) d : option Dap :=
  match bpm_get_mut fs (dap_breakpoints d) uri with
  | None => Some d
  | Some (primary, entry) =>
      let has_id bp := bool_decide (text_of (pretty (id bp)) = bp_id) in
      match find_breakpoint has_id (breakpoints entry) with
      | None => Some d
      | Some bp =>
          if bool_decide (state bp = Unverified) then
            send_backend_event (verified_event bp)
              (write_entry d primary
                (set_breakpoints (alter_first has_id (set_state Verified) (breakpoints entry)) entry))
          else Some d
      end
  end.

Definition unverified_event (bp : Breakpoint) : DapBackendEvent :=
  EvBreakpointState (id bp) (line bp) false None.

Definition did_change_document (fs : Fs) (uri : FilePath) d : option Dap :=
  let '(removed, m) := bpm_remove fs uri (dap_breakpoints d) in
  match removed with
  | None => Some d
  | Some entry => foldM send_backend_event (unverified_event <$> breakpoints entry) (set_dap_map m d)
  end.

Definition invalid_event (bp : Breakpoint) : option DapBackendEvent :=
  match state bp with
  | Invalid reason => Some (EvBreakpointState (id bp) (line bp) false (Some (message reason)))
  | _ => None
  end.

Definition notify_invalid_breakpoints (fs : Fs) (uri : FilePath) d : option Dap :=
  match bpm_get fs (dap_breakpoints d) uri with
  | None => Some d
  | Some entry => foldM send_backend_event (omap invalid_event (breakpoints entry)) d
  end.

Definition remove_disabled_breakpoints (fs : Fs) (uri : FilePath) d : Dap :=
  match bpm_get_mut fs (dap_breakpoints d) uri with
  | None => d
  | Some (primary, entry) =>
      write_entry d primary (set_breakpoints (filter (λ bp, negb (is_disabled bp)) (breakpoints entry)) entry)
  end.

Definition is_breakpoint_enabled (fs : Fs) (uri : FilePath) (bp_id : Z) d : bool :=
  match bpm_get fs (dap_breakpoints d) uri with
  | None => false
  | Some entry =>
      existsb (λ bp, bool_decide (id bp = bp_id) &&
        (bool_decide (state bp = Verified) || bool_decide (state bp = Unverified)))
        (breakpoints entry)
  end.

Definition get_breakpoint (fs : Fs) (uri : FilePath) (bp_id : Z) d : option Breakpoint :=
  entry ← bpm_get fs (dap_breakpoints d) uri;
  find_breakpoint (λ bp, bool_decide (id bp = bp_id)) (breakpoints entry).

Definition reset d : Dap :=
  let m := dap_breakpoints d in
  set_dap_map (mkMap
    ((λ entry, set_breakpoints (set_hit_count 0 <$> breakpoints entry) entry) <$> by_path m)
    (by_canonical m)) d.

Definition increment_hit_count (fs : Fs) (uri : FilePath) (bp_id : Z) d : option (Z * Dap) :=
  match bpm_get_mut fs (dap_breakpoints d) uri with
  | None => Some (0, d)
  | Some (primary, entry) =>
      let has_id bp := bool_decide (id bp = bp_id) in
      match find_breakpoint has_id (breakpoints entry) with
      | None => Some (0, d)
      | Some bp =>
          count ← add_u64 (hit_count bp) 1;
          Some (count, write_entry d primary
            (set_breakpoints (alter_first has_id (set_hit_count count) (breakpoints entry)) entry))
      end
  end.

End dap.
