(* ===== verification/DapServer.v ===== *)
(** * Requests to the debug adapter: [crates/ark/src/dap/dap_server.rs]

    [DapHandler]: its dispatch and the handlers, [debugInfo] of
    [dap_jupyter_handler.rs], and [ps_handle_breakpoint] of [console_debug.rs],
    which decides whether a breakpoint that is reached stops. *)

From S2P Require Export Dap.
From stdpp Require Import gmap.
#[local] Open Scope list_scope.
#[local] Open Scope Z_scope.

(** ** Requests *)

Record SourceBreakpoint := mkSourceBreakpoint {
  sb_line : Z;
  sb_condition : option text;
  sb_hit_condition : option text;
  sb_log_message : option text;
}.

Record SetBreakpointsArguments := mkSetBreakpoints {
  source_path : option text;
  args_breakpoints : option (list SourceBreakpoint);
}.

Record StackTraceArguments := mkStackTrace {
  start_frame : option Z;
  levels : option Z;
}.

Inductive Command :=
| Initialize
| Attach
| Disconnect
| RestartRequest
| Threads
| SetBreakpoints (args : SetBreakpointsArguments)
| SetExceptionBreakpoints (filters : list text)
| StackTrace (args : StackTraceArguments)
| SourceRequest
| Scopes (frame_id : Z)
| Variables (variables_reference : Z)
| ContinueRequest
| Next
| StepIn
| StepOut
| PauseRequest
| ConfigurationDone
| UnknownCommand.

Inductive DebugRequest := DbgContinue | DbgNext | DbgStepIn | DbgStepOut | DbgQuit.

Inductive DapConsoleEvent :=
| DebugCommand (cmd : DebugRequest)
| Interrupt
| Restart.

(** ** Responses *)

Record StackFrame := mkStackFrame {
  sf_id : Z;
  sf_name : text;
  sf_source_name : text;
  sf_source_path : option text;
  sf_line : Z;
  sf_column : Z;
  sf_end_line : Z;
  sf_end_column : Z;
}.

Record ExceptionBreakpointsFilter := mkFilter {
  ef_filter : text;
  ef_label : text;
  ef_description : option text;
  ef_default : option bool;
  ef_supports_condition : option bool;
}.

(** The capabilities that are set. *)
Record Capabilities := mkCapabilities {
  supports_restart_request : bool;
  supports_exception_info_request : bool;
  exception_filters : list ExceptionBreakpointsFilter;
  supports_evaluate_for_hovers : bool;
  supports_conditional_breakpoints : bool;
  supports_hit_conditional_breakpoints : bool;
  supports_log_points : bool;
  supports_configuration_done_request : bool;
}.

Inductive ResponseBody :=
| RInitialize (capabilities : Capabilities)
| RAttach
| RDisconnect
| RRestart
| RThreads (threads : list (Z * text))
| RSetBreakpoints (breakpoints : list DapBreakpoint)
| RSetExceptionBreakpoints
| RStackTrace (stack_frames : list StackFrame) (total_frames : Z)
| RScopes (scopes : list (text * Z))
| RVariables (variables : list DapVariable)
| RContinue (all_threads_continued : bool)
| RNext
| RStepIn
| RStepOut
| RPause
| RConfigurationDone.

(** The errors of the handlers. *)
Inductive DapError :=
| MissingPath
| InvalidStartFrame (start_frame : Z)
| InvalidLevels (levels : Z)
| FrameCountOverflow (n : Z)
| UnsupportedSource
| UnknownRequest.

Record DapHandlerOutput := mkOutput {
  body : ResponseBody;
  dap_events : list Event;
  console_events : list DapConsoleEvent;
}.

Definition reply (b : ResponseBody) : DapError + DapHandlerOutput := inr (mkOutput b [] []).

Section server.
Context `{BP : BuildProfile} `{B3 : Blake3} `{RO : RObjects} `{HO : HashOrder}.
Implicit Types d : Dap.

(** ** Breakpoints *)

Definition new_breakpoint (bp : SourceBreakpoint) (id line : Z) : Breakpoint :=
  mkBreakpoint id line line Unverified false (sb_condition bp) (sb_log_message bp)
    (sb_hit_condition bp) 0.

(** The closure that replaces the breakpoints of a changed document. *)
Definition replace_breakpoint (bp : SourceBreakpoint) (st : list Breakpoint * Dap)
    : option (list Breakpoint * Dap) :=
  let '(bps, d) := st in
  line ← from_dap_line (sb_line bp);
  '(id, d) ← next_breakpoint_id d;
  Some (bps ++ [new_breakpoint bp id line], d).

(** State and flag of a breakpoint that is sent again. *)
Definition restored_state (old_bp : Breakpoint) : BreakpointState * bool :=
  match state old_bp with
  | Disabled => (Verified, injected old_bp)
  | Invalid _ => (Unverified, false)
  | other => (other, injected old_bp)
  end.

Definition keep_breakpoint (bp : SourceBreakpoint) (old_bp : Breakpoint) (line' : Z) : Breakpoint :=
  let '(new_state, injected) := restored_state old_bp in
  mkBreakpoint (id old_bp) (line old_bp) line' new_state injected (sb_condition bp)
    (sb_log_message bp) (sb_hit_condition bp) 0.

(** One round of the loop over the breakpoints of the request. *)
Definition merge_breakpoint (bp : SourceBreakpoint)
    (st : gmap Z Breakpoint * list Breakpoint * Dap) : option (gmap Z Breakpoint * list Breakpoint * Dap) :=
  let '(old_by_line, bps, d) := st in
  line ← from_dap_line (sb_line bp);
  match old_by_line !! line with
  | Some old_bp => Some (delete line old_by_line, bps ++ [keep_breakpoint bp old_bp line], d)
  | None =>
      '(id, d) ← next_breakpoint_id d;
      Some (old_by_line, bps ++ [new_breakpoint bp id line], d)
  end.

Definition disable_breakpoint (original_line' : Z) (old_bp : Breakpoint) : Breakpoint :=
  mkBreakpoint (id old_bp) (line old_bp) original_line' Disabled true (condition old_bp)
    (log_message old_bp) (hit_condition old_bp) 0.

(** The loop over the breakpoints that are left. *)
Definition disabled_breakpoints (old_by_line : gmap Z Breakpoint) : list Breakpoint :=
  (λ '(line, bp), disable_breakpoint line bp) <$>
    filter (λ '(_, bp), is_verified bp) (hash_order (map_to_list old_by_line)).

(** Collecting [(original_line, bp)]: the last breakpoint of a line stays. *)
Definition by_original_line (bps : list Breakpoint) : gmap Z Breakpoint :=
  foldl (λ m bp, <[original_line bp := bp]> m) ∅ bps.

Definition merge_breakpoints (old args : list _) d : option (list Breakpoint * Dap) :=
  '(rest, bps, d) ← foldM merge_breakpoint args (by_original_line old, [], d);
  Some (bps ++ disabled_breakpoints rest, d).

Definition response_breakpoint (bp : Breakpoint) : option DapBreakpoint :=
  line ← to_dap_line (line bp);
  Some (mkDapBreakpoint (Some (id bp)) (is_verified bp) (Some line)
    (match state bp with Invalid reason => Some (message reason) | _ => None end)).

(** The closure for a file that cannot be read. *)
Definition unreadable_breakpoint (bp : SourceBreakpoint) (st : list DapBreakpoint * Dap)
    : option (list DapBreakpoint * Dap) :=
  let '(bps, d) := st in
  '(id, d) ← next_breakpoint_id d;
  Some (bps ++ [mkDapBreakpoint (Some id) false (Some (sb_line bp))
                  (Some (text_of "Can't read file '{path}'"))], d).

Definition handle_set_breakpoints (fs : Fs) (args : SetBreakpointsArguments) d
    : option ((DapError + DapHandlerOutput) * Dap) :=
  match source_path args with
  | None => Some (inl MissingPath, d)
  | Some path =>
      match from_path_buf (mkPathBuf path true) with
      | None => Some (reply (RSetBreakpoints []), d)
      | Some uri =>
          let requested := default [] (args_breakpoints args) in
          match fs_read_to_string fs path with
          | None =>
              '(bps, d) ← foldM unreadable_breakpoint requested ([], d);
              Some (reply (RSetBreakpoints bps), d)
          | Some doc_content =>
              let doc_hash := blake3_hash doc_content in
              let old_breakpoints := bpm_get fs (dap_breakpoints d) uri in
              '(new_breakpoints, d) ←
                match old_breakpoints with
                | Some entry =>
                    if bool_decide (entry_hash entry = doc_hash)
                    then merge_breakpoints (breakpoints entry) requested d
                    else foldM replace_breakpoint requested ([], d)
                | None => foldM replace_breakpoint requested ([], d)
                end;
              response ← mapM response_breakpoint
                (filter (λ bp, negb (is_disabled bp)) new_breakpoints);
              let entry := mkEntry path doc_hash new_breakpoints in
              Some (reply (RSetBreakpoints response),
                    set_dap_map (bpm_insert fs uri entry (dap_breakpoints d)) d)
          end
      end
  end.

(** ** The stack *)

Definition into_dap_frame (frame : FrameInfo) (sources : gmap text text) : StackFrame :=
  let path := match fr_source frame with
              | FSFile path => Some path
              | FSText source => sources !! source
              end in
  mkStackFrame (fr_id frame) (fr_frame_name frame) (fr_source_name frame) path
    (fr_start_line frame) (fr_start_column frame) (fr_end_line frame) (fr_end_column frame).

(** [usize::try_from] of an [i64], and [saturating_add] on [usize]. *)
Definition usize_try_from (n : Z) : option nat :=
  if bool_decide (0 ≤ n) then Some (Z.to_nat n) else None.
Definition saturating_add (a b : nat) : nat := Z.to_nat (Z.min (Z.of_nat a + Z.of_nat b) (2 ^ 64 - 1)).

(** [stack[start..end].to_vec()]. *)
Definition slice_vec {A} (l : list A) (i j : nat) : option (list A) :=
  if bool_decide (i ≤ j ≤ length l)%nat then Some (take (j - i) (drop i l)) else None.

Definition handle_stacktrace (args : StackTraceArguments) d : option (DapError + DapHandlerOutput) :=
  let frames := match stack d with
                | Some stack => (λ frame, into_dap_frame frame (fallback_sources d)) <$> stack
                | None => []
                end in
  let n_usize := length frames in
  let start_frame := default 0 (start_frame args) in
  match usize_try_from start_frame with
  | None => Some (inl (InvalidStartFrame start_frame))
  | Some start =>
      let start := Nat.min start n_usize in
      let stop :=
        match levels args with
        | Some levels =>
            match usize_try_from levels with
            | None => inl (InvalidLevels levels)
            | Some levels => inr (Nat.min (saturating_add start levels) n_usize)
            end
        | None => inr n_usize
        end in
      match stop with
      | inl err => Some (inl err)
      | inr stop =>
          if bool_decide (Z.of_nat n_usize < 2 ^ 63) then
            stack ← slice_vec frames start stop;
            Some (reply (RStackTrace stack (Z.of_nat n_usize)))
          else Some (inl (FrameCountOverflow (Z.of_nat n_usize)))
      end
  end.

(** ** Scopes and variables *)

Definition handle_scopes (frame_id : Z) d : DapError + DapHandlerOutput :=
  let variables_reference := default 0 (frame_id_to_variables_reference d !! frame_id) in
  reply (RScopes [(text_of "Locals", variables_reference)]).

(** [object_variables] is R code that lists the children of an object. *)
Definition collect_r_variables (object_variables : RObject → list RVariable)
    (variables_reference : Z) d : list RVariable :=
  match variables_reference_to_r_object d !! variables_reference with
  | None => []
  | Some object => object_variables object
  end.

Definition handle_variables (object_variables : RObject → list RVariable) (variables_reference : Z) d
    : option ((DapError + DapHandlerOutput) * Dap) :=
  let variables := collect_r_variables object_variables variables_reference d in
  '(variables, d) ← make_variables variables d;
  Some (reply (RVariables variables), d).

(** ** The other handlers *)

Definition handle_initialize : DapError + DapHandlerOutput :=
  let filter name label description :=
    mkFilter (text_of name) (text_of label) (Some (text_of description)) (Some false) (Some false) in
  let filters :=
    [filter "error" "Errors" "Break on uncaught R errors";
     filter "warning" "Warnings" "Break on R warnings";
     filter "interrupt" "Interrupts" "Break when execution is interrupted"]%string in
  inr (mkOutput (RInitialize (mkCapabilities true false filters true true true true true)) [EInitialized] []).

Definition handle_attach d : (DapError + DapHandlerOutput) * Dap :=
  (inr (mkOutput RAttach [EThreadStarted THREAD_ID] []), set_connected true d).

Definition handle_disconnect d : (DapError + DapHandlerOutput) * Dap :=
  let console_events := if is_debugging d then [DebugCommand DbgQuit] else [] in
  (inr (mkOutput RDisconnect [] console_events), set_connected false d).

Definition handle_restart : DapError + DapHandlerOutput := inr (mkOutput RRestart [] [Restart]).

Definition handle_threads : DapError + DapHandlerOutput :=
  reply (RThreads [(THREAD_ID, text_of "R console")]).

Definition handle_set_exception_breakpoints (filters : list text) d
    : (DapError + DapHandlerOutput) * Dap :=
  (reply RSetExceptionBreakpoints, set_filters filters d).

Definition handle_source : DapError + DapHandlerOutput := inl UnsupportedSource.

Definition handle_step (cmd : DebugRequest) (resp : ResponseBody) : DapError + DapHandlerOutput :=
  inr (mkOutput resp [] [DebugCommand cmd]).

Definition handle_pause d : (DapError + DapHandlerOutput) * Dap :=
  (inr (mkOutput RPause [] [Interrupt]), set_interrupting true d).

Definition dispatch (fs : Fs) (object_variables : RObject → list RVariable) (cmd : Command) d
    : option ((DapError + DapHandlerOutput) * Dap) :=
  match cmd with
  | Initialize => Some (handle_initialize, d)
  | Attach => Some (handle_attach d)
  | Disconnect => Some (handle_disconnect d)
  | RestartRequest => Some (handle_restart, d)
  | Threads => Some (handle_threads, d)
  | SetBreakpoints args => handle_set_breakpoints fs args d
  | SetExceptionBreakpoints filters => Some (handle_set_exception_breakpoints filters d)
  | StackTrace args => result ← handle_stacktrace args d; Some (result, d)
  | SourceRequest => Some (handle_source, d)
  | Scopes frame_id => Some (handle_scopes frame_id d, d)
  | Variables variables_reference => handle_variables object_variables variables_reference d
  | ContinueRequest => Some (handle_step DbgContinue (RContinue true), d)
  | Next => Some (handle_step DbgNext RNext, d)
  | StepIn => Some (handle_step DbgStepIn RStepIn, d)
  | StepOut => Some (handle_step DbgStepOut RStepOut, d)
  | PauseRequest => Some (handle_pause d)
  | ConfigurationDone => Some (reply RConfigurationDone, d)
  | UnknownCommand => Some (inl UnknownRequest, d)
  end.

(** ** Evaluation *)

Inductive EvalResult := EvalTimedOut | EvalOk (variable : RVariable) | EvalError (message : text).

(** The outcome; [SelectedFrame] also sets the frame of the console. *)
Inductive EvaluateOutcome :=
| EvaluateOk (result : text) (type_field : option text) (reference : Z)
| SelectedFrame (frame_id : option Z)
| TimedOut
| EvaluateError (err : FrameEnvError + text).

Definition SELECTED_FRAME_EXPRESSION : text := text_of ".positron_selected_frame".

(** What is evaluated, where, and whether it is printed. *)
Definition evaluate_start (expression : text) (frame_id : option Z) d
    : EvaluateOutcome + (text * RObject * bool) :=
  if bool_decide (expression = SELECTED_FRAME_EXPRESSION) then inl (SelectedFrame frame_id)
  else
    let prefix := text_of "/print " in
    let '(expr, print) := if starts_with expression prefix
                          then (drop (length prefix) expression, true)
                          else (expression, false) in
    match frame_env d frame_id with
    | inl err => inl (EvaluateError (inl err))
    | inr env => inr (expr, env, print)
    end.

(** The answer, once the evaluation is over. *)
Definition evaluate_finish (result : EvalResult) d : option (EvaluateOutcome * Dap) :=
  match result with
  | EvalTimedOut => Some (TimedOut, d)
  | EvalError err => Some (EvaluateError (inr err), d)
  | EvalOk variable =>
      '((result, type_field, reference), d) ← into_evaluate_response variable d;
      Some (EvaluateOk result type_field reference, d)
  end.

(** [eval expression env print] is the evaluation under the timeout. The lock
    is not held in it: the code may stop in the debugger, and [during] is what
    happens to the state meanwhile. *)
Definition evaluate (eval : text → RObject → bool → EvalResult) (during : Dap → option Dap)
    (expression : text) (frame_id : option Z) d : option (EvaluateOutcome * Dap) :=
  match evaluate_start expression frame_id d with
  | inl outcome => Some (outcome, d)
  | inr (expr, env, print) => d ← during d; evaluate_finish (eval expr env print) d
  end.

(** ** Jupyter: [debugInfo] *)

Record InfoBreakpoint := mkInfo {
  info_line : Z;
  info_condition : option text;
  info_log_message : option text;
  info_hit_condition : option text;
}.

Definition info_breakpoint (bp : Breakpoint) : option InfoBreakpoint :=
  line ← to_dap_line (original_line bp);
  Some (mkInfo line (condition bp) (log_message bp) (hit_condition bp)).

Definition info_entry (entry : BreakpointEntry) : option (text * list InfoBreakpoint) :=
  bps ← mapM info_breakpoint (filter (λ bp, negb (is_disabled bp)) (breakpoints entry));
  Some (verbatim_path entry, bps).

(** The stopped threads and the breakpoints of each source. *)
Definition handle_debug_info d : option (list Z * list (text * list InfoBreakpoint)) :=
  let stopped := if is_debugging d then [THREAD_ID] else [] in
  entries ← mapM info_entry (hash_order (map_to_list (by_path (dap_breakpoints d))).*2);
  Some (stopped, entries).

(** ** Hits: [ps_handle_breakpoint] *)

(** [s.parse::<u64>()]: an optional plus sign and digits; or the error. *)
Definition digit (b : ascii) : option Z :=
  let n := Z.of_N (N_of_ascii b) in
  if bool_decide (48 ≤ n ≤ 57) then Some (n - 48) else None.

Fixpoint parse_digits (s : text) (acc : Z) : text + Z :=
  match s with
  | [] => inr acc
  | b :: s =>
      match digit b with
      | None => inl (text_of "invalid digit found in string")
      | Some n =>
          let acc := 10 * acc + n in
          if bool_decide (acc < 2 ^ 64) then parse_digits s acc
          else inl (text_of "number too large to fit in target type")
      end
  end.

Definition parse_u64 (s : text) : text + Z :=
  match s with
  | [] => inl (text_of "cannot parse integer from empty string")
  | b :: digits =>
      if bool_decide (b = "+"%char) && bool_decide (digits ≠ []) then parse_digits digits 0
      else parse_digits s 0
  end.

(** What the R code of a hit answers: [eval_condition] its verdict, its error
    and what it printed, [eval_log_message] the text and what it printed. *)
Record HitEval := mkHitEval {
  eval_condition : text → bool * option text * text;
  eval_log_message : text → text * text;
}.

(** [format_breakpoint_block]: line and content of the block. *)
Definition breakpoint_block (line : Z) (content : text) : list (Z * text) :=
  if bool_decide (trim content = []) then []
  else [(line, if ends_with content newline then content else content ++ [newline])].

(** Does execution stop? With the blocks printed. [during] is what the code of
    the condition does to the state. *)
Definition handle_breakpoint (fs : Fs) (notebook : bool) (ev : HitEval) (during : Dap → option Dap)
    (uri : FilePath) (bp_id : Z) d : option (bool * list (Z * text) * Dap) :=
  if notebook && negb (is_connected d) then Some (false, [], d)
  else
    let bp := get_breakpoint fs uri bp_id d in
    let bp_line := from_option line 0 bp in
    if negb (is_breakpoint_enabled fs uri bp_id d) then Some (false, [], d)
    else
      let '(should_break, blocks) :=
        match bp ≫= condition with
        | None => (true, [])
        | Some condition =>
            let '(should_break, error, captured) := eval_condition ev condition in
            (should_break,
             if bool_decide (trim captured ≠ []) || bool_decide (is_Some error) then
               breakpoint_block bp_line
                 (text_of "Code: `" ++ condition ++ text_of "`" ++ [newline] ++ captured ++ default [] error)
             else [])
        end in
      d ← match bp ≫= condition with Some _ => during d | None => Some d end;
      if negb should_break then Some (false, blocks, d)
      else
        '(reached, blocks, d) ←
          match bp ≫= hit_condition with
          | None => Some (true, blocks, d)
          | Some hit_condition =>
              match parse_u64 (trim hit_condition) with
              | inr threshold =>
                  '(hit_count, d) ← increment_hit_count fs uri bp_id d;
                  Some (bool_decide (threshold ≤ hit_count), blocks, d)
              | inl err =>
                  Some (true, blocks ++ breakpoint_block bp_line
                    (text_of "Error: Expected a positive integer, " ++ err), d)
              end
          end;
        if negb reached then Some (false, blocks, d)
        else
          match bp ≫= log_message with
          | None => Some (true, blocks, d)
          | Some log_message =>
              let '(output, captured) := eval_log_message ev log_message in
              let all := captured ++ output in
              let all := if bool_decide (all ≠ []) && negb (ends_with all newline)
                         then all ++ [newline] else all in
              Some (false, blocks ++ breakpoint_block bp_line all, d)
          end.

End server.
