(* ===== verification/Rewriter.v ===== *)
(** * Placing breakpoints in code: [crates/ark/src/console/console_annotate.rs]

    [AnnotationRewriter] walks the syntax tree of the code to run: on entering
    braces it notes the lines of their expressions, on leaving the list of
    expressions it anchors breakpoints to them and marks those left over as
    invalid. The parser and the tree are third-party code: the walk is the
    sequence of its calls, [Visit]. Lists are rewritten to [Slot]s.

    [place] says where a line goes among nested [braces]; [annotate_places]
    shows that the walk places every breakpoint so. *)

From S2P Require Export Dap.
From stdpp Require Import gmap.
#[local] Open Scope list_scope.
#[local] Open Scope Z_scope.

(** [start] and [range.end] of an expression. *)
Record ExprLineInfo := mkInfoLine {
  expr_start : Z;
  expr_end : Z;
}.

Record BraceFrame := mkFrameLines {
  brace_code_line : Z;
  closing_brace_code_line : Z;
  expr_info : list ExprLineInfo;
}.

(** The errors of the walk. *)
Inductive AnnotateError :=
| ParseFailed
| NoLine
| NegativeLastLine (line : Z)
| NegativeDirective (line : Z).

(** [visit_node] on braces, with their lines unless a lookup of a line fails,
    and [visit_node_post] on a list of expressions. *)
Inductive Visit :=
| EnterBraces (frame : AnnotateError + BraceFrame)
| LeaveList.

(** A rewritten list: calls of breakpoints, expressions with the line of their
    directive, calls that verify a range of lines. *)
Inductive Slot :=
| BreakpointCall (id : Z)
| SlotExpr (directive : option Z)
| VerifyCall (start_line end_line : Z).

Record Rewriter := mkRewriter {
  rw_breakpoints : list Breakpoint;
  consumed : gset Z;
  brace_stack : list BraceFrame;
  err : option AnnotateError;
  rw_lists : list (list Slot);
}.

Section rewriter.
Context `{BP : BuildProfile}.
Variable line_offset : Z.
Implicit Types w : Rewriter.

Definition rewriter_new (bps : list Breakpoint) : Rewriter :=
  mkRewriter (sort_by_key Z.leb line bps) ∅ [] None [].

Definition set_err (e : AnnotateError) w : Rewriter :=
  mkRewriter (rw_breakpoints w) (consumed w) (brace_stack w) (Some e) (rw_lists w).

(** [fail], which keeps the first error. *)
Definition fail (e : AnnotateError) w : Rewriter :=
  match err w with Some _ => w | None => set_err e w end.

Definition to_doc_line (code_line : Z) : option Z := add_i32 (to_i32 code_line) line_offset.

(** Not invalid and not disabled. *)
Definition is_live (bp : Breakpoint) : bool :=
  match state bp with Invalid _ | Disabled => false | _ => true end.

Definition is_available (consumed : gset Z) (bp : Breakpoint) : bool :=
  bool_decide (id bp ∉ consumed) && is_live bp.

(** Does the breakpoint anchor to the expression? *)
Definition matches (consumed : gset Z) (prev_doc_end expr_last_line : Z) (bp : Breakpoint) : bool :=
  is_available consumed bp && bool_decide (line bp ≤ expr_last_line) &&
    bool_decide (prev_doc_end ≤ to_i32 (line bp)).

Definition has_breakpoints_in_range (start stop : Z) (bps : list Breakpoint) : bool :=
  existsb (λ bp, is_live bp && bool_decide (start ≤ to_i32 (line bp) < stop)) bps.

(** What the loop over the expressions carries. *)
Record ListState := mkListState {
  ls_rewriter : Rewriter;
  ls_slots : list Slot;
  needs_line_directive : bool;
  prev_doc_end : Z;
  ls_failed : bool;
}.

Definition list_fail (e : AnnotateError) (st : ListState) : ListState :=
  mkListState (fail e (ls_rewriter st)) (ls_slots st) (needs_line_directive st) (prev_doc_end st) true.

(** [add_line_directive_to_node], when it is needed: the line of the
    directive, or an error. *)
Definition line_directive (needed : bool) (doc_line : Z) : option (AnnotateError + option Z) :=
  if negb needed then Some (inr None)
  else if bool_decide (doc_line < 0) then Some (inl (NegativeDirective doc_line))
  else line ← add_u32 doc_line 1; Some (inr (Some line)).

(** [create_verify_call] of a range clamped at zero. *)
Definition verify_call (start stop : Z) : option Slot :=
  first ← add_u32 (Z.max start 0) 1;
  last ← add_u32 (Z.max stop 0) 1;
  Some (VerifyCall first last).

(** One expression; [is_last] for the last of the list. *)
Definition annotate_expr (info : ExprLineInfo) (is_last : bool) (st : ListState) : option ListState :=
  expr_doc_start ← to_doc_line (expr_start info);
  expr_doc_end ← to_doc_line (expr_end info);
  last_line ← add_i32 expr_doc_end (-1);
  if bool_decide (last_line < 0) then Some (list_fail (NegativeLastLine last_line) st)
  else
    let w := ls_rewriter st in
    let matching bp := matches (consumed w) (prev_doc_end st) last_line bp in
    let found := filter (λ bp, matching bp) (rw_breakpoints w) in
    let anchor bp := if matching bp then set_anchor (to_u32 expr_doc_start) bp else bp in
    let w := mkRewriter (anchor <$> rw_breakpoints w) (list_to_set (id <$> found) ∪ consumed w)
               (brace_stack w) (err w) (rw_lists w) in
    let '(slots, directive) :=
      match found with
      | [] => (ls_slots st, needs_line_directive st)
      | first_bp :: _ => (ls_slots st ++ [BreakpointCall (id first_bp)], true)
      end in
    let st := mkListState w slots directive (prev_doc_end st) (ls_failed st) in
    directive_line ← line_directive directive expr_doc_start;
    match directive_line with
    | inl e => Some (list_fail e st)
    | inr line =>
        let slots := slots ++ [SlotExpr line] in
        if negb is_last && has_breakpoints_in_range expr_doc_start expr_doc_end (rw_breakpoints w) then
          call ← verify_call expr_doc_start expr_doc_end;
          Some (mkListState w (slots ++ [call]) true expr_doc_end (ls_failed st))
        else Some (mkListState w slots false expr_doc_end (ls_failed st))
    end.

(** [return self.fail(...)] leaves the loop. *)
Fixpoint annotate_exprs (infos : list ExprLineInfo) (st : ListState) : option ListState :=
  match infos with
  | [] => Some st
  | info :: infos =>
      st ← annotate_expr info (bool_decide (infos = [])) st;
      if ls_failed st then Some st else annotate_exprs infos st
  end.

Definition annotate_braced_list (brace_code_line : Z) (infos : list ExprLineInfo) w : option Rewriter :=
  brace_doc_start ← to_doc_line brace_code_line;
  floor ← add_i32 brace_doc_start 1;
  st ← annotate_exprs infos (mkListState w [] false floor false);
  let w := ls_rewriter st in
  if ls_failed st then Some w
  else Some (mkRewriter (rw_breakpoints w) (consumed w) (brace_stack w) (err w)
               (rw_lists w ++ [ls_slots st])).

(** The bounds are those of the callers, never [None]. *)
Definition mark_breakpoints_invalid (start stop : Z) (reason : InvalidReason) w : Rewriter :=
  let mark bp :=
    if is_available (consumed w) bp && bool_decide (start ≤ to_i32 (line bp) ≤ stop)
    then set_state (Invalid reason) bp else bp in
  mkRewriter (mark <$> rw_breakpoints w) (consumed w) (brace_stack w) (err w) (rw_lists w).

(** Braces without expressions. *)
Definition leave_empty (frame : BraceFrame) w : option Rewriter :=
  brace_doc_start ← to_doc_line (brace_code_line frame);
  closing_doc_line ← to_doc_line (closing_brace_code_line frame);
  inner_start ← add_i32 brace_doc_start 1;
  inner_end ← add_i32 closing_doc_line (-1);
  let w := if bool_decide (inner_start ≤ inner_end)
           then mark_breakpoints_invalid inner_start inner_end EmptyBraces w else w in
  Some (if bool_decide (brace_doc_start < closing_doc_line)
        then mark_breakpoints_invalid closing_doc_line closing_doc_line ClosingBrace w else w).

Definition leave_braces (frame : BraceFrame) (last_info : ExprLineInfo) w : option Rewriter :=
  brace_doc_start ← to_doc_line (brace_code_line frame);
  brace_doc_end ← to_doc_line (expr_end last_info);
  w ← annotate_braced_list (brace_code_line frame) (expr_info frame) w;
  invalidation_floor ← add_i32 brace_doc_start 1;
  Some (mark_breakpoints_invalid invalidation_floor brace_doc_end ClosingBrace w).

Definition set_brace_stack (frames : list BraceFrame) w : Rewriter :=
  mkRewriter (rw_breakpoints w) (consumed w) frames (err w) (rw_lists w).

Definition visit (v : Visit) w : option Rewriter :=
  match err w with
  | Some _ => Some w
  | None =>
      match v with
      | EnterBraces (inl e) => Some (set_err e w)
      | EnterBraces (inr frame) => Some (set_brace_stack (frame :: brace_stack w) w)
      | LeaveList =>
          match brace_stack w with
          | [] => Some w
          | frame :: frames =>
              let w := set_brace_stack frames w in
              match last (expr_info frame) with
              | None => leave_empty frame w
              | Some last_info => leave_braces frame last_info w
              end
          end
      end
  end.

Definition transform (walk : list Visit) (bps : list Breakpoint) : option Rewriter :=
  foldM visit walk (rewriter_new bps).

End rewriter.

(** ** Annotation of code to run *)

Section annotate.
Context `{BP : BuildProfile} `{B3 : Blake3} `{RO : RObjects}.
Implicit Types d : Dap.

(** The breakpoints after, the lists or the error. [walk] is [None] when the
    code does not parse. *)
Definition annotate (line_offset : Z) (walk : option (list Visit)) (bps : list Breakpoint)
    : option (list Breakpoint * (AnnotateError + list (list Slot))) :=
  match walk with
  | None => Some (bps, inl ParseFailed)
  | Some walk =>
      w ← transform line_offset walk bps;
      Some (rw_breakpoints w, match err w with Some e => inl e | None => inr (rw_lists w) end)
  end.

(** [annotate_braced_block] of the code in braces. *)
Definition annotate_braced_block : option (list Visit) → list Breakpoint →
    option (list Breakpoint * (AnnotateError + list (list Slot))) := annotate (-1).

(** [ps_annotate_source]: [None] inside for code left as it is. *)
Definition ps_annotate_source (fs : Fs) (walk : option (list Visit)) (path : FilePath) d
    : option (option (AnnotateError + list (list Slot)) * Dap) :=
  match bpm_get_mut fs (dap_breakpoints d) path with
  | None => Some (None, d)
  | Some (primary, entry) =>
      if bool_decide (breakpoints entry = []) then Some (None, d)
      else
        '(bps, result) ← annotate_braced_block walk (breakpoints entry);
        let d := write_entry d primary (set_breakpoints bps entry) in
        match result with
        | inl e => Some (Some (inl e), d)
        | inr lists =>
            d ← notify_invalid_breakpoints fs path d;
            Some (Some (inr lists), remove_disabled_breakpoints fs path d)
        end
  end.

(** The console annotates an input at [start_line] of a document, or in braces
    when it is a notebook cell with breakpoints; [parsed] tells whether R
    parses the result. *)
Definition annotate_console_input (fs : Fs) (walk : option (list Visit)) (start_line : Z)
    (notebook_cell parsed : bool) (path : FilePath) d : option Dap :=
  d ← match bpm_get_mut fs (dap_breakpoints d) path with
      | None => Some d
      | Some (primary, entry) =>
          let bps := breakpoints entry in
          let offset := if notebook_cell && bool_decide (bps ≠ []) then -1 else to_i32 start_line in
          '(bps, _) ← annotate offset walk bps;
          Some (write_entry d primary (set_breakpoints bps entry))
      end;
  if parsed : bool then
    d ← notify_invalid_breakpoints fs path d;
    Some (remove_disabled_breakpoints fs path d)
  else Some d.

End annotate.


Lemma none_union {A} (x : option A) : None ∪ x = x.
Proof. by destruct x. Qed.
Lemma some_union {A} (x : A) y : Some x ∪ y = Some x.
Proof. by destruct y. Qed.

(** ** Braces and their walk *)

(** Braces side by side, each with the lines of its braces and its expressions;
    an expression has its lines and the braces in it. *)
Inductive braces :=
| BNil
| BCons (open close : Z) (body : exprs) (rest : braces)
with exprs :=
| ENil
| ECons (start stop : Z) (nested : braces) (rest : exprs).

Scheme braces_mut := Induction for braces Sort Prop
with exprs_mut := Induction for exprs Sort Prop.
Combined Scheme braces_exprs_ind from braces_mut, exprs_mut.

Fixpoint infos (es : exprs) : list ExprLineInfo :=
  match es with ENil => [] | ECons s e _ rest => mkInfoLine s e :: infos rest end.

(** The calls of the visitor, in order. *)
Fixpoint walk_of (bs : braces) : list Visit :=
  match bs with
  | BNil => []
  | BCons o c body rest =>
      EnterBraces (inr (mkFrameLines o c (infos body))) :: walk_exprs body ++ LeaveList :: walk_of rest
  end
with walk_exprs (es : exprs) : list Visit :=
  match es with ENil => [] | ECons _ _ nested rest => walk_of nested ++ walk_exprs rest end.

(** ** Placement *)

Inductive Placement := Anchored (line : Z) | Rejected (reason : InvalidReason).

Section place.
Variable off : Z.

(** The first expression whose lines reach [l], from the end of the one before. *)
Fixpoint place_in (prev : Z) (es : list ExprLineInfo) (l : Z) : option Placement :=
  match es with
  | [] => None
  | info :: es =>
      if bool_decide (prev ≤ l < expr_end info + off) then Some (Anchored (expr_start info + off))
      else place_in (expr_end info + off) es l
  end.

Definition reject (start stop : Z) (reason : InvalidReason) (l : Z) : option Placement :=
  if bool_decide (start ≤ l ≤ stop) then Some (Rejected reason) else None.

(** The list of the braces themselves. *)
Definition place_own (o c : Z) (es : list ExprLineInfo) (l : Z) : option Placement :=
  match last es with
  | None => reject (o + off + 1) (c + off - 1) EmptyBraces l
            ∪ (if bool_decide (o < c) then reject (c + off) (c + off) ClosingBrace l else None)
  | Some info => place_in (o + off + 1) es l
                 ∪ reject (o + off + 1) (expr_end info + off) ClosingBrace l
  end.

(** Inner braces come first. *)
Fixpoint place (bs : braces) (l : Z) : option Placement :=
  match bs with
  | BNil => None
  | BCons o c body rest => place_exprs body l ∪ (place_own o c (infos body) l ∪ place rest l)
  end
with place_exprs (es : exprs) (l : Z) : option Placement :=
  match es with ENil => None | ECons _ _ nested rest => place nested l ∪ place_exprs rest l end.
End place.

Definition placed (p : option Placement) (bp : Breakpoint) : Breakpoint :=
  match p with
  | None => bp
  | Some (Anchored l) => set_anchor l bp
  | Some (Rejected reason) => set_state (Invalid reason) bp
  end.

(** ** Lines of a document *)

(** Code of fewer than 2^30 lines, at most that far down a document. *)
Definition line_ok (n : Z) : Prop := 0 ≤ n < 2 ^ 30.

Definition info_ok (off : Z) (info : ExprLineInfo) : Prop :=
  line_ok (expr_start info) ∧ line_ok (expr_end info) ∧ 0 ≤ expr_start info + off ∧
  expr_start info < expr_end info.

Fixpoint braces_ok (off : Z) (bs : braces) : Prop :=
  match bs with
  | BNil => True
  | BCons o c body rest => line_ok o ∧ line_ok c ∧ exprs_ok off body ∧ braces_ok off rest
  end
with exprs_ok (off : Z) (es : exprs) : Prop :=
  match es with
  | ENil => True
  | ECons s e nested rest => info_ok off (mkInfoLine s e) ∧ braces_ok off nested ∧ exprs_ok off rest
  end.

Lemma infos_ok off es : exprs_ok off es → Forall (info_ok off) (infos es).
Proof. induction es; cbn; [constructor|]. intros (? & _ & ?). constructor; auto. Qed.

Lemma to_i32_small n : - 2 ^ 31 ≤ n < 2 ^ 31 → to_i32 n = n.
Proof. intros. unfold to_i32. rewrite Z.mod_small by lia. lia. Qed.

Lemma to_i32_range l a b :
  0 ≤ l < 2 ^ 32 → 0 ≤ a → b < 2 ^ 31 → (a ≤ to_i32 l ≤ b ↔ a ≤ l ≤ b).
Proof.
  intros Hl Ha Hb. destruct (decide (l < 2 ^ 31)); [by rewrite to_i32_small by lia|].
  assert (to_i32 l = l - 2 ^ 32); [|lia].
  unfold to_i32. replace (l + 2 ^ 31) with (l - 2 ^ 31 + 1 * 2 ^ 32) by lia.
  rewrite Z.mod_add, Z.mod_small by lia. lia.
Qed.

Section rewriter.
Context `{BP : BuildProfile}.
Variable off : Z.
Hypothesis off_ok : -1 ≤ off < 2 ^ 30.

Lemma add_i32_exact a b : - 2 ^ 31 ≤ a + b < 2 ^ 31 → add_i32 a b = Some (a + b).
Proof. intros. unfold add_i32, overflowing. rewrite bool_decide_true by lia. done. Qed.

Lemma to_doc_line_exact n : line_ok n → to_doc_line off n = Some (n + off).
Proof. intros []. unfold to_doc_line. rewrite to_i32_small, add_i32_exact by lia. done. Qed.

(** ** What the rewriter has done so far *)

Variable bps : list Breakpoint.
Hypothesis bps_ids : NoDup (id <$> bps).
Hypothesis bps_lines : Forall (λ bp, 0 ≤ line bp < 2 ^ 32) bps.

Abbreviation Status := (Breakpoint → option Placement).

(** Each live breakpoint without a placement gets the one of its line. *)
Definition then_place (st : Status) (p : Z → option Placement) : Status :=
  λ bp, st bp ∪ (if is_live bp then p (line bp) else None).

Definition anchored (st : Status) (i : Z) : Prop :=
  ∃ bp l, bp ∈ bps ∧ id bp = i ∧ st bp = Some (Anchored l).

Record Done (st : Status) (slots : list Slot) (w : Rewriter) : Prop := {
  dn_live bp : is_live bp = false → st bp = None;
  dn_breakpoints : rw_breakpoints w = (λ bp, placed (st bp) bp) <$> bps;
  dn_consumed i : i ∈ consumed w ↔ anchored st i;
  dn_err : err w = None;
  dn_calls i : BreakpointCall i ∈ concat (rw_lists w) ++ slots → anchored st i;
  dn_called bp l : bp ∈ bps → st bp = Some (Anchored l) →
    ∃ bp', bp' ∈ bps ∧ st bp' = Some (Anchored l) ∧ BreakpointCall (id bp') ∈ concat (rw_lists w) ++ slots;
}.

Lemma placed_id p bp : id (placed p bp) = id bp.
Proof. by destruct p as [[]|]. Qed.

Lemma bp_of_id bp bp' : bp ∈ bps → bp' ∈ bps → id bp = id bp' → bp = bp'.
Proof.
  intros (i & Hi)%list_elem_of_lookup (j & Hj)%list_elem_of_lookup He.
  assert (i = j) as ->; [|congruence].
  eapply NoDup_lookup; [exact bps_ids| |]; rewrite list_lookup_fmap; [by rewrite Hi|by rewrite Hj, He].
Qed.

(** Available are the live breakpoints that have no placement. *)
Lemma available_spec st slots w bp :
  Done st slots w → bp ∈ bps →
  is_available (consumed w) (placed (st bp) bp) = bool_decide (st bp = None) && is_live bp.
Proof.
  intros [Hlive _ Hcons _ _ _] Hbp. unfold is_available. rewrite placed_id.
  destruct (st bp) as [[l|reason]|] eqn:E; cbn.
  - rewrite bool_decide_false; [done|]. intros Hn. apply Hn, Hcons. by exists bp, l.
  - by rewrite andb_false_r.
  - rewrite bool_decide_true; [done|]. intros (bp' & l & Hbp' & Hid & Hs)%Hcons.
    rewrite (bp_of_id bp' bp Hbp' Hbp Hid) in Hs. congruence.
Qed.

Lemma Done_ext st st' slots w : (∀ bp, st bp = st' bp) → Done st slots w → Done st' slots w.
Proof.
  intros He [Hlive Hb Hc Herr Hcalls Hcalled].
  assert (Ha : ∀ i, anchored st i ↔ anchored st' i).
  { intros i. unfold anchored. by setoid_rewrite He. }
  split.
  - intros bp. rewrite <- He. apply Hlive.
  - rewrite Hb. apply list_fmap_ext. intros _ bp _. by rewrite He.
  - intros i. by rewrite Hc, Ha.
  - done.
  - intros i Hi. by apply Ha, Hcalls.
  - intros bp l Hbp. rewrite <- He. intros (bp' & ? & ? & ?)%Hcalled; [|done]. exists bp'. by rewrite <- He.
Qed.

Lemma then_place_then st p q bp :
  then_place (then_place st p) q bp = then_place st (λ l, p l ∪ q l) bp.
Proof.
  unfold then_place. destruct (st bp), (is_live bp); try done.
  - by rewrite !some_union.
  - by rewrite !none_union.
Qed.

Lemma then_place_none st bp : then_place st (λ _, None) bp = st bp.
Proof. unfold then_place. destruct (st bp), (is_live bp); done. Qed.

Lemma then_place_ext st p q bp :
  (∀ l, p l = q l) → then_place st p bp = then_place st q bp.
Proof. intros He. unfold then_place. by rewrite He. Qed.

(** One step of placement keeps the record, given what it does to each
    breakpoint and the calls it adds. *)
Lemma Done_step st p slots w slots' w' :
  Done st slots w →
  rw_breakpoints w' = (λ bp, placed (then_place st p bp) bp) <$> bps →
  (∀ i, i ∈ consumed w' ↔ i ∈ consumed w ∨
    ∃ bp l, bp ∈ bps ∧ id bp = i ∧ st bp = None ∧ is_live bp = true ∧ p (line bp) = Some (Anchored l)) →
  err w' = None →
  (∀ i, BreakpointCall i ∈ concat (rw_lists w') ++ slots' →
    BreakpointCall i ∈ concat (rw_lists w) ++ slots ∨
    ∃ bp l, bp ∈ bps ∧ id bp = i ∧ st bp = None ∧ is_live bp = true ∧ p (line bp) = Some (Anchored l)) →
  (∀ i, BreakpointCall i ∈ concat (rw_lists w) ++ slots → BreakpointCall i ∈ concat (rw_lists w') ++ slots') →
  (∀ bp l, bp ∈ bps → st bp = None → is_live bp = true → p (line bp) = Some (Anchored l) →
    ∃ bp', bp' ∈ bps ∧ then_place st p bp' = Some (Anchored l) ∧
      BreakpointCall (id bp') ∈ concat (rw_lists w') ++ slots') →
  Done (then_place st p) slots' w'.
Proof.
  intros [Hlive Hb Hc Herr Hcalls Hcalled] Hb' Hc' Herr' Hnew Hkeep Hcov.
  assert (Hst : ∀ bp x, st bp = Some x → then_place st p bp = Some x).
  { intros bp x Hx. unfold then_place. by rewrite Hx, some_union. }
  assert (Hanch : ∀ i, anchored (then_place st p) i ↔ anchored st i ∨
    ∃ bp l, bp ∈ bps ∧ id bp = i ∧ st bp = None ∧ is_live bp = true ∧ p (line bp) = Some (Anchored l)).
  { intros i. split.
    - intros (bp & l & Hbp & Hi & Hx). unfold then_place in Hx. destruct (st bp) as [y|] eqn:E.
      + left. exists bp, l. split; [done|]. split; [done|].
        rewrite E. by rewrite some_union in Hx.
      + right. exists bp, l. rewrite none_union in Hx. destruct (is_live bp) eqn:El; done.
    - intros [(bp & l & ? & ? & Hx)|(bp & l & ? & ? & Hn & Hl & Hp)]; exists bp, l; (split; [done|]; split; [done|]).
      + by apply Hst.
      + unfold then_place. rewrite Hn, Hl, Hp. done. }
  split.
  - intros bp Hl. unfold then_place. rewrite Hl, (Hlive bp Hl). done.
  - done.
  - intros i. by rewrite Hc', Hc, Hanch.
  - done.
  - intros i [Hi|Hi]%Hnew; apply Hanch; [left; by apply Hcalls|by right].
  - intros bp l Hbp Hx. unfold then_place in Hx. destruct (st bp) as [y|] eqn:E.
    + destruct (Hcalled bp l Hbp) as (bp' & ? & ? & ?).
      { rewrite E. by rewrite some_union in Hx. }
      exists bp'. split; [done|]. split; [by apply Hst|by apply Hkeep].
    + rewrite none_union in Hx. destruct (is_live bp) eqn:El; [|done]. by apply (Hcov bp l).
Qed.

(** Updating the breakpoints that are available and satisfy [q]. *)
Lemma update_available st slots w (q : Breakpoint → bool) (pl : Placement) (p : Z → option Placement) :
  Done st slots w →
  (∀ bp, bp ∈ bps → q bp = bool_decide (is_Some (p (line bp)))) →
  (∀ bp, bp ∈ bps → ∀ x, p (line bp) = Some x → x = pl) →
  (λ bp, if is_available (consumed w) bp && q bp then placed (Some pl) bp else bp) <$> rw_breakpoints w =
  (λ bp, placed (then_place st p bp) bp) <$> bps.
Proof.
  intros Hd Hq Hp. rewrite (dn_breakpoints _ _ _ Hd), <- list_fmap_compose.
  apply list_fmap_ext. intros i bp Hbp%list_elem_of_lookup_2. cbn.
  rewrite (available_spec _ _ _ _ Hd Hbp). unfold then_place.
  destruct (st bp) as [x|] eqn:E.
  - rewrite bool_decide_false by done. by rewrite some_union.
  - rewrite bool_decide_true by done. cbn [placed andb]. rewrite none_union.
    destruct (is_live bp); [|done]. rewrite Hq by done. cbn [andb].
    destruct (p (line bp)) as [x|] eqn:Ep.
    + rewrite bool_decide_true by eauto. by rewrite (Hp _ Hbp x Ep).
    + rewrite bool_decide_false by (by intros []). done.
Qed.

Lemma line_range bp a b :
  bp ∈ bps → 0 ≤ a → b < 2 ^ 31 → bool_decide (a ≤ to_i32 (line bp) ≤ b) = bool_decide (a ≤ line bp ≤ b).
Proof.
  intros Hbp Ha Hb. apply bool_decide_ext, to_i32_range; [|done..].
  rewrite Forall_forall in bps_lines. by apply bps_lines.
Qed.

Lemma mark_done st slots w a b reason :
  Done st slots w → 0 ≤ a → b < 2 ^ 31 →
  Done (then_place st (reject a b reason)) slots (mark_breakpoints_invalid a b reason w).
Proof.
  intros Hd Ha Hb.
  assert (Hnone : ∀ l n, reject a b reason l = Some (Anchored n) → False).
  { intros l n. unfold reject. by case_bool_decide. }
  apply (Done_step st _ slots w); [done| | |apply Hd|by left|done|].
  - unfold mark_breakpoints_invalid. cbn [rw_breakpoints].
    etrans; [|apply (update_available st slots w (λ bp, bool_decide (a ≤ line bp ≤ b)) (Rejected reason)); [done|..]].
    + apply list_fmap_ext. intros i bp Hbp%list_elem_of_lookup_2.
      rewrite (dn_breakpoints _ _ _ Hd) in Hbp. apply list_elem_of_fmap in Hbp as (bp0 & -> & Hbp).
      rewrite (available_spec _ _ _ _ Hd Hbp). destruct (st bp0) eqn:E; [by rewrite bool_decide_false|].
      cbn [placed]. by rewrite line_range.
    + intros bp _. unfold reject. case_bool_decide; symmetry; [apply bool_decide_true; eauto|].
      apply bool_decide_false. by intros [].
    + intros bp _ x. unfold reject. case_bool_decide; [|done]. by intros [= <-].
  - intros i. cbn. split; [by left|]. intros [?|(bp & l & _ & _ & _ & _ & []%Hnone)]. done.
  - by intros bp l _ _ _ []%Hnone.
Qed.

Lemma Done_slots st slots slots' w :
  (∀ i, BreakpointCall i ∈ slots' ↔ BreakpointCall i ∈ slots) → Done st slots w → Done st slots' w.
Proof.
  intros Hs [Hlive Hb Hc Herr Hcalls Hcalled]. split; try done.
  - intros i. rewrite elem_of_app, Hs, <- elem_of_app. apply Hcalls.
  - intros bp l Hbp (bp' & ? & ? & Hin)%Hcalled; [|done]. exists bp'. split; [done|]. split; [done|].
    by rewrite elem_of_app, Hs, <- elem_of_app.
Qed.

(** ** Expressions *)

(** The lines that anchor to an expression. *)
Definition one_expr (prev : Z) (info : ExprLineInfo) (l : Z) : option Placement :=
  if bool_decide (prev ≤ l < expr_end info + off) then Some (Anchored (expr_start info + off)) else None.

Lemma matches_spec st slots w prev info bp :
  Done st slots w → 0 ≤ prev → info_ok off info → bp ∈ bps →
  matches (consumed w) prev (expr_end info + off - 1) (placed (st bp) bp) =
  bool_decide (st bp = None) && is_live bp && bool_decide (is_Some (one_expr prev info (line bp))).
Proof.
  intros Hd Hp (_ & [? ?] & _ & _) Hbp. unfold matches. rewrite (available_spec _ _ _ _ Hd Hbp).
  destruct (st bp) eqn:E; [by rewrite bool_decide_false|]. cbn [placed].
  rewrite bool_decide_true by done. destruct (is_live bp); [|done]. cbn [andb].
  assert (Hl : 0 ≤ line bp < 2 ^ 32) by (rewrite Forall_forall in bps_lines; by apply bps_lines).
  apply eq_iff_eq_true. rewrite andb_true_iff, !bool_decide_eq_true. unfold one_expr.
  assert (line bp ≤ expr_end info + off - 1 → to_i32 (line bp) = line bp)
    by (intros; apply to_i32_small; lia).
  case_bool_decide; split.
  - eauto.
  - intros _. split; [lia|]. rewrite H1; lia.
  - intros [? ?]. exfalso. lia.
  - by intros [].
Qed.

Lemma found_spec st slots w prev info b :
  Done st slots w → 0 ≤ prev → info_ok off info →
  b ∈ filter (λ b, matches (consumed w) prev (expr_end info + off - 1) b) (rw_breakpoints w) ↔
  b ∈ bps ∧ st b = None ∧ is_live b = true ∧ one_expr prev info (line b) = Some (Anchored (expr_start info + off)).
Proof.
  intros Hd Hp Hi. rewrite list_elem_of_filter, (dn_breakpoints _ _ _ Hd), list_elem_of_fmap. split.
  - intros [Hm (bp & -> & Hbp)]. rewrite (matches_spec st slots) in Hm by done.
    apply Is_true_true, andb_true_iff in Hm as [[Hn Hl]%andb_true_iff Ho].
    apply bool_decide_eq_true in Hn, Ho. rewrite Hn. cbn [placed]. do 3 (split; [done|]).
    destruct Ho as [x Hx]. revert Hx. unfold one_expr. by case_bool_decide.
  - intros (Hb & Hn & Hl & Ho). split; [|exists b; by rewrite Hn].
    assert (b = placed (st b) b) as Hpl by by rewrite Hn.
    rewrite Hpl. rewrite (matches_spec st slots), Hn, Hl, Ho by done. done.
Qed.

(** Anchoring the breakpoints of one expression, with the call for the first. *)
Lemma anchor_done st slots w prev info slots' :
  Done st slots w → 0 ≤ prev → info_ok off info →
  let found := filter (λ b, matches (consumed w) prev (expr_end info + off - 1) b) (rw_breakpoints w) in
  (∀ i, BreakpointCall i ∈ slots' ↔ BreakpointCall i ∈ slots ∨ Some i = id <$> head found) →
  Done (then_place st (one_expr prev info)) slots'
    (mkRewriter
      ((λ b, if matches (consumed w) prev (expr_end info + off - 1) b
             then set_anchor (to_u32 (expr_start info + off)) b else b) <$> rw_breakpoints w)
      (list_to_set (id <$> found) ∪ consumed w) (brace_stack w) (err w) (rw_lists w)).
Proof.
  intros Hd Hp Hi found Hs. pose proof Hi as ([? ?] & [? ?] & ? & ?).
  assert (Hu : to_u32 (expr_start info + off) = expr_start info + off)
    by (unfold to_u32; apply Z.mod_small; lia).
  assert (Hfound : ∀ b, b ∈ found ↔ b ∈ bps ∧ st b = None ∧ is_live b = true ∧
    one_expr prev info (line b) = Some (Anchored (expr_start info + off)))
    by (intros b; by apply (found_spec st slots)).
  assert (Hone : ∀ l x, one_expr prev info l = Some x → x = Anchored (expr_start info + off)).
  { intros l x. unfold one_expr. case_bool_decide; [|done]. by intros [= <-]. }
  apply (Done_step st _ slots w); [done| | |apply Hd| | |].
  - cbn [rw_breakpoints]. rewrite Hu.
    etrans; [|apply (update_available st slots w (λ b, bool_decide (is_Some (one_expr prev info (line b))))
      (Anchored (expr_start info + off))); [done|done|intros b _; apply Hone]].
    apply list_fmap_ext. intros i b Hb%list_elem_of_lookup_2.
    rewrite (dn_breakpoints _ _ _ Hd) in Hb. apply list_elem_of_fmap in Hb as (bp & -> & Hbp).
    rewrite (matches_spec st slots), (available_spec _ _ _ _ Hd Hbp) by done.
    destruct (st bp) eqn:E; [by rewrite bool_decide_false|]. by rewrite bool_decide_true by done.
  - intros i. cbn [consumed]. rewrite elem_of_union, elem_of_list_to_set, list_elem_of_fmap. split.
    + intros [(b & -> & (? & ? & ? & ?)%Hfound)|?]; [|by left]. right. by exists b, (expr_start info + off).
    + intros [?|(b & l & ? & <- & ? & ? & Ho)]; [by right|]. left. exists b. split; [done|].
      apply Hfound. rewrite Ho. by rewrite (Hone _ _ Ho).
  - cbn [rw_lists]. intros i [?|Hin]%elem_of_app; [left; by apply elem_of_app; left|].
    apply Hs in Hin as [?|Hh]; [left; by apply elem_of_app; right|]. right.
    symmetry in Hh. apply fmap_Some in Hh as (b & Hb%head_Some_elem_of & ->).
    apply Hfound in Hb as (? & ? & ? & ?). by exists b, (expr_start info + off).
  - cbn [rw_lists]. intros i [?|?]%elem_of_app; apply elem_of_app; [by left|right; apply Hs; by left].
  - intros b l Hb Hn Hl Ho. assert (Hin : b ∈ found) by (apply Hfound; by rewrite (Hone _ _ Ho) in Ho).
    destruct found as [|b' found'] eqn:Ef; [by apply not_elem_of_nil in Hin|].
    assert (Hb' : b' ∈ b' :: found') by by left.
    apply Hfound in Hb' as (? & Hn' & Hl' & Ho'). exists b'. split; [done|]. split.
    + unfold then_place. rewrite Hn', Hl', none_union, Ho'. by rewrite (Hone _ _ Ho).
    + apply elem_of_app. right. apply Hs. by right.
Qed.

Lemma add_u32_exact a b : 0 ≤ a + b < 2 ^ 32 → add_u32 a b = Some (a + b).
Proof. intros. unfold add_u32, overflowing. by rewrite bool_decide_true by lia. Qed.

(** What stays the same in a list that does not fail. *)
Definition same_list (w w' : Rewriter) : Prop :=
  brace_stack w' = brace_stack w ∧ rw_lists w' = rw_lists w.

Lemma annotate_expr_done st info is_last ls :
  Done st (ls_slots ls) (ls_rewriter ls) → ls_failed ls = false → 0 ≤ prev_doc_end ls → info_ok off info →
  ∃ ls', annotate_expr off info is_last ls = Some ls' ∧ ls_failed ls' = false ∧
    prev_doc_end ls' = expr_end info + off ∧ same_list (ls_rewriter ls) (ls_rewriter ls') ∧
    Done (then_place st (one_expr (prev_doc_end ls) info)) (ls_slots ls') (ls_rewriter ls').
Proof.
  intros Hd Hf Hp Hi. pose proof Hi as (Hs & He & ? & ?). pose proof Hs as [? ?]. pose proof He as [? ?].
  unfold annotate_expr. rewrite !to_doc_line_exact by done. cbn [mbind option_bind].
  rewrite add_i32_exact by lia. cbn [mbind option_bind]. rewrite bool_decide_false by lia.
  replace (expr_end info + off + -1) with (expr_end info + off - 1) by lia.
  destruct ls as [w slots directive prev failed]. cbn [ls_rewriter ls_slots needs_line_directive prev_doc_end ls_failed] in *.
  subst failed. pose proof (anchor_done st slots w prev info) as Hanch.
  set (found := filter _ (rw_breakpoints w)) in *. cbv zeta.
  set (w' := mkRewriter (_ <$> rw_breakpoints w) _ (brace_stack w) (err w) (rw_lists w)).
  set (start := match found with [] => (slots, directive) | _ :: _ => _ end).
  assert (Hstart : ∀ i, BreakpointCall i ∈ start.1 ↔ BreakpointCall i ∈ slots ∨ Some i = id <$> head found).
  { intros i. unfold start. destruct found as [|b ?]; cbn [fst head fmap option_fmap option_map];
      [naive_solver|]. rewrite elem_of_app, list_elem_of_singleton. naive_solver. }
  clearbody start. destruct start as [slots' directive']. cbn [fst] in Hstart.
  specialize (Hanch slots' Hd Hp Hi Hstart). fold w' in Hanch.
  assert (∃ line, line_directive directive' (expr_start info + off) = Some (inr line)) as [line ->].
  { unfold line_directive. destruct directive'; cbn [negb]; [|eauto].
    rewrite bool_decide_false, add_u32_exact by lia. cbn. eauto. }
  cbn [mbind option_bind].
  assert (Hadd : ∀ more, (∀ i, BreakpointCall i ∉ more) →
    Done (then_place st (one_expr prev info)) (slots' ++ more) w').
  { intros more Hm. eapply Done_slots; [|exact Hanch]. intros i. rewrite elem_of_app. naive_solver. }
  case_match.
  - unfold verify_call. rewrite !add_u32_exact by lia. cbn [mbind option_bind].
    eexists. split; [done|]. cbn. split; [done|]. split; [done|]. split; [done|].
    rewrite <- (assoc_L (++)). apply Hadd. intros i. cbn. intros [?|[?|[]%not_elem_of_nil]%elem_of_cons]%elem_of_cons; done.
  - eexists. split; [done|]. cbn. do 3 (split; [done|]).
    apply Hadd. intros i ?%list_elem_of_singleton. done.
Qed.

Lemma annotate_exprs_done st es ls :
  Done st (ls_slots ls) (ls_rewriter ls) → ls_failed ls = false → 0 ≤ prev_doc_end ls →
  Forall (info_ok off) es →
  ∃ ls', annotate_exprs off es ls = Some ls' ∧ ls_failed ls' = false ∧
    same_list (ls_rewriter ls) (ls_rewriter ls') ∧
    Done (then_place st (place_in off (prev_doc_end ls) es)) (ls_slots ls') (ls_rewriter ls').
Proof.
  revert st ls. induction es as [|info es IH]; intros st ls Hd Hf Hp Hes; cbn [annotate_exprs].
  - exists ls. do 3 (split; [done|]). eapply Done_ext; [|exact Hd]. intros bp. by rewrite <- then_place_none.
  - apply Forall_cons in Hes as [Hi Hes].
    destruct (annotate_expr_done st info (bool_decide (es = [])) ls Hd Hf Hp Hi)
      as (ls1 & -> & Hf1 & Hp1 & [Hb1 Hl1] & Hd1). cbn [mbind option_bind]. rewrite Hf1.
    destruct (IH _ ls1 Hd1 Hf1) as (ls2 & -> & Hf2 & [Hb2 Hl2] & Hd2); [|done|].
    { rewrite Hp1. destruct Hi as (_ & _ & ? & ?). lia. }
    exists ls2. split; [done|]. split; [done|]. split; [split; congruence|].
    eapply Done_ext; [|exact Hd2]. intros bp. rewrite then_place_then. apply then_place_ext. intros l.
    cbn [place_in]. rewrite Hp1. unfold one_expr. case_bool_decide; by rewrite ?some_union, ?none_union.
Qed.

Lemma annotate_braced_list_done st o es w :
  Done st [] w → line_ok o → Forall (info_ok off) es →
  ∃ w', annotate_braced_list off o es w = Some w' ∧ brace_stack w' = brace_stack w ∧
    Done (then_place st (place_in off (o + off + 1) es)) [] w'.
Proof.
  intros Hd Ho Hes. pose proof Ho as [? ?]. unfold annotate_braced_list.
  rewrite to_doc_line_exact by done. cbn [mbind option_bind]. rewrite add_i32_exact by lia. cbn [mbind option_bind].
  destruct (annotate_exprs_done st es (mkListState w [] false (o + off + 1) false) Hd)
    as (ls & -> & Hf & [Hb Hl] & [Hlive Hbp Hc He Hcalls Hcalled]); [done|cbn; lia|done|].
  cbn [mbind option_bind]. rewrite Hf. eexists. split; [done|]. split; [done|]. split; cbn [rw_breakpoints consumed err rw_lists]; try done.
  - intros i. rewrite app_nil_r, concat_app. cbn [concat]. rewrite app_nil_r. apply Hcalls.
  - intros bp l. rewrite app_nil_r, concat_app. cbn [concat]. rewrite app_nil_r. apply Hcalled.
Qed.

Lemma last_forall {A} (P : A → Prop) l x : Forall P l → last l = Some x → P x.
Proof. intros Hf [l' ->]%last_Some. by apply Forall_app in Hf as [_ [? _]%Forall_cons]. Qed.

(** ** Braces *)

Lemma leave_done st o c es frames w :
  Done st [] w → line_ok o → line_ok c → Forall (info_ok off) es → brace_stack w = mkFrameLines o c es :: frames →
  ∃ w', visit off LeaveList w = Some w' ∧ brace_stack w' = frames ∧
    Done (then_place st (place_own off o c es)) [] w'.
Proof.
  intros Hd Ho Hc Hes Hb. pose proof Ho as [? ?]. pose proof Hc as [? ?].
  unfold visit. rewrite (dn_err _ _ _ Hd), Hb. cbn [expr_info].
  assert (Hd0 : Done st [] (set_brace_stack frames w)) by (destruct Hd; by split).
  unfold place_own. destruct (last es) as [info|] eqn:El.
  - destruct (last_forall _ _ _ Hes El) as (_ & He & ? & ?). pose proof He as [? ?].
    unfold leave_braces. cbn [brace_code_line expr_info].
    rewrite !to_doc_line_exact by done. cbn [mbind option_bind].
    destruct (annotate_braced_list_done st o es _ Hd0 Ho Hes) as (w1 & -> & Hb1 & Hd1). cbn [mbind option_bind].
    rewrite add_i32_exact by lia. cbn [mbind option_bind]. eexists. split; [done|]. split; [done|].
    eapply Done_ext; [|apply mark_done; [exact Hd1|lia|lia]]. intros bp. apply then_place_then.
  - unfold leave_empty. cbn [brace_code_line closing_brace_code_line].
    rewrite !to_doc_line_exact by done. cbn [mbind option_bind]. rewrite !add_i32_exact by lia. cbn [mbind option_bind].
    eexists. split; [done|]. split; [repeat case_bool_decide; done|].
    set (w1 := if bool_decide (o + off + 1 ≤ _) then _ else _).
    assert (Hd1 : Done (then_place st (reject (o + off + 1) (c + off - 1) EmptyBraces)) [] w1).
    { unfold w1. case_bool_decide; [replace (c + off - 1) with (c + off + -1) by lia; apply mark_done; [done|lia|lia]|].
      eapply Done_ext; [|exact Hd0]. intros bp. rewrite <- (then_place_none st bp). apply then_place_ext. intros l.
      unfold reject. by rewrite bool_decide_false by lia. }
    clearbody w1. destruct (decide (o < c)).
    + rewrite (bool_decide_true (o < c)), (bool_decide_true (o + off < c + off)) by lia.
      eapply Done_ext; [|apply mark_done; [exact Hd1|lia|lia]]. intros bp. apply then_place_then.
    + rewrite (bool_decide_false (o < c)), (bool_decide_false (o + off < c + off)) by lia.
      eapply Done_ext; [|exact Hd1].
      intros bp. rewrite <- (then_place_none (then_place st _) bp). apply then_place_then.
Qed.

(** The walk of braces places by [place]. *)
Lemma walk_done :
  (∀ bs st w, Done st [] w → braces_ok off bs →
    ∃ w', foldM (visit off) (walk_of bs) w = Some w' ∧ brace_stack w' = brace_stack w ∧
      Done (then_place st (place off bs)) [] w') ∧
  (∀ es st w, Done st [] w → exprs_ok off es →
    ∃ w', foldM (visit off) (walk_exprs es) w = Some w' ∧ brace_stack w' = brace_stack w ∧
      Done (then_place st (place_exprs off es)) [] w').
Proof.
  apply braces_exprs_ind.
  - intros st w Hd _. exists w. do 2 (split; [done|]). eapply Done_ext; [|exact Hd].
    intros bp. symmetry. apply (then_place_none st bp).
  - intros o c body IHbody rest IHrest st w Hd (Ho & Hc & Hbody & Hrest). cbn [walk_of foldM].
    set (frame := mkFrameLines o c (infos body)).
    set (w0 := set_brace_stack (frame :: brace_stack w) w).
    assert (visit off (EnterBraces (inr frame)) w = Some w0) as ->.
    { unfold visit. by rewrite (dn_err _ _ _ Hd). }
    cbn [mbind option_bind]. assert (Hd0 : Done st [] w0) by (destruct Hd; by split).
    destruct (IHbody st w0 Hd0 Hbody) as (w1 & Hw1 & Hb1 & Hd1). rewrite foldM_app, Hw1. cbn [mbind option_bind foldM].
    destruct (leave_done _ o c (infos body) (brace_stack w) w1 Hd1 Ho Hc) as (w2 & -> & Hb2 & Hd2);
      [by apply infos_ok|by rewrite Hb1|]. cbn [mbind option_bind].
    destruct (IHrest _ w2 Hd2 Hrest) as (w3 & -> & Hb3 & Hd3). exists w3. split; [done|].
    split; [congruence|]. eapply Done_ext; [|exact Hd3]. intros bp. by rewrite !then_place_then.
  - intros st w Hd _. exists w. do 2 (split; [done|]). eapply Done_ext; [|exact Hd].
    intros bp. symmetry. apply (then_place_none st bp).
  - intros start stop nested IHnested rest IHrest st w Hd (_ & Hnested & Hrest). cbn [walk_exprs].
    destruct (IHnested st w Hd Hnested) as (w1 & Hw1 & Hb1 & Hd1). rewrite foldM_app, Hw1. cbn [mbind option_bind].
    destruct (IHrest _ w1 Hd1 Hrest) as (w2 & -> & Hb2 & Hd2). exists w2. split; [done|].
    split; [congruence|]. eapply Done_ext; [|exact Hd2]. intros bp. by rewrite then_place_then.
Qed.
End rewriter.

(** From the end of what comes before, expressions anchor every line up to the
    end of the last. *)
Lemma place_in_total off prev es info l :
  last es = Some info → prev ≤ l < expr_end info + off → is_Some (place_in off prev es l).
Proof.
  revert prev. induction es as [|i es IH]; intros prev; [done|]. intros Hl Hr. cbn [place_in].
  case_bool_decide; [eauto|]. destruct es as [|i' es]; [injection Hl as ->; lia|].
  apply IH; [done|]. lia.
Qed.

(** Code in braces: no line from the first to the one after the last expression
    is without a placement. *)
Lemma place_source_total c body info l :
  last (infos body) = Some info → 0 ≤ l ≤ expr_end info - 1 → is_Some (place (-1) (BCons 0 c body BNil) l).
Proof.
  intros Hl Hr. cbn [place]. unfold place_own. rewrite Hl.
  destruct (place_exprs (-1) body l); [by rewrite !some_union|]. rewrite none_union.
  destruct (decide (l < expr_end info + -1)).
  - destruct (place_in_total (-1) (0 + -1 + 1) (infos body) info l Hl) as [x ->]; [lia|].
    by rewrite !some_union.
  - unfold reject. rewrite bool_decide_true by lia.
    destruct (place_in _ _ _ l); by rewrite ?some_union, ?none_union, ?some_union.
Qed.

(** A closing brace below a blank line: in
[[
f <- function() {
  1

}
]]
    the blank line is refused as a closing brace, and the closing brace is
    anchored to the whole definition. *)
Example closing_brace_after_gap :
  let file := BCons 0 5 (ECons 1 5 (BCons 1 4 (ECons 2 3 BNil ENil) BNil) ENil) BNil in
  place (-1) file <$> [0; 1; 2; 3] =
    [Some (Anchored 0); Some (Anchored 1); Some (Rejected ClosingBrace); Some (Anchored 0)].
Proof. reflexivity. Qed.

(** C18. The walk over the braces of the code, which updates all breakpoints at
    every list it leaves, ends without error and places each breakpoint on its
    own, by the line it has: at the innermost braces that take the line, it
    anchors to the first expression that reaches it or is refused; disabled and
    invalid breakpoints, and those no braces take, stay as they are. Calls are
    injected for anchored breakpoints only, and every anchored breakpoint has a
    call for a breakpoint anchored to the same line. *)
Theorem annotate_places `{BP : BuildProfile} off bs bps :
  -1 ≤ off < 2 ^ 30 → braces_ok off bs → NoDup (id <$> bps) → Forall (λ bp, 0 ≤ line bp < 2 ^ 32) bps →
  let anchored_at bp l := bp ∈ bps ∧ is_live bp = true ∧ place off bs (line bp) = Some (Anchored l) in
  ∃ w, transform off (walk_of bs ++ [LeaveList]) bps = Some w ∧ err w = None ∧
    rw_breakpoints w =
      (λ bp, placed (if is_live bp then place off bs (line bp) else None) bp) <$> sort_by_key Z.leb line bps ∧
    (∀ i, BreakpointCall i ∈ concat (rw_lists w) → ∃ bp l, id bp = i ∧ anchored_at bp l) ∧
    (∀ bp l, anchored_at bp l → ∃ bp', anchored_at bp' l ∧ BreakpointCall (id bp') ∈ concat (rw_lists w)).
Proof.
  intros Hoff Hbs Hids Hlines anchored_at. set (sorted := sort_by_key Z.leb line bps).
  assert (Hperm : sorted ≡ₚ bps) by apply sort_by_key_perm.
  assert (Hd : Done sorted (λ _, None) [] (rewriter_new bps)).
  { split; cbn; try done.
    - change (sort_by_key Z.leb line bps) with sorted. symmetry. apply list_fmap_id.
    - intros i. split; [by intros ?%not_elem_of_empty|]. by intros (bp & l & _ & _ & ?).
    - by intros i ?%not_elem_of_nil. }
  assert (Hids' : NoDup (id <$> sorted)) by by rewrite Hperm.
  assert (Hlines' : Forall (λ bp, 0 ≤ line bp < 2 ^ 32) sorted).
  { apply Forall_forall. intros bp Hbp. rewrite Forall_forall in Hlines. apply Hlines. by rewrite <- Hperm. }
  destruct (proj1 (walk_done off Hoff sorted Hids' Hlines') bs (λ _, None) _ Hd Hbs) as (w & Hw & Hb & Hdone).
  assert (Hst : ∀ bp, then_place (λ _, None) (place off bs) bp = if is_live bp then place off bs (line bp) else None)
    by (intros bp; unfold then_place; by rewrite none_union).
  exists w. unfold transform. rewrite foldM_app, Hw. cbn [mbind option_bind foldM].
  assert (visit off LeaveList w = Some w) as ->.
  { unfold visit. by rewrite (dn_err _ _ _ _ Hdone), Hb. }
  split; [done|]. destruct Hdone as [_ Hbp _ Herr Hcalls Hcalled]. split; [done|]. split; [|split].
  - rewrite Hbp. apply list_fmap_ext. intros _ bp _. by rewrite Hst.
  - intros i Hi. destruct (Hcalls i) as (bp & l & Hbp' & Hid & Hx); [rewrite app_nil_r; done|].
    rewrite Hst in Hx. exists bp, l. split; [done|]. unfold anchored_at. rewrite <- Hperm.
    destruct (is_live bp); [done|discriminate].
  - intros bp l (Hin & Hl & Hp). destruct (Hcalled bp l) as (bp' & Hin' & Hx & Hc).
    { by rewrite Hperm. } { by rewrite Hst, Hl. }
    rewrite Hst in Hx. rewrite app_nil_r in Hc. exists bp'. split; [|done]. unfold anchored_at. rewrite <- Hperm.
    destruct (is_live bp'); [done|discriminate].
Qed.

Lemma annotate_places_witness :
  ∃ w, transform (BP := true) (-1) (walk_of (BCons 0 5 (ECons 1 5 (BCons 1 4 (ECons 2 3 BNil ENil) BNil) ENil) BNil)
      ++ [LeaveList]) [mkBreakpoint 1 3 3 Unverified false None None None 0;
                       mkBreakpoint 2 1 1 Unverified false None None None 0] = Some w ∧ err w = None ∧
    rw_breakpoints w = [mkBreakpoint 2 1 1 Unverified true None None None 0;
                        mkBreakpoint 1 0 3 Unverified true None None None 0].
Proof.
  destruct (annotate_places (BP := true) (-1)
    (BCons 0 5 (ECons 1 5 (BCons 1 4 (ECons 2 3 BNil ENil) BNil) ENil) BNil)
    [mkBreakpoint 1 3 3 Unverified false None None None 0; mkBreakpoint 2 1 1 Unverified false None None None 0])
    as (w & ? & ? & Hbps & _).
  - lia.
  - cbn. unfold info_ok, line_ok. cbn. lia.
  - apply (bool_decide_unpack _). vm_compute. exact I.
  - apply (bool_decide_unpack _). vm_compute. exact I.
  - exists w. split; [done|]. split; [done|]. rewrite Hbps. vm_compute. reflexivity.
Defined.
