(* ===== verification/DapFacts.v ===== *)
(** * Lemmas on the debug adapter

    The map of breakpoints, what keeps breakpoints well formed, the loop of
    [handle_set_breakpoints], sequences of operations, references of variables
    and hits. *)

From S2P Require Export DapServer Rewriter.
From stdpp Require Import gmap pretty.
#[local] Open Scope list_scope.
#[local] Open Scope Z_scope.

(** ** Integers *)

Section machine.
Context `{BP : BuildProfile}.

Lemma to_u32_bounds n : 0 ≤ to_u32 n < 2 ^ 32.
Proof. apply Z.mod_pos_bound. lia. Qed.

Lemma overflowing_exact lo hi n : lo ≤ n ≤ hi → overflowing lo hi n = Some n.
Proof. intros. unfold overflowing. by rewrite bool_decide_true. Qed.

Lemma overflowing_bounds lo hi n m : lo ≤ hi → overflowing lo hi n = Some m → lo ≤ m ≤ hi.
Proof.
  unfold overflowing. intros Hle. case_bool_decide; [congruence|].
  destruct debug_assertions; [done|]. intros [= <-].
  pose proof (Z.mod_pos_bound (n - lo) (hi + 1 - lo)). lia.
Qed.

Lemma overflowing_release lo hi n : debug_assertions = false → is_Some (overflowing lo hi n).
Proof. unfold overflowing. intros ->. case_bool_decide; eauto. Qed.
End machine.

(** ** The map of breakpoints *)

Section map.
Context `{B3 : Blake3}.
Implicit Types (fs : Fs) (m : BreakpointMap) (e : BreakpointEntry).

(** Aliases lead to entries. *)
Definition aliases_live m : Prop :=
  map_Forall (λ _ p, is_Some (by_path m !! p)) (by_canonical m).

Lemma resolve_primary_live fs m p primary :
  aliases_live m → resolve_primary fs m p = Some primary → is_Some (by_path m !! primary).
Proof.
  intros Hm. unfold resolve_primary. destruct (by_path m !! p) eqn:E.
  - intros [= <-]. by rewrite E.
  - intros (c & _ & Hc)%bind_Some. by apply (Hm c).
Qed.

Lemma bpm_get_mut_Some fs m p primary e :
  bpm_get_mut fs m p = Some (primary, e) ↔
  resolve_primary fs m p = Some primary ∧ by_path m !! primary = Some e.
Proof.
  unfold bpm_get_mut. rewrite bind_Some. setoid_rewrite fmap_Some. split.
  - intros (q & ? & ? & ? & [= -> ->]). done.
  - intros []. eexists. split; [done|]. eauto.
Qed.

Lemma bpm_get_mut_get fs m p : bpm_get fs m p = snd <$> bpm_get_mut fs m p.
Proof.
  unfold bpm_get, bpm_get_mut. destruct (resolve_primary fs m p); simpl; [|done].
  by destruct (by_path m !! _).
Qed.

Lemma bpm_contains_get fs m p :
  aliases_live m → bpm_contains_key fs m p = bool_decide (is_Some (bpm_get fs m p)).
Proof.
  intros Hm. apply bool_decide_ext. unfold bpm_get. destruct (resolve_primary fs m p) eqn:E; simpl.
  - destruct (resolve_primary_live fs m p f Hm E) as [? ->]. naive_solver.
  - by split; intros [].
Qed.

Lemma bpm_insert_live fs p e m : aliases_live m → aliases_live (bpm_insert fs p e m).
Proof.
  intros Hm c q. unfold bpm_insert. cbn [by_path by_canonical].
  assert (∀ c q, by_canonical m !! c = Some q → is_Some (<[p := e]> (by_path m) !! q)).
  { intros c' q' ?%Hm. destruct (decide (p = q')) as [->|].
    - rewrite lookup_insert_eq. eauto.
    - by rewrite lookup_insert_ne. }
  destruct (canonical_path fs p) as [c'|]; [|eauto].
  destruct (decide (c' = c)) as [->|]; [|rewrite lookup_insert_ne; eauto].
  rewrite lookup_insert_eq. intros [= <-]. rewrite lookup_insert_eq. eauto.
Qed.

Lemma bpm_remove_live fs p m : aliases_live m → aliases_live (bpm_remove fs p m).2.
Proof.
  intros Hm. unfold bpm_remove. destruct (resolve_primary fs m p) as [primary|]; [|done].
  intros c q. cbn. intros [Hq Hne]%map_lookup_filter_Some.
  rewrite lookup_delete_ne by congruence. by apply (Hm c).
Qed.

Lemma bpm_write_live m primary e : aliases_live m → aliases_live (bpm_write m primary e).
Proof.
  intros Hm c q Hc. destruct (Hm c q Hc) as [? Hx]. cbn. destruct (decide (primary = q)) as [->|].
  - rewrite lookup_insert_eq. eauto.
  - rewrite lookup_insert_ne by done. eauto.
Qed.

Lemma bpm_get_insert fs p e m : bpm_get fs (bpm_insert fs p e m) p = Some e.
Proof.
  unfold bpm_get, resolve_primary, bpm_insert. cbn. rewrite lookup_insert_eq. cbn.
  by rewrite lookup_insert_eq.
Qed.
End map.

(** ** The state *)

Section state.
Context `{BP : BuildProfile} `{B3 : Blake3} `{RO : RObjects} `{HO : HashOrder}.
Implicit Types (d : Dap) (bp : Breakpoint) (fs : Fs).

Record bp_ok (next : Z) bp : Prop := {
  bpo_id : 0 < id bp < next;
  bpo_line : 0 ≤ line bp < 2 ^ 32;
  bpo_original : 0 ≤ original_line bp < 2 ^ 32;
  bpo_hits : 0 ≤ hit_count bp < 2 ^ 64;
  bpo_disabled : state bp = Disabled → injected bp = true;
}.

Definition bps_ok (next : Z) (bps : list Breakpoint) : Prop :=
  NoDup (id <$> bps) ∧ Forall (bp_ok next) bps.

Record breakpoints_ok d : Prop := {
  bo_next : 0 < current_breakpoint_id d;
  bo_entries : map_Forall (λ _ e, bps_ok (current_breakpoint_id d) (breakpoints e))
                 (by_path (dap_breakpoints d));
  bo_aliases : aliases_live (dap_breakpoints d);
}.

(** The part of the state that breakpoints live in. *)
Definition same_breakpoints d d' : Prop :=
  dap_breakpoints d' = dap_breakpoints d ∧ current_breakpoint_id d' = current_breakpoint_id d.

Lemma same_breakpoints_ok d d' : same_breakpoints d d' → breakpoints_ok d → breakpoints_ok d'.
Proof. intros [Hm Hn] []. split; rewrite ?Hm, ?Hn; done. Qed.

#[local] Instance same_breakpoints_preorder : PreOrder same_breakpoints.
Proof. split; [done|]. intros ??? [] []. split; congruence. Qed.

Lemma bps_ok_mono next next' bps : next ≤ next' → bps_ok next bps → bps_ok next' bps.
Proof.
  intros ? [? Hf]. split; [done|]. eapply Forall_impl; [exact Hf|]. intros bp []. split; try done. lia.
Qed.

Lemma bps_ok_fmap next f bps :
  (∀ bp, bp_ok next bp → bp_ok next (f bp)) → (∀ bp, id (f bp) = id bp) →
  bps_ok next bps → bps_ok next (f <$> bps).
Proof.
  intros Hf Hid [Hn Ha]. split.
  - rewrite <- list_fmap_compose. erewrite list_fmap_ext; [exact Hn|]. intros; apply Hid.
  - apply Forall_fmap. eapply Forall_impl; [exact Ha|]. exact Hf.
Qed.

Lemma alter_first_fmap_id p f bps :
  (∀ bp, id (f bp) = id bp) → id <$> alter_first p f bps = id <$> bps.
Proof. intros Hid. induction bps as [|bp bps IH]; simpl; [done|]. destruct (p bp); simpl; rewrite ?Hid; by f_equal. Qed.

Lemma bps_ok_alter_first next p f bps :
  (∀ bp, bp ∈ bps → p bp = true → bp_ok next bp → bp_ok next (f bp)) → (∀ bp, id (f bp) = id bp) →
  bps_ok next bps → bps_ok next (alter_first p f bps).
Proof.
  intros Hf Hid [Hn Ha]. split; [by rewrite alter_first_fmap_id|].
  clear Hn. induction Ha as [|bp bps Hb Ha IH]; simpl; [done|].
  destruct (p bp) eqn:E; constructor; try done.
  - apply Hf; [by left| |]; done.
  - apply IH. intros ??. apply Hf. by right.
Qed.

Lemma bps_ok_filter next (p : Breakpoint → bool) bps : bps_ok next bps → bps_ok next (filter (λ bp, p bp) bps).
Proof.
  intros [Hn Ha]. split; [|apply Forall_forall; intros bp [_ ?]%list_elem_of_filter;
    rewrite Forall_forall in Ha; by apply Ha].
  eapply sublist_NoDup; [exact Hn|]. apply fmap_sublist, sublist_filter.
Qed.

Lemma bps_ok_perm next bps bps' : bps ≡ₚ bps' → bps_ok next bps → bps_ok next bps'.
Proof.
  intros Hp [? Ha]. split; [by rewrite <- Hp|].
  apply Forall_forall. intros bp Hbp. rewrite Forall_forall in Ha. apply Ha. by rewrite Hp.
Qed.

Lemma write_entry_ok d primary e bps :
  by_path (dap_breakpoints d) !! primary = Some e →
  (bps_ok (current_breakpoint_id d) (breakpoints e) → bps_ok (current_breakpoint_id d) bps) →
  breakpoints_ok d → breakpoints_ok (write_entry d primary (set_breakpoints bps e)).
Proof.
  intros He Hb [Hn Hm Ha]. destruct d. split; cbn in *.
  - done.
  - apply map_Forall_insert_2; [|done]. apply Hb, (Hm primary), He.
  - by apply bpm_write_live.
Qed.

Lemma set_state_ok next s bp :
  s ≠ Disabled → bp_ok next bp → bp_ok next (set_state s bp).
Proof. intros ? []. by split. Qed.

(** *** Events leave the breakpoints alone *)

Lemma send_backend_event_same event d d' :
  send_backend_event event d = Some d' → same_breakpoints d d'.
Proof.
  unfold send_backend_event. destruct d; cbn.
  destruct notebook_iopub_tx; cbn; intros; simplify_option_eq; done.
Qed.

Lemma send_events_same events d d' :
  foldM send_backend_event events d = Some d' → same_breakpoints d d'.
Proof.
  intros He. apply (foldM_inv send_backend_event (λ d', same_breakpoints d d') events d d'); [|reflexivity|exact He].
  intros event d1 d2 _ H1 ?%send_backend_event_same. by etrans.
Qed.

(** *** Each operation keeps the breakpoints well formed *)

Lemma send_events_ok events d d' :
  breakpoints_ok d → foldM send_backend_event events d = Some d' → breakpoints_ok d'.
Proof. intros Hd He. by eapply same_breakpoints_ok; [eapply send_events_same|]. Qed.

Lemma verify_breakpoints_ok fs uri s e d d' :
  breakpoints_ok d → verify_breakpoints fs uri s e d = Some d' → breakpoints_ok d'.
Proof.
  intros Hd. unfold verify_breakpoints.
  destruct (bpm_get_mut _ _ _) as [[primary entry]|] eqn:E; [|by intros [= <-]].
  apply bpm_get_mut_Some in E as [_ E]. apply send_events_ok, (write_entry_ok _ _ _ _ E); [|done].
  apply bps_ok_fmap; intros bp; case_match; [|done..]. by apply set_state_ok.
Qed.

Lemma verify_breakpoint_ok fs uri i d d' :
  breakpoints_ok d → verify_breakpoint fs uri i d = Some d' → breakpoints_ok d'.
Proof.
  intros Hd. unfold verify_breakpoint.
  destruct (bpm_get_mut _ _ _) as [[primary entry]|] eqn:E; [|by intros [= <-]].
  apply bpm_get_mut_Some in E as [_ E]. destruct (find_breakpoint _ _); [|by intros [= <-]].
  case_bool_decide; [|by intros [= <-]]. intros He%send_backend_event_same.
  eapply same_breakpoints_ok, write_entry_ok; try done.
  apply bps_ok_alter_first; [|done]. intros ???. by apply set_state_ok.
Qed.

Lemma did_change_document_ok fs uri d d' :
  breakpoints_ok d → did_change_document fs uri d = Some d' → breakpoints_ok d'.
Proof.
  intros Hd. unfold did_change_document.
  destruct (bpm_remove fs uri _) as [removed m] eqn:E. destruct removed as [entry|]; [|by intros [= <-]].
  apply send_events_ok. destruct Hd as [Hn Hm Ha].
  assert (m = (bpm_remove fs uri (dap_breakpoints d)).2) as -> by by rewrite E.
  destruct d as [????? map]. split; cbn in *; [done| |by apply bpm_remove_live].
  unfold bpm_remove. destruct (resolve_primary _ _ _); [|done]. cbn. by apply map_Forall_delete.
Qed.

Lemma notify_invalid_same fs uri d d' :
  notify_invalid_breakpoints fs uri d = Some d' → same_breakpoints d d'.
Proof.
  unfold notify_invalid_breakpoints. destruct (bpm_get _ _ _); [apply send_events_same|by intros [= <-]].
Qed.

Lemma remove_disabled_ok fs uri d : breakpoints_ok d → breakpoints_ok (remove_disabled_breakpoints fs uri d).
Proof.
  intros Hd. unfold remove_disabled_breakpoints.
  destruct (bpm_get_mut _ _ _) as [[primary entry]|] eqn:E; [|done].
  apply bpm_get_mut_Some in E as [_ E]. apply write_entry_ok; [done| |done]. apply bps_ok_filter.
Qed.

Lemma reset_ok d : breakpoints_ok d → breakpoints_ok (reset d).
Proof.
  intros [Hn Hm Ha]. destruct d as [????? m]. split; cbn in *; [done| |].
  - apply map_Forall_fmap. intros p e He. apply bps_ok_fmap; [|done|by apply (Hm p)].
    intros bp []. by split.
  - intros c p Hp. destruct (Ha c p Hp) as [e He]. cbn. rewrite lookup_fmap, He. eauto.
Qed.

Lemma increment_hit_count_ok fs uri i d n d' :
  breakpoints_ok d → increment_hit_count fs uri i d = Some (n, d') → breakpoints_ok d'.
Proof.
  intros Hd. unfold increment_hit_count.
  destruct (bpm_get_mut _ _ _) as [[primary entry]|] eqn:E; [|by intros [= <- <-]].
  apply bpm_get_mut_Some in E as [_ E]. destruct (find_breakpoint _ _); [|by intros [= <- <-]].
  intros (count & Hc%overflowing_bounds & [= <- <-])%bind_Some; [|lia].
  apply write_entry_ok; [done| |done]. apply bps_ok_alter_first; [|done].
  intros bp _ _ []. split; cbn; [done..|lia|done].
Qed.

Lemma new_breakpoint_ok sb i n next :
  0 < i < next → 0 ≤ n < 2 ^ 32 → bp_ok next (new_breakpoint sb i n).
Proof. intros. by split. Qed.
(** *** The loop of [handle_set_breakpoints] *)

(** The internal line of a requested breakpoint. *)
Definition req_line (sb : SourceBreakpoint) : Z := (sb_line sb - 1) mod 2 ^ 32.

Lemma from_dap_line_Some sb n : from_dap_line (sb_line sb) = Some n → n = req_line sb.
Proof.
  unfold from_dap_line, req_line, to_u32, add_i64, overflowing.
  intros (x & Hx & ->)%fmap_Some. revert Hx. replace (sb_line sb + -1) with (sb_line sb - 1) by lia.
  case_bool_decide; [congruence|]. destruct debug_assertions; [done|]. intros [= <-].
  replace (2 ^ 63 - 1 + 1 - - 2 ^ 63) with (2 ^ 64) by lia. generalize (sb_line sb - 1). intros n.
  rewrite (Z.mod_eq (n - - 2 ^ 63) (2 ^ 64)) by lia. replace (n - - 2 ^ 63 - 2 ^ 64 * ((n - - 2 ^ 63) / 2 ^ 64) + - 2 ^ 63)
    with (n + (- 2 ^ 32 * ((n - - 2 ^ 63) / 2 ^ 64)) * 2 ^ 32) by lia.
  by rewrite Z.mod_add by lia.
Qed.

Lemma req_line_bounds sb : 0 ≤ req_line sb < 2 ^ 32.
Proof. apply Z.mod_pos_bound. lia. Qed.

Definition room (n : nat) d : Prop := 0 < current_breakpoint_id d ∧ current_breakpoint_id d + Z.of_nat n < 2 ^ 63.

Lemma next_breakpoint_id_spec d :
  room 1 d → next_breakpoint_id d =
    Some (current_breakpoint_id d, set_breakpoint_id (current_breakpoint_id d + 1) d).
Proof. intros []. unfold next_breakpoint_id, add_i64. by rewrite overflowing_exact by lia. Qed.

Lemma set_breakpoint_id_current n d : current_breakpoint_id (set_breakpoint_id n d) = n.
Proof. by destruct d. Qed.
Lemma set_breakpoint_id_map n d : dap_breakpoints (set_breakpoint_id n d) = dap_breakpoints d.
Proof. by destruct d. Qed.
Lemma set_breakpoint_id_twice n n' d : set_breakpoint_id n (set_breakpoint_id n' d) = set_breakpoint_id n d.
Proof. by destruct d. Qed.
Lemma set_breakpoint_id_same d : set_breakpoint_id (current_breakpoint_id d) d = d.
Proof. by destruct d. Qed.

(** The identifiers of a map of breakpoints. *)
Definition map_ids (m : gmap Z Breakpoint) : list Z := id <$> (map_to_list m).*2.

Lemma map_ids_insert k bp m : map_ids (<[k := bp]> m) ≡ₚ id bp :: map_ids (delete k m).
Proof.
  unfold map_ids. rewrite <- insert_delete_eq, map_to_list_insert by apply lookup_delete_eq. done.
Qed.

Lemma map_ids_lookup k bp m : m !! k = Some bp → map_ids m ≡ₚ id bp :: map_ids (delete k m).
Proof. intros Hk. unfold map_ids. by rewrite <- (map_to_list_delete m k bp Hk). Qed.

Lemma map_ids_delete k m i : i ∈ map_ids (delete k m) → i ∈ map_ids m.
Proof.
  destruct (m !! k) as [bp|] eqn:E; [|by rewrite delete_id].
  rewrite (map_ids_lookup k bp m E). by right.
Qed.

Lemma elem_of_map_ids m k bp : m !! k = Some bp → id bp ∈ map_ids m.
Proof. intros E. rewrite (map_ids_lookup k bp m E). by left. Qed.

Lemma NoDup_map_ids_delete k m : NoDup (map_ids m) → NoDup (map_ids (delete k m)).
Proof.
  destruct (m !! k) as [bp|] eqn:E; [|by rewrite delete_id].
  rewrite (map_ids_lookup k bp m E). by intros [_ ?]%NoDup_cons.
Qed.

Lemma by_original_line_snoc bps bp :
  by_original_line (bps ++ [bp]) = <[original_line bp := bp]> (by_original_line bps).
Proof. unfold by_original_line. by rewrite foldl_snoc. Qed.

Lemma by_original_line_lookup bps k bp :
  by_original_line bps !! k = Some bp → original_line bp = k ∧ bp ∈ bps.
Proof.
  revert k bp. induction bps as [|b bps IH] using rev_ind; intros k bp; [done|].
  rewrite by_original_line_snoc. intros [[<- <-]|[Hne Hk]]%lookup_insert_Some.
  - split; [done|]. apply elem_of_app. right. by left.
  - destruct (IH _ _ Hk). split; [done|]. apply elem_of_app. by left.
Qed.

Lemma by_original_line_ids bps :
  NoDup (id <$> bps) →
  NoDup (map_ids (by_original_line bps)) ∧
  ∀ i, i ∈ map_ids (by_original_line bps) → i ∈ id <$> bps.
Proof.
  induction bps as [|b bps IH] using rev_ind; [split; [constructor|done]|].
  rewrite by_original_line_snoc, fmap_app. intros (Hn & Hd & _)%NoDup_app. destruct (IH Hn) as [Hm Hs].
  split.
  - rewrite map_ids_insert. constructor; [|by apply NoDup_map_ids_delete].
    intros Hi%map_ids_delete%Hs. apply (Hd _ Hi). by left.
  - intros i. rewrite map_ids_insert. intros [->|Hi]%elem_of_cons; apply elem_of_app.
    + right. by left.
    + left. by apply Hs, (map_ids_delete (original_line b)).
Qed.

(** The answer to a requested breakpoint, given the old breakpoints, the
    requests before and the identifiers handed out: an old breakpoint of the
    line is kept for the first request of it, the others are new. *)
Definition is_new (lo hi : Z) (sb : SourceBreakpoint) bp : Prop :=
  bp = new_breakpoint sb (id bp) (req_line sb) ∧ lo ≤ id bp < hi.

Definition answer_of (old : gmap Z Breakpoint) (before : list SourceBreakpoint) (lo hi : Z)
    (sb : SourceBreakpoint) bp : Prop :=
  match old !! req_line sb with
  | Some old_bp =>
      if bool_decide (req_line sb ∈ req_line <$> before) then is_new lo hi sb bp
      else bp = keep_breakpoint sb old_bp (req_line sb)
  | None => is_new lo hi sb bp
  end.

Lemma answer_of_mono old before lo hi hi' sb bp :
  hi ≤ hi' → answer_of old before lo hi sb bp → answer_of old before lo hi' sb bp.
Proof.
  intros Hle. unfold answer_of, is_new.
  destruct (old !! _); [case_bool_decide; [|done]|]; intros [? ?]; (split; [done|lia]).
Qed.

(** What the loop has done after the requests [args]: the answers so far, and
    the old breakpoints of the lines that were not asked for. *)
Record Merged (old : gmap Z Breakpoint) d0 (args : list SourceBreakpoint)
    (rest : gmap Z Breakpoint) (bps : list Breakpoint) d : Prop := {
  mg_state : d = set_breakpoint_id (current_breakpoint_id d) d0;
  mg_next : current_breakpoint_id d0 ≤ current_breakpoint_id d ≤ current_breakpoint_id d0 + Z.of_nat (length args);
  mg_rest : rest = filter (λ '(l, _), l ∉ req_line <$> args) old;
  mg_answers : length bps = length args;
  mg_answer i sb bp : args !! i = Some sb → bps !! i = Some bp →
    answer_of old (take i args) (current_breakpoint_id d0) (current_breakpoint_id d) sb bp;
  mg_ids : NoDup ((id <$> bps) ++ map_ids rest);
  mg_below i : i ∈ (id <$> bps) ++ map_ids rest → i < current_breakpoint_id d;
}.

Lemma filter_lines_snoc (old : gmap Z Breakpoint) (ls : list Z) l :
  filter (λ '(k, _), k ∉ ls ++ [l]) old = delete l (filter (λ '(k, _), k ∉ ls) old).
Proof.
  apply map_eq. intros k. apply option_eq. intros bp.
  rewrite lookup_delete_Some, !map_lookup_filter_Some, elem_of_app, list_elem_of_singleton. naive_solver.
Qed.

Lemma merged_start old d0 :
  NoDup (map_ids old) → (∀ i, i ∈ map_ids old → i < current_breakpoint_id d0) →
  Merged old d0 [] old [] d0.
Proof.
  intros Hn Hi. split; simpl; try done; [by rewrite set_breakpoint_id_same|lia|].
  symmetry. apply map_filter_id. set_solver.
Qed.

Lemma answers_snoc old lo hi hi' args bps sb bp :
  length bps = length args → hi ≤ hi' →
  (∀ i sb bp, args !! i = Some sb → bps !! i = Some bp → answer_of old (take i args) lo hi sb bp) →
  answer_of old args lo hi' sb bp →
  ∀ i sb' bp', (args ++ [sb]) !! i = Some sb' → (bps ++ [bp]) !! i = Some bp' →
    answer_of old (take i (args ++ [sb])) lo hi' sb' bp'.
Proof.
  intros Hlen Hle Ha Hn i sb' bp' Hi Hb.
  destruct (decide (i < length args)%nat) as [Hlt|Hge].
  - rewrite lookup_app_l in Hi by lia. rewrite lookup_app_l in Hb by lia. rewrite take_app_le by lia.
    eapply answer_of_mono; [done|]. by apply Ha.
  - assert (i = length args) as ->.
    { apply lookup_lt_Some in Hi. rewrite length_app in Hi. simpl in Hi. lia. }
    rewrite take_app_length. rewrite lookup_app_r, Nat.sub_diag in Hi by lia.
    rewrite lookup_app_r, Hlen, Nat.sub_diag in Hb by lia. simpl in Hi, Hb. by simplify_eq.
Qed.

Lemma merged_step old d0 args sb rest bps d rest' bps' d' :
  room (S (length args)) d0 →
  Merged old d0 args rest bps d → merge_breakpoint sb (rest, bps, d) = Some (rest', bps', d') →
  Merged old d0 (args ++ [sb]) rest' bps' d'.
Proof.
  intros [Hpos Hroom] [Hst Hnx Hrest Hlen Hans Hids Hbel]. unfold merge_breakpoint.
  intros (l & ->%from_dap_line_Some & Hm)%bind_Some.
  assert (Hfil : filter (λ '(k, _), k ∉ req_line <$> args ++ [sb]) old = delete (req_line sb) rest).
  { by rewrite fmap_app, Hrest, <- filter_lines_snoc. }
  assert (Hlook : ∀ bp, rest !! req_line sb = Some bp ↔
    old !! req_line sb = Some bp ∧ req_line sb ∉ req_line <$> args).
  { intros bp. rewrite Hrest. apply map_lookup_filter_Some. }
  destruct (rest !! req_line sb) as [old_bp|] eqn:E.
  - injection Hm as <- <- <-. destruct (proj1 (Hlook old_bp) eq_refl) as [Ho Hnot].
    assert (Hp : (id <$> bps ++ [keep_breakpoint sb old_bp (req_line sb)]) ++ map_ids (delete (req_line sb) rest)
      ≡ₚ (id <$> bps) ++ map_ids rest).
    { rewrite fmap_app, <- (assoc_L (++)), (map_ids_lookup _ _ rest E). simpl.
      replace (id (keep_breakpoint _ _ _)) with (id old_bp); [done|].
      unfold keep_breakpoint. by destruct (restored_state old_bp). }
    split; rewrite ?length_app, ?Hlen; simpl; try done.
    + lia.
    + eapply answers_snoc; [done|reflexivity|done|]. unfold answer_of. by rewrite Ho, bool_decide_false.
    + by rewrite Hp.
    + intros i. rewrite Hp. apply Hbel.
  - rewrite next_breakpoint_id_spec in Hm by (split; lia). cbn in Hm. injection Hm as <- <- <-.
    assert (Hdel : delete (req_line sb) rest = rest) by by apply delete_id.
    assert (Hp : (id <$> bps ++ [new_breakpoint sb (current_breakpoint_id d) (req_line sb)]) ++ map_ids rest
      ≡ₚ current_breakpoint_id d :: (id <$> bps) ++ map_ids rest).
    { rewrite fmap_app. simpl. rewrite <- (assoc_L (++)). simpl. by rewrite Permutation_middle. }
    split; rewrite ?set_breakpoint_id_current, ?length_app, ?Hlen; simpl; try done.
    + rewrite <- (set_breakpoint_id_twice _ (current_breakpoint_id d) d0). by rewrite <- Hst.
    + lia.
    + by rewrite Hfil, Hdel.
    + eapply answers_snoc; [done| |done|]; [lia|]. unfold answer_of, is_new. cbn.
      destruct (old !! req_line sb) as [ob|] eqn:Ho; [|split; [done|lia]].
      rewrite bool_decide_true; [split; [done|lia]|].
      destruct (decide (req_line sb ∈ req_line <$> args)); [done|].
      by specialize (proj2 (Hlook ob) (conj eq_refl n)).
    + rewrite Hp. constructor; [|done]. intros ?%Hbel. lia.
    + intros i. rewrite Hp. intros [->|?%Hbel]%elem_of_cons; lia.
Qed.

Lemma merged_loop old d0 args rest bps d :
  NoDup (map_ids old) → (∀ i, i ∈ map_ids old → i < current_breakpoint_id d0) →
  room (length args) d0 →
  foldM merge_breakpoint args (old, [], d0) = Some (rest, bps, d) →
  Merged old d0 args rest bps d.
Proof.
  intros Hn Hi. revert rest bps d. induction args as [|sb args IH] using rev_ind; intros rest bps d Hr.
  - intros [= <- <- <-]. by apply merged_start.
  - rewrite foldM_app. intros ([[rest1 bps1] d1] & Hf & Hs)%bind_Some.
    destruct Hr as [? Hr]. rewrite length_app in Hr. simpl in Hr.
    cbn [foldM] in Hs. apply bind_Some in Hs as (st & Hs & [= ->]).
    eapply merged_step; [|apply (IH _ _ _)|exact Hs]; [split; lia|split; lia|done].
Qed.

(** *** [handle_set_breakpoints] *)

Lemma hash_order_nil {A} : hash_order (A := A) [] = [].
Proof. apply Permutation_nil. symmetry. apply hash_order_perm. Qed.

Lemma elem_of_disabled rest bp :
  bp ∈ disabled_breakpoints rest ↔
  ∃ l old_bp, bp = disable_breakpoint l old_bp ∧ rest !! l = Some old_bp ∧ state old_bp = Verified.
Proof.
  unfold disabled_breakpoints, is_verified. rewrite list_elem_of_fmap. split.
  - intros ([l old_bp] & -> & [Hv Hin]%list_elem_of_filter). exists l, old_bp.
    rewrite hash_order_perm, elem_of_map_to_list in Hin. by apply bool_decide_unpack in Hv.
  - intros (l & old_bp & -> & Hl & Hv). exists (l, old_bp). split; [done|].
    apply list_elem_of_filter. rewrite Hv. split; [done|].
    by rewrite hash_order_perm, elem_of_map_to_list.
Qed.

Lemma disabled_ids_of (l l' : list (Z * Breakpoint)) :
  l ≡ₚ l' → id <$> ((λ '(line, bp), disable_breakpoint line bp) <$>
    filter (λ '(_, bp), is_verified bp) l) ⊆+ id <$> l'.*2.
Proof.
  intros <-. trans (id <$> (filter (λ '(_, bp), is_verified bp) l).*2).
  - rewrite <- !list_fmap_compose. erewrite list_fmap_ext; [reflexivity|]. by intros _ [] _.
  - apply fmap_submseteq, fmap_submseteq, sublist_submseteq, sublist_filter.
Qed.

Lemma disabled_ids rest : id <$> disabled_breakpoints rest ⊆+ map_ids rest.
Proof. apply disabled_ids_of, hash_order_perm. Qed.

Lemma keep_breakpoint_state sb old_bp l : state (keep_breakpoint sb old_bp l) ≠ Disabled.
Proof. unfold keep_breakpoint, restored_state. by destruct (state old_bp). Qed.

Lemma keep_breakpoint_ok next sb old_bp :
  bp_ok next old_bp → bp_ok next (keep_breakpoint sb old_bp (req_line sb)).
Proof.
  intros []. pose proof (req_line_bounds sb) as Hl.
  unfold keep_breakpoint, restored_state. destruct (state old_bp); by split.
Qed.

Lemma answer_not_disabled old before lo hi sb bp : answer_of old before lo hi sb bp → state bp ≠ Disabled.
Proof.
  unfold answer_of, is_new. destruct (old !! _); [case_bool_decide|].
  - by intros [Hb _]; rewrite Hb.
  - intros ->. apply keep_breakpoint_state.
  - by intros [Hb _]; rewrite Hb.
Qed.

Lemma answer_ok old before lo hi sb bp :
  0 < lo → lo ≤ hi → map_Forall (λ _ b, bp_ok lo b) old →
  answer_of old before lo hi sb bp → bp_ok hi bp.
Proof.
  intros ? Hle Ho. assert (Hnew : is_new lo hi sb bp → bp_ok hi bp).
  { intros [Hb ?]. rewrite Hb. apply new_breakpoint_ok; [lia|]. apply req_line_bounds. }
  unfold answer_of. destruct (old !! _) as [ob|] eqn:E; [case_bool_decide|]; [done| |done].
  intros ->. apply keep_breakpoint_ok. destruct (Ho _ _ E). split; try done. lia.
Qed.

Lemma merged_bps_ok olds d0 args rest bps d :
  0 < current_breakpoint_id d0 → bps_ok (current_breakpoint_id d0) olds →
  Merged (by_original_line olds) d0 args rest bps d →
  bps_ok (current_breakpoint_id d) (bps ++ disabled_breakpoints rest).
Proof.
  intros Hpos [Hn Ha] Hm. rewrite Forall_forall in Ha.
  assert (Hold : map_Forall (λ _ b, bp_ok (current_breakpoint_id d0) b) (by_original_line olds)).
  { intros l b [_ ?]%by_original_line_lookup. by apply Ha. }
  destruct Hm as [_ Hnx Hrest Hlen Hans Hids _]. split.
  - rewrite fmap_app. destruct (submseteq_Permutation _ _ (disabled_ids rest)) as [k Hk].
    rewrite Hk, (assoc_L (++)) in Hids. by apply NoDup_app in Hids as (? & _).
  - apply Forall_app. split.
    + apply Forall_lookup. intros i bp Hb.
      destruct (lookup_lt_is_Some_2 args i) as [sb Hsb]; [rewrite <- Hlen; by eapply lookup_lt_Some|].
      eapply answer_ok; [exact Hpos|lia|exact Hold|by apply Hans].
    + apply Forall_forall. intros bp (l & ob & -> & Hl & _)%elem_of_disabled.
      rewrite Hrest in Hl. apply map_lookup_filter_Some in Hl as [Hl _].
      destruct (Hold _ _ Hl). apply by_original_line_lookup in Hl as [<- _].
      split; cbn; try done. lia.
Qed.

(** The old breakpoints a request looks at. *)
Definition known_breakpoints fs d (uri : FilePath) (content : text) : list Breakpoint :=
  match bpm_get fs (dap_breakpoints d) uri with
  | Some entry => if bool_decide (entry_hash entry = blake3_hash content) then breakpoints entry else []
  | None => []
  end.

Lemma merge_empty_step sb bps d :
  merge_breakpoint sb (∅, bps, d) = (λ '(bps, d), (∅, bps, d)) <$> replace_breakpoint sb (bps, d).
Proof.
  unfold replace_breakpoint, merge_breakpoint. destruct (from_dap_line (sb_line sb)); [|done]. cbn.
  rewrite lookup_empty. by destruct (next_breakpoint_id d) as [[]|].
Qed.

Lemma merge_empty_loop args bps d :
  foldM merge_breakpoint args (∅, bps, d) =
  (λ '(bps, d), (∅, bps, d)) <$> foldM replace_breakpoint args (bps, d).
Proof.
  revert bps d. induction args as [|sb args IH]; intros bps d; [done|]. cbn [foldM].
  rewrite merge_empty_step. destruct (replace_breakpoint sb (bps, d)) as [[bps' d']|]; [apply IH|done].
Qed.

Lemma merge_from_nothing args d :
  merge_breakpoints [] args d = foldM replace_breakpoint args ([], d).
Proof.
  unfold merge_breakpoints, by_original_line. cbn [foldl]. rewrite merge_empty_loop.
  destruct (foldM replace_breakpoint args ([], d)) as [[bps d']|]; [|done]. cbn.
  unfold disabled_breakpoints. rewrite map_to_list_empty, hash_order_nil. simpl. by rewrite app_nil_r.
Qed.

(** A request for a file that can be read. *)
Lemma handle_set_breakpoints_readable fs args d path uri content :
  source_path args = Some path → from_path_buf (mkPathBuf path true) = Some uri →
  fs_read_to_string fs path = Some content →
  handle_set_breakpoints fs args d =
  '(bps, d) ← merge_breakpoints (known_breakpoints fs d uri content) (default [] (args_breakpoints args)) d;
  response ← mapM response_breakpoint (filter (λ bp, negb (is_disabled bp)) bps);
  Some (reply (RSetBreakpoints response),
    set_dap_map (bpm_insert fs uri (mkEntry path (blake3_hash content) bps) (dap_breakpoints d)) d).
Proof.
  intros Hp Hu Hr. unfold handle_set_breakpoints, known_breakpoints. rewrite Hp, Hu, Hr.
  destruct (bpm_get fs (dap_breakpoints d) uri) as [entry|]; [case_bool_decide|];
    rewrite ?merge_from_nothing; done.
Qed.

Lemma known_breakpoints_ok fs d uri content :
  breakpoints_ok d → bps_ok (current_breakpoint_id d) (known_breakpoints fs d uri content).
Proof.
  intros [_ He _]. assert (Hnil : bps_ok (current_breakpoint_id d) []) by by repeat constructor.
  unfold known_breakpoints, bpm_get. destruct (resolve_primary _ _ _) as [primary|]; [|done]. cbn.
  destruct (by_path _ !! primary) as [e|] eqn:E; [|done]. case_bool_decide; [|done]. by apply (He primary).
Qed.

(** The loop with what it leaves behind. *)
Lemma merge_breakpoints_spec olds args d bps d' :
  bps_ok (current_breakpoint_id d) olds → room (length args) d →
  merge_breakpoints olds args d = Some (bps, d') →
  ∃ answers rest, bps = answers ++ disabled_breakpoints rest ∧
    Merged (by_original_line olds) d args rest answers d'.
Proof.
  intros [Hn Ha] Hr. unfold merge_breakpoints.
  intros ([[rest answers] d1] & Hf & [= <- <-])%bind_Some. exists answers, rest. split; [done|].
  destruct (by_original_line_ids olds Hn) as [Hnd Hsub]. apply merged_loop; try done.
  intros i (bp & -> & Hin)%Hsub%list_elem_of_fmap. rewrite Forall_forall in Ha. apply Ha in Hin as []. lia.
Qed.

Lemma set_dap_map_map m d : dap_breakpoints (set_dap_map m d) = m.
Proof. by destruct d. Qed.
Lemma set_dap_map_id m d : current_breakpoint_id (set_dap_map m d) = current_breakpoint_id d.
Proof. by destruct d. Qed.

Lemma insert_entry_ok fs uri e d d' :
  breakpoints_ok d → current_breakpoint_id d ≤ current_breakpoint_id d' →
  dap_breakpoints d' = dap_breakpoints d →
  bps_ok (current_breakpoint_id d') (breakpoints e) →
  breakpoints_ok (set_dap_map (bpm_insert fs uri e (dap_breakpoints d')) d').
Proof.
  intros [Hn He Ha] Hle Hm Hb. split; rewrite ?set_dap_map_map, ?set_dap_map_id, ?Hm.
  - lia.
  - apply map_Forall_insert_2; [done|]. intros p e' Hp. eapply bps_ok_mono; [exact Hle|]. by apply (He p).
  - by apply bpm_insert_live.
Qed.

(** How many identifiers a request takes at most. *)
Definition requested (cmd : Command) : nat :=
  match cmd with SetBreakpoints args => length (default [] (args_breakpoints args)) | _ => 0 end.

Lemma unreadable_loop args bps d bps' d' :
  room (length args) d → foldM unreadable_breakpoint args (bps, d) = Some (bps', d') →
  d' = set_breakpoint_id (current_breakpoint_id d + Z.of_nat (length args)) d.
Proof.
  revert bps d. induction args as [|sb args IH]; intros bps d [Hp Hr].
  - intros [= _ <-]. simpl. by rewrite Z.add_0_r, set_breakpoint_id_same.
  - cbn [foldM]. cbn [length] in Hr. unfold unreadable_breakpoint at 2.
    rewrite next_breakpoint_id_spec by (split; lia). cbn. intros ->%IH.
    + rewrite set_breakpoint_id_current, set_breakpoint_id_twice. f_equal. lia.
    + split; rewrite set_breakpoint_id_current; lia.
Qed.

Lemma handle_set_breakpoints_ok fs args d r d' :
  breakpoints_ok d → room (requested (SetBreakpoints args)) d →
  handle_set_breakpoints fs args d = Some (r, d') →
  breakpoints_ok d' ∧ current_breakpoint_id d ≤ current_breakpoint_id d'
    ≤ current_breakpoint_id d + Z.of_nat (requested (SetBreakpoints args)).
Proof.
  intros Hd Hroom. cbn [requested] in *.
  assert (Hsame : breakpoints_ok d ∧ current_breakpoint_id d ≤ current_breakpoint_id d
    ≤ current_breakpoint_id d + Z.of_nat (length (default [] (args_breakpoints args))))
    by (split; [done|lia]).
  destruct (source_path args) as [path|] eqn:Hp;
    [|unfold handle_set_breakpoints; rewrite Hp; by intros [= _ <-]].
  destruct (from_path_buf (mkPathBuf path true)) as [uri|] eqn:Hu;
    [|unfold handle_set_breakpoints; rewrite Hp, Hu; by intros [= _ <-]].
  destruct (fs_read_to_string fs path) as [content|] eqn:Hr.
  - rewrite (handle_set_breakpoints_readable fs args d path uri content Hp Hu Hr).
    intros ([bps d1] & Hm & (response & _ & [= _ <-])%bind_Some)%bind_Some.
    pose proof (known_breakpoints_ok fs d uri content Hd) as Hk.
    destruct (merge_breakpoints_spec _ _ _ _ _ Hk Hroom Hm) as (answers & rest & -> & Hmg).
    pose proof (merged_bps_ok _ _ _ _ _ _ (bo_next d Hd) Hk Hmg) as Hok.
    destruct Hmg as [Hst Hnx _ _ _ _ _]. rewrite set_dap_map_id. split; [|lia].
    apply insert_entry_ok with d; try done; [lia|]. by rewrite Hst, set_breakpoint_id_map.
  - unfold handle_set_breakpoints. rewrite Hp, Hu, Hr.
    intros ([bps d1] & Hl%unreadable_loop & [= _ <-])%bind_Some; [|done]. rewrite Hl.
    rewrite set_breakpoint_id_current. split; [|lia]. destruct Hd as [Hn He Ha], d.
    split; cbn in *; [lia| |done]. intros p e Hpe. eapply bps_ok_mono; [|by apply (He p)]. lia.
Qed.

(** *** The operations that leave the breakpoints alone *)

Lemma set_references_same frames objects next d : same_breakpoints d (set_references frames objects next d).
Proof. by destruct d. Qed.

Lemma variables_reference_of_same x d r d' :
  variables_reference_of x d = Some (r, d') → same_breakpoints d d'.
Proof.
  unfold variables_reference_of. destruct x as [x|]; [|by intros [= _ <-]].
  intros (next & _ & [= _ <-])%bind_Some. apply set_references_same.
Qed.

Lemma make_variable_same variable st st' :
  make_variable variable st = Some st' → same_breakpoints st.2 st'.2.
Proof.
  destruct st as [out d]. unfold make_variable.
  by intros ([r d1] & ?%variables_reference_of_same & [= <-])%bind_Some.
Qed.

Lemma make_variables_same variables d out d' :
  make_variables variables d = Some (out, d') → same_breakpoints d d'.
Proof.
  intros Hm. apply (foldM_inv make_variable (λ st, same_breakpoints d st.2) variables ([], d) (out, d'));
    [|reflexivity|exact Hm].
  intros variable st1 st2 _ H1 ?%make_variable_same. by etrans.
Qed.

Lemma into_evaluate_response_same variable d r d' :
  into_evaluate_response variable d = Some (r, d') → same_breakpoints d d'.
Proof. by intros ([i d1] & ?%variables_reference_of_same & [= _ <-])%bind_Some. Qed.

Lemma load_frame_same frame d d' : load_frame frame d = Some d' → same_breakpoints d d'.
Proof. intros (next & _ & [= <-])%bind_Some. apply set_references_same. Qed.

Lemma start_debug_same frames sources reason d d' :
  start_debug frames sources reason d = Some d' → same_breakpoints d d'.
Proof.
  unfold start_debug, load_variables_references.
  intros ([frames' d1] & (d2 & Hl & [= <- <-])%bind_Some & Hs)%bind_Some.
  apply send_backend_event_same in Hs. trans d2.
  - apply (foldM_inv load_frame (λ d', same_breakpoints d d') frames (clear_variables_reference_maps d) d2);
      [|by destruct d|exact Hl].
    intros frame d3 d4 _ H3 ?%load_frame_same. by etrans.
  - etrans; [|exact Hs]. by destruct d2.
Qed.

Lemma stop_debug_same d d' : stop_debug d = Some d' → same_breakpoints d d'.
Proof.
  unfold stop_debug. case_match; [|intros [= <-]; by destruct d].
  intros He%send_backend_event_same. etrans; [|exact He]. by destruct d.
Qed.

Lemma evaluate_finish_same result d r d' :
  evaluate_finish result d = Some (r, d') → same_breakpoints d d'.
Proof.
  destruct result; [by intros [= _ <-]| |by intros [= _ <-]].
  intros ([[[value type_field] reference] d1] & He%into_evaluate_response_same & [= _ <-])%bind_Some. done.
Qed.

Lemma dispatch_ok fs object_variables cmd d r d' :
  breakpoints_ok d → room (requested cmd) d →
  dispatch fs object_variables cmd d = Some (r, d') →
  breakpoints_ok d' ∧ current_breakpoint_id d ≤ current_breakpoint_id d'
    ≤ current_breakpoint_id d + Z.of_nat (requested cmd).
Proof.
  intros Hd Hr Hc.
  assert (Hsame : same_breakpoints d d' → breakpoints_ok d' ∧
    current_breakpoint_id d ≤ current_breakpoint_id d' ≤ current_breakpoint_id d + Z.of_nat (requested cmd)).
  { intros Hs. split; [by eapply same_breakpoints_ok|]. destruct Hs as [_ ->]. lia. }
  destruct cmd; cbn [dispatch] in Hc; try (injection Hc as _ <-; apply Hsame; by destruct d).
  - by apply (handle_set_breakpoints_ok fs args d r d').
  - apply bind_Some in Hc as (? & _ & [= _ <-]). by apply Hsame.
  - apply Hsame. unfold handle_variables in Hc.
    apply bind_Some in Hc as ([variables d1] & ?%make_variables_same & [= _ <-]). done.
Qed.

(** A hit counts it or leaves the state alone. *)
Lemma handle_breakpoint_effect fs notebook ev uri i d r d' :
  handle_breakpoint fs notebook ev Some uri i d = Some (r, d') →
  d' = d ∨ ∃ n, increment_hit_count fs uri i d = Some (n, d').
Proof.
  unfold handle_breakpoint.
  case_match; [intros [= _ <-]; by left|]. case_match; [intros [= _ <-]; by left|].
  destruct (match _ ≫= condition with Some _ => _ | None => _ end) as [should_break blocks].
  intros (d0 & Hduring & Hrest)%bind_Some.
  assert (d0 = d) as -> by (destruct (_ ≫= condition); by injection Hduring as <-).
  revert Hrest. destruct should_break; cbn [negb]; [|intros [= _ <-]; by left].
  intros ([[reached blocks'] d1] & Hr & Hl)%bind_Some.
  assert (d' = d1) as ->.
  { revert Hl. destruct reached; cbn [negb]; [|by intros [= _ <-]].
    destruct (_ ≫= log_message); [|by intros [= _ <-]]. destruct (eval_log_message _ _). by intros [= _ <-]. }
  destruct (_ ≫= hit_condition); [|injection Hr as _ _ <-; by left].
  destruct (parse_u64 _); [injection Hr as _ _ <-; by left|].
  apply bind_Some in Hr as ([count d2] & Hi & [= _ _ <-]). right. eauto.
Qed.

Lemma increment_hit_count_id fs uri i d n d' :
  increment_hit_count fs uri i d = Some (n, d') → current_breakpoint_id d' = current_breakpoint_id d.
Proof.
  unfold increment_hit_count. destruct (bpm_get_mut _ _ _) as [[]|]; [|by intros [= _ <-]].
  destruct (find_breakpoint _ _); [|by intros [= _ <-]].
  intros (? & _ & [= _ <-])%bind_Some. by destruct d.
Qed.

(** *** Annotation *)

Lemma annotate_expr_ok next off info is_last st st' :
  bps_ok next (rw_breakpoints (ls_rewriter st)) → annotate_expr off info is_last st = Some st' →
  bps_ok next (rw_breakpoints (ls_rewriter st')).
Proof.
  intros Hb. unfold annotate_expr, list_fail, fail.
  intros (s & _ & (e & _ & (l & _ & Hl)%bind_Some)%bind_Some)%bind_Some.
  revert Hl. case_bool_decide; [intros [= <-]; cbn; by case_match|].
  match goal with |- context [ ?f <$> rw_breakpoints _ ] => set (anchor := f) end.
  assert (Ha : bps_ok next (anchor <$> rw_breakpoints (ls_rewriter st))).
  { apply bps_ok_fmap; [|intros bp; unfold anchor; by case_match|done].
    intros bp []. unfold anchor. case_match; [|by split].
    split; cbn; try done. apply to_u32_bounds. }
  destruct (match filter _ _ with [] => _ | _ :: _ => _ end) as [slots directive].
  intros (line & _ & Hl)%bind_Some. revert Hl. destruct line; [intros [= <-]; cbn; by case_match|].
  case_match; [|intros [= <-]; done]. intros (call & _ & [= <-])%bind_Some. done.
Qed.

Lemma annotate_exprs_ok next off infos st st' :
  bps_ok next (rw_breakpoints (ls_rewriter st)) → annotate_exprs off infos st = Some st' →
  bps_ok next (rw_breakpoints (ls_rewriter st')).
Proof.
  revert st. induction infos as [|info infos IH]; intros st Hb; cbn [annotate_exprs].
  - by intros [= <-].
  - intros (st1 & H1 & H2)%bind_Some. eapply annotate_expr_ok in H1; [|exact Hb].
    destruct (ls_failed st1); [by injection H2 as <-|by eapply IH].
Qed.

Lemma mark_breakpoints_invalid_ok next start stop reason w :
  bps_ok next (rw_breakpoints w) → bps_ok next (rw_breakpoints (mark_breakpoints_invalid start stop reason w)).
Proof.
  intros Hb. apply bps_ok_fmap; [|intros bp; by case_match|done].
  intros bp ?. case_match; [|done]. by apply set_state_ok.
Qed.

Lemma visit_ok next off v w w' :
  bps_ok next (rw_breakpoints w) → visit off v w = Some w' → bps_ok next (rw_breakpoints w').
Proof.
  intros Hb. unfold visit. destruct (err w); [by intros [= <-]|].
  destruct v as [[]|]; [by intros [= <-]..|]. destruct (brace_stack w) as [|frame frames]; [by intros [= <-]|].
  destruct (last (expr_info frame)) as [info|].
  - unfold leave_braces, annotate_braced_list.
    intros (s & _ & (e & _ & (w1 & Hl & (floor & _ & [= <-])%bind_Some)%bind_Some)%bind_Some)%bind_Some.
    apply mark_breakpoints_invalid_ok.
    apply bind_Some in Hl as (? & _ & (? & _ & (st & Hst & Hl)%bind_Some)%bind_Some).
    apply (annotate_exprs_ok next) in Hst; [|done]. destruct (ls_failed st); by injection Hl as <-.
  - unfold leave_empty. intros (s & _ & (c & _ & (i & _ & (e & _ & [= <-])%bind_Some)%bind_Some)%bind_Some)%bind_Some.
    repeat case_bool_decide; by repeat apply mark_breakpoints_invalid_ok.
Qed.

Lemma annotate_ok next off walk bps bps' r :
  bps_ok next bps → annotate off walk bps = Some (bps', r) → bps_ok next bps'.
Proof.
  intros Hb. unfold annotate. destruct walk as [walk|]; [|by intros [= <- _]].
  intros (w & Hw & [= <- _])%bind_Some.
  apply (foldM_inv (visit off) (λ w, bps_ok next (rw_breakpoints w)) walk (rewriter_new bps) w); [| |done].
  - intros v w1 w2 _. apply visit_ok.
  - cbn. eapply bps_ok_perm; [|exact Hb]. symmetry. apply sort_by_key_perm.
Qed.

(** *** Without overflow checks nothing panics *)

Section release.
Context (Hrelease : debug_assertions = false).

Lemma bind_total {A B} (m : option A) (f : A → option B) :
  is_Some m → (∀ a, m = Some a → is_Some (f a)) → is_Some (m ≫= f).
Proof. intros [a ->] Hf. by apply Hf. Qed.

Lemma foldM_always {A S} (f : A → S → option S) l s :
  (∀ a s, is_Some (f a s)) → is_Some (foldM f l s).
Proof.
  intros Hf. revert s. induction l as [|a l IH]; intros s; cbn [foldM]; [eauto|].
  apply bind_total; [done|]. eauto.
Qed.

Ltac total := repeat first
  [ done | eexists; reflexivity | by apply overflowing_release
  | solve [eauto 2] | apply bind_total; [|intros ? _] | apply foldM_always; intros
  | match goal with |- is_Some (match ?x with _ => _ end) => destruct x end | intro ].

Lemma send_backend_event_total event d : is_Some (send_backend_event event d).
Proof. unfold send_backend_event, into_dap_event, to_dap_line, add_u32, add_i64. total. Qed.

Lemma send_events_total events d : is_Some (foldM send_backend_event events d).
Proof. apply foldM_always. apply send_backend_event_total. Qed.

Hint Resolve send_backend_event_total send_events_total : core.

Lemma from_dap_line_total l : is_Some (from_dap_line l).
Proof. unfold from_dap_line. apply fmap_is_Some. by apply overflowing_release. Qed.

Lemma next_breakpoint_id_total d : is_Some (next_breakpoint_id d).
Proof. unfold next_breakpoint_id, add_i64. total. Qed.

Lemma variables_reference_of_total x d : is_Some (variables_reference_of x d).
Proof. unfold variables_reference_of, insert_variables_reference_object, add_i64. total. Qed.

Lemma load_frame_total frame d : is_Some (load_frame frame d).
Proof. unfold load_frame, add_i64. total. Qed.

Hint Resolve from_dap_line_total next_breakpoint_id_total variables_reference_of_total load_frame_total : core.

Lemma make_variables_total variables d : is_Some (make_variables variables d).
Proof. apply foldM_always. intros variable [out d1]. unfold make_variable. total. Qed.

Lemma merge_breakpoints_total olds args d : is_Some (merge_breakpoints olds args d).
Proof.
  unfold merge_breakpoints. apply bind_total; [|by intros [[??]?] _].
  apply foldM_always. intros sb [[m bps] d1]. unfold merge_breakpoint. total.
Qed.

Lemma replace_loop_total args d : is_Some (foldM replace_breakpoint args ([], d)).
Proof. rewrite <- merge_from_nothing. apply merge_breakpoints_total. Qed.

Lemma response_total bps : is_Some (mapM response_breakpoint bps).
Proof.
  apply mapM_is_Some, Forall_forall. intros bp _. unfold response_breakpoint, to_dap_line, add_u32. total.
Qed.

Hint Resolve make_variables_total merge_breakpoints_total replace_loop_total response_total : core.

Lemma slice_vec_total {A} (l : list A) i j : (i ≤ j ≤ length l)%nat → is_Some (slice_vec l i j).
Proof. intros. unfold slice_vec. rewrite bool_decide_true by done. eauto. Qed.
Lemma handle_set_breakpoints_total fs args d : is_Some (handle_set_breakpoints fs args d).
Proof.
  unfold handle_set_breakpoints. destruct (source_path args); [|total]. destruct (from_path_buf _); [|total].
  destruct (fs_read_to_string _ _).
  - apply bind_total; [case_match; [case_bool_decide|]; eauto|]. intros [bps d1] _. total.
  - apply bind_total; [|intros [] _; total]. apply foldM_always. intros sb [bps d1].
    unfold unreadable_breakpoint. total.
Qed.

Lemma handle_stacktrace_total args d : is_Some (handle_stacktrace args d).
Proof.
  unfold handle_stacktrace. cbv zeta.
  set (frames := match stack d with Some _ => _ | None => _ end). clearbody frames.
  destruct (usize_try_from _) as [start|]; [|total].
  destruct (match levels args with Some _ => _ | None => _ end) as [e|stop] eqn:E; [total|].
  case_bool_decide; [|total]. apply bind_total; [|total]. apply slice_vec_total.
  destruct (levels args) as [n|]; [destruct (usize_try_from n)|]; simplify_eq; [|lia].
  unfold saturating_add. lia.
Qed.

Lemma dispatch_total fs object_variables cmd d : is_Some (dispatch fs object_variables cmd d).
Proof.
  destruct cmd; cbn [dispatch]; try (eexists; reflexivity).
  - apply handle_set_breakpoints_total.
  - apply bind_total; [apply handle_stacktrace_total|]. total.
  - unfold handle_variables. total.
Qed.

Lemma evaluate_finish_total result d : is_Some (evaluate_finish result d).
Proof. unfold evaluate_finish, into_evaluate_response. total. Qed.

Lemma verify_breakpoints_total fs uri s e d : is_Some (verify_breakpoints fs uri s e d).
Proof. unfold verify_breakpoints. repeat case_match; eauto. Qed.

Lemma verify_breakpoint_total fs uri i d : is_Some (verify_breakpoint fs uri i d).
Proof. unfold verify_breakpoint. repeat case_match; eauto. Qed.

Lemma did_change_document_total fs uri d : is_Some (did_change_document fs uri d).
Proof. unfold did_change_document. repeat case_match; eauto. Qed.

Lemma notify_invalid_total fs uri d : is_Some (notify_invalid_breakpoints fs uri d).
Proof. unfold notify_invalid_breakpoints. repeat case_match; eauto. Qed.

Lemma increment_hit_count_total fs uri i d : is_Some (increment_hit_count fs uri i d).
Proof.
  unfold increment_hit_count, add_u64. destruct (bpm_get_mut _ _ _) as [[]|]; [|total].
  destruct (find_breakpoint _ _); total.
Qed.

Lemma handle_breakpoint_total fs notebook ev uri i d : is_Some (handle_breakpoint fs notebook ev Some uri i d).
Proof.
  unfold handle_breakpoint. case_match; [total|]. case_match; [total|].
  destruct (match _ ≫= condition with Some _ => _ | None => _ end) as [should_break blocks].
  apply bind_total; [total|]. intros d0 _.
  destruct should_break; cbn [negb]; [|total]. apply bind_total.
  - destruct (_ ≫= hit_condition); [|total]. destruct (parse_u64 _); [total|].
    apply bind_total; [apply increment_hit_count_total|total].
  - intros [[reached blocks'] d1] _. total.
Qed.

Lemma start_debug_total frames sources reason d : is_Some (start_debug frames sources reason d).
Proof. unfold start_debug, load_variables_references. apply bind_total; [total|]. intros [] _. eauto. Qed.

Lemma stop_debug_total d : is_Some (stop_debug d).
Proof. unfold stop_debug. case_match; eauto. Qed.

Lemma add_i32_total a b : is_Some (add_i32 a b).
Proof. by apply overflowing_release. Qed.
Lemma add_u32_total a b : is_Some (add_u32 a b).
Proof. by apply overflowing_release. Qed.
Lemma to_doc_line_total off l : is_Some (to_doc_line off l).
Proof. apply add_i32_total. Qed.

Hint Resolve add_i32_total add_u32_total to_doc_line_total notify_invalid_total : core.

Lemma annotate_expr_total off info is_last st : is_Some (annotate_expr off info is_last st).
Proof. unfold annotate_expr, line_directive, verify_call. total. Qed.

Lemma annotate_exprs_total off infos st : is_Some (annotate_exprs off infos st).
Proof.
  revert st. induction infos as [|info infos IH]; intros st; cbn [annotate_exprs]; [eauto|].
  apply bind_total; [apply annotate_expr_total|]. intros st' _. case_match; eauto.
Qed.

Lemma visit_total off v w : is_Some (visit off v w).
Proof.
  unfold visit, leave_braces, leave_empty, annotate_braced_list.
  repeat first [apply annotate_exprs_total | progress total].
Qed.

Lemma annotate_total off walk bps : is_Some (annotate off walk bps).
Proof.
  unfold annotate, transform. destruct walk; [|total]. apply bind_total; [|total].
  apply foldM_always. apply visit_total.
Qed.

Lemma ps_annotate_source_total fs walk path d : is_Some (ps_annotate_source fs walk path d).
Proof.
  unfold ps_annotate_source. destruct (bpm_get_mut _ _ _) as [[]|]; [|total].
  case_bool_decide; [total|]. apply bind_total; [apply annotate_total|]. intros [bps r] _. total.
Qed.

Lemma annotate_console_input_total fs walk start_line cell parsed path d :
  is_Some (annotate_console_input fs walk start_line cell parsed path d).
Proof.
  unfold annotate_console_input. apply bind_total; [|total].
  destruct (bpm_get_mut _ _ _) as [[]|]; [|total]. apply bind_total; [apply annotate_total|]. intros [] _. total.
Qed.
End release.

(** *** Sequences of operations

    Each holds the lock of the state from its first change to its last. Where
    the code lets go of it in between, the part that changes the state is an
    operation too: the end of an evaluation, the answer to a request for
    variables, the count of a hit. *)

Inductive DapOp :=
| OpRequest (fs : Fs) (object_variables : RObject → list RVariable) (cmd : Command)
| OpMakeVariables (variables : list RVariable)
| OpEvaluateFinish (result : EvalResult)
| OpAnnotateSource (fs : Fs) (walk : option (list Visit)) (path : FilePath)
| OpConsoleInput (fs : Fs) (walk : option (list Visit)) (start_line : Z) (notebook_cell parsed : bool)
    (path : FilePath)
| OpVerifyRange (fs : Fs) (uri : FilePath) (start_line end_line : Z)
| OpVerify (fs : Fs) (uri : FilePath) (bp_id : text)
| OpDidChange (fs : Fs) (uri : FilePath)
| OpHit (fs : Fs) (notebook : bool) (ev : HitEval) (uri : FilePath) (bp_id : Z)
| OpCountHit (fs : Fs) (uri : FilePath) (bp_id : Z)
| OpStartDebug (frames : list FrameInfo) (sources : gmap text text) (reason : DebugStoppedReason)
| OpStopDebug
| OpInvalidated
| OpIOPub
| OpReset.

Definition apply_op (op : DapOp) d : option Dap :=
  match op with
  | OpRequest fs object_variables cmd => snd <$> dispatch fs object_variables cmd d
  | OpMakeVariables variables => snd <$> make_variables variables d
  | OpEvaluateFinish result => snd <$> evaluate_finish result d
  | OpAnnotateSource fs walk path => snd <$> ps_annotate_source fs walk path d
  | OpConsoleInput fs walk start_line notebook_cell parsed path =>
      annotate_console_input fs walk start_line notebook_cell parsed path d
  | OpVerifyRange fs uri start_line end_line => verify_breakpoints fs uri start_line end_line d
  | OpVerify fs uri bp_id => verify_breakpoint fs uri bp_id d
  | OpDidChange fs uri => did_change_document fs uri d
  | OpHit fs notebook ev uri bp_id => snd <$> handle_breakpoint fs notebook ev Some uri bp_id d
  | OpCountHit fs uri bp_id => snd <$> increment_hit_count fs uri bp_id d
  | OpStartDebug frames sources reason => start_debug frames sources reason d
  | OpStopDebug => stop_debug d
  | OpInvalidated => send_invalidated d
  | OpIOPub => Some (set_iopub_tx d)
  | OpReset => Some (reset d)
  end.

Definition run_ops (ops : list DapOp) d : option Dap := foldM apply_op ops d.

(** The breakpoints that a sequence of operations asks for. *)
Definition op_requested (op : DapOp) : nat :=
  match op with OpRequest _ _ cmd => requested cmd | _ => 0 end.
Definition total_requested (ops : list DapOp) : nat := sum_list (op_requested <$> ops).

Lemma apply_op_total op d : debug_assertions = false → is_Some (apply_op op d).
Proof.
  intros Hrel. destruct op; cbn [apply_op]; try apply fmap_is_Some; try (eexists; reflexivity);
    auto using dispatch_total, make_variables_total, evaluate_finish_total, increment_hit_count_total, ps_annotate_source_total, annotate_console_input_total,
      verify_breakpoints_total, verify_breakpoint_total, did_change_document_total,
      handle_breakpoint_total, start_debug_total, stop_debug_total.
  by apply send_backend_event_total.
Qed.

Lemma ps_annotate_source_ok fs walk path d r d' :
  breakpoints_ok d → ps_annotate_source fs walk path d = Some (r, d') →
  breakpoints_ok d' ∧ current_breakpoint_id d' = current_breakpoint_id d.
Proof.
  intros Hd. unfold ps_annotate_source.
  destruct (bpm_get_mut _ _ _) as [[primary entry]|] eqn:E; [|by intros [= _ <-]].
  case_bool_decide; [by intros [= _ <-]|]. apply bpm_get_mut_Some in E as [_ E].
  intros ([bps result] & Ha & Hr)%bind_Some.
  pose proof (write_entry_ok d primary entry bps E (λ Hb, annotate_ok _ _ _ _ _ _ Hb Ha) Hd) as Hw.
  assert (current_breakpoint_id (write_entry d primary (set_breakpoints bps entry)) = current_breakpoint_id d)
    as Hid by by destruct d.
  destruct result; [by injection Hr as _ <-|].
  apply bind_Some in Hr as (d1 & [Hm Hn]%notify_invalid_same & [= _ <-]).
  split; [apply remove_disabled_ok; eapply same_breakpoints_ok; [|exact Hw]; done|].
  rewrite <- Hid, <- Hn. unfold remove_disabled_breakpoints. case_match; [case_match|done]. by destruct d1.
Qed.

Lemma remove_disabled_id fs uri d :
  current_breakpoint_id (remove_disabled_breakpoints fs uri d) = current_breakpoint_id d.
Proof. unfold remove_disabled_breakpoints. case_match; [case_match|done]. by destruct d. Qed.

Lemma annotate_console_input_ok fs walk start_line cell parsed path d d' :
  breakpoints_ok d → annotate_console_input fs walk start_line cell parsed path d = Some d' →
  breakpoints_ok d' ∧ current_breakpoint_id d' = current_breakpoint_id d.
Proof.
  intros Hd. unfold annotate_console_input. intros (d1 & Hw & Hp)%bind_Some.
  assert (H1 : breakpoints_ok d1 ∧ current_breakpoint_id d1 = current_breakpoint_id d).
  { destruct (bpm_get_mut _ _ _) as [[primary entry]|] eqn:E; [|by injection Hw as <-].
    apply bpm_get_mut_Some in E as [_ E]. apply bind_Some in Hw as ([bps r] & Ha & [= <-]).
    split; [|by destruct d]. apply (write_entry_ok d primary entry bps E); [|done].
    intros Hb. by eapply annotate_ok. }
  destruct H1 as [H1 Hid]. destruct parsed; [|by injection Hp as <-].
  apply bind_Some in Hp as (d2 & [Hm Hn]%notify_invalid_same & [= <-]).
  rewrite remove_disabled_id. split; [|congruence].
  apply remove_disabled_ok. eapply same_breakpoints_ok; [|exact H1]. done.
Qed.

Lemma verify_breakpoints_id fs uri s e d d' :
  verify_breakpoints fs uri s e d = Some d' → current_breakpoint_id d' = current_breakpoint_id d.
Proof.
  unfold verify_breakpoints. destruct (bpm_get_mut _ _ _) as [[]|]; [|by intros [= <-]].
  intros [_ ->]%send_events_same. by destruct d.
Qed.

Lemma verify_breakpoint_id fs uri i d d' :
  verify_breakpoint fs uri i d = Some d' → current_breakpoint_id d' = current_breakpoint_id d.
Proof.
  unfold verify_breakpoint. destruct (bpm_get_mut _ _ _) as [[]|]; [|by intros [= <-]].
  destruct (find_breakpoint _ _); [|by intros [= <-]]. case_bool_decide; [|by intros [= <-]].
  intros [_ ->]%send_backend_event_same. by destruct d.
Qed.

Lemma did_change_document_id fs uri d d' :
  did_change_document fs uri d = Some d' → current_breakpoint_id d' = current_breakpoint_id d.
Proof.
  unfold did_change_document. destruct (bpm_remove _ _ _) as [[] m]; [|by intros [= <-]].
  intros [_ ->]%send_events_same. by destruct d.
Qed.

Lemma apply_op_ok op d d' :
  breakpoints_ok d → room (op_requested op) d → apply_op op d = Some d' →
  breakpoints_ok d' ∧ current_breakpoint_id d' ≤ current_breakpoint_id d + Z.of_nat (op_requested op).
Proof.
  intros Hd Hr Ho.
  assert (Hsame : same_breakpoints d d' → breakpoints_ok d' ∧
    current_breakpoint_id d' ≤ current_breakpoint_id d + Z.of_nat (op_requested op)).
  { intros Hs. split; [by eapply same_breakpoints_ok|]. destruct Hs as [_ ->]. lia. }
  destruct op; cbn [apply_op op_requested] in *; try (apply fmap_Some in Ho as ([r d1] & Ho & ->); cbn [snd] in * ).
  - destruct (dispatch_ok _ _ _ _ _ _ Hd Hr Ho) as [? ?]. split; [done|lia].
  - apply Hsame. by eapply make_variables_same.
  - apply Hsame. by eapply evaluate_finish_same.
  - destruct (ps_annotate_source_ok _ _ _ _ _ _ Hd Ho) as [? ->]. split; [done|lia].
  - destruct (annotate_console_input_ok _ _ _ _ _ _ _ _ Hd Ho) as [? ->]. split; [done|lia].
  - rewrite (verify_breakpoints_id _ _ _ _ _ _ Ho). split; [by eapply verify_breakpoints_ok|lia].
  - rewrite (verify_breakpoint_id _ _ _ _ _ Ho). split; [by eapply verify_breakpoint_ok|lia].
  - rewrite (did_change_document_id _ _ _ _ Ho). split; [by eapply did_change_document_ok|lia].
  - destruct (handle_breakpoint_effect _ _ _ _ _ _ _ _ Ho) as [-> |[n Hi]]; [split; [done|lia]|].
    rewrite (increment_hit_count_id _ _ _ _ _ _ Hi). split; [by eapply increment_hit_count_ok|lia].
  - rewrite (increment_hit_count_id _ _ _ _ _ _ Ho). split; [by eapply increment_hit_count_ok|lia].
  - apply Hsame. by eapply start_debug_same.
  - apply Hsame. by apply stop_debug_same.
  - apply Hsame. by eapply send_backend_event_same.
  - injection Ho as <-. apply Hsame. by destruct d.
  - injection Ho as <-. split; [by apply reset_ok|]. destruct d; cbn. lia.
Qed.

Lemma run_ops_ok ops d d' :
  breakpoints_ok d → room (total_requested ops) d → run_ops ops d = Some d' → breakpoints_ok d'.
Proof.
  unfold total_requested, run_ops. revert d. induction ops as [|op ops IH]; intros d Hd [Hp Hr].
  - by intros [= <-].
  - cbn in Hr. intros (d1 & H1 & Hrun)%bind_Some.
    destruct (apply_op_ok op d d1 Hd) as [Hd1 Hle]; [split; lia|done|].
    eapply IH; [exact Hd1| |exact Hrun]. split; [apply Hd1|lia].
Qed.

Lemma new_dap_ok : breakpoints_ok new_dap.
Proof. split; [done|apply map_Forall_empty|apply map_Forall_empty]. Qed.

(** *** A request for a readable file, in full *)

Lemma from_dap_line_valid sb : 1 ≤ sb_line sb < 2 ^ 32 → from_dap_line (sb_line sb) = Some (req_line sb).
Proof.
  intros Hl. unfold from_dap_line, add_i64, req_line, to_u32. rewrite overflowing_exact by lia. done.
Qed.

Lemma merge_loop_runs olds args d :
  bps_ok (current_breakpoint_id d) olds → room (length args) d →
  Forall (λ sb, 1 ≤ sb_line sb < 2 ^ 32) args →
  ∃ rest answers d', foldM merge_breakpoint args (by_original_line olds, [], d) = Some (rest, answers, d') ∧
    Merged (by_original_line olds) d args rest answers d'.
Proof.
  intros Hok Hr Hl.
  assert (Hrun : is_Some (foldM merge_breakpoint args (by_original_line olds, [], d))).
  { revert Hr Hl. induction args as [|sb args IH] using rev_ind; [by eexists|].
    intros [Hp Hr] [Hl Hsb]%Forall_app. rewrite length_app in Hr. simpl in Hr. apply Forall_cons in Hsb as [Hsb _].
    destruct IH as [[[rest answers] d1] Hf]; [split; lia|done|]. rewrite foldM_app, Hf. cbn [mbind option_bind foldM].
    destruct Hok as [Hn Ha]. destruct (by_original_line_ids olds Hn) as [Hnd Hsub].
    apply merged_loop in Hf; [|done| |split; lia].
    - apply bind_total; [|eauto]. unfold merge_breakpoint. rewrite from_dap_line_valid by done. cbn.
      destruct (rest !! _); [eauto|]. destruct Hf as [_ Hnx _ _ _ _ _].
      rewrite next_breakpoint_id_spec by (split; lia). cbn. eauto.
    - intros i (bp & -> & Hin)%Hsub%list_elem_of_fmap. rewrite Forall_forall in Ha. apply Ha in Hin as []. lia. }
  destruct Hrun as [[[rest answers] d'] Hf]. exists rest, answers, d'. split; [done|].
  destruct Hok as [Hn Ha]. destruct (by_original_line_ids olds Hn) as [Hnd Hsub]. apply merged_loop; try done.
  intros i (bp & -> & Hin)%Hsub%list_elem_of_fmap. rewrite Forall_forall in Ha. apply Ha in Hin as []. lia.
Qed.

Lemma answer_lines (old : gmap Z Breakpoint) before lo hi sb bp :
  answer_of old before lo hi sb bp → original_line bp = req_line sb ∧
  (1 ≤ sb_line sb < 2 ^ 32 → map_Forall (λ _ b, line b < 2 ^ 32 - 1) old → line bp < 2 ^ 32 - 1).
Proof.
  unfold answer_of, is_new.
  assert (Hnew : bp = new_breakpoint sb (id bp) (req_line sb) → original_line bp = req_line sb ∧
    (1 ≤ sb_line sb < 2 ^ 32 → map_Forall (λ _ b, line b < 2 ^ 32 - 1) old → line bp < 2 ^ 32 - 1)).
  { intros ->. cbn. split; [done|]. intros Hl _. unfold req_line. rewrite Z.mod_small by lia. lia. }
  destruct (old !! req_line sb) as [ob|] eqn:E; [case_bool_decide|]; [by intros [? _]; auto| |by intros [? _]; auto].
  intros ->. unfold keep_breakpoint. destruct (restored_state ob). cbn. split; [done|].
  intros _ Ho. by apply (Ho _ _ E).
Qed.

Lemma filter_true {A} (p : A → bool) l : Forall (λ a, p a = true) l → filter (λ a, p a) l = l.
Proof. induction 1 as [|a l Ha _ IH]; [done|]. rewrite filter_cons, Ha, decide_True by done. by rewrite IH. Qed.

Lemma filter_false {A} (p : A → bool) l : Forall (λ a, p a = false) l → filter (λ a, p a) l = [].
Proof. induction 1 as [|a l Ha _ IH]; [done|]. rewrite filter_cons, Ha, decide_False by (by intros []). exact IH. Qed.

(** The answers of a request, the breakpoints it hides, the state after. *)
Record Answered fs path uri content (sbs : list SourceBreakpoint) d d'
    (answers hidden : list Breakpoint) (response : list DapBreakpoint) : Prop := {
  an_entry : by_path (dap_breakpoints d') !! uri = Some (mkEntry path (blake3_hash content) (answers ++ hidden));
  an_ok : breakpoints_ok d';
  an_next : current_breakpoint_id d ≤ current_breakpoint_id d' ≤ current_breakpoint_id d + Z.of_nat (length sbs);
  an_length : length answers = length sbs;
  an_answer i sb bp : sbs !! i = Some sb → answers !! i = Some bp →
    answer_of (by_original_line (known_breakpoints fs d uri content)) (take i sbs)
      (current_breakpoint_id d) (current_breakpoint_id d') sb bp;
  an_hidden bp : bp ∈ hidden ↔ ∃ l old_bp, bp = disable_breakpoint l old_bp ∧
    by_original_line (known_breakpoints fs d uri content) !! l = Some old_bp ∧
    state old_bp = Verified ∧ l ∉ req_line <$> sbs;
  an_response : Forall2 (λ bp rb, response_breakpoint bp = Some rb) answers response;
}.

Lemma set_breakpoints_answered fs path uri content sbs d :
  breakpoints_ok d → room (length sbs) d → Forall (λ sb, 1 ≤ sb_line sb < 2 ^ 32) sbs →
  Forall (λ bp, line bp < 2 ^ 32 - 1) (known_breakpoints fs d uri content) →
  from_path_buf (mkPathBuf path true) = Some uri → fs_read_to_string fs path = Some content →
  ∃ d' answers hidden response,
    handle_set_breakpoints fs (mkSetBreakpoints (Some path) (Some sbs)) d =
      Some (reply (RSetBreakpoints response), d') ∧
    Answered fs path uri content sbs d d' answers hidden response.
Proof.
  intros Hd Hr Hl Hk Hu Hc. pose proof (known_breakpoints_ok fs d uri content Hd) as Hok.
  destruct (merge_loop_runs _ sbs d Hok Hr Hl) as (rest & answers & d1 & Hf & Hmg).
  assert (Hm : merge_breakpoints (known_breakpoints fs d uri content) sbs d =
    Some (answers ++ disabled_breakpoints rest, d1)) by (unfold merge_breakpoints; by rewrite Hf).
  assert (Hfil : filter (λ bp, negb (is_disabled bp)) (answers ++ disabled_breakpoints rest) = answers).
  { rewrite filter_app, filter_true, filter_false, app_nil_r; [done| |].
    - apply Forall_forall. intros bp (l & ob & -> & _)%elem_of_disabled. done.
    - apply Forall_lookup. intros i bp Hb. destruct Hmg as [_ _ _ Hlen Hans _ _].
      destruct (lookup_lt_is_Some_2 sbs i) as [sb Hsb]; [rewrite <- Hlen; by eapply lookup_lt_Some|].
      unfold is_disabled. by rewrite bool_decide_false by (by eapply answer_not_disabled, Hans). }
  pose proof (merged_bps_ok _ _ _ _ _ _ (bo_next d Hd) Hok Hmg) as Hall.
  assert (Hresp : is_Some (mapM response_breakpoint answers)).
  { apply mapM_is_Some, Forall_lookup. intros i bp Hb. destruct Hmg as [_ _ _ Hlen Hans _ _].
    destruct (lookup_lt_is_Some_2 sbs i) as [sb Hsb]; [rewrite <- Hlen; by eapply lookup_lt_Some|].
    assert (line bp < 2 ^ 32 - 1).
    { eapply answer_lines; [by apply Hans|by apply (Forall_lookup_1 _ _ _ _ Hl Hsb)|].
      intros l b [_ ?]%by_original_line_lookup. rewrite Forall_forall in Hk. by apply Hk. }
    destruct Hall as [_ [Hall _]%Forall_app]. destruct (Forall_lookup_1 _ _ _ _ Hall Hb).
    unfold compose, response_breakpoint, to_dap_line, add_u32. rewrite overflowing_exact by lia. cbn. eauto. }
  destruct Hresp as [response Hresp].
  exists (set_dap_map (bpm_insert fs uri (mkEntry path (blake3_hash content)
    (answers ++ disabled_breakpoints rest)) (dap_breakpoints d1)) d1), answers, (disabled_breakpoints rest), response.
  rewrite (handle_set_breakpoints_readable fs (mkSetBreakpoints (Some path) (Some sbs)) d path uri content)
    by done.
  change (default [] _) with sbs. rewrite Hm. cbn. rewrite Hfil, Hresp. split; [done|].
  destruct Hmg as [Hst Hnx Hrest Hlen Hans _ _].
  split; rewrite ?set_dap_map_map, ?set_dap_map_id; try done.
  - cbn. by rewrite lookup_insert_eq.
  - apply insert_entry_ok with d; try done; [lia|]. by rewrite Hst, set_breakpoint_id_map.
  - intros bp. rewrite elem_of_disabled, Hrest. setoid_rewrite map_lookup_filter_Some. naive_solver.
  - by apply mapM_Some.
Qed.

(** *** Unchecking and checking a breakpoint *)

Lemma by_original_line_unique bps bp :
  bp ∈ bps → (∀ b, b ∈ bps → original_line b = original_line bp → b = bp) →
  by_original_line bps !! original_line bp = Some bp.
Proof.
  induction bps as [|b bps IH] using rev_ind; [by intros ?%not_elem_of_nil|].
  intros Hin Hu. rewrite by_original_line_snoc.
  destruct (decide (original_line b = original_line bp)) as [He|Hne].
  - rewrite He, lookup_insert_eq. f_equal. apply Hu; [|done]. apply elem_of_app. right. by left.
  - rewrite lookup_insert_ne by done. apply IH.
    + apply elem_of_app in Hin as [?|Hin%list_elem_of_singleton]; [done|congruence].
    + intros b' Hb. apply Hu, elem_of_app. by left.
Qed.

Lemma by_original_line_none bps l :
  (∀ b, b ∈ bps → original_line b ≠ l) → by_original_line bps !! l = None.
Proof.
  intros Hl. destruct (by_original_line bps !! l) as [b|] eqn:E; [|done].
  apply by_original_line_lookup in E as [? Hb]. by destruct (Hl b Hb).
Qed.

Section answered.
Context {fs : Fs} {path : text} {uri : FilePath} {content : text} {sbs : list SourceBreakpoint} {d d' : Dap}.
Context {answers hidden : list Breakpoint} {response : list DapBreakpoint}.
Context (A : Answered fs path uri content sbs d d' answers hidden response).

Lemma answered_known fs' : known_breakpoints fs' d' uri content = answers ++ hidden.
Proof.
  unfold known_breakpoints, bpm_get, resolve_primary. rewrite (an_entry _ _ _ _ _ _ _ _ _ _ A). cbn.
  rewrite (an_entry _ _ _ _ _ _ _ _ _ _ A). cbn. by rewrite bool_decide_true.
Qed.

Lemma answered_line bp : bp ∈ answers → original_line bp ∈ req_line <$> sbs.
Proof.
  intros (i & Hi)%list_elem_of_lookup.
  destruct (lookup_lt_is_Some_2 sbs i) as [sb Hsb];
    [rewrite <- (an_length _ _ _ _ _ _ _ _ _ _ A); by eapply lookup_lt_Some|].
  destruct (answer_lines _ _ _ _ _ _ (an_answer _ _ _ _ _ _ _ _ _ _ A _ _ _ Hsb Hi)) as [-> _].
  apply list_elem_of_fmap. exists sb. split; [done|]. by eapply list_elem_of_lookup_2.
Qed.

Lemma answered_small_lines :
  Forall (λ sb, 1 ≤ sb_line sb < 2 ^ 32) sbs →
  Forall (λ bp, line bp < 2 ^ 32 - 1) (known_breakpoints fs d uri content) →
  Forall (λ bp, line bp < 2 ^ 32 - 1) (answers ++ hidden).
Proof.
  intros Hl Hk. rewrite Forall_forall in Hk. apply Forall_app. split; apply Forall_forall.
  - intros bp (i & Hi)%list_elem_of_lookup.
    destruct (lookup_lt_is_Some_2 sbs i) as [sb Hsb];
      [rewrite <- (an_length _ _ _ _ _ _ _ _ _ _ A); by eapply lookup_lt_Some|].
    eapply answer_lines; [by eapply (an_answer _ _ _ _ _ _ _ _ _ _ A)|by apply (Forall_lookup_1 _ _ _ _ Hl Hsb)|].
    intros l b [_ ?]%by_original_line_lookup. by apply Hk.
  - intros bp (l & ob & -> & Hl' & _)%(an_hidden _ _ _ _ _ _ _ _ _ _ A).
    apply by_original_line_lookup in Hl' as [_ ?]. cbn. by apply Hk.
Qed.

(** A verified breakpoint whose line is left out is hidden, and the only one of
    its line. *)
Lemma answered_hides l bp :
  by_original_line (known_breakpoints fs d uri content) !! l = Some bp → state bp = Verified →
  l ∉ req_line <$> sbs →
  by_original_line (answers ++ hidden) !! l = Some (disable_breakpoint l bp).
Proof.
  intros Hl Hv Hn.
  apply (by_original_line_unique (answers ++ hidden) (disable_breakpoint l bp)).
  - apply elem_of_app. right. apply (an_hidden _ _ _ _ _ _ _ _ _ _ A). eauto 6.
  - cbn. intros b [Hb|Hb]%elem_of_app Hb'.
    + apply answered_line in Hb. rewrite Hb' in Hb. done.
    + apply (an_hidden _ _ _ _ _ _ _ _ _ _ A) in Hb as (l' & ob & -> & Hl' & _). cbn in Hb'. subst l'. congruence.
Qed.

(** A hidden breakpoint whose line is left out again is gone. *)
Lemma answered_forgets l bp :
  by_original_line (known_breakpoints fs d uri content) !! l = Some bp → state bp ≠ Verified →
  l ∉ req_line <$> sbs → by_original_line (answers ++ hidden) !! l = None.
Proof.
  intros Hl Hv Hn. apply by_original_line_none. intros b [Hb|Hb]%elem_of_app <-.
  - by apply answered_line in Hb.
  - apply (an_hidden _ _ _ _ _ _ _ _ _ _ A) in Hb as (l' & ob & -> & Hl' & Hv' & _). cbn in *. congruence.
Qed.

Lemma answered_response i bp rb :
  answers !! i = Some bp → response !! i = Some rb → response_breakpoint bp = Some rb.
Proof. intros Hb Hr. by eapply (Forall2_lookup_lr _ _ _ _ _ _ (an_response _ _ _ _ _ _ _ _ _ _ A)). Qed.
End answered.

Lemma ids_inj bps b1 b2 : NoDup (id <$> bps) → b1 ∈ bps → b2 ∈ bps → id b1 = id b2 → b1 = b2.
Proof.
  intros Hn (i & Hi)%list_elem_of_lookup (j & Hj)%list_elem_of_lookup He.
  assert (i = j) as ->; [|congruence].
  eapply NoDup_lookup; [exact Hn| |]; rewrite list_lookup_fmap; [by rewrite Hi|by rewrite Hj, He].
Qed.

Lemma enabled_of_entry fs uri d e bp :
  breakpoints_ok d → by_path (dap_breakpoints d) !! uri = Some e → bp ∈ breakpoints e →
  is_breakpoint_enabled fs uri (id bp) d = bool_decide (state bp = Verified ∨ state bp = Unverified).
Proof.
  intros Hd He Hbp. destruct (bo_entries d Hd uri e He) as [Hn _].
  unfold is_breakpoint_enabled, bpm_get, resolve_primary. rewrite He. cbn. rewrite He.
  apply eq_iff_eq_true. rewrite existsb_exists, bool_decide_eq_true. split.
  - intros (b & Hb & [Hid Hs]%andb_true_iff). apply bool_decide_eq_true in Hid.
    apply list_elem_of_In in Hb. rewrite (ids_inj _ b bp Hn Hb Hbp Hid) in Hs.
    apply orb_true_iff in Hs as [Hs|Hs]; apply bool_decide_eq_true in Hs; auto.
  - intros Hs. exists bp. split; [by apply list_elem_of_In|].
    apply andb_true_iff. split; [by apply bool_decide_eq_true|].
    apply orb_true_iff. destruct Hs; [left|right]; by apply bool_decide_eq_true.
Qed.

Lemma answered_enabled fs fs' path uri content sbs d d' answers hidden response bp :
  Answered fs path uri content sbs d d' answers hidden response → bp ∈ answers ++ hidden →
  is_breakpoint_enabled fs' uri (id bp) d' = bool_decide (state bp = Verified ∨ state bp = Unverified).
Proof. intros A Hbp. by apply (enabled_of_entry fs' uri d' _ bp (an_ok _ _ _ _ _ _ _ _ _ _ A) (an_entry _ _ _ _ _ _ _ _ _ _ A)). Qed.

(** *** References of variables *)

(** References below [bound] answer what they did, or nothing. *)
Definition references_kept (bound : Z) d d' : Prop :=
  ∀ r, r < bound → variables_reference_to_r_object d' !! r = None ∨
    variables_reference_to_r_object d' !! r = variables_reference_to_r_object d !! r.

Definition references_step (n : nat) d d' : Prop :=
  current_variables_reference d ≤ current_variables_reference d'
    ≤ current_variables_reference d + Z.of_nat n ∧
  references_kept (current_variables_reference d) d d'.

Definition reference_room (n : nat) d : Prop :=
  0 < current_variables_reference d ∧ current_variables_reference d + Z.of_nat n < 2 ^ 63.

Lemma references_step_refl n d : references_step n d d.
Proof. split; [lia|]. by right. Qed.

Lemma references_step_trans n1 n2 d1 d2 d3 :
  references_step n1 d1 d2 → references_step n2 d2 d3 → references_step (n1 + n2) d1 d3.
Proof.
  intros [H1 K1] [H2 K2]. split; [lia|]. intros r Hr.
  destruct (K2 r) as [->| ->]; [lia|by left|by apply K1].
Qed.

Lemma set_references_fields frames objects next d :
  variables_reference_to_r_object (set_references frames objects next d) = objects ∧
  frame_id_to_variables_reference (set_references frames objects next d) = frames ∧
  current_variables_reference (set_references frames objects next d) = next.
Proof. by destruct d. Qed.

Lemma insert_reference_step frames x next d :
  next = current_variables_reference d + 1 →
  references_step 1 d (set_references frames
    (<[current_variables_reference d := x]> (variables_reference_to_r_object d)) next d).
Proof.
  intros ->. destruct (set_references_fields frames
    (<[current_variables_reference d := x]> (variables_reference_to_r_object d))
    (current_variables_reference d + 1) d) as (Ho & _ & Hn).
  split; rewrite ?Hn; [lia|]. intros r Hr. right. rewrite Ho. apply lookup_insert_ne. lia.
Qed.

Lemma variables_reference_of_step x d r d' :
  reference_room 1 d → variables_reference_of x d = Some (r, d') → references_step 1 d d'.
Proof.
  intros [? ?]. unfold variables_reference_of. destruct x as [x|].
  - unfold insert_variables_reference_object, add_i64. rewrite overflowing_exact by lia.
    intros [= _ <-]. by apply insert_reference_step.
  - intros [= _ <-]. apply references_step_refl.
Qed.

Lemma make_variables_step variables out d out' d' :
  reference_room (length variables) d → foldM make_variable variables (out, d) = Some (out', d') →
  references_step (length variables) d d'.
Proof.
  revert out d. induction variables as [|variable variables IH]; intros out d [Hp Hr].
  - intros [= _ <-]. apply references_step_refl.
  - cbn [length] in Hr. intros ([out1 d1] & Hv & Hrest)%bind_Some.
    apply bind_Some in Hv as ([r d2] & Hv & [= <- <-]).
    apply variables_reference_of_step in Hv; [|split; lia].
    apply (references_step_trans 1 (length variables) d d2 d'); [done|]. destruct Hv as [? _].
    apply (IH _ _) in Hrest; [done|split; lia].
Qed.

Lemma load_frame_fields f d d' :
  reference_room 1 d → load_frame f d = Some d' →
  current_variables_reference d' = current_variables_reference d + 1 ∧
  variables_reference_to_r_object d' =
    <[current_variables_reference d := default R_global (fr_environment f)]> (variables_reference_to_r_object d) ∧
  frame_id_to_variables_reference d' =
    <[fr_id f := current_variables_reference d]> (frame_id_to_variables_reference d).
Proof.
  intros [? ?]. unfold load_frame, add_i64. rewrite overflowing_exact by lia. intros [= <-].
  cbn [mbind option_bind]. by destruct d.
Qed.

(** Loading frames adds references; with distinct frames each finds its own. *)
Lemma load_frames_spec frames d d' :
  reference_room (length frames) d → foldM load_frame frames d = Some d' →
  current_variables_reference d' = current_variables_reference d + Z.of_nat (length frames) ∧
  (∀ r, r < current_variables_reference d →
    variables_reference_to_r_object d' !! r = variables_reference_to_r_object d !! r) ∧
  (∀ i, i ∉ fr_id <$> frames →
    frame_id_to_variables_reference d' !! i = frame_id_to_variables_reference d !! i) ∧
  (NoDup (fr_id <$> frames) → ∀ f, f ∈ frames →
    frame_env d' (Some (fr_id f)) = inr (default R_global (fr_environment f))).
Proof.
  revert d. induction frames as [|f frames IH]; intros d [Hp Hr].
  - intros [= <-]. split; [simpl; lia|]. split; [done|]. by split; [|intros _ ? ?%not_elem_of_nil].
  - cbn [length fmap list_fmap] in *. intros (d1 & Hl & Hrest)%bind_Some.
    destruct (load_frame_fields f d d1 ltac:(split; lia) Hl) as (Hn & Ho & Hf).
    apply IH in Hrest as (Hn' & Ho' & Hf' & He); [|split; lia]. split; [lia|]. split; [|split].
    + intros r Hlt. rewrite Ho', Ho by lia. apply lookup_insert_ne. lia.
    + intros i [Hne Hni]%not_elem_of_cons. rewrite Hf', Hf by done. by apply lookup_insert_ne.
    + intros [Hnf Hnd]%NoDup_cons g [->|Hg]%elem_of_cons; [|by apply He].
      unfold frame_env. rewrite Hf', Hf, lookup_insert_eq by done.
      by rewrite Ho', Ho, lookup_insert_eq by lia.
Qed.

Lemma send_backend_event_references event d d' :
  send_backend_event event d = Some d' →
  variables_reference_to_r_object d' = variables_reference_to_r_object d ∧
  frame_id_to_variables_reference d' = frame_id_to_variables_reference d ∧
  current_variables_reference d' = current_variables_reference d ∧ stack d' = stack d.
Proof.
  unfold send_backend_event. destruct d; cbn.
  destruct notebook_iopub_tx; cbn; intros; simplify_option_eq; done.
Qed.

(** Entering the debugger, or its next step. *)
Lemma start_debug_spec frames sources reason d d' :
  reference_room (length frames) d → start_debug frames sources reason d = Some d' →
  stack d' = Some (take_environment <$> frames) ∧
  current_variables_reference d' = current_variables_reference d + Z.of_nat (length frames) ∧
  (∀ r, r < current_variables_reference d → variables_reference_to_r_object d' !! r = None) ∧
  (∀ i, i ∉ fr_id <$> frames → frame_env d' (Some i) = inl (UnknownFrameId i)) ∧
  (NoDup (fr_id <$> frames) → ∀ f, f ∈ frames →
    frame_env d' (Some (fr_id f)) = inr (default R_global (fr_environment f))).
Proof.
  intros Hr. unfold start_debug, load_variables_references.
  intros ([frames' d1] & (d2 & Hl & [= <- <-])%bind_Some & He)%bind_Some.
  apply send_backend_event_references in He as (Ho & Hf & Hn & Hs).
  set (d0 := clear_variables_reference_maps d) in Hl.
  assert (current_variables_reference d0 = current_variables_reference d ∧
    variables_reference_to_r_object d0 = ∅ ∧ frame_id_to_variables_reference d0 = ∅) as (Hn0 & Ho0 & Hf0)
    by by destruct d.
  apply load_frames_spec in Hl as (Hn2 & Ho2 & Hf2 & Hin2);
    [|unfold reference_room in *; by rewrite Hn0].
  assert (variables_reference_to_r_object d' = variables_reference_to_r_object d2 ∧
    frame_id_to_variables_reference d' = frame_id_to_variables_reference d2 ∧
    current_variables_reference d' = current_variables_reference d2 ∧
    stack d' = Some (take_environment <$> frames)) as (Ho' & Hf' & Hn' & Hs').
  { rewrite Ho, Hf, Hn, Hs. by destruct d2. }
  split; [done|]. split; [by rewrite Hn', Hn2, Hn0|]. split; [|split].
  - intros r Hlt. by rewrite Ho', Ho2, Ho0, lookup_empty by by rewrite Hn0.
  - intros i Hi. unfold frame_env. by rewrite Hf', Hf2, Hf0, lookup_empty by done.
  - intros Hnd f Hin. rewrite <- (Hin2 Hnd f Hin). unfold frame_env. by rewrite Hf', Ho'.
Qed.

(** The references an operation takes in a state. *)
Definition op_references (op : DapOp) d : nat :=
  match op with
  | OpRequest _ object_variables (Variables r) => length (collect_r_variables object_variables r d)
  | OpMakeVariables variables => length variables
  | OpEvaluateFinish _ => 1
  | OpStartDebug frames _ _ => length frames
  | _ => 0
  end.

Fixpoint run_references (ops : list DapOp) d : nat :=
  match ops with
  | [] => 0
  | op :: ops => op_references op d +
      match apply_op op d with Some d' => run_references ops d' | None => 0 end
  end.

(** The part of the state that references live in. *)
Definition same_references d d' : Prop :=
  variables_reference_to_r_object d' = variables_reference_to_r_object d ∧
  current_variables_reference d' = current_variables_reference d.

Lemma same_references_step n d d' : same_references d d' → references_step n d d'.
Proof. intros [Ho Hn]. split; [lia|]. intros r _. right. by rewrite Ho. Qed.

#[local] Instance same_references_preorder : PreOrder same_references.
Proof. split; [done|]. intros ??? [] []. split; congruence. Qed.

Lemma send_events_references events d d' :
  foldM send_backend_event events d = Some d' → same_references d d'.
Proof.
  intros He. apply (foldM_inv send_backend_event (λ d', same_references d d') events d d'); [|reflexivity|exact He].
  intros event d1 d2 _ H1 (Ho & _ & Hn & _)%send_backend_event_references. by etrans.
Qed.

Lemma write_entry_references d primary e : same_references d (write_entry d primary e).
Proof. by destruct d. Qed.
Lemma set_dap_map_references m d : same_references d (set_dap_map m d).
Proof. by destruct d. Qed.

Lemma next_breakpoint_id_references d i d' : next_breakpoint_id d = Some (i, d') → same_references d d'.
Proof. intros (next & _ & [= _ <-])%bind_Some. by destruct d. Qed.

Lemma merge_breakpoints_references olds args d bps d' :
  merge_breakpoints olds args d = Some (bps, d') → same_references d d'.
Proof.
  intros ([[rest answers] d1] & Hf & [= _ <-])%bind_Some.
  apply (foldM_inv merge_breakpoint (λ st, same_references d st.2) args (by_original_line olds, [], d)
    (rest, answers, d1)); [|reflexivity|exact Hf].
  intros sb [[m b] d2] st _ H2 (l & _ & Hm)%bind_Some. etrans; [exact H2|]. clear H2. cbn.
  destruct (m !! l); [by injection Hm as <-|].
  by apply bind_Some in Hm as ([i d3] & ?%next_breakpoint_id_references & [= <-]).
Qed.

Lemma handle_set_breakpoints_references fs args d r d' :
  handle_set_breakpoints fs args d = Some (r, d') → same_references d d'.
Proof.
  destruct (source_path args) as [path|] eqn:Hp;
    [|unfold handle_set_breakpoints; rewrite Hp; by intros [= _ <-]].
  destruct (from_path_buf (mkPathBuf path true)) as [uri|] eqn:Hu;
    [|unfold handle_set_breakpoints; rewrite Hp, Hu; by intros [= _ <-]].
  destruct (fs_read_to_string fs path) as [content|] eqn:Hr.
  - rewrite (handle_set_breakpoints_readable fs args d path uri content Hp Hu Hr).
    intros ([bps d1] & ?%merge_breakpoints_references & (response & _ & [= _ <-])%bind_Some)%bind_Some.
    etrans; [eassumption|]. apply set_dap_map_references.
  - unfold handle_set_breakpoints. rewrite Hp, Hu, Hr. intros ([bps d1] & Hl & [= _ <-])%bind_Some.
    apply (foldM_inv unreadable_breakpoint (λ st, same_references d st.2) (default [] (args_breakpoints args))
      ([], d) (bps, d1)); [|reflexivity|exact Hl].
    intros sb [b d2] st _ H2 ([i d3] & ?%next_breakpoint_id_references & [= <-])%bind_Some. by etrans.
Qed.

Lemma verify_breakpoints_references fs uri s e d d' :
  verify_breakpoints fs uri s e d = Some d' → same_references d d'.
Proof.
  unfold verify_breakpoints. destruct (bpm_get_mut _ _ _) as [[]|]; [|by intros [= <-]].
  intros Hs%send_events_references. etrans; [apply write_entry_references|exact Hs].
Qed.

Lemma verify_breakpoint_references fs uri i d d' :
  verify_breakpoint fs uri i d = Some d' → same_references d d'.
Proof.
  unfold verify_breakpoint. destruct (bpm_get_mut _ _ _) as [[]|]; [|by intros [= <-]].
  destruct (find_breakpoint _ _); [|by intros [= <-]]. case_bool_decide; [|by intros [= <-]].
  intros (Ho & _ & Hn & _)%send_backend_event_references.
  etrans; [apply write_entry_references|by split; eassumption].
Qed.

Lemma did_change_document_references fs uri d d' :
  did_change_document fs uri d = Some d' → same_references d d'.
Proof.
  unfold did_change_document. destruct (bpm_remove _ _ _) as [[] m]; [|by intros [= <-]].
  intros Hs%send_events_references. etrans; [apply set_dap_map_references|exact Hs].
Qed.

Lemma remove_disabled_references fs uri d : same_references d (remove_disabled_breakpoints fs uri d).
Proof.
  unfold remove_disabled_breakpoints. destruct (bpm_get_mut _ _ _) as [[]|]; [apply write_entry_references|done].
Qed.

Lemma notify_remove_references fs uri d d' :
  notify_invalid_breakpoints fs uri d = Some d' →
  same_references d (remove_disabled_breakpoints fs uri d').
Proof.
  unfold notify_invalid_breakpoints. intros Hn.
  trans d'; [|apply remove_disabled_references].
  destruct (bpm_get _ _ _); [by apply send_events_references in Hn|by injection Hn as <-].
Qed.

Lemma increment_hit_count_references fs uri i d n d' :
  increment_hit_count fs uri i d = Some (n, d') → same_references d d'.
Proof.
  unfold increment_hit_count. destruct (bpm_get_mut _ _ _) as [[]|]; [|by intros [= _ <-]].
  destruct (find_breakpoint _ _); [|by intros [= _ <-]].
  intros (count & _ & [= _ <-])%bind_Some. apply write_entry_references.
Qed.

Lemma handle_breakpoint_references fs notebook ev uri i d r d' :
  handle_breakpoint fs notebook ev Some uri i d = Some (r, d') → same_references d d'.
Proof.
  intros [-> |[n ?%increment_hit_count_references]]%handle_breakpoint_effect; done.
Qed.

Lemma ps_annotate_source_references fs walk path d r d' :
  ps_annotate_source fs walk path d = Some (r, d') → same_references d d'.
Proof.
  unfold ps_annotate_source. destruct (bpm_get_mut _ _ _) as [[primary entry]|]; [|by intros [= _ <-]].
  case_bool_decide; [by intros [= _ <-]|]. intros ([bps result] & _ & Hr)%bind_Some.
  etrans; [apply (write_entry_references d primary (set_breakpoints bps entry))|].
  destruct result; [by injection Hr as _ <-|].
  by apply bind_Some in Hr as (d1 & ?%notify_remove_references & [= _ <-]).
Qed.

Lemma annotate_console_input_references fs walk start_line cell parsed path d d' :
  annotate_console_input fs walk start_line cell parsed path d = Some d' → same_references d d'.
Proof.
  unfold annotate_console_input. intros (d1 & Hw & Hp)%bind_Some. trans d1.
  - destruct (bpm_get_mut _ _ _) as [[primary entry]|]; [|by injection Hw as <-].
    apply bind_Some in Hw as ([bps r] & _ & [= <-]). apply write_entry_references.
  - destruct parsed; [|by injection Hp as <-].
    by apply bind_Some in Hp as (d2 & ?%notify_remove_references & [= <-]).
Qed.

Lemma dispatch_references fs object_variables cmd d r d' :
  reference_room (op_references (OpRequest fs object_variables cmd) d) d →
  dispatch fs object_variables cmd d = Some (r, d') →
  references_step (op_references (OpRequest fs object_variables cmd) d) d d'.
Proof.
  intros Hr Hc. destruct cmd; cbn [dispatch op_references] in *;
    try (apply same_references_step; injection Hc as _ <-; by destruct d).
  - apply same_references_step. by eapply handle_set_breakpoints_references.
  - apply same_references_step. by apply bind_Some in Hc as (? & _ & [= _ <-]).
  - unfold handle_variables, make_variables in Hc.
    apply bind_Some in Hc as ([out d1] & Hm & [= _ <-]). by eapply make_variables_step.
Qed.

Lemma evaluate_finish_references result d r d' :
  reference_room 1 d → evaluate_finish result d = Some (r, d') → references_step 1 d d'.
Proof.
  intros Hr. unfold evaluate_finish, into_evaluate_response.
  destruct result; try (intros [= _ <-]; apply references_step_refl).
  intros ([[[value type_field] reference] d1] & ([i d2] & Hv & [= _ _ _ <-])%bind_Some & [= _ <-])%bind_Some.
  by eapply variables_reference_of_step.
Qed.

Lemma apply_op_references op d d' :
  op ≠ OpStopDebug → reference_room (op_references op d) d → apply_op op d = Some d' →
  references_step (op_references op d) d d'.
Proof.
  intros Hne Hr Ho.
  destruct op; cbn [apply_op] in Ho; try (apply fmap_Some in Ho as ([r d1] & Ho & ->); cbn [snd]).
  - by eapply dispatch_references.
  - by eapply make_variables_step.
  - by eapply evaluate_finish_references.
  - apply same_references_step. by eapply ps_annotate_source_references.
  - apply same_references_step. by eapply annotate_console_input_references.
  - apply same_references_step. by eapply verify_breakpoints_references.
  - apply same_references_step. by eapply verify_breakpoint_references.
  - apply same_references_step. by eapply did_change_document_references.
  - apply same_references_step. by eapply handle_breakpoint_references.
  - apply same_references_step. by eapply increment_hit_count_references.
  - destruct (start_debug_spec _ _ _ _ _ Hr Ho) as (_ & Hn & Hnone & _).
    split; [cbn; lia|]. intros r ?. left. by apply Hnone.
  - done.
  - apply same_references_step. by apply send_backend_event_references in Ho as (? & _ & ? & _).
  - injection Ho as <-. apply same_references_step. by destruct d.
  - injection Ho as <-. apply same_references_step. by destruct d.
Qed.

Lemma run_ops_references ops d d' :
  OpStopDebug ∉ ops → reference_room (run_references ops d) d → run_ops ops d = Some d' →
  references_step (run_references ops d) d d'.
Proof.
  unfold run_ops. revert d. induction ops as [|op ops IH]; intros d Hstop [Hp Hr].
  - intros [= <-]. apply references_step_refl.
  - apply not_elem_of_cons in Hstop as [Hne Hstop]. cbn [foldM run_references] in *.
    intros (d1 & H1 & Hrun)%bind_Some. rewrite H1 in *.
    assert (Hs : references_step (op_references op d) d d1) by (apply apply_op_references; [done|split; lia|done]).
    eapply references_step_trans; [exact Hs|]. destruct Hs as [? _].
    apply IH; [done|split; lia|done].
Qed.

(** *** Hits *)

Lemma find_alter_first (p : Breakpoint → bool) f bps :
  (∀ b, p (f b) = p b) → find_breakpoint p (alter_first p f bps) = f <$> find_breakpoint p bps.
Proof.
  intros Hp. unfold find_breakpoint. induction bps as [|b bps IH]; simpl; [done|].
  destruct (p b) eqn:E; simpl; [by rewrite Hp, E|by rewrite E].
Qed.

Lemma existsb_alter_first (p q : Breakpoint → bool) f bps :
  (∀ b, q (f b) = q b) → existsb q (alter_first p f bps) = existsb q bps.
Proof. intros Hq. induction bps as [|b bps IH]; simpl; [done|]. destruct (p b); simpl; by rewrite ?Hq, ?IH. Qed.

Lemma resolve_primary_write fs m p primary e :
  is_Some (by_path m !! primary) → resolve_primary fs (bpm_write m primary e) p = resolve_primary fs m p.
Proof.
  intros [e' He]. unfold resolve_primary. cbn. destruct (decide (primary = p)) as [->|].
  - by rewrite lookup_insert_eq, He.
  - by rewrite lookup_insert_ne by done.
Qed.

(** Counting a hit of a breakpoint that is there. *)
Lemma increment_hit_count_spec fs uri i d bp :
  get_breakpoint fs uri i d = Some bp → 0 ≤ hit_count bp → hit_count bp + 1 < 2 ^ 64 →
  ∃ d', increment_hit_count fs uri i d = Some (hit_count bp + 1, d') ∧
    get_breakpoint fs uri i d' = Some (set_hit_count (hit_count bp + 1) bp) ∧
    is_breakpoint_enabled fs uri i d' = is_breakpoint_enabled fs uri i d ∧
    is_connected d' = is_connected d.
Proof.
  unfold get_breakpoint, increment_hit_count, is_breakpoint_enabled.
  intros (e & He & Hf)%bind_Some Hnn Hlt. rewrite bpm_get_mut_get in *.
  apply fmap_Some in He as ([primary e'] & Hm & ->). cbn [snd] in *. rewrite Hm, Hf. cbn [fmap option_fmap option_map snd].
  unfold add_u64. rewrite overflowing_exact by lia. cbn [mbind option_bind]. eexists. split; [done|].
  apply bpm_get_mut_Some in Hm as [Hres Hp].
  assert (Hget : ∀ e2, bpm_get fs (dap_breakpoints (write_entry d primary e2)) uri = Some e2).
  { intros e2. unfold write_entry, bpm_get. rewrite set_dap_map_map, resolve_primary_write, Hres by eauto. cbn.
    by rewrite lookup_insert_eq. }
  rewrite !Hget. cbn. rewrite find_alter_first, Hf by done. split; [done|]. split; [|by destruct d].
  by apply existsb_alter_first.
Qed.

(** The verdicts of [n] hits in a row. *)
Fixpoint hits fs (notebook : bool) (ev : HitEval) uri i (n : nat) d : option (list bool * Dap) :=
  match n with
  | O => Some ([], d)
  | S n =>
      '(stops, _, d) ← handle_breakpoint fs notebook ev Some uri i d;
      '(later, d) ← hits fs notebook ev uri i n d;
      Some (stops :: later, d)
  end.

(** The frames a client is shown. *)
Definition dap_frames d : list StackFrame :=
  match stack d with
  | Some frames => (λ frame, into_dap_frame frame (fallback_sources d)) <$> frames
  | None => []
  end.
End state.
