(* ===== verification/DapTheorems.v ===== *)
(** * Theorems on the debug adapter

    The properties of breakpoints, of references of variables, of requests for
    the stack and of hit conditions, over any sequence of operations. *)

From S2P Require Import DapFacts.
From stdpp Require Import gmap pretty.
#[local] Open Scope list_scope.
#[local] Open Scope Z_scope.

(** ** Properties *)

Section properties.
Context `{BP : BuildProfile} `{B3 : Blake3} `{RO : RObjects} `{HO : HashOrder}.
Implicit Types (d : Dap) (bp : Breakpoint) (fs : Fs).

(** C8. Through any sequence of requests, annotations, verifications, document
    changes, hits and sessions that asks for fewer than 2^63 breakpoints: no
    operation panics in a release build; the breakpoints of a file have distinct
    identifiers, all handed out before and none to be handed out again; lines
    and counts fit their widths; disabled breakpoints are injected ones; and
    every alias of a path leads to breakpoints. *)
Theorem breakpoints_invariant (ops : list DapOp) :
  Z.of_nat (total_requested ops) + 1 < 2 ^ 63 →
  (debug_assertions = false → ∃ d, run_ops ops new_dap = Some d) ∧
  ∀ d, run_ops ops new_dap = Some d →
    (∀ fs p, bpm_contains_key fs (dap_breakpoints d) p = bool_decide (is_Some (bpm_get fs (dap_breakpoints d) p))) ∧
    ∀ p e, by_path (dap_breakpoints d) !! p = Some e →
      NoDup (id <$> breakpoints e) ∧
      ∀ bp, bp ∈ breakpoints e →
        0 < id bp < current_breakpoint_id d ∧ 0 ≤ line bp < 2 ^ 32 ∧ 0 ≤ original_line bp < 2 ^ 32 ∧
        0 ≤ hit_count bp < 2 ^ 64 ∧ (state bp = Disabled → injected bp = true).
Proof.
  intros Hops. split.
  - intros Hrel. apply foldM_always. intros. by apply apply_op_total.
  - intros d Hrun. destruct (run_ops_ok ops new_dap d new_dap_ok) as [Hn He Ha]; [split; cbn; lia|done|].
    split; [intros; by apply bpm_contains_get|]. intros p e Hp. destruct (He p e Hp) as [Hd Hf].
    split; [done|]. intros bp Hbp. rewrite Forall_forall in Hf. by destruct (Hf bp Hbp).
Qed.

(** C5. A request for a readable file is answered with one breakpoint for each
    it asks for, in order. If the file is as it was, the first request of a line
    keeps the breakpoint of the line, with its identifier, its anchored line and
    its state, where a hidden one is verified again and an invalid one waits
    again; the other answers are new, unverified and with new identifiers.
    Verified breakpoints of lines that are left out stay, hidden. If the file is
    not as it was, all is new. *)
Theorem set_breakpoints_answers fs path uri content sbs d :
  breakpoints_ok d → room (length sbs) d → Forall (λ sb, 1 ≤ sb_line sb < 2 ^ 32) sbs →
  Forall (λ bp, line bp < 2 ^ 32 - 1) (known_breakpoints fs d uri content) →
  from_path_buf (mkPathBuf path true) = Some uri → fs_read_to_string fs path = Some content →
  let old := by_original_line (known_breakpoints fs d uri content) in
  ∃ d' answers hidden response,
    handle_set_breakpoints fs (mkSetBreakpoints (Some path) (Some sbs)) d =
      Some (reply (RSetBreakpoints response), d') ∧
    bpm_get fs (dap_breakpoints d') uri = Some (mkEntry path (blake3_hash content) (answers ++ hidden)) ∧
    length answers = length sbs ∧ Forall2 (λ bp rb, response_breakpoint bp = Some rb) answers response ∧
    (∀ i sb bp, sbs !! i = Some sb → answers !! i = Some bp →
      match old !! req_line sb with
      | Some old_bp =>
          if bool_decide (req_line sb ∈ req_line <$> take i sbs)
          then is_new (current_breakpoint_id d) (current_breakpoint_id d') sb bp
          else bp = keep_breakpoint sb old_bp (req_line sb)
      | None => is_new (current_breakpoint_id d) (current_breakpoint_id d') sb bp
      end) ∧
    ∀ bp, bp ∈ hidden ↔ ∃ l old_bp, bp = disable_breakpoint l old_bp ∧ old !! l = Some old_bp ∧
      state old_bp = Verified ∧ l ∉ req_line <$> sbs.
Proof.
  intros Hd Hr Hl Hk Hu Hc old.
  destruct (set_breakpoints_answered fs path uri content sbs d Hd Hr Hl Hk Hu Hc)
    as (d' & answers & hidden & response & Hh & A).
  exists d', answers, hidden, response. split; [done|].
  destruct A as [He _ _ Hlen Ha Hhid Hresp]. split; [|done].
  unfold bpm_get, resolve_primary. rewrite He. cbn. by rewrite He.
Qed.

(** C20. Unchecking a verified breakpoint and checking it again restores it: the
    request without its line disables it, and the next request with its line
    answers with the same identifier at the same anchored line, verified, and
    enables it. *)
Theorem uncheck_check_restores fs1 fs2 path uri content sbs1 sbs2 j sb bp d :
  breakpoints_ok d → room (length sbs1 + length sbs2) d →
  Forall (λ sb, 1 ≤ sb_line sb < 2 ^ 32) (sbs1 ++ sbs2) →
  Forall (λ bp, line bp < 2 ^ 32 - 1) (known_breakpoints fs1 d uri content) →
  from_path_buf (mkPathBuf path true) = Some uri →
  fs_read_to_string fs1 path = Some content → fs_read_to_string fs2 path = Some content →
  by_original_line (known_breakpoints fs1 d uri content) !! req_line sb = Some bp → state bp = Verified →
  req_line sb ∉ req_line <$> sbs1 → sbs2 !! j = Some sb → req_line sb ∉ req_line <$> take j sbs2 →
  ∃ r1 d1 r2 d2 rb,
    handle_set_breakpoints fs1 (mkSetBreakpoints (Some path) (Some sbs1)) d = Some (r1, d1) ∧
    is_breakpoint_enabled fs1 uri (id bp) d1 = false ∧
    handle_set_breakpoints fs2 (mkSetBreakpoints (Some path) (Some sbs2)) d1 =
      Some (reply (RSetBreakpoints r2), d2) ∧
    r2 !! j = Some rb ∧ rb_id rb = Some (id bp) ∧ rb_verified rb = true ∧ rb_line rb = Some (line bp + 1) ∧
    is_breakpoint_enabled fs2 uri (id bp) d2 = true.
Proof.
  intros Hd [Hp Hr] [Hl1 Hl2]%Forall_app Hk Hu Hc1 Hc2 Hbp Hv Hn1 Hj Hn2.
  destruct (set_breakpoints_answered fs1 path uri content sbs1 d) as (d1 & a1 & h1 & r1 & Hh1 & A1);
    [done|split; lia|done..|].
  pose proof (answered_hides A1 _ _ Hbp Hv Hn1) as Hold. rewrite <- (answered_known A1 fs2) in Hold.
  pose proof (answered_small_lines A1 Hl1 Hk) as Hk1. rewrite <- (answered_known A1 fs2) in Hk1.
  destruct (set_breakpoints_answered fs2 path uri content sbs2 d1) as (d2 & a2 & h2 & r2 & Hh2 & A2); try done.
  { apply A1. }
  { split; [apply A1|]. pose proof (an_next _ _ _ _ _ _ _ _ _ _ A1). lia. }
  destruct (lookup_lt_is_Some_2 a2 j) as [bp2 Hbp2].
  { rewrite (an_length _ _ _ _ _ _ _ _ _ _ A2). by eapply lookup_lt_Some. }
  destruct (Forall2_lookup_l _ _ _ _ _ (an_response _ _ _ _ _ _ _ _ _ _ A2) Hbp2) as (rb & Hrb & Hresp).
  pose proof (an_answer _ _ _ _ _ _ _ _ _ _ A2 _ _ _ Hj Hbp2) as Ha.
  unfold answer_of in Ha. rewrite Hold, bool_decide_false in Ha by done. cbn in Ha. subst bp2.
  assert (Hline : line bp < 2 ^ 32 - 1).
  { apply by_original_line_lookup in Hbp as [_ Hin]. rewrite Forall_forall in Hk. by apply Hk. }
  exists (reply (RSetBreakpoints r1)), d1, r2, d2, rb. split; [done|]. split; [|split; [done|split; [done|]]].
  - etrans; [apply (answered_enabled _ fs1 _ _ _ _ _ _ _ _ _ (disable_breakpoint (req_line sb) bp) A1)|done].
    apply elem_of_app. right. apply (an_hidden _ _ _ _ _ _ _ _ _ _ A1). eauto 6.
  - revert Hresp. unfold response_breakpoint, to_dap_line, add_u32. cbn.
    assert (0 ≤ line bp).
    { pose proof (known_breakpoints_ok fs1 d uri content Hd) as [_ Hf]. rewrite Forall_forall in Hf.
      apply by_original_line_lookup in Hbp as [_ Hin]. apply Hf in Hin as []. lia. }
    rewrite overflowing_exact by lia. cbn. intros [= <-]. cbn. do 3 (split; [done|]).
    etrans; [apply (answered_enabled _ fs2 _ _ _ _ _ _ _ _ _
      (keep_breakpoint sb (disable_breakpoint (req_line sb) bp) (req_line sb)) A2)|done].
    apply elem_of_app. left. eapply list_elem_of_lookup_2. exact Hbp2.
Qed.

(** A second request without the line forgets the breakpoint: when a
    verified breakpoint is unchecked and any other request for the file comes
    before it is checked again, it comes back unverified, with another
    identifier than the one the evaluated code calls. *)
Theorem second_request_forgets fs1 fs2 fs3 path uri content sbs1 sbs2 sbs3 j sb bp d :
  breakpoints_ok d → room (length sbs1 + length sbs2 + length sbs3) d →
  Forall (λ sb, 1 ≤ sb_line sb < 2 ^ 32) (sbs1 ++ sbs2 ++ sbs3) →
  Forall (λ bp, line bp < 2 ^ 32 - 1) (known_breakpoints fs1 d uri content) →
  from_path_buf (mkPathBuf path true) = Some uri →
  fs_read_to_string fs1 path = Some content → fs_read_to_string fs2 path = Some content →
  fs_read_to_string fs3 path = Some content →
  by_original_line (known_breakpoints fs1 d uri content) !! req_line sb = Some bp → state bp = Verified →
  req_line sb ∉ req_line <$> sbs1 → req_line sb ∉ req_line <$> sbs2 → sbs3 !! j = Some sb →
  ∃ r1 d1 r2 d2 r3 d3 rb,
    handle_set_breakpoints fs1 (mkSetBreakpoints (Some path) (Some sbs1)) d = Some (r1, d1) ∧
    handle_set_breakpoints fs2 (mkSetBreakpoints (Some path) (Some sbs2)) d1 = Some (r2, d2) ∧
    handle_set_breakpoints fs3 (mkSetBreakpoints (Some path) (Some sbs3)) d2 =
      Some (reply (RSetBreakpoints r3), d3) ∧
    r3 !! j = Some rb ∧ rb_verified rb = false ∧ rb_id rb ≠ Some (id bp).
Proof.
  intros Hd [Hp Hr] [Hl1 [Hl2 Hl3]%Forall_app]%Forall_app Hk Hu Hc1 Hc2 Hc3 Hbp Hv Hn1 Hn2 Hj.
  destruct (set_breakpoints_answered fs1 path uri content sbs1 d) as (d1 & a1 & h1 & r1 & Hh1 & A1);
    [done|split; lia|done..|].
  pose proof (answered_hides A1 _ _ Hbp Hv Hn1) as Hold. rewrite <- (answered_known A1 fs2) in Hold.
  pose proof (answered_small_lines A1 Hl1 Hk) as Hk1. rewrite <- (answered_known A1 fs2) in Hk1.
  pose proof (an_next _ _ _ _ _ _ _ _ _ _ A1) as Hnx1.
  destruct (set_breakpoints_answered fs2 path uri content sbs2 d1) as (d2 & a2 & h2 & r2 & Hh2 & A2);
    [apply A1|split; [apply A1|lia]|done..|].
  assert (Hgone := answered_forgets A2 _ _ Hold). cbn in Hgone. specialize (Hgone ltac:(done) Hn2).
  rewrite <- (answered_known A2 fs3) in Hgone.
  pose proof (answered_small_lines A2 Hl2 Hk1) as Hk2. rewrite <- (answered_known A2 fs3) in Hk2.
  pose proof (an_next _ _ _ _ _ _ _ _ _ _ A2) as Hnx2.
  destruct (set_breakpoints_answered fs3 path uri content sbs3 d2) as (d3 & a3 & h3 & r3 & Hh3 & A3);
    [apply A2|split; [apply A2|lia]|done..|].
  destruct (lookup_lt_is_Some_2 a3 j) as [bp3 Hbp3].
  { rewrite (an_length _ _ _ _ _ _ _ _ _ _ A3). by eapply lookup_lt_Some. }
  destruct (Forall2_lookup_l _ _ _ _ _ (an_response _ _ _ _ _ _ _ _ _ _ A3) Hbp3) as (rb & Hrb & Hresp).
  pose proof (an_answer _ _ _ _ _ _ _ _ _ _ A3 _ _ _ Hj Hbp3) as Ha.
  unfold answer_of in Ha. rewrite Hgone in Ha. destruct Ha as [Hnew Hid].
  exists (reply (RSetBreakpoints r1)), d1, (reply (RSetBreakpoints r2)), d2, r3, d3, rb.
  do 4 (split; [done|]). unfold response_breakpoint in Hresp.
  apply bind_Some in Hresp as (l & _ & [= <-]). cbn. rewrite Hnew. cbn. split; [done|].
  pose proof (known_breakpoints_ok fs1 d uri content Hd) as [_ Hf]. rewrite Forall_forall in Hf.
  apply by_original_line_lookup in Hbp as [_ Hin]. apply Hf in Hin as []. intros [=]. lia.
Qed.

(** C30. References of variables are not reused within a session: whatever
    requests, evaluations, steps and document changes follow, a reference handed
    out before answers with the same object as before or with nothing, never with
    another. Each step of the debugger drops the references of before, and gives
    each of its frames the environment of that frame. *)
Theorem references_never_reused ops d d' :
  OpStopDebug ∉ ops → 0 < current_variables_reference d →
  current_variables_reference d + Z.of_nat (run_references ops d) < 2 ^ 63 →
  run_ops ops d = Some d' →
  (∀ r, r < current_variables_reference d →
    variables_reference_to_r_object d' !! r = None ∨
    variables_reference_to_r_object d' !! r = variables_reference_to_r_object d !! r) ∧
  ∀ frames sources reason d'',
    current_variables_reference d' + Z.of_nat (length frames) < 2 ^ 63 →
    start_debug frames sources reason d' = Some d'' →
    (∀ r, r < current_variables_reference d' → variables_reference_to_r_object d'' !! r = None) ∧
    (∀ i, i ∉ fr_id <$> frames → frame_env d'' (Some i) = inl (UnknownFrameId i)) ∧
    (NoDup (fr_id <$> frames) → ∀ f, f ∈ frames →
      frame_env d'' (Some (fr_id f)) = inr (default R_global (fr_environment f))).
Proof.
  intros Hstop Hp Hr Hrun. destruct (run_ops_references ops d d' Hstop (conj Hp Hr) Hrun) as [Hn Hk].
  split; [exact Hk|]. intros frames sources reason d'' Hroom Hs.
  destruct (start_debug_spec frames sources reason d' d'') as (_ & _ & ? & ? & ?); [split; lia|done|done].
Qed.

(** A request for the stack never panics: it is answered with the frames
    from start_frame on, as many as levels (all when it is missing), cut at the
    end of the stack whatever the numbers, with the total; it is an error exactly
    when one of them is negative. *)
Theorem stacktrace_slice d args :
  Z.of_nat (length (dap_frames d)) < 2 ^ 63 →
  handle_stacktrace args d =
  let start := default 0 (start_frame args) in
  Some (if bool_decide (start < 0) then inl (InvalidStartFrame start)
        else match levels args with
             | None => reply (RStackTrace (drop (Z.to_nat start) (dap_frames d)) (Z.of_nat (length (dap_frames d))))
             | Some n =>
                 if bool_decide (n < 0) then inl (InvalidLevels n)
                 else reply (RStackTrace (take (Z.to_nat n) (drop (Z.to_nat start) (dap_frames d)))
                              (Z.of_nat (length (dap_frames d))))
             end).
Proof.
  intros Hlen. unfold handle_stacktrace. fold (dap_frames d). cbv zeta.
  generalize dependent (dap_frames d). intros frames Hlen. destruct args as [start levels]. cbn [start_frame DapServer.levels].
  generalize (default 0 start). clear start. intros start. unfold usize_try_from.
  destruct (decide (start < 0)) as [|Hs].
  { rewrite bool_decide_false, bool_decide_true by lia. done. }
  rewrite bool_decide_true, (bool_decide_false (start < 0)) by lia.
  assert (Hdrop : drop (Nat.min (Z.to_nat start) (length frames)) frames = drop (Z.to_nat start) frames).
  { destruct (decide (Z.to_nat start ≤ length frames)%nat); [by rewrite Nat.min_l by lia|].
    rewrite !drop_ge by lia. done. }
  destruct levels as [n|].
  - destruct (decide (n < 0)) as [|Hn].
    { rewrite bool_decide_false, bool_decide_true by lia. done. }
    rewrite bool_decide_true, (bool_decide_false (n < 0)) by lia. rewrite bool_decide_true by done.
    unfold slice_vec. rewrite bool_decide_true by (unfold saturating_add; lia). cbn. rewrite Hdrop.
    apply (f_equal (λ l, Some (reply (RStackTrace l _)))), list_eq. intros i. unfold saturating_add.
    destruct (decide (i < length (drop (Z.to_nat start) frames))%nat) as [Hi|Hi];
      [|rewrite !lookup_ge_None_2; [done|rewrite length_take; lia..]].
    rewrite length_drop in Hi.
    destruct (decide (i < Z.to_nat n)%nat); [rewrite !lookup_take_lt by lia; done|].
    rewrite !lookup_take_ge by lia. done.
  - rewrite bool_decide_true by done. unfold slice_vec. rewrite bool_decide_true by lia. cbn. rewrite Hdrop.
    apply (f_equal (λ l, Some (reply (RStackTrace l _)))), take_ge. rewrite length_drop. lia.
Qed.

(** A hit condition n stops an enabled breakpoint at the hits numbered n and
    above, counted since the count was reset, and at no hit before. *)
Theorem hit_condition_exact fs notebook ev uri i bp h t n d :
  notebook = false ∨ is_connected d = true →
  get_breakpoint fs uri i d = Some bp → is_breakpoint_enabled fs uri i d = true →
  condition bp = None → log_message bp = None → hit_condition bp = Some h → parse_u64 (trim h) = inr t →
  0 ≤ hit_count bp → hit_count bp + Z.of_nat n < 2 ^ 64 →
  ∃ d', hits fs notebook ev uri i n d =
    Some ((λ k, bool_decide (t ≤ hit_count bp + Z.of_nat k)) <$> seq 1 n, d').
Proof.
  revert d bp. induction n as [|n IH]; intros d bp Hnb Hget Hen Hc Hl Hh Ht Hnn Hlt; [by eexists|].
  destruct (increment_hit_count_spec fs uri i d bp) as (d1 & Hi & Hget1 & Hen1 & Hcon1); [done|lia|lia|].
  destruct (IH d1 (set_hit_count (hit_count bp + 1) bp)) as [d2 Hn];
    [by rewrite Hcon1|done|by rewrite Hen1|done..|cbn; lia|cbn; lia|].
  exists d2. cbn [hits]. unfold handle_breakpoint.
  assert (notebook && negb (is_connected d) = false) as ->.
  { destruct Hnb as [-> | ->]; [done|apply andb_false_r]. }
  rewrite Hget, Hen. cbn [mbind option_bind]. rewrite Hc, Hh. cbn [mbind option_bind negb].
  rewrite Ht, Hi. cbn [mbind option_bind].
  assert (Hseq : (λ k, bool_decide (t ≤ hit_count bp + Z.of_nat k)) <$> seq 1 (S n) =
    bool_decide (t ≤ hit_count bp + 1) ::
    ((λ k, bool_decide (t ≤ hit_count (set_hit_count (hit_count bp + 1) bp) + Z.of_nat k)) <$> seq 1 n)).
  { cbn [seq fmap list_fmap]. f_equal. rewrite <- (fmap_S_seq 1 n), <- list_fmap_compose.
    apply list_fmap_ext. intros k x _. cbn. apply bool_decide_ext. lia. }
  rewrite Hseq. destruct (bool_decide (t ≤ hit_count bp + 1)); cbn [negb]; [rewrite Hl|]; cbn [mbind option_bind];
    by rewrite Hn.
Qed.
End properties.

(** ** Witnesses *)

Definition demo_blake3 : Blake3 := {| Hash := text; blake3_hash content := content |}.
Definition demo_objects : RObjects := {| RObject := text; R_global := text_of "global" |}.
#[refine] Definition demo_hash_order : HashOrder := {| hash_order A l := l |}.
Proof. done. Defined.

Section demo.
#[local] Existing Instances demo_blake3 demo_objects demo_hash_order.
#[local] Instance demo_profile : BuildProfile := true.

Definition demo_path : text := text_of "/proj/a.R".
Definition demo_uri : FilePath := FFile [text_of "proj"; text_of "a.R"].
Definition demo_fs : Fs := mkFs (λ _, Some (text_of "f()")) (λ p, Some p).
Definition demo_line (n : Z) : SourceBreakpoint := mkSourceBreakpoint n None (Some (text_of "2")) None.
Definition demo_set (lines : list Z) : DapOp :=
  OpRequest demo_fs (λ _, []) (SetBreakpoints (mkSetBreakpoints (Some demo_path) (Some (demo_line <$> lines)))).

(** Two breakpoints, verified when their code is evaluated. *)
Definition demo_ops : list DapOp :=
  [demo_set [3; 7]; OpVerify demo_fs demo_uri (text_of "1"); OpVerify demo_fs demo_uri (text_of "2")].
Definition demo_dap : Dap := default new_dap (run_ops demo_ops new_dap).

Example demo_dap_entry :
  (λ e, (λ bp, (id bp, line bp, state bp)) <$> breakpoints e) <$> by_path (dap_breakpoints demo_dap) !! demo_uri
  = Some [(1, 2, Verified); (2, 6, Verified)].
Proof. vm_compute. reflexivity. Qed.

Lemma demo_run : run_ops demo_ops new_dap = Some demo_dap.
Proof. vm_compute. reflexivity. Qed.

Lemma demo_dap_ok : breakpoints_ok demo_dap.
Proof. apply (run_ops_ok demo_ops new_dap); [apply new_dap_ok|split; vm_compute; reflexivity|apply demo_run]. Qed.

Lemma demo_room n : Z.of_nat n < 2 ^ 62 → room n demo_dap.
Proof.
  intros. assert (current_breakpoint_id demo_dap = 3) as Hn by (vm_compute; reflexivity).
  split; rewrite Hn; lia.
Qed.

Lemma demo_known_lines : Forall (λ bp, line bp < 2 ^ 32 - 1)
  (known_breakpoints demo_fs demo_dap demo_uri (text_of "f()")).
Proof. apply (bool_decide_unpack _). vm_compute. exact I. Qed.

Lemma breakpoints_invariant_witness :
  (debug_assertions = false → ∃ d, run_ops demo_ops new_dap = Some d) ∧
  ∀ d, run_ops demo_ops new_dap = Some d →
    (∀ fs p, bpm_contains_key fs (dap_breakpoints d) p = bool_decide (is_Some (bpm_get fs (dap_breakpoints d) p))) ∧
    ∀ p e, by_path (dap_breakpoints d) !! p = Some e →
      NoDup (id <$> breakpoints e) ∧
      ∀ bp, bp ∈ breakpoints e →
        0 < id bp < current_breakpoint_id d ∧ 0 ≤ line bp < 2 ^ 32 ∧ 0 ≤ original_line bp < 2 ^ 32 ∧
        0 ≤ hit_count bp < 2 ^ 64 ∧ (state bp = Disabled → injected bp = true).
Proof. apply (breakpoints_invariant demo_ops). vm_compute. reflexivity. Defined.

Lemma set_breakpoints_answers_witness :
  ∃ d' answers hidden response,
    handle_set_breakpoints demo_fs (mkSetBreakpoints (Some demo_path) (Some [demo_line 7; demo_line 9])) demo_dap =
      Some (reply (RSetBreakpoints response), d') ∧
    bpm_get demo_fs (dap_breakpoints d') demo_uri =
      Some (mkEntry demo_path (blake3_hash (text_of "f()")) (answers ++ hidden)) ∧ length answers = 2%nat.
Proof.
  destruct (set_breakpoints_answers demo_fs demo_path demo_uri (text_of "f()") [demo_line 7; demo_line 9] demo_dap)
    as (d' & answers & hidden & response & Hh & Hg & Hl & _).
  - exact demo_dap_ok.
  - apply demo_room. vm_compute. reflexivity.
  - apply (bool_decide_unpack _). vm_compute. exact I.
  - exact demo_known_lines.
  - vm_compute. reflexivity.
  - reflexivity.
  - exists d', answers, hidden, response. exact (conj Hh (conj Hg Hl)).
Defined.

Definition demo_bp : Breakpoint :=
  mkBreakpoint 1 2 2 Verified false None None (Some (text_of "2")) 0.

Lemma uncheck_check_restores_witness :
  ∃ r1 d1 r2 d2 rb,
    handle_set_breakpoints demo_fs (mkSetBreakpoints (Some demo_path) (Some [demo_line 7])) demo_dap = Some (r1, d1) ∧
    is_breakpoint_enabled demo_fs demo_uri 1 d1 = false ∧
    handle_set_breakpoints demo_fs (mkSetBreakpoints (Some demo_path) (Some [demo_line 3; demo_line 7])) d1 =
      Some (reply (RSetBreakpoints r2), d2) ∧
    r2 !! 0%nat = Some rb ∧ rb_id rb = Some 1 ∧ rb_verified rb = true ∧ rb_line rb = Some 3 ∧
    is_breakpoint_enabled demo_fs demo_uri 1 d2 = true.
Proof.
  apply (uncheck_check_restores demo_fs demo_fs demo_path demo_uri (text_of "f()") [demo_line 7]
    [demo_line 3; demo_line 7] 0 (demo_line 3) demo_bp demo_dap).
  - exact demo_dap_ok.
  - apply demo_room. vm_compute. reflexivity.
  - apply (bool_decide_unpack _). vm_compute. exact I.
  - exact demo_known_lines.
  - vm_compute. reflexivity.
  - reflexivity.
  - reflexivity.
  - vm_compute. reflexivity.
  - reflexivity.
  - apply (bool_decide_unpack _). vm_compute. exact I.
  - reflexivity.
  - apply (bool_decide_unpack _). vm_compute. exact I.
Defined.

Lemma second_request_forgets_witness :
  ∃ r1 d1 r2 d2 r3 d3 rb,
    handle_set_breakpoints demo_fs (mkSetBreakpoints (Some demo_path) (Some [demo_line 7])) demo_dap = Some (r1, d1) ∧
    handle_set_breakpoints demo_fs (mkSetBreakpoints (Some demo_path) (Some [demo_line 7; demo_line 9])) d1 =
      Some (r2, d2) ∧
    handle_set_breakpoints demo_fs
      (mkSetBreakpoints (Some demo_path) (Some [demo_line 3; demo_line 7; demo_line 9])) d2 =
      Some (reply (RSetBreakpoints r3), d3) ∧
    r3 !! 0%nat = Some rb ∧ rb_verified rb = false ∧ rb_id rb ≠ Some 1.
Proof.
  apply (second_request_forgets demo_fs demo_fs demo_fs demo_path demo_uri (text_of "f()") [demo_line 7]
    [demo_line 7; demo_line 9] [demo_line 3; demo_line 7; demo_line 9] 0 (demo_line 3) demo_bp demo_dap).
  - exact demo_dap_ok.
  - apply demo_room. vm_compute. reflexivity.
  - apply (bool_decide_unpack _). vm_compute. exact I.
  - exact demo_known_lines.
  - vm_compute. reflexivity.
  - reflexivity.
  - reflexivity.
  - reflexivity.
  - vm_compute. reflexivity.
  - reflexivity.
  - apply (bool_decide_unpack _). vm_compute. exact I.
  - apply (bool_decide_unpack _). vm_compute. exact I.
  - reflexivity.
Defined.

Definition demo_frame (i : Z) (env : text) : FrameInfo :=
  mkFrame i (text_of "a.R") (text_of "f()") (FSFile demo_path) (Some env) 1 1 1 4.

(** A stop with one frame, whose variables are listed. *)
Definition demo_session : list DapOp :=
  [OpStartDebug [demo_frame 0 (text_of "env0")] ∅ Step;
   OpRequest demo_fs (λ x, [mkRVariable (text_of "x") (text_of "<list>") None (Some (x ++ text_of "$x"))])
     (Variables 1)].
Definition demo_stopped : Dap := default new_dap (run_ops demo_session new_dap).

(** Two references are handed out; then the variables of the second are listed. *)
Definition demo_later : list DapOp :=
  [OpRequest demo_fs (λ x, [mkRVariable (text_of "y") (text_of "<list>") None (Some (x ++ text_of "$y"))])
     (Variables 2)].
Definition demo_listed : Dap := default new_dap (run_ops demo_later demo_stopped).

Example demo_references :
  (current_variables_reference demo_stopped, current_variables_reference demo_listed,
   variables_reference_to_r_object demo_listed !! 3) = (3, 4, Some (text_of "env0$x$y")).
Proof. vm_compute. reflexivity. Qed.

Lemma references_never_reused_witness :
  (∀ r, r < 3 → variables_reference_to_r_object demo_listed !! r = None ∨
    variables_reference_to_r_object demo_listed !! r = variables_reference_to_r_object demo_stopped !! r) ∧
  ∀ frames sources reason d'',
    current_variables_reference demo_listed + Z.of_nat (length frames) < 2 ^ 63 →
    start_debug frames sources reason demo_listed = Some d'' →
    (∀ r, r < current_variables_reference demo_listed → variables_reference_to_r_object d'' !! r = None) ∧
    (∀ i, i ∉ fr_id <$> frames → frame_env d'' (Some i) = inl (UnknownFrameId i)) ∧
    (NoDup (fr_id <$> frames) → ∀ f, f ∈ frames →
      frame_env d'' (Some (fr_id f)) = inr (default R_global (fr_environment f))).
Proof.
  apply (references_never_reused demo_later demo_stopped demo_listed).
  - intros [?|[]%not_elem_of_nil]%elem_of_cons; done.
  - vm_compute. reflexivity.
  - vm_compute. reflexivity.
  - vm_compute. reflexivity.
Defined.

Lemma stacktrace_slice_witness :
  handle_stacktrace (mkStackTrace (Some 0) (Some 9223372036854775807)) demo_stopped =
  Some (reply (RStackTrace (take (Z.to_nat 9223372036854775807) (dap_frames demo_stopped)) 1)).
Proof.
  etrans; [apply (stacktrace_slice demo_stopped); vm_compute; reflexivity|]. reflexivity.
Defined.

Lemma hit_condition_exact_witness :
  ∃ d', hits demo_fs false (mkHitEval (λ _, (true, None, [])) (λ _, ([], []))) demo_uri 1 3 demo_dap =
    Some ([false; true; true], d').
Proof.
  apply (hit_condition_exact demo_fs false (mkHitEval (λ _, (true, None, [])) (λ _, ([], []))) demo_uri 1
    demo_bp (text_of "2") 2 3 demo_dap).
  - by left.
  - vm_compute. reflexivity.
  - vm_compute. reflexivity.
  - reflexivity.
  - reflexivity.
  - reflexivity.
  - vm_compute. reflexivity.
  - done.
  - reflexivity.
Defined.
End demo.
