(* ===== verification/Wire.v ===== *)
(** * Messages on the wire: [crates/amalthea/src/wire]

    [WireMessage] of [wire_message.rs], which is read from and written to the
    parts of a ZeroMQ message and signed; the messages of [jupyter_message.rs]
    and their kinds; [SubscriptionMessage] of [subscription_message.rs]; and
    the [Session] of [session.rs]. JSON, the hash and the encodings of the
    contents are parameters. A socket takes and gives the parts as they are.
    Then: what is written is read back, and what is accepted was signed. *)

From S2P Require Export Text.
From stdpp Require Import gmap.
#[local] Open Scope list_scope.

(** ** Code outside the repository *)

(** [serde_json]: values, their bytes and the fields of objects. Writing a value
    that is in memory does not fail. *)
Class Json := {
  Value : Type;
  json_to_vec : Value → text;
  json_from_str : text → option Value;
  json_empty : Value;
  json_get : Value → text → option Value;
  json_to_vec_utf8 v : utf8 (json_to_vec v);
  json_to_vec_empty : json_to_vec json_empty = text_of "{}";
}.

(** [hmac] with [sha2], and [hex]. Updating a hash twice hashes the bytes one
    after the other. *)
Class Hmac := {
  HmacKey : Type;
  hmac_new_from_slice : text → option HmacKey;
  hmac_of : HmacKey → text → text;
  hex_encode : text → text;
  hex_decode : text → option text;
  hex_decode_encode b : hex_decode (hex_encode b) = Some b;
}.

(** ** Headers and sessions *)

Record JupyterHeader := mkHeader {
  msg_id : text;
  h_session : text;
  h_username : text;
  date : text;
  msg_type : text;
  h_version : text;
}.

(** What [serde] derives for headers: an object of six strings. *)
Class HeaderJson `{Json} := {
  header_to_value : JupyterHeader → Value;
  header_from_value : Value → option JupyterHeader;
  header_from_to h : header_from_value (header_to_value h) = Some h;
  header_readable h :
    Forall utf8 [msg_id h; h_session h; h_username h; date h; msg_type h; h_version h] →
    json_from_str (json_to_vec (header_to_value h)) = Some (header_to_value h);
  header_long h : 4 < length (json_to_vec (header_to_value h));
}.

Definition header_utf8 (h : JupyterHeader) : Prop :=
  Forall utf8 [msg_id h; h_session h; h_username h; date h; msg_type h; h_version h].

(** [JupyterHeader::create]; [stamp] is the new identifier and the time. *)
Definition header_create (stamp : text * text) (msg_type session username : text) : JupyterHeader :=
  mkHeader stamp.1 session username stamp.2 msg_type (text_of "5.3").

Record Session `{Hmac} := mkSession {
  hmac : option HmacKey;
  username : text;
  session_id : text;
}.
Arguments mkSession {_}.

(** [Session::create]; [None] for a key that the hash refuses. *)
Definition session_create `{Hmac} (key uuid : text) : option Session :=
  if bool_decide (length key = 0) then Some (mkSession None (text_of "kernel") uuid)
  else
    hmac_key ← hmac_new_from_slice key;
    Some (mkSession (Some hmac_key) (text_of "kernel") uuid).

(** ** Kinds of messages *)

Inductive MessageKind :=
| KKernelInfoReply | KKernelInfoRequest | KCompleteReply | KCompleteRequest
| KExecuteReply | KExecuteReplyException | KExecuteRequest
| KInspectReply | KInspectRequest | KIsCompleteReply | KIsCompleteRequest
| KHistoryReply | KHistoryRequest | KCommInfoReply | KCommInfoRequest
| KCommRequest | KCommReply | KInputReply | KInputRequest
| KDebugReply | KDebugRequest | KInterruptReply | KInterruptRequest
| KShutdownReply | KShutdownRequest | KHandshakeRequest | KHandshakeReply
| KDebugEvent | KStatus | KExecuteResult | KExecuteError | KExecuteInput
| KStream | KDisplayData | KUpdateDisplayData | KWelcome
| KCommMsg | KCommOpen | KCommClose.

#[export] Instance MessageKind_eq_dec : EqDecision MessageKind.
Proof. solve_decision. Defined.

(** [MessageType::message_type] of the contents. *)
Definition message_type (k : MessageKind) : text :=
  text_of match k with
  | KKernelInfoReply => "kernel_info_reply" | KKernelInfoRequest => "kernel_info_request"
  | KCompleteReply => "complete_reply" | KCompleteRequest => "complete_request"
  | KExecuteReply => "execute_reply" | KExecuteReplyException => "execute_reply"
  | KExecuteRequest => "execute_request"
  | KInspectReply => "inspect_reply" | KInspectRequest => "inspect_request"
  | KIsCompleteReply => "is_complete_reply" | KIsCompleteRequest => "is_complete_request"
  | KHistoryReply => "history_reply" | KHistoryRequest => "history_request"
  | KCommInfoReply => "comm_info_reply" | KCommInfoRequest => "comm_info_request"
  | KCommRequest => "rpc_request" | KCommReply => "rpc_reply"
  | KInputReply => "input_reply" | KInputRequest => "input_request"
  | KDebugReply => "debug_reply" | KDebugRequest => "debug_request"
  | KInterruptReply => "interrupt_reply" | KInterruptRequest => "interrupt_request"
  | KShutdownReply => "shutdown_reply" | KShutdownRequest => "shutdown_request"
  | KHandshakeRequest => "handshake_request" | KHandshakeReply => "handshake_reply"
  | KDebugEvent => "debug_event" | KStatus => "status"
  | KExecuteResult => "execute_result" | KExecuteError => "error"
  | KExecuteInput => "execute_input" | KStream => "stream"
  | KDisplayData => "display_data" | KUpdateDisplayData => "update_display_data"
  | KWelcome => "iopub_welcome"
  | KCommMsg => "comm_msg" | KCommOpen => "comm_open" | KCommClose => "comm_close"
  end%string.

(** ** Contents *)

Inductive Stream := Stdout | Stderr.
Inductive ExecutionState := Busy | Idle | Starting.
Inductive Status := StatusOk | StatusError.
#[export] Instance Stream_eq_dec : EqDecision Stream.
Proof. solve_decision. Defined.
#[export] Instance ExecutionState_eq_dec : EqDecision ExecutionState.
Proof. solve_decision. Defined.

Record StreamOutput := mkStream { so_name : Stream; so_text : text }.
Record Exception := mkException { ename : text; evalue : text; traceback : list text }.
Definition internal_error (evalue : text) : Exception :=
  mkException (text_of "InternalError") evalue [].
Record CommInfoRequest := mkCommInfoRequest { info_target_name : option text }.
(** The [comms] of a [CommInfoReply], with the target names of its objects. *)
Record CommInfoReply := mkCommInfoReply { info_status : Status; info_comms : gmap text text }.
Record ExecuteReplyException := mkExecuteReplyException {
  er_status : Status; er_execution_count : nat; er_exception : Exception }.
Record ErrorReply := mkErrorReply { err_status : Status; err_exception : Exception }.

Section contents.
Context `{Json}.
Record CommOpen := mkCommOpen { co_comm_id : text; co_target_name : text; co_data : Value }.
Record CommWireMsg := mkCommWireMsg { cm_comm_id : text; cm_data : Value }.
End contents.
Record CommClose := mkCommClose { cc_comm_id : text }.

(** The contents that no modelled code looks into. *)
Class Contents := { opaque : MessageKind → Type }.

Definition content `{Json, Contents} (k : MessageKind) : Type :=
  match k with
  | KStatus => ExecutionState
  | KStream => StreamOutput
  | KWelcome => text
  | KCommOpen => CommOpen
  | KCommMsg => CommWireMsg
  | KCommClose => CommClose
  | KCommInfoRequest => CommInfoRequest
  | KCommInfoReply => CommInfoReply
  | KExecuteReplyException => ExecuteReplyException
  | k => opaque k
  end.

(** What [serde] derives for the contents. *)
Class ContentJson `{Json, !Contents} := {
  content_to_value : ∀ k, content k → option Value;
  content_from_value : ∀ k, Value → option (content k);
  error_reply_to_value : ErrorReply → option Value;
}.

(** ** Messages *)

Section messages.
Context `{Json, !Hmac, !HeaderJson, !Contents, !ContentJson}.

Record JupyterMessage (T : Type) := mkJupyter {
  zmq_identities : list text;
  header : JupyterHeader;
  parent_header : option JupyterHeader;
  metadata : Value;
  jm_content : T;
}.
#[global] Arguments mkJupyter {_}.
#[global] Arguments zmq_identities {_}.
#[global] Arguments header {_}.
#[global] Arguments parent_header {_}.
#[global] Arguments metadata {_}.
#[global] Arguments jm_content {_}.

(** [Message]: a kind with a message of its content. *)
Definition Message : Type := { k : MessageKind & JupyterMessage (content k) }.

Record WireMessage := mkWire {
  w_zmq_identities : list text;
  w_header : JupyterHeader;
  w_parent_header : option JupyterHeader;
  w_metadata : Value;
  w_content : Value;
}.

Inductive WireError :=
| MissingDelimiter
| InsufficientParts (found expected : nat)
| InvalidHmac (data : text)
| BadSignature (decoded : text)
| Utf8Error (desc buf : text)
| JsonParseError (desc str : text)
| InvalidPart (desc : text) (val : Value)
| CannotSerialize
| InvalidMessage (kind : text) (val : Value)
| UnknownMessageType (kind : text).

(** *** Creation and replies *)

Record Originator := mkOriginator {
  or_zmq_identities : list text;
  or_header : JupyterHeader;
  or_metadata : Value;
}.

Definition originator_from {T} (msg : JupyterMessage T) : Originator :=
  mkOriginator (zmq_identities msg) (header msg) (metadata msg).

Definition header_of (stamp : text * text) (kind : text) (session : Session) : JupyterHeader :=
  header_create stamp kind (session_id session) (username session).

(** [JupyterMessage::create]. *)
Definition create (k : MessageKind) (c : content k) (parent : option JupyterHeader) (session : Session)
    (stamp : text * text) : JupyterMessage (content k) :=
  mkJupyter [] (header_of stamp (message_type k) session) parent json_empty c.

Definition create_with_identity (k : MessageKind) (originator : Originator) (c : content k) (session : Session)
    (stamp : text * text) : JupyterMessage (content k) :=
  mkJupyter (or_zmq_identities originator) (header_of stamp (message_type k) session)
    (Some (or_header originator)) json_empty c.

Definition create_reply {T} (msg : JupyterMessage T) (k : MessageKind) (c : content k) (session : Session)
    (stamp : text * text) : JupyterMessage (content k) :=
  mkJupyter (zmq_identities msg) (header_of stamp (message_type k) session) (Some (header msg)) json_empty c.

Definition error_reply {T} (msg : JupyterMessage T) (k : MessageKind) (exception : Exception)
    (session : Session) (stamp : text * text) : JupyterMessage ErrorReply :=
  mkJupyter (zmq_identities msg) (header_of stamp (message_type k) session) (Some (header msg)) json_empty
    (mkErrorReply StatusError exception).

Definition message_header (m : Message) : JupyterHeader := header (projT2 m).

(** [Message::parent_header]. *)
Definition message_parent_header (m : Message) : option JupyterHeader := parent_header (projT2 m).

(** *** Conversions *)

(** [WireMessage::try_from], of a message with contents [c]. *)
Definition wire_of {T} (msg : JupyterMessage T) (c : option Value) : WireError + WireMessage :=
  match c with
  | None => inl CannotSerialize
  | Some content =>
      inr (mkWire (zmq_identities msg) (header msg) (parent_header msg) (metadata msg) content)
  end.

Definition wire_try_from (m : Message) : WireError + WireMessage :=
  let (k, msg) := m in wire_of msg (content_to_value k (jm_content msg)).

(** [JupyterMessage::try_from]. *)
Definition jupyter_try_from (k : MessageKind) (msg : WireMessage)
    : WireError + JupyterMessage (content k) :=
  match content_from_value k (w_content msg) with
  | None => inl (InvalidMessage (message_type k) (w_content msg))
  | Some content =>
      inr (mkJupyter (w_zmq_identities msg) (w_header msg) (w_parent_header msg) (w_metadata msg) content)
  end.

(** The kinds that [Message::try_from] tries, in order. *)
Definition tried_kinds : list MessageKind :=
  [KKernelInfoRequest; KKernelInfoReply; KIsCompleteRequest; KIsCompleteReply; KInspectRequest;
   KHistoryRequest; KHistoryReply; KInspectReply; KExecuteReplyException; KExecuteRequest;
   KExecuteReply; KExecuteResult; KExecuteError; KExecuteInput; KCompleteRequest; KCompleteReply;
   KDebugEvent; KDebugReply; KDebugRequest; KDisplayData; KUpdateDisplayData; KShutdownReply;
   KShutdownRequest; KStatus; KCommInfoRequest; KCommInfoReply; KCommOpen; KCommMsg; KCommClose;
   KInterruptRequest; KInterruptReply; KInputReply; KInputRequest; KStream; KCommRequest; KCommReply;
   KHandshakeRequest; KHandshakeReply; KWelcome].

(** The cascade of tests on the type. An exception that does not parse falls
    through. *)
Fixpoint try_kinds (kinds : list MessageKind) (msg : WireMessage) : WireError + Message :=
  match kinds with
  | [] => inl (UnknownMessageType (msg_type (w_header msg)))
  | k :: kinds =>
      if bool_decide (msg_type (w_header msg) = message_type k) then
        match jupyter_try_from k msg with
        | inr data => inr (existT k data)
        | inl err =>
            if bool_decide (k = KExecuteReplyException) then try_kinds kinds msg else inl err
        end
      else try_kinds kinds msg
  end.

Definition message_try_from : WireMessage → WireError + Message := try_kinds tried_kinds.

(** *** Reading *)

(** Results: [None] is a panic. *)
Definition res_bind {A B} (m : option (WireError + A)) (k : A → option (WireError + B))
    : option (WireError + B) :=
  match m with
  | None => None
  | Some (inl err) => Some (inl err)
  | Some (inr a) => k a
  end.
#[local] Notation "x ←! m ; k" := (res_bind m (λ x, k))
  (at level 20, m at level 100, k at level 200, right associativity).

(** [parts[i]]. *)
Definition part (parts : list text) (i : nat) : option (WireError + text) := inr <$> parts !! i.

Definition MSG_DELIM : text := text_of "<IDS|MSG>".

Definition validate_hmac (bufs : list text) (hmac_key : option HmacKey) : option (WireError + unit) :=
  data ←! part bufs 0;
  match hmac_key with
  | None => Some (inr tt)
  | Some key =>
      match hex_decode data with
      | None => Some (inl (InvalidHmac data))
      | Some decoded =>
          if bool_decide (hmac_of key (concat (tail bufs)) = decoded) then Some (inr tt)
          else Some (inl (BadSignature decoded))
      end
  end.

Definition parse_buffer (desc buf : text) : option (WireError + Value) :=
  Some (if utf8_from 0 buf then
          match json_from_str buf with
          | Some val => inr val
          | None => inl (JsonParseError desc buf)
          end
        else inl (Utf8Error desc buf)).

Definition parse_header (desc buf : text) : option (WireError + JupyterHeader) :=
  val ←! parse_buffer desc buf;
  Some (match header_from_value val with Some h => inr h | None => inl (InvalidPart desc val) end).

Definition parse_parent (buf : text) : option (WireError + option JupyterHeader) :=
  if bool_decide (length buf ∈ [0; 1; 2; 4]) then Some (inr None)
  else
    h ←! parse_header (text_of "parent header") buf;
    Some (inr (Some h)).

Definition from_buffers (bufs : list text) (hmac_key : option HmacKey) : option (WireError + WireMessage) :=
  match position (λ buf, buf = MSG_DELIM) bufs with
  | None => Some (inl MissingDelimiter)
  | Some pos =>
      let parts := drop (pos + 1) bufs in
      let identities := take pos bufs in
      if bool_decide (length parts < 4) then Some (inl (InsufficientParts (length parts) 4))
      else
        _ ←! validate_hmac parts hmac_key;
        header_part ←! part parts 1;
        header ←! parse_header (text_of "header") header_part;
        parent_part ←! part parts 2;
        parent ←! parse_parent parent_part;
        metadata_part ←! part parts 3;
        metadata ←! parse_buffer (text_of "metadata") metadata_part;
        content_part ←! part parts 4;
        content ←! parse_buffer (text_of "content") content_part;
        Some (inr (mkWire identities header parent metadata content))
  end.

(** [Message::read_from_socket]. *)
Definition message_read (bufs : list text) (hmac_key : option HmacKey) : option (WireError + Message) :=
  msg ←! from_buffers bufs hmac_key;
  Some (message_try_from msg).

(** *** Writing *)

Definition to_raw_parts (msg : WireMessage) : list text :=
  [json_to_vec (header_to_value (w_header msg));
   match w_parent_header msg with
   | Some parent => json_to_vec (header_to_value parent)
   | None => json_to_vec json_empty
   end;
   json_to_vec (w_metadata msg);
   json_to_vec (w_content msg)].

Definition signature (hmac_key : option HmacKey) (parts : list text) : text :=
  match hmac_key with Some key => hex_encode (hmac_of key (concat parts)) | None => [] end.

(** [WireMessage::send]: the parts that are delivered. *)
Definition wire_send (msg : WireMessage) (hmac_key : option HmacKey) : list text :=
  let parts := to_raw_parts msg in
  w_zmq_identities msg ++ [MSG_DELIM; signature hmac_key parts] ++ parts.

(** [Message::send]. *)
Definition message_send (m : Message) (hmac_key : option HmacKey) : WireError + list text :=
  match wire_try_from m with
  | inl err => inl err
  | inr msg => inr (wire_send msg hmac_key)
  end.

End messages.

(** *** Subscriptions *)

Inductive SubscriptionKind := Subscribe | Unsubscribe.
Record SubscriptionMessage := mkSubscription { su_kind : SubscriptionKind; subscription : text }.
Inductive SubscriptionError := NotSingleFrame (n : nat) | EmptyFrame | SubscriptionUtf8 (buf : text).

(** [SubscriptionMessage::from_buffers]. *)
Definition subscription_from_buffers (bufs : list text) : SubscriptionError + SubscriptionMessage :=
  match bufs with
  | [buf] =>
      match buf with
      | [] => inl EmptyFrame
      | kind :: buf =>
          let kind := if bool_decide (N_of_ascii kind = 1%N) then Subscribe else Unsubscribe in
          if utf8_from 0 buf then inr (mkSubscription kind buf) else inl (SubscriptionUtf8 buf)
      end
  | bufs => inl (NotSingleFrame (length bufs))
  end.

(** ** Properties *)

Lemma position_after {A} (P : A → Prop) `{∀ x, Decision (P x)} l x r :
  (∀ y, y ∈ l → ¬ P y) → P x → position P (l ++ x :: r) = Some (length l).
Proof.
  intros Hl Hx. unfold position. rewrite (proj2 (list_find_Some P (l ++ x :: r) (length l) x)); [done|].
  split; [by apply list_lookup_middle|]. split; [done|]. intros j y Hy Hj. rewrite lookup_app_l in Hy by done.
  apply Hl. by eapply list_elem_of_lookup_2.
Qed.

Lemma position_split {A} (P : A → Prop) `{∀ x, Decision (P x)} l i :
  position P l = Some i →
  ∃ x, P x ∧ l = take i l ++ x :: drop (i + 1) l ∧ ∀ y, y ∈ take i l → ¬ P y.
Proof.
  unfold position. intros Hp. apply fmap_Some in Hp as ([j x] & (Hx & HP & Hb)%list_find_Some & ->).
  exists x. cbn. split; [done|]. split.
  - rewrite Nat.add_1_r. by rewrite take_drop_middle.
  - intros y [j' Hy]%list_elem_of_lookup. assert (j' < j) by (apply lookup_lt_Some in Hy; rewrite length_take in Hy; lia).
    rewrite lookup_take_lt in Hy by done. by apply (Hb j').
Qed.

Section properties.
Context `{JS : Json, HM : !Hmac, HJ : !HeaderJson, CO : !Contents, CJ : !ContentJson}.

(** The JSON library reads [v] back as it wrote it. *)
Definition readable (v : Value) : Prop := json_from_str (json_to_vec v) = Some v.

Lemma parse_buffer_to_vec desc v : readable v → parse_buffer desc (json_to_vec v) = Some (inr v).
Proof.
  intros Hv. unfold parse_buffer. pose proof (json_to_vec_utf8 v) as Hu. unfold utf8 in Hu. by rewrite Hu, Hv.
Qed.

Lemma parse_header_to_vec desc h :
  header_utf8 h → parse_header desc (json_to_vec (header_to_value h)) = Some (inr h).
Proof.
  intros Hh. unfold parse_header. rewrite parse_buffer_to_vec by by apply header_readable. cbn.
  by rewrite header_from_to.
Qed.

Lemma parse_parent_written (parent : option JupyterHeader) :
  (∀ h, parent = Some h → header_utf8 h) →
  parse_parent match parent with
               | Some h => json_to_vec (header_to_value h)
               | None => json_to_vec json_empty
               end = Some (inr parent).
Proof.
  intros Hp. unfold parse_parent. destruct parent as [h|].
  - rewrite bool_decide_false; [by rewrite parse_header_to_vec by auto|].
    pose proof (header_long h) as Hl. rewrite !elem_of_cons. intros Hn. destruct Hn as [?|[?|[?|[?|[]%not_elem_of_nil]]]]; lia.
  - by rewrite json_to_vec_empty.
Qed.

Lemma validate_signed key parts : validate_hmac (signature key parts :: parts) key = Some (inr tt).
Proof.
  unfold validate_hmac, signature. destruct key as [key|]; [|done]. cbn.
  by rewrite hex_decode_encode, bool_decide_true.
Qed.

Lemma from_buffers_send msg key :
  MSG_DELIM ∉ w_zmq_identities msg → header_utf8 (w_header msg) →
  (∀ h, w_parent_header msg = Some h → header_utf8 h) → readable (w_metadata msg) → readable (w_content msg) →
  from_buffers (wire_send msg key) key = Some (inr msg).
Proof.
  intros Hi Hh Hp Hm Hc. unfold from_buffers, wire_send. cbn [app].
  rewrite position_after by (done || intros y Hy ->; done).
  rewrite (take_app_length' _ _ (length (w_zmq_identities msg))) by done.
  rewrite (drop_app_ge (w_zmq_identities msg)), Nat.add_sub_swap, Nat.sub_diag by lia. cbn [drop app Nat.add].
  cbn [length to_raw_parts].
  rewrite bool_decide_false by lia. rewrite validate_signed. cbn -[parse_header parse_parent parse_buffer].
  rewrite parse_header_to_vec by done. cbn -[parse_header parse_parent parse_buffer].
  rewrite parse_parent_written by done. cbn -[parse_header parse_parent parse_buffer].
  rewrite !parse_buffer_to_vec by done. cbn. by destruct msg.
Qed.

(** The kinds before another in the cascade. *)
Lemma try_kinds_found kinds k rest msg data :
  msg_type (w_header msg) = message_type k →
  (∀ k', k' ∈ kinds → message_type k' = message_type k →
    k' = KExecuteReplyException ∧ content_from_value k' (w_content msg) = None) →
  jupyter_try_from k msg = inr data →
  try_kinds (kinds ++ k :: rest) msg = inr (existT k data).
Proof.
  intros Ht Hk Hd. induction kinds as [|k' kinds IH]; cbn [app try_kinds].
  - by rewrite bool_decide_true, Hd by done.
  - assert (Hrest : try_kinds (kinds ++ k :: rest) msg = inr (existT k data)).
    { apply IH. intros k'' Hin. apply Hk. by right. }
    case_bool_decide as Hk'; [|done]. rewrite Ht in Hk'.
    destruct (Hk k' ltac:(left) (eq_sym Hk')) as [-> Hn]. unfold jupyter_try_from at 1. by rewrite Hn.
Qed.

Lemma kind_tried k : k ∈ tried_kinds.
Proof. destruct k; by apply (bool_decide_unpack _); vm_compute. Qed.

(** Two kinds share a type: replies to a request to execute, and their errors. *)
Lemma message_type_inj k k' :
  message_type k = message_type k' →
  k = k' ∨ k = KExecuteReplyException ∧ k' = KExecuteReply ∨ k = KExecuteReply ∧ k' = KExecuteReplyException.
Proof.
  assert (Forall (λ k, Forall (λ k', message_type k ≠ message_type k' ∨ k = k' ∨
    k = KExecuteReplyException ∧ k' = KExecuteReply ∨ k = KExecuteReply ∧ k' = KExecuteReplyException)
    tried_kinds) tried_kinds) as Hall by (apply (bool_decide_unpack _); vm_compute; exact I).
  rewrite Forall_forall in Hall. specialize (Hall k (kind_tried k)). rewrite Forall_forall in Hall.
  destruct (Hall k' (kind_tried k')); naive_solver.
Qed.

(** C17. Any message that is sent is read back as it was, whatever the session
    key: identities, headers, metadata and content, under its kind. The parts of
    the content have to be read by the decoders as they were written, a reply
    must not read as an exception, and no identity may be the delimiter. *)
Theorem message_roundtrip k (m : JupyterMessage (content k)) key v :
  MSG_DELIM ∉ zmq_identities m → msg_type (header m) = message_type k → header_utf8 (header m) →
  (∀ h, parent_header m = Some h → header_utf8 h) → readable (metadata m) →
  content_to_value k (jm_content m) = Some v → readable v → content_from_value k v = Some (jm_content m) →
  (k = KExecuteReply → content_from_value KExecuteReplyException v = None) →
  ∃ bufs, message_send (existT k m) key = inr bufs ∧ message_read bufs key = Some (inr (existT k m)).
Proof.
  intros Hi Ht Hh Hp Hm Hv Hr Hback Hex. unfold message_send, wire_try_from, wire_of. rewrite Hv.
  eexists. split; [done|]. unfold message_read. rewrite from_buffers_send by done. cbn [res_bind].
  unfold message_try_from. destruct (list_elem_of_split _ _ (kind_tried k)) as (before & rest & Hs).
  assert (Hn : NoDup tried_kinds) by (apply (bool_decide_unpack _); vm_compute; exact I).
  rewrite Hs in Hn |- *. rewrite (try_kinds_found before k rest _ m); [done|exact Ht| |].
  - intros k' Hk' [->|[[-> ->]|[-> ->]]]%message_type_inj; [|auto|].
    + apply NoDup_app in Hn as (_ & Hn & _). destruct (Hn k Hk'). by left.
    + (* an exception is tried before a reply *)
      exfalso. assert (before = take 8 tried_kinds) as ->; [|by apply (bool_decide_pack _) in Hk'; vm_compute in Hk'].
      assert (length before = 8) as <-; [|by rewrite Hs, take_app_length].
      apply (NoDup_lookup tried_kinds _ _ KExecuteReplyException);
        [apply (bool_decide_unpack _); vm_compute; exact I|rewrite Hs; by apply list_lookup_middle|done].
  - unfold jupyter_try_from. cbn. rewrite Hback. by destruct m.
Qed.

(** *** What is accepted *)

Lemma res_bind_inr {A B} (m : option (WireError + A)) (k : A → option (WireError + B)) b :
  res_bind m k = Some (inr b) ↔ ∃ a, m = Some (inr a) ∧ k a = Some (inr b).
Proof. destruct m as [[]|]; naive_solver. Qed.

Lemma res_bind_None {A B} (m : option (WireError + A)) (k : A → option (WireError + B)) :
  res_bind m k = None ↔ m = None ∨ ∃ a, m = Some (inr a) ∧ k a = None.
Proof. destruct m as [[]|]; naive_solver. Qed.

Lemma from_buffers_split bufs key r :
  from_buffers bufs key = r → r ≠ Some (inl MissingDelimiter) →
  (∀ n, r ≠ Some (inl (InsufficientParts n 4))) →
  ∃ ids sig h p m rest, bufs = ids ++ MSG_DELIM :: sig :: h :: p :: m :: rest ∧ MSG_DELIM ∉ ids.
Proof.
  unfold from_buffers. intros <- H1 H2. destruct (position _ bufs) as [pos|] eqn:E; [|done].
  apply position_split in E as (x & -> & Hs & Hn). case_bool_decide as Hl; [by destruct (H2 (length (drop (pos + 1) bufs)))|].
  destruct (drop (pos + 1) bufs) as [|sig [|h [|p [|m rest]]]]; cbn in Hl; try lia.
  exists (take pos bufs), sig, h, p, m, rest. split; [done|]. intros Hin. by apply (Hn MSG_DELIM).
Qed.

(** Parts after the delimiter, enough of them. *)
Lemma from_buffers_parts ids sig h p m rest key :
  MSG_DELIM ∉ ids →
  from_buffers (ids ++ MSG_DELIM :: sig :: h :: p :: m :: rest) key =
  res_bind (validate_hmac (sig :: h :: p :: m :: rest) key) (λ _,
  res_bind (parse_header (text_of "header") h) (λ header,
  res_bind (parse_parent p) (λ parent,
  res_bind (parse_buffer (text_of "metadata") m) (λ metadata,
  res_bind (part rest 0) (λ c,
  res_bind (parse_buffer (text_of "content") c) (λ content,
  Some (inr (mkWire ids header parent metadata content)))))))).
Proof.
  intros Hi. unfold from_buffers. rewrite position_after by (done || intros y Hy ->; done).
  rewrite (take_app_length' _ _ (length ids)) by done.
  rewrite (drop_app_ge ids), Nat.add_sub_swap, Nat.sub_diag by lia. cbn [drop Nat.add].
  cbn [length]. rewrite bool_decide_false by lia. done.
Qed.

Lemma validate_hmac_signed sig parts key :
  validate_hmac (sig :: parts) key = Some (inr tt) ↔
  ∀ k, key = Some k → hex_decode sig = Some (hmac_of k (concat parts)).
Proof.
  unfold validate_hmac. cbn. destruct key as [key|]; [|naive_solver].
  destruct (hex_decode sig) as [decoded|] eqn:E; [case_bool_decide as Hd|]; split.
  - intros _ k [= <-]. by rewrite Hd.
  - done.
  - done.
  - intros Hk. specialize (Hk key eq_refl). injection Hk as ->. done.
  - done.
  - intros Hk. by specialize (Hk key eq_refl).
Qed.

(** C32. The messages that are accepted are exactly those with a signature,
    header, parent, metadata and content after the first delimiter that read as
    such; with a key the signature is that of all parts after it, further ones
    included, which are dropped. *)
Theorem accepted_exactly bufs key msg :
  from_buffers bufs key = Some (inr msg) ↔
  ∃ sig h p m c extra,
    bufs = w_zmq_identities msg ++ [MSG_DELIM; sig; h; p; m; c] ++ extra ∧
    MSG_DELIM ∉ w_zmq_identities msg ∧
    (∀ k, key = Some k → hex_decode sig = Some (hmac_of k (concat ([h; p; m; c] ++ extra)))) ∧
    parse_header (text_of "header") h = Some (inr (w_header msg)) ∧
    parse_parent p = Some (inr (w_parent_header msg)) ∧
    parse_buffer (text_of "metadata") m = Some (inr (w_metadata msg)) ∧
    parse_buffer (text_of "content") c = Some (inr (w_content msg)).
Proof.
  split.
  - intros Hf. destruct (from_buffers_split _ _ _ Hf) as (ids & sig & h & p & m & rest & -> & Hi); [done..|].
    rewrite from_buffers_parts in Hf by done.
    apply res_bind_inr in Hf as ([] & Hs & Hf). apply res_bind_inr in Hf as (header & Hh & Hf).
    apply res_bind_inr in Hf as (parent & Hp & Hf). apply res_bind_inr in Hf as (metadata & Hm & Hf).
    apply res_bind_inr in Hf as (c & Hc & Hf). apply res_bind_inr in Hf as (content & Hv & Hf).
    injection Hf as <-.
    destruct rest as [|c' extra]; [done|]. injection Hc as ->.
    exists sig, h, p, m, c, extra. do 2 (split; [done|]). split; [by apply validate_hmac_signed|done].
  - intros (sig & h & p & m & c & extra & -> & Hi & Hs & Hh & Hp & Hm & Hc). cbn [app].
    rewrite from_buffers_parts by done. apply (validate_hmac_signed sig ([h; p; m; c] ++ extra)) in Hs.
    cbn [app] in Hs. rewrite Hs. cbn [res_bind]. rewrite Hh. cbn [res_bind]. rewrite Hp. cbn [res_bind].
    rewrite Hm. cbn [res_bind]. change (part (c :: extra) 0) with (Some (inr c) : option (WireError + text)).
    cbn [res_bind]. rewrite Hc. by destruct msg.
Qed.

(** C39. Reading a message panics exactly when four parts follow the delimiter,
    the signature, if one is asked for, is right, and header, parent and metadata
    read as such: the content is then indexed although it is not there. *)
Theorem four_parts_panic bufs key :
  from_buffers bufs key = None ↔
  ∃ ids sig h p m,
    bufs = ids ++ [MSG_DELIM; sig; h; p; m] ∧ MSG_DELIM ∉ ids ∧
    (∀ k, key = Some k → hex_decode sig = Some (hmac_of k (concat [h; p; m]))) ∧
    (∃ header, parse_header (text_of "header") h = Some (inr header)) ∧
    (∃ parent, parse_parent p = Some (inr parent)) ∧
    (∃ metadata, parse_buffer (text_of "metadata") m = Some (inr metadata)).
Proof.
  split.
  - intros Hf. destruct (from_buffers_split _ _ _ Hf) as (ids & sig & h & p & m & rest & -> & Hi); [done..|].
    rewrite from_buffers_parts in Hf by done.
    apply res_bind_None in Hf as [Hf|([] & Hs & Hf)].
    { unfold validate_hmac in Hf. cbn in Hf. repeat case_match; done. }
    apply res_bind_None in Hf as [Hf|(header & Hh & Hf)].
    { by apply res_bind_None in Hf as [|(? & _ & ?)]. }
    apply res_bind_None in Hf as [Hf|(parent & Hp & Hf)].
    { unfold parse_parent in Hf. case_bool_decide; [done|]. apply res_bind_None in Hf as [Hf|(? & _ & ?)]; [|done].
      by apply res_bind_None in Hf as [|(? & _ & ?)]. }
    apply res_bind_None in Hf as [|(metadata & Hm & Hf)]; [done|].
    apply res_bind_None in Hf as [Hf|(c & _ & Hf)].
    + destruct rest; [|done]. exists ids, sig, h, p, m. do 2 (split; [done|]).
      split; [by apply validate_hmac_signed|]. split_and!; eauto.
    + by apply res_bind_None in Hf as [|(? & _ & ?)].
  - intros (ids & sig & h & p & m & -> & Hi & Hs & (header & Hh) & (parent & Hp) & (metadata & Hm)).
    rewrite from_buffers_parts by done. apply (validate_hmac_signed sig [h; p; m]) in Hs.
    rewrite Hs. cbn [res_bind]. rewrite Hh. cbn [res_bind]. rewrite Hp. cbn [res_bind]. rewrite Hm. done.
Qed.
End properties.

(** ** An instance *)

(** Values as lists of texts, written bit by bit. *)
Definition bit_char (b : bool) : ascii := if b then "1"%char else "0"%char.
Definition char_bit (c : ascii) : bool := bool_decide (c = "1"%char).
Definition byte_bits (b : ascii) : text :=
  match b with Ascii b0 b1 b2 b3 b4 b5 b6 b7 => bit_char <$> [b0; b1; b2; b3; b4; b5; b6; b7] end.
Definition demo_to_vec (v : list text) : text :=
  match v with [] => text_of "{}" | v => concat ((λ t, concat (byte_bits <$> t) ++ [";"%char]) <$> v) end.

Fixpoint demo_from_vec (acc : text) (s : text) : list text :=
  match s with
  | [] => []
  | c :: s =>
      if bool_decide (c = ";"%char) then acc :: demo_from_vec [] s
      else
        match s with
        | c1 :: c2 :: c3 :: c4 :: c5 :: c6 :: c7 :: s =>
            demo_from_vec (acc ++ [Ascii (char_bit c) (char_bit c1) (char_bit c2) (char_bit c3)
                                     (char_bit c4) (char_bit c5) (char_bit c6) (char_bit c7)]) s
        | _ => []
        end
  end.
Definition demo_from_str (s : text) : option (list text) :=
  Some (if bool_decide (s = text_of "{}") then [] else demo_from_vec [] s).

Lemma demo_from_text acc t r :
  demo_from_vec acc (concat (byte_bits <$> t) ++ ";"%char :: r) = (acc ++ t) :: demo_from_vec [] r.
Proof.
  revert acc. induction t as [|[b0 b1 b2 b3 b4 b5 b6 b7] t IH]; intros acc.
  - by rewrite app_nil_r.
  - specialize (IH (acc ++ [Ascii b0 b1 b2 b3 b4 b5 b6 b7])). rewrite <- (assoc_L (++)) in IH. cbn in IH |- *.
    rewrite <- IH. by destruct b0, b1, b2, b3, b4, b5, b6, b7.
Qed.

Lemma demo_from_to v : v ≠ [] → demo_from_vec [] (demo_to_vec v) = v.
Proof.
  intros Hv. destruct v as [|t0 v0] eqn:E; [done|]. rewrite <- E. clear Hv.
  assert (demo_to_vec v = concat ((λ t, concat (byte_bits <$> t) ++ [";"%char]) <$> v)) as -> by by subst.
  clear E. induction v as [|t v IH]; [done|]. cbn. rewrite <- (assoc_L (++)). cbn.
  by rewrite demo_from_text, IH.
Qed.

Lemma demo_readable v : demo_from_str (demo_to_vec v) = Some v.
Proof.
  unfold demo_from_str. destruct v as [|t v]; [done|]. rewrite bool_decide_false.
  - by rewrite demo_from_to.
  - destruct t as [|[b0 b1 b2 b3 b4 b5 b6 b7] t]; [done|]. by destruct b0.
Qed.

Lemma elem_of_concat {A} (x : A) ls : x ∈ concat ls ↔ ∃ l, x ∈ l ∧ l ∈ ls.
Proof. setoid_rewrite list_elem_of_In. rewrite in_concat. naive_solver. Qed.

#[refine] Definition demo_json : Json := {|
  Value := list text; json_to_vec := demo_to_vec; json_from_str := demo_from_str; json_empty := [];
  json_get v key := if bool_decide (key ∈ v) then Some [] else None |}.
Proof.
  - intros v. apply utf8_of_ascii, List.forallb_forall. intros c Hc%list_elem_of_In.
    destruct v as [|t0 v0] eqn:E.
    { cbn in Hc. by apply elem_of_cons in Hc as [->|[->|[]%not_elem_of_nil]%elem_of_cons]. }
    rewrite <- E in Hc.
    assert (Hv : demo_to_vec v = concat ((λ t, concat (byte_bits <$> t) ++ [";"%char]) <$> v)) by by subst.
    rewrite Hv in Hc. apply elem_of_concat in Hc as (x & Hc & (t & -> & _)%list_elem_of_fmap).
    apply elem_of_app in Hc as [Hc| ->%list_elem_of_singleton]; [|done].
    apply elem_of_concat in Hc as (y & Hc & ([b0 b1 b2 b3 b4 b5 b6 b7] & -> & _)%list_elem_of_fmap).
    apply list_elem_of_fmap in Hc as (b & -> & _). by destruct b.
  - done.
Defined.

#[refine] Definition demo_hmac : Hmac := {|
  HmacKey := text; hmac_new_from_slice t := Some t; hmac_of key t := key ++ t;
  hex_encode t := t; hex_decode := Some |}.
Proof. done. Defined.

#[refine] Definition demo_header_json : @HeaderJson demo_json := @Build_HeaderJson demo_json
  (λ h, [msg_id h; h_session h; h_username h; date h; msg_type h; h_version h] : @Value demo_json)
  (λ v, match v with [i; s; u; d; t; w] => Some (mkHeader i s u d t w) | _ => None end) _ _ _.
Proof.
  - by intros [].
  - intros h _. apply demo_readable.
  - intros h. cbn. rewrite !length_app. cbn. lia.
Defined.

Definition demo_contents : Contents := {| opaque _ := text |}.

Definition state_text (s : ExecutionState) : text :=
  text_of match s with Busy => "busy" | Idle => "idle" | Starting => "starting" end%string.
Definition stream_text (s : Stream) : text :=
  text_of match s with Stdout => "stdout" | Stderr => "stderr" end%string.

Section instance.
#[local] Existing Instances demo_json demo_hmac demo_header_json demo_contents.

Definition demo_to_value (k : MessageKind) : content k → option Value :=
  match k return content k → option Value with
  | KStatus => λ s, Some [state_text s]
  | KStream => λ s, Some [stream_text (so_name s); so_text s]
  | KWelcome => λ s, Some [s]
  | KCommOpen => λ c, Some (co_comm_id c :: co_target_name c :: co_data c)
  | KCommMsg => λ c, Some (cm_comm_id c :: cm_data c)
  | KCommClose => λ c, Some [cc_comm_id c]
  | KCommInfoRequest => λ c, Some (option_list (info_target_name c))
  | KCommInfoReply => λ c, Some ((map_to_list (info_comms c)).*1)
  | KExecuteReplyException => λ c, Some [ename (er_exception c)]
  | _ => λ c, Some [c]
  end.

Definition demo_from_value (k : MessageKind) : Value → option (content k) :=
  match k return Value → option (content k) with
  | KStatus => λ v,
      if decide (v = [state_text Busy]) then Some Busy
      else if decide (v = [state_text Idle]) then Some Idle
      else if decide (v = [state_text Starting]) then Some Starting else None
  | KStream => λ v,
      match v with
      | [n; t] => Some (mkStream (if decide (n = stream_text Stdout) then Stdout else Stderr) t)
      | _ => None
      end
  | KWelcome => λ v, match v with [s] => Some s | _ => None end
  | KCommOpen => λ v, match v with i :: n :: d => Some (mkCommOpen i n d) | _ => None end
  | KCommMsg => λ v, match v with i :: d => Some (mkCommWireMsg i d) | _ => None end
  | KCommClose => λ v, match v with [i] => Some (mkCommClose i) | _ => None end
  | KCommInfoRequest => λ v, Some (mkCommInfoRequest (head v))
  | KCommInfoReply => λ v, None
  | KExecuteReplyException => λ v, None
  | _ => λ v, match v with [s] => Some s | _ => None end
  end.

Definition demo_content_json : ContentJson :=
  {| content_to_value := demo_to_value; content_from_value := demo_from_value;
     error_reply_to_value e := Some [ename (err_exception e)] |}.
#[local] Existing Instance demo_content_json.

Definition demo_key : HmacKey := text_of "key".
Definition demo_header (t : text) : JupyterHeader :=
  mkHeader (text_of "1") (text_of "s") (text_of "kernel") (text_of "now") t (text_of "5.3").
Definition demo_stream_message : JupyterMessage (content KStream) :=
  mkJupyter [text_of "id"] (demo_header (text_of "stream")) (Some (demo_header (text_of "execute_request")))
    [] (mkStream Stderr (text_of "oops")).

Lemma message_roundtrip_witness :
  ∃ bufs, message_send (existT KStream demo_stream_message) (Some demo_key) = inr bufs ∧
    message_read bufs (Some demo_key) = Some (inr (existT KStream demo_stream_message)).
Proof.
  apply (message_roundtrip KStream demo_stream_message (Some demo_key)
    [text_of "stderr"; text_of "oops"]).
  - apply (bool_decide_unpack _). vm_compute. exact I.
  - reflexivity.
  - repeat constructor.
  - intros h [= <-]. repeat constructor.
  - apply demo_readable.
  - reflexivity.
  - apply demo_readable.
  - vm_compute. reflexivity.
  - done.
Defined.
End instance.
