(* ===== verification/IOPub.v ===== *)
(** * The IOPub thread: [crates/amalthea/src/socket/iopub.rs]

    [IOPub] takes messages of other threads from one channel, subscriptions from
    another, and the ticks of a timer; it sends messages to the frontend, with
    the request they belong to as parent, and collects stream output in a
    buffer. [CommMsg] is that of [comm/comm_channel.rs]. Channels are the list
    of what is sent on them, here one log, as their order matters; [None] is a
    panic. Logging is left out. *)

From S2P Require Export Wire.
From stdpp Require Import gmap.
#[local] Open Scope list_scope.

(** The identifiers and times of new headers, one after the other. *)
Class Stamps := { stamp : nat → text * text }.

Section iopub.
Context `{Json, !Hmac, !HeaderJson, !Contents, !Stamps}.

(** ** Messages *)

Inductive CommMsg :=
| CmOpen (target_name : text) (data : Value)
| CmRpc (id : text) (parent_header : JupyterHeader) (data : Value)
| CmData (data : Value)
| CmClose.

Inductive IOPubContextChannel := ChShell | ChControl.

Inductive IOPubMessage :=
| IStatus (context : JupyterHeader) (context_channel : IOPubContextChannel) (state : ExecutionState)
| IDebugEvent (c : content KDebugEvent)
| IExecuteResult (c : content KExecuteResult)
| IExecuteError (c : content KExecuteError)
| IExecuteInput (c : content KExecuteInput)
| IStream (c : StreamOutput)
| IDisplayData (c : content KDisplayData)
| IUpdateDisplayData (c : content KUpdateDisplayData)
| IWait (wait_tx : nat)
| ICommOutgoing (comm_id : text) (msg : CommMsg).

(** ** State *)

Record StreamBuffer := mkBuffer { sb_name : Stream; sb_buffer : list text }.

(** What the thread sends: to the frontend, to the kernel that waits for a
    subscriber, to a thread that waits for the queue. *)
Inductive Sent :=
| SentOutbound (m : Message)
| SentSubscribed
| SentWait (wait_tx : nat).

(** [subscribed_open] and [outbound_open]: the other ends are there. *)
Record IOPub := mkIOPub {
  outbound_open : bool;
  subscribed_open : bool;
  subscription_tx : bool;
  io_session : Session;
  shell_context : option JupyterHeader;
  control_context : option JupyterHeader;
  stream_buffer : StreamBuffer;
  created : nat;
  sent : list Sent;
}.
Implicit Types io : IOPub.

Definition iopub_new (session : Session) : IOPub :=
  mkIOPub true true true session None None (mkBuffer Stdout []) 0 [].

Definition set_contexts shell control io : IOPub :=
  mkIOPub (outbound_open io) (subscribed_open io) (subscription_tx io) (io_session io) shell control
    (stream_buffer io) (created io) (sent io).
Definition set_buffer buffer io : IOPub :=
  mkIOPub (outbound_open io) (subscribed_open io) (subscription_tx io) (io_session io) (shell_context io)
    (control_context io) buffer (created io) (sent io).
Definition set_subscription_tx tx io : IOPub :=
  mkIOPub (outbound_open io) (subscribed_open io) tx (io_session io) (shell_context io)
    (control_context io) (stream_buffer io) (created io) (sent io).
Definition log_sent (s : list Sent) io : IOPub :=
  mkIOPub (outbound_open io) (subscribed_open io) (subscription_tx io) (io_session io) (shell_context io)
    (control_context io) (stream_buffer io) (created io) (sent io ++ s).
Definition count_created io : IOPub :=
  mkIOPub (outbound_open io) (subscribed_open io) (subscription_tx io) (io_session io) (shell_context io)
    (control_context io) (stream_buffer io) (S (created io)) (sent io).

(** ** Sending *)

(** [forward]: whether the message could be sent. *)
Definition forward (m : Message) io : bool * IOPub :=
  if outbound_open io then (true, log_sent [SentOutbound m] io) else (false, io).

(** [forward(message_create(header, content))]. *)
Definition forward_new (k : MessageKind) (parent : option JupyterHeader) (c : content k) io : bool * IOPub :=
  let m := create k c parent (io_session io) (stamp (created io)) in
  forward (existT k m) (count_created io).

Definition context_of (context_channel : IOPubContextChannel) io : option JupyterHeader :=
  match context_channel with ChControl => control_context io | ChShell => shell_context io end.

(** [forward(message_with_context(content, channel))]. *)
Definition forward_with_context (k : MessageKind) (c : content k) (context_channel : IOPubContextChannel) io
    : bool * IOPub := forward_new k (context_of context_channel io) c io.

(** [StreamBuffer::drain]. *)
Definition drain_buffer (b : StreamBuffer) : StreamOutput := mkStream (sb_name b) (concat (sb_buffer b)).

Definition flush_stream io : IOPub :=
  if bool_decide (sb_buffer (stream_buffer io) = []) then io
  else
    let content := drain_buffer (stream_buffer io) in
    let io := set_buffer (mkBuffer (sb_name (stream_buffer io)) []) io in
    (forward_with_context KStream content ChShell io).2.

(** ** Handlers *)

Definition process_stream_message (message : StreamOutput) io : IOPub :=
  let io := if bool_decide (so_name message = sb_name (stream_buffer io)) then io
            else set_buffer (mkBuffer (so_name message) []) (flush_stream io) in
  set_buffer (mkBuffer (sb_name (stream_buffer io)) (sb_buffer (stream_buffer io) ++ [so_text message])) io.

Definition process_comm_outgoing (comm_id : text) (comm_msg : CommMsg) io : IOPub :=
  (match comm_msg with
   | CmOpen target_name data => forward_new KCommOpen None (mkCommOpen comm_id target_name data) io
   | CmData data => forward_new KCommMsg None (mkCommWireMsg comm_id data) io
   | CmRpc _ parent_header data => forward_new KCommMsg (Some parent_header) (mkCommWireMsg comm_id data) io
   | CmClose => forward_new KCommClose None (mkCommClose comm_id) io
   end).2.

Definition process_status (context : JupyterHeader) (context_channel : IOPubContextChannel)
    (state : ExecutionState) io : bool * IOPub :=
  let io :=
    match context_channel, state with
    | ChControl, Busy => set_contexts (shell_context io) (Some context) io
    | ChControl, Idle => let io := flush_stream io in set_contexts (shell_context io) None io
    | ChControl, Starting => io
    | ChShell, Busy => set_contexts (Some context) (control_context io) io
    | ChShell, Idle => let io := flush_stream io in set_contexts None (control_context io) io
    | ChShell, Starting => io
    end in
  forward_new KStatus (Some context) state io.

Definition process_iopub_message (message : IOPubMessage) io : bool * IOPub :=
  match message with
  | IStatus context context_channel state => process_status context context_channel state io
  | IExecuteResult c => forward_with_context KExecuteResult c ChShell (flush_stream io)
  | IExecuteError c => forward_with_context KExecuteError c ChShell (flush_stream io)
  | IExecuteInput c => forward_with_context KExecuteInput c ChShell io
  | IStream c => (true, process_stream_message c io)
  | IDisplayData c => forward_with_context KDisplayData c ChShell (flush_stream io)
  | IUpdateDisplayData c => forward_with_context KUpdateDisplayData c ChShell (flush_stream io)
  | IDebugEvent c => forward_with_context KDebugEvent c ChControl (flush_stream io)
  | IWait wait_tx => (true, log_sent [SentWait wait_tx] io)
  | ICommOutgoing comm_id comm_msg => (true, process_comm_outgoing comm_id comm_msg (flush_stream io))
  end.

(** [None]: the kernel that waits for a subscriber is gone. *)
Definition confirm_subscription (subscription : text) io : option (bool * IOPub) :=
  if subscription_tx io then
    let '(ok, io) := forward_new KWelcome None subscription io in
    if negb ok then Some (false, io)
    else
      let '(ok, io) := forward_new KStatus None Starting io in
      if negb ok then Some (false, io)
      else if subscribed_open io then
        Some (true, set_subscription_tx false (log_sent [SentSubscribed] io))
      else None
  else Some (false, io).

Definition process_subscription_message (message : SubscriptionMessage) io : option (bool * IOPub) :=
  match su_kind message with
  | Subscribe => confirm_subscription (subscription message) io
  | Unsubscribe => Some (true, io)
  end.

(** ** The event loop *)

(** What [listen] selects: a message ([None] when all senders are gone), what
    comes from the socket, a tick. *)
Inductive IOPubEvent :=
| EvMessage (msg : option IOPubMessage)
| EvSubscription (msg : option (SubscriptionError + SubscriptionMessage))
| EvTick.

Definition listen_step (event : IOPubEvent) io : option IOPub :=
  match event with
  | EvMessage (Some msg) => Some (process_iopub_message msg io).2
  | EvMessage None => None
  | EvSubscription (Some (inr msg)) => snd <$> process_subscription_message msg io
  | EvSubscription _ => Some io
  | EvTick => Some (flush_stream io)
  end.

Definition listen (events : list IOPubEvent) io : option IOPub := foldM listen_step events io.

End iopub.
