(* ===== verification/KernelShell.v ===== *)
(** * The Shell and StdIn threads: [crates/amalthea/src/socket]

    [Shell] of [shell.rs] takes requests from the frontend and comm events from
    the kernel, keeps the open comms, and answers; [Stdin] of [stdin.rs] sends
    requests to the frontend and hands the answers over. The handler of the
    language is behind a trait, here a class. What the Shell sends is one log,
    as its order matters: to the IOPub thread, to the socket, to comms, and the
    barriers it releases. Sends succeed: the receivers of these channels live as
    long as the kernel. [None] is a panic. Logging is left out. *)

From S2P Require Export IOPub.
From stdpp Require Import gmap.
#[local] Open Scope list_scope.

(** ** Comms *)

Inductive CommInitiator := FrontEnd | BackEnd.
#[export] Instance CommInitiator_eq_dec : EqDecision CommInitiator.
Proof. solve_decision. Defined.

(** [incoming_tx] tells channels apart. *)
Record CommSocket := mkCommSocket {
  comm_id : text;
  comm_name : text;
  initiator : CommInitiator;
  incoming_tx : nat;
}.

Inductive Comm := Variables | Lsp | Dap | Plot | DataViewer | Help | Ui | Other (name : text).

(** [Comm::from_str], which [strum] derives: names in camel case. *)
Definition comm_from_str (s : text) : option Comm :=
  if bool_decide (s = text_of "variables") then Some Variables
  else if bool_decide (s = text_of "lsp") then Some Lsp
  else if bool_decide (s = text_of "dap") then Some Dap
  else if bool_decide (s = text_of "plot") then Some Plot
  else if bool_decide (s = text_of "dataViewer") then Some DataViewer
  else if bool_decide (s = text_of "help") then Some Help
  else if bool_decide (s = text_of "ui") then Some Ui
  else if bool_decide (s = text_of "other") then Some (Other [])
  else None.

Inductive KernelError :=
| ShellErrorReply (e : Exception)
| ShellErrorExecuteReply (e : Exception) (exec_count : nat)
| UnknownCommName (name : text)
| InvalidCommMessage (name : text)
| SendError (name : text)
| OtherError (repr : text).

Section shell.
Context `{Json, !Hmac, !HeaderJson, !Contents, !ContentJson, !Stamps}.

Inductive CommEvent :=
| CeOpened (comm_socket : CommSocket) (data : Value) (done_tx : option nat)
| CeMessage (comm_id : text) (msg : CommMsg)
| CeClosed (comm_id : text).

Inductive CommHandled := Handled | NotHandled.

(** A channel for one value: the comm events that are there before the value, and
    the value, or nothing when its sender is dropped. *)
Definition Await (A : Type) : Type := list CommEvent * option A.

(** [ShellHandler] and [ServerHandler], with the state of the language. The reply
    to [handle_info_request] is the full one. A server that is started sends
    one message, or drops its sender. *)
Class ShellHandler := {
  Handler : Type;
  handle_info_request : content KKernelInfoRequest → Handler →
    (KernelError + content KKernelInfoReply) * Handler;
  handle_is_complete_request : content KIsCompleteRequest → Handler →
    (KernelError + content KIsCompleteReply) * Handler;
  handle_complete_request : content KCompleteRequest → Handler →
    (KernelError + content KCompleteReply) * Handler;
  handle_history_request : content KHistoryRequest → Handler →
    (KernelError + content KHistoryReply) * Handler;
  handle_inspect_request : content KInspectRequest → Handler →
    (KernelError + content KInspectReply) * Handler;
  start_execute_request : Originator → content KExecuteRequest → Handler →
    Await (KernelError + content KExecuteReply) * Handler;
  handle_comm_open : Comm → CommSocket → Value → Handler →
    (KernelError + bool * option (Await unit)) * Handler;
  handle_comm_msg : text → text → CommMsg → Originator → Handler →
    (KernelError + CommHandled * option (Await unit)) * Handler;
  handle_comm_close : text → text → Handler →
    (KernelError + CommHandled * option (Await unit)) * Handler;
  server_start_from_value : Value → bool;
  server_start : text → CommSocket → Value → Handler → (KernelError + option Value) * Handler;
  server_started : bool → Value → CommMsg;
  error_debug : KernelError → text;
}.
Context `{!ShellHandler}.

(** ** State *)

Inductive Effect :=
| ToIOPub (m : IOPubMessage)
| ToSocket (w : WireMessage)
| ToComm (incoming_tx : nat) (msg : CommMsg)
| Barrier (done_tx : nat).

Record Shell := mkShell {
  sh_session : Session;
  sh_handler : Handler;
  server_handlers : list text;
  open_comms : list CommSocket;
  next_incoming : nat;
  sh_created : nat;
  effects : list Effect;
}.
Implicit Types sh : Shell.

Definition shell_new (session : Session) (handler : Handler) (servers : list text) : Shell :=
  mkShell session handler servers [] 0 0 [].

Definition emit (es : list Effect) sh : Shell :=
  mkShell (sh_session sh) (sh_handler sh) (server_handlers sh) (open_comms sh) (next_incoming sh)
    (sh_created sh) (effects sh ++ es).
Definition set_handler handler sh : Shell :=
  mkShell (sh_session sh) handler (server_handlers sh) (open_comms sh) (next_incoming sh)
    (sh_created sh) (effects sh).
Definition set_open_comms comms sh : Shell :=
  mkShell (sh_session sh) (sh_handler sh) (server_handlers sh) comms (next_incoming sh)
    (sh_created sh) (effects sh).
Definition count_header sh : Shell :=
  mkShell (sh_session sh) (sh_handler sh) (server_handlers sh) (open_comms sh) (next_incoming sh)
    (S (sh_created sh)) (effects sh).

(** [CommSocket::new]. *)
Definition comm_socket_new (initiator : CommInitiator) (comm_id comm_name : text) sh : CommSocket * Shell :=
  (mkCommSocket comm_id comm_name initiator (next_incoming sh),
   mkShell (sh_session sh) (sh_handler sh) (server_handlers sh) (open_comms sh) (S (next_incoming sh))
     (sh_created sh) (effects sh)).

(** ** Comm events *)

Definition remove_at {A} (i : nat) (l : list A) : list A := take i l ++ drop (S i) l.

Definition find_comm (id : text) (comms : list CommSocket) : option CommSocket :=
  List.find (λ c, bool_decide (comm_id c = id)) comms.

Definition process_comm_event (event : CommEvent) sh : Shell :=
  match event with
  | CeOpened comm_socket data done_tx =>
      let sh := if bool_decide (initiator comm_socket = BackEnd)
                then emit [ToIOPub (ICommOutgoing (comm_id comm_socket) (CmOpen (comm_name comm_socket) data))] sh
                else sh in
      let sh := set_open_comms (open_comms sh ++ [comm_socket]) sh in
      match done_tx with Some done_tx => emit [Barrier done_tx] sh | None => sh end
  | CeMessage id msg =>
      match find_comm id (open_comms sh) with
      | None => sh
      | Some comm => emit [ToComm (incoming_tx comm) msg] sh
      end
  | CeClosed id =>
      match position (λ c, comm_id c = id) (open_comms sh) with
      | None => sh
      | Some idx =>
          let sh := emit (match open_comms sh !! idx with
                          | Some comm => [ToComm (incoming_tx comm) CmClose]
                          | None => []
                          end) sh in
          set_open_comms (remove_at idx (open_comms sh)) sh
      end
  end.

Definition process_comm_events (events : list CommEvent) sh : Shell :=
  foldl (λ sh event, process_comm_event event sh) sh events.

(** [drain_comm_events_until]: the events that are there before the value is. *)
Definition drain_comm_events_until {A} (rx : Await A) sh : option (A * Shell) :=
  value ← rx.2;
  Some (value, process_comm_events rx.1 sh).

(** ** Requests *)

Definition status {T} (parent : JupyterMessage T) (state : ExecutionState) : Effect :=
  ToIOPub (IStatus (header parent) ChShell state).

(** A reply is put on the wire if its content can be; whether it was. *)
Definition send_wire (w : WireError + WireMessage) sh : bool * Shell :=
  match w with inr w => (true, emit [ToSocket w] sh) | inl _ => (false, sh) end.

Definition send_reply {T} (req : JupyterMessage T) (k : MessageKind) (reply : content k) sh : bool * Shell :=
  let reply := create_reply req k reply (sh_session sh) (stamp (sh_created sh)) in
  send_wire (wire_of reply (content_to_value k (jm_content reply))) (count_header sh).

Definition send_error {T} (req : JupyterMessage T) (k : MessageKind) (exception : Exception) sh : bool * Shell :=
  let reply := error_reply req k exception (sh_session sh) (stamp (sh_created sh)) in
  send_wire (wire_of reply (error_reply_to_value (jm_content reply))) (count_header sh).

Definition send_result {T} (req : JupyterMessage T) (k : MessageKind) (result : KernelError + content k) sh
    : bool * Shell :=
  match result with
  | inr reply => send_reply req k reply sh
  | inl (ShellErrorReply error) => send_error req k error sh
  | inl (ShellErrorExecuteReply error exec_count) =>
      send_reply req KExecuteReplyException (mkExecuteReplyException StatusError exec_count error) sh
  | inl err => send_error req k (internal_error (error_debug err)) sh
  end.

Definition handle_request {T} (req : JupyterMessage T) (k : MessageKind)
    (handler : T → Handler → (KernelError + content k) * Handler) sh : bool * Shell :=
  let sh := emit [status req Busy] sh in
  let (result, h) := handler (jm_content req) (sh_handler sh) in
  let '(ok, sh) := send_result req k result (set_handler h sh) in
  (ok, emit [status req Idle] sh).

Definition handle_execute_request (req : JupyterMessage (content KExecuteRequest)) sh
    : option (bool * Shell) :=
  let sh := emit [status req Busy] sh in
  let (response_rx, h) := start_execute_request (originator_from req) (jm_content req) (sh_handler sh) in
  '(result, sh) ← drain_comm_events_until response_rx (set_handler h sh);
  let '(ok, sh) := send_result req KExecuteReply result sh in
  Some (ok, emit [status req Idle] sh).

(** The comms of a reply: those with the name that is asked for. *)
Definition handle_comm_info_request (open_comms : list CommSocket) (req : CommInfoRequest) : CommInfoReply :=
  mkCommInfoReply StatusOk
    (foldl (λ info comm,
       if match info_target_name req with
          | None => true
          | Some name => bool_decide (name = []) || bool_decide (name = comm_name comm)
          end
       then <[comm_id comm := comm_name comm]> info else info) ∅ open_comms).

Definition handle_comm_msg_content (originator : Originator) (msg : CommWireMsg) sh
    : (KernelError + unit) * option (Await unit) * Shell :=
  let comm_msg :=
    if bool_decide (is_Some (json_get (cm_data msg) (text_of "id"))) then
      CmRpc (msg_id (or_header originator)) (or_header originator) (cm_data msg)
    else CmData (cm_data msg) in
  match find_comm (cm_comm_id msg) (open_comms sh) with
  | None => (inr tt, None, sh)
  | Some comm =>
      let (result, h) := handle_comm_msg (cm_comm_id msg) (comm_name comm) comm_msg originator (sh_handler sh) in
      let sh := set_handler h sh in
      match result with
      | inr (Handled, done_rx) => (inr tt, done_rx, sh)
      | inr (NotHandled, _) => (inr tt, None, emit [ToComm (incoming_tx comm) comm_msg] sh)
      | inl err => (inl err, None, sh)
      end
  end.

Definition handle_comm_close_content (msg : CommClose) sh : (KernelError + unit) * option (Await unit) * Shell :=
  match position (λ c, comm_id c = cc_comm_id msg) (open_comms sh) with
  | None => (inr tt, None, sh)
  | Some idx =>
      match open_comms sh !! idx with
      | None => (inr tt, None, sh)
      | Some comm =>
          let (result, h) := handle_comm_close (cc_comm_id msg) (comm_name comm) (sh_handler sh) in
          let sh := set_handler h sh in
          match result with
          | inl err => (inl err, None, sh)
          | inr (handled, done_rx) =>
              let '(done_rx, sh) :=
                match handled with
                | Handled => (done_rx, sh)
                | NotHandled => (None, emit [ToComm (incoming_tx comm) CmClose] sh)
                end in
              (inr tt, done_rx, set_open_comms (remove_at idx (open_comms sh)) sh)
          end
      end
  end.

(** *** Opening a comm *)

Definition POSITRON : text := text_of "positron.".

(** [&target_name[9..]]. *)
Definition strip_positron (target_name : text) : option text :=
  if starts_with target_name POSITRON then Some (drop 9 target_name) else None.

Definition comm_of_target (target_name : text) : option Comm :=
  match strip_positron target_name with
  | Some rest => comm_from_str rest
  | None => Some (Other target_name)
  end.

(** [start_server_comm]: the message of the server, or nothing when it drops its
    sender. *)
Definition start_server_comm (msg : CommOpen) (handler : option text) (comm_socket : CommSocket) sh
    : (KernelError + option Value) * Shell :=
  match handler with
  | None => (inl (UnknownCommName (co_target_name msg)), sh)
  | Some key =>
      if server_start_from_value (co_data msg) then
        let (started, h) := server_start key comm_socket (co_data msg) (sh_handler sh) in
        (started, set_handler h sh)
      else (inl (InvalidCommMessage (co_target_name msg)), sh)
  end.

(** [server_handlers.get(key)]. *)
Definition server_handler (key : text) sh : option text :=
  if bool_decide (key ∈ server_handlers sh) then Some key else None.

(** How a comm was opened: by a server, whose message is awaited, or by the
    language. *)
Inductive OpenedBy := ByServer (started : option Value) | ByShell (opened : bool) (done_rx : option (Await unit)).

Definition open_with_shell (comm : Comm) (comm_socket : CommSocket) (data : Value) sh
    : (KernelError + OpenedBy) * Shell :=
  let (result, h) := handle_comm_open comm comm_socket data (sh_handler sh) in
  (match result with inr (opened, rx) => inr (ByShell opened rx) | inl err => inl err end, set_handler h sh).

Definition open_with_server (msg : CommOpen) (handler : option text) (comm_socket : CommSocket) sh
    : (KernelError + OpenedBy) * Shell :=
  let (result, sh) := start_server_comm msg handler comm_socket sh in
  (match result with inr started => inr (ByServer started) | inl err => inl err end, sh).

(** The branches on the kind of comm. *)
Definition open_kind (comm : Comm) (comm_socket : CommSocket) (msg : CommOpen) sh
    : (KernelError + OpenedBy) * Shell :=
  match comm with
  | Lsp =>
      let target_key := default (co_target_name msg) (strip_positron (co_target_name msg)) in
      open_with_server msg (server_handler target_key sh) comm_socket sh
  | Other _ =>
      match server_handler (co_target_name msg) sh with
      | Some key => open_with_server msg (Some key) comm_socket sh
      | None => open_with_shell comm comm_socket (co_data msg) sh
      end
  | comm => open_with_shell comm comm_socket (co_data msg) sh
  end.

Definition open_comm (msg : CommOpen) sh : (KernelError + unit) * option (Await unit) * Shell :=
  match comm_of_target (co_target_name msg) with
  | None => (inl (UnknownCommName (co_target_name msg)), None, sh)
  | Some comm =>
      let (comm_socket, sh) := comm_socket_new FrontEnd (co_comm_id msg) (co_target_name msg) sh in
      let lsp_comm := match comm with Lsp => true | _ => false end in
      match open_kind comm comm_socket msg sh with
      | (inl err, sh) => (inl err, None, sh)
      | (inr (ByShell false _), sh) => (inl (UnknownCommName (co_target_name msg)), None, sh)
      | (inr (ByShell true done_rx), sh) =>
          (inr tt, done_rx, set_open_comms (open_comms sh ++ [comm_socket]) sh)
      | (inr (ByServer started), sh) =>
          let sh := set_open_comms (open_comms sh ++ [comm_socket]) sh in
          match started with
          | None => (inl (SendError (co_target_name msg)), None, sh)
          | Some params =>
              (inr tt, None,
               emit [ToIOPub (ICommOutgoing (co_comm_id msg) (server_started lsp_comm params))] sh)
          end
      end
  end.

(** The body of the request: an error closes the comm on the frontend. *)
Definition handle_comm_open_content (msg : CommOpen) sh : (KernelError + unit) * option (Await unit) * Shell :=
  let '(result, done_rx, sh) := open_comm msg sh in
  match result with
  | inl _ => (inr tt, done_rx, emit [ToIOPub (ICommOutgoing (co_comm_id msg) CmClose)] sh)
  | inr _ => (inr tt, done_rx, sh)
  end.

(** *** Dispatch *)

Definition handle_comm_request {T} (req : JupyterMessage T)
    (handler : Shell → (KernelError + unit) * option (Await unit) * Shell) sh : option (bool * Shell) :=
  let '(result, done_rx, sh) := handler (emit [status req Busy] sh) in
  '(_, sh) ← match done_rx with
             | Some done_rx => drain_comm_events_until done_rx sh
             | None => Some (tt, sh)
             end;
  Some (match result with inr _ => true | inl _ => false end, emit [status req Idle] sh).

(** Whether the message was handled without an error. *)
Definition process_message (msg : Message) sh : option (bool * Shell) :=
  match msg with
  | existT KExecuteRequest req => handle_execute_request req sh
  | existT KCommMsg req =>
      handle_comm_request req (handle_comm_msg_content (originator_from req) (jm_content req)) sh
  | existT KCommClose req => handle_comm_request req (handle_comm_close_content (jm_content req)) sh
  | existT KCommOpen req => handle_comm_request req (handle_comm_open_content (jm_content req)) sh
  | existT KKernelInfoRequest req => Some (handle_request req KKernelInfoReply handle_info_request sh)
  | existT KIsCompleteRequest req => Some (handle_request req KIsCompleteReply handle_is_complete_request sh)
  | existT KCompleteRequest req => Some (handle_request req KCompleteReply handle_complete_request sh)
  | existT KCommInfoRequest req =>
      Some (handle_request req KCommInfoReply
        (λ msg h, (inr (handle_comm_info_request (open_comms sh) msg), h)) sh)
  | existT KHistoryRequest req => Some (handle_request req KHistoryReply handle_history_request sh)
  | existT KInspectRequest req => Some (handle_request req KInspectReply handle_inspect_request sh)
  | _ => Some (false, sh)
  end.

(** One turn of [listen]: what is readable. *)
Inductive ShellInput := ShEvents (events : list CommEvent) | ShMessage (bufs : list text).

Definition shell_step (input : ShellInput) sh : option Shell :=
  match input with
  | ShEvents events => Some (process_comm_events events sh)
  | ShMessage bufs =>
      message ← message_read bufs (hmac (sh_session sh));
      match message with
      | inl _ => Some sh
      | inr message => snd <$> process_message message sh
      end
  end.

Definition shell_listen (inputs : list ShellInput) sh : option Shell := foldM shell_step inputs sh.

End shell.

(** ** The Control thread: [control.rs] *)

Section control.
Context `{Json, !Hmac, !HeaderJson, !Contents, !ContentJson, !Stamps}.

(** [ControlHandler]: [None] is an error. *)
Class ControlHandler := {
  Control : Type;
  handle_shutdown_request : content KShutdownRequest → Control → option (content KShutdownReply) * Control;
  handle_interrupt_request : Control → option (content KInterruptReply) * Control;
  handle_debug_request : content KDebugRequest → Control → option (content KDebugReply) * Control;
}.
Context `{!ControlHandler}.

Inductive ControlEffect :=
| CtlIOPub (m : IOPubMessage)
| CtlSocket (w : WireMessage)
| CtlStdinInterrupt.

(** A reply, if there is one and it can be put on the wire. *)
Definition control_reply {T} (req : JupyterMessage T) (k : MessageKind) (reply : option (content k))
    (session : Session) (st : text * text) : list ControlEffect :=
  match reply with
  | None => []
  | Some reply =>
      match wire_of (create_reply req k reply session st) (content_to_value k reply) with
      | inr w => [CtlSocket w]
      | inl _ => []
      end
  end.

(** [Control::send_state]. *)
Definition send_state {T} (parent : JupyterMessage T) (state : ExecutionState) : ControlEffect :=
  CtlIOPub (IStatus (header parent) ChControl state).

(** [Control::handle_request]. *)
Definition control_request {T} (req : JupyterMessage T)
    (handler : JupyterMessage T → Control → list ControlEffect * Control) (c : Control)
    : list ControlEffect * Control :=
  let (es, c) := handler req c in
  (send_state req Busy :: es ++ [send_state req Idle], c).

Section handlers.
Variables (session : Session) (st : text * text).

Definition control_shutdown (req : JupyterMessage (content KShutdownRequest)) (c : Control)
    : list ControlEffect * Control :=
  let (reply, c) := handle_shutdown_request (jm_content req) c in
  (control_reply req KShutdownReply reply session st, c).

Definition control_debug (req : JupyterMessage (content KDebugRequest)) (c : Control)
    : list ControlEffect * Control :=
  let (reply, c) := handle_debug_request (jm_content req) c in
  (control_reply req KDebugReply reply session st, c).

(** StdIn hears of the interrupt first. *)
Definition control_interrupt (req : JupyterMessage (content KInterruptRequest)) (c : Control)
    : list ControlEffect * Control :=
  let (reply, c) := handle_interrupt_request c in
  (CtlStdinInterrupt :: control_reply req KInterruptReply reply session st, c).

(** [Control::process_message]; [None] for a message of another socket. *)
Definition control_process (msg : Message) (c : Control) : option (list ControlEffect * Control) :=
  match msg with
  | existT KDebugRequest req => Some (control_request req control_debug c)
  | existT KShutdownRequest req => Some (control_request req control_shutdown c)
  | existT KInterruptRequest req => Some (control_request req control_interrupt c)
  | _ => None
  end.
End handlers.
End control.

(** ** The StdIn thread: [stdin.rs] *)

Section stdin.
Context `{Json, !Hmac, !HeaderJson, !Contents, !Stamps}.

(** The reply that reports an error of the socket. *)
Class StdinReplies := { receive_error : WireError → content KCommReply }.
Context `{!StdinReplies}.

Inductive StdInRequest :=
| SiInput (originator : Originator) (request : content KInputRequest)
| SiComm (originator : Originator) (reply_tx : nat) (request : content KCommRequest).

Inductive StdInRpcReply := RpcReply (reply : content KCommReply) | RpcInterrupt.

(** Where the reply to the request that waits goes. *)
Inductive StdInReplySender := ReplyInput | ReplyComm (tx : nat).

Inductive StdinEffect :=
| StOutbound (m : Message)
| StInputReply (reply : WireError + content KInputReply)
| StCommReply (tx : nat) (reply : StdInRpcReply).

(** The three channels it reads from, and the sender of the request that waits. *)
Record Stdin := mkStdin {
  st_session : Session;
  st_requests : list StdInRequest;
  st_interrupts : nat;
  st_inbound : list (WireError + Message);
  st_waiting : option StdInReplySender;
  st_created : nat;
  st_effects : list StdinEffect;
}.
Implicit Types s : Stdin.

Definition stdin_new (session : Session) : Stdin := mkStdin session [] 0 [] None 0 [].

Definition stdin_emit (es : list StdinEffect) (waiting : option StdInReplySender) s : Stdin :=
  mkStdin (st_session s) (st_requests s) (st_interrupts s) (st_inbound s) waiting (st_created s)
    (st_effects s ++ es).

(** The message of a request, and where its reply goes. *)
Definition stdin_request (req : StdInRequest) (session : Session) (st : text * text)
    : Message * StdInReplySender :=
  match req with
  | SiInput originator request =>
      (existT KInputRequest (create_with_identity KInputRequest originator request session st), ReplyInput)
  | SiComm originator reply_tx request =>
      (existT KCommRequest (create_with_identity KCommRequest originator request session st),
       ReplyComm reply_tx)
  end.

(** What a message from the frontend gives the request that waits. *)
Definition stdin_reply (message : WireError + Message) (tx : StdInReplySender) : list StdinEffect :=
  match message, tx with
  | inr (existT KInputReply reply), ReplyInput => [StInputReply (inr (jm_content reply))]
  | inr (existT KCommReply reply), ReplyComm tx => [StCommReply tx (RpcReply (jm_content reply))]
  | inr _, _ => []
  | inl err, ReplyInput => [StInputReply (inl err)]
  | inl err, ReplyComm tx => [StCommReply tx (RpcReply (receive_error err))]
  end.

(** What happens: something arrives on a channel, or [select!] takes the first
    of a channel that is ready. *)
Inductive StdinStep :=
| ArriveRequest (req : StdInRequest)
| ArriveInterrupt
| ArriveInbound (message : WireError + Message)
| TakeRequest
| TakeInterrupt
| TakeInbound.

(** [None]: the channel is not ready, or not selected from in this state. *)
Definition stdin_step (step : StdinStep) s : option Stdin :=
  match step with
  | ArriveRequest req =>
      Some (mkStdin (st_session s) (st_requests s ++ [req]) (st_interrupts s) (st_inbound s)
              (st_waiting s) (st_created s) (st_effects s))
  | ArriveInterrupt =>
      Some (mkStdin (st_session s) (st_requests s) (S (st_interrupts s)) (st_inbound s)
              (st_waiting s) (st_created s) (st_effects s))
  | ArriveInbound message =>
      Some (mkStdin (st_session s) (st_requests s) (st_interrupts s) (st_inbound s ++ [message])
              (st_waiting s) (st_created s) (st_effects s))
  | TakeRequest =>
      match st_waiting s, st_requests s with
      | None, req :: reqs =>
          let (msg, tx) := stdin_request req (st_session s) (stamp (st_created s)) in
          Some (stdin_emit [StOutbound msg] (Some tx)
                  (mkStdin (st_session s) reqs (st_interrupts s) (st_inbound s) None
                     (S (st_created s)) (st_effects s)))
      | _, _ => None
      end
  | TakeInterrupt =>
      match st_interrupts s with
      | 0 => None
      | S n =>
          let s' := mkStdin (st_session s) (st_requests s) n (st_inbound s) None (st_created s) (st_effects s) in
          Some (match st_waiting s with
                | Some (ReplyComm tx) => stdin_emit [StCommReply tx RpcInterrupt] None s'
                | _ => s'
                end)
      end
  | TakeInbound =>
      match st_waiting s, st_inbound s with
      | Some tx, message :: inbound =>
          Some (stdin_emit (stdin_reply message tx) None
                  (mkStdin (st_session s) (st_requests s) (st_interrupts s) inbound None
                     (st_created s) (st_effects s)))
      | _, _ => None
      end
  end.

Definition stdin_run (steps : list StdinStep) s : option Stdin := foldM stdin_step steps s.
End stdin.
