(* ===== verification/KernelTheorems.v ===== *)
(** * Theorems on the threads of the kernel

    IOPub is compared with a thread without a buffer; then the Shell with what
    the frontend is promised, and the two together; last StdIn. *)

From S2P Require Import KernelShell.
From stdpp Require Import gmap.
#[local] Open Scope list_scope.

(** ** IOPub *)

Section iopub.
Context `{JS : Json, HM : !Hmac, HJ : !HeaderJson, CO : !Contents, ST : !Stamps}.
Implicit Types io : IOPub.

(** What the order is kept of: bytes of streams, and messages. *)
Inductive Item := IByte (stream : Stream) (b : ascii) | IMessage (k : MessageKind) (c : content k).

Definition stream_items (o : StreamOutput) : list Item := IByte (so_name o) <$> so_text o.
Definition comm_item (comm_id : text) (msg : CommMsg) : Item :=
  match msg with
  | CmOpen target_name data => IMessage KCommOpen (mkCommOpen comm_id target_name data)
  | CmRpc _ _ data | CmData data => IMessage KCommMsg (mkCommWireMsg comm_id data)
  | CmClose => IMessage KCommClose (mkCommClose comm_id)
  end.

(** Requests that start, their input, and threads that wait do not wait for
    the buffer; all other messages do. *)
Definition message_items (m : IOPubMessage) : list Item :=
  match m with
  | IStatus _ _ Idle => [IMessage KStatus Idle]
  | IStatus _ _ _ | IExecuteInput _ | IWait _ => []
  | IDebugEvent c => [IMessage KDebugEvent c]
  | IExecuteResult c => [IMessage KExecuteResult c]
  | IExecuteError c => [IMessage KExecuteError c]
  | IStream o => stream_items o
  | IDisplayData c => [IMessage KDisplayData c]
  | IUpdateDisplayData c => [IMessage KUpdateDisplayData c]
  | ICommOutgoing comm_id msg => [comm_item comm_id msg]
  end.
Definition in_items (e : IOPubEvent) : list Item :=
  match e with EvMessage (Some m) => message_items m | _ => [] end.

Definition out_items (m : Message) : list Item :=
  match m with
  | existT KStream j => stream_items (jm_content j)
  | existT KStatus j => if bool_decide (jm_content j = Idle) then [IMessage KStatus Idle] else []
  | existT (KExecuteInput | KWelcome) _ => []
  | existT k j => [IMessage k (jm_content j)]
  end.
Definition sent_items (l : list Sent) : list Item :=
  l ≫= λ s, match s with SentOutbound m => out_items m | _ => [] end.

(** The text in the buffer. *)
Definition held io : list Item := stream_items (drain_buffer (stream_buffer io)).

(** Everything but streams, with its parent, as it is sent. *)
Inductive Announced :=
| AMessage (k : MessageKind) (parent : option JupyterHeader) (c : content k)
| ASubscribed
| AWait (wait_tx : nat).

Definition announced (s : Sent) : list Announced :=
  match s with
  | SentOutbound (existT KStream _) => []
  | SentOutbound (existT k j) => [AMessage k (parent_header j) (jm_content j)]
  | SentSubscribed => [ASubscribed]
  | SentWait wait_tx => [AWait wait_tx]
  end.

(** What stays when messages are sent. *)
Definition same_contexts io io' : Prop :=
  outbound_open io' = outbound_open io ∧ subscribed_open io' = subscribed_open io ∧
  subscription_tx io' = subscription_tx io ∧ shell_context io' = shell_context io ∧
  control_context io' = control_context io.

#[local] Instance same_contexts_preorder : PreOrder same_contexts.
Proof. split; [done|]. unfold same_contexts. intros ???. intuition congruence. Qed.

(** A stream message has the current request as parent. *)
Definition stream_parent (parent : option JupyterHeader) (s : Sent) : Prop :=
  match s with SentOutbound (existT KStream j) => parent_header j = parent | _ => True end.

(** From [io] to [io'] the messages [l] are sent, and the items [its] are sent
    after those held, or held. *)
Record sends io io' (l : list Sent) (its : list Item) : Prop := {
  se_sent : sent io' = sent io ++ l;
  se_items : sent_items l ++ held io' = held io ++ its;
}.

Lemma sent_items_app l1 l2 : sent_items (l1 ++ l2) = sent_items l1 ++ sent_items l2.
Proof. apply bind_app. Qed.

Lemma sends_trans io1 io2 io3 l1 l2 its1 its2 :
  sends io1 io2 l1 its1 → sends io2 io3 l2 its2 → sends io1 io3 (l1 ++ l2) (its1 ++ its2).
Proof.
  intros [Hb1 Hi1] [Hb2 Hi2]. split; [by rewrite Hb2, Hb1, (assoc_L (++))|].
  by rewrite sent_items_app, <- (assoc_L (++)), Hi2, (assoc_L (++)), Hi1, (assoc_L (++)).
Qed.

Lemma forward_new_spec k parent c io :
  outbound_open io = true →
  ∃ io' j, forward_new k parent c io = (true, io') ∧ same_contexts io io' ∧
    sent io' = sent io ++ [SentOutbound (existT k j)] ∧ parent_header j = parent ∧ jm_content j = c ∧
    stream_buffer io' = stream_buffer io.
Proof.
  intros Ho. unfold forward_new, forward. cbn. rewrite Ho. eexists _, _. split; [done|]. by cbn.
Qed.

(** Flushing sends what is held, if there is anything. *)
Lemma flush_spec io :
  outbound_open io = true →
  ∃ l, sends io (flush_stream io) l [] ∧ same_contexts io (flush_stream io) ∧ (l ≫= announced) = [] ∧
    Forall (stream_parent (shell_context io)) l ∧ sb_buffer (stream_buffer (flush_stream io)) = [].
Proof.
  intros Ho. unfold flush_stream. case_bool_decide as Hb.
  - exists []. split; [split; by rewrite ?app_nil_r|]. by cbn.
  - unfold forward_with_context. set (io1 := set_buffer _ io).
    destruct (forward_new_spec KStream (shell_context io1) (drain_buffer (stream_buffer io)) io1 Ho)
      as (io2 & j & Hf & Hs & Hsent & Hp & Hc & Hbuf). cbn [context_of]. rewrite Hf. cbn [snd].
    exists [SentOutbound (existT KStream j)]. split; [split|].
    + by rewrite Hsent.
    + change (sent_items _) with (stream_items (jm_content j) ++ []). unfold held at 1. rewrite Hbuf.
      cbn [drain_buffer sb_buffer concat so_text stream_items fmap list_fmap]. rewrite !app_nil_r.
      exact (f_equal stream_items Hc).
    + split; [done|]. split; [done|]. split; [by repeat constructor|]. by rewrite Hbuf.
Qed.

Lemma held_empty io : sb_buffer (stream_buffer io) = [] → held io = [].
Proof. unfold held, drain_buffer. by intros ->. Qed.

(** A message that is not a stream, sent at its place. *)
Lemma forward_sends k parent c io its :
  outbound_open io = true → k ≠ KStream → its ++ held io = held io ++ its →
  (∀ j : JupyterMessage (content k), jm_content j = c → out_items (existT k j) = its) →
  ∃ io' l, forward_new k parent c io = (true, io') ∧ sends io io' l its ∧ same_contexts io io' ∧
    (l ≫= announced) = [AMessage k parent c] ∧ (∀ p, Forall (stream_parent p) l) ∧
    stream_buffer io' = stream_buffer io.
Proof.
  intros Ho Hk Hi Hout. destruct (forward_new_spec k parent c io Ho) as (io' & j & Hf & Hs & Hsent & <- & <- & Hb).
  exists io', [SentOutbound (existT k j)]. split; [done|]. split; [split|].
  - done.
  - unfold held. rewrite Hb. change (sent_items _) with (out_items (existT k j) ++ []).
    by rewrite app_nil_r, (Hout j eq_refl).
  - split; [done|]. split; [by destruct k|]. split; [|done]. intros p. repeat constructor. by destruct k.
Qed.

(** The same, after a flush. *)
Lemma flush_forward_sends k parent c io its :
  outbound_open io = true → k ≠ KStream →
  (∀ j : JupyterMessage (content k), jm_content j = c → out_items (existT k j) = its) →
  ∃ io' l, forward_new k parent c (flush_stream io) = (true, io') ∧ sends io io' l its ∧ same_contexts io io' ∧
    (l ≫= announced) = [AMessage k parent c] ∧ Forall (stream_parent (shell_context io)) l ∧
    sb_buffer (stream_buffer io') = [].
Proof.
  intros Ho Hk Hout. destruct (flush_spec io Ho) as (l1 & Hs1 & Hc1 & Ha1 & Hp1 & Hb1).
  assert (Ho1 : outbound_open (flush_stream io) = true) by by destruct Hc1 as (-> & _).
  destruct (forward_sends k parent c (flush_stream io) its) as (io' & l2 & Hf & Hs2 & Hc2 & Ha2 & Hp2 & Hb2);
    [done|done|by rewrite held_empty, app_nil_r|done|].
  exists io', (l1 ++ l2). split; [done|]. split; [by apply (sends_trans _ _ _ _ _ _ _ Hs1 Hs2)|].
  split; [by etrans|]. rewrite bind_app, Ha1, Ha2. split; [done|].
  split; [|by rewrite Hb2]. by apply Forall_app_2.
Qed.

(** The items of a message are those of its content. *)
Ltac by_content := by intros [? ? ? ? ?] Hj; cbn in Hj; subst.

(** ** A thread without a buffer

    Its state: the requests of the two channels, and whether the kernel waits
    for a subscriber. *)

Definition Spec : Type := option JupyterHeader * option JupyterHeader * bool.

Definition comm_announced (comm_id : text) (msg : CommMsg) : Announced :=
  match msg with
  | CmOpen target_name data => AMessage KCommOpen None (mkCommOpen comm_id target_name data)
  | CmData data => AMessage KCommMsg None (mkCommWireMsg comm_id data)
  | CmRpc _ parent data => AMessage KCommMsg (Some parent) (mkCommWireMsg comm_id data)
  | CmClose => AMessage KCommClose None (mkCommClose comm_id)
  end.

Definition status_context (state : ExecutionState) (context : JupyterHeader) (old : option JupyterHeader) :=
  match state with Busy => Some context | Idle => None | Starting => old end.

(** What a message announces, and the state after it. *)
Definition spec_message (m : IOPubMessage) (sp : Spec) : list Announced * Spec :=
  let '(shell, control, waits) := sp in
  match m with
  | IStatus context ChShell state =>
      ([AMessage KStatus (Some context) state], (status_context state context shell, control, waits))
  | IStatus context ChControl state =>
      ([AMessage KStatus (Some context) state], (shell, status_context state context control, waits))
  | IDebugEvent c => ([AMessage KDebugEvent control c], sp)
  | IExecuteResult c => ([AMessage KExecuteResult shell c], sp)
  | IExecuteError c => ([AMessage KExecuteError shell c], sp)
  | IExecuteInput c => ([AMessage KExecuteInput shell c], sp)
  | IStream _ => ([], sp)
  | IDisplayData c => ([AMessage KDisplayData shell c], sp)
  | IUpdateDisplayData c => ([AMessage KUpdateDisplayData shell c], sp)
  | IWait wait_tx => ([AWait wait_tx], sp)
  | ICommOutgoing comm_id msg => ([comm_announced comm_id msg], sp)
  end.

(** The first subscriber is welcomed. *)
Definition spec_step (e : IOPubEvent) (sp : Spec) : list Announced * Spec :=
  match e with
  | EvMessage (Some m) => spec_message m sp
  | EvSubscription (Some (inr su)) =>
      let '(shell, control, waits) := sp in
      match su_kind su with
      | Subscribe =>
          if waits : bool then
            ([AMessage KWelcome None (subscription su); AMessage KStatus None Starting; ASubscribed],
             (shell, control, false))
          else ([], sp)
      | Unsubscribe => ([], sp)
      end
  | _ => ([], sp)
  end.

Fixpoint spec_run (es : list IOPubEvent) (sp : Spec) : list Announced * Spec :=
  match es with
  | [] => ([], sp)
  | e :: es => let '(a, sp) := spec_step e sp in let '(b, sp) := spec_run es sp in (a ++ b, sp)
  end.

Definition spec_of io : Spec := (shell_context io, control_context io, subscription_tx io).

(** A step of the thread, against that of the thread without a buffer. *)
Record step_ok io io' (l : list Sent) (its : list Item) (step : Spec → list Announced * Spec) : Prop := {
  sk_sends : sends io io' l its;
  sk_announced : step (spec_of io) = (l ≫= announced, spec_of io');
  sk_parents : Forall (stream_parent (shell_context io)) l;
  sk_open : outbound_open io' = true ∧ subscribed_open io' = true;
}.

Lemma same_contexts_spec io io' : same_contexts io io' → spec_of io' = spec_of io.
Proof. intros (_ & _ & Hs & Hsh & Hc). unfold spec_of. by rewrite Hs, Hsh, Hc. Qed.

(** One message with the contexts as they are, maybe after a flush. *)
Lemma message_ok io io' l its k parent c (step : Spec → list Announced * Spec) :
  outbound_open io = true → subscribed_open io = true → sends io io' l its → same_contexts io io' →
  (l ≫= announced) = [AMessage k parent c] → Forall (stream_parent (shell_context io)) l →
  step (spec_of io) = ([AMessage k parent c], spec_of io) →
  step_ok io io' l its step.
Proof.
  intros Ho Hu Hs Hc Ha Hp Hstep. split; [done| |done|].
  - by rewrite Hstep, Ha, (same_contexts_spec io io').
  - destruct Hc as (-> & -> & _). done.
Qed.

Lemma flush_message_ok k parent c io its (step : Spec → list Announced * Spec) :
  outbound_open io = true → subscribed_open io = true → k ≠ KStream →
  (∀ j : JupyterMessage (content k), jm_content j = c → out_items (existT k j) = its) →
  step (spec_of io) = ([AMessage k parent c], spec_of io) →
  ∃ l, step_ok io (forward_new k parent c (flush_stream io)).2 l its step.
Proof.
  intros Ho Hu Hk Hout Hstep.
  destruct (flush_forward_sends k parent c io its Ho Hk Hout) as (io' & l & -> & Hs & Hc & Ha & Hp & _).
  exists l. by eapply message_ok.
Qed.

Lemma plain_message_ok k parent c io (step : Spec → list Announced * Spec) :
  outbound_open io = true → subscribed_open io = true → k ≠ KStream →
  (∀ j : JupyterMessage (content k), jm_content j = c → out_items (existT k j) = []) →
  step (spec_of io) = ([AMessage k parent c], spec_of io) →
  ∃ l, step_ok io (forward_new k parent c io).2 l [] step.
Proof.
  intros Ho Hu Hk Hout Hstep.
  destruct (forward_sends k parent c io [] Ho Hk (eq_sym (app_nil_r _)) Hout) as (io' & l & -> & Hs & Hc & Ha & Hp & _).
  exists l. by eapply message_ok.
Qed.

Lemma flush_context io : outbound_open io = true → context_of ChShell (flush_stream io) = shell_context io ∧
  context_of ChControl (flush_stream io) = control_context io.
Proof. intros Ho. by destruct (flush_spec io Ho) as (_ & _ & (_ & _ & _ & ? & ?) & _). Qed.

Lemma stream_ok o io :
  outbound_open io = true → subscribed_open io = true →
  ∃ l, step_ok io (process_stream_message o io) l (stream_items o) (spec_message (IStream o)).
Proof.
  intros Ho Hu. unfold process_stream_message. case_bool_decide as Hn.
  - exists []. split; [split; [by rewrite app_nil_r|]| |done|done].
    + unfold held, drain_buffer. cbn. rewrite concat_app. cbn. rewrite app_nil_r.
      unfold stream_items. cbn. by rewrite fmap_app, Hn.
    + reflexivity.
  - destruct (flush_spec io Ho) as (l & [Hsent Hitems] & Hc & Ha & Hp & Hb).
    exists l. split; [split; [done|]| |done|].
    + rewrite held_empty, !app_nil_r in Hitems by done. rewrite Hitems.
      unfold held, drain_buffer. cbn. by rewrite app_nil_r.
    + rewrite Ha. apply (f_equal (pair [])). symmetry. exact (same_contexts_spec io _ Hc).
    + destruct Hc as (Hc1 & Hc2 & _). cbn. by rewrite Hc1, Hc2.
Qed.

(** A status, which changes the contexts after the flush. *)
Lemma status_ok context ch state io :
  outbound_open io = true → subscribed_open io = true →
  ∃ l, step_ok io (process_status context ch state io).2 l (message_items (IStatus context ch state))
         (spec_message (IStatus context ch state)).
Proof.
  intros Ho Hu. unfold process_status. set (io1 := match ch with ChShell => _ | ChControl => _ end).
  assert (∃ l, sends io io1 l [] ∧ (l ≫= announced) = [] ∧ Forall (stream_parent (shell_context io)) l ∧
    outbound_open io1 = true ∧ subscribed_open io1 = true ∧
    (state = Idle → held io1 = []) ∧
    spec_message (IStatus context ch state) (spec_of io) =
      ([AMessage KStatus (Some context) state], spec_of io1)) as (l1 & [Hs1 Hi1] & Ha1 & Hp1 & Ho1 & Hu1 & Hh1 & Hsp1).
  { destruct state; try (exists []; unfold io1; destruct ch; (split; [split; by rewrite app_nil_r|done])).
    destruct (flush_spec io Ho) as (l & [Hsent Hitems] & Hc & Ha & Hp & Hb). exists l.
    destruct Hc as (Hc1 & Hc2 & Hc3 & Hc4 & Hc5).
    assert (held (flush_stream io) = []) by by apply held_empty.
    unfold io1. destruct ch; (split; [split; done|]); cbn; rewrite Hc1, Hc2; (do 5 (split; [done|]));
      unfold spec_of; cbn; by rewrite ?Hc3, ?Hc4, ?Hc5. }
  destruct (forward_sends KStatus (Some context) state io1 (message_items (IStatus context ch state)))
    as (io' & l2 & -> & [Hs2 Hi2] & Hc2 & Ha2 & Hp2 & _); [done|done| | |].
  { destruct state; [by rewrite app_nil_r|by rewrite Hh1|by rewrite app_nil_r]. }
  { intros [ids h p md c] Hj. cbn in Hj. subst c. by destruct state. }
  cbn [snd]. exists (l1 ++ l2). split.
  - split; [by rewrite Hs2, Hs1, (assoc_L (++))|].
    by rewrite sent_items_app, <- (assoc_L (++)), Hi2, (assoc_L (++)), Hi1, app_nil_r.
  - rewrite Hsp1, bind_app, Ha1, Ha2. by rewrite (same_contexts_spec io1 io').
  - by apply Forall_app_2.
  - destruct Hc2 as (-> & -> & _). done.
Qed.

Lemma comm_ok comm_id msg io :
  outbound_open io = true → subscribed_open io = true →
  ∃ l, step_ok io (process_comm_outgoing comm_id msg (flush_stream io)) l [comm_item comm_id msg]
         (spec_message (ICommOutgoing comm_id msg)).
Proof.
  intros Ho Hu. unfold process_comm_outgoing.
  destruct msg; apply flush_message_ok; try done; by_content.
Qed.

Lemma process_message_ok m io :
  outbound_open io = true → subscribed_open io = true →
  ∃ l, step_ok io (process_iopub_message m io).2 l (message_items m) (spec_message m).
Proof.
  intros Ho Hu. destruct (flush_context io Ho) as [Hsh Hct]. destruct m; cbn [process_iopub_message snd message_items].
  - by apply status_ok.
  - unfold forward_with_context. rewrite Hct. apply flush_message_ok; try done; by_content.
  - unfold forward_with_context. rewrite Hsh. apply flush_message_ok; try done; by_content.
  - unfold forward_with_context. rewrite Hsh. apply flush_message_ok; try done; by_content.
  - apply plain_message_ok; try done; by_content.
  - by apply stream_ok.
  - unfold forward_with_context. rewrite Hsh. apply flush_message_ok; try done; by_content.
  - unfold forward_with_context. rewrite Hsh. apply flush_message_ok; try done; by_content.
  - exists [SentWait wait_tx]. split; [split; [done|]|done|by repeat constructor|done].
    by rewrite app_nil_r.
  - by apply comm_ok.
Qed.

Lemma listen_step_ok e io :
  outbound_open io = true → subscribed_open io = true → e ≠ EvMessage None →
  ∃ io' l, listen_step e io = Some io' ∧ step_ok io io' l (in_items e) (spec_step e).
Proof.
  intros Ho Hu He. assert (Hnone : spec_step e (spec_of io) = ([], spec_of io) → in_items e = [] →
    listen_step e io = Some io → ∃ io' l, listen_step e io = Some io' ∧ step_ok io io' l (in_items e) (spec_step e)).
  { intros Hs Hi Hl. exists io, []. split; [done|]. split; [split; by rewrite ?Hi, ?app_nil_r|done..]. }
  destruct e as [[m|]|[[err|su]|]|]; [|done|by apply Hnone| |by apply Hnone|].
  - destruct (process_message_ok m io Ho Hu) as [l Hl]. eauto.
  - destruct (su_kind su) eqn:Ek; [destruct (subscription_tx io) eqn:Et|];
      [|apply Hnone; cbn; unfold process_subscription_message, confirm_subscription; unfold spec_of; by rewrite ?Ek, ?Et..].
    cbn [listen_step in_items]. unfold process_subscription_message, confirm_subscription. rewrite Ek, Et.
    destruct (forward_sends KWelcome None (subscription su) io []) as (io1 & l1 & -> & Hs1 & Hc1 & Ha1 & Hp1 & _);
      [done|done|by rewrite app_nil_r|by_content|].
    pose proof Hc1 as (Ho1 & Hu1 & _). rewrite Ho in Ho1. rewrite Hu in Hu1. cbn [negb].
    destruct (forward_sends KStatus None Starting io1 []) as (io2 & l2 & -> & Hs2 & Hc2 & Ha2 & Hp2 & _);
      [done|done|by rewrite app_nil_r|by_content|].
    pose proof Hc2 as (Ho2 & Hu2 & _). rewrite Ho1 in Ho2. rewrite Hu1 in Hu2. cbn [negb]. rewrite Hu2.
    eexists _, ((l1 ++ l2) ++ [SentSubscribed]). split; [done|].
    assert (same_contexts io io2) as (Hx1 & Hx2 & Hx3 & Hx4 & Hx5) by by etrans.
    pose proof (sends_trans _ _ _ _ _ _ _ Hs1 Hs2) as [Hs Hi]. split.
    + split; cbn; [by rewrite Hs, <- (assoc_L (++))|]. rewrite sent_items_app, <- (assoc_L (++)). exact Hi.
    + rewrite !bind_app, Ha1, Ha2. unfold spec_of. cbn. by rewrite Ek, Et, Hx4, Hx5.
    + apply Forall_app_2; [by apply Forall_app_2|by repeat constructor].
    + done.
  - destruct (flush_spec io Ho) as (l & Hs & Hc & Ha & Hp & _). exists (flush_stream io), l. split; [done|].
    split; [done| |done|].
    + by rewrite Ha, (same_contexts_spec io _ Hc).
    + destruct Hc as (-> & -> & _). done.
Qed.

Lemma listen_ok es io :
  outbound_open io = true → subscribed_open io = true → EvMessage None ∉ es →
  ∃ io' l, listen es io = Some io' ∧ sends io io' l (es ≫= in_items) ∧
    spec_run es (spec_of io) = (l ≫= announced, spec_of io') ∧
    outbound_open io' = true ∧ subscribed_open io' = true.
Proof.
  revert io. induction es as [|e es IH]; intros io Ho Hu He.
  - exists io, []. split; [done|]. split; [split; by rewrite ?app_nil_r|done].
  - apply not_elem_of_cons in He as [He Hes].
    destruct (listen_step_ok e io Ho Hu (not_eq_sym He)) as (io1 & l1 & Hl & [Hs1 Ha1 _ [Ho1 Hu1]]).
    destruct (IH io1 Ho1 Hu1 Hes) as (io2 & l2 & Hl2 & Hs2 & Ha2 & Hopen).
    exists io2, (l1 ++ l2). unfold listen in *. cbn [foldM]. rewrite Hl. split; [done|].
    split; [by eapply sends_trans|]. split; [|done]. cbn [spec_run]. by rewrite Ha1, Ha2, bind_app.
Qed.

(** C16. Whatever messages, subscriptions and ticks the thread selects: it does
    not panic while senders are left; bytes of both streams and the messages that
    wait for them leave in the order they came, none lost or doubled, up to the
    text in the buffer; and all that is not a stream leaves at once, with the
    parents a thread without a buffer gives: the request of its channel, that of
    a reply, or none. Only the first subscriber is welcomed and told of the start. *)
Theorem iopub_keeps_order session es :
  EvMessage None ∉ es →
  ∃ io, listen es (iopub_new session) = Some io ∧
    sent_items (sent io) ++ held io = es ≫= in_items ∧
    (sent io ≫= announced) = (spec_run es (None, None, true)).1.
Proof.
  intros Hes. destruct (listen_ok es (iopub_new session) eq_refl eq_refl Hes) as (io & l & Hl & [Hs Hi] & Ha & _).
  exists io. split; [done|]. cbn in Hs, Hi. subst l. split; [done|].
  change (spec_of (iopub_new session)) with ((None, None, true) : Spec) in Ha. by rewrite Ha.
Qed.

(** ** The request of output *)

Definition Tagged : Type := Stream * ascii * option JupyterHeader.

(** Bytes among items, with a tag. *)
Definition tag (context : option JupyterHeader) (its : list Item) : list Tagged :=
  its ≫= λ it, match it with IByte stream b => [(stream, b, context)] | IMessage _ _ => [] end.

Definition shell_after (e : IOPubEvent) (context : option JupyterHeader) : option JupyterHeader :=
  match e with EvMessage (Some (IStatus h ChShell state)) => status_context state h context | _ => context end.

(** The output that comes in, with the request that is open then. *)
Fixpoint output_in (context : option JupyterHeader) (es : list IOPubEvent) : list Tagged :=
  match es with
  | [] => []
  | e :: es => tag context (in_items e) ++ output_in (shell_after e context) es
  end.

(** The output that is sent, with its parent. *)
Definition output_sent (l : list Sent) : list Tagged :=
  l ≫= λ s, match s with
            | SentOutbound (existT KStream j) => tag (parent_header j) (stream_items (jm_content j))
            | _ => []
            end.

Definition shell_statuses (es : list IOPubEvent) : list (JupyterHeader * ExecutionState) :=
  es ≫= λ e, match e with EvMessage (Some (IStatus h ChShell state)) => [(h, state)] | _ => [] end.

(** Requests one after the other, from [context] on. *)
Fixpoint bracketed (context : option JupyterHeader) (l : list (JupyterHeader * ExecutionState)) : Prop :=
  match l with
  | [] => True
  | (h, Busy) :: l => context = None ∧ bracketed (Some h) l
  | (h, Idle) :: l => context = Some h ∧ bracketed None l
  | (_, Starting) :: l => bracketed context l
  end.

(** Output of a request has it as parent. *)
Definition keeps_request (t t' : Tagged) : Prop :=
  t.1 = t'.1 ∧ (t.2 = None ∨ t'.2 = t.2).

Lemma tag_app context its1 its2 : tag context (its1 ++ its2) = tag context its1 ++ tag context its2.
Proof. apply bind_app. Qed.

Lemma tag_messages context k (c : content k) : tag context [IMessage k c] = [].
Proof. done. Qed.

Lemma out_items_output context m :
  stream_parent context (SentOutbound m) → output_sent [SentOutbound m] = tag context (out_items m).
Proof.
  destruct m as [k j]. cbn [stream_parent]. destruct k; try (intros _; reflexivity).
  - intros _. cbn. by case_bool_decide.
  - cbn. intros ->. by rewrite app_nil_r.
Qed.

Lemma output_sent_app l1 l2 : output_sent (l1 ++ l2) = output_sent l1 ++ output_sent l2.
Proof. apply bind_app. Qed.

Lemma output_of context l : Forall (stream_parent context) l → output_sent l = tag context (sent_items l).
Proof.
  induction 1 as [|s l Hs _ IH]; [done|].
  change (s :: l) with ([s] ++ l). rewrite output_sent_app, sent_items_app, tag_app, IH. f_equal.
  destruct s as [m| |]; [|done|done]. etrans; [by apply (out_items_output context)|].
  f_equal. symmetry. apply app_nil_r.
Qed.

(** Output that came without a request may be sent with any. *)
Lemma keeps_none ts context context' its :
  Forall2 keeps_request ts (tag context its) → context = None → Forall2 keeps_request ts (tag context' its).
Proof.
  intros Hf ->. revert ts Hf. induction its as [|[stream b|k c] its IH]; intros ts; [by cbn|cbn|apply IH].
  intros Hf. apply Forall2_cons_inv_r in Hf as (t & ts' & [Ht1 Ht2] & Hf & ->). constructor; [|by apply IH].
  split; [done|]. cbn in Ht2. left. by destruct Ht2.
Qed.

Lemma keeps_refl ts : Forall2 keeps_request ts ts.
Proof. induction ts; constructor; [|done]. split; [done|by right]. Qed.

(** Nothing is held after a request ends. *)
Lemma held_message l io its k (c : content k) :
  sent_items l ++ held io = its ++ [IMessage k c] → held io = [].
Proof.
  intros Hi. destruct (held io) as [|it its' _] eqn:E using rev_ind; [done|].
  rewrite (assoc_L (++)) in Hi. apply app_inj_2 in Hi as [_ [= ->]]; [|done].
  assert (IMessage k c ∈ held io) as Hin by (rewrite E; apply elem_of_app; right; by left).
  unfold held, stream_items in Hin. by apply list_elem_of_fmap in Hin as (? & [=] & _).
Qed.

Lemma shell_after_spec e io io' l :
  spec_step e (spec_of io) = (l, spec_of io') → shell_context io' = shell_after e (shell_context io).
Proof.
  unfold spec_of. destruct e as [[[]|]|[[]|]|]; cbn; try (intros [= _ ? ? ?]; congruence).
  - destruct context_channel; intros [= _ ? ? ?]; congruence.
  - repeat case_match; intros [= _ ? ? ?]; congruence.
Qed.

(** A step keeps what the output before it is sent with. *)
Lemma output_step e io io' l ts :
  Forall2 keeps_request ts (output_sent (sent io) ++ tag (shell_context io) (held io)) →
  step_ok io io' l (in_items e) (spec_step e) →
  (∀ h, e = EvMessage (Some (IStatus h ChShell Busy)) → shell_context io = None) →
  Forall2 keeps_request (ts ++ tag (shell_context io) (in_items e))
    (output_sent (sent io') ++ tag (shell_context io') (held io')).
Proof.
  intros Hts [[Hs Hi] Ha Hp _] Hb. apply shell_after_spec in Ha. rewrite Hs, output_sent_app.
  rewrite (output_of (shell_context io) l Hp).
  assert (Hold : Forall2 keeps_request (ts ++ tag (shell_context io) (in_items e))
    ((output_sent (sent io) ++ tag (shell_context io) (sent_items l)) ++ tag (shell_context io) (held io'))).
  { rewrite <- (assoc_L (++)), <- tag_app, Hi, tag_app, (assoc_L (++)). apply Forall2_app; [done|apply keeps_refl]. }
  destruct (decide (held io' = [])) as [He|He]; [rewrite He in Hold |- *; exact Hold|].
  assert (Hctx : shell_context io' = shell_context io ∨ shell_context io = None).
  { rewrite Ha. destruct e as [[[h [] []| | | | | | | | |]|]|[[]|]|]; cbn; try by left.
    - right. by apply (Hb h).
    - exfalso. apply He. cbn in Hi. by eapply held_message. }
  destruct Hctx as [->|Hn]; [done|].
  apply Forall2_app_inv_r in Hold as (ts1 & ts2 & H1 & H2 & ->).
  apply Forall2_app; [done|]. by eapply keeps_none.
Qed.

Lemma shell_statuses_cons e es :
  shell_statuses (e :: es) =
  match e with EvMessage (Some (IStatus h ChShell state)) => [(h, state)] | _ => [] end ++ shell_statuses es.
Proof. done. Qed.

(** A turn of the loop, when requests come one after the other. *)
Lemma bracketed_step e es context :
  bracketed context (shell_statuses (e :: es)) →
  (∀ h, e = EvMessage (Some (IStatus h ChShell Busy)) → context = None) ∧
  bracketed (shell_after e context) (shell_statuses es).
Proof.
  rewrite shell_statuses_cons. destruct e as [[[h [] []| | | | | | | | |]|]|[[]|]|]; cbn; try (intros; split; done).
  - by intros [? ?].
  - by intros [? ?].
Qed.

Lemma output_run es io io' ts :
  outbound_open io = true → subscribed_open io = true → EvMessage None ∉ es →
  bracketed (shell_context io) (shell_statuses es) →
  Forall2 keeps_request ts (output_sent (sent io) ++ tag (shell_context io) (held io)) →
  listen es io = Some io' →
  Forall2 keeps_request (ts ++ output_in (shell_context io) es)
    (output_sent (sent io') ++ tag (shell_context io') (held io')).
Proof.
  revert io ts. induction es as [|e es IH]; intros io ts Ho Hu He Hb Hts Hl.
  - injection Hl as <-. by rewrite app_nil_r.
  - apply not_elem_of_cons in He as [He Hes]. apply bracketed_step in Hb as [Hbusy Hb].
    destruct (listen_step_ok e io Ho Hu (not_eq_sym He)) as (io1 & l1 & Hl1 & Hok).
    unfold listen in *. cbn [foldM] in Hl. rewrite Hl1 in Hl. cbn in Hl.
    pose proof (output_step e io io1 l1 ts Hts Hok Hbusy) as Hts1.
    destruct Hok as [_ Ha _ [Ho1 Hu1]]. apply shell_after_spec in Ha.
    cbn [output_in]. rewrite (assoc_L (++)). rewrite <- Ha in Hb |- *. by apply (IH io1).
Qed.
(** Text that comes last stays last. *)
Lemma stream_held o io : ∃ its, held (process_stream_message o io) = its ++ stream_items o.
Proof.
  unfold process_stream_message, held, drain_buffer, stream_items. case_bool_decide as Hn; cbn.
  - rewrite concat_app. cbn. rewrite app_nil_r, fmap_app, Hn. by eexists.
  - rewrite app_nil_r. by exists [].
Qed.

(** A thread that waits is answered while the output that came before it is
    still in the buffer, in every state and for any text: the wait does not
    flush it, so it leaves after the thread went on. *)
Theorem wait_leaves_output o wait_tx io :
  ∃ io' l its, listen [EvMessage (Some (IStream o)); EvMessage (Some (IWait wait_tx))] io = Some io' ∧
    sent io' = l ++ [SentWait wait_tx] ∧ held io' = its ++ stream_items o.
Proof.
  destruct (stream_held o io) as [its Hh].
  by exists (log_sent [SentWait wait_tx] (process_stream_message o io)), (sent (process_stream_message o io)), its.
Qed.
End iopub.

(** ** The Shell *)

Section shell.
Context `{JS : Json, HM : !Hmac, HJ : !HeaderJson, CO : !Contents, CJ : !ContentJson, ST : !Stamps}.
Context `{SH : !ShellHandler}.
Implicit Types sh : Shell.

(** Effects of comms: no statuses, no replies. *)
Definition quiet (e : Effect) : Prop :=
  match e with ToIOPub (IStatus _ _ _) | ToSocket _ => False | _ => True end.

(** [sh'] comes after [sh], with the effects [es]. *)
Definition goes sh (es : list Effect) sh' : Prop :=
  effects sh' = effects sh ++ es ∧ sh_session sh' = sh_session sh.

Lemma goes_refl sh : goes sh [] sh.
Proof. split; [by rewrite app_nil_r|done]. Qed.

Lemma goes_trans sh1 sh2 sh3 es1 es2 : goes sh1 es1 sh2 → goes sh2 es2 sh3 → goes sh1 (es1 ++ es2) sh3.
Proof. intros [He1 Hs1] [He2 Hs2]. split; [by rewrite He2, He1, (assoc_L (++))|congruence]. Qed.

Lemma goes_emit es sh : goes sh es (emit es sh).
Proof. done. Qed.

(** Changes of the state without effects. *)
Lemma goes_silent sh es sh1 sh2 :
  goes sh es sh1 → effects sh2 = effects sh1 → sh_session sh2 = sh_session sh1 → goes sh es sh2.
Proof. intros [He Hs] ? ?. split; congruence. Qed.

Definition goes_quietly sh sh' : Prop := ∃ es, goes sh es sh' ∧ Forall quiet es.

#[local] Instance goes_quietly_preorder : PreOrder goes_quietly.
Proof.
  split.
  - intros sh. exists []. split; [apply goes_refl|done].
  - intros sh1 sh2 sh3 (es1 & H1 & Q1) (es2 & H2 & Q2). exists (es1 ++ es2).
    split; [by eapply goes_trans|by apply Forall_app_2].
Qed.

Lemma quietly_emit es sh : Forall quiet es → goes_quietly sh (emit es sh).
Proof. intros Hq. by exists es. Qed.

Lemma quietly_silent sh sh' : effects sh' = effects sh → sh_session sh' = sh_session sh → goes_quietly sh sh'.
Proof. intros He Hs. exists []. split; [split; [by rewrite app_nil_r|done]|done]. Qed.

Lemma quietly_then sh sh1 sh2 :
  goes_quietly sh sh1 → effects sh2 = effects sh1 → sh_session sh2 = sh_session sh1 → goes_quietly sh sh2.
Proof. intros H1 H2 H3. etrans; [exact H1|by apply quietly_silent]. Qed.

Lemma process_comm_event_quiet event sh : goes_quietly sh (process_comm_event event sh).
Proof.
  destruct event as [socket data done_tx|id msg|id]; cbn [process_comm_event].
  - set (sh1 := if bool_decide _ then _ else sh).
    assert (goes_quietly sh (set_open_comms (open_comms sh1 ++ [socket]) sh1)) as Hq.
    { eapply (quietly_then _ sh1); [|done..]. unfold sh1. case_bool_decide; [|done].
      apply quietly_emit. by repeat constructor. }
    destruct done_tx; [|exact Hq]. etrans; [exact Hq|]. apply quietly_emit. by repeat constructor.
  - destruct (find_comm _ _); [|done]. apply quietly_emit. by repeat constructor.
  - destruct (position _ _); [|done]. eapply quietly_then; [|done..]. apply quietly_emit.
    case_match; by repeat constructor.
Qed.

Lemma process_comm_events_quiet events sh : goes_quietly sh (process_comm_events events sh).
Proof.
  revert sh. induction events as [|event events IH]; intros sh; cbn; [done|].
  etrans; [apply process_comm_event_quiet|apply IH].
Qed.

Lemma drain_quiet {A} (rx : Await A) sh value sh' :
  drain_comm_events_until rx sh = Some (value, sh') → goes_quietly sh sh'.
Proof.
  unfold drain_comm_events_until. intros (v & _ & [= _ <-])%bind_Some. apply process_comm_events_quiet.
Qed.

(** *** Replies *)

(** [w] answers [req]; an error of an execution has the type of its own. *)
Record answers {T} (req : JupyterMessage T) (k : MessageKind) (w : WireMessage) : Prop := {
  an_parent : w_parent_header w = Some (header req);
  an_identities : w_zmq_identities w = zmq_identities req;
  an_type : msg_type (w_header w) ∈ [message_type k; message_type KExecuteReply];
}.

Lemma send_wire_goes w sh ok sh' :
  send_wire w sh = (ok, sh') →
  goes sh (match w with inr w => [ToSocket w] | inl _ => [] end) sh' ∧
  ok = match w with inr _ => true | inl _ => false end.
Proof. destruct w; intros [= <- <-]; (split; [|done]); [apply goes_refl|apply goes_emit]. Qed.

(** All content can be written. *)
Definition writable : Prop :=
  (∀ k c, is_Some (content_to_value k c)) ∧ ∀ e, is_Some (error_reply_to_value e).

(** The answers to [req]: one, or none if it cannot be written. *)
Record answered {T} (req : JupyterMessage T) (k : MessageKind) (ws : list WireMessage) : Prop := {
  ad_answers : Forall (answers req k) ws;
  ad_one : length ws ≤ 1;
  ad_writable : writable → length ws = 1;
}.

Lemma send_result_goes {T} (req : JupyterMessage T) k result sh ok sh' :
  send_result req k result sh = (ok, sh') → ∃ ws, goes sh (ToSocket <$> ws) sh' ∧ answered req k ws.
Proof.
  intros Hs. assert (∃ w, send_wire w (count_header sh) = (ok, sh') ∧
    match w with inr w => answers req k w | inl _ => ¬ writable end) as (w & Hw & Ha).
  { destruct result as [[]|]; cbn [send_result] in Hs; unfold send_reply, send_error in Hs;
      (eexists; split; [exact Hs|]); unfold wire_of;
      (match goal with |- context [match ?o with Some _ => _ | None => _ end] => destruct o eqn:E end);
      (match goal with
       | |- answers _ _ _ => split; [done|done|first [by left|by right; left]]
       | _ => intros [Hc He]; first [by apply (eq_None_not_Some _) in E; apply E, Hc|
                                    by apply (eq_None_not_Some _) in E; apply E, He]
       end). }
  apply send_wire_goes in Hw as [Hg ->].
  destruct w as [err|w].
  - exists []. split; [exact Hg|]. split; [apply Forall_nil_2|cbn; lia|done].
  - exists [w]. split; [exact Hg|]. split; [by apply Forall_singleton|cbn; lia|done].
Qed.

(** *** Requests about comms *)

Lemma comm_msg_quiet originator msg sh r rx sh' :
  handle_comm_msg_content originator msg sh = (r, rx, sh') → goes_quietly sh sh'.
Proof.
  unfold handle_comm_msg_content. destruct (find_comm _ _) as [comm|]; [|by intros [= _ _ <-]].
  destruct (handle_comm_msg _ _ _ _ _) as [[|[[] ?]] h]; intros [= _ _ <-]; try by apply quietly_silent.
  etrans; [apply (quietly_silent sh (set_handler h sh)); done|]. apply quietly_emit. by repeat constructor.
Qed.

Lemma comm_close_quiet msg sh r rx sh' :
  handle_comm_close_content msg sh = (r, rx, sh') → goes_quietly sh sh'.
Proof.
  unfold handle_comm_close_content. destruct (position _ _) as [idx|]; [|by intros [= _ _ <-]].
  destruct (open_comms sh !! idx) as [comm|]; [|by intros [= _ _ <-]].
  destruct (handle_comm_close _ _ _) as [[|[[] ?]] h]; intros [= _ _ <-]; try by apply quietly_silent.
  eapply quietly_then; [|done..].
  etrans; [apply (quietly_silent sh (set_handler h sh)); done|]. apply quietly_emit. by repeat constructor.
Qed.

(** Opening changes the state of the language only. *)
Definition handled sh sh' : Prop :=
  effects sh' = effects sh ∧ sh_session sh' = sh_session sh ∧ open_comms sh' = open_comms sh.

Lemma open_kind_handled comm socket msg sh r sh' : open_kind comm socket msg sh = (r, sh') → handled sh sh'.
Proof.
  intros Ho. assert (Hshell : ∀ c r, open_with_shell c socket (co_data msg) sh = (r, sh') → handled sh sh').
  { intros c r'. unfold open_with_shell. destruct (handle_comm_open _ _ _ _) as [? h]. by intros [= _ <-]. }
  assert (Hserver : ∀ k r, open_with_server msg k socket sh = (r, sh') → handled sh sh').
  { intros k r'. unfold open_with_server, start_server_comm. destruct k; [|by intros [= _ <-]].
    destruct (server_start_from_value _); [|by intros [= _ <-]].
    destruct (server_start _ _ _ _) as [? h]. by intros [= _ <-]. }
  unfold open_kind in Ho. destruct comm; eauto. destruct (server_handler _ _); eauto.
Qed.

Lemma comm_open_quiet msg sh r rx sh' :
  handle_comm_open_content msg sh = (r, rx, sh') → goes_quietly sh sh'.
Proof.
  unfold handle_comm_open_content. destruct (open_comm msg sh) as [[r1 rx1] sh1] eqn:Eo.
  assert (goes_quietly sh sh1) as H1.
  { unfold open_comm in Eo. destruct (comm_of_target _) as [comm|]; [|by injection Eo as <- <- <-].
    destruct (comm_socket_new _ _ _ _) as [socket sh0] eqn:Es.
    assert (goes_quietly sh sh0) as H0 by (injection Es as _ <-; by apply quietly_silent).
    destruct (open_kind _ _ _ _) as [result sh2] eqn:Ek. apply open_kind_handled in Ek as (He & Hs & _).
    assert (goes_quietly sh sh2) as H2 by by eapply quietly_then.
    destruct result as [err|[started|[] done_rx]].
    - by injection Eo as <- <- <-.
    - destruct started as [params|]; injection Eo as <- <- <-; [|by eapply quietly_then].
      etrans; [exact (quietly_then sh sh2 (set_open_comms (open_comms sh2 ++ [socket]) sh2) H2 eq_refl eq_refl)|].
      apply quietly_emit. by repeat constructor.
    - injection Eo as <- <- <-. by eapply quietly_then.
    - by injection Eo as <- <- <-. }
  destruct r1; intros [= _ _ <-]; [|done]. etrans; [exact H1|]. apply quietly_emit. by repeat constructor.
Qed.

(** *** All requests *)

(** The kind of the reply to a request; comm messages have none. *)
Definition reply_kind (k : MessageKind) : option (option MessageKind) :=
  match k with
  | KExecuteRequest => Some (Some KExecuteReply)
  | KKernelInfoRequest => Some (Some KKernelInfoReply)
  | KIsCompleteRequest => Some (Some KIsCompleteReply)
  | KCompleteRequest => Some (Some KCompleteReply)
  | KCommInfoRequest => Some (Some KCommInfoReply)
  | KHistoryRequest => Some (Some KHistoryReply)
  | KInspectRequest => Some (Some KInspectReply)
  | KCommMsg | KCommOpen | KCommClose => Some None
  | _ => None
  end.

(** A request from its busy status to its idle status: quiet effects, then the
    replies. *)
Definition wrapped (h : JupyterHeader) (es : list Effect) (ws : list WireMessage) : list Effect :=
  ToIOPub (IStatus h ChShell Busy) :: es ++ (ToSocket <$> ws) ++ [ToIOPub (IStatus h ChShell Idle)].

Lemma wrapped_goes {T} (req : JupyterMessage T) sh es sh1 ws sh2 :
  goes (emit [status req Busy] sh) es sh1 → goes sh1 (ToSocket <$> ws) sh2 →
  goes sh (wrapped (header req) es ws) (emit [status req Idle] sh2).
Proof.
  intros H1 H2. eapply (goes_trans _ _ _ [_]); [apply goes_emit|].
  eapply goes_trans; [exact H1|]. eapply goes_trans; [exact H2|apply goes_emit].
Qed.

Lemma handle_request_goes {T} (req : JupyterMessage T) k handler sh ok sh' :
  handle_request req k handler sh = (ok, sh') →
  ∃ ws, goes sh (wrapped (header req) [] ws) sh' ∧ answered req k ws.
Proof.
  unfold handle_request. destruct (handler _ _) as [result h]. destruct (send_result _ _ _ _) as [ok1 sh1] eqn:Es.
  intros [= <- <-]. apply send_result_goes in Es as (ws & Hg & Ha). exists ws. split; [|done].
  exact (wrapped_goes req sh [] (set_handler h (emit [status req Busy] sh)) ws sh1 (goes_refl _) Hg).
Qed.

Lemma handle_execute_goes req sh ok sh' :
  handle_execute_request req sh = Some (ok, sh') →
  ∃ es ws, goes sh (wrapped (header req) es ws) sh' ∧ Forall quiet es ∧ answered req KExecuteReply ws.
Proof.
  unfold handle_execute_request. destruct (start_execute_request _ _ _) as [rx h].
  intros ([result sh1] & Hd & Hr)%bind_Some. apply drain_quiet in Hd as (es & Hg1 & Hq).
  destruct (send_result _ _ _ _) as [ok1 sh2] eqn:Es. injection Hr as <- <-.
  apply send_result_goes in Es as (ws & Hg2 & Ha). exists es, ws. split; [|done].
  exact (wrapped_goes req sh es sh1 ws sh2 Hg1 Hg2).
Qed.

Lemma handle_comm_goes {T} (req : JupyterMessage T) handler sh ok sh' :
  (∀ sh r rx sh', handler sh = (r, rx, sh') → goes_quietly sh sh') →
  handle_comm_request req handler sh = Some (ok, sh') →
  ∃ es, goes sh (wrapped (header req) es []) sh' ∧ Forall quiet es.
Proof.
  intros Hh. unfold handle_comm_request. destruct (handler _) as [[r rx] sh1] eqn:E. apply Hh in E.
  intros ([u sh2] & Hd & [= _ <-])%bind_Some.
  assert (goes_quietly (emit [status req Busy] sh) sh2) as (es & Hg & Hq).
  { etrans; [exact E|]. destruct rx; [by eapply drain_quiet|]. by injection Hd as _ <-. }
  exists es. split; [|done]. exact (wrapped_goes req sh es sh2 [] sh2 Hg (goes_refl _)).
Qed.

(** What a message makes the Shell do. *)
Definition message_effects (msg : Message) (es : list Effect) : Prop :=
  let (k, req) := msg in
  match reply_kind k with
  | None => es = []
  | Some reply =>
      ∃ qs ws, es = wrapped (header req) qs ws ∧ Forall quiet qs ∧
        match reply with None => ws = [] | Some k' => answered req k' ws end
  end.

Lemma process_message_goes msg sh ok sh' :
  process_message msg sh = Some (ok, sh') → ∃ es, goes sh es sh' ∧ message_effects msg es.
Proof.
  destruct msg as [k req]. intros Hp.
  destruct k; cbn [process_message message_effects reply_kind] in *;
    try (by injection Hp as <- <-; exists []; split; [apply goes_refl|]).
  all: try by (apply Some_inj, handle_request_goes in Hp as (ws & Hg & Ha); exists (wrapped (header req) [] ws);
               split; [exact Hg|exists [], ws]).
  - apply handle_execute_goes in Hp as (es & ws & Hg & Hq & Ha). exists (wrapped (header req) es ws).
    split; [exact Hg|by exists es, ws].
  - apply handle_comm_goes in Hp as (es & Hg & Hq); [|intros ???? ?; by eapply comm_msg_quiet].
    exists (wrapped (header req) es []). split; [exact Hg|by exists es, []].
  - apply handle_comm_goes in Hp as (es & Hg & Hq); [|intros ???? ?; by eapply comm_open_quiet].
    exists (wrapped (header req) es []). split; [exact Hg|by exists es, []].
  - apply handle_comm_goes in Hp as (es & Hg & Hq); [|intros ???? ?; by eapply comm_close_quiet].
    exists (wrapped (header req) es []). split; [exact Hg|by exists es, []].
Qed.

(** What a turn of the loop does, for a session. *)
Definition input_effects (session : Session) (input : ShellInput) (es : list Effect) : Prop :=
  match input with
  | ShEvents _ => Forall quiet es
  | ShMessage bufs =>
      match message_read bufs (hmac session) with
      | Some (inr msg) => message_effects msg es
      | _ => es = []
      end
  end.

Lemma shell_step_goes input sh sh' :
  shell_step input sh = Some sh' → ∃ es, goes sh es sh' ∧ input_effects (sh_session sh) input es.
Proof.
  destruct input as [events|bufs]; cbn [shell_step input_effects].
  - intros [= <-]. destruct (process_comm_events_quiet events sh) as (es & Hg & Hq). by exists es.
  - intros ([err|msg] & -> & Hs)%bind_Some.
    + injection Hs as <-. exists []. split; [apply goes_refl|done].
    + apply fmap_Some in Hs as ([ok sh1] & Hp & ->). exact (process_message_goes msg sh ok sh1 Hp).
Qed.

Lemma shell_listen_goes inputs sh sh' :
  shell_listen inputs sh = Some sh' →
  ∃ blocks, goes sh (concat blocks) sh' ∧ Forall2 (input_effects (sh_session sh)) inputs blocks.
Proof.
  unfold shell_listen. revert sh. induction inputs as [|input inputs IH]; intros sh; cbn [foldM].
  - intros [= <-]. exists []. split; [apply goes_refl|constructor].
  - intros (sh1 & Hs & Hl)%bind_Some. apply shell_step_goes in Hs as (es & Hg & He).
    apply IH in Hl as (blocks & Hg' & Hb). exists (es :: blocks). split; [by eapply goes_trans|].
    constructor; [exact He|]. destruct Hg as [_ Hsess]. by rewrite <- Hsess.
Qed.

(** C7. Whatever the frontend and the kernel send to the Shell, in any order,
    and whatever the handlers answer: each request makes the kernel busy, then,
    after what its comms do, is answered, and makes it idle, with the request as
    parent and no other status in between; the answer has the identities and the
    header of the request and is one, or none if its content cannot be written.
    Messages of comms have no answer; events of comms, messages of other sockets
    and those that cannot be read change no status and are not answered. *)
Theorem requests_are_bracketed inputs session handler servers sh :
  shell_listen inputs (shell_new session handler servers) = Some sh →
  ∃ blocks, effects sh = concat blocks ∧ Forall2 (input_effects session) inputs blocks.
Proof.
  intros Hl. apply shell_listen_goes in Hl as (blocks & [He _] & Hb). by exists blocks.
Qed.

(** ** The Shell and IOPub *)

(** The statuses among effects, and the pair of each request. *)
Definition effect_statuses (es : list Effect) : list (JupyterHeader * ExecutionState) :=
  es ≫= λ e, match e with ToIOPub (IStatus h ChShell state) => [(h, state)] | _ => [] end.
Definition pairs (hs : list JupyterHeader) : list (JupyterHeader * ExecutionState) :=
  hs ≫= λ h, [(h, Busy); (h, Idle)].

Lemma effect_statuses_app es1 es2 : effect_statuses (es1 ++ es2) = effect_statuses es1 ++ effect_statuses es2.
Proof. apply bind_app. Qed.

Lemma quiet_statuses es : Forall quiet es → effect_statuses es = [].
Proof. induction 1 as [|[[]| | |] es Hq _ IH]; [done|done..]. Qed.

Lemma wrapped_statuses h es ws : Forall quiet es → effect_statuses (wrapped h es ws) = pairs [h].
Proof.
  intros Hq. change (wrapped h es ws) with
    ([ToIOPub (IStatus h ChShell Busy)] ++ es ++ (ToSocket <$> ws) ++ [ToIOPub (IStatus h ChShell Idle)]).
  rewrite !effect_statuses_app, (quiet_statuses es Hq).
  assert (effect_statuses (ToSocket <$> ws) = []) as -> by (induction ws; done). done.
Qed.

Lemma input_statuses session input es : input_effects session input es → ∃ hs, effect_statuses es = pairs hs.
Proof.
  destruct input as [events|bufs]; cbn [input_effects].
  - intros Hq. exists []. by rewrite quiet_statuses.
  - destruct (message_read _ _) as [[err|[k req]]|]; try (intros ->; by exists []).
    cbn [message_effects]. destruct (reply_kind k); [|intros ->; by exists []].
    intros (qs & ws & -> & Hq & _). exists [header req]. by apply wrapped_statuses.
Qed.

Lemma blocks_statuses session inputs blocks :
  Forall2 (input_effects session) inputs blocks → ∃ hs, effect_statuses (concat blocks) = pairs hs.
Proof.
  induction 1 as [|input es inputs blocks Hi _ [hs2 IH]]; [by exists []|].
  apply input_statuses in Hi as [hs1 Hi]. exists (hs1 ++ hs2). cbn [concat].
  rewrite effect_statuses_app, Hi, IH. symmetry. apply bind_app.
Qed.

Lemma bracketed_pairs hs : bracketed None (pairs hs).
Proof. induction hs; [done|]. cbn. by split_and!. Qed.

Lemma bracketed_prefix context l1 l2 : bracketed context (l1 ++ l2) → bracketed context l1.
Proof.
  revert context. induction l1 as [|[h []] l1 IH]; intros context; cbn; [done|..].
  - intros [? ?]. split; [done|by apply IH].
  - intros [? ?]. split; [done|by apply IH].
  - apply IH.
Qed.

(** C6. The two threads together: when IOPub has taken some of the statuses the
    Shell sent, in their order, among any messages of other threads, each byte
    that came to IOPub while a request of the Shell was running is sent, or kept
    to be sent, with the header of that request as parent, in the order it
    came, however it is buffered. *)
Theorem output_has_its_request inputs session handler servers sh es :
  shell_listen inputs (shell_new session handler servers) = Some sh →
  shell_statuses es `prefix_of` effect_statuses (effects sh) →
  EvMessage None ∉ es →
  ∃ io, listen es (iopub_new session) = Some io ∧
    Forall2 keeps_request (output_in None es)
      (output_sent (sent io) ++ tag (shell_context io) (held io)).
Proof.
  intros Hl [rest Hr] Hes. apply shell_listen_goes in Hl as (blocks & [He _] & Hb).
  apply blocks_statuses in Hb as [hs Hh]. cbn in He. rewrite He, Hh in Hr.
  destruct (listen_ok es (iopub_new session) eq_refl eq_refl Hes) as (io & l & Hio & _).
  exists io. split; [exact Hio|].
  apply (output_run es (iopub_new session) io [] eq_refl eq_refl Hes); [|constructor|exact Hio].
  apply (bracketed_prefix None _ rest). rewrite <- Hr. apply bracketed_pairs.
Qed.

(** ** Comms of servers *)

Lemma info_last comms comm :
  info_comms (handle_comm_info_request (comms ++ [comm]) (mkCommInfoRequest None)) !! comm_id comm =
  Some (comm_name comm).
Proof. cbn. rewrite foldl_app. cbn. apply lookup_insert_eq. Qed.

(** C38. A server that starts and goes away before it says that it is ready: the
    frontend is told that the comm is closed, but the Shell keeps it open, as the
    last of its comms, and lists it to whoever asks for the open comms. *)
Theorem failed_server_stays_open msg sh h :
  strip_positron (co_target_name msg) = None →
  co_target_name msg ∈ server_handlers sh →
  server_start_from_value (co_data msg) = true →
  server_start (co_target_name msg) (comm_socket_new FrontEnd (co_comm_id msg) (co_target_name msg) sh).1
    (co_data msg) (sh_handler sh) = (inr None, h) →
  ∃ sh' socket, handle_comm_open_content msg sh = (inr tt, None, sh') ∧
    effects sh' = effects sh ++ [ToIOPub (ICommOutgoing (co_comm_id msg) CmClose)] ∧
    open_comms sh' = open_comms sh ++ [socket] ∧ comm_id socket = co_comm_id msg ∧
    info_comms (handle_comm_info_request (open_comms sh') (mkCommInfoRequest None)) !! co_comm_id msg =
      Some (co_target_name msg).
Proof.
  intros Hp Hs Hv Hst. unfold handle_comm_open_content, open_comm, comm_of_target. rewrite Hp.
  destruct (comm_socket_new _ _ _ sh) as [socket sh0] eqn:En. cbn [fst] in Hst.
  injection En as Hsocket <-. cbn [open_kind]. unfold server_handler. cbn [server_handlers].
  rewrite bool_decide_true by exact Hs. unfold open_with_server, start_server_comm. cbn [sh_handler].
  rewrite Hv, Hst. eexists _, socket. split; [reflexivity|]. split; [reflexivity|]. split; [reflexivity|].
  subst socket. split; [reflexivity|]. cbn [open_comms emit set_open_comms set_handler].
  apply (info_last (open_comms sh) (mkCommSocket (co_comm_id msg) (co_target_name msg) FrontEnd (next_incoming sh))).
Qed.
End shell.

(** ** StdIn *)

Section stdin.
Context `{JS : Json, HM : !Hmac, HJ : !HeaderJson, CO : !Contents, ST : !Stamps, SR : !StdinReplies}.
Implicit Types s : Stdin.

(** The requests that arrive. *)
Definition arrived (steps : list StdinStep) : list StdInRequest :=
  steps ≫= λ step, match step with ArriveRequest req => [req] | _ => [] end.

(** [e] answers the request behind [tx]: with a message of the frontend, or, a
    request of a comm, with the interrupt. *)
Definition answer (tx : StdInReplySender) (e : StdinEffect) : Prop :=
  (∃ message, stdin_reply message tx = [e]) ∨ ∃ t, tx = ReplyComm t ∧ e = StCommReply t RpcInterrupt.

(** What one request makes the thread send: the request, then its answer. *)
Definition turn (session : Session) (ir : nat * StdInRequest) (block : list StdinEffect) : Prop :=
  ∃ msg tx, stdin_request ir.2 session (stamp ir.1) = (msg, tx) ∧
    (block = [StOutbound msg] ∨ ∃ e, block = [StOutbound msg; e] ∧ answer tx e).

Definition turns (session : Session) (served : list StdInRequest) (blocks : list (list StdinEffect)) : Prop :=
  Forall2 (turn session) (imap pair served) blocks.

Lemma turns_snoc session served blocks req block :
  turns session (served ++ [req]) (blocks ++ [block]) ↔
  turns session served blocks ∧ turn session (length served, req) block.
Proof.
  unfold turns. rewrite imap_app. cbn. rewrite Nat.add_0_r. split.
  - intros H. apply Forall2_app_inv in H as [H1 H2]; [|apply Forall2_length in H; rewrite !length_app in H; cbn in H; lia].
    split; [exact H1|]. by apply Forall2_cons_1 in H2 as [? _].
  - intros [H1 H2]. apply Forall2_app; [exact H1|]. by repeat constructor.
Qed.

(** A state after requests [reqs] arrived, of which some are served. *)
Record serving (session : Session) (reqs : list StdInRequest) s (served : list StdInRequest)
    (blocks : list (list StdinEffect)) : Prop := {
  sg_session : st_session s = session;
  sg_requests : reqs = served ++ st_requests s;
  sg_created : st_created s = length served;
  sg_effects : st_effects s = concat blocks;
  sg_turns : turns session served blocks;
  sg_waiting tx : st_waiting s = Some tx →
    ∃ served' req blocks' msg, served = served' ++ [req] ∧ blocks = blocks' ++ [[StOutbound msg]] ∧
      stdin_request req session (stamp (length served')) = (msg, tx);
}.

(** The request that waits is answered, or left alone. *)
Lemma serving_answer session reqs s served blocks tx rs s' :
  serving session reqs s served blocks → st_waiting s = Some tx →
  rs = [] ∨ (∃ e, rs = [e] ∧ answer tx e) →
  st_session s' = st_session s → st_requests s' = st_requests s → st_created s' = st_created s →
  st_effects s' = st_effects s ++ rs → st_waiting s' = None →
  ∃ blocks', serving session reqs s' served blocks'.
Proof.
  intros [Hs Hr Hc He Ht Hw] Htx Hrs Es Er Ec Ee Ew.
  destruct (Hw tx Htx) as (served' & req & blocks' & msg & -> & -> & Hreq).
  exists (blocks' ++ [StOutbound msg :: rs]). split; [congruence..| | |].
  - rewrite Ee, He, !concat_app. cbn. by rewrite !app_nil_r, <- (assoc_L (++)).
  - apply turns_snoc in Ht as [Ht _]. apply turns_snoc. split; [exact Ht|]. exists msg, tx. split; [exact Hreq|].
    destruct Hrs as [->|(e & -> & Ha)]; [by left|right; by exists e].
  - by rewrite Ew.
Qed.

(** Nothing is sent and nothing is taken from the requests. *)
Lemma serving_silent session reqs s served blocks rs s' :
  serving session reqs s served blocks →
  st_session s' = st_session s → st_requests s' = st_requests s ++ rs → st_created s' = st_created s →
  st_effects s' = st_effects s → st_waiting s' = st_waiting s →
  serving session (reqs ++ rs) s' served blocks.
Proof.
  intros [Hs Hr Hc He Ht Hw] Es Er Ec Ee Ew. split; [congruence| |congruence|congruence|done|by rewrite Ew].
  by rewrite Hr, Er, (assoc_L (++)).
Qed.

Lemma stdin_reply_answer message tx :
  stdin_reply message tx = [] ∨ ∃ e, stdin_reply message tx = [e] ∧ answer tx e.
Proof.
  destruct (stdin_reply message tx) as [|e [|e' l]] eqn:E; [by left|right; exists e|].
  - split; [done|]. left. by exists message.
  - exfalso. destruct message as [|[[] ?]], tx; done.
Qed.

Lemma stdin_step_serving step session reqs s served blocks s' :
  serving session reqs s served blocks → stdin_step step s = Some s' →
  ∃ served' blocks', serving session (reqs ++ arrived [step]) s' served' blocks'.
Proof.
  intros Hv Hs. destruct step; cbn [arrived mbind list_bind app] in *; rewrite ?app_nil_r.
  - injection Hs as <-. exists served, blocks. by apply (serving_silent _ _ s).
  - injection Hs as <-. exists served, blocks. rewrite <- (app_nil_r reqs).
    apply (serving_silent _ _ s); try done. by rewrite app_nil_r.
  - injection Hs as <-. exists served, blocks. rewrite <- (app_nil_r reqs).
    apply (serving_silent _ _ s); try done. by rewrite app_nil_r.
  - unfold stdin_step in Hs. destruct (st_waiting s) eqn:Ew; [done|].
    destruct (st_requests s) as [|req rest] eqn:Er; [done|].
    destruct (stdin_request _ _ _) as [msg tx] eqn:Eq. injection Hs as <-.
    destruct Hv as [Hss Hr Hc He Ht _]. rewrite Hc, Hss in Eq.
    exists (served ++ [req]), (blocks ++ [[StOutbound msg]]). split; cbn; [done| | | | |].
    + by rewrite Hr, Er, <- (assoc_L (++)).
    + rewrite Hc, length_app. cbn. lia.
    + by rewrite He, concat_app.
    + apply turns_snoc. split; [done|]. exists msg, tx. split; [done|by left].
    + intros tx' [= <-]. by exists served, req, blocks, msg.
  - unfold stdin_step in Hs. destruct (st_interrupts s) as [|n]; [done|]. exists served.
    destruct (st_waiting s) as [[|tx]|] eqn:Ew; injection Hs as <-.
    + eapply (serving_answer _ _ s _ _ _ []); [exact Hv|exact Ew|by left|done..| |done]. by rewrite app_nil_r.
    + eapply (serving_answer _ _ s _ _ _ [StCommReply tx RpcInterrupt]); [exact Hv|exact Ew| |done..].
      right. eexists. split; [done|]. right. by exists tx.
    + exists blocks. rewrite <- (app_nil_r reqs). apply (serving_silent _ _ s); try done. by rewrite app_nil_r.
  - unfold stdin_step in Hs. destruct (st_waiting s) as [tx|] eqn:Ew; [|done].
    destruct (st_inbound s) as [|message inbound]; [done|]. injection Hs as <-. exists served.
    by eapply (serving_answer _ _ s _ _ tx (stdin_reply message tx)); [exact Hv|exact Ew|apply stdin_reply_answer|..].
Qed.

Lemma stdin_run_serving steps session reqs s served blocks s' :
  serving session reqs s served blocks → stdin_run steps s = Some s' →
  ∃ served' blocks', serving session (reqs ++ arrived steps) s' served' blocks'.
Proof.
  unfold stdin_run. revert reqs s served blocks. induction steps as [|step steps IH]; intros reqs s served blocks Hv.
  - intros [= <-]. exists served, blocks. by rewrite app_nil_r.
  - cbn [foldM]. intros (s1 & Hs & Hr)%bind_Some.
    destruct (stdin_step_serving _ _ _ _ _ _ _ Hv Hs) as (served1 & blocks1 & Hv1).
    destruct (IH _ _ _ _ Hv1 Hr) as (served2 & blocks2 & Hv2). exists served2, blocks2.
    change (step :: steps) with ([step] ++ steps). unfold arrived at 1. rewrite bind_app, (assoc_L (++)). exact Hv2.
Qed.

(** C31. Whatever arrives on the three channels and whichever of those that are
    ready is selected: requests for input and those of comms go to the frontend
    in the order they came, one after the other, and each has at most one
    answer, given before the next request is sent and to where the request
    came from: a message of the frontend of the right kind, the error in reading
    one, or, to a comm only, that it was interrupted. *)
Theorem stdin_serves_in_order session steps s :
  stdin_run steps (stdin_new session) = Some s →
  ∃ served blocks, arrived steps = served ++ st_requests s ∧ st_effects s = concat blocks ∧
    Forall2 (turn session) (imap pair served) blocks.
Proof.
  intros Hr. destruct (stdin_run_serving steps session [] (stdin_new session) [] [] s) as (served & blocks & [? ? ? ? ? ?]);
    [by split; try constructor|exact Hr|]. by exists served, blocks.
Qed.

(** After an interrupt, the reply to the request for input that was
    interrupted answers the next one, whatever request its parent header
    names. *)
Theorem late_reply_answers_next session o1 r1 o2 r2 (reply : JupyterMessage (content KInputReply)) :
  ∃ s m1 m2,
    stdin_run [ArriveRequest (SiInput o1 r1); TakeRequest; ArriveInterrupt; TakeInterrupt;
               ArriveRequest (SiInput o2 r2); TakeRequest; ArriveInbound (inr (existT KInputReply reply));
               TakeInbound] (stdin_new session) = Some s ∧
    st_effects s = [StOutbound m1; StOutbound m2; StInputReply (inr (jm_content reply))].
Proof. eexists _, _, _. split; [unfold stdin_run; cbn; reflexivity|reflexivity]. Qed.
End stdin.

(** ** Instances *)

Section instance.
#[local] Existing Instances demo_json demo_hmac demo_header_json demo_contents demo_content_json.

Definition demo_stamps : Stamps := {| stamp n := (repeat "m"%char n, text_of "now") |}.
#[local] Existing Instance demo_stamps.

Definition demo_session : Session := mkSession (Some demo_key) (text_of "kernel") (text_of "s").
Definition demo_comm : CommSocket := mkCommSocket (text_of "c1") (text_of "positron.help") BackEnd 7.

(** A language whose execution opens a comm, and whose server goes away. *)
Definition demo_shell_handler : ShellHandler := {|
  Handler := unit;
  handle_info_request c h := (inr c, h);
  handle_is_complete_request c h := (inr c, h);
  handle_complete_request c h := (inl (OtherError c), h);
  handle_history_request c h := (inr c, h);
  handle_inspect_request c h := (inr c, h);
  start_execute_request _ c h := (([CeOpened demo_comm [] (Some 3)], Some (inr c)), h);
  handle_comm_open _ _ _ h := (inr (true, None), h);
  handle_comm_msg _ _ _ _ h := (inr (NotHandled, None), h);
  handle_comm_close _ _ h := (inr (Handled, None), h);
  server_start_from_value _ := true;
  server_start _ _ _ h := (inr None, h);
  server_started _ v := CmData v;
  error_debug _ := text_of "error";
|}.
#[local] Existing Instance demo_shell_handler.
#[local] Instance demo_stdin_replies : StdinReplies := {| receive_error _ := text_of "error" |}.

Definition demo_request (k : MessageKind) (c : content k) : list text :=
  match message_send (existT k (mkJupyter [text_of "id"] (demo_header (message_type k)) None [] c)) (Some demo_key) with
  | inr bufs => bufs
  | inl _ => []
  end.

Definition demo_inputs : list ShellInput :=
  [ShMessage (demo_request KExecuteRequest (text_of "1"));
   ShMessage (demo_request KCommInfoRequest (mkCommInfoRequest None));
   ShMessage (demo_request KCompleteRequest (text_of "a"));
   ShMessage (demo_request KCommOpen (mkCommOpen (text_of "c2") (text_of "server") []));
   ShEvents [CeClosed (text_of "c1")]].

Definition demo_shell : Shell := shell_new demo_session tt [text_of "server"].

Definition demo_events : list IOPubEvent :=
  [EvSubscription (Some (inr (mkSubscription Subscribe [])));
   EvMessage (Some (IStatus (demo_header (text_of "execute_request")) ChShell Busy));
   EvMessage (Some (IStream (mkStream Stdout (text_of "one"))));
   EvMessage (Some (IStream (mkStream Stderr (text_of "two"))));
   EvMessage (Some (IStatus (demo_header (text_of "execute_request")) ChShell Idle));
   EvTick].

Lemma iopub_keeps_order_witness :
  (EvMessage None ∉ demo_events) ∧
  ∃ io, listen demo_events (iopub_new demo_session) = Some io ∧
    sent_items (sent io) ++ held io = (demo_events ≫= in_items) ∧
    (sent io ≫= announced) = (spec_run demo_events (None, None, true)).1.
Proof.
  assert (Hes : EvMessage None ∉ demo_events) by (intros He; repeat (apply elem_of_cons in He as [[=]|He]); inversion He).
  split; [exact Hes|exact (iopub_keeps_order demo_session demo_events Hes)].
Defined.

(** What the Shell does there. *)
Lemma demo_listens :
  ∃ sh, shell_listen demo_inputs demo_shell = Some sh ∧ length (effects sh) = 15 ∧
    effect_statuses (effects sh) =
      pairs ((λ k, demo_header (message_type k)) <$> [KExecuteRequest; KCommInfoRequest; KCompleteRequest; KCommOpen]).
Proof.
  assert ((λ sh, (length (effects sh), effect_statuses (effects sh))) <$> shell_listen demo_inputs demo_shell =
    Some (15, pairs ((λ k, demo_header (message_type k)) <$>
      [KExecuteRequest; KCommInfoRequest; KCompleteRequest; KCommOpen]))) as He by (vm_compute; reflexivity).
  apply fmap_Some in He as (sh & Hs & He).
  exists sh. exact (conj Hs (conj (eq_sym (f_equal fst He)) (eq_sym (f_equal snd He)))).
Qed.

Lemma requests_are_bracketed_witness :
  ∃ sh blocks, shell_listen demo_inputs demo_shell = Some sh ∧ length (effects sh) = 15 ∧
    effects sh = concat blocks ∧ Forall2 (input_effects demo_session) demo_inputs blocks.
Proof.
  destruct demo_listens as (sh & Hs & Hl & _).
  destruct (requests_are_bracketed demo_inputs demo_session (sh_handler demo_shell) (server_handlers demo_shell) sh Hs) as (blocks & He & Hb).
  exists sh, blocks. exact (conj Hs (conj Hl (conj He Hb))).
Defined.

Lemma output_has_its_request_witness :
  ∃ sh io, shell_listen demo_inputs demo_shell = Some sh ∧ listen demo_events (iopub_new demo_session) = Some io ∧
    length (output_in None demo_events) = 6 ∧
    Forall2 keeps_request (output_in None demo_events)
      (output_sent (sent io) ++ tag (shell_context io) (held io)).
Proof.
  destruct demo_listens as (sh & Hs & _ & Hst).
  assert (Hp : shell_statuses demo_events `prefix_of` effect_statuses (effects sh)).
  { rewrite Hst. eexists (pairs ((λ k, demo_header (message_type k)) <$> [KCommInfoRequest; KCompleteRequest; KCommOpen])).
    reflexivity. }
  assert (Hes : EvMessage None ∉ demo_events) by (intros He; repeat (apply elem_of_cons in He as [[=]|He]); inversion He).
  destruct (output_has_its_request demo_inputs demo_session (sh_handler demo_shell) (server_handlers demo_shell) sh demo_events Hs Hp Hes)
    as (io & Hl & Hk).
  exists sh, io. exact (conj Hs (conj Hl (conj eq_refl Hk))).
Defined.

Lemma failed_server_stays_open_witness :
  let msg := mkCommOpen (text_of "c2") (text_of "server") [] in
  ∃ sh' socket, handle_comm_open_content msg demo_shell = (inr tt, None, sh') ∧
    effects sh' = effects demo_shell ++ [ToIOPub (ICommOutgoing (co_comm_id msg) CmClose)] ∧
    open_comms sh' = open_comms demo_shell ++ [socket] ∧ comm_id socket = co_comm_id msg ∧
    info_comms (handle_comm_info_request (open_comms sh') (mkCommInfoRequest None)) !! co_comm_id msg =
      Some (co_target_name msg).
Proof.
  intros msg. apply (failed_server_stays_open msg demo_shell (sh_handler demo_shell)); [reflexivity|by left|reflexivity|reflexivity].
Defined.

Definition demo_steps : list StdinStep :=
  [ArriveRequest (SiInput (mkOriginator [] (demo_header (text_of "execute_request")) []) (text_of "name? "));
   ArriveRequest (SiComm (mkOriginator [] (demo_header (text_of "execute_request")) []) 4 (text_of "ask"));
   TakeRequest;
   ArriveInbound (inr (existT KInputReply (mkJupyter [] (demo_header (text_of "input_reply")) None [] (text_of "me"))));
   TakeInbound; TakeRequest; ArriveInterrupt; TakeInterrupt].

Lemma stdin_serves_in_order_witness :
  ∃ s served blocks, stdin_run demo_steps (stdin_new demo_session) = Some s ∧ length (st_effects s) = 4 ∧
    arrived demo_steps = served ++ st_requests s ∧ st_effects s = concat blocks ∧
    Forall2 (turn demo_session) (imap pair served) blocks.
Proof.
  assert (He : (λ s, length (st_effects s)) <$> stdin_run demo_steps (stdin_new demo_session) = Some 4)
    by (vm_compute; reflexivity).
  apply fmap_Some in He as (s & Hs & Hl).
  destruct (stdin_serves_in_order demo_session demo_steps s Hs) as (served & blocks & Ha & Hb & Ht).
  exists s, served, blocks. exact (conj Hs (conj (eq_sym Hl) (conj Ha (conj Hb Ht)))).
Defined.
End instance.
