(* ===== verification/Namespace.v ===== *)
(** * Namespaces of packages: [crates/oak_package_metadata/src/namespace.rs]

    The directives of a [NAMESPACE], over the tree of the R parser, with
    [SortedVec] of [crates/stdext/src/sorted_vec.rs], and the queries of
    [crates/oak_db/src/package.rs] that read it. *)

From S2P Require Export LoadContext Syntax.
#[local] Open Scope string_scope.
#[local] Open Scope list_scope.

(** [aether_parser::parse]: the top-level expressions, the range of the root,
    and whether there was an error. *)
Class RParser `{TextRanges} := {
  parse_expressions : text → list expr;
  parse_range : text → TextRange;
  parse_error : text → bool;
}.

(** [Ord] on strings. *)
Definition string_le (a b : string) : bool := text_le (text_of a) (text_of b).

(** ** Sorted vectors *)

Module SortedVec.

Definition from_vec (values : list string) : list string :=
  vec_dedup_by (λ a b, bool_decide (a = b)) (sort_by_key string_le id values).

(** Binary search for the insertion point, and a look at what is there. *)
Definition contains_str (inner : list string) (value : string) : bool :=
  bool_decide (inner !! partition_point (λ s, negb (string_le value s)) inner = Some value).

End SortedVec.

(** ** Directives *)

Record Import_ := mkImport { imp_name : string; imp_package : string }.

Record Namespace := mkNamespace {
  ns_exports : list string;
  ns_imports : list Import_;
  ns_package_imports : list string;
}.

Definition namespace_default : Namespace := mkNamespace [] [] [].

Section namespace.
Context `{TR : TextRanges} `{RP : !RParser}.

Definition directive_name (value : expr) : option string :=
  match value with
  | RIdentifier name _ => Some name
  | RStringValue text _ => text
  | _ => None
  end.

Definition arg_name_of (item : option (@RArgument expr)) : option string :=
  arg ← item; value ← arg_value arg; directive_name value.

Definition collect_arg_identifiers (args : list (option (@RArgument expr))) (out : list string)
    : list string :=
  out ++ omap arg_name_of args.

Definition collect_imports (args : list (option (@RArgument expr))) (out : list Import_)
    : list Import_ :=
  match args with
  | [] => out
  | first_arg :: args =>
      match arg_name_of first_arg with
      | None => out
      | Some pkg_name => out ++ ((λ name, mkImport name pkg_name) <$> omap arg_name_of args)
      end
  end.

(** The three vectors of the loop, as a [Namespace] being built. *)
Definition collect_directive (acc : Namespace) (e : expr) : Namespace :=
  match e with
  | RCall (Some (RIdentifier fn_name _)) (Some args) _ =>
      if bool_decide (fn_name ∈ ["export"; "exportClasses"; "exportMethods"]) then
        mkNamespace (collect_arg_identifiers args (ns_exports acc)) (ns_imports acc)
          (ns_package_imports acc)
      else if bool_decide (fn_name = "importFrom") then
        mkNamespace (ns_exports acc) (collect_imports args (ns_imports acc))
          (ns_package_imports acc)
      else if bool_decide (fn_name = "import") then
        mkNamespace (ns_exports acc) (ns_imports acc)
          (collect_arg_identifiers args (ns_package_imports acc))
      else acc
  | _ => acc
  end.

Definition collect_directives (program : list expr) : Namespace :=
  foldl collect_directive namespace_default program.

Definition same_import (a b : Import_) : bool := bool_decide (imp_name a = imp_name b).

Definition namespace_parse (contents : text) : option Namespace :=
  if parse_error contents then None
  else
    let directives := collect_directives (parse_expressions contents) in
    Some (mkNamespace
      (SortedVec.from_vec (ns_exports directives))
      (vec_dedup_by same_import (sort_by_key string_le imp_name (ns_imports directives)))
      (vec_dedup_by (λ a b, bool_decide (a = b)) (sort_by_key string_le id (ns_package_imports directives)))).

(** ** Queries of a package *)

Context `{RD : DbReads}.

(** [Package::namespace]; no scanner sets the override. *)
Definition package_namespace (db : Db) (p : Package) : Namespace :=
  match as_path (p_description_path (package db p)) ≫= parent with
  | None => namespace_default
  | Some dir =>
      match read_to_string (Paths.join dir (text_of "NAMESPACE")) with
      | Some contents => default namespace_default (namespace_parse contents)
      | None => namespace_default
      end
  end.

(** [Package::imported_from]. *)
Definition imported_from (db : Db) (p : Package) : gmap string string :=
  foldl (λ m i, <[imp_name i := imp_package i]> m) ∅ (ns_imports (package_namespace db p)).
End namespace.

(** ** Facts *)

Lemma text_of_inj a b : text_of a = text_of b → a = b.
Proof.
  intros E. unfold text_of in E. apply (f_equal String.string_of_list_ascii) in E.
  by rewrite !String.string_of_list_ascii_of_string in E.
Qed.

Lemma string_le_total a b : string_le a b = true ∨ string_le b a = true.
Proof. apply text_le_total. Qed.

Lemma string_le_trans a b c : string_le a b = true → string_le b c = true → string_le a c = true.
Proof. apply text_le_trans. Qed.

Lemma string_le_antisym a b : string_le a b = true → string_le b a = true → a = b.
Proof. intros. by apply text_of_inj, text_le_antisym. Qed.

Lemma sort_strings_spec {A} (key : A → string) l :
  sort_by_key string_le key l ≡ₚ l ∧ StronglySorted (key_lte string_le key) (sort_by_key string_le key l) ∧
  ∀ k, filter (λ y, key y = k) (sort_by_key string_le key l) = filter (λ y, key y = k) l.
Proof. apply sort_by_key_spec; [apply string_le_total|apply string_le_trans]. Qed.

(** Searching a sorted vector finds what is there. *)
Lemma search_sorted l v :
  StronglySorted (key_lte string_le id) l →
  l !! partition_point (λ s, negb (string_le v s)) l = Some v ↔ v ∈ l.
Proof.
  intros Hs. split; [apply list_elem_of_lookup_2|]. induction Hs as [|a l Hs IH Ha]; [by intros ?%elem_of_nil|].
  simpl. intros Hv. destruct (string_le v a) eqn:E; simpl.
  - apply elem_of_cons in Hv as [->|Hv]; [done|]. rewrite Forall_forall in Ha. f_equal.
    apply string_le_antisym; [by apply Ha|done].
  - apply elem_of_cons in Hv as [->|Hv]; [|by apply IH]. by destruct (string_le_total a a); congruence.
Qed.

Lemma sublist_sorted {A} (R : A → A → Prop) l k :
  sublist l k → StronglySorted R k → StronglySorted R l.
Proof.
  induction 1 as [|x l k Hsub IH|x l k Hsub IH]; intros Hs; [done|..];
    inversion Hs as [|? ? Hs' Hf]; subst; auto.
  constructor; [by auto|]. rewrite Forall_forall in *. intros y Hy. apply Hf.
  by eapply elem_of_sublist.
Qed.

Lemma from_vec_sorted l : StronglySorted (key_lte string_le id) (SortedVec.from_vec l).
Proof. unfold SortedVec.from_vec. eapply sublist_sorted; [apply vec_dedup_sublist|apply sort_strings_spec]. Qed.

Lemma sorted_dedup_elem l v : v ∈ SortedVec.from_vec l ↔ v ∈ l.
Proof.
  destruct (sort_strings_spec id l) as (Hp & Hs & _).
  pose proof (vec_dedup_elem (λ a b, bool_decide (a = b)) id (λ _ _, eq_refl) string_le
    string_le_antisym _ v Hs) as He. rewrite !list_fmap_id in He.
  unfold SortedVec.from_vec. by rewrite He, Hp.
Qed.

Lemma contains_from_vec l v : SortedVec.contains_str (SortedVec.from_vec l) v = true ↔ v ∈ l.
Proof.
  unfold SortedVec.contains_str. rewrite bool_decide_eq_true, search_sorted by apply from_vec_sorted.
  apply sorted_dedup_elem.
Qed.

(** ** What a file declares *)

Section directives.
Context `{TR : TextRanges}.
Implicit Types (program : list expr).

(** The arguments of the calls to one of [fns], in source order. *)
Definition directives (fns : list string) program : list (list (option (@RArgument expr))) :=
  omap (λ e,
    match e with
    | RCall (Some (RIdentifier fn _)) (Some args) _ =>
        if bool_decide (fn ∈ fns) then Some args else None
    | _ => None
    end) program.

Definition exported_names program : list string :=
  directives ["export"; "exportClasses"; "exportMethods"] program ≫= omap arg_name_of.

(** The names an [importFrom] lists behind its package. *)
Definition pairs_of (args : list (option (@RArgument expr))) : list Import_ :=
  match args with
  | [] => []
  | package :: names =>
      match arg_name_of package with
      | Some p => (λ name, mkImport name p) <$> omap arg_name_of names
      | None => []
      end
  end.

Definition import_pairs program : list Import_ :=
  directives ["importFrom"] program ≫= pairs_of.

Definition bulk_imports program : list string :=
  directives ["import"] program ≫= omap arg_name_of.

Lemma collect_imports_app args out : collect_imports args out = out ++ pairs_of args.
Proof.
  unfold collect_imports, pairs_of. destruct args as [|a args]; [by rewrite app_nil_r|].
  destruct (arg_name_of a); [done|by rewrite app_nil_r].
Qed.

Lemma collect_directives_spec program :
  collect_directives program =
    mkNamespace (exported_names program) (import_pairs program) (bulk_imports program).
Proof.
  unfold collect_directives.
  assert (Hg : ∀ acc, foldl collect_directive acc program =
    mkNamespace (ns_exports acc ++ exported_names program) (ns_imports acc ++ import_pairs program)
      (ns_package_imports acc ++ bulk_imports program)); [|by rewrite Hg].
  unfold exported_names, import_pairs, bulk_imports.
  induction program as [|e program IH]; intros acc; [destruct acc; simpl; by rewrite !app_nil_r|].
  simpl. rewrite IH. clear IH. destruct e; try done. simpl.
  destruct function as [[]|]; try done. destruct arguments as [args|]; [|done]. simpl.
  assert (Hone : ∀ s, bool_decide (name ∈ [s]) = bool_decide (name = s)).
  { intros s. apply bool_decide_ext, list_elem_of_singleton. }
  rewrite !Hone. case_bool_decide as E1.
  - rewrite !bool_decide_false by (intros ->; repeat apply elem_of_cons in E1 as [E1|E1]; try done;
      by apply elem_of_nil in E1).
    simpl. unfold collect_arg_identifiers. by rewrite <-!app_assoc.
  - case_bool_decide as E2.
    + subst name. simpl. rewrite collect_imports_app. by rewrite <-!app_assoc.
    + case_bool_decide; [|done]. simpl. unfold collect_arg_identifiers. by rewrite <-!app_assoc.
Qed.
End directives.

Lemma lookup_imports l n :
  NoDup (imp_name <$> l) →
  foldl (λ m i, <[imp_name i := imp_package i]> m) (∅ : gmap string string) l !! n =
    imp_package <$> head (filter (λ i, imp_name i = n) l).
Proof.
  assert (Hg : ∀ m : gmap string string, NoDup (imp_name <$> l) →
    foldl (λ m i, <[imp_name i := imp_package i]> m) m l !! n =
      match head (filter (λ i, imp_name i = n) l) with
      | Some i => Some (imp_package i) | None => m !! n end).
  { induction l as [|i l IH]; intros m Hn; [done|]. simpl. rewrite fmap_cons in Hn.
    apply NoDup_cons in Hn as [Hi Hn]. rewrite IH by done. rewrite filter_cons. case_decide as E.
    - simpl. subst n. rewrite lookup_insert_eq. destruct (filter _ l) as [|j k] eqn:Hf; [done|].
      exfalso. apply Hi, list_elem_of_fmap. exists j.
      assert (j ∈ filter (λ x, imp_name x = imp_name i) l) as [? ?]%list_elem_of_filter by (rewrite Hf; left).
      done.
    - by rewrite lookup_insert_ne. }
  intros Hn. rewrite Hg by done. by destruct (head _).
Qed.

(** C34. The [NAMESPACE] of a package is read as it is written: a name is
    exported when some export directive lists it, by name or as a string; an
    imported name comes from the package of the first [importFrom] that lists
    it; and the bulk imports are the packages of the [import] directives, each
    once. A file that is missing or does not parse declares nothing. *)
Theorem package_namespace_spec `{TR : TextRanges, !RParser, DbReads}
    (db : Db) (p : Package) (dir : path) :
  (as_path (p_description_path (package db p)) ≫= parent) = Some dir →
  match read_to_string (Paths.join dir (text_of "NAMESPACE")) with
  | Some contents =>
      if parse_error contents then package_namespace db p = namespace_default
      else
        let program := parse_expressions contents in
        (∀ n, SortedVec.contains_str (ns_exports (package_namespace db p)) n = true ↔
              n ∈ exported_names program) ∧
        (∀ n, imported_from db p !! n =
              imp_package <$> head (filter (λ i, imp_name i = n) (import_pairs program))) ∧
        NoDup (ns_package_imports (package_namespace db p)) ∧
        (∀ q, q ∈ ns_package_imports (package_namespace db p) ↔ q ∈ bulk_imports program)
  | None => package_namespace db p = namespace_default
  end.
Proof.
  intros Hdir. unfold imported_from, package_namespace. rewrite Hdir.
  destruct (read_to_string _) as [contents|]; [|done]. unfold namespace_parse.
  destruct (parse_error contents); [done|]. rewrite collect_directives_spec. simpl.
  set (program := parse_expressions contents).
  destruct (sort_strings_spec imp_name (import_pairs program)) as (_ & Hs & Hf).
  split; [|split; [|split]].
  - intros n. apply contains_from_vec.
  - intros n. pose proof (vec_dedup_nodup same_import imp_name (λ _ _, eq_refl) string_le
      string_le_antisym _ Hs) as Hn. rewrite lookup_imports by done. f_equal.
    rewrite (vec_dedup_filter same_import imp_name (λ _ _, eq_refl) string_le string_le_antisym) by done.
    rewrite Hf. by destruct (filter _ _).
  - destruct (sort_strings_spec id (bulk_imports program)) as (_ & Hs' & _).
    pose proof (vec_dedup_nodup (λ a b, bool_decide (a = b)) id (λ _ _, eq_refl) string_le
      string_le_antisym _ Hs') as Hn. by rewrite list_fmap_id in Hn.
  - intros q. apply sorted_dedup_elem.
Qed.

(** ** Witness

    A package [/p] whose [NAMESPACE] is [export(f); importFrom(q, g)]. *)

From S2P Require Import Reference OakDemo.

Definition demo_directives : list expr :=
  [call_ 0 9 "export" [id_ 7 "f"]; call_ 10 16 "importFrom" [id_ 21 "q"; id_ 24 "g"]].

#[local] Instance directives_parser : RParser := {|
  parse_expressions t := if bool_decide (t = text_of "N") then demo_directives else [];
  parse_range _ := at_ 0 30;
  parse_error _ := false;
|}.

#[local] Instance namespace_reads : DbReads :=
  λ p, if bool_decide (p = at_path ["p"; "NAMESPACE"]) then Some (text_of "N") else None.

Definition namespace_db : Db := mkDb []
  [mkPackage (FFile (at_path ["p"; "DESCRIPTION"])) (text_of "p") 0 0 None [] []]
  [] [] [] [] ∅ ∅ [] [].

Lemma package_namespace_spec_witness :
  match read_to_string (Paths.join (at_path ["p"]) (text_of "NAMESPACE")) with
  | Some contents =>
      if parse_error contents then package_namespace namespace_db 0 = namespace_default
      else
        let program := parse_expressions contents in
        (∀ n, SortedVec.contains_str (ns_exports (package_namespace namespace_db 0)) n = true ↔
              n ∈ exported_names program) ∧
        (∀ n, imported_from namespace_db 0 !! n =
              imp_package <$> head (filter (λ i, imp_name i = n) (import_pairs program))) ∧
        NoDup (ns_package_imports (package_namespace namespace_db 0)) ∧
        (∀ q, q ∈ ns_package_imports (package_namespace namespace_db 0) ↔ q ∈ bulk_imports program)
  | None => package_namespace namespace_db 0 = namespace_default
  end.
Proof.
  refine (package_namespace_spec namespace_db 0 (at_path ["p"]) _).
  apply (bool_decide_unpack _). by vm_compute.
Defined.

(** It exports [f], and [g] comes from [q]. *)
Example namespace_read :
  ns_exports (package_namespace namespace_db 0) = ["f"] ∧
  imported_from namespace_db 0 !! "g" = Some "q".
Proof. split; vm_compute; reflexivity. Qed.
