(* ===== verification/Layers.v ===== *)
(** * Import layers: the data of [crates/oak_db/src/file_imports.rs]

    The layers of a file's import chain, the exports of a file
    ([file_exports.rs]) and the source sites ([file_source_site.rs]); and
    [Queries], the answers of the tracked queries that may recover from a
    cycle, which the other queries read. *)

From S2P Require Export Namespace Effects SemanticIndex.
#[local] Open Scope list_scope.

Definition string_of (t : text) : string := String.string_of_list_ascii t.

Lemma string_of_text s : string_of (text_of s) = s.
Proof. apply String.string_of_list_ascii_of_string. Qed.

Lemma text_of_string t : text_of (string_of t) = t.
Proof. apply String.list_ascii_of_string_of_list_ascii. Qed.

(** ** Data *)

Inductive ImportLayer :=
| LFile (f : File)
| LSourcingFile (f : File) (exports_so_far : ExportsAtSource)
| LFrom (p : Package)
| LPackage (p : Package).

(** Cross-file layers visible while a file loads. *)
Record CrossFileLayers := mkCrossFileLayers {
  cl_enclosing : list ImportLayer;
  cl_attaches : list ImportLayer;
  cl_tail : SearchPathTail;
  cl_recovered_source_cycle : bool;
}.

Record FileLoadLayers := mkFileLoadLayers {
  fl_environments : EnvironmentChain;
  fl_current_file : File;
  fl_layers : CrossFileLayers;
}.

Record InheritedLayers := mkInheritedLayers {
  il_file : File;
  il_layers : CrossFileLayers;
}.

Inductive ExportEntry := ExLocal | ExImport (f : File) (name : string).

#[export] Instance ExportEntry_eq_dec : EqDecision ExportEntry.
Proof. solve_decision. Defined.

Definition FileExports : Type := gmap string (list ExportEntry).

Inductive NamespaceVisibility := Exported | Internal_.

#[export] Instance NamespaceVisibility_eq_dec : EqDecision NamespaceVisibility.
Proof. solve_decision. Defined.

(** The answers of the queries that declare a [cycle_result], in one
    revision. *)
Class Queries `{TextRanges, Urls} := {
  q_semantic_index : File → SemanticIndex;
  q_exports : File → FileExports;
  q_attached_packages : File → list string;
  q_cross_file_layers : File → CollationView → FileLoadLayers;
  q_inherited_layers : File → CollationView → list InheritedLayers;
  q_base_binds : Package → string → bool;
}.

Definition DEFAULT_SEARCH_PATH_PACKAGES : list string :=
  ["stats"; "graphics"; "grDevices"; "utils"; "datasets"; "methods"; "base"]%string.

(** ** Layers from inputs *)

Section layers.
Context `{TR : TextRanges} `{HO : HashOrder} `{UO : UrlOps} `{RD : DbReads} `{RP : !RParser}.
Implicit Types (db : Db) (f : File) (p : Package) (view : CollationView).

(** [db.package_by_name(name)] as a layer: a missing package is dropped. *)
Definition package_layer db (name : string) : option ImportLayer :=
  LPackage <$> package_by_name db (text_of name).

Definition package_layers db (names : list string) : list ImportLayer :=
  omap (package_layer db) names.

Definition base_layer db : option ImportLayer := package_layer db "base".

Definition default_search_path_layers db : list ImportLayer :=
  package_layers db DEFAULT_SEARCH_PATH_PACKAGES.

Definition tail_layers db (tail_ : SearchPathTail) : list ImportLayer :=
  match tail_ with
  | TailBase => Shiny.option_list (base_layer db)
  | TailDefault => default_search_path_layers db
  end.

(** [CrossFileLayers::lookup_order]. *)
Definition cross_lookup_order db (l : CrossFileLayers) (own : list ImportLayer) : list ImportLayer :=
  cl_enclosing l ++ own ++ cl_attaches l ++ tail_layers db (cl_tail l).

(** The environment members other than the file itself. *)
Definition environment_layers (l : FileLoadLayers) : list ImportLayer :=
  LFile <$> filter (λ f, f ≠ fl_current_file l) (lookup_files (fl_environments l)).

Definition definition_layers (l : FileLoadLayers) : list ImportLayer :=
  environment_layers l ++ cl_enclosing (fl_layers l).

Definition import_layers (l : FileLoadLayers) : CrossFileLayers :=
  mkCrossFileLayers (definition_layers l) (cl_attaches (fl_layers l)) (cl_tail (fl_layers l)) false.

Definition lookup_order db (l : FileLoadLayers) (own : list ImportLayer) : list ImportLayer :=
  environment_layers l ++ cross_lookup_order db (fl_layers l) own.

(** ** Lowering a load context *)

Definition extend_with_namespace_imports p (ns : Namespace) (layers : list ImportLayer)
    : list ImportLayer :=
  match ns_imports ns with [] => layers | _ => layers ++ [LFrom p] end.

Definition extend_with_namespace_package_imports db (ns : Namespace) (layers : list ImportLayer)
    : list ImportLayer :=
  layers ++ package_layers db (ns_package_imports ns).

Definition lower_load_context db f (context : LoadContext) : FileLoadLayers :=
  let enclosing :=
    match lc_kind context with
    | LoadNamespace p =>
        let ns := package_namespace db p in
        extend_with_namespace_package_imports db ns (extend_with_namespace_imports p ns [])
    | LoadSession => []
    end in
  mkFileLoadLayers (lc_environments context) f
    (mkCrossFileLayers enclosing (package_layers db (lc_implicit_attaches context))
       (search_path_tail (lc_kind context)) false).

Definition set_recovered_source_cycle (l : FileLoadLayers) : FileLoadLayers :=
  let c := fl_layers l in
  mkFileLoadLayers (fl_environments l) (fl_current_file l)
    (mkCrossFileLayers (cl_enclosing c) (cl_attaches c) (cl_tail c) true).

Definition cross_file_layers_fallback db f view : FileLoadLayers :=
  set_recovered_source_cycle (lower_load_context db f (load_context db f view)).

Context `{Q : !Queries}.

(** The attaches of load-order files, latest file first. *)
Definition predecessor_attach_layers db (files : list File) : list ImportLayer :=
  files ≫= λ f, package_layers db (reverse (q_attached_packages f)).

(** The body of [File::cross_file_layers]. *)
Definition cross_file_layers_body db f view : FileLoadLayers :=
  let context := load_context db f view in
  let l := lower_load_context db f context in
  let c := fl_layers l in
  let visible_files := filter (λ member, member ≠ f) (lookup_files (lc_environments context)) in
  mkFileLoadLayers (fl_environments l) (fl_current_file l)
    (mkCrossFileLayers (cl_enclosing c)
       (predecessor_attach_layers db visible_files ++ cl_attaches c) (cl_tail c)
       (cl_recovered_source_cycle c)).
End layers.
