(* ===== verification/Imports.v ===== *)
(** * The resolver of imports: [crates/oak_db/src/imports.rs]

    [SalsaImportsResolver] implements the builder's [ImportsResolver] over the
    database, so that [build_index] runs on a file of the database. *)

From S2P Require Export Layers.
#[local] Open Scope list_scope.

(** The effects a layer gives a name, if it binds it. *)
Inductive LayerBinding `{HandlerTypes} :=
| BFile
| BPackage (package : string) (handlers : option FunctionHandlers).

Section imports.
Context `{TR : TextRanges} `{HO : HashOrder} `{UO : UrlOps} `{RD : DbReads} `{RP : !RParser}.
Context `{HT : HandlerTypes} (registry : list PackageEntry).
Implicit Types (db : Db) (f : File) (p : Package) (name : string).

(** [effects::lookup]. *)
Definition effects_lookup (package name : string) : option FunctionHandlers :=
  lookup_handlers (build_INDEX registry) package name.

Definition package_name db p : string := string_of (p_name (package db p)).

(** ** Paths of [source()] *)

Definition anchor_dir db f : option path :=
  file_path ← file_as_path db f;
  match (r ← file_root virtual_depth db f;
         match r_kind (root db r) with Workspace => Some r | Library => None end) with
  | None => parent file_path
  | Some r =>
      let dirs := filter (λ dir, path_starts_with file_path dir)
                    (omap as_path (r_environment_dirs (root db r))) in
      match last dirs with
      | Some dir => Some dir
      | None => as_path (r_path (root db r))
      end
  end.

(** [normalise_path(&anchor_dir.join(path))]: joining an absolute path
    replaces the anchor. *)
Definition normalise_path (anchor : path) (s : text) : path :=
  foldl normalise_component (if is_absolute s then [] else anchor) (components s).

Definition resolve_relative_to (anchor : path) (s : text) : option FilePath :=
  Some (from_url (url_from_file_path (normalise_path anchor s))).

Definition source_dir_scripts db f (s : text) (walk : DirWalk) : list File :=
  match (anchor ← anchor_dir db f;
         target_path ← resolve_relative_to anchor s;
         as_path target_path) with
  | None => []
  | Some dir =>
      match walk with
      | Shallow => files_in_directory db dir
      | Recursive => files_in_directory_recursive db dir
      end
  end.

(** ** Packages *)

Definition package_exports db p name : bool :=
  if bool_decide (package_name db p = "base"%string) then false
  else SortedVec.contains_str (ns_exports (package_namespace db p)) name.

Definition package_handlers db p name : option FunctionHandlers :=
  match effects_lookup (package_name db p) name with
  | Some handlers => Some handlers
  | None =>
      if package_exports db p name then
        source ← imported_from db p !! name;
        effects_lookup source name
      else None
  end.

Definition own_attach_layers db (attached : list string) : list ImportLayer :=
  package_layers db (reverse attached).

Definition indexes_base db f : bool :=
  match f_package (file db f) with
  | Some p => bool_decide (package_name db p = "base"%string)
  | None => false
  end.

Context `{Q : !Queries}.

(** ** Bindings of layers *)

Definition layer_binding db (layer : ImportLayer) name : option LayerBinding :=
  match layer with
  | LFile f => if bool_decide (is_Some (q_exports f !! name)) then Some BFile else None
  | LSourcingFile f exports_so_far =>
      if Timeline.contains exports_so_far name && bool_decide (is_Some (q_exports f !! name))
      then Some BFile else None
  | LPackage p =>
      let handlers := package_handlers db p name in
      if is_none handlers && negb (package_exports db p name) then None
      else Some (BPackage (package_name db p) handlers)
  | LFrom importer =>
      source ← imported_from db importer !! name;
      Some (BPackage source
        (p ← package_by_name db (text_of source); package_handlers db p name))
  end.

Definition binding_handlers (binding : option LayerBinding) name : option FunctionHandlers :=
  match binding with
  | Some BFile => None
  | Some (BPackage _ handlers) => handlers
  | None => effects_lookup "base" name
  end.

(** [resolve_effect] over given layers. *)
Definition resolve_effect db (layers : list ImportLayer) name : option FunctionHandlers :=
  binding_handlers (first_some (λ layer, layer_binding db layer name) layers) name.

Definition base_binds_body db (base : Package) name : bool :=
  existsb (λ f, bool_decide (is_Some (q_exports f !! name))) (p_files (package db base)).

(** ** The resolver *)

(** The names of a map come in the order of its iteration, and are sorted. *)
Definition source_resolution db f : SourceResolution :=
  mkSourceResolution (to_url (f_path (file db f)))
    (sort_by_key string_le id (hash_order (map_to_list (q_exports f)).*1))
    (q_attached_packages f).

Definition salsa_resolve_source db f (s : string) : option SourceResolution :=
  anchor ← anchor_dir db f;
  target_path ← resolve_relative_to anchor (text_of s);
  target ← file_by_path db target_path;
  Some (source_resolution db target).

Definition salsa_resolve_source_dir db f (s : string) (walk : DirWalk) : list SourceResolution :=
  source_resolution db <$> filter (λ g, g ≠ f) (source_dir_scripts db f (text_of s) walk).

Definition resolve_effects_uncached db f name (attached : list string) : option FunctionHandlers :=
  resolve_effect db (lookup_order db (q_cross_file_layers f VEager) (own_attach_layers db attached))
    name.

Definition base_binding_package db f name : option string :=
  if indexes_base db f then None
  else
    base ← package_by_name db (text_of "base");
    if q_base_binds base name then Some "base"%string else None.

Definition salsa_binding_package db f name (attached : list string) : option string :=
  match first_some (λ layer, layer_binding db layer name)
          (lookup_order db (q_cross_file_layers f VEager) (own_attach_layers db attached)) with
  | Some BFile => None
  | Some (BPackage package _) =>
      if bool_decide (package = "base"%string) && indexes_base db f then None else Some package
  | None => base_binding_package db f name
  end.

(** [resolve_qualified_effects] is the default of the trait. *)
Definition SalsaImportsResolver db f : ImportsResolver := {|
  resolve_source := salsa_resolve_source db f;
  resolve_source_dir := salsa_resolve_source_dir db f;
  resolver_resolve_effects := resolve_effects_uncached db f;
  resolver_resolve_qualified_effects := effects_lookup;
  binding_package := salsa_binding_package db f;
  package_exists name := bool_decide (is_Some (package_by_name db (text_of name)));
  REGISTRY := registry;
|}.

(** ** The cache of effects *)

Definition EffectsCache : Type :=
  gmap (list string) (gmap string (option FunctionHandlers)).

Definition cache_get (cache : EffectsCache) name (attached : list string)
    : option (option FunctionHandlers) :=
  by_name ← cache !! attached; by_name !! name.

Definition cache_insert (cache : EffectsCache) name (attached : list string)
    (effects : option FunctionHandlers) : EffectsCache :=
  <[attached := <[name := effects]> (default ∅ (cache !! attached))]> cache.

(** [resolve_effects], with the cache of the resolver. *)
Definition resolve_effects db f name (attached : list string) (cache : EffectsCache)
    : option FunctionHandlers * EffectsCache :=
  match cache_get cache name attached with
  | Some effects => (effects, cache)
  | None =>
      let effects := resolve_effects_uncached db f name attached in
      (effects, cache_insert cache name attached effects)
  end.
End imports.
