(* ===== verification/FileImports.v ===== *)
(** * Queries of a file over other files: [crates/oak_db/src/file_imports.rs]

    Exports ([file_exports.rs]), source sites ([file_source_site.rs]), and what
    a file sees of the files around it: its attaches, what it inherits from the
    files that source it, and its import layers. [None] is a panic. *)

From S2P Require Export Imports.
#[local] Open Scope list_scope.

(** A [source()] call, from the file it is in to the file it names. *)
Record SourceSite := mkSourceSite {
  ss_file : File;
  ss_target : option File;
  ss_path : string;
  ss_offset : N;
  ss_scope : nat;
}.

(** Which of a file's own attaches a caller sees. *)
Inductive AttachView :=
| VAnywhere
| VEof
| VLazyAt (offset : N) (scope_id : nat)
| VEagerAt (offsets : list N).

Record ImportView := mkImportView { iv_collation : CollationView; iv_attaches : AttachView }.

Definition DEFERRED : ImportView := mkImportView VDeferred VEof.

Section file_imports.
Context `{TR : TextRanges} `{HO : HashOrder} `{UO : UrlOps} `{RD : DbReads} `{RP : !RParser}.
Context `{Q : !Queries}.
Implicit Types (db : Db) (f : File) (view : CollationView).

(** ** Exports *)

(** One definition of a name: [None] is [continue]. *)
Definition export_entry db (def : Definition_) : option ExportEntry :=
  match def_kind def with
  | DImport _ target_url target_name =>
      target ← file_by_path db (from_url target_url); Some (ExImport target target_name)
  | _ => Some ExLocal
  end.

Definition export_entries db (defs : list (nat * Definition_)) : list ExportEntry :=
  foldl (λ list_ '(_, def),
    match export_entry db def with
    | None => list_
    | Some entry => if bool_decide (entry ∈ list_) then list_ else list_ ++ [entry]
    end) [] defs.

Definition exports_body db f : option FileExports :=
  all ← exports (q_semantic_index f); Some (fmap (M := gmap string) (export_entries db) all).

Definition attached_packages_body f : option (list string) :=
  attached_packages (q_semantic_index f).

(** [File::export_is_bound]. *)
Definition file_export_is_bound f (name : string) : option bool :=
  export_is_bound (q_semantic_index f) name.

(** ** Source sites *)

Definition source_site db f (call : SemanticCall) : option SourceSite :=
  match call_kind call with
  | Attach _ _ => None
  | Source path resolved =>
      let target := url ← resolved; file_by_path db (from_url url) in
      Some (mkSourceSite f target path (call_offset call) (call_scope call))
  end.

Definition source_sites db f : list SourceSite :=
  omap (source_site db f) (ix_semantic_calls (q_semantic_index f)).

(** [sort_by_cached_key(|file| file.path(db).to_string())], then [dedup]. *)
Definition sort_files db (l : list File) : list File :=
  vec_dedup_by (λ a b, bool_decide (a = b))
    (sort_by_key text_le (λ f, path_string (f_path (file db f))) l).

Definition source_targets db f : list File := sort_files db (omap ss_target (source_sites db f)).

Definition push_sourcing db (by_target : gmap File (list File)) f : gmap File (list File) :=
  foldl (λ m target, <[target := default [] (m !! target) ++ [f]]> m) by_target
    (source_targets db f).

Definition sourcing_files_by_target db : gmap File (list File) :=
  fmap (M := gmap File) (sort_files db) (foldl (push_sourcing db) ∅ (workspace_files virtual_depth db)).

Definition sourced_by db f : list File := default [] (sourcing_files_by_target db !! f).

(** ** Own attaches *)

Definition sees (view : AttachView) (ix : SemanticIndex) (call : SemanticCall)
    (region : AttachRegion) : option bool :=
  match view with
  | VAnywhere => Some true
  | VEof =>
      eager ← scope_is_eager ix (call_scope call);
      Some (eager && match region with Unconditional => true | Conditional _ => false end)
  | VLazyAt offset scope =>
      lazy ← enclosing_lazy_scope (ix_scopes ix) (call_scope call);
      match lazy with
      | None =>
          Some (match region with
                | Unconditional => true
                | Conditional _ => region_contains region call offset
                end)
      | Some unit_ =>
          ancestors ← ancestor_scope_ids (ix_scopes ix) scope;
          Some (bool_decide (unit_ ∈ ancestors) && region_contains region call offset)
      end
  | VEagerAt offsets =>
      eager ← scope_is_eager ix (call_scope call);
      Some (eager && existsb (λ offset, region_contains region call offset) offsets)
  end.

Definition attach_of (call : SemanticCall) : option (SemanticCall * string * AttachRegion) :=
  match call_kind call with
  | Attach package region => Some (call, package, region)
  | Source _ _ => None
  end.

Definition attach_layers db f (view : AttachView) : option (list ImportLayer) :=
  let ix := q_semantic_index f in
  seen ← mapM (λ '(call, package, region), s ← sees view ix call region; Some (s, package))
           (omap attach_of (reverse (ix_semantic_calls ix)));
  Some (omap (λ '(s, package), if s : bool then package_layer db package else None) seen).

(** ** Inherited layers *)

(** [Some None] leaves the context unpinned. *)
Fixpoint source_offsets_from (ix : SemanticIndex) f (sites : list SourceSite) (offsets : list N)
    : option (option (list N)) :=
  match sites with
  | [] => Some (match offsets with [] => None | _ => Some offsets end)
  | site :: sites =>
      if bool_decide (ss_target site ≠ Some f) then source_offsets_from ix f sites offsets
      else
        eager ← scope_is_eager ix (ss_scope site);
        if eager : bool then source_offsets_from ix f sites (offsets ++ [ss_offset site])
        else Some None
  end.

Definition source_offsets db (sourcing_file f : File) : option (option (list N)) :=
  source_offsets_from (q_semantic_index sourcing_file) f (source_sites db sourcing_file) [].

Definition loaded_before db (source_file f : File) (offsets : list N) : list File :=
  let sites := source_sites db source_file in
  foldl (λ loaded offset,
    let targets := omap ss_target (filter (λ site, ss_offset site = offset) sites) in
    match position (λ target, target = f) targets with
    | None => loaded
    | Some own => push_new (reverse (take own targets)) loaded
    end) [] (reverse offsets).

Definition pinned_offsets db f (source_site : File) view : option (option (list N)) :=
  match view with VDeferred => Some None | VEager => source_offsets db source_site f end.

(** [(own_attach, exports_so_far)]. *)
Definition site_attaches db (source_site : File) view (offsets : option (list N))
    : option (list ImportLayer * option ExportsAtSource) :=
  match offsets with
  | Some offsets =>
      own ← attach_layers db source_site (VEagerAt offsets);
      Some (own, index_exports_at_sources (q_semantic_index source_site) offsets)
  | None =>
      own ← attach_layers db source_site
              (match view with VDeferred => VEof | VEager => VAnywhere end);
      Some (own, None)
  end.

Definition build_inherited_layers db f (source_site : File) view : option InheritedLayers :=
  offsets ← pinned_offsets db f source_site view;
  let own_cross := q_cross_file_layers source_site view in
  let grandparents := q_inherited_layers source_site view in
  '(own_attach, exports_so_far) ← site_attaches db source_site view offsets;
  let source_layer :=
    match exports_so_far with
    | Some exports_so_far => LSourcingFile source_site exports_so_far
    | None => LFile source_site
    end in
  let before :=
    match offsets with
    | Some offsets => LFile <$> loaded_before db source_site f offsets
    | None => []
    end in
  Some (mkInheritedLayers source_site (mkCrossFileLayers
    (before ++ [source_layer] ++ definition_layers own_cross ++
     (grandparents ≫= λ site, cl_enclosing (il_layers site)))
    (own_attach ++ (grandparents ≫= λ site, cl_attaches (il_layers site)) ++
     cl_attaches (fl_layers own_cross))
    (cl_tail (fl_layers own_cross)) false)).

(** The body of [File::inherited_layers]. *)
Definition inherited_layers_body db f view : option (list InheritedLayers) :=
  if fixes_load_order (lc_kind (load_context db f view)) then Some []
  else mapM (λ sourcing_file, build_inherited_layers db f sourcing_file view) (sourced_by db f).

(** ** Imports *)

(** [ImportView::at]. *)
Definition import_view_at (ix : SemanticIndex) (offset : N) : option ImportView :=
  cursor_scope ← scope_at (ix_scopes ix) offset;
  eager ← scope_is_eager ix cursor_scope;
  Some (if eager : bool then mkImportView VEager (VEagerAt [offset])
        else mkImportView VDeferred (VLazyAt offset cursor_scope)).

Definition layers_by_sourcing_file f view : list CrossFileLayers :=
  import_layers (q_cross_file_layers f view) :: (il_layers <$> q_inherited_layers f view).

Definition resolution_layers f view : CrossFileLayers :=
  match q_inherited_layers f view with
  | [] => import_layers (q_cross_file_layers f view)
  | _ =>
      let l := layers_by_sourcing_file f view in
      mkCrossFileLayers (l ≫= cl_enclosing) (l ≫= cl_attaches) TailDefault false
  end.

Definition imports_in db f (view : ImportView) : option (list ImportLayer) :=
  let layers := resolution_layers f (iv_collation view) in
  own ← attach_layers db f (iv_attaches view);
  Some (cross_lookup_order db layers own).

Definition file_imports db f : option (list ImportLayer) := imports_in db f DEFERRED.

Definition file_imports_at db f (offset : N) : option (list ImportLayer) :=
  view ← import_view_at (q_semantic_index f) offset; imports_in db f view.

Definition loader_fallback_in db f (view : ImportView) : option (list ImportLayer) :=
  let layers := fl_layers (q_cross_file_layers f (iv_collation view)) in
  own ← attach_layers db f (iv_attaches view);
  Some (cross_lookup_order db layers own).

Definition loader_fallback db f : option (list ImportLayer) := loader_fallback_in db f DEFERRED.

Definition loader_fallback_at db f (offset : N) : option (list ImportLayer) :=
  view ← import_view_at (q_semantic_index f) offset; loader_fallback_in db f view.

Definition imports_by_sourcing_file_in db f (view : ImportView)
    : option (list (list ImportLayer)) :=
  match q_inherited_layers f (iv_collation view) with
  | [] => Some []
  | inherited =>
      own ← attach_layers db f (iv_attaches view);
      Some ((λ site, cross_lookup_order db (il_layers site) own) <$> inherited)
  end.

Definition imports_by_sourcing_file db f : option (list (list ImportLayer)) :=
  imports_by_sourcing_file_in db f DEFERRED.

Definition imports_by_sourcing_file_at db f (offset : N) : option (list (list ImportLayer)) :=
  view ← import_view_at (q_semantic_index f) offset; imports_by_sourcing_file_in db f view.

Definition inherited_imports_by_sourcing_file db f : option (list (File * list ImportLayer)) :=
  own ← attach_layers db f VAnywhere;
  Some ((λ site, (il_file site, cross_lookup_order db (il_layers site) own)) <$>
    q_inherited_layers f VDeferred).

Definition standalone_imports db f : option (list ImportLayer) :=
  own ← attach_layers db f VAnywhere;
  Some (lookup_order db (q_cross_file_layers f VDeferred) own).
End file_imports.
