(* ===== verification/FileResolve.v ===== *)
(** * Name resolution across files: [crates/oak_db/src/file_resolve.rs]

    Definitions as entities ([definition.rs]), the chase of [source()] forwards
    ([resolve_export]), the lookup through environments and layers ([resolve],
    [resolve_at]) and through packages ([package_resolve.rs]). [None] is a
    panic; the chase runs in [M], with the fuel that [export_fuel] gives. *)

From S2P Require Export FileImports.
#[local] Open Scope list_scope.

(** A tracked struct of salsa: its identity is the file, scope and name, and
    the number of earlier definitions of the same identity in the query that
    creates it. *)
Record Definition' := mkDefinition' {
  d_file : File;
  d_scope : nat;
  d_name : string;
  d_nth : nat;
}.

#[export] Instance Definition'_eq_dec : EqDecision Definition'.
Proof. solve_decision. Defined.

Section file_resolve.
Context `{TR : TextRanges} `{HO : HashOrder} `{UO : UrlOps} `{RD : DbReads} `{RP : !RParser}.
Context `{Q : !Queries}.
Implicit Types (db : Db) (f : File) (name : string) (view : CollationView).

(** ** Definitions *)

(** The definitions of a scope, with how many came before under a name. *)
Fixpoint mint (f : File) (scope_id : nat) (table : SymbolTable) (seen : list string)
    (defs : list (nat * Definition_)) (by_site : gmap (nat * nat) Definition')
    : option (gmap (nat * nat) Definition') :=
  match defs with
  | [] => Some by_site
  | (def_id, def) :: defs =>
      s ← SymbolTable.symbol table (def_symbol def);
      let name := symbol_name s in
      let nth := length (filter (name =.) seen) in
      mint f scope_id table (seen ++ [name]) defs
        (<[(scope_id, def_id) := mkDefinition' f scope_id name nth]> by_site)
  end.

(** [File::definitions]. *)
Definition definitions_in f : option (gmap (nat * nat) Definition') :=
  let ix := q_semantic_index f in
  foldM (λ scope_id by_site,
    table ← IndexVec.index (ix_symbol_tables ix) scope_id;
    defs ← IndexVec.index (ix_definitions ix) scope_id;
    mint f scope_id table [] (IndexVec.iter defs) by_site)
    (seq 0 (length (ix_scopes ix))) ∅.

Definition file_definition f (scope_id def_id : nat) : option (option Definition') :=
  by_site ← definitions_in f; Some (by_site !! (scope_id, def_id)).

(** ** Chasing exports *)

Definition is_import (def : Definition_) : bool :=
  match def_kind def with DImport _ _ _ => true | _ => false end.

(** What a [Local] marker stands for. *)
Definition local_definitions f name : option (list Definition') :=
  found ← export (q_semantic_index f) name;
  minted ← mapM (λ '(def_id, def),
    if is_import def then Some None else file_definition f 0 def_id) found;
  Some (omap id minted).

(** The state of the chase: [visited] and [results]. *)
Definition Chase : Type := gset (File * string) * list Definition'.

Definition collect_entry (collect : File → string → M Chase ()) f name (entry : ExportEntry)
    : M Chase () :=
  match entry with
  | ExLocal =>
      found ← try_get (λ _, local_definitions f name);
      modify (λ '(visited, results), (visited, results ++ found))
  | ExImport file forwarded => collect file forwarded
  end.

Fixpoint collect_exports (fuel : nat) f name : M Chase () :=
  match fuel with
  | 0 => out_of_fuel
  | S fuel =>
      fresh ← gets (λ st : Chase, bool_decide ((f, name) ∉ st.1));
      when fresh
        (modify (λ '(visited, results), ({[(f, name)]} ∪ visited, results));;
         if_some (q_exports f !! name) (λ entries,
           for_each entries (collect_entry (collect_exports fuel) f name)))
  end.

(** More than the keys the files of the database export. *)
Definition export_keys db : gset (File * string) :=
  ⋃ ((λ f, set_map (pair f) (dom (q_exports f))) <$> seq 0 (length (files db))).

Definition export_fuel db : nat := S (S (size (export_keys db))).

Definition resolve_export db f name : option (list Definition') :=
  match collect_exports (export_fuel db) f name (∅, []) with
  | Done _ (_, results) => Some results
  | _ => None
  end.

(** ** Packages *)

(** The re-exports followed so far are [visited]: salsa recovers from a key
    asked again with no candidates, which every query of the cycle then
    returns. *)
Fixpoint package_resolve_from (fuel : nat) db (p : Package) name
    (visibility : NamespaceVisibility) : option (list Definition') :=
  match fuel with
  | 0 => Some []
  | S fuel =>
      if bool_decide (visibility = Exported) &&
         negb (bool_decide (package_name db p = "base"%string)) &&
         negb (SortedVec.contains_str (ns_exports (package_namespace db p)) name)
      then Some []
      else
        results ← mapM (λ f, resolve_export db f name) (p_files (package db p));
        match concat results with
        | [] =>
            match (source_name ← imported_from db p !! name;
                   package_by_name db (text_of source_name)) with
            | Some source => package_resolve_from fuel db source name Exported
            | None => Some []
            end
        | results => Some results
        end
  end.

(** More packages than the database has: only a cycle is cut. *)
Definition package_resolve db (p : Package) name (visibility : NamespaceVisibility)
    : option (list Definition') :=
  package_resolve_from (S (S (length (packages db)))) db p name visibility.

(** ** Layers *)

Definition extend_definitions (candidates definitions : list Definition') : list Definition' :=
  foldl (λ acc def, if bool_decide (def ∈ acc) then acc else acc ++ [def]) definitions candidates.

Definition resolve_import_layer db (layer : ImportLayer) name : option (list Definition') :=
  match layer with
  | LFile f => resolve_export db f name
  | LSourcingFile f exports_so_far =>
      if Timeline.contains exports_so_far name then resolve_export db f name else Some []
  | LPackage p => package_resolve db p name Exported
  | LFrom importer =>
      match (source ← imported_from db importer !! name;
             package_by_name db (text_of source)) with
      | Some p => package_resolve db p name Exported
      | None => Some []
      end
  end.

(** Whether a layer that has definitions ends the lookup. *)
Definition layer_is_bound (layer : ImportLayer) name : option bool :=
  match layer with LFile f => file_export_is_bound f name | _ => Some true end.

(** The candidates with the new ones, and whether a layer ended the lookup. *)
Fixpoint resolve_import_layers db (layers : list ImportLayer) name
    (definitions : list Definition') : option (bool * list Definition') :=
  match layers with
  | [] => Some (false, definitions)
  | layer :: layers =>
      defs ← resolve_import_layer db layer name;
      match defs with
      | [] => resolve_import_layers db layers name definitions
      | _ =>
          let definitions := extend_definitions defs definitions in
          bound ← layer_is_bound layer name;
          if bound : bool then Some (true, definitions)
          else resolve_import_layers db layers name definitions
      end
  end.

Fixpoint resolve_members db (current_file : File) (members : list File) name
    (own : list Definition') (own_bound : bool) (definitions : list Definition')
    : option (bool * list Definition') :=
  match members with
  | [] => Some (false, definitions)
  | member :: members =>
      if bool_decide (member = current_file) then
        let definitions := extend_definitions own definitions in
        if own_bound then Some (true, definitions)
        else resolve_members db current_file members name own own_bound definitions
      else
        '(bound, definitions) ← resolve_import_layers db [LFile member] name definitions;
        if bound : bool then Some (true, definitions)
        else resolve_members db current_file members name own own_bound definitions
  end.

Definition resolve_environments db f view name (own : list Definition') (own_bound : bool)
    (definitions : list Definition') : option (bool * list Definition') :=
  let layers := q_cross_file_layers f view in
  resolve_members db (fl_current_file layers) (lookup_files (fl_environments layers)) name
    own own_bound definitions.

Definition resolve_per_sourcing_file db (contexts : list (list ImportLayer)) name
    (definitions : list Definition') : option (list Definition') :=
  foldM (λ context definitions,
    snd <$> resolve_import_layers db context name definitions) contexts definitions.

(** ** Lookups *)

(** What [resolve] and [resolve_at] do once they have their own definitions:
    the environments, the fallback of the loader, the sourcing files. *)
Definition resolve_beyond db f view name (own : list Definition') (own_bound : bool)
    (fallback : option (list ImportLayer)) (by_sourcing : option (list (list ImportLayer)))
    (definitions : list Definition') : option (list Definition') :=
  '(environment_bound, definitions) ←
    resolve_environments db f view name own own_bound definitions;
  if environment_bound && own_bound then Some definitions
  else
    definitions ←
      (if environment_bound : bool then Some definitions
       else layers ← fallback; snd <$> resolve_import_layers db layers name definitions);
    if own_bound then Some definitions
    else contexts ← by_sourcing; resolve_per_sourcing_file db contexts name definitions.

(** [File::resolve]. *)
Definition file_resolve db f name : option (list Definition') :=
  own_bound ← file_export_is_bound f name;
  own ← resolve_export db f name;
  resolve_beyond db f VDeferred name own own_bound (loader_fallback db f)
    (imports_by_sourcing_file db f) [].

Definition resolve_definition db f (scope_id def_id : nat) : option (list Definition') :=
  let ix := q_semantic_index f in
  defs ← IndexVec.index (ix_definitions ix) scope_id;
  def ← IndexVec.index defs def_id;
  match def_kind def with
  | DImport _ target_url forwarded =>
      match file_by_path db (from_url target_url) with
      | None => Some []
      | Some target => resolve_export db target forwarded
      end
  | _ => Shiny.option_list <$> file_definition f scope_id def_id
  end.

Definition resolve_definitions db f (sites : list (nat * nat)) : option (list Definition') :=
  found ← mapM (λ '(scope_id, def_id), resolve_definition db f scope_id def_id) sites;
  Some (concat found).

(** [File::resolve_at] on a use. *)
Definition resolve_use db f (offset : N) (use_scope use_id : nat) (use_site : Use TextRange)
    : option (list Definition') :=
  let ix := q_semantic_index f in
  table ← IndexVec.index (ix_symbol_tables ix) use_scope;
  s ← SymbolTable.symbol table (use_symbol use_site);
  let name := symbol_name s in
  reaching ← reaching_definitions ix use_scope use_id;
  let globals := filter (λ site, site.1 = 0) reaching in
  let lexical := filter (λ site, site.1 ≠ 0) reaching in
  definitions ← resolve_definitions db f lexical;
  own_bound ← use_is_bound ix use_scope use_id;
  if own_bound && bool_decide (globals = []) then Some definitions
  else
    eager ← scope_is_eager ix use_scope;
    own ← resolve_definitions db f globals;
    resolve_beyond db f (if eager : bool then VEager else VDeferred) name own own_bound
      (loader_fallback_at db f offset) (imports_by_sourcing_file_at db f offset) definitions.

Definition file_resolve_at db f (offset : N) : option (list Definition') :=
  let ix := q_semantic_index f in
  use ← use_at ix offset;
  match use with
  | Some (use_scope, use_id, use_site) => resolve_use db f offset use_scope use_id use_site
  | None =>
      found ← definition_at ix offset;
      match found with
      | Some (scope, def_id, _) => Shiny.option_list <$> file_definition f scope def_id
      | None => Some []
      end
  end.
End file_resolve.
