(* ===== verification/Ide.v ===== *)
(** * Queries of the editor: [crates/oak_ide] and [crates/oak_db/src/identifier.rs]

    The dependencies of a workspace ([workspace.rs]) and the files a search
    reads ([db.rs]); the identifier at a cursor; the names of definitions
    ([definition.rs]); references, rename and goto definition. [None] is a
    panic; the queries salsa answers are read from [Queries]. *)

From S2P Require Export Identifiers FileResolve Metadata.
#[local] Open Scope list_scope.

#[export] Instance RootKind_eq_dec : EqDecision RootKind.
Proof. solve_decision. Defined.

(** ** Dependencies: [workspace.rs], [file.rs] and [db.rs] *)

Section workspace.
Context `{TR : TextRanges} `{HO : HashOrder} `{UO : UrlOps} `{RD : DbReads} `{RP : !RParser}.
Context `{Q : !Queries}.
Implicit Types (db : Db) (f : File).

(** [sort], then [dedup], of names. *)
Definition sort_names (names : list string) : list string :=
  vec_dedup_by (λ a b, bool_decide (a = b)) (sort_by_key string_le id names).

Definition namespace_accessed_packages f : list string :=
  sort_names (na_package <$> ix_namespace_accesses (q_semantic_index f)).

Definition used_packages f : list string :=
  sort_names (attached_packages_anywhere (q_semantic_index f) ++ namespace_accessed_packages f).

Definition as_package db (name : string) : option Package :=
  package ← package_by_name db (text_of name);
  root_ ← root_by_package virtual_depth db package;
  if bool_decide (r_kind (root db root_) = Library) then Some package else None.

Definition as_packages db (names : list string) : list Package := omap (as_package db) names.

Definition all_workspace_file_dependencies db : list Package :=
  as_packages db (sort_names (workspace_files virtual_depth db ≫= used_packages)).

Definition all_workspace_loader_dependencies db : list Package :=
  as_packages db (sort_names (workspace_files virtual_depth db ≫=
    λ f, lc_implicit_attaches (load_context db f VDeferred))).

Definition workspace_packages db : list Package :=
  workspace_roots db ≫= λ r, r_packages (root db r).

Definition all_workspace_package_dependencies db : option (list Package) :=
  descriptions ← mapM (package_description db) (workspace_packages db);
  Some (as_packages db (sort_names (string_of <$>
    (descriptions ≫= λ description,
       match description with
       | Some d => Description.depends d ++ Description.imports d
       | None => []
       end)))).

Definition default_search_path_packages db : list Package := as_packages db DEFAULT_SEARCH_PATH_PACKAGES.

Definition all_package_dependencies db : option (list Package) :=
  from_packages ← all_workspace_package_dependencies db;
  let packages := all_workspace_file_dependencies db ++ all_workspace_loader_dependencies db ++
                  from_packages ++ default_search_path_packages db in
  let name p := p_name (package db p) in
  Some (vec_dedup_by (λ a b, bool_decide (name a = name b)) (sort_by_key text_le name packages)).

(** [push_root_files], with and without the set of dependencies. *)
Definition used_root_listing db (dependencies : option (list Package)) (r : Root) : list File :=
  let used p := match dependencies with None => true | Some l => bool_decide (p ∈ l) end in
  r_scripts (root db r) ++ (filter (λ p, used p = true) (r_packages (root db r)) ≫= package_listing db).

Definition all_used_files db : option (list File) :=
  dependencies ← all_package_dependencies db;
  Some (foldl (λ files l,
    match l with
    | LWorkspace r => push_new (used_root_listing db None r) files
    | LLibrary r => push_new (used_root_listing db (Some dependencies) r) files
    | LOrphan => push_new (hash_order (elements (orphan_files db))) files
    end) [] (live_roots db)).
End workspace.

(** ** Tokens and nodes

    The syntax tree ([biome_rowan], [aether_syntax]) is third-party; a tree is
    known by the text it was parsed from. A node has the results of the
    accessors that are called on it. *)

Module Kind.
Inductive SyntaxKind := IDENT | R_STRING_LITERAL | COLON2 | COLON3 | DOLLAR | AT
| ASSIGN_RIGHT | SUPER_ASSIGN_RIGHT | OTHER.
End Kind.

#[export] Instance SyntaxKind_eq_dec : EqDecision Kind.SyntaxKind.
Proof. solve_decision. Defined.

Section nodes.
Context `{TextRanges}.

Record SyntaxToken := mkSyntaxToken {
  tk_kind : Kind.SyntaxKind;
  tk_range : TextRange;
  tk_text : text;
}.

Inductive TokenAtOffset :=
| NoToken
| Single (token : SyntaxToken)
| Between (left_ right_ : SyntaxToken).

(** [AnyRSelector]; a string has its token, if the tree has one. *)
Inductive Selector :=
| SelIdentifier (node_text : text) (range : TextRange)
| SelString (token_text : option text) (range : TextRange)
| SelDots (range : TextRange)
| SelDotDotI (range : TextRange).

Definition selector_range (s : Selector) : TextRange :=
  match s with SelIdentifier _ r | SelString _ r | SelDots r | SelDotDotI r => r end.

Record ExtractNode := mkExtract { en_operator : option SyntaxToken; en_right : option Selector }.
Record NamespaceNode := mkNamespaceNode {
  nn_left : option Selector;
  nn_operator : option SyntaxToken;
  nn_right : option Selector;
}.
Record BinaryNode := mkBinary {
  bn_operator : option Kind.SyntaxKind;
  bn_left : option TextRange;
  bn_right : option TextRange;
}.

(** [extract_of] and [namespace_of] are the casts of [token.parent()?.parent()?];
    the lists are the casts of [root.descendants()]. Looking behind the end of
    the text panics. The token of a string has its quotes. *)
Class SyntaxTree := {
  token_at_offset : text → N → option TokenAtOffset;
  next_token : text → SyntaxToken → option SyntaxToken;
  extract_of : text → SyntaxToken → option ExtractNode;
  namespace_of : text → SyntaxToken → option NamespaceNode;
  extract_nodes : text → list ExtractNode;
  namespace_nodes : text → list NamespaceNode;
  binary_node : text → AstPtr → BinaryNode;
  parameter_name_range : text → AstPtr → option TextRange;
  for_variable_range : text → AstPtr → option TextRange;
  ptr_range : text → AstPtr → TextRange;
}.

(** [AnyRSelectorExt::identifier_text]. *)
Definition identifier_text (s : Selector) : option (option text) :=
  match s with
  | SelIdentifier t _ => Some (Some (name_text t))
  | SelString (Some t) _ => Some <$> string_text t
  | SelString None _ | SelDots _ | SelDotDotI _ => Some None
  end.
End nodes.

(** ** Identifiers: [identifier.rs] *)

Inductive MemberKind := Dollar | At.
#[export] Instance MemberKind_eq_dec : EqDecision MemberKind.
Proof. solve_decision. Defined.

Inductive NameSpelling := Spelled | Quoted (delimiter : ascii) | RawString.

Section identifiers.
Context `{TR : TextRanges} `{HO : HashOrder} `{UO : UrlOps} `{RD : DbReads} `{RP : !RParser}.
Context `{Q : !Queries} `{SX : !SyntaxTree}.
Implicit Types (db : Db) (f : File) (source : text).

Inductive Identifier :=
| IdVariable (name : string) (range : TextRange)
| IdMember (name : string) (kind : MemberKind) (operator_range name_range : TextRange)
| IdNamespace (package name : string) (visibility : NamespaceVisibility).

Definition is_name_token (t : SyntaxToken) : bool :=
  match tk_kind t with Kind.IDENT | Kind.R_STRING_LITERAL => true | _ => false end.

Definition name_token (t : SyntaxToken) : option SyntaxToken := if is_name_token t then Some t else None.

Definition snap_to_name_token source (offset : N) : option (option SyntaxToken) :=
  at_offset ← token_at_offset source offset;
  Some (match at_offset with
        | NoToken => None
        | Single token =>
            if is_name_token token then Some token
            else match tk_kind token with
                 | Kind.COLON2 | Kind.COLON3 => next_token source token ≫= name_token
                 | _ => None
                 end
        | Between left_ right_ =>
            if is_name_token left_ then Some left_
            else if is_name_token right_ then Some right_ else None
        end).

Definition member_kind (kind : Kind.SyntaxKind) : option MemberKind :=
  match kind with Kind.DOLLAR => Some Dollar | Kind.AT => Some At | _ => None end.

(** [identifier_text()] of a selector, if there is one; [?] on what is not there
    answers nothing. *)
Definition opt_identifier_text (s : option Selector) : option (option string) :=
  match s with
  | None => Some None
  | Some s => option_map string_of <$> identifier_text s
  end.

Definition classify_member source (token : SyntaxToken) : option (option Identifier) :=
  match (extract ← extract_of source token; op ← en_operator extract;
         if bool_decide (range_start (tk_range token) < range_end (tk_range op))%N then None
         else kind ← member_kind (tk_kind op); right_ ← en_right extract; Some (op, kind, right_)) with
  | None => Some None
  | Some (op, kind, right_) =>
      name ← opt_identifier_text (Some right_);
      Some (name ← name; Some (IdMember name kind (tk_range op) (selector_range right_)))
  end.

Definition visibility_of (op : SyntaxToken) : option NamespaceVisibility :=
  if bool_decide (tk_text op = text_of "::") then Some Exported
  else if bool_decide (tk_text op = text_of ":::") then Some Internal_ else None.

Definition classify_namespace source (token : SyntaxToken) : option (option Identifier) :=
  match namespace_of source token with
  | None => Some None
  | Some node =>
      package ← opt_identifier_text (nn_left node);
      match package with
      | None => Some None
      | Some package =>
          name ← opt_identifier_text (nn_right node);
          Some (name ← name; op ← nn_operator node; visibility ← visibility_of op;
                Some (IdNamespace package name visibility))
      end
  end.

Definition symbol_name_at f (scope_id symbol : nat) : option string :=
  table ← IndexVec.index (ix_symbol_tables (q_semantic_index f)) scope_id;
  symbol_name <$> SymbolTable.symbol table symbol.

(** The variable the semantic index knows at an offset. *)
Definition classify_variable f (offset : N) : option (option Identifier) :=
  use ← use_at (q_semantic_index f) offset;
  match use with
  | Some (scope_id, _, use_site) =>
      name ← symbol_name_at f scope_id (use_symbol use_site);
      Some (Some (IdVariable name (use_range use_site)))
  | None =>
      found ← definition_at (q_semantic_index f) offset;
      match found with
      | Some (scope_id, _, def) =>
          name ← symbol_name_at f scope_id (def_symbol def);
          Some (Some (IdVariable name (def_range def)))
      | None => Some None
      end
  end.

(** [Identifier::classify]. *)
Definition classify db f (offset : N) : option (option Identifier) :=
  let source := source_text db f in
  token ← snap_to_name_token source offset;
  match token with
  | None => Some None
  | Some token =>
      variable ← classify_variable f (range_start (tk_range token));
      match variable with
      | Some identifier => Some (Some identifier)
      | None =>
          member ← classify_member source token;
          match member with
          | Some identifier => Some (Some identifier)
          | None => classify_namespace source token
          end
      end
  end.

Definition resolve_variable_at db f (offset : N)
    : option (option (string * TextRange * list Definition')) :=
  identifier ← classify db f offset;
  match identifier with
  | Some (IdVariable name range) =>
      defs ← file_resolve_at db f (range_start range);
      Some (Some (name, range, defs))
  | _ => Some None
  end.

Definition name_spelling_at db f (range : TextRange) : option (option NameSpelling) :=
  at_offset ← token_at_offset (source_text db f) (range_start range);
  let token := match at_offset with NoToken => None | Single t => Some t | Between _ r => Some r end in
  Some (token ← token;
        if negb (is_name_token token) || negb (bool_decide (tk_range token = range)) then None
        else if bool_decide (tk_kind token = Kind.IDENT) then Some Spelled
        else
          first ← head (chars (tk_text token));
          Some (match first with
                | [c] => if bool_decide (c ∈ quotes) then Quoted c else RawString
                | _ => RawString
                end)).

(** [File::uses_of]. *)
Definition file_uses_of f (name : string) : option (list TextRange) :=
  uses ← uses_of (q_semantic_index f) name;
  Some (map (λ '(_, _, use), use_range use) uses).

Definition member_use (name : string) (kind : MemberKind) (node : ExtractNode) : option (option TextRange) :=
  match (op ← en_operator node; op_kind ← member_kind (tk_kind op);
         if bool_decide (op_kind = kind) then en_right node else None) with
  | None => Some None
  | Some right_ =>
      right_name ← opt_identifier_text (Some right_);
      Some (if bool_decide (right_name = Some name) then Some (selector_range right_) else None)
  end.

Definition member_uses_of db f (name : string) (kind : MemberKind) : option (list TextRange) :=
  found ← mapM (member_use name kind) (extract_nodes (source_text db f));
  Some (omap id found).

Definition namespace_use (namespace name : string) (node : NamespaceNode) : option (option TextRange) :=
  left_name ← opt_identifier_text (nn_left node);
  if bool_decide (left_name = Some namespace) then
    match nn_right node with
    | None => Some None
    | Some right_ =>
        right_name ← opt_identifier_text (Some right_);
        Some (if bool_decide (right_name = Some name) then Some (selector_range right_) else None)
    end
  else Some None.

Definition namespace_uses_of db f (namespace name : string) : option (list TextRange) :=
  found ← mapM (namespace_use namespace name) (namespace_nodes (source_text db f));
  Some (omap id found).

(** ** Names of definitions: [definition.rs] *)

Definition is_right_assignment (node : BinaryNode) : bool :=
  match bn_operator node with Some (Kind.ASSIGN_RIGHT | Kind.SUPER_ASSIGN_RIGHT) => true | _ => false end.

(** [name_node], with the range of the node. *)
Definition name_node_range source (kind : DefinitionKind) : option TextRange :=
  match kind with
  | DAssignment ptr | DSuperAssignment ptr =>
      let node := binary_node source ptr in
      if is_right_assignment node then bn_right node else bn_left node
  | DParameter ptr => parameter_name_range source ptr
  | DForVariable ptr => for_variable_range source ptr
  | DAssign _ name _ => Some (ptr_range source name)
  | DImport _ _ _ => None
  end.

(** The [n]th definition of a name in a scope. *)
Fixpoint nth_named (table : SymbolTable) (name : string) (n : nat) (defs : list Definition_)
    : option (option Definition_) :=
  match defs with
  | [] => Some None
  | def :: defs =>
      s ← SymbolTable.symbol table (def_symbol def);
      if bool_decide (symbol_name s = name) then
        match n with 0 => Some (Some def) | S n => nth_named table name n defs end
      else nth_named table name n defs
  end.

(** The [kind] of an entity, as its file's query sets it. *)
Definition definition_kind (d : Definition') : option (option DefinitionKind) :=
  let ix := q_semantic_index (d_file d) in
  table ← IndexVec.index (ix_symbol_tables ix) (d_scope d);
  defs ← IndexVec.index (ix_definitions ix) (d_scope d);
  def ← nth_named table (d_name d) (d_nth d) defs;
  Some (option_map def_kind def).

(** [Definition::name_range]. *)
Definition definition_name_range db (d : Definition') : option (option TextRange) :=
  kind ← definition_kind d;
  Some (match kind with Some kind => name_node_range (source_text db (d_file d)) kind | None => None end).
End identifiers.

(** ** The queries of the editor *)

(** Errors of [rename]. *)
Inductive RenameError :=
| CannotRename
| NotAName (err : NameError)
| NoBinding
| InstalledPackage
| BoundByRawString (source : text)
| BoundByComputedName (source : text).

Section queries.
Context `{TR : TextRanges} `{HO : HashOrder} `{UO : UrlOps} `{RD : DbReads} `{RP : !RParser}.
Context `{Q : !Queries} `{SX : !SyntaxTree} `{CC : !CharClass}.
Implicit Types (db : Db) (f : File).

Record FileRange := mkFileRange { fr_file : File; fr_range : TextRange }.
Record RenameEdit := mkRenameEdit { re_file : File; re_range : TextRange; re_new_text : text }.
Record NavigationTarget := mkNavigation {
  nt_file : File;
  nt_name : string;
  nt_full_range : TextRange;
  nt_focus_range : TextRange;
}.

#[export] Instance FileRange_eq_dec : EqDecision FileRange.
Proof. solve_decision. Defined.

(** *** Goto definition: [goto_definition.rs] *)

Definition navigation_target db (def : Definition') : option (option NavigationTarget) :=
  range ← definition_name_range db def;
  Some (match range with
        | Some range => Some (mkNavigation (d_file def) (d_name def) range range)
        | None => None
        end).

Definition goto_namespace_access db (package name : string) (visibility : NamespaceVisibility)
    : option (list Definition') :=
  match package_by_name db (text_of package) with
  | Some package => package_resolve db package name visibility
  | None => Some []
  end.

Definition navigation_targets db (defs : list Definition') : option (list NavigationTarget) :=
  found ← mapM (navigation_target db) defs; Some (omap id found).

Definition goto_definition db f (offset : N) : option (list NavigationTarget) :=
  identifier ← classify db f offset;
  match identifier with
  | Some (IdVariable _ range) => file_resolve_at db f (range_start range) ≫= navigation_targets db
  | Some (IdNamespace package name visibility) =>
      goto_namespace_access db package name visibility ≫= navigation_targets db
  | Some (IdMember _ _ _ _) | None => Some []
  end.

(** *** References: [find_references.rs] *)

Definition all_matching_files db f (name : string) : option (list File) :=
  used ← all_used_files db;
  let cursor_package_files := match f_package (file db f) with Some p => package_listing db p | None => [] end in
  Some (foldl (λ files g,
          if bool_decide (g ∈ files) || negb (text_contains (source_text db g) (text_of name))
          then files else files ++ [g]) [] (used ++ cursor_package_files)).

(** The key of [sort_file_ranges]. *)
Definition reference_key db (primary : File) (r : FileRange) : bool * text * N :=
  (bool_decide (fr_file r ≠ primary), path_string (f_path (file db (fr_file r))), range_start (fr_range r)).

Definition reference_le (a b : bool * text * N) : bool :=
  let '(f1, p1, o1) := a in
  let '(f2, p2, o2) := b in
  if negb (Bool.eqb f1 f2) then negb f1
  else if negb (bool_decide (p1 = p2)) then text_le p1 p2
  else bool_decide (o1 ≤ o2)%N.

Definition sort_file_ranges db (primary : File) (ranges : list FileRange) : list FileRange :=
  vec_dedup_by (λ a b, bool_decide (a = b)) (sort_by_key reference_le (reference_key db primary) ranges).

(** The uses in [g] that resolve to one of the targets. *)
Definition confirmed_uses db (name : string) (targets : list Definition') (g : File)
    : option (list FileRange) :=
  uses ← file_uses_of g name;
  confirmed ← mapM (λ range,
    candidates ← file_resolve_at db g (range_start range);
    Some (if existsb (λ d, bool_decide (d ∈ targets)) candidates then Some (mkFileRange g range) else None))
    uses;
  Some (omap id confirmed).

Definition find_namespace_uses db f (package name : string) : option (list FileRange) :=
  files ← all_matching_files db f name;
  per_file ← mapM (λ g,
    map (mkFileRange g) <$> namespace_uses_of db g package name) files;
  Some (concat per_file).

(** [collect_package_qualified_uses]: the package of the first target in one. *)
Definition qualified_uses db f (name : string) (targets : list Definition') : option (list FileRange) :=
  match first_some (λ d, f_package (file db (d_file d))) targets with
  | None => Some []
  | Some package => find_namespace_uses db f (package_name db package) name
  end.

Definition declarations db (targets : list Definition') : option (list FileRange) :=
  found ← mapM (λ d,
    range ← definition_name_range db d;
    Some (match range with Some range => Some (mkFileRange (d_file d) range) | None => None end)) targets;
  Some (omap id found).

Definition locally_scoped (targets : list Definition') : bool :=
  forallb (λ d, bool_decide (d_scope d ≠ 0)) targets.

Definition collect_definition_references db f (name : string) (targets : list Definition')
    (include_declaration : bool) : option (list FileRange) :=
  match targets with
  | [] => Some []
  | _ =>
      files ← (if locally_scoped targets then Some [f] else all_matching_files db f name);
      uses ← mapM (confirmed_uses db name targets) files;
      qualified ← (if locally_scoped targets then Some [] else qualified_uses db f name targets);
      declared ← (if include_declaration then declarations db targets else Some []);
      Some (sort_file_ranges db f (concat uses ++ qualified ++ declared))
  end.

Definition find_variable_references db f (offset : N) (include_declaration : bool)
    : option (list FileRange) :=
  variable ← resolve_variable_at db f offset;
  match variable with
  | None => Some []
  | Some (name, _, targets) => collect_definition_references db f name targets include_declaration
  end.

Definition find_member_references db f (name : string) (kind : MemberKind) : option (list FileRange) :=
  files ← all_matching_files db f name;
  per_file ← mapM (λ g,
    map (mkFileRange g) <$> member_uses_of db g name kind) files;
  Some (sort_file_ranges db f (concat per_file)).

Definition find_namespace_references db f (package name : string) (include_declaration : bool)
    : option (list FileRange) :=
  defs ← goto_namespace_access db package name Internal_;
  match defs with
  | [] => sort_file_ranges db f <$> find_namespace_uses db f package name
  | _ => collect_definition_references db f name defs include_declaration
  end.

Definition is_library_file db f : bool :=
  match file_root virtual_depth db f with
  | Some r => bool_decide (r_kind (root db r) = Library)
  | None => false
  end.

(** Installed packages are left out, but for the one of the cursor. *)
Definition keeps_reference db f (r : FileRange) : bool :=
  negb (is_library_file db (fr_file r)) ||
  bool_decide (f_package (file db (fr_file r)) = f_package (file db f)).

Definition find_references db f (offset : N) (include_declaration : bool) : option (list FileRange) :=
  identifier ← classify db f offset;
  refs ← match identifier with
         | None => Some []
         | Some (IdVariable _ _) => find_variable_references db f offset include_declaration
         | Some (IdMember name kind _ _) => find_member_references db f name kind
         | Some (IdNamespace package name _) =>
             find_namespace_references db f package name include_declaration
         end;
  Some (filter (λ r, keeps_reference db f r = true) refs).

(** *** Rename: [rename.rs] *)

Definition is_library_def db (d : Definition') : bool := is_library_file db (d_file d).

(** [&source[start..end]] panics out of bounds. *)
Definition editable_delimiter db f (range : TextRange) : option (RenameError + option ascii) :=
  source ← slice (source_text db f) (N.to_nat (range_start range)) (N.to_nat (range_end range));
  spelling ← name_spelling_at db f range;
  Some (match spelling with
        | Some Spelled => inr None
        | Some (Quoted delimiter) => inr (Some delimiter)
        | Some RawString => inl (BoundByRawString source)
        | None => inl (BoundByComputedName source)
        end).

Definition render (delimiter : option ascii) (new_name : RName) : text :=
  match delimiter with Some d => Identifiers.quoted new_name d | None => identifier new_name end.

(** The first definition whose name cannot be rewritten. *)
Fixpoint check_editable db (defs : list Definition') : option (RenameError + unit) :=
  match defs with
  | [] => Some (inr tt)
  | d :: defs =>
      range ← definition_name_range db d;
      match range with
      | None => check_editable db defs
      | Some range =>
          editable ← editable_delimiter db (d_file d) range;
          match editable with inl err => Some (inl err) | inr _ => check_editable db defs end
      end
  end.

Definition renamable_at db f (offset : N) : option (RenameError + option (TextRange * string)) :=
  variable ← resolve_variable_at db f offset;
  match variable with
  | None => Some (inr None)
  | Some (name, range, defs) =>
      if existsb (is_library_def db) defs then Some (inl InstalledPackage)
      else
        checked ← check_editable db defs;
        Some (match checked with inl err => inl err | inr _ => inr (Some (range, name)) end)
  end.

Definition prepare_rename db f (offset : N) : option (RenameError + option (TextRange * string)) :=
  renamable_at db f offset.

Fixpoint render_sites db (new_name : RName) (sites : list FileRange)
    : option (RenameError + list RenameEdit) :=
  match sites with
  | [] => Some (inr [])
  | site :: sites =>
      delimiter ← editable_delimiter db (fr_file site) (fr_range site);
      match delimiter with
      | inl err => Some (inl err)
      | inr delimiter =>
          edits ← render_sites db new_name sites;
          Some (match edits with
                | inl err => inl err
                | inr edits =>
                    inr (mkRenameEdit (fr_file site) (fr_range site) (render delimiter new_name) :: edits)
                end)
      end
  end.

Definition rename_ db f (offset : N) (new_name : text) : option (RenameError + list RenameEdit) :=
  renamable ← renamable_at db f offset;
  match renamable with
  | inl err => Some (inl err)
  | inr None => Some (inl CannotRename)
  | inr (Some _) =>
      match parse_name new_name with
      | inl err => Some (inl (NotAName err))
      | inr new_name =>
          sites ← find_references db f offset true;
          match sites with
          | [] => Some (inl NoBinding)
          | _ => render_sites db new_name sites
          end
      end
  end.
End queries.
