(* ===== verification/ResolveFacts.v ===== *)
(** * Lemmas on resolution across files

    Source sites find files by path. Definitions as entities are identified by
    their site, and the chase of exports explores a graph depth first. *)

From S2P Require Export IndexTheorems Placement FileImports FileResolve.
#[local] Open Scope list_scope.

Section sourcing.
Context `{TR : TextRanges} `{HO : HashOrder} `{UO : UrlOps} `{RD : DbReads} `{RP : !RParser}.
Context `{Q : !Queries}.
Implicit Types (db : Db) (f g : File).

(** The path of a file is that of its URL. *)
Definition canonical db f : Prop :=
  from_url (to_url (f_path (file db f))) = f_path (file db f).

Definition by_path db f g : Prop :=
  key_lte text_le (λ h, path_string (f_path (file db h))) f g.

Lemma dedup_after_same_elem (prev : File) l x :
  x ∈ dedup_after (λ a b, bool_decide (a = b)) prev l ∨ x = prev ↔ x ∈ l ∨ x = prev.
Proof.
  revert prev. induction l as [|a l IH]; intros prev; simpl; [done|].
  case_bool_decide as Ha; [subst; rewrite IH, elem_of_cons; tauto|].
  specialize (IH a). rewrite !elem_of_cons. tauto.
Qed.

Lemma sort_files_elem_iff db l x : x ∈ sort_files db l ↔ x ∈ l.
Proof.
  unfold sort_files. transitivity (x ∈ sort_by_key text_le (λ h, path_string (f_path (file db h))) l);
    [|by rewrite sort_by_key_perm].
  destruct (sort_by_key _ _ l) as [|a k]; [done|]. simpl. rewrite !elem_of_cons.
  pose proof (dedup_after_same_elem a k x). tauto.
Qed.

Lemma sort_files_sorted db l : StronglySorted (by_path db) (sort_files db l).
Proof.
  unfold sort_files. eapply sublist_sorted; [apply vec_dedup_sublist|].
  by apply (sort_by_key_spec text_le (λ h, path_string (f_path (file db h))) text_le_total text_le_trans).
Qed.

(** In a list sorted by an injective key, equal elements are together. *)
Lemma dedup_after_nodup db prev l :
  StronglySorted (by_path db) (prev :: l) →
  (∀ a b, a ∈ prev :: l → b ∈ prev :: l →
     path_string (f_path (file db a)) = path_string (f_path (file db b)) → a = b) →
  (prev ∉ dedup_after (λ a b, bool_decide (a = b)) prev l) ∧
  NoDup (dedup_after (λ a b, bool_decide (a = b)) prev l).
Proof.
  revert prev. induction l as [|a l IH]; intros prev Hs Hinj.
  { split; [apply not_elem_of_nil|constructor]. }
  simpl. apply StronglySorted_inv in Hs as [Hs Hp]. case_bool_decide as Ha; [subst a|].
  - apply IH; [done|]. intros x y Hx Hy. apply Hinj; by right.
  - destruct (IH a Hs) as [Hna Hnd]; [intros x y Hx Hy; apply Hinj; by right|].
    split; [|by constructor]. intros [->|Hin]%elem_of_cons; [done|].
    eapply elem_of_sublist in Hin; [|apply dedup_after_sublist].
    apply Ha. apply StronglySorted_inv in Hs as [_ Hs']. rewrite Forall_forall in Hs'.
    apply Hinj; [right; left|left|]. apply text_le_antisym; [by apply Hs'|].
    rewrite Forall_forall in Hp. apply Hp. left.
Qed.

Lemma sort_files_nodup db l :
  (∀ a b, a ∈ l → b ∈ l →
     path_string (f_path (file db a)) = path_string (f_path (file db b)) → a = b) →
  NoDup (sort_files db l).
Proof.
  intros Hinj. unfold sort_files.
  destruct (sort_by_key_spec text_le (λ h, path_string (f_path (file db h))) text_le_total text_le_trans l)
    as (Hperm & Hs & _).
  assert (Hinj' : ∀ a b, a ∈ sort_by_key text_le (λ h, path_string (f_path (file db h))) l →
    b ∈ sort_by_key text_le (λ h, path_string (f_path (file db h))) l →
    path_string (f_path (file db a)) = path_string (f_path (file db b)) → a = b).
  { intros a b. rewrite Hperm. apply Hinj. }
  destruct (sort_by_key _ _ l) as [|a k]; [constructor|]. simpl.
  destruct (dedup_after_nodup db a k Hs Hinj'). by constructor.
Qed.

Lemma elem_of_source_targets db f g :
  g ∈ source_targets db f ↔ ∃ site, site ∈ source_sites db f ∧ ss_target site = Some g.
Proof. unfold source_targets. rewrite sort_files_elem_iff, list_elem_of_omap. naive_solver. Qed.

Lemma push_sourcing_spec db m g t :
  ∀ x, x ∈ default [] (push_sourcing db m g !! t) ↔
    x ∈ default [] (m !! t) ∨ (x = g ∧ t ∈ source_targets db g).
Proof.
  unfold push_sourcing. generalize (source_targets db g). intros l. revert m.
  induction l as [|u l IH]; intros m x; simpl; [set_solver|].
  rewrite IH, elem_of_cons. destruct (decide (t = u)) as [->|Hne].
  - rewrite lookup_insert_eq. simpl. rewrite elem_of_app, list_elem_of_singleton. naive_solver.
  - rewrite lookup_insert_ne by done. naive_solver.
Qed.

Lemma sourcing_spec db l m t :
  ∀ x, x ∈ default [] (foldl (push_sourcing db) m l !! t) ↔
    x ∈ default [] (m !! t) ∨ (x ∈ l ∧ t ∈ source_targets db x).
Proof.
  revert m. induction l as [|g l IH]; intros m x; simpl; [set_solver|].
  rewrite IH, push_sourcing_spec, elem_of_cons. naive_solver.
Qed.

Lemma workspace_files_live db g : g ∈ workspace_files virtual_depth db → live db g.
Proof.
  unfold workspace_files. intros (l & Hg & Hl)%list_elem_of_bind. destruct l as [r|r|].
  - apply list_elem_of_filter in Hg as [_ Hg]. left. exists r. split; [|done].
    apply elem_of_live_roots in Hl. by destruct Hl.
  - by apply elem_of_nil in Hg.
  - right. rewrite hash_order_perm in Hg. by apply elem_of_elements.
Qed.

Lemma canonical_paths db g h :
  placed db → canonical db g → canonical db h → live db g → live db h →
  path_string (f_path (file db g)) = path_string (f_path (file db h)) → g = h.
Proof.
  intros Hp Hg Hh Hlg Hlh E. apply (pl_path _ _ Hp); [done..|].
  rewrite <-Hg, <-Hh. f_equal. unfold path_string in E.
  by rewrite <-(url_text_of (to_url (f_path (file db g)))), E, url_text_of.
Qed.

Lemma elem_of_sourced_by db f g :
  g ∈ sourced_by db f ↔
    g ∈ workspace_files virtual_depth db ∧
    ∃ site, site ∈ source_sites db g ∧ ss_target site = Some f.
Proof.
  rewrite <-elem_of_source_targets. unfold sourced_by, sourcing_files_by_target.
  pose proof (lookup_fmap (M := gmap File) (sort_files db)
    (foldl (push_sourcing db) ∅ (workspace_files virtual_depth db)) f) as ->.
  pose proof (sourcing_spec db (workspace_files virtual_depth db) ∅ f g) as Hin.
  rewrite lookup_empty in Hin. simpl in Hin. rewrite elem_of_nil in Hin.
  destruct (foldl _ _ _ !! f); simpl in *; rewrite ?sort_files_elem_iff, ?elem_of_nil in *; tauto.
Qed.

Lemma sourced_by_sorted db f : StronglySorted (by_path db) (sourced_by db f).
Proof.
  unfold sourced_by, sourcing_files_by_target.
  pose proof (lookup_fmap (M := gmap File) (sort_files db)
    (foldl (push_sourcing db) ∅ (workspace_files virtual_depth db)) f) as ->.
  destruct (foldl _ _ _ !! f); simpl; [apply sort_files_sorted|constructor].
Qed.

Lemma sourced_by_nodup db f :
  (∀ a b, a ∈ sourced_by db f → b ∈ sourced_by db f →
     path_string (f_path (file db a)) = path_string (f_path (file db b)) → a = b) →
  NoDup (sourced_by db f).
Proof.
  unfold sourced_by, sourcing_files_by_target.
  pose proof (lookup_fmap (M := gmap File) (sort_files db)
    (foldl (push_sourcing db) ∅ (workspace_files virtual_depth db)) f) as ->.
  destruct (foldl _ _ _ !! f) as [l|]; simpl; [|constructor]. intros Hinj.
  apply sort_files_nodup. intros a b Ha Hb. apply Hinj; by apply sort_files_elem_iff.
Qed.
End sourcing.


(** ** Identities of definitions *)

Section definitions.
Context `{TR : TextRanges} `{HO : HashOrder} `{UO : UrlOps} `{RD : DbReads} `{RP : !RParser}.
Context `{Q : !Queries}.
Implicit Types (f : File) (name : string).

(** The names the definitions of a scope bind, in their order. *)
Definition names_of (table : SymbolTable) (defs : list Definition_) : option (list string) :=
  mapM (λ def, symbol_name <$> SymbolTable.symbol table (def_symbol def)) defs.

Definition scope_names (ix : SemanticIndex) (s : nat) : option (list string) :=
  table ← ix_symbol_tables ix !! s; defs ← ix_definitions ix !! s; names_of table defs.

Definition occurrences (name : string) (l : list string) : nat := length (filter (name =.) l).

Lemma occurrences_app name l k : occurrences name (l ++ k) = occurrences name l + occurrences name k.
Proof. unfold occurrences. by rewrite filter_app, length_app. Qed.

Definition definition_of f (s x : nat) (names : list string) : option Definition' :=
  (λ name, mkDefinition' f s name (occurrences name (take x names))) <$> names !! x.

Lemma mint_spec f s table defs : ∀ seen names m,
  names_of table defs = Some names →
  ∃ m', mint f s table seen (imap (λ i d, (length seen + i, d)) defs) m = Some m' ∧
    ∀ s' x, m' !! (s', x) =
      if decide (s' = s ∧ length seen ≤ x < length seen + length defs)
      then definition_of f s x (seen ++ names) else m !! (s', x).
Proof.
  induction defs as [|def defs IH]; intros seen names m Hn; simpl.
  { exists m. split; [done|]. intros s' x. rewrite decide_False by lia. done. }
  unfold names_of in Hn. simpl in Hn.
  destruct (SymbolTable.symbol table (def_symbol def)) as [sy|]; [|done]. simpl in Hn |- *.
  destruct (mapM _ defs) as [names'|] eqn:Hn'; [|done]. simpl in Hn. injection Hn as <-.
  set (n := symbol_name sy).
  destruct (IH (seen ++ [n]) names' (<[(s, length seen + 0) := mkDefinition' f s n (length (filter (n =.) seen))]> m) Hn')
    as (m' & Hm' & Hl).
  exists m'. split.
  - rewrite <-Hm'. f_equal. apply imap_ext. intros i d _. simpl. rewrite length_app. simpl.
    f_equal. lia.
  - intros s' x. rewrite Hl, length_app. simpl. rewrite <-app_assoc. simpl.
    destruct (decide (s' = s ∧ x = length seen)) as [[-> ->]|Hne].
    + rewrite decide_False by lia. rewrite decide_True by lia. rewrite Nat.add_0_r, lookup_insert_eq.
      unfold definition_of. rewrite list_lookup_middle by done. simpl. by rewrite take_app_length.
    + repeat case_decide; try done; try lia. rewrite lookup_insert_ne; [done|].
      rewrite Nat.add_0_r. intros [= <- <-]. by apply Hne.
Qed.

Lemma names_of_total table defs :
  (∀ x def, defs !! x = Some def → def_symbol def < length (symbols table)) →
  ∃ names, names_of table defs = Some names ∧ length names = length defs ∧
    ∀ x name, names !! x = Some name ↔
      ∃ def sy, defs !! x = Some def ∧ symbols table !! def_symbol def = Some sy ∧ symbol_name sy = name.
Proof.
  intros Hd. unfold names_of.
  destruct (mapM_total (λ def, symbol_name <$> SymbolTable.symbol table (def_symbol def))
    (λ def name, ∃ sy, symbols table !! def_symbol def = Some sy ∧ symbol_name sy = name) defs)
    as (names & Hn & HF).
  - intros def [x Hx]%list_elem_of_lookup. apply Hd, lookup_lt_is_Some in Hx as [sy Hsy].
    exists (symbol_name sy). unfold SymbolTable.symbol, IndexVec.index. rewrite Hsy. simpl. eauto.
  - exists names. split; [done|]. split; [by apply Forall2_length in HF|]. intros x name. split.
    + intros Hx. destruct (Forall2_lookup_r _ _ _ _ _ HF Hx) as (def & ? & sy & ? & ?). eauto.
    + intros (def & sy & Hx & Hsy & Hnm). destruct (Forall2_lookup_l _ _ _ _ _ HF Hx) as (name' & Hx' & sy' & ? & ?).
      congruence.
Qed.

Lemma scope_names_total ix s :
  index_wf ix → s < length (ix_scopes ix) →
  ∃ table defs names, ix_symbol_tables ix !! s = Some table ∧ ix_definitions ix !! s = Some defs ∧
    names_of table defs = Some names ∧ length names = length defs ∧
    ∀ x name, names !! x = Some name ↔ ix_def_named ix s x name.
Proof.
  intros Hix Hs. destruct (ix_scope_tables _ _ Hix Hs) as (t & d & us & m & Ht & Hd & _ & _ & Hwf).
  destruct (names_of_total t d (st_def_syms _ _ _ _ Hwf)) as (names & Hn & Hlen & Hx).
  exists t, d, names. repeat (split; [done|]). intros x name. rewrite Hx.
  unfold ix_def_named, ix_name_at. rewrite Hd, Ht. split.
  - intros (def & sy & ? & ? & ?). exists d, def. do 2 (split; [done|]). by exists t, sy.
  - intros (d' & def & [= <-] & ? & t' & sy & [= <-] & ? & ?). by exists def, sy.
Qed.

Lemma definitions_in_spec f :
  index_wf (q_semantic_index f) →
  ∃ m, definitions_in f = Some m ∧
    ∀ s x, m !! (s, x) = scope_names (q_semantic_index f) s ≫= definition_of f s x.
Proof.
  intros Hix. unfold definitions_in. set (ix := q_semantic_index f) in *.
  assert (Hg : ∀ n, n ≤ length (ix_scopes ix) → ∃ m,
    foldM (λ scope_id by_site, table ← IndexVec.index (ix_symbol_tables ix) scope_id;
      defs ← IndexVec.index (ix_definitions ix) scope_id;
      mint f scope_id table [] (IndexVec.iter defs) by_site) (seq 0 n) ∅ = Some m ∧
    ∀ s x, m !! (s, x) = if decide (s < n) then scope_names ix s ≫= definition_of f s x else None).
  { induction n as [|n IH]; intros Hn.
    { exists ∅. split; [done|]. intros s x. by rewrite lookup_empty, decide_False by lia. }
    destruct IH as (m & Hm & Hl); [lia|]. rewrite seq_S, foldM_app, Hm. simpl.
    destruct (scope_names_total ix n Hix) as (t & d & names & Ht & Hd & Hnm & Hlen & _); [lia|].
    unfold IndexVec.index. rewrite Ht, Hd. simpl.
    destruct (mint_spec f n t d [] names m Hnm) as (m' & Hm' & Hl'). unfold IndexVec.iter. simpl in Hm'.
    change (imap pair d) with (imap (λ i d0, (i, d0)) d). rewrite Hm'. simpl. eexists; split; [done|].
    intros s x. rewrite Hl', Hl. simpl.
    assert (Hsn : scope_names ix n = Some names) by (unfold scope_names; by rewrite Ht, Hd).
    destruct (decide (s = n)) as [->|Hne].
    - rewrite (decide_False (P := n < n)), (decide_True (P := n < S n)) by lia.
      rewrite Hsn. simpl. case_decide; [done|]. unfold definition_of. rewrite lookup_ge_None_2; [done|lia].
    - rewrite decide_False by (by intros [? _]). repeat case_decide; try done; lia. }
  destruct (Hg (length (ix_scopes ix))) as (m & Hm & Hl); [done|]. exists m. split; [done|].
  intros s x. rewrite Hl. case_decide as Hs; [done|].
  unfold scope_names. destruct (iw_lengths _ Hix) as [Hlen _].
  by rewrite (lookup_ge_None_2 (ix_symbol_tables ix)) by lia.
Qed.

(** The entity of a site; sites that are not there have none. *)
Lemma file_definition_spec f s x :
  index_wf (q_semantic_index f) →
  file_definition f s x = Some (scope_names (q_semantic_index f) s ≫= definition_of f s x).
Proof.
  intros (m & Hm & Hl)%definitions_in_spec. unfold file_definition. rewrite Hm. simpl. by rewrite Hl.
Qed.

Lemma file_definition_named f s x defs def :
  index_wf (q_semantic_index f) → ix_definitions (q_semantic_index f) !! s = Some defs →
  defs !! x = Some def →
  ∃ d, file_definition f s x = Some (Some d) ∧ d_file d = f ∧ d_scope d = s ∧
    ix_def_named (q_semantic_index f) s x (d_name d).
Proof.
  intros Hix Hdefs Hx.
  assert (Hs : s < length (ix_scopes (q_semantic_index f))).
  { destruct (iw_lengths _ Hix) as (_ & <- & _). by eapply lookup_lt_Some. }
  destruct (scope_names_total _ _ Hix Hs) as (t & d0 & names & Ht & Hd0 & Hnm & Hlen & Hnamed).
  rewrite Hdefs in Hd0. injection Hd0 as <-.
  assert (Hsn : scope_names (q_semantic_index f) s = Some names) by (unfold scope_names; by rewrite Ht, Hdefs).
  destruct (lookup_lt_is_Some_2 names x) as [name Hn]; [rewrite Hlen; by eapply lookup_lt_Some|].
  rewrite file_definition_spec, Hsn by done. simpl. unfold definition_of. rewrite Hn. simpl.
  eexists. split; [done|]. simpl. split; [done|]. split; [done|]. by apply Hnamed.
Qed.

Lemma occurrences_take name l x y :
  x < y → l !! x = Some name → occurrences name (take x l) < occurrences name (take y l).
Proof.
  intros Hxy Hx. assert (Hs : take (S x) l = take x l ++ [name]) by by apply take_S_r.
  replace y with (S x + (y - S x)) by lia. rewrite <-take_take_drop, Hs, !occurrences_app.
  unfold occurrences at 3. rewrite filter_cons_True by done. simpl. lia.
Qed.

Lemma definition_of_inj f f' s s' x x' names names' d :
  (s = s' → names = names') →
  definition_of f s x names = Some d → definition_of f' s' x' names' = Some d →
  f = f' ∧ s = s' ∧ x = x'.
Proof.
  unfold definition_of. intros Hn (n & Hx & ->)%fmap_Some (n' & Hx' & E)%fmap_Some.
  injection E as <- <- <- Hocc. specialize (Hn eq_refl) as <-. split; [done|]. split; [done|].
  destruct (Nat.lt_trichotomy x x') as [Hlt|[Heq|Hlt]]; [|done|].
  - pose proof (occurrences_take _ _ _ _ Hlt Hx). lia.
  - pose proof (occurrences_take _ _ _ _ Hlt Hx'). lia.
Qed.
End definitions.

(** ** The graph of exports *)

Section chase.
Context `{TR : TextRanges} `{HO : HashOrder} `{UO : UrlOps} `{RD : DbReads} `{RP : !RParser}.
Context `{Q : !Queries}.
Context (db : Db).
Implicit Types (f : File) (name : string) (k : File * string) (V : gset (File * string)).

(** A [source()] in a file forwards a name to another file. *)
Definition forwards k k' : Prop :=
  ∃ entries, q_exports k.1 !! k.2 = Some entries ∧ ExImport k'.1 k'.2 ∈ entries.

(** The file defines the name itself. *)
Definition marks_local k : Prop :=
  ∃ entries, q_exports k.1 !! k.2 = Some entries ∧ ExLocal ∈ entries.

(** What the bodies of [exports] give: entries without duplicates, that name
    files of the database. *)
Record exports_ok : Prop := {
  eo_live f name entries g name' : f < length (files db) →
    q_exports f !! name = Some entries → ExImport g name' ∈ entries → g < length (files db);
  eo_nodup f name entries : q_exports f !! name = Some entries → NoDup entries;
}.

Definition indexes_wf : Prop := ∀ f, index_wf (q_semantic_index f).

Lemma local_definitions_spec f name :
  index_wf (q_semantic_index f) →
  ∃ rows l, export (q_semantic_index f) name = Some rows ∧ local_definitions f name = Some l ∧
    (∀ d, d ∈ l → d_file d = f ∧ d_scope d = 0 ∧ d_name d = name) ∧
    (∀ d, d ∈ l ↔ ∃ x def, (x, def) ∈ rows ∧ is_import def = false ∧
       file_definition f 0 x = Some (Some d)).
Proof.
  intros Hix. destruct (exports_spec (q_semantic_index f) Hix) as (e & _ & He).
  destruct (He name) as (Hr & _ & Hrows & _). set (rows := default [] (e !! name)) in *.
  assert (H0 : 0 < length (ix_scopes (q_semantic_index f))).
  { destruct (iw_tree _ Hix) as [_ Hne]. destruct (ix_scopes _); [done|simpl; lia]. }
  destruct (scope_names_total _ _ Hix H0) as (t & d0 & names & Ht & Hd0 & Hnm & _ & Hx).
  assert (Hsn : scope_names (q_semantic_index f) 0 = Some names) by (unfold scope_names; by rewrite Ht, Hd0).
  assert (Hdef : ∀ x def, (x, def) ∈ rows → ∃ d, file_definition f 0 x = Some (Some d) ∧
    d_file d = f ∧ d_scope d = 0 ∧ d_name d = name).
  { intros x def Hin. destruct (Hrows _ _ Hin) as [Hnamed _]. apply Hx in Hnamed.
    rewrite file_definition_spec, Hsn by done. simpl. unfold definition_of. rewrite Hnamed. simpl.
    eexists; split; [done|]. done. }
  destruct (mapM_total (λ '(def_id, def),
    if is_import def then Some None else file_definition f 0 def_id)
    (λ '(x, def) o, if is_import def then o = None else
       ∃ d, o = Some d ∧ file_definition f 0 x = Some (Some d) ∧ d_file d = f ∧ d_scope d = 0 ∧ d_name d = name)
    rows) as (minted & Hm & HF).
  { intros [x def] Hin. destruct (is_import def); [by exists None|].
    destruct (Hdef _ _ Hin) as (d & Hd & ?). exists (Some d). split; [done|]. by exists d. }
  exists rows, (omap id minted). split; [done|]. split; [unfold local_definitions; by rewrite Hr; simpl; rewrite Hm|].
  assert (Hin : ∀ d, d ∈ omap id minted ↔ Some d ∈ minted).
  { intros d. rewrite list_elem_of_omap. split; [by intros ([] & ? & [= ->])|intros ?; by exists (Some d)]. }
  split; intros d; rewrite Hin.
  - intros Hd. apply (Forall2_elem_r _ _ _ _ HF) in Hd as ([x def] & _ & Hd).
    destruct (is_import def); [done|]. by destruct Hd as (? & [= ->] & _ & ?).
  - split.
    + intros Hd. apply (Forall2_elem_r _ _ _ _ HF) in Hd as ([x def] & Hrow & Hd). exists x, def.
      destruct (is_import def); [done|]. by destruct Hd as (? & [= ->] & ? & _).
    + intros (x & def & Hrow & Hi & Hd). apply (Forall2_elem_l _ _ _ _ HF) in Hrow as (o & Ho & Hd').
      rewrite Hi in Hd'. destruct Hd' as (d' & -> & Hd' & _). by replace d with d' by congruence.
Qed.

(** From [V] to [V'], the chase ran through what [root] reaches, and appended
    the definitions of each key that it found marked, once. *)
Record chased (root : File * string) V V' (keys : list (File * string)) (ls : list (list Definition'))
    : Prop := {
  ch_mono : V ⊆ V';
  ch_new k : k ∈ V' → (k ∉ V) → rtc forwards root k ∧ ∀ k', forwards k k' → k' ∈ V';
  ch_nodup : NoDup keys;
  ch_keys k : k ∈ keys ↔ k ∈ V' ∧ (k ∉ V) ∧ marks_local k;
  ch_lists : Forall2 (λ k l, local_definitions k.1 k.2 = Some l) keys ls;
}.

Lemma elem_of_export_keys f name entries :
  f < length (files db) → q_exports f !! name = Some entries → (f, name) ∈ export_keys db.
Proof.
  intros Hf Hn. unfold export_keys. apply elem_of_union_list. eexists. split.
  - apply list_elem_of_fmap. exists f. split; [done|]. apply elem_of_seq. lia.
  - apply elem_of_map. exists name. split; [done|]. by apply elem_of_dom.
Qed.

(** One entry after the other; [self] is the key whose entries they are. *)
Lemma chase_entries (collect : File → string → M Chase ()) fuel self entries V R :
  (∀ g name V R, g < length (files db) → size (export_keys db ∖ V) < fuel →
     ∃ V' keys ls, collect g name (V, R) = Done () (V', R ++ concat ls) ∧ (g, name) ∈ V' ∧
       chased (g, name) V V' keys ls) →
  index_wf (q_semantic_index self.1) → NoDup entries → self ∈ V →
  size (export_keys db ∖ V) < fuel →
  (∀ g name, ExImport g name ∈ entries → g < length (files db) ∧ forwards self (g, name)) →
  ∃ V' keys ls,
    for_each entries (collect_entry collect self.1 self.2) (V, R) = Done () (V', R ++ concat ls) ∧
    V ⊆ V' ∧ (∀ g name, (ExImport g name ∈ entries) → (g, name) ∈ V') ∧
    (∀ k, k ∈ V' → (k ∉ V) → rtc forwards self k ∧ ∀ k', forwards k k' → k' ∈ V') ∧
    NoDup keys ∧
    (∀ k, k ∈ keys ↔ (k ∈ V' ∧ (k ∉ V) ∧ marks_local k) ∨ (k = self ∧ ExLocal ∈ entries)) ∧
    Forall2 (λ k l, local_definitions k.1 k.2 = Some l) keys ls.
Proof.
  intros Hc Hix. revert V R. induction entries as [|e entries IH]; intros V R Hnd Hself Hfuel Hent.
  { exists V, [], []. simpl. rewrite app_nil_r. split; [done|]. split; [done|].
    split; [by intros ? ? ?%elem_of_nil|]. split; [done|]. split; [constructor|]. split; [|constructor].
    intros k. split; [by intros ?%elem_of_nil|]. by intros [(? & ? & _)|[_ ?%elem_of_nil]]. }
  apply NoDup_cons in Hnd as [He Hnd]. destruct e as [|g name].
  - destruct (local_definitions_spec self.1 self.2 Hix) as (rows & l & _ & Hl & _).
    destruct (IH V (R ++ l)) as (V' & keys & ls & Hrun & Hmono & Himp & Hnew & Hnk & Hkeys & HF);
      [done..|intros; apply Hent; by right|].
    exists V', (self :: keys), (l :: ls). split; [|split; [done|split; [|split; [done|split; [|split]]]]].
    + cbn [for_each collect_entry]. unfold mbind at 1, M_bind. unfold mbind at 1, M_bind, try_get.
      rewrite Hl. unfold modify. cbn [concat]. by rewrite app_assoc.
    + intros g name [?|Hin]%elem_of_cons; [done|]. by apply Himp.
    + constructor; [|done]. intros Hin. apply Hkeys in Hin as [(_ & ? & _)|[_ ?]]; done.
    + intros k. rewrite elem_of_cons, Hkeys. split.
      * intros [->|[?|[-> ?]]]; [right; split; [done|left]|by left|right; split; [done|by right]].
      * intros [?|[-> _]]; [by right; left|by left].
    + by constructor.
  - destruct (Hent g name) as [Hg Hfw]; [left|].
    destruct (Hc g name V R Hg Hfuel) as (V1 & keys1 & ls1 & Hrun1 & Hin1 & [Hm1 Hn1 Hk1 Hke1 HF1]).
    destruct (IH V1 (R ++ concat ls1)) as (V' & keys & ls & Hrun & Hmono & Himp & Hnew & Hnk & Hkeys & HF);
      [done|by apply Hm1| |intros; apply Hent; by right|].
    { eapply Nat.le_lt_trans; [apply subseteq_size|exact Hfuel]. set_solver. }
    exists V', (keys1 ++ keys), (ls1 ++ ls).
    split; [|split; [by etrans|split; [|split; [|split; [|split]]]]].
    + cbn [for_each collect_entry]. unfold mbind at 1, M_bind. rewrite Hrun1, Hrun.
      by rewrite concat_app, app_assoc.
    + intros g' name' [[= -> ->]|Hin]%elem_of_cons; [by apply Hmono|by apply Himp].
    + intros k Hk HkV. destruct (decide (k ∈ V1)) as [Hk1'|Hk1'].
      * destruct (Hn1 k Hk1' HkV) as [Hr Hs]. split; [by eapply rtc_l|]. intros. by apply Hmono, Hs.
      * by apply Hnew.
    + apply NoDup_app. split; [done|]. split; [|done]. intros k Hin1' Hin2.
      apply Hke1 in Hin1' as (Hk1' & HkV & _). apply Hkeys in Hin2 as [(_ & ? & _)|[-> _]]; done.
    + intros k. rewrite elem_of_app, Hke1, Hkeys. split.
      * intros [(Ha & Hb & Hl)|[(Ha & Hb & Hl)|[-> ?]]].
        -- left. split; [by apply Hmono|done].
        -- left. split; [done|]. split; [|done]. intros ?. by apply Hb, Hm1.
        -- right. split; [done|by right].
      * intros [(Hk & HkV & Hml)|[-> Hin]].
        -- destruct (decide (k ∈ V1)); [by left|by right; left].
        -- apply elem_of_cons in Hin as [?|Hin]; [done|]. by right; right.
    + by apply Forall2_app.
Qed.

Lemma chase_spec fuel : ∀ f name V R,
  indexes_wf → exports_ok → f < length (files db) → size (export_keys db ∖ V) < fuel →
  ∃ V' keys ls, collect_exports (S fuel) f name (V, R) = Done () (V', R ++ concat ls) ∧
    (f, name) ∈ V' ∧ chased (f, name) V V' keys ls.
Proof.
  intros f name V R Hix [Hlive Hnd]. revert f name V R.
  induction fuel as [|fuel IH]; intros f name V R Hf Hfuel; [lia|].
  cbn [collect_exports]. unfold mbind, M_bind, gets, when.
  destruct (decide ((f, name) ∈ V)) as [HV|HV]; cbn [fst].
  { rewrite bool_decide_false by auto. exists V, [], []. simpl. rewrite app_nil_r.
    split; [done|]. split; [done|]. split; [done|done|constructor| |constructor].
    intros k. split; [by intros ?%elem_of_nil|]. by intros (? & ? & _). }
  rewrite bool_decide_true by done. unfold modify, if_some.
  destruct (q_exports f !! name) as [entries|] eqn:Hent.
  - destruct (chase_entries (collect_exports (S fuel)) fuel (f, name) entries ({[(f, name)]} ∪ V) R)
      as (V' & keys & ls & Hrun & Hmono & Himp & Hnew & Hnk & Hkeys & HF).
    + intros g n V1 R1 Hg Hs. by apply IH.
    + apply Hix.
    + by eapply Hnd.
    + set_solver.
    + assert ((f, name) ∈ export_keys db ∖ V) as Hin.
      { apply elem_of_difference. split; [by eapply elem_of_export_keys|done]. }
      assert (export_keys db ∖ V = {[(f, name)]} ∪ export_keys db ∖ ({[(f, name)]} ∪ V)) as Hs.
      { apply set_eq. intros k. destruct (decide (k = (f, name))) as [->|]; set_solver. }
      rewrite Hs, size_union, size_singleton in Hfuel by set_solver. lia.
    + intros g n Hin. split; [by eapply Hlive|]. by exists entries.
    + exists V', keys, ls. split; [exact Hrun|]. split; [apply Hmono; set_solver|].
      assert (Hself : ∀ k', forwards (f, name) k' → k' ∈ V').
      { intros [g n] (es & Hes & Hin). simpl in Hes, Hin. rewrite Hent in Hes. injection Hes as <-.
        by apply Himp. }
      split; [set_solver| |done| |done].
      * intros k Hk HkV. destruct (decide (k = (f, name))) as [->|Hne]; [by split|].
        apply Hnew; [done|]. set_solver.
      * intros k. rewrite Hkeys. split.
        -- intros [(? & ? & ?)|[-> ?]]; [set_solver|]. split; [apply Hmono; set_solver|].
           split; [done|]. by exists entries.
        -- intros (? & ? & (es & Hes & Hin)). destruct (decide (k = (f, name))) as [->|Hne].
           ++ right. split; [done|]. simpl in Hes. rewrite Hent in Hes. by injection Hes as <-.
           ++ left. split; [done|]. split; [set_solver|]. by exists es.
  - assert (Hno : ∀ k', ¬ forwards (f, name) k') by (intros k' (es & Hes & _); simpl in Hes; congruence).
    exists ({[(f, name)]} ∪ V), [], []. simpl. rewrite app_nil_r. split; [done|]. split; [set_solver|].
    split; [set_solver| |constructor| |constructor].
    + intros k Hk HkV. assert (k = (f, name)) as -> by set_solver. split; [done|]. by intros k' ?%Hno.
    + intros k. split; [by intros ?%elem_of_nil|]. intros (Hk & HkV & (es & Hes & _)).
      assert (k = (f, name)) as -> by set_solver. simpl in Hes. congruence.
Qed.
End chase.
