(* ===== verification/Revision.v ===== *)
(** * Revisions: the queries that may recover from a cycle

    Salsa computes a tracked query once per revision, from the answers of the
    queries its body asks; a query that is asked again while it is computed
    takes part in a cycle and answers what its [cycle_result] returns. The
    bodies and the handlers are those of [file.rs], [file_exports.rs],
    [file_imports.rs] and [imports.rs]. Then lemmas: what the order of the
    answers, with bodies that read only earlier answers, gives. *)

From S2P Require Export Walk FileResolve ResolveFacts.
From Stdlib Require Import FunctionalExtensionality.
#[local] Open Scope list_scope.

(** The keys of [recovery.rs] that this library needs: [attached_packages_anywhere]
    is read by nothing here, and [Package::resolve] cuts its own cycles. *)
Inductive Key :=
| KSemanticIndex (f : File)
| KExports (f : File)
| KAttachedPackages (f : File)
| KCrossFileLayers (f : File) (view : CollationView)
| KInheritedLayers (f : File) (view : CollationView)
| KBaseBinds (base : Package) (name : string).

Section restrict.
Context `{TR : TextRanges} `{UU : Urls}.

(** The answers of [Q] on the keys of [low], those of [Q'] on the others. *)
Definition restrict (low : Key → bool) (Q Q' : Queries) : Queries := {|
  q_semantic_index f :=
    if low (KSemanticIndex f) then @q_semantic_index _ _ Q f else @q_semantic_index _ _ Q' f;
  q_exports f := if low (KExports f) then @q_exports _ _ Q f else @q_exports _ _ Q' f;
  q_attached_packages f :=
    if low (KAttachedPackages f) then @q_attached_packages _ _ Q f
    else @q_attached_packages _ _ Q' f;
  q_cross_file_layers f view :=
    if low (KCrossFileLayers f view) then @q_cross_file_layers _ _ Q f view
    else @q_cross_file_layers _ _ Q' f view;
  q_inherited_layers f view :=
    if low (KInheritedLayers f view) then @q_inherited_layers _ _ Q f view
    else @q_inherited_layers _ _ Q' f view;
  q_base_binds base name :=
    if low (KBaseBinds base name) then @q_base_binds _ _ Q base name
    else @q_base_binds _ _ Q' base name;
|}.

(** Two sets of answers agree on a key. *)
Definition agree (Q Q' : Queries) (k : Key) : Prop :=
  match k with
  | KSemanticIndex f => @q_semantic_index _ _ Q f = @q_semantic_index _ _ Q' f
  | KExports f => @q_exports _ _ Q f = @q_exports _ _ Q' f
  | KAttachedPackages f => @q_attached_packages _ _ Q f = @q_attached_packages _ _ Q' f
  | KCrossFileLayers f view =>
      @q_cross_file_layers _ _ Q f view = @q_cross_file_layers _ _ Q' f view
  | KInheritedLayers f view =>
      @q_inherited_layers _ _ Q f view = @q_inherited_layers _ _ Q' f view
  | KBaseBinds base name => @q_base_binds _ _ Q base name = @q_base_binds _ _ Q' base name
  end.

Lemma agree_ext Q Q' : (∀ k, agree Q Q' k) → Q = Q'.
Proof.
  intros Ha. destruct Q, Q'. f_equal; repeat (apply functional_extensionality; intros).
  - apply (Ha (KSemanticIndex _)).
  - apply (Ha (KExports _)).
  - apply (Ha (KAttachedPackages _)).
  - apply (Ha (KCrossFileLayers _ _)).
  - apply (Ha (KInheritedLayers _ _)).
  - apply (Ha (KBaseBinds _ _)).
Qed.

Lemma restrict_agree low Q Q' : (∀ k, low k = true → agree Q Q' k) → restrict low Q Q' = Q'.
Proof.
  intros Ha. apply agree_ext. intros k. pose proof (Ha k) as Hk.
  destruct k; simpl in *; destruct (low _); auto.
Qed.
End restrict.

Section revision.
Context `{TR : TextRanges} `{HO : HashOrder} `{UO : UrlOps} `{RD : DbReads} `{RP : !RParser}.
Context `{HT : HandlerTypes} `{HD : !Handlers} `{BP : BuildProfile} `{MJ : MergeJoinBy}.
Context (registry : list PackageEntry).
Implicit Types (db : Db) (f : File) (Q : Queries).

Definition answer {St A} (o : outcome St A) : option A :=
  match o with Done a _ => Some a | _ => None end.

Definition build_fuel (program : list expr) : nat := S (lsize esize program).

(** [build_semantic_index] and [semantic_index_fallback]. *)
Definition semantic_index_body `{QS : !Queries} db f : option SemanticIndex :=
  let contents := source_text db f in
  answer (build_index (H3 := SalsaImportsResolver registry db f)
    (build_fuel (parse_expressions contents)) (parse_expressions contents) (parse_range contents)).

Definition semantic_index_fallback db f : option SemanticIndex :=
  let contents := source_text db f in
  with_diagnostic SourceCycle <$>
    answer (build_index (H3 := noop_resolver registry)
      (build_fuel (parse_expressions contents)) (parse_expressions contents)
      (parse_range contents)).

(** What a query returns: its body over the answers [Q], or its handler. *)
Definition index_query `{QS : !Queries} db f (recovers : bool) : option SemanticIndex :=
  if recovers then semantic_index_fallback db f else semantic_index_body db f.
Definition exports_query `{QS : !Queries} db f (recovers : bool) : option FileExports :=
  if recovers then Some ∅ else exports_body db f.
Definition attached_query `{QS : !Queries} f (recovers : bool) : option (list string) :=
  if recovers then Some [] else attached_packages_body f.
Definition cross_query `{QS : !Queries} db f view (recovers : bool) : option FileLoadLayers :=
  Some (if recovers then cross_file_layers_fallback db f view else cross_file_layers_body db f view).
Definition inherited_query `{QS : !Queries} db f view (recovers : bool)
    : option (list InheritedLayers) :=
  if recovers then Some [] else inherited_layers_body db f view.
Definition base_query `{QS : !Queries} db base name (recovers : bool) : option bool :=
  Some (if recovers then false else base_binds_body db base name).

(** The answers of a revision. Answers are given in an order ([rank]): the
    answer of a key that is not [recovered] is what its body computes,
    whatever the keys that are not answered before it would say. *)
Record revision db Q (rank : Key → nat) (recovered : Key → bool) : Prop := {
  rev_index f Q' :
    index_query (QS := restrict (λ k, bool_decide (rank k < rank (KSemanticIndex f))) Q Q')
      db f (recovered (KSemanticIndex f)) = Some (@q_semantic_index _ _ Q f);
  rev_exports f Q' :
    exports_query (QS := restrict (λ k, bool_decide (rank k < rank (KExports f))) Q Q')
      db f (recovered (KExports f)) = Some (@q_exports _ _ Q f);
  rev_attached f Q' :
    attached_query (QS := restrict (λ k, bool_decide (rank k < rank (KAttachedPackages f))) Q Q')
      f (recovered (KAttachedPackages f)) = Some (@q_attached_packages _ _ Q f);
  rev_cross f view Q' :
    cross_query (QS := restrict (λ k, bool_decide (rank k < rank (KCrossFileLayers f view))) Q Q')
      db f view (recovered (KCrossFileLayers f view)) = Some (@q_cross_file_layers _ _ Q f view);
  rev_inherited f view Q' :
    inherited_query (QS := restrict (λ k, bool_decide (rank k < rank (KInheritedLayers f view))) Q Q')
      db f view (recovered (KInheritedLayers f view)) = Some (@q_inherited_layers _ _ Q f view);
  rev_base base name Q' :
    base_query (QS := restrict (λ k, bool_decide (rank k < rank (KBaseBinds base name))) Q Q')
      db base name (recovered (KBaseBinds base name)) = Some (@q_base_binds _ _ Q base name);
}.
End revision.


(** A NAMESPACE or source file parses to calls with ranges of their own. *)
Definition parser_lawful `{TextRanges, !RParser} : Prop :=
  ∀ contents, calls_have_own_ranges (parse_expressions contents).

(** The cells of open notebooks are files. *)
Definition cells_exist (db : Db) : Prop :=
  ∀ n c, n ∈ open_notebooks db → c ∈ n_cells (notebook db n) → c < length (files db).

Section facts.
Context `{TR : TextRanges} `{HO : HashOrder} `{UO : UrlOps} `{RD : DbReads} `{RP : !RParser}.
Context `{HT : HandlerTypes} `{HD : !Handlers} `{HL : !HandlersLawful} `{BP : BuildProfile} `{MJ : MergeJoinBy}.
Context (registry : list PackageEntry).
Implicit Types (f : File).

(** ** Indexes *)

Lemma with_diagnostic_wf d ix : index_wf ix → index_wf (with_diagnostic d ix).
Proof. by intros []; split. Qed.

Lemma answered_index_wf {IR : ImportsResolver} contents ix :
  debug_assertions = false → parser_lawful →
  answer (build_index (H3 := IR) (build_fuel (parse_expressions contents))
    (parse_expressions contents) (parse_range contents)) = Some ix → index_wf ix.
Proof.
  intros Hrel Hparse Hb.
  pose proof (build_wp (parse_expressions contents) (build_fuel (parse_expressions contents))
    (builder_new (parse_range contents)) Hrel (Hparse contents)) as Hwp.
  unfold wp in Hwp. unfold build_index in Hb. destruct (build _ _ _) as [ix' b|b|]; try done.
  injection Hb as ->. apply Hwp; [|unfold build_fuel; lia|apply builder_new_wf|done].
  unfold build_fuel. intros e He. apply (lsize_elem esize) in He. lia.
Qed.

Context (db : Db) (Q : Queries) (rank : Key → nat) (recovered : Key → bool).
Context (Hrev : revision registry db Q rank recovered).

Lemma restrict_same low : restrict low Q Q = Q.
Proof. apply restrict_agree. by intros []. Qed.

Lemma index_answer f :
  index_query registry db f (recovered (KSemanticIndex f)) = Some (q_semantic_index f).
Proof. rewrite <-(rev_index _ _ _ _ _ Hrev f Q). by rewrite restrict_same. Qed.

Lemma exports_answer f : exports_query db f (recovered (KExports f)) = Some (q_exports f).
Proof. rewrite <-(rev_exports _ _ _ _ _ Hrev f Q). by rewrite restrict_same. Qed.

Lemma cross_answer f view :
  cross_query db f view (recovered (KCrossFileLayers f view)) = Some (q_cross_file_layers f view).
Proof. rewrite <-(rev_cross _ _ _ _ _ Hrev f view Q). by rewrite restrict_same. Qed.

Lemma revision_indexes_wf : debug_assertions = false → parser_lawful → indexes_wf.
Proof.
  intros Hrel Hparse f. pose proof (index_answer f) as Ha. unfold index_query in Ha.
  destruct (recovered _).
  - unfold semantic_index_fallback in Ha. destruct (answer _) as [ix|] eqn:Hb; [|done].
    simpl in Ha. injection Ha as Ha. rewrite <-Ha. apply with_diagnostic_wf. exact (answered_index_wf _ _ Hrel Hparse Hb).
  - exact (answered_index_wf _ _ Hrel Hparse Ha).
Qed.

(** ** Exports *)

Lemma export_entries_spec defs :
  NoDup (export_entries db defs) ∧
  ∀ e, e ∈ export_entries db defs ↔ ∃ x def, (x, def) ∈ defs ∧ export_entry db def = Some e.
Proof.
  unfold export_entries.
  assert (Hg : ∀ acc, NoDup acc →
    let l := foldl (λ list_ '(_, def), match export_entry db def with
      | None => list_ | Some entry => if bool_decide (entry ∈ list_) then list_ else list_ ++ [entry] end)
      acc defs in
    NoDup l ∧ ∀ e, e ∈ l ↔ e ∈ acc ∨ ∃ (x : nat) def, (x, def) ∈ defs ∧ export_entry db def = Some e).
  { induction defs as [|[x def] defs IH]; intros acc Hacc; simpl.
    { split; [done|]. intros e. split; [by left|]. by intros [?|(? & ? & ?%elem_of_nil & _)]. }
    destruct (export_entry db def) as [entry|] eqn:He; [case_bool_decide as Hin|].
    - destruct (IH acc Hacc) as [Hn Hl]. split; [done|]. intros e. rewrite Hl. split.
      + intros [?|(y & d & ? & ?)]; [by left|]. right. exists y, d. split; [by right|done].
      + intros [?|(y & d & [[= -> ->]|?]%elem_of_cons & He')]; [by left| |right; eauto].
        left. congruence.
    - destruct (IH (acc ++ [entry])) as [Hn Hl].
      { apply NoDup_app. split; [done|]. split; [|apply NoDup_singleton].
        intros y Hy ->%list_elem_of_singleton. done. }
      split; [done|]. intros e. rewrite Hl, elem_of_app, list_elem_of_singleton. split.
      + intros [[?| ->]|(y & d & ? & ?)]; [by left| |]; right; [exists x, def|exists y, d];
          (split; [|done]); [by left|by right].
      + intros [?|(y & d & [[= -> ->]|?]%elem_of_cons & He')]; [by left; left| |right; eauto].
        left; right. congruence.
    - destruct (IH acc Hacc) as [Hn Hl]. split; [done|]. intros e. rewrite Hl. split.
      + intros [?|(y & d & ? & ?)]; [by left|]. right. exists y, d. split; [by right|done].
      + intros [?|(y & d & [[= -> ->]|?]%elem_of_cons & He')]; [by left|congruence|right; eauto]. }
  destruct (Hg [] (NoDup_nil_2)) as [Hn Hl]. split; [done|]. intros e. rewrite Hl.
  split; [intros [?%elem_of_nil|?]; done|by right].
Qed.

Lemma file_by_path_valid fp g : placed db → file_by_path db fp = Some g → g < length (files db).
Proof.
  intros Hp Hg. pose proof (file_by_path_spec db fp) as Hs. rewrite Hg in Hs.
  destruct Hs as [Hlive _]. by eapply live_valid.
Qed.

(** The entries of a name come from its definitions, unless the file takes
    part in a cycle. *)
Lemma exports_entries f name entries :
  q_exports f !! name = Some entries →
  ∃ all defs, exports (q_semantic_index f) = Some all ∧ all !! name = Some defs ∧
    entries = export_entries db defs.
Proof.
  intros He. pose proof (exports_answer f) as Ha. unfold exports_query in Ha.
  destruct (recovered _); [injection Ha as Ha|].
  { rewrite <-Ha in He. discriminate He. }
  unfold exports_body in Ha. destruct (exports _) as [all|]; [|done].
  simpl in Ha. injection Ha as Ha. rewrite <-Ha in He.
  pose proof (lookup_fmap (M := gmap string) (export_entries db) all name) as Hf.
  unfold FileExports in He. rewrite Hf in He. clear Hf.
  destruct (all !! name) as [defs|] eqn:Hd; [|done]. simpl in He. injection He as <-. by exists all, defs.
Qed.

Lemma revision_exports_ok : placed db → exports_ok db.
Proof.
  intros Hp. split.
  - intros f name entries g name' _ He Hin.
    destruct (exports_entries _ _ _ He) as (all & defs & _ & _ & ->).
    apply export_entries_spec in Hin as (x & def & _ & Hd). unfold export_entry in Hd.
    destruct (def_kind def); try done. destruct (file_by_path db _) as [target|] eqn:Ht; [|done].
    simpl in Hd. injection Hd as -> _. by eapply file_by_path_valid.
  - intros f name entries He. destruct (exports_entries _ _ _ He) as (all & defs & _ & _ & ->).
    apply export_entries_spec.
Qed.

(** ** Layers *)

Lemma notebook_by_cell_open f n : notebook_by_cell db f = Some n → n ∈ open_notebooks db.
Proof.
  unfold notebook_by_cell, notebook_cell_index.
  assert (Hg : ∀ l (m : gmap File Notebook), foldl (λ m n, foldl (λ m cell, <[cell := n]> m) m (n_cells (notebook db n))) m l !! f = Some n →
    n ∈ l ∨ m !! f = Some n); [|intros [?|?]%Hg; [done|by rewrite lookup_empty in *]].
  induction l as [|n' l IH]; intros m; simpl; [by right|].
  intros [?|Hm]%IH; [left; by right|].
  assert (Hc : ∀ cells (m : gmap File Notebook), foldl (λ m cell, <[cell := n']> m) m cells !! f = Some n →
    n = n' ∨ m !! f = Some n).
  { induction cells as [|c cells IHc]; intros m0; simpl; [by right|].
    intros [?|Hm0]%IHc; [by left|]. destruct (decide (c = f)) as [->|Hne].
    - rewrite lookup_insert_eq in Hm0. left. congruence.
    - rewrite lookup_insert_ne in Hm0 by done. by right. }
  apply Hc in Hm as [->|Hm]; [left; left|by right].
Qed.

Definition file_valid f : Prop := f < length (files db).

Definition layer_valid (layer : ImportLayer) : Prop :=
  match layer with LFile g | LSourcingFile g _ => file_valid g | LFrom _ | LPackage _ => True end.

Context (Hplaced : placed db) (Hcells : cells_exist db).

Lemma workspace_root_files_valid g : g ∈ workspace_root_files virtual_depth db → file_valid g.
Proof.
  unfold workspace_root_files. intros (r & Hg & Hr)%list_elem_of_bind.
  apply list_elem_of_filter in Hg as [_ Hg]. eapply live_valid; [exact Hplaced|]. left. exists r.
  split; [|done]. unfold live_list. apply elem_of_app. by left.
Qed.

Lemma files_in_directory_valid dir g : g ∈ files_in_directory db dir → file_valid g.
Proof.
  unfold files_in_directory. rewrite sort_by_key_perm.
  intros [_ Hg]%list_elem_of_filter. by apply workspace_root_files_valid.
Qed.

Lemma load_environment_elem f collation view n g :
  g ∈ load_environment f collation view n → g = f ∨ g ∈ collation.
Proof.
  unfold load_environment. destruct view.
  - intros [Hg| ->%list_elem_of_singleton]%elem_of_app; [right|by left]. by eapply elem_of_sublist; [|apply sublist_take].
  - intros [[Hg| ->%list_elem_of_singleton]%elem_of_app|Hg]%elem_of_app; [right|by left|right];
      eapply elem_of_sublist; try exact Hg; [apply sublist_take|apply sublist_drop].
Qed.

(** The files of a context exist. *)
Definition context_valid (c : LoadContext) : Prop :=
  ∀ environment g, environment ∈ lc_environments c → g ∈ environment → file_valid g.

Lemma shiny_global_valid dir g : g ∈ Shiny.option_list (Shiny.shiny_global_file db dir) → file_valid g.
Proof.
  unfold Shiny.shiny_global_file. destruct (List.find _ _) as [h|] eqn:Hf; simpl; [|by intros ?%elem_of_nil].
  intros ->%list_elem_of_singleton. apply List.find_some in Hf as [Hin%list_elem_of_In _].
  by eapply files_in_directory_valid.
Qed.

Lemma shiny_autoload_valid f autoload g :
  Shiny.shiny_autoload db f = Some autoload → g ∈ autoload → file_valid g.
Proof.
  unfold Shiny.shiny_autoload. destruct (Shiny.enclosing_app_dir db f) as [dir|].
  - destruct (Shiny.r_autoload_disabled db dir); [done|]. intros [= <-]. apply shiny_global_valid.
  - destruct (Shiny.shiny_app_dir db f) as [dir|]; [|done]. simpl. intros [= <-].
    unfold Shiny.shiny_support_files. destruct (Shiny.r_autoload_disabled db dir);
      [apply shiny_global_valid|].
    intros [Hg|Hg]%elem_of_app; [by eapply shiny_global_valid|by eapply files_in_directory_valid].
Qed.

Lemma collation_environment_valid f view g :
  file_valid f → g ∈ collation_environment db f view → file_valid g.
Proof.
  intros Hf [->|Hg]%load_environment_elem; [done|]. unfold collation_siblings in Hg.
  destruct (file_as_path db f ≫= parent); [by eapply files_in_directory_valid|by apply elem_of_nil in Hg].
Qed.

Lemma package_files_valid p g : g ∈ p_files (package db p) → file_valid g.
Proof. intros Hg. eapply (pl_listing _ _ Hplaced p). apply elem_of_app. by left. Qed.

Lemma package_scripts_valid p g : g ∈ p_scripts (package db p) → file_valid g.
Proof. intros Hg. eapply (pl_listing _ _ Hplaced p). apply elem_of_app. by right. Qed.

Lemma load_context_valid f view : file_valid f → context_valid (load_context db f view).
Proof.
  intros Hf. unfold load_context.
  destruct (notebook_load_context db f view) as [c|] eqn:Hn.
  { unfold notebook_load_context in Hn. destruct (notebook_by_cell db f) as [n|] eqn:Hcell; [|done].
    simpl in Hn. destruct (position _ _) as [i|]; [|done]. simpl in Hn. injection Hn as <-.
    intros env g ->%list_elem_of_singleton [->|Hg]%load_environment_elem; [done|].
    apply notebook_by_cell_open in Hcell. by eapply Hcells. }
  destruct (Testthat.load_context db f view) as [c|] eqn:Ht.
  { unfold Testthat.load_context in Ht. destruct (f_package (file db f)) as [p|]; [|done]. simpl in Ht.
    destruct (negb _); [done|]. injection Ht as <-.
    assert (Hs : ∀ g key, g ∈ sort_by_key text_le key
      (filter (λ script, Testthat.is_testthat_support_file db script) (p_scripts (package db p))) → file_valid g).
    { intros g key. rewrite sort_by_key_perm. intros [_ Hg]%list_elem_of_filter.
      by eapply package_scripts_valid. }
    intros env g [Henv| ->%list_elem_of_singleton]%elem_of_app Hg; [|by eapply package_files_valid].
    destruct (position _ _).
    - apply list_elem_of_singleton in Henv as ->. apply load_environment_elem in Hg as [->|Hg]; [done|].
      by eapply Hs.
    - apply elem_of_cons in Henv as [->| ->%list_elem_of_singleton];
        [by apply list_elem_of_singleton in Hg as ->|by eapply Hs]. }
  destruct (package_load_context db f view) as [c|] eqn:Hp.
  { unfold package_load_context in Hp. destruct (f_package (file db f)) as [p|]; [|done]. simpl in Hp.
    destruct (position _ _) as [i|]; [|done]. simpl in Hp. injection Hp as <-.
    intros env g ->%list_elem_of_singleton [->|Hg]%load_environment_elem; [done|].
    by eapply package_files_valid. }
  destruct (Shiny.load_context db f view) as [c|] eqn:Hs.
  { unfold Shiny.load_context in Hs. destruct (in_r_directory db f).
    - destruct (Shiny.shiny_autoload db f) as [autoload|] eqn:Ha; [|done]. simpl in Hs. injection Hs as <-.
      intros env g [->|[->|[]%elem_of_nil]%elem_of_cons]%elem_of_cons Hg;
        [by eapply collation_environment_valid|by eapply shiny_autoload_valid].
    - destruct (Shiny.shiny_autoload db f) as [autoload|] eqn:Ha.
      + injection Hs as <-. intros env g [->|[->|[->|[]%elem_of_nil]%elem_of_cons]%elem_of_cons]%elem_of_cons Hg.
        * by apply list_elem_of_singleton in Hg as ->.
        * apply list_elem_of_filter in Hg as [_ Hg]. by eapply shiny_autoload_valid.
        * apply list_elem_of_filter in Hg as [_ Hg]. by eapply shiny_autoload_valid.
      + destruct (Shiny.is_shiny_global_file db f); [|done]. injection Hs as <-.
        by intros env g ->%list_elem_of_singleton ->%list_elem_of_singleton. }
  by intros env g ->%list_elem_of_singleton ->%list_elem_of_singleton.
Qed.

Lemma package_layers_valid names layer : layer ∈ package_layers db names → layer_valid layer.
Proof.
  unfold package_layers, package_layer. intros (n & _ & Hl)%list_elem_of_omap.
  destruct (package_by_name db (text_of n)); [by injection Hl as <-|done].
Qed.

(** Layers of a list, and of the layers of a load. *)
Definition layers_valid (l : list ImportLayer) : Prop := ∀ layer, layer ∈ l → layer_valid layer.

Record cross_valid (l : FileLoadLayers) : Prop := {
  cv_environments g : g ∈ lookup_files (fl_environments l) → file_valid g;
  cv_enclosing : layers_valid (cl_enclosing (fl_layers l));
  cv_attaches : layers_valid (cl_attaches (fl_layers l));
}.

Lemma lower_load_context_valid f c :
  context_valid c → cross_valid (lower_load_context db f c).
Proof.
  intros Hc. split; simpl.
  - intros g. unfold lookup_files. intros (env & Hg & Henv)%list_elem_of_bind.
    apply (Hc env g Henv). by rewrite elem_of_reverse in Hg.
  - destruct (lc_kind c); [|by intros ? ?%elem_of_nil].
    unfold extend_with_namespace_package_imports, extend_with_namespace_imports.
    intros layer [Hl|Hl]%elem_of_app; [|by eapply package_layers_valid].
    destruct (ns_imports _); [by apply elem_of_nil in Hl|]. by apply list_elem_of_singleton in Hl as ->.
  - intros layer. apply package_layers_valid.
Qed.

Lemma revision_cross f view :
  cross_valid (q_cross_file_layers f view) ∨ ¬ file_valid f.
Proof.
  destruct (decide (f < length (files db))) as [Hf|Hf]; [left|by right].
  pose proof (cross_answer f view) as Ha. unfold cross_query in Ha. injection Ha as <-.
  destruct (lower_load_context_valid f _ (load_context_valid f view Hf)) as [H1 H2 H3].
  destruct (recovered _); [by split|]. split; simpl; [done|done|].
  intros layer [Hl|Hl]%elem_of_app; [|by apply H3].
  unfold predecessor_attach_layers in Hl. apply list_elem_of_bind in Hl as (g & Hl & _).
  by eapply package_layers_valid.
Qed.

(** ** Attaches *)

Context (Hwf : indexes_wf).

Lemma sees_total ix view call region :
  index_wf ix → call_scope call < length (ix_scopes ix) →
  match view with VLazyAt _ scope => scope < length (ix_scopes ix) | _ => True end →
  is_Some (sees view ix call region).
Proof.
  intros Hix Hc Hs. destruct (scope_is_eager_spec _ _ Hix Hc) as (e & He & _).
  destruct view as [| |offset scope|offsets]; simpl; rewrite ?He; simpl; eauto.
  destruct (ix_ancestors _ _ Hix Hc) as (l & Hl & _). unfold enclosing_lazy_scope. rewrite Hl. simpl.
  destruct (find_kind _ _ _); [|eauto]. destruct (ix_ancestors _ _ Hix Hs) as (l' & Hl' & _).
  rewrite Hl'. simpl. eauto.
Qed.

Lemma attach_layers_total f view :
  match view with VLazyAt _ scope => scope < length (ix_scopes (q_semantic_index f)) | _ => True end →
  ∃ l, attach_layers db f view = Some l ∧ layers_valid l.
Proof.
  intros Hv. unfold attach_layers.
  destruct (mapM_total (λ '(call, package, region),
    s ← sees view (q_semantic_index f) call region; Some (s, package)) (λ _ _, True)
    (omap attach_of (reverse (ix_semantic_calls (q_semantic_index f))))) as (seen & Hs & _).
  { intros [[call package] region] (c & Hc & Hcall)%list_elem_of_omap. rewrite elem_of_reverse in Hc.
    assert (call = c) as ->.
    { unfold attach_of in Hcall. destruct (call_kind c); [by injection Hcall|done]. }
    destruct (sees_total (q_semantic_index f) view c region) as [s Hsee];
      [apply Hwf|by apply (iw_calls _ (Hwf f))|done|]. rewrite Hsee. simpl. by eexists; split. }
  rewrite Hs. simpl. eexists; split; [done|].
  intros layer ([s package] & _ & Hl)%list_elem_of_omap. destruct s; [|done].
  apply (package_layers_valid [package]). unfold package_layers. apply list_elem_of_omap.
  exists package. split; [by left|done].
Qed.

(** ** Inherited layers *)

Definition inherited_valid (l : list InheritedLayers) : Prop :=
  ∀ site, site ∈ l → layers_valid (cl_enclosing (il_layers site)) ∧
    layers_valid (cl_attaches (il_layers site)).

Lemma attach_layers_valid {QS : Queries} f view l :
  attach_layers (Q := QS) db f view = Some l → layers_valid l.
Proof.
  unfold attach_layers. destruct (mapM _ _) as [seen|]; [|done]. simpl. intros [= <-].
  intros layer ([s package] & _ & Hl)%list_elem_of_omap. destruct s; [|done].
  apply (package_layers_valid [package]). unfold package_layers. apply list_elem_of_omap.
  exists package. split; [by left|done].
Qed.

Lemma source_site_target {QS : Queries} f site g :
  site ∈ source_sites (Q := QS) db f → ss_target site = Some g → file_valid g.
Proof.
  unfold source_sites. intros (call & _ & Hs)%list_elem_of_omap Hg. unfold source_site in Hs.
  destruct (call_kind call) as [|s resolved]; [done|]. injection Hs as <-. simpl in Hg.
  destruct resolved as [url|]; [|done]. simpl in Hg. by eapply file_by_path_valid.
Qed.

Lemma elem_of_push_new l acc g : g ∈ push_new l acc ↔ g ∈ l ∨ g ∈ acc.
Proof.
  unfold push_new. revert acc. induction l as [|h l IH]; intros acc; simpl.
  { split; [by right|]. by intros [?%elem_of_nil|?]. }
  rewrite IH, elem_of_cons. case_bool_decide as Hh.
  - split; [intros [?|?]; auto|intros [[->|?]|?]; auto].
  - rewrite elem_of_app, list_elem_of_singleton. tauto.
Qed.

Lemma loaded_before_valid {QS : Queries} site f offsets g :
  g ∈ loaded_before (Q := QS) db site f offsets → file_valid g.
Proof.
  unfold loaded_before. generalize (reverse offsets). intros l.
  assert (Hg : ∀ acc, (∀ h, h ∈ acc → file_valid h) → ∀ h, h ∈ foldl (λ loaded offset,
    let targets := omap ss_target (filter (λ site0, ss_offset site0 = offset) (source_sites (Q := QS) db site)) in
    match position (λ target, target = f) targets with
    | None => loaded | Some own => push_new (reverse (take own targets)) loaded end) acc l → file_valid h).
  { induction l as [|offset l IH]; intros acc Hacc; [done|]. simpl. apply IH.
    destruct (position _ _) as [own|]; [|done]. intros h [Hh|Hh]%elem_of_push_new; [|by apply Hacc].
    rewrite elem_of_reverse in Hh. eapply elem_of_sublist in Hh; [|apply sublist_take].
    apply list_elem_of_omap in Hh as (s & [_ Hs]%list_elem_of_filter & Ht). by eapply source_site_target. }
  apply Hg. by intros ? ?%elem_of_nil.
Qed.

Lemma sourced_by_valid {QS : Queries} f g : g ∈ sourced_by (Q := QS) db f → file_valid g.
Proof.
  intros [Hg _]%elem_of_sourced_by. eapply live_valid; [exact Hplaced|]. by apply workspace_files_live.
Qed.

Lemma build_inherited_valid {QS : Queries} f site view l :
  (∀ g v, file_valid g → cross_valid (@q_cross_file_layers _ _ QS g v)) →
  (∀ g v, inherited_valid (@q_inherited_layers _ _ QS g v)) → file_valid site →
  build_inherited_layers (Q := QS) db f site view = Some l →
  layers_valid (cl_enclosing (il_layers l)) ∧ layers_valid (cl_attaches (il_layers l)).
Proof.
  intros Hc Hi Hsite. unfold build_inherited_layers.
  destruct (pinned_offsets db f site view) as [offsets|]; [|done]. cbn [mbind option_bind].
  destruct (site_attaches db site view offsets) as [[own_attach exports_so_far]|] eqn:Hown; [|done].
  cbn [mbind option_bind]. intros [= <-]. simpl.
  assert (Hatt : layers_valid own_attach).
  { assert (∃ v own, attach_layers (Q := QS) db site v = Some own ∧ own_attach = own) as (v & own & Ha & ->);
      [|by eapply attach_layers_valid].
    unfold site_attaches in Hown. destruct offsets as [o|]; apply bind_Some in Hown as (own & Ha & [= <- _]); eauto. }
  destruct (Hc site view Hsite) as [C1 C2 C3]. specialize (Hi site view). split.
  - intros layer. unfold definition_layers.
    rewrite elem_of_app, elem_of_cons, !elem_of_app. intros [Hl|[Hl|[[Hl|Hl]|Hl]]].
    + destruct offsets as [offsets|]; [|by apply elem_of_nil in Hl].
      apply list_elem_of_fmap in Hl as (g & -> & Hg). by eapply loaded_before_valid.
    + rewrite Hl. by destruct exports_so_far.
    + unfold environment_layers in Hl. apply list_elem_of_fmap in Hl as (g & -> & [_ Hg]%list_elem_of_filter).
      by apply C1.
    + by apply C2.
    + apply list_elem_of_bind in Hl as (s & Hl & Hs). by apply (proj1 (Hi s Hs)).
  - intros layer. rewrite !elem_of_app. intros [Hl|[Hl|Hl]].
    + by apply Hatt.
    + apply list_elem_of_bind in Hl as (s & Hl & Hs). by apply (proj2 (Hi s Hs)).
    + by apply C3.
Qed.

Definition without_inherited : Queries := {|
  q_semantic_index := @q_semantic_index _ _ Q;
  q_exports := @q_exports _ _ Q;
  q_attached_packages := @q_attached_packages _ _ Q;
  q_cross_file_layers := @q_cross_file_layers _ _ Q;
  q_inherited_layers _ _ := [];
  q_base_binds := @q_base_binds _ _ Q;
|}.

(** Answers are given in order, so what each body preserves holds of all. *)
Lemma revision_inherited f view : inherited_valid (q_inherited_layers f view).
Proof.
  remember (rank (KInheritedLayers f view)) as n eqn:Hn. revert f view Hn.
  induction n as [n IH] using lt_wf_ind. intros f view ->.
  pose proof (rev_inherited _ _ _ _ _ Hrev f view without_inherited) as Ha.
  set (R := restrict _ Q without_inherited) in Ha. unfold inherited_query in Ha.
  destruct (recovered _); [injection Ha as <-; by intros ? ?%elem_of_nil|].
  unfold inherited_layers_body in Ha.
  destruct (fixes_load_order _); [injection Ha as <-; by intros ? ?%elem_of_nil|].
  apply mapM_Some in Ha. intros l Hl. eapply Forall2_elem_r in Hl as (site & Hsite & Hb); [|exact Ha].
  eapply (build_inherited_valid (QS := R)); [| | |exact Hb].
  - intros g v Hg. simpl. assert (cross_valid (@q_cross_file_layers _ _ Q g v)) as Hcv.
    { by destruct (revision_cross g v). }
    by destruct (bool_decide _).
  - intros g v. simpl. case_bool_decide as Hlt; [by eapply IH|]. by intros ? ?%elem_of_nil.
  - by eapply sourced_by_valid.
Qed.
End facts.
