(* ===== verification/LookupFacts.v ===== *)
(** * Lemmas on lookups

    Looking a name up in a list of places collects what each gives, up to the
    first that ends the search ([seen]); on a settled revision no lookup
    panics. *)

From S2P Require Export Revision.
#[local] Open Scope list_scope.

(** ** Searching places in order *)

Section seen.
Context {A D : Type} (gives : A → D → Prop) (ends : A → Prop).

(** What some place gives, no place before it ending the search. *)
Definition seen (l : list A) (d : D) : Prop :=
  ∃ pre x post, l = pre ++ x :: post ∧ gives x d ∧ ∀ y, y ∈ pre → ¬ ends y.

Lemma seen_nil d : ¬ seen [] d.
Proof. intros ([|? pre] & x & post & [=] & _). Qed.

Lemma seen_cons x l d : seen (x :: l) d ↔ gives x d ∨ (¬ ends x ∧ seen l d).
Proof.
  split.
  - intros ([|y pre] & z & post & [= <- ->] & Hg & Hpre); [by left|right].
    split; [apply Hpre; left|]. exists pre, z, post. split; [done|]. split; [done|].
    intros w Hw. apply Hpre. by right.
  - intros [Hg|(Hx & pre & z & post & -> & Hg & Hpre)].
    + exists [], x, l. split; [done|]. split; [done|]. by intros ? ?%elem_of_nil.
    + exists (x :: pre), z, post. split; [done|]. split; [done|]. by intros w [->|Hw]%elem_of_cons; auto.
Qed.

(** Places behind one that ends the search are not looked at. *)
Lemma seen_app_ended l k d : (∃ x, x ∈ l ∧ ends x) → seen (l ++ k) d → seen l d.
Proof.
  induction l as [|x l IH]; simpl; [by intros (? & ?%elem_of_nil & _)|].
  intros (y & Hy & He). rewrite !seen_cons. intros [?|[Hx Hs]]; [by left|right]. split; [done|].
  apply IH; [|done]. apply elem_of_cons in Hy as [->|Hy]; [done|by exists y].
Qed.
End seen.

Section lookup.
Context `{TR : TextRanges} `{HO : HashOrder} `{UO : UrlOps} `{RD : DbReads} `{RP : !RParser}.
Context `{HT : HandlerTypes} `{HD : !Handlers} `{HL : !HandlersLawful} `{BP : BuildProfile} `{MJ : MergeJoinBy}.
Implicit Types (f : File) (name : string).

(** A revision of a database that the scanner maintains ([placement_invariant]),
    in a release build. *)
Record settled (registry : list PackageEntry) (db : Db) (Q : Queries) (rank : Key → nat)
    (recovered : Key → bool) : Prop := {
  se_revision : revision registry db Q rank recovered;
  se_release : debug_assertions = false;
  se_parser : parser_lawful;
  se_placed : placed db;
  se_cells : cells_exist db;
}.

Context (registry : list PackageEntry) (db : Db) (Q : Queries).
Context (rank : Key → nat) (recovered : Key → bool).
Context (Hset : settled registry db Q rank recovered).

Lemma settled_indexes : indexes_wf.
Proof. destruct Hset. by eapply revision_indexes_wf. Qed.

Lemma settled_exports : exports_ok db.
Proof. destruct Hset. by eapply revision_exports_ok. Qed.

Lemma settled_cross f view : file_valid db f → cross_valid db (q_cross_file_layers f view).
Proof. intros Hf. destruct Hset. by destruct (revision_cross _ _ _ _ _ se_revision0 se_placed0 se_cells0 f view). Qed.

Lemma settled_current_file f view : fl_current_file (q_cross_file_layers f view) = f.
Proof.
  pose proof (cross_answer _ _ _ _ _ (se_revision _ _ _ _ _ Hset) f view) as Ha.
  unfold cross_query in Ha. injection Ha as <-. by destruct (recovered _).
Qed.

(** ** Totality *)

Lemma resolve_export_total f name :
  file_valid db f → ∃ l, resolve_export db f name = Some l.
Proof.
  intros Hf. unfold resolve_export, export_fuel.
  destruct (chase_spec db (S (size (export_keys db))) f name ∅ [] settled_indexes settled_exports Hf)
    as (V' & keys & ls & Hrun & _).
  { rewrite difference_empty_L. lia. }
  rewrite Hrun. eauto.
Qed.

Lemma package_resolve_total p name visibility :
  ∃ l, package_resolve db p name visibility = Some l.
Proof.
  unfold package_resolve. generalize (S (S (length (packages db)))). intros fuel.
  revert p visibility. induction fuel as [|fuel IH]; intros p visibility; [by exists []|].
  cbn [package_resolve_from]. destruct (_ && _ && _); [by exists []|].
  destruct (mapM_total (λ f, resolve_export db f name) (λ _ _, True) (p_files (package db p)))
    as (results & Hr & _).
  { intros f Hf. destruct (resolve_export_total f name) as [l Hl]; [|by exists l].
    eapply package_files_valid; [|exact Hf]. by destruct Hset. }
  rewrite Hr. simpl. destruct (concat results); [|eauto].
  destruct (_ ≫= _) as [source|]; [apply IH|by exists []].
Qed.

Lemma resolve_import_layer_total layer name :
  layer_valid db layer → ∃ l, resolve_import_layer db layer name = Some l.
Proof.
  destruct layer as [f|f e|p|p]; simpl; intros Hv.
  - by apply resolve_export_total.
  - destruct (Timeline.contains e name); [by apply resolve_export_total|by exists []].
  - destruct (_ ≫= _) as [q|]; [apply package_resolve_total|by exists []].
  - apply package_resolve_total.
Qed.

Lemma export_is_bound_total f name : ∃ b, file_export_is_bound f name = Some b.
Proof.
  unfold file_export_is_bound, export_is_bound. pose proof (settled_indexes f) as Hix.
  assert (H0 : 0 < length (ix_scopes (q_semantic_index f))).
  { destruct (iw_tree _ Hix) as [_ Hne]. destruct (ix_scopes _); [done|simpl; lia]. }
  destruct (ix_scope_tables _ _ Hix H0) as (t & _ & _ & _ & Ht & _). unfold IndexVec.index.
  rewrite Ht. simpl. eauto.
Qed.

Lemma layer_is_bound_total layer name : ∃ b, layer_is_bound layer name = Some b.
Proof. destruct layer; simpl; [apply export_is_bound_total|eauto..]. Qed.

(** ** What layers give *)

Definition layer_gives name (layer : ImportLayer) (d : Definition') : Prop :=
  ∃ l, resolve_import_layer db layer name = Some l ∧ d ∈ l.

Definition layer_ends name (layer : ImportLayer) : Prop :=
  (∃ d, layer_gives name layer d) ∧ layer_is_bound layer name = Some true.

Lemma elem_of_extend candidates acc d :
  d ∈ extend_definitions candidates acc ↔ d ∈ candidates ∨ d ∈ acc.
Proof.
  unfold extend_definitions. revert acc. induction candidates as [|c l IH]; intros acc; simpl.
  { split; [by right|]. by intros [?%elem_of_nil|?]. }
  rewrite IH, elem_of_cons. case_bool_decide as Hc.
  - split; [intros [?|?]; auto|intros [[->|?]|?]; auto].
  - rewrite elem_of_app, list_elem_of_singleton. tauto.
Qed.

Lemma extend_nodup candidates acc : NoDup acc → NoDup (extend_definitions candidates acc).
Proof.
  unfold extend_definitions. revert acc. induction candidates as [|c l IH]; intros acc Hn; simpl; [done|].
  apply IH. case_bool_decide as Hc; [done|]. apply NoDup_app. split; [done|]. split; [|apply NoDup_singleton].
  by intros x Hx ->%list_elem_of_singleton.
Qed.

Lemma resolve_import_layers_spec layers name acc :
  layers_valid db layers →
  ∃ b out, resolve_import_layers db layers name acc = Some (b, out) ∧
    (∀ d, d ∈ out ↔ d ∈ acc ∨ seen (layer_gives name) (layer_ends name) layers d) ∧
    (b = true ↔ ∃ layer, layer ∈ layers ∧ layer_ends name layer) ∧ (NoDup acc → NoDup out).
Proof.
  revert acc. induction layers as [|layer layers IH]; intros acc Hv.
  { exists false, acc. split; [done|]. split; [|split; [|done]].
    - intros d. split; [by left|]. by intros [?|?%seen_nil].
    - split; [done|]. by intros (? & ?%elem_of_nil & _). }
  assert (Hv' : layers_valid db layers) by (intros l Hl; apply Hv; by right).
  destruct (resolve_import_layer_total layer name) as [defs Hd]; [apply Hv; by left|].
  cbn [resolve_import_layers]. rewrite Hd. cbn [mbind option_bind].
  assert (Hg : ∀ d, layer_gives name layer d ↔ d ∈ defs).
  { intros d. split; [intros (l & Hl & ?); congruence|intros; by exists defs]. }
  destruct (layer_is_bound_total layer name) as [b Hb].
  assert (Hends : layer_ends name layer ↔ defs ≠ [] ∧ b = true).
  { unfold layer_ends. rewrite Hb. split.
    - intros [(d & Hgd%Hg) [= ->]]. split; [|done]. intros ->. by apply elem_of_nil in Hgd.
    - intros [Hne ->]. split; [|done]. destruct defs as [|d defs]; [done|]. exists d. apply Hg. by left. }
  assert (Hrest : ∀ acc', (¬ layer_ends name layer) → (∀ d, d ∈ acc' ↔ d ∈ acc ∨ d ∈ defs) →
    (NoDup acc → NoDup acc') → ∃ b0 out, resolve_import_layers db layers name acc' = Some (b0, out) ∧
    (∀ d, d ∈ out ↔ d ∈ acc ∨ seen (layer_gives name) (layer_ends name) (layer :: layers) d) ∧
    (b0 = true ↔ ∃ l, l ∈ layer :: layers ∧ layer_ends name l) ∧ (NoDup acc → NoDup out)).
  { intros acc' Hne Hacc Hnd. destruct (IH acc' Hv') as (b0 & out & -> & Hout & Hb0 & Hnd').
    exists b0, out. split; [done|]. split; [|split; [|auto]].
    - intros d. rewrite Hout, seen_cons, Hg, Hacc. tauto.
    - rewrite Hb0. split; [intros (l & Hl & ?); exists l; split; [by right|done]|].
      intros (l & [->|Hl]%elem_of_cons & He); [done|by exists l]. }
  destruct defs as [|d0 defs].
  - apply Hrest; [by intros [? _]%Hends| |done]. intros d. split; [by left|]. by intros [?|?%elem_of_nil].
  - rewrite Hb. cbn [mbind option_bind]. destruct b.
    + exists true. eexists. split; [done|]. split; [|split; [|apply extend_nodup]].
      * intros d. rewrite elem_of_extend, seen_cons, Hg. split; [tauto|].
        intros [?|[?|[Hne _]]]; [tauto|tauto|]. exfalso. apply Hne, Hends. done.
      * split; [|done]. intros _. exists layer. split; [left|by apply Hends].
    + apply Hrest; [by intros [_ ?]%Hends| |apply extend_nodup].
      intros d. rewrite elem_of_extend. tauto.
Qed.

(** ** What environments give *)

Definition member_gives f name (own : list Definition') (g : File) (d : Definition') : Prop :=
  if decide (g = f) then d ∈ own else layer_gives name (LFile g) d.

Definition member_ends f name (own_bound : bool) (g : File) : Prop :=
  if decide (g = f) then own_bound = true else layer_ends name (LFile g).

Lemma resolve_members_spec f members name own own_bound acc :
  (∀ g, g ∈ members → file_valid db g) →
  ∃ b out, resolve_members db f members name own own_bound acc = Some (b, out) ∧
    (∀ d, d ∈ out ↔ d ∈ acc ∨ seen (member_gives f name own) (member_ends f name own_bound) members d) ∧
    (b = true ↔ ∃ g, g ∈ members ∧ member_ends f name own_bound g) ∧ (NoDup acc → NoDup out).
Proof.
  revert acc. induction members as [|g members IH]; intros acc Hv.
  { exists false, acc. split; [done|]. split; [|split; [|done]].
    - intros d. split; [by left|]. by intros [?|?%seen_nil].
    - split; [done|]. by intros (? & ?%elem_of_nil & _). }
  assert (Hv' : ∀ h, h ∈ members → file_valid db h) by (intros h Hh; apply Hv; by right).
  assert (Hstep : ∃ b1 acc1, (if bool_decide (g = f) then Some (own_bound, extend_definitions own acc)
      else resolve_import_layers db [LFile g] name acc) = Some (b1, acc1) ∧
    (∀ d, d ∈ acc1 ↔ d ∈ acc ∨ member_gives f name own g d) ∧
    (b1 = true ↔ member_ends f name own_bound g) ∧ (NoDup acc → NoDup acc1)).
  { unfold member_gives, member_ends. destruct (decide (g = f)) as [->|Hne].
    - rewrite bool_decide_true by done. do 2 eexists. split; [done|].
      split; [intros d; rewrite elem_of_extend; tauto|]. split; [done|apply extend_nodup].
    - rewrite bool_decide_false by done.
      destruct (resolve_import_layers_spec [LFile g] name acc) as (b & out & Hr & Hout & Hb & Hnd).
      { intros l ->%list_elem_of_singleton. apply Hv. by left. }
      exists b, out. split; [done|]. split; [|split; [|done]].
      + intros d. rewrite Hout, seen_cons. pose proof (seen_nil (layer_gives name) (layer_ends name) d). tauto.
      + rewrite Hb. split; [by intros (l & ->%list_elem_of_singleton & ?)|].
        intros ?. exists (LFile g). split; [left|done]. }
  destruct Hstep as (b1 & acc1 & Hrun & Hacc1 & Hb1 & Hnd1).
  assert (Hres : resolve_members db f (g :: members) name own own_bound acc =
    if b1 then Some (true, acc1) else resolve_members db f members name own own_bound acc1).
  { cbn [resolve_members]. destruct (bool_decide (g = f)).
    - by injection Hrun as <- <-.
    - rewrite Hrun. done. }
  rewrite Hres. destruct b1.
  - exists true, acc1. split; [done|]. split; [|split; [|done]].
    + intros d. rewrite Hacc1, seen_cons. split; [tauto|]. intros [?|[?|[Hne _]]]; [tauto|tauto|].
      exfalso. by apply Hne, Hb1.
    + split; [|done]. intros _. exists g. split; [left|by apply Hb1].
  - destruct (IH acc1 Hv') as (b & out & -> & Hout & Hb & Hnd). exists b, out.
    assert (Hne : ¬ member_ends f name own_bound g) by (by intros ?%Hb1).
    split; [done|]. split; [|split; [|auto]].
    + intros d. rewrite Hout, Hacc1, seen_cons. tauto.
    + rewrite Hb. split; [intros (h & Hh & ?); exists h; split; [by right|done]|].
      intros (h & [->|Hh]%elem_of_cons & He); [done|by exists h].
Qed.

Lemma resolve_contexts_spec contexts name acc :
  (∀ c, c ∈ contexts → layers_valid db c) →
  ∃ out, resolve_per_sourcing_file db contexts name acc = Some out ∧
    (∀ d, d ∈ out ↔ d ∈ acc ∨ ∃ c, c ∈ contexts ∧ seen (layer_gives name) (layer_ends name) c d) ∧
    (NoDup acc → NoDup out).
Proof.
  unfold resolve_per_sourcing_file. revert acc. induction contexts as [|c contexts IH]; intros acc Hv.
  { exists acc. split; [done|]. split; [|done]. intros d. split; [by left|].
    by intros [?|(? & ?%elem_of_nil & _)]. }
  destruct (resolve_import_layers_spec c name acc) as (b & acc1 & Hr & Hacc1 & _ & Hnd1); [apply Hv; by left|].
  destruct (IH acc1) as (out & Ho & Hout & Hnd); [intros; apply Hv; by right|].
  exists out. simpl. rewrite Hr. simpl. split; [done|]. split; [|auto]. intros d. rewrite Hout, Hacc1. split.
  - intros [[?|?]|(c' & ? & ?)]; [by left|right; exists c; split; [left|done]|].
    right; exists c'; split; [by right|done].
  - intros [?|(c' & [->|?]%elem_of_cons & ?)]; [by left; left|by left; right|right; by exists c'].
Qed.
End lookup.

(** ** Environments, then the loader, then the files that source *)

Section beyond.
Context `{TR : TextRanges} `{HO : HashOrder} `{UO : UrlOps} `{RD : DbReads} `{RP : !RParser}.
Context `{HT : HandlerTypes} `{HD : !Handlers} `{HL : !HandlersLawful} `{BP : BuildProfile} `{MJ : MergeJoinBy}.
Context (registry : list PackageEntry) (db : Db) (Q : Queries).
Context (rank : Key → nat) (recovered : Key → bool).
Context (Hset : settled registry db Q rank recovered).
Implicit Types (f : File) (name : string).

(** What the places of a lookup give a name: the environments of the load, up
    to a member that binds it; the loader's layers, when no member does; the
    contexts of the files that source this one, unless it binds the name. *)
Definition beyond f view name (own : list Definition') (own_bound : bool)
    (fallback : list ImportLayer) (contexts : list (list ImportLayer)) (d : Definition') : Prop :=
  let members := lookup_files (fl_environments (q_cross_file_layers f view)) in
  seen (member_gives db Q f name own) (member_ends db Q f name own_bound) members d ∨
  ((∀ g, g ∈ members → ¬ member_ends db Q f name own_bound g) ∧
   seen (layer_gives db Q name) (layer_ends db Q name) fallback d) ∨
  (own_bound = false ∧ ∃ c, c ∈ contexts ∧ seen (layer_gives db Q name) (layer_ends db Q name) c d).

Lemma resolve_beyond_spec f view name own own_bound fallback contexts acc :
  file_valid db f → layers_valid db fallback → (∀ c, c ∈ contexts → layers_valid db c) →
  ∃ out, resolve_beyond db f view name own own_bound (Some fallback) (Some contexts) acc = Some out ∧
    (∀ d, d ∈ out ↔ d ∈ acc ∨ beyond f view name own own_bound fallback contexts d) ∧
    (NoDup acc → NoDup out).
Proof.
  intros Hf Hfb Hctx. unfold resolve_beyond, resolve_environments, beyond. cbn zeta.
  rewrite (settled_current_file _ _ _ _ _ Hset).
  destruct (resolve_members_spec _ _ _ _ _ Hset f
    (lookup_files (fl_environments (q_cross_file_layers f view))) name own own_bound acc)
    as (b & acc1 & -> & Hacc1 & Hb & Hnd1).
  { intros g Hg. by apply (cv_environments _ _ (settled_cross _ _ _ _ _ Hset f view Hf)). }
  cbn [mbind option_bind].
  assert (Hstop : (∀ g, g ∈ lookup_files (fl_environments (q_cross_file_layers f view)) →
    ¬ member_ends db Q f name own_bound g) ↔ b = false).
  { destruct b; split; try done.
    - intros Hno. destruct (proj1 Hb eq_refl) as (g & Hg & He). by destruct (Hno g Hg).
    - intros _ g Hg He. by pose proof (proj2 Hb (ex_intro _ g (conj Hg He))). }
  destruct (resolve_import_layers_spec _ _ _ _ _ Hset fallback name acc1 Hfb)
    as (b2 & acc2 & Hr2 & Hacc2 & _ & Hnd2).
  set (acc2' := if b then acc1 else acc2).
  assert (Hfall : (if b then Some acc1 else
      snd <$> resolve_import_layers db fallback name acc1) = Some acc2').
  { unfold acc2'. rewrite Hr2. by destruct b. }
  assert (Hacc2' : ∀ d, d ∈ acc2' ↔ d ∈ acc1 ∨ (b = false ∧
    seen (layer_gives db Q name) (layer_ends db Q name) fallback d)).
  { intros d. unfold acc2'. destruct b; [|rewrite Hacc2]; naive_solver. }
  destruct (resolve_contexts_spec _ _ _ _ _ Hset contexts name acc2' Hctx)
    as (out & Hout & Hoin & Hndo).
  set (out' := if own_bound then acc2' else out).
  exists out'. split; [|split].
  - destruct (b && own_bound) eqn:Hbo.
    + apply andb_true_iff in Hbo as [-> ->]. done.
    + etrans; [apply (f_equal (λ o, o ≫= _) Hfall)|]. cbn [mbind option_bind]. unfold out'. by destruct own_bound.
  - intros d. rewrite Hstop. unfold out'. destruct own_bound.
    + rewrite Hacc2', Hacc1. naive_solver.
    + rewrite Hoin, Hacc2', Hacc1. naive_solver.
  - intros Hn. unfold out', acc2'. destruct own_bound, b; auto.
Qed.

(** ** The layers of a file *)

Lemma cross_lookup_order_valid l own :
  layers_valid db (cl_enclosing l) → layers_valid db (cl_attaches l) → layers_valid db own →
  layers_valid db (cross_lookup_order db l own).
Proof.
  intros He Ha Ho layer. unfold cross_lookup_order. rewrite !elem_of_app.
  intros [?|[?|[?|Ht]]]; [by apply He|by apply Ho|by apply Ha|].
  apply (package_layers_valid db (match cl_tail l with
    TailBase => ["base"%string] | TailDefault => DEFAULT_SEARCH_PATH_PACKAGES end)).
  destruct (cl_tail l); [|done]. simpl in Ht. unfold package_layers. simpl. unfold base_layer in Ht.
  destruct (package_layer db "base"); simpl in *; [done|by apply elem_of_nil in Ht].
Qed.

Definition view_valid f (view : ImportView) : Prop :=
  match iv_attaches view with
  | VLazyAt _ scope => scope < length (ix_scopes (q_semantic_index f))
  | _ => True
  end.

Lemma own_attaches f view :
  view_valid f view → ∃ own, attach_layers db f (iv_attaches view) = Some own ∧ layers_valid db own.
Proof. apply attach_layers_total, (settled_indexes _ _ _ _ _ Hset). Qed.

Lemma loader_fallback_total f view :
  file_valid db f → view_valid f view →
  ∃ l, loader_fallback_in db f view = Some l ∧ layers_valid db l.
Proof.
  intros Hf Hv. unfold loader_fallback_in. destruct (own_attaches f view Hv) as (own & -> & Hown).
  eexists. split; [done|].
  destruct (settled_cross _ _ _ _ _ Hset f (iv_collation view) Hf) as [C1 C2 C3].
  by apply cross_lookup_order_valid.
Qed.

Lemma imports_by_sourcing_total f view :
  view_valid f view →
  ∃ l, imports_by_sourcing_file_in db f view = Some l ∧ ∀ c, c ∈ l → layers_valid db c.
Proof.
  intros Hv. unfold imports_by_sourcing_file_in.
  pose proof (revision_inherited registry db Q rank recovered (se_revision _ _ _ _ _ Hset)
    (se_placed _ _ _ _ _ Hset) (se_cells _ _ _ _ _ Hset) f (iv_collation view)) as Hi.
  destruct (q_inherited_layers f (iv_collation view)) as [|site sites].
  { exists []. split; [done|]. by intros ? ?%elem_of_nil. }
  destruct (own_attaches f view Hv) as (own & -> & Hown). eexists. split; [done|].
  intros c (s & -> & Hs)%list_elem_of_fmap. destruct (Hi s Hs). by apply cross_lookup_order_valid.
Qed.
(** ** Lookups from a position *)

Lemma import_view_at_total f offset :
  ∃ view, import_view_at (q_semantic_index f) offset = Some view ∧ view_valid f view.
Proof.
  unfold import_view_at. pose proof (settled_indexes _ _ _ _ _ Hset f) as Hix.
  destruct (scope_at_ix _ offset Hix) as (s & -> & _ & Hs). cbn [mbind option_bind].
  destruct (scope_is_eager_spec _ s Hix Hs) as (e & -> & _). cbn [mbind option_bind].
  eexists. split; [done|]. by destruct e.
Qed.

Lemma resolve_definition_total f s x name :
  ix_def_named (q_semantic_index f) s x name → ∃ l, resolve_definition db f s x = Some l.
Proof.
  intros (d & def & Hd & Hx & _). unfold resolve_definition, IndexVec.index.
  rewrite Hd. cbn [mbind option_bind]. rewrite Hx. cbn [mbind option_bind].
  assert (Hfd : is_Some (Shiny.option_list <$> file_definition f s x)).
  { rewrite file_definition_spec by apply (settled_indexes _ _ _ _ _ Hset). simpl. eauto. }
  destruct (def_kind def); try exact Hfd.
  destruct (file_by_path db _) as [g|] eqn:Hg; [|by exists []].
  eapply (resolve_export_total _ _ _ _ _ Hset), file_by_path_valid; [|exact Hg]. by destruct Hset.
Qed.

(** What a definition site resolves to. *)
Definition site_gives f (site : nat * nat) (d : Definition') : Prop :=
  ∃ l, resolve_definition db f site.1 site.2 = Some l ∧ d ∈ l.

Lemma resolve_definitions_spec f sites name :
  (∀ a x, (a, x) ∈ sites → ix_def_named (q_semantic_index f) a x name) →
  ∃ l, resolve_definitions db f sites = Some l ∧
    ∀ d, d ∈ l ↔ ∃ site, site ∈ sites ∧ site_gives f site d.
Proof.
  intros Hs. unfold resolve_definitions.
  destruct (mapM_total (λ '(scope_id, def_id), resolve_definition db f scope_id def_id)
    (λ site l, resolve_definition db f site.1 site.2 = Some l) sites) as (found & Hm & HF).
  { intros [a x] Hin. destruct (resolve_definition_total f a x name (Hs a x Hin)) as [l Hl].
    by exists l. }
  exists (concat found). split; [by rewrite Hm|]. intros d. rewrite list_elem_of_In, in_concat. split.
  - intros (l & Hl & Hd). apply list_elem_of_In in Hl, Hd.
    destruct (Forall2_elem_r _ _ _ _ HF Hl) as (site & Hsite & Hres).
    exists site. split; [done|]. by exists l.
  - intros (site & Hsite & l & Hl & Hd). destruct (Forall2_elem_l _ _ _ _ HF Hsite) as (l' & Hin & Hl').
    exists l. split; apply list_elem_of_In; [by replace l with l' by congruence|done].
Qed.

(** The lookup of a use: its definitions below the top level, then, unless
    those are all it has, the places of the lookup of its name. *)
Record use_resolved f offset (s u : nat) (out : list Definition') : Prop := {
  ur_found : ∃ name sites bound eager own fallback contexts,
    ix_use_named (q_semantic_index f) s u name ∧
    reaching_definitions (q_semantic_index f) s u = Some sites ∧
    use_is_bound (q_semantic_index f) s u = Some bound ∧
    scope_is_eager (q_semantic_index f) s = Some eager ∧
    (∀ d, d ∈ own ↔ ∃ site, site ∈ sites ∧ site.1 = 0 ∧ site_gives f site d) ∧
    loader_fallback_at db f offset = Some fallback ∧
    imports_by_sourcing_file_at db f offset = Some contexts ∧
    ∀ d, d ∈ out ↔ (∃ site, site ∈ sites ∧ site.1 ≠ 0 ∧ site_gives f site d) ∨
      (¬ (bound = true ∧ ∀ site, site ∈ sites → site.1 ≠ 0) ∧
       beyond f (if eager : bool then VEager else VDeferred) name own bound fallback contexts d);
}.

Lemma resolve_use_spec f offset s u use us :
  file_valid db f → ix_uses (q_semantic_index f) !! s = Some us → us !! u = Some use →
  ∃ out, resolve_use db f offset s u use = Some out ∧ use_resolved f offset s u out.
Proof.
  intros Hf Hus Hu. pose proof (settled_indexes _ _ _ _ _ Hset f) as Hix.
  assert (Hs : s < length (ix_scopes (q_semantic_index f))).
  { destruct (iw_lengths _ Hix) as (_ & _ & <- & _). by eapply lookup_lt_Some. }
  destruct (iw_tables _ Hix s Hs) as (t & d & us' & m & Ht & _ & Hus' & _ & Hwf).
  rewrite Hus in Hus'. injection Hus' as <-.
  destruct (lookup_lt_is_Some_2 _ _ (st_use_syms _ _ _ _ Hwf u use Hu)) as [sy Hsy].
  assert (Hnamed : ix_use_named (q_semantic_index f) s u (symbol_name sy)).
  { exists us, use. split; [done|]. split; [done|]. by exists t, sy. }
  destruct (reaching_definitions_spec _ _ _ _ Hix Hnamed) as (ch & sites & _ & Hr & Hsites).
  assert (∃ bound, use_is_bound (q_semantic_index f) s u = Some bound) as [bound Hbound].
  { unfold reaching_definitions in Hr. unfold use_is_bound.
    destruct (reaching_bindings _ s u); [|done]. simpl. eauto. }
  destruct (scope_is_eager_spec _ s Hix Hs) as (eager & Heager & _).
  destruct (resolve_definitions_spec f (filter (λ site, site.1 = 0) sites) (symbol_name sy))
    as (own & Hown & Hoin).
  { intros a x [_ Hin]%list_elem_of_filter. by apply Hsites. }
  destruct (resolve_definitions_spec f (filter (λ site, site.1 ≠ 0) sites) (symbol_name sy))
    as (lex & Hlex & Hlin).
  { intros a x [_ Hin]%list_elem_of_filter. by apply Hsites. }
  destruct (import_view_at_total f offset) as (view & Hview & Hvv).
  destruct (loader_fallback_total f view Hf Hvv) as (fallback & Hfb & Hvf).
  destruct (imports_by_sourcing_total f view Hvv) as (contexts & Hc & Hvc).
  destruct (resolve_beyond_spec f (if eager then VEager else VDeferred) (symbol_name sy) own bound
    fallback contexts lex Hf Hvf Hvc) as (out & Ho & Hin & _).
  set (globals := filter (λ site, site.1 = 0) sites) in *.
  set (out' := if bound && bool_decide (globals = []) then lex else out).
  assert (Hlex' : ∀ d, d ∈ lex ↔ ∃ site, site ∈ sites ∧ site.1 ≠ 0 ∧ site_gives f site d).
  { intros d0. rewrite Hlin. setoid_rewrite list_elem_of_filter. naive_solver. }
  assert (Hglob : globals = [] ↔ ∀ site, site ∈ sites → site.1 ≠ 0).
  { assert (Hg : ∀ site, site ∈ globals ↔ site.1 = 0 ∧ site ∈ sites) by apply list_elem_of_filter.
    split; [intros Hn site ? ?; apply (not_elem_of_nil site); rewrite <-Hn; by apply Hg|].
    intros Hno. destruct globals as [|site l]; [done|]. destruct (proj1 (Hg site)) as [H0 Hin0]; [left|].
    by destruct (Hno site). }
  exists out'. split.
  - unfold resolve_use, IndexVec.index, SymbolTable.symbol, IndexVec.index. cbn zeta.
    rewrite Ht. cbn [mbind option_bind]. rewrite Hsy. cbn [mbind option_bind].
    rewrite Hr. cbn [mbind option_bind]. rewrite Hlex. cbn [mbind option_bind].
    rewrite Hbound. cbn [mbind option_bind]. fold globals. unfold out'.
    destruct (bound && bool_decide (globals = [])); [done|]. rewrite Heager. cbn [mbind option_bind].
    rewrite Hown. cbn [mbind option_bind]. unfold loader_fallback_at, imports_by_sourcing_file_at.
    rewrite Hview. cbn [mbind option_bind]. by rewrite Hfb, Hc.
  - constructor. exists (symbol_name sy), sites, bound, eager, own, fallback, contexts.
    unfold loader_fallback_at, imports_by_sourcing_file_at. rewrite Hview. cbn [mbind option_bind].
    do 4 (split; [done|]). split; [intros d0; rewrite Hoin; unfold globals; setoid_rewrite list_elem_of_filter; naive_solver|].
    do 2 (split; [done|]). intros d0. rewrite <-Hlex', <-Hglob. unfold out'.
    destruct bound; simpl; [|rewrite Hin; naive_solver].
    case_bool_decide; [naive_solver|rewrite Hin; naive_solver].
Qed.
End beyond.
