(* ===== verification/ResolveDemo.v ===== *)
(** * A revision of a small workspace

    A folder [/w] with [a.R], which is [source('b.R'); b], and [b.R], which is
    [b <- 5], in a revision without cycles, for the witnesses of the theorems
    on resolution and on the queries of the editor. Indexes are compared by the equality decided here. *)

From S2P Require Export Reference OakDemo Layers LookupFacts.
#[local] Open Scope list_scope.

#[export] Instance CalleeUsage_eq_dec : EqDecision CalleeUsage.
Proof. solve_decision. Defined.
#[export] Instance NamespaceAccessKind_eq_dec : EqDecision NamespaceAccessKind.
Proof. solve_decision. Defined.
#[export] Instance Symbol_eq_dec : EqDecision Symbol.
Proof. solve_decision. Defined.
#[export] Instance SymbolTable_eq_dec : EqDecision SymbolTable.
Proof. solve_decision. Defined.
#[export] Instance UseDefMap_eq_dec : EqDecision UseDefMap.
Proof. solve_decision. Defined.
#[export] Instance SearchPathTail_eq_dec : EqDecision SearchPathTail.
Proof. solve_decision. Defined.
#[export] Instance NamespaceAccess_eq_dec : EqDecision NamespaceAccess.
Proof. solve_decision. Defined.
#[export] Instance AttachRegion_eq_dec : EqDecision AttachRegion.
Proof. solve_decision. Defined.

Section index.
Context `{TR : TextRanges} `{UU : Urls}.

#[export] Instance Scope_eq_dec : EqDecision Scope.
Proof. solve_decision. Defined.
#[export] Instance Use_eq_dec : EqDecision (Use TextRange).
Proof. solve_decision. Defined.
#[export] Instance AstPtr_eq_dec : EqDecision AstPtr.
Proof. solve_decision. Defined.
#[export] Instance DefinitionKind_eq_dec : EqDecision DefinitionKind.
Proof. solve_decision. Defined.
#[export] Instance Definition__eq_dec : EqDecision Definition_.
Proof. solve_decision. Defined.
#[export] Instance SemanticCallKind_eq_dec : EqDecision SemanticCallKind.
Proof. solve_decision. Defined.
#[export] Instance SemanticCall_eq_dec : EqDecision SemanticCall.
Proof. solve_decision. Defined.
#[export] Instance CalleeDependency_eq_dec : EqDecision CalleeDependency.
Proof. solve_decision. Defined.
#[export] Instance AmbiguityReason_eq_dec : EqDecision AmbiguityReason.
Proof. solve_decision. Defined.
#[export] Instance SemanticDiagnostic_eq_dec : EqDecision SemanticDiagnostic.
Proof. solve_decision. Defined.
#[export] Instance SemanticIndex_eq_dec : EqDecision SemanticIndex.
Proof. solve_decision. Defined.
End index.

#[export] Instance ExportsAtSource_eq_dec : EqDecision ExportsAtSource.
Proof. solve_decision. Defined.
#[export] Instance ImportLayer_eq_dec : EqDecision ImportLayer.
Proof. solve_decision. Defined.
#[export] Instance CrossFileLayers_eq_dec : EqDecision CrossFileLayers.
Proof. solve_decision. Defined.
#[export] Instance FileLoadLayers_eq_dec : EqDecision FileLoadLayers.
Proof. solve_decision. Defined.
#[export] Instance InheritedLayers_eq_dec : EqDecision InheritedLayers.
Proof. solve_decision. Defined.


(** URLs are their texts, and those of files start with [file://]. *)
Definition file_scheme : text := text_of "file://".

#[export, refine] Instance text_urls : UrlOps (H := reference_urls) := {|
  url_text u := u;
  url_of_text t := t;
  url_parse t := Some t;
  is_file_url u := starts_with u file_scheme;
  url_to_file_path u := Some (mkPathBuf (drop 7 u) true);
  url_from_file_path p := file_scheme ++ path_text p;
  path_segments _ := None;
  percent_decode_utf8 t := Some t;
|}.
Proof. all: try done. Defined.

#[export] Existing Instances element_order merge_join_reference.

#[export] Instance no_reads : DbReads := λ _, None.

Definition program_a : list expr :=
  [call_ 0 13 "source" [RStringValue (Some "b.R"%string) (at_ 7 5)]; id_ 15 "b"].
Definition program_b : list expr := [set_ 0 6 "b" (num_ 5)].

Definition text_a : text := text_of "source('b.R'); b".
Definition text_b : text := text_of "b <- 5".

(** One name bound on both arms of an [if]. *)
Definition text_arms : text := text_of "if (c) b <- 1 else b <- 5; b".
Definition program_arms : list expr :=
  [RIfStatement (Some (id_ 4 "c")) (Some (set_ 7 6 "b" (num_ 12))) (Some (set_ 19 6 "b" (num_ 24))) (at_ 0 25);
   id_ 27 "b"].

#[export] Instance demo_parser : RParser (H := reference_ranges) := {|
  parse_expressions t :=
    if bool_decide (t = text_a) then program_a
    else if bool_decide (t = text_b) then program_b
    else if bool_decide (t = text_arms) then program_arms else [];
  parse_range _ := at_ 0 30;
  parse_error _ := false;
|}.

Definition demo_file (name : string) (contents : text) : FileData :=
  mkFile (FFile (at_path ["w"; name])) 0 (Some contents) None.

Definition demo_db : Db := mkDb
  [demo_file "a.R" text_a; demo_file "b.R" text_b] []
  [mkRoot (FFile (at_path ["w"])) Workspace [0; 1] [] []] [] [0] [] ∅ ∅ [] [].

(** ** The answers, in the order of their ranks *)

Definition stage0 : Queries (H := reference_ranges) (H0 := reference_urls) := {|
  q_semantic_index _ := empty_index;
  q_exports _ := ∅;
  q_attached_packages _ := [];
  q_cross_file_layers f view := lower_load_context demo_db f (load_context demo_db f view);
  q_inherited_layers _ _ := [];
  q_base_binds _ _ := false;
|}.

(** The index of [b.R], its exports, and its attaches. *)
Definition index_b : SemanticIndex :=
  default empty_index (semantic_index_body (QS := stage0) reference_registry demo_db 1).

(** The index of files that are not in the database: they have no text. *)
Definition index_none : SemanticIndex :=
  default empty_index (semantic_index_body (QS := stage0) reference_registry demo_db 2).

Definition with_index (f : File) (ix : SemanticIndex) (Q : Queries) : Queries := {|
  q_semantic_index g := if bool_decide (g = f) then ix else @q_semantic_index _ _ Q g;
  q_exports := @q_exports _ _ Q;
  q_attached_packages := @q_attached_packages _ _ Q;
  q_cross_file_layers := @q_cross_file_layers _ _ Q;
  q_inherited_layers := @q_inherited_layers _ _ Q;
  q_base_binds := @q_base_binds _ _ Q;
|}.

Definition with_exports (f : File) (e : FileExports) (Q : Queries) : Queries := {|
  q_semantic_index := @q_semantic_index _ _ Q;
  q_exports g := if bool_decide (g = f) then e else @q_exports _ _ Q g;
  q_attached_packages := @q_attached_packages _ _ Q;
  q_cross_file_layers := @q_cross_file_layers _ _ Q;
  q_inherited_layers := @q_inherited_layers _ _ Q;
  q_base_binds := @q_base_binds _ _ Q;
|}.

Definition with_inherited (f : File) (l : CollationView → list InheritedLayers) (Q : Queries)
    : Queries := {|
  q_semantic_index := @q_semantic_index _ _ Q;
  q_exports := @q_exports _ _ Q;
  q_attached_packages := @q_attached_packages _ _ Q;
  q_cross_file_layers := @q_cross_file_layers _ _ Q;
  q_inherited_layers g view := if bool_decide (g = f) then l view else @q_inherited_layers _ _ Q g view;
  q_base_binds := @q_base_binds _ _ Q;
|}.

Definition stage1 : Queries := {|
  q_semantic_index g := match g with 1 => index_b | _ => index_none end;
  q_exports := @q_exports _ _ stage0;
  q_attached_packages := @q_attached_packages _ _ stage0;
  q_cross_file_layers := @q_cross_file_layers _ _ stage0;
  q_inherited_layers := @q_inherited_layers _ _ stage0;
  q_base_binds := @q_base_binds _ _ stage0;
|}.

Definition stage2 : Queries := with_exports 1 (default ∅ (exports_body (Q := stage1) demo_db 1)) stage1.

Definition stage3 : Queries :=
  with_index 0 (default empty_index (semantic_index_body (QS := stage2) reference_registry demo_db 0)) stage2.

Definition stage4 : Queries := with_exports 0 (default ∅ (exports_body (Q := stage3) demo_db 0)) stage3.

Definition demo_queries : Queries :=
  with_inherited 1 (λ view, default [] (inherited_layers_body (Q := stage4) demo_db 1 view)) stage4.

Definition demo_rank (k : Key) : nat :=
  match k with
  | KCrossFileLayers _ _ | KBaseBinds _ _ => 0
  | KSemanticIndex (S _) => 1
  | KExports (S _) | KAttachedPackages (S _) => 2
  | KSemanticIndex 0 => 3
  | KExports 0 | KAttachedPackages 0 => 4
  | KInheritedLayers 0 _ => 5
  | KInheritedLayers (S _) _ => 6
  end.

Definition no_cycle (k : Key) : bool := false.

(** ** They are a revision *)

Ltac by_evaluation := apply (bool_decide_unpack _); vm_compute; exact I.

Lemma demo_load_context f view : load_context demo_db f view = standalone_load_context f.
Proof. destruct f as [|[|f]], view; vm_compute; reflexivity. Qed.

Lemma demo_cross (QS : Queries) f view :
  cross_file_layers_body (Q := QS) demo_db f view =
    lower_load_context demo_db f (load_context demo_db f view).
Proof.
  unfold cross_file_layers_body. rewrite demo_load_context. cbn [lc_environments standalone_load_context].
  unfold chain_own, lookup_files. cbn [mbind list_bind reverse rev_append app].
  rewrite filter_cons_False by tauto. by destruct f as [|[|f]].
Qed.

Lemma demo_sourcing Q' f view :
  sourcing_files_by_target (Q := restrict (λ k,
    bool_decide (demo_rank k < demo_rank (KInheritedLayers f view))) demo_queries Q') demo_db =
  {[1 := [0]]}.
Proof. destruct f; by_evaluation. Qed.

Lemma demo_revision : revision reference_registry demo_db demo_queries demo_rank no_cycle.
Proof.
  split.
  - intros [|[|f]] Q'; by_evaluation.
  - intros [|[|f]] Q'; by_evaluation.
  - intros [|[|f]] Q'; by_evaluation.
  - intros f view Q'. unfold cross_query, no_cycle. by rewrite demo_cross.
  - intros f view Q'. destruct f as [|[|f]]; [destruct view; by_evaluation..|].
    unfold inherited_query, no_cycle, inherited_layers_body, sourced_by.
    rewrite demo_load_context, demo_sourcing, lookup_singleton_ne by done. reflexivity.
  - intros base name Q'. reflexivity.
Qed.

Lemma demo_placed : placed demo_db.
Proof.
  assert (Hl : ∀ p f, f ∉ package_listing demo_db p) by (intros p f; apply not_elem_of_nil).
  assert (Hr : ∀ r, r ∈ live_list demo_db → r = 0) by (intros r Hin; by apply list_elem_of_singleton in Hin).
  assert (Hs : ∀ r f, f ∈ r_scripts (root demo_db r) → r = 0 ∧ (f = 0 ∨ f = 1)).
  { intros [|r] f Hf; [|by apply elem_of_nil in Hf].
    apply elem_of_cons in Hf as [->|Hf%list_elem_of_singleton]; auto. }
  assert (Hlive : ∀ f, live demo_db f → f = 0 ∨ f = 1).
  { intros f [(r & Hr' & Hf)|Hf]; [|by apply elem_of_empty in Hf].
    apply elem_of_app in Hf as [Hf|Hf]; [by eapply Hs|].
    apply list_elem_of_bind in Hf as (p & Hf & _). by apply Hl in Hf. }
  assert (Hp : ∀ r p, p ∉ r_packages (root demo_db r)) by (intros [|r] p; apply not_elem_of_nil).
  split.
  - intros r ->%Hr. by apply (bool_decide_unpack _).
  - intros r p Hin. by apply Hp in Hin.
  - intros p f Hf. by apply Hl in Hf.
  - intros r f [_ [-> | ->]]%Hs; by apply (bool_decide_unpack _).
  - intros f Hf. by apply elem_of_empty in Hf.
  - intros f Hf. by apply elem_of_empty in Hf.
  - intros p Hf. by apply elem_of_nil in Hf.
  - intros p f Hf. by apply Hl in Hf.
  - by intros r f _ _ [_ [-> | ->]]%Hs.
  - intros f Hf. by apply elem_of_empty in Hf.
  - intros f Hf. by apply elem_of_empty in Hf.
  - intros p f Hf. by apply elem_of_nil in Hf.
  - intros f Hf. by apply elem_of_empty in Hf.
  - intros r f _ Hf. by apply elem_of_empty in Hf.
  - intros r f _ Hf. by apply elem_of_empty in Hf.
  - intros r r' p _ _ Hin. by apply Hp in Hin.
  - by intros r r' f ->%Hr ->%Hr.
  - intros f g Hf Hg E. by destruct (Hlive f Hf) as [->| ->], (Hlive g Hg) as [->| ->].
Qed.

Lemma demo_settled : settled reference_registry demo_db demo_queries demo_rank no_cycle.
Proof.
  split; [apply demo_revision|done| |apply demo_placed|by intros n c Hn; apply elem_of_nil in Hn].
  intros contents. unfold parse_expressions, demo_parser.
  repeat case_bool_decide; apply own_ranges_sound; by vm_compute.
Qed.
