(* ===== verification/ResolveTheorems.v ===== *)
(** * Resolution across files: what its queries promise

    The two views of a load differ by what loads after the file, and
    [sourced_by] inverts the source sites. On a settled revision: the chase of
    exports is exactly the graph of [source()] calls, lookups give exactly what
    their places give, and no lookup panics; the cache of effects does not
    show. *)

From S2P Require Export ResolveFacts LookupFacts.
#[local] Open Scope list_scope.

Section views.
Context `{HO : HashOrder} `{UO : UrlOps} `{RD : DbReads}.
Implicit Types (db : Db) (f : File).

(** An eager context is the deferred one without what loads after the file. *)
Definition cut_after f (eager deferred : LoadContext) : Prop :=
  lc_kind eager = lc_kind deferred ∧ lc_implicit_attaches eager = lc_implicit_attaches deferred ∧
  lc_loader eager = lc_loader deferred ∧
  ∃ before after_ parents, (f ∉ before) ∧
    lc_environments eager = (before ++ [f]) :: parents ∧
    lc_environments deferred = (before ++ f :: after_) :: parents.

Lemma load_environment_cut f collation n :
  (f ∉ take n collation) → ∃ before after_, (f ∉ before) ∧
    load_environment f collation VEager n = before ++ [f] ∧
    load_environment f collation VDeferred n = before ++ f :: after_ ∧
    (collation !! n = Some f → before ++ f :: after_ = collation).
Proof.
  intros Hn. unfold load_environment. exists (take n collation). eexists. split; [done|].
  split; [done|]. split; [by rewrite <-app_assoc|]. intros Hf. rewrite bool_decide_true by done.
  rewrite Nat.add_1_r. by apply take_drop_middle.
Qed.

Lemma position_first f l i :
  position (λ g, g = f) l = Some i → (f ∉ take i l) ∧ l !! i = Some f.
Proof.
  unfold position. intros ([j x] & (Hl & -> & Hno)%list_find_Some & ->)%fmap_Some. simpl.
  split; [|done]. intros (k & Hk & Hlt)%elem_of_take. by apply (Hno k f).
Qed.

Lemma position_none f l : position (λ g, g = f) l = None → f ∉ l.
Proof.
  unfold position. intros Hn%fmap_None%list_find_None. rewrite Forall_forall in Hn.
  intros Hf. by apply (Hn f).
Qed.

Lemma cut_single f collation n kind attaches loader parents :
  (f ∉ take n collation) →
  cut_after f (mkLoadContext kind (load_environment f collation VEager n :: parents) attaches loader)
    (mkLoadContext kind (load_environment f collation VDeferred n :: parents) attaches loader).
Proof.
  intros (before & after_ & Hb & He & Hd & _)%load_environment_cut.
  do 3 (split; [done|]). exists before, after_, parents. cbn [lc_environments]. by rewrite He, Hd.
Qed.

Lemma cut_own f kind attaches loader parents :
  cut_after f (mkLoadContext kind (chain_own f ++ parents) attaches loader)
    (mkLoadContext kind (chain_own f ++ parents) attaches loader).
Proof. do 3 (split; [done|]). exists [], [], parents. split; [apply not_elem_of_nil|done]. Qed.

(** Both views of one loader. *)
Definition both_cut f (o : CollationView → option LoadContext) : Prop :=
  match o VEager, o VDeferred with
  | Some eager, Some deferred => cut_after f eager deferred
  | None, None => True
  | _, _ => False
  end.

Lemma notebook_cut db f : both_cut f (notebook_load_context db f).
Proof.
  unfold both_cut, notebook_load_context. destruct (notebook_by_cell db f) as [n|]; [simpl|done].
  destruct (position _ _) as [i|] eqn:Hi; [simpl|done]. by apply cut_single, position_first.
Qed.

Lemma testthat_cut db f : both_cut f (Testthat.load_context db f).
Proof.
  unfold both_cut, Testthat.load_context. destruct (f_package (file db f)) as [p|]; [simpl|done].
  destruct (negb _); [done|]. destruct (position _ _) as [i|] eqn:Hi.
  - apply position_first in Hi as [Hi _]. simpl. by apply cut_single.
  - apply (cut_own _ _ _ _ [_; _]).
Qed.

Lemma package_cut db f : both_cut f (package_load_context db f).
Proof.
  unfold both_cut, package_load_context. destruct (f_package (file db f)) as [p|]; [simpl|done].
  destruct (position _ _) as [i|] eqn:Hi; [simpl|done]. by apply cut_single, position_first.
Qed.

Lemma shiny_cut db f : both_cut f (Shiny.load_context db f).
Proof.
  unfold both_cut, Shiny.load_context. destruct (in_r_directory db f).
  - destruct (Shiny.shiny_autoload db f) as [autoload|]; [simpl|done].
    unfold Shiny.autoload_context, collation_environment. apply cut_single.
    destruct (position _ _) as [i|] eqn:Hi; [by apply position_first|].
    apply position_none in Hi. intros Hin. by apply Hi; eapply elem_of_take in Hin as (? & ?%list_elem_of_lookup_2 & _).
  - destruct (Shiny.shiny_autoload db f) as [autoload|].
    + unfold Shiny.entry_context. apply cut_own.
    + destruct (Shiny.is_shiny_global_file db f); [|done]. unfold Shiny.global_context.
      apply (cut_own _ _ _ _ []).
Qed.

(** C26. The two views of a load agree on everything but what comes later:
    the loader found, the kind, the attaches and the parent environments are
    the same, and code that runs while the file loads sees of the file's own
    environment what was loaded before it and the file itself, where code that
    runs later sees the same and, behind it, the rest. *)
Theorem load_context_views db f :
  cut_after f (load_context db f VEager) (load_context db f VDeferred).
Proof.
  pose proof (notebook_cut db f) as Hn. pose proof (testthat_cut db f) as Ht.
  pose proof (package_cut db f) as Hp. pose proof (shiny_cut db f) as Hs.
  unfold both_cut, load_context in *.
  destruct (notebook_load_context db f VEager), (notebook_load_context db f VDeferred); try done.
  destruct (Testthat.load_context db f VEager), (Testthat.load_context db f VDeferred); try done.
  destruct (package_load_context db f VEager), (package_load_context db f VDeferred); try done.
  destruct (Shiny.load_context db f VEager), (Shiny.load_context db f VDeferred); try done.
  apply (cut_own _ _ _ _ []).
Qed.
End views.

Section sourcing.
Context `{TR : TextRanges} `{HO : HashOrder} `{UO : UrlOps} `{RD : DbReads} `{RP : !RParser}.
Context `{Q : !Queries}.
Implicit Types (db : Db) (f : File).

(** C25. [sourced_by] inverts the source sites: a file is listed exactly when
    it is in the workspace and one of its [source()] calls resolves to this
    file; the list is sorted by path, and no file is listed twice, even where
    the workspace has it through its root and its package. *)
Theorem sourced_by_exact db f :
  placed db → (∀ g, g ∈ workspace_files virtual_depth db → canonical db g) →
  StronglySorted (by_path db) (sourced_by db f) ∧ NoDup (sourced_by db f) ∧
  ∀ g, g ∈ sourced_by db f ↔
    g ∈ workspace_files virtual_depth db ∧
    ∃ site, site ∈ source_sites db g ∧ ss_target site = Some f.
Proof.
  intros Hp Hcan. split; [apply sourced_by_sorted|]. split; [|intros g; apply elem_of_sourced_by].
  apply sourced_by_nodup. intros a b [Ha _]%elem_of_sourced_by [Hb _]%elem_of_sourced_by.
  eapply canonical_paths; eauto using workspace_files_live.
Qed.
End sourcing.

(** ** Witness *)

From S2P Require Import ResolveDemo.
#[local] Existing Instance demo_queries.

Lemma sourced_by_exact_witness :
  StronglySorted (by_path demo_db) (sourced_by demo_db 1) ∧ NoDup (sourced_by demo_db 1) ∧
  ∀ g, g ∈ sourced_by demo_db 1 ↔
    g ∈ workspace_files virtual_depth demo_db ∧
    ∃ site, site ∈ source_sites demo_db g ∧ ss_target site = Some 1.
Proof.
  refine (sourced_by_exact demo_db 1 demo_placed _). intros g Hg.
  assert (workspace_files virtual_depth demo_db = [0; 1]) as E by (vm_compute; reflexivity).
  rewrite E in Hg. apply elem_of_cons in Hg as [->|Hg%list_elem_of_singleton]; [|subst g];
    unfold canonical; apply (bool_decide_unpack _); by vm_compute.
Defined.


Section exports.
Context `{TR : TextRanges} `{HO : HashOrder} `{UO : UrlOps} `{RD : DbReads} `{RP : !RParser}.
Context `{HT : HandlerTypes} `{HD : !Handlers} `{HL : !HandlersLawful} `{BP : BuildProfile} `{MJ : MergeJoinBy}.
Context (registry : list PackageEntry) (db : Db) (Q : Queries).
Context (rank : Key → nat) (recovered : Key → bool).

(** A key is visited when, and only when, the root reaches it. *)
Lemma chased_reaches root V' keys ls k :
  root ∈ V' → chased root ∅ V' keys ls → (k ∈ V' ↔ rtc forwards root k).
Proof.
  intros Hroot [_ Hnew _ _ _]. split; [intros Hk; by apply Hnew; [|set_solver]|].
  intros Hr. revert Hroot. assert (Hcl : ∀ x y, forwards x y → x ∈ V' → y ∈ V').
  { intros x y Hxy Hx. by apply (Hnew x Hx); [set_solver|]. }
  clear Hnew. induction Hr as [|x y z Hxy _ IH]; [done|]. intros Hx. by eapply IH, Hcl.
Qed.

(** Asking a file for the definitions it exports under a name ends without
    a panic, however [source()] calls cross: the answer is the definitions of
    the name that the files reached by forwarding, from this file and name,
    make themselves, each file and name taken once. *)
Theorem resolve_export_exact f name :
  settled registry db Q rank recovered → f < length (files db) →
  ∃ keys ls, resolve_export db f name = Some (concat ls) ∧
    NoDup keys ∧ (∀ k, k ∈ keys ↔ rtc forwards (f, name) k ∧ marks_local k) ∧
    Forall2 (λ k l, local_definitions k.1 k.2 = Some l ∧
      ∀ d, d ∈ l → d_file d = k.1 ∧ d_scope d = 0 ∧ d_name d = k.2) keys ls.
Proof.
  intros Hset Hf. pose proof (settled_indexes _ _ _ _ _ Hset) as Hix.
  destruct (chase_spec db (S (size (export_keys db))) f name ∅ [] Hix
    (settled_exports _ _ _ _ _ Hset) Hf) as (V' & keys & ls & Hrun & Hroot & Hch).
  { rewrite difference_empty_L. lia. }
  exists keys, ls. split; [|split; [by destruct Hch|split]].
  - unfold resolve_export, export_fuel. by rewrite Hrun.
  - intros k. rewrite (ch_keys _ _ _ _ _ Hch), (chased_reaches _ _ _ _ _ Hroot Hch). set_solver.
  - eapply Forall2_impl; [apply (ch_lists _ _ _ _ _ Hch)|]. intros k l Hl. split; [done|].
    destruct (local_definitions_spec k.1 k.2 (Hix k.1)) as (_ & l' & _ & Hl' & Hd & _).
    by replace l with l' by congruence.
Qed.
End exports.

Section lookups.
Context `{TR : TextRanges} `{HO : HashOrder} `{UO : UrlOps} `{RD : DbReads} `{RP : !RParser}.
Context `{HT : HandlerTypes} `{HD : !Handlers} `{HL : !HandlersLawful} `{BP : BuildProfile} `{MJ : MergeJoinBy}.
Context (registry : list PackageEntry) (db : Db) (Q : Queries).
Context (rank : Key → nat) (recovered : Key → bool).

(** C3. Resolving a name from the end of a file never panics and lists each
    definition once; it lists exactly what the places of the lookup give: the
    members of the load's environments, innermost first and latest file first,
    up to one that surely binds the name (the file itself being one of them);
    the loader's imports, attaches and search path when none does; and, unless
    the file surely binds the name, the layers of every file that sources it. *)
Theorem resolve_exact f name :
  settled registry db Q rank recovered → f < length (files db) →
  ∃ own own_bound fallback contexts out,
    resolve_export db f name = Some own ∧ file_export_is_bound f name = Some own_bound ∧
    loader_fallback db f = Some fallback ∧ imports_by_sourcing_file db f = Some contexts ∧
    file_resolve db f name = Some out ∧ NoDup out ∧
    ∀ d, d ∈ out ↔ beyond db Q f VDeferred name own own_bound fallback contexts d.
Proof.
  intros Hset Hf.
  destruct (resolve_export_total _ _ _ _ _ Hset f name Hf) as [own Hown].
  destruct (export_is_bound_total _ _ _ _ _ Hset f name) as [b Hb].
  destruct (loader_fallback_total _ _ _ _ _ Hset f DEFERRED Hf I) as (fallback & Hfb & Hvf).
  destruct (imports_by_sourcing_total _ _ _ _ _ Hset f DEFERRED I) as (contexts & Hc & Hvc).
  destruct (resolve_beyond_spec _ _ _ _ _ Hset f VDeferred name own b fallback contexts []
    Hf Hvf Hvc) as (out & Ho & Hin & Hnd).
  exists own, b, fallback, contexts, out. do 4 (split; [done|]). split; [|split].
  - unfold file_resolve, loader_fallback, imports_by_sourcing_file. by rewrite Hb, Hown, Hfb, Hc.
  - apply Hnd, NoDup_nil_2.
  - intros d. rewrite Hin, elem_of_nil. tauto.
Qed.

(** C10. Resolving at a position never panics, whatever the offset: a use gives
    the definitions that reach it below the top level and, when these are not
    all it has, what the places of the lookup give its name, seen from the
    position (eagerly or not, after its scope); a definition gives itself; any
    other position gives nothing. *)
Theorem resolve_at_exact f offset :
  settled registry db Q rank recovered → f < length (files db) →
  ∃ out, file_resolve_at db f offset = Some out ∧
  match use_at (q_semantic_index f) offset with
  | None => False
  | Some (Some (s, u, _)) => use_resolved db Q f offset s u out
  | Some None =>
      match definition_at (q_semantic_index f) offset with
      | None => False
      | Some None => out = []
      | Some (Some (s, x, _)) => ∃ d, out = [d] ∧ file_definition f s x = Some (Some d) ∧
          d_file d = f ∧ d_scope d = s ∧ ix_def_named (q_semantic_index f) s x (d_name d)
      end
  end.
Proof.
  intros Hset Hf. pose proof (settled_indexes _ _ _ _ _ Hset f) as Hix. unfold file_resolve_at.
  destruct (use_at_innermost _ offset Hix) as (s & us & _ & Hus & Hu).
  destruct (use_at _ offset) as [[[[s' u] use]|]|]; [| |done]; cbn [mbind option_bind].
  { destruct Hu as (-> & Hu & _). by eapply resolve_use_spec. }
  destruct (definition_at_innermost _ offset Hix) as (s2 & defs & Hin2 & Hdefs & Hd).
  destruct (definition_at _ offset) as [[[[s' x] def]|]|]; [| |done]; cbn [mbind option_bind].
  - destruct Hd as (-> & Hx & _).
    destruct (file_definition_named f s2 x defs def Hix Hdefs Hx) as (d & Hfd & Hdf & Hds & Hdn).
    rewrite Hfd. exists [d]. split; [done|]. by exists d.
  - by exists [].
Qed.
End lookups.

Section determined.
Context `{TR : TextRanges} `{HO : HashOrder} `{UO : UrlOps} `{RD : DbReads} `{RP : !RParser}.
Context `{HT : HandlerTypes} `{HD : !Handlers} `{BP : BuildProfile} `{MJ : MergeJoinBy}.
Context (registry : list PackageEntry).

(** The answers of a revision do not depend on the order in which they
    are computed: of two evaluations of one database, in any orders that
    respect what the bodies ask, that recover the same keys from a cycle,
    every query answers the same. *)
Theorem queries_determined db (Q Q' : Queries) rank rank' recovered :
  revision registry db Q rank recovered → revision registry db Q' rank' recovered →
  ∀ k, agree Q Q' k.
Proof.
  intros HQ HQ' k. remember (rank k) as n eqn:Hn. revert k Hn.
  induction n as [n IH] using lt_wf_ind. intros k ->.
  assert (Hlow : restrict (λ k', bool_decide (rank k' < rank k)) Q Q' = Q').
  { apply restrict_agree. intros k' Hk%bool_decide_eq_true. by eapply IH. }
  destruct k as [f|f|f|f view|f view|base name]; simpl.
  - pose proof (rev_index _ _ _ _ _ HQ f Q') as Ha. rewrite Hlow in Ha.
    pose proof (rev_index _ _ _ _ _ HQ' f Q') as Hb. rewrite restrict_same in Hb. congruence.
  - pose proof (rev_exports _ _ _ _ _ HQ f Q') as Ha. rewrite Hlow in Ha.
    pose proof (rev_exports _ _ _ _ _ HQ' f Q') as Hb. rewrite restrict_same in Hb. congruence.
  - pose proof (rev_attached _ _ _ _ _ HQ f Q') as Ha. rewrite Hlow in Ha.
    pose proof (rev_attached _ _ _ _ _ HQ' f Q') as Hb. rewrite restrict_same in Hb. congruence.
  - pose proof (rev_cross _ _ _ _ _ HQ f view Q') as Ha. rewrite Hlow in Ha.
    pose proof (rev_cross _ _ _ _ _ HQ' f view Q') as Hb. rewrite restrict_same in Hb. congruence.
  - pose proof (rev_inherited _ _ _ _ _ HQ f view Q') as Ha. rewrite Hlow in Ha.
    pose proof (rev_inherited _ _ _ _ _ HQ' f view Q') as Hb. rewrite restrict_same in Hb. congruence.
  - pose proof (rev_base _ _ _ _ _ HQ base name Q') as Ha. rewrite Hlow in Ha.
    pose proof (rev_base _ _ _ _ _ HQ' base name Q') as Hb. rewrite restrict_same in Hb. congruence.
Qed.
End determined.

Section cache.
Context `{TR : TextRanges} `{HO : HashOrder} `{UO : UrlOps} `{RD : DbReads} `{RP : !RParser}.
Context `{HT : HandlerTypes} `{Q : !Queries} (registry : list PackageEntry).

(** The calls a builder makes of one resolver, in their order. *)
Fixpoint resolve_effects_all db f (calls : list (string * list string)) (cache : EffectsCache)
    : list (option FunctionHandlers) * EffectsCache :=
  match calls with
  | [] => ([], cache)
  | (name, attached) :: calls =>
      let '(effects, cache) := Imports.resolve_effects registry db f name attached cache in
      let '(rest, cache) := resolve_effects_all db f calls cache in
      (effects :: rest, cache)
  end.

(** Every entry is what the resolver would compute. *)
Definition cache_sound db f (cache : EffectsCache) : Prop :=
  ∀ name attached effects, cache_get cache name attached = Some effects →
    effects = resolve_effects_uncached registry db f name attached.

Lemma cache_get_insert cache name attached effects name' attached' :
  cache_get (cache_insert cache name attached effects) name' attached' =
    if decide (attached' = attached ∧ name' = name) then Some effects
    else cache_get cache name' attached'.
Proof.
  unfold EffectsCache in *. unfold cache_get, cache_insert, EffectsCache. destruct (decide (attached = attached')) as [->|Ha].
  - rewrite lookup_insert_eq. cbn [mbind option_bind]. destruct (decide (name = name')) as [->|Hn].
    + by rewrite lookup_insert_eq, decide_True.
    + rewrite lookup_insert_ne, decide_False by naive_solver.
      by destruct (cache !! attached') as [m|]; [|cbn; rewrite lookup_empty].
  - rewrite lookup_insert_ne, decide_False by naive_solver. done.
Qed.

Lemma resolve_effects_sound db f name attached cache :
  cache_sound db f cache →
  (Imports.resolve_effects registry db f name attached cache).1 =
    resolve_effects_uncached registry db f name attached ∧
  cache_sound db f (Imports.resolve_effects registry db f name attached cache).2.
Proof.
  intros Hc. unfold Imports.resolve_effects. destruct (cache_get cache name attached) as [e|] eqn:He; simpl.
  - split; [by apply Hc|done].
  - split; [done|]. intros n a e'. rewrite cache_get_insert. case_decide as Hd; [|apply Hc].
    destruct Hd as [-> ->]. by intros [= ->].
Qed.

(** C27. The cache of a resolver does not show: whatever the sequence of names
    and attached packages that a build asks, every answer is the one computed
    without a cache, so an entry never leaks to another name or another list
    of attached packages. *)
Theorem effects_cache_transparent db f calls :
  (resolve_effects_all db f calls ∅).1 =
    (λ '(name, attached), resolve_effects_uncached registry db f name attached) <$> calls.
Proof.
  assert (Hg : ∀ cache, cache_sound db f cache → (resolve_effects_all db f calls cache).1 =
    (λ '(name, attached), resolve_effects_uncached registry db f name attached) <$> calls).
  { induction calls as [|[name attached] calls IH]; intros cache Hc; [done|]. simpl.
    destruct (resolve_effects_sound db f name attached cache Hc) as [He Hs].
    destruct (Imports.resolve_effects _ _ _ _ _ _) as [e c]. simpl in He, Hs. specialize (IH c Hs).
    destruct (resolve_effects_all db f calls c) as [l c']. simpl in *. by rewrite He, IH. }
  apply Hg. intros name attached effects. unfold cache_get. by unfold EffectsCache; rewrite lookup_empty.
Qed.
End cache.

(** ** Witnesses

    On the workspace of [ResolveDemo], where [a.R] sources [b.R]. *)

From S2P Require Import ResolveDemo.
#[local] Existing Instance demo_queries.

Lemma resolve_export_exact_witness : ∃ keys ls,
  resolve_export demo_db 0 "b" = Some (concat ls) ∧
  NoDup keys ∧ (∀ k, k ∈ keys ↔ rtc forwards (0, "b"%string) k ∧ marks_local k) ∧
  Forall2 (λ k l, local_definitions k.1 k.2 = Some l ∧
    ∀ d, d ∈ l → d_file d = k.1 ∧ d_scope d = 0 ∧ d_name d = k.2) keys ls.
Proof.
  refine (resolve_export_exact reference_registry demo_db demo_queries demo_rank no_cycle 0 "b"
    demo_settled _). apply (bool_decide_unpack _). by vm_compute.
Defined.

Lemma resolve_exact_witness : ∃ own own_bound fallback contexts out,
  resolve_export demo_db 0 "b" = Some own ∧ file_export_is_bound 0 "b" = Some own_bound ∧
  loader_fallback demo_db 0 = Some fallback ∧ imports_by_sourcing_file demo_db 0 = Some contexts ∧
  file_resolve demo_db 0 "b" = Some out ∧ NoDup out ∧
  ∀ d, d ∈ out ↔ beyond demo_db demo_queries 0 VDeferred "b" own own_bound fallback contexts d.
Proof.
  refine (resolve_exact reference_registry demo_db demo_queries demo_rank no_cycle 0 "b"
    demo_settled _). apply (bool_decide_unpack _). by vm_compute.
Defined.

Lemma resolve_at_exact_witness : ∃ out, file_resolve_at demo_db 0 15 = Some out ∧
  match use_at (q_semantic_index 0) 15 with
  | None => False
  | Some (Some (s, u, _)) => use_resolved demo_db demo_queries 0 15 s u out
  | Some None =>
      match definition_at (q_semantic_index 0) 15 with
      | None => False
      | Some None => out = []
      | Some (Some (s, x, _)) => ∃ d, out = [d] ∧ file_definition 0 s x = Some (Some d) ∧
          d_file d = 0 ∧ d_scope d = s ∧ ix_def_named (q_semantic_index 0) s x (d_name d)
      end
  end.
Proof.
  refine (resolve_at_exact reference_registry demo_db demo_queries demo_rank no_cycle 0 15
    demo_settled _). apply (bool_decide_unpack _). by vm_compute.
Defined.

Lemma queries_determined_witness : ∀ k, agree demo_queries demo_queries k.
Proof.
  exact (queries_determined reference_registry demo_db demo_queries demo_queries demo_rank demo_rank
    no_cycle demo_revision demo_revision).
Defined.

(** The use of [b] in [a.R] is resolved to the definition in [b.R]. *)
Example resolves_across_files :
  file_resolve_at demo_db 0 15 = Some [mkDefinition' 1 0 "b" 0].
Proof. vm_compute. reflexivity. Qed.
