(* ===== verification/IdeTheorems.v ===== *)
(** * Theorems on the queries of the editor

    On a settled database: the entities that lookups find, the dependencies of
    the workspace, the files of a search, the identifier at a cursor,
    references and renames, each with its totality; then witnesses on
    [ResolveDemo]'s workspace, and a rename that changes a program. *)

From S2P Require Export IndexTheorems Ide ResolveFacts LookupFacts ResolveDemo.
#[local] Open Scope list_scope.

(** ** Entities and what they stand for *)

Section entities.
Context `{TR : TextRanges} `{HO : HashOrder} `{UO : UrlOps} `{RD : DbReads} `{RP : !RParser}.
Context (Q : Queries).
Implicit Types (db : Db) (f : File) (name : string).

Lemma nth_named_spec table defs names x name :
  names_of table defs = Some names → names !! x = Some name →
  nth_named table name (length (filter (name =.) (take x names))) defs = Some (defs !! x).
Proof.
  revert names x. induction defs as [|def defs IH]; intros names x Hn Hx.
  - injection Hn as <-. by rewrite lookup_nil in Hx.
  - unfold names_of in Hn. cbn [mapM] in Hn.
    destruct (SymbolTable.symbol table (def_symbol def)) as [s|] eqn:Hs; [|done]. cbn in Hn.
    destruct (mapM _ defs) as [rest|] eqn:Hr; [|done]. injection Hn as <-.
    cbn [nth_named]. rewrite Hs. cbn [mbind option_bind].
    destruct x as [|x]; cbn in Hx.
    + injection Hx as ->. by rewrite bool_decide_true.
    + cbn [take]. rewrite filter_cons. specialize (IH rest x Hr Hx). case_decide as Hd.
      * subst name. rewrite bool_decide_true by done. exact IH.
      * rewrite bool_decide_false by auto. exact IH.
Qed.

(** An entity of the database. *)
Definition minted (d : Definition') : Prop :=
  ∃ x, file_definition (d_file d) (d_scope d) x = Some (Some d).

Lemma file_definition_minted f s x d :
  index_wf (q_semantic_index f) → file_definition f s x = Some (Some d) →
  minted d ∧ d_file d = f ∧ d_scope d = s.
Proof.
  intros Hix Hd. assert (Hd' := Hd). rewrite file_definition_spec in Hd' by done. injection Hd' as Hd'.
  apply bind_Some in Hd' as (names & _ & Hx). unfold definition_of in Hx.
  apply fmap_Some in Hx as (name & _ & ->). split; [by exists x|done].
Qed.

(** The kind of an entity is that of its definition. *)
Lemma definition_kind_spec f s x d :
  index_wf (q_semantic_index f) → file_definition f s x = Some (Some d) →
  ∃ defs def, ix_definitions (q_semantic_index f) !! s = Some defs ∧ defs !! x = Some def ∧
    definition_kind d = Some (Some (def_kind def)).
Proof.
  intros Hix Hd. rewrite file_definition_spec in Hd by done. injection Hd as Hd.
  apply bind_Some in Hd as (names & Hn & Hx). unfold definition_of in Hx.
  apply fmap_Some in Hx as (name & Hx & ->).
  unfold scope_names in Hn. apply bind_Some in Hn as (table & Ht & Hn). apply bind_Some in Hn as (defs & Hdefs & Hn).
  assert (Hk : nth_named table name (occurrences name (take x names)) defs = Some (defs !! x)) by by apply (nth_named_spec _ _ names).
  assert (is_Some (defs !! x)) as [def Hdef].
  { apply lookup_lt_is_Some. apply lookup_lt_Some in Hx. unfold names_of in Hn. apply length_mapM in Hn. lia. }
  exists defs, def. split; [done|]. split; [done|].
  unfold definition_kind, IndexVec.index. cbn [d_file d_scope d_name d_nth]. rewrite Ht. cbn [mbind option_bind].
  rewrite Hdefs. cbn [mbind option_bind]. rewrite Hk, Hdef. done.
Qed.
End entities.

Section minted.
Context `{TR : TextRanges} `{HO : HashOrder} `{UO : UrlOps} `{RD : DbReads} `{RP : !RParser}.
Context `{HT : HandlerTypes} `{HD : !Handlers} `{HL : !HandlersLawful} `{BP : BuildProfile} `{MJ : MergeJoinBy}.
Context (registry : list PackageEntry) (db : Db) (Q : Queries).
Context (rank : Key → nat) (recovered : Key → bool).
Context (Hset : settled registry db Q rank recovered).
Implicit Types (f : File) (name : string).

(** ** What a lookup finds are entities *)

Lemma index_ok f : index_wf (q_semantic_index f).
Proof. by eapply settled_indexes. Qed.

Lemma local_definitions_minted f name l : local_definitions f name = Some l → Forall (minted Q) l.
Proof.
  unfold local_definitions. intros (found & _ & (sites & Hs & [= <-])%bind_Some)%bind_Some.
  apply mapM_Some in Hs. apply Forall_forall. intros d (o & Ho & Hod)%list_elem_of_omap. cbn in Hod. subst o.
  apply list_elem_of_lookup in Ho as [i Hi]. destruct (Forall2_lookup_r _ _ _ _ _ Hs Hi) as ([x def] & _ & Hx).
  destruct (is_import def); [done|]. by apply (file_definition_minted Q f 0 x d (index_ok f)) in Hx as [? _].
Qed.

Lemma resolve_export_minted f name l :
  file_valid db f → resolve_export db f name = Some l → Forall (minted Q) l.
Proof.
  intros Hf. unfold resolve_export, export_fuel.
  destruct (chase_spec db (S (size (export_keys db))) f name ∅ [] (settled_indexes _ _ _ _ _ Hset)
    (settled_exports _ _ _ _ _ Hset) Hf) as (V' & keys & ls & Hrun & _ & Hc).
  { rewrite difference_empty_L. lia. }
  rewrite Hrun. intros [= <-]. cbn [app]. pose proof (ch_lists _ _ _ _ _ Hc) as HF.
  apply Forall_forall. intros d Hd. rewrite list_elem_of_In, in_concat in Hd. destruct Hd as (l & Hl & Hd).
  apply list_elem_of_In in Hl, Hd. destruct (Forall2_elem_r _ _ _ _ HF Hl) as (k & _ & Hk).
  apply local_definitions_minted in Hk. rewrite Forall_forall in Hk. by apply Hk.
Qed.

Lemma package_resolve_minted p name visibility l :
  package_resolve db p name visibility = Some l → Forall (minted Q) l.
Proof.
  unfold package_resolve. generalize (S (S (length (packages db)))). intros fuel.
  revert p visibility l. induction fuel as [|fuel IH]; intros p visibility l; [by intros [= <-]|].
  cbn [package_resolve_from]. destruct (_ && _ && _); [by intros [= <-]|].
  intros (results & Hr & Hl)%bind_Some.
  assert (Hall : Forall (minted Q) (concat results)).
  { apply mapM_Some in Hr. apply Forall_forall. intros d Hd. rewrite list_elem_of_In, in_concat in Hd.
    destruct Hd as (k & Hk & Hd). apply list_elem_of_In in Hk, Hd.
    destruct (Forall2_elem_r _ _ _ _ Hr Hk) as (f & Hf & Hres).
    apply resolve_export_minted in Hres; [rewrite Forall_forall in Hres; by apply Hres|].
    eapply package_files_valid; [|exact Hf]. by destruct Hset. }
  destruct (concat results); [|by injection Hl as <-].
  destruct (_ ≫= _) as [source|]; [by apply IH in Hl|by injection Hl as <-].
Qed.

Lemma layer_gives_minted name layer d :
  layer_valid db layer → layer_gives db Q name layer d → minted Q d.
Proof.
  intros Hv (l & Hl & Hd). cut (Forall (minted Q) l); [intros HF; rewrite Forall_forall in HF; by apply HF|].
  destruct layer as [f|f e|p|p]; simpl in Hv, Hl.
  - by apply resolve_export_minted in Hl.
  - destruct (Timeline.contains e name); [by apply resolve_export_minted in Hl|by injection Hl as <-].
  - destruct (_ ≫= _) as [q|]; [by apply package_resolve_minted in Hl|by injection Hl as <-].
  - by apply package_resolve_minted in Hl.
Qed.

Lemma seen_gives {A D} (gives : A → D → Prop) (ends : A → Prop) l d :
  seen gives ends l d → ∃ x, x ∈ l ∧ gives x d.
Proof. intros (pre & x & post & -> & Hg & _). exists x. split; [set_solver|done]. Qed.

Lemma beyond_minted f view name own own_bound fallback contexts d :
  file_valid db f → Forall (minted Q) own → layers_valid db fallback →
  (∀ c, c ∈ contexts → layers_valid db c) →
  beyond db Q f view name own own_bound fallback contexts d → minted Q d.
Proof.
  intros Hf Hown Hfb Hctx [Hs|[[_ Hs]|(_ & c & Hc & Hs)]]; apply seen_gives in Hs as (x & Hx & Hg).
  - unfold member_gives in Hg. destruct (decide (x = f)); [rewrite Forall_forall in Hown; by apply Hown|].
    eapply layer_gives_minted; [|exact Hg].
    by apply (cv_environments _ _ (settled_cross _ _ _ _ _ Hset f view Hf)).
  - by eapply layer_gives_minted; [apply Hfb|].
  - by eapply layer_gives_minted; [apply (Hctx c)|].
Qed.

Lemma resolve_definition_minted f s x l :
  resolve_definition db f s x = Some l → Forall (minted Q) l.
Proof.
  unfold resolve_definition. intros (defs & _ & (def & _ & Hl)%bind_Some)%bind_Some.
  assert (Hown : (Shiny.option_list <$> file_definition f s x) = Some l → Forall (minted Q) l).
  { intros (o & Ho & ->)%fmap_Some. destruct o as [d|]; [|apply Forall_nil_2].
    apply Forall_singleton. by apply (file_definition_minted Q f s x d (index_ok f)) in Ho as [? _]. }
  destruct (def_kind def); try by apply Hown.
  destruct (file_by_path db _) as [g|] eqn:Hg; [|by injection Hl as <-].
  eapply resolve_export_minted; [|exact Hl]. eapply file_by_path_valid; [|exact Hg]. by destruct Hset.
Qed.

(** The definitions at a position: there are some, and they are entities. *)
Lemma resolve_at_minted f offset :
  file_valid db f → ∃ out, file_resolve_at db f offset = Some out ∧ Forall (minted Q) out.
Proof.
  intros Hf. pose proof (index_ok f) as Hix. unfold file_resolve_at.
  destruct (scope_at_ix _ offset Hix) as (s & Hs & _ & Hlt).
  destruct (ix_scope_tables _ _ Hix Hlt) as (t & defs & us & m & Ht & Hd & Hus & _ & Hwf).
  unfold use_at, IndexVec.index. rewrite Hs. cbn [mbind option_bind]. rewrite Hus. cbn [mbind option_bind].
  pose proof (index_contains_spec (λ u, range_contains (use_range u) offset) us) as Hu.
  destruct (IndexVec.contains _ us) as [[u use]|]; cbn [mbind option_bind].
  - destruct Hu as (Hu & _). destruct (resolve_use_spec _ _ _ _ _ Hset f offset s u use us Hf Hus Hu) as (out & Ho & Hr).
    exists out. split; [exact Ho|]. apply Forall_forall. intros d Hin.
    destruct Hr as [(name & sites & bound & eager & own & fallback & contexts & _ & _ & _ & _ & Hown & Hfb & Hc & Hd')].
    assert (Hsite : ∀ site d, site_gives db Q f site d → minted Q d).
    { intros site e (l & Hl & He). apply resolve_definition_minted in Hl. rewrite Forall_forall in Hl. by apply Hl. }
    apply Hd' in Hin as [(site & _ & _ & Hg)|[_ Hb]]; [by eapply Hsite|].
    destruct (import_view_at_total _ _ _ _ _ Hset f offset) as (view & Hview & Hvv).
    destruct (loader_fallback_total _ _ _ _ _ Hset f view Hf Hvv) as (fallback' & Hfb' & Hvf).
    destruct (imports_by_sourcing_total _ _ _ _ _ Hset f view Hvv) as (contexts' & Hc' & Hvc).
    unfold loader_fallback_at in Hfb. unfold imports_by_sourcing_file_at in Hc.
    rewrite Hview in Hfb, Hc. cbn [mbind option_bind] in Hfb, Hc. simplify_eq.
    eapply beyond_minted; [exact Hf| |exact Hvf|exact Hvc|exact Hb].
    apply Forall_forall. intros e (site & _ & _ & Hg)%Hown. by eapply Hsite.
  - unfold definition_at, IndexVec.index. rewrite Hs. cbn [mbind option_bind]. rewrite Hd. cbn [mbind option_bind].
    destruct (IndexVec.contains _ defs) as [[x def]|]; cbn [mbind option_bind]; [|exists []; split; [done|apply Forall_nil_2]].
    rewrite file_definition_spec by done. eexists. split; [reflexivity|].
    destruct (scope_names _ _ ≫= definition_of f s x) as [d|] eqn:E; [|apply Forall_nil_2].
    apply Forall_singleton. apply (file_definition_minted Q f s x d (index_ok f)). by rewrite file_definition_spec, E.
Qed.
End minted.

(** ** Dependencies and the files of a search *)

Section workspace.
Context `{TR : TextRanges} `{HO : HashOrder} `{UO : UrlOps} `{RD : DbReads} `{RP : !RParser}.
Context (db : Db) (Q : Queries).
Implicit Types (f : File) (p : Package).

(** Files are read as UTF-8. *)
Definition reads_utf8 : Prop := ∀ path t, read_to_string path = Some t → utf8 t.

Lemma package_description_total p : reads_utf8 → ∃ o, package_description db p = Some o.
Proof.
  intros Hu. unfold package_description. destruct (_ ≫= _) as [t|] eqn:Ht; [|by eexists].
  apply bind_Some in Ht as (path & _ & Ht). destruct (description_parse_total t (Hu _ _ Ht)) as (fields & _ & Hd).
  destruct (fields !! _); [destruct (fields !! _)|]; [destruct Hd as (d & -> & _)|rewrite Hd..]; by eexists.
Qed.

(** A name the workspace mentions as a package. *)
Definition mentioned (name : string) : Prop :=
  (∃ f, f ∈ workspace_files virtual_depth db ∧
     (name ∈ attached_packages_anywhere (q_semantic_index f) ∨
      (∃ access, access ∈ ix_namespace_accesses (q_semantic_index f) ∧ name = na_package access) ∨
      name ∈ lc_implicit_attaches (load_context db f VDeferred))) ∨
  (∃ p d dep, p ∈ workspace_packages db ∧ package_description db p = Some (Some d) ∧
     (dep ∈ Description.depends d ∨ dep ∈ Description.imports d) ∧ name = string_of dep) ∨
  name ∈ DEFAULT_SEARCH_PATH_PACKAGES.

(** An installed package of such a name, that no package of the workspace hides. *)
Definition depended p : Prop := ∃ name, mentioned name ∧ as_package db name = Some p.

Lemma elem_of_as_packages names p : p ∈ as_packages db names ↔ ∃ name, name ∈ names ∧ as_package db name = Some p.
Proof. apply list_elem_of_omap. Qed.

Lemma elem_of_used_packages f name :
  name ∈ used_packages f ↔ name ∈ attached_packages_anywhere (q_semantic_index f) ∨
    ∃ access, access ∈ ix_namespace_accesses (q_semantic_index f) ∧ name = na_package access.
Proof.
  unfold used_packages, namespace_accessed_packages. change sort_names with SortedVec.from_vec.
  rewrite sorted_dedup_elem, elem_of_app, sorted_dedup_elem, list_elem_of_fmap. naive_solver.
Qed.

(** The lists of names the dependencies come from. *)
Lemma file_names name :
  name ∈ sort_names (workspace_files virtual_depth db ≫= used_packages) ↔
  ∃ f, f ∈ workspace_files virtual_depth db ∧
     (name ∈ attached_packages_anywhere (q_semantic_index f) ∨
      ∃ access, access ∈ ix_namespace_accesses (q_semantic_index f) ∧ name = na_package access).
Proof.
  change sort_names with SortedVec.from_vec. rewrite sorted_dedup_elem, list_elem_of_bind.
  split; intros (f & H1 & H2); exists f.
  - by apply elem_of_used_packages in H1.
  - split; [by apply elem_of_used_packages|done].
Qed.

Lemma loader_names name :
  name ∈ sort_names (workspace_files virtual_depth db ≫= λ f, lc_implicit_attaches (load_context db f VDeferred)) ↔
  ∃ f, f ∈ workspace_files virtual_depth db ∧ name ∈ lc_implicit_attaches (load_context db f VDeferred).
Proof.
  change sort_names with SortedVec.from_vec. rewrite sorted_dedup_elem, list_elem_of_bind.
  split; intros (f & H1 & H2); exists f; by split.
Qed.

Lemma description_names ds name :
  Forall2 (λ p o, package_description db p = Some o) (workspace_packages db) ds →
  name ∈ sort_names (string_of <$> (ds ≫= λ description,
    match description with Some d => Description.depends d ++ Description.imports d | None => [] end)) ↔
  ∃ p d dep, p ∈ workspace_packages db ∧ package_description db p = Some (Some d) ∧
     (dep ∈ Description.depends d ∨ dep ∈ Description.imports d) ∧ name = string_of dep.
Proof.
  intros HF. change sort_names with SortedVec.from_vec. rewrite sorted_dedup_elem, list_elem_of_fmap. split.
  - intros (dep & -> & ([d|] & Hd & Ho)%list_elem_of_bind); [|by apply elem_of_nil in Hd]. apply elem_of_app in Hd.
    destruct (Forall2_elem_r _ _ _ _ HF Ho) as (q & Hq & Hqd). by exists q, d, dep.
  - intros (q & d & dep & Hq & Hqd & Hd & ->). destruct (Forall2_elem_l _ _ _ _ HF Hq) as (o & Ho & Hqo).
    rewrite Hqd in Hqo. injection Hqo as <-. exists dep. split; [done|]. apply list_elem_of_bind.
    exists (Some d). split; [by apply elem_of_app|done].
Qed.

Lemma as_package_name name p : as_package db name = Some p → p_name (package db p) = text_of name.
Proof.
  unfold as_package. intros (q & Hq & (r & _ & Hr)%bind_Some)%bind_Some.
  case_bool_decide; [injection Hr as ->|done]. unfold package_by_name in Hq.
  pose proof (first_some_spec (λ l, r ← live_root l; root_package_index db r !! text_of name) (live_roots db)) as Hs.
  rewrite Hq in Hs. destruct Hs as (l & _ & (r' & _ & Hin)%bind_Some). unfold root_package_index in Hin.
  clear -Hin. revert Hin. set (m := ∅ : gmap text Package).
  assert (Hm : ∀ n p, m !! n = Some p → p_name (package db p) = n) by (intros n q; unfold m; by rewrite lookup_empty).
  generalize m Hm. clear m Hm. induction (r_packages (root db r')) as [|a l IH]; intros m Hm; cbn; [apply Hm|].
  apply IH. intros n q. destruct (decide (p_name (package db a) = n)) as [<-|Hne].
  - rewrite lookup_insert_eq. by intros [= ->].
  - rewrite lookup_insert_ne by done. apply Hm.
Qed.

Lemma package_dependencies_total : reads_utf8 → ∃ deps, all_package_dependencies db = Some deps ∧
  NoDup deps ∧ StronglySorted (key_lte text_le (λ p, p_name (package db p))) deps ∧ ∀ p, p ∈ deps ↔ depended p.
Proof.
  intros Hu. unfold all_package_dependencies, all_workspace_package_dependencies.
  destruct (mapM_total (package_description db) (λ p o, package_description db p = Some o) (workspace_packages db))
    as (ds & Hds & HF).
  { intros p _. destruct (package_description_total p Hu) as [o Ho]. by exists o. }
  rewrite Hds. cbn [mbind option_bind].
  set (packages := all_workspace_file_dependencies db ++ _).
  set (name := λ p, p_name (package db p)).
  assert (Hp : ∀ p, p ∈ packages ↔ depended p).
  { intros p. unfold packages, all_workspace_file_dependencies, all_workspace_loader_dependencies,
      default_search_path_packages. rewrite !elem_of_app, !elem_of_as_packages. unfold depended, mentioned. split.
    - intros [(n & Hn & Ha)|[(n & Hn & Ha)|[(n & Hn & Ha)|(n & Hn & Ha)]]]; exists n; (split; [|exact Ha]).
      + apply file_names in Hn as (f & Hf & Hn). left. exists f. split; [exact Hf|]. destruct Hn; auto.
      + apply loader_names in Hn as (f & Hf & Hn). left. exists f. auto.
      + apply (description_names ds n HF) in Hn. auto.
      + auto.
    - intros (n & [(f & Hf & Hn)|[Hn|Hn]] & Ha).
      + destruct Hn as [Hn|[Hn|Hn]]; [left|left|right; left]; exists n; (split; [|exact Ha]);
          [apply file_names|apply file_names|apply loader_names]; exists f; auto.
      + right. right. left. exists n. split; [by apply (description_names ds n HF)|exact Ha].
      + right. right. right. exists n. auto. }
  assert (Hinj : ∀ p q, p ∈ packages → q ∈ packages → name p = name q → p = q).
  { intros p q (n & _ & Hn)%Hp (n' & _ & Hn')%Hp He.
    pose proof (as_package_name n p Hn) as H1. pose proof (as_package_name n' q Hn') as H2.
    assert (n = n') as -> by (apply text_of_inj; unfold name in He; congruence). congruence. }
  destruct (sort_by_key_spec text_le name text_le_total text_le_trans packages) as (Hperm & Hsort & _).
  eexists. split; [reflexivity|]. split; [|split].
  - apply (NoDup_fmap_1 name). by apply (vec_dedup_nodup _ name (λ _ _, eq_refl) text_le text_le_antisym).
  - eapply sublist_sorted; [apply vec_dedup_sublist|exact Hsort].
  - intros p. rewrite <- Hp. split.
    + intros Hin. rewrite <- Hperm. eapply elem_of_sublist; [exact Hin|apply vec_dedup_sublist].
    + intros Hin. assert (name p ∈ name <$> packages) as Hk by (apply list_elem_of_fmap; eauto).
      rewrite <- Hperm in Hk.
      apply (vec_dedup_elem (λ a b, bool_decide (name a = name b)) name (λ _ _, eq_refl) text_le text_le_antisym) in Hk; [|exact Hsort].
      apply list_elem_of_fmap in Hk as (q & Hq & Hqin).
      assert (q ∈ packages) by (rewrite <- Hperm; eapply elem_of_sublist; [exact Hqin|apply vec_dedup_sublist]).
      by rewrite (Hinj p q Hin).
Qed.

(** ** What a search reads *)

Lemma push_new_nodup (l acc : list File) : NoDup acc → NoDup (push_new l acc).
Proof.
  unfold push_new. revert acc. induction l as [|g l IH]; intros acc Ha; [done|]. apply IH.
  case_bool_decide; [done|]. apply NoDup_app. split; [done|]. split; [|apply NoDup_singleton].
  by intros h Hh ->%list_elem_of_singleton.
Qed.

(** The files of a live root that are searched. *)
Definition searched_in (l : LiveRoot) f : Prop :=
  match l with
  | LWorkspace r => f ∈ r_scripts (root db r) ∨
      ∃ p, p ∈ r_packages (root db r) ∧ f ∈ package_listing db p
  | LLibrary r => f ∈ r_scripts (root db r) ∨
      ∃ p, p ∈ r_packages (root db r) ∧ depended p ∧ f ∈ package_listing db p
  | LOrphan => f ∈ orphan_files db
  end.

Lemma elem_of_used_root_listing dependencies r f :
  f ∈ used_root_listing db dependencies r ↔ f ∈ r_scripts (root db r) ∨
    ∃ p, p ∈ r_packages (root db r) ∧
      match dependencies with Some l => p ∈ l | None => True end ∧ f ∈ package_listing db p.
Proof.
  unfold used_root_listing. rewrite elem_of_app, list_elem_of_bind. apply or_iff_compat_l.
  split; intros (p & Hp); exists p; rewrite list_elem_of_filter in *; destruct dependencies;
    rewrite ?bool_decide_eq_true in *; tauto.
Qed.

Lemma used_files_fold deps roots files :
  (∀ p, p ∈ deps ↔ depended p) → NoDup files →
  let out := foldl (λ files l,
    match l with
    | LWorkspace r => push_new (used_root_listing db None r) files
    | LLibrary r => push_new (used_root_listing db (Some deps) r) files
    | LOrphan => push_new (hash_order (elements (orphan_files db))) files
    end) files roots in
  NoDup out ∧ ∀ f, f ∈ out ↔ f ∈ files ∨ ∃ l, l ∈ roots ∧ searched_in l f.
Proof.
  intros Hdeps. revert files. induction roots as [|l roots IH]; intros files Hnd; cbn [foldl].
  { split; [done|]. intros f. split; [by left|]. intros [Hf|(l & Hl & _)]; [done|by apply elem_of_nil in Hl]. }
  set (next := match l with LWorkspace r => _ | LLibrary r => _ | LOrphan => _ end).
  assert (Hnext : NoDup next ∧ ∀ f, f ∈ next ↔ searched_in l f ∨ f ∈ files).
  { subst next. destruct l as [r|r|]; (split; [by apply push_new_nodup|]); intros f; rewrite elem_of_push_new;
      rewrite ?elem_of_used_root_listing, ?hash_order_perm, ?elem_of_elements; unfold searched_in.
    - apply or_iff_compat_r, or_iff_compat_l. split; intros (p & Hp); exists p; tauto.
    - setoid_rewrite Hdeps. done.
    - done. }
  destruct Hnext as [Hnn Hn]. destruct (IH next Hnn) as [Ho Hin]. split; [exact Ho|]. intros f.
  rewrite Hin, Hn. split.
  - intros [[Hs|Hf]|(l' & Hl & Hs)]; [right; exists l; split; [left|done]|by left|right; exists l'; split; [by right|done]].
  - intros [Hf|(l' & Hl & Hs)]; [by left; right|]. apply elem_of_cons in Hl as [->|Hl]; [by left; left|right; eauto].
Qed.

(** C28. The files a search reads are, each once, the scripts of the live roots,
    the listings of the workspace's packages, the orphan files, and of the
    installed packages exactly those the workspace depends on: a file of it
    attaches the package or names it before [::], its loader attaches it, a
    DESCRIPTION of the workspace lists it, or it is on R's default search path;
    and no package of the workspace has the name. The search never panics. *)
Theorem used_files_exact : reads_utf8 →
  ∃ files, all_used_files db = Some files ∧ NoDup files ∧
    ∀ f, f ∈ files ↔ ∃ l, l ∈ live_roots db ∧ searched_in l f.
Proof.
  intros Hu. destruct (package_dependencies_total Hu) as (deps & Hdeps & _ & _ & Hin).
  unfold all_used_files. rewrite Hdeps. cbn [mbind option_bind].
  destruct (used_files_fold deps (live_roots db) [] Hin (NoDup_nil_2)) as [Hnd Hf].
  eexists. split; [reflexivity|]. split; [exact Hnd|]. intros f. rewrite Hf. split.
  - intros [?%elem_of_nil|?]; done.
  - by right.
Qed.
End workspace.

(** ** The identifier at a cursor *)

(** The text of a range can be taken. *)
Definition in_text `{TextRanges} (source : text) (range : TextRange) : Prop :=
  is_Some (slice source (N.to_nat (range_start range)) (N.to_nat (range_end range))).

Definition selector_ok `{TextRanges} (source : text) (s : Selector) : Prop :=
  in_text source (selector_range s) ∧
  match s with SelString (Some t) _ => is_Some (string_text t) | _ => True end.

(** Nodes are inside the text, the token of a string has its two quotes, and
    there is an answer at every offset of the text. *)
Record tree_lawful `{SyntaxTree} : Prop := {
  tl_at source offset : (offset ≤ N.of_nat (length source))%N → is_Some (token_at_offset source offset);
  tl_extract_of source token e s :
    extract_of source token = Some e → en_right e = Some s → selector_ok source s;
  tl_namespace_of source token n s :
    namespace_of source token = Some n → nn_left n = Some s ∨ nn_right n = Some s → selector_ok source s;
  tl_extract_nodes source e s : e ∈ extract_nodes source → en_right e = Some s → selector_ok source s;
  tl_namespace_nodes source n s :
    n ∈ namespace_nodes source → nn_left n = Some s ∨ nn_right n = Some s → selector_ok source s;
}.

Section classified.
Context `{TR : TextRanges} `{HO : HashOrder} `{UO : UrlOps} `{RD : DbReads} `{RP : !RParser}.
Context `{SX : !SyntaxTree} (db : Db) (Q : Queries) (Htree : tree_lawful).
Context (Hix : ∀ f, index_wf (q_semantic_index f)).
Implicit Types (f : File) (name : string).

Lemma identifier_text_total source s : selector_ok source s → ∃ o, opt_identifier_text (Some s) = Some o.
Proof.
  intros [_ Hs]. destruct s as [t r|[t|] r|r|r]; cbn; try by eexists.
  destruct Hs as [i Hi]. rewrite Hi. by eexists.
Qed.

Lemma opt_identifier_text_total source o :
  (∀ s, o = Some s → selector_ok source s) → ∃ n, opt_identifier_text o = Some n.
Proof. destruct o as [s|]; [|by exists None]. intros Hs. by eapply identifier_text_total, Hs. Qed.

(** A use the index has, of a name. *)
Definition use_in f name (range : TextRange) : Prop :=
  ∃ s k use, (us ← ix_uses (q_semantic_index f) !! s; us !! k) = Some use ∧
    ix_use_named (q_semantic_index f) s k name ∧ range = use_range use.

Definition definition_in f name (range : TextRange) : Prop :=
  ∃ s x def, (defs ← ix_definitions (q_semantic_index f) !! s; defs !! x) = Some def ∧
    ix_def_named (q_semantic_index f) s x name ∧ range = def_range def.

Lemma classify_variable_total f offset :
  ∃ o, classify_variable f offset = Some o ∧
    ∀ i, o = Some i → ∃ name range, i = IdVariable name range ∧
      (use_in f name range ∨ definition_in f name range).
Proof.
  unfold classify_variable, use_at, definition_at, IndexVec.index.
  destruct (scope_at_ix _ offset (Hix f)) as (s & Hs & _ & Hlt).
  destruct (ix_scope_tables _ _ (Hix f) Hlt) as (t & defs & us & m & Ht & Hd & Hus & _ & Hwf).
  rewrite Hs. cbn [mbind option_bind]. rewrite Hus. cbn [mbind option_bind].
  pose proof (index_contains_spec (λ u, range_contains (use_range u) offset) us) as Hu.
  destruct (IndexVec.contains _ us) as [[u use]|]; cbn [mbind option_bind].
  - destruct Hu as (Hu & _). pose proof (st_use_syms _ _ _ _ Hwf u use Hu) as Hsym.
    destruct (lookup_lt_is_Some_2 _ _ Hsym) as [sym Hsy].
    unfold symbol_name_at, SymbolTable.symbol, IndexVec.index. rewrite Ht. cbn [mbind option_bind]. rewrite Hsy. cbn.
    eexists. split; [reflexivity|]. intros i [= <-]. eexists _, _. split; [reflexivity|]. left.
    exists s, u, use. rewrite Hus. split; [exact Hu|]. split; [|done]. exists us, use. split; [done|]. split; [done|].
    by exists t, sym.
  - rewrite Hd. cbn [mbind option_bind].
    pose proof (index_contains_spec (λ d, range_contains (def_range d) offset) defs) as Hdef.
    destruct (IndexVec.contains _ defs) as [[x def]|]; cbn [mbind option_bind]; [|by exists None].
    destruct Hdef as (Hdef & _). pose proof (st_def_syms _ _ _ _ Hwf x def Hdef) as Hsym.
    destruct (lookup_lt_is_Some_2 _ _ Hsym) as [sym Hsy].
    unfold symbol_name_at, SymbolTable.symbol, IndexVec.index. rewrite Ht. cbn [mbind option_bind]. rewrite Hsy. cbn.
    eexists. split; [reflexivity|]. intros i [= <-]. eexists _, _. split; [reflexivity|]. right.
    exists s, x, def. rewrite Hd. split; [exact Hdef|]. split; [|done]. exists defs, def. split; [done|]. split; [done|].
    by exists t, sym.
Qed.

(** An identifier is found or there is none, wherever the cursor is in the text;
    a variable is one the index knows. *)
Lemma classify_total f offset :
  (offset ≤ N.of_nat (length (source_text db f)))%N →
  ∃ o, Ide.classify db f offset = Some o ∧
    ∀ name range, o = Some (IdVariable name range) → use_in f name range ∨ definition_in f name range.
Proof.
  intros Hoff. unfold Ide.classify, snap_to_name_token. destruct (tl_at Htree _ _ Hoff) as [at_ ->]. cbn [mbind option_bind].
  set (o := match at_ with NoToken => _ | Single _ => _ | Between _ _ => _ end). destruct o as [token|]; [|by exists None].
  destruct (classify_variable_total f (range_start (tk_range token))) as (v & -> & Hv). cbn [mbind option_bind].
  destruct v as [i|].
  { exists (Some i). split; [done|]. intros name range [= ->]. by destruct (Hv _ eq_refl) as (? & ? & [= -> ->] & ?). }
  assert (Hmember : ∃ o, classify_member (source_text db f) token = Some o ∧ ∀ name range, o ≠ Some (IdVariable name range)).
  { unfold classify_member. destruct (extract_of _ token) as [e|] eqn:He; cbn [mbind option_bind]; [|by exists None].
    destruct (en_operator e) as [op|]; cbn [mbind option_bind]; [|by exists None].
    case_bool_decide; [by exists None|]. destruct (member_kind _) as [kind|]; cbn [mbind option_bind]; [|by exists None].
    destruct (en_right e) as [s|] eqn:Hs; cbn [mbind option_bind]; [|by exists None].
    destruct (identifier_text_total _ s (tl_extract_of Htree _ _ _ _ He Hs)) as [n Hn]. rewrite Hn. cbn [mbind option_bind].
    eexists. split; [reflexivity|]. by destruct n. }
  destruct Hmember as (o' & -> & Ho'). cbn [mbind option_bind]. destruct o' as [i|].
  { exists (Some i). split; [done|]. intros name range Hi. by destruct (Ho' name range). }
  unfold classify_namespace. destruct (namespace_of _ token) as [n|] eqn:Hn; [|by exists None].
  destruct (opt_identifier_text_total (source_text db f) (nn_left n)) as [l Hl]; [intros s Hs; eapply tl_namespace_of; eauto|].
  rewrite Hl. cbn [mbind option_bind]. destruct l as [package|]; [|by exists None].
  destruct (opt_identifier_text_total (source_text db f) (nn_right n)) as [r Hr]; [intros s Hs; eapply tl_namespace_of; eauto|].
  rewrite Hr. cbn [mbind option_bind]. eexists. split; [reflexivity|]. intros name range.
  destruct r; [|done]. cbn. destruct (nn_operator n) as [op|]; [|done]. cbn. by destruct (visibility_of op).
Qed.
End classified.

(** ** References *)

(** *** The order of references *)

Lemma dedup_equal_elem {A} `{!EqDecision A} (l : list A) x :
  x ∈ vec_dedup_by (λ a b, bool_decide (a = b)) l ↔ x ∈ l.
Proof.
  destruct l as [|a l]; [done|]. cbn. revert a. induction l as [|b l IH]; intros a; [done|]. cbn [dedup_after].
  case_bool_decide as Hb; [subst b|]; rewrite elem_of_cons.
  - rewrite <- elem_of_cons, IH, !elem_of_cons. tauto.
  - rewrite IH. by rewrite (elem_of_cons (b :: l)).
Qed.

Lemma reference_le_spec f1 p1 o1 f2 p2 o2 :
  reference_le (f1, p1, o1) (f2, p2, o2) = true ↔
  f1 = false ∧ f2 = true ∨ f1 = f2 ∧ (p1 ≠ p2 ∧ text_le p1 p2 = true ∨ p1 = p2 ∧ (o1 ≤ o2)%N).
Proof.
  cbn. destruct f1, f2; cbn; try case_bool_decide; cbn; rewrite ?bool_decide_eq_true;
    (split; [try by auto|intros [[? ?]|[? [[? ?]|[? ?]]]]; done]).
Qed.

Lemma reference_le_total a b : reference_le a b = true ∨ reference_le b a = true.
Proof.
  destruct a as [[f1 p1] o1], b as [[f2 p2] o2]. rewrite !reference_le_spec.
  destruct (decide (p1 = p2)) as [->|Hp].
  - destruct f1, f2; auto; destruct (N.le_total o1 o2); auto 6.
  - assert (p2 ≠ p1) by congruence. destruct f1, f2; auto; destruct (text_le_total p1 p2); auto 6.
Qed.

Lemma reference_le_trans a b c :
  reference_le a b = true → reference_le b c = true → reference_le a c = true.
Proof.
  destruct a as [[f1 p1] o1], b as [[f2 p2] o2], c as [[f3 p3] o3]. rewrite !reference_le_spec.
  intros [[-> ->]|[-> H1]] [[? ->]|[-> H2]]; auto. right. split; [done|].
  destruct H1 as [[Hn1 H1]|[-> H1]], H2 as [[Hn2 H2]|[-> H2]]; auto.
  - left. split; [|by eapply text_le_trans]. intros ->. destruct Hn2. by apply text_le_antisym.
  - right. split; [done|]. lia.
Qed.

(** What a partial search of the elements of a list finds, and of the lists they give. *)
Lemma collect_total {A B} (f : A → option (option B)) (P : A → B → Prop) (l : list A) :
  (∀ a, a ∈ l → ∃ o, f a = Some o ∧ ∀ b, o = Some b ↔ P a b) →
  ∃ found : list (option B), mapM f l = Some found ∧ ∀ b : B, b ∈ omap id found ↔ ∃ a, a ∈ l ∧ P a b.
Proof.
  intros Hf. destruct (mapM_total f (λ a o, ∀ b, o = Some b ↔ P a b) l Hf) as (found & -> & HF).
  exists found. split; [done|]. intros b. rewrite list_elem_of_omap. split.
  - intros (o & Ho & Hb). cbn in Hb. subst o. destruct (Forall2_elem_r _ _ _ _ HF Ho) as (a & Ha & Hab).
    exists a. split; [done|]. by apply Hab.
  - intros (a & Ha & Hab). destruct (Forall2_elem_l _ _ _ _ HF Ha) as (o & Ho & Hob).
    exists o. split; [done|]. by apply Hob.
Qed.

Lemma concat_total {A B} (f : A → option (list B)) (P : A → B → Prop) (l : list A) :
  (∀ a, a ∈ l → ∃ k, f a = Some k ∧ ∀ b, b ∈ k ↔ P a b) →
  ∃ found : list (list B), mapM f l = Some found ∧ ∀ b : B, b ∈ concat found ↔ ∃ a, a ∈ l ∧ P a b.
Proof.
  intros Hf. destruct (mapM_total f (λ a k, ∀ b, b ∈ k ↔ P a b) l Hf) as (found & -> & HF).
  exists found. split; [done|]. intros b. rewrite list_elem_of_In, in_concat. split.
  - intros (k & Hk%list_elem_of_In & Hb%list_elem_of_In). destruct (Forall2_elem_r _ _ _ _ HF Hk) as (a & Ha & Hab).
    exists a. split; [done|]. by apply Hab.
  - intros (a & Ha & Hab). destruct (Forall2_elem_l _ _ _ _ HF Ha) as (k & Hk & Hkb).
    exists k. split; [by apply list_elem_of_In|]. by apply list_elem_of_In, Hkb.
Qed.

Section references.
Context `{TR : TextRanges} `{HO : HashOrder} `{UO : UrlOps} `{RD : DbReads} `{RP : !RParser}.
Context `{HT : HandlerTypes} `{HD : !Handlers} `{HL : !HandlersLawful} `{BP : BuildProfile} `{MJ : MergeJoinBy}.
Context (registry : list PackageEntry) (db : Db) (Q : Queries).
Context (rank : Key → nat) (recovered : Key → bool).
Context (Hset : settled registry db Q rank recovered).
Context `{SX : !SyntaxTree} (Htree : tree_lawful) (Hutf : reads_utf8).
Implicit Types (f g : File) (name : string) (targets : list Definition') (r : FileRange).

(** The files that mention the name and can hold a reference. *)
Definition searched f name g : Prop :=
  ((∃ l, l ∈ live_roots db ∧ searched_in db Q l g) ∨
   (∃ p, f_package (file db f) = Some p ∧ g ∈ package_listing db p)) ∧
  text_contains (source_text db g) (text_of name) = true.

(** A use that resolves to one of the targets. *)
Definition resolves_to name targets r : Prop :=
  use_in Q (fr_file r) name (fr_range r) ∧
  ∃ candidates d, file_resolve_at db (fr_file r) (range_start (fr_range r)) = Some candidates ∧
    d ∈ candidates ∧ d ∈ targets.

(** [package::name], and [object$name] or [object@name]. *)
Definition qualified_in (package name : string) r : Prop :=
  ∃ n s, n ∈ namespace_nodes (source_text db (fr_file r)) ∧ nn_right n = Some s ∧
    fr_range r = selector_range s ∧ opt_identifier_text (nn_left n) = Some (Some package) ∧
    opt_identifier_text (Some s) = Some (Some name).

Definition member_in name (kind : MemberKind) r : Prop :=
  ∃ e op s, e ∈ extract_nodes (source_text db (fr_file r)) ∧ en_operator e = Some op ∧
    member_kind (tk_kind op) = Some kind ∧ en_right e = Some s ∧ fr_range r = selector_range s ∧
    opt_identifier_text (Some s) = Some (Some name).

Definition declared targets r : Prop :=
  ∃ d, d ∈ targets ∧ fr_file r = d_file d ∧ definition_name_range db d = Some (Some (fr_range r)).

(** The references of targets: uses that resolve to one of them, in the file of
    the cursor if they are all local; uses qualified by their package; their names. *)
Definition references_of f name targets (include_declaration : bool) r : Prop :=
  (if locally_scoped targets then fr_file r = f else searched f name (fr_file r)) ∧
    resolves_to name targets r ∨
  locally_scoped targets = false ∧
    (∃ p, first_some (λ d, f_package (file db (d_file d))) targets = Some p ∧
       searched f name (fr_file r) ∧ qualified_in (package_name db p) name r) ∨
  include_declaration = true ∧ declared targets r.

Lemma indexed f : index_wf (q_semantic_index f).
Proof. by eapply settled_indexes. Qed.

(** *** Files *)

Lemma searched_valid f name g : searched f name g → file_valid db g.
Proof.
  assert (Hp := se_placed _ _ _ _ _ Hset).
  intros [[(l & Hl & Hs)|(p & _ & Hg)] _]; [|by apply (pl_listing _ _ Hp) in Hg].
  apply elem_of_live_roots in Hl as [Hl _].
  assert (Hroot : ∀ i, i ∈ live_list db → g ∈ root_listing db i → file_valid db g).
  { intros i Hi Hg. eapply live_valid; [exact Hp|]. left. by exists i. }
  destruct l as [i|i|]; cbn in Hl, Hs.
  - by apply (Hroot i), elem_of_root_listing.
  - apply (Hroot i); [done|]. apply elem_of_root_listing. destruct Hs as [?|(p & ? & _ & ?)]; eauto.
  - eapply live_valid; [exact Hp|]. by right.
Qed.

Lemma matching_files_total f name :
  ∃ files, all_matching_files db f name = Some files ∧ ∀ g, g ∈ files ↔ searched f name g.
Proof.
  destruct (package_dependencies_total db Q Hutf) as (deps & Hdeps & _ & _ & Hin).
  unfold all_matching_files, all_used_files. rewrite Hdeps. cbn [mbind option_bind].
  destruct (used_files_fold db Q deps (live_roots db) [] Hin (NoDup_nil_2)) as [_ Hf].
  set (used := foldl _ [] (live_roots db)) in *.
  set (cursor := match f_package (file db f) with Some p => _ | None => _ end).
  eexists. split; [reflexivity|]. intros g. unfold searched.
  assert (Hc : g ∈ cursor ↔ ∃ p, f_package (file db f) = Some p ∧ g ∈ package_listing db p).
  { subst cursor. destruct (f_package (file db f)) as [p|].
    - split; [intros Hg; by exists p|by intros (p' & [= <-] & Hg)].
    - split; [by intros ?%elem_of_nil|by intros (p' & ? & _)]. }
  rewrite <- Hc. assert (Hu : g ∈ used ↔ ∃ l, l ∈ live_roots db ∧ searched_in db Q l g).
  { rewrite Hf. split; [by intros [?%elem_of_nil|?]|by right]. }
  rewrite <- Hu, <- elem_of_app. generalize (used ++ cursor). intros candidates.
  assert (Hfold : ∀ acc, g ∈ foldl (λ files g,
    if bool_decide (g ∈ files) || negb (text_contains (source_text db g) (text_of name))
    then files else files ++ [g]) acc candidates ↔
    g ∈ acc ∨ g ∈ candidates ∧ text_contains (source_text db g) (text_of name) = true).
  { clear. induction candidates as [|h l IH]; intros acc; cbn [foldl].
    - split; [by left|]. intros [?|[?%elem_of_nil _]]; done.
    - rewrite IH, elem_of_cons. destruct (bool_decide (h ∈ acc)) eqn:Hh; cbn [orb].
      + apply bool_decide_eq_true in Hh. split; [intros [?|[? ?]]; auto|]. intros [?|[[->|?] ?]]; auto.
      + destruct (text_contains (source_text db h) _) eqn:Ht; cbn [negb].
        * rewrite elem_of_app, list_elem_of_singleton. split.
          -- intros [[?| ->]|[? ?]]; auto.
          -- intros [?|[[->|?] ?]]; auto.
        * split; [intros [?|[? ?]]; auto|]. intros [?|[[->|?] ?]]; auto. congruence. }
  rewrite Hfold. split; [by intros [?%elem_of_nil|?]|by right].
Qed.

(** *** Uses *)

Lemma file_uses_total f name :
  ∃ uses, file_uses_of f name = Some uses ∧ ∀ range, range ∈ uses ↔ use_in Q f name range.
Proof.
  destruct (uses_of_exact (q_semantic_index f) name (indexed f)) as (l & Hl & Hin).
  unfold file_uses_of. rewrite Hl. cbn [mbind option_bind]. eexists. split; [reflexivity|]. intros range.
  unfold use_in. split.
  - intros ([[s k] use] & -> & (Hu & Hn)%Hin)%list_elem_of_fmap. by exists s, k, use.
  - intros (s & k & use & Hu & Hn & ->). apply list_elem_of_fmap. exists (s, k, use). by rewrite Hin.
Qed.

Lemma confirmed_uses_total name targets g : file_valid db g →
  ∃ l, confirmed_uses db name targets g = Some l ∧
    ∀ r, r ∈ l ↔ fr_file r = g ∧ resolves_to name targets r.
Proof.
  intros Hg. unfold confirmed_uses. destruct (file_uses_total g name) as (uses & -> & Hu). cbn [mbind option_bind].
  set (confirm := λ range : TextRange, _).
  destruct (collect_total confirm (λ range r, r = mkFileRange g range ∧
    ∃ candidates d, file_resolve_at db g (range_start range) = Some candidates ∧ d ∈ candidates ∧ d ∈ targets) uses)
    as (l & Hl & Hin).
  { intros range _. unfold confirm.
    destruct (resolve_at_minted _ _ _ _ _ Hset g (range_start range) Hg) as (candidates & Hc & _). rewrite Hc. cbn [mbind option_bind].
    eexists. split; [reflexivity|]. intros r. destruct (existsb _ candidates) eqn:He.
    - apply existsb_exists in He as (d & Hd & Ht%bool_decide_eq_true). apply list_elem_of_In in Hd.
      split; [intros [= <-]; split; [done|]; by exists candidates, d|by intros [-> _]].
    - split; [done|]. intros (_ & c & d & [= <-] & Hd & Ht). exfalso.
      assert (existsb (λ d, bool_decide (d ∈ targets)) candidates = true) as Hex; [|by rewrite Hex in He].
      apply existsb_exists. exists d. split; [by apply list_elem_of_In|by apply bool_decide_eq_true]. }
  rewrite Hl. cbn [mbind option_bind]. eexists. split; [reflexivity|]. intros r. rewrite Hin. unfold resolves_to. split.
  - intros (range & Hrange & -> & Hres). cbn. split; [done|]. split; [by apply Hu|done].
  - intros (<- & Huse & Hres). apply Hu in Huse. exists (fr_range r). split; [done|]. split; [by destruct r|done].
Qed.

(** *** Nodes *)

Lemma name_matches name (n : option string) (range range' : TextRange) :
  (if bool_decide (n = Some name) then Some range else None) = Some range' ↔ range' = range ∧ n = Some name.
Proof. case_bool_decide; split; [by intros [= ->]|by intros [-> _]|done|tauto]. Qed.

Lemma namespace_uses_total g package name :
  ∃ l, namespace_uses_of db g package name = Some l ∧
    ∀ range, range ∈ l ↔ qualified_in package name (mkFileRange g range).
Proof.
  unfold namespace_uses_of.
  destruct (collect_total (namespace_use package name) (λ n range, ∃ s, nn_right n = Some s ∧ range = selector_range s ∧
    opt_identifier_text (nn_left n) = Some (Some package) ∧ opt_identifier_text (Some s) = Some (Some name))
    (namespace_nodes (source_text db g))) as (found & -> & Hin).
  { intros n Hn. unfold namespace_use.
    destruct (opt_identifier_text_total (source_text db g) (nn_left n)) as [l Hl]; [intros s Hs; eapply tl_namespace_nodes; eauto|].
    rewrite Hl. cbn [mbind option_bind]. case_bool_decide as Hp; [|exists None; split; [done|]; intros range; split; [done|];
      intros (s & _ & _ & [= ->] & _); by destruct Hp].
    destruct (nn_right n) as [s|] eqn:Hs; [|exists None; split; [done|]; intros range; split; [done|by intros (? & ? & _)]].
    destruct (identifier_text_total (source_text db g) s) as [m Hm]; [eapply tl_namespace_nodes; eauto|].
    rewrite Hm. cbn [mbind option_bind]. eexists. split; [reflexivity|]. intros range. rewrite name_matches. split.
    - intros [-> ->]. exists s. by rewrite Hp.
    - intros (s' & [= <-] & -> & _ & Hn'). split; [done|]. rewrite Hm in Hn'. by injection Hn'. }
  cbn [mbind option_bind]. eexists. split; [reflexivity|]. intros range. rewrite Hin. unfold qualified_in. cbn.
  split; [intros (n & Hn & s & Hs)|intros (n & s & Hn & Hs)]; [by exists n, s|exists n; split; [done|]; by exists s].
Qed.

Lemma member_uses_total g name kind :
  ∃ l, member_uses_of db g name kind = Some l ∧
    ∀ range, range ∈ l ↔ member_in name kind (mkFileRange g range).
Proof.
  unfold member_uses_of.
  destruct (collect_total (member_use name kind) (λ e range, ∃ op s, en_operator e = Some op ∧
    member_kind (tk_kind op) = Some kind ∧ en_right e = Some s ∧ range = selector_range s ∧
    opt_identifier_text (Some s) = Some (Some name)) (extract_nodes (source_text db g))) as (found & -> & Hin).
  { intros e He. unfold member_use.
    assert (Hnone : (∀ op s, en_operator e = Some op → member_kind (tk_kind op) = Some kind → en_right e = Some s → False) →
      ∀ range, None = Some range ↔ ∃ op s, en_operator e = Some op ∧ member_kind (tk_kind op) = Some kind ∧
        en_right e = Some s ∧ range = selector_range s ∧ opt_identifier_text (Some s) = Some (Some name)).
    { intros Hn range. split; [done|]. intros (op & s & ? & ? & ? & _). exfalso. eauto. }
    destruct (en_operator e) as [op|]; cbn [mbind option_bind]; [|exists None; split; [done|]; by apply Hnone].
    destruct (member_kind (tk_kind op)) as [k|] eqn:Hk; cbn [mbind option_bind];
      [|exists None; split; [done|]; apply Hnone; intros ?? [= <-]; congruence].
    case_bool_decide as Hkk; [|exists None; split; [done|]; apply Hnone; intros ?? [= <-]; congruence].
    destruct (en_right e) as [s|] eqn:Hs; [|exists None; split; [done|]; by apply Hnone].
    destruct (identifier_text_total (source_text db g) s) as [m Hm]; [eapply tl_extract_nodes; eauto|].
    rewrite Hm. cbn [mbind option_bind]. eexists. split; [reflexivity|]. intros range. rewrite name_matches. split.
    - intros [-> ->]. exists op, s. by rewrite Hk, Hkk.
    - intros (op' & s' & _ & _ & [= <-] & -> & Hn'). split; [done|]. rewrite Hm in Hn'. by injection Hn'. }
  cbn [mbind option_bind]. eexists. split; [reflexivity|]. intros range. rewrite Hin. unfold member_in. cbn.
  split; [intros (e & He & op & s & Hs)|intros (e & op & s & He & Hs)]; [by exists e, op, s|exists e; split; [done|]; by exists op, s].
Qed.

(** The ranges found in some files. *)
Lemma per_file_total (search : File → option (list TextRange)) (P : FileRange → Prop) fs :
  (∀ g, ∃ l, search g = Some l ∧ ∀ range, range ∈ l ↔ P (mkFileRange g range)) →
  ∃ found, mapM (λ g, map (mkFileRange g) <$> search g) fs = Some found ∧
    ∀ r, r ∈ concat found ↔ fr_file r ∈ fs ∧ P r.
Proof.
  intros Hs. destruct (concat_total (λ g, map (mkFileRange g) <$> search g) (λ g r, fr_file r = g ∧ P r) fs)
    as (found & -> & Hin).
  { intros g _. destruct (Hs g) as (l & -> & Hl). cbn. eexists. split; [reflexivity|]. intros r.
    change (map (mkFileRange g) l) with (mkFileRange g <$> l). rewrite list_elem_of_fmap. split.
    - intros (range & -> & Hr). split; [done|]. by apply Hl.
    - intros [<- Hr]. exists (fr_range r). destruct r. split; [done|]. by apply Hl. }
  exists found. split; [done|]. intros r. rewrite Hin. split; [by intros (g & Hg & <- & Hr)|intros [Hg Hr]; by exists (fr_file r)].
Qed.

Lemma find_namespace_uses_total f package name :
  ∃ l, find_namespace_uses db f package name = Some l ∧
    ∀ r, r ∈ l ↔ searched f name (fr_file r) ∧ qualified_in package name r.
Proof.
  unfold find_namespace_uses. destruct (matching_files_total f name) as (fs & -> & Hfs). cbn [mbind option_bind].
  destruct (per_file_total (λ g, namespace_uses_of db g package name) (qualified_in package name) fs) as (found & Hf & Hin).
  { intros g. apply namespace_uses_total. }
  rewrite Hf. cbn [mbind option_bind]. eexists. split; [reflexivity|]. intros r. by rewrite Hin, Hfs.
Qed.

Lemma declarations_total targets : Forall (minted Q) targets →
  ∃ l, declarations db targets = Some l ∧ ∀ r, r ∈ l ↔ declared targets r.
Proof.
  intros Hm. unfold declarations. set (declare := λ d : Definition', _).
  destruct (collect_total declare (λ d r, fr_file r = d_file d ∧ definition_name_range db d = Some (Some (fr_range r))) targets)
    as (found & Hf & Hin).
  { intros d Hd. rewrite Forall_forall in Hm. destruct (Hm d Hd) as [x Hx].
    destruct (definition_kind_spec Q _ _ _ _ (indexed _) Hx) as (defs & def & _ & _ & Hk).
    unfold declare, definition_name_range. rewrite Hk. cbn [mbind option_bind].
    destruct (name_node_range _ (def_kind def)) as [range|]; (eexists; split; [reflexivity|]); intros r; split; try done.
    - by intros [= <-].
    - intros [Hfile [= ->]]. by destruct r; cbn in *; subst.
    - by intros [_ ?]. }
  rewrite Hf. cbn [mbind option_bind]. eexists. split; [reflexivity|]. exact Hin.
Qed.

Lemma sort_file_ranges_spec f ranges :
  (∀ r, r ∈ sort_file_ranges db f ranges ↔ r ∈ ranges) ∧
  StronglySorted (key_lte reference_le (reference_key db f)) (sort_file_ranges db f ranges).
Proof.
  unfold sort_file_ranges.
  destruct (sort_by_key_spec reference_le (reference_key db f) reference_le_total reference_le_trans ranges)
    as (Hperm & Hsort & _).
  split; [intros r; by rewrite dedup_equal_elem, Hperm|]. eapply sublist_sorted; [apply vec_dedup_sublist|exact Hsort].
Qed.

(** *** Searches *)

(** A search that panics on nothing, and its results in order. *)
Definition finds f (search : option (list FileRange)) (P : FileRange → Prop) : Prop :=
  ∃ l, search = Some l ∧ (∀ r, r ∈ l ↔ P r) ∧ StronglySorted (key_lte reference_le (reference_key db f)) l.

Lemma references_of_nil f name d r : ¬ references_of f name [] d r.
Proof.
  intros [[_ (_ & _ & d' & _ & _ & Hd)]|[[? _]|(_ & d' & Hd & _)]]; [by apply elem_of_nil in Hd|done|by apply elem_of_nil in Hd].
Qed.

Lemma collect_definition_references_total f name targets include_declaration :
  file_valid db f → Forall (minted Q) targets →
  finds f (collect_definition_references db f name targets include_declaration)
    (references_of f name targets include_declaration).
Proof.
  intros Hf Hm. destruct targets as [|d0 targets'].
  { exists []. split; [done|]. split; [|constructor]. intros r. split; [by intros ?%elem_of_nil|].
    by intros ?%references_of_nil. }
  set (targets := d0 :: targets') in *. unfold finds. set (local := locally_scoped targets).
  assert (Hfiles : ∃ fs, (if local then Some [f] else all_matching_files db f name) = Some fs ∧
    ∀ g, g ∈ fs ↔ if local then g = f else searched f name g).
  { destruct local; [exists [f]; split; [done|]; intros g; apply list_elem_of_singleton|apply matching_files_total]. }
  destruct Hfiles as (fs & Hfs & Hin).
  assert (Hvalid : ∀ g, g ∈ fs → file_valid db g).
  { intros g Hg%Hin. destruct local; [by subst|by apply searched_valid in Hg]. }
  destruct (concat_total (confirmed_uses db name targets) (λ g r, fr_file r = g ∧ resolves_to name targets r) fs)
    as (uses & Huses & Hu); [intros g Hg; apply confirmed_uses_total; auto|].
  assert (Hqual : ∃ l, (if local then Some [] else qualified_uses db f name targets) = Some l ∧ ∀ r, r ∈ l ↔
    local = false ∧ ∃ p, first_some (λ d, f_package (file db (d_file d))) targets = Some p ∧
      searched f name (fr_file r) ∧ qualified_in (package_name db p) name r).
  { destruct local; [exists []; split; [done|]; intros r; split; [by intros ?%elem_of_nil|by intros [? _]]|].
    unfold qualified_uses. destruct (first_some _ targets) as [p|].
    - destruct (find_namespace_uses_total f (package_name db p) name) as (l & Hl & Hr). exists l. split; [done|].
      intros r. rewrite Hr. split; [intros [? ?]; split; [done|]; by exists p|by intros (_ & ? & [= <-] & ?)].
    - exists []. split; [done|]. intros r. split; [by intros ?%elem_of_nil|by intros (_ & ? & ? & _)]. }
  destruct Hqual as (qualified & Hq & Hqr).
  assert (Hdecl : ∃ l, (if include_declaration then declarations db targets else Some []) = Some l ∧
    ∀ r, r ∈ l ↔ include_declaration = true ∧ declared targets r).
  { destruct include_declaration; [|exists []; split; [done|]; intros r; split; [by intros ?%elem_of_nil|by intros [? _]]].
    destruct (declarations_total targets Hm) as (l & Hl & Hr). exists l. split; [done|]. intros r. rewrite Hr. tauto. }
  destruct Hdecl as (decls & Hd & Hdr).
  unfold collect_definition_references. change (match targets with [] => _ | _ => ?x end) with x.
  fold local. rewrite Hfs. cbn [mbind option_bind]. rewrite Huses. cbn [mbind option_bind].
  rewrite Hq. cbn [mbind option_bind]. rewrite Hd. cbn [mbind option_bind].
  destruct (sort_file_ranges_spec f (concat uses ++ qualified ++ decls)) as [Hs Hsorted].
  eexists. split; [reflexivity|]. split; [|exact Hsorted]. intros r. rewrite Hs, !elem_of_app, Hu, Hqr, Hdr.
  unfold references_of. fold local. apply or_iff_compat_r. split.
  - intros (g & Hg%Hin & <- & Hres). by destruct local.
  - intros [Hg Hres]. exists (fr_file r). split; [|done]. apply Hin. by destruct local.
Qed.

Lemma find_member_references_total f name kind :
  finds f (find_member_references db f name kind) (λ r, searched f name (fr_file r) ∧ member_in name kind r).
Proof.
  unfold find_member_references, finds. destruct (matching_files_total f name) as (fs & -> & Hfs). cbn [mbind option_bind].
  destruct (per_file_total (λ g, member_uses_of db g name kind) (member_in name kind) fs) as (found & Hf & Hin).
  { intros g. apply member_uses_total. }
  rewrite Hf. cbn [mbind option_bind]. destruct (sort_file_ranges_spec f (concat found)) as [Hs Hsorted].
  eexists. split; [reflexivity|]. split; [|exact Hsorted]. intros r. by rewrite Hs, Hin, Hfs.
Qed.

Lemma goto_namespace_access_total package name visibility :
  ∃ l, goto_namespace_access db package name visibility = Some l ∧ Forall (minted Q) l.
Proof.
  unfold goto_namespace_access. destruct (package_by_name _ _) as [p|]; [|by exists []].
  destruct (package_resolve_total _ _ _ _ _ Hset p name visibility) as [l Hl]. exists l. split; [done|].
  by eapply package_resolve_minted.
Qed.

Lemma find_namespace_references_total f package name include_declaration : file_valid db f →
  finds f (find_namespace_references db f package name include_declaration) (λ r,
    ∃ targets, goto_namespace_access db package name Internal_ = Some targets ∧
      if bool_decide (targets = []) then searched f name (fr_file r) ∧ qualified_in package name r
      else references_of f name targets include_declaration r).
Proof.
  intros Hf. unfold find_namespace_references.
  destruct (goto_namespace_access_total package name Internal_) as (targets & Ht & Hm). rewrite Ht. cbn [mbind option_bind].
  destruct targets as [|d targets].
  - destruct (find_namespace_uses_total f package name) as (l & Hl & Hin). rewrite Hl. cbn.
    destruct (sort_file_ranges_spec f l) as [Hs Hsorted]. eexists. split; [reflexivity|]. split; [|exact Hsorted].
    intros r. rewrite Hs, Hin. split; [intros Hr; by exists []|by intros (? & [= <-] & ?)].
  - destruct (collect_definition_references_total f name (d :: targets) include_declaration Hf Hm) as (l & Hl & Hin & Hsort).
    exists l. split; [exact Hl|]. split; [|exact Hsort]. intros r. rewrite Hin.
    split; [intros Hr; by exists (d :: targets)|by intros (? & [= <-] & ?)].
Qed.

(** What the references of the identifier at an offset are. *)
Definition reference_at f (offset : N) (include_declaration : bool) r : Prop :=
  keeps_reference db f r = true ∧
  ∃ identifier, Ide.classify db f offset = Some (Some identifier) ∧
    match identifier with
    | IdVariable name range => ∃ targets, file_resolve_at db f (range_start range) = Some targets ∧
        references_of f name targets include_declaration r
    | IdMember name kind _ _ => searched f name (fr_file r) ∧ member_in name kind r
    | IdNamespace package name _ => ∃ targets, goto_namespace_access db package name Internal_ = Some targets ∧
        if bool_decide (targets = []) then searched f name (fr_file r) ∧ qualified_in package name r
        else references_of f name targets include_declaration r
    end.

Lemma find_references_total f offset include_declaration :
  file_valid db f → (offset ≤ N.of_nat (length (source_text db f)))%N →
  finds f (find_references db f offset include_declaration) (reference_at f offset include_declaration).
Proof.
  intros Hf Hoff. destruct (classify_total db Q Htree indexed f offset Hoff) as (o & Ho & _).
  unfold find_references, reference_at. rewrite Ho. cbn [mbind option_bind].
  set (P := λ r, match o with
    | Some (IdVariable name range) => ∃ targets, file_resolve_at db f (range_start range) = Some targets ∧
        references_of f name targets include_declaration r
    | Some (IdMember name kind _ _) => searched f name (fr_file r) ∧ member_in name kind r
    | Some (IdNamespace package name _) => ∃ targets, goto_namespace_access db package name Internal_ = Some targets ∧
        if bool_decide (targets = []) then searched f name (fr_file r) ∧ qualified_in package name r
        else references_of f name targets include_declaration r
    | None => False end).
  match goal with |- finds f (mbind _ ?s) _ => assert (Hs : finds f s P) end.
  { destruct o as [[name range|name kind orange nrange|package name v]|].
    - unfold find_variable_references, resolve_variable_at. rewrite Ho. cbn [mbind option_bind].
      destruct (resolve_at_minted _ _ _ _ _ Hset f (range_start range) Hf) as (targets & Ht & Hm). rewrite Ht. cbn [mbind option_bind].
      destruct (collect_definition_references_total f name targets include_declaration Hf Hm) as (l & Hl & Hin & Hsort).
      exists l. split; [exact Hl|]. split; [|exact Hsort]. intros r. rewrite Hin. unfold P. rewrite Ht.
      split; [intros Hr; by exists targets|by intros (? & [= <-] & ?)].
    - apply find_member_references_total.
    - by apply find_namespace_references_total.
    - exists []. split; [done|]. split; [intros r; split; [by intros ?%elem_of_nil|done]|constructor]. }
  destruct Hs as (l & -> & Hin & Hsort). cbn [mbind option_bind]. eexists. split; [reflexivity|]. split.
  - intros r. rewrite list_elem_of_filter, Hin. unfold P. apply and_iff_compat_l. destruct o as [i|].
    + split; [intros Hr; by exists i|by intros (? & [= <-] & ?)].
    + split; [done|by intros (? & ? & _)].
  - eapply sublist_sorted; [apply sublist_filter|exact Hsort].
Qed.

(** C11. The references of the identifier at a cursor, wherever it is in a file:
    the search panics nowhere, its results come in the order of the editor (the
    file of the cursor first, then by path, then by position), and they are
    exactly, out of the files an edit may touch: for a variable, the uses of its
    name that resolve to one of the definitions it resolves to, in the file if
    all are local and else in every file searched, the uses qualified by their
    package, and the names of the definitions if asked for; for a member the
    members of that name and operator; for a qualified name the references of
    what the package binds, or else the other uses so qualified. *)
Theorem references_exact f offset include_declaration :
  file_valid db f → (offset ≤ N.of_nat (length (source_text db f)))%N →
  ∃ refs, find_references db f offset include_declaration = Some refs ∧
    (∀ r, r ∈ refs ↔ reference_at f offset include_declaration r) ∧
    StronglySorted (key_lte reference_le (reference_key db f)) refs.
Proof. apply find_references_total. Qed.

(** ** Rename *)

(** Uses and the names of definitions are inside the text. *)
Record ranges_lawful : Prop := {
  rl_uses f name range : use_in Q f name range → in_text (source_text db f) range;
  rl_names f s x def range :
    (defs ← ix_definitions (q_semantic_index f) !! s; defs !! x) = Some def →
    name_node_range (source_text db f) (def_kind def) = Some range → in_text (source_text db f) range;
}.
Context (Hranges : ranges_lawful) `{CC : !CharClass}.

Lemma definition_name_range_total d : minted Q d →
  ∃ o, definition_name_range db d = Some o ∧ ∀ range, o = Some range → in_text (source_text db (d_file d)) range.
Proof.
  intros [x Hx]. destruct (definition_kind_spec Q _ _ _ _ (indexed _) Hx) as (defs & def & Hd & Hdef & Hk).
  unfold definition_name_range. rewrite Hk. cbn [mbind option_bind]. eexists. split; [reflexivity|].
  intros range. apply (rl_names Hranges _ (d_scope d) x). by rewrite Hd.
Qed.

Lemma references_in_text f name targets b r :
  Forall (minted Q) targets → references_of f name targets b r → in_text (source_text db (fr_file r)) (fr_range r).
Proof.
  intros Hm [[_ [Hu _]]|[(_ & p & _ & _ & Hq)|(_ & d & Hd & Hf & Hr)]].
  - by eapply rl_uses.
  - destruct Hq as (n & s & Hn & Hs & -> & _). by eapply tl_namespace_nodes; [| |right].
  - rewrite Forall_forall in Hm. destruct (definition_name_range_total d (Hm d Hd)) as (o & Ho & Hin).
    rewrite Hf. apply Hin. rewrite Hr in Ho. by injection Ho.
Qed.

(** A site whose name cannot be rewritten. *)
Definition refuses r (err : RenameError) : Prop :=
  ∃ t, slice (source_text db (fr_file r)) (N.to_nat (range_start (fr_range r))) (N.to_nat (range_end (fr_range r))) = Some t ∧
    match err with
    | BoundByRawString t' => t' = t ∧ name_spelling_at db (fr_file r) (fr_range r) = Some (Some RawString)
    | BoundByComputedName t' => t' = t ∧ name_spelling_at db (fr_file r) (fr_range r) = Some None
    | _ => False
    end.

(** The edit of a site: the new name as the site spells names. *)
Definition rewrites (n : RName) r (edit : RenameEdit) : Prop :=
  re_file edit = fr_file r ∧ re_range edit = fr_range r ∧
  match name_spelling_at db (fr_file r) (fr_range r) with
  | Some (Some Spelled) => re_new_text edit = identifier n
  | Some (Some (Quoted d)) => re_new_text edit = Identifiers.quoted n d
  | _ => False
  end.

Lemma editable_delimiter_total r : in_text (source_text db (fr_file r)) (fr_range r) →
  ∃ e, editable_delimiter db (fr_file r) (fr_range r) = Some e ∧
    match e with
    | inl err => refuses r err
    | inr d => ∀ n, rewrites n r (mkRenameEdit (fr_file r) (fr_range r) (render d n))
    end.
Proof.
  intros [t Ht]. unfold editable_delimiter, refuses, rewrites. rewrite Ht. cbn [mbind option_bind].
  assert (Hs : ∃ s, name_spelling_at db (fr_file r) (fr_range r) = Some s).
  { unfold name_spelling_at. destruct (tl_at Htree (source_text db (fr_file r)) (range_start (fr_range r))) as [a Ha].
    - unfold slice in Ht. case_bool_decide as Hb; [|done]. lia.
    - rewrite Ha. by eexists. }
  destruct Hs as [s Hs]. rewrite Hs. cbn [mbind option_bind]. eexists. split; [reflexivity|].
  destruct s as [[|d|]|]; cbn; [done|done|by exists t..].
Qed.

Lemma check_editable_total targets : Forall (minted Q) targets →
  ∃ e, check_editable db targets = Some e ∧
    ∀ err, e = inl err → ∃ r, declared targets r ∧ refuses r err.
Proof.
  induction 1 as [|d targets Hd Hm IH]; [by exists (inr tt)|]. cbn [check_editable].
  destruct IH as (e & He & Hrec).
  assert (Hrest : ∀ err, e = inl err → ∃ r, declared (d :: targets) r ∧ refuses r err).
  { intros err Herr. destruct (Hrec err Herr) as (r & (d' & Hd' & Hr) & Href). exists r. split; [|done].
    exists d'. split; [by right|done]. }
  destruct (definition_name_range_total d Hd) as (o & Ho & Hin). rewrite Ho. cbn [mbind option_bind].
  destruct o as [range|]; [|by exists e].
  destruct (editable_delimiter_total (mkFileRange (d_file d) range) (Hin _ eq_refl)) as (e' & He' & Hs).
  cbn [fr_file fr_range] in He'. rewrite He'. cbn [mbind option_bind]. destruct e' as [err|dl]; [|by exists e].
  eexists. split; [reflexivity|]. intros err' [= <-]. exists (mkFileRange (d_file d) range). split; [|done].
  exists d. split; [by left|]. by split.
Qed.

Lemma render_sites_total n sites :
  Forall (λ r, in_text (source_text db (fr_file r)) (fr_range r)) sites →
  ∃ out, render_sites db n sites = Some out ∧
    match out with
    | inl err => ∃ r, r ∈ sites ∧ refuses r err
    | inr edits => Forall2 (rewrites n) sites edits
    end.
Proof.
  induction 1 as [|r sites Hr _ IH]; [exists (inr []); split; [done|constructor]|]. cbn [render_sites].
  destruct (editable_delimiter_total r Hr) as (e & -> & Hs). cbn [mbind option_bind].
  destruct e as [err|d]; [exists (inl err); split; [done|]; exists r; split; [left|done]|].
  destruct IH as (out & -> & Hout). cbn [mbind option_bind]. destruct out as [err|edits].
  - exists (inl err). split; [done|]. destruct Hout as (r' & Hr' & Href). exists r'. split; [by right|done].
  - eexists. split; [reflexivity|]. constructor; [apply Hs|exact Hout].
Qed.

(** The variable at an offset, and its definitions. *)
Definition variable_at f (offset : N) name range targets : Prop :=
  Ide.classify db f offset = Some (Some (IdVariable name range)) ∧
  file_resolve_at db f (range_start range) = Some targets.

Lemma renamable_at_total f offset :
  file_valid db f → (offset ≤ N.of_nat (length (source_text db f)))%N →
  ∃ o, renamable_at db f offset = Some o ∧
    match o with
    | inr (Some (range, name)) => ∃ targets, variable_at f offset name range targets ∧
        ∀ d, d ∈ targets → is_library_def db d = false
    | inr None => ∀ name range targets, ¬ variable_at f offset name range targets
    | inl err => ∃ name range targets, variable_at f offset name range targets ∧
        ((err = InstalledPackage ∧ ∃ d, d ∈ targets ∧ is_library_def db d = true) ∨
         ∃ r, declared targets r ∧ refuses r err)
    end.
Proof.
  intros Hf Hoff. destruct (classify_total db Q Htree indexed f offset Hoff) as (o & Ho & _).
  unfold renamable_at, resolve_variable_at, variable_at. rewrite Ho. cbn [mbind option_bind].
  destruct o as [[name range|name kind orange nrange|package name v]|];
    try (exists (inr None); split; [done|]; by intros ??? [? _]).
  destruct (resolve_at_minted _ _ _ _ _ Hset f (range_start range) Hf) as (targets & Ht & Hm). rewrite Ht. cbn [mbind option_bind].
  destruct (existsb (is_library_def db) targets) eqn:He.
  - eexists. split; [reflexivity|]. exists name, range, targets. split; [done|]. left. split; [done|].
    apply existsb_exists in He as (d & Hd%list_elem_of_In & Hl). by exists d.
  - destruct (check_editable_total targets Hm) as (e & -> & Herr). cbn [mbind option_bind]. destruct e as [err|[]].
    + eexists. split; [reflexivity|]. exists name, range, targets. split; [done|]. right. by apply Herr.
    + eexists. split; [reflexivity|]. exists targets. split; [done|]. intros d Hd. apply not_true_is_false. intros Hl.
      assert (existsb (is_library_def db) targets = true) as Hex; [|by rewrite Hex in He].
      apply existsb_exists. exists d. split; [by apply list_elem_of_In|done].
Qed.

(** C12. A rename is all or nothing, and panics nowhere. If it edits, the new name
    was accepted, no definition of the variable is in an installed package, and
    there is exactly one edit for each reference, declarations among them, in
    their order, on its range, with the new name spelled as that site spells it:
    an identifier, or a literal in the same quotes. Otherwise it says why it edits
    nothing: no variable at the cursor, a name that is refused, no reference, a
    definition in an installed package, or a site, a definition of the variable
    or a reference to it, that is a raw string or no name at all. *)
Theorem rename_exact f offset new_name :
  file_valid db f → (offset ≤ N.of_nat (length (source_text db f)))%N →
  ∃ out, rename_ db f offset new_name = Some out ∧
    match out with
    | inr edits => ∃ n name range targets sites,
        parse_name new_name = inr n ∧ variable_at f offset name range targets ∧
        (∀ d, d ∈ targets → is_library_def db d = false) ∧
        find_references db f offset true = Some sites ∧ sites ≠ [] ∧ Forall2 (rewrites n) sites edits
    | inl CannotRename => ∀ name range targets, ¬ variable_at f offset name range targets
    | inl (NotAName err) => parse_name new_name = inl err
    | inl NoBinding => find_references db f offset true = Some []
    | inl InstalledPackage => ∃ name range targets d,
        variable_at f offset name range targets ∧ d ∈ targets ∧ is_library_def db d = true
    | inl err => ∃ r, refuses r err ∧
        ((∃ name range targets, variable_at f offset name range targets ∧ declared targets r) ∨
         reference_at f offset true r)
    end.
Proof.
  intros Hf Hoff. unfold rename_. destruct (renamable_at_total f offset Hf Hoff) as (o & -> & Ho). cbn [mbind option_bind].
  destruct o as [err|[[range name]|]]; [|destruct Ho as (targets & Hv & Hlib)|by eexists].
  { eexists. split; [reflexivity|]. destruct Ho as (name & range & targets & Hv & [[-> (d & Hd & Hl)]|(r & Hd & Href)]).
    - by exists name, range, targets, d.
    - assert (Hw : ∃ r, refuses r err ∧ ((∃ name range targets, variable_at f offset name range targets ∧ declared targets r) ∨
        reference_at f offset true r)) by (exists r; split; [done|]; left; by exists name, range, targets).
      destruct err; try exact Hw; by destruct Href as (? & _ & ?). }
  destruct (parse_name new_name) as [err|n]; [by eexists|].
  destruct (find_references_total f offset true Hf Hoff) as (sites & Hs & Hin & _). rewrite Hs. cbn [mbind option_bind].
  assert (Htext : Forall (λ r, in_text (source_text db (fr_file r)) (fr_range r)) sites).
  { apply Forall_forall. intros r (_ & i & Hi & Hr)%Hin. destruct Hv as [Hc _]. rewrite Hc in Hi. injection Hi as <-.
    destruct Hr as (targets' & Ht & Hr). eapply references_in_text; [|exact Hr].
    destruct (resolve_at_minted _ _ _ _ _ Hset f (range_start range) Hf) as (l & Hl & Hm). rewrite Hl in Ht. by injection Ht as <-. }
  destruct sites as [|site sites]; [by eexists|]. set (all := site :: sites) in *.
  destruct (render_sites_total n all Htext) as (out & Hout & Hspec). exists out. split; [exact Hout|].
  destruct out as [err|edits]; [|by exists n, name, range, targets, all].
  destruct Hspec as (r & Hr%Hin & Href).
  assert (Hw : ∃ r, refuses r err ∧ ((∃ name range targets, variable_at f offset name range targets ∧ declared targets r) ∨
    reference_at f offset true r)) by (exists r; split; [done|by right]).
  destruct err; try exact Hw; by destruct Href as (? & _ & ?).
Qed.
End references.

(** ** Witnesses, on a small workspace

    The names of [ResolveDemo]'s texts as tokens; an assignment has its target
    where it starts. *)

Definition ident (start len : N) (name : string) : SyntaxToken (H := reference_ranges) :=
  mkSyntaxToken Kind.IDENT (at_ start len) (text_of name).

Definition demo_tokens (source : text) : list SyntaxToken :=
  if bool_decide (source = text_a) then
    [ident 0 6 "source"; mkSyntaxToken Kind.R_STRING_LITERAL (at_ 7 5) (text_of "'b.R'"); ident 15 1 "b"]
  else if bool_decide (source = text_b) then [ident 0 1 "b"]
  else if bool_decide (source = text_arms) then [ident 4 1 "c"; ident 7 1 "b"; ident 19 1 "b"; ident 27 1 "b"]
  else [].

#[export] Instance demo_tree : SyntaxTree (H := reference_ranges) := {|
  token_at_offset source offset :=
    if bool_decide (offset ≤ N.of_nat (length source))%N then
      Some (match filter (λ t, range_start (tk_range t) ≤ offset ≤ range_end (tk_range t))%N (demo_tokens source) with
            | [] => NoToken
            | [t] => Single t
            | l :: r :: _ => Between l r
            end)
    else None;
  next_token _ _ := None;
  extract_of _ _ := None;
  namespace_of _ _ := None;
  extract_nodes _ := [];
  namespace_nodes _ := [];
  binary_node source ptr := mkBinary (Some Kind.OTHER)
    (tk_range <$> List.find (λ t, bool_decide (range_start (tk_range t) = range_start ptr)) (demo_tokens source)) None;
  parameter_name_range _ _ := None;
  for_variable_range _ _ := None;
  ptr_range _ ptr := ptr;
|}.

Lemma demo_tree_lawful : tree_lawful (H := reference_ranges).
Proof.
  split; try done; [|by intros ??? ?%elem_of_nil..].
  intros source offset Hoff. cbn. rewrite bool_decide_true by done. by eexists.
Qed.

Lemma demo_reads : reads_utf8.
Proof. by intros path t [=]. Qed.

(** The ranges of an index and of its definitions' names are inside a text. *)
Definition index_fits (source : text) (ix : SemanticIndex) : bool :=
  let fits range := bool_decide (is_Some (slice source (N.to_nat (range_start range)) (N.to_nat (range_end range)))) in
  forallb (forallb (λ use, fits (use_range use))) (ix_uses ix) &&
  forallb (forallb (λ def,
    match name_node_range source (def_kind def) with Some range => fits range | None => true end)) (ix_definitions ix).

Lemma index_fits_lawful (db : Db) (Q : Queries) :
  (∀ f, index_fits (source_text db f) (q_semantic_index f) = true) → ranges_lawful db Q.
Proof.
  intros Hfit. assert (Hall : ∀ {A} (p : A → bool) ll s x a,
    forallb (forallb p) ll = true → (l ← ll !! s; l !! x) = Some a → p a = true).
  { intros A p ll s x a Hp (l & Hl & Ha)%bind_Some. rewrite forallb_forall in Hp.
    specialize (Hp l). rewrite forallb_forall in Hp. apply Hp; by eapply list_elem_of_In, list_elem_of_lookup_2. }
  split.
  - intros f name range (s & k & use & Hu & _ & ->). specialize (Hfit f). apply andb_true_iff in Hfit as [Hf _].
    apply (Hall _ _ _ _ _ _ Hf), bool_decide_eq_true in Hu. exact Hu.
  - intros f s x def range Hd Hr. specialize (Hfit f). apply andb_true_iff in Hfit as [_ Hf].
    apply (Hall _ _ _ _ _ _ Hf) in Hd. rewrite Hr in Hd. by apply bool_decide_eq_true in Hd.
Qed.

#[local] Existing Instance demo_queries.

Lemma demo_ranges : ranges_lawful demo_db demo_queries.
Proof. apply index_fits_lawful. intros [|[|f]]; by vm_compute. Qed.

Lemma used_files_exact_witness :
  ∃ files, all_used_files demo_db = Some files ∧ NoDup files ∧
    ∀ f, f ∈ files ↔ ∃ l, l ∈ live_roots demo_db ∧ searched_in demo_db demo_queries l f.
Proof. exact (used_files_exact demo_db demo_queries demo_reads). Defined.

(** On the use of [b] in [a.R]: the definition is in [b.R]. *)
Lemma references_exact_witness : ∃ refs, find_references demo_db 0 15 true = Some refs ∧
  (∀ r, r ∈ refs ↔ reference_at demo_db demo_queries 0 15 true r) ∧
  StronglySorted (key_lte reference_le (reference_key demo_db 0)) refs.
Proof.
  refine (references_exact reference_registry demo_db demo_queries demo_rank no_cycle demo_settled
    demo_tree_lawful demo_reads 0 15 true _ _); vm_compute; [lia|done].
Defined.

Lemma demo_rename : rename_ demo_db 0 15 (text_of "new") =
  Some (inr [mkRenameEdit 0 (at_ 15 1) (text_of "new"); mkRenameEdit 1 (at_ 0 1) (text_of "new")]).
Proof. vm_compute. reflexivity. Qed.

Lemma rename_exact_witness :
  ∃ out, rename_ demo_db 0 15 (text_of "new") = Some out ∧
    match out with
    | inr edits => ∃ n name range targets sites,
        parse_name (text_of "new") = inr n ∧ variable_at demo_db demo_queries 0 15 name range targets ∧
        (∀ d, d ∈ targets → is_library_def demo_db d = false) ∧
        find_references demo_db 0 15 true = Some sites ∧ sites ≠ [] ∧ Forall2 (rewrites demo_db n) sites edits
    | inl CannotRename => ∀ name range targets, ¬ variable_at demo_db demo_queries 0 15 name range targets
    | inl (NotAName err) => parse_name (text_of "new") = inl err
    | inl NoBinding => find_references demo_db 0 15 true = Some []
    | inl InstalledPackage => ∃ name range targets d,
        variable_at demo_db demo_queries 0 15 name range targets ∧ d ∈ targets ∧ is_library_def demo_db d = true
    | inl err => ∃ r, refuses demo_db r err ∧
        ((∃ name range targets, variable_at demo_db demo_queries 0 15 name range targets ∧ declared demo_db demo_queries targets r) ∨
         reference_at demo_db demo_queries 0 15 true r)
    end.
Proof.
  refine (rename_exact reference_registry demo_db demo_queries demo_rank no_cycle demo_settled
    demo_tree_lawful demo_reads demo_ranges 0 15 (text_of "new") _ _); vm_compute; [lia|done].
Defined.

(** ** A rename that changes what a program does

    [if (c) b <- 1 else b <- 5; b], alone in a workspace. *)

Definition arms_db : Db := mkDb [demo_file "c.R" text_arms] []
  [mkRoot (FFile (at_path ["w"])) Workspace [0] [] []] [] [0] [] ∅ ∅ [] [].

Definition arms_queries : Queries :=
  with_index 0 (default empty_index (semantic_index_body (QS := stage0) reference_registry arms_db 0)) stage0.

(** From the name on the first arm, that name and the last use are renamed; the
    name on the second arm, which the use reads too, is not. From the use, all
    three are. *)
Lemma rename_leaves_other_arm :
  rename_ (Q := arms_queries) arms_db 0 7 (text_of "new") =
    Some (inr [mkRenameEdit 0 (at_ 7 1) (text_of "new"); mkRenameEdit 0 (at_ 27 1) (text_of "new")]) ∧
  rename_ (Q := arms_queries) arms_db 0 27 (text_of "new") =
    Some (inr [mkRenameEdit 0 (at_ 7 1) (text_of "new"); mkRenameEdit 0 (at_ 19 1) (text_of "new");
      mkRenameEdit 0 (at_ 27 1) (text_of "new")]).
Proof. split; vm_compute; reflexivity. Qed.
